(* ===== verification/_CoqProject ===== *)
-Q . S2P
Prelude.v
Probe.v
SlotMap.v
HashTag.v
Bitmask.v
SlotWalk.v
Group.v
Layout.v
Memory.v
TableApi.v
OverflowTable.v
OverflowInv.v
OverflowWrite.v
OverflowProbe.v
OverflowOps.v
OverflowApi.v
OverflowEntry.v
OverflowSpec.v
TombGroup.v
TombTable.v
TombInv.v
Ipo.v
Ipo64.v
TombWrite.v
TombProbe.v
TombOps.v
TombApi.v
TombMore.v
TombSpec.v
AllocLayout.v
PerfectHash.v
Chd.v
Float64.v
PerfectMap.v
TagTable.v
Bucketed.v
Multilevel.v
BTreeNode.v
BinSearch.v
BTree.v
BTreeInv.v
BTreeShape.v
BTreeRep.v
SortedAssoc.v
BTreeSearch.v
BTreeSplit.v
BTreeLeaf.v
BTreeInsert.v
BTreeRebalance.v
BTreeRemove.v
BTreeSpec.v
BTreeBulk.v
BTreeIter.v
BTreeScan.v
BTreeDrain.v
BTreeMap.v
BTreeEnds.v
BTreeClone.v
BTreeCollect.v
BTreeRange.v
BTreeSurgery.v
BTreeRuns.v
BTreeSurgerySpec.v
BTreeCut.v
GenericMap.v
RawEntry.v
OverflowMap.v
TombMap.v
MapApi.v
GenericSet.v
BTreeBackend.v
HashBackend.v
NamedMaps.v
GenericSetSpec.v
LegacyTable.v
LegacySet.v
OptiMap.v
OptiMapSpec.v
MakePerfect.v
OptiSet.v
