(* ===== verification/Prelude.v ===== *)
(** * OptiMap: a verification library

    OptiMap is a collection of maps and sets: SIMD-accelerated hash tables, a
    B+ tree in one arena, perfect-hash maps, and an adaptive map that moves its
    entries between them.  Every hash map is the generic map of
    [generic_map.rs] over a raw table, and every raw table keeps one allocation
    of control bytes and buckets that is probed group by group along a
    triangular sequence.  This library models these components and proves that
    each is the finite map, the ordered map or the finite set it stands for.

    ** The parts and their files

    - Foundations: [Prelude.v] (this file: machine integers, generic lemmas,
      hints), [Probe.v] (the triangular probe loop and its coverage of all
      groups), [SlotMap.v] (a function from slots to pairs seen as a finite
      map), [SlotWalk.v] (the loop of every slot iterator).
    - Hashing and groups: [HashTag.v] ([raw/tag_strategy.rs], [raw/hash.rs],
      [hash_tag] of [lib.rs]), [Bitmask.v] ([raw/bitmask.rs]), [Group.v]
      ([raw/generic_group.rs], [raw/group.rs], [raw/group32.rs],
      [raw/group64.rs]), [TombGroup.v] ([in_place_overflow/raw/group.rs],
      [ipo64/raw/group.rs]), [Layout.v] ([raw/group_layout.rs],
      [raw/overflow_strategy.rs]), [Memory.v] (blocks of bytes and buckets).
    - Overflow-bit tables (UFM, Splitsies, Gaps and the layout matrix):
      [OverflowTable.v] defines [RawTable<K, V, L, S>] of
      [raw/overflow_table.rs], one definition per method; [OverflowInv.v] its
      invariant; [OverflowWrite.v], [OverflowProbe.v], [OverflowOps.v],
      [OverflowApi.v], [OverflowEntry.v] what each operation
      does to the invariant and to the represented map; [OverflowSpec.v] the
      refinement theorems over all reachable tables, removals on every layout
      included, and the concrete runs on which the guarantees end.
    - The legacy table and set: [LegacyTable.v] ([raw/mod.rs], with the 15-slot
      group of [raw/group.rs]) and [LegacySet.v] ([set.rs]), each shown equal,
      operation by operation, to the engine or the generic set it duplicates.
    - Tombstone tables: [TombTable.v] defines the engine shared by
      [in_place_overflow/raw/mod.rs] and [ipo64/raw/mod.rs], parameterized by
      what they differ in; [Ipo.v] and [Ipo64.v] give the two instances and
      relate the definitions that only one table has to the engine's;
      [TombInv.v], [TombWrite.v], [TombProbe.v], [TombOps.v], [TombApi.v],
      [TombMore.v] and [TombSpec.v] mirror the overflow files.
    - Memory layout: [AllocLayout.v] computes the byte addresses of AoS and SoA
      storage ([raw/kv_storage.rs], [combined_layout] of each table).
    - Perfect hashing: [PerfectHash.v] (results with an error or a panic, the
      interface of a perfect hash function), [Chd.v] ([perfect/chd.rs]: the
      sequential construction as a function, the parallel one as a relation),
      [Float64.v] (the IEEE doubles of load factors, on [SpecFloat]),
      [PerfectMap.v] ([perfect/mod.rs], [perfect/set.rs]), [TagTable.v],
      [Bucketed.v] and [Multilevel.v] ([perfect/bucketed/*.rs]).
    - The B+ tree ([flat_btree/*.rs]): [BTreeNode.v] the byte layout of nodes,
      [BinSearch.v] the searches of the standard library the code calls,
      [BTree.v] the arena, search, insertion and removal of [raw.rs], with
      [BTreeInv.v], [BTreeShape.v], [BTreeRep.v], [SortedAssoc.v] (trees as
      sorted association lists) and one file per phase ([BTreeSearch.v],
      [BTreeSplit.v], [BTreeLeaf.v], [BTreeInsert.v], [BTreeRebalance.v],
      [BTreeRemove.v]); [BTreeSpec.v] the refinement theorems; [BTreeBulk.v] bulk
      loading; [BTreeIter.v], [BTreeDrain.v], [BTreeRange.v] the iterators;
      [BTreeScan.v] the lookups by equality; [BTreeMap.v], [BTreeEnds.v],
      [BTreeClone.v], [BTreeCollect.v], [BTreeRuns.v] the operations of [map.rs];
      [BTreeSurgery.v] grafting and cutting trees, with [append] and [split_off],
      and [BTreeSurgerySpec.v], [BTreeCut.v] what these do.
    - Maps: [TableApi.v] is the trait of [raw/table_api.rs] as a record of
      operations and its contract as the class [TableLaws]; [GenericMap.v]
      models [generic_map.rs] against it and [RawEntry.v] the calls of
      [raw_entry.rs] with a hash of the caller's; [OverflowMap.v] and [TombMap.v]
      discharge the contract for the two engines.  [MapApi.v] is the map
      interface of [traits.rs], with the contract [MapLaws], and the sorted one
      with [SortedLaws]; [HashBackend.v]
      discharges it for the generic map with its hasher, [NamedMaps.v] for each
      named map of the crate, [BTreeBackend.v] for the B+ tree.
    - The adaptive map and the sets: [OptiMap.v] models [optimap.rs] over the
      seven backends and [OptiMapSpec.v] proves it against the contract, as one
      more [MapLaws] instance; [MakePerfect.v] its conversions into the
      perfect-hash maps; [GenericSet.v] and [GenericSetSpec.v] model
      [generic_set.rs] over any map interface; [OptiSet.v] models [opti_set.rs].

    ** How state and operations correspond

    A table is a record with the fields of the Rust struct.  [ctrl] is either
    the static sentinel or a block: the list of its control bytes (metadata and
    overflow bytes, each a [Z] between 0 and 255) and the list of its buckets
    ([option (K * V)], [None] where the memory holds no initialized pair).  The
    arena of the B+ tree is a finite map from node indices to node bodies,
    parents and leaf links, so that a read of a node that was never written, or
    of the wrong kind, has no result.  A method that takes [&mut self] returns
    the new state.  Values the code drops in place are returned, so that
    "dropped exactly once" can be stated.  Hash values and capacities are [Z]
    with 64-bit wrap-around written out; group, slot, probe and node indices,
    which are bounded by allocated memory, are [nat].  The hasher is a parameter:
    any function from keys to 64-bit hashes, so that all theorems hold for every
    collision pattern.  A reference into a map is the place it points to.  An
    iterator is a record with a [next] step where its state matters, and
    the list it yields where a client runs it to the end.

    The adaptive map is its [Inner] variant and its policy; a call that may
    build a table is given the hasher of the new table ([DefaultHashBuilder::
    default()] of the code), and the theorems hold for every choice.

    Keys and values are read as the values they hold, wherever a slot of a table
    or a node holds one.  Two places of the code do not live up to this, and
    theorems say so.  The tables with interleaved storage read keys through
    [key_ptr], which is the key of a pair only if the compiler puts the key first
    ([key_ptr_misses_key] of [AllocLayout.v]).  And a removal from a B+ tree that
    merges internal nodes drops separators that stay in the tree: the record
    [dropped_seps], which is not a field of the program, lists what removals
    drop in place, and for keys with a destructor the separators it lists and
    the tree still holds are dropped keys ([btree_remove_double_drop] of
    [BTreeDrain.v]).

    ** Budgets

    The probe loops of the code have no counter; their definitions take the
    number of steps [fuel] they may make and return [None] when it runs out.
    Every theorem shows that a result is returned when the budget exceeds the
    number of groups (twice that number where the operation may grow the
    table), so the budget never hides a loop.  With eight overflow channels a
    lookup has one more condition: that the key is there or some group has the
    bit of its channel clear ([lookup_ends], an exit).  Without an exit it
    returns for no budget: that is a loop of the program, and [OverflowSpec.v]
    has a table on which removals have led to one.  Loops over
    the leaves or the levels of a tree take the number of live nodes or the
    height, which the theorems show to be enough.  An allocation is assumed to
    fit the address space when a table has at most [2 ^ MAX_LOG_GROUPS] groups,
    and an arena when it has at most [2 ^ 31] nodes; the code aborts beyond that.
    The predicates [mready], [mgrowable], [mcapable], [mreservable] and
    [mshrinkable] of [MapApi.v] name these assumptions for the clients of a map:
    the budget, the allocator and, in [mready] and [mgrowable] of the maps with
    eight channels ([UnorderedFlatMap], [Splitsies], [Gaps]), the exits, a
    condition on the state of the table.  It holds until the first removal after
    the control bytes were last cleared; [NamedMaps.v] and [OptiMapSpec.v] spell
    it out for each map.

    ** What the theorems show

    - Refinement: on every table that the operations can build, lookup,
      insertion and removal, when they return, are those of the finite map the
      table represents ([OverflowSpec.v], [TombSpec.v]).  They always return with
      tombstones and with one overflow bit per group; with eight channels they
      return exactly when their probe has an exit.  Both engines keep the contract of the
      table interface ([OverflowMap.v], [TombMap.v]); over any table that keeps it
      the generic map is a finite map ([GenericMap.v]); on every well-formed B+
      tree the operations are those of the ordered map ([BTreeSpec.v] and the
      files after it); every named map, the tree and the adaptive map keep
      the contract of the map interface ([NamedMaps.v], [BTreeBackend.v],
      [OptiMapSpec.v]); sets over any of them are finite sets ([GenericSetSpec.v]).
    - The adaptive map: the policy's answer, the transitions that move all
      entries and no others, which backend a map has after an insertion or a
      reservation, and the calls that never consult the policy ([OptiMapSpec.v]).
    - Perfect hashing: construction gives every key a slot of its own or
      reports why not; lookups of keys inside and outside answer as the finite
      map of the entries; a frozen adaptive map answers as it did before.
    - Invariants and termination: why a probe ends (with one overflow bit per
      group a clear bit remains because of the anti-drift rule; an EMPTY slot
      remains because of the growth budget), with the probe sequence visiting every group; the order,
      fill and links of a tree under splits, steals and merges.
    - Equivalence: all SIMD tiers compute the same masks; the byte-offset probe
      loops agree with the group-index loops; double-ended iteration of a tree
      is stepping through its sorted list; the scans by equality find what the
      searches find; the adaptive set is the generic set over the adaptive map; the legacy
      table and set are the engine and the generic set again.
    - Memory: every control byte of a table is an initialized [u8]
      ([OverflowSpec.v]); a lookup whose reads are all checked gives the same
      answers, so that it reads in bounds and only what is initialized; keys,
      values and metadata do not overlap and are aligned, with the exceptions
      proved; iterators, clear and
      drop treat every pair exactly once, with the leak of the owning tree
      iterator stated.
    - Limits: the last part of [OverflowSpec.v] and theorems in
      [AllocLayout.v], [Multilevel.v], [BTreeNode.v], [BTreeSpec.v], [BTreeBulk.v],
      [BTreeDrain.v], [BTreeRuns.v], [BTreeSurgerySpec.v] and [BTreeCut.v] are runs of the code
      on which a guarantee fails.

    ** Not modelled

    Delegation to maps of other crates in [traits.rs].  Prefetching and branch hints (no effect on results), the interior of the
    allocator (a block is fresh uninitialized memory), hash functions
    (foldhash, ahash: parameters), unwinding out of user callbacks ([Hash],
    [Eq], [Clone] and closures are total pure functions here), [Debug] output.
*)

From Stdlib Require Import ZArith Lia.
From stdpp Require Export base numbers list gmap.

(** ** Machine integers

    [u64], [u32] and [usize] values that take part in hashing or capacity
    arithmetic are [Z] with their wrap-around written out; [usize] values that
    only index memory that exists (group, slot and probe counters) are [nat]. *)

Definition wrap64 (z : Z) : Z := (z mod 2 ^ 64)%Z.
Definition wrapping_mul64 (a b : Z) : Z := wrap64 (a * b).
Definition wrapping_shr64 (h s : Z) : Z := Z.shiftr h (s mod 64).
Definition wrapping_sub32 (a b : Z) : Z := ((a - b) mod 2 ^ 32)%Z.
Definition as_u8 (z : Z) : Z := Z.land z 255.
Definition shl_u8 (a s : Z) : Z := as_u8 (Z.shiftl a s).

(** [usize::next_power_of_two]; a result that does not fit is 0 without
    overflow checks. *)
Definition next_power_of_two (n : Z) : Z := wrap64 (2 ^ Z.log2_up n).

Fixpoint pos_ctz (p : positive) : nat :=
  match p with
  | xO q => S (pos_ctz q)
  | _ => 0
  end.

(** [uN::trailing_zeros] for an integer of [w] bits. *)
Definition trailing_zeros (w : nat) (z : Z) : nat :=
  match z with
  | Zpos p => pos_ctz p
  | _ => w
  end.

(** ** Hint databases and tactics of the development *)

Create HintDb table discriminated.
Create HintDb bits discriminated.

Ltac split_and_all := repeat match goal with |- _ ∧ _ => split end.

(** Case analysis on the scrutinee of the first [match] of the goal, keeping
    the equation. *)
Ltac case_scrutinee :=
  match goal with
  | |- context [match ?x with _ => _ end] => destruct x eqn:?
  end.

(** [Z] side conditions produced by bit-level rewriting. *)
Ltac zsolve := first [lia | nia | done].

(** ** Natural numbers *)

Lemma pow2_pos k : 0 < 2 ^ k.
Proof. induction k; simpl; lia. Qed.

Lemma Z_pow2_of_nat k : Z.of_nat (2 ^ k) = (2 ^ Z.of_nat k)%Z.
Proof. rewrite Nat2Z.inj_pow. done. Qed.

#[export] Hint Resolve pow2_pos : table.

(** [x & (2^k - 1)] is reduction modulo [2^k]. *)
Lemma land_pow2_mask (x : Z) (k mask : nat) :
  S mask = 2 ^ k → Z.land x (Z.of_nat mask) = (x mod Z.of_nat (2 ^ k))%Z.
Proof.
  intros Hk. rewrite Z_pow2_of_nat, <- Z.land_ones by lia. f_equal.
  rewrite Z.ones_equiv, <- Z_pow2_of_nat. lia.
Qed.

Lemma wrap64_mod_pow2 (x : Z) (k : nat) :
  k <= 64 → (wrap64 x mod Z.of_nat (2 ^ k) = x mod Z.of_nat (2 ^ k))%Z.
Proof.
  intros Hk. unfold wrap64. rewrite Z_pow2_of_nat.
  apply Z.mod_mod_divide.
  exists (2 ^ (64 - Z.of_nat k))%Z. rewrite <- Z.pow_add_r by lia. f_equal. lia.
Qed.

Lemma land_mask_le (x : Z) (m : nat) : Z.to_nat (Z.land x (Z.of_nat m)) <= m.
Proof.
  assert (0 <= Z.land x (Z.of_nat m) <= Z.of_nat m)%Z; [|lia].
  apply Z.ldiff_le; [lia|]. apply Z.bits_inj'. intros i Hi.
  rewrite Z.ldiff_spec, Z.land_spec, Z.testbit_0_l.
  by destruct (Z.testbit x i), (Z.testbit (Z.of_nat m) i).
Qed.

(** ** Bytes *)

Lemma land_low_range (x n : Z) : (0 <= n → 0 <= Z.land x (Z.ones n) < 2 ^ n)%Z.
Proof. intros Hn. rewrite Z.land_ones by lia. apply Z.mod_pos_bound. lia. Qed.

(** An integer all of whose bits from [n] up are clear is below [2^n]. *)
Lemma range_of_bits (x n : Z) :
  (0 <= n)%Z → (∀ i, (n <= i)%Z → Z.testbit x i = false) → (0 <= x < 2 ^ n)%Z.
Proof.
  intros Hn Hx. assert (x = x mod 2 ^ n)%Z as ->; [|apply Z.mod_pos_bound; lia].
  apply Z.bits_inj'. intros i Hi. destruct (Z.lt_ge_cases i n).
  - by rewrite Z.mod_pow2_bits_low.
  - rewrite Z.mod_pow2_bits_high by lia. by apply Hx.
Qed.

Lemma bits_above (x n i : Z) :
  (0 <= x < 2 ^ n)%Z → (n <= i)%Z → Z.testbit x i = false.
Proof.
  intros Hx Hi. destruct (Z.eq_dec x 0%Z) as [->|Hne]; [apply Z.testbit_0_l|].
  destruct (Z.lt_ge_cases n 0%Z) as [Hneg|Hpos]; [rewrite Z.pow_neg_r in Hx; lia|].
  apply Z.bits_above_log2; [lia|]. apply Z.log2_lt_pow2; [lia|].
  apply Z.lt_le_trans with (2 ^ n)%Z; [lia|]. apply Z.pow_le_mono_r; lia.
Qed.

Lemma land_range_l (x y n : Z) :
  (0 <= n → 0 <= x < 2 ^ n → 0 <= Z.land x y < 2 ^ n)%Z.
Proof.
  intros Hn Hx. apply range_of_bits; [done|]. intros i Hi.
  by rewrite Z.land_spec, (bits_above x n i).
Qed.

Lemma lor_range (x y n : Z) :
  (0 <= n → 0 <= x < 2 ^ n → 0 <= y < 2 ^ n → 0 <= Z.lor x y < 2 ^ n)%Z.
Proof.
  intros Hn Hx Hy. apply range_of_bits; [done|]. intros i Hi.
  by rewrite Z.lor_spec, (bits_above x n i), (bits_above y n i).
Qed.

Lemma land_1_bit0 (m : Z) : Z.land m 1 ≠ 0%Z → Z.testbit m 0 = true.
Proof.
  destruct (Z.testbit m 0) eqn:E; [done|]. intros []. apply Z.bits_inj'. intros i Hi.
  rewrite Z.land_spec, Z.testbit_0_l. destruct (Z.eq_dec i 0%Z) as [->|Hne]; [by rewrite E|].
  rewrite (bits_above 1 1 i) by lia. apply andb_false_r.
Qed.

Lemma as_u8_range (x : Z) : (0 <= as_u8 x < 256)%Z.
Proof. apply (land_low_range x 8). lia. Qed.

Lemma as_u8_small (x : Z) : (0 <= x < 256 → as_u8 x = x)%Z.
Proof.
  intros Hx. unfold as_u8. change 255%Z with (Z.ones 8).
  rewrite Z.land_ones by lia. apply Z.mod_small. simpl. lia.
Qed.

(** Statements about one byte are decided by evaluating all 256 cases. *)
Lemma byte_forall (p : Z → bool) :
  forallb (λ n, p (Z.of_nat n)) (seq 0 256) = true →
  ∀ b, (0 <= b < 256)%Z → p b = true.
Proof.
  intros Hall b Hb. rewrite forallb_forall in Hall.
  rewrite <- (Z2Nat.id b) by lia. apply Hall. apply in_seq. lia.
Qed.

Ltac byte_cases :=
  lazymatch goal with
  | |- ∀ b, _ → (?lo <= @?f b <= ?hi)%Z =>
      let b := fresh in let Hb := fresh in
      intros b Hb;
      let H := fresh in
      assert ((lo <=? f b) && (f b <=? hi) = true)%Z as H
        by (revert b Hb; apply byte_forall; vm_compute; reflexivity);
      cbv beta in H; lia
  end.

(** ** Lists *)

Section list_lemmas.
Context {A B : Type}.
Implicit Types (l : list A) (f g : A → option B).

Lemma omap_ext_elem f g l : (∀ x, x ∈ l → f x = g x) → omap f l = omap g l.
Proof.
  induction l as [|a l IH]; intros H; [done|]. csimpl.
  rewrite (H a) by set_solver. rewrite IH by set_solver. done.
Qed.

Lemma omap_none f l : (∀ x, x ∈ l → f x = None) → omap f l = [].
Proof.
  induction l as [|a l IH]; intros H; [done|]. csimpl.
  rewrite (H a) by set_solver. apply IH. set_solver.
Qed.

(** Filling one empty cell of an array adds its content to the multiset. *)
Lemma omap_fill_perm f g (p : A) (x : B) l :
  NoDup l → p ∈ l → f p = None → g p = Some x →
  (∀ q, q ∈ l → q ≠ p → g q = f q) →
  omap g l ≡ₚ x :: omap f l.
Proof.
  intros Hnd Hp Hf Hg Hne.
  apply list_elem_of_split in Hp as (l1 & l2 & ->).
  apply NoDup_app in Hnd as (Hnd1 & Hdisj & Hnd2).
  apply NoDup_cons in Hnd2 as [Hp2 Hnd2].
  rewrite !omap_app. csimpl. rewrite Hf, Hg.
  rewrite (omap_ext_elem g f l1), (omap_ext_elem g f l2).
  - symmetry. apply Permutation_middle.
  - intros q Hq. apply Hne; [set_solver|]. intros ->. done.
  - intros q Hq. apply Hne; [set_solver|]. intros ->.
    apply (Hdisj p); set_solver.
Qed.

Lemma omap_length_lt f l : length (omap f l) < length l → ∃ p, p ∈ l ∧ f p = None.
Proof.
  induction l as [|a l IH]; csimpl; [lia|].
  destruct (f a) eqn:Hfa; csimpl; intros Hlt.
  - destruct IH as (p & Hp & Hfp); [lia|]. exists p. set_solver.
  - exists a. set_solver.
Qed.

Lemma omap_all_length f l : (∀ p, p ∈ l → is_Some (f p)) → length (omap f l) = length l.
Proof.
  induction l as [|a l IH]; intros Hall; [done|]. csimpl.
  destruct (Hall a) as [b Hb]; [by left|]. rewrite Hb. simpl. f_equal. apply IH.
  intros p Hp. apply Hall. by right.
Qed.

Lemma omap_length_le f l : length (omap f l) <= length l.
Proof. induction l as [|a l IH]; csimpl; [lia|]. destruct (f a); csimpl; lia. Qed.
End list_lemmas.

Lemma elem_of_omap_iff {A B} (f : A → option B) (l : list A) b :
  b ∈ omap f l ↔ ∃ a, a ∈ l ∧ f a = Some b.
Proof. apply list_elem_of_omap. Qed.

Lemma omap_keys_NoDup {A K V} (f : A → option (K * V)) (l : list A) :
  NoDup l →
  (∀ p q k v v', p ∈ l → q ∈ l → f p = Some (k, v) → f q = Some (k, v') → p = q) →
  NoDup (omap f l).*1.
Proof.
  induction l as [|a l IH]; intros Hnd Hinj; [constructor|].
  apply NoDup_cons in Hnd as [Ha Hnd]. csimpl.
  assert (NoDup (omap f l).*1) as Hl by (apply IH; [done|]; intros; eapply Hinj; set_solver).
  destruct (f a) as [[k v]|] eqn:Hfa; [|done]. csimpl. apply NoDup_cons. split; [|done].
  intros ([k' v'] & Hk & Hin)%list_elem_of_fmap. simpl in Hk. subst k'.
  apply elem_of_omap_iff in Hin as (q & Hq & Hfq).
  assert (a = q) as -> by (eapply Hinj; set_solver). done.
Qed.

(** Turning the predicate off at the first element it selects. *)
Lemma filter_remove_head {A} `{EqDecision A} (f f' : A → bool) (l : list A) (q : A) r :
  NoDup l → List.filter f l = q :: r →
  (∀ p, p ∈ l → f' p = f p && negb (bool_decide (p = q))) → List.filter f' l = r.
Proof.
  induction l as [|a l IH]; intros Hnd Hf Hf'; [done|].
  apply NoDup_cons in Hnd as [Ha Hnd]. simpl in *. rewrite (Hf' a) by by left.
  destruct (f a) eqn:Hfa; simpl.
  - injection Hf as -> <-. rewrite bool_decide_true by done. simpl.
    apply List.filter_ext_in. intros p Hp%list_elem_of_In. rewrite Hf' by by right.
    rewrite bool_decide_false by (by intros ->). apply andb_true_r.
  - apply IH; [done|done|]. intros p Hp. apply Hf'. by right.
Qed.

(** The cells of [n] groups of [gs] slots, in iteration order. *)
Definition slot_list (n gs : nat) : list (nat * nat) := gi ← seq 0 n; pair gi <$> seq 0 gs.

Lemma elem_of_slot_list n gs gi si : (gi, si) ∈ slot_list n gs ↔ gi < n ∧ si < gs.
Proof.
  unfold slot_list. rewrite list_elem_of_bind. split.
  - intros (g & (s & Heq & Hs)%list_elem_of_fmap & Hg). simplify_eq.
    apply elem_of_seq in Hs, Hg. lia.
  - intros [Hg Hs]. exists gi. split; [|apply elem_of_seq; lia].
    apply list_elem_of_fmap. exists si. split; [done|]. apply elem_of_seq. lia.
Qed.

Lemma slot_list_NoDup n gs : NoDup (slot_list n gs).
Proof.
  unfold slot_list. cut (∀ m, NoDup (gi ← seq m n; pair gi <$> seq 0 gs)); [done|].
  induction n as [|n IH]; intros m; [constructor|].
  cbn [seq]. rewrite bind_cons. apply NoDup_app. split_and_all; [| |apply IH].
  - apply NoDup_fmap_2; [intros ?? [=]; done|apply NoDup_seq].
  - intros x (s & -> & _)%list_elem_of_fmap (g & (s' & Heq & _)%list_elem_of_fmap & Hg)%list_elem_of_bind.
    simplify_eq. apply elem_of_seq in Hg. lia.
Qed.

Lemma slot_list_length n gs : length (slot_list n gs) = n * gs.
Proof.
  unfold slot_list. cut (∀ m, length (gi ← seq m n; pair gi <$> seq 0 gs) = n * gs); [done|].
  induction n as [|n IH]; intros m; [done|].
  cbn [seq]. rewrite bind_cons, length_app, IH, length_fmap, length_seq. done.
Qed.

(** Number of list elements that satisfy a boolean predicate. *)
Definition countb {A} (p : A → bool) (l : list A) : nat :=
  length (filter (λ x, p x = true) l).

Section countb.
Context {A : Type}.
Implicit Types (p q : A → bool) (l : list A).

Lemma countb_nil p : countb p [] = 0.
Proof. done. Qed.

Lemma countb_cons p a l : countb p (a :: l) = (if p a then 1 else 0) + countb p l.
Proof.
  unfold countb. rewrite filter_cons. destruct (p a) eqn:E.
  - rewrite decide_True by done. done.
  - rewrite decide_False by congruence. done.
Qed.

Lemma countb_le p q l :
  (∀ x, x ∈ l → p x = true → q x = true) → countb p l <= countb q l.
Proof.
  induction l as [|a l IH]; intros H; [done|]. rewrite !countb_cons.
  assert (countb p l <= countb q l) by (apply IH; set_solver).
  specialize (H a). destruct (p a), (q a); try lia.
  exfalso. discriminate H; set_solver.
Qed.

Lemma countb_ext p q l : (∀ x, x ∈ l → p x = q x) → countb p l = countb q l.
Proof.
  intros H. apply Nat.le_antisymm; apply countb_le; intros x Hx.
  - by rewrite H.
  - by rewrite H.
Qed.

Lemma countb_all p l : (∀ x, x ∈ l → p x = true) → countb p l = length l.
Proof.
  induction l as [|a l IH]; intros H; [done|]. rewrite countb_cons.
  rewrite (H a) by set_solver. rewrite IH by set_solver. done.
Qed.

Lemma countb_none p l : (∀ x, x ∈ l → p x = false) → countb p l = 0.
Proof.
  induction l as [|a l IH]; intros H; [done|]. rewrite countb_cons.
  rewrite H by (by left). apply IH. set_solver.
Qed.

(** Changing the predicate at one element changes the count by at most one. *)
Lemma countb_update p q (c : A) l :
  NoDup l → (∀ x, x ∈ l → x ≠ c → p x = q x) →
  c ∈ l → countb p l + (if q c then 1 else 0) = countb q l + (if p c then 1 else 0).
Proof.
  induction l as [|a l IH]; intros Hnd H Hc; [set_solver|].
  apply NoDup_cons in Hnd as [Ha Hnd]. rewrite !countb_cons.
  apply elem_of_cons in Hc as [->|Hc].
  - assert (countb p l = countb q l) as ->; [|lia].
    apply countb_ext. intros x Hx. apply H; set_solver.
  - assert (a ≠ c) by set_solver. rewrite (H a) by set_solver.
    specialize (IH Hnd). rewrite <- Nat.add_assoc, IH; [lia| |done].
    intros x Hx Hne. apply H; set_solver.
Qed.

Lemma countb_omap {B} (f : A → option B) l :
  countb (λ x, match f x with Some _ => true | None => false end) l = length (omap f l).
Proof.
  induction l as [|a l IH]; [done|]. rewrite countb_cons. csimpl.
  destruct (f a); csimpl; lia.
Qed.

Lemma countb_app p l1 l2 : countb p (l1 ++ l2) = countb p l1 + countb p l2.
Proof. induction l1 as [|a l1 IH]; [done|]. cbn [app]. rewrite !countb_cons, IH. lia. Qed.

Lemma countb_negb p l : countb p l + countb (λ x, negb (p x)) l = length l.
Proof.
  induction l as [|a l IH]; [done|]. rewrite !countb_cons.
  destruct (p a); simpl; lia.
Qed.
End countb.

(** A duplicate-free list of [n] numbers below [n] holds all of them. *)
Lemma NoDup_bounded_surj (l : list nat) (n g : nat) :
  NoDup l → length l = n → (∀ x, x ∈ l → x < n) → g < n → g ∈ l.
Proof.
  intros Hnd Hlen Hb Hg.
  assert (l ⊆+ seq 0 n) as Hsub.
  { apply NoDup_submseteq; [done|]. intros x Hx. apply elem_of_seq.
    specialize (Hb x Hx). lia. }
  assert (l ≡ₚ seq 0 n) as ->.
  { apply submseteq_length_Permutation; [done|]. rewrite length_seq. lia. }
  apply elem_of_seq. lia.
Qed.

(** ** Association lists as finite maps *)

Section assoc.
Context {K V : Type} `{Countable K}.
Implicit Types (l : list (K * V)).

Definition map_of (l : list (K * V)) : gmap K V := list_to_map l.

Lemma map_of_cons k v l : map_of ((k, v) :: l) = <[k := v]> (map_of l).
Proof. done. Qed.

Lemma map_of_perm l1 l2 : NoDup l1.*1 → l1 ≡ₚ l2 → map_of l1 = map_of l2.
Proof. apply list_to_map_proper. Qed.

Lemma map_of_lookup l k v : NoDup l.*1 → map_of l !! k = Some v ↔ (k, v) ∈ l.
Proof. intros. symmetry. by apply elem_of_list_to_map. Qed.

Lemma map_of_lookup_none l k : map_of l !! k = None ↔ k ∉ l.*1.
Proof. symmetry. apply not_elem_of_list_to_map. Qed.

Lemma map_of_size l : NoDup l.*1 → size (map_of l) = length l.
Proof.
  induction l as [|[k v] l IH]; intros Hnd; [done|].
  simpl in Hnd. apply NoDup_cons in Hnd as [Hk Hnd]. rewrite map_of_cons.
  rewrite map_size_insert_None; [simpl; by rewrite IH|].
  by apply map_of_lookup_none.
Qed.
End assoc.

(** ** Loops that may not return

    A Rust [loop] is a function of a step budget; [None] means the budget ran
    out before the loop returned. *)

Notation "'do' x <- a ; b" := (match a with Some x => b | None => None end)
  (at level 100, x name, a at level 90, b at level 200, right associativity,
   only parsing).
Notation "'do' ' p <- a ; b" := (match a with Some p => b | None => None end)
  (at level 100, p pattern, a at level 90, b at level 200, right associativity,
   only parsing).
