(* ===== verification/Probe.v ===== *)
(** * Triangular probing

    Every hash table of the crate walks its groups with the same loop,

      let mut gi = group_index(h);  let mut probe = 0;
      loop { body;  probe += 1;  gi = gi.wrapping_add(probe) & mask; }

    over a power-of-two number of groups.  This file holds that loop as a
    combinator, the closed form of the positions it visits, the theorem that
    the first [2^k] positions are all the groups, and the two proof rules the
    table files use: one for what a returning loop has established, one for
    why it returns. *)

From Stdlib Require Import ZArith Lia.
From S2P Require Import Prelude.

(** [gi = (gi.wrapping_add(probe)) & self.mask] *)
(*@ raw/overflow_table.rs : 251-252 : RawTable::find_by_hash_impl *)
Definition next_group (mask gi probe : nat) : nat :=
  Z.to_nat (Z.land (wrap64 (Z.of_nat gi + Z.of_nat probe)) (Z.of_nat mask)).

Section loop.
Context {S R : Type}.
Implicit Types (body : nat → nat → S → R + S).

(** [body probe gi state] either returns from the loop or falls through to
    the next position with an updated state. *)
Fixpoint probe_loop (fuel mask : nat) body (probe gi : nat) (s : S) : option R :=
  match fuel with
  | 0 => None
  | Datatypes.S fuel' =>
      match body probe gi s with
      | inl r => Some r
      | inr s' =>
          let probe' := probe + 1 in
          probe_loop fuel' mask body probe' (next_group mask gi probe') s'
      end
  end.
End loop.

(** The group visited at step [i] of a probe that starts at [home]. *)
Fixpoint probe_pos (mask home i : nat) : nat :=
  match i with
  | 0 => home
  | S i' => next_group mask (probe_pos mask home i') i
  end.

(** ** Triangular numbers modulo a power of two *)

(** Triangular numbers, without a division. *)
Fixpoint tri (i : nat) : nat := match i with 0 => 0 | S i' => tri i' + i end.

Lemma tri_double i : 2 * tri i = i * (i + 1).
Proof. induction i as [|i IH]; simpl tri; lia. Qed.

Lemma tri_mono i j : i <= j → tri i <= tri j.
Proof. induction 1; simpl; lia. Qed.

(** Two different steps below [2^k] visit different groups: their distance
    [(j - i)(j + i + 1) / 2] is not a multiple of [2^k], because one factor
    is odd and the other is smaller than [2^(k+1)]. *)
Lemma pow2_odd_divide (n : nat) (a b : Z) :
  (Z.Odd a)%Z → (2 ^ Z.of_nat n | a * b)%Z → (2 ^ Z.of_nat n | b)%Z.
Proof.
  intros [c ->] Hd. apply Z.gauss with (2 * c + 1)%Z; [done|].
  apply Z.bezout_1_gcd.
  assert (Z.gcd (2 ^ Z.of_nat n) (2 * c + 1) = 1)%Z as Hg.
  { clear. induction n as [|n IH].
    - simpl Z.of_nat. rewrite Z.pow_0_r. apply Z.gcd_1_l.
    - rewrite Nat2Z.inj_succ, Z.pow_succ_r by lia.
      apply Z.coprime_mul_l; [|done].
      apply Z.bezout_1_gcd. exists (- c)%Z, 1%Z. lia. }
  apply Z.gcd_bezout in Hg as (x & y & Hxy). exists x, y. lia.
Qed.

Lemma tri_inj_mod k i j :
  i < j → j < 2 ^ k → (Z.of_nat (2 ^ k) | Z.of_nat (tri j - tri i))%Z → False.
Proof.
  intros Hij Hj Hd.
  assert (2 * Z.of_nat (tri j - tri i) =
          (Z.of_nat (j - i)) * (Z.of_nat (j + i + 1)))%Z as Heq.
  { pose proof (tri_double i). pose proof (tri_double j).
    pose proof (tri_mono i j). nia. }
  assert (2 ^ Z.of_nat (S k) | Z.of_nat (j - i) * Z.of_nat (j + i + 1))%Z as Hd'.
  { rewrite <- Heq, Nat2Z.inj_succ, Z.pow_succ_r by lia.
    apply Z.mul_divide_mono_l. rewrite <- Z_pow2_of_nat. done. }
  assert (Z.of_nat (2 ^ S k) = 2 ^ Z.of_nat (S k))%Z as Hp by apply Z_pow2_of_nat.
  simpl Nat.pow in Hp.
  destruct (Z.Even_or_Odd (Z.of_nat (j - i))) as [He|Ho].
  - assert (Z.Odd (Z.of_nat (j + i + 1))) as Ho.
    { destruct He as [c Hc]. exists (c + Z.of_nat i)%Z. lia. }
    rewrite Z.mul_comm in Hd'.
    apply (pow2_odd_divide (S k)) in Hd'; [|done].
    apply Z.divide_pos_le in Hd'; lia.
  - apply (pow2_odd_divide (S k)) in Hd'; [|done].
    apply Z.divide_pos_le in Hd'; lia.
Qed.

Lemma mod_eq_divide (n a b : nat) :
  a <= b → a mod n = b mod n → (Z.of_nat n | Z.of_nat (b - a))%Z.
Proof.
  intros Hab Hm. exists (Z.of_nat (b / n) - Z.of_nat (a / n))%Z.
  pose proof (Nat.div_mod_eq a n). pose proof (Nat.div_mod_eq b n). nia.
Qed.

(** ** Positions *)

Section positions.
Context (mask k : nat) (Hmask : S mask = 2 ^ k) (Hk : k <= 64).

Lemma next_group_mod gi probe : next_group mask gi probe = (gi + probe) mod 2 ^ k.
Proof using Hmask Hk.
  unfold next_group. rewrite (land_pow2_mask _ k) by done.
  rewrite wrap64_mod_pow2 by done.
  rewrite <- Nat2Z.inj_add, <- Nat2Z.inj_mod, Nat2Z.id. done.
Qed.

Lemma next_group_le gi probe : next_group mask gi probe <= mask.
Proof using Hmask Hk.
  rewrite next_group_mod. pose proof (Nat.mod_upper_bound (gi + probe) (2 ^ k)). lia.
Qed.

Lemma probe_pos_le home i : home <= mask → probe_pos mask home i <= mask.
Proof using Hmask Hk. destruct i; simpl; [done|]. intros _. apply next_group_le. Qed.

Lemma probe_pos_closed home i :
  home <= mask → probe_pos mask home i = (home + tri i) mod 2 ^ k.
Proof using Hmask Hk.
  intros Hh. induction i as [|i IH]; simpl probe_pos; simpl tri.
  - rewrite Nat.add_0_r, Nat.mod_small by lia. done.
  - rewrite next_group_mod, IH, Nat.Div0.add_mod_idemp_l. f_equal. lia.
Qed.

Lemma probe_pos_inj home i j :
  home <= mask → i < j → j < 2 ^ k →
  probe_pos mask home i = probe_pos mask home j → False.
Proof using Hmask Hk.
  intros Hh Hij Hj. rewrite !probe_pos_closed by done. intros Heq.
  apply (tri_inj_mod k i j); [done..|].
  apply mod_eq_divide in Heq; [|pose proof (tri_mono i j); lia].
  replace (tri j - tri i) with (home + tri j - (home + tri i)) by lia. done.
Qed.

Lemma probe_positions_NoDup home n :
  home <= mask → n <= 2 ^ k → NoDup (map (probe_pos mask home) (seq 0 n)).
Proof using Hmask Hk.
  intros Hh Hn. apply NoDup_fmap_2_strong; [|apply NoDup_seq].
  intros x y Hx Hy Heq. apply elem_of_seq in Hx, Hy.
  destruct (Nat.lt_trichotomy x y) as [Hlt|[->|Hlt]]; [|done|]; exfalso.
  - eapply (probe_pos_inj home x y); [done..|lia|done].
  - eapply (probe_pos_inj home y x); [done..|lia|done].
Qed.

Lemma probe_surjective home g :
  home <= mask → g <= mask → ∃ i, i < 2 ^ k ∧ probe_pos mask home i = g.
Proof using Hmask Hk.
  intros Hh Hg.
  assert (g ∈ map (probe_pos mask home) (seq 0 (2 ^ k))) as Hin.
  { apply NoDup_bounded_surj with (n := 2 ^ k).
    - by apply probe_positions_NoDup.
    - by rewrite length_map, length_seq.
    - intros x Hx. apply list_elem_of_fmap in Hx as (i & -> & _).
      pose proof (probe_pos_le home i Hh). lia.
    - lia. }
  apply list_elem_of_fmap in Hin as (i & -> & Hi).
  apply elem_of_seq in Hi. exists i. split; [lia|done].
Qed.
End positions.

(** The probe sequence of every table reaches every group: whatever the
    home group, each of the [2^k] groups is visited within the first [2^k]
    steps of [gi = (gi + probe) & mask]. *)
Theorem probe_covers_all_groups (mask k home g : nat) :
  S mask = 2 ^ k → k <= 64 → home <= mask → g <= mask →
  ∃ i, i < 2 ^ k ∧ probe_pos mask home i = g.
Proof. intros. by apply (probe_surjective mask k). Qed.

(** ** Proof rules for the loop *)

Section rules.
Context {S R : Type} (mask home : nat) (body : nat → nat → S → R + S).
Implicit Types (I : nat → S → Prop) (Q : R → Prop).

(** What a loop that returned has established: [I] holds at every step that
    fell through, and the returning step turned it into [Q]. *)
Lemma probe_loop_partial I Q fuel p s r :
  I p s →
  (∀ i s, p <= i → I i s →
     match body i (probe_pos mask home i) s with
     | inl r => Q r
     | inr s' => I (Datatypes.S i) s'
     end) →
  probe_loop fuel mask body p (probe_pos mask home p) s = Some r → Q r.
Proof.
  revert p s. induction fuel as [|fuel IH]; intros p s HI Hstep; simpl; [done|].
  pose proof (Hstep p s (le_n _) HI) as Hp.
  destruct (body p (probe_pos mask home p) s) as [r'|s'].
  - intros [= ->]. done.
  - rewrite Nat.add_1_r. apply (IH (Datatypes.S p)); [done|].
    intros i s0 Hi. apply Hstep. lia.
Qed.

(** Why a loop returns: no step after [n] falls through. *)
Lemma probe_loop_total I Q n fuel p s :
  I p s →
  (∀ i s, p <= i → I i s →
     match body i (probe_pos mask home i) s with
     | inl r => Q r
     | inr s' => i < n ∧ I (Datatypes.S i) s'
     end) →
  n < p + fuel → 0 < fuel →
  ∃ r, probe_loop fuel mask body p (probe_pos mask home p) s = Some r ∧ Q r.
Proof.
  revert p s. induction fuel as [|fuel IH]; intros p s HI Hstep Hn Hf; [lia|].
  simpl. pose proof (Hstep p s (le_n _) HI) as Hp.
  destruct (body p (probe_pos mask home p) s) as [r'|s'].
  - eauto.
  - destruct Hp as [Hpn HI']. rewrite Nat.add_1_r.
    apply (IH (Datatypes.S p)); [done| |lia|lia].
    intros i s0 Hi. apply Hstep. lia.
Qed.

(** A loop none of whose steps returns runs out of every budget. *)
Lemma probe_loop_diverges I fuel p s :
  I p s →
  (∀ i s, p <= i → I i s →
     ∃ s', body i (probe_pos mask home i) s = inr s' ∧ I (Datatypes.S i) s') →
  probe_loop fuel mask body p (probe_pos mask home p) s = None.
Proof.
  revert p s. induction fuel as [|fuel IH]; intros p s HI Hstep; simpl; [done|].
  destruct (Hstep p s (le_n _) HI) as (s' & -> & HI').
  rewrite Nat.add_1_r. apply (IH (Datatypes.S p)); [done|].
  intros i s0 Hi. apply Hstep. lia.
Qed.

(** A larger budget changes nothing once the loop has returned. *)
Lemma probe_loop_mono fuel fuel' p gi s r :
  fuel <= fuel' →
  probe_loop fuel mask body p gi s = Some r →
  probe_loop fuel' mask body p gi s = Some r.
Proof.
  revert fuel' p gi s. induction fuel as [|fuel IH]; intros fuel' p gi s Hle; [done|].
  destruct fuel' as [|fuel']; [lia|]. simpl.
  destruct (body p gi s) as [r'|s']; [done|]. apply IH. lia.
Qed.
End rules.

(** Two loops whose steps agree up to what they return. *)
Lemma probe_loop_map {S R R' : Type} (g : R → R') (mask home : nat) (body : nat → nat → S → R' + S)
    (body' : nat → nat → S → R + S) fuel p s :
  (∀ i s, body i (probe_pos mask home i) s =
     match body' i (probe_pos mask home i) s with inl r => inl (g r) | inr s => inr s end) →
  probe_loop fuel mask body p (probe_pos mask home p) s =
  g <$> probe_loop fuel mask body' p (probe_pos mask home p) s.
Proof.
  intros Hb. revert p s. induction fuel as [|fuel IH]; intros p s; [done|]. simpl. rewrite Hb.
  destruct (body' p (probe_pos mask home p) s); [done|]. rewrite Nat.add_1_r. apply (IH (Datatypes.S p)).
Qed.

Lemma probe_covers_all_groups_witness :
  S 7 = 2 ^ 3 ∧ ∃ i, i < 2 ^ 3 ∧ probe_pos 7 5 i = 2.
Proof. split; [reflexivity|]. apply (probe_covers_all_groups 7 3 5 2); simpl; lia. Defined.
