(* ===== verification/SlotMap.v ===== *)
(** * Slot functions as finite maps

    A hash table seen through its slots is a function from positions to pairs.
    This file holds what filling, erasing or overwriting one position does to
    the finite map that the function represents, and the probe argument that
    every open-addressing table of the crate shares: a key that was not found
    up to the first group that stops a probe is not in the table. *)

From Stdlib Require Import ZArith Lia.
From S2P Require Import Prelude.

Section slotmap.
Context {P K V : Type} `{EqDecision P} `{Countable K}.
Context (l : list P) (Hnd : NoDup l).
Implicit Types s : P → option (K * V).

(** The pairs in the order of the positions, and the map they form. *)
Definition kvs s : list (K * V) := omap s l.
Definition slot_map s : gmap K V := map_of (kvs s).

(** No key stands in two positions. *)
Definition unique s : Prop :=
  ∀ p q k v v', p ∈ l → q ∈ l → s p = Some (k, v) → s q = Some (k, v') → p = q.

Lemma kvs_keys_NoDup s : unique s → NoDup (kvs s).*1.
Proof using Hnd. intros Hu. by apply omap_keys_NoDup. Qed.

Lemma slot_map_lookup s k v :
  unique s → slot_map s !! k = Some v ↔ ∃ p, p ∈ l ∧ s p = Some (k, v).
Proof using Hnd.
  intros Hu. unfold slot_map. rewrite map_of_lookup by by apply kvs_keys_NoDup.
  apply elem_of_omap_iff.
Qed.

Lemma slot_map_lookup_none s k :
  unique s → slot_map s !! k = None ↔ ∀ p v, p ∈ l → s p ≠ Some (k, v).
Proof using Hnd.
  intros Hu. split.
  - intros Hn p v Hp Hs. assert (slot_map s !! k = Some v) by (apply slot_map_lookup; eauto).
    congruence.
  - intros Hn. destruct (slot_map s !! k) as [v|] eqn:E; [|done].
    apply slot_map_lookup in E as (p & Hp & Hs); [|done]. by destruct (Hn p v).
Qed.

Lemma slot_map_size s : unique s → size (slot_map s) = length (kvs s).
Proof using Hnd. intros Hu. apply map_of_size. by apply kvs_keys_NoDup. Qed.

Definition kvs_without s (p : P) : list (K * V) :=
  omap (λ q, if decide (q = p) then None else s q) l.

Lemma kvs_split s p : p ∈ l → kvs s ≡ₚ option_list (s p) ++ kvs_without s p.
Proof using Hnd.
  intros Hp. unfold kvs, kvs_without. destruct (s p) as [x|] eqn:Ex; simpl.
  - apply omap_fill_perm with (p := p); [done|done|by rewrite decide_True|done|].
    intros q _ Hne. by rewrite decide_False.
  - erewrite omap_ext_elem; [done|]. intros q _. simpl. case_decide; [by subst|done].
Qed.

Section update.
Context s s' (p : P) (Hp : p ∈ l) (Hsame : ∀ q, q ∈ l → q ≠ p → s' q = s q).

Lemma kvs_without_same : kvs_without s' p = kvs_without s p.
Proof using All.
  unfold kvs_without. apply omap_ext_elem. intros q Hq. case_decide; [done|]. by apply Hsame.
Qed.

Lemma kvs_update : kvs s' ≡ₚ option_list (s' p) ++ kvs_without s p.
Proof using All. rewrite (kvs_split s' p) by done. by rewrite kvs_without_same. Qed.

(** The new content of [p] is no duplicate. *)
Lemma unique_update_fill :
  unique s →
  (∀ k v v' q, s' p = Some (k, v) → q ∈ l → q ≠ p → s q ≠ Some (k, v')) → unique s'.
Proof using All.
  intros Hu Hnew q r k v v' Hq Hr Hsq Hsr.
  destruct (decide (q = p)) as [->|Hqp], (decide (r = p)) as [->|Hrp]; [done| | |].
  - rewrite Hsame in Hsr by done. by destruct (Hnew k v v' r).
  - rewrite Hsame in Hsq by done. by destruct (Hnew k v' v q).
  - rewrite Hsame in Hsq by done. rewrite Hsame in Hsr by done. by apply (Hu q r k v v').
Qed.

Lemma slot_map_fill k v :
  unique s → s p = None → s' p = Some (k, v) → slot_map s !! k = None →
  unique s' ∧ slot_map s' = <[k := v]> (slot_map s) ∧ kvs s' ≡ₚ (k, v) :: kvs s.
Proof using All.
  intros Hu Hsp Hsp' Hk.
  assert (unique s') as Hu'.
  { apply unique_update_fill; [done|]. intros k' v1 v2 q. rewrite Hsp'. intros [= <- <-] Hq _ Hs.
    apply slot_map_lookup_none with (p := q) (v := v2) in Hk; done. }
  assert (kvs s' ≡ₚ (k, v) :: kvs s) as Hkvs.
  { rewrite kvs_update, Hsp'. rewrite (kvs_split s p) by done. by rewrite Hsp. }
  split_and!; [done| |done]. unfold slot_map.
  by rewrite (map_of_perm _ _ (kvs_keys_NoDup s' Hu') Hkvs).
Qed.

Lemma slot_map_erase k v :
  unique s → s p = Some (k, v) → s' p = None →
  unique s' ∧ slot_map s' = delete k (slot_map s) ∧ kvs s ≡ₚ (k, v) :: kvs s'.
Proof using All.
  intros Hu Hsp Hsp'.
  assert (unique s') as Hu' by (apply unique_update_fill; [done|]; intros ????; by rewrite Hsp').
  assert (kvs s ≡ₚ (k, v) :: kvs s') as Hkvs.
  { rewrite kvs_update, Hsp'. rewrite (kvs_split s p) by done. by rewrite Hsp. }
  split_and!; [done| |done]. unfold slot_map.
  pose proof (kvs_keys_NoDup s Hu) as Hk. pose proof (map_of_perm _ _ Hk Hkvs) as ->.
  rewrite map_of_cons, delete_insert_eq, delete_id; [done|].
  apply map_of_lookup_none. rewrite Hkvs in Hk. by apply NoDup_cons in Hk as [? _].
Qed.

Lemma slot_map_replace k v v' :
  unique s → s p = Some (k, v) → s' p = Some (k, v') →
  unique s' ∧ slot_map s' = <[k := v']> (slot_map s) ∧ length (kvs s') = length (kvs s).
Proof using All.
  intros Hu Hsp Hsp'.
  assert (unique s') as Hu'.
  { apply unique_update_fill; [done|]. intros k' v1 v2 q. rewrite Hsp'. intros [= <- <-] Hq Hne Hs.
    apply Hne. by eapply Hu. }
  pose proof (kvs_split s p Hp) as H1. rewrite Hsp in H1.
  pose proof kvs_update as H2. rewrite Hsp' in H2. simpl in H1, H2.
  split_and!; [done| |by rewrite H1, H2]. unfold slot_map.
  rewrite (map_of_perm _ _ (kvs_keys_NoDup s' Hu') H2), (map_of_perm _ _ (kvs_keys_NoDup s Hu) H1).
  rewrite !map_of_cons. by rewrite insert_insert_eq.
Qed.
End update.

Lemma slot_map_same s s' : (∀ q, q ∈ l → s' q = s q) → kvs s' = kvs s.
Proof using All. intros Hs. by apply omap_ext_elem. Qed.
End slotmap.

(** ** Probing for a key

    [pos i] is the group at step [i], [stop g] says that a probe ends at group
    [g], [holds g] that group [g] holds the key. *)

Section probing.
Context (pos : nat → nat) (stop holds : nat → Prop).

Definition reached (g : nat) : Prop := ∃ i, pos i = g ∧ ∀ j, j < i → ¬ stop (pos j).
Definition passed (i : nat) : Prop := ∀ j, j < i → ¬ stop (pos j) ∧ ¬ holds (pos j).

Lemma passed_0 : passed 0.
Proof. intros j Hj. lia. Qed.

Lemma passed_step i : passed i → ¬ holds (pos i) → ¬ stop (pos i) → passed (S i).
Proof.
  intros Hp Hh Hs j Hj. destruct (decide (j = i)) as [->|]; [done|]. apply Hp. lia.
Qed.

Lemma passed_reached i : passed i → reached (pos i).
Proof. intros Hp. exists i. split; [done|]. intros j Hj. by apply Hp. Qed.

(** A probe that stops without a hit has passed every group that could hold
    the key. *)
Lemma passed_absent i g :
  passed i → ¬ holds (pos i) → stop (pos i) → reached g → ¬ holds g.
Proof.
  intros Hp Hh Hs (i' & <- & Hr). destruct (Nat.lt_trichotomy i' i) as [Hlt|[->|Hlt]]; [|done|].
  - by apply Hp.
  - exfalso. by apply (Hr i).
Qed.

(** A probe gets no further than the first group that stops it. *)
Lemma passed_bound i n : passed i → stop (pos n) → i <= n.
Proof.
  intros Hp Hs. destruct (decide (i <= n)); [done|]. exfalso. destruct (Hp n) as [Hns _]; [lia|]. done.
Qed.
End probing.
