(* ===== verification/HashTag.v ===== *)
(** * Hash tags and overflow channels

    [raw/tag_strategy.rs], [raw/hash.rs] and the crate-level [hash_tag]: how a
    64-bit hash becomes the metadata byte of a slot and the overflow channel
    of a key.  A hash is a [Z]; bytes are [Z] in [0, 256). *)

From Stdlib Require Import ZArith Lia.
From S2P Require Import Prelude.
Local Open Scope Z_scope.

(** ** Post-mixer *)

(*@ raw/hash.rs : pub fn mix_hash *)
Definition mix_hash (h : Z) : Z :=
  let mixed := wrapping_mul64 h 0x9E3779B97F4A7C15 in
  Z.lxor mixed (Z.shiftr mixed 32).

(** ** Reduction of a byte to a tag *)

(** The three builds of [hash_tag], selected by crate features. *)
(*@ lib.rs : 177-192 : hash_tag *)
Inductive hash_feature :=
  | ReducedHash128
  | ReducedHashAsm
  | PureFallback.

(** [cmp b, 0xFF; adc b, 0]: add the carry of the unsigned comparison
    [b < 0xFF]. *)
(*@ raw/tag_strategy.rs : fn reduce_255_asm *)
Definition reduce_255_asm (b : Z) : Z :=
  as_u8 (b + 0 + (if b <? 255 then 1 else 0)).

(** [b | (b == 0) as u8] *)
(*@ raw/tag_strategy.rs : fn reduce_255_pure *)
Definition reduce_255_pure (b : Z) : Z :=
  Z.lor b (if b =? 0 then 1 else 0).

(*@ lib.rs : pub(crate) fn hash_tag *)
Definition hash_tag (f : hash_feature) (h : Z) : Z :=
  match f with
  | ReducedHash128 => Z.lor (as_u8 h) 1
  | ReducedHashAsm => as_u8 (as_u8 h + 0 + (if as_u8 h <? 255 then 1 else 0))
  | PureFallback => let low := as_u8 (Z.land h 255) in Z.lor low (if low =? 0 then 1 else 0)
  end.

(** ** Strategies of the overflow-bit family *)

(*@ raw/tag_strategy.rs : pub trait TagStrategy *)
Record TagStrategy := {
  tag : Z → Z;
  overflow_channel : Z → Z;
}.

(** [1u8 << (h & 7)] *)
(*@ raw/generic_group.rs : pub fn overflow_bit *)
Definition overflow_bit (h : Z) : Z := shl_u8 1 (Z.land h 7).

(*@ raw/tag_strategy.rs : impl TagStrategy for LowTag255 { *)
Definition LowTag255 (f : hash_feature) : TagStrategy := {|
  tag := λ h, hash_tag f h;
  overflow_channel := λ h, shl_u8 1 (Z.land h 7);
|}.

(*@ raw/tag_strategy.rs : impl TagStrategy for LowTag255ChSafe { *)
Definition LowTag255ChSafe (f : hash_feature) : TagStrategy := {|
  tag := λ h, hash_tag f (Z.shiftr h 8);
  overflow_channel := λ h, shl_u8 1 (Z.land h 7);
|}.

(*@ raw/tag_strategy.rs : impl TagStrategy for LowTag128 { *)
Definition LowTag128 : TagStrategy := {|
  tag := λ h, Z.lor (as_u8 h) 1;
  overflow_channel := λ h, shl_u8 1 (Z.land h 7);
|}.

(*@ raw/tag_strategy.rs : impl TagStrategy for HighTag128 { *)
Definition HighTag128 : TagStrategy := {|
  tag := λ h, Z.lor (as_u8 (Z.shiftr h 56)) 0x80;
  overflow_channel := λ h, shl_u8 1 (Z.land h 7);
|}.

(*@ raw/tag_strategy.rs : impl TagStrategy for HighTag255 { *)
Definition HighTag255 (f : hash_feature) : TagStrategy := {|
  tag := λ h, hash_tag f (Z.shiftr h 56);
  overflow_channel := λ h, shl_u8 1 (Z.land h 7);
|}.

(*@ raw/tag_strategy.rs : impl TagStrategy for HighTag128ChSafe { *)
Definition HighTag128ChSafe : TagStrategy := {|
  tag := λ h, Z.lor (as_u8 (Z.shiftr h 56)) 0x80;
  overflow_channel := λ h, shl_u8 1 (Z.land (Z.shiftr h 48) 7);
|}.

(*@ raw/tag_strategy.rs : impl TagStrategy for HighTag255ChSafe { *)
Definition HighTag255ChSafe (f : hash_feature) : TagStrategy := {|
  tag := λ h, hash_tag f (Z.shiftr h 56);
  overflow_channel := λ h, shl_u8 1 (Z.land (Z.shiftr h 48) 7);
|}.

(*@ raw/tag_strategy.rs : impl TagStrategy for LowTag255Pure { *)
Definition LowTag255Pure : TagStrategy := {|
  tag := λ h, reduce_255_pure (as_u8 h);
  overflow_channel := λ h, shl_u8 1 (Z.land h 7);
|}.

(*@ raw/tag_strategy.rs : impl TagStrategy for LowTag255ChSafePure { *)
Definition LowTag255ChSafePure : TagStrategy := {|
  tag := λ h, reduce_255_pure (as_u8 (Z.shiftr h 8));
  overflow_channel := λ h, shl_u8 1 (Z.land h 7);
|}.

(*@ raw/tag_strategy.rs : impl TagStrategy for HighTag255Pure { *)
Definition HighTag255Pure : TagStrategy := {|
  tag := λ h, reduce_255_pure (as_u8 (Z.shiftr h 56));
  overflow_channel := λ h, shl_u8 1 (Z.land h 7);
|}.

(*@ raw/tag_strategy.rs : impl TagStrategy for HighTag255ChSafePure { *)
Definition HighTag255ChSafePure : TagStrategy := {|
  tag := λ h, reduce_255_pure (as_u8 (Z.shiftr h 56));
  overflow_channel := λ h, shl_u8 1 (Z.land (Z.shiftr h 48) 7);
|}.

(** ** Strategies of the tombstone family *)

(*@ raw/tag_strategy.rs : pub trait TombstoneTag *)
Record TombstoneTag := { reduced_hash : Z → Z }.

(*@ raw/tag_strategy.rs : impl TombstoneTag for LowTomb { *)
Definition LowTomb : TombstoneTag := {|
  reduced_hash := λ h, let b := as_u8 h in if b <? 2 then as_u8 (b + 2) else b;
|}.

(*@ raw/tag_strategy.rs : impl TombstoneTag for HighTag128 { *)
Definition HighTag128Tomb : TombstoneTag := {|
  reduced_hash := λ h, Z.lor (as_u8 (Z.shiftr h 56)) 0x80;
|}.

(*@ raw/tag_strategy.rs : impl TombstoneTag for HighTomb { *)
Definition HighTomb : TombstoneTag := {|
  reduced_hash := λ h, let b := as_u8 (Z.shiftr h 56) in if b <? 2 then as_u8 (b + 2) else b;
|}.

(** ** Laws *)

(** What a strategy promises to the tables: a tag is never the EMPTY byte, and
    the channel is a single bit of a byte. *)
Class TagOk (T : TagStrategy) := {
  tag_range h : 1 <= tag T h <= 255;
  channel_single_bit h : ∃ b, 0 <= b < 8 ∧ overflow_channel T h = 2 ^ b;
}.

(** Tombstone tags avoid EMPTY (0) and TOMBSTONE (1). *)
Class TombTagOk (T : TombstoneTag) := {
  tomb_tag_range h : 2 <= reduced_hash T h <= 255;
}.

Lemma channel_bit (x : Z) : ∃ b, 0 <= b < 8 ∧ shl_u8 1 (Z.land x 7) = 2 ^ b.
Proof.
  exists (Z.land x 7). assert (0 <= Z.land x 7 < 8) as H by (apply (land_low_range x 3); lia).
  split; [lia|]. unfold shl_u8. rewrite Z.shiftl_1_l, as_u8_small; [done|].
  split; [lia|]. change 256 with (2 ^ 8). apply Z.pow_lt_mono_r; lia.
Qed.

Lemma hash_tag_range f h : 1 <= hash_tag f h <= 255.
Proof.
  pose proof (as_u8_range h) as Hb. unfold hash_tag.
  destruct f; [| |change (Z.land h 255) with (as_u8 h); rewrite (as_u8_small (as_u8 h)) by lia];
    generalize dependent (as_u8 h); by byte_cases.
Qed.

Lemma reduce_255_pure_range b : 0 <= b < 256 → 1 <= reduce_255_pure b <= 255.
Proof. revert b. unfold reduce_255_pure. byte_cases. Qed.

Lemma or_high_range b : 0 <= b < 256 → 1 <= Z.lor b 0x80 <= 255.
Proof. revert b. byte_cases. Qed.

Lemma or_low_range b : 0 <= b < 256 → 1 <= Z.lor b 1 <= 255.
Proof. revert b. byte_cases. Qed.

#[export] Hint Resolve hash_tag_range reduce_255_pure_range or_high_range
  or_low_range as_u8_range channel_bit : bits.

#[export] Instance LowTag255_ok f : TagOk (LowTag255 f).
Proof. split; intros; cbn; auto with bits. Qed.
#[export] Instance LowTag255ChSafe_ok f : TagOk (LowTag255ChSafe f).
Proof. split; intros; cbn; auto with bits. Qed.
#[export] Instance LowTag128_ok : TagOk LowTag128.
Proof. split; intros; cbn; auto with bits. Qed.
#[export] Instance HighTag128_ok : TagOk HighTag128.
Proof. split; intros; cbn; auto with bits. Qed.
#[export] Instance HighTag255_ok f : TagOk (HighTag255 f).
Proof. split; intros; cbn; auto with bits. Qed.
#[export] Instance HighTag128ChSafe_ok : TagOk HighTag128ChSafe.
Proof. split; intros; cbn; auto with bits. Qed.
#[export] Instance HighTag255ChSafe_ok f : TagOk (HighTag255ChSafe f).
Proof. split; intros; cbn; auto with bits. Qed.
#[export] Instance LowTag255Pure_ok : TagOk LowTag255Pure.
Proof. split; intros; cbn; auto with bits. Qed.
#[export] Instance LowTag255ChSafePure_ok : TagOk LowTag255ChSafePure.
Proof. split; intros; cbn; auto with bits. Qed.
#[export] Instance HighTag255Pure_ok : TagOk HighTag255Pure.
Proof. split; intros; cbn; auto with bits. Qed.
#[export] Instance HighTag255ChSafePure_ok : TagOk HighTag255ChSafePure.
Proof. split; intros; cbn; auto with bits. Qed.

Lemma tomb_reduce_range b :
  0 <= b < 256 → 2 <= (if b <? 2 then as_u8 (b + 2) else b) <= 255.
Proof. revert b. byte_cases. Qed.

#[export] Hint Resolve tomb_reduce_range : bits.

#[export] Instance LowTomb_ok : TombTagOk LowTomb.
Proof. split; intros; cbn; auto with bits. Qed.
#[export] Instance HighTomb_ok : TombTagOk HighTomb.
Proof. split; intros; cbn; auto with bits. Qed.
#[export] Instance HighTag128Tomb_ok : TombTagOk HighTag128Tomb.
Proof.
  split; intros h. simpl. generalize (as_u8_range h).
  generalize (as_u8_range (Z.shiftr h 56)). generalize (as_u8 (Z.shiftr h 56)).
  intros b Hb _. revert b Hb. byte_cases.
Qed.
