(* ===== verification/Bitmask.v ===== *)
(** * Slot bitmasks

    [raw/bitmask.rs]: the 16-, 32- and 64-bit masks that the group operations
    return.  A mask is the [Z] it holds; its iterator clears the lowest set
    bit at each step ([mask &= mask - 1]).  The theorems say that the iterator
    yields exactly the set bits, in increasing order, and stops. *)

From Stdlib Require Import ZArith Lia.
From S2P Require Import Prelude.

(** [BitMask], [BitMask32], [BitMask64]: the width is the only difference. *)
(*@ raw/bitmask.rs : pub trait BitMaskOps *)
Record BitMaskOps := { mask_bits : nat }.

(*@ raw/bitmask.rs : 14-66 : BitMask *)
Definition BitMask : BitMaskOps := {| mask_bits := 16 |}.
(*@ raw/bitmask.rs : 68-106 : BitMask32 *)
Definition BitMask32 : BitMaskOps := {| mask_bits := 32 |}.
(*@ raw/bitmask.rs : 108-146 : BitMask64 *)
Definition BitMask64 : BitMaskOps := {| mask_bits := 64 |}.

(*@ raw/bitmask.rs : pub fn any_set *)
Definition any_set (m : Z) : bool := negb (m =? 0)%Z.

(*@ raw/bitmask.rs : pub fn lowest_set_bit *)
Definition lowest_set_bit (w : BitMaskOps) (m : Z) : option nat :=
  if (m =? 0)%Z then None else Some (trailing_zeros (mask_bits w) m).

(** [Iterator::next]: the yielded index and the remaining mask. *)
(*@ raw/bitmask.rs : impl Iterator for BitMask { *)
Definition next (w : BitMaskOps) (m : Z) : option (nat * Z) :=
  if (m =? 0)%Z then None
  else Some (trailing_zeros (mask_bits w) m, Z.land m (m - 1)).

Fixpoint iterate (fuel : nat) (w : BitMaskOps) (m : Z) : list nat :=
  match fuel with
  | 0 => []
  | S fuel' =>
      match next w m with
      | None => []
      | Some (i, m') => i :: iterate fuel' w m'
      end
  end.

(** [for si in mask]; a mask of [w] bits is exhausted after [w] steps. *)
Definition bits (w : BitMaskOps) (m : Z) : list nat := iterate (mask_bits w) w m.

(** [for si in mask { if p(si) { return Some(si) } }] *)
Definition scan (w : BitMaskOps) (m : Z) (p : nat → bool) : option nat :=
  List.find p (bits w m).

(** ** The iterator step *)

Lemma land_pred_testbit (m : Z) (w i : nat) :
  (0 < m)%Z →
  Z.testbit (Z.land m (m - 1)) (Z.of_nat i) =
  Z.testbit m (Z.of_nat i) && negb (i =? trailing_zeros w m).
Proof.
  destruct m as [|p|p]; [lia| |lia]. intros _. cbn [trailing_zeros]. revert i.
  induction p as [p IH|p IH|]; intros i.
  - replace (Z.pos p~1 - 1)%Z with (2 * Z.pos p)%Z by lia.
    change (Z.pos p~1) with (2 * Z.pos p + 1)%Z. rewrite Z.land_spec.
    destruct i as [|i].
    + simpl Z.of_nat. rewrite Z.testbit_even_0. by rewrite andb_false_r.
    + rewrite Nat2Z.inj_succ, Z.testbit_odd_succ, Z.testbit_even_succ by lia.
      simpl. by rewrite andb_diag, andb_true_r.
  - replace (Z.pos p~0 - 1)%Z with (2 * (Z.pos p - 1) + 1)%Z by lia.
    change (Z.pos p~0) with (2 * Z.pos p)%Z. rewrite Z.land_spec.
    destruct i as [|i].
    + simpl Z.of_nat. rewrite Z.testbit_even_0. done.
    + rewrite Nat2Z.inj_succ, Z.testbit_odd_succ, Z.testbit_even_succ by lia.
      rewrite <- Z.land_spec, IH. done.
  - destruct i as [|i]; [done|].
    rewrite Z.land_spec. change (1 - 1)%Z with 0%Z.
    rewrite Z.testbit_0_l, andb_false_r.
    symmetry. apply andb_false_iff. left.
    change 1%Z with (2 * 0 + 1)%Z.
    rewrite Nat2Z.inj_succ, Z.testbit_odd_succ by lia. apply Z.testbit_0_l.
Qed.

Lemma trailing_zeros_set (m : Z) (w : nat) :
  (0 < m)%Z → Z.testbit m (Z.of_nat (trailing_zeros w m)) = true.
Proof.
  destruct m as [|p|p]; [lia| |lia]. intros _. cbn [trailing_zeros].
  induction p as [p IH|p IH|]; [done| |done].
  simpl pos_ctz. change (Z.pos p~0) with (2 * Z.pos p)%Z.
  rewrite Nat2Z.inj_succ, Z.testbit_even_succ by lia. done.
Qed.

Lemma trailing_zeros_low (m : Z) (w i : nat) :
  (0 < m)%Z → i < trailing_zeros w m → Z.testbit m (Z.of_nat i) = false.
Proof.
  destruct m as [|p|p]; [lia| |lia]. intros _. cbn [trailing_zeros]. revert i.
  induction p as [p IH|p IH|]; simpl pos_ctz; intros i Hi; [lia| |lia].
  change (Z.pos p~0) with (2 * Z.pos p)%Z.
  destruct i as [|i]; [apply Z.testbit_even_0|].
  rewrite Nat2Z.inj_succ, Z.testbit_even_succ by lia. apply IH. lia.
Qed.

Lemma testbit_small (m : Z) (w i : nat) :
  (0 <= m < 2 ^ Z.of_nat w)%Z → w <= i → Z.testbit m (Z.of_nat i) = false.
Proof.
  intros Hm Hi. apply (bits_above m (Z.of_nat w)); lia.
Qed.

(** ** The iterator *)

Lemma filter_seq_none (p : nat → bool) lo n :
  (∀ i, lo <= i < lo + n → p i = false) → List.filter p (seq lo n) = [].
Proof.
  revert lo. induction n as [|n IH]; intros lo H; [done|]. simpl.
  rewrite H by lia. apply IH. intros i Hi. apply H. lia.
Qed.

Lemma filter_seq_first (p : nat → bool) lo n t :
  lo <= t < lo + n → p t = true → (∀ i, lo <= i < t → p i = false) →
  List.filter p (seq lo n) = t :: List.filter p (seq (S t) (lo + n - S t)).
Proof.
  intros Ht Hp Hlow.
  replace n with ((t - lo) + S (lo + n - S t)) at 1 by lia.
  rewrite seq_app, List.filter_app. simpl seq.
  rewrite (filter_seq_none p lo) by (intros; apply Hlow; lia). simpl.
  replace (lo + (t - lo)) with t by lia. by rewrite Hp.
Qed.

Lemma iterate_spec (w : BitMaskOps) fuel (m : Z) lo :
  (0 <= m < 2 ^ Z.of_nat (mask_bits w))%Z →
  (∀ i, i < lo → Z.testbit m (Z.of_nat i) = false) →
  lo <= mask_bits w → mask_bits w - lo <= fuel →
  iterate fuel w m =
  List.filter (λ i, Z.testbit m (Z.of_nat i)) (seq lo (mask_bits w - lo)).
Proof.
  revert m lo. induction fuel as [|fuel IH]; intros m lo Hm Hlow Hlo Hf.
  - replace (mask_bits w - lo) with 0 by lia. done.
  - cbn [iterate]. unfold next. destruct (Z.eqb_spec m 0%Z) as [->|Hne].
    + rewrite filter_seq_none; [done|]. intros. apply Z.testbit_0_l.
    + set (t := trailing_zeros (mask_bits w) m).
      assert (Z.testbit m (Z.of_nat t) = true) as Ht by (apply trailing_zeros_set; lia).
      assert (lo <= t).
      { destruct (decide (lo <= t)); [done|]. rewrite Hlow in Ht by lia. done. }
      assert (t < mask_bits w).
      { destruct (decide (t < mask_bits w)); [done|].
        rewrite (testbit_small m (mask_bits w)) in Ht by lia. done. }
      rewrite (filter_seq_first _ lo _ t) by
        (first [lia | done | intros; apply (trailing_zeros_low _ (mask_bits w)); unfold t in *; lia]).
      f_equal. rewrite (IH _ (S t)); [|apply land_range_l; lia| |lia|lia].
      * replace (lo + (mask_bits w - lo) - S t) with (mask_bits w - S t) by lia.
        apply List.filter_ext_in. intros i Hi%in_seq.
        rewrite (land_pred_testbit _ (mask_bits w)) by lia.
        fold t. destruct (Nat.eqb_spec i t); [lia|]. by rewrite andb_true_r.
      * intros i Hi. rewrite (land_pred_testbit _ (mask_bits w)) by lia. fold t.
        destruct (Nat.eqb_spec i t); [by rewrite andb_false_r|].
        rewrite (trailing_zeros_low _ (mask_bits w)); [done|lia|fold t; lia].
Qed.

(** One call of the iterator takes the first set bit off. *)
Lemma bits_next (w : BitMaskOps) (m : Z) :
  (0 <= m < 2 ^ Z.of_nat (mask_bits w))%Z →
  bits w m = match next w m with Some (i, m') => i :: bits w m' | None => [] end ∧
  match next w m with
  | Some (_, m') => (0 <= m' < 2 ^ Z.of_nat (mask_bits w))%Z
  | None => True
  end.
Proof.
  intros Hm. split.
  - transitivity (iterate (S (mask_bits w)) w m); [|done].
    unfold bits. by rewrite !(iterate_spec w _ m 0) by lia.
  - unfold next. destruct (m =? 0)%Z; [done|]. apply land_range_l; lia.
Qed.

(** iterating a slot mask yields exactly its set bits, each once and in
    increasing order, for each of the three widths. *)
Theorem bits_are_set_bits (w : BitMaskOps) (m : Z) :
  (0 <= m < 2 ^ Z.of_nat (mask_bits w))%Z →
  bits w m = List.filter (λ i, Z.testbit m (Z.of_nat i)) (seq 0 (mask_bits w)).
Proof.
  intros Hm. unfold bits. rewrite (iterate_spec w _ m 0); [by rewrite Nat.sub_0_r|lia|lia|lia|lia].
Qed.

(** ** What the table code relies on *)

Section mask_facts.
Context (w : BitMaskOps) (m : Z) (Hm : (0 <= m < 2 ^ Z.of_nat (mask_bits w))%Z).

Lemma elem_of_bits i : In i (bits w m) ↔ Z.testbit m (Z.of_nat i) = true.
Proof using Hm.
  unfold bits. rewrite (iterate_spec w _ m 0) by lia.
  rewrite List.filter_In, in_seq. split; [tauto|]. intros Hi. split; [|done].
  split; [lia|]. destruct (decide (i < mask_bits w)); [lia|].
  rewrite (testbit_small m (mask_bits w)) in Hi by lia. done.
Qed.

Lemma scan_Some p i : scan w m p = Some i → Z.testbit m (Z.of_nat i) = true ∧ p i = true.
Proof using Hm. intros H%List.find_some. by rewrite elem_of_bits in H. Qed.

Lemma scan_None p i : scan w m p = None → Z.testbit m (Z.of_nat i) = true → p i = false.
Proof using Hm. intros H Hi. eapply List.find_none; [done|]. by apply elem_of_bits. Qed.

Lemma lowest_set_bit_Some i : lowest_set_bit w m = Some i → Z.testbit m (Z.of_nat i) = true.
Proof using Hm.
  unfold lowest_set_bit. destruct (Z.eqb_spec m 0%Z); [done|]. intros [= <-].
  apply trailing_zeros_set. lia.
Qed.

Lemma lowest_set_bit_None i : lowest_set_bit w m = None → Z.testbit m (Z.of_nat i) = false.
Proof using Hm.
  unfold lowest_set_bit. destruct (Z.eqb_spec m 0%Z) as [->|]; [|done]. intros _.
  apply Z.testbit_0_l.
Qed.

Lemma any_set_false i : any_set m = false → Z.testbit m (Z.of_nat i) = false.
Proof using Hm.
  unfold any_set. destruct (Z.eqb_spec m 0%Z) as [->|]; [|done]. intros _.
  apply Z.testbit_0_l.
Qed.

Lemma any_set_true : any_set m = true → ∃ i, Z.testbit m (Z.of_nat i) = true.
Proof using Hm.
  unfold any_set. destruct (Z.eqb_spec m 0%Z) as [->|Hne]; [done|]. intros _.
  exists (trailing_zeros (mask_bits w) m). apply trailing_zeros_set. lia.
Qed.
End mask_facts.

Lemma bits_are_set_bits_witness :
  (0 <= 0x421 < 2 ^ Z.of_nat (mask_bits BitMask))%Z ∧ bits BitMask 0x421 = [0; 5; 10].
Proof.
  split; [vm_compute; split; congruence|].
  rewrite (bits_are_set_bits BitMask 0x421); [reflexivity|vm_compute; split; congruence].
Defined.
