(* ===== verification/SlotWalk.v ===== *)
(** * Walking the occupied slots

    Every [SlotIter] and [IntoIter] of the crate runs the same loop: yield the
    next set bit of the current group's mask, or load the mask of the next
    group, until the groups are exhausted. *)

From Stdlib Require Import ZArith Lia.
From S2P Require Import Prelude Bitmask.

(*@ raw/overflow_table.rs : pub struct SlotIter *)
Record SlotIter := { it_group : nat; it_mask : Z }.

(** One call of [next] over the masks [gm] of the groups [0..=mask]; the loop
    visits each remaining group at most once, and [n] bounds their number. *)
(*@ raw/overflow_table.rs : fn next( @1 *)
Fixpoint slot_walk (n : nat) (w : BitMaskOps) (gm : nat → Z) (mask : nat) (it : SlotIter) :
    option (nat * nat) * SlotIter :=
  match next w (it_mask it) with
  | Some (si, m) => (Some (it_group it, si), {| it_group := it_group it; it_mask := m |})
  | None =>
      let group := it_group it + 1 in
      match n with
      | 0 => (None, {| it_group := group; it_mask := it_mask it |})
      | S n' =>
          if mask <? group then (None, {| it_group := group; it_mask := it_mask it |})
          else slot_walk n' w gm mask {| it_group := group; it_mask := gm group |}
      end
  end.

Definition mask_ok (w : BitMaskOps) (m : Z) : Prop := (0 <= m < 2 ^ Z.of_nat (mask_bits w))%Z.

Lemma mask_ok_0 w : mask_ok w 0.
Proof. split; [done|]. apply Z.pow_pos_nonneg; lia. Qed.

Lemma bits_0 w : bits w 0 = [].
Proof. unfold bits. by destruct (mask_bits w). Qed.

Section walk.
Context (w : BitMaskOps) (gm : nat → Z) (mask : nat).
Context (Hgm : ∀ g, mask_ok w (gm g)).

(** The slots of the groups from [g] on, and those still to be yielded. *)
Definition groups_from (g : nat) : list (nat * nat) :=
  gi ← seq g (mask + 1 - g); pair gi <$> bits w (gm gi).

Definition remaining (it : SlotIter) : list (nat * nat) :=
  (pair (it_group it) <$> bits w (it_mask it)) ++ groups_from (it_group it + 1).

Lemma groups_from_step g :
  g <= mask → groups_from g = (pair g <$> bits w (gm g)) ++ groups_from (g + 1).
Proof using Type.
  intros Hg. unfold groups_from.
  replace (mask + 1 - g) with (S (mask + 1 - (g + 1))) by lia.
  cbn [seq]. by rewrite bind_cons, (Nat.add_1_r g).
Qed.

Lemma groups_from_end g : mask < g → groups_from g = [].
Proof using Type. intros Hg. unfold groups_from. by replace (mask + 1 - g) with 0 by lia. Qed.

Lemma remaining_bits it bs :
  bits w (it_mask it) = bs →
  remaining it = (pair (it_group it) <$> bs) ++ groups_from (it_group it + 1).
Proof using Type. by intros <-. Qed.

(** One call of [next] takes the head of [remaining]. *)
Lemma slot_walk_spec n it :
  mask_ok w (it_mask it) → mask < it_group it + 1 + n →
  match slot_walk n w gm mask it with
  | (Some p, it') => remaining it = p :: remaining it' ∧ it_group it' = p.1 ∧ mask_ok w (it_mask it')
  | (None, it') => remaining it = [] ∧ mask_ok w (it_mask it')
  end.
Proof using Hgm.
  revert it. induction n as [|n IH]; intros it Hm Hn; cbn [slot_walk];
    destruct (bits_next w (it_mask it) Hm) as [Hb Hm'];
    destruct (next w (it_mask it)) as [[si m]|] eqn:En;
    try (rewrite (remaining_bits it _ Hb); split; [done|split; [done|exact Hm']]).
  - rewrite (remaining_bits it _ Hb). split; [|done]. apply groups_from_end. lia.
  - destruct (Nat.ltb_spec mask (it_group it + 1)) as [Hgt|Hle];
      rewrite (remaining_bits it _ Hb); cbn [fmap list_fmap app];
      [by split; [apply groups_from_end|]|].
    set (it' := {| it_group := _; it_mask := _ |}).
    rewrite groups_from_step by done. change (_ ++ groups_from (it_group it + 1 + 1))
      with (remaining it').
    apply (IH it'); [apply Hgm|simpl; lia].
Qed.

(** [n] calls of [next]. *)
Fixpoint take_walk (n : nat) (it : SlotIter) : list (nat * nat) * SlotIter :=
  match n with
  | 0 => ([], it)
  | S n' =>
      match slot_walk (mask + 1) w gm mask it with
      | (Some p, it') => let '(ps, it'') := take_walk n' it' in (p :: ps, it'')
      | (None, it') => ([], it')
      end
  end.

Lemma take_walk_spec n it :
  mask_ok w (it_mask it) →
  (take_walk n it).1 = take n (remaining it) ∧
  mask_ok w (it_mask (take_walk n it).2) ∧
  (n <= length (remaining it) → remaining (take_walk n it).2 = drop n (remaining it)).
Proof using Hgm.
  revert it. induction n as [|n IH]; intros it Hm; [done|]. cbn [take_walk].
  pose proof (slot_walk_spec (mask + 1) it Hm ltac:(lia)) as Hnext.
  destruct (slot_walk (mask + 1) w gm mask it) as [[p|] it'].
  - destruct Hnext as (Hr & _ & Hm'). rewrite Hr. destruct (IH it' Hm') as (H1 & H2 & H3).
    destruct (take_walk n it') as [ps it'']. simpl in *. split_and!; [by f_equal|done|].
    intros Hn. apply H3. lia.
  - destruct Hnext as [Hnext ?]. rewrite Hnext. split_and!; [done|done|simpl; lia].
Qed.

(** A complete walk yields all the slots and then ends. *)
Lemma take_walk_all it :
  mask_ok w (it_mask it) →
  (take_walk (length (remaining it)) it).1 = remaining it ∧
  (slot_walk (mask + 1) w gm mask (take_walk (length (remaining it)) it).2).1 = None.
Proof using Hgm.
  intros Hm. destruct (take_walk_spec (length (remaining it)) it Hm) as (H1 & H2 & H3).
  rewrite take_ge in H1 by done. split; [done|].
  specialize (H3 (le_n _)). rewrite drop_ge in H3 by done.
  pose proof (slot_walk_spec (mask + 1) _ H2 ltac:(lia)) as Hn.
  destruct (slot_walk (mask + 1) w gm mask _) as [[p|] it']; [|done].
  destruct Hn as [Hr _]. by rewrite H3 in Hr.
Qed.
End walk.

Lemma groups_from_ext w gm gm' mask g :
  (∀ gi, g <= gi <= mask → bits w (gm' gi) = bits w (gm gi)) →
  groups_from w gm' mask g = groups_from w gm mask g.
Proof.
  intros Hb. unfold groups_from.
  assert (∀ gi, gi ∈ seq g (mask + 1 - g) → bits w (gm' gi) = bits w (gm gi)) as Hb'.
  { intros gi Hgi%elem_of_seq. apply Hb. lia. }
  induction (seq g (mask + 1 - g)) as [|gi l IH]; [done|]. rewrite !bind_cons. f_equal.
  - f_equal. apply Hb'. by left.
  - apply IH. intros gi' Hin. apply Hb'. by right.
Qed.

(** Masks that are predicates on slots. *)
Lemma groups_from_filter w gm (occ : nat → nat → bool) mask gs :
  (∀ g, bits w (gm g) = List.filter (occ g) (seq 0 gs)) →
  groups_from w gm mask 0 = List.filter (λ p, occ p.1 p.2) (slot_list (mask + 1) gs).
Proof.
  intros Hb. unfold groups_from, slot_list. rewrite Nat.sub_0_r.
  induction (seq 0 (mask + 1)) as [|g l IH]; [done|].
  rewrite !bind_cons, List.filter_app, IH. f_equal. rewrite Hb.
  clear IH Hb. induction (seq 0 gs) as [|s l' IH]; [done|].
  cbn [List.filter fmap list_fmap]. cbn [fst snd].
  destruct (occ g s); cbn [fmap list_fmap]; by rewrite IH.
Qed.
