(* ===== verification/Group.v ===== *)
(** * SIMD group operations

    [raw/generic_group.rs], [raw/group32.rs], [raw/group64.rs] and the
    [GroupOps] trait of [raw/group_layout.rs].  A vector register is the list
    of its byte lanes; the x86 intrinsics the code calls (loads, byte
    comparison, movemask) are given their documented lane-wise meaning.  Each
    group type is modelled in every tier its [cfg] attributes select between,
    and every tier is shown to compute the same mask: bit [i] is set exactly
    when slot [i] is usable and its byte satisfies the predicate. *)

From Stdlib Require Import ZArith Lia.
From S2P Require Import Prelude Bitmask.
Local Open Scope Z_scope.

(** ** Control bytes and registers *)

(** A byte read through a pointer; every access of the tables is shown to be in range, 0 is
    never observed. *)
Definition byte_at (ctrl : list Z) (i : nat) : Z := default 0 (ctrl !! i).

(** A byte written through a pointer. *)
Definition set_byte (ctrl : list Z) (i : nat) (b : Z) : list Z := <[i := b]> ctrl.

(** [_mm_load_si128], [_mm256_load_si256], [_mm512_load_si512] *)
Definition simd_load (n : nat) (ctrl : list Z) (ptr : nat) : list Z :=
  map (λ i, byte_at ctrl (ptr + i)) (seq 0 n).

(** [_mm_set1_epi8]; [_mm_setzero_si128] is [simd_set1 n 0]. *)
Definition simd_set1 (n : nat) (v : Z) : list Z := replicate n v.

(** [_mm_cmpeq_epi8] *)
Definition simd_cmpeq (a b : list Z) : list Z :=
  zip_with (λ x y, if x =? y then 0xFF else 0) a b.

(** [_mm_or_si128] *)
Definition simd_or (a b : list Z) : list Z := zip_with Z.lor a b.

(** [_mm_movemask_epi8]: the top bit of each lane. *)
Fixpoint simd_movemask (r : list Z) : Z :=
  match r with
  | [] => 0
  | x :: r' => Z.b2z (Z.testbit x 7) + 2 * simd_movemask r'
  end.

(** [!m] on an unsigned integer of [w] bits. *)
Definition not_w (w m : Z) : Z := Z.lxor m (Z.ones w).

(** The instruction sets the code is compiled for. *)
Inductive simd_tier := Scalar | SSE2 | AVX2 | AVX512BW.

(*@ raw/generic_group.rs : pub const EMPTY *)
Definition EMPTY : Z := 0.

(** The scalar loops: for each [i] in [0..count], [mask |= 1 << i] when
    byte [i] satisfies [p]. *)
Definition scalar_mask (count : nat) (ctrl : list Z) (ptr : nat) (p : Z → bool) : Z :=
  fold_left (λ mask i, if p (byte_at ctrl (ptr + i)) then Z.lor mask (Z.shiftl 1 (Z.of_nat i)) else mask)
    (seq 0 count) 0.

(** ** The trait *)

(*@ raw/group_layout.rs : pub trait GroupOps *)
Record GroupOps := {
  Mask : BitMaskOps;
  match_byte : list Z → nat → Z → Z;
  match_empty : list Z → nat → Z;
  match_non_empty : list Z → nat → Z;
  match_byte_and_empty : list Z → nat → Z → Z * Z;
}.

(*@ raw/generic_group.rs : pub unsafe fn get_meta *)
Definition get_meta (ctrl : list Z) (ptr idx : nat) : Z := byte_at ctrl (ptr + idx).

(*@ raw/generic_group.rs : pub unsafe fn set_meta *)
Definition set_meta (ctrl : list Z) (ptr idx : nat) (value : Z) : list Z :=
  set_byte ctrl (ptr + idx) value.

(** ** 16-slot groups *)

Section group.
Context (SLOT_MASK : Z).

(*@ raw/generic_group.rs : pub unsafe fn match_byte( @1 *)
Definition group16_match_byte_sse2 (ctrl : list Z) (ptr : nat) (value : Z) : Z :=
  let data := simd_load 16 ctrl ptr in
  let needle := simd_set1 16 value in
  let cmp := simd_cmpeq data needle in
  Z.land (simd_movemask cmp) SLOT_MASK.

(*@ raw/generic_group.rs : pub unsafe fn match_empty( @1 *)
Definition group16_match_empty_sse2 (ctrl : list Z) (ptr : nat) : Z :=
  let data := simd_load 16 ctrl ptr in
  let zero := simd_set1 16 0 in
  let cmp := simd_cmpeq data zero in
  Z.land (simd_movemask cmp) SLOT_MASK.

(*@ raw/generic_group.rs : pub unsafe fn match_non_empty( @1 *)
Definition group16_match_non_empty_sse2 (ctrl : list Z) (ptr : nat) : Z :=
  let data := simd_load 16 ctrl ptr in
  let zero := simd_set1 16 0 in
  let cmp := simd_cmpeq data zero in
  let mask := simd_movemask cmp in
  Z.land (not_w 16 mask) SLOT_MASK.

(*@ raw/generic_group.rs : pub unsafe fn match_byte_and_empty( @1 *)
Definition group16_match_byte_and_empty_sse2 (ctrl : list Z) (ptr : nat) (value : Z) : Z * Z :=
  let data := simd_load 16 ctrl ptr in
  let needle := simd_set1 16 value in
  let zero := simd_set1 16 0 in
  let match_cmp := simd_cmpeq data needle in
  let empty_cmp := simd_cmpeq data zero in
  (Z.land (simd_movemask match_cmp) SLOT_MASK, Z.land (simd_movemask empty_cmp) SLOT_MASK).

(** [count] is 15 for [0x7FFF] and 16 otherwise. *)
Definition group16_scalar_count : nat := if SLOT_MASK =? 0x7FFF then 15 else 16.

(*@ raw/generic_group.rs : pub unsafe fn match_byte( @2 *)
Definition group16_match_byte_scalar (ctrl : list Z) (ptr : nat) (value : Z) : Z :=
  scalar_mask group16_scalar_count ctrl ptr (λ b, b =? value).

(*@ raw/generic_group.rs : pub unsafe fn match_non_empty( @2 *)
Definition group16_match_non_empty_scalar (ctrl : list Z) (ptr : nat) : Z :=
  scalar_mask group16_scalar_count ctrl ptr (λ b, negb (b =? EMPTY)).
End group.

(** [Group<SLOT_MASK>]: SSE2 on x86-64, scalar elsewhere. *)
(*@ raw/group_layout.rs : impl<const M: u16> GroupOps for Group<M> *)
Definition Group (M : Z) (t : simd_tier) : GroupOps :=
  match t with
  | Scalar => {|
      Mask := BitMask;
      match_byte := group16_match_byte_scalar M;
      match_empty := λ ctrl ptr, group16_match_byte_scalar M ctrl ptr EMPTY;
      match_non_empty := group16_match_non_empty_scalar M;
      match_byte_and_empty := λ ctrl ptr v,
        (group16_match_byte_scalar M ctrl ptr v, group16_match_byte_scalar M ctrl ptr EMPTY);
    |}
  | _ => {|
      Mask := BitMask;
      match_byte := group16_match_byte_sse2 M;
      match_empty := group16_match_empty_sse2 M;
      match_non_empty := group16_match_non_empty_sse2 M;
      match_byte_and_empty := group16_match_byte_and_empty_sse2 M;
    |}
  end.

(** ** 32-slot groups *)

Section group.
Context (SLOT_MASK : Z).

(*@ raw/group32.rs : 32-49 : Group32::match_byte *)
Definition group32_match_byte_avx2 (ctrl : list Z) (ptr : nat) (value : Z) : Z :=
  let data := simd_load 32 ctrl ptr in
  let cmp := simd_cmpeq data (simd_set1 32 value) in
  Z.land (simd_movemask cmp) SLOT_MASK.

(*@ raw/group32.rs : pub unsafe fn match_non_empty( @1 *)
Definition group32_match_non_empty_avx2 (ctrl : list Z) (ptr : nat) : Z :=
  let data := simd_load 32 ctrl ptr in
  let cmp := simd_cmpeq data (simd_set1 32 0) in
  let mask := simd_movemask cmp in
  Z.land (not_w 32 mask) SLOT_MASK.

(** Two 16-byte loads, combined into one 32-bit mask. *)
Definition group32_movemask_2x16 (ctrl : list Z) (ptr : nat) (value : Z) : Z :=
  let lo := simd_load 16 ctrl ptr in
  let hi := simd_load 16 ctrl (ptr + 16) in
  let lo_m := Z.land (simd_movemask (simd_cmpeq lo (simd_set1 16 value))) 0xFFFF in
  let hi_m := Z.land (simd_movemask (simd_cmpeq hi (simd_set1 16 value))) 0xFFFF in
  Z.lor (Z.shiftl hi_m 16) lo_m.

(*@ raw/group32.rs : pub unsafe fn match_byte( @2 *)
Definition group32_match_byte_sse2 (ctrl : list Z) (ptr : nat) (value : Z) : Z :=
  Z.land (group32_movemask_2x16 ctrl ptr value) SLOT_MASK.

(*@ raw/group32.rs : pub unsafe fn match_non_empty( @2 *)
Definition group32_match_non_empty_sse2 (ctrl : list Z) (ptr : nat) : Z :=
  Z.land (not_w 32 (group32_movemask_2x16 ctrl ptr 0)) SLOT_MASK.

(*@ raw/group32.rs : pub unsafe fn match_byte( @3 *)
Definition group32_match_byte_scalar (ctrl : list Z) (ptr : nat) (value : Z) : Z :=
  Z.land (scalar_mask 32 ctrl ptr (λ b, b =? value)) SLOT_MASK.

(*@ raw/group32.rs : pub unsafe fn match_non_empty( @3 *)
Definition group32_match_non_empty_scalar (ctrl : list Z) (ptr : nat) : Z :=
  Z.land (scalar_mask 32 ctrl ptr (λ b, negb (b =? 0))) SLOT_MASK.
End group.

(** [match_empty] is [match_byte] of the zero byte, and the fused operation
    computes the two masks from the same load. *)
(*@ raw/group32.rs : pub unsafe fn match_byte_and_empty( @2 *)
Definition group_ops_of (w : BitMaskOps) (mb : list Z → nat → Z → Z)
    (mne : list Z → nat → Z) : GroupOps := {|
  Mask := w;
  match_byte := mb;
  match_empty := λ ctrl ptr, mb ctrl ptr 0;
  match_non_empty := mne;
  match_byte_and_empty := λ ctrl ptr v, (mb ctrl ptr v, mb ctrl ptr 0);
|}.

(*@ raw/group_layout.rs : impl<const M: u32> GroupOps for Group32<M> *)
Definition Group32 (M : Z) (t : simd_tier) : GroupOps :=
  match t with
  | Scalar => group_ops_of BitMask32 (group32_match_byte_scalar M) (group32_match_non_empty_scalar M)
  | SSE2 => group_ops_of BitMask32 (group32_match_byte_sse2 M) (group32_match_non_empty_sse2 M)
  | AVX2 | AVX512BW =>
      group_ops_of BitMask32 (group32_match_byte_avx2 M) (group32_match_non_empty_avx2 M)
  end.

(** ** 64-slot groups *)

Section group.
Context (SLOT_MASK : Z).

(** [_mm512_cmpeq_epi8_mask] yields the lane mask directly. *)
(*@ raw/group64.rs : 33-48 : Group64::match_byte *)
Definition group64_match_byte_avx512 (ctrl : list Z) (ptr : nat) (value : Z) : Z :=
  Z.land (simd_movemask (simd_cmpeq (simd_load 64 ctrl ptr) (simd_set1 64 value))) SLOT_MASK.

(*@ raw/group64.rs : pub unsafe fn match_non_empty( @1 *)
Definition group64_match_non_empty_avx512 (ctrl : list Z) (ptr : nat) : Z :=
  let empty := simd_movemask (simd_cmpeq (simd_load 64 ctrl ptr) (simd_set1 64 0)) in
  Z.land (not_w 64 empty) SLOT_MASK.

Definition group64_movemask_2x32 (ctrl : list Z) (ptr : nat) (value : Z) : Z :=
  let lo := simd_load 32 ctrl ptr in
  let hi := simd_load 32 ctrl (ptr + 32) in
  let lo_m := simd_movemask (simd_cmpeq lo (simd_set1 32 value)) in
  let hi_m := simd_movemask (simd_cmpeq hi (simd_set1 32 value)) in
  Z.lor (Z.shiftl hi_m 32) lo_m.

(*@ raw/group64.rs : pub unsafe fn match_byte( @2 *)
Definition group64_match_byte_avx2 (ctrl : list Z) (ptr : nat) (value : Z) : Z :=
  Z.land (group64_movemask_2x32 ctrl ptr value) SLOT_MASK.

(*@ raw/group64.rs : pub unsafe fn match_non_empty( @2 *)
Definition group64_match_non_empty_avx2 (ctrl : list Z) (ptr : nat) : Z :=
  Z.land (not_w 64 (group64_movemask_2x32 ctrl ptr 0)) SLOT_MASK.

(** [for i in 0..4 { mask |= m_i << (i * 16) }] *)
Definition group64_movemask_4x16 (ctrl : list Z) (ptr : nat) (value : Z) : Z :=
  fold_left (λ mask i,
      let chunk := simd_load 16 ctrl (ptr + i * 16) in
      let cmp := simd_cmpeq chunk (simd_set1 16 value) in
      let m := Z.land (simd_movemask cmp) 0xFFFF in
      Z.lor mask (Z.shiftl m (Z.of_nat (i * 16))))
    (seq 0 4) 0.

(*@ raw/group64.rs : pub unsafe fn match_byte( @3 *)
Definition group64_match_byte_sse2 (ctrl : list Z) (ptr : nat) (value : Z) : Z :=
  Z.land (group64_movemask_4x16 ctrl ptr value) SLOT_MASK.

(*@ raw/group64.rs : pub unsafe fn match_non_empty( @3 *)
Definition group64_match_non_empty_sse2 (ctrl : list Z) (ptr : nat) : Z :=
  Z.land (not_w 64 (group64_movemask_4x16 ctrl ptr 0)) SLOT_MASK.

(*@ raw/group64.rs : pub unsafe fn match_byte( @4 *)
Definition group64_match_byte_scalar (ctrl : list Z) (ptr : nat) (value : Z) : Z :=
  Z.land (scalar_mask 64 ctrl ptr (λ b, b =? value)) SLOT_MASK.

(*@ raw/group64.rs : pub unsafe fn match_non_empty( @4 *)
Definition group64_match_non_empty_scalar (ctrl : list Z) (ptr : nat) : Z :=
  Z.land (scalar_mask 64 ctrl ptr (λ b, negb (b =? 0))) SLOT_MASK.
End group.

(*@ raw/group_layout.rs : impl<const M: u64> GroupOps for Group64<M> *)
Definition Group64 (M : Z) (t : simd_tier) : GroupOps :=
  match t with
  | Scalar => group_ops_of BitMask64 (group64_match_byte_scalar M) (group64_match_non_empty_scalar M)
  | SSE2 => group_ops_of BitMask64 (group64_match_byte_sse2 M) (group64_match_non_empty_sse2 M)
  | AVX2 => group_ops_of BitMask64 (group64_match_byte_avx2 M) (group64_match_non_empty_avx2 M)
  | AVX512BW => group_ops_of BitMask64 (group64_match_byte_avx512 M) (group64_match_non_empty_avx512 M)
  end.

(** ** Masks as predicates *)

(** The mask [m] of [n] slots says which of them satisfy [p]. *)
Definition mask_repr (m : Z) (n : nat) (p : nat → bool) : Prop :=
  0 <= m ∧ ∀ i : nat, Z.testbit m (Z.of_nat i) = (i <? n)%nat && p i.

Lemma mask_repr_range m n p : mask_repr m n p → 0 <= m < 2 ^ Z.of_nat n.
Proof.
  intros [Hm Hb]. apply range_of_bits; [lia|]. intros i Hi.
  rewrite <- (Z2Nat.id i) by lia. rewrite Hb.
  destruct (Nat.ltb_spec (Z.to_nat i) n); [lia|done].
Qed.

Lemma mask_repr_ext m n p q :
  mask_repr m n p → (∀ i, (i < n)%nat → p i = q i) → mask_repr m n q.
Proof.
  intros [Hm Hb] Hpq. split; [done|]. intros i. rewrite Hb.
  destruct (Nat.ltb_spec i n); simpl; auto.
Qed.

Lemma mask_repr_eq m m' n p : mask_repr m n p → mask_repr m' n p → m = m'.
Proof.
  intros [Hm Hb] [Hm' Hb']. apply Z.bits_inj'. intros i Hi.
  rewrite <- (Z2Nat.id i) by lia. by rewrite Hb, Hb'.
Qed.

Lemma testbit_cons_zero (b : bool) (m : Z) :
  Z.testbit (Z.b2z b + 2 * m) 0 = b.
Proof. apply Z.add_b2z_double_bit0. Qed.

Lemma testbit_cons_succ (b : bool) (m : Z) (i : nat) :
  Z.testbit (Z.b2z b + 2 * m) (Z.of_nat (S i)) = Z.testbit m (Z.of_nat i).
Proof.
  rewrite Nat2Z.inj_succ, Z.add_comm. apply Z.testbit_succ_r. lia.
Qed.

Lemma movemask_repr (r : list Z) :
  mask_repr (simd_movemask r) (length r) (λ i, Z.testbit (byte_at r i) 7).
Proof.
  induction r as [|x r [IHm IHb]].
  - split; [done|]. intros i. apply Z.testbit_0_l.
  - cbn [simd_movemask length]. split; [destruct (Z.testbit x 7); simpl; lia|].
    intros [|i].
    + change (Z.of_nat 0) with 0. rewrite testbit_cons_zero. done.
    + rewrite testbit_cons_succ, IHb. done.
Qed.

Lemma simd_load_length n ctrl ptr : length (simd_load n ctrl ptr) = n.
Proof. unfold simd_load. by rewrite length_map, length_seq. Qed.

Lemma simd_load_lookup n ctrl ptr i :
  (i < n)%nat → simd_load n ctrl ptr !! i = Some (byte_at ctrl (ptr + i)).
Proof.
  intros Hi. unfold simd_load. rewrite list_lookup_fmap.
  rewrite lookup_seq_lt by done. done.
Qed.

(** Comparing a load with a broadcast byte. *)
Lemma cmpeq_repr n ctrl ptr v :
  mask_repr (simd_movemask (simd_cmpeq (simd_load n ctrl ptr) (simd_set1 n v))) n
    (λ i, byte_at ctrl (ptr + i) =? v).
Proof.
  pose proof (movemask_repr (simd_cmpeq (simd_load n ctrl ptr) (simd_set1 n v))) as H.
  unfold simd_cmpeq in *.
  rewrite length_zip_with, simd_load_length in H. unfold simd_set1 in *.
  rewrite length_replicate, Nat.min_id in H.
  eapply mask_repr_ext; [exact H|]. intros i Hi. unfold byte_at at 1.
  rewrite lookup_zip_with, simd_load_lookup, lookup_replicate_2 by done. simpl.
  by destruct (_ =? v).
Qed.

Lemma land_ones_repr m n p (g : nat) M :
  mask_repr m n p → (g <= n)%nat → M = Z.ones (Z.of_nat g) → mask_repr (Z.land m M) g p.
Proof.
  intros [Hm Hb] Hg ->. split; [apply Z.land_nonneg; lia|]. intros i.
  rewrite Z.land_spec, Hb. destruct (Nat.ltb_spec i g).
  - rewrite Z.ones_spec_low by lia. destruct (Nat.ltb_spec i n); [|lia].
    simpl. by rewrite andb_true_r.
  - rewrite Z.ones_spec_high by lia. by rewrite andb_false_r.
Qed.

Lemma not_repr m n p w :
  mask_repr m n p → w = Z.of_nat n → mask_repr (not_w w m) n (λ i, negb (p i)).
Proof.
  intros [Hm Hb] ->. unfold not_w. split; [apply Z.lxor_nonneg; split; intros; [|done]; rewrite Z.ones_equiv; lia|].
  intros i. rewrite Z.lxor_spec, Hb. destruct (Nat.ltb_spec i n).
  - rewrite Z.ones_spec_low by lia. by destruct (p i).
  - rewrite Z.ones_spec_high by lia. done.
Qed.

(** Gluing the masks of two adjacent ranges of slots. *)
Lemma glue_repr lo hi n1 n2 p sh :
  mask_repr lo n1 p → mask_repr hi n2 (λ i, p (n1 + i)%nat) → sh = Z.of_nat n1 →
  mask_repr (Z.lor (Z.shiftl hi sh) lo) (n1 + n2) p.
Proof.
  intros [Hlo Hbl] [Hhi Hbh] ->. split.
  { apply Z.lor_nonneg. split; [|done]. apply Z.shiftl_nonneg. done. }
  intros i. rewrite Z.lor_spec, Z.shiftl_spec, Hbl by lia.
  destruct (Nat.ltb_spec i n1).
  - rewrite Z.testbit_neg_r by lia. destruct (Nat.ltb_spec i (n1 + n2)); [done|lia].
  - rewrite <- Nat2Z.inj_sub, Hbh by lia.
    replace (n1 + (i - n1))%nat with i by lia.
    destruct (Nat.ltb_spec (i - n1) n2), (Nat.ltb_spec i (n1 + n2)); try lia;
      by rewrite orb_false_r.
Qed.

Lemma scalar_repr n ctrl ptr p :
  mask_repr (scalar_mask n ctrl ptr p) n (λ i, p (byte_at ctrl (ptr + i))).
Proof.
  unfold scalar_mask. induction n as [|n [IHm IHb]].
  - split; [done|]. intros i. apply Z.testbit_0_l.
  - rewrite seq_S, fold_left_app. simpl. set (m := fold_left _ _ 0) in *.
    assert (∀ i : nat, Z.testbit (Z.shiftl 1 (Z.of_nat n)) (Z.of_nat i) = (i =? n)%nat) as H1.
    { intros i. rewrite Z.shiftl_1_l, Z.pow2_bits_eqb by lia.
      destruct (Nat.eqb_spec i n), (Z.eqb_spec (Z.of_nat n) (Z.of_nat i)); lia || done. }
    split.
    + destruct (p _); [|done]. apply Z.lor_nonneg. split; [done|].
      apply Z.shiftl_nonneg. lia.
    + intros i. destruct (p (byte_at ctrl (ptr + n))) eqn:Hp.
      * rewrite Z.lor_spec, IHb, H1.
        destruct (Nat.ltb_spec i n), (Nat.ltb_spec i (S n)), (Nat.eqb_spec i n);
          try lia; simpl; subst; try rewrite orb_false_r; try rewrite orb_true_r; auto.
      * rewrite IHb.
        destruct (Nat.ltb_spec i n), (Nat.ltb_spec i (S n)); try lia; simpl; auto.
        assert (i = n) as -> by lia. by rewrite Hp.
Qed.

(** Iterating an exact mask enumerates the slots it stands for. *)
Lemma bits_repr (w : BitMaskOps) m n p :
  mask_repr m n p → (n <= mask_bits w)%nat → bits w m = List.filter p (seq 0 n).
Proof.
  intros Hm Hn. pose proof (mask_repr_range m n p Hm) as Hr. destruct Hm as [Hm Hb].
  assert (2 ^ Z.of_nat n <= 2 ^ Z.of_nat (mask_bits w)) by (apply Z.pow_le_mono_r; lia).
  unfold bits. rewrite (iterate_spec w _ m 0) by lia. rewrite Nat.sub_0_r.
  replace (mask_bits w) with (n + (mask_bits w - n))%nat by lia.
  rewrite seq_app, List.filter_app, (filter_seq_none _ (0 + n)), app_nil_r.
  - apply List.filter_ext_in. intros i Hi%in_seq. rewrite Hb.
    destruct (Nat.ltb_spec i n); [done|lia].
  - intros i Hi. rewrite Hb. destruct (Nat.ltb_spec i n); [lia|done].
Qed.

(** ** Every tier computes the same mask *)

(** What the tables rely on: [gs] usable slots, exact masks. *)
Class GroupOk (G : GroupOps) (gs : nat) := {
  group_width : (gs <= mask_bits (Mask G))%nat;
  match_byte_repr ctrl ptr v :
    mask_repr (match_byte G ctrl ptr v) gs (λ i, byte_at ctrl (ptr + i) =? v);
  match_empty_repr ctrl ptr :
    mask_repr (match_empty G ctrl ptr) gs (λ i, byte_at ctrl (ptr + i) =? EMPTY);
  match_non_empty_repr ctrl ptr :
    mask_repr (match_non_empty G ctrl ptr) gs (λ i, negb (byte_at ctrl (ptr + i) =? EMPTY));
  match_both ctrl ptr v :
    match_byte_and_empty G ctrl ptr v = (match_byte G ctrl ptr v, match_empty G ctrl ptr);
}.

(** The slot masks the layouts use: all slots, or all but the last one, which
    holds the overflow byte. *)
Lemma Group_ok M gs t :
  M = Z.ones (Z.of_nat gs) → gs = 15%nat ∨ gs = 16%nat → GroupOk (Group M t) gs.
Proof.
  intros -> Hgs.
  assert (group16_scalar_count (Z.ones (Z.of_nat gs)) = gs) as Hcount by (by destruct Hgs as [->| ->]).
  assert (gs <= 16)%nat by lia.
  destruct t; cbn [Group]; split; cbn; try done;
    unfold group16_match_byte_scalar, group16_match_non_empty_scalar, EMPTY;
    rewrite ?Hcount; intros;
    first [ apply scalar_repr
          | apply (land_ones_repr _ 16); [|lia|done];
            first [apply cmpeq_repr | apply not_repr; [apply cmpeq_repr|done]] ].
Qed.

Lemma movemask_2x16_repr ctrl ptr v :
  mask_repr (group32_movemask_2x16 ctrl ptr v) 32 (λ i, byte_at ctrl (ptr + i) =? v).
Proof.
  unfold group32_movemask_2x16. apply (glue_repr _ _ 16 16); [| |done].
  - apply (land_ones_repr _ 16); [apply cmpeq_repr|lia|done].
  - eapply mask_repr_ext.
    + apply (land_ones_repr _ 16); [apply cmpeq_repr|lia|done].
    + intros i _. cbv beta. by rewrite Nat.add_assoc.
Qed.

Lemma movemask_2x32_repr ctrl ptr v :
  mask_repr (group64_movemask_2x32 ctrl ptr v) 64 (λ i, byte_at ctrl (ptr + i) =? v).
Proof.
  unfold group64_movemask_2x32. apply (glue_repr _ _ 32 32); [apply cmpeq_repr| |done].
  eapply mask_repr_ext; [apply cmpeq_repr|].
  intros i _. cbv beta. by rewrite Nat.add_assoc.
Qed.

Lemma movemask_4x16_repr ctrl ptr v :
  mask_repr (group64_movemask_4x16 ctrl ptr v) 64 (λ i, byte_at ctrl (ptr + i) =? v).
Proof.
  assert (∀ j n m, mask_repr m n (λ i, byte_at ctrl (ptr + i) =? v) → n = (j * 16)%nat →
    mask_repr (Z.lor m (Z.shiftl (Z.land (simd_movemask (simd_cmpeq
        (simd_load 16 ctrl (ptr + j * 16)) (simd_set1 16 v))) 0xFFFF) (Z.of_nat (j * 16))))
      (n + 16) (λ i, byte_at ctrl (ptr + i) =? v)) as Hstep.
  { intros j n m Hm ->. rewrite Z.lor_comm. apply glue_repr; [done| |done].
    eapply mask_repr_ext.
    - apply (land_ones_repr _ 16 _ 16); [apply cmpeq_repr|lia|done].
    - intros i _. cbv beta. by rewrite Nat.add_assoc. }
  unfold group64_movemask_4x16. cbn [fold_left seq].
  apply (Hstep 3%nat 48%nat); [|done]. apply (Hstep 2%nat 32%nat); [|done].
  apply (Hstep 1%nat 16%nat); [|done]. apply (Hstep 0%nat 0%nat); [|done].
  split; [done|]. intros i. apply Z.testbit_0_l.
Qed.

#[export] Hint Resolve cmpeq_repr scalar_repr movemask_2x16_repr movemask_2x32_repr
  movemask_4x16_repr : bits.

Lemma group_ops_ok w mb mne gs :
  (gs <= mask_bits w)%nat →
  (∀ ctrl ptr v, mask_repr (mb ctrl ptr v) gs (λ i, byte_at ctrl (ptr + i) =? v)) →
  (∀ ctrl ptr, mask_repr (mne ctrl ptr) gs (λ i, negb (byte_at ctrl (ptr + i) =? EMPTY))) →
  GroupOk (group_ops_of w mb mne) gs.
Proof. intros. split; cbn; auto. Qed.

Lemma Group32_ok M gs t :
  M = Z.ones (Z.of_nat gs) → (gs <= 32)%nat → GroupOk (Group32 M t) gs.
Proof.
  intros -> Hgs. destruct t; apply group_ops_ok; intros; try done;
    apply (land_ones_repr _ 32); try lia; auto with bits;
    try (apply scalar_repr with (p := λ b, negb (b =? 0)));
    apply not_repr; auto with bits.
Qed.

Lemma Group64_ok M gs t :
  M = Z.ones (Z.of_nat gs) → (gs <= 64)%nat → GroupOk (Group64 M t) gs.
Proof.
  intros -> Hgs. destruct t; apply group_ops_ok; intros; try done;
    apply (land_ones_repr _ 64); try lia; auto with bits;
    try (apply scalar_repr with (p := λ b, negb (b =? 0)));
    apply not_repr; auto with bits.
Qed.

(** Whatever the instruction set, the group operations of one width
    return the same masks: AVX-512BW, AVX2, SSE2 and the scalar fallback are
    interchangeable for 15/16-, 31/32- and 63/64-slot groups. *)
Theorem simd_tiers_agree (t1 t2 : simd_tier) (gs : nat) (ctrl : list Z) (ptr : nat) (v : Z) :
  let M := Z.ones (Z.of_nat gs) in
  let agree (G1 G2 : GroupOps) :=
    match_byte G1 ctrl ptr v = match_byte G2 ctrl ptr v ∧
    match_empty G1 ctrl ptr = match_empty G2 ctrl ptr ∧
    match_non_empty G1 ctrl ptr = match_non_empty G2 ctrl ptr ∧
    match_byte_and_empty G1 ctrl ptr v = match_byte_and_empty G2 ctrl ptr v in
  (gs = 15 ∨ gs = 16 → agree (Group M t1) (Group M t2))%nat ∧
  (gs = 31 ∨ gs = 32 → agree (Group32 M t1) (Group32 M t2))%nat ∧
  (gs = 63 ∨ gs = 64 → agree (Group64 M t1) (Group64 M t2))%nat.
Proof.
  intros M agree.
  assert (∀ G1 G2, GroupOk G1 gs → GroupOk G2 gs → agree G1 G2) as Hag.
  { intros G1 G2 H1 H2. unfold agree. rewrite !match_both.
    assert (match_byte G1 ctrl ptr v = match_byte G2 ctrl ptr v) as ->
      by (eapply mask_repr_eq; apply match_byte_repr).
    assert (match_empty G1 ctrl ptr = match_empty G2 ctrl ptr) as ->
      by (eapply mask_repr_eq; apply match_empty_repr).
    assert (match_non_empty G1 ctrl ptr = match_non_empty G2 ctrl ptr) as ->
      by (eapply mask_repr_eq; apply match_non_empty_repr).
    done. }
  split_and_all; intros Hgs; apply Hag;
    first [by apply Group_ok | apply Group32_ok; [done|lia] | apply Group64_ok; [done|lia]].
Qed.

Lemma simd_tiers_agree_witness :
  match_byte (Group32 (Z.ones 31) AVX2) (replicate 31 7 ++ [7]) 0 7 =
  match_byte (Group32 (Z.ones 31) SSE2) (replicate 31 7 ++ [7]) 0 7.
Proof.
  destruct (simd_tiers_agree AVX2 SSE2 31 (replicate 31 7 ++ [7]) 0 7) as (_ & H & _).
  destruct H as [H _]; [left; reflexivity|]. exact H.
Defined.
