(* ===== verification/Layout.v ===== *)
(** * Overflow strategies and group layouts

    [raw/overflow_strategy.rs] and [raw/group_layout.rs]: where the overflow
    bits of a group live in the control bytes, and the compile-time constants
    that a design is made of.  A layout is a record of its constants and
    strategies; [LayoutOk] collects what the table relies on. *)

From Stdlib Require Import ZArith Lia.
From S2P Require Import Prelude Bitmask HashTag Group.
Local Open Scope Z_scope.

(** ** Overflow storage *)

(** [overflow_off mask gi meta_stride] is the offset from the metadata
    pointer of the byte that holds the overflow bits of group [gi]. *)
(*@ raw/overflow_strategy.rs : pub trait OverflowStrategy *)
Record OverflowStrategy := {
  CHANNELED : bool;
  extra_alloc_bytes : nat → nat;
  overflow_bytes_to_zero : nat → nat;
  overflow_bytes_to_copy : nat → nat;
  overflow_off : nat → nat → nat → nat;
  has_overflow : Z → nat → Z → bool;
  set_overflow : Z → nat → Z → Z;
}.

(*@ raw/overflow_strategy.rs : impl OverflowStrategy for ByteSeparate *)
Definition ByteSeparate : OverflowStrategy := {|
  CHANNELED := true;
  extra_alloc_bytes := λ num_groups, num_groups;
  overflow_bytes_to_zero := λ num_groups, num_groups;
  overflow_bytes_to_copy := λ num_groups, num_groups;
  overflow_off := λ mask gi meta_stride, ((mask + 1) * meta_stride + gi)%nat;
  has_overflow := λ b _ channel, negb (Z.land b channel =? 0);
  set_overflow := λ b _ channel, Z.lor b channel;
|}.

(*@ raw/overflow_strategy.rs : impl OverflowStrategy for BitSeparate *)
Definition BitSeparate : OverflowStrategy := {|
  CHANNELED := false;
  extra_alloc_bytes := λ num_groups, ((num_groups + 7) / 8)%nat;
  overflow_bytes_to_zero := λ num_groups, ((num_groups + 7) / 8)%nat;
  overflow_bytes_to_copy := λ num_groups, ((num_groups + 7) / 8)%nat;
  overflow_off := λ mask gi meta_stride, ((mask + 1) * meta_stride + Nat.shiftr gi 3)%nat;
  has_overflow := λ b gi _, negb (Z.land b (shl_u8 1 (Z.of_nat (Nat.land gi 7))) =? 0);
  set_overflow := λ b gi _, Z.lor b (shl_u8 1 (Z.of_nat (Nat.land gi 7)));
|}.

(*@ raw/group_layout.rs : impl OverflowStrategy for EmbeddedOverflow *)
Definition EmbeddedOverflow : OverflowStrategy := {|
  CHANNELED := true;
  extra_alloc_bytes := λ _, 0%nat;
  overflow_bytes_to_zero := λ _, 0%nat;
  overflow_bytes_to_copy := λ _, 0%nat;
  overflow_off := λ _ gi meta_stride, (gi * meta_stride + meta_stride - 1)%nat;
  has_overflow := λ b _ channel, negb (Z.land b channel =? 0);
  set_overflow := λ b _ channel, Z.lor b channel;
|}.

(** ** Layouts *)

(*@ raw/group_layout.rs : pub enum HashRegion *)
Inductive HashRegion := Low | High.

(** [META_ALIGN] always equals [META_STRIDE] in the source. *)
(*@ raw/group_layout.rs : pub trait GroupLayout *)
Record GroupLayout := {
  Grp : GroupOps;
  Tag : TagStrategy;
  Overflow : OverflowStrategy;
  GROUP_SIZE : nat;
  BUCKET_STRIDE : nat;
  META_STRIDE : nat;
  SEPARATE_OVERFLOW : bool;
  GROUP_INDEX_REGION : HashRegion;
  LOAD_FACTOR_NUM : nat;
  LOAD_FACTOR_DEN : nat;
}.

(*@ raw/group_layout.rs : fn bucket_index *)
Definition bucket_index (L : GroupLayout) (gi si : nat) : nat := (gi * BUCKET_STRIDE L + si)%nat.

Section layouts.
Context (t : simd_tier).

(** The separate-overflow layouts: 16, 32 and 64 slots. *)
(*@ raw/group_layout.rs : impl<T: TagStrategy, O: OverflowStrategy> GroupLayout for Layout16<T, O> *)
Definition Layout16 (T : TagStrategy) (O : OverflowStrategy) : GroupLayout := {|
  Grp := Group 0xFFFF t; Tag := T; Overflow := O;
  GROUP_SIZE := 16; BUCKET_STRIDE := 16; META_STRIDE := 16;
  SEPARATE_OVERFLOW := true; GROUP_INDEX_REGION := High;
  LOAD_FACTOR_NUM := 7; LOAD_FACTOR_DEN := 8;
|}.

(*@ raw/group_layout.rs : impl<T: TagStrategy, O: OverflowStrategy> GroupLayout for Layout16And<T, O> *)
Definition Layout16And (T : TagStrategy) (O : OverflowStrategy) : GroupLayout := {|
  Grp := Group 0xFFFF t; Tag := T; Overflow := O;
  GROUP_SIZE := 16; BUCKET_STRIDE := 16; META_STRIDE := 16;
  SEPARATE_OVERFLOW := true; GROUP_INDEX_REGION := Low;
  LOAD_FACTOR_NUM := 7; LOAD_FACTOR_DEN := 8;
|}.

(*@ raw/group_layout.rs : impl<T: TagStrategy, O: OverflowStrategy> GroupLayout for Layout32<T, O> *)
Definition Layout32 (T : TagStrategy) (O : OverflowStrategy) : GroupLayout := {|
  Grp := Group32 0xFFFFFFFF t; Tag := T; Overflow := O;
  GROUP_SIZE := 32; BUCKET_STRIDE := 32; META_STRIDE := 32;
  SEPARATE_OVERFLOW := true; GROUP_INDEX_REGION := High;
  LOAD_FACTOR_NUM := 7; LOAD_FACTOR_DEN := 8;
|}.

(*@ raw/group_layout.rs : impl<T: TagStrategy, O: OverflowStrategy> GroupLayout for Layout32And<T, O> *)
Definition Layout32And (T : TagStrategy) (O : OverflowStrategy) : GroupLayout := {|
  Grp := Group32 0xFFFFFFFF t; Tag := T; Overflow := O;
  GROUP_SIZE := 32; BUCKET_STRIDE := 32; META_STRIDE := 32;
  SEPARATE_OVERFLOW := true; GROUP_INDEX_REGION := Low;
  LOAD_FACTOR_NUM := 7; LOAD_FACTOR_DEN := 8;
|}.

(*@ raw/group_layout.rs : impl<T: TagStrategy, O: OverflowStrategy> GroupLayout for Layout64<T, O> *)
Definition Layout64 (T : TagStrategy) (O : OverflowStrategy) : GroupLayout := {|
  Grp := Group64 0xFFFFFFFFFFFFFFFF t; Tag := T; Overflow := O;
  GROUP_SIZE := 64; BUCKET_STRIDE := 64; META_STRIDE := 64;
  SEPARATE_OVERFLOW := true; GROUP_INDEX_REGION := High;
  LOAD_FACTOR_NUM := 7; LOAD_FACTOR_DEN := 8;
|}.

(*@ raw/group_layout.rs : impl<T: TagStrategy, O: OverflowStrategy> GroupLayout for Layout64And<T, O> *)
Definition Layout64And (T : TagStrategy) (O : OverflowStrategy) : GroupLayout := {|
  Grp := Group64 0xFFFFFFFFFFFFFFFF t; Tag := T; Overflow := O;
  GROUP_SIZE := 64; BUCKET_STRIDE := 64; META_STRIDE := 64;
  SEPARATE_OVERFLOW := true; GROUP_INDEX_REGION := Low;
  LOAD_FACTOR_NUM := 7; LOAD_FACTOR_DEN := 8;
|}.

(** The [define_embedded_layout!] macro. *)
(*@ raw/group_layout.rs : macro_rules! define_embedded_layout *)
Definition embedded_layout (grp : GroupOps) (gs bs ms : nat) (region : HashRegion)
    (T : TagStrategy) : GroupLayout := {|
  Grp := grp; Tag := T; Overflow := EmbeddedOverflow;
  GROUP_SIZE := gs; BUCKET_STRIDE := bs; META_STRIDE := ms;
  SEPARATE_OVERFLOW := false; GROUP_INDEX_REGION := region;
  LOAD_FACTOR_NUM := 7; LOAD_FACTOR_DEN := 8;
|}.

(*@ raw/group_layout.rs : define_embedded_layout!( @1 *)
Definition Layout16EmbCompact := embedded_layout (Group 0x7FFF t) 15 15 16 High.
(*@ raw/group_layout.rs : define_embedded_layout!(Layout16EmbP2, *)
Definition Layout16EmbP2 := embedded_layout (Group 0x7FFF t) 15 16 16 High.
(*@ raw/group_layout.rs : define_embedded_layout!( @3 *)
Definition Layout16EmbCompactAnd := embedded_layout (Group 0x7FFF t) 15 15 16 Low.
(*@ raw/group_layout.rs : define_embedded_layout!(Layout16EmbP2And, *)
Definition Layout16EmbP2And := embedded_layout (Group 0x7FFF t) 15 16 16 Low.
(*@ raw/group_layout.rs : define_embedded_layout!( @5 *)
Definition Layout32EmbCompact := embedded_layout (Group32 0x7FFFFFFF t) 31 31 32 High.
(*@ raw/group_layout.rs : define_embedded_layout!( @6 *)
Definition Layout32EmbP2 := embedded_layout (Group32 0x7FFFFFFF t) 31 32 32 High.
(*@ raw/group_layout.rs : define_embedded_layout!( @7 *)
Definition Layout32EmbCompactAnd := embedded_layout (Group32 0x7FFFFFFF t) 31 31 32 Low.
(*@ raw/group_layout.rs : define_embedded_layout!( @8 *)
Definition Layout32EmbP2And := embedded_layout (Group32 0x7FFFFFFF t) 31 32 32 Low.
(*@ raw/group_layout.rs : define_embedded_layout!( @9 *)
Definition Layout64EmbCompact := embedded_layout (Group64 0x7FFFFFFFFFFFFFFF t) 63 63 64 High.
(*@ raw/group_layout.rs : define_embedded_layout!( @10 *)
Definition Layout64EmbP2 := embedded_layout (Group64 0x7FFFFFFFFFFFFFFF t) 63 64 64 High.
(*@ raw/group_layout.rs : define_embedded_layout!( @11 *)
Definition Layout64EmbCompactAnd := embedded_layout (Group64 0x7FFFFFFFFFFFFFFF t) 63 63 64 Low.
(*@ raw/group_layout.rs : define_embedded_layout!( @12 *)
Definition Layout64EmbP2And := embedded_layout (Group64 0x7FFFFFFFFFFFFFFF t) 63 64 64 Low.

(** The named designs. *)
Context (f : hash_feature).

(*@ raw/group_layout.rs : pub type SplitsiesLayout *)
Definition SplitsiesLayout := Layout16 (LowTag255 f) ByteSeparate.
(*@ raw/group_layout.rs : pub type UfmLayout *)
Definition UfmLayout := Layout16EmbCompact (LowTag255 f).
(*@ raw/group_layout.rs : pub type GapsLayout *)
Definition GapsLayout := Layout16EmbP2 (LowTag255 f).
(*@ raw/group_layout.rs : pub type Ufm32Layout *)
Definition Ufm32Layout := Layout32EmbCompact (LowTag255 f).
(*@ raw/group_layout.rs : pub type Gaps32Layout *)
Definition Gaps32Layout := Layout32EmbP2 (LowTag255 f).
(*@ raw/group_layout.rs : pub type Ufm64Layout *)
Definition Ufm64Layout := Layout64EmbCompact (LowTag255 f).
(*@ raw/group_layout.rs : pub type Gaps64Layout *)
Definition Gaps64Layout := Layout64EmbP2 (LowTag255 f).
(*@ raw/group_layout.rs : pub type LowTag255_1bit *)
Definition LowTag255_1bit := Layout16 (LowTag255 f) BitSeparate.
(*@ raw/group_layout.rs : pub type HighTag128_1bitAnd = *)
Definition HighTag128_1bitAnd := Layout16And HighTag128 BitSeparate.
(*@ raw/group_layout.rs : pub type HighTag255_1bitAnd = *)
Definition HighTag255_1bitAnd := Layout16And (HighTag255 f) BitSeparate.
(*@ raw/group_layout.rs : pub type Splitsies32Layout *)
Definition Splitsies32Layout := Layout32 (LowTag255 f) ByteSeparate.
(*@ raw/group_layout.rs : pub type Splitsies64Layout *)
Definition Splitsies64Layout := Layout64 (LowTag255 f) ByteSeparate.
(*@ raw/group_layout.rs : pub type Splitsies64_1bit *)
Definition Splitsies64_1bit := Layout64 (LowTag255 f) BitSeparate.
End layouts.

(** ** Overflow bits in the control bytes *)

Definition has_overflow_at (L : GroupLayout) (ctrl : list Z) (mask gi : nat) (c : Z) : bool :=
  has_overflow (Overflow L) (byte_at ctrl (overflow_off (Overflow L) mask gi (META_STRIDE L))) gi c.

Definition set_overflow_at (L : GroupLayout) (ctrl : list Z) (mask gi : nat) (c : Z) : list Z :=
  let off := overflow_off (Overflow L) mask gi (META_STRIDE L) in
  set_byte ctrl off (set_overflow (Overflow L) (byte_at ctrl off) gi c).

(** Bytes from the metadata pointer to the end of the overflow region. *)
Definition ctrl_size (L : GroupLayout) (num_groups : nat) : nat :=
  (num_groups * META_STRIDE L + extra_alloc_bytes (Overflow L) num_groups)%nat.

(** ** What the table relies on *)

Definition single_bit (c : Z) : Prop := ∃ b, 0 <= b < 8 ∧ c = 2 ^ b.

Class OverflowOk (O : OverflowStrategy) := {
  ov_zero gi c : has_overflow O 0 gi c = false;
  ov_has_set b gi c : single_bit c → has_overflow O (set_overflow O b gi c) gi c = true;
  ov_mono b gi c gi' c' :
    has_overflow O b gi' c' = true → has_overflow O (set_overflow O b gi c) gi' c' = true;
  (** a one-bit strategy ignores the channel *)
  ov_unchanneled b gi c c' :
    CHANNELED O = false → has_overflow O b gi c = has_overflow O b gi c';
  (** groups that share an overflow byte do not disturb each other *)
  ov_apart mask ms b gi c gi' c' :
    (0 < ms)%nat → gi ≠ gi' →
    overflow_off O mask gi ms = overflow_off O mask gi' ms →
    has_overflow O (set_overflow O b gi c) gi' c' = has_overflow O b gi' c';
  (** a channelled strategy leaves the other channels of the group alone *)
  ov_channels b gi c c' :
    CHANNELED O = true → single_bit c → single_bit c' → c ≠ c' →
    has_overflow O (set_overflow O b gi c) gi c' = has_overflow O b gi c';
  ov_byte b gi c : single_bit c → 0 <= b < 256 → 0 <= set_overflow O b gi c < 256;
  ov_zeroed n : overflow_bytes_to_zero O n = extra_alloc_bytes O n;
  ov_copied n : overflow_bytes_to_copy O n = extra_alloc_bytes O n;
}.

Class LayoutOk (L : GroupLayout) := {
  layout_group :: GroupOk (Grp L) (GROUP_SIZE L);
  layout_tag :: TagOk (Tag L);
  layout_overflow :: OverflowOk (Overflow L);
  layout_gs : (0 < GROUP_SIZE L)%nat;
  layout_bucket : (GROUP_SIZE L <= BUCKET_STRIDE L)%nat;
  layout_meta : (GROUP_SIZE L <= META_STRIDE L)%nat;
  layout_load : (0 < LOAD_FACTOR_NUM L < LOAD_FACTOR_DEN L)%nat;
  layout_load_min : (LOAD_FACTOR_DEN L <= GROUP_SIZE L * LOAD_FACTOR_NUM L)%nat;
  layout_ov_bounds mask gi :
    (gi <= mask → overflow_off (Overflow L) mask gi (META_STRIDE L) < ctrl_size L (S mask))%nat;
  (** no overflow byte is a slot's tag byte *)
  layout_ov_disjoint mask gi g s :
    (gi <= mask → g <= mask → s < GROUP_SIZE L →
     overflow_off (Overflow L) mask gi (META_STRIDE L) ≠ g * META_STRIDE L + s)%nat;
}.

(** The static all-zero sentinel of unallocated tables is 64 bytes: lookups on
    an unallocated table stay inside it when one group's control bytes fit. *)
Definition SENTINEL_BYTES : nat := 64.

Class SentinelOk (L : GroupLayout) := {
  sentinel_fits : (ctrl_size L 1 <= SENTINEL_BYTES)%nat;
}.

(** ** The strategies of the crate satisfy the laws *)

Lemma land_lor_nonzero (b c c' : Z) :
  Z.land b c' ≠ 0 → Z.land (Z.lor b c) c' ≠ 0.
Proof. rewrite Z.land_lor_distr_l. intros H [H1 _]%Z.lor_eq_0_iff. done. Qed.

Lemma single_bit_nonzero c : single_bit c → c ≠ 0.
Proof. intros (b & Hb & ->). apply Z.pow_nonzero; lia. Qed.

Lemma land_single_bits c c' : single_bit c → single_bit c' → c ≠ c' → Z.land c c' = 0.
Proof.
  intros (b & Hb & ->) (b' & Hb' & ->) Hne. apply Z.bits_inj'. intros i Hi.
  rewrite Z.land_spec, !Z.pow2_bits_eqb, Z.testbit_0_l by lia.
  destruct (Z.eqb_spec b i), (Z.eqb_spec b' i); try done. congruence.
Qed.

Lemma lor_single_bit_range b c : single_bit c → 0 <= b < 256 → 0 <= Z.lor b c < 256.
Proof.
  intros (i & Hi & ->) Hb. assert (0 <= 2 ^ i < 256) as Hc.
  { change 256 with (2 ^ 8). split; [lia|]. apply Z.pow_lt_mono_r; lia. }
  rewrite <- (as_u8_small b), <- (as_u8_small (2 ^ i)) by done.
  unfold as_u8 at 1 2 3 4. rewrite <- Z.land_lor_distr_l. apply as_u8_range.
Qed.

Lemma channel_byte_ok (C : bool) (extra : nat → nat) (off : nat → nat → nat → nat) :
  C = true →
  (∀ mask gi gi' ms, 0 < ms → off mask gi ms = off mask gi' ms → gi = gi')%nat →
  OverflowOk {|
    CHANNELED := C; extra_alloc_bytes := extra;
    overflow_bytes_to_zero := extra; overflow_bytes_to_copy := extra;
    overflow_off := off;
    has_overflow := λ b _ channel, negb (Z.land b channel =? 0);
    set_overflow := λ b _ channel, Z.lor b channel |}.
Proof.
  intros -> Hoff. split; cbn; intros; try done.
  - apply negb_true_iff, Z.eqb_neq. rewrite Z.land_lor_distr_l, Z.land_diag.
    intros [_ H0]%Z.lor_eq_0_iff. by apply (single_bit_nonzero c).
  - apply negb_true_iff, Z.eqb_neq in H. apply negb_true_iff, Z.eqb_neq.
    by apply land_lor_nonzero.
  - exfalso. eauto.
  - rewrite Z.land_lor_distr_l, (land_single_bits c c'), Z.lor_0_r by done. done.
  - by apply lor_single_bit_range.
Qed.

#[export] Instance ByteSeparate_ok : OverflowOk ByteSeparate.
Proof. apply channel_byte_ok; [done|lia]. Qed.

#[export] Instance EmbeddedOverflow_ok : OverflowOk EmbeddedOverflow.
Proof. apply channel_byte_ok; [done|nia]. Qed.

Lemma group_bit_single gi : single_bit (shl_u8 1 (Z.of_nat (Nat.land gi 7))).
Proof.
  exists (Z.of_nat (Nat.land gi 7)). change 7%nat with (Nat.ones 3).
  rewrite Nat.land_ones. pose proof (Nat.mod_upper_bound gi (2 ^ 3)) as Hb.
  change (2 ^ 3)%nat with 8%nat in *. set (x := (gi mod 8)%nat) in *.
  split; [lia|]. assert (x < 8)%nat as Hx by lia. clearbody x. clear Hb.
  do 8 (destruct x as [|x]; [reflexivity|]). lia.
Qed.

Lemma group_bit_inj gi gi' :
  Nat.shiftr gi 3 = Nat.shiftr gi' 3 →
  shl_u8 1 (Z.of_nat (Nat.land gi 7)) = shl_u8 1 (Z.of_nat (Nat.land gi' 7)) → gi = gi'.
Proof.
  change 7%nat with (Nat.ones 3). rewrite !Nat.land_ones, !Nat.shiftr_div_pow2.
  intros Hdiv Hbit. change (2 ^ 3)%nat with 8%nat in *.
  assert (gi mod 8 = gi' mod 8)%nat as Hmod.
  { assert (∀ x, (x < 8)%nat → shl_u8 1 (Z.of_nat x) = 2 ^ Z.of_nat x) as Hpow.
    { intros x Hx. do 8 (destruct x as [|x]; [reflexivity|]). lia. }
    rewrite !Hpow in Hbit by (apply Nat.mod_upper_bound; lia).
    apply Z.pow_inj_r in Hbit; lia. }
  pose proof (Nat.div_mod_eq gi 8). pose proof (Nat.div_mod_eq gi' 8). lia.
Qed.

#[export] Instance BitSeparate_ok : OverflowOk BitSeparate.
Proof.
  split; cbn -[shl_u8 Nat.land Nat.shiftr]; intros; try done.
  - apply negb_true_iff, Z.eqb_neq. rewrite Z.land_lor_distr_l, Z.land_diag.
    intros [_ H0]%Z.lor_eq_0_iff. by apply (single_bit_nonzero _ (group_bit_single gi)).
  - apply negb_true_iff, Z.eqb_neq in H. apply negb_true_iff, Z.eqb_neq.
    by apply land_lor_nonzero.
  - rewrite Z.land_lor_distr_l, (land_single_bits (shl_u8 1 (Z.of_nat (Nat.land gi 7)))),
      Z.lor_0_r; [done|apply group_bit_single..|].
    intros Heq. apply H0. apply group_bit_inj; [lia|done].
  - apply lor_single_bit_range; [apply group_bit_single|done].
Qed.

(** ** The layouts satisfy the laws *)

(** Bounds of the overflow byte for the three strategies. *)
Lemma byte_separate_bounds ms mask gi :
  (gi <= mask → overflow_off ByteSeparate mask gi ms < S mask * ms + extra_alloc_bytes ByteSeparate (S mask))%nat.
Proof. cbn. lia. Qed.

Lemma bit_separate_bounds ms mask gi :
  (gi <= mask → overflow_off BitSeparate mask gi ms < S mask * ms + extra_alloc_bytes BitSeparate (S mask))%nat.
Proof.
  cbn [overflow_off extra_alloc_bytes BitSeparate]. intros H.
  rewrite Nat.shiftr_div_pow2. change (2 ^ 3)%nat with 8%nat.
  replace (mask + 1)%nat with (S mask) by lia.
  assert (gi / 8 < (S mask + 7) / 8)%nat; [|lia].
  pose proof (Nat.div_mod_eq gi 8). pose proof (Nat.div_mod_eq (S mask + 7) 8).
  pose proof (Nat.mod_upper_bound (S mask + 7) 8). lia.
Qed.

Lemma slot_offset_bound ms g s mask :
  (g <= mask → s < ms → g * ms + s < S mask * ms)%nat.
Proof. nia. Qed.

Class SeparateStrategy (O : OverflowStrategy) := separate_strategy : O = ByteSeparate ∨ O = BitSeparate.
#[export] Instance ByteSeparate_separate : SeparateStrategy ByteSeparate.
Proof. by left. Qed.
#[export] Instance BitSeparate_separate : SeparateStrategy BitSeparate.
Proof. by right. Qed.

Lemma separate_ok grp gs T O region t :
  (O = ByteSeparate ∨ O = BitSeparate) → TagOk T → GroupOk grp gs →
  (2 <= gs)%nat →
  t = {| Grp := grp; Tag := T; Overflow := O;
         GROUP_SIZE := gs; BUCKET_STRIDE := gs; META_STRIDE := gs;
         SEPARATE_OVERFLOW := true; GROUP_INDEX_REGION := region;
         LOAD_FACTOR_NUM := 7; LOAD_FACTOR_DEN := 8 |} →
  LayoutOk t.
Proof.
  intros HO HT HG Hgs ->. split; cbn [Grp Tag Overflow GROUP_SIZE BUCKET_STRIDE META_STRIDE
    LOAD_FACTOR_NUM LOAD_FACTOR_DEN]; [done|done|destruct HO as [-> | ->]; apply _|lia..| |].
  - unfold ctrl_size. cbn [Overflow META_STRIDE].
    destruct HO as [-> | ->]; [apply byte_separate_bounds|apply bit_separate_bounds].
  - intros mask gi g s Hgi Hg Hs. pose proof (slot_offset_bound gs g s mask Hg Hs).
    destruct HO as [-> | ->]; cbn [overflow_off ByteSeparate BitSeparate]; lia.
Qed.

Lemma embedded_ok grp gs bs region T :
  TagOk T → GroupOk grp gs → (2 <= gs)%nat → (gs <= bs)%nat →
  LayoutOk (embedded_layout grp gs bs (S gs) region T).
Proof.
  intros HT HG Hgs Hbs.
  split; cbn [embedded_layout Grp Tag Overflow GROUP_SIZE BUCKET_STRIDE META_STRIDE
    LOAD_FACTOR_NUM LOAD_FACTOR_DEN]; [done|done|apply _|lia..| |].
  - unfold ctrl_size. cbn. nia.
  - intros mask gi g s Hgi Hg Hs. cbn [overflow_off EmbeddedOverflow].
    destruct (Nat.lt_trichotomy gi g) as [?|[->|?]]; nia.
Qed.

Lemma Layout16_ok t T O : TagOk T → O = ByteSeparate ∨ O = BitSeparate → LayoutOk (Layout16 t T O).
Proof.
  intros. eapply separate_ok; [done|done|apply Group_ok; auto| |reflexivity]. lia.
Qed.
Lemma Layout16And_ok t T O : TagOk T → O = ByteSeparate ∨ O = BitSeparate → LayoutOk (Layout16And t T O).
Proof.
  intros. eapply separate_ok; [done|done|apply Group_ok; auto| |reflexivity]. lia.
Qed.
Lemma Layout32_ok t T O : TagOk T → O = ByteSeparate ∨ O = BitSeparate → LayoutOk (Layout32 t T O).
Proof.
  intros. eapply separate_ok; [done|done|apply Group32_ok; auto| |reflexivity]; lia.
Qed.
Lemma Layout32And_ok t T O : TagOk T → O = ByteSeparate ∨ O = BitSeparate → LayoutOk (Layout32And t T O).
Proof.
  intros. eapply separate_ok; [done|done|apply Group32_ok; auto| |reflexivity]; lia.
Qed.
Lemma Layout64_ok t T O : TagOk T → O = ByteSeparate ∨ O = BitSeparate → LayoutOk (Layout64 t T O).
Proof.
  intros. eapply separate_ok; [done|done|apply Group64_ok; auto| |reflexivity]; lia.
Qed.
Lemma Layout64And_ok t T O : TagOk T → O = ByteSeparate ∨ O = BitSeparate → LayoutOk (Layout64And t T O).
Proof.
  intros. eapply separate_ok; [done|done|apply Group64_ok; auto| |reflexivity]; lia.
Qed.

Ltac group_ok :=
  first [apply Group_ok | apply Group32_ok | apply Group64_ok]; first [reflexivity | lia].
Ltac embedded_ok := intros; apply embedded_ok; [done|group_ok|lia|lia].

Lemma Layout16EmbCompact_ok t T : TagOk T → LayoutOk (Layout16EmbCompact t T).
Proof. embedded_ok. Qed.
Lemma Layout16EmbP2_ok t T : TagOk T → LayoutOk (Layout16EmbP2 t T).
Proof. embedded_ok. Qed.
Lemma Layout16EmbCompactAnd_ok t T : TagOk T → LayoutOk (Layout16EmbCompactAnd t T).
Proof. embedded_ok. Qed.
Lemma Layout16EmbP2And_ok t T : TagOk T → LayoutOk (Layout16EmbP2And t T).
Proof. embedded_ok. Qed.
Lemma Layout32EmbCompact_ok t T : TagOk T → LayoutOk (Layout32EmbCompact t T).
Proof. embedded_ok. Qed.
Lemma Layout32EmbP2_ok t T : TagOk T → LayoutOk (Layout32EmbP2 t T).
Proof. embedded_ok. Qed.
Lemma Layout32EmbCompactAnd_ok t T : TagOk T → LayoutOk (Layout32EmbCompactAnd t T).
Proof. embedded_ok. Qed.
Lemma Layout32EmbP2And_ok t T : TagOk T → LayoutOk (Layout32EmbP2And t T).
Proof. embedded_ok. Qed.
Lemma Layout64EmbCompact_ok t T : TagOk T → LayoutOk (Layout64EmbCompact t T).
Proof. embedded_ok. Qed.
Lemma Layout64EmbP2_ok t T : TagOk T → LayoutOk (Layout64EmbP2 t T).
Proof. embedded_ok. Qed.
Lemma Layout64EmbCompactAnd_ok t T : TagOk T → LayoutOk (Layout64EmbCompactAnd t T).
Proof. embedded_ok. Qed.
Lemma Layout64EmbP2And_ok t T : TagOk T → LayoutOk (Layout64EmbP2And t T).
Proof. embedded_ok. Qed.

#[export] Hint Resolve Layout16_ok Layout16And_ok Layout32_ok Layout32And_ok
  Layout64_ok Layout64And_ok Layout16EmbCompact_ok Layout16EmbP2_ok
  Layout16EmbCompactAnd_ok Layout16EmbP2And_ok Layout32EmbCompact_ok
  Layout32EmbP2_ok Layout32EmbCompactAnd_ok Layout32EmbP2And_ok
  Layout64EmbCompact_ok Layout64EmbP2_ok Layout64EmbCompactAnd_ok
  Layout64EmbP2And_ok : table.

(** One group of every layout but the separate 64-slot ones fits the sentinel. *)
#[export] Instance Layout16_sentinel t T O : SeparateStrategy O → SentinelOk (Layout16 t T O).
Proof. intros [-> | ->]; split; vm_compute; lia. Qed.
#[export] Instance Layout16And_sentinel t T O : SeparateStrategy O → SentinelOk (Layout16And t T O).
Proof. intros [-> | ->]; split; vm_compute; lia. Qed.
#[export] Instance Layout32_sentinel t T O : SeparateStrategy O → SentinelOk (Layout32 t T O).
Proof. intros [-> | ->]; split; vm_compute; lia. Qed.
#[export] Instance Layout32And_sentinel t T O : SeparateStrategy O → SentinelOk (Layout32And t T O).
Proof. intros [-> | ->]; split; vm_compute; lia. Qed.

Lemma embedded_sentinel grp gs bs ms region T :
  (ms <= SENTINEL_BYTES)%nat → SentinelOk (embedded_layout grp gs bs ms region T).
Proof. intros Hms. split. unfold ctrl_size. cbn [META_STRIDE Overflow embedded_layout extra_alloc_bytes EmbeddedOverflow]. lia. Qed.
#[export] Hint Resolve embedded_sentinel : table.
