(* ===== verification/Memory.v ===== *)
(** * Memory of a hash table

    One allocation holds the buckets (backward from [ctrl]) and the control
    bytes (forward from [ctrl]).  A bucket that was never written is [None];
    a bucket whose pair was moved out keeps its old bits, as in the source. *)

From Stdlib Require Import ZArith Lia.
From S2P Require Import Prelude Group.

(*@ raw/overflow_table.rs : fn combined_layout *)
Record Block {K V : Type} := {
  bytes : list Z;
  slots : list (option (K * V));
}.
Arguments Block : clear implicits.

(** [ctrl] points into an allocation or to the static sentinel. *)
Inductive Ctrl {K V : Type} :=
  | EMPTY_SENTINEL
  | Alloc (b : Block K V).
Arguments Ctrl : clear implicits.

Definition ctrl_slots {K V} (c : Ctrl K V) : list (option (K * V)) :=
  match c with EMPTY_SENTINEL => [] | Alloc b => slots b end.

(** Writes through [ctrl].  The sentinel is read-only memory: the table is
    shown never to write to it. *)
Definition write_bytes_with {K V} (c : Ctrl K V) (f : list Z → list Z) : Ctrl K V :=
  match c with
  | EMPTY_SENTINEL => EMPTY_SENTINEL
  | Alloc b => Alloc {| bytes := f (bytes b); slots := slots b |}
  end.

Definition write_slots_with {K V} (c : Ctrl K V)
    (f : list (option (K * V)) → list (option (K * V))) : Ctrl K V :=
  match c with
  | EMPTY_SENTINEL => EMPTY_SENTINEL
  | Alloc b => Alloc {| bytes := bytes b; slots := f (slots b) |}
  end.

(** [ptr::write_bytes(ctrl, 0, n)] *)
Definition zero_bytes (n : nat) (l : list Z) : list Z := replicate n 0%Z ++ drop n l.

(** Contents of fresh memory: not a byte. *)
Definition uninit : Z := (-1)%Z.

(** ** Byte arrays *)

Lemma byte_at_set l i j b :
  i < length l → byte_at (set_byte l i b) j = if decide (i = j) then b else byte_at l j.
Proof.
  intros Hi. unfold byte_at, set_byte. case_decide as Hij.
  - subst. by rewrite list_lookup_insert_eq.
  - by rewrite list_lookup_insert_ne.
Qed.

Lemma length_set_byte l i b : length (set_byte l i b) = length l.
Proof. apply length_insert. Qed.

Lemma byte_at_zeroed n l i : i < n → byte_at (zero_bytes n l) i = 0%Z.
Proof.
  intros Hi. unfold byte_at, zero_bytes.
  rewrite lookup_app_l by (by rewrite length_replicate). by rewrite lookup_replicate_2.
Qed.

Lemma length_zero_bytes n l : n <= length l → length (zero_bytes n l) = length l.
Proof. intros. unfold zero_bytes. rewrite length_app, length_replicate, length_drop. lia. Qed.

(** ** Geometry *)

(** Largest number of groups: [combined_layout] panics when the control bytes
    alone exceed [isize::MAX], and a group has at least 16 of them. *)
Definition MAX_LOG_GROUPS : nat := 59.

(** The shift that [allocate] derives from the number of groups. *)
Definition shift_of (num_groups : nat) : Z :=
  wrapping_sub32 64 (Z.of_nat (trailing_zeros 64 (Z.of_nat num_groups))).

(** [n] is a number of groups the allocator accepts. *)
Definition group_count (n : nat) : Prop := n = 2 ^ Nat.log2 n ∧ Nat.log2 n <= MAX_LOG_GROUPS.

Lemma group_count_1 : group_count 1.
Proof. split; [done|]. apply Nat.le_0_l. Qed.

Lemma group_count_pos n : group_count n → 0 < n.
Proof. intros [-> _]. apply pow2_pos. Qed.

Lemma group_count_double n :
  group_count n → Nat.log2 n < MAX_LOG_GROUPS → group_count (n * 2).
Proof.
  intros [Hp Hl] Hlt. pose proof (pow2_pos (Nat.log2 n)).
  assert (Nat.log2 (n * 2) = S (Nat.log2 n)) as Hlog.
  { rewrite Nat.mul_comm. apply Nat.log2_double. lia. }
  split; rewrite Hlog; [|lia]. rewrite Nat.pow_succ_r', <- Hp. lia.
Qed.

(** ** Capacity arithmetic *)

Lemma ceil_div_spec (a b : Z) :
  (0 <= a → 0 < b → a <= (a + b - 1) / b * b ∧ (a + b - 1) / b * b < a + b)%Z.
Proof.
  intros Ha Hb. pose proof (Z.div_mod (a + b - 1) b ltac:(lia)).
  pose proof (Z.mod_pos_bound (a + b - 1) b Hb). lia.
Qed.

Lemma next_power_of_two_spec (m : Z) :
  (0 <= m < 2 ^ 62)%Z →
  ∃ k, next_power_of_two m = Z.of_nat (2 ^ k) ∧ (m <= Z.of_nat (2 ^ k))%Z ∧
    (k ≠ 0 → (Z.of_nat (2 ^ (k - 1)) < m)%Z).
Proof.
  intros Hm. unfold next_power_of_two.
  destruct (Z.leb_spec m 1) as [Hsmall|Hbig].
  { exists 0. rewrite Z.log2_up_eqn0 by lia. split_and!; [done|simpl; lia|done]. }
  pose proof (Z.log2_up_pos m ltac:(lia)) as Hpos.
  destruct (Z.log2_up_spec m ltac:(lia)) as [Hlo Hhi].
  assert (Z.log2_up m <= 62)%Z as Hle by (apply Z.log2_up_le_pow2; lia).
  exists (Z.to_nat (Z.log2_up m)).
  rewrite !Z_pow2_of_nat, Nat2Z.inj_sub, Z2Nat.id by lia. split_and!.
  - unfold wrap64. apply Z.mod_small. split; [lia|].
    apply Z.le_lt_trans with (2 ^ 62)%Z; [|lia]. apply Z.pow_le_mono_r; lia.
  - done.
  - intros _. by rewrite Z.sub_1_r.
Qed.

(** The load of [n] groups of [gs] slots. *)
Definition load_of (num den gs n : nat) : nat := n * gs * num / den.

Lemma load_of_pos num den gs n : 0 < den → den <= gs * num → 0 < n → 0 < load_of num den gs n.
Proof. intros. unfold load_of. apply Nat.div_str_pos. split; [lia|].
  rewrite <- Nat.mul_assoc. transitivity (1 * (gs * num)); [lia|]. by apply Nat.mul_le_mono_r. Qed.

Lemma load_of_mono num den gs n m : n <= m → load_of num den gs n <= load_of num den gs m.
Proof.
  intros Hn. unfold load_of. apply Nat.Div0.div_le_mono. by apply Nat.mul_le_mono_r, Nat.mul_le_mono_r.
Qed.

Lemma load_of_double num den gs n :
  0 < den → den <= gs * num → 0 < n → load_of num den gs n < load_of num den gs (n * 2).
Proof.
  intros Hden Hmin Hn. pose proof (load_of_pos num den gs n Hden Hmin Hn) as Hpos.
  unfold load_of in *.
  replace (n * 2 * gs * num) with (2 * (n * gs * num)) by lia.
  generalize dependent (n * gs * num). intros a Ha.
  assert (2 * (a / den) <= 2 * a / den); [|lia].
  apply Nat.div_le_lower_bound; [lia|]. pose proof (Nat.Div0.mul_div_le a den). lia.
Qed.

Lemma load_of_lt num den gs n : num < den → 0 < gs → 0 < n → load_of num den gs n < n * gs.
Proof. intros. unfold load_of. apply Nat.Div0.div_lt_upper_bound.
  rewrite (Nat.mul_comm den). apply Nat.mul_lt_mono_pos_l; nia. Qed.

(** [groups_for_capacity] of every table: the least power of two of groups
    whose load admits the capacity, when the arithmetic does not wrap. *)
Lemma groups_arith (NUM DEN GS : nat) (c : Z) :
  0 < NUM → 0 < DEN → 0 < GS → (0 <= c)%Z →
  (c * Z.of_nat DEN + Z.of_nat NUM + Z.of_nat GS < 2 ^ 62)%Z →
  let n := Z.to_nat (next_power_of_two
    (wrap64 (wrap64 (c * Z.of_nat DEN + Z.of_nat NUM - 1) / Z.of_nat NUM + Z.of_nat GS - 1)
     / Z.of_nat GS)) in
  n = 2 ^ Nat.log2 n ∧ (c <= Z.of_nat (load_of NUM DEN GS n))%Z ∧
  (n ≠ 1 → (Z.of_nat (load_of NUM DEN GS (n / 2)) < c)%Z).
Proof.
  intros Hnum Hden Hgs Hc Hb.
  set (num := Z.of_nat NUM) in *.
  set (den := Z.of_nat DEN) in *. set (gs := Z.of_nat GS) in *.
  assert (0 <= c * den)%Z as Hcd by nia.
  unfold wrap64. rewrite (Z.mod_small (c * den + num - 1)) by lia.
  destruct (ceil_div_spec (c * den) num) as [Hs1 Hs2]; [lia..|].
  set (slots := ((c * den + num - 1) / num)%Z) in *.
  assert (0 <= slots)%Z as Hs0 by (apply Z.div_pos; lia).
  assert (slots <= c * den + num)%Z as Hs3 by nia.
  rewrite (Z.mod_small (slots + gs - 1)) by lia.
  destruct (ceil_div_spec slots gs) as [Hg1 Hg2]; [lia..|].
  set (groups := ((slots + gs - 1) / gs)%Z) in *.
  assert (0 <= groups)%Z as Hg0 by (apply Z.div_pos; lia).
  assert (groups <= slots + gs)%Z as Hg3 by nia.
  destruct (next_power_of_two_spec groups) as (k & -> & Hlo & Hhi); [lia|].
  rewrite Nat2Z.id. cbv zeta. split_and!.
  - by rewrite Nat.log2_pow2 by lia.
  - unfold load_of. rewrite Nat2Z.inj_div.
    apply Z.div_le_lower_bound; [lia|]. rewrite !Nat2Z.inj_mul. fold num den gs.
    assert (slots <= Z.of_nat (2 ^ k) * gs)%Z.
    { etransitivity; [exact Hg1|]. apply Z.mul_le_mono_nonneg_r; lia. }
    assert (slots * num <= Z.of_nat (2 ^ k) * gs * num)%Z; [|lia].
    apply Z.mul_le_mono_nonneg_r; lia.
  - intros Hk. destruct k as [|k]; [done|]. specialize (Hhi ltac:(done)).
    replace (S k - 1) with k in Hhi by lia.
    rewrite Nat.pow_succ_r', Nat.mul_comm, Nat.div_mul by done.
    unfold load_of. rewrite Nat2Z.inj_div.
    apply Z.div_lt_upper_bound; [lia|]. rewrite !Nat2Z.inj_mul. fold num den gs.
    set (h := Z.of_nat (2 ^ k)) in *.
    assert (h * gs + gs <= groups * gs)%Z.
    { transitivity ((h + 1) * gs)%Z; [lia|]. apply Z.mul_le_mono_nonneg_r; lia. }
    assert ((h * gs) * num <= (slots - 1) * num)%Z; [|lia].
    apply Z.mul_le_mono_nonneg_r; lia.
Qed.
