(* ===== verification/TableApi.v ===== *)
(** * The interface of the raw tables

    [raw/table_api.rs]: the operations every raw table offers to the maps
    built on it, and the contract the maps rely on: the table represents a
    finite map, and each operation is that of the map.  [None] stands for a
    probe loop that does not return within the step budget. *)

From Stdlib Require Import ZArith Lia.
From S2P Require Import Prelude.

(*@ raw/table_api.rs : pub enum EntryProbe *)
Inductive EntryProbe :=
  | EntryFound (gi si : nat)
  | EntryVacant (at_slot : option (nat * nat * Z)).

(** [expect("capacity overflow")] *)
Inductive Panic := CapacityOverflow.

(** A slot: group and position in it. *)
Abbreviation slot := (nat * nat)%type.

(** The hasher is part of the operations that re-hash keys; [api_kv] and
    [api_set_kv] read and write through [key_ptr] and [value_ptr];
    [api_into_iter] and [api_drain] give all that the iterators of
    [into_iter_impl] and [drain_impl] yield. *)
(*@ raw/table_api.rs : pub trait RawTableApi *)
Record RawTableApi (R K V : Type) := {
  api_new : R;
  api_with_capacity : Z → R;
  api_len : R → nat;
  api_capacity : R → nat;
  api_is_allocated : R → bool;
  api_clear : R → R;
  api_kv : R → slot → option (K * V);
  api_set_kv : R → slot → K * V → R;
  api_find_by_hash : R → Z → (K → bool) → option (option slot);
  api_insert_or_replace : R → K → V → option (R * option V);
  api_find_for_entry : R → Z → K → option EntryProbe;
  api_insert_at : R → Z → slot → K → V → Z → R;
  api_insert_no_check : R → Z → K → V → option (R * slot);
  api_ensure_capacity : R → option R;
  api_remove_by_hash : R → Z → (K → bool) → option (R * option (K * V));
  api_erase_slot : R → Z → slot → R;
  api_reserve : R → Z → option (R + Panic);
  api_shrink_to_fit : R → option R;
  api_occupied_positions : R → list slot;
  api_into_iter : R → list (K * V);
  api_drain : R → list (K * V) * R;
  api_clone_table : R → R;
}.

Arguments api_new {R K V}.
Arguments api_with_capacity {R K V}.
Arguments api_len {R K V}.
Arguments api_capacity {R K V}.
Arguments api_is_allocated {R K V}.
Arguments api_clear {R K V}.
Arguments api_kv {R K V}.
Arguments api_set_kv {R K V}.
Arguments api_find_by_hash {R K V}.
Arguments api_insert_or_replace {R K V}.
Arguments api_find_for_entry {R K V}.
Arguments api_insert_at {R K V}.
Arguments api_insert_no_check {R K V}.
Arguments api_ensure_capacity {R K V}.
Arguments api_remove_by_hash {R K V}.
Arguments api_erase_slot {R K V}.
Arguments api_reserve {R K V}.
Arguments api_shrink_to_fit {R K V}.
Arguments api_occupied_positions {R K V}.
Arguments api_into_iter {R K V}.
Arguments api_drain {R K V}.
Arguments api_clone_table {R K V}.

(** [|k| k == key] *)
Definition eq_key {K} `{EqDecision K} (key : K) : K → bool := λ k, bool_decide (k = key).

(** The contract.  [rep t m]: the table [t] represents [m]; [holds t p k v]:
    slot [p] of [t] holds [(k, v)].  [bounded t] says that a probe returns: the
    budget covers it and, where the design can lose the exits of its probe
    sequences, the state of [t] still has them.  [growable t] says besides that
    the budget covers growing the table once and that the allocator can serve
    it; [reservable t n] the same for [reserve(n)],
    [shrinkable t] for [shrink_to_fit], and [capable c] says that a table for
    [c] entries can be allocated. *)
Record TableRep (R K V : Type) `{Countable K} := {
  capable : Z → Prop;
  rep : R → gmap K V → Prop;
  holds : R → slot → K → V → Prop;
  bounded : R → Prop;
  growable : R → Prop;
  reservable : R → Z → Prop;
  shrinkable : R → Prop;
}.
Arguments capable {R K V _ _}.
Arguments rep {R K V _ _}.
Arguments holds {R K V _ _}.
Arguments bounded {R K V _ _}.
Arguments growable {R K V _ _}.
Arguments reservable {R K V _ _}.
Arguments shrinkable {R K V _ _}.

Class TableLaws {R K V : Type} `{Countable K} (A : RawTableApi R K V) (M : TableRep R K V)
    (hash_key : K → Z) := {
  law_growable t : growable M t → bounded M t;
  law_new : rep M (api_new A) ∅;
  law_with_capacity c : capable M c → rep M (api_with_capacity A c) ∅;
  law_len t m : rep M t m → api_len A t = size m;
  law_holds t m p k v : rep M t m → holds M t p k v → api_kv A t p = Some (k, v) ∧ m !! k = Some v;
  law_holds_inj t m p q k v v' : rep M t m → holds M t p k v → holds M t q k v' → p = q;
  law_clear t m : rep M t m → rep M (api_clear A t) ∅;
  law_set t m p k v v' : rep M t m → holds M t p k v →
    let t' := api_set_kv A t p (k, v') in
    rep M t' (<[k := v']> m) ∧ holds M t' p k v' ∧
    (∀ q k1 v1, q ≠ p → holds M t q k1 v1 → holds M t' q k1 v1) ∧
    (bounded M t → bounded M t') ∧ (growable M t → growable M t');
  law_find t m k : rep M t m → bounded M t →
    ∃ r, api_find_by_hash A t (hash_key k) (eq_key k) = Some r ∧
      match r with Some p => ∃ v, holds M t p k v | None => m !! k = None end;
  law_insert t m k v : rep M t m → growable M t →
    ∃ t', api_insert_or_replace A t k v = Some (t', m !! k) ∧ rep M t' (<[k := v]> m);
  law_entry t m k : rep M t m → bounded M t →
    ∃ r, api_find_for_entry A t (hash_key k) k = Some r ∧
      match r with
      | EntryFound gi si => ∃ v, holds M t (gi, si) k v
      | EntryVacant None => m !! k = None
      | EntryVacant (Some (gi, si, b)) =>
          m !! k = None ∧ ∀ v, let t' := api_insert_at A t (hash_key k) (gi, si) k v b in
            rep M t' (<[k := v]> m) ∧ holds M t' (gi, si) k v
      end;
  law_insert_grown t m k v : rep M t m → growable M t → m !! k = None →
    ∃ t1 t' p, api_ensure_capacity A t = Some t1 ∧
      api_insert_no_check A t1 (hash_key k) k v = Some (t', p) ∧
      rep M t' (<[k := v]> m) ∧ holds M t' p k v;
  law_remove t m k : rep M t m → bounded M t →
    ∃ t', api_remove_by_hash A t (hash_key k) (eq_key k) = Some (t', pair k <$> m !! k) ∧
      rep M t' (delete k m);
  law_erase t m p k v : rep M t m → holds M t p k v →
    let t' := api_erase_slot A t (hash_key k) p in
    rep M t' (delete k m) ∧ (∀ q k1 v1, q ≠ p → holds M t q k1 v1 → holds M t' q k1 v1);
  law_positions t m : rep M t m →
    NoDup (api_occupied_positions A t) ∧
    (∀ p, p ∈ api_occupied_positions A t ↔ ∃ k v, holds M t p k v) ∧
    list_to_map (omap (api_kv A t) (api_occupied_positions A t)) = m ∧
    (api_is_allocated A t = false → api_occupied_positions A t = []);
  law_into_iter t m : rep M t m →
    api_into_iter A t = omap (api_kv A t) (api_occupied_positions A t) ∧
    (api_drain A t).1 = api_into_iter A t ∧ rep M (api_drain A t).2 ∅;
  law_reserve t m n : rep M t m → reservable M t n →
    ∃ t', api_reserve A t n = Some (inl t') ∧ rep M t' m;
  law_reserve_first t m : rep M t m → growable M t → api_is_allocated A t = false →
    ∃ t', api_reserve A t 1 = Some (inl t') ∧ rep M t' m ∧ growable M t';
  law_shrink t m : rep M t m → shrinkable M t →
    ∃ t', api_shrink_to_fit A t = Some t' ∧ rep M t' m;
  law_clone t m : rep M t m → rep M (api_clone_table A t) m;
}.

Lemma omap_id_some {A} (l : list A) : omap id (Some <$> l) = l.
Proof. induction l as [|x l IH]; [done|]. cbn. by f_equal. Qed.

(** What [retain] makes of the pairs of a map: its closure's state, and the map. *)
Fixpoint retained {St K V} `{Countable K} (f : St → K → V → St * V * bool) (kvs : list (K * V)) (s : St)
    (m : gmap K V) : St * gmap K V :=
  match kvs with
  | [] => (s, m)
  | (k, v) :: kvs' =>
      let '(s, v', keep) := f s k v in
      retained f kvs' s (if keep : bool then <[k := v']> m else delete k m)
  end.
