(* ===== verification/OverflowTable.v ===== *)
(** * The overflow-bit raw table: definitions

    [raw/overflow_table.rs]: [RawTable<K, V, L, S>], the engine of UFM,
    Splitsies, Gaps and their wider and one-bit variants.  Every operation is
    a function of the table; an operation that contains an unbounded probe
    loop takes the step budget [fuel] of the section and returns [None] when
    the budget runs out.  The theorems are in the files that follow. *)

From Stdlib Require Import ZArith Lia.
From S2P Require Import Prelude Probe Bitmask HashTag Group Layout.
From S2P Require Export SlotWalk Memory TableApi.

(** ** The sentinel *)

(*@ raw/overflow_table.rs : 30-32 : EMPTY_SENTINEL *)
Definition sentinel_bytes : list Z := replicate SENTINEL_BYTES 0%Z.

Definition ctrl_bytes {K V} (c : Ctrl K V) : list Z :=
  match c with EMPTY_SENTINEL => sentinel_bytes | Alloc b => bytes b end.

(** ** The table *)

(** The [extra] pointer of the SoA storage only locates values; buckets are
    addressed here as pairs. *)
(*@ raw/overflow_table.rs : pub struct RawTable *)
Record RawTable {K V : Type} := {
  mask : nat;
  ctrl : Ctrl K V;
  len : nat;
  max_load : nat;
  shift : Z;
}.
Arguments RawTable : clear implicits.

Definition with_ctrl {K V} (t : RawTable K V) (c : Ctrl K V) : RawTable K V :=
  {| mask := mask t; ctrl := c; len := len t; max_load := max_load t; shift := shift t |}.
Definition with_len {K V} (t : RawTable K V) (n : nat) : RawTable K V :=
  {| mask := mask t; ctrl := ctrl t; len := n; max_load := max_load t; shift := shift t |}.
Definition with_max_load {K V} (t : RawTable K V) (n : nat) : RawTable K V :=
  {| mask := mask t; ctrl := ctrl t; len := len t; max_load := n; shift := shift t |}.

(*@ raw/overflow_table.rs : fn max_load_for_capacity *)
Definition max_load_for_capacity (capacity num den : nat) : nat := capacity * num / den.

(*@ raw/overflow_table.rs : enum FindOrLocateResult *)
Inductive FindOrLocateResult :=
  | Found (gi si : nat)
  | InsertSlot (gi si : nat) (full_mask : Z)
  | NotFound.

Section table.
Context (L : GroupLayout) {K V : Type} `{EqDecision K} (hash_key : K → Z).
Implicit Types t : RawTable K V.

(*@ raw/overflow_table.rs : pub(crate) fn group_index *)
Definition group_index t (h : Z) : nat :=
  match GROUP_INDEX_REGION L with
  | Low => Z.to_nat (Z.land h (Z.of_nat (mask t)))
  | High => Z.to_nat (Z.land (wrapping_shr64 h (shift t)) (Z.of_nat (mask t)))
  end.

(** Pointers are offsets from [ctrl]. *)
(*@ raw/overflow_table.rs : pub(crate) unsafe fn meta_ptr *)
Definition meta_ptr (gi : nat) : nat := gi * META_STRIDE L.

(*@ raw/overflow_table.rs : 95-110 : RawTable::has_overflow_bit *)
Definition has_overflow_bit t (gi : nat) (bit : Z) : bool :=
  has_overflow_at L (ctrl_bytes (ctrl t)) (mask t) gi bit.

(*@ raw/overflow_table.rs : unsafe fn set_overflow_bit *)
Definition set_overflow_bit t (gi : nat) (bit : Z) : RawTable K V :=
  with_ctrl t (write_bytes_with (ctrl t) (λ l, set_overflow_at L l (mask t) gi bit)).

(*@ raw/overflow_table.rs : fn bytes_to_copy_total *)
Definition bytes_to_copy_total (num_groups : nat) : nat :=
  num_groups * META_STRIDE L + overflow_bytes_to_copy (Overflow L) num_groups.

(** [S::write] and the pointer reads of keys and values. *)
(*@ raw/overflow_table.rs : 207-217 : RawTable::key_ptr_impl, RawTable::value_ptr_impl *)
Definition kv_at t (gi si : nat) : option (K * V) :=
  mjoin (ctrl_slots (ctrl t) !! bucket_index L gi si).

Definition key_is t (gi si : nat) (eq : K → bool) : bool :=
  match kv_at t gi si with Some (k, _) => eq k | None => false end.

Definition write_kv t (gi si : nat) (kv : K * V) : RawTable K V :=
  with_ctrl t (write_slots_with (ctrl t) (λ l, <[bucket_index L gi si := Some kv]> l)).

Definition write_meta t (gi si : nat) (b : Z) : RawTable K V :=
  with_ctrl t (write_bytes_with (ctrl t) (λ l, set_meta l (meta_ptr gi) si b)).

(** [set_meta(meta, si, reduced); S::write(.., key, value); len += 1] *)
Definition put t (h : Z) (gi si : nat) (key : K) (value : V) : RawTable K V :=
  let t := write_meta t gi si (tag (Tag L) h) in
  let t := write_kv t gi si (key, value) in
  with_len t (len t + 1).

(** [mem::replace(value_ptr(gi, si), value)] *)
Definition replace_value t (gi si : nat) (value : V) : RawTable K V * option V :=
  match kv_at t gi si with
  | Some (k, v) => (write_kv t gi si (k, value), Some v)
  | None => (t, None)
  end.

(** ** Allocation *)

(*@ raw/overflow_table.rs : pub(crate) fn allocate *)
Definition allocate t (num_groups : nat) : RawTable K V :=
  let total_buckets := num_groups * GROUP_SIZE L in
  let fresh := replicate (ctrl_size L num_groups) uninit in
  let zeroed := zero_bytes
    (num_groups * META_STRIDE L + overflow_bytes_to_zero (Overflow L) num_groups) fresh in
  {| mask := num_groups - 1;
     ctrl := Alloc {| bytes := zeroed; slots := replicate (num_groups * BUCKET_STRIDE L) None |};
     len := len t;
     max_load := max_load_for_capacity total_buckets (LOAD_FACTOR_NUM L) (LOAD_FACTOR_DEN L);
     shift := wrapping_sub32 64 (Z.of_nat (trailing_zeros 64 (Z.of_nat num_groups))) |}.

(** The second component is the block handed to the allocator. *)
(*@ raw/overflow_table.rs : unsafe fn deallocate *)
Definition deallocate t : RawTable K V * option (Block K V) :=
  if max_load t =? 0 then (t, None)
  else (with_max_load (with_ctrl t EMPTY_SENTINEL) 0,
        match ctrl t with Alloc b => Some b | EMPTY_SENTINEL => None end).

(*@ raw/overflow_table.rs : fn new( *)
Definition new : RawTable K V :=
  {| mask := 0; ctrl := EMPTY_SENTINEL; len := 0; max_load := 0; shift := 64%Z |}.

(** [usize] arithmetic wraps in release builds. *)
(*@ raw/overflow_table.rs : fn groups_for_capacity *)
Definition groups_for_capacity (capacity : Z) : Z :=
  let num := Z.of_nat (LOAD_FACTOR_NUM L) in
  let den := Z.of_nat (LOAD_FACTOR_DEN L) in
  let gs := Z.of_nat (GROUP_SIZE L) in
  let min_slots := (wrap64 (capacity * den + num - 1) / num)%Z in
  let min_groups := (wrap64 (min_slots + gs - 1) / gs)%Z in
  next_power_of_two min_groups.

(*@ raw/overflow_table.rs : fn with_capacity *)
Definition with_capacity (capacity : Z) : RawTable K V :=
  if (capacity =? 0)%Z then new
  else allocate new (Z.to_nat (groups_for_capacity capacity)).

(*@ raw/overflow_table.rs : fn capacity( *)
Definition capacity t : nat := if 0 <? max_load t then (mask t + 1) * GROUP_SIZE L else 0.

(*@ raw/overflow_table.rs : fn is_allocated *)
Definition is_allocated t : bool := 0 <? max_load t.

(** ** Slots in iteration order *)

(** [for gi in 0..=mask { for si in match_non_empty(meta_ptr(gi)) { .. } }] *)
Definition occupied_slots t : list (nat * nat) :=
  gi ← seq 0 (mask t + 1);
  pair gi <$> bits (Mask (Grp L)) (match_non_empty (Grp L) (ctrl_bytes (ctrl t)) (meta_ptr gi)).

(** [S::read] of every occupied slot. *)
Definition occupied_kvs t : list (K * V) :=
  omap (λ '(gi, si), kv_at t gi si) (occupied_slots t).

(** ** Lookup *)

Context (fuel : nat).

(** [for si in matches { if eq(key_ptr(gi, si)) { return (gi, si) } }] *)
Definition scan_keys t (gi : nat) (matches : Z) (eq : K → bool) : option nat :=
  scan (Mask (Grp L)) matches (λ si, key_is t gi si eq).

(*@ raw/overflow_table.rs : fn find_by_hash_impl *)
Definition find_by_hash_impl t (h : Z) (eq : K → bool) : option (option (nat * nat)) :=
  let reduced := tag (Tag L) h in
  let ofw_bit := overflow_channel (Tag L) h in
  probe_loop fuel (mask t)
    (λ _ gi (_ : unit),
       match scan_keys t gi (match_byte (Grp L) (ctrl_bytes (ctrl t)) (meta_ptr gi) reduced) eq with
       | Some si => inl (Some (gi, si))
       | None => if negb (has_overflow_bit t gi ofw_bit) then inl None else inr ()
       end)
    0 (group_index t h) ().

(*@ raw/overflow_table.rs : fn find_by_hash_eq *)
Definition find_by_hash_eq t (h : Z) (key : K) : option (option (nat * nat)) :=
  find_by_hash_impl t h (λ k, bool_decide (k = key)).

(** ** Insertion *)

(*@ raw/overflow_table.rs : fn insert_no_check_impl *)
Definition insert_no_check_impl t (h : Z) (key : K) (value : V) :
    option (RawTable K V * (nat * nat)) :=
  probe_loop fuel (mask t)
    (λ _ gi t,
       match lowest_set_bit (Mask (Grp L))
               (match_empty (Grp L) (ctrl_bytes (ctrl t)) (meta_ptr gi)) with
       | Some si => inl (put t h gi si key value, (gi, si))
       | None => inr (set_overflow_bit t gi (overflow_channel (Tag L) h))
       end)
    0 (group_index t h) t.

(** The [while mask != 0] loop of [insert_at_impl]; a [u8] is exhausted after
    eight shifts. *)
(*@ raw/overflow_table.rs : 309-318 : RawTable::insert_at_impl *)
Fixpoint set_full_mask (n : nat) t (ofw_bit : Z) (m : Z) (set_probe set_gi : nat) : RawTable K V :=
  match n with
  | 0 => t
  | S n' =>
      if (m =? 0)%Z then t
      else
        let t := if negb (Z.land m 1 =? 0)%Z then set_overflow_bit t set_gi ofw_bit else t in
        let set_probe := set_probe + 1 in
        set_full_mask n' t ofw_bit (Z.shiftr m 1) set_probe (next_group (mask t) set_gi set_probe)
  end.

(*@ raw/overflow_table.rs : fn insert_at_impl *)
Definition insert_at_impl t (h : Z) (gi si : nat) (key : K) (value : V) (full_mask : Z) :
    RawTable K V :=
  let t :=
    if negb (full_mask =? 0)%Z
    then set_full_mask 8 t (overflow_channel (Tag L) h) full_mask 0 (group_index t h)
    else t in
  put t h gi si key value.

(** ** Find or locate *)

(*@ raw/overflow_table.rs : fn find_or_locate_overflow *)
Definition find_or_locate_overflow t (eq : K → bool) (reduced ofw_bit : Z) (home_gi : nat)
    (first_empty : option (nat * nat)) (full_mask : Z) : option FindOrLocateResult :=
  probe_loop fuel (mask t)
    (λ probe gi '(first_empty, full_mask),
       let '(matches, empties) :=
         match_byte_and_empty (Grp L) (ctrl_bytes (ctrl t)) (meta_ptr gi) reduced in
       match scan_keys t gi matches eq with
       | Some si => inl (Found gi si)
       | None =>
           let '(first_empty, full_mask) :=
             match first_empty with
             | Some _ => (first_empty, full_mask)
             | None =>
                 match lowest_set_bit (Mask (Grp L)) empties with
                 | Some si => (Some (gi, si), full_mask)
                 | None =>
                     (None, if probe <? 8 then Z.lor full_mask (shl_u8 1 (Z.of_nat probe)) else full_mask)
                 end
             end in
           if negb (has_overflow_bit t gi ofw_bit) then
             inl (match first_empty with
                  | Some (ins_gi, ins_si) => InsertSlot ins_gi ins_si full_mask
                  | None => NotFound
                  end)
           else inr (first_empty, full_mask)
       end)
    1 (next_group (mask t) home_gi 1) (first_empty, full_mask).

(*@ raw/overflow_table.rs : fn find_or_locate_impl *)
Definition find_or_locate_impl t (h : Z) (eq : K → bool) : option FindOrLocateResult :=
  let reduced := tag (Tag L) h in
  let ofw_bit := overflow_channel (Tag L) h in
  let gi := group_index t h in
  let '(matches, empties) :=
    match_byte_and_empty (Grp L) (ctrl_bytes (ctrl t)) (meta_ptr gi) reduced in
  match scan_keys t gi matches eq with
  | Some si => Some (Found gi si)
  | None =>
      match lowest_set_bit (Mask (Grp L)) empties with
      | Some si =>
          if negb (has_overflow_bit t gi ofw_bit) then Some (InsertSlot gi si 0%Z)
          else find_or_locate_overflow t eq reduced ofw_bit gi (Some (gi, si)) 0%Z
      | None =>
          if negb (has_overflow_bit t gi ofw_bit) then Some NotFound
          else find_or_locate_overflow t eq reduced ofw_bit gi None 1%Z
      end
  end.

(** ** Rehashing *)

(** Re-insert the pairs read from the old allocation. *)
Fixpoint reinsert (kvs : list (K * V)) t : option (RawTable K V) :=
  match kvs with
  | [] => Some t
  | (key, value) :: kvs' =>
      do ' (t, _) <- insert_no_check_impl t (hash_key key) key value;
      reinsert kvs' t
  end.

(*@ raw/overflow_table.rs : fn rehash_with_impl *)
Definition rehash_with_impl t (new_num_groups : nat) : option (RawTable K V) :=
  let was_allocated := 0 <? max_load t in
  let t0 := {| mask := 0; ctrl := EMPTY_SENTINEL; len := 0; max_load := 0; shift := shift t |} in
  let t1 := allocate t0 new_num_groups in
  if negb was_allocated then Some t1
  else reinsert (occupied_kvs t) t1.

(*@ raw/overflow_table.rs : fn grow_and_rehash *)
Definition grow_and_rehash t : option (RawTable K V) :=
  let new_groups := if max_load t =? 0 then 1 else (mask t + 1) * 2 in
  rehash_with_impl t new_groups.

(** ** The table interface *)

(*@ raw/overflow_table.rs : fn insert_overflow< *)
Definition insert_overflow t (h : Z) (key : K) (value : V) : option (RawTable K V * option V) :=
  do r <- find_by_hash_eq t h key;
  match r with
  | Some (gi, si) => Some (replace_value t gi si value)
  | None =>
      do t <- (if max_load t <=? len t then grow_and_rehash t else Some t);
      do ' (t, _) <- insert_no_check_impl t h key value;
      Some (t, None)
  end.

(*@ raw/overflow_table.rs : fn insert_at_capacity< *)
Definition insert_at_capacity t (h : Z) (key : K) (value : V) : option (RawTable K V * option V) :=
  do r <- find_by_hash_eq t h key;
  match r with
  | Some (gi, si) => Some (replace_value t gi si value)
  | None =>
      do t <- grow_and_rehash t;
      do ' (t, _) <- insert_no_check_impl t h key value;
      Some (t, None)
  end.

(*@ raw/overflow_table.rs : fn insert_or_replace< *)
Definition insert_or_replace t (key : K) (value : V) : option (RawTable K V * option V) :=
  let t := if max_load t =? 0 then allocate t 1 else t in
  let h := hash_key key in
  if max_load t <=? len t then insert_at_capacity t h key value
  else
    let reduced := tag (Tag L) h in
    let gi := group_index t h in
    let '(matches, empties) :=
      match_byte_and_empty (Grp L) (ctrl_bytes (ctrl t)) (meta_ptr gi) reduced in
    match scan_keys t gi matches (λ k, bool_decide (k = key)) with
    | Some si => Some (replace_value t gi si value)
    | None =>
        match lowest_set_bit (Mask (Grp L)) empties with
        | Some si =>
            if negb (has_overflow_bit t gi (overflow_channel (Tag L) h))
            then Some (put t h gi si key value, None)
            else insert_overflow t h key value
        | None => insert_overflow t h key value
        end
    end.

(*@ raw/overflow_table.rs : fn find_for_entry *)
Definition find_for_entry t (h : Z) (key : K) : option EntryProbe :=
  if max_load t <=? len t then
    do r <- find_by_hash_eq t h key;
    match r with
    | Some (gi, si) => Some (EntryFound gi si)
    | None => Some (EntryVacant None)
    end
  else
    let reduced := tag (Tag L) h in
    let gi := group_index t h in
    let '(matches, empties) :=
      match_byte_and_empty (Grp L) (ctrl_bytes (ctrl t)) (meta_ptr gi) reduced in
    let locate :=
      do r <- find_or_locate_impl t h (λ k, bool_decide (k = key));
      Some (match r with
            | Found gi si => EntryFound gi si
            | InsertSlot gi si m => EntryVacant (Some (gi, si, m))
            | NotFound => EntryVacant None
            end) in
    match scan_keys t gi matches (λ k, bool_decide (k = key)) with
    | Some si => Some (EntryFound gi si)
    | None =>
        match lowest_set_bit (Mask (Grp L)) empties with
        | Some si =>
            if negb (has_overflow_bit t gi (overflow_channel (Tag L) h))
            then Some (EntryVacant (Some (gi, si, 0%Z)))
            else locate
        | None => locate
        end
    end.

(*@ raw/overflow_table.rs : fn ensure_capacity *)
Definition ensure_capacity t : option (RawTable K V) :=
  if max_load t <=? len t then
    let new_groups := if max_load t =? 0 then 1 else (mask t + 1) * 2 in
    rehash_with_impl t new_groups
  else Some t.

(** Clearing the tag of a slot, with the anti-drift adjustment of [max_load]. *)
(*@ raw/overflow_table.rs : unsafe fn erase_slot *)
Definition erase_slot t (h : Z) (gi si : nat) : RawTable K V :=
  let t := write_meta t gi si EMPTY in
  let t := with_len t (len t - 1) in
  let initial_gi := group_index t h in
  let ofw_bit := overflow_channel (Tag L) h in
  if has_overflow_bit t initial_gi ofw_bit then with_max_load t (max_load t - 1) else t.

(*@ raw/overflow_table.rs : fn remove_by_hash *)
Definition remove_by_hash t (h : Z) (eq : K → bool) : option (RawTable K V * option (K * V)) :=
  do r <- find_by_hash_impl t h eq;
  match r with
  | None => Some (t, None)
  | Some (gi, si) =>
      let kv := kv_at t gi si in
      let t := write_meta t gi si EMPTY in
      let t := with_len t (len t - 1) in
      let initial_gi := group_index t h in
      let ofw_bit := overflow_channel (Tag L) h in
      let t := if has_overflow_bit t initial_gi ofw_bit
               then with_max_load t (max_load t - 1) else t in
      Some (t, kv)
  end.

(** Dropping the pairs and zeroing the control bytes; the second component is
    what [S::drop_slot] is called on. *)
(*@ raw/overflow_table.rs : fn clear( *)
Definition clear t : RawTable K V * list (K * V) :=
  if max_load t =? 0 then (t, [])
  else
    let dropped := occupied_kvs t in
    let n := (mask t + 1) * META_STRIDE L + overflow_bytes_to_zero (Overflow L) (mask t + 1) in
    let t := with_ctrl t (write_bytes_with (ctrl t) (zero_bytes n)) in
    let t := with_len t 0 in
    (with_max_load t (max_load_for_capacity ((mask t + 1) * GROUP_SIZE L)
       (LOAD_FACTOR_NUM L) (LOAD_FACTOR_DEN L)), dropped).

(** [Drop]: the pairs dropped and the block freed. *)
(*@ raw/overflow_table.rs : fn drop( *)
Definition drop_table t : list (K * V) * option (Block K V) :=
  if max_load t =? 0 then ([], None)
  else (occupied_kvs t, (deallocate t).2).

(** [len.checked_add(additional).expect("capacity overflow")] *)
(*@ raw/overflow_table.rs : fn reserve *)
Definition reserve t (additional : Z) : option (RawTable K V + Panic) :=
  let needed := (Z.of_nat (len t) + additional)%Z in
  if (2 ^ 64 <=? needed)%Z then Some (inr CapacityOverflow)
  else if max_load t =? 0 then
    Some (inl (if (0 <? additional)%Z
               then allocate t (Z.to_nat (groups_for_capacity needed)) else t))
  else if (Z.of_nat (max_load t) <? needed)%Z then
    let new_groups := Z.to_nat (groups_for_capacity needed) in
    if mask t + 1 <? new_groups then
      do t <- rehash_with_impl t new_groups; Some (inl t)
    else Some (inl t)
  else Some (inl t).

(*@ raw/overflow_table.rs : fn shrink_to_fit *)
Definition shrink_to_fit t : option (RawTable K V) :=
  if len t =? 0 then Some new
  else
    let min_groups := Z.to_nat (groups_for_capacity (Z.of_nat (len t))) in
    if min_groups <? mask t + 1 then rehash_with_impl t min_groups else Some t.

(** [S::clone_slot] clones the pair of an occupied bucket into the same bucket
    of the new table; [clone] of a key or value yields an equal one. *)
Definition clone_slot (src dst : RawTable K V) (gi si : nat) : RawTable K V :=
  match kv_at src gi si with
  | Some kv => write_kv dst gi si kv
  | None => dst
  end.

(*@ raw/overflow_table.rs : fn clone_table *)
Definition clone_table t : RawTable K V :=
  if max_load t =? 0 then new
  else
    let new_table := allocate new (mask t + 1) in
    let copy_size := bytes_to_copy_total (mask t + 1) in
    let new_table := with_ctrl new_table
      (write_bytes_with (ctrl new_table)
         (λ l, take copy_size (ctrl_bytes (ctrl t)) ++ drop copy_size l)) in
    let new_table :=
      fold_left (λ nt '(gi, si), clone_slot t nt gi si) (occupied_slots t) new_table in
    with_max_load (with_len new_table (len t)) (max_load t).

(** ** Iterators *)

(*@ raw/overflow_table.rs : fn first_non_empty_mask *)
Definition first_non_empty_mask t : Z :=
  if max_load t =? 0 then 0%Z else match_non_empty (Grp L) (ctrl_bytes (ctrl t)) 0.

(*@ raw/overflow_table.rs : fn iter_slots *)
Definition iter_slots t : SlotIter := {| it_group := 0; it_mask := first_non_empty_mask t |}.

(** The mask a walk loads for a group. *)
Definition group_mask t (gi : nat) : Z :=
  match_non_empty (Grp L) (ctrl_bytes (ctrl t)) (meta_ptr gi).

Definition slot_iter_next (n : nat) t (it : SlotIter) : option (nat * nat) * SlotIter :=
  slot_walk n (Mask (Grp L)) (group_mask t) (mask t) it.

(** [IntoIter]: the table is owned and emptied slot by slot. *)
(*@ raw/overflow_table.rs : pub struct IntoIter *)
Record IntoIter := { into_table : RawTable K V; into_pos : SlotIter }.

(*@ raw/overflow_table.rs : fn into_iter_impl *)
Definition into_iter_impl t : IntoIter := {| into_table := t; into_pos := iter_slots t |}.

(** The iterator over the old contents, and the table left behind. *)
(*@ raw/overflow_table.rs : fn drain_impl *)
Definition drain_impl t : IntoIter * RawTable K V := (into_iter_impl t, new).

(*@ raw/overflow_table.rs : fn next( @2 *)
Definition into_iter_next (n : nat) (it : IntoIter) : option (option (K * V)) * IntoIter :=
  let t := into_table it in
  match slot_iter_next n t (into_pos it) with
  | (Some (gi, si), pos) =>
      let kv := kv_at t gi si in
      let t := write_meta t gi si EMPTY in
      let t := with_len t (len t - 1) in
      (Some kv, {| into_table := t; into_pos := pos |})
  | (None, pos) => (None, {| into_table := t; into_pos := pos |})
  end.
End table.
