(* ===== verification/OverflowInv.v ===== *)
(** * The overflow-bit raw table: invariant

    The state of a table seen through its slots, the map it represents, the
    well-formedness invariant [wf], the bound [probe_bound] on the free slots
    of overflowed groups, and the effect of the primitive writes on them. *)

From Stdlib Require Import ZArith Lia.
From S2P Require Import Prelude Probe Bitmask HashTag Group Layout OverflowTable.

Section inv.
Context (L : GroupLayout) `{!LayoutOk L} {K V : Type} `{Countable K} (hash_key : K → Z).
Implicit Types t : RawTable K V.

(** ** Slots *)

Definition tag_at t (gi si : nat) : Z := get_meta (ctrl_bytes (ctrl t)) (meta_ptr L gi) si.

Definition all_slots t : list (nat * nat) := slot_list (mask t + 1) (GROUP_SIZE L).

Definition in_range t (gi si : nat) : Prop := gi <= mask t ∧ si < GROUP_SIZE L.

Definition slot_entry t (p : nat * nat) : option (K * V) :=
  if (tag_at t p.1 p.2 =? EMPTY)%Z then None else kv_at L t p.1 p.2.

(** The pairs of the table in iteration order, and the map they form. *)
Definition entries t : list (K * V) := omap (slot_entry t) (all_slots t).

Definition to_map t : gmap K V := map_of (entries t).

Definition home t (k : K) : nat := group_index L t (hash_key k).
Definition chan (k : K) : Z := overflow_channel (Tag L) (hash_key k).
Definition ktag (k : K) : Z := tag (Tag L) (hash_key k).
Definition pos t (k : K) (i : nat) : nat := probe_pos (mask t) (home t k) i.

(** The first [i] groups of the probe sequence of [k] have its overflow bit. *)
Definition covered t (k : K) (i : nat) : Prop :=
  ∀ j, j < i → has_overflow_bit L t (pos t k j) (chan k) = true.

(** A lookup of [k] arrives at group [gi]. *)
Definition reach t (k : K) (gi : nat) : Prop := ∃ i, pos t k i = gi ∧ covered t k i.

(** ** The invariant *)

Definition log_groups t : nat := Nat.log2 (mask t + 1).

Definition full_load t : nat :=
  max_load_for_capacity ((mask t + 1) * GROUP_SIZE L) (LOAD_FACTOR_NUM L) (LOAD_FACTOR_DEN L).

Definition alloc_ok t : Prop :=
  ∃ b, ctrl t = Alloc b ∧
    length (bytes b) = ctrl_size L (S (mask t)) ∧
    length (slots b) = S (mask t) * BUCKET_STRIDE L.

Definition unallocated t : Prop :=
  ctrl t = EMPTY_SENTINEL ∧ mask t = 0 ∧ max_load t = 0.

Record wf t : Prop := {
  wf_pow2 : S (mask t) = 2 ^ log_groups t;
  wf_log : log_groups t <= MAX_LOG_GROUPS;
  wf_shift : shift t = shift_of (mask t + 1);
  wf_ctrl : unallocated t ∨ alloc_ok t;
  (** an occupied slot holds a pair, its tag, and is reachable *)
  wf_slot gi si :
    in_range t gi si → tag_at t gi si ≠ EMPTY →
    ∃ k v, kv_at L t gi si = Some (k, v) ∧ tag_at t gi si = ktag k ∧ reach t k gi;
  wf_keys p q k v v' :
    p ∈ all_slots t → q ∈ all_slots t →
    slot_entry t p = Some (k, v) → slot_entry t q = Some (k, v') → p = q;
  wf_len : len t = length (entries t);
  wf_load : len t <= max_load t;
  wf_max_load : max_load t <= full_load t;
}.

(** A group with an overflow bit on some channel, and the number of empty
    slots in such groups. *)
Definition overflowed t (gi : nat) : bool :=
  existsb (λ b, has_overflow_bit L t gi (2 ^ Z.of_nat b)%Z) (seq 0 8).

Definition loose_slots t : nat :=
  countb (λ p, overflowed t p.1 && (tag_at t p.1 p.2 =? EMPTY)%Z) (all_slots t).

(** What keeps the probe loops finite: the anti-drift adjustment gives up one
    unit of load for every slot freed in an overflowed group. *)
Definition probe_bound t : Prop := loose_slots t + max_load t <= full_load t.

(** ** Geometry *)

Lemma elem_of_all_slots t gi si : (gi, si) ∈ all_slots t ↔ in_range t gi si.
Proof. unfold all_slots, in_range. rewrite elem_of_slot_list. lia. Qed.

Lemma all_slots_NoDup t : NoDup (all_slots t).
Proof. apply slot_list_NoDup. Qed.

Lemma all_slots_length t : length (all_slots t) = (mask t + 1) * GROUP_SIZE L.
Proof. apply slot_list_length. Qed.

Lemma group_index_le t h : group_index L t h <= mask t.
Proof.
  unfold group_index. destruct (GROUP_INDEX_REGION L); apply land_mask_le.
Qed.

Lemma home_le t k : home t k <= mask t.
Proof. apply group_index_le. Qed.

Lemma pos_le t k i : wf t → pos t k i <= mask t.
Proof.
  intros Hwf. apply (probe_pos_le _ (log_groups t)); [by apply wf_pow2| |apply home_le].
  pose proof (wf_log t Hwf). unfold MAX_LOG_GROUPS in *. lia.
Qed.

Lemma pos_surjective t k g :
  wf t → g <= mask t → ∃ i, i <= mask t ∧ pos t k i = g.
Proof.
  intros Hwf Hg. destruct (probe_surjective (mask t) (log_groups t)
    (wf_pow2 t Hwf)) with (home := home t k) (g := g) as (i & Hi & Hp).
  - pose proof (wf_log t Hwf). unfold MAX_LOG_GROUPS in *. lia.
  - apply home_le.
  - done.
  - exists i. split; [|done]. rewrite <- (wf_pow2 t Hwf) in Hi. lia.
Qed.

Lemma full_load_lt t : full_load t < (mask t + 1) * GROUP_SIZE L.
Proof.
  unfold full_load, max_load_for_capacity.
  pose proof (layout_load (L := L)). pose proof (layout_gs (L := L)).
  apply Nat.Div0.div_lt_upper_bound. nia.
Qed.

Lemma full_load_pos t : 0 < full_load t.
Proof.
  unfold full_load, max_load_for_capacity.
  pose proof (layout_load (L := L)). pose proof (layout_load_min (L := L)).
  apply Nat.div_str_pos. nia.
Qed.

(** ** Reading slots *)

Lemma sentinel_byte i : byte_at sentinel_bytes i = 0%Z.
Proof.
  unfold byte_at, sentinel_bytes. destruct (replicate _ _ !! i) eqn:E; [|done].
  by apply lookup_replicate in E as [-> _].
Qed.

Lemma tag_at_unallocated t gi si : unallocated t → tag_at t gi si = EMPTY.
Proof. intros (Hc & _). unfold tag_at, get_meta. rewrite Hc. apply sentinel_byte. Qed.

Lemma overflow_unallocated t gi c : unallocated t → has_overflow_bit L t gi c = false.
Proof.
  intros (Hc & _). unfold has_overflow_bit, has_overflow_at. rewrite Hc. simpl.
  rewrite sentinel_byte. apply ov_zero.
Qed.

Lemma slot_entry_some t gi si k v :
  slot_entry t (gi, si) = Some (k, v) → tag_at t gi si ≠ EMPTY ∧ kv_at L t gi si = Some (k, v).
Proof. unfold slot_entry. simpl. destruct (Z.eqb_spec (tag_at t gi si) EMPTY); [done|]. auto. Qed.

Lemma slot_entry_none t gi si :
  wf t → in_range t gi si → slot_entry t (gi, si) = None ↔ tag_at t gi si = EMPTY.
Proof.
  intros Hwf Hr. unfold slot_entry. simpl.
  destruct (Z.eqb_spec (tag_at t gi si) EMPTY) as [->|Hne]; [done|].
  destruct (wf_slot t Hwf gi si Hr Hne) as (k & v & -> & _). done.
Qed.

Lemma elem_of_entries t k v :
  (k, v) ∈ entries t ↔ ∃ gi si, in_range t gi si ∧ slot_entry t (gi, si) = Some (k, v).
Proof.
  unfold entries. rewrite elem_of_omap_iff. split.
  - intros ([gi si] & Hin & He). rewrite elem_of_all_slots in Hin. eauto.
  - intros (gi & si & Hin & He). exists (gi, si). by rewrite elem_of_all_slots.
Qed.

Lemma entries_keys_NoDup t : wf t → NoDup (entries t).*1.
Proof. intros Hwf. apply omap_keys_NoDup; [apply all_slots_NoDup|apply wf_keys, Hwf]. Qed.

Lemma to_map_lookup t k v :
  wf t → to_map t !! k = Some v ↔
    ∃ gi si, in_range t gi si ∧ slot_entry t (gi, si) = Some (k, v).
Proof.
  intros Hwf. unfold to_map. rewrite map_of_lookup by by apply entries_keys_NoDup.
  apply elem_of_entries.
Qed.

Lemma to_map_lookup_none t k :
  wf t → to_map t !! k = None ↔
    ∀ gi si v, in_range t gi si → slot_entry t (gi, si) ≠ Some (k, v).
Proof.
  intros Hwf. split.
  - intros Hn gi si v Hr He. assert (to_map t !! k = Some v) by (apply to_map_lookup; eauto).
    congruence.
  - intros Hn. destruct (to_map t !! k) as [v|] eqn:E; [|done].
    apply to_map_lookup in E as (gi & si & Hr & He); [|done]. by destruct (Hn gi si v).
Qed.

Lemma size_to_map t : wf t → size (to_map t) = len t.
Proof.
  intros Hwf. unfold to_map. rewrite map_of_size by by apply entries_keys_NoDup.
  symmetry. by apply wf_len.
Qed.

(** The reach of an occupied slot. *)
Lemma slot_entry_reach t gi si k v :
  wf t → in_range t gi si → slot_entry t (gi, si) = Some (k, v) →
  tag_at t gi si = ktag k ∧ reach t k gi.
Proof.
  intros Hwf Hr [Ht Hkv]%slot_entry_some.
  destruct (wf_slot t Hwf gi si Hr Ht) as (k' & v' & Hkv' & Htag & Hreach). simplify_eq. done.
Qed.

Lemma ktag_nonempty k : ktag k ≠ EMPTY.
Proof. unfold ktag, EMPTY. pose proof (tag_range (hash_key k) (T := Tag L)). lia. Qed.

Lemma chan_single k : single_bit (chan k).
Proof. apply channel_single_bit. Qed.

(** ** Masks of a group *)

Section masks.
Context t (gi : nat).

Lemma width_ok : GROUP_SIZE L <= mask_bits (Mask (Grp L)).
Proof. apply group_width. Qed.

Lemma match_range m p :
  mask_repr m (GROUP_SIZE L) p → (0 <= m < 2 ^ Z.of_nat (mask_bits (Mask (Grp L))))%Z.
Proof.
  intros Hm. pose proof (mask_repr_range _ _ _ Hm). pose proof width_ok.
  assert (2 ^ Z.of_nat (GROUP_SIZE L) <= 2 ^ Z.of_nat (mask_bits (Mask (Grp L))))%Z
    by (apply Z.pow_le_mono_r; lia). lia.
Qed.

Lemma find_empty_some si :
  gi <= mask t →
  lowest_set_bit (Mask (Grp L)) (match_empty (Grp L) (ctrl_bytes (ctrl t)) (meta_ptr L gi)) = Some si →
  in_range t gi si ∧ tag_at t gi si = EMPTY.
Proof.
  pose proof (match_empty_repr (GroupOk := layout_group) (ctrl_bytes (ctrl t)) (meta_ptr L gi)) as Hm.
  intros Hgi Hsi%lowest_set_bit_Some; [|by eapply match_range].
  destruct Hm as [_ Hm]. rewrite Hm in Hsi. apply andb_true_iff in Hsi as [H1 H2].
  split; [split; [done|by apply Nat.ltb_lt]|]. by apply Z.eqb_eq.
Qed.

Lemma find_empty_none si :
  lowest_set_bit (Mask (Grp L)) (match_empty (Grp L) (ctrl_bytes (ctrl t)) (meta_ptr L gi)) = None →
  si < GROUP_SIZE L → tag_at t gi si ≠ EMPTY.
Proof.
  pose proof (match_empty_repr (GroupOk := layout_group) (ctrl_bytes (ctrl t)) (meta_ptr L gi)) as Hm.
  intros Hn Hsi. eapply lowest_set_bit_None with (i := si) in Hn; [|by eapply match_range].
  destruct Hm as [_ Hm]. rewrite Hm in Hn. apply andb_false_iff in Hn as [Hn|Hn].
  - apply Nat.ltb_ge in Hn. lia.
  - by apply Z.eqb_neq.
Qed.

(** Scanning the slots whose tag matches for a key. *)
Lemma scan_keys_some r eq si :
  gi <= mask t →
  scan_keys L t gi (match_byte (Grp L) (ctrl_bytes (ctrl t)) (meta_ptr L gi) r) eq = Some si →
  in_range t gi si ∧ tag_at t gi si = r ∧ ∃ k v, kv_at L t gi si = Some (k, v) ∧ eq k = true.
Proof.
  pose proof (match_byte_repr (GroupOk := layout_group) (ctrl_bytes (ctrl t)) (meta_ptr L gi) r) as Hm.
  unfold scan_keys. intros Hgi [Hsi Heq]%scan_Some; [|by eapply match_range].
  destruct Hm as [_ Hm]. rewrite Hm in Hsi. apply andb_true_iff in Hsi as [H1 H2].
  split; [split; [done|by apply Nat.ltb_lt]|]. split; [by apply Z.eqb_eq|].
  unfold key_is in Heq. destruct (kv_at L t gi si) as [[k v]|]; [eauto|done].
Qed.

Lemma scan_keys_none r eq si k v :
  scan_keys L t gi (match_byte (Grp L) (ctrl_bytes (ctrl t)) (meta_ptr L gi) r) eq = None →
  si < GROUP_SIZE L → tag_at t gi si = r → kv_at L t gi si = Some (k, v) → eq k = false.
Proof.
  pose proof (match_byte_repr (GroupOk := layout_group) (ctrl_bytes (ctrl t)) (meta_ptr L gi) r) as Hm.
  unfold scan_keys. intros Hn Hsi Htag Hkv.
  eapply scan_None with (i := si) in Hn; [|by eapply match_range|].
  - unfold key_is in Hn. by rewrite Hkv in Hn.
  - destruct Hm as [_ Hm]. rewrite Hm. apply andb_true_iff. split; [by apply Nat.ltb_lt|].
    by apply Z.eqb_eq.
Qed.
End masks.
End inv.
