(* ===== verification/OverflowWrite.v ===== *)
(** * The overflow-bit raw table: writes

    The effect of the primitive writes ([set_overflow_bit], [set_meta],
    [S::write]) on the slots and overflow bits of a table, and one lemma that
    re-establishes the invariant after any change of a single slot. *)

From Stdlib Require Import ZArith Lia.
From S2P Require Import Prelude Probe Bitmask HashTag Group Layout OverflowTable OverflowInv.

Section writes.
Context (L : GroupLayout) `{!LayoutOk L} {K V : Type} `{Countable K} (hash_key : K → Z).
Implicit Types t : RawTable K V.

Abbreviation tag_at := (tag_at L).
Abbreviation kv_at := (kv_at L).
Abbreviation ovf := (has_overflow_bit L).
Abbreviation in_range := (in_range L).
Abbreviation alloc_ok := (alloc_ok L).
Abbreviation wf := (wf L hash_key).
Abbreviation slot_entry := (slot_entry L).
Abbreviation all_slots := (all_slots L).
Abbreviation entries := (entries L).
Abbreviation to_map := (to_map L).
Abbreviation reach := (reach L hash_key).
Abbreviation ktag := (ktag L hash_key).

(** ** Offsets *)

Lemma meta_offset_lt t gi si :
  in_range t gi si → meta_ptr L gi + si < ctrl_size L (S (mask t)).
Proof.
  intros [Hgi Hsi]. unfold meta_ptr, ctrl_size. pose proof (layout_meta (L := L)). nia.
Qed.

Lemma meta_offset_inj gi si gi' si' :
  si < GROUP_SIZE L → si' < GROUP_SIZE L →
  meta_ptr L gi + si = meta_ptr L gi' + si' → gi = gi' ∧ si = si'.
Proof.
  unfold meta_ptr. pose proof (layout_meta (L := L)). intros.
  destruct (Nat.lt_trichotomy gi gi') as [?|[->|?]]; nia.
Qed.

Lemma bucket_index_lt t gi si :
  in_range t gi si → bucket_index L gi si < S (mask t) * BUCKET_STRIDE L.
Proof. intros [Hgi Hsi]. unfold bucket_index. pose proof (layout_bucket (L := L)). nia. Qed.

Lemma bucket_index_inj gi si gi' si' :
  si < GROUP_SIZE L → si' < GROUP_SIZE L →
  bucket_index L gi si = bucket_index L gi' si' → gi = gi' ∧ si = si'.
Proof.
  unfold bucket_index. pose proof (layout_bucket (L := L)). intros.
  destruct (Nat.lt_trichotomy gi gi') as [?|[->|?]]; nia.
Qed.

Lemma group_index_frame t t' h :
  mask t' = mask t → shift t' = shift t → group_index L t' h = group_index L t h.
Proof. intros Hm Hs. unfold group_index. by rewrite Hm, Hs. Qed.

Lemma all_slots_frame t t' : mask t' = mask t → all_slots t' = all_slots t.
Proof. intros Hm. unfold OverflowInv.all_slots. by rewrite Hm. Qed.

(** ** Setting an overflow bit *)

Section set_overflow.
Context t gi (c : Z) (Ha : alloc_ok t) (Hgi : gi <= mask t).

Lemma set_overflow_alloc : alloc_ok (set_overflow_bit L t gi c).
Proof using Ha.
  destruct Ha as (b & Hc & Hb & Hs). unfold set_overflow_bit. rewrite Hc. simpl.
  eexists. split; [reflexivity|]. simpl. split; [|done].
  unfold set_overflow_at. by rewrite length_set_byte.
Qed.

Lemma set_overflow_tag g s :
  in_range t g s → tag_at (set_overflow_bit L t gi c) g s = tag_at t g s.
Proof using Ha Hgi LayoutOk0.
  intros [Hg Hs]. destruct Ha as (b & Hc & Hb & _).
  unfold set_overflow_bit, OverflowInv.tag_at, get_meta, set_overflow_at. rewrite Hc. simpl.
  pose proof (layout_ov_bounds (mask t) gi Hgi).
  rewrite byte_at_set by lia. rewrite decide_False; [done|].
  by apply layout_ov_disjoint.
Qed.

Lemma set_overflow_kv g s : kv_at (set_overflow_bit L t gi c) g s = kv_at t g s.
Proof using Type. unfold OverflowTable.kv_at, set_overflow_bit. simpl. by destruct (ctrl t). Qed.

Lemma set_overflow_has : single_bit c → ovf (set_overflow_bit L t gi c) gi c = true.
Proof using Ha Hgi LayoutOk0.
  intros Hsb. destruct Ha as (b & Hc & Hb & _).
  unfold set_overflow_bit, has_overflow_bit, has_overflow_at, set_overflow_at. rewrite Hc. simpl.
  pose proof (layout_ov_bounds (mask t) gi Hgi).
  rewrite byte_at_set by lia. rewrite decide_True by done. by apply ov_has_set.
Qed.

Lemma set_overflow_mono g c' :
  ovf t g c' = true → ovf (set_overflow_bit L t gi c) g c' = true.
Proof using Ha Hgi LayoutOk0.
  destruct Ha as (b & Hc & Hb & _).
  unfold set_overflow_bit, has_overflow_bit, has_overflow_at, set_overflow_at. rewrite Hc. simpl.
  pose proof (layout_ov_bounds (mask t) gi Hgi).
  rewrite byte_at_set by lia. case_decide as Heq; [|done].
  rewrite <- Heq. apply ov_mono.
Qed.

Lemma set_overflow_other g c' :
  g ≠ gi → ovf (set_overflow_bit L t gi c) g c' = ovf t g c'.
Proof using Ha Hgi LayoutOk0.
  intros Hne. destruct Ha as (b & Hc & Hb & _).
  unfold set_overflow_bit, has_overflow_bit, has_overflow_at, set_overflow_at. rewrite Hc. simpl.
  pose proof (layout_ov_bounds (mask t) gi Hgi).
  rewrite byte_at_set by lia. case_decide as Heq; [|done].
  rewrite <- Heq. eapply (ov_apart (mask t) (META_STRIDE L)); [|done|done].
  pose proof (layout_meta (L := L)). pose proof (layout_gs (L := L)). lia.
Qed.
End set_overflow.

(** ** Writing a tag or a pair *)

Section slot.
Context t gi si (Ha : alloc_ok t) (Hr : in_range t gi si).

Lemma write_meta_alloc b : alloc_ok (write_meta L t gi si b).
Proof using Ha.
  destruct Ha as (bl & Hc & Hb & Hs). unfold write_meta. rewrite Hc. simpl.
  eexists. split; [reflexivity|]. simpl. split; [|done]. unfold set_meta. by rewrite length_set_byte.
Qed.

Lemma write_meta_tag b g s :
  in_range t g s →
  tag_at (write_meta L t gi si b) g s = if decide ((g, s) = (gi, si)) then b else tag_at t g s.
Proof using Ha Hr LayoutOk0.
  intros Hr'. destruct Ha as (bl & Hc & Hb & _).
  pose proof (meta_offset_lt t gi si Hr).
  unfold write_meta, OverflowInv.tag_at, get_meta, set_meta. rewrite Hc. simpl.
  rewrite byte_at_set by lia. destruct Hr as [_ Hs], Hr' as [_ Hs'].
  destruct (decide ((g, s) = (gi, si))) as [Heq|Hne]; simplify_eq; [by rewrite decide_True|].
  rewrite decide_False; [done|]. intros Heq. apply Hne.
  destruct (meta_offset_inj gi si g s) as [-> ->]; done.
Qed.

Lemma write_meta_kv b g s : kv_at (write_meta L t gi si b) g s = kv_at t g s.
Proof using Type. unfold OverflowTable.kv_at, write_meta. simpl. by destruct (ctrl t). Qed.

Lemma write_meta_ovf b g c : g <= mask t → ovf (write_meta L t gi si b) g c = ovf t g c.
Proof using Ha Hr LayoutOk0.
  intros Hg. destruct Ha as (bl & Hc & Hb & _).
  pose proof (meta_offset_lt t gi si Hr).
  unfold write_meta, has_overflow_bit, has_overflow_at, set_meta. rewrite Hc. simpl.
  rewrite byte_at_set by lia. destruct Hr as [Hgi Hs].
  rewrite decide_False; [done|]. intros Heq. symmetry in Heq.
  revert Heq. by apply layout_ov_disjoint.
Qed.

Lemma write_kv_alloc kv : alloc_ok (write_kv L t gi si kv).
Proof using Ha.
  destruct Ha as (bl & Hc & Hb & Hs). unfold write_kv. rewrite Hc. simpl.
  eexists. split; [reflexivity|]. simpl. split; [done|]. by rewrite length_insert.
Qed.

Lemma write_kv_tag kv g s : tag_at (write_kv L t gi si kv) g s = tag_at t g s.
Proof using Type. unfold OverflowInv.tag_at, write_kv. simpl. by destruct (ctrl t). Qed.

Lemma write_kv_ovf kv g c : ovf (write_kv L t gi si kv) g c = ovf t g c.
Proof using Type. unfold has_overflow_bit, write_kv. simpl. by destruct (ctrl t). Qed.

Lemma write_kv_kv kv g s :
  in_range t g s →
  kv_at (write_kv L t gi si kv) g s = if decide ((g, s) = (gi, si)) then Some kv else kv_at t g s.
Proof using Ha Hr LayoutOk0.
  intros Hr'. destruct Ha as (bl & Hc & _ & Hb).
  pose proof (bucket_index_lt t gi si Hr).
  unfold write_kv, OverflowTable.kv_at. rewrite Hc. simpl.
  destruct (decide ((g, s) = (gi, si))) as [Heq|Hne]; simplify_eq.
  - rewrite list_lookup_insert_eq by lia. done.
  - rewrite list_lookup_insert_ne; [done|]. intros Heq. apply Hne.
    destruct Hr as [_ Hs], Hr' as [_ Hs'].
    destruct (bucket_index_inj gi si g s) as [-> ->]; done.
Qed.
End slot.

(** ** Changing one slot *)

Definition entries_without t (p : nat * nat) : list (K * V) :=
  omap (λ q, if decide (q = p) then None else slot_entry t q) (all_slots t).

Lemma entries_split t p :
  p ∈ all_slots t → entries t ≡ₚ option_list (slot_entry t p) ++ entries_without t p.
Proof.
  intros Hp. unfold OverflowInv.entries, entries_without.
  destruct (slot_entry t p) as [x|] eqn:Ex; simpl.
  - apply omap_fill_perm with (p := p); [apply all_slots_NoDup|done|by rewrite decide_True|done|].
    intros q _ Hne. by rewrite decide_False.
  - erewrite omap_ext_elem; [done|]. intros q _. simpl. case_decide; [by subst|done].
Qed.

Lemma entries_without_frame t t' p :
  all_slots t' = all_slots t →
  (∀ q, q ∈ all_slots t → q ≠ p → slot_entry t' q = slot_entry t q) →
  entries_without t' p = entries_without t p.
Proof.
  intros Hs Hq. unfold entries_without. rewrite Hs. apply omap_ext_elem.
  intros q Hin. case_decide; [done|]. by apply Hq.
Qed.

(** [t'] differs from [t] at most in slot [p] and in additional overflow bits. *)
Record slot_frame t t' (p : nat * nat) : Prop := {
  fr_mask : mask t' = mask t;
  fr_shift : shift t' = shift t;
  fr_alloc : alloc_ok t';
  fr_tag g s : in_range t g s → (g, s) ≠ p → tag_at t' g s = tag_at t g s;
  fr_kv g s : in_range t g s → (g, s) ≠ p → kv_at t' g s = kv_at t g s;
  fr_ovf g c : g <= mask t → ovf t g c = true → ovf t' g c = true;
}.

Lemma pos_frame t t' k i :
  mask t' = mask t → shift t' = shift t → pos L hash_key t' k i = pos L hash_key t k i.
Proof.
  intros Hm Hs. unfold pos, home. by rewrite Hm, (group_index_frame t t').
Qed.

Lemma reach_frame t t' p k gi : wf t → slot_frame t t' p → reach t k gi → reach t' k gi.
Proof.
  intros Hwf F (i & Hp & Hc). exists i. split.
  - by rewrite (pos_frame t t') by apply F.
  - intros j Hj. rewrite (pos_frame t t') by apply F.
    apply (fr_ovf _ _ _ F); [by apply pos_le|]. by apply Hc.
Qed.

Lemma slot_entry_frame t t' p q :
  slot_frame t t' p → q ∈ all_slots t → q ≠ p → slot_entry t' q = slot_entry t q.
Proof.
  intros F Hq Hne. destruct q as [g s]. apply elem_of_all_slots in Hq.
  unfold OverflowInv.slot_entry. simpl.
  by rewrite (fr_tag _ _ _ F), (fr_kv _ _ _ F).
Qed.

(** What may stand in slot [p]. *)
Definition slot_content_ok t t' (gi si : nat) (o : option (K * V)) : Prop :=
  match o with
  | None => tag_at t' gi si = EMPTY
  | Some (k, v) =>
      tag_at t' gi si = ktag k ∧ kv_at t' gi si = Some (k, v) ∧ reach t k gi ∧
      ∀ q v', q ∈ all_slots t → q ≠ (gi, si) → slot_entry t q ≠ Some (k, v')
  end.

Lemma slot_content_entry t t' gi si o :
  slot_content_ok t t' gi si o → slot_entry t' (gi, si) = o.
Proof.
  unfold slot_content_ok, OverflowInv.slot_entry. simpl. destruct o as [[k v]|].
  - intros (-> & -> & _). pose proof (ktag_nonempty L hash_key k).
    by destruct (Z.eqb_spec (ktag k) EMPTY).
  - intros ->. done.
Qed.

Lemma entries_update t t' gi si o :
  slot_frame t t' (gi, si) → in_range t gi si → slot_content_ok t t' gi si o →
  entries t' ≡ₚ option_list o ++ entries_without t (gi, si).
Proof.
  intros F Hr Ho. rewrite (entries_split t' (gi, si)).
  - rewrite (slot_content_entry t t' gi si o) by done.
    rewrite (entries_without_frame t t'); [done|apply all_slots_frame, F|].
    intros q Hq Hne. by eapply slot_entry_frame.
  - rewrite (all_slots_frame t t') by apply F. by apply elem_of_all_slots.
Qed.

Lemma wf_update t t' gi si o :
  wf t → in_range t gi si → slot_frame t t' (gi, si) → slot_content_ok t t' gi si o →
  len t' = length (option_list o) + length (entries_without t (gi, si)) →
  len t' <= max_load t' → max_load t' <= full_load L t → wf t'.
Proof.
  intros Hwf Hr F Ho Hlen Hload Hmax.
  pose proof (entries_update t t' gi si o F Hr Ho) as He.
  pose proof (slot_content_entry t t' gi si o Ho) as Hentry.
  pose proof (all_slots_frame t t' (fr_mask _ _ _ F)) as Has.
  split.
  - unfold log_groups. rewrite (fr_mask _ _ _ F). by eapply wf_pow2.
  - unfold log_groups. rewrite (fr_mask _ _ _ F). by eapply wf_log.
  - rewrite (fr_shift _ _ _ F), (fr_mask _ _ _ F). by eapply wf_shift.
  - right. apply F.
  - intros g s Hr' Ht. unfold OverflowInv.in_range in Hr'. rewrite (fr_mask _ _ _ F) in Hr'.
    destruct (decide ((g, s) = (gi, si))) as [[= -> ->]|Hne].
    + destruct o as [[k v]|]; simpl in Ho; [|done].
      destruct Ho as (Htag & Hkv & Hreach & _). exists k, v. split_and!; [done|done|].
      by eapply reach_frame.
    + rewrite (fr_tag _ _ _ F) in Ht by done.
      destruct (wf_slot _ _ t Hwf g s Hr' Ht) as (k & v & Hkv & Htag & Hreach).
      exists k, v. rewrite (fr_tag _ _ _ F), (fr_kv _ _ _ F) by done. split_and!; [done|done|].
      by eapply reach_frame.
  - intros p q k v v'. rewrite Has. intros Hp Hq Hep Heq.
    destruct (decide (p = (gi, si))) as [->|Hnp], (decide (q = (gi, si))) as [->|Hnq]; [done| | |].
    + rewrite Hentry in Hep. rewrite Hep in Ho. destruct Ho as (_ & _ & _ & Ho).
      rewrite (slot_entry_frame _ _ _ _ F) in Heq by done. by destruct (Ho q v').
    + rewrite Hentry in Heq. rewrite Heq in Ho. destruct Ho as (_ & _ & _ & Ho).
      rewrite (slot_entry_frame _ _ _ _ F) in Hep by done. by destruct (Ho p v).
    + rewrite (slot_entry_frame _ _ _ _ F) in Hep by done.
      rewrite (slot_entry_frame _ _ _ _ F) in Heq by done.
      by eapply (wf_keys _ _ _ Hwf).
  - rewrite He, Hlen, length_app. done.
  - done.
  - unfold full_load in *. by rewrite (fr_mask _ _ _ F).
Qed.

(** ** Changes that touch no slot *)

Lemma wf_same_slots t t' :
  wf t → mask t' = mask t → shift t' = shift t → alloc_ok t' →
  (∀ g s, in_range t g s → tag_at t' g s = tag_at t g s ∧
     (tag_at t g s ≠ EMPTY → kv_at t' g s = kv_at t g s)) →
  (∀ g c, g <= mask t → ovf t g c = true → ovf t' g c = true) →
  len t' = len t → len t' <= max_load t' → max_load t' <= full_load L t →
  wf t' ∧ entries t' = entries t.
Proof.
  intros Hwf Hm Hs Ha Hslots Hovf Hlen Hload Hmax.
  assert (all_slots t' = all_slots t) as Has by (by apply all_slots_frame).
  assert (∀ q, q ∈ all_slots t → slot_entry t' q = slot_entry t q) as Hse.
  { intros [g s] Hq%elem_of_all_slots. unfold OverflowInv.slot_entry. simpl.
    destruct (Hslots g s Hq) as [-> Hkv].
    destruct (Z.eqb_spec (tag_at t g s) EMPTY); auto. }
  assert (entries t' = entries t) as He.
  { unfold OverflowInv.entries. rewrite Has. by apply omap_ext_elem. }
  split; [|done]. split; [| |rewrite Hs, Hm; by eapply wf_shift|by right| | |by rewrite He, Hlen; eapply wf_len|done|].
  - unfold log_groups. rewrite Hm. by eapply wf_pow2.
  - unfold log_groups. rewrite Hm. by eapply wf_log.
  - intros g s Hr Ht. unfold OverflowInv.in_range in Hr. rewrite Hm in Hr.
    destruct (Hslots g s Hr) as [Htag Hkv]. rewrite Htag in Ht.
    destruct (wf_slot _ _ t Hwf g s Hr Ht) as (k & v & Hk & Htg & i & Hi & Hc).
    exists k, v. rewrite Hkv, Htag by done. split_and!; [done|done|]. exists i. split.
    + by rewrite (pos_frame t t').
    + intros j Hj. rewrite (pos_frame t t') by done.
      apply Hovf; [by apply pos_le|]. by apply Hc.
  - intros p q k v v'. rewrite Has. intros Hp Hq. rewrite !Hse by done. by apply (wf_keys _ _ _ Hwf).
  - unfold full_load in *. by rewrite Hm.
Qed.
End writes.
