(* ===== verification/OverflowProbe.v ===== *)
(** * The overflow-bit raw table: probing

    Lookup, insertion without check, filling and erasing a slot: what each
    does to the map a table represents, that the invariant survives, and that
    exactly when the probe loops return: [lookup_ends].  [probe_bound] is enough
    for it.  For one-bit overflow strategies [probe_bound] is itself an
    invariant; for channelled strategies it holds until a removal. *)

From Stdlib Require Import ZArith Lia.
From S2P Require Import Prelude Probe Bitmask HashTag Group Layout.
From S2P Require Import OverflowTable OverflowInv OverflowWrite.

Section probing.
Context (L : GroupLayout) `{!LayoutOk L} {K V : Type} `{Countable K} (hash_key : K → Z).
Implicit Types t : RawTable K V.

Abbreviation tag_at := (tag_at L).
Abbreviation kv_at := (kv_at L).
Abbreviation ovf := (has_overflow_bit L).
Abbreviation in_range := (in_range L).
Abbreviation alloc_ok := (alloc_ok L).
Abbreviation wf := (wf L hash_key).
Abbreviation slot_entry := (slot_entry L).
Abbreviation all_slots := (all_slots L).
Abbreviation entries := (entries L).
Abbreviation to_map := (to_map L).
Abbreviation reach := (reach L hash_key).
Abbreviation covered := (covered L hash_key).
Abbreviation pos := (pos L hash_key).
Abbreviation home := (home L hash_key).
Abbreviation chan := (chan L hash_key).
Abbreviation ktag := (ktag L hash_key).
Abbreviation overflowed := (overflowed L).
Abbreviation loose_slots := (loose_slots L).
Abbreviation probe_bound := (probe_bound L).
Abbreviation full_load := (full_load L).

(** ** Overflowed groups *)

Lemma overflowed_intro t gi c : single_bit c → ovf t gi c = true → overflowed t gi = true.
Proof.
  intros (b & Hb & ->) Ho. unfold OverflowInv.overflowed. apply existsb_exists.
  exists (Z.to_nat b). rewrite in_seq, Z2Nat.id by lia. split; [lia|done].
Qed.

Lemma overflowed_false t gi c : single_bit c → overflowed t gi = false → ovf t gi c = false.
Proof.
  intros Hc Ho. apply not_true_is_false. intros Ht.
  by rewrite (overflowed_intro _ _ c) in Ho.
Qed.

Lemma overflowed_unchanneled t gi c :
  CHANNELED (Overflow L) = false → overflowed t gi = true → ovf t gi c = true.
Proof.
  intros HC Ho. apply existsb_exists in Ho as (b & _ & Hb).
  unfold has_overflow_bit, has_overflow_at in *. rewrite <- Hb. by apply ov_unchanneled.
Qed.

Lemma overflowed_ext t t' g :
  (∀ c, ovf t' g c = ovf t g c) → overflowed t' g = overflowed t g.
Proof.
  intros Ho. unfold OverflowInv.overflowed. induction (seq 0 8) as [|b l IH]; [done|].
  simpl. by rewrite Ho, IH.
Qed.

(** A table with a free slot at full load has a group no probe runs past. *)
Lemma probe_bound_clear t :
  wf t → probe_bound t → ∃ g, g <= mask t ∧ overflowed t g = false.
Proof.
  intros Hwf Hb. destruct (wf_ctrl _ _ _ Hwf) as [Hu|Ha].
  - exists 0. split; [lia|]. apply not_true_is_false. intros (b & _ & Ho)%existsb_exists.
    by rewrite overflow_unallocated in Ho.
  - destruct (decide (Forall (λ g, overflowed t g = true) (seq 0 (mask t + 1)))) as [Hall|Hnot].
    + exfalso. unfold OverflowInv.probe_bound, OverflowInv.loose_slots in Hb.
      pose proof (countb_negb (λ p, (tag_at t p.1 p.2 =? EMPTY)%Z) (all_slots t)) as Hcount.
      rewrite all_slots_length in Hcount.
      assert (countb (λ x, negb (tag_at t x.1 x.2 =? EMPTY)%Z) (all_slots t) = len t) as Hlen.
      { rewrite (wf_len _ _ _ Hwf). unfold OverflowInv.entries. rewrite <- countb_omap.
        apply countb_ext. intros [g s] Hin%elem_of_all_slots. simpl.
        pose proof (slot_entry_none _ _ t g s Hwf Hin) as Hiff.
        destruct (slot_entry t (g, s)), (Z.eqb_spec (tag_at t g s) EMPTY); try done.
        - by apply Hiff in e.
        - by destruct n; apply Hiff. }
      assert (countb (λ p, overflowed t p.1 && (tag_at t p.1 p.2 =? EMPTY)%Z) (all_slots t)
        = countb (λ p, (tag_at t p.1 p.2 =? EMPTY)%Z) (all_slots t)) as Heq.
      { apply countb_ext. intros [g s] [Hg _]%elem_of_all_slots. simpl.
        rewrite Forall_forall in Hall. rewrite Hall; [done|]. apply elem_of_seq. lia. }
      pose proof (full_load_lt L t). pose proof (wf_load _ _ _ Hwf). lia.
    + apply not_Forall_Exists in Hnot; [|apply _].
      apply Exists_exists in Hnot as (g & Hg%elem_of_seq & Hn).
      exists g. split; [lia|]. by apply not_true_is_false.
Qed.

Lemma loose_slots_ext t t' :
  mask t' = mask t →
  (∀ g s, in_range t g s →
     overflowed t' g && (tag_at t' g s =? EMPTY)%Z = overflowed t g && (tag_at t g s =? EMPTY)%Z) →
  loose_slots t' = loose_slots t.
Proof.
  intros Hm He. unfold OverflowInv.loose_slots. rewrite (all_slots_frame L t t') by done.
  apply countb_ext. intros [g s] Hin%elem_of_all_slots. by apply He.
Qed.

(** Only the tag of slot [(gi, si)] changes. *)
Lemma loose_slots_update t t' gi si :
  mask t' = mask t → in_range t gi si →
  (∀ g c, g <= mask t → ovf t' g c = ovf t g c) →
  (∀ g s, in_range t g s → (g, s) ≠ (gi, si) → tag_at t' g s = tag_at t g s) →
  loose_slots t' + (if overflowed t gi && (tag_at t gi si =? EMPTY)%Z then 1 else 0) =
  loose_slots t + (if overflowed t gi && (tag_at t' gi si =? EMPTY)%Z then 1 else 0).
Proof.
  intros Hm Hr Ho Ht. unfold OverflowInv.loose_slots. rewrite (all_slots_frame L t t') by done.
  assert (∀ g, g <= mask t → overflowed t' g = overflowed t g) as Hov.
  { intros g Hg. apply overflowed_ext. intros c. by apply Ho. }
  rewrite <- (Hov gi) at 2 by apply Hr.
  apply (countb_update (λ p, overflowed t' p.1 && (tag_at t' p.1 p.2 =? EMPTY)%Z)
    (λ p, overflowed t p.1 && (tag_at t p.1 p.2 =? EMPTY)%Z) (gi, si)).
  - apply all_slots_NoDup.
  - intros [g s] Hin%elem_of_all_slots Hne. simpl. rewrite Hov by apply Hin. by rewrite Ht.
  - by apply elem_of_all_slots.
Qed.

(** ** Setting the overflow bit of a full group *)

Definition group_full t (g : nat) : Prop := ∀ s, s < GROUP_SIZE L → tag_at t g s ≠ EMPTY.

Lemma set_overflow_wf t gi c :
  wf t → alloc_ok t → gi <= mask t →
  wf (set_overflow_bit L t gi c) ∧ entries (set_overflow_bit L t gi c) = entries t.
Proof.
  intros Hwf Ha Hgi. apply (wf_same_slots L hash_key t); try done.
  - by apply set_overflow_alloc.
  - intros g s Hr. split; [by apply set_overflow_tag|intros _; by apply set_overflow_kv].
  - intros g c' _. by apply set_overflow_mono.
  - by apply (wf_load _ _ _ Hwf).
  - by apply (wf_max_load _ _ _ Hwf).
Qed.

Lemma set_overflow_probe_bound t gi c :
  wf t → alloc_ok t → gi <= mask t → group_full t gi →
  probe_bound t → probe_bound (set_overflow_bit L t gi c).
Proof.
  intros Hwf Ha Hgi Hfull Hb. unfold OverflowInv.probe_bound in *.
  rewrite (loose_slots_ext t); [done|done|]. intros g s Hr.
  rewrite set_overflow_tag by done. destruct (decide (g = gi)) as [->|Hne].
  - destruct (Z.eqb_spec (tag_at t gi s) EMPTY) as [He|]; [|by rewrite !andb_false_r].
    exfalso. by apply (Hfull s); [apply Hr|].
  - f_equal. apply overflowed_ext. intros c'. by apply set_overflow_other.
Qed.

(** ** Filling a slot *)

Lemma put_frame t h gi si k v :
  alloc_ok t → in_range t gi si → slot_frame L t (put L t h gi si k v) (gi, si).
Proof.
  intros Ha Hr. unfold put.
  pose proof (write_meta_alloc L t gi si Ha (tag (Tag L) h)) as Ha'.
  set (t1 := write_meta L t gi si (tag (Tag L) h)) in *. split.
  - done.
  - done.
  - by apply (write_kv_alloc L t1 gi si Ha').
  - intros g s Hr' Hne. etransitivity; [apply (write_kv_tag L t1)|].
    subst t1. rewrite write_meta_tag by done. by rewrite decide_False.
  - intros g s Hr' Hne. etransitivity; [by apply (write_kv_kv L t1 gi si Ha')|].
    rewrite decide_False by done. apply write_meta_kv.
  - intros g c Hg Ho. etransitivity; [apply (write_kv_ovf L t1)|].
    subst t1. by rewrite write_meta_ovf.
Qed.

Lemma put_tag t h gi si k v :
  alloc_ok t → in_range t gi si → tag_at (put L t h gi si k v) gi si = tag (Tag L) h.
Proof.
  intros Ha Hr. unfold put. etransitivity; [apply (write_kv_tag L)|].
  rewrite write_meta_tag by done. by rewrite decide_True.
Qed.

Lemma put_kv t h gi si k v :
  alloc_ok t → in_range t gi si → kv_at (put L t h gi si k v) gi si = Some (k, v).
Proof.
  intros Ha Hr. unfold put. etransitivity.
  - apply (write_kv_kv L _ gi si); [by apply write_meta_alloc|done|done].
  - by rewrite decide_True.
Qed.

Lemma put_ovf t h gi si k v g c :
  alloc_ok t → in_range t gi si → g <= mask t →
  ovf (put L t h gi si k v) g c = ovf t g c.
Proof.
  intros Ha Hr Hg. unfold put. etransitivity; [apply (write_kv_ovf L)|].
  by apply write_meta_ovf.
Qed.

(** The table after a successful insertion of a new key. *)
Record inserted t t' (k : K) (v : V) (p : nat * nat) : Prop := {
  ins_wf : wf t';
  ins_alloc : alloc_ok t';
  ins_entries : entries t' ≡ₚ (k, v) :: entries t;
  ins_entry : slot_entry t' p = Some (k, v);
  ins_in_range : in_range t' p.1 p.2;
  ins_mask : mask t' = mask t;
  ins_max_load : max_load t' = max_load t;
  ins_len : len t' = S (len t);
  ins_bound : probe_bound t → probe_bound t';
}.

Lemma put_spec t gi si k v :
  wf t → alloc_ok t → in_range t gi si → tag_at t gi si = EMPTY →
  reach t k gi → to_map t !! k = None → len t < max_load t →
  inserted t (put L t (hash_key k) gi si k v) k v (gi, si).
Proof.
  intros Hwf Ha Hr Hempty Hreach Hk Hlen.
  pose proof (put_frame t (hash_key k) gi si k v Ha Hr) as F.
  assert (slot_content_ok L hash_key t (put L t (hash_key k) gi si k v) gi si (Some (k, v))) as Ho.
  { split_and!; [by apply put_tag|by apply put_kv|done|].
    intros [g s] v' Hin%elem_of_all_slots _. eapply to_map_lookup_none in Hk; eauto. }
  assert (slot_entry t (gi, si) = None) as Hnone by (by apply (slot_entry_none L hash_key)).
  pose proof (entries_update L hash_key t _ gi si _ F Hr Ho) as He.
  assert (entries t ≡ₚ entries_without L t (gi, si)) as Hsplit.
  { rewrite (entries_split L t (gi, si)) by (by apply elem_of_all_slots). by rewrite Hnone. }
  assert (length (entries_without L t (gi, si)) = len t) as Hw.
  { rewrite (wf_len _ _ _ Hwf). by rewrite Hsplit. }
  split; try done.
  - eapply (wf_update L hash_key t _ gi si (Some (k, v))); try done; cbn [len max_load put with_len].
    + rewrite Hw. simpl. cbn. lia.
    + cbn. lia.
    + by apply (wf_max_load _ _ _ Hwf).
  - apply F.
  - rewrite He, Hsplit. done.
  - by eapply slot_content_entry.
  - cbn. lia.
  - intros Hb. unfold OverflowInv.probe_bound in *.
    pose proof (loose_slots_update t (put L t (hash_key k) gi si k v) gi si eq_refl Hr) as Hl.
    rewrite put_tag, Hempty in Hl by done.
    assert ((tag (Tag L) (hash_key k) =? EMPTY)%Z = false) as Hne
      by (apply Z.eqb_neq, (ktag_nonempty L hash_key)).
    rewrite Hne, andb_false_r in Hl.
    specialize (Hl (λ g c Hg, put_ovf t _ gi si k v g c Ha Hr Hg) (fr_tag _ _ _ _ F)).
    change (full_load (put L t (hash_key k) gi si k v)) with (full_load t). cbn [max_load put with_len write_kv with_ctrl write_meta].
    lia.
Qed.

(** ** Erasing a slot *)

(** The table after the removal of the pair in slot [(gi, si)]. *)
Record erased t t' (k : K) (v : V) : Prop := {
  er_wf : wf t';
  er_entries : entries t ≡ₚ (k, v) :: entries t';
  er_mask : mask t' = mask t;
  er_len : len t = S (len t');
  er_bound : CHANNELED (Overflow L) = false → probe_bound t → probe_bound t';
}.

Lemma wf_alloc t gi si k v :
  wf t → slot_entry t (gi, si) = Some (k, v) → alloc_ok t.
Proof.
  intros Hwf [Ht _]%slot_entry_some. destruct (wf_ctrl _ _ _ Hwf) as [Hu|]; [|done].
  by rewrite (tag_at_unallocated L) in Ht.
Qed.

Lemma wf_empty_alloc t : wf t → len t < max_load t → alloc_ok t.
Proof. intros Hwf Hlt. destruct (wf_ctrl _ _ _ Hwf) as [(_ & _ & Hm)|]; [lia|done]. Qed.

Definition erase_slot_unadjusted t (gi si : nat) : RawTable K V :=
  with_len (write_meta L t gi si EMPTY) (len t - 1).

Lemma erase_slot_eq t h gi si :
  alloc_ok t → in_range t gi si →
  erase_slot L t h gi si =
    with_max_load (erase_slot_unadjusted t gi si)
      (if ovf t (group_index L t h) (overflow_channel (Tag L) h) then max_load t - 1 else max_load t).
Proof.
  intros Ha Hr. unfold erase_slot.
  change (group_index L (with_len (write_meta L t gi si EMPTY)
    (len (write_meta L t gi si EMPTY) - 1)) h) with (group_index L t h).
  change (ovf (with_len (write_meta L t gi si EMPTY) (len (write_meta L t gi si EMPTY) - 1)))
    with (ovf (write_meta L t gi si EMPTY)).
  rewrite write_meta_ovf by (try done; apply group_index_le).
  by destruct (ovf t _ _).
Qed.

Lemma erase_spec t gi si k v :
  wf t → in_range t gi si → slot_entry t (gi, si) = Some (k, v) →
  erased t (erase_slot L t (hash_key k) gi si) k v.
Proof.
  intros Hwf Hr He. pose proof (wf_alloc t gi si k v Hwf He) as Ha.
  rewrite erase_slot_eq by done. set (m := if ovf t _ _ then _ else _).
  set (t' := with_max_load _ m).
  pose proof (slot_entry_reach L hash_key t gi si k v Hwf Hr He) as [_ Hreach].
  pose proof (write_meta_tag L t gi si Ha Hr EMPTY) as Htag.
  pose proof (wf_load _ _ _ Hwf) as Hload. pose proof (wf_max_load _ _ _ Hwf) as Hmax.
  pose proof (entries_split L t (gi, si)) as Hsplit.
  rewrite elem_of_all_slots, He in Hsplit. specialize (Hsplit Hr). simpl in Hsplit.
  assert (len t = S (length (entries_without L t (gi, si)))) as Hlen.
  { rewrite (wf_len _ _ _ Hwf), Hsplit. done. }
  assert (slot_frame L t t' (gi, si)) as F.
  { split; [done|done|by apply (write_meta_alloc L t gi si Ha)| | |].
    - intros g s Hr' Hne. etransitivity; [by apply Htag|]. by rewrite decide_False.
    - intros g s _ _. apply (write_meta_kv L t).
    - intros g c Hg Ho. etransitivity; [by apply (write_meta_ovf L t)|done]. }
  assert (tag_at t' gi si = EMPTY) as Hgone.
  { etransitivity; [by apply Htag|]. by rewrite decide_True. }
  assert (slot_content_ok L hash_key t t' gi si None) as Ho by done.
  assert (m <= max_load t ∧ max_load t <= S m) as Hm by (subst m; destruct (ovf t _ _); lia).
  split.
  - apply (wf_update L hash_key t t' gi si None); try done; cbn [len max_load t' with_max_load with_len erase_slot_unadjusted]; simpl; lia.
  - rewrite Hsplit. by rewrite (entries_update L hash_key t t' gi si None F Hr Ho).
  - done.
  - subst t'. cbn [len with_max_load with_len erase_slot_unadjusted]. lia.
  - intros HC Hb. unfold OverflowInv.probe_bound in *.
    pose proof (loose_slots_update t t' gi si eq_refl Hr
      (λ g c, write_meta_ovf L t gi si Ha Hr EMPTY g c) (fr_tag _ _ _ _ F)) as Hl.
    rewrite Hgone, Z.eqb_refl, andb_true_r in Hl.
    change (full_load t') with (full_load t). change (max_load t') with m.
    destruct (overflowed t gi) eqn:Hov; simpl in Hl; [|lia].
    (* a slot freed in an overflowed group: the home group is overflowed too *)
    assert (ovf t (home t k) (chan k) = true) as Hhome.
    { destruct Hreach as ([|i] & Hp & Hc).
      - unfold OverflowInv.pos in Hp. simpl in Hp. rewrite Hp. by apply overflowed_unchanneled.
      - apply (Hc 0). lia. }
    unfold m. unfold OverflowInv.home, OverflowInv.chan in Hhome. rewrite Hhome.
    destruct (tag_at t gi si =? EMPTY)%Z; lia.
Qed.

(** ** Replacing a value *)

Lemma replace_spec t gi si k v v' :
  wf t → in_range t gi si → slot_entry t (gi, si) = Some (k, v) →
  ∃ t', replace_value L t gi si v' = (t', Some v) ∧
    wf t' ∧ to_map t' = <[k := v']> (to_map t) ∧ len t' = len t ∧
    mask t' = mask t ∧ max_load t' = max_load t ∧ (probe_bound t → probe_bound t').
Proof.
  intros Hwf Hr He. pose proof (wf_alloc t gi si k v Hwf He) as Ha.
  pose proof (slot_entry_some L t gi si k v He) as [Ht Hkv].
  pose proof (slot_entry_reach L hash_key t gi si k v Hwf Hr He) as [Htag Hreach].
  unfold replace_value. rewrite Hkv. eexists. split; [reflexivity|].
  set (t' := write_kv L t gi si (k, v')).
  pose proof (entries_split L t (gi, si)) as Hsplit.
  rewrite elem_of_all_slots, He in Hsplit. specialize (Hsplit Hr). simpl in Hsplit.
  assert (slot_frame L t t' (gi, si)) as F.
  { split; [done|done|by apply (write_kv_alloc L t gi si Ha)| | |].
    - intros g s Hr' Hne. apply (write_kv_tag L t).
    - intros g s Hr' Hne. etransitivity; [by apply (write_kv_kv L t gi si Ha Hr)|].
      by rewrite decide_False.
    - intros g c Hg. by rewrite <- (write_kv_ovf L t gi si (k, v')). }
  assert (slot_content_ok L hash_key t t' gi si (Some (k, v'))) as Ho.
  { split_and!; [|unfold t'; by rewrite write_kv_kv, decide_True|done|].
    - rewrite <- Htag. apply (write_kv_tag L t).
    - intros q v0 Hq Hne Hq'. apply Hne. eapply (wf_keys _ _ _ Hwf); [done| |done|done].
      by apply elem_of_all_slots. }
  pose proof (entries_update L hash_key t t' gi si _ F Hr Ho) as He'.
  assert (len t = S (length (entries_without L t (gi, si)))) as Hlen.
  { rewrite (wf_len _ _ _ Hwf), Hsplit. done. }
  assert (wf t') as Hwf'.
  { apply (wf_update L hash_key t t' gi si (Some (k, v'))); try done.
    - apply (wf_load _ _ _ Hwf).
    - apply (wf_max_load _ _ _ Hwf). }
  split_and!; try done.
  - unfold OverflowInv.to_map.
    rewrite (map_of_perm _ _ (entries_keys_NoDup L hash_key t' Hwf') He').
    rewrite (map_of_perm _ _ (entries_keys_NoDup L hash_key t Hwf) Hsplit).
    cbn [option_list app]. rewrite !map_of_cons. by rewrite insert_insert_eq.
  - intros Hb. unfold OverflowInv.probe_bound in *.
    rewrite (loose_slots_ext t); [done|done|]. intros g s Hrg. f_equal.
    + apply overflowed_ext. intros c. apply (write_kv_ovf L t).
    + f_equal. apply (write_kv_tag L t).
Qed.

(** ** Lookup *)

(** What a lookup of [k] promises about its result. *)
Definition find_result t (k : K) (r : option (nat * nat)) : Prop :=
  match r with
  | Some (gi, si) => in_range t gi si ∧ ∃ v, slot_entry t (gi, si) = Some (k, v)
  | None => to_map t !! k = None
  end.

(** No slot of group [g] holds [k]. *)
Definition group_without t (k : K) (g : nat) : Prop :=
  ∀ s v, s < GROUP_SIZE L → slot_entry t (g, s) ≠ Some (k, v).

(** The first [i] groups of the probe do not hold [k] and are overflowed. *)
Definition missed t (k : K) (i : nat) : Prop :=
  covered t k i ∧ ∀ j, j < i → group_without t k (pos t k j).

Lemma missed_step t k i :
  missed t k i → group_without t k (pos t k i) → ovf t (pos t k i) (chan k) = true →
  missed t k (S i).
Proof.
  intros [Hc Hw] Hg Ho. split; intros j Hj; destruct (decide (j = i)) as [->|]; try done.
  - apply Hc. lia.
  - apply Hw. lia.
Qed.

Lemma missed_absent t k i :
  wf t → missed t k i → group_without t k (pos t k i) → ovf t (pos t k i) (chan k) = false →
  to_map t !! k = None.
Proof.
  intros Hwf [Hc Hw] Hg Ho. apply (to_map_lookup_none L hash_key t k Hwf).
  intros gi si v Hr He.
  pose proof (slot_entry_reach L hash_key t gi si k v Hwf Hr He) as [_ (i' & Hp & Hc')].
  destruct (Nat.lt_trichotomy i' i) as [Hlt|[->|Hlt]].
  - specialize (Hw i' Hlt si v (proj2 Hr)). by rewrite Hp in Hw.
  - specialize (Hg si v (proj2 Hr)). by rewrite Hp in Hg.
  - specialize (Hc' i Hlt). congruence.
Qed.

(** The exits of a probe for [k] that are there: the key itself, or a group
    that is clear on the key's channel. *)
Definition clear_channel t (k : K) : Prop := ∃ g, g <= mask t ∧ ovf t g (chan k) = false.

Definition lookup_ends t (k : K) : Prop := is_Some (to_map t !! k) ∨ clear_channel t k.

Definition lookups_end t : Prop := ∀ k, lookup_ends t k.

(** A probe that goes on has not passed all the groups. *)
Lemma missed_bound t k i : wf t → lookup_ends t k → missed t k (S i) → i < mask t.
Proof.
  intros Hwf He [Hc Hw]. assert (∃ n, n <= mask t ∧ ¬ n <= i) as (n & ? & ?); [|lia].
  destruct He as [[v Hv]|(g & Hg & Ho)].
  - apply (to_map_lookup L hash_key t k v Hwf) in Hv as (g & s & [Hg Hs] & Hv).
    destruct (pos_surjective L hash_key t k g Hwf Hg) as (n & Hn & Hp). exists n. split; [done|].
    intros Hle. apply (Hw n ltac:(lia) s v Hs). by rewrite Hp.
  - destruct (pos_surjective L hash_key t k g Hwf Hg) as (n & Hn & Hp). exists n. split; [done|].
    intros Hle. by rewrite <- Hp, (Hc n) in Ho by lia.
Qed.

Section find.
Context t (k : K) (eq : K → bool) (Hwf : wf t) (Heq : ∀ k', eq k' = true ↔ k' = k).

(** Scanning the group at a probe position. *)
Lemma scan_found gi si :
  gi <= mask t →
  scan_keys L t gi (match_byte (Grp L) (ctrl_bytes (ctrl t)) (meta_ptr L gi) (ktag k)) eq = Some si →
  find_result t k (Some (gi, si)).
Proof using Hwf Heq LayoutOk0.
  intros Hgi Hs. apply scan_keys_some in Hs as (Hr & Htag & k' & v & Hkv & Hk); [|done..].
  apply Heq in Hk as ->. split; [done|]. exists v. unfold OverflowInv.slot_entry. simpl.
  rewrite Htag, Hkv. pose proof (ktag_nonempty L hash_key k).
  by destruct (Z.eqb_spec (ktag k) EMPTY).
Qed.

Lemma scan_missed gi :
  gi <= mask t →
  scan_keys L t gi (match_byte (Grp L) (ctrl_bytes (ctrl t)) (meta_ptr L gi) (ktag k)) eq = None →
  group_without t k gi.
Proof using Hwf Heq LayoutOk0.
  intros Hgi Hs s v Hlt He.
  assert (in_range t gi s) as Hr by done.
  pose proof (slot_entry_reach L hash_key t gi s k v Hwf Hr He) as [Htag _].
  apply slot_entry_some in He as [_ Hkv].
  eapply scan_keys_none in Hs; [|done..]. assert (eq k = true) by by apply Heq. congruence.
Qed.

(** A lookup that returns is right. *)
Lemma find_partial fuel r :
  find_by_hash_impl L fuel t (hash_key k) eq = Some r → find_result t k r.
Proof using Hwf Heq LayoutOk0.
  intros Hf. eapply (probe_loop_partial (mask t) (home t k) _
    (λ i _, missed t k i) (find_result t k) _ 0); [| |exact Hf].
  - split; intros j Hj; lia.
  - intros i [] _ Hi. cbv beta. pose proof (pos_le L hash_key t k i Hwf) as Hle.
    change (probe_pos (mask t) (home t k) i) with (pos t k i).
    destruct (scan_keys L t (pos t k i) _ eq) as [si|] eqn:Hs; [by apply scan_found|].
    apply scan_missed in Hs; [|done].
    destruct (ovf t (pos t k i) _) eqn:Ho; simpl; [by apply missed_step|].
    by eapply missed_absent.
Qed.

(** A lookup returns when an exit is there. *)
Lemma find_total fuel :
  lookup_ends t k → mask t < fuel →
  ∃ r, find_by_hash_impl L fuel t (hash_key k) eq = Some r ∧ find_result t k r.
Proof using Hwf Heq LayoutOk0.
  intros Hends Hfuel. eapply (probe_loop_total (mask t) (home t k) _
    (λ i _, missed t k i) (find_result t k) (mask t) _ 0); [| |lia..].
  - split; intros j Hj; lia.
  - intros i [] _ Hi. cbv beta. pose proof (pos_le L hash_key t k i Hwf) as Hle.
    change (probe_pos (mask t) (home t k) i) with (pos t k i).
    destruct (scan_keys L t (pos t k i) _ eq) as [si|] eqn:Hs; [by apply scan_found|].
    apply scan_missed in Hs; [|done].
    destruct (ovf t (pos t k i) _) eqn:Ho; simpl; [|by eapply missed_absent].
    assert (missed t k (S i)) as HS by (by apply missed_step).
    split; [|done]. by eapply missed_bound.
Qed.

(** And only then. *)
Lemma find_ends fuel r :
  find_by_hash_impl L fuel t (hash_key k) eq = Some r → lookup_ends t k.
Proof using Hwf Heq LayoutOk0.
  intros Hf. pose proof (find_partial fuel r Hf) as Hr. destruct r as [[gi si]|].
  - destruct Hr as [Hr [v He]]. left. exists v. apply (to_map_lookup L hash_key t k v Hwf). eauto.
  - right. eapply (probe_loop_partial (mask t) (home t k) _
      (λ _ _, True) (λ r, r = None → clear_channel t k) _ 0); [done| |exact Hf|done].
    intros i [] _ _. cbv beta. pose proof (pos_le L hash_key t k i Hwf) as Hle.
    change (probe_pos (mask t) (home t k) i) with (pos t k i).
    destruct (scan_keys L t (pos t k i) _ eq) as [si|]; [done|].
    destruct (ovf t (pos t k i) _) eqn:Ho; simpl; [done|]. intros _. by exists (pos t k i).
Qed.

Lemma find_diverges fuel :
  ¬ lookup_ends t k → find_by_hash_impl L fuel t (hash_key k) eq = None.
Proof using Hwf Heq LayoutOk0.
  intros Hn. destruct (find_by_hash_impl L fuel t (hash_key k) eq) as [r|] eqn:E; [|done].
  by apply find_ends in E.
Qed.
End find.

(** A group without any overflow bit is an exit of every probe. *)
Lemma clear_group_ends t g : g <= mask t → overflowed t g = false → lookups_end t.
Proof.
  intros Hg Ho k. right. exists g. split; [done|]. apply overflowed_false; [apply chan_single|]; done.
Qed.

Lemma probe_bound_ends t : wf t → probe_bound t → lookups_end t.
Proof.
  intros Hwf Hb. destruct (probe_bound_clear t Hwf Hb) as (g & Hg & Ho). by eapply clear_group_ends.
Qed.

(** ** Insertion without check *)

(** The table while [insert_no_check] probes: [i] full groups marked. *)
Record marked t t' (k : K) (i : nat) : Prop := {
  mk_wf : wf t';
  mk_alloc : alloc_ok t';
  mk_entries : entries t' = entries t;
  mk_mask : mask t' = mask t;
  mk_shift : shift t' = shift t;
  mk_len : len t' = len t;
  mk_max_load : max_load t' = max_load t;
  mk_tag g s : in_range t g s → tag_at t' g s = tag_at t g s;
  mk_covered : covered t' k i;
  mk_full j : j < i → group_full t (pos t k j);
  mk_bound : probe_bound t → probe_bound t';
}.

Lemma marked_step t t' k i :
  wf t → marked t t' k i → group_full t (pos t k i) →
  marked t (set_overflow_bit L t' (pos t k i) (chan k)) k (S i).
Proof.
  intros Hwf M Hfull.
  assert (pos t k i <= mask t') as Hle by (rewrite (mk_mask _ _ _ _ M); by apply pos_le).
  destruct (set_overflow_wf t' (pos t k i) (chan k)) as [Hwf' He']; [apply M|apply M|done|].
  split; try apply M; try done.
  - apply (set_overflow_alloc L), M.
  - rewrite He'. apply M.
  - intros g s Hr. etransitivity; [|by apply (mk_tag _ _ _ _ M)].
    apply (set_overflow_tag L); [apply M|done|].
    unfold OverflowInv.in_range. by rewrite (mk_mask _ _ _ _ M).
  - intros j Hj. change (pos (set_overflow_bit L t' (pos t k i) (chan k)) k j) with (pos t' k j).
    destruct (decide (j = i)) as [->|].
    + rewrite (pos_frame L hash_key t t') by apply M.
      apply (set_overflow_has L); [apply M|done|apply (chan_single L)].
    + apply (set_overflow_mono L); [apply M|done|]. apply (mk_covered _ _ _ _ M). lia.
  - intros j Hj. destruct (decide (j = i)) as [->|]; [done|]. apply (mk_full _ _ _ _ M). lia.
  - intros Hb. apply set_overflow_probe_bound; [apply M|apply M|done| |by apply M].
    intros s Hs. rewrite (mk_tag _ _ _ _ M); [by apply Hfull|]. split; [|done].
    by apply pos_le.
Qed.

Lemma has_empty_slot t : wf t → len t < max_load t → ∃ g s, in_range t g s ∧ tag_at t g s = EMPTY.
Proof.
  intros Hwf Hlt. pose proof (full_load_lt L t). pose proof (wf_max_load _ _ _ Hwf).
  rewrite (wf_len _ _ _ Hwf) in Hlt.
  destruct (omap_length_lt (slot_entry t) (all_slots t)) as ([g s] & Hin & Hn).
  - rewrite all_slots_length. unfold OverflowInv.entries in Hlt. lia.
  - apply elem_of_all_slots in Hin. exists g, s. split; [done|].
    by apply (slot_entry_none L hash_key).
Qed.

Lemma insert_no_check_spec fuel t k v :
  wf t → to_map t !! k = None → len t < max_load t → mask t < fuel →
  ∃ t' p, insert_no_check_impl L fuel t (hash_key k) k v = Some (t', p) ∧ inserted t t' k v p.
Proof.
  intros Hwf Hk Hlt Hfuel.
  destruct (has_empty_slot t Hwf Hlt) as (g & s & Hr & Hempty).
  destruct (pos_surjective L hash_key t k g Hwf (proj1 Hr)) as (n & Hn & Hp).
  edestruct (probe_loop_total (S := RawTable K V) (mask t) (home t k)
    (λ _ gi t,
       match lowest_set_bit (Mask (Grp L))
               (match_empty (Grp L) (ctrl_bytes (ctrl t)) (meta_ptr L gi)) with
       | Some si => inl (put L t (hash_key k) gi si k v, (gi, si))
       | None => inr (set_overflow_bit L t gi (chan k))
       end)
    (λ i t', marked t t' k i) (λ r, inserted t r.1 k v r.2) n fuel 0 t)
    as ([t' p] & Hrun & Hins).
  - pose proof (wf_empty_alloc t Hwf Hlt). split; try done; intros j Hj; lia.
  - intros i t' _ M. change (probe_pos (mask t) (home t k) i) with (pos t k i).
    assert (pos t k i <= mask t') as Hle by (rewrite (mk_mask _ _ _ _ M); by apply pos_le).
    destruct (lowest_set_bit _ _) as [n0|] eqn:Hlow.
    + apply find_empty_some in Hlow as [Hr' He]; [|done..].
      assert (inserted t' (put L t' (hash_key k) (pos t k i) n0 k v) k v (pos t k i, n0)) as Hi.
      { apply put_spec; [apply M|apply M|done|done| | |].
        - exists i. split; [apply (pos_frame L hash_key t t'); apply M|apply M].
        - unfold OverflowInv.to_map. by rewrite (mk_entries _ _ _ _ M).
        - rewrite (mk_len _ _ _ _ M), (mk_max_load _ _ _ _ M). done. }
      destruct Hi. split; try done; simpl.
      * by rewrite <- (mk_entries _ _ _ _ M).
      * etransitivity; [done|]. apply M.
      * etransitivity; [done|]. apply M.
      * etransitivity; [done|]. f_equal. apply M.
      * intros Hb. apply ins_bound0. by apply (mk_bound _ _ _ _ M).
    + assert (group_full t (pos t k i)) as Hfull.
      { intros s' Hs'. rewrite <- (mk_tag _ _ _ _ M) by (split; [by apply pos_le|done]).
        by eapply find_empty_none. }
      split; [|by apply marked_step].
      destruct (Nat.lt_trichotomy i n) as [?|[->|Hgt]]; [done| |].
      * exfalso. rewrite Hp in Hfull. by apply (Hfull s); [apply Hr|].
      * exfalso. pose proof (mk_full _ _ _ _ M n Hgt) as Hf. rewrite Hp in Hf.
        by apply (Hf s); [apply Hr|].
  - lia.
  - lia.
  - exists t', p. split; [exact Hrun|done].
Qed.

Lemma inserted_map t t' k v p :
  wf t → inserted t t' k v p → to_map t' = <[k := v]> (to_map t).
Proof.
  intros Hwf I. unfold OverflowInv.to_map.
  rewrite (map_of_perm _ _ (entries_keys_NoDup L hash_key t' (ins_wf _ _ _ _ _ I)) (ins_entries _ _ _ _ _ I)).
  done.
Qed.

Lemma erased_map t t' k v :
  wf t → erased t t' k v → to_map t' = delete k (to_map t) ∧ to_map t !! k = Some v.
Proof.
  intros Hwf E. pose proof (entries_keys_NoDup L hash_key t Hwf) as Hnd.
  pose proof (map_of_perm _ _ Hnd (er_entries _ _ _ _ E)) as Hm.
  unfold OverflowInv.to_map. rewrite Hm, map_of_cons. split; [|apply lookup_insert_eq].
  rewrite delete_insert_eq, delete_id; [done|]. apply map_of_lookup_none.
  assert (NoDup ((k, v) :: entries t').*1) as Hnd' by by rewrite <- (er_entries _ _ _ _ E).
  by apply NoDup_cons in Hnd' as [? _].
Qed.
End probing.
