(* ===== verification/OverflowOps.v ===== *)
(** * The overflow-bit raw table: operations

    Allocation, rehashing, insertion with growth, removal, clearing, reserving
    and shrinking, as operations on the map that the table represents. *)

From Stdlib Require Import ZArith Lia.
From S2P Require Import Prelude Probe Bitmask HashTag Group Layout.
From S2P Require Import OverflowTable OverflowInv OverflowWrite OverflowProbe.

Section ops.
Context (L : GroupLayout) `{!LayoutOk L} {K V : Type} `{Countable K} (hash_key : K → Z).
Implicit Types t : RawTable K V.

Abbreviation tag_at := (tag_at L).
Abbreviation kv_at := (kv_at L).
Abbreviation ovf := (has_overflow_bit L).
Abbreviation in_range := (in_range L).
Abbreviation alloc_ok := (alloc_ok L).
Abbreviation wf := (wf L hash_key).
Abbreviation slot_entry := (slot_entry L).
Abbreviation all_slots := (all_slots L).
Abbreviation entries := (entries L).
Abbreviation to_map := (to_map L).
Abbreviation probe_bound := (probe_bound L).
Abbreviation lookup_ends := (lookup_ends L hash_key).
Abbreviation full_load := (full_load L).
Abbreviation chan := (chan L hash_key).

(** ** Fresh tables *)

Definition load_of_groups (n : nat) : nat :=
  max_load_for_capacity (n * GROUP_SIZE L) (LOAD_FACTOR_NUM L) (LOAD_FACTOR_DEN L).

Lemma full_load_groups t : full_load t = load_of_groups (mask t + 1).
Proof. done. Qed.

Lemma load_of_groups_pos n : 0 < n → 0 < load_of_groups n.
Proof.
  pose proof (layout_load (L := L)). pose proof (layout_load_min (L := L)).
  apply load_of_pos; lia.
Qed.

Lemma load_of_groups_double n : 0 < n → load_of_groups n < load_of_groups (n * 2).
Proof.
  pose proof (layout_load (L := L)). pose proof (layout_load_min (L := L)).
  apply load_of_double; lia.
Qed.

Lemma load_of_groups_mono n m : n <= m → load_of_groups n <= load_of_groups m.
Proof. apply load_of_mono. Qed.

(** A table whose control bytes are all zero and whose load is reset. *)
Record fresh t : Prop := {
  fresh_wf : wf t;
  fresh_alloc : alloc_ok t;
  fresh_entries : entries t = [];
  fresh_bound : probe_bound t;
  fresh_len : len t = 0;
  fresh_load : max_load t = full_load t;
}.

Lemma fresh_intro t :
  S (mask t) = 2 ^ log_groups t → log_groups t <= MAX_LOG_GROUPS →
  shift t = shift_of (mask t + 1) → alloc_ok t →
  (∀ i, i < ctrl_size L (S (mask t)) → byte_at (ctrl_bytes (ctrl t)) i = 0%Z) →
  len t = 0 → max_load t = full_load t → fresh t.
Proof.
  intros Hp Hl Hsh Ha Hz Hlen Hmax.
  assert (∀ g s, in_range t g s → tag_at t g s = EMPTY) as Htag.
  { intros g s Hr. unfold OverflowInv.tag_at, get_meta. apply Hz. by apply meta_offset_lt. }
  assert (∀ g c, g <= mask t → ovf t g c = false) as Hovf.
  { intros g c Hg. unfold has_overflow_bit, has_overflow_at.
    rewrite Hz by by apply layout_ov_bounds. apply ov_zero. }
  assert (∀ p, p ∈ all_slots t → slot_entry t p = None) as Hse.
  { intros [g s] Hin%elem_of_all_slots. unfold OverflowInv.slot_entry. simpl. by rewrite Htag. }
  assert (entries t = []) as He by (by apply omap_none).
  split; try done.
  - split; try done; [by right| | | |lia|lia].
    + intros g s Hr Ht. by rewrite Htag in Ht.
    + intros p q k v v' Hin _ Hp'. by rewrite Hse in Hp'.
    + by rewrite He, Hlen.
  - unfold OverflowInv.probe_bound. rewrite Hmax. unfold loose_slots.
    assert (countb (λ p, overflowed L t p.1 && (tag_at t p.1 p.2 =? EMPTY)%Z) (all_slots t) = 0)
      as ->; [|lia].
    rewrite (countb_ext _ (λ _, false)); [|intros [g s] [Hg _]%elem_of_all_slots; simpl].
    + clear. induction (all_slots t); [done|]. by rewrite countb_cons.
    + apply andb_false_iff. left. apply not_true_is_false. intros (b & _ & Hb)%existsb_exists.
      by rewrite Hovf in Hb.
Qed.

Lemma wf_group_count t : wf t → group_count (mask t + 1).
Proof.
  intros Hwf. pose proof (wf_pow2 _ _ _ Hwf) as Hp. unfold log_groups in Hp.
  split; [|apply (wf_log _ _ _ Hwf)]. by rewrite <- Hp, Nat.add_1_r.
Qed.

Lemma allocate_fresh t n :
  group_count n → len t = 0 → fresh (allocate L t n) ∧ mask (allocate L t n) + 1 = n.
Proof.
  intros [Hp Hl] Hlen. pose proof (pow2_pos (Nat.log2 n)).
  assert (n - 1 + 1 = n) as Hn by lia. split; [|cbn; lia].
  assert (overflow_bytes_to_zero (Overflow L) n = extra_alloc_bytes (Overflow L) n) as Hz
    by apply ov_zeroed.
  apply fresh_intro; unfold log_groups; cbn [allocate mask ctrl len max_load shift ctrl_bytes bytes slots];
    rewrite ?Hn; replace (S (n - 1)) with n by lia.
  - done.
  - done.
  - done.
  - eexists. split; [reflexivity|]. cbn [allocate bytes slots mask].
    replace (S (n - 1)) with n by lia. split; [|by rewrite length_replicate].
    unfold ctrl_size. rewrite length_zero_bytes; rewrite length_replicate; [done|]. by rewrite Hz.
  - intros i Hi. apply byte_at_zeroed. rewrite Hz. done.
  - done.
  - rewrite full_load_groups. cbn [allocate mask]. by rewrite Hn.
Qed.

(** ** Occupied slots *)

Lemma occupied_kvs_entries t : occupied_kvs L t = entries t.
Proof.
  unfold occupied_kvs, occupied_slots, OverflowInv.entries, OverflowInv.all_slots, slot_list.
  induction (seq 0 (mask t + 1)) as [|g l IH]; [done|].
  rewrite !bind_cons, !omap_app, IH. f_equal. clear IH.
  rewrite (bits_repr _ _ (GROUP_SIZE L) (λ s, negb (tag_at t g s =? EMPTY)%Z));
    [|apply match_non_empty_repr|apply group_width].
  induction (seq 0 (GROUP_SIZE L)) as [|s l' IH]; [done|]. csimpl.
  unfold OverflowInv.slot_entry at 1. simpl.
  destruct (Z.eqb_spec (tag_at t g s) EMPTY); csimpl; [done|]. by rewrite IH.
Qed.

(** ** Rehashing *)

Lemma reinsert_spec fuel kvs t :
  wf t → probe_bound t → mask t < fuel →
  NoDup (kvs ++ entries t).*1 → len t + length kvs <= max_load t →
  ∃ t', reinsert L hash_key fuel kvs t = Some t' ∧
    wf t' ∧ probe_bound t' ∧ entries t' ≡ₚ kvs ++ entries t ∧ mask t' = mask t ∧
    max_load t' = max_load t ∧ len t' = len t + length kvs.
Proof.
  revert t. induction kvs as [|[k v] kvs IH]; intros t Hwf Hb Hfuel Hnd Hlen.
  - exists t. split_and!; simpl; first [done|lia].
  - simpl in Hlen, Hnd. apply NoDup_cons in Hnd as [Hk Hnd].
    destruct (insert_no_check_spec L hash_key fuel t k v) as (t1 & p & Hrun & I); try done; try lia.
    { apply map_of_lookup_none. intros Hin. apply Hk. rewrite fmap_app.
      apply elem_of_app. by right. }
    assert (kvs ++ entries t1 ≡ₚ (k, v) :: kvs ++ entries t) as Hperm.
    { rewrite (ins_entries _ _ _ _ _ _ _ I). symmetry. apply Permutation_middle. }
    destruct (IH t1) as (t' & Hrun' & Hwf' & Hb' & He' & Hm' & Hx' & Hl').
    + apply I.
    + by apply I.
    + by rewrite (ins_mask _ _ _ _ _ _ _ I).
    + rewrite Hperm. csimpl. by apply NoDup_cons.
    + rewrite (ins_len _ _ _ _ _ _ _ I), (ins_max_load _ _ _ _ _ _ _ I). lia.
    + exists t'. split; [simpl; by rewrite Hrun|]. split_and!; try done.
      * by rewrite He', Hperm.
      * by rewrite Hm', (ins_mask _ _ _ _ _ _ _ I).
      * by rewrite Hx', (ins_max_load _ _ _ _ _ _ _ I).
      * rewrite Hl', (ins_len _ _ _ _ _ _ _ I). simpl. lia.
Qed.

(** The table after a rehash: same pairs, no overflow bits to spare. *)
Record rehashed t t' (n : nat) : Prop := {
  rh_wf : wf t';
  rh_bound : probe_bound t';
  rh_entries : entries t' ≡ₚ entries t;
  rh_groups : mask t' + 1 = n;
  rh_max_load : max_load t' = full_load t';
  rh_len : len t' = len t;
}.

Lemma rehash_spec fuel t n :
  wf t → group_count n → n <= fuel → len t <= load_of_groups n →
  ∃ t', rehash_with_impl L hash_key fuel t n = Some t' ∧ rehashed t t' n.
Proof.
  intros Hwf Hn Hfuel Hlen. unfold rehash_with_impl.
  edestruct (allocate_fresh
    {| mask := 0; ctrl := EMPTY_SENTINEL; len := 0; max_load := 0; shift := shift t |} n)
    as [F Hm]; [done|done|].
  set (t1 := allocate L _ n) in *.
  assert (max_load t1 = load_of_groups n) as Hmax.
  { rewrite (fresh_load _ F), full_load_groups. by f_equal. }
  destruct (Nat.ltb_spec 0 (max_load t)) as [Halloc|Hun]; cbn [negb].
  - rewrite occupied_kvs_entries.
    destruct (reinsert_spec fuel (entries t) t1)
      as (t' & Hrun & Hwf' & Hb' & He' & Hm' & Hx' & Hl').
    + apply F.
    + apply F.
    + lia.
    + rewrite (fresh_entries _ F), app_nil_r. by apply (entries_keys_NoDup L hash_key).
    + rewrite (fresh_len _ F), <- (wf_len _ _ _ Hwf), Hmax. done.
    + exists t'. split; [done|]. split; [done|done| |lia| |].
      * by rewrite He', (fresh_entries _ F), app_nil_r.
      * rewrite Hx', Hmax, full_load_groups. f_equal. lia.
      * rewrite Hl', (fresh_len _ F). symmetry. apply (wf_len _ _ _ Hwf).
  - assert (len t = 0) as Hl0 by (pose proof (wf_load _ _ _ Hwf); lia).
    exists t1. split; [done|]. split; try apply F.
    + rewrite (fresh_entries _ F). pose proof (wf_len _ _ _ Hwf) as Hl.
      rewrite Hl0 in Hl. symmetry in Hl. by apply nil_length_inv in Hl as ->.
    + done.
    + rewrite Hl0. apply F.
Qed.

Lemma rehashed_map t t' n : wf t → rehashed t t' n → to_map t' = to_map t.
Proof.
  intros Hwf R. unfold OverflowInv.to_map.
  apply map_of_perm; [apply (entries_keys_NoDup L hash_key), R|apply R].
Qed.

(** The number of groups that [grow_and_rehash] and [ensure_capacity] ask for. *)
Definition grown_groups t : nat := if max_load t =? 0 then 1 else (mask t + 1) * 2.

Lemma grown_groups_ok t :
  wf t → log_groups t < MAX_LOG_GROUPS →
  group_count (grown_groups t) ∧ grown_groups t <= 2 * (mask t + 1) ∧
  len t < load_of_groups (grown_groups t).
Proof.
  intros Hwf Hlog. pose proof (wf_load _ _ _ Hwf). pose proof (wf_max_load _ _ _ Hwf) as Hmax.
  unfold grown_groups. destruct (Nat.eqb_spec (max_load t) 0) as [Hz|Hz].
  - pose proof (load_of_groups_pos 1). split_and!; [apply group_count_1|lia|lia].
  - pose proof (load_of_groups_double (mask t + 1)). rewrite full_load_groups in Hmax.
    split_and!; [apply group_count_double; [by apply wf_group_count|done]|lia|lia].
Qed.

Lemma grow_spec fuel t :
  wf t → log_groups t < MAX_LOG_GROUPS → 2 * (mask t + 1) <= fuel →
  ∃ t', grow_and_rehash L hash_key fuel t = Some t' ∧
    rehashed t t' (grown_groups t) ∧ len t' < max_load t'.
Proof.
  intros Hwf Hlog Hfuel. destruct (grown_groups_ok t Hwf Hlog) as (Hc & Hle & Hlt).
  destruct (rehash_spec fuel t (grown_groups t)) as (t' & Hrun & R); [done|done|lia|lia|].
  exists t'. split; [exact Hrun|]. split; [done|].
  rewrite (rh_len _ _ _ R), (rh_max_load _ _ _ R), full_load_groups, (rh_groups _ _ _ R). done.
Qed.

(** ** Lookup through [find_by_hash_eq] *)

Lemma key_eqb (k k' : K) : bool_decide (k' = k) = true ↔ k' = k.
Proof. apply bool_decide_eq_true. Qed.

Lemma find_eq_spec fuel t k :
  wf t → lookup_ends t k → mask t < fuel →
  ∃ r, find_by_hash_eq L fuel t (hash_key k) k = Some r ∧ find_result L t k r.
Proof. intros Hwf. apply (find_total L hash_key t k _ Hwf (key_eqb k)). Qed.

Lemma find_eq_ends fuel t k r :
  wf t → find_by_hash_eq L fuel t (hash_key k) k = Some r → lookup_ends t k.
Proof. intros Hwf. apply (find_ends L hash_key t k _ Hwf (key_eqb k)). Qed.

(** ** Insertion *)

(** The outcome of inserting [(k, v)], new or not. *)
Record upserted t t' (k : K) (v : V) (old : option V) : Prop := {
  up_wf : wf t';
  up_bound : probe_bound t → probe_bound t';
  up_map : to_map t' = <[k := v]> (to_map t);
  up_old : old = to_map t !! k;
}.

Lemma upserted_replace t gi si k v :
  wf t → find_result L t k (Some (gi, si)) →
  ∃ t' old, replace_value L t gi si v = (t', old) ∧ upserted t t' k v old.
Proof.
  intros Hwf [Hr [v0 He]].
  destruct (replace_spec L hash_key t gi si k v0 v) as (t' & Hrun & Hwf' & Hm & _ & _ & _ & Hb');
    try done.
  exists t', (Some v0). split; [done|]. split; [done|done|done|].
  symmetry. apply (to_map_lookup L hash_key); eauto.
Qed.

Lemma upserted_insert t t' k v p :
  wf t → to_map t !! k = None → inserted L hash_key t t' k v p →
  upserted t t' k v None.
Proof.
  intros Hwf Hk I. split; [apply I|by apply I| |done].
  by apply (inserted_map L hash_key t t' k v p).
Qed.

Lemma upserted_rehash t t1 t' n k v old :
  wf t → rehashed t t1 n → upserted t1 t' k v old → upserted t t' k v old.
Proof.
  intros Hwf R U. pose proof (rehashed_map t t1 n Hwf R) as Hm. destruct U.
  split; [done|intros _; by apply up_bound0, R|by rewrite <- Hm|by rewrite <- Hm].
Qed.

(** What an operation that may grow the table once needs. *)
Definition can_grow fuel t : Prop :=
  log_groups t < MAX_LOG_GROUPS ∧ 2 * (mask t + 1) <= fuel.

Lemma can_grow_fuel fuel t : can_grow fuel t → mask t < fuel.
Proof. unfold can_grow. lia. Qed.
Hint Resolve can_grow_fuel : table.

Lemma insert_new_spec fuel t k v :
  wf t → to_map t !! k = None → len t < max_load t → mask t < fuel →
  ∃ t', (do ' (t, _) <- insert_no_check_impl L fuel t (hash_key k) k v; Some (t, None)) =
          Some (t', @None V) ∧ upserted t t' k v None.
Proof.
  intros Hwf Hk Hlt Hfuel.
  destruct (insert_no_check_spec L hash_key fuel t k v) as (t' & p & -> & I); try done.
  exists t'. split; [done|]. by eapply upserted_insert.
Qed.

Lemma insert_grown_spec fuel t k v :
  wf t → to_map t !! k = None → can_grow fuel t →
  ∃ t', (do t <- grow_and_rehash L hash_key fuel t;
         do ' (t, _) <- insert_no_check_impl L fuel t (hash_key k) k v; Some (t, None)) =
          Some (t', @None V) ∧ upserted t t' k v None.
Proof.
  intros Hwf Hk [Hlog Hfuel].
  destruct (grow_spec fuel t Hwf Hlog Hfuel) as (t1 & -> & R & Hlt).
  destruct (insert_new_spec fuel t1 k v) as (t' & Hrun & U).
  - apply R.
  - by rewrite (rehashed_map t t1 _ Hwf R).
  - done.
  - destruct (grown_groups_ok t Hwf Hlog) as (_ & Hle & _). pose proof (rh_groups _ _ _ R). lia.
  - exists t'. split; [exact Hrun|]. by eapply upserted_rehash.
Qed.

Lemma insert_at_capacity_spec fuel t k v :
  wf t → lookup_ends t k → can_grow fuel t →
  ∃ t' old, insert_at_capacity L hash_key fuel t (hash_key k) k v = Some (t', old) ∧
    upserted t t' k v old.
Proof.
  intros Hwf Hb Hg. unfold insert_at_capacity.
  destruct (find_eq_spec fuel t k) as ([[gi si]|] & -> & Hr); [done|done|auto with table| |].
  - destruct (upserted_replace t gi si k v) as (t' & old & -> & U); eauto.
  - destruct (insert_grown_spec fuel t k v) as (t' & Hrun & U); eauto.
Qed.

Lemma insert_overflow_spec fuel t k v :
  wf t → lookup_ends t k → can_grow fuel t →
  ∃ t' old, insert_overflow L hash_key fuel t (hash_key k) k v = Some (t', old) ∧
    upserted t t' k v old.
Proof.
  intros Hwf Hb Hg. unfold insert_overflow.
  destruct (find_eq_spec fuel t k) as ([[gi si]|] & -> & Hr); [done|done|auto with table| |].
  - destruct (upserted_replace t gi si k v) as (t' & old & -> & U); eauto.
  - destruct (Nat.leb_spec (max_load t) (len t)).
    + destruct (insert_grown_spec fuel t k v) as (t' & Hrun & U); eauto.
    + destruct (insert_new_spec fuel t k v) as (t' & Hrun & U); eauto with table.
Qed.

(** The home group answers most lookups and insertions by itself. *)
Lemma home_scan_found t k si :
  wf t →
  scan_keys L t (group_index L t (hash_key k))
    (match_byte (Grp L) (ctrl_bytes (ctrl t)) (meta_ptr L (group_index L t (hash_key k)))
       (tag (Tag L) (hash_key k))) (λ k', bool_decide (k' = k)) = Some si →
  find_result L t k (Some (group_index L t (hash_key k), si)).
Proof. intros Hwf. apply (scan_found L hash_key t k _ Hwf (key_eqb k)), home_le. Qed.

Lemma home_scan_absent t k :
  wf t →
  scan_keys L t (group_index L t (hash_key k))
    (match_byte (Grp L) (ctrl_bytes (ctrl t)) (meta_ptr L (group_index L t (hash_key k)))
       (tag (Tag L) (hash_key k))) (λ k', bool_decide (k' = k)) = None →
  ovf t (group_index L t (hash_key k)) (chan k) = false →
  to_map t !! k = None.
Proof.
  intros Hwf Hs Ho. apply (missed_absent L hash_key t k 0); try done.
  - split; intros j Hj; lia.
  - eapply (scan_missed L hash_key t k _ Hwf (key_eqb k)); [apply home_le|exact Hs].
Qed.

Lemma insert_home_spec t k v si :
  wf t → len t < max_load t → to_map t !! k = None →
  lowest_set_bit (Mask (Grp L))
    (match_empty (Grp L) (ctrl_bytes (ctrl t)) (meta_ptr L (group_index L t (hash_key k)))) = Some si →
  inserted L hash_key t (put L t (hash_key k) (group_index L t (hash_key k)) si k v) k v
    (group_index L t (hash_key k), si).
Proof.
  intros Hwf Hlt Hk Hsi. apply find_empty_some in Hsi as [Hr Hempty]; [|done|apply home_le].
  apply (put_spec L hash_key); try done; [by apply (wf_empty_alloc L hash_key)|].
  exists 0. split; [done|]. intros j Hj. lia.
Qed.

Lemma insert_or_replace_allocated fuel t k v :
  wf t → lookup_ends t k → can_grow fuel t → max_load t ≠ 0 →
  ∃ t' old, insert_or_replace L hash_key fuel t k v = Some (t', old) ∧ upserted t t' k v old.
Proof.
  intros Hwf Hb Hg H0. unfold insert_or_replace.
  destruct (Nat.eqb_spec (max_load t) 0) as [|_]; [done|]. cbv zeta.
  destruct (Nat.leb_spec (max_load t) (len t)); [by apply insert_at_capacity_spec|].
  rewrite match_both. destruct (scan_keys L t _ _ _) as [si|] eqn:Hs.
  - apply home_scan_found in Hs; [|done].
    destruct (upserted_replace t _ si k v Hwf Hs) as (t' & old & -> & U). eauto.
  - destruct (lowest_set_bit _ _) as [si|] eqn:Hsi; [|by apply insert_overflow_spec].
    destruct (ovf t _ _) eqn:Ho; simpl; [by apply insert_overflow_spec|].
    eexists _, None. split; [reflexivity|].
    apply home_scan_absent in Hs; [|done|done].
    eapply upserted_insert; [done..|]. by apply insert_home_spec.
Qed.

Lemma unallocated_len t : wf t → max_load t = 0 → len t = 0 ∧ to_map t = ∅.
Proof.
  intros Hwf H0. pose proof (wf_load _ _ _ Hwf). assert (len t = 0) as Hl by lia.
  split; [done|]. apply map_size_empty_inv. by rewrite (size_to_map L hash_key).
Qed.

Lemma fresh_map t : fresh t → to_map t = ∅.
Proof. intros F. unfold OverflowInv.to_map. by rewrite (fresh_entries _ F). Qed.

(** An insertion ends if the lookup does; an unallocated table needs none. *)
Definition insert_ends t (k : K) : Prop := max_load t = 0 ∨ lookup_ends t k.

Lemma insert_or_replace_ok fuel t k v :
  wf t → insert_ends t k → can_grow fuel t →
  ∃ t' old, insert_or_replace L hash_key fuel t k v = Some (t', old) ∧ upserted t t' k v old.
Proof.
  intros Hwf Hends Hg. destruct (Nat.eqb_spec (max_load t) 0) as [H0|H0];
    [|destruct Hends; [done|by apply insert_or_replace_allocated]].
  destruct (unallocated_len t Hwf H0) as [Hl Hm].
  destruct (allocate_fresh t 1 group_count_1 Hl) as [F HF].
  set (t1 := allocate L t 1) in *.
  assert (max_load t1 ≠ 0) as H1.
  { rewrite (fresh_load _ F). pose proof (full_load_pos L t1). lia. }
  assert (insert_or_replace L hash_key fuel t k v = insert_or_replace L hash_key fuel t1 k v) as ->.
  { unfold insert_or_replace. apply Nat.eqb_eq in H0. rewrite H0.
    apply Nat.eqb_neq in H1. by rewrite H1. }
  destruct (insert_or_replace_allocated fuel t1 k v) as (t' & old & Hrun & U); try done.
  - apply F.
  - apply (probe_bound_ends L hash_key); apply F.
  - destruct Hg as [_ Hf]. split; [|lia]. unfold log_groups. rewrite HF.
    apply Nat.lt_0_succ.
  - exists t', old. split; [done|]. destruct U as [? ? Hmap Hold].
    pose proof (fresh_map t1 F) as Hm1. split; [done|intros _; apply up_bound0, F| |]; by rewrite Hm, <- Hm1.
Qed.

(** An insertion that returns had a lookup that ends. *)
Lemma insert_returns_ends fuel t k v r :
  wf t → insert_or_replace L hash_key fuel t k v = Some r → insert_ends t k.
Proof.
  intros Hwf. unfold insert_or_replace, insert_at_capacity, insert_overflow.
  destruct (Nat.eqb_spec (max_load t) 0) as [|_]; [by left|]. intros Hrun. right. revert Hrun. cbv zeta.
  assert (∀ f : option (nat * nat) → option (RawTable K V * option V),
    (do p <- find_by_hash_eq L fuel t (hash_key k) k; f p) = Some r → lookup_ends t k) as Hfind.
  { intros f. destruct (find_by_hash_eq _ _ _ _ _) as [p|] eqn:E; [|done]. intros _. by eapply find_eq_ends. }
  destruct (max_load t <=? len t); [apply Hfind|].
  rewrite match_both. destruct (scan_keys L t _ _ _) as [si|] eqn:Hs.
  - intros _. apply home_scan_found in Hs as (Hr & v' & He); [|done]. left. exists v'.
    apply (to_map_lookup L hash_key t k v' Hwf). eauto.
  - destruct (lowest_set_bit _ _) as [si|]; [|apply Hfind].
    destruct (ovf t _ _) eqn:Ho; simpl; [apply Hfind|]. intros _. right.
    exists (group_index L t (hash_key k)). split; [apply home_le|done].
Qed.
End ops.
