(* ===== verification/OverflowApi.v ===== *)
(** * The overflow-bit raw table: removal, capacity, cloning

    The rest of [RawTableApi] over the map that the table represents:
    [remove_by_hash], [clear], [groups_for_capacity], [with_capacity],
    [ensure_capacity], [reserve], [shrink_to_fit], [clone_table] and [Drop];
    and that every operation keeps the control bytes initialized. *)

From Stdlib Require Import ZArith Lia.
From S2P Require Import Prelude Probe Bitmask HashTag Group Layout.
From S2P Require Import OverflowTable OverflowInv OverflowWrite OverflowProbe OverflowOps.

Section api.
Context (L : GroupLayout) `{!LayoutOk L} {K V : Type} `{Countable K} (hash_key : K → Z).
Implicit Types t : RawTable K V.

Abbreviation tag_at := (tag_at L).
Abbreviation kv_at := (kv_at L).
Abbreviation ovf := (has_overflow_bit L).
Abbreviation in_range := (in_range L).
Abbreviation alloc_ok := (alloc_ok L).
Abbreviation wf := (wf L hash_key).
Abbreviation slot_entry := (slot_entry L).
Abbreviation all_slots := (all_slots L).
Abbreviation entries := (entries L).
Abbreviation to_map := (to_map L).
Abbreviation probe_bound := (probe_bound L).
Abbreviation lookup_ends := (lookup_ends L hash_key).
Abbreviation full_load := (full_load L).
Abbreviation fresh := (fresh L hash_key).

(** ** Removal *)

Lemma remove_by_hash_eq t h eq fuel gi si :
  find_by_hash_impl L fuel t h eq = Some (Some (gi, si)) →
  remove_by_hash L fuel t h eq = Some (erase_slot L t h gi si, kv_at t gi si).
Proof. intros Hf. unfold remove_by_hash. by rewrite Hf. Qed.

(** The outcome of removing [k]. *)
Record removed t t' (k : K) (r : option (K * V)) : Prop := {
  rm_wf : wf t';
  rm_bound : CHANNELED (Overflow L) = false → probe_bound t → probe_bound t';
  rm_map : to_map t' = delete k (to_map t);
  rm_result : r = pair k <$> to_map t !! k;
  rm_mask : mask t' = mask t;
}.

Lemma erase_removed t gi si k :
  wf t → find_result L t k (Some (gi, si)) →
  removed t (erase_slot L t (hash_key k) gi si) k (kv_at t gi si).
Proof.
  intros Hwf [Hr [v He]].
  pose proof (erase_spec L hash_key t gi si k v Hwf Hr He) as E.
  destruct (erased_map L hash_key _ _ _ _ Hwf E) as [Hm Hk].
  apply slot_entry_some in He as [_ Hkv].
  split; [apply E|apply E|done|by rewrite Hkv, Hk|apply E].
Qed.

Lemma remove_ok fuel t k :
  wf t → lookup_ends t k → mask t < fuel →
  ∃ t' r, remove_by_hash L fuel t (hash_key k) (λ k', bool_decide (k' = k)) = Some (t', r) ∧
    removed t t' k r.
Proof.
  intros Hwf Hb Hfuel.
  destruct (find_eq_spec L hash_key fuel t k Hwf Hb Hfuel) as ([[gi si]|] & Hf & Hr).
  - eexists _, _. split; [by apply remove_by_hash_eq|]. by apply erase_removed.
  - exists t, None. unfold remove_by_hash. unfold find_by_hash_eq in Hf. rewrite Hf.
    simpl in Hr. split; [done|]. split; [done|done|by rewrite delete_id|by rewrite Hr|done].
Qed.

(** ** Clearing *)

Lemma alloc_ok_of_load t : wf t → max_load t ≠ 0 → alloc_ok t.
Proof. intros Hwf Hne. destruct (wf_ctrl _ _ _ Hwf) as [(_ & _ & Hm)|]; [lia|done]. Qed.

Lemma clear_ok t :
  wf t → max_load t ≠ 0 → fresh (clear L t).1 ∧ (clear L t).2 = entries t.
Proof.
  intros Hwf Hne. pose proof (alloc_ok_of_load t Hwf Hne) as (b & Hc & Hb & Hs).
  unfold clear. destruct (Nat.eqb_spec (max_load t) 0) as [|_]; [done|]. cbv zeta.
  split; [|apply (occupied_kvs_entries L)]. cbn [fst].
  assert (S (mask t) = mask t + 1) as Hm by lia.
  assert (overflow_bytes_to_zero (Overflow L) (mask t + 1) = extra_alloc_bytes (Overflow L) (S (mask t)))
    as Hz by (rewrite <- Hm; apply ov_zeroed).
  apply fresh_intro; try done.
  - apply (wf_pow2 _ _ _ Hwf).
  - apply (wf_log _ _ _ Hwf).
  - apply (wf_shift _ _ _ Hwf).
  - eexists. rewrite Hc. split; [reflexivity|]. cbn [bytes slots]. split; [|done].
    change (mask (with_max_load _ _)) with (mask t).
    rewrite length_zero_bytes; [done|]. rewrite Hb, Hz. unfold ctrl_size. lia.
  - cbn [mask with_max_load with_len with_ctrl]. intros i Hi. rewrite Hc.
    cbn [ctrl with_max_load with_len with_ctrl write_bytes_with ctrl_bytes bytes].
    apply byte_at_zeroed. rewrite Hz. unfold ctrl_size in Hi. lia.
Qed.

(** ** Capacity arithmetic *)

(** The capacity computation does not wrap. *)
Definition capacity_ok (c : Z) : Prop :=
  (0 <= c ∧ c * Z.of_nat (LOAD_FACTOR_DEN L) + Z.of_nat (LOAD_FACTOR_NUM L)
     + Z.of_nat (GROUP_SIZE L) < 2 ^ 62)%Z.

(** Enough groups for the capacity, and no more than needed. *)
Lemma groups_for_capacity_spec (c : Z) :
  capacity_ok c →
  let n := Z.to_nat (groups_for_capacity L c) in
  n = 2 ^ Nat.log2 n ∧ (c <= Z.of_nat (load_of_groups L n))%Z ∧
  (n ≠ 1 → (Z.of_nat (load_of_groups L (n / 2)) < c)%Z).
Proof.
  intros [Hc Hb]. pose proof (layout_load (L := L)). pose proof (layout_gs (L := L)).
  apply (groups_arith (LOAD_FACTOR_NUM L) (LOAD_FACTOR_DEN L) (GROUP_SIZE L)); lia.
Qed.

(** ** Reserving and shrinking *)

(** The table holds the same map as before. *)
Record preserved t t' : Prop := {
  pr_wf : wf t';
  pr_bound : probe_bound t → probe_bound t';
  pr_map : to_map t' = to_map t;
  pr_len : len t' = len t;
}.

Lemma preserved_refl t : wf t → preserved t t.
Proof. done. Qed.

Lemma preserved_rehash t t' n : wf t → rehashed L hash_key t t' n → preserved t t'.
Proof.
  intros Hwf R. split; [apply R|intros _; apply R| |apply R].
  by apply (rehashed_map L hash_key t t' n).
Qed.

Lemma preserved_allocate t n :
  wf t → max_load t = 0 → group_count n → preserved t (allocate L t n).
Proof.
  intros Hwf Hz Hn. destruct (unallocated_len L hash_key t Hwf Hz) as [Hl Hm].
  destruct (allocate_fresh L hash_key t n Hn Hl) as [F _].
  split; [apply F|intros _; apply F| |done]. by rewrite Hm, (fresh_map L hash_key _ F).
Qed.

Lemma allocate_load t n :
  group_count n → max_load (allocate L t n) = load_of_groups L n.
Proof. done. Qed.

Lemma ensure_capacity_ok fuel t :
  wf t → can_grow fuel t →
  ∃ t', ensure_capacity L hash_key fuel t = Some t' ∧ preserved t t' ∧ len t' < max_load t'.
Proof.
  intros Hwf [Hlog Hfuel]. unfold ensure_capacity.
  destruct (Nat.leb_spec (max_load t) (len t)); [|by exists t].
  destruct (grow_spec L hash_key fuel t Hwf Hlog Hfuel) as (t' & Hrun & R & Hlt).
  exists t'. split; [exact Hrun|]. split; [by eapply preserved_rehash|done].
Qed.

(** [reserve] keeps the map; unless the anti-drift adjustment has lowered the
    load of a table that is large enough, there is room for [additional]
    more entries afterwards. *)
Lemma reserve_ok fuel t (additional : Z) :
  let needed := (Z.of_nat (len t) + additional)%Z in
  wf t → (0 <= additional)%Z → capacity_ok needed →
  group_count (Z.to_nat (groups_for_capacity L needed)) →
  Z.to_nat (groups_for_capacity L needed) <= fuel →
  ∃ t', reserve L hash_key fuel t additional = Some (inl t') ∧ preserved t t' ∧
    ((needed <= Z.of_nat (max_load t'))%Z ∨ (t' = t ∧ max_load t < full_load t)).
Proof.
  intros needed Hwf Hadd Hcap Hgc Hfuel.
  destruct (groups_for_capacity_spec needed Hcap) as (_ & Hload & _).
  set (n := Z.to_nat (groups_for_capacity L needed)) in *.
  unfold reserve. fold needed n. pose proof (wf_load _ _ _ Hwf) as Hll.
  destruct Hcap as [_ Hcap]. pose proof (layout_load (L := L)) as [_ Hden].
  destruct (Z.leb_spec (2 ^ 64) needed) as [Hbig|_]; [nia|].
  destruct (Nat.eqb_spec (max_load t) 0) as [Hz|Hz].
  - destruct (Z.ltb_spec 0 additional) as [Hp|Hp].
    + eexists. split; [reflexivity|]. split; [by apply preserved_allocate|]. by left.
    + exists t. split; [done|]. split; [done|]. left. lia.
  - destruct (Z.ltb_spec (Z.of_nat (max_load t)) needed) as [Hlt|Hge].
    + destruct (Nat.ltb_spec (mask t + 1) n) as [Hgrow|Hno].
      * destruct (rehash_spec L hash_key fuel t n Hwf Hgc Hfuel) as (t' & -> & R); [lia|].
        exists t'. split; [done|]. split; [by eapply preserved_rehash|]. left.
        rewrite (rh_max_load _ _ _ _ _ R), full_load_groups, (rh_groups _ _ _ _ _ R). done.
      * exists t. split; [done|]. split; [done|]. right. split; [done|].
        pose proof (load_of_groups_mono L _ _ Hno). rewrite full_load_groups. lia.
    + exists t. split; [done|]. split; [done|]. by left.
Qed.

Lemma new_wf :
  wf (@new K V) ∧ probe_bound (@new K V) ∧ to_map (@new K V) = ∅.
Proof.
  assert (unallocated (@new K V)) as Hu by done.
  assert (∀ p, slot_entry (@new K V) p = None) as Hse.
  { intros [g s]. unfold OverflowInv.slot_entry. simpl.
    by rewrite (tag_at_unallocated L) by done. }
  assert (entries (@new K V) = []) as He by (by apply omap_none).
  split_and!.
  - split; try done; [apply Nat.le_0_l|by left| | |by rewrite He|apply Nat.le_0_l].
    + intros g s Hr Ht. by rewrite (tag_at_unallocated L) in Ht.
    + intros p q k v v' _ _ Hp. by rewrite Hse in Hp.
  - unfold OverflowInv.probe_bound, loose_slots. rewrite (countb_ext _ (λ _, false)).
    + assert (countb (λ _, false) (all_slots (@new K V)) = 0) as ->; [|apply Nat.le_0_l].
      clear. induction (all_slots (@new K V)); [done|]. by rewrite countb_cons.
    + intros [g s] _. simpl. apply andb_false_iff. left. apply not_true_is_false.
      intros (b & _ & Hb)%existsb_exists. by rewrite (overflow_unallocated L) in Hb.
  - unfold OverflowInv.to_map. by rewrite He.
Qed.

Lemma shrink_to_fit_ok fuel t :
  wf t → capacity_ok (Z.of_nat (len t)) → mask t < fuel →
  ∃ t', shrink_to_fit L hash_key fuel t = Some t' ∧ preserved t t' ∧ mask t' <= mask t.
Proof.
  intros Hwf Hcap Hfuel. unfold shrink_to_fit.
  destruct (Nat.eqb_spec (len t) 0) as [Hz|Hz].
  - destruct new_wf as (Hw & Hbn & Hm).
    exists new. split; [done|]. split; [|cbn; lia]. split; [done|intros _; exact Hbn| |by rewrite Hz].
    rewrite Hm. symmetry. apply map_size_empty_inv. by rewrite (size_to_map L hash_key).
  - destruct (groups_for_capacity_spec _ Hcap) as (Hp & Hload & _).
    set (n := Z.to_nat _) in *.
    destruct (Nat.ltb_spec n (mask t + 1)) as [Hlt|Hge]; [|by exists t].
    assert (group_count n) as Hn.
    { split; [done|]. pose proof (wf_log _ _ _ Hwf) as Hl. unfold log_groups in Hl.
      etransitivity; [|exact Hl]. apply Nat.log2_le_mono. lia. }
    destruct (rehash_spec L hash_key fuel t n Hwf Hn) as (t' & -> & R); [lia|lia|].
    exists t'. split; [done|]. split; [by eapply preserved_rehash|].
    pose proof (rh_groups _ _ _ _ _ R). lia.
Qed.

(** ** Cloning *)

Definition clone_slots (src dst : RawTable K V) (ps : list (nat * nat)) : RawTable K V :=
  fold_left (λ nt '(gi, si), clone_slot L src nt gi si) ps dst.

Lemma clone_slots_spec src dst ps :
  alloc_ok dst → Forall (λ p, in_range dst p.1 p.2) ps →
  let t' := clone_slots src dst ps in
  alloc_ok t' ∧ mask t' = mask dst ∧ shift t' = shift dst ∧ max_load t' = max_load dst ∧
  ctrl_bytes (ctrl t') = ctrl_bytes (ctrl dst) ∧
  ∀ g s, in_range dst g s →
    kv_at t' g s = if decide ((g, s) ∈ ps)
                   then match kv_at src g s with Some kv => Some kv | None => kv_at dst g s end
                   else kv_at dst g s.
Proof.
  revert dst. induction ps as [|[gi si] ps IH]; intros dst Ha Hall; simpl.
  - split_and!; try done.
  - apply Forall_cons in Hall as [Hr Hall]. simpl in Hr.
    assert (∃ dst', clone_slot L src dst gi si = dst' ∧ alloc_ok dst' ∧ mask dst' = mask dst ∧
      shift dst' = shift dst ∧ max_load dst' = max_load dst ∧
      ctrl_bytes (ctrl dst') = ctrl_bytes (ctrl dst) ∧
      ∀ g s, in_range dst g s → kv_at dst' g s =
        if decide ((g, s) = (gi, si))
        then match kv_at src g s with Some kv => Some kv | None => kv_at dst g s end
        else kv_at dst g s) as (dst' & Hd & Ha' & Hm & Hs & Hx & Hb & Hkv).
    { eexists. split; [reflexivity|]. unfold clone_slot.
      destruct (kv_at src gi si) as [kv|] eqn:Hsrc; split_and!; try done.
      - by apply (write_kv_alloc L dst gi si).
      - unfold write_kv. simpl. by destruct (ctrl dst).
      - intros g s Hgs. rewrite (write_kv_kv L dst gi si) by done.
        destruct (decide ((g, s) = (gi, si))) as [[= -> ->]|]; [by rewrite Hsrc|done].
      - intros g s Hgs. destruct (decide ((g, s) = (gi, si))) as [[= -> ->]|]; [by rewrite Hsrc|done]. }
    rewrite Hd. destruct (IH dst') as (HA & HM & HS & HX & HB & HK).
    + done.
    + eapply Forall_impl; [exact Hall|]. intros p [? ?]. split; [by rewrite Hm|done].
    + unfold clone_slots in *. split_and!; try done; try congruence.
      intros g s Hgs. rewrite HK by (split; [rewrite Hm; apply Hgs|apply Hgs]).
      rewrite !Hkv by done.
      destruct (decide ((g, s) ∈ ps)), (decide ((g, s) = (gi, si))),
        (decide ((g, s) ∈ (gi, si) :: ps)) as [Hin|Hnin]; try done;
        try (by destruct (kv_at src g s)); exfalso;
        rewrite elem_of_cons in *; naive_solver.
Qed.

Lemma occupied_slots_spec t g s :
  (g, s) ∈ occupied_slots L t ↔ in_range t g s ∧ tag_at t g s ≠ EMPTY.
Proof.
  unfold occupied_slots. rewrite list_elem_of_bind. split.
  - intros (gi & (si & Heq & Hs)%list_elem_of_fmap & Hg%elem_of_seq). simplify_eq.
    rewrite (bits_repr _ _ (GROUP_SIZE L) (λ s, negb (tag_at t gi s =? EMPTY)%Z)) in Hs;
      [|apply match_non_empty_repr|apply group_width].
    apply list_elem_of_In, List.filter_In in Hs as [Hs Ht]. apply in_seq in Hs.
    apply negb_true_iff, Z.eqb_neq in Ht. split; [|done]. split; lia.
  - intros [[Hg Hs] Ht]. exists g. split; [|apply elem_of_seq; lia].
    apply list_elem_of_fmap. exists s. split; [done|].
    rewrite (bits_repr _ _ (GROUP_SIZE L) (λ s, negb (tag_at t g s =? EMPTY)%Z));
      [|apply match_non_empty_repr|apply group_width].
    apply list_elem_of_In, List.filter_In. split; [apply in_seq; lia|].
    by apply negb_true_iff, Z.eqb_neq.
Qed.

Lemma ctrl_bytes_length t :
  alloc_ok t → length (ctrl_bytes (ctrl t)) = ctrl_size L (S (mask t)).
Proof. intros (b & -> & Hb & _). done. Qed.

Lemma clone_ok t :
  wf t → max_load t ≠ 0 →
  wf (clone_table L t) ∧ entries (clone_table L t) = entries t ∧
  (probe_bound t → probe_bound (clone_table L t)).
Proof.
  intros Hwf Hne. pose proof (alloc_ok_of_load t Hwf Hne) as Ha.
  unfold clone_table. destruct (Nat.eqb_spec (max_load t) 0) as [|_]; [done|]. cbv zeta.
  set (n := mask t + 1). set (new_table := allocate L new n).
  set (copied := with_ctrl new_table _).
  assert (mask copied = mask t) as Hmask by (unfold copied, new_table, n; cbn; lia).
  assert (bytes_to_copy_total L n = ctrl_size L (S (mask t))) as Hsize.
  { unfold bytes_to_copy_total, ctrl_size, n. rewrite ov_copied. by rewrite Nat.add_1_r. }
  assert (ctrl_bytes (ctrl copied) = ctrl_bytes (ctrl t)) as Hbytes.
  { unfold copied, new_table. cbn [with_ctrl ctrl allocate write_bytes_with ctrl_bytes bytes].
    rewrite take_ge, drop_ge; [apply app_nil_r|..]; rewrite Hsize; [|by rewrite ctrl_bytes_length].
    rewrite length_zero_bytes; rewrite length_replicate; unfold n; rewrite Nat.add_1_r; [done|].
    unfold ctrl_size. by rewrite ov_zeroed. }
  assert (alloc_ok copied) as Hcopied.
  { eexists. split; [reflexivity|]. rewrite Hmask. cbn [bytes slots]. split.
    - change (take _ _ ++ drop _ _) with (ctrl_bytes (ctrl copied)).
      rewrite Hbytes. by apply ctrl_bytes_length.
    - rewrite length_replicate. unfold n. by rewrite Nat.add_1_r. }
  destruct (clone_slots_spec t copied (occupied_slots L t)) as (Ha' & Hm' & Hs' & Hx' & Hb' & Hkv').
  { done. }
  { apply Forall_forall. intros [g s] [[? ?] _]%occupied_slots_spec. split; [by rewrite Hmask|done]. }
  fold (clone_slots t copied (occupied_slots L t)). set (t' := clone_slots _ _ _) in *.
  rewrite Hmask in Hm'. rewrite Hbytes in Hb'.
  assert (∀ g c, ovf t' g c = ovf t g c) as Hovf.
  { intros g c. unfold has_overflow_bit. by rewrite Hb', Hm'. }
  assert (∀ g s, tag_at t' g s = tag_at t g s) as Htag.
  { intros g s. unfold OverflowInv.tag_at. by rewrite Hb'. }
  destruct (wf_same_slots L hash_key t (with_max_load (with_len t' (len t)) (max_load t))) as [Hw He];
    try done.
  - rewrite (wf_shift _ _ _ Hwf). exact Hs'.
  - intros g s Hr. split; [apply Htag|]. intros Ht. etransitivity; [apply Hkv'|].
    + split; [rewrite Hmask; apply Hr|apply Hr].
    + rewrite decide_True by (by apply occupied_slots_spec).
      destruct (wf_slot _ _ _ Hwf g s Hr Ht) as (k & v & -> & _). done.
  - intros g c _ Ho. etransitivity; [apply Hovf|done].
  - apply (wf_load _ _ _ Hwf).
  - apply (wf_max_load _ _ _ Hwf).
  - split_and!; [done|done|]. intros Hb. unfold OverflowInv.probe_bound in *.
    rewrite (loose_slots_ext L t); [|done|].
    + unfold OverflowInv.full_load. cbn [mask with_max_load with_len]. by rewrite Hm'.
    + intros g s Hr. f_equal; [|by f_equal; apply Htag].
      apply overflowed_ext. intros c. apply Hovf.
Qed.

(** ** Dropping *)

Lemma drop_ok t :
  wf t → (drop_table L t).1 = entries t ∧
  (max_load t ≠ 0 → ∃ b, ctrl t = Alloc b ∧ (drop_table L t).2 = Some b).
Proof.
  intros Hwf. unfold drop_table, deallocate.
  destruct (Nat.eqb_spec (max_load t) 0) as [Hz|Hne].
  - split; [|done]. destruct (unallocated_len L hash_key t Hwf Hz) as [Hl _].
    rewrite (wf_len _ _ _ Hwf) in Hl. symmetry. by apply nil_length_inv.
  - split; [apply (occupied_kvs_entries L)|]. intros _.
    destruct (alloc_ok_of_load t Hwf Hne) as (b & Hc & _). exists b. by rewrite Hc.
Qed.
End api.

(** ** The control bytes

    Fresh memory holds [uninit]; the tables only ever show initialized bytes.
    This needs no invariant: it holds of every operation by itself. *)

Section control.
Context (L : GroupLayout) `{!LayoutOk L} {K V : Type} `{EqDecision K} (hash_key : K → Z).
Context (fuel : nat).
Implicit Types t : RawTable K V.

Definition is_byte (b : Z) : Prop := (0 <= b < 256)%Z.

Definition ctrl_bytes_ok t : Prop := Forall is_byte (ctrl_bytes (ctrl t)).

Lemma is_byte_at l i : Forall is_byte l → is_byte (byte_at l i).
Proof.
  intros Hl. unfold byte_at. destruct (l !! i) as [b|] eqn:E; [|by unfold is_byte].
  by apply (Forall_lookup_1 _ _ _ _ Hl E).
Qed.

Lemma zero_bytes_ok n l : Forall is_byte (drop n l) → Forall is_byte (zero_bytes n l).
Proof. intros. unfold zero_bytes. apply Forall_app_2; [|done]. by apply Forall_replicate. Qed.

(** A write of a byte, or of zeros, through [ctrl]. *)
Lemma write_bytes_ok t (f : list Z → list Z) :
  (∀ l, Forall is_byte l → Forall is_byte (f l)) →
  ctrl_bytes_ok t → ctrl_bytes_ok (with_ctrl t (write_bytes_with (ctrl t) f)).
Proof. intros Hf. unfold ctrl_bytes_ok. destruct t as [? [|b] ? ? ?]; simpl; auto. Qed.

Lemma write_meta_bytes t gi si b :
  is_byte b → ctrl_bytes_ok t → ctrl_bytes_ok (write_meta L t gi si b).
Proof. intros Hb. apply write_bytes_ok. intros l Hl. by apply Forall_insert. Qed.

Lemma set_overflow_bytes t gi c :
  single_bit c → ctrl_bytes_ok t → ctrl_bytes_ok (set_overflow_bit L t gi c).
Proof.
  intros Hc. apply write_bytes_ok. intros l Hl. apply Forall_insert; [done|].
  apply ov_byte; [done|]. by apply is_byte_at.
Qed.

Lemma write_kv_control t gi si kv : ctrl_bytes_ok t → ctrl_bytes_ok (write_kv L t gi si kv).
Proof. unfold ctrl_bytes_ok. destruct t as [? [|b] ? ? ?]; done. Qed.

Lemma put_bytes t h gi si k v : ctrl_bytes_ok t → ctrl_bytes_ok (put L t h gi si k v).
Proof.
  intros Ht. apply (write_kv_control _ gi si (k, v)), write_meta_bytes; [|done].
  pose proof (tag_range h (T := Tag L)). unfold is_byte. lia.
Qed.

Lemma replace_value_bytes t gi si v : ctrl_bytes_ok t → ctrl_bytes_ok (replace_value L t gi si v).1.
Proof.
  intros Ht. unfold replace_value. destruct (kv_at L t gi si) as [[k w]|]; [|done].
  by apply write_kv_control.
Qed.

Lemma sentinel_bytes_ok : Forall is_byte sentinel_bytes.
Proof. by apply Forall_replicate. Qed.

(** The whole fresh control region is zeroed, the overflow bytes included. *)
Lemma allocate_bytes t n : ctrl_bytes_ok (allocate L t n).
Proof.
  unfold ctrl_bytes_ok, allocate. cbn [ctrl ctrl_bytes bytes]. apply zero_bytes_ok.
  rewrite drop_ge; [done|]. rewrite length_replicate. unfold ctrl_size. by rewrite ov_zeroed.
Qed.

Lemma insert_no_check_bytes t h k v t' p :
  ctrl_bytes_ok t → insert_no_check_impl L fuel t h k v = Some (t', p) → ctrl_bytes_ok t'.
Proof.
  intros Ht Hrun. change (ctrl_bytes_ok (t', p).1).
  refine (probe_loop_partial _ (group_index L t h) _ (λ _, ctrl_bytes_ok) (λ r, ctrl_bytes_ok r.1)
    fuel 0 t (t', p) Ht _ Hrun).
  intros i s _ Hs. destruct (lowest_set_bit _ _).
  - by apply put_bytes.
  - apply set_overflow_bytes; [apply channel_single_bit|done].
Qed.

Lemma set_full_mask_bytes n t c m p gi :
  single_bit c → ctrl_bytes_ok t → ctrl_bytes_ok (set_full_mask L n t c m p gi).
Proof.
  intros Hc. revert t m p gi. induction n as [|n IH]; intros t m p gi Ht; [done|]. simpl.
  destruct (m =? 0)%Z; [done|]. apply IH.
  destruct (negb _); [by apply set_overflow_bytes|done].
Qed.

Lemma insert_at_bytes t h gi si k v m :
  ctrl_bytes_ok t → ctrl_bytes_ok (insert_at_impl L t h gi si k v m).
Proof.
  intros Ht. apply put_bytes. destruct (negb _); [|done].
  apply set_full_mask_bytes; [apply channel_single_bit|done].
Qed.

Lemma reinsert_bytes kvs t t' :
  ctrl_bytes_ok t → reinsert L hash_key fuel kvs t = Some t' → ctrl_bytes_ok t'.
Proof.
  revert t. induction kvs as [|[k v] kvs IH]; intros t Ht; simpl; [by intros [= <-]|].
  destruct (insert_no_check_impl _ _ _ _ _ _) as [[t1 p]|] eqn:E; [|done]. simpl.
  apply IH. by eapply insert_no_check_bytes.
Qed.

Lemma rehash_bytes t n t' : rehash_with_impl L hash_key fuel t n = Some t' → ctrl_bytes_ok t'.
Proof.
  unfold rehash_with_impl. destruct (negb _).
  - intros [= <-]. apply allocate_bytes.
  - apply reinsert_bytes, allocate_bytes.
Qed.

Lemma replaced_bytes t gi si v t' old :
  ctrl_bytes_ok t → Some (replace_value L t gi si v) = Some (t', old) → ctrl_bytes_ok t'.
Proof. intros Ht [= Hr]. pose proof (replace_value_bytes t gi si v Ht). by rewrite Hr in *. Qed.

(** Replace a found key, or insert into what [grow] made of the table. *)
Lemma insert_slow_bytes t h k v grow t' old :
  ctrl_bytes_ok t → (∀ t1, grow = Some t1 → ctrl_bytes_ok t1) →
  (do r <- find_by_hash_eq L fuel t h k;
   match r with
   | Some (gi, si) => Some (replace_value L t gi si v)
   | None => do t1 <- grow; do ' (t2, _) <- insert_no_check_impl L fuel t1 h k v; Some (t2, None)
   end) = Some (t', old) → ctrl_bytes_ok t'.
Proof.
  intros Ht Hg. destruct (find_by_hash_eq _ _ _ _ _) as [[[gi si]|]|]; [| |done].
  - by apply replaced_bytes.
  - cbn. destruct grow as [t1|]; [|done]. cbn.
    destruct (insert_no_check_impl _ _ _ _ _ _) as [[t2 p]|] eqn:E; [|done].
    intros [= <- _]. eapply insert_no_check_bytes; [|done]. by apply Hg.
Qed.

Lemma insert_bytes t k v t' old :
  ctrl_bytes_ok t → insert_or_replace L hash_key fuel t k v = Some (t', old) → ctrl_bytes_ok t'.
Proof.
  intros Ht. unfold insert_or_replace, insert_at_capacity, insert_overflow.
  set (t0 := if max_load t =? 0 then _ else _).
  assert (ctrl_bytes_ok t0) as H0.
  { subst t0. destruct (_ =? _); [apply allocate_bytes|done]. }
  clearbody t0. set (h := hash_key k).
  destruct (max_load t0 <=? len t0).
  { apply insert_slow_bytes; [done|]. intros t1. apply rehash_bytes. }
  destruct (match_byte_and_empty _ _ _ _) as [matches empties].
  destruct (scan_keys _ _ _ _ _) as [si|]; [by apply replaced_bytes|].
  destruct (lowest_set_bit _ _) as [si|]; [destruct (negb _)|].
  - intros [= <- _]. by apply put_bytes.
  - apply (insert_slow_bytes _ _ _ _ (Some t0)); [done|]. by intros t1 [= <-].
  - apply (insert_slow_bytes _ _ _ _ (Some t0)); [done|]. by intros t1 [= <-].
Qed.

Lemma remove_bytes t h eq t' r :
  ctrl_bytes_ok t → remove_by_hash L fuel t h eq = Some (t', r) → ctrl_bytes_ok t'.
Proof.
  intros Ht. unfold remove_by_hash. destruct (find_by_hash_impl _ _ _ _ _) as [[[gi si]|]|]; [| |done].
  - simpl. intros [= <- _]. pose proof (write_meta_bytes t gi si EMPTY) as Hw.
    case_match; apply Hw; done.
  - by intros [= <- _].
Qed.

Lemma erase_bytes t h gi si : ctrl_bytes_ok t → ctrl_bytes_ok (erase_slot L t h gi si).
Proof.
  intros Ht. unfold erase_slot. pose proof (write_meta_bytes t gi si EMPTY) as Hw.
  case_match; apply Hw; done.
Qed.

Lemma clear_bytes t : ctrl_bytes_ok t → ctrl_bytes_ok (clear L t).1.
Proof.
  intros Ht. unfold clear. destruct (_ =? _); [done|].
  apply write_bytes_ok; [|done]. intros l Hl. by apply zero_bytes_ok, Forall_drop.
Qed.

Lemma clone_bytes t : ctrl_bytes_ok t → ctrl_bytes_ok (clone_table L t).
Proof.
  intros Ht. unfold clone_table. destruct (_ =? _); [apply sentinel_bytes_ok|].
  set (new_table := with_ctrl _ _). assert (ctrl_bytes_ok new_table) as Hn.
  { unfold ctrl_bytes_ok. apply Forall_app_2; [by apply Forall_take|].
    apply Forall_drop, (allocate_bytes new). }
  clearbody new_table. change (ctrl_bytes_ok (clone_slots L t new_table (occupied_slots L t))).
  generalize (occupied_slots L t). intros ps. revert new_table Hn. induction ps as [|[gi si] ps IH].
  - done.
  - intros nt Hn. apply IH. unfold clone_slot. destruct (kv_at L t gi si); [by apply write_kv_control|done].
Qed.
End control.
