(* ===== verification/OverflowEntry.v ===== *)
(** * The overflow-bit raw table: the entry protocol

    [find_for_entry] locates a key or a slot for it in one probe; [insert_at]
    fills the slot later, first setting the overflow bits recorded in
    [full_mask].  The pair is shown to insert exactly as [insert_no_check]. *)

From Stdlib Require Import ZArith Lia.
From S2P Require Import Prelude Probe Bitmask HashTag Group Layout OverflowTable OverflowInv OverflowWrite OverflowProbe OverflowOps OverflowApi.

Section entry.
Context (L : GroupLayout) `{!LayoutOk L} {K V : Type} `{Countable K} (hash_key : K → Z).
Implicit Types t : RawTable K V.

Abbreviation tag_at := (tag_at L).
Abbreviation ovf := (has_overflow_bit L).
Abbreviation in_range := (in_range L).
Abbreviation alloc_ok := (alloc_ok L).
Abbreviation wf := (wf L hash_key).
Abbreviation entries := (entries L).
Abbreviation to_map := (to_map L).
Abbreviation probe_bound := (probe_bound L).
Abbreviation lookup_ends := (lookup_ends L hash_key).
Abbreviation chan := (chan L hash_key).
Abbreviation pos := (pos L hash_key).
Abbreviation missed := (missed L hash_key).
Abbreviation group_full := (group_full L).

(** ** What a vacant slot promises *)

(** The groups named by [full_mask] were full when the probe passed them. *)
Definition full_mask_ok t (k : K) (m : Z) : Prop :=
  (0 <= m)%Z ∧ ∀ j : nat, Z.testbit m (Z.of_nat j) = true → group_full t (pos t k j).

(** A slot in which [k] may be inserted. *)
Record vacant t (k : K) (gi si : nat) (m : Z) : Prop := {
  vc_range : in_range t gi si;
  vc_empty : tag_at t gi si = EMPTY;
  vc_reach : reach L hash_key t k gi;
  vc_mask : full_mask_ok t k m;
}.

(** ** The probe of [find_or_locate_overflow] *)

Definition locate_result t (k : K) (r : FindOrLocateResult) : Prop :=
  match r with
  | Found gi si => find_result L t k (Some (gi, si))
  | InsertSlot gi si m => to_map t !! k = None ∧ vacant t k gi si m
  | NotFound => to_map t !! k = None
  end.

(** State of the probe before step [i]. *)
Definition locating t (k : K) (i : nat) (s : option (nat * nat) * Z) : Prop :=
  missed t k i ∧ full_mask_ok t k s.2 ∧
  match s.1 with
  | Some (gi, si) => in_range t gi si ∧ tag_at t gi si = EMPTY ∧ reach L hash_key t k gi
  | None => True
  end.

Lemma full_mask_ok_0 t k : full_mask_ok t k 0.
Proof. split; [lia|]. intros j Hj. by rewrite Z.testbit_0_l in Hj. Qed.

Lemma shl_u8_bit i : i < 8 → shl_u8 1 (Z.of_nat i) = (2 ^ Z.of_nat i)%Z.
Proof. intros Hi. do 8 (destruct i as [|i]; [reflexivity|]). lia. Qed.

Lemma full_mask_ok_set t k m i :
  full_mask_ok t k m → group_full t (pos t k i) → i < 8 →
  full_mask_ok t k (Z.lor m (shl_u8 1 (Z.of_nat i))).
Proof.
  intros [Hm Hb] Hfull Hi. rewrite shl_u8_bit by done.
  split; [apply Z.lor_nonneg; split; [done|lia]|].
  intros j. rewrite Z.lor_spec, Z.pow2_bits_eqb by lia. intros [Hj|Hj]%orb_true_iff; [by apply Hb|].
  apply Z.eqb_eq in Hj. by assert (i = j) as -> by lia.
Qed.

Lemma no_empty_full t g :
  g <= mask t →
  lowest_set_bit (Mask (Grp L)) (match_empty (Grp L) (ctrl_bytes (ctrl t)) (meta_ptr L g)) = None →
  group_full t g.
Proof. intros Hg Hn s Hs. by eapply find_empty_none. Qed.

Lemma probe_reach t k i : missed t k i → reach L hash_key t k (pos t k i).
Proof. intros [Hc _]. by exists i. Qed.

Section locate.
Context t (k : K) (Hwf : wf t).

Abbreviation eqk := (λ k', bool_decide (k' = k)).

(** One step of the probe, in terms of its state. *)
Lemma locate_step i first_empty full_mask :
  locating t k i (first_empty, full_mask) →
  let gi := pos t k i in
  let first_empty' :=
    match first_empty with
    | Some _ => (first_empty, full_mask)
    | None =>
        match lowest_set_bit (Mask (Grp L)) (match_empty (Grp L) (ctrl_bytes (ctrl t)) (meta_ptr L gi)) with
        | Some si => (Some (gi, si), full_mask)
        | None => (None, if i <? 8 then Z.lor full_mask (shl_u8 1 (Z.of_nat i)) else full_mask)
        end
    end in
  group_without L t k gi →
  full_mask_ok t k first_empty'.2 ∧
  match first_empty'.1 with
  | Some (g, s) => in_range t g s ∧ tag_at t g s = EMPTY ∧ reach L hash_key t k g
  | None => True
  end.
Proof using Hwf LayoutOk0.
  intros (Hmiss & Hmask & Hfirst). cbv zeta. intros Hw. simpl in Hmask, Hfirst.
  pose proof (pos_le L hash_key t k i Hwf) as Hle.
  destruct first_empty as [[g s]|]; [done|].
  destruct (lowest_set_bit _ _) as [si|] eqn:Hlow; simpl.
  - split; [done|]. apply find_empty_some in Hlow as [Hr He]; [|done|done].
    split_and!; [done|done|]. by apply probe_reach.
  - split; [|done]. destruct (Nat.ltb_spec i 8); [|done].
    apply full_mask_ok_set; [done| |done]. by apply no_empty_full.
Qed.

Lemma locate_overflow_ok fuel first_empty full_mask :
  locating t k 1 (first_empty, full_mask) →
  lookup_ends t k → mask t < fuel →
  ∃ r, find_or_locate_overflow L fuel t eqk (tag (Tag L) (hash_key k))
         (overflow_channel (Tag L) (hash_key k)) (group_index L t (hash_key k))
         first_empty full_mask = Some r ∧ locate_result t k r.
Proof using Hwf LayoutOk0.
  intros Hstart Hends Hfuel. unfold find_or_locate_overflow.
  change (next_group (mask t) (group_index L t (hash_key k)) 1)
    with (probe_pos (mask t) (home L hash_key t k) 1).
  eapply (probe_loop_total (mask t) (home L hash_key t k) _
    (λ i s, locating t k i s) (locate_result t k) (mask t) fuel 1); [done| |lia..].
  intros i [fe fm] _ Hi. cbv beta iota zeta.
  change (probe_pos (mask t) (home L hash_key t k) i) with (pos t k i).
  pose proof (pos_le L hash_key t k i Hwf) as Hle.
  rewrite match_both. destruct (scan_keys L t (pos t k i) _ _) as [si|] eqn:Hs.
  { by apply (scan_found L hash_key t k _ Hwf (key_eqb k)) in Hs. }
  apply (scan_missed L hash_key t k _ Hwf (key_eqb k)) in Hs; [|done].
  pose proof (locate_step i fe fm Hi Hs) as Hstep. cbv zeta in Hstep.
  set (s' := match fe with Some _ => _ | None => _ end) in *.
  destruct s' as [fe' fm']. simpl in Hstep. destruct Hstep as [Hm' Hf'].
  destruct Hi as (Hmiss & _ & _).
  destruct (ovf t (pos t k i) _) eqn:Ho; simpl.
  - assert (missed t k (S i)) as HS by (by apply missed_step).
    split; [|done]. by eapply missed_bound.
  - assert (to_map t !! k = None) as Hk by (by eapply missed_absent).
    destruct fe' as [[g s]|]; [|done]. split; [done|]. by destruct Hf' as (? & ? & ?).
Qed.

Lemma find_or_locate_ok fuel :
  lookup_ends t k → mask t < fuel →
  ∃ r, find_or_locate_impl L fuel t (hash_key k) eqk = Some r ∧ locate_result t k r.
Proof using Hwf LayoutOk0.
  intros Hends Hfuel. unfold find_or_locate_impl. rewrite match_both.
  assert (missed t k 0) as H0m by (split; intros j Hj; lia).
  destruct (scan_keys L t _ _ _) as [si|] eqn:Hs.
  { eexists. split; [done|]. by apply (home_scan_found L hash_key t k si Hwf). }
  pose proof Hs as Hw.
  apply (scan_missed L hash_key t k _ Hwf (key_eqb k)) in Hw; [|apply home_le].
  destruct (lowest_set_bit _ _) as [si|] eqn:Hlow.
  - pose proof Hlow as He. apply find_empty_some in He as [Hr He]; [|done|apply home_le].
    assert (reach L hash_key t k (group_index L t (hash_key k))) as Hreach
      by (exists 0; split; [done|intros j Hj; lia]).
    destruct (ovf t _ _) eqn:Ho; simpl.
    + apply locate_overflow_ok; [|done|done]. split_and!; [|apply full_mask_ok_0|done..].
      by apply (missed_step L hash_key t k 0).
    + eexists. split; [done|]. split; [by eapply home_scan_absent|].
      split; [done..|apply full_mask_ok_0].
  - destruct (ovf t _ _) eqn:Ho; simpl.
    + apply locate_overflow_ok; [|done|done]. split_and!; [by apply (missed_step L hash_key t k 0)| |done].
      apply (full_mask_ok_set t k 0 0); [apply full_mask_ok_0| |lia].
      apply no_empty_full; [apply home_le|done].
    + eexists. split; [done|]. by eapply home_scan_absent.
Qed.

(** [find_for_entry]: an occupied entry is the slot of the key; a vacant entry
    has a slot in which the key may be inserted, or none. *)
Definition entry_result (r : EntryProbe) : Prop :=
  match r with
  | EntryFound gi si => find_result L t k (Some (gi, si))
  | EntryVacant (Some (gi, si, m)) =>
      to_map t !! k = None ∧ vacant t k gi si m ∧ len t < max_load t
  | EntryVacant None => to_map t !! k = None
  end.

Lemma find_for_entry_ok fuel :
  lookup_ends t k → mask t < fuel →
  ∃ r, find_for_entry L fuel t (hash_key k) k = Some r ∧ entry_result r.
Proof using Hwf LayoutOk0.
  intros Hb Hfuel. unfold find_for_entry.
  destruct (Nat.leb_spec (max_load t) (len t)) as [|Hlt].
  { destruct (find_eq_spec L hash_key fuel t k Hwf Hb Hfuel) as ([[gi si]|] & -> & Hr); eauto. }
  rewrite match_both. cbv zeta.
  assert (∃ r, (do r <- find_or_locate_impl L fuel t (hash_key k) eqk;
     Some (match r with
           | Found gi si => EntryFound gi si
           | InsertSlot gi si m => EntryVacant (Some (gi, si, m))
           | NotFound => EntryVacant None
           end)) = Some r ∧ entry_result r) as Hlocate.
  { destruct (find_or_locate_ok fuel Hb Hfuel) as (r & -> & Hr).
    eexists. split; [done|]. destruct r; simpl in *; [done|by destruct Hr|done]. }
  destruct (scan_keys L t _ _ _) as [si|] eqn:Hs.
  { eexists. split; [done|]. by apply (home_scan_found L hash_key t k si Hwf). }
  destruct (lowest_set_bit _ _) as [si|] eqn:Hlow; [|done].
  destruct (ovf t _ _) eqn:Ho; simpl; [done|].
  eexists. split; [done|]. apply find_empty_some in Hlow as [Hr He]; [|done|apply home_le].
  split; [by eapply home_scan_absent|]. split; [|done].
  split; [done|done| |apply full_mask_ok_0]. exists 0. split; [done|]. intros j Hj. lia.
Qed.

(** ** When the entry lookup returns *)

Lemma found_ends gi si : find_result L t k (Some (gi, si)) → lookup_ends t k.
Proof using Hwf LayoutOk0.
  intros [Hr [v He]]. left. exists v. apply (to_map_lookup L hash_key t k v Hwf). eauto.
Qed.

Lemma clear_ends g : g <= mask t → ovf t g (chan k) = false → lookup_ends t k.
Proof using Type. intros Hg Ho. right. by exists g. Qed.

Lemma locate_overflow_ends fuel first_empty full_mask r :
  find_or_locate_overflow L fuel t eqk (tag (Tag L) (hash_key k))
    (overflow_channel (Tag L) (hash_key k)) (group_index L t (hash_key k))
    first_empty full_mask = Some r → lookup_ends t k.
Proof using Hwf LayoutOk0.
  intros Hrun. unfold find_or_locate_overflow in Hrun.
  eapply (probe_loop_partial (mask t) (home L hash_key t k) _
    (λ _ _, True) (λ _, lookup_ends t k) fuel 1 _ r I); [|exact Hrun].
  intros i [fe fm] _ _. cbv beta iota zeta.
  change (probe_pos (mask t) (home L hash_key t k) i) with (pos t k i).
  pose proof (pos_le L hash_key t k i Hwf) as Hle.
  rewrite match_both. destruct (scan_keys L t (pos t k i) _ _) as [si|] eqn:Hs.
  { by eapply found_ends, (scan_found L hash_key t k _ Hwf (key_eqb k)). }
  destruct (match fe with Some _ => _ | None => _ end) as [fe' fm'].
  destruct (ovf t (pos t k i) _) eqn:Ho; simpl; [done|]. by eapply clear_ends.
Qed.

Lemma find_for_entry_ends fuel r :
  find_for_entry L fuel t (hash_key k) k = Some r → lookup_ends t k.
Proof using Hwf LayoutOk0.
  unfold find_for_entry. destruct (max_load t <=? len t).
  { destruct (find_by_hash_eq _ _ _ _ _) as [p|] eqn:E; [|done]. intros _. by eapply find_eq_ends. }
  rewrite match_both. cbv zeta. destruct (scan_keys L t _ _ _) as [si|] eqn:Hs.
  { intros _. by eapply found_ends, home_scan_found. }
  assert (∀ f : FindOrLocateResult → option EntryProbe,
    (do p <- find_or_locate_impl L fuel t (hash_key k) eqk; f p) = Some r → lookup_ends t k) as Hlocate.
  { intros f. destruct (find_or_locate_impl _ _ _ _ _) as [p|] eqn:E; [|done]. intros _. revert E.
    unfold find_or_locate_impl. rewrite match_both, Hs. pose proof (home_le L hash_key t k) as Hle.
    destruct (lowest_set_bit _ _); (destruct (ovf t _ _) eqn:Ho; simpl; [apply locate_overflow_ends|]);
      intros _; by eapply clear_ends. }
  destruct (lowest_set_bit _ _) as [si|]; [|apply Hlocate].
  destruct (ovf t _ _) eqn:Ho; simpl; [apply Hlocate|]. intros _. eapply clear_ends; [apply home_le|exact Ho].
Qed.
End locate.

(** ** Filling the slot *)

Lemma full_mask_ok_shift t k m p :
  (0 <= m)%Z →
  (∀ j : nat, Z.testbit m (Z.of_nat j) = true → group_full t (pos t k (p + j))) →
  ∀ j : nat, Z.testbit (Z.shiftr m 1) (Z.of_nat j) = true → group_full t (pos t k (p + 1 + j)).
Proof.
  intros Hm Hf j Hj. rewrite Z.shiftr_spec in Hj by lia.
  replace (p + 1 + j) with (p + S j) by lia. apply Hf.
  by replace (Z.of_nat (S j)) with (Z.of_nat j + 1)%Z by lia.
Qed.

(** The loop over [full_mask] marks full groups only. *)
Lemma set_full_mask_marked t t' k n m p :
  wf t → marked L hash_key t t' k 0 → (0 <= m)%Z →
  (∀ j : nat, Z.testbit m (Z.of_nat j) = true → group_full t (pos t k (p + j))) →
  marked L hash_key t
    (set_full_mask L n t' (overflow_channel (Tag L) (hash_key k)) m p (pos t k p)) k 0 ∧
  (∀ g c, g <= mask t → ovf t' g c = true →
     ovf (set_full_mask L n t' (overflow_channel (Tag L) (hash_key k)) m p (pos t k p)) g c = true).
Proof.
  intros Hwf. revert t' m p. induction n as [|n IH]; intros t' m p M Hm Hf; simpl; [done|].
  destruct (m =? 0)%Z; [done|].
  set (t1 := if negb (Z.land m 1 =? 0)%Z then _ else _).
  assert (pos t k p <= mask t') as Hle
    by (rewrite (mk_mask _ _ _ _ _ _ M); by apply pos_le).
  assert (marked L hash_key t t1 k 0 ∧ ∀ g c, g <= mask t → ovf t' g c = true → ovf t1 g c = true)
    as [M1 Hmono].
  { subst t1. destruct (Z.eqb_spec (Z.land m 1) 0) as [|Hbit]; simpl; [done|].
    split; [|intros g c Hg; apply (set_overflow_mono L); [apply M|done]].
    assert (group_full t (pos t k p)) as Hfull.
    { rewrite <- (Nat.add_0_r p) at 1. apply Hf. change (Z.of_nat 0) with 0%Z.
      by apply land_1_bit0. }
    destruct (set_overflow_wf L hash_key t' (pos t k p) (chan k)) as [Hw He];
      [apply M|apply M|done|].
    split; try apply M; try done.
    - apply (set_overflow_alloc L), M.
    - etransitivity; [exact He|]. apply M.
    - intros g s Hr. etransitivity; [|by apply (mk_tag _ _ _ _ _ _ M)].
      apply (set_overflow_tag L); [apply M|done|].
      unfold OverflowInv.in_range. by rewrite (mk_mask _ _ _ _ _ _ M).
    - intros j Hj. lia.
    - intros Hb. apply (set_overflow_probe_bound L hash_key); [apply M|apply M|done| |by apply M].
      intros s Hs. rewrite (mk_tag _ _ _ _ _ _ M); [by apply Hfull|]. split; [|done].
      by apply pos_le. }
  assert (next_group (mask t1) (pos t k p) (p + 1) = pos t k (p + 1)) as ->.
  { rewrite (mk_mask _ _ _ _ _ _ M1). rewrite Nat.add_1_r. done. }
  destruct (IH t1 (Z.shiftr m 1) (p + 1) M1) as [M2 Hmono2].
  - by apply Z.shiftr_nonneg.
  - by apply full_mask_ok_shift.
  - split; [done|]. intros g c Hg Ho. by apply Hmono2, Hmono.
Qed.

(** Filling the slot that [find_for_entry] returned. *)
Lemma insert_at_ok t k v gi si m :
  wf t → to_map t !! k = None → len t < max_load t → vacant t k gi si m →
  inserted L hash_key t (insert_at_impl L t (hash_key k) gi si k v m) k v (gi, si).
Proof.
  intros Hwf Hk Hlt Hv. pose proof (wf_empty_alloc L hash_key t Hwf Hlt) as Ha.
  assert (marked L hash_key t t k 0) as M0 by (split; try done; intros j Hj; lia).
  destruct (vc_mask _ _ _ _ _ Hv) as [Hm Hf].
  destruct (set_full_mask_marked t t k 8 m 0 Hwf M0 Hm Hf) as [M1 Hmono].
  unfold insert_at_impl. set (t1 := if negb (m =? 0)%Z then _ else _).
  assert (marked L hash_key t t1 k 0 ∧
    ∀ g c, g <= mask t → ovf t g c = true → ovf t1 g c = true) as [M Ho].
  { subst t1. by destruct (m =? 0)%Z. }
  assert (inserted L hash_key t1 (put L t1 (hash_key k) gi si k v) k v (gi, si)) as I.
  { destruct (vc_range _ _ _ _ _ Hv) as [Hg Hs]. apply (put_spec L hash_key).
    - apply M.
    - apply M.
    - split; [by rewrite (mk_mask _ _ _ _ _ _ M)|done].
    - rewrite (mk_tag _ _ _ _ _ _ M) by done. apply Hv.
    - destruct (vc_reach _ _ _ _ _ Hv) as (i & Hp & Hc). exists i. split.
      + rewrite (pos_frame L hash_key t t1) by apply M. done.
      + intros j Hj. rewrite (pos_frame L hash_key t t1) by apply M.
        apply Ho; [by apply pos_le|]. by apply Hc.
    - unfold OverflowInv.to_map. by rewrite (mk_entries _ _ _ _ _ _ M).
    - rewrite (mk_len _ _ _ _ _ _ M), (mk_max_load _ _ _ _ _ _ M). done. }
  destruct I. split; try done; simpl.
  - by rewrite <- (mk_entries _ _ _ _ _ _ M).
  - etransitivity; [done|]. apply M.
  - etransitivity; [done|]. apply M.
  - etransitivity; [done|]. f_equal. apply M.
  - intros Hb. apply ins_bound. by apply (mk_bound _ _ _ _ _ _ M).
Qed.
End entry.

(** ** The overflow-bit raw table: iterators *)

(** [SlotIter] enumerates the occupied slots in order and then stops;
    [IntoIter] moves the pairs out one by one, and dropping it half-way drops
    exactly the pairs that were not yielded. *)

Section iter.
Context (L : GroupLayout) `{!LayoutOk L} {K V : Type} `{Countable K} (hash_key : K → Z).
Implicit Types t : RawTable K V.

Abbreviation tag_at := (tag_at L).
Abbreviation kv_at := (kv_at L).
Abbreviation in_range := (in_range L).
Abbreviation alloc_ok := (alloc_ok L).
Abbreviation wf := (wf L hash_key).
Abbreviation entries := (entries L).
Abbreviation W := (Mask (Grp L)).
Abbreviation remaining t := (remaining W (group_mask L t) (mask t)).

Lemma group_mask_ok t gi : mask_ok W (group_mask L t gi).
Proof. eapply (match_range L), match_non_empty_repr. Qed.

Lemma group_mask_bits t gi :
  bits W (group_mask L t gi) =
  List.filter (λ s, negb (tag_at t gi s =? EMPTY)%Z) (seq 0 (GROUP_SIZE L)).
Proof. apply bits_repr; [apply match_non_empty_repr|apply group_width]. Qed.

(** [n] calls of [SlotIter::next]. *)
Definition take_slots (n : nat) t (it : SlotIter) : list (nat * nat) * SlotIter :=
  take_walk W (group_mask L t) (mask t) n it.

Lemma remaining_start t : wf t → remaining t (iter_slots L t) = occupied_slots L t.
Proof.
  intros Hwf. unfold remaining, iter_slots, first_non_empty_mask. cbn [it_group it_mask].
  assert (occupied_slots L t = groups_from W (group_mask L t) (mask t) 0) as ->
    by (unfold occupied_slots, groups_from; by rewrite Nat.sub_0_r).
  rewrite (groups_from_step _ _ _ 0) by lia. f_equal. f_equal.
  destruct (Nat.eqb_spec (max_load t) 0) as [Hz|_]; [|done].
  (* no load: no occupied slot *)
  destruct (unallocated_len L hash_key t Hwf Hz) as [Hl _].
  rewrite group_mask_bits. symmetry.
  rewrite bits_0.
  destruct (List.filter _ _) as [|s l] eqn:Ef; [done|]. exfalso.
  assert (In s (s :: l)) as Hin by by left. rewrite <- Ef in Hin.
  apply List.filter_In in Hin as [Hs Ht]. apply in_seq in Hs.
  apply negb_true_iff, Z.eqb_neq in Ht.
  destruct (wf_slot _ _ _ Hwf 0 s) as (k & v & Hkv & _); [split; lia|done|].
  assert ((k, v) ∈ entries t) as He.
  { apply elem_of_entries. exists 0, s. split; [split; lia|]. unfold slot_entry. simpl.
    destruct (Z.eqb_spec (tag_at t 0 s) EMPTY); [done|exact Hkv]. }
  rewrite (wf_len _ _ _ Hwf) in Hl. apply nil_length_inv in Hl. rewrite Hl in He.
  by apply not_elem_of_nil in He.
Qed.

Lemma iter_slots_mask_ok t : mask_ok W (it_mask (iter_slots L t)).
Proof.
  unfold iter_slots, first_non_empty_mask. simpl.
  destruct (max_load t =? 0); [apply mask_ok_0|apply (group_mask_ok t 0)].
Qed.

(** ** The owning iterator *)

(** [n] calls of [IntoIter::next]: the pairs yielded and the iterator left. *)
Fixpoint take_pairs (n : nat) (it : @IntoIter K V) : list (option (K * V)) * IntoIter :=
  match n with
  | 0 => ([], it)
  | S n' =>
      match into_iter_next L (mask (into_table it) + 1) it with
      | (Some kv, it') => let '(kvs, it'') := take_pairs n' it' in (kv :: kvs, it'')
      | (None, it') => ([], it')
      end
  end.

(** The slots of an owning iterator that still hold a pair: the slots that the
    borrowed iterator at the same position would yield. *)
Definition into_slots (it : @IntoIter K V) : list (nat * nat) :=
  remaining (into_table it) (into_pos it).

Definition into_kvs (it : @IntoIter K V) : list (K * V) :=
  omap (λ '(gi, si), kv_at (into_table it) gi si) (into_slots it).

Record into_ok (it : @IntoIter K V) : Prop := {
  io_alloc : into_slots it ≠ [] → alloc_ok (into_table it);
  io_load : max_load (into_table it) = 0 → into_slots it = [];
  io_mask : mask_ok W (it_mask (into_pos it));
  (** the table holds exactly the pairs not yet yielded *)
  io_occupied : occupied_slots L (into_table it) = into_slots it;
  io_kv p : p ∈ into_slots it → ∃ kv, kv_at (into_table it) p.1 p.2 = Some kv;
  io_len : len (into_table it) = length (into_slots it);
}.

Lemma occupied_slots_filter t :
  occupied_slots L t =
  List.filter (λ p, negb (tag_at t p.1 p.2 =? EMPTY)%Z) (all_slots L t).
Proof.
  etransitivity; [|apply (groups_from_filter W (group_mask L t) (λ g s, negb (tag_at t g s =? EMPTY)%Z)),
    group_mask_bits].
  unfold occupied_slots, groups_from. by rewrite Nat.sub_0_r.
Qed.

Lemma into_iter_next_spec (it : @IntoIter K V) :
  into_ok it →
  match into_iter_next L (mask (into_table it) + 1) it with
  | (Some kv, it') => ∃ kv', kv = Some kv' ∧ into_kvs it = kv' :: into_kvs it' ∧ into_ok it'
  | (None, it') => into_kvs it = [] ∧ drop_table L (into_table it') = drop_table L (into_table it)
  end.
Proof.
  intros Hok. unfold into_iter_next. set (t := into_table it).
  pose proof (slot_walk_spec W (group_mask L t) (mask t) (group_mask_ok t) (mask t + 1)
    (into_pos it) (io_mask _ Hok) ltac:(lia)) as Hnext.
  unfold slot_iter_next. destruct (slot_walk (mask t + 1) _ _ _ _) as [[[gi si]|] it'].
  2:{ split; [|done]. unfold into_kvs, into_slots. fold t. by destruct Hnext as [-> _]. }
  destruct Hnext as (Hr & Hgi & Hm'). simpl in Hgi.
  assert (into_slots it = (gi, si) :: remaining t it') as Hslots by exact Hr.
  destruct (io_kv _ Hok (gi, si)) as [kv Hkv]; [rewrite Hslots; by left|]. simpl in Hkv. fold t in Hkv.
  assert (alloc_ok t) as Ha by (apply (io_alloc _ Hok); by rewrite Hslots).
  pose proof (io_occupied _ Hok) as Hocc. fold t in Hocc. rewrite Hslots in Hocc.
  assert (in_range t gi si) as Hrange.
  { apply (occupied_slots_spec L t gi si). rewrite Hocc. by left. }
  set (t' := with_len (write_meta L t gi si EMPTY) (len t - 1)).
  assert (∀ g s, in_range t g s → tag_at t' g s = if decide ((g, s) = (gi, si)) then EMPTY else tag_at t g s)
    as Htag by (intros g s Hgs; by apply (write_meta_tag L t gi si Ha Hrange EMPTY)).
  assert (∀ g s, kv_at t' g s = kv_at t g s) as Hkv' by (intros; apply (write_meta_kv L t)).
  set (it1 := {| into_table := t'; into_pos := it' |}).
  assert (into_slots it1 = remaining t it') as Hslots1.
  { unfold into_slots, SlotWalk.remaining, it1. cbn [into_table into_pos].
    f_equal. apply groups_from_ext. intros g Hg. rewrite !group_mask_bits.
    apply List.filter_ext_in. intros s Hs%in_seq. rewrite Htag by (split; lia).
    rewrite decide_False; [done|]. intros [= -> ->]. lia. }
  exists kv. split; [done|]. change {| into_table := _; into_pos := it' |} with it1. split.
  - unfold into_kvs. rewrite Hslots, Hslots1. fold t. csimpl. rewrite Hkv. f_equal.
    apply omap_ext_elem. intros [g s] _. symmetry. apply Hkv'.
  - pose proof (io_len _ Hok) as Hlen. fold t in Hlen. rewrite Hslots in Hlen. simpl in Hlen.
    split.
    + intros _. apply (write_meta_alloc L t gi si Ha).
    + intros Hz. rewrite Hslots1. pose proof (io_load _ Hok Hz) as Hnil. by rewrite Hslots in Hnil.
    + exact Hm'.
    + rewrite Hslots1. cbn [into_table it1]. rewrite occupied_slots_filter.
      rewrite occupied_slots_filter in Hocc.
      eapply (filter_remove_head _ _ (all_slots L t) (gi, si)); [|exact Hocc|].
      * apply slot_list_NoDup.
      * intros [g s] Hin%elem_of_all_slots. simpl. rewrite Htag by done.
        destruct (decide ((g, s) = (gi, si))) as [Heq|Hne];
          [by rewrite bool_decide_true, andb_false_r|by rewrite bool_decide_false, andb_true_r].
    + intros p. rewrite Hslots1. intros Hp. destruct (io_kv _ Hok p) as [kv' Hp'].
      { rewrite Hslots. by right. }
      exists kv'. by rewrite <- Hp'.
    + rewrite Hslots1. cbn [into_table it1 t' len with_len]. lia.
Qed.

Lemma into_iter_ok t : wf t → into_ok (into_iter_impl L t) ∧ into_kvs (into_iter_impl L t) = entries t.
Proof.
  intros Hwf. pose proof (remaining_start t Hwf) as Hr.
  assert (into_slots (into_iter_impl L t) = occupied_slots L t) as Hs by exact Hr.
  assert (length (occupied_slots L t) = len t) as Hlen.
  { rewrite (wf_len _ _ _ Hwf), <- (occupied_kvs_entries L t). unfold occupied_kvs.
    symmetry. apply omap_all_length. intros [g s] [Hgs Ht]%occupied_slots_spec; [|done].
    destruct (wf_slot _ _ _ Hwf g s Hgs Ht) as (k & v & -> & _). eauto. }
  split.
  - split; try rewrite Hs.
    + intros Hne. apply (alloc_ok_of_load L hash_key t Hwf). intros Hz. apply Hne.
      destruct (unallocated_len L hash_key t Hwf Hz) as [Hl _]. apply nil_length_inv. lia.
    + intros Hz. destruct (unallocated_len L hash_key t Hwf Hz) as [Hl _].
      apply nil_length_inv. lia.
    + apply (iter_slots_mask_ok t).
    + done.
    + intros [g s] [Hgs Ht]%occupied_slots_spec; [|done].
      destruct (wf_slot _ _ _ Hwf g s Hgs Ht) as (k & v & ? & _). eauto.
    + done.
  - unfold into_kvs. rewrite Hs. apply (occupied_kvs_entries L t).
Qed.

Lemma take_pairs_spec n (it : @IntoIter K V) :
  into_ok it →
  (take_pairs n it).1 = Some <$> take n (into_kvs it) ∧
  (drop_table L (into_table (take_pairs n it).2)).1 = drop n (into_kvs it).
Proof.
  revert it. induction n as [|n IH]; intros it Hok.
  - split; [done|]. unfold drop_table. simpl.
    destruct (Nat.eqb_spec (max_load (into_table it)) 0) as [Hz|_].
    + unfold into_kvs. by rewrite (io_load _ Hok Hz).
    + simpl. unfold occupied_kvs, into_kvs. by rewrite (io_occupied _ Hok).
  - cbn [take_pairs]. pose proof (into_iter_next_spec it Hok) as Hnext.
    destruct (into_iter_next L _ it) as [[kv|] it'].
    + destruct Hnext as (kv' & -> & Hk & Hok'). rewrite Hk. destruct (IH it' Hok') as [H1 H2].
      destruct (take_pairs n it') as [kvs it'']. simpl in *. split; [by f_equal|done].
    + destruct Hnext as [Hnil Hd]. simpl. rewrite Hd, Hnil. split; [done|].
      destruct (IH it Hok) as [_ _]. unfold drop_table. destruct (_ =? 0); [done|].
      simpl. unfold occupied_kvs. rewrite (io_occupied _ Hok). exact Hnil.
Qed.
End iter.
