(* ===== verification/OverflowSpec.v ===== *)
(** * The overflow-bit raw table: correctness

    The raw table refines a finite map.  [reachable] pairs every table that
    the operations can build, removals included, with the map it stands for.
    On reachable tables every operation that returns is that of the map, and
    it returns exactly when its probe has an exit ([lookup_ends]): always with
    one overflow bit per group, and with eight channels as long as no key has
    been removed since the control bytes were last cleared. *)

From Stdlib Require Import ZArith Lia.
From S2P Require Import Prelude Probe Bitmask HashTag Group Layout OverflowTable OverflowInv OverflowWrite OverflowProbe OverflowOps OverflowApi OverflowEntry.

Section spec.
Context (L : GroupLayout) `{!LayoutOk L} {K V : Type} `{Countable K} (hash_key : K → Z).
Context (fuel : nat).
Implicit Types t : RawTable K V.

Abbreviation wf := (wf L hash_key).
Abbreviation probe_bound := (probe_bound L).
Abbreviation to_map := (to_map L).
Abbreviation entries := (entries L).

(** The first index: whether a key may have been removed since the control
    bytes were last cleared. *)
Inductive reachable : bool → RawTable K V → gmap K V → Prop :=
  | reach_new : reachable false new ∅
  | reach_with_capacity c :
      capacity_ok L c → group_count (Z.to_nat (groups_for_capacity L c)) →
      reachable false (with_capacity L c) ∅
  | reach_insert dirty t m k v t' old :
      reachable dirty t m → can_grow fuel t →
      insert_or_replace L hash_key fuel t k v = Some (t', old) →
      reachable dirty t' (<[k := v]> m)
  | reach_insert_no_check dirty t m k v t' p :
      reachable dirty t m → m !! k = None → len t < max_load t → mask t < fuel →
      insert_no_check_impl L fuel t (hash_key k) k v = Some (t', p) →
      reachable dirty t' (<[k := v]> m)
  | reach_entry dirty t m k v gi si mask' :
      reachable dirty t m → mask t < fuel →
      find_for_entry L fuel t (hash_key k) k = Some (EntryVacant (Some (gi, si, mask'))) →
      reachable dirty (insert_at_impl L t (hash_key k) gi si k v mask') (<[k := v]> m)
  | reach_value dirty t m k v v' gi si :
      reachable dirty t m → in_range L t gi si → slot_entry L t (gi, si) = Some (k, v) →
      reachable dirty (replace_value L t gi si v').1 (<[k := v']> m)
  | reach_remove dirty t m k t' r :
      reachable dirty t m → mask t < fuel →
      remove_by_hash L fuel t (hash_key k) (λ k', bool_decide (k' = k)) = Some (t', r) →
      reachable true t' (delete k m)
  | reach_erase dirty t m k v gi si :
      reachable dirty t m → in_range L t gi si → slot_entry L t (gi, si) = Some (k, v) →
      reachable true (erase_slot L t (hash_key k) gi si) (delete k m)
  | reach_clear dirty t m :
      reachable dirty t m → reachable (dirty && (max_load t =? 0)) (clear L t).1 ∅
  | reach_rehash dirty t m n t' :
      reachable dirty t m → group_count n → n <= fuel → len t <= load_of_groups L n →
      rehash_with_impl L hash_key fuel t n = Some t' → reachable false t' m
  | reach_ensure dirty t m t' :
      reachable dirty t m → can_grow fuel t →
      ensure_capacity L hash_key fuel t = Some t' → reachable dirty t' m
  | reach_reserve dirty t m additional t' :
      reachable dirty t m → (0 <= additional)%Z →
      capacity_ok L (Z.of_nat (len t) + additional) →
      group_count (Z.to_nat (groups_for_capacity L (Z.of_nat (len t) + additional))) →
      Z.to_nat (groups_for_capacity L (Z.of_nat (len t) + additional)) <= fuel →
      reserve L hash_key fuel t additional = Some (inl t') → reachable dirty t' m
  | reach_shrink dirty t m t' :
      reachable dirty t m → capacity_ok L (Z.of_nat (len t)) → mask t < fuel →
      shrink_to_fit L hash_key fuel t = Some t' → reachable dirty t' m
  | reach_clone dirty t m : reachable dirty t m → reachable dirty (clone_table L t) m
  | reach_drain dirty t m : reachable dirty t m → reachable false (drain_impl L t).2 ∅.

(** What rules out a probe without an exit. *)
Definition steady (dirty : bool) : Prop := CHANNELED (Overflow L) = false ∨ dirty = false.

Lemma clear_cases t :
  wf t →
  wf (clear L t).1 ∧ (probe_bound t → probe_bound (clear L t).1) ∧ to_map (clear L t).1 = ∅.
Proof.
  intros Hwf. destruct (Nat.eq_dec (max_load t) 0) as [Hz|Hne].
  - unfold clear. rewrite (proj2 (Nat.eqb_eq _ _) Hz). simpl.
    destruct (unallocated_len L hash_key t Hwf Hz). done.
  - destruct (clear_ok L hash_key t Hwf Hne) as [F _].
    split; [apply F|]. split; [intros _; apply F|]. by apply (fresh_map L hash_key).
Qed.

Lemma clone_cases t :
  wf t →
  wf (clone_table L t) ∧ (probe_bound t → probe_bound (clone_table L t)) ∧
  to_map (clone_table L t) = to_map t.
Proof.
  intros Hwf. destruct (Nat.eq_dec (max_load t) 0) as [Hz|Hne].
  - unfold clone_table. rewrite (proj2 (Nat.eqb_eq _ _) Hz).
    destruct (unallocated_len L hash_key t Hwf Hz) as [_ ->].
    destruct (new_wf L hash_key (V := V)) as (? & ? & ?). done.
  - destruct (clone_ok L hash_key t Hwf Hne) as (Hw & He & Hb'). split; [done|].
    split; [done|]. unfold OverflowInv.to_map. by rewrite He.
Qed.

(** What every reachable table satisfies. *)
Definition invariant (dirty : bool) t (m : gmap K V) : Prop :=
  wf t ∧ (steady dirty → probe_bound t) ∧ to_map t = m.

Lemma upserted_invariant dirty t t' k v old :
  (steady dirty → probe_bound t) → upserted L hash_key t t' k v old → invariant dirty t' (<[k := v]> (to_map t)).
Proof. intros Hb []. split_and!; auto. Qed.

Lemma inserted_invariant dirty t t' k v p :
  wf t → (steady dirty → probe_bound t) → inserted L hash_key t t' k v p →
  invariant dirty t' (<[k := v]> (to_map t)).
Proof.
  intros Hwf Hb I. pose proof (inserted_map L hash_key _ _ _ _ _ Hwf I). destruct I. split_and!; auto.
Qed.

Lemma preserved_invariant dirty t t' :
  (steady dirty → probe_bound t) → preserved L hash_key t t' → invariant dirty t' (to_map t).
Proof. intros Hb []. split_and!; auto. Qed.

(** Removals keep the bound only with one bit per group. *)
Lemma steady_removal dirty : steady true → steady dirty ∧ CHANNELED (Overflow L) = false.
Proof. intros [?|?]; [split; [by left|done]|done]. Qed.

Lemma reachable_invariant dirty t m : reachable dirty t m → invariant dirty t m.
Proof.
  induction 1 as [|c Hc Hg|dirty t m k v t' old _ (Hwf & Hb & <-) Hgrow Hrun
    |dirty t m k v t' p _ (Hwf & Hb & <-) Hk Hlt Hf Hrun|dirty t m k v gi si mm _ (Hwf & Hb & <-) Hf Hrun
    |dirty t m k v v' gi si _ (Hwf & Hb & <-) Hr He|dirty t m k t' r _ (Hwf & Hb & <-) Hf Hrun
    |dirty t m k v gi si _ (Hwf & Hb & <-) Hr He|dirty t m _ (Hwf & Hb & <-)
    |dirty t m n t' _ (Hwf & Hb & <-) Hn Hf Hl Hrun|dirty t m t' _ (Hwf & Hb & <-) Hgrow Hrun
    |dirty t m a t' _ (Hwf & Hb & <-) Ha Hc Hg Hf Hrun|dirty t m t' _ (Hwf & Hb & <-) Hc Hf Hrun
    |dirty t m _ (Hwf & Hb & <-)|dirty t m _ _].
  - destruct (new_wf L hash_key (V := V)) as (? & ? & ?). by split_and!.
  - unfold with_capacity. destruct (new_wf L hash_key (V := V)) as (? & ? & ?).
    destruct (Z.eqb_spec c 0) as [|_]; [by split_and!|].
    destruct (allocate_fresh L hash_key (@new K V) _ Hg) as [F _]; [done|].
    split; [apply F|]. split; [intros _; apply F|]. by apply (fresh_map L hash_key).
  - pose proof (insert_returns_ends L hash_key fuel t k v _ Hwf Hrun) as Hends.
    destruct (insert_or_replace_ok L hash_key fuel t k v Hwf Hends Hgrow) as (t1 & o & Hr & U).
    simplify_eq. by eapply upserted_invariant.
  - destruct (insert_no_check_spec L hash_key fuel t k v Hwf Hk Hlt Hf) as (t1 & q & Hr & I).
    simplify_eq. by eapply inserted_invariant.
  - pose proof (find_for_entry_ends L hash_key t k Hwf fuel _ Hrun) as Hends.
    destruct (find_for_entry_ok L hash_key t k Hwf fuel Hends Hf) as (r & Hr & Hres).
    simplify_eq. destruct Hres as (Hk & Hv & Hlt).
    eapply inserted_invariant; [done..|]. by apply (insert_at_ok L hash_key).
  - destruct (replace_spec L hash_key t gi si k v v' Hwf Hr He) as (t1 & -> & Hw & Hm & _ & _ & _ & Hb').
    split_and!; [done|auto|done].
  - assert (lookup_ends L hash_key t k) as Hends.
    { unfold remove_by_hash in Hrun. destruct (find_by_hash_impl _ _ _ _ _) as [q|] eqn:E; [|done].
      by eapply (find_eq_ends L hash_key). }
    destruct (remove_ok L hash_key fuel t k Hwf Hends Hf) as (t1 & o & Hr & []). simplify_eq.
    split; [done|]. split; [|done]. intros [? ?]%(steady_removal dirty). auto.
  - pose proof (erase_spec L hash_key t gi si k v Hwf Hr He) as E.
    destruct (erased_map L hash_key _ _ _ _ Hwf E) as [Hm _]. split; [apply E|]. split; [|done].
    intros [? ?]%(steady_removal dirty). apply E; auto.
  - destruct (clear_cases t Hwf) as (? & Hc & ?). split; [done|]. split; [|done].
    destruct (Nat.eqb_spec (max_load t) 0) as [Hz|Hne]; [rewrite andb_true_r; auto|].
    intros _. destruct (clear_ok L hash_key t Hwf Hne) as [F _]. apply F.
  - destruct (rehash_spec L hash_key fuel t n Hwf Hn Hf Hl) as (t1 & Hr & R).
    simplify_eq. split; [apply R|]. split; [intros _; apply R|]. by eapply rehashed_map.
  - destruct (ensure_capacity_ok L hash_key fuel t Hwf Hgrow) as (t1 & Hr & P & _).
    simplify_eq. by apply preserved_invariant.
  - destruct (reserve_ok L hash_key fuel t a Hwf Ha Hc Hg Hf) as (t1 & Hr & P & _).
    simplify_eq. by apply preserved_invariant.
  - destruct (shrink_to_fit_ok L hash_key fuel t Hwf Hc Hf) as (t1 & Hr & P & _).
    simplify_eq. by apply preserved_invariant.
  - destruct (clone_cases t Hwf) as (? & Hc & ?). split_and!; auto.
  - destruct (new_wf L hash_key (V := V)) as (? & ? & ?). by split_and!.
Qed.

(** On a steady table every lookup has an exit. *)
Lemma steady_ends dirty t m : reachable dirty t m → steady dirty → lookups_end L hash_key t.
Proof. intros (Hwf & Hb & _)%reachable_invariant Hs. apply probe_bound_ends; auto. Qed.

Lemma reserve_bytes t additional t' :
  ctrl_bytes_ok t → reserve L hash_key fuel t additional = Some (inl t') → ctrl_bytes_ok t'.
Proof.
  intros Ht. unfold reserve. repeat case_match; intros E; simplify_option_eq; try done.
  - apply allocate_bytes, _.
  - by eapply rehash_bytes.
Qed.

(** Bytes of control memory stay initialized under every operation. *)
Lemma reachable_bytes dirty t m : reachable dirty t m → ctrl_bytes_ok t.
Proof.
  induction 1 as [|c Hc Hg|dirty t m k v t' old _ IH Hgrow Hrun|dirty t m k v t' p _ IH Hk Hlt Hf Hrun
    |dirty t m k v gi si mm _ IH Hf Hrun|dirty t m k v v' gi si _ IH Hr He|dirty t m k t' r _ IH Hf Hrun
    |dirty t m k v gi si _ IH Hr He|dirty t m _ IH|dirty t m n t' _ IH Hn Hf Hl Hrun
    |dirty t m t' _ IH Hgrow Hrun|dirty t m a t' _ IH Ha Hc Hg Hf Hrun
    |dirty t m t' _ IH Hc Hf Hrun|dirty t m _ IH|dirty t m _ IH].
  - apply sentinel_bytes_ok.
  - unfold with_capacity. destruct (c =? 0)%Z; [apply sentinel_bytes_ok|by apply allocate_bytes].
  - by eapply insert_bytes.
  - by eapply insert_no_check_bytes.
  - by apply insert_at_bytes.
  - by apply replace_value_bytes.
  - by eapply remove_bytes.
  - by apply erase_bytes.
  - by apply clear_bytes.
  - by eapply rehash_bytes.
  - unfold ensure_capacity in Hrun. destruct (_ <=? _); [by eapply rehash_bytes|by simplify_eq].
  - by eapply reserve_bytes.
  - unfold shrink_to_fit in Hrun. destruct (_ =? 0); [|destruct (_ <? _); [by eapply rehash_bytes|]].
    + injection Hrun as <-. apply sentinel_bytes_ok.
    + by injection Hrun as <-.
  - by apply clone_bytes.
  - apply sentinel_bytes_ok.
Qed.

(** ** The properties *)

(** C26: the control memory of a reachable table has its type: every metadata
    and overflow byte is an initialized [u8] (fresh memory is not), the region
    is as long as the layout says, and an occupied slot carries a nonzero tag. *)
Theorem control_bytes_typed dirty t m :
  reachable dirty t m →
  Forall is_byte (ctrl_bytes (ctrl t)) ∧
  (0 < max_load t → length (ctrl_bytes (ctrl t)) = ctrl_size L (mask t + 1)) ∧
  (∀ gi si, in_range L t gi si →
     is_byte (tag_at L t gi si) ∧ (slot_entry L t (gi, si) ≠ None ↔ (1 <= tag_at L t gi si)%Z)).
Proof.
  intros Hr. pose proof (reachable_bytes dirty t m Hr) as Hb.
  destruct (reachable_invariant dirty t m Hr) as (Hwf & _ & _). split_and!; [done| |].
  - intros Hm. destruct (alloc_ok_of_load L hash_key t Hwf) as (b & Hc & Hl & _); [lia|].
    rewrite Hc. by rewrite Nat.add_1_r.
  - intros gi si Hin. assert (is_byte (tag_at L t gi si)) as Htag by by apply is_byte_at.
    split; [done|]. rewrite (slot_entry_none L hash_key t gi si) by done.
    unfold is_byte, EMPTY in *. lia.
Qed.

(** C1: what a lookup does on any table the operations can build.  When its
    probe has an exit - the key is there, or some group is clear on the key's
    channel - it returns within as many steps as the table has groups, and
    answers as the map: a hit names the slot of the key and its value, a miss
    means that the key is absent.  When there is no exit it never returns.
    There is one with one overflow bit per group, and with eight channels while
    no key has been removed since the control bytes were last cleared. *)
Theorem find_by_hash_correct dirty t m k :
  reachable dirty t m → mask t < fuel →
  let lookup n := find_by_hash_impl L n t (hash_key k) (λ k', bool_decide (k' = k)) in
  (lookup_ends L hash_key t k →
   ∃ r, lookup fuel = Some r ∧
     match r with
     | Some (gi, si) => ∃ v, kv_at L t gi si = Some (k, v) ∧ m !! k = Some v
     | None => m !! k = None
     end) ∧
  (¬ lookup_ends L hash_key t k → ∀ n, lookup n = None) ∧
  (steady dirty → lookup_ends L hash_key t k).
Proof.
  intros Hreach Hf. cbv zeta. split_and!; [|intros Hn n|intros Hs; by eapply steady_ends].
  - apply reachable_invariant in Hreach as (Hwf & _ & <-). intros Hends.
    destruct (find_eq_spec L hash_key fuel t k Hwf Hends Hf) as ([[gi si]|] & Hrun & Hr);
      (eexists; split; [exact Hrun|]); [|done].
    destruct Hr as (Hr & v & He). exists v. split; [by apply slot_entry_some in He as [_ ?]|].
    apply (to_map_lookup L hash_key); eauto.
  - apply reachable_invariant in Hreach as (Hwf & _ & _).
    by apply (find_diverges L hash_key t k _ Hwf (key_eqb k)).
Qed.

(** C2: what an insertion does on any table the operations can build.  When the
    lookup of the key has an exit, or the table has no memory yet,
    [insert_or_replace] returns, growing the table when it is at its load; the
    key is mapped to the new value, every other key is untouched, and the
    returned value is the previous one.  Otherwise it never returns. *)
Theorem insert_or_replace_correct dirty t m k v :
  reachable dirty t m → can_grow fuel t →
  (insert_ends L hash_key t k →
   ∃ t', insert_or_replace L hash_key fuel t k v = Some (t', m !! k) ∧
     reachable dirty t' (<[k := v]> m) ∧ to_map t' = <[k := v]> m ∧
     len t' = size (<[k := v]> m)) ∧
  (¬ insert_ends L hash_key t k → ∀ n, insert_or_replace L hash_key n t k v = None) ∧
  (steady dirty → insert_ends L hash_key t k).
Proof.
  intros Hreach Hg. split_and!; [|intros Hn n|intros Hs; right; by eapply steady_ends].
  - pose proof (reachable_invariant dirty t m Hreach) as (Hwf & _ & <-). intros Hends.
    destruct (insert_or_replace_ok L hash_key fuel t k v Hwf Hends Hg) as (t' & old & Hrun & U).
    destruct U as [Hw Hbn Hm ->]. exists t'. split; [done|]. split; [by eapply reach_insert|].
    split; [done|]. by rewrite <- Hm, (size_to_map L hash_key).
  - apply reachable_invariant in Hreach as (Hwf & _ & _).
    destruct (insert_or_replace L hash_key n t k v) as [r|] eqn:E; [|done].
    destruct Hn. by eapply (insert_returns_ends L hash_key n).
Qed.

(** C3: what a removal does on any table the operations can build.  When the
    lookup of the key has an exit, [remove_by_hash] returns the removed pair,
    or nothing when the key is absent; the key is gone and every other key is
    still mapped to its value, although no tombstone is left behind, and the
    result is again a table these theorems speak of.  Otherwise it never
    returns. *)
Theorem remove_by_hash_correct dirty t m k :
  reachable dirty t m → mask t < fuel →
  let remove n := remove_by_hash L n t (hash_key k) (λ k', bool_decide (k' = k)) in
  (lookup_ends L hash_key t k →
   ∃ t', remove fuel = Some (t', pair k <$> m !! k) ∧
     reachable true t' (delete k m) ∧ to_map t' = delete k m ∧ len t' = size (delete k m)) ∧
  (¬ lookup_ends L hash_key t k → ∀ n, remove n = None) ∧
  (steady dirty → lookup_ends L hash_key t k).
Proof.
  intros Hreach Hf. cbv zeta. split_and!; [|intros Hn n|intros Hs; by eapply steady_ends].
  - pose proof (reachable_invariant dirty t m Hreach) as (Hwf & _ & <-). intros Hends.
    destruct (remove_ok L hash_key fuel t k Hwf Hends Hf) as (t' & r & Hrun & R).
    destruct R as [Hw _ Hm -> _]. exists t'. split; [done|]. split; [by eapply reach_remove|].
    split; [done|]. by rewrite <- Hm, (size_to_map L hash_key).
  - apply reachable_invariant in Hreach as (Hwf & _ & _). unfold remove_by_hash.
    by rewrite (find_diverges L hash_key t k _ Hwf (key_eqb k)).
Qed.

(** C4: why probes end.  With one overflow bit per group, whatever was removed,
    some group is clear of overflow, so that no probe can run around the
    table: the load that the anti-drift adjustment gives up covers the slots
    freed in overflowed groups.  With eight channels this holds while no key
    has been removed since the control bytes were last cleared. *)
Theorem reachable_clear_group dirty t m :
  reachable dirty t m → CHANNELED (Overflow L) = false ∨ dirty = false →
  (∃ g, g <= mask t ∧ ∀ c, single_bit c → has_overflow_bit L t g c = false) ∧
  loose_slots L t + max_load t <= full_load L t.
Proof.
  intros (Hwf & Hb & _)%reachable_invariant Hs. specialize (Hb Hs). split; [|exact Hb].
  destruct (probe_bound_clear L hash_key t Hwf Hb) as (g & Hg & Ho).
  exists g. split; [done|]. intros c Hc. by apply overflowed_false.
Qed.

(** Rehashing to any power-of-two number of groups with enough load keeps
    the pairs, forgets the overflow bits and restores the full load. *)
Theorem rehash_correct dirty t m n :
  reachable dirty t m → group_count n → n <= fuel → len t <= load_of_groups L n →
  ∃ t', rehash_with_impl L hash_key fuel t n = Some t' ∧
    entries t' ≡ₚ entries t ∧ to_map t' = m ∧
    mask t' + 1 = n ∧ max_load t' = load_of_groups L n ∧ len t' = len t.
Proof.
  intros (Hwf & Hb & <-)%reachable_invariant Hn Hf Hl.
  destruct (rehash_spec L hash_key fuel t n Hwf Hn Hf Hl) as (t' & Hrun & R).
  exists t'. pose proof (rehashed_map L hash_key t t' n Hwf R). destruct R.
  split_and!; try done. rewrite rh_max_load, full_load_groups. by f_equal.
Qed.

(** The entry protocol inserts: a vacant slot returned by [find_for_entry]
    may be filled by [insert_at], with the overflow bits it recorded, and the
    result is the map with the new pair. *)
Theorem entry_insert_correct dirty t m k v :
  reachable dirty t m → mask t < fuel → lookup_ends L hash_key t k →
  ∃ r, find_for_entry L fuel t (hash_key k) k = Some r ∧
    match r with
    | EntryFound gi si => ∃ v', kv_at L t gi si = Some (k, v') ∧ m !! k = Some v'
    | EntryVacant None => m !! k = None
    | EntryVacant (Some (gi, si, full_mask)) =>
        m !! k = None ∧
        let t' := insert_at_impl L t (hash_key k) gi si k v full_mask in
        reachable dirty t' (<[k := v]> m) ∧ to_map t' = <[k := v]> m ∧ len t' = S (len t) ∧
        kv_at L t' gi si = Some (k, v)
    end.
Proof.
  intros Hreach Hf Hends. pose proof (reachable_invariant dirty t m Hreach) as (Hwf & _ & <-).
  destruct (find_for_entry_ok L hash_key t k Hwf fuel Hends Hf) as (r & Hrun & Hr).
  exists r. split; [done|]. destruct r as [gi si|[[[gi si] fm]|]]; [| |done].
  - destruct Hr as (Hr & v' & He). exists v'. split; [by apply slot_entry_some in He as [_ ?]|].
    apply (to_map_lookup L hash_key); eauto.
  - destruct Hr as (Hk & Hv & Hlt). split; [done|]. cbv zeta.
    pose proof (insert_at_ok L hash_key t k v gi si fm Hwf Hk Hlt Hv) as I.
    pose proof (inserted_map L hash_key _ _ _ _ _ Hwf I) as Hm. destruct I.
    split_and!; try done; [by eapply reach_entry|]. by apply slot_entry_some in ins_entry as [_ ?].
Qed.

(** C27: [iter_slots] eventually yields every occupied slot, each once, in order
    of group and slot, and then ends; reading the slots gives the pairs of the map. *)
Theorem iter_slots_correct dirty t m :
  reachable dirty t m →
  let it := iter_slots L t in
  (take_slots L (len t) t it).1 = occupied_slots L t ∧
  (slot_iter_next L (mask t + 1) t (take_slots L (len t) t it).2).1 = None ∧
  NoDup (occupied_slots L t) ∧
  list_to_map (omap (λ '(gi, si), kv_at L t gi si) (occupied_slots L t)) = m.
Proof.
  intros (Hwf & Hb & <-)%reachable_invariant. cbv zeta.
  pose proof (remaining_start L hash_key t Hwf) as Hrem.
  pose proof (into_iter_ok L hash_key t Hwf) as [Hok _].
  assert (length (occupied_slots L t) = len t) as Hlen.
  { pose proof (io_len _ _ Hok) as Hl. rewrite <- (io_occupied _ _ Hok) in Hl. symmetry. exact Hl. }
  pose proof (take_walk_all (Mask (Grp L)) (group_mask L t) (mask t) (group_mask_ok L t)
    (iter_slots L t) (iter_slots_mask_ok L t)) as [H1 H2].
  rewrite Hrem, Hlen in H1, H2. split_and!; [exact H1|exact H2| |].
  - rewrite occupied_slots_filter by done. apply NoDup_ListNoDup, List.NoDup_filter, NoDup_ListNoDup.
    apply all_slots_NoDup.
  - unfold OverflowInv.to_map, map_of. by rewrite <- (occupied_kvs_entries L).
Qed.

(** An owning iterator yields the first [n] pairs; when it is dropped
    after that, exactly the remaining pairs are dropped: no pair is lost,
    yielded twice or dropped twice. *)
Theorem into_iter_correct dirty t m n :
  reachable dirty t m →
  let '(yielded, it) := take_pairs L n (into_iter_impl L t) in
  yielded = Some <$> take n (entries t) ∧
  (drop_table L (into_table it)).1 = drop n (entries t) ∧
  list_to_map (entries t) = m.
Proof.
  intros (Hwf & Hb & <-)%reachable_invariant.
  destruct (into_iter_ok L hash_key t Hwf) as [Hok Hk].
  destruct (take_pairs_spec L n _ Hok) as [H1 H2]. rewrite Hk in H1, H2.
  by destruct (take_pairs L n (into_iter_impl L t)) as [ys it].
Qed.

(** Clearing an allocated table drops every pair once, leaves it empty with
    its groups and its full load; dropping it drops every pair once and frees
    the allocation. *)
Theorem clear_and_drop_correct dirty t m :
  reachable dirty t m → max_load t ≠ 0 →
  (clear L t).2 = entries t ∧ entries (clear L t).1 = [] ∧
  mask (clear L t).1 = mask t ∧ max_load (clear L t).1 = full_load L t ∧
  (drop_table L t).1 = entries t ∧
  ∃ b, ctrl t = Alloc b ∧ (drop_table L t).2 = Some b.
Proof.
  intros (Hwf & _ & _)%reachable_invariant Hne.
  destruct (clear_ok L hash_key t Hwf Hne) as [F Hd].
  destruct (drop_ok L hash_key t Hwf) as [Hd1 Hd2].
  assert (mask (clear L t).1 = mask t) as Hm.
  { unfold clear. by destruct (max_load t =? 0). }
  split_and!; [done|apply F|done| |done|by apply Hd2].
  rewrite (fresh_load _ _ _ F), !full_load_groups. by rewrite Hm.
Qed.

(** A clone has the same pairs in the same slots, the same length and the
    same load; its overflow bits keep every pair reachable. *)
Theorem clone_correct dirty t m :
  reachable dirty t m →
  entries (clone_table L t) = entries t ∧ reachable dirty (clone_table L t) m ∧
  len (clone_table L t) = len t ∧ max_load (clone_table L t) = max_load t.
Proof.
  intros Hreach. pose proof (reachable_invariant dirty t m Hreach) as (Hwf & _ & _).
  destruct (Nat.eq_dec (max_load t) 0) as [Hz|Hne].
  - destruct (unallocated_len L hash_key t Hwf Hz) as [Hl _].
    split_and!; [|by apply reach_clone| |]; unfold clone_table; rewrite (proj2 (Nat.eqb_eq _ _) Hz);
      [|done|done].
    assert (entries t = []) as ->; [apply nil_length_inv; by rewrite <- (wf_len _ _ _ Hwf)|].
    destruct (new_wf L hash_key (V := V)) as (Hw & _ & _). apply nil_length_inv.
    by rewrite <- (wf_len _ _ _ Hw).
  - destruct (clone_ok L hash_key t Hwf Hne) as (Hw & He & _).
    split_and!; [done|by apply reach_clone| |]; unfold clone_table;
      by rewrite (proj2 (Nat.eqb_neq _ _) Hne).
Qed.

(** [groups_for_capacity] asks for the least power-of-two number of groups
    whose load admits the capacity, as long as [capacity * 8] does not wrap. *)
Theorem groups_for_capacity_least (c : Z) :
  capacity_ok L c →
  let n := Z.to_nat (groups_for_capacity L c) in
  n = 2 ^ Nat.log2 n ∧ (c <= Z.of_nat (load_of_groups L n))%Z ∧
  (n ≠ 1 → (Z.of_nat (load_of_groups L (n / 2)) < c)%Z).
Proof. apply groups_for_capacity_spec; apply _. Qed.

(** [reserve] keeps the map and, on a table whose load no removal has
    lowered, makes room for the additional entries. *)
Theorem reserve_correct dirty t m (additional : Z) :
  let needed := (Z.of_nat (len t) + additional)%Z in
  reachable dirty t m → (0 <= additional)%Z → capacity_ok L needed →
  group_count (Z.to_nat (groups_for_capacity L needed)) →
  Z.to_nat (groups_for_capacity L needed) <= fuel →
  ∃ t', reserve L hash_key fuel t additional = Some (inl t') ∧
    to_map t' = m ∧ len t' = len t ∧
    (max_load t = full_load L t → (needed <= Z.of_nat (max_load t'))%Z).
Proof.
  intros needed (Hwf & Hb & <-)%reachable_invariant Ha Hc Hg Hf.
  destruct (reserve_ok L hash_key fuel t additional Hwf Ha Hc Hg Hf) as (t' & Hrun & P & Hload).
  destruct P. exists t'. split_and!; try done. intros Hfull.
  destruct Hload as [|[_ Hlt]]; [done|lia].
Qed.

(** [shrink_to_fit] keeps the map, never grows the table, and releases the
    allocation of an empty one. *)
Theorem shrink_to_fit_correct dirty t m :
  reachable dirty t m → capacity_ok L (Z.of_nat (len t)) → mask t < fuel →
  ∃ t', shrink_to_fit L hash_key fuel t = Some t' ∧ to_map t' = m ∧ len t' = len t ∧
    mask t' <= mask t ∧ (len t = 0 → ctrl t' = EMPTY_SENTINEL).
Proof.
  intros (Hwf & Hb & <-)%reachable_invariant Hc Hf.
  destruct (shrink_to_fit_ok L hash_key fuel t Hwf Hc Hf) as (t' & Hrun & P & Hm).
  destruct P. exists t'. split_and!; try done. intros Hz. revert Hrun.
  unfold shrink_to_fit. rewrite (proj2 (Nat.eqb_eq _ _) Hz). by intros [= <-].
Qed.

(** ** Reads of a lookup *)

(** [find_by_hash_impl] with every read checked: the metadata of a group and
    its overflow byte must lie in the block of control bytes, and the bucket of
    a slot whose tag matches must be one of the table and hold a pair. *)
Inductive BadRead := OutOfBounds | Uninitialized.

Definition checked_group t (gi : nat) (matches : Z) : option BadRead :=
  let n := length (ctrl_bytes (ctrl t)) in
  if negb (meta_ptr L gi + META_STRIDE L <=? n) then Some OutOfBounds
  else if negb (overflow_off (Overflow L) (mask t) gi (META_STRIDE L) <? n) then Some OutOfBounds
  else
    let idx si := bucket_index L gi si in
    let hits := bits (Mask (Grp L)) matches in
    if negb (forallb (λ si, idx si <? length (ctrl_slots (ctrl t))) hits) then Some OutOfBounds
    else if forallb (λ si, bool_decide (is_Some (kv_at L t gi si))) hits then None
    else Some Uninitialized.

Definition find_by_hash_checked (n : nat) t (h : Z) (eq : K → bool) :
    option (BadRead + option (nat * nat)) :=
  let reduced := tag (Tag L) h in
  let ofw_bit := overflow_channel (Tag L) h in
  probe_loop n (mask t)
    (λ _ gi (_ : unit),
       let matches := match_byte (Grp L) (ctrl_bytes (ctrl t)) (meta_ptr L gi) reduced in
       match checked_group t gi matches with
       | Some bad => inl (inl bad)
       | None =>
           match scan_keys L t gi matches eq with
           | Some si => inl (inr (Some (gi, si)))
           | None => if negb (has_overflow_bit L t gi ofw_bit) then inl (inr None) else inr ()
           end
       end)
    0 (group_index L t h) ().

Lemma checked_group_ok t gi h :
  wf t → SentinelOk L ∨ 0 < max_load t → gi <= mask t →
  checked_group t gi (match_byte (Grp L) (ctrl_bytes (ctrl t)) (meta_ptr L gi) (tag (Tag L) h)) = None.
Proof.
  intros Hwf HS Hgi. unfold checked_group.
  assert (ctrl_size L (S (mask t)) <= length (ctrl_bytes (ctrl t))) as Hlen.
  { destruct (wf_ctrl _ _ _ Hwf) as [(Hc & Hm & Hz)|(b & Hc & Hb & _)]; rewrite Hc; cbn [ctrl_bytes]; [|lia].
    destruct HS as [HS|]; [|lia]. unfold sentinel_bytes. rewrite length_replicate, Hm. apply sentinel_fits. }
  rewrite (proj2 (Nat.leb_le _ _)) by (unfold meta_ptr, ctrl_size in *; nia).
  rewrite (proj2 (Nat.ltb_lt _ _)) by (pose proof (layout_ov_bounds (mask t) gi Hgi); lia). cbn [negb].
  rewrite (bits_repr _ _ (GROUP_SIZE L) _ (match_byte_repr (GroupOk := layout_group) _ _ _)) by apply group_width.
  assert (∀ si, si ∈ List.filter (λ i, (byte_at (ctrl_bytes (ctrl t)) (meta_ptr L gi + i) =? tag (Tag L) h)%Z)
      (seq 0 (GROUP_SIZE L)) → bucket_index L gi si < length (ctrl_slots (ctrl t)) ∧ is_Some (kv_at L t gi si))
    as Hread.
  { intros si [Hsi Ht]%list_elem_of_In%List.filter_In. apply in_seq in Hsi. apply Z.eqb_eq in Ht.
    assert (in_range L t gi si) as Hr by (split; lia).
    assert (tag_at L t gi si ≠ EMPTY) as Hne.
    { unfold tag_at, get_meta. rewrite Ht. pose proof (tag_range h (T := Tag L)). unfold EMPTY. lia. }
    destruct (wf_slot _ _ _ Hwf gi si Hr Hne) as (k & v & Hkv & _).
    destruct (wf_ctrl _ _ _ Hwf) as [Hu|(b & Hc & _ & Hs)]; [by rewrite (tag_at_unallocated L) in Hne|].
    rewrite Hc. cbn [ctrl_slots]. rewrite Hs. split; [by apply bucket_index_lt|by rewrite Hkv]. }
  assert (∀ p : nat → bool, (∀ si, bucket_index L gi si < length (ctrl_slots (ctrl t)) → is_Some (kv_at L t gi si) →
    p si = true) → forallb p (List.filter (λ i, (byte_at (ctrl_bytes (ctrl t)) (meta_ptr L gi + i) =? tag (Tag L) h)%Z)
      (seq 0 (GROUP_SIZE L))) = true) as Hall.
  { intros p Hp. apply forallb_forall. intros si [Hi Hk]%list_elem_of_In%Hread. by apply Hp. }
  rewrite (Hall (λ si, bucket_index L gi si <? _)) by (intros si Hi _; by apply Nat.ltb_lt). cbn [negb].
  by rewrite Hall by (intros si _ Hkv; by apply bool_decide_eq_true).
Qed.

(** C29: no lookup, of any hash and with any comparison, in any number of
    steps, reads outside the allocation or an uninitialized pair: the lookup
    that checks every read gives the answers of [find_by_hash_impl].  On a
    table without memory it reads the static sentinel, which must hold one
    group (the separate 64-slot layouts are the exception:
    [sentinel_too_small]). *)
Theorem lookup_reads_in_bounds dirty t m h eq n :
  reachable dirty t m → SentinelOk L ∨ 0 < max_load t →
  find_by_hash_checked n t h eq = inr <$> find_by_hash_impl L n t h eq.
Proof.
  intros (Hwf & _ & _)%reachable_invariant HS. unfold find_by_hash_checked, find_by_hash_impl.
  apply (probe_loop_map inr (mask t) (group_index L t h) _ _ n 0 ()). intros i [].
  assert (probe_pos (mask t) (group_index L t h) i <= mask t) as Hle.
  { apply (probe_pos_le _ (log_groups t)); [by eapply wf_pow2| |apply group_index_le].
    pose proof (wf_log _ _ _ Hwf). unfold MAX_LOG_GROUPS in *. lia. }
  rewrite checked_group_ok by done.
  destruct (scan_keys _ _ _ _ _); [done|]. by destruct (negb _).
Qed.

(** Building a table by insertions. *)
Fixpoint insert_all (kvs : list (K * V)) t : option (RawTable K V) :=
  match kvs with
  | [] => Some t
  | (k, v) :: kvs' =>
      if decide (can_grow fuel t) then
        do ' (t, _) <- insert_or_replace L hash_key fuel t k v; insert_all kvs' t
      else None
  end.

Lemma insert_all_reachable dirty kvs t m t' :
  reachable dirty t m → insert_all kvs t = Some t' →
  reachable dirty t' (fold_left (λ m '(k, v), <[k := v]> m) kvs m).
Proof.
  revert t m. induction kvs as [|[k v] kvs IH]; intros t m Hr; simpl; [by intros [= ->]|].
  case_decide as Hg; [|done]. destruct (insert_or_replace L hash_key fuel t k v) as [[t1 o]|] eqn:E;
    [|done].
  apply IH. by eapply reach_insert.
Qed.
End spec.

(** ** Instances

    Sixteen-slot groups with one overflow bit each: twenty keys of which the
    first sixteen collide on the home group and the tag. *)

#[export] Instance demo_layout_ok : LayoutOk (LowTag255_1bit SSE2 PureFallback).
Proof. apply Layout16_ok; [apply _|by right]. Qed.

Definition demo_layout : GroupLayout := LowTag255_1bit SSE2 PureFallback.

#[export] Instance demo_layout_laws : LayoutOk demo_layout.
Proof. apply demo_layout_ok. Qed.

Definition demo_hash (k : nat) : Z :=
  if k <? 16 then 1%Z else mix_hash (Z.of_nat k).

Definition demo_pairs : list (nat * nat) := map (λ k, (k, 10 * k)) (seq 0 20).

Definition demo_table : RawTable nat nat :=
  Eval vm_compute in default new (insert_all demo_layout demo_hash 64 demo_pairs new).

Definition demo_map : gmap nat nat := fold_left (λ m '(k, v), <[k := v]> m) demo_pairs ∅.

Lemma demo_reachable : reachable demo_layout demo_hash 64 false demo_table demo_map.
Proof. apply (insert_all_reachable _ _ _ _ _ new); [apply reach_new|vm_compute; reflexivity]. Qed.

Lemma demo_ends k : lookup_ends demo_layout demo_hash demo_table k.
Proof. apply (steady_ends demo_layout demo_hash 64 false demo_table demo_map demo_reachable). by right. Qed.

Lemma find_by_hash_correct_witness :
  ∃ r, find_by_hash_impl demo_layout 64 demo_table (demo_hash 17)
         (λ k', bool_decide (k' = 17)) = Some r ∧
    match r with
    | Some (gi, si) => ∃ v, kv_at demo_layout demo_table gi si = Some (17, v) ∧ demo_map !! 17 = Some v
    | None => demo_map !! 17 = None
    end.
Proof.
  apply (find_by_hash_correct demo_layout demo_hash 64 false demo_table demo_map 17).
  - apply demo_reachable.
  - vm_compute. lia.
  - apply demo_ends.
Defined.

Lemma insert_or_replace_correct_witness :
  ∃ t', insert_or_replace demo_layout demo_hash 64 demo_table 40 1 = Some (t', demo_map !! 40) ∧
    reachable demo_layout demo_hash 64 false t' (<[40 := 1]> demo_map) ∧
    to_map demo_layout t' = <[40 := 1]> demo_map ∧ len t' = size (<[40 := 1]> demo_map).
Proof.
  apply (insert_or_replace_correct demo_layout demo_hash 64 false demo_table demo_map 40 1).
  - apply demo_reachable.
  - split; vm_compute; lia.
  - right. apply demo_ends.
Defined.

Lemma remove_by_hash_correct_witness :
  ∃ t', remove_by_hash demo_layout 64 demo_table (demo_hash 3) (λ k', bool_decide (k' = 3)) =
      Some (t', pair 3 <$> demo_map !! 3) ∧
    reachable demo_layout demo_hash 64 true t' (delete 3 demo_map) ∧
    to_map demo_layout t' = delete 3 demo_map ∧ len t' = size (delete 3 demo_map).
Proof.
  apply (remove_by_hash_correct demo_layout demo_hash 64 false demo_table demo_map 3).
  - apply demo_reachable.
  - vm_compute. lia.
  - apply demo_ends.
Defined.

Lemma reachable_clear_group_witness :
  (∃ g, g <= mask demo_table ∧
     ∀ c, single_bit c → has_overflow_bit demo_layout demo_table g c = false) ∧
  loose_slots demo_layout demo_table + max_load demo_table <= full_load demo_layout demo_table.
Proof.
  apply (reachable_clear_group demo_layout demo_hash 64 false demo_table demo_map);
    [apply demo_reachable|by left].
Defined.

Lemma rehash_correct_witness :
  ∃ t', rehash_with_impl demo_layout demo_hash 64 demo_table 4 = Some t' ∧
    entries demo_layout t' ≡ₚ entries demo_layout demo_table ∧ to_map demo_layout t' = demo_map ∧
    mask t' + 1 = 4 ∧ max_load t' = load_of_groups demo_layout 4 ∧ len t' = len demo_table.
Proof.
  apply (rehash_correct demo_layout demo_hash 64 false demo_table demo_map 4).
  - apply demo_reachable.
  - split; [reflexivity|vm_compute; lia].
  - lia.
  - vm_compute. lia.
Defined.

Lemma entry_insert_correct_witness :
  ∃ r, find_for_entry demo_layout 64 demo_table (demo_hash 41) 41 = Some r ∧
    match r with
    | EntryFound gi si =>
        ∃ v', kv_at demo_layout demo_table gi si = Some (41, v') ∧ demo_map !! 41 = Some v'
    | EntryVacant None => demo_map !! 41 = None
    | EntryVacant (Some (gi, si, full_mask)) =>
        demo_map !! 41 = None ∧
        let t' := insert_at_impl demo_layout demo_table (demo_hash 41) gi si 41 7 full_mask in
        reachable demo_layout demo_hash 64 false t' (<[41 := 7]> demo_map) ∧
        to_map demo_layout t' = <[41 := 7]> demo_map ∧ len t' = S (len demo_table) ∧
        kv_at demo_layout t' gi si = Some (41, 7)
    end.
Proof.
  apply (entry_insert_correct demo_layout demo_hash 64 false demo_table demo_map 41 7).
  - apply demo_reachable.
  - vm_compute. lia.
  - apply demo_ends.
Defined.

Lemma control_bytes_typed_witness :
  Forall is_byte (ctrl_bytes (ctrl demo_table)) ∧
  (0 < max_load demo_table →
     length (ctrl_bytes (ctrl demo_table)) = ctrl_size demo_layout (mask demo_table + 1)) ∧
  (∀ gi si, in_range demo_layout demo_table gi si →
     is_byte (tag_at demo_layout demo_table gi si) ∧
     (slot_entry demo_layout demo_table (gi, si) ≠ None ↔ (1 <= tag_at demo_layout demo_table gi si)%Z)).
Proof. apply (control_bytes_typed demo_layout demo_hash 64 false demo_table demo_map). apply demo_reachable. Defined.

Lemma iter_slots_correct_witness :
  let it := iter_slots demo_layout demo_table in
  (take_slots demo_layout (len demo_table) demo_table it).1 = occupied_slots demo_layout demo_table ∧
  (slot_iter_next demo_layout (mask demo_table + 1) demo_table
     (take_slots demo_layout (len demo_table) demo_table it).2).1 = None ∧
  NoDup (occupied_slots demo_layout demo_table) ∧
  list_to_map (omap (λ '(gi, si), kv_at demo_layout demo_table gi si)
    (occupied_slots demo_layout demo_table)) = demo_map.
Proof.
  apply (iter_slots_correct demo_layout demo_hash 64 false demo_table demo_map). apply demo_reachable.
Defined.

Lemma into_iter_correct_witness :
  let '(yielded, it) := take_pairs demo_layout 7 (into_iter_impl demo_layout demo_table) in
  yielded = Some <$> take 7 (entries demo_layout demo_table) ∧
  (drop_table demo_layout (into_table it)).1 = drop 7 (entries demo_layout demo_table) ∧
  list_to_map (entries demo_layout demo_table) = demo_map.
Proof.
  apply (into_iter_correct demo_layout demo_hash 64 false demo_table demo_map 7). apply demo_reachable.
Defined.

Lemma clear_and_drop_correct_witness :
  (clear demo_layout demo_table).2 = entries demo_layout demo_table ∧
  entries demo_layout (clear demo_layout demo_table).1 = [] ∧
  mask (clear demo_layout demo_table).1 = mask demo_table ∧
  max_load (clear demo_layout demo_table).1 = full_load demo_layout demo_table ∧
  (drop_table demo_layout demo_table).1 = entries demo_layout demo_table ∧
  ∃ b, ctrl demo_table = Alloc b ∧ (drop_table demo_layout demo_table).2 = Some b.
Proof.
  apply (clear_and_drop_correct demo_layout demo_hash 64 false demo_table demo_map).
  - apply demo_reachable.
  - vm_compute. lia.
Defined.

Lemma clone_correct_witness :
  entries demo_layout (clone_table demo_layout demo_table) = entries demo_layout demo_table ∧
  reachable demo_layout demo_hash 64 false (clone_table demo_layout demo_table) demo_map ∧
  len (clone_table demo_layout demo_table) = len demo_table ∧
  max_load (clone_table demo_layout demo_table) = max_load demo_table.
Proof.
  apply (clone_correct demo_layout demo_hash 64 false demo_table demo_map). apply demo_reachable.
Defined.

Lemma groups_for_capacity_least_witness :
  let n := Z.to_nat (groups_for_capacity demo_layout 100) in
  n = 2 ^ Nat.log2 n ∧ (100 <= Z.of_nat (load_of_groups demo_layout n))%Z ∧
  (n ≠ 1 → (Z.of_nat (load_of_groups demo_layout (n / 2)) < 100)%Z).
Proof.
  apply (groups_for_capacity_least demo_layout 100). split; vm_compute; congruence.
Defined.

Lemma reserve_correct_witness :
  let needed := (Z.of_nat (len demo_table) + 60)%Z in
  ∃ t', reserve demo_layout demo_hash 64 demo_table 60 = Some (inl t') ∧
    to_map demo_layout t' = demo_map ∧ len t' = len demo_table ∧
    (max_load demo_table = full_load demo_layout demo_table → (needed <= Z.of_nat (max_load t'))%Z).
Proof.
  apply (reserve_correct demo_layout demo_hash 64 false demo_table demo_map 60).
  - apply demo_reachable.
  - lia.
  - split; vm_compute; congruence.
  - split; [vm_compute; reflexivity|vm_compute; lia].
  - vm_compute. lia.
Defined.

Lemma shrink_to_fit_correct_witness :
  ∃ t', shrink_to_fit demo_layout demo_hash 64 demo_table = Some t' ∧ to_map demo_layout t' = demo_map ∧
    len t' = len demo_table ∧ mask t' <= mask demo_table ∧
    (len demo_table = 0 → ctrl t' = EMPTY_SENTINEL).
Proof.
  apply (shrink_to_fit_correct demo_layout demo_hash 64 false demo_table demo_map).
  - apply demo_reachable.
  - split; vm_compute; congruence.
  - vm_compute. lia.
Defined.

Lemma lookup_reads_in_bounds_witness :
  find_by_hash_checked demo_layout 64 demo_table (demo_hash 17) (λ k', bool_decide (k' = 17)) =
  inr <$> find_by_hash_impl demo_layout 64 demo_table (demo_hash 17) (λ k', bool_decide (k' = 17)).
Proof.
  apply (lookup_reads_in_bounds demo_layout demo_hash 64 false demo_table demo_map).
  - apply demo_reachable.
  - right. vm_compute. lia.
Defined.

(** ** The overflow-bit raw table: limits *)

(** Concrete runs of the operations on which the guarantees of
    this file end: with several overflow channels, removals can leave
    every group overflowed, and a lookup then never returns; the anti-drift
    adjustment can lower [max_load] to the value that marks a table without
    allocation; the 64-byte sentinel is too small for the separate 64-slot
    layouts; capacity arithmetic wraps. *)

Local Open Scope Z_scope.

(** ** Scripts of operations *)

Inductive op := Ins (k : Z) | Del (k : Z).

(** Keys hash to themselves and map to [()]. *)
Fixpoint run (L : GroupLayout) (fuel : nat) (ops : list op) (t : RawTable Z unit) :
    option (RawTable Z unit) :=
  match ops with
  | [] => Some t
  | Ins k :: ops' =>
      do ' (t, _) <- insert_or_replace L (λ k, k) fuel t k ();
      run L fuel ops' t
  | Del k :: ops' =>
      do ' (t, _) <- remove_by_hash L fuel t k (λ k', bool_decide (k' = k));
      run L fuel ops' t
  end.

Definition ufm : GroupLayout := UfmLayout SSE2 PureFallback.

(** ** Lookups that do not return *)

(** Two groups of fifteen slots.  Each group is filled with keys of channel 1
    while a key of channel 0 is inserted, which marks the group overflowed on
    channel 0; removing keys of channel 1 undoes neither mark. *)
Definition keys_of_group (g : Z) (n : nat) : list Z :=
  map (λ i, g * 2 ^ 63 + 8 * Z.of_nat i + 1) (seq 0 n).

Definition stuck_script : list op :=
  map Ins (keys_of_group 0 15) ++ [Ins 8] ++ map Del (keys_of_group 0 15) ++
  map Ins (keys_of_group 1 14) ++ [Ins (2 ^ 63 + 8)].

Definition stuck_table : RawTable Z unit :=
  Eval vm_compute in default new (run ufm 8 stuck_script new).

(** A lookup of [16], in any number of steps. *)
Lemma stuck_everywhere fuel :
  find_by_hash_impl ufm fuel stuck_table 16 (λ k', bool_decide (k' = 16)) = None.
Proof.
  apply (probe_loop_diverges (mask stuck_table) 0 _ (λ _ _, True) fuel 0 ()); [done|].
  intros i [] _ _. exists (). split; [|done].
  pose proof (probe_pos_le (mask stuck_table) 1 eq_refl ltac:(lia) 0 i ltac:(vm_compute; lia)) as Hle.
  revert Hle. generalize (probe_pos (mask stuck_table) 0 i). intros g Hg.
  change (mask stuck_table) with 1%nat in Hg.
  destruct g as [|[|g]]; [vm_compute; reflexivity|vm_compute; reflexivity|lia].
Qed.

(** The slow path of an insertion whose home group is overflowed. *)
Lemma insert_home_overflowed L fuel (t : RawTable Z unit) k v :
  let gi := group_index L t k in
  (max_load t =? 0)%nat = false → (max_load t <=? len t)%nat = false →
  scan_keys L t gi (match_byte_and_empty (Grp L) (ctrl_bytes (ctrl t)) (meta_ptr L gi)
    (tag (Tag L) k)).1 (λ k', bool_decide (k' = k)) = None →
  has_overflow_bit L t gi (overflow_channel (Tag L) k) = true →
  insert_or_replace L (λ k, k) fuel t k v = insert_overflow L (λ k, k) fuel t k k v.
Proof.
  cbv zeta. intros H1 H2 H3 H4. unfold insert_or_replace. rewrite H1. cbv zeta. rewrite H2.
  destruct (match_byte_and_empty _ _ _ _) as [ms es]. simpl in H3. rewrite H3.
  destruct (lowest_set_bit _ es); [|done]. by rewrite H4.
Qed.

(** C25: an eight-channel table can stop answering: after thirty insertions and
    fifteen removals of a 30-slot table with 16 entries and room for more, the
    lookup of an absent key runs for ever, and so does its insertion. *)
Theorem channelled_lookup_diverges :
  ∃ t, run ufm 8 stuck_script new = Some t ∧ len t = 16%nat ∧ max_load t = 26%nat ∧
    (∀ fuel, find_by_hash_impl ufm fuel t 16 (λ k', bool_decide (k' = 16)) = None) ∧
    (∀ fuel, insert_or_replace ufm (λ k, k) fuel t 16 () = None).
Proof.
  exists stuck_table. split; [vm_compute; reflexivity|]. split; [reflexivity|]. split; [reflexivity|].
  split; [apply stuck_everywhere|]. intros fuel.
  rewrite insert_home_overflowed by (vm_compute; reflexivity).
  unfold insert_overflow, find_by_hash_eq. by rewrite stuck_everywhere.
Qed.

(** ** A load of zero on an allocated table *)

(** Sixteen keys of one home group and channel overflow it; every removal with
    that home then lowers [max_load] by one, until it is zero. *)
Definition leak_script : list op :=
  map (λ i, Ins (8 * Z.of_nat i)) (seq 0 16) ++ map (λ i, Del (8 * Z.of_nat i)) (seq 0 16) ++
  mjoin (replicate 10 [Ins 8; Del 8]).

Definition leak_table : RawTable Z unit :=
  Eval vm_compute in default new (run ufm 8 leak_script new).

(** Removals can lower [max_load] to zero while the table owns an
    allocation: dropping it then frees nothing, [clear] leaves it as it is,
    and the next insertion allocates a new block over the old pointer. *)
Theorem drained_table_leaks :
  ∃ t b, run ufm 8 leak_script new = Some t ∧ ctrl t = Alloc b ∧ is_allocated t = false ∧
    drop_table ufm t = ([], None) ∧ clear ufm t = (t, []) ∧
    insert_or_replace ufm (λ k, k) 8 t 8 () =
      insert_or_replace ufm (λ k, k) 8 (allocate ufm t 1) 8 ().
Proof.
  exists leak_table. eexists. split; [vm_compute; reflexivity|].
  split; [reflexivity|]. split_and!; vm_compute; reflexivity.
Qed.

(** on a table whose load removals have lowered, [reserve] can return with
    less room than was asked for. *)
Theorem reserve_without_room :
  ∃ t, run ufm 8 (map (λ i, Ins (8 * Z.of_nat i)) (seq 0 16) ++
                  map (λ i, Del (8 * Z.of_nat i)) (seq 0 16)) new = Some t ∧
    reserve ufm (λ k, k) 8 t 20 = Some (inl t) ∧ len t = 0%nat ∧ max_load t = 10%nat.
Proof. eexists. split; [vm_compute; reflexivity|]. split_and!; vm_compute; reflexivity. Qed.

(** ** The sentinel of unallocated tables *)

(** With 64 separate slots per group, a lookup on a table that was never
    allocated reads its overflow byte one past the 64-byte sentinel. *)
Theorem sentinel_too_small (t : simd_tier) (f : hash_feature) (L : GroupLayout) :
  L = Splitsies64Layout t f ∨ L = Splitsies64_1bit t f →
  overflow_off (Overflow L) (mask (@new Z unit)) 0 (META_STRIDE L) =
    length (ctrl_bytes (ctrl (@new Z unit))) ∧
  match_byte (Grp L) (ctrl_bytes (ctrl (@new Z unit))) 0 (tag (Tag L) 0) = 0.
Proof.
  intros [-> | ->]; (split; [reflexivity|]); destruct t, f; vm_compute; reflexivity.
Qed.

Lemma sentinel_too_small_witness :
  overflow_off (Overflow (Splitsies64Layout AVX2 PureFallback)) (mask (@new Z unit)) 0
    (META_STRIDE (Splitsies64Layout AVX2 PureFallback)) =
    length (ctrl_bytes (ctrl (@new Z unit))) ∧
  match_byte (Grp (Splitsies64Layout AVX2 PureFallback)) (ctrl_bytes (ctrl (@new Z unit))) 0
    (tag (Tag (Splitsies64Layout AVX2 PureFallback)) 0) = 0.
Proof. apply (sentinel_too_small AVX2 PureFallback). by left. Defined.

(** without overflow checks the capacity arithmetic wraps: a request for
    [2^61] entries is rounded to a single group. *)
Theorem capacity_wraps : groups_for_capacity ufm (2 ^ 61) = 1.
Proof. vm_compute. reflexivity. Qed.
