(* ===== verification/TombGroup.v ===== *)
(** * Groups of the tombstone tables

    [in_place_overflow/raw/group.rs] (16 slots) and [ipo64/raw/group.rs] (64
    slots, with run-time selection of the instruction set).  A metadata byte
    is EMPTY (0), TOMBSTONE (1) or a reduced hash (2..255). *)

From Stdlib Require Import ZArith Lia.
From S2P Require Import Prelude Bitmask Group.
Local Open Scope Z_scope.

(*@ in_place_overflow/raw/group.rs : pub const TOMBSTONE *)
Definition TOMBSTONE : Z := 1.

(** The operations of a tombstone group; [probe_masks] is what the lookup loop
    reads from one load of the group: the slots with the tag, the EMPTY ones. *)
Record TombGroupOps := {
  tg_mask : BitMaskOps;
  tg_match_byte : list Z → nat → Z → Z;
  tg_match_empty : list Z → nat → Z;
  tg_match_empty_or_tombstone : list Z → nat → Z;
  tg_match_occupied : list Z → nat → Z;
  tg_match_byte_and_empty : list Z → nat → Z → Z * Z;
  tg_probe_masks : list Z → nat → Z → Z * Z;
}.

(** The comparison of one register with a broadcast byte, and with the two
    bytes of free slots. *)
Definition cmp_mask (n : nat) (ctrl : list Z) (ptr : nat) (v : Z) : Z :=
  simd_movemask (simd_cmpeq (simd_load n ctrl ptr) (simd_set1 n v)).

Definition dead_mask (n : nat) (ctrl : list Z) (ptr : nat) : Z :=
  let data := simd_load n ctrl ptr in
  let empty_cmp := simd_cmpeq data (simd_set1 n 0) in
  let tomb_cmp := simd_cmpeq data (simd_set1 n 1) in
  simd_movemask (simd_or empty_cmp tomb_cmp).

(** ** 16 slots (IPO) *)

(*@ in_place_overflow/raw/group.rs : pub unsafe fn match_byte( @1 *)
Definition ipo_match_byte_sse2 := cmp_mask 16.

(*@ in_place_overflow/raw/group.rs : pub unsafe fn match_empty( @1 *)
Definition ipo_match_empty_sse2 (ctrl : list Z) (ptr : nat) : Z := cmp_mask 16 ctrl ptr 0.

(** [load] is a register or, in the scalar build, the pointer itself. *)
(*@ in_place_overflow/raw/group.rs : 74-97 : Group::load, Group::loaded_match_byte, Group::loaded_match_empty *)
Definition ipo_loaded_masks_sse2 (ctrl : list Z) (ptr : nat) (value : Z) : Z * Z :=
  let data := simd_load 16 ctrl ptr in
  (simd_movemask (simd_cmpeq data (simd_set1 16 value)),
   simd_movemask (simd_cmpeq data (simd_set1 16 0))).

(*@ in_place_overflow/raw/group.rs : pub unsafe fn match_empty_or_tombstone( @1 *)
Definition ipo_match_empty_or_tombstone_sse2 := dead_mask 16.

(*@ in_place_overflow/raw/group.rs : pub unsafe fn match_occupied( @1 *)
Definition ipo_match_occupied_sse2 (ctrl : list Z) (ptr : nat) : Z :=
  not_w 16 (dead_mask 16 ctrl ptr).

(*@ in_place_overflow/raw/group.rs : pub unsafe fn match_byte_and_empty( @1 *)
Definition ipo_match_byte_and_empty_sse2 (ctrl : list Z) (ptr : nat) (value : Z) : Z * Z :=
  let data := simd_load 16 ctrl ptr in
  (simd_movemask (simd_cmpeq data (simd_set1 16 value)),
   simd_movemask (simd_cmpeq data (simd_set1 16 0))).

(*@ in_place_overflow/raw/group.rs : pub unsafe fn match_byte( @2 *)
Definition ipo_match_byte_scalar (ctrl : list Z) (ptr : nat) (value : Z) : Z :=
  scalar_mask 16 ctrl ptr (λ b, b =? value).

(*@ in_place_overflow/raw/group.rs : pub unsafe fn match_empty_or_tombstone( @2 *)
Definition ipo_match_empty_or_tombstone_scalar (ctrl : list Z) (ptr : nat) : Z :=
  scalar_mask 16 ctrl ptr (λ b, (b =? EMPTY) || (b =? TOMBSTONE)).

(*@ in_place_overflow/raw/group.rs : pub unsafe fn match_occupied( @2 *)
Definition ipo_match_occupied_scalar (ctrl : list Z) (ptr : nat) : Z :=
  scalar_mask 16 ctrl ptr (λ b, 2 <=? b).

Definition IpoGroup (t : simd_tier) : TombGroupOps :=
  match t with
  | Scalar => {|
      tg_mask := BitMask;
      tg_match_byte := ipo_match_byte_scalar;
      tg_match_empty := λ ctrl ptr, ipo_match_byte_scalar ctrl ptr EMPTY;
      tg_match_empty_or_tombstone := ipo_match_empty_or_tombstone_scalar;
      tg_match_occupied := ipo_match_occupied_scalar;
      tg_match_byte_and_empty := λ ctrl ptr v,
        (ipo_match_byte_scalar ctrl ptr v, ipo_match_byte_scalar ctrl ptr EMPTY);
      tg_probe_masks := λ ctrl ptr v,
        (ipo_match_byte_scalar ctrl ptr v, ipo_match_byte_scalar ctrl ptr EMPTY) |}
  | _ => {|
      tg_mask := BitMask;
      tg_match_byte := ipo_match_byte_sse2;
      tg_match_empty := ipo_match_empty_sse2;
      tg_match_empty_or_tombstone := ipo_match_empty_or_tombstone_sse2;
      tg_match_occupied := ipo_match_occupied_sse2;
      tg_match_byte_and_empty := ipo_match_byte_and_empty_sse2;
      tg_probe_masks := ipo_loaded_masks_sse2 |}
  end.

(** ** 64 slots (IPO64) *)

(*@ ipo64/raw/group.rs : pub(crate) unsafe fn match_byte_avx512 *)
Definition ipo64_match_byte_avx512 := cmp_mask 64.

(*@ ipo64/raw/group.rs : pub(crate) unsafe fn match_empty_avx512 *)
Definition ipo64_match_empty_avx512 (ctrl : list Z) (ptr : nat) : Z := cmp_mask 64 ctrl ptr 0.

(*@ ipo64/raw/group.rs : pub(crate) unsafe fn match_byte_and_empty_avx512 *)
Definition ipo64_match_byte_and_empty_avx512 (ctrl : list Z) (ptr : nat) (value : Z) : Z * Z :=
  (cmp_mask 64 ctrl ptr value, cmp_mask 64 ctrl ptr 0).

(*@ ipo64/raw/group.rs : pub(crate) unsafe fn match_empty_or_tombstone_avx512 *)
Definition ipo64_match_empty_or_tombstone_avx512 (ctrl : list Z) (ptr : nat) : Z :=
  let empty := cmp_mask 64 ctrl ptr 0 in
  let tomb := cmp_mask 64 ctrl ptr 1 in
  Z.lor empty tomb.

(*@ ipo64/raw/group.rs : pub(crate) unsafe fn match_occupied_avx512 *)
Definition ipo64_match_occupied_avx512 (ctrl : list Z) (ptr : nat) : Z :=
  let empty := cmp_mask 64 ctrl ptr 0 in
  let tomb := cmp_mask 64 ctrl ptr 1 in
  not_w 64 (Z.lor empty tomb).

(*@ ipo64/raw/group.rs : pub(crate) unsafe fn match_byte_avx2 *)
Definition ipo64_match_byte_avx2 (ctrl : list Z) (ptr : nat) (value : Z) : Z :=
  let m0 := cmp_mask 32 ctrl ptr value in
  let m1 := cmp_mask 32 ctrl (ptr + 32) value in
  Z.lor m0 (Z.shiftl m1 32).

(*@ ipo64/raw/group.rs : pub(crate) unsafe fn match_empty_avx2 *)
Definition ipo64_match_empty_avx2 (ctrl : list Z) (ptr : nat) : Z :=
  let m0 := cmp_mask 32 ctrl ptr 0 in
  let m1 := cmp_mask 32 ctrl (ptr + 32) 0 in
  Z.lor m0 (Z.shiftl m1 32).

(*@ ipo64/raw/group.rs : pub(crate) unsafe fn match_byte_and_empty_avx2 *)
Definition ipo64_match_byte_and_empty_avx2 (ctrl : list Z) (ptr : nat) (value : Z) : Z * Z :=
  let mm0 := cmp_mask 32 ctrl ptr value in
  let mm1 := cmp_mask 32 ctrl (ptr + 32) value in
  let em0 := cmp_mask 32 ctrl ptr 0 in
  let em1 := cmp_mask 32 ctrl (ptr + 32) 0 in
  (Z.lor mm0 (Z.shiftl mm1 32), Z.lor em0 (Z.shiftl em1 32)).

(*@ ipo64/raw/group.rs : pub(crate) unsafe fn match_empty_or_tombstone_avx2 *)
Definition ipo64_match_empty_or_tombstone_avx2 (ctrl : list Z) (ptr : nat) : Z :=
  Z.lor (dead_mask 32 ctrl ptr) (Z.shiftl (dead_mask 32 ctrl (ptr + 32)) 32).

(*@ ipo64/raw/group.rs : pub(crate) unsafe fn match_occupied_avx2 *)
Definition ipo64_match_occupied_avx2 (ctrl : list Z) (ptr : nat) : Z :=
  let c off := not_w 32 (dead_mask 32 ctrl (ptr + off)) in
  Z.lor (c 0%nat) (Z.shiftl (c 32%nat) 32).

(*@ ipo64/raw/group.rs : unsafe fn match_byte_sse2 *)
Definition ipo64_match_byte_sse2 (ctrl : list Z) (ptr : nat) (value : Z) : Z :=
  let m0 := cmp_mask 16 ctrl ptr value in
  let m1 := cmp_mask 16 ctrl (ptr + 16) value in
  let m2 := cmp_mask 16 ctrl (ptr + 32) value in
  let m3 := cmp_mask 16 ctrl (ptr + 48) value in
  Z.lor (Z.lor (Z.lor m0 (Z.shiftl m1 16)) (Z.shiftl m2 32)) (Z.shiftl m3 48).

(*@ ipo64/raw/group.rs : unsafe fn match_empty_sse2 *)
Definition ipo64_match_empty_sse2 (ctrl : list Z) (ptr : nat) : Z :=
  let m0 := cmp_mask 16 ctrl ptr 0 in
  let m1 := cmp_mask 16 ctrl (ptr + 16) 0 in
  let m2 := cmp_mask 16 ctrl (ptr + 32) 0 in
  let m3 := cmp_mask 16 ctrl (ptr + 48) 0 in
  Z.lor (Z.lor (Z.lor m0 (Z.shiftl m1 16)) (Z.shiftl m2 32)) (Z.shiftl m3 48).

(** [for i in 0..4 { mask |= chunk(i) << (i * 16) }] *)
Definition or_chunks (chunk : nat → Z) : Z :=
  fold_left (λ mask i, Z.lor mask (Z.shiftl (chunk i) (Z.of_nat (i * 16)))) (seq 0 4) 0.

(*@ ipo64/raw/group.rs : unsafe fn match_byte_and_empty_sse2 *)
Definition ipo64_match_byte_and_empty_sse2 (ctrl : list Z) (ptr : nat) (value : Z) : Z * Z :=
  (or_chunks (λ i, cmp_mask 16 ctrl (ptr + i * 16) value),
   or_chunks (λ i, cmp_mask 16 ctrl (ptr + i * 16) 0)).

(*@ ipo64/raw/group.rs : unsafe fn match_empty_or_tombstone_sse2 *)
Definition ipo64_match_empty_or_tombstone_sse2 (ctrl : list Z) (ptr : nat) : Z :=
  or_chunks (λ i, dead_mask 16 ctrl (ptr + i * 16)).

(*@ ipo64/raw/group.rs : unsafe fn match_occupied_sse2 *)
Definition ipo64_match_occupied_sse2 (ctrl : list Z) (ptr : nat) : Z :=
  or_chunks (λ i, not_w 16 (dead_mask 16 ctrl (ptr + i * 16))).

(*@ ipo64/raw/group.rs : pub unsafe fn match_byte( @2 *)
Definition ipo64_match_byte_scalar (ctrl : list Z) (ptr : nat) (value : Z) : Z :=
  scalar_mask 64 ctrl ptr (λ b, b =? value).

(*@ ipo64/raw/group.rs : pub unsafe fn match_empty( @2 *)
Definition ipo64_match_empty_scalar (ctrl : list Z) (ptr : nat) : Z :=
  scalar_mask 64 ctrl ptr (λ b, b =? EMPTY).

(*@ ipo64/raw/group.rs : pub unsafe fn match_empty_or_tombstone( @2 *)
Definition ipo64_match_empty_or_tombstone_scalar (ctrl : list Z) (ptr : nat) : Z :=
  scalar_mask 64 ctrl ptr (λ b, b <=? TOMBSTONE).

(*@ ipo64/raw/group.rs : pub unsafe fn match_occupied( @2 *)
Definition ipo64_match_occupied_scalar (ctrl : list Z) (ptr : nat) : Z :=
  scalar_mask 64 ctrl ptr (λ b, 2 <=? b).

Definition ipo64_group_of (mb : list Z → nat → Z → Z) (me met mo : list Z → nat → Z)
    (both : list Z → nat → Z → Z * Z) : TombGroupOps :=
  {| tg_mask := BitMask64; tg_match_byte := mb; tg_match_empty := me;
     tg_match_empty_or_tombstone := met; tg_match_occupied := mo;
     tg_match_byte_and_empty := both; tg_probe_masks := both |}.

(** The run-time dispatch on the detected instruction set. *)
(*@ ipo64/raw/group.rs : 41-102 : Group *)
Definition Ipo64Group (t : simd_tier) : TombGroupOps :=
  match t with
  | AVX512BW => ipo64_group_of ipo64_match_byte_avx512 ipo64_match_empty_avx512
      ipo64_match_empty_or_tombstone_avx512 ipo64_match_occupied_avx512
      ipo64_match_byte_and_empty_avx512
  | AVX2 => ipo64_group_of ipo64_match_byte_avx2 ipo64_match_empty_avx2
      ipo64_match_empty_or_tombstone_avx2 ipo64_match_occupied_avx2
      ipo64_match_byte_and_empty_avx2
  | SSE2 => ipo64_group_of ipo64_match_byte_sse2 ipo64_match_empty_sse2
      ipo64_match_empty_or_tombstone_sse2 ipo64_match_occupied_sse2
      ipo64_match_byte_and_empty_sse2
  | Scalar => ipo64_group_of ipo64_match_byte_scalar ipo64_match_empty_scalar
      ipo64_match_empty_or_tombstone_scalar ipo64_match_occupied_scalar
      (λ ctrl ptr v, (ipo64_match_byte_scalar ctrl ptr v, ipo64_match_empty_scalar ctrl ptr))
  end.

(** ** Masks as predicates *)

Definition is_dead (b : Z) : bool := (b =? EMPTY) || (b =? TOMBSTONE).

(** What the tables rely on.  Metadata bytes are not negative. *)
Class TombGroupOk (G : TombGroupOps) (gs : nat) := {
  tg_width : (gs <= mask_bits (tg_mask G))%nat;
  tg_match_byte_repr ctrl ptr v :
    mask_repr (tg_match_byte G ctrl ptr v) gs (λ i, byte_at ctrl (ptr + i) =? v);
  tg_match_empty_repr ctrl ptr :
    mask_repr (tg_match_empty G ctrl ptr) gs (λ i, byte_at ctrl (ptr + i) =? EMPTY);
  tg_match_dead_repr ctrl ptr :
    (∀ i, 0 <= byte_at ctrl i) →
    mask_repr (tg_match_empty_or_tombstone G ctrl ptr) gs (λ i, is_dead (byte_at ctrl (ptr + i)));
  tg_match_occupied_repr ctrl ptr :
    (∀ i, 0 <= byte_at ctrl i) →
    mask_repr (tg_match_occupied G ctrl ptr) gs (λ i, negb (is_dead (byte_at ctrl (ptr + i))));
  tg_match_both ctrl ptr v :
    tg_match_byte_and_empty G ctrl ptr v = (tg_match_byte G ctrl ptr v, tg_match_empty G ctrl ptr);
  tg_probe_both ctrl ptr v :
    tg_probe_masks G ctrl ptr v = (tg_match_byte G ctrl ptr v, tg_match_empty G ctrl ptr);
}.

Lemma lor_repr m1 m2 n p q :
  mask_repr m1 n p → mask_repr m2 n q → mask_repr (Z.lor m1 m2) n (λ i, p i || q i).
Proof.
  intros [H1 B1] [H2 B2]. split; [by apply Z.lor_nonneg|]. intros i.
  rewrite Z.lor_spec, B1, B2. by destruct (i <? n)%nat.
Qed.

Lemma movemask_or r1 r2 :
  length r1 = length r2 →
  simd_movemask (simd_or r1 r2) = Z.lor (simd_movemask r1) (simd_movemask r2).
Proof.
  intros Hlen. pose proof (movemask_repr (simd_or r1 r2)) as H.
  unfold simd_or in *. rewrite length_zip_with, <- Hlen, Nat.min_id in H.
  eapply mask_repr_eq; [exact H|].
  eapply mask_repr_ext; [apply lor_repr; [apply movemask_repr|rewrite Hlen; apply movemask_repr]|].
  intros i Hi. cbv beta. unfold byte_at. rewrite lookup_zip_with.
  destruct (lookup_lt_is_Some_2 r1 i Hi) as [x ->].
  destruct (lookup_lt_is_Some_2 r2 i) as [y ->]; [lia|].
  cbn -[Z.testbit Z.lor]. by rewrite Z.lor_spec.
Qed.

Lemma cmp_mask_repr n ctrl ptr v :
  mask_repr (cmp_mask n ctrl ptr v) n (λ i, byte_at ctrl (ptr + i) =? v).
Proof. apply cmpeq_repr. Qed.

Lemma dead_mask_repr n ctrl ptr :
  mask_repr (dead_mask n ctrl ptr) n (λ i, is_dead (byte_at ctrl (ptr + i))).
Proof.
  unfold dead_mask. rewrite movemask_or.
  - apply lor_repr; apply cmpeq_repr.
  - unfold simd_cmpeq, simd_set1. by rewrite !length_zip_with, !length_replicate.
Qed.

(** Shifting the address of a chunk. *)
Lemma chunk_repr m n off ctrl ptr (p : Z → bool) :
  mask_repr m n (λ i, p (byte_at ctrl (ptr + off + i))) →
  mask_repr m n (λ i, p (byte_at ctrl (ptr + (off + i)))).
Proof. intros H. eapply mask_repr_ext; [exact H|]. intros i _. cbv beta. by rewrite Nat.add_assoc. Qed.

Lemma two_chunks_repr m0 m1 ctrl ptr p :
  mask_repr m0 32 (λ i, p (byte_at ctrl (ptr + i))) →
  mask_repr m1 32 (λ i, p (byte_at ctrl (ptr + 32 + i))) →
  mask_repr (Z.lor m0 (Z.shiftl m1 32)) 64 (λ i, p (byte_at ctrl (ptr + i))).
Proof.
  intros H0 H1. rewrite Z.lor_comm. apply (glue_repr _ _ 32 32); [done| |done].
  by apply chunk_repr.
Qed.

Lemma four_chunks_repr m0 m1 m2 m3 ctrl ptr p :
  mask_repr m0 16 (λ i, p (byte_at ctrl (ptr + i))) →
  mask_repr m1 16 (λ i, p (byte_at ctrl (ptr + 16 + i))) →
  mask_repr m2 16 (λ i, p (byte_at ctrl (ptr + 32 + i))) →
  mask_repr m3 16 (λ i, p (byte_at ctrl (ptr + 48 + i))) →
  mask_repr (Z.lor (Z.lor (Z.lor m0 (Z.shiftl m1 16)) (Z.shiftl m2 32)) (Z.shiftl m3 48)) 64
    (λ i, p (byte_at ctrl (ptr + i))).
Proof.
  intros H0 H1 H2 H3.
  rewrite Z.lor_comm. apply (glue_repr _ _ 48 16); [|by apply chunk_repr|done].
  rewrite Z.lor_comm. apply (glue_repr _ _ 32 16); [|by apply chunk_repr|done].
  rewrite Z.lor_comm. apply (glue_repr _ _ 16 16); [done|by apply chunk_repr|done].
Qed.

Lemma or_chunks_repr chunk ctrl ptr p :
  (∀ i, mask_repr (chunk i) 16 (λ s, p (byte_at ctrl (ptr + i * 16 + s)))) →
  mask_repr (or_chunks chunk) 64 (λ i, p (byte_at ctrl (ptr + i))).
Proof.
  intros H. unfold or_chunks. cbn [fold_left seq].
  change (Z.of_nat (0 * 16)) with 0. rewrite Z.shiftl_0_r, Z.lor_0_l.
  apply (four_chunks_repr _ _ _ _ ctrl ptr p).
  - eapply mask_repr_ext; [apply (H 0%nat)|]. intros i _. cbv beta. by rewrite Nat.add_0_r.
  - apply (H 1%nat).
  - apply (H 2%nat).
  - apply (H 3%nat).
Qed.

Lemma scalar_dead_repr n ctrl ptr :
  (∀ i, 0 <= byte_at ctrl i) →
  mask_repr (scalar_mask n ctrl ptr (λ b, b <=? TOMBSTONE)) n (λ i, is_dead (byte_at ctrl (ptr + i))).
Proof.
  intros Hb. eapply mask_repr_ext; [apply scalar_repr|]. intros i _. cbv beta.
  specialize (Hb (ptr + i)%nat). unfold is_dead, EMPTY, TOMBSTONE. lia.
Qed.

Lemma scalar_occupied_repr n ctrl ptr :
  (∀ i, 0 <= byte_at ctrl i) →
  mask_repr (scalar_mask n ctrl ptr (λ b, 2 <=? b)) n
    (λ i, negb (is_dead (byte_at ctrl (ptr + i)))).
Proof.
  intros Hb. eapply mask_repr_ext; [apply scalar_repr|]. intros i _. cbv beta.
  specialize (Hb (ptr + i)%nat). unfold is_dead, EMPTY, TOMBSTONE. lia.
Qed.

#[export] Hint Resolve cmp_mask_repr dead_mask_repr scalar_dead_repr scalar_occupied_repr : bits.

#[export] Instance IpoGroup_ok t : TombGroupOk (IpoGroup t) 16.
Proof.
  destruct t; split; try done; intros; cbn [IpoGroup tg_match_byte tg_match_empty
    tg_match_empty_or_tombstone tg_match_occupied];
    first [ apply cmp_mask_repr | apply dead_mask_repr
          | by apply scalar_occupied_repr
          | apply scalar_repr with (p := is_dead)
          | apply (not_repr _ 16); [apply dead_mask_repr|done]
          | apply (scalar_repr 16 ctrl ptr (λ b, b =? EMPTY))
          | apply (scalar_repr 16 ctrl ptr (λ b, b =? v)) ].
Qed.

Lemma or_chunks_eq chunk :
  or_chunks chunk =
  Z.lor (Z.lor (Z.lor (chunk 0%nat) (Z.shiftl (chunk 1%nat) 16)) (Z.shiftl (chunk 2%nat) 32))
    (Z.shiftl (chunk 3%nat) 48).
Proof. unfold or_chunks. cbn [fold_left seq]. change (Z.of_nat (0 * 16)) with 0.
  by rewrite Z.shiftl_0_r, Z.lor_0_l. Qed.

Lemma ipo64_match_byte_sse2_repr ctrl ptr v :
  mask_repr (ipo64_match_byte_sse2 ctrl ptr v) 64 (λ i, byte_at ctrl (ptr + i) =? v).
Proof. apply (four_chunks_repr _ _ _ _ ctrl ptr (λ b, b =? v)); apply cmp_mask_repr. Qed.

Lemma ipo64_sse2_both ctrl ptr v :
  ipo64_match_byte_and_empty_sse2 ctrl ptr v =
    (ipo64_match_byte_sse2 ctrl ptr v, ipo64_match_empty_sse2 ctrl ptr).
Proof.
  unfold ipo64_match_byte_and_empty_sse2. rewrite !or_chunks_eq.
  change (0 * 16)%nat with 0%nat. rewrite Nat.add_0_r. done.
Qed.

Lemma ipo64_group_of_ok mb me met mo both :
  (∀ ctrl ptr v, mask_repr (mb ctrl ptr v) 64 (λ i, byte_at ctrl (ptr + i) =? v)) →
  (∀ ctrl ptr, mask_repr (me ctrl ptr) 64 (λ i, byte_at ctrl (ptr + i) =? EMPTY)) →
  (∀ ctrl ptr, (∀ i, 0 <= byte_at ctrl i) →
     mask_repr (met ctrl ptr) 64 (λ i, is_dead (byte_at ctrl (ptr + i)))) →
  (∀ ctrl ptr, (∀ i, 0 <= byte_at ctrl i) →
     mask_repr (mo ctrl ptr) 64 (λ i, negb (is_dead (byte_at ctrl (ptr + i))))) →
  (∀ ctrl ptr v, both ctrl ptr v = (mb ctrl ptr v, me ctrl ptr)) →
  TombGroupOk (ipo64_group_of mb me met mo both) 64.
Proof. intros. split; cbn; auto. Qed.

#[export] Instance Ipo64Group_ok t : TombGroupOk (Ipo64Group t) 64.
Proof.
  destruct t; apply ipo64_group_of_ok; intros ctrl ptr.
  - intros v. apply scalar_repr with (p := λ b, b =? v).
  - apply scalar_repr with (p := λ b, b =? EMPTY).
  - apply scalar_dead_repr.
  - apply scalar_occupied_repr.
  - intros v. reflexivity.
  - apply ipo64_match_byte_sse2_repr.
  - apply ipo64_match_byte_sse2_repr.
  - intros _. apply (or_chunks_repr _ ctrl ptr is_dead). intros i. apply dead_mask_repr.
  - intros _. apply (or_chunks_repr _ ctrl ptr (λ b, negb (is_dead b))). intros i.
    apply (not_repr _ 16); [apply dead_mask_repr|done].
  - apply ipo64_sse2_both.
  - intros v. apply (two_chunks_repr _ _ ctrl ptr (λ b, b =? v)); apply cmp_mask_repr.
  - apply (two_chunks_repr _ _ ctrl ptr (λ b, b =? 0)); apply cmp_mask_repr.
  - intros _. apply (two_chunks_repr _ _ ctrl ptr is_dead); apply dead_mask_repr.
  - intros _. unfold ipo64_match_occupied_avx2. rewrite Nat.add_0_r.
    apply (two_chunks_repr _ _ ctrl ptr (λ b, negb (is_dead b)));
      apply (not_repr _ 32); [apply dead_mask_repr|done|apply dead_mask_repr|done].
  - intros v. reflexivity.
  - intros v. apply cmp_mask_repr.
  - apply cmp_mask_repr.
  - intros _. apply lor_repr; apply cmp_mask_repr.
  - intros _. apply (not_repr _ 64); [|done]. apply lor_repr; apply cmp_mask_repr.
  - intros v. reflexivity.
Qed.

(** The tombstone groups return the same masks in every tier: SSE2 and
    scalar for 16 slots; AVX-512BW, AVX2, SSE2 and scalar for 64. *)
Theorem tomb_tiers_agree (t1 t2 : simd_tier) (ctrl : list Z) (ptr : nat) (v : Z) :
  (∀ i, 0 <= byte_at ctrl i) →
  let agree (G1 G2 : TombGroupOps) :=
    tg_match_byte G1 ctrl ptr v = tg_match_byte G2 ctrl ptr v ∧
    tg_match_empty G1 ctrl ptr = tg_match_empty G2 ctrl ptr ∧
    tg_match_empty_or_tombstone G1 ctrl ptr = tg_match_empty_or_tombstone G2 ctrl ptr ∧
    tg_match_occupied G1 ctrl ptr = tg_match_occupied G2 ctrl ptr ∧
    tg_match_byte_and_empty G1 ctrl ptr v = tg_match_byte_and_empty G2 ctrl ptr v in
  agree (IpoGroup t1) (IpoGroup t2) ∧ agree (Ipo64Group t1) (Ipo64Group t2).
Proof.
  intros Hb agree.
  assert (∀ gs G1 G2, TombGroupOk G1 gs → TombGroupOk G2 gs → agree G1 G2) as Hag.
  { intros gs G1 G2 H1 H2. unfold agree. rewrite !tg_match_both.
    assert (tg_match_byte G1 ctrl ptr v = tg_match_byte G2 ctrl ptr v) as ->
      by (eapply mask_repr_eq; apply tg_match_byte_repr).
    assert (tg_match_empty G1 ctrl ptr = tg_match_empty G2 ctrl ptr) as ->
      by (eapply mask_repr_eq; apply tg_match_empty_repr).
    split_and_all; try done; eapply mask_repr_eq;
      first [by apply tg_match_dead_repr | by apply tg_match_occupied_repr]. }
  split; eapply Hag; apply _.
Qed.

Lemma tomb_tiers_agree_witness :
  tg_match_occupied (Ipo64Group AVX2) (map Z.of_nat (seq 0 64)) 0 =
  tg_match_occupied (Ipo64Group Scalar) (map Z.of_nat (seq 0 64)) 0.
Proof.
  destruct (tomb_tiers_agree AVX2 Scalar (map Z.of_nat (seq 0 64)) 0 5) as [_ H].
  - intros i. unfold byte_at. destruct (_ !! i) as [z|] eqn:E; simpl; [|lia].
    apply list_lookup_fmap_Some in E as (n & -> & _). lia.
  - apply H.
Defined.
