(* ===== verification/TombTable.v ===== *)
(** * The tombstone raw tables: definitions

    [in_place_overflow/raw/mod.rs] (IPO) and [ipo64/raw/mod.rs] (IPO64).  The
    two files hold the same engine; a [TombDesign] records the constants and
    choices in which they differ, and the map of this file points to the IPO
    lines.  [Ipo.v] and [Ipo64.v] instantiate it.  A loop whose number of steps
    is not bounded by its text takes the step budget [fuel]. *)

From Stdlib Require Import ZArith Lia.
From S2P Require Import Prelude Probe Bitmask HashTag Group Layout.
From S2P Require Export SlotWalk Memory TombGroup TableApi.

(** ** Designs *)

Record TombDesign := {
  TG : TombGroupOps;
  TTag : TombstoneTag;
  T_GROUP_SIZE : nat;
  META_GROUP_BYTES : nat;
  T_SENTINEL : nat;
  (** AND indexing reads the low bits of the hash, shift indexing the high ones *)
  T_REGION : HashRegion;
  T_bucket_index : nat → nat → nat;
  (** IPO64 recognises an unallocated table by its metadata pointer, IPO by
      [max_load == 0] *)
  ALLOC_BY_POINTER : bool;
  (** IPO re-inserts with [insert_after_resize] and adjusts the counters at
      the end; IPO64 re-inserts with [insert_no_check] *)
  BATCHED_REHASH : bool;
}.

(*@ in_place_overflow/raw/mod.rs : pub(crate) enum ProbeResult *)
Inductive ProbeResult :=
  | Found (gi si : nat)
  | InsertSlot (gi si : nat) (full_mask : Z)
  | NotFound.

(*@ in_place_overflow/raw/mod.rs : 35-42 : max_load_for_capacity *)
Definition max_load_for_capacity (capacity : nat) : nat := capacity * 7 / 8.

(** IPO has no [shift] field and IPO64 no [max_load] field; each design reads
    only its own. *)
(*@ in_place_overflow/raw/mod.rs : pub struct RawTable *)
Record RawTable {K V : Type} := {
  mask : nat;
  ctrl : Ctrl K V;
  len : nat;
  growth_left : nat;
  max_load : nat;
  shift : Z;
}.
Arguments RawTable : clear implicits.

Definition with_ctrl {K V} (t : RawTable K V) (c : Ctrl K V) : RawTable K V :=
  {| mask := mask t; ctrl := c; len := len t; growth_left := growth_left t;
     max_load := max_load t; shift := shift t |}.
Definition with_len {K V} (t : RawTable K V) (n : nat) : RawTable K V :=
  {| mask := mask t; ctrl := ctrl t; len := n; growth_left := growth_left t;
     max_load := max_load t; shift := shift t |}.
Definition with_growth_left {K V} (t : RawTable K V) (n : nat) : RawTable K V :=
  {| mask := mask t; ctrl := ctrl t; len := len t; growth_left := n;
     max_load := max_load t; shift := shift t |}.

(*@ in_place_overflow/raw/mod.rs : pub fn new() *)
Definition new {K V} : RawTable K V :=
  {| mask := 0; ctrl := EMPTY_SENTINEL; len := 0; growth_left := 0; max_load := 0; shift := 64%Z |}.

Section table.
Context (D : TombDesign) {K V : Type} `{EqDecision K} (hash_key : K → Z).
Implicit Types t : RawTable K V.

Definition ctrl_bytes (c : Ctrl K V) : list Z :=
  match c with EMPTY_SENTINEL => replicate (T_SENTINEL D) 0%Z | Alloc b => bytes b end.

(*@ in_place_overflow/raw/mod.rs : pub(crate) fn num_groups *)
Definition num_groups t : nat := mask t + 1.

(*@ in_place_overflow/raw/mod.rs : pub(crate) fn is_allocated *)
Definition is_allocated t : bool :=
  if ALLOC_BY_POINTER D then match ctrl t with EMPTY_SENTINEL => false | Alloc _ => true end
  else 0 <? max_load t.

(*@ in_place_overflow/raw/mod.rs : pub fn capacity *)
Definition capacity t : nat := if is_allocated t then num_groups t * T_GROUP_SIZE D else 0.

(*@ in_place_overflow/raw/mod.rs : pub(crate) fn groups_for_capacity *)
Definition groups_for_capacity (capacity : Z) : Z :=
  let gs := Z.of_nat (T_GROUP_SIZE D) in
  let min_slots := (wrap64 (capacity * 8 + 7 - 1) / 7)%Z in
  let min_groups := (wrap64 (min_slots + gs - 1) / gs)%Z in
  next_power_of_two min_groups.

(*@ in_place_overflow/raw/mod.rs : pub(crate) fn allocate *)
Definition allocate t (num_groups : nat) : RawTable K V :=
  let meta_size := num_groups * META_GROUP_BYTES D in
  let total_buckets := num_groups * T_GROUP_SIZE D in
  let fresh := replicate meta_size uninit in
  {| mask := num_groups - 1;
     ctrl := Alloc {| bytes := zero_bytes meta_size fresh; slots := replicate total_buckets None |};
     len := len t;
     growth_left := max_load_for_capacity total_buckets;
     max_load := max_load_for_capacity total_buckets;
     shift := wrapping_sub32 64 (Z.of_nat (trailing_zeros 64 (Z.of_nat num_groups))) |}.

(*@ in_place_overflow/raw/mod.rs : pub fn with_capacity *)
Definition with_capacity (capacity : Z) : RawTable K V :=
  if (capacity =? 0)%Z then new
  else allocate new (Z.to_nat (groups_for_capacity capacity)).

(** The second component is the block handed to the allocator. *)
(*@ in_place_overflow/raw/mod.rs : unsafe fn deallocate *)
Definition deallocate t : RawTable K V * option (Block K V) :=
  if negb (is_allocated t) then (t, None)
  else
    ({| mask := mask t; ctrl := EMPTY_SENTINEL; len := len t;
        growth_left := if ALLOC_BY_POINTER D then 0 else growth_left t;
        max_load := 0; shift := shift t |},
     match ctrl t with Alloc b => Some b | EMPTY_SENTINEL => None end).

(*@ in_place_overflow/raw/mod.rs : pub(crate) fn group_index *)
Definition group_index t (h : Z) : nat :=
  match T_REGION D with
  | Low => Z.to_nat (Z.land h (Z.of_nat (mask t)))
  | High => Z.to_nat (Z.land (wrapping_shr64 h (shift t)) (Z.of_nat (mask t)))
  end.

(*@ in_place_overflow/raw/mod.rs : pub(crate) unsafe fn meta_ptr *)
Definition meta_ptr (gi : nat) : nat := gi * META_GROUP_BYTES D.

(*@ in_place_overflow/raw/mod.rs : 237-245 : RawTable::key_ptr_impl, RawTable::value_ptr_impl *)
Definition kv_at t (gi si : nat) : option (K * V) :=
  mjoin (ctrl_slots (ctrl t) !! T_bucket_index D gi si).

Definition key_is t (gi si : nat) (eq : K → bool) : bool :=
  match kv_at t gi si with Some (k, _) => eq k | None => false end.

Definition write_kv t (gi si : nat) (kv : K * V) : RawTable K V :=
  with_ctrl t (write_slots_with (ctrl t) (λ l, <[T_bucket_index D gi si := Some kv]> l)).

Definition write_meta t (gi si : nat) (b : Z) : RawTable K V :=
  with_ctrl t (write_bytes_with (ctrl t) (λ l, set_meta l (meta_ptr gi) si b)).

(** [Group::set_meta(meta, si, reduced); S::write(.., key, value)] *)
Definition fill t (h : Z) (gi si : nat) (key : K) (value : V) : RawTable K V :=
  write_kv (write_meta t gi si (reduced_hash (TTag D) h)) gi si (key, value).

Definition replace_value t (gi si : nat) (value : V) : RawTable K V * option V :=
  match kv_at t gi si with
  | Some (k, v) => (write_kv t gi si (k, value), Some v)
  | None => (t, None)
  end.

Definition group_occupied t (gi : nat) : Z :=
  tg_match_occupied (TG D) (ctrl_bytes (ctrl t)) (meta_ptr gi).

Definition group_empty t (gi : nat) : Z :=
  tg_match_empty (TG D) (ctrl_bytes (ctrl t)) (meta_ptr gi).

Definition group_tombs t (gi : nat) : Z :=
  tg_match_byte (TG D) (ctrl_bytes (ctrl t)) (meta_ptr gi) TOMBSTONE.

(** [for gi in 0..num_groups { for si in match_occupied(..) { .. } }] *)
Definition occupied_slots t : list (nat * nat) :=
  gi ← seq 0 (num_groups t); pair gi <$> bits (tg_mask (TG D)) (group_occupied t gi).

Definition occupied_kvs t : list (K * V) :=
  omap (λ '(gi, si), kv_at t gi si) (occupied_slots t).

Context (fuel : nat).

(** ** Lookup *)

Definition scan_keys t (gi : nat) (matches : Z) (eq : K → bool) : option nat :=
  scan (tg_mask (TG D)) matches (λ si, key_is t gi si eq).

(*@ in_place_overflow/raw/mod.rs : pub(crate) fn find_by_hash< *)
Definition find_by_hash t (h : Z) (eq : K → bool) : option (option (nat * nat)) :=
  let reduced := reduced_hash (TTag D) h in
  probe_loop fuel (mask t)
    (λ _ gi (_ : unit),
       let '(matches, empties) :=
         tg_probe_masks (TG D) (ctrl_bytes (ctrl t)) (meta_ptr gi) reduced in
       match scan_keys t gi matches eq with
       | Some si => inl (Some (gi, si))
       | None => if any_set empties then inl None else inr ()
       end)
    0 (group_index t h) ().

(*@ in_place_overflow/raw/mod.rs : pub(crate) fn find_with_hash *)
Definition find_with_hash t (key : K) (h : Z) : option (option (nat * nat)) :=
  find_by_hash t h (λ k, bool_decide (k = key)).

(*@ in_place_overflow/raw/mod.rs : pub fn find< *)
Definition find t (key : K) : option (option (nat * nat)) := find_with_hash t key (hash_key key).

(*@ in_place_overflow/raw/mod.rs : pub fn get< *)
Definition get t (key : K) : option (option V) :=
  do r <- find t key;
  Some (match r with Some (gi, si) => snd <$> kv_at t gi si | None => None end).

(** ** Removal *)

(*@ in_place_overflow/raw/mod.rs : unsafe fn erase_slot *)
Definition erase_slot t (gi si : nat) : RawTable K V :=
  let t := write_meta t gi si TOMBSTONE in
  with_len t (len t - 1).

(*@ in_place_overflow/raw/mod.rs : pub(crate) fn remove_by_hash *)
Definition remove_by_hash t (h : Z) (eq : K → bool) : option (RawTable K V * option (K * V)) :=
  do r <- find_by_hash t h eq;
  match r with
  | None => Some (t, None)
  | Some (gi, si) =>
      let bucket := kv_at t gi si in
      let t := write_meta t gi si TOMBSTONE in
      Some (with_len t (len t - 1), bucket)
  end.

(*@ in_place_overflow/raw/mod.rs : pub fn remove< *)
Definition remove t (key : K) : option (RawTable K V * option V) :=
  if negb (is_allocated t) then Some (t, None)
  else
    do r <- find_with_hash t key (hash_key key);
    match r with
    | None => Some (t, None)
    | Some (gi, si) =>
        let bucket := kv_at t gi si in
        let t := write_meta t gi si TOMBSTONE in
        Some (with_len t (len t - 1), snd <$> bucket)
    end.

(** ** Insertion *)

(*@ in_place_overflow/raw/mod.rs : pub(crate) fn insert_after_resize *)
Definition insert_after_resize t (h : Z) (key : K) (value : V) : option (RawTable K V) :=
  probe_loop fuel (mask t)
    (λ _ gi (_ : unit),
       match lowest_set_bit (tg_mask (TG D)) (group_empty t gi) with
       | Some si => inl (fill t h gi si key value)
       | None => inr ()
       end)
    0 (group_index t h) ().

(*@ in_place_overflow/raw/mod.rs : pub(crate) fn insert_no_check *)
Definition insert_no_check t (h : Z) (key : K) (value : V) :
    option (RawTable K V * (nat * nat)) :=
  probe_loop fuel (mask t)
    (λ _ gi first_tombstone,
       let first_tombstone :=
         match first_tombstone with
         | Some _ => first_tombstone
         | None => pair gi <$> lowest_set_bit (tg_mask (TG D)) (group_tombs t gi)
         end in
       match lowest_set_bit (tg_mask (TG D)) (group_empty t gi) with
       | Some si =>
           let '(ins_gi, ins_si, decrement) :=
             match first_tombstone with
             | Some (tgi, tsi) => (tgi, tsi, false)
             | None => (gi, si, true)
             end in
           let t := fill t h ins_gi ins_si key value in
           let t := with_len t (len t + 1) in
           let t := if decrement : bool then with_growth_left t (growth_left t - 1) else t in
           inl (t, (ins_gi, ins_si))
       | None => inr first_tombstone
       end)
    0 (group_index t h) (None : option (nat * nat)).

(*@ in_place_overflow/raw/mod.rs : fn find_or_locate_overflow *)
Definition find_or_locate_overflow t (eq : K → bool) (reduced : Z) (home_gi : nat)
    (first_available : option (nat * nat)) : option ProbeResult :=
  probe_loop fuel (mask t)
    (λ _ gi first_available,
       let '(matches, empties) :=
         tg_match_byte_and_empty (TG D) (ctrl_bytes (ctrl t)) (meta_ptr gi) reduced in
       match scan_keys t gi matches eq with
       | Some si => inl (Found gi si)
       | None =>
           let first_available :=
             match first_available with
             | Some _ => first_available
             | None =>
                 match lowest_set_bit (tg_mask (TG D)) (group_tombs t gi) with
                 | Some tsi => Some (gi, tsi)
                 | None => pair gi <$> lowest_set_bit (tg_mask (TG D)) empties
                 end
             end in
           if any_set empties then
             inl (match first_available with
                  | Some (ins_gi, ins_si) => InsertSlot ins_gi ins_si 0%Z
                  | None => NotFound
                  end)
           else inr first_available
       end)
    1 (next_group (mask t) home_gi 1) first_available.

(*@ in_place_overflow/raw/mod.rs : pub(crate) fn find_or_locate *)
Definition find_or_locate t (h : Z) (eq : K → bool) : option ProbeResult :=
  let reduced := reduced_hash (TTag D) h in
  let gi := group_index t h in
  let '(matches, empties) :=
    tg_match_byte_and_empty (TG D) (ctrl_bytes (ctrl t)) (meta_ptr gi) reduced in
  match scan_keys t gi matches eq with
  | Some si => Some (Found gi si)
  | None =>
      match lowest_set_bit (tg_mask (TG D)) empties with
      | Some si =>
          match lowest_set_bit (tg_mask (TG D)) (group_tombs t gi) with
          | Some tsi => Some (InsertSlot gi tsi 0%Z)
          | None => Some (InsertSlot gi si 0%Z)
          end
      | None =>
          let first_tombstone := pair gi <$> lowest_set_bit (tg_mask (TG D)) (group_tombs t gi) in
          find_or_locate_overflow t eq reduced gi first_tombstone
      end
  end.

(*@ in_place_overflow/raw/mod.rs : pub(crate) fn insert_at *)
Definition insert_at t (h : Z) (gi si : nat) (key : K) (value : V) : RawTable K V :=
  let old_meta := get_meta (ctrl_bytes (ctrl t)) (meta_ptr gi) si in
  let t := fill t h gi si key value in
  let t := if (old_meta =? EMPTY)%Z then with_growth_left t (growth_left t - 1) else t in
  with_len t (len t + 1).

(** ** Rehashing *)

Fixpoint reinsert_batched (kvs : list (K * V)) t : option (RawTable K V) :=
  match kvs with
  | [] => Some t
  | (key, value) :: kvs' =>
      do t <- insert_after_resize t (hash_key key) key value; reinsert_batched kvs' t
  end.

Fixpoint reinsert_counted (kvs : list (K * V)) t : option (RawTable K V) :=
  match kvs with
  | [] => Some t
  | (key, value) :: kvs' =>
      do ' (t, _) <- insert_no_check t (hash_key key) key value; reinsert_counted kvs' t
  end.

(*@ in_place_overflow/raw/mod.rs : pub fn rehash_with< *)
Definition rehash_with t (new_num_groups : nat) : option (RawTable K V) :=
  let was_allocated := is_allocated t in
  let old_len := len t in
  let t0 := {| mask := 0; ctrl := EMPTY_SENTINEL; len := 0; growth_left := growth_left t;
               max_load := 0; shift := shift t |} in
  let t1 := allocate t0 new_num_groups in
  if negb was_allocated then Some t1
  else if BATCHED_REHASH D then
    do t2 <- reinsert_batched (occupied_kvs t) t1;
    Some (with_growth_left (with_len t2 old_len) (growth_left t2 - old_len))
  else reinsert_counted (occupied_kvs t) t1.

(*@ in_place_overflow/raw/mod.rs : fn grow_or_rehash *)
Definition grow_or_rehash t : option (RawTable K V) :=
  let new_groups :=
    if negb (is_allocated t) then 1
    else
      let cap := num_groups t * T_GROUP_SIZE D in
      if max_load_for_capacity cap <=? len t then num_groups t * 2 else num_groups t in
  rehash_with t new_groups.

(** The value slot is returned by position. *)
(*@ in_place_overflow/raw/mod.rs : pub fn insert_with_rehash *)
Definition insert_with_rehash t (key : K) (value : V) :
    option (RawTable K V * (nat * nat) * bool) :=
  let t := if negb (is_allocated t) then allocate t 1 else t in
  let h := hash_key key in
  do r <- find_with_hash t key h;
  match r with
  | Some p => Some (t, p, false)
  | None =>
      do t <- (if growth_left t =? 0 then grow_or_rehash t else Some t);
      do ' (t, p) <- insert_no_check t h key value;
      Some (t, p, true)
  end.

(** ** The table interface *)

(*@ in_place_overflow/raw/mod.rs : fn insert_or_replace *)
Definition insert_or_replace t (key : K) (value : V) : option (RawTable K V * option V) :=
  let t := if negb (is_allocated t) then allocate t 1 else t in
  let h := hash_key key in
  let slow t :=
    do r <- find_by_hash t h (λ k, bool_decide (k = key));
    match r with
    | Some (gi, si) => Some (replace_value t gi si value)
    | None =>
        do t <- (if growth_left t =? 0 then grow_or_rehash t else Some t);
        do ' (t, _) <- insert_no_check t h key value;
        Some (t, None)
    end in
  if growth_left t =? 0 then
    do r <- find_by_hash t h (λ k, bool_decide (k = key));
    match r with
    | Some (gi, si) => Some (replace_value t gi si value)
    | None =>
        do t <- grow_or_rehash t;
        do ' (t, _) <- insert_no_check t h key value;
        Some (t, None)
    end
  else
    let reduced := reduced_hash (TTag D) h in
    let gi := group_index t h in
    let '(matches, empties) :=
      tg_match_byte_and_empty (TG D) (ctrl_bytes (ctrl t)) (meta_ptr gi) reduced in
    match scan_keys t gi matches (λ k, bool_decide (k = key)) with
    | Some si => Some (replace_value t gi si value)
    | None =>
        match lowest_set_bit (tg_mask (TG D)) empties with
        | Some si =>
            let t := fill t h gi si key value in
            let t := with_len t (len t + 1) in
            Some (with_growth_left t (growth_left t - 1), None)
        | None => slow t
        end
    end.

(*@ in_place_overflow/raw/mod.rs : fn find_for_entry *)
Definition find_for_entry t (h : Z) (key : K) : option EntryProbe :=
  if growth_left t =? 0 then
    do r <- find_by_hash t h (λ k, bool_decide (k = key));
    Some (match r with
          | Some (gi, si) => EntryFound gi si
          | None => EntryVacant None
          end)
  else
    let reduced := reduced_hash (TTag D) h in
    let gi := group_index t h in
    let '(matches, empties) :=
      tg_match_byte_and_empty (TG D) (ctrl_bytes (ctrl t)) (meta_ptr gi) reduced in
    match scan_keys t gi matches (λ k, bool_decide (k = key)) with
    | Some si => Some (EntryFound gi si)
    | None =>
        match lowest_set_bit (tg_mask (TG D)) empties with
        | Some si => Some (EntryVacant (Some (gi, si, 0%Z)))
        | None =>
            do r <- find_or_locate t h (λ k, bool_decide (k = key));
            Some (match r with
                  | Found gi si => EntryFound gi si
                  | InsertSlot gi si m => EntryVacant (Some (gi, si, m))
                  | NotFound => EntryVacant None
                  end)
        end
    end.

(*@ in_place_overflow/raw/mod.rs : fn ensure_capacity *)
Definition ensure_capacity t : option (RawTable K V) :=
  if growth_left t =? 0 then grow_or_rehash t else Some t.

(*@ in_place_overflow/raw/mod.rs : fn reserve *)
Definition reserve t (additional : Z) : option (RawTable K V + Panic) :=
  let needed := (Z.of_nat (len t) + additional)%Z in
  if (2 ^ 64 <=? needed)%Z then Some (inr CapacityOverflow)
  else if negb (is_allocated t) then
    Some (inl (if (0 <? additional)%Z
               then allocate t (Z.to_nat (groups_for_capacity needed)) else t))
  else if (Z.of_nat (max_load_for_capacity (num_groups t * T_GROUP_SIZE D)) <? needed)%Z then
    let new_groups := Z.to_nat (groups_for_capacity needed) in
    if num_groups t <? new_groups then
      do t <- rehash_with t new_groups; Some (inl t)
    else Some (inl t)
  else Some (inl t).

(*@ in_place_overflow/raw/mod.rs : fn shrink_to_fit *)
Definition shrink_to_fit t : option (RawTable K V) :=
  if len t =? 0 then Some new
  else
    let min_groups := Z.to_nat (groups_for_capacity (Z.of_nat (len t))) in
    if min_groups <? num_groups t then rehash_with t min_groups else Some t.

(*@ in_place_overflow/raw/mod.rs : pub fn clear *)
Definition clear t : RawTable K V * list (K * V) :=
  if negb (is_allocated t) then (t, [])
  else
    let dropped := occupied_kvs t in
    let meta_size := num_groups t * META_GROUP_BYTES D in
    let t := with_ctrl t (write_bytes_with (ctrl t) (zero_bytes meta_size)) in
    let t := with_len t 0 in
    (with_growth_left t (max_load_for_capacity (num_groups t * T_GROUP_SIZE D)), dropped).

(** [Drop]: the pairs dropped and the block freed. *)
(*@ in_place_overflow/raw/mod.rs : fn drop( *)
Definition drop_table t : list (K * V) * option (Block K V) :=
  if negb (is_allocated t) then ([], None) else (occupied_kvs t, (deallocate t).2).

Definition clone_slot (src dst : RawTable K V) (gi si : nat) : RawTable K V :=
  match kv_at src gi si with
  | Some kv => write_kv dst gi si kv
  | None => dst
  end.

(*@ in_place_overflow/raw/mod.rs : fn clone( *)
Definition clone_table t : RawTable K V :=
  if negb (is_allocated t) then new
  else
    let new_table := allocate new (num_groups t) in
    let meta_size := num_groups t * META_GROUP_BYTES D in
    let new_table := with_ctrl new_table
      (write_bytes_with (ctrl new_table)
         (λ l, take meta_size (ctrl_bytes (ctrl t)) ++ drop meta_size l)) in
    let new_table :=
      fold_left (λ nt '(gi, si), clone_slot t nt gi si) (occupied_slots t) new_table in
    with_growth_left (with_len new_table (len t)) (growth_left t).

(** ** Iterators *)

(*@ in_place_overflow/raw/mod.rs : pub fn iter_slots *)
Definition iter_slots t : SlotIter :=
  {| it_group := 0; it_mask := if negb (is_allocated t) then 0%Z else group_occupied t 0 |}.

(*@ in_place_overflow/raw/mod.rs : fn next( @1 *)
Definition slot_iter_next (n : nat) t (it : SlotIter) : option (nat * nat) * SlotIter :=
  slot_walk n (tg_mask (TG D)) (group_occupied t) (mask t) it.

(*@ in_place_overflow/raw/mod.rs : pub struct IntoIter *)
Record IntoIter := { into_table : RawTable K V; into_pos : SlotIter }.

(*@ in_place_overflow/raw/mod.rs : fn into_iter_impl *)
Definition into_iter_impl t : IntoIter := {| into_table := t; into_pos := iter_slots t |}.

(*@ in_place_overflow/raw/mod.rs : fn drain_impl *)
Definition drain_impl t : IntoIter * RawTable K V := (into_iter_impl t, new).

(** A slot that is moved out becomes EMPTY, not TOMBSTONE. *)
(*@ in_place_overflow/raw/mod.rs : fn next( @2 *)
Definition into_iter_next (n : nat) (it : IntoIter) : option (option (K * V)) * IntoIter :=
  let t := into_table it in
  match slot_iter_next n t (into_pos it) with
  | (Some (gi, si), pos) =>
      let kv := kv_at t gi si in
      let t := write_meta t gi si EMPTY in
      let t := with_len t (len t - 1) in
      (Some kv, {| into_table := t; into_pos := pos |})
  | (None, pos) => (None, {| into_table := t; into_pos := pos |})
  end.
End table.
