(* ===== verification/TombInv.v ===== *)
(** * The tombstone raw tables: invariant and probing

    A probe ends at the first group with an EMPTY slot, and [growth_left]
    counts the EMPTY slots that may still be filled: together with the slots
    in use it makes the full load, so that an EMPTY slot always remains. *)

From Stdlib Require Import ZArith Lia.
From S2P Require Import Prelude Probe SlotMap Bitmask HashTag Group Layout TombTable.

(** What the engine relies on. *)
Class DesignOk (D : TombDesign) := {
  design_group :: TombGroupOk (TG D) (T_GROUP_SIZE D);
  design_tag :: TombTagOk (TTag D);
  design_gs : 2 <= T_GROUP_SIZE D;
  design_meta : META_GROUP_BYTES D = T_GROUP_SIZE D;
  design_bucket gi si : si < T_GROUP_SIZE D → T_bucket_index D gi si = gi * T_GROUP_SIZE D + si;
  design_sentinel : META_GROUP_BYTES D <= T_SENTINEL D;
}.

Section inv.
Context (D : TombDesign) `{!DesignOk D} {K V : Type} `{Countable K} (hash_key : K → Z).
Implicit Types t : RawTable K V.

(** ** Slots *)

Definition tag_at t (gi si : nat) : Z := get_meta (ctrl_bytes D (ctrl t)) (meta_ptr D gi) si.
Definition all_slots t : list (nat * nat) := slot_list (mask t + 1) (T_GROUP_SIZE D).
Definition in_range t (gi si : nat) : Prop := gi <= mask t ∧ si < T_GROUP_SIZE D.

Definition slot_entry t (p : nat * nat) : option (K * V) :=
  if is_dead (tag_at t p.1 p.2) then None else kv_at D t p.1 p.2.

Definition entries t : list (K * V) := kvs (all_slots t) (slot_entry t).
Definition to_map t : gmap K V := slot_map (all_slots t) (slot_entry t).

Definition home t (k : K) : nat := group_index D t (hash_key k).
Definition ktag (k : K) : Z := reduced_hash (TTag D) (hash_key k).
Definition pos t (k : K) (i : nat) : nat := probe_pos (mask t) (home t k) i.

(** A group with an EMPTY slot stops every probe. *)
Definition has_empty t (g : nat) : Prop := ∃ s, s < T_GROUP_SIZE D ∧ tag_at t g s = EMPTY.
Definition reach t (k : K) (g : nat) : Prop := reached (pos t k) (has_empty t) g.

(** The slots that are not EMPTY: pairs and tombstones. *)
Definition used t : nat := countb (λ p, negb (tag_at t p.1 p.2 =? EMPTY)%Z) (all_slots t).

(** ** The invariant *)

Definition log_groups t : nat := Nat.log2 (mask t + 1).
Definition full_load t : nat := max_load_for_capacity ((mask t + 1) * T_GROUP_SIZE D).

Definition alloc_ok t : Prop :=
  ∃ b, ctrl t = Alloc b ∧
    length (bytes b) = S (mask t) * T_GROUP_SIZE D ∧
    length (slots b) = S (mask t) * T_GROUP_SIZE D.

Definition unallocated t : Prop :=
  ctrl t = EMPTY_SENTINEL ∧ mask t = 0 ∧ max_load t = 0 ∧ growth_left t = 0.

Definition allocated t : Prop :=
  alloc_ok t ∧ max_load t = full_load t ∧ growth_left t + used t = full_load t.

(** What holds at every moment, also in the middle of a rehash: the shape, and
    every pair where its probe can find it. *)
Record sound t : Prop := {
  sd_pow2 : S (mask t) = 2 ^ log_groups t;
  sd_log : log_groups t <= MAX_LOG_GROUPS;
  sd_shift : shift t = shift_of (mask t + 1);
  sd_bytes i : (0 <= byte_at (ctrl_bytes D (ctrl t)) i)%Z;
  sd_slot gi si :
    in_range t gi si → is_dead (tag_at t gi si) = false →
    ∃ k v, kv_at D t gi si = Some (k, v) ∧ tag_at t gi si = ktag k ∧ reach t k gi;
  sd_unique : unique (all_slots t) (slot_entry t);
}.

(** Some slot is EMPTY. *)
Definition has_room t : Prop := used t < (mask t + 1) * T_GROUP_SIZE D.

(** Between operations the counters agree with the slots. *)
Record wf t : Prop := {
  wf_sound : sound t;
  wf_ctrl : unallocated t ∨ allocated t;
  wf_len : len t = length (entries t);
}.

(** ** Geometry *)

Lemma tomb_elem_of_all_slots t gi si : (gi, si) ∈ all_slots t ↔ in_range t gi si.
Proof. unfold all_slots, in_range. rewrite elem_of_slot_list. lia. Qed.

Lemma tomb_all_slots_NoDup t : NoDup (all_slots t).
Proof. apply slot_list_NoDup. Qed.

Lemma tomb_all_slots_length t : length (all_slots t) = (mask t + 1) * T_GROUP_SIZE D.
Proof. apply slot_list_length. Qed.

Lemma tomb_group_index_le t h : group_index D t h <= mask t.
Proof. unfold group_index. destruct (T_REGION D); apply land_mask_le. Qed.

Lemma tomb_home_le t k : home t k <= mask t.
Proof. apply tomb_group_index_le. Qed.

Lemma sound_log_64 t : sound t → log_groups t <= 64.
Proof. intros Hwf. pose proof (sd_log t Hwf). unfold MAX_LOG_GROUPS in *. lia. Qed.

Lemma tomb_pos_le t k i : sound t → pos t k i <= mask t.
Proof.
  intros Hwf. apply (probe_pos_le _ (log_groups t)); [by apply sd_pow2|by apply sound_log_64|apply tomb_home_le].
Qed.

Lemma tomb_pos_surjective t k g : sound t → g <= mask t → ∃ i, i <= mask t ∧ pos t k i = g.
Proof.
  intros Hwf Hg. destruct (probe_surjective (mask t) (log_groups t) (sd_pow2 t Hwf) (sound_log_64 t Hwf)
    (home t k) g (tomb_home_le t k) Hg) as (i & Hi & Hp).
  exists i. split; [|done]. rewrite <- (sd_pow2 t Hwf) in Hi. lia.
Qed.

Lemma full_load_of t : full_load t = load_of 7 8 (T_GROUP_SIZE D) (mask t + 1).
Proof. done. Qed.

Lemma tomb_full_load_lt t : full_load t < (mask t + 1) * T_GROUP_SIZE D.
Proof using DesignOk0. pose proof design_gs. rewrite full_load_of. apply load_of_lt; lia. Qed.

Lemma tomb_full_load_pos t : 0 < full_load t.
Proof using DesignOk0. pose proof design_gs. rewrite full_load_of. apply load_of_pos; lia. Qed.

(** ** Reading slots *)

Lemma tomb_tag_at_unallocated t gi si : unallocated t → tag_at t gi si = EMPTY.
Proof.
  intros (Hc & _). unfold tag_at, get_meta, byte_at. rewrite Hc. cbn [ctrl_bytes].
  destruct (replicate _ _ !! _) eqn:E; [|done]. by apply lookup_replicate in E as [-> _].
Qed.

Lemma is_allocated_spec t :
  wf t → is_allocated D t = true ↔ allocated t.
Proof.
  intros Hwf. unfold is_allocated. pose proof (tomb_full_load_pos t).
  destruct (wf_ctrl t Hwf) as [(Hc & Hm & Hx & _)|(Ha & Hx & Hg)].
  - assert (¬ allocated t) by (intros [(b & Hb & _) _]; congruence).
    rewrite Hc, Hx. by destruct (ALLOC_BY_POINTER D).
  - assert (allocated t) by done. destruct Ha as (b & Hc & _). rewrite Hc, Hx.
    destruct (ALLOC_BY_POINTER D); [done|]. split; [done|]. intros _. by apply Nat.ltb_lt.
Qed.

Lemma ktag_live k : is_dead (ktag k) = false.
Proof.
  unfold ktag, is_dead, EMPTY, TOMBSTONE.
  pose proof (tomb_tag_range (hash_key k) (T := TTag D)). lia.
Qed.

Lemma tomb_slot_entry_some t p kv :
  slot_entry t p = Some kv → is_dead (tag_at t p.1 p.2) = false ∧ kv_at D t p.1 p.2 = Some kv.
Proof. unfold slot_entry. destruct (is_dead _); [done|]. auto. Qed.

Lemma tomb_slot_entry_none t gi si :
  sound t → in_range t gi si → slot_entry t (gi, si) = None ↔ is_dead (tag_at t gi si) = true.
Proof.
  intros Hwf Hr. unfold slot_entry. simpl. destruct (is_dead (tag_at t gi si)) eqn:E; [done|].
  destruct (sd_slot t Hwf gi si Hr E) as (k & v & -> & _). done.
Qed.

Lemma tomb_slot_entry_reach t gi si k v :
  sound t → in_range t gi si → slot_entry t (gi, si) = Some (k, v) →
  tag_at t gi si = ktag k ∧ reach t k gi.
Proof.
  intros Hwf Hr [Ht Hkv]%tomb_slot_entry_some. simpl in *.
  destruct (sd_slot t Hwf gi si Hr Ht) as (k' & v' & Hkv' & Htag & Hreach). simplify_eq. done.
Qed.

Lemma tomb_to_map_lookup t k v :
  sound t → to_map t !! k = Some v ↔ ∃ gi si, in_range t gi si ∧ slot_entry t (gi, si) = Some (k, v).
Proof.
  intros Hwf. unfold to_map. rewrite slot_map_lookup by (try apply tomb_all_slots_NoDup; by apply sd_unique).
  split.
  - intros ([gi si] & Hin%tomb_elem_of_all_slots & He). eauto.
  - intros (gi & si & Hr & He). exists (gi, si). by rewrite tomb_elem_of_all_slots.
Qed.

Lemma tomb_to_map_lookup_none t k :
  sound t → to_map t !! k = None ↔
    ∀ gi si v, in_range t gi si → slot_entry t (gi, si) ≠ Some (k, v).
Proof.
  intros Hwf. unfold to_map.
  rewrite slot_map_lookup_none by (try apply tomb_all_slots_NoDup; by apply sd_unique). split.
  - intros Hn gi si v Hr. apply Hn. by apply tomb_elem_of_all_slots.
  - intros Hn [gi si] v Hin%tomb_elem_of_all_slots. by apply Hn.
Qed.

Lemma tomb_size_to_map t : wf t → size (to_map t) = len t.
Proof.
  intros Hwf. unfold to_map.
  rewrite slot_map_size by (try apply tomb_all_slots_NoDup; by apply sd_unique, wf_sound).
  symmetry. by apply wf_len.
Qed.

(** ** Counting *)

Lemma entries_le_used t : length (entries t) <= used t.
Proof.
  unfold entries, kvs, used. rewrite <- countb_omap.
  apply countb_le. intros [g s] _. simpl. unfold slot_entry, is_dead. simpl.
  destruct (tag_at t g s =? EMPTY)%Z; simpl; [done|]. done.
Qed.

Lemma len_le_used t : wf t → len t <= used t.
Proof. intros Hwf. rewrite (wf_len t Hwf). apply entries_le_used. Qed.

Lemma used_none t : (∀ g s, in_range t g s → tag_at t g s = EMPTY) → used t = 0.
Proof.
  intros He. unfold used. apply countb_none. intros [g s] Hp%tomb_elem_of_all_slots. simpl.
  by rewrite He.
Qed.

Lemma wf_has_room t : wf t → has_room t.
Proof.
  intros Hwf. unfold has_room. pose proof (tomb_full_load_lt t).
  destruct (wf_ctrl t Hwf) as [Hu|(_ & _ & Hg)]; [|lia].
  rewrite used_none; [lia|]. intros. by apply tomb_tag_at_unallocated.
Qed.

Lemma exists_empty t : has_room t → ∃ g s, in_range t g s ∧ tag_at t g s = EMPTY.
Proof.
  intros Hroom. unfold has_room in Hroom.
  destruct (decide (Exists (λ p, tag_at t p.1 p.2 = EMPTY) (all_slots t))) as [Hex|Hno].
  - apply Exists_exists in Hex as ([g s] & Hin%tomb_elem_of_all_slots & Ht). eauto.
  - exfalso. unfold used in Hroom. rewrite countb_all in Hroom.
    + rewrite tomb_all_slots_length in Hroom. lia.
    + intros p Hp. apply negb_true_iff, Z.eqb_neq. intros Ht. apply Hno, Exists_exists. eauto.
Qed.

(** Every probe is stopped within as many steps as there are groups. *)
Lemma probe_stops t k : sound t → has_room t → ∃ n, n <= mask t ∧ has_empty t (pos t k n).
Proof.
  intros Hwf Hroom. destruct (exists_empty t Hroom) as (g & s & [Hg Hs] & Ht).
  destruct (tomb_pos_surjective t k g Hwf Hg) as (n & Hn & Hp). exists n. split; [done|].
  rewrite Hp. exists s. done.
Qed.

(** ** Masks of a group *)

Abbreviation W := (tg_mask (TG D)).

Lemma tomb_match_range m p : mask_repr m (T_GROUP_SIZE D) p → mask_ok W m.
Proof.
  intros Hm. pose proof (mask_repr_range _ _ _ Hm). pose proof (tg_width (G := TG D)).
  assert (2 ^ Z.of_nat (T_GROUP_SIZE D) <= 2 ^ Z.of_nat (mask_bits W))%Z
    by (apply Z.pow_le_mono_r; lia). unfold mask_ok. lia.
Qed.

(** The lowest slot of a group with a given byte. *)
Lemma lowest_byte_some t gi b si m :
  mask_repr m (T_GROUP_SIZE D) (λ i, byte_at (ctrl_bytes D (ctrl t)) (meta_ptr D gi + i) =? b)%Z →
  lowest_set_bit W m = Some si → si < T_GROUP_SIZE D ∧ tag_at t gi si = b.
Proof.
  intros Hm Hsi. apply lowest_set_bit_Some in Hsi; [|by eapply tomb_match_range].
  destruct Hm as [_ Hm]. rewrite Hm in Hsi. apply andb_true_iff in Hsi as [H1 H2].
  split; [by apply Nat.ltb_lt|by apply Z.eqb_eq].
Qed.

Lemma lowest_byte_none t gi b si m :
  mask_repr m (T_GROUP_SIZE D) (λ i, byte_at (ctrl_bytes D (ctrl t)) (meta_ptr D gi + i) =? b)%Z →
  lowest_set_bit W m = None → si < T_GROUP_SIZE D → tag_at t gi si ≠ b.
Proof.
  intros Hm Hn Hsi. eapply lowest_set_bit_None with (i := si) in Hn; [|by eapply tomb_match_range].
  destruct Hm as [_ Hm]. rewrite Hm in Hn. apply andb_false_iff in Hn as [Hn|Hn].
  - apply Nat.ltb_ge in Hn. lia.
  - by apply Z.eqb_neq.
Qed.

Lemma empty_some t gi si :
  lowest_set_bit W (group_empty D t gi) = Some si → si < T_GROUP_SIZE D ∧ tag_at t gi si = EMPTY.
Proof. apply lowest_byte_some, tg_match_empty_repr. Qed.

Lemma empty_none t gi : lowest_set_bit W (group_empty D t gi) = None → ¬ has_empty t gi.
Proof.
  intros Hn (s & Hs & Ht). revert Ht. eapply lowest_byte_none; [apply tg_match_empty_repr|done|done].
Qed.

Lemma tomb_some t gi si :
  lowest_set_bit W (group_tombs D t gi) = Some si → si < T_GROUP_SIZE D ∧ tag_at t gi si = TOMBSTONE.
Proof. apply lowest_byte_some, tg_match_byte_repr. Qed.

Lemma any_empty t gi : any_set (group_empty D t gi) = true ↔ has_empty t gi.
Proof.
  pose proof (tg_match_empty_repr (G := TG D) (gs := T_GROUP_SIZE D) (ctrl_bytes D (ctrl t)) (meta_ptr D gi)) as Hm.
  pose proof (tomb_match_range _ _ Hm) as Hr. destruct Hm as [_ Hm]. split.
  - intros Ha. apply any_set_true with (w := W) in Ha as (i & Hi); [|exact Hr]. unfold group_empty in Hi. rewrite Hm in Hi.
    apply andb_true_iff in Hi as [H1 H2]. exists i. split; [by apply Nat.ltb_lt|by apply Z.eqb_eq].
  - intros (s & Hs & Ht). apply not_false_is_true. intros Hf.
    eapply any_set_false with (w := W) (i := s) in Hf; [|exact Hr]. unfold group_empty in Hf. rewrite Hm in Hf.
    apply andb_false_iff in Hf as [Hf|Hf]; [apply Nat.ltb_ge in Hf; lia|].
    by apply Z.eqb_neq in Hf.
Qed.

Lemma scan_some t gi r eq si :
  scan_keys D t gi (tg_match_byte (TG D) (ctrl_bytes D (ctrl t)) (meta_ptr D gi) r) eq = Some si →
  si < T_GROUP_SIZE D ∧ tag_at t gi si = r ∧ ∃ k v, kv_at D t gi si = Some (k, v) ∧ eq k = true.
Proof.
  pose proof (tg_match_byte_repr (G := TG D) (gs := T_GROUP_SIZE D) (ctrl_bytes D (ctrl t)) (meta_ptr D gi) r) as Hm.
  unfold scan_keys. intros [Hsi Heq]%scan_Some; [|by eapply tomb_match_range].
  destruct Hm as [_ Hm]. rewrite Hm in Hsi. apply andb_true_iff in Hsi as [H1 H2].
  split; [by apply Nat.ltb_lt|]. split; [by apply Z.eqb_eq|].
  unfold key_is in Heq. destruct (kv_at D t gi si) as [[k v]|]; [eauto|done].
Qed.

Lemma scan_none t gi r eq si k v :
  scan_keys D t gi (tg_match_byte (TG D) (ctrl_bytes D (ctrl t)) (meta_ptr D gi) r) eq = None →
  si < T_GROUP_SIZE D → tag_at t gi si = r → kv_at D t gi si = Some (k, v) → eq k = false.
Proof.
  pose proof (tg_match_byte_repr (G := TG D) (gs := T_GROUP_SIZE D) (ctrl_bytes D (ctrl t)) (meta_ptr D gi) r) as Hm.
  unfold scan_keys. intros Hn Hsi Htag Hkv.
  eapply scan_None with (i := si) in Hn; [|by eapply tomb_match_range|].
  - unfold key_is in Hn. by rewrite Hkv in Hn.
  - destruct Hm as [_ Hm]. rewrite Hm. apply andb_true_iff. split; [by apply Nat.ltb_lt|].
    by apply Z.eqb_eq.
Qed.

(** ** Lookup *)

Definition find_result t (k : K) (r : option (nat * nat)) : Prop :=
  match r with
  | Some (gi, si) => in_range t gi si ∧ ∃ v, slot_entry t (gi, si) = Some (k, v)
  | None => to_map t !! k = None
  end.

(** Group [g] holds [k]. *)
Definition holds t (k : K) (g : nat) : Prop :=
  ∃ s v, s < T_GROUP_SIZE D ∧ slot_entry t (g, s) = Some (k, v).

Abbreviation missed t k := (passed (pos t k) (has_empty t) (holds t k)).

Lemma tomb_missed_absent t k i :
  sound t → missed t k i → ¬ holds t k (pos t k i) → has_empty t (pos t k i) → to_map t !! k = None.
Proof.
  intros Hwf Hm Hh Hs. apply (tomb_to_map_lookup_none t k Hwf). intros gi si v Hr He.
  destruct (tomb_slot_entry_reach t gi si k v Hwf Hr He) as [_ Hreach].
  eapply passed_absent; [exact Hm|exact Hh|exact Hs|exact Hreach|].
  exists si, v. by split; [apply Hr|].
Qed.

Section find.
Context t (k : K) (eq : K → bool) (Hwf : sound t) (Heq : ∀ k', eq k' = true ↔ k' = k).

Lemma tomb_scan_found gi si :
  gi <= mask t →
  scan_keys D t gi (tg_match_byte (TG D) (ctrl_bytes D (ctrl t)) (meta_ptr D gi) (ktag k)) eq = Some si →
  find_result t k (Some (gi, si)).
Proof using Hwf Heq DesignOk0.
  intros Hgi (Hsi & Htag & k' & v & Hkv & Hk)%scan_some. apply Heq in Hk as ->.
  split; [done|]. exists v. unfold slot_entry. simpl. by rewrite Htag, ktag_live.
Qed.

Lemma tomb_scan_missed gi :
  gi <= mask t →
  scan_keys D t gi (tg_match_byte (TG D) (ctrl_bytes D (ctrl t)) (meta_ptr D gi) (ktag k)) eq = None →
  ¬ holds t k gi.
Proof using Hwf Heq DesignOk0.
  intros Hgi Hs (s & v & Hlt & He).
  assert (in_range t gi s) as Hr by done.
  destruct (tomb_slot_entry_reach t gi s k v Hwf Hr He) as [Htag _].
  apply tomb_slot_entry_some in He as [_ Hkv]. simpl in Hkv.
  eapply scan_none in Hs; [|done..]. assert (eq k = true) by by apply Heq. congruence.
Qed.

Lemma find_ok fuel :
  has_room t → mask t < fuel → ∃ r, find_by_hash D fuel t (hash_key k) eq = Some r ∧ find_result t k r.
Proof using Hwf Heq DesignOk0.
  intros Hroom Hfuel. destruct (probe_stops t k Hwf Hroom) as (n & Hn & Hstop).
  eapply (probe_loop_total (mask t) (home t k) _
    (λ i _, missed t k i) (find_result t k) (mask t) _ 0); [apply passed_0| |lia..].
  intros i [] _ Hi. cbv beta. pose proof (tomb_pos_le t k i Hwf) as Hle.
  change (probe_pos (mask t) (home t k) i) with (pos t k i).
  rewrite tg_probe_both.
  destruct (scan_keys D t (pos t k i) _ eq) as [si|] eqn:Hs; [by apply tomb_scan_found|].
  apply tomb_scan_missed in Hs; [|done].
  change (tg_match_empty (TG D) (ctrl_bytes D (ctrl t)) (meta_ptr D (pos t k i)))
    with (group_empty D t (pos t k i)).
  destruct (any_set _) eqn:Ha.
  - apply any_empty in Ha. by eapply tomb_missed_absent.
  - assert (missed t k (S i)) as HS.
    { apply passed_step; [done|done|]. rewrite <- any_empty. by rewrite Ha. }
    split; [|done]. pose proof (passed_bound _ _ _ _ n HS Hstop). lia.
Qed.
End find.
End inv.
