(* ===== verification/Ipo.v ===== *)
(** * IPO: the 16-slot tombstone table

    [in_place_overflow/raw/mod.rs] as an instance of the tombstone engine, and
    its [tomb-byte-offset-probe] build, which keeps the probe position as a
    byte offset into the metadata instead of a group index: the four loops of
    that build compute what the default ones do. *)

From Stdlib Require Import ZArith Lia.
From S2P Require Import Prelude Probe SlotMap Bitmask HashTag Group Layout TombTable TombInv.

(*@ in_place_overflow/raw/mod.rs : fn bucket_index *)
Definition ipo_bucket_index (gi si : nat) : nat := Nat.lor (Nat.shiftl gi 4) si.

(*@ in_place_overflow/raw/mod.rs : 1-42 : constants, EmptySentinel *)
Definition IpoDesign (tier : simd_tier) : TombDesign := {|
  TG := IpoGroup tier;
  TTag := HighTomb;
  T_GROUP_SIZE := 16;
  META_GROUP_BYTES := 16;
  T_SENTINEL := 16;
  T_REGION := Low;
  T_bucket_index := ipo_bucket_index;
  ALLOC_BY_POINTER := false;
  BATCHED_REHASH := true;
|}.

(** ** Or-ing a slot into a shifted group *)

Lemma land_shifted_small (n g s : nat) : s < 2 ^ n → Nat.land (Nat.shiftl g n) s = 0.
Proof.
  intros Hs. apply Nat.bits_inj. intros i. rewrite Nat.land_spec, Nat.bits_0.
  destruct (Nat.ltb_spec i n) as [Hi|Hi].
  - by rewrite Nat.shiftl_spec_low.
  - rewrite <- (Nat.mod_small s (2 ^ n)), Nat.mod_pow2_bits_high by done. apply andb_false_r.
Qed.

Lemma lor_shifted (n g s : nat) : s < 2 ^ n → Nat.lor (Nat.shiftl g n) s = g * 2 ^ n + s.
Proof.
  intros Hs. pose proof (land_shifted_small n g s Hs) as Hl.
  rewrite <- Nat.lxor_lor, <- Nat.add_nocarry_lxor by done. by rewrite Nat.shiftl_mul_pow2.
Qed.

Lemma shiftl_4 g : Nat.shiftl g 4 = g * 16.
Proof. by rewrite Nat.shiftl_mul_pow2. Qed.

#[export] Instance IpoDesign_ok tier : DesignOk (IpoDesign tier).
Proof.
  split; try apply _; try done; try (simpl; lia). intros gi si Hsi. exact (lor_shifted 4 gi si Hsi).
Qed.

(** ** Byte offsets *)

Section loop.
Context {S R : Type}.

(** [stride += GROUP_SIZE; pos = pos.wrapping_add(stride) & byte_mask] *)
Fixpoint byte_loop (fuel byte_mask : nat) (body : nat → S → R + S) (stride pos : nat) (s : S) :
    option R :=
  match fuel with
  | 0 => None
  | Datatypes.S fuel' =>
      match body pos s with
      | inl r => Some r
      | inr s' =>
          let stride' := stride + 16 in
          let pos' := Z.to_nat (Z.land (wrap64 (Z.of_nat pos + Z.of_nat stride')) (Z.of_nat byte_mask)) in
          byte_loop fuel' byte_mask body stride' pos' s'
      end
  end.
End loop.

Definition byte_mask (mask : nat) : nat := Nat.lor (Nat.shiftl mask 4) 15.

(** The next byte offset is that of the next group. *)
Lemma next_pos_spec mask k gi probe :
  S mask = 2 ^ k → k <= 60 →
  Z.to_nat (Z.land (wrap64 (Z.of_nat (Nat.shiftl gi 4) + Z.of_nat (16 * probe)))
    (Z.of_nat (byte_mask mask))) = Nat.shiftl (next_group mask gi probe) 4.
Proof.
  intros Hm Hk. unfold byte_mask. rewrite (lor_shifted 4), !shiftl_4 by (simpl; lia).
  rewrite (next_group_mod mask k) by lia.
  assert (S (mask * 2 ^ 4 + 15) = 2 ^ (k + 4)) as HS.
  { rewrite Nat.pow_add_r, <- Hm. simpl. lia. }
  rewrite (land_pow2_mask _ (k + 4)) by done. rewrite wrap64_mod_pow2 by lia.
  rewrite <- Nat2Z.inj_add, <- Nat2Z.inj_mod, Nat2Z.id.
  replace (gi * 16 + 16 * probe) with ((gi + probe) * 16) by lia.
  rewrite Nat.pow_add_r. change (2 ^ 4) with 16. apply Nat.Div0.mul_mod_distr_r.
Qed.

(** Two loops whose bodies agree up to the representation of their states. *)
Lemma byte_loop_spec {S S' R} (rel : S → S' → Prop) fuel mask k
    (bodyB : nat → S' → R + S') (body : nat → nat → S → R + S) p gi s s' :
  Datatypes.S mask = 2 ^ k → k <= 60 → rel s s' →
  (∀ probe gi s s', rel s s' →
     match body probe gi s, bodyB (Nat.shiftl gi 4) s' with
     | inl r, inl r' => r = r'
     | inr t, inr t' => rel t t'
     | _, _ => False
     end) →
  byte_loop fuel (byte_mask mask) bodyB (16 * p) (Nat.shiftl gi 4) s' =
  probe_loop fuel mask body p gi s.
Proof.
  intros Hm Hk Hrel Hbody. revert p gi s s' Hrel.
  induction fuel as [|fuel IH]; intros p gi s s' Hrel; [done|]. cbn [byte_loop probe_loop].
  specialize (Hbody p gi s s' Hrel).
  destruct (body p gi s) as [r|t], (bodyB (Nat.shiftl gi 4) s') as [r'|t']; try done; [by f_equal|].
  cbv zeta. replace (16 * p + 16) with (16 * (p + 1)) by lia.
  rewrite (next_pos_spec mask k) by done. by apply IH.
Qed.

Section bytes.
Context (tier : simd_tier) {K V : Type} `{EqDecision K} (hash_key : K → Z) (fuel : nat).
Implicit Types t : RawTable K V.

Abbreviation D := (IpoDesign tier).
Abbreviation G := (IpoGroup tier).

Definition pos_key_is t (b : nat) (eq : K → bool) : bool :=
  match mjoin (ctrl_slots (ctrl t) !! b) with Some (k, _) => eq k | None => false end.

(** [Group::set_meta(ctrl.add(pos), si, reduced); S::write(.., b, key, value)] *)
Definition fill_pos t (h : Z) (pos si b : nat) (key : K) (value : V) : RawTable K V :=
  let t := with_ctrl t (write_bytes_with (ctrl t)
             (λ l, set_meta l pos si (reduced_hash HighTomb h))) in
  with_ctrl t (write_slots_with (ctrl t) (λ l, <[b := Some (key, value)]> l)).

Definition home_pos t (h : Z) : nat :=
  Nat.shiftl (Z.to_nat (Z.land h (Z.of_nat (mask t)))) 4.

(*@ in_place_overflow/raw/mod.rs : 279-326 : RawTable::find_by_hash *)
Definition find_by_hash_bytes t (h : Z) (eq : K → bool) : option (option (nat * nat)) :=
  let reduced := reduced_hash HighTomb h in
  byte_loop fuel (byte_mask (mask t))
    (λ pos (_ : unit),
       let '(matches, empties) := tg_probe_masks G (ctrl_bytes D (ctrl t)) pos reduced in
       match scan (tg_mask G) matches (λ si, pos_key_is t (Nat.lor pos si) eq) with
       | Some si => inl (Some (Nat.shiftr pos 4, si))
       | None => if any_set empties then inl None else inr ()
       end)
    0 (home_pos t h) ().

(*@ in_place_overflow/raw/mod.rs : 396-419 : RawTable::insert_after_resize *)
Definition insert_after_resize_bytes t (h : Z) (key : K) (value : V) : option (RawTable K V) :=
  byte_loop fuel (byte_mask (mask t))
    (λ pos (_ : unit),
       match lowest_set_bit (tg_mask G) (tg_match_empty G (ctrl_bytes D (ctrl t)) pos) with
       | Some si => inl (fill_pos t h pos si (Nat.lor pos si) key value)
       | None => inr ()
       end)
    0 (home_pos t h) ().

(*@ in_place_overflow/raw/mod.rs : 452-496 : RawTable::insert_no_check *)
Definition insert_no_check_bytes t (h : Z) (key : K) (value : V) :
    option (RawTable K V * (nat * nat)) :=
  byte_loop fuel (byte_mask (mask t))
    (λ pos first_tombstone,
       let first_tombstone :=
         match first_tombstone with
         | Some _ => first_tombstone
         | None => Nat.lor pos <$>
             lowest_set_bit (tg_mask G) (tg_match_byte G (ctrl_bytes D (ctrl t)) pos TOMBSTONE)
         end in
       match lowest_set_bit (tg_mask G) (tg_match_empty G (ctrl_bytes D (ctrl t)) pos) with
       | Some si =>
           let '(ins_bucket, decrement) :=
             match first_tombstone with
             | Some tbi => (tbi, false)
             | None => (Nat.lor pos si, true)
             end in
           let ins_pos := Nat.ldiff ins_bucket 15 in
           let ins_si := Nat.land ins_bucket 15 in
           let t := fill_pos t h ins_pos ins_si ins_bucket key value in
           let t := with_len t (len t + 1) in
           let t := if decrement : bool then with_growth_left t (growth_left t - 1) else t in
           inl (t, (Nat.shiftr ins_pos 4, ins_si))
       | None => inr first_tombstone
       end)
    0 (home_pos t h) (None : option nat).

(*@ in_place_overflow/raw/mod.rs : 581-636 : RawTable::find_or_locate_overflow *)
Definition find_or_locate_overflow_bytes t (eq : K → bool) (reduced : Z) (home_gi : nat)
    (first_available : option (nat * nat)) : option ProbeResult :=
  let pos := Z.to_nat (Z.land (wrap64 (Z.of_nat (Nat.shiftl home_gi 4) + 16))
    (Z.of_nat (byte_mask (mask t)))) in
  byte_loop fuel (byte_mask (mask t))
    (λ pos first_available,
       let '(matches, empties) := tg_match_byte_and_empty G (ctrl_bytes D (ctrl t)) pos reduced in
       match scan (tg_mask G) matches (λ si, pos_key_is t (Nat.lor pos si) eq) with
       | Some si => inl (Found (Nat.shiftr pos 4) si)
       | None =>
           let first_available :=
             match first_available with
             | Some _ => first_available
             | None =>
                 match lowest_set_bit (tg_mask G)
                         (tg_match_byte G (ctrl_bytes D (ctrl t)) pos TOMBSTONE) with
                 | Some tsi => Some (Nat.shiftr pos 4, tsi)
                 | None => pair (Nat.shiftr pos 4) <$> lowest_set_bit (tg_mask G) empties
                 end
             end in
           if any_set empties then
             inl (match first_available with
                  | Some (ins_gi, ins_si) => InsertSlot ins_gi ins_si 0%Z
                  | None => NotFound
                  end)
           else inr first_available
       end)
    16 pos first_available.

(** ** The two builds agree *)

Lemma pos_meta gi : Nat.shiftl gi 4 = meta_ptr D gi.
Proof. apply shiftl_4. Qed.

Lemma pos_group gi : Nat.shiftr (Nat.shiftl gi 4) 4 = gi.
Proof. rewrite Nat.shiftr_shiftl_l by done. apply Nat.shiftl_0_r. Qed.

Lemma fill_pos_eq t h gi si pos key value :
  pos = meta_ptr D gi →
  fill_pos t h pos si (Nat.lor (Nat.shiftl gi 4) si) key value = fill D t h gi si key value.
Proof. by intros ->. Qed.

(** A group read at its byte offset. *)
Lemma at_pos {A} (f : nat → A) gi : f (Nat.shiftl gi 4) = f (meta_ptr D gi).
Proof. by rewrite pos_meta. Qed.

Context (t : RawTable K V) (k : nat) (Hmask : S (mask t) = 2 ^ k) (Hk : k <= 60).

Lemma find_bytes_eq h eq : find_by_hash_bytes t h eq = find_by_hash D fuel t h eq.
Proof using Hmask Hk.
  apply (byte_loop_spec (λ _ _, True) fuel (mask t) k _ _ 0); [done..|].
  intros probe gi [] [] _. rewrite pos_group.
  rewrite (at_pos (λ pos, tg_probe_masks G _ pos _)).
  change (TG D) with G.
  destruct (tg_probe_masks _ _ _ _) as [matches empties].
  change (scan (tg_mask G) matches (λ si, pos_key_is t (Nat.lor (Nat.shiftl gi 4) si) eq))
    with (scan_keys D t gi matches eq).
  destruct (scan_keys D t gi matches eq); [done|]. by destruct (any_set empties).
Qed.

Lemma insert_after_resize_bytes_eq h key value :
  insert_after_resize_bytes t h key value = insert_after_resize D fuel t h key value.
Proof using Hmask Hk.
  apply (byte_loop_spec (λ _ _, True) fuel (mask t) k _ _ 0); [done..|].
  intros probe gi [] [] _. unfold group_empty.
  rewrite (at_pos (λ pos, tg_match_empty G _ pos)).
  change (TG D) with G.
  destruct (lowest_set_bit _ _) as [si|]; [|done]. symmetry. apply fill_pos_eq, pos_meta.
Qed.

(** A slot as a bucket index. *)
Definition bucket_of (p : nat * nat) : nat := Nat.lor (Nat.shiftl p.1 4) p.2.

Lemma bucket_of_split g s :
  s < 16 → Nat.ldiff (bucket_of (g, s)) 15 = Nat.shiftl g 4 ∧ Nat.land (bucket_of (g, s)) 15 = s.
Proof.
  intros Hs. unfold bucket_of. cbn [fst snd]. rewrite (lor_shifted 4), shiftl_4 by (simpl; lia).
  change 15 with (Nat.ones 4). rewrite Nat.ldiff_ones_r, Nat.land_ones.
  rewrite Nat.shiftr_div_pow2, Nat.shiftl_mul_pow2. change (2 ^ 4) with 16. split.
  - rewrite (Nat.add_comm (g * 16)), Nat.div_add, Nat.div_small by done. done.
  - rewrite (Nat.add_comm (g * 16)), Nat.Div0.mod_add. by apply Nat.mod_small.
Qed.

Definition same_tombstone (o : option (nat * nat)) (o' : option nat) : Prop :=
  o' = bucket_of <$> o ∧ ∀ p, o = Some p → p.2 < 16.

Lemma lowest_lt_16 ctrl ptr b si :
  lowest_set_bit (tg_mask G) (tg_match_byte G ctrl ptr b) = Some si → si < 16.
Proof.
  intros Hsi. pose proof (tg_match_byte_repr (G := G) (gs := 16) ctrl ptr b) as Hm.
  apply lowest_set_bit_Some in Hsi; [|exact (tomb_match_range D _ _ Hm)].
  destruct Hm as [_ Hm]. rewrite Hm in Hsi. apply andb_true_iff in Hsi as [Hsi _].
  by apply Nat.ltb_lt.
Qed.

Lemma empty_lt_16 ctrl ptr si :
  lowest_set_bit (tg_mask G) (tg_match_empty G ctrl ptr) = Some si → si < 16.
Proof.
  intros Hsi. pose proof (tg_match_empty_repr (G := G) (gs := 16) ctrl ptr) as Hm.
  apply lowest_set_bit_Some in Hsi; [|exact (tomb_match_range D _ _ Hm)].
  destruct Hm as [_ Hm]. rewrite Hm in Hsi. apply andb_true_iff in Hsi as [Hsi _].
  by apply Nat.ltb_lt.
Qed.

Lemma insert_no_check_bytes_eq h key value :
  insert_no_check_bytes t h key value = insert_no_check D fuel t h key value.
Proof using Hmask Hk.
  apply (byte_loop_spec same_tombstone fuel (mask t) k _ _ 0); [done..|].
  intros probe gi o o' Hrel. unfold group_tombs, group_empty.
  rewrite (at_pos (λ pos, tg_match_empty G _ pos)), (at_pos (λ pos, tg_match_byte G _ pos _)).
  set (next := match o with Some _ => o | None => _ end).
  set (next' := match o' with Some _ => o' | None => _ end).
  assert (same_tombstone next next') as [Hnext Hlt].
  { unfold next, next'. destruct Hrel as [-> Hlt]. destruct o as [p|]; [by split|]. simpl.
    destruct (lowest_set_bit (tg_mask G) (tg_match_byte _ _ _ _)) as [s|] eqn:E; [|by split].
    split; [|intros p [= <-]; by eapply lowest_lt_16].
    done. }
  clearbody next next'. cbv zeta. change (TG D) with G.
  destruct (lowest_set_bit (tg_mask G) (tg_match_empty _ _ _)) as [si|] eqn:He; [|by split].
  apply empty_lt_16 in He. rewrite Hnext.
  assert (∀ g s, s < 16 →
    fill_pos t h (Nat.ldiff (bucket_of (g, s)) 15) (Nat.land (bucket_of (g, s)) 15)
      (bucket_of (g, s)) key value = fill D t h g s key value ∧
    (Nat.shiftr (Nat.ldiff (bucket_of (g, s)) 15) 4, Nat.land (bucket_of (g, s)) 15) = (g, s)) as Hf.
  { intros g s Hs. destruct (bucket_of_split g s Hs) as [-> ->]. rewrite pos_group.
    split; [apply fill_pos_eq, pos_meta|done]. }
  destruct next as [[g s]|]; cbn [fmap option_fmap option_map].
  - destruct (Hf g s) as [-> ->]; [by apply (Hlt (g, s))|]. done.
  - change (Nat.lor (Nat.shiftl gi 4) si) with (bucket_of (gi, si)).
    destruct (Hf gi si) as [-> ->]; [done|]. done.
Qed.

Lemma find_or_locate_overflow_bytes_eq eq reduced home_gi o :
  find_or_locate_overflow_bytes t eq reduced home_gi o =
  find_or_locate_overflow D fuel t eq reduced home_gi o.
Proof using Hmask Hk.
  unfold find_or_locate_overflow_bytes. change 16%Z with (Z.of_nat (16 * 1)).
  rewrite (next_pos_spec (mask t) k) by done.
  apply (byte_loop_spec (λ o o', o = o') fuel (mask t) k _ _ 1); [done..|].
  intros probe gi a a' <-. unfold group_tombs. rewrite pos_group.
  rewrite (at_pos (λ pos, tg_match_byte_and_empty G _ pos _)), (at_pos (λ pos, tg_match_byte G _ pos _)).
  change (TG D) with G.
  destruct (tg_match_byte_and_empty _ _ _ _) as [matches empties].
  change (scan (tg_mask G) matches (λ si, pos_key_is t (Nat.lor (Nat.shiftl gi 4) si) eq))
    with (scan_keys D t gi matches eq).
  destruct (scan_keys D t gi matches eq); [done|]. cbv zeta. by destruct (any_set empties).
Qed.
End bytes.

(** The [tomb-byte-offset-probe] build of IPO computes what the default
    build does: its four probe loops, which step a byte offset through the
    metadata, agree with the loops over group indices on every table with a
    power of two of groups. *)
Theorem byte_offset_probe_equiv (tier : simd_tier) {K V : Type} `{EqDecision K} (fuel : nat)
    (t : RawTable K V) (k : nat) (h : Z) (eq : K → bool) (key : K) (value : V) :
  S (mask t) = 2 ^ k → k <= 60 →
  find_by_hash_bytes tier fuel t h eq = find_by_hash (IpoDesign tier) fuel t h eq ∧
  insert_after_resize_bytes tier fuel t h key value =
    insert_after_resize (IpoDesign tier) fuel t h key value ∧
  insert_no_check_bytes tier fuel t h key value =
    insert_no_check (IpoDesign tier) fuel t h key value ∧
  ∀ reduced home_gi first,
    find_or_locate_overflow_bytes tier fuel t eq reduced home_gi first =
    find_or_locate_overflow (IpoDesign tier) fuel t eq reduced home_gi first.
Proof.
  intros Hm Hk. split_and!.
  - by apply (find_bytes_eq _ _ _ k).
  - by apply (insert_after_resize_bytes_eq _ _ _ k).
  - by apply (insert_no_check_bytes_eq _ _ _ k).
  - intros. by apply (find_or_locate_overflow_bytes_eq _ _ _ k).
Qed.

Lemma byte_offset_probe_equiv_witness :
  insert_no_check_bytes SSE2 9 (allocate (IpoDesign SSE2) (@new nat nat) 4) 7 5 6 =
  insert_no_check (IpoDesign SSE2) 9 (allocate (IpoDesign SSE2) (@new nat nat) 4) 7 5 6.
Proof.
  apply (byte_offset_probe_equiv SSE2 9 (allocate (IpoDesign SSE2) (@new nat nat) 4) 2 7
    (λ _, true) 5 6); [reflexivity|lia].
Defined.
