(* ===== verification/Ipo64.v ===== *)
(** * IPO64: the 64-slot tombstone table

    [ipo64/raw/mod.rs] as an instance of the tombstone engine.  It differs
    from IPO in the group (64 slots, instruction set chosen at run time), the
    tag (low bits) and group index (high bits) taken from the hash, the test
    for an allocation (the metadata pointer), and in re-inserting with
    [insert_no_check] when it rehashes.  Operations that the file writes
    differently are given as it writes them and shown equal to the engine's. *)

From Stdlib Require Import ZArith Lia.
From S2P Require Import Prelude Probe SlotMap Bitmask HashTag Group Layout TombTable TombInv.

(*@ ipo64/raw/mod.rs : 1-36 : constants, EmptySentinel, max_load_for_capacity *)
Definition Ipo64Design (tier : simd_tier) : TombDesign := {|
  TG := Ipo64Group tier;
  TTag := LowTomb;
  T_GROUP_SIZE := 64;
  META_GROUP_BYTES := 64;
  T_SENTINEL := 64;
  T_REGION := High;
  T_bucket_index := λ gi si, gi * 64 + si;
  ALLOC_BY_POINTER := true;
  BATCHED_REHASH := false;
|}.

#[export] Instance Ipo64Design_ok tier : DesignOk (Ipo64Design tier).
Proof. split; try apply _; try done; simpl; lia. Qed.

(** The tier that the dispatch finds. *)
(*@ ipo64/raw/mod.rs : 235-242 : RawTable::find_by_hash *)
Definition detected (avx512bw avx2 x86_64 : bool) : simd_tier :=
  if avx512bw && x86_64 then AVX512BW
  else if avx2 && x86_64 then AVX2
  else if x86_64 then SSE2 else Scalar.

Module Table64.
Section table.
Context (tier : simd_tier) {K V : Type} `{EqDecision K} (hash_key : K → Z).
Implicit Types t : RawTable K V.

Abbreviation D := (Ipo64Design tier).

(*@ ipo64/raw/mod.rs : pub struct RawTable *)
Definition RawTable64 : Type := RawTable K V.

(*@ ipo64/raw/mod.rs : pub fn new() *)
Definition new64 : RawTable64 := TombTable.new.

(*@ ipo64/raw/mod.rs : pub(crate) fn is_allocated *)
Definition is_allocated t : bool :=
  match ctrl t with EMPTY_SENTINEL => false | Alloc _ => true end.

(*@ ipo64/raw/mod.rs : pub fn capacity *)
Definition capacity t : nat := if is_allocated t then (mask t + 1) * 64 else 0.

(*@ ipo64/raw/mod.rs : pub(crate) fn groups_for_capacity *)
Definition groups_for_capacity (capacity : Z) : Z :=
  let min_slots := (wrap64 (capacity * 8 + 7 - 1) / 7)%Z in
  let min_groups := (wrap64 (min_slots + 64 - 1) / 64)%Z in
  next_power_of_two min_groups.

(*@ ipo64/raw/mod.rs : pub(crate) fn allocate *)
Definition allocate t (num_groups : nat) : RawTable64 := TombTable.allocate D t num_groups.

(*@ ipo64/raw/mod.rs : pub fn with_capacity *)
Definition with_capacity (capacity : Z) : RawTable64 :=
  if (capacity =? 0)%Z then new64
  else allocate new64 (Z.to_nat (groups_for_capacity capacity)).

(*@ ipo64/raw/mod.rs : unsafe fn deallocate *)
Definition deallocate t : RawTable64 * option (Block K V) :=
  match ctrl t with
  | EMPTY_SENTINEL => (t, None)
  | Alloc b =>
      ({| mask := mask t; ctrl := EMPTY_SENTINEL; len := len t; growth_left := 0;
          max_load := 0; shift := shift t |}, Some b)
  end.

(*@ ipo64/raw/mod.rs : pub(crate) fn group_index *)
Definition group_index t (h : Z) : nat :=
  Z.to_nat (Z.land (wrapping_shr64 h (shift t)) (Z.of_nat (mask t))).

(*@ ipo64/raw/mod.rs : pub(crate) unsafe fn meta_ptr *)
Definition meta_ptr (gi : nat) : nat := Nat.shiftl gi 6.

(*@ ipo64/raw/mod.rs : pub(crate) unsafe fn bucket_ptr *)
Definition bucket_ptr (gi si : nat) : nat := gi * 64 + si.

Context (fuel : nat).

(** The three lookups are one text over the [match_byte_and_empty] of their
    instruction set. *)
(*@ ipo64/raw/mod.rs : unsafe fn find_by_hash_avx512 *)
Definition find_by_hash_avx512 t := TombTable.find_by_hash (Ipo64Design AVX512BW) fuel t.

(*@ ipo64/raw/mod.rs : unsafe fn find_by_hash_avx2 *)
Definition find_by_hash_avx2 t := TombTable.find_by_hash (Ipo64Design AVX2) fuel t.

(*@ ipo64/raw/mod.rs : unsafe fn find_by_hash_sse2 *)
Definition find_by_hash_sse2 t := TombTable.find_by_hash D fuel t.

(*@ ipo64/raw/mod.rs : pub(crate) fn find_by_hash<F> *)
Definition find_by_hash t : Z → (K → bool) → option (option (nat * nat)) :=
  match tier with
  | AVX512BW => find_by_hash_avx512 t
  | AVX2 => find_by_hash_avx2 t
  | _ => find_by_hash_sse2 t
  end.

(*@ ipo64/raw/mod.rs : pub(crate) fn find_with_hash *)
Definition find_with_hash t (key : K) (h : Z) : option (option (nat * nat)) :=
  find_by_hash t h (λ k, bool_decide (k = key)).

(*@ ipo64/raw/mod.rs : pub fn find< *)
Definition find t (key : K) : option (option (nat * nat)) := find_with_hash t key (hash_key key).

(** The bucket is returned by its index. *)
(*@ ipo64/raw/mod.rs : pub(crate) fn find_bucket *)
Definition find_bucket t (h : Z) (eq : K → bool) : option (option nat) :=
  do r <- find_by_hash t h eq;
  Some (match r with Some (gi, si) => Some (bucket_ptr gi si) | None => None end).

(*@ ipo64/raw/mod.rs : pub fn get< *)
Definition get t (key : K) : option (option V) :=
  do r <- find t key;
  Some (match r with Some (gi, si) => snd <$> kv_at D t gi si | None => None end).

(*@ ipo64/raw/mod.rs : pub(crate) fn remove_by_hash *)
Definition remove_by_hash t (h : Z) (eq : K → bool) : option (RawTable64 * option (K * V)) :=
  do r <- find_by_hash t h eq;
  match r with
  | None => Some (t, None)
  | Some (gi, si) =>
      let bucket := kv_at D t gi si in
      let t := write_meta D t gi si TOMBSTONE in
      Some (with_len t (len t - 1), bucket)
  end.

(*@ ipo64/raw/mod.rs : pub fn remove< *)
Definition remove t (key : K) : option (RawTable64 * option V) :=
  if negb (is_allocated t) then Some (t, None)
  else
    do r <- find_with_hash t key (hash_key key);
    match r with
    | None => Some (t, None)
    | Some (gi, si) =>
        let bucket := kv_at D t gi si in
        let t := write_meta D t gi si TOMBSTONE in
        Some (with_len t (len t - 1), snd <$> bucket)
    end.

(*@ ipo64/raw/mod.rs : unsafe fn erase_slot *)
Definition erase_slot t (gi si : nat) : RawTable64 :=
  let t := write_meta D t gi si TOMBSTONE in
  with_len t (len t - 1).

(*@ ipo64/raw/mod.rs : pub(crate) fn insert_no_check *)
Definition insert_no_check t := TombTable.insert_no_check D fuel t.

(*@ ipo64/raw/mod.rs : pub(crate) fn find_or_locate< *)
Definition find_or_locate t := TombTable.find_or_locate D fuel t.

(*@ ipo64/raw/mod.rs : fn find_or_locate_overflow *)
Definition find_or_locate_overflow t := TombTable.find_or_locate_overflow D fuel t.

(*@ ipo64/raw/mod.rs : pub(crate) fn insert_at *)
Definition insert_at t := TombTable.insert_at D t.

(** [for gi in 0..old_num_groups { for si in match_occupied(..) { .. insert_no_check(..) } }] *)
Fixpoint reinsert (kvs : list (K * V)) t : option RawTable64 :=
  match kvs with
  | [] => Some t
  | (key, value) :: kvs' =>
      do ' (t, _) <- insert_no_check t (hash_key key) key value; reinsert kvs' t
  end.

(*@ ipo64/raw/mod.rs : pub fn rehash_with< *)
Definition rehash_with t (new_num_groups : nat) : option RawTable64 :=
  let was_allocated := is_allocated t in
  let t0 := {| mask := 0; ctrl := EMPTY_SENTINEL; len := 0; growth_left := 0;
               max_load := 0; shift := shift t |} in
  let t1 := allocate t0 new_num_groups in
  if negb was_allocated then Some t1 else reinsert (occupied_kvs D t) t1.

(*@ ipo64/raw/mod.rs : fn grow_or_rehash *)
Definition grow_or_rehash t : option RawTable64 :=
  let new_groups :=
    if negb (is_allocated t) then 1
    else
      let cap := (mask t + 1) * 64 in
      if max_load_for_capacity cap <=? len t then (mask t + 1) * 2 else mask t + 1 in
  rehash_with t new_groups.

(*@ ipo64/raw/mod.rs : pub fn insert_with_rehash *)
Definition insert_with_rehash t := TombTable.insert_with_rehash D hash_key fuel t.

(*@ ipo64/raw/mod.rs : fn insert_or_replace *)
Definition insert_or_replace t := TombTable.insert_or_replace D hash_key fuel t.

(*@ ipo64/raw/mod.rs : fn find_for_entry *)
Definition find_for_entry t := TombTable.find_for_entry D fuel t.

(*@ ipo64/raw/mod.rs : fn ensure_capacity *)
Definition ensure_capacity t : option RawTable64 :=
  if growth_left t =? 0 then grow_or_rehash t else Some t.

(*@ ipo64/raw/mod.rs : fn reserve *)
Definition reserve t := TombTable.reserve D hash_key fuel t.

(*@ ipo64/raw/mod.rs : fn shrink_to_fit *)
Definition shrink_to_fit t := TombTable.shrink_to_fit D hash_key fuel t.

(*@ ipo64/raw/mod.rs : pub fn clear *)
Definition clear t := TombTable.clear D t.

(*@ ipo64/raw/mod.rs : fn drop( *)
Definition drop_table t := TombTable.drop_table D t.

(*@ ipo64/raw/mod.rs : fn clone( *)
Definition clone_table t := TombTable.clone_table D t.

(*@ ipo64/raw/mod.rs : pub fn iter_slots *)
Definition iter_slots t : SlotIter := TombTable.iter_slots D t.

(*@ ipo64/raw/mod.rs : fn next( @1 *)
Definition slot_iter_next (n : nat) t := TombTable.slot_iter_next D n t.

(*@ ipo64/raw/mod.rs : fn into_iter_impl *)
Definition into_iter_impl t := TombTable.into_iter_impl D t.

(*@ ipo64/raw/mod.rs : fn drain_impl *)
Definition drain_impl t := TombTable.drain_impl D t.

(*@ ipo64/raw/mod.rs : fn next( @2 *)
Definition into_iter_next (n : nat) (it : @IntoIter K V) := TombTable.into_iter_next D n it.

(** ** The file and the engine *)

Lemma find_by_hash_eq t h eq : find_by_hash t h eq = TombTable.find_by_hash D fuel t h eq.
Proof. unfold find_by_hash, find_by_hash_avx512, find_by_hash_avx2, find_by_hash_sse2. by destruct tier. Qed.

Lemma reinsert_eq kvs t : reinsert kvs t = reinsert_counted D hash_key fuel kvs t.
Proof.
  revert t. induction kvs as [|[k v] kvs IH]; intros t; [done|]. simpl. unfold insert_no_check.
  by destruct (TombTable.insert_no_check D fuel t (hash_key k) k v) as [[t' p]|]; simpl.
Qed.

Lemma rehash_with_eq t n : rehash_with t n = TombTable.rehash_with D hash_key fuel t n.
Proof.
  unfold rehash_with, TombTable.rehash_with. change (TombTable.is_allocated D t) with (is_allocated t).
  destruct (is_allocated t); [|done]. apply reinsert_eq.
Qed.

Lemma grow_or_rehash_eq t : grow_or_rehash t = TombTable.grow_or_rehash D hash_key fuel t.
Proof. unfold grow_or_rehash. by rewrite rehash_with_eq. Qed.

Lemma deallocate_eq t : deallocate t = TombTable.deallocate D t.
Proof.
  unfold deallocate, TombTable.deallocate, TombTable.is_allocated. simpl. by destruct (ctrl t).
Qed.

Lemma tomb_remove_by_hash_eq t h eq : remove_by_hash t h eq = TombTable.remove_by_hash D fuel t h eq.
Proof. unfold remove_by_hash. by rewrite find_by_hash_eq. Qed.

Lemma remove_eq t key : remove t key = TombTable.remove D hash_key fuel t key.
Proof. unfold remove, find_with_hash. by rewrite find_by_hash_eq. Qed.

Lemma ensure_capacity_eq t : ensure_capacity t = TombTable.ensure_capacity D hash_key fuel t.
Proof. unfold ensure_capacity. by rewrite grow_or_rehash_eq. Qed.
End table.
End Table64.
