(* ===== verification/TombWrite.v ===== *)
(** * The tombstone raw tables: writes

    What writing a metadata byte and a bucket does to the slots, and how the
    invariant survives the three changes of a slot: filling a free one, making
    a tombstone of a pair, and overwriting a value. *)

From Stdlib Require Import ZArith Lia.
From S2P Require Import Prelude Probe SlotMap Bitmask HashTag Group Layout TombTable TombInv.

Section writes.
Context (D : TombDesign) `{!DesignOk D} {K V : Type} `{Countable K} (hash_key : K → Z).
Implicit Types t : RawTable K V.

Abbreviation tag_at := (tag_at D).
Abbreviation kv_at := (kv_at D).
Abbreviation in_range := (in_range D).
Abbreviation alloc_ok := (alloc_ok D).
Abbreviation all_slots := (all_slots D).
Abbreviation slot_entry := (slot_entry D).
Abbreviation entries := (entries D).
Abbreviation to_map := (to_map D).
Abbreviation reach := (reach D hash_key).
Abbreviation ktag := (ktag D hash_key).
Abbreviation sound := (sound D hash_key).
Abbreviation used := (used D).
Abbreviation gs := (T_GROUP_SIZE D).

(** ** Offsets *)

Lemma slot_offset_inj gi si gi' si' :
  si < gs → si' < gs → gi * gs + si = gi' * gs + si' → gi = gi' ∧ si = si'.
Proof.
  intros. destruct (Nat.lt_trichotomy gi gi') as [?|[->|?]]; nia.
Qed.

Lemma slot_offset_lt t gi si : in_range t gi si → gi * gs + si < S (mask t) * gs.
Proof. intros [Hgi Hsi]. nia. Qed.

Lemma meta_offset gi : meta_ptr D gi = gi * gs.
Proof using DesignOk0. unfold meta_ptr. by rewrite design_meta. Qed.

Lemma tomb_group_index_frame t t' h :
  mask t' = mask t → shift t' = shift t → group_index D t' h = group_index D t h.
Proof. intros Hm Hs. unfold group_index. by rewrite Hm, Hs. Qed.

Lemma tomb_all_slots_frame t t' : mask t' = mask t → all_slots t' = all_slots t.
Proof. intros Hm. unfold TombInv.all_slots. by rewrite Hm. Qed.

(** ** The two writes *)

Section slot.
Context t gi si (Ha : alloc_ok t) (Hr : in_range t gi si).

Lemma tomb_write_meta_alloc b : alloc_ok (write_meta D t gi si b).
Proof using Ha.
  destruct Ha as (bl & Hc & Hb & Hs). unfold write_meta. rewrite Hc. simpl.
  eexists. split; [reflexivity|]. simpl. split; [|done]. unfold set_meta. by rewrite length_set_byte.
Qed.

Lemma write_meta_byte b i :
  byte_at (ctrl_bytes D (ctrl (write_meta D t gi si b))) i =
  if decide (gi * gs + si = i) then b else byte_at (ctrl_bytes D (ctrl t)) i.
Proof using Ha Hr DesignOk0.
  destruct Ha as (bl & Hc & Hb & _). pose proof (slot_offset_lt t gi si Hr).
  unfold write_meta, set_meta. rewrite Hc. simpl. rewrite meta_offset, byte_at_set by lia. done.
Qed.

Lemma tomb_write_meta_tag b g s :
  in_range t g s →
  tag_at (write_meta D t gi si b) g s = if decide ((g, s) = (gi, si)) then b else tag_at t g s.
Proof using Ha Hr DesignOk0.
  intros [_ Hs]. destruct Hr as [_ Hsi].
  unfold TombInv.tag_at, get_meta. rewrite write_meta_byte, meta_offset.
  destruct (decide ((g, s) = (gi, si))) as [Heq|Hne]; simplify_eq; [by rewrite decide_True|].
  rewrite decide_False; [done|]. intros Heq. apply Hne.
  by destruct (slot_offset_inj gi si g s) as [-> ->].
Qed.

Lemma tomb_write_meta_kv b g s : kv_at (write_meta D t gi si b) g s = kv_at t g s.
Proof using Type. unfold TombTable.kv_at, write_meta. simpl. by destruct (ctrl t). Qed.

Lemma tomb_write_kv_alloc kv : alloc_ok (write_kv D t gi si kv).
Proof using Ha.
  destruct Ha as (bl & Hc & Hb & Hs). unfold write_kv. rewrite Hc. simpl.
  eexists. split; [reflexivity|]. simpl. split; [done|]. by rewrite length_insert.
Qed.

Lemma write_kv_bytes kv : ctrl_bytes D (ctrl (write_kv D t gi si kv)) = ctrl_bytes D (ctrl t).
Proof using Type. unfold write_kv. simpl. by destruct (ctrl t). Qed.

Lemma tomb_write_kv_tag kv g s : tag_at (write_kv D t gi si kv) g s = tag_at t g s.
Proof using Type. unfold TombInv.tag_at. by rewrite write_kv_bytes. Qed.

Lemma tomb_write_kv_kv kv g s :
  in_range t g s →
  kv_at (write_kv D t gi si kv) g s = if decide ((g, s) = (gi, si)) then Some kv else kv_at t g s.
Proof using Ha Hr DesignOk0.
  intros [Hg Hs]. destruct Ha as (bl & Hc & _ & Hb). pose proof (slot_offset_lt t gi si Hr).
  destruct Hr as [Hgi Hsi]. unfold write_kv, TombTable.kv_at. rewrite Hc. simpl.
  rewrite !design_bucket by done.
  destruct (decide ((g, s) = (gi, si))) as [Heq|Hne]; simplify_eq.
  - rewrite list_lookup_insert_eq by lia. done.
  - rewrite list_lookup_insert_ne; [done|]. intros Heq. apply Hne.
    by destruct (slot_offset_inj gi si g s) as [-> ->].
Qed.
End slot.

(** ** Changing one slot *)

(** [t'] differs from [t] at most in slot [p], which is not EMPTY in [t'], and
    in the counters. *)
Record slot_frame t t' (p : nat * nat) : Prop := {
  fr_mask : mask t' = mask t;
  fr_shift : shift t' = shift t;
  fr_max_load : max_load t' = max_load t;
  fr_alloc : alloc_ok t';
  fr_bytes i : (0 <= byte_at (ctrl_bytes D (ctrl t')) i)%Z;
  fr_tag g s : in_range t g s → (g, s) ≠ p → tag_at t' g s = tag_at t g s;
  fr_kv g s : in_range t g s → (g, s) ≠ p → kv_at t' g s = kv_at t g s;
  fr_full : tag_at t' p.1 p.2 ≠ EMPTY;
}.

Lemma tomb_slot_entry_frame t t' p q :
  slot_frame t t' p → q ∈ all_slots t → q ≠ p → slot_entry t' q = slot_entry t q.
Proof.
  intros F Hq Hne. destruct q as [g s]. apply tomb_elem_of_all_slots in Hq.
  unfold TombInv.slot_entry. simpl. by rewrite (fr_tag _ _ _ F), (fr_kv _ _ _ F).
Qed.

(** EMPTY slots only disappear, so that a pair stays within reach. *)
Lemma tomb_reach_frame t t' p k gi :
  sound t → slot_frame t t' p → reach t k gi → reach t' k gi.
Proof.
  intros Hwf F (i & Hp & Hc).
  assert (∀ j, pos D hash_key t' k j = pos D hash_key t k j) as Hpos.
  { intros j. unfold pos, home. rewrite (tomb_group_index_frame t t') by apply F.
    by rewrite (fr_mask _ _ _ F). }
  exists i. split; [by rewrite Hpos|]. intros j Hj (s & Hs & Ht). rewrite Hpos in Ht.
  apply (Hc j Hj). exists s. split; [done|].
  assert (in_range t (pos D hash_key t k j) s) as Hr by (split; [by apply tomb_pos_le|done]).
  destruct (decide ((pos D hash_key t k j, s) = p)) as [<-|Hne].
  - exfalso. by apply (fr_full _ _ _ F).
  - by rewrite <- (fr_tag _ _ _ F).
Qed.

(** What may stand in the changed slot. *)
Definition slot_content_ok t t' (gi si : nat) (o : option (K * V)) : Prop :=
  match o with
  | None => tag_at t' gi si = TOMBSTONE
  | Some (k, v) => tag_at t' gi si = ktag k ∧ kv_at t' gi si = Some (k, v) ∧ reach t k gi
  end.

Lemma tomb_slot_content_entry t t' gi si o :
  slot_content_ok t t' gi si o → slot_entry t' (gi, si) = o.
Proof.
  unfold slot_content_ok, TombInv.slot_entry. simpl. destruct o as [[k v]|].
  - intros (-> & -> & _). by rewrite (ktag_live D hash_key).
  - intros ->. done.
Qed.

Lemma sound_update t t' gi si o :
  sound t → in_range t gi si → slot_frame t t' (gi, si) → slot_content_ok t t' gi si o →
  unique (all_slots t) (slot_entry t') → sound t'.
Proof.
  intros Hwf Hr F Ho Hu. pose proof (tomb_all_slots_frame t t' (fr_mask _ _ _ F)) as Has.
  split.
  - unfold log_groups. rewrite (fr_mask _ _ _ F). by eapply sd_pow2.
  - unfold log_groups. rewrite (fr_mask _ _ _ F). by eapply sd_log.
  - rewrite (fr_shift _ _ _ F), (fr_mask _ _ _ F). by eapply sd_shift.
  - apply F.
  - intros g s Hr' Ht. unfold TombInv.in_range in Hr'. rewrite (fr_mask _ _ _ F) in Hr'.
    destruct (decide ((g, s) = (gi, si))) as [[= -> ->]|Hne].
    + destruct o as [[k v]|]; simpl in Ho; [|by rewrite Ho in Ht].
      destruct Ho as (Htag & Hkv & Hreach). exists k, v. split_and!; [done|done|].
      by eapply tomb_reach_frame.
    + rewrite (fr_tag _ _ _ F) in Ht by done.
      destruct (sd_slot _ _ t Hwf g s Hr' Ht) as (k & v & Hkv & Htag & Hreach).
      exists k, v. rewrite (fr_tag _ _ _ F), (fr_kv _ _ _ F) by done. split_and!; [done|done|].
      by eapply tomb_reach_frame.
  - by rewrite Has.
Qed.

(** An EMPTY slot that is filled counts once more. *)
Lemma used_frame t t' gi si :
  in_range t gi si → slot_frame t t' (gi, si) →
  used t' = used t + (if (tag_at t gi si =? EMPTY)%Z then 1 else 0).
Proof.
  intros Hr F. unfold TombInv.used. rewrite (tomb_all_slots_frame t t') by apply F.
  pose proof (countb_update (λ p, negb (tag_at t' p.1 p.2 =? EMPTY)%Z)
    (λ p, negb (tag_at t p.1 p.2 =? EMPTY)%Z) (gi, si) (all_slots t) (tomb_all_slots_NoDup D t)) as Hc.
  pose proof (fr_full _ _ _ F) as Hf. apply Z.eqb_neq in Hf. cbv beta in Hc. rewrite Hf in Hc.
  specialize (Hc ltac:(
    intros [g s] Hin%tomb_elem_of_all_slots Hne; simpl; by rewrite (fr_tag _ _ _ F))).
  specialize (Hc ltac:(by apply tomb_elem_of_all_slots)). cbn [fst snd] in Hc.
  destruct (tag_at t gi si =? EMPTY)%Z; simpl in Hc; lia.
Qed.

Section changes.
Context t t' (gi si : nat) (Hwf : sound t) (Hr : in_range t gi si) (F : slot_frame t t' (gi, si)).

Lemma slot_map_frame : to_map t' = slot_map (all_slots t) (slot_entry t').
Proof using F. unfold TombInv.to_map. by rewrite (tomb_all_slots_frame t t') by apply F. Qed.

Lemma entries_frame : entries t' = kvs (all_slots t) (slot_entry t').
Proof using F. unfold TombInv.entries. by rewrite (tomb_all_slots_frame t t') by apply F. Qed.

Lemma changed_slot : (gi, si) ∈ all_slots t.
Proof using Hr. by apply tomb_elem_of_all_slots. Qed.

Lemma changed_others q :
  q ∈ all_slots t → q ≠ (gi, si) → slot_entry t' q = slot_entry t q.
Proof using F. by apply tomb_slot_entry_frame. Qed.

Lemma sound_fill k v :
  slot_entry t (gi, si) = None → slot_content_ok t t' gi si (Some (k, v)) → to_map t !! k = None →
  sound t' ∧ to_map t' = <[k := v]> (to_map t) ∧ entries t' ≡ₚ (k, v) :: entries t.
Proof using Hwf Hr F DesignOk0.
  intros He Ho Hk. rewrite slot_map_frame, entries_frame.
  destruct (slot_map_fill (all_slots t) (tomb_all_slots_NoDup D t) (slot_entry t) (slot_entry t')
    (gi, si) changed_slot changed_others k v) as (Hu & Hm & Hp).
  - apply Hwf.
  - done.
  - by eapply tomb_slot_content_entry.
  - done.
  - split_and!; [by eapply sound_update|done|done].
Qed.

Lemma sound_erase k v :
  slot_entry t (gi, si) = Some (k, v) → slot_content_ok t t' gi si None →
  sound t' ∧ to_map t' = delete k (to_map t) ∧ entries t ≡ₚ (k, v) :: entries t'.
Proof using Hwf Hr F DesignOk0.
  intros He Ho. rewrite slot_map_frame, entries_frame.
  destruct (slot_map_erase (all_slots t) (tomb_all_slots_NoDup D t) (slot_entry t) (slot_entry t')
    (gi, si) changed_slot changed_others k v) as (Hu & Hm & Hp).
  - apply Hwf.
  - done.
  - by eapply (tomb_slot_content_entry t t' gi si None).
  - split_and!; [by eapply sound_update|done|done].
Qed.

Lemma sound_replace k v v' :
  slot_entry t (gi, si) = Some (k, v) → slot_content_ok t t' gi si (Some (k, v')) →
  sound t' ∧ to_map t' = <[k := v']> (to_map t) ∧ length (entries t') = length (entries t).
Proof using Hwf Hr F DesignOk0.
  intros He Ho. rewrite slot_map_frame, entries_frame.
  destruct (slot_map_replace (all_slots t) (tomb_all_slots_NoDup D t) (slot_entry t) (slot_entry t')
    (gi, si) changed_slot changed_others k v v') as (Hu & Hm & Hp).
  - apply Hwf.
  - done.
  - by eapply tomb_slot_content_entry.
  - split_and!; [by eapply sound_update|done|done].
Qed.
End changes.

(** ** The changes the operations make *)

Lemma sound_frame_counters t p n g :
  slot_frame t t p → slot_frame t (with_growth_left (with_len t n) g) p.
Proof. intros F. by destruct F. Qed.

Lemma bytes_nonneg_write t gi si b i :
  sound t → alloc_ok t → in_range t gi si → (0 <= b)%Z →
  (0 <= byte_at (ctrl_bytes D (ctrl (write_meta D t gi si b))) i)%Z.
Proof.
  intros Hwf Ha Hr Hb. rewrite write_meta_byte by done. case_decide; [done|]. by apply Hwf.
Qed.

Lemma fill_frame t gi si k v :
  sound t → alloc_ok t → in_range t gi si →
  slot_frame t (fill D t (hash_key k) gi si k v) (gi, si).
Proof.
  intros Hwf Ha Hr. unfold fill.
  pose proof (tomb_write_meta_alloc t gi si Ha (ktag k)) as Ha1.
  split; try done.
  - by apply tomb_write_kv_alloc.
  - intros i. rewrite write_kv_bytes. apply bytes_nonneg_write; [done..|].
    pose proof (tomb_tag_range (hash_key k) (T := TTag D)). lia.
  - intros g s Hr' Hne. rewrite tomb_write_kv_tag, tomb_write_meta_tag by done. by rewrite decide_False.
  - intros g s Hr' Hne. rewrite tomb_write_kv_kv by done. rewrite decide_False by done.
    by rewrite tomb_write_meta_kv.
  - simpl. rewrite tomb_write_kv_tag, tomb_write_meta_tag, decide_True by done.
    pose proof (tomb_tag_range (hash_key k) (T := TTag D)). unfold EMPTY. lia.
Qed.

Lemma fill_content t gi si k v :
  alloc_ok t → in_range t gi si → reach t k gi →
  slot_content_ok t (fill D t (hash_key k) gi si k v) gi si (Some (k, v)).
Proof.
  intros Ha Hr Hreach. pose proof (tomb_write_meta_alloc t gi si Ha (ktag k)) as Ha1.
  unfold fill. split_and!; [| |done].
  - rewrite tomb_write_kv_tag, tomb_write_meta_tag by done. by rewrite decide_True.
  - rewrite tomb_write_kv_kv by done. by rewrite decide_True.
Qed.

Lemma bury_frame t gi si :
  sound t → alloc_ok t → in_range t gi si →
  slot_frame t (write_meta D t gi si TOMBSTONE) (gi, si) ∧
  slot_content_ok t (write_meta D t gi si TOMBSTONE) gi si None.
Proof.
  intros Hwf Ha Hr.
  assert (tag_at (write_meta D t gi si TOMBSTONE) gi si = TOMBSTONE) as Ht
    by (rewrite tomb_write_meta_tag by done; by rewrite decide_True).
  split; [|done]. split; try done.
  - by apply tomb_write_meta_alloc.
  - intros i. by apply bytes_nonneg_write.
  - intros g s Hr' Hne. rewrite tomb_write_meta_tag by done. by rewrite decide_False.
  - intros g s Hr' Hne. by rewrite tomb_write_meta_kv.
  - simpl. by rewrite Ht.
Qed.

Lemma overwrite_frame t gi si k v v' :
  sound t → alloc_ok t → in_range t gi si → slot_entry t (gi, si) = Some (k, v) →
  slot_frame t (write_kv D t gi si (k, v')) (gi, si) ∧
  slot_content_ok t (write_kv D t gi si (k, v')) gi si (Some (k, v')).
Proof.
  intros Hwf Ha Hr He. destruct (tomb_slot_entry_reach D hash_key t gi si k v Hwf Hr He) as [Htag Hreach].
  split.
  - split; try done.
    + by apply tomb_write_kv_alloc.
    + intros i. rewrite write_kv_bytes. by apply Hwf.
    + intros g s Hr' Hne. by rewrite tomb_write_kv_tag.
    + intros g s Hr' Hne. rewrite tomb_write_kv_kv by done. by rewrite decide_False.
    + simpl. rewrite tomb_write_kv_tag, Htag. pose proof (ktag_live D hash_key k) as Hl.
      intros E. by rewrite E in Hl.
  - split_and!; [by rewrite tomb_write_kv_tag| |done]. rewrite tomb_write_kv_kv by done. by rewrite decide_True.
Qed.
End writes.
