(* ===== verification/TombProbe.v ===== *)
(** * The tombstone raw tables: finding a slot for a new key

    [insert_no_check], [insert_after_resize], [find_or_locate] and [insert_at]:
    the loops that look for a free slot, each of which returns within as many
    steps as there are groups. *)

From Stdlib Require Import ZArith Lia.
From S2P Require Import Prelude Probe SlotMap Bitmask HashTag Group Layout.
From S2P Require Import TombTable TombInv TombWrite.

Section probing.
Context (D : TombDesign) `{!DesignOk D} {K V : Type} `{Countable K} (hash_key : K → Z).
Implicit Types t : RawTable K V.

Abbreviation tag_at := (tag_at D).
Abbreviation kv_at := (kv_at D).
Abbreviation in_range := (in_range D).
Abbreviation alloc_ok := (alloc_ok D).
Abbreviation all_slots := (all_slots D).
Abbreviation slot_entry := (slot_entry D).
Abbreviation entries := (entries D).
Abbreviation to_map := (to_map D).
Abbreviation reach := (reach D hash_key).
Abbreviation sound := (sound D hash_key).
Abbreviation wf := (wf D hash_key).
Abbreviation allocated := (allocated D).
Abbreviation has_empty := (has_empty D).
Abbreviation used := (used D).
Abbreviation gs := (T_GROUP_SIZE D).
Abbreviation W := (tg_mask (TG D)).

(** A free slot where a probe for [k] can find it. *)
Record avail t (k : K) (g s : nat) : Prop := {
  av_range : in_range t g s;
  av_dead : is_dead (tag_at t g s) = true;
  av_reach : reach t k g;
}.

Lemma avail_entry t k g s : avail t k g s → slot_entry t (g, s) = None.
Proof. intros [_ Hd _]. unfold TombInv.slot_entry. simpl. by rewrite Hd. Qed.

(** No group up to step [i] stops the probe. *)
Definition unstopped t (k : K) (i : nat) : Prop :=
  ∀ j, j < i → ¬ has_empty t (pos D hash_key t k j).

Lemma unstopped_reach t k i : unstopped t k i → reach t k (pos D hash_key t k i).
Proof. intros Hu. exists i. done. Qed.

Lemma unstopped_step t k i :
  unstopped t k i → ¬ has_empty t (pos D hash_key t k i) → unstopped t k (S i).
Proof. intros Hu He j Hj. destruct (decide (j = i)) as [->|]; [done|]. apply Hu. lia. Qed.

Lemma avail_empty t k i s :
  sound t → unstopped t k i →
  lowest_set_bit W (group_empty D t (pos D hash_key t k i)) = Some s →
  avail t k (pos D hash_key t k i) s ∧ tag_at t (pos D hash_key t k i) s = EMPTY.
Proof.
  intros Hwf Hu [Hs Ht]%empty_some; [|done]. split; [|done]. split.
  - split; [by apply tomb_pos_le|done].
  - by rewrite Ht.
  - by apply unstopped_reach.
Qed.

Lemma avail_tomb t k i s :
  sound t → unstopped t k i →
  lowest_set_bit W (group_tombs D t (pos D hash_key t k i)) = Some s →
  avail t k (pos D hash_key t k i) s ∧ tag_at t (pos D hash_key t k i) s = TOMBSTONE.
Proof.
  intros Hwf Hu [Hs Ht]%tomb_some; [|done]. split; [|done]. split.
  - split; [by apply tomb_pos_le|done].
  - by rewrite Ht.
  - by apply unstopped_reach.
Qed.

(** ** Filling an available slot *)

Definition spent t (g s : nat) : nat := if (tag_at t g s =? EMPTY)%Z then 1 else 0.

Lemma fill_ok t g s k v :
  sound t → alloc_ok t → avail t k g s → to_map t !! k = None →
  let t' := fill D t (hash_key k) g s k v in
  sound t' ∧ slot_frame D t t' (g, s) ∧ to_map t' = <[k := v]> (to_map t) ∧
  entries t' ≡ₚ (k, v) :: entries t ∧ used t' = used t + spent t g s ∧
  slot_entry t' (g, s) = Some (k, v).
Proof.
  intros Hwf Ha Hav Hk t'.
  pose proof (fill_frame D hash_key t g s k v Hwf Ha (av_range _ _ _ _ Hav)) as F.
  pose proof (fill_content D hash_key t g s k v Ha (av_range _ _ _ _ Hav) (av_reach _ _ _ _ Hav)) as C.
  destruct (sound_fill D hash_key t t' g s Hwf (av_range _ _ _ _ Hav) F k v) as (Hs & Hm & Hp);
    [by eapply avail_entry|done|done|].
  split_and!; [done..| |].
  - apply used_frame; [apply Hav|done].
  - by eapply tomb_slot_content_entry.
Qed.

(** [sound] and the slots do not read the counters. *)
Lemma sound_counters t n g : sound t → sound (with_growth_left (with_len t n) g).
Proof. intros Hwf. by destruct Hwf. Qed.

Lemma with_growth_left_id t g : g = growth_left t → with_growth_left t g = t.
Proof. intros ->. by destruct t. Qed.

(** The outcome of an insertion at slot [p]. *)
Record inserted t t' (k : K) (v : V) (p : nat * nat) : Prop := {
  ins_wf : wf t';
  ins_alloc : allocated t';
  ins_map : to_map t' = <[k := v]> (to_map t);
  ins_entries : entries t' ≡ₚ (k, v) :: entries t;
  ins_mask : mask t' = mask t;
  ins_len : len t' = len t + 1;
  ins_growth : growth_left t' = growth_left t - spent t p.1 p.2;
  ins_entry : slot_entry t' p = Some (k, v);
  ins_range : in_range t' p.1 p.2;
}.

Lemma place_ok t g s k v :
  wf t → allocated t → avail t k g s → to_map t !! k = None →
  (tag_at t g s = EMPTY → 0 < growth_left t) →
  inserted t (with_growth_left (with_len (fill D t (hash_key k) g s k v) (len t + 1))
                (growth_left t - spent t g s)) k v (g, s).
Proof.
  intros Hwf Hal Hav Hk Hroom. destruct Hal as (Ha & Hmax & Hg).
  destruct (fill_ok t g s k v (wf_sound _ _ _ Hwf) Ha Hav Hk) as (Hs & F & Hm & Hp & Hu & He).
  set (t1 := fill D t (hash_key k) g s k v) in *.
  assert (full_load D t1 = full_load D t) as Hfull by (unfold full_load; by rewrite (fr_mask _ _ _ _ F)).
  assert (spent t g s <= growth_left t) as Hsp.
  { unfold spent. destruct (Z.eqb_spec (tag_at t g s) EMPTY); [|lia]. by apply Hroom. }
  assert (allocated (with_growth_left (with_len t1 (len t + 1)) (growth_left t - spent t g s))) as Hal'.
  { split_and!; [apply F| |].
    - change (max_load t1 = full_load D t1). rewrite Hfull, <- Hmax. apply F.
    - change (growth_left t - spent t g s + used t1 = full_load D t1). lia. }
  split; try done.
  - split; [by apply sound_counters|by right|].
    change (len t + 1 = length (entries t1)). rewrite Hp, (wf_len _ _ _ Hwf). simpl. lia.
  - exact (av_range _ _ _ _ Hav).
Qed.

(** ** [insert_no_check] *)

Definition first_ok t (k : K) (o : option (nat * nat)) : Prop :=
  match o with
  | Some (g, s) => avail t k g s ∧ tag_at t g s = TOMBSTONE
  | None => True
  end.

Lemma tomb_insert_no_check_spec fuel t k v :
  wf t → allocated t → to_map t !! k = None → 0 < growth_left t → mask t < fuel →
  ∃ t' p, insert_no_check D fuel t (hash_key k) k v = Some (t', p) ∧ inserted t t' k v p.
Proof.
  intros Hwf Hal Hk Hg Hfuel. pose proof (wf_sound _ _ _ Hwf) as Hs.
  destruct (probe_stops D hash_key t k Hs (wf_has_room D hash_key t Hwf)) as (n & Hn & Hstop).
  enough (∃ r, insert_no_check D fuel t (hash_key k) k v = Some r ∧ inserted t r.1 k v r.2)
    as ([t' p] & Hrun & Hins) by (by exists t', p).
  eapply (probe_loop_total (mask t) (home D hash_key t k) _
    (λ i o, unstopped t k i ∧ first_ok t k o) (λ r, inserted t r.1 k v r.2)
    (mask t) _ 0); [split; [intros j Hj; lia|done]| |lia..].
  intros i o _ [Hu Ho]. cbv beta zeta.
  change (probe_pos (mask t) (home D hash_key t k) i) with (pos D hash_key t k i).
  assert (first_ok t k (match o with Some _ => o
     | None => pair (pos D hash_key t k i) <$>
         lowest_set_bit W (group_tombs D t (pos D hash_key t k i)) end)) as Ho'.
  { destruct o; [done|]. destruct (lowest_set_bit _ _) eqn:E; [|done]. by apply avail_tomb. }
  revert Ho'. generalize (match o with Some _ => o
     | None => pair (pos D hash_key t k i) <$>
         lowest_set_bit W (group_tombs D t (pos D hash_key t k i)) end). intros o' Ho'.
  destruct (lowest_set_bit W (group_empty D t _)) as [si|] eqn:He.
  - apply avail_empty in He as [Hav Ht]; [|done..]. destruct o' as [[g s]|].
    + destruct Ho' as [Hav' Ht']. pose proof (place_ok t g s k v Hwf Hal Hav' Hk) as I.
      unfold spent in I. rewrite Ht', Nat.sub_0_r in I.
      rewrite with_growth_left_id in I by done. by apply I.
    + pose proof (place_ok t _ si k v Hwf Hal Hav Hk (λ _, Hg)) as I.
      unfold spent in I. by rewrite Ht in I.
  - apply empty_none in He; [|done]. split; [|split; [by apply unstopped_step|done]].
    destruct (decide (i < mask t)); [done|]. exfalso. destruct (decide (n = i)) as [->|]; [done|].
    apply (Hu n); [lia|done].
Qed.

(** ** [insert_after_resize] *)

Lemma insert_after_resize_spec fuel t k v :
  sound t → alloc_ok t → has_room D t → to_map t !! k = None → mask t < fuel →
  (∀ g s, in_range t g s → tag_at t g s ≠ TOMBSTONE) →
  ∃ t', insert_after_resize D fuel t (hash_key k) k v = Some t' ∧
    sound t' ∧ alloc_ok t' ∧ entries t' ≡ₚ (k, v) :: entries t ∧ used t' = used t + 1 ∧
    mask t' = mask t ∧ max_load t' = max_load t ∧ growth_left t' = growth_left t ∧
    (∀ g s, in_range t' g s → tag_at t' g s ≠ TOMBSTONE).
Proof.
  intros Hs Ha Hroom Hk Hfuel Hnt.
  destruct (probe_stops D hash_key t k Hs Hroom) as (n & Hn & Hstop).
  unfold insert_after_resize. change (group_index D t (hash_key k)) with (home D hash_key t k).
  change (home D hash_key t k) with (probe_pos (mask t) (home D hash_key t k) 0).
  eapply (probe_loop_total _ _ _ (λ i _, unstopped t k i) _ (mask t)); [intros j Hj; lia| |lia..].
  intros i [] _ Hu. cbv beta.
  change (probe_pos (mask t) (home D hash_key t k) i) with (pos D hash_key t k i).
  destruct (lowest_set_bit W (group_empty D t _)) as [si|] eqn:He.
  - apply avail_empty in He as [Hav Ht]; [|done..].
    destruct (fill_ok t _ si k v Hs Ha Hav Hk) as (Hs' & F & _ & Hp & Hus & _).
    split_and!; try done; try apply F.
    + rewrite Hus. unfold spent. by rewrite Ht.
    + intros g s Hr. unfold TombInv.in_range in Hr. rewrite (fr_mask _ _ _ _ F) in Hr.
      destruct (decide ((g, s) = (pos D hash_key t k i, si))) as [[= -> ->]|Hne].
      * pose proof (fill_content D hash_key t _ si k v Ha Hr (av_reach _ _ _ _ Hav)) as [-> _].
        pose proof (tomb_tag_range (hash_key k) (T := TTag D)). unfold ktag, TOMBSTONE. lia.
      * rewrite (fr_tag _ _ _ _ F) by done. by apply Hnt.
  - apply empty_none in He; [|done]. split; [|by apply unstopped_step].
    destruct (decide (i < mask t)); [done|]. exfalso. destruct (decide (n = i)) as [->|]; [done|].
    apply (Hu n); [lia|done].
Qed.

(** ** [find_or_locate] and [insert_at] *)

Abbreviation missed t k := (passed (pos D hash_key t k) (has_empty t) (holds D t k)).

Definition locate_result t (k : K) (r : ProbeResult) : Prop :=
  match r with
  | Found gi si => find_result D t k (Some (gi, si))
  | InsertSlot gi si m => m = 0%Z ∧ to_map t !! k = None ∧ avail t k gi si
  | NotFound => False
  end.

Definition available_ok t (k : K) (o : option (nat * nat)) : Prop :=
  match o with Some (g, s) => avail t k g s | None => True end.

Lemma missed_unstopped t k i : missed t k i → unstopped t k i.
Proof. intros Hm j Hj. by apply Hm. Qed.

Lemma any_lowest t gi :
  any_set (group_empty D t gi) = true → ∃ s, lowest_set_bit W (group_empty D t gi) = Some s.
Proof.
  intros Ha%any_empty; [|done]. destruct (lowest_set_bit _ _) eqn:E; [eauto|].
  by apply empty_none in E.
Qed.

Section locate.
Context t (k : K) (eq : K → bool) (Hwf : wf t) (Heq : ∀ k', eq k' = true ↔ k' = k).

Abbreviation scan_home gi :=
  (scan_keys D t gi (tg_match_byte (TG D) (ctrl_bytes D (ctrl t)) (meta_ptr D gi)
     (reduced_hash (TTag D) (hash_key k))) eq).

Lemma locate_overflow_spec fuel o :
  mask t <= fuel → missed t k 1 → available_ok t k o → 1 <= mask t →
  ∃ r, find_or_locate_overflow D fuel t eq (reduced_hash (TTag D) (hash_key k))
         (home D hash_key t k) o = Some r ∧ locate_result t k r.
Proof using Hwf Heq DesignOk0.
  intros Hfuel Hm1 Ho1 Hm. pose proof (wf_sound _ _ _ Hwf) as Hs.
  destruct (probe_stops D hash_key t k Hs (wf_has_room D hash_key t Hwf)) as (n & Hn & Hstop).
  unfold find_or_locate_overflow.
  change (next_group (mask t) (home D hash_key t k) 1)
    with (probe_pos (mask t) (home D hash_key t k) 1).
  eapply (probe_loop_total _ _ _ (λ i o, missed t k i ∧ available_ok t k o) _ (mask t));
    [done| |lia..].
  intros i o' _ [Hi Ho]. cbv beta.
  change (probe_pos (mask t) (home D hash_key t k) i) with (pos D hash_key t k i).
  pose proof (tomb_pos_le D hash_key t k i Hs) as Hle.
  rewrite tg_match_both. destruct (scan_home (pos D hash_key t k i)) as [si|] eqn:Hsc.
  { by apply (tomb_scan_found D hash_key t k eq Hs Heq). }
  apply (tomb_scan_missed D hash_key t k eq Hs Heq) in Hsc; [|done].
  change (tg_match_empty (TG D) (ctrl_bytes D (ctrl t)) (meta_ptr D (pos D hash_key t k i)))
    with (group_empty D t (pos D hash_key t k i)).
  pose proof (missed_unstopped t k i Hi) as Hu. cbv zeta.
  assert (available_ok t k (match o' with Some _ => o' | None =>
    match lowest_set_bit W (group_tombs D t (pos D hash_key t k i)) with
    | Some tsi => Some (pos D hash_key t k i, tsi)
    | None => pair (pos D hash_key t k i) <$>
        lowest_set_bit W (group_empty D t (pos D hash_key t k i)) end end)) as Ho'.
  { destruct o'; [done|]. destruct (lowest_set_bit W (group_tombs D t _)) eqn:E.
    - by apply avail_tomb.
    - destruct (lowest_set_bit W (group_empty D t _)) eqn:E'; [|done]. by apply avail_empty. }
  destruct (any_set _) eqn:Ha.
  - destruct (any_lowest _ _ Ha) as [s E]. apply any_empty in Ha; [|done]. rewrite E in Ho' |- *.
    assert (to_map t !! k = None) as Hk by (by apply (tomb_missed_absent D hash_key t k i)).
    destruct o' as [[g' s']|]; [done|].
    destruct (lowest_set_bit W (group_tombs D t _)) as [tsi|]; done.
  - assert (missed t k (S i)) as HS.
    { apply passed_step; [done|done|]. intros Hc%any_empty; [congruence|done]. }
    split; [|done]. pose proof (passed_bound _ _ _ _ n HS Hstop). lia.
Qed.

Lemma find_or_locate_spec fuel :
  mask t < fuel →
  ∃ r, find_or_locate D fuel t (hash_key k) eq = Some r ∧ locate_result t k r.
Proof using Hwf Heq DesignOk0.
  intros Hfuel. pose proof (wf_sound _ _ _ Hwf) as Hs. unfold find_or_locate.
  change (group_index D t (hash_key k)) with (home D hash_key t k).
  pose proof (tomb_home_le D hash_key t k) as Hle. pose proof (passed_0 (pos D hash_key t k)
    (has_empty t) (holds D t k)) as H0.
  rewrite tg_match_both. destruct (scan_home (home D hash_key t k)) as [si|] eqn:Hsc.
  { eexists. split; [reflexivity|]. by apply (tomb_scan_found D hash_key t k eq Hs Heq). }
  apply (tomb_scan_missed D hash_key t k eq Hs Heq) in Hsc; [|done].
  change (tg_match_empty (TG D) (ctrl_bytes D (ctrl t)) (meta_ptr D (home D hash_key t k)))
    with (group_empty D t (home D hash_key t k)).
  pose proof (missed_unstopped t k 0 H0) as Hu.
  destruct (lowest_set_bit W (group_empty D t _)) as [si|] eqn:He.
  - change (home D hash_key t k) with (pos D hash_key t k 0) in He |- *.
    apply avail_empty in He as [Hav Ht]; [|done..].
    assert (to_map t !! k = None) as Hk.
    { apply (tomb_missed_absent D hash_key t k 0); try done. exists si. split; [apply Hav|done]. }
    destruct (lowest_set_bit W (group_tombs D t _)) as [tsi|] eqn:E.
    + apply avail_tomb in E as [Hav' _]; [|done..]. by eexists.
    + by eexists.
  - apply empty_none in He; [|done].
    assert (missed t k 1) as Hm1 by (by apply passed_step).
    destruct (decide (1 <= mask t)) as [Hm|Hm].
    + apply locate_overflow_spec; [lia|done| |done].
      destruct (lowest_set_bit W (group_tombs D t _)) as [tsi|] eqn:E; [|done].
      by apply (avail_tomb t k 0).
    + exfalso.
      destruct (probe_stops D hash_key t k Hs (wf_has_room D hash_key t Hwf)) as (n & Hn & Hstop).
      assert (n = 0) as -> by lia. done.
Qed.
End locate.

Lemma insert_at_spec t k v g s :
  wf t → allocated t → avail t k g s → to_map t !! k = None → 0 < growth_left t →
  inserted t (insert_at D t (hash_key k) g s k v) k v (g, s).
Proof.
  intros Hwf Hal Hav Hk Hg. pose proof (place_ok t g s k v Hwf Hal Hav Hk (λ _, Hg)) as I.
  unfold insert_at. change (get_meta (ctrl_bytes D (ctrl t)) (meta_ptr D g) s) with (tag_at t g s).
  unfold spent in I. destruct (tag_at t g s =? EMPTY)%Z; [done|].
  rewrite Nat.sub_0_r in I. by rewrite with_growth_left_id in I.
Qed.
End probing.
