(* ===== verification/TombOps.v ===== *)
(** * The tombstone raw tables: operations

    Allocation, rehashing in both styles, insertion with growth, removal,
    reserving, shrinking, clearing and cloning, as operations on the map that
    the table represents. *)

From Stdlib Require Import ZArith Lia.
From S2P Require Import Prelude Probe SlotMap Bitmask HashTag Group Layout.
From S2P Require Import TombTable TombInv TombWrite TombProbe.

Section ops.
Context (D : TombDesign) `{!DesignOk D} {K V : Type} `{Countable K} (hash_key : K → Z).
Implicit Types t : RawTable K V.

Abbreviation tag_at := (tag_at D).
Abbreviation kv_at := (kv_at D).
Abbreviation in_range := (in_range D).
Abbreviation alloc_ok := (alloc_ok D).
Abbreviation all_slots := (all_slots D).
Abbreviation slot_entry := (slot_entry D).
Abbreviation entries := (entries D).
Abbreviation to_map := (to_map D).
Abbreviation sound := (sound D hash_key).
Abbreviation wf := (wf D hash_key).
Abbreviation allocated := (allocated D).
Abbreviation full_load := (full_load D).
Abbreviation used := (used D).
Abbreviation gs := (T_GROUP_SIZE D).
Abbreviation inserted := (inserted D hash_key).

(** ** Fresh tables *)

Definition load_of_groups (n : nat) : nat := load_of 7 8 gs n.

Lemma tomb_load_of_groups_pos n : 0 < n → 0 < load_of_groups n.
Proof using DesignOk0. intros. pose proof design_gs. apply load_of_pos; lia. Qed.

(** No tombstones: every slot in use holds a pair. *)
Definition clean t : Prop := growth_left t + len t = full_load t.

Record fresh t (n : nat) : Prop := {
  fresh_wf : wf t;
  fresh_alloc : allocated t;
  fresh_entries : entries t = [];
  fresh_groups : mask t + 1 = n;
  fresh_growth : growth_left t = load_of_groups n;
  fresh_len : len t = 0;
  fresh_tags g s : in_range t g s → tag_at t g s = EMPTY;
}.

Lemma all_empty_entries t : (∀ g s, in_range t g s → tag_at t g s = EMPTY) → entries t = [].
Proof.
  intros He. unfold TombInv.entries, kvs. apply omap_none. intros [g s] Hin%tomb_elem_of_all_slots.
  unfold TombInv.slot_entry. simpl. by rewrite He.
Qed.

(** Zeroed metadata and full counters make a fresh table. *)
Lemma tomb_fresh_intro t :
  group_count (mask t + 1) → shift t = shift_of (mask t + 1) → alloc_ok t →
  (∀ i, byte_at (ctrl_bytes D (ctrl t)) i = 0%Z) →
  max_load t = full_load t → growth_left t = full_load t → len t = 0 → fresh t (mask t + 1).
Proof.
  intros [Hp Hl] Hsh Ha Hb Hx Hg Hlen.
  assert (∀ g s, tag_at t g s = EMPTY) as Ht by (intros g s; apply Hb).
  assert (allocated t) as Hal.
  { split_and!; [done|done|]. rewrite used_none by done. lia. }
  assert (entries t = []) as He by (apply all_empty_entries; intros; apply Ht).
  split; try done. split; [|by right|by rewrite He, Hlen]. split; try done.
  - unfold log_groups. by rewrite <- Hp, Nat.add_1_r.
  - intros i. by rewrite Hb.
  - intros g s _ Hd. by rewrite Ht in Hd.
  - intros [g s] q k v v' _ _. unfold TombInv.slot_entry. simpl. by rewrite Ht.
Qed.

Lemma zeros_byte n l i : length l <= n → byte_at (zero_bytes n l) i = 0%Z.
Proof.
  intros Hl. unfold zero_bytes, byte_at. rewrite drop_ge, app_nil_r by done.
  destruct (replicate _ _ !! i) eqn:E; [|done]. by apply lookup_replicate in E as [-> _].
Qed.

Lemma tomb_allocate_fresh t n : group_count n → len t = 0 → fresh (allocate D t n) n.
Proof.
  intros Hc Hlen. pose proof (group_count_pos n Hc).
  assert (mask (allocate D t n) + 1 = n) as Hn by (cbn; lia).
  rewrite <- Hn at 2. apply tomb_fresh_intro; try done; try rewrite Hn; try done.
  - eexists. split; [reflexivity|]. rewrite <- (Nat.add_1_r (mask _)), Hn, design_meta.
    cbn [bytes slots]. rewrite length_zero_bytes; by rewrite !length_replicate.
  - intros i. apply zeros_byte. by rewrite length_replicate.
  - unfold full_load. by rewrite Hn.
  - unfold full_load. by rewrite Hn.
Qed.

Lemma fresh_clean t n : fresh t n → clean t.
Proof.
  intros F. unfold clean. rewrite (fresh_growth _ _ F), (fresh_len _ _ F), full_load_of.
  unfold load_of_groups. rewrite (fresh_groups _ _ F). lia.
Qed.

Lemma tomb_fresh_map t n : fresh t n → to_map t = ∅.
Proof. intros F. unfold TombInv.to_map, slot_map. change (map_of (entries t) = ∅).
  by rewrite (fresh_entries _ _ F). Qed.

Lemma tomb_wf_group_count t : wf t → group_count (mask t + 1).
Proof.
  intros Hwf. pose proof (sd_pow2 _ _ _ (wf_sound _ _ _ Hwf)) as Hp. unfold log_groups in Hp.
  split; [|apply (sd_log _ _ _ (wf_sound _ _ _ Hwf))]. by rewrite <- Hp, Nat.add_1_r.
Qed.

Lemma unallocated_entries t : unallocated t → entries t = [].
Proof. intros Hu. apply all_empty_entries. intros. by apply tomb_tag_at_unallocated. Qed.

Lemma tomb_unallocated_len t : wf t → unallocated t → len t = 0 ∧ to_map t = ∅.
Proof.
  intros Hwf Hu. pose proof (unallocated_entries t Hu) as He.
  split; [by rewrite (wf_len _ _ _ Hwf), He|]. unfold TombInv.to_map, slot_map.
  change (map_of (entries t) = ∅). by rewrite He.
Qed.

Lemma not_allocated t : wf t → is_allocated D t = false → unallocated t.
Proof.
  intros Hwf Hf. destruct (wf_ctrl _ _ _ Hwf) as [?|Ha]; [done|].
  apply (is_allocated_spec D hash_key) in Ha; [congruence|done].
Qed.

Lemma len_le_full t : wf t → len t <= full_load t.
Proof.
  intros Hwf. destruct (wf_ctrl _ _ _ Hwf) as [Hu|(_ & _ & Hg)].
  - destruct (tomb_unallocated_len t Hwf Hu) as [-> _]. lia.
  - pose proof (len_le_used D hash_key t Hwf). lia.
Qed.

(** ** Occupied slots *)

Lemma tomb_occupied_kvs_entries t : sound t → occupied_kvs D t = entries t.
Proof.
  intros Hs. unfold occupied_kvs, occupied_slots, TombInv.entries, kvs, TombInv.all_slots, slot_list.
  unfold num_groups. induction (seq 0 (mask t + 1)) as [|g l IH]; [done|].
  rewrite !bind_cons, !omap_app, IH. f_equal. clear IH. unfold group_occupied.
  rewrite (bits_repr _ _ gs (λ s, negb (is_dead (tag_at t g s))));
    [|apply tg_match_occupied_repr, Hs|apply tg_width].
  induction (seq 0 gs) as [|s l' IH]; [done|]. csimpl.
  unfold TombInv.slot_entry at 1. simpl.
  destruct (is_dead (tag_at t g s)); csimpl; [done|]. by rewrite IH.
Qed.

Lemma tomb_entries_keys_NoDup t : sound t → NoDup (entries t).*1.
Proof. intros Hs. apply kvs_keys_NoDup; [apply tomb_all_slots_NoDup|apply Hs]. Qed.

(** ** Rehashing *)

Lemma inserted_clean t t' k v p : clean t → inserted t t' k v p → 0 < growth_left t → clean t'.
Proof.
  intros Hc I Hg. unfold clean in *. pose proof (ins_growth _ _ _ _ _ _ _ I) as Hg'.
  pose proof (ins_alloc _ _ _ _ _ _ _ I) as (_ & _ & Hu).
  pose proof (len_le_used D hash_key t' (ins_wf _ _ _ _ _ _ _ I)) as Hl.
  rewrite (ins_len _ _ _ _ _ _ _ I) in *.
  assert (full_load t' = full_load t) as Hf
    by (unfold full_load; by rewrite (ins_mask _ _ _ _ _ _ _ I)).
  assert (spent D t p.1 p.2 <= 1) by (unfold spent; by destruct (_ =? _)%Z; lia). lia.
Qed.

(** Both re-insertion loops add the pairs and leave no tombstone. *)

Lemma reinsert_counted_spec fuel kvs t :
  wf t → allocated t → clean t → mask t < fuel →
  NoDup (kvs ++ entries t).*1 → length kvs <= growth_left t →
  ∃ t', reinsert_counted D hash_key fuel kvs t = Some t' ∧
    wf t' ∧ allocated t' ∧ clean t' ∧ mask t' = mask t ∧
    entries t' ≡ₚ kvs ++ entries t.
Proof.
  revert t. induction kvs as [|[k v] kvs IH]; intros t Hwf Hal Hc Hfuel Hnd Hg; [by exists t|].
  simpl in Hg, Hnd. apply NoDup_cons in Hnd as [Hk Hnd].
  destruct (tomb_insert_no_check_spec D hash_key fuel t k v) as (t1 & p & Hrun & I);
    [done|done| |lia|done|].
  { apply map_of_lookup_none. intros Hin. apply Hk. rewrite fmap_app. apply elem_of_app. by right. }
  assert (clean t1) as Hc1 by (eapply inserted_clean; [done..|lia]).
  assert (kvs ++ entries t1 ≡ₚ (k, v) :: kvs ++ entries t) as Hperm.
  { rewrite (ins_entries _ _ _ _ _ _ _ I). symmetry. apply Permutation_middle. }
  destruct (IH t1) as (t' & Hrun' & Hwf' & Hal' & Hc' & Hm' & He');
    [apply I|apply I|done|by rewrite (ins_mask _ _ _ _ _ _ _ I)| | |].
  - rewrite Hperm. csimpl. by apply NoDup_cons.
  - rewrite (ins_growth _ _ _ _ _ _ _ I).
    assert (spent D t p.1 p.2 <= 1) by (unfold spent; by destruct (_ =? _)%Z; lia). lia.
  - exists t'. split; [simpl; by rewrite Hrun|]. split_and!; try done.
    + by rewrite Hm', (ins_mask _ _ _ _ _ _ _ I).
    + by rewrite He', Hperm.
Qed.

Lemma reinsert_batched_spec fuel kvs t :
  sound t → alloc_ok t → mask t < fuel → NoDup (kvs ++ entries t).*1 →
  used t + length kvs < (mask t + 1) * gs → (∀ g s, in_range t g s → tag_at t g s ≠ TOMBSTONE) →
  ∃ t', reinsert_batched D hash_key fuel kvs t = Some t' ∧
    sound t' ∧ alloc_ok t' ∧ entries t' ≡ₚ kvs ++ entries t ∧ used t' = used t + length kvs ∧
    mask t' = mask t ∧ max_load t' = max_load t ∧ growth_left t' = growth_left t.
Proof.
  revert t. induction kvs as [|[k v] kvs IH]; intros t Hs Ha Hfuel Hnd Hroom Hnt.
  { exists t. by rewrite Nat.add_0_r. }
  simpl in Hroom, Hnd. apply NoDup_cons in Hnd as [Hk Hnd].
  destruct (insert_after_resize_spec D hash_key fuel t k v)
    as (t1 & Hrun & Hs1 & Ha1 & He1 & Hu1 & Hm1 & Hx1 & Hg1 & Hnt1); [done|done| | |done|done|].
  { unfold has_room. lia. }
  { apply map_of_lookup_none. intros Hin. apply Hk. rewrite fmap_app. apply elem_of_app. by right. }
  assert (kvs ++ entries t1 ≡ₚ (k, v) :: kvs ++ entries t) as Hperm.
  { rewrite He1. symmetry. apply Permutation_middle. }
  destruct (IH t1) as (t' & Hrun' & Hs' & Ha' & He' & Hu' & Hm' & Hx' & Hg');
    [done|done|by rewrite Hm1| |rewrite Hm1, Hu1; lia|done|].
  - rewrite Hperm. csimpl. by apply NoDup_cons.
  - exists t'. split; [simpl; by rewrite Hrun|]. split_and!; try done; try congruence.
    + by rewrite He', Hperm.
    + rewrite Hu', Hu1. simpl. lia.
Qed.

(** The table after a rehash: same pairs, no tombstones. *)
Record rehashed t t' (n : nat) : Prop := {
  rh_wf : wf t';
  rh_alloc : allocated t';
  rh_clean : clean t';
  rh_entries : entries t' ≡ₚ entries t;
  rh_groups : mask t' + 1 = n;
}.

Lemma tomb_rehashed_map t t' n : rehashed t t' n → to_map t' = to_map t.
Proof.
  intros R. unfold TombInv.to_map, slot_map. change (map_of (entries t') = map_of (entries t)).
  apply map_of_perm; [apply tomb_entries_keys_NoDup, R|apply R].
Qed.

Lemma rehashed_len t t' n : wf t → rehashed t t' n → len t' = len t.
Proof.
  intros Hwf R. rewrite (wf_len _ _ _ Hwf), (wf_len _ _ _ (rh_wf _ _ _ R)).
  by rewrite (rh_entries _ _ _ R).
Qed.

Lemma tomb_full_load_groups t : full_load t = load_of_groups (mask t + 1).
Proof. done. Qed.

Lemma fresh_full t n : fresh t n → full_load t = load_of_groups n.
Proof. intros F. rewrite tomb_full_load_groups. by rewrite (fresh_groups _ _ F). Qed.

Lemma batched_spec fuel t t1 n :
  wf t → fresh t1 n → n <= fuel → len t <= load_of_groups n →
  ∃ t2, reinsert_batched D hash_key fuel (entries t) t1 = Some t2 ∧
    rehashed t (with_growth_left (with_len t2 (len t)) (growth_left t2 - len t)) n.
Proof.
  intros Hwf F Hfuel Hlen.
  assert (used t1 = 0) as Hu by (apply used_none, F).
  pose proof (tomb_full_load_lt D t1) as Hlt. rewrite (fresh_full _ _ F) in Hlt.
  pose proof (wf_len _ _ _ Hwf) as Hl. destruct (fresh_alloc _ _ F) as (Ha1 & Hx1 & _).
  destruct (reinsert_batched_spec fuel (entries t) t1)
    as (t2 & Hrun & Hs2 & Ha2 & He2 & Hu2 & Hm2 & Hx2 & Hg2).
  - apply wf_sound, F.
  - done.
  - pose proof (fresh_groups _ _ F). lia.
  - rewrite (fresh_entries _ _ F), app_nil_r. by apply tomb_entries_keys_NoDup, wf_sound.
  - lia.
  - intros g s Hr. by rewrite (fresh_tags _ _ F).
  - exists t2. split; [done|]. rewrite (fresh_entries _ _ F), app_nil_r in He2.
    assert (full_load t2 = load_of_groups n) as Hf2.
    { rewrite tomb_full_load_groups, Hm2. by rewrite (fresh_groups _ _ F). }
    assert (allocated (with_growth_left (with_len t2 (len t)) (growth_left t2 - len t))) as Hal.
    { split_and!; [done| |].
      - change (max_load t2 = full_load t2). rewrite Hx2, Hx1, Hf2. by apply fresh_full.
      - change (growth_left t2 - len t + used t2 = full_load t2).
        rewrite Hg2, (fresh_growth _ _ F), Hf2. lia. }
    split; try done.
    + split; [by apply (sound_counters D hash_key)|by right|]. change (len t = length (entries t2)).
      by rewrite He2.
    + unfold clean. change (growth_left t2 - len t + len t = full_load t2).
      rewrite Hg2, (fresh_growth _ _ F), Hf2. lia.
    + change (mask t2 + 1 = n). rewrite Hm2. apply F.
Qed.

Lemma counted_spec fuel t t1 n :
  wf t → fresh t1 n → n <= fuel → len t <= load_of_groups n →
  ∃ t2, reinsert_counted D hash_key fuel (entries t) t1 = Some t2 ∧ rehashed t t2 n.
Proof.
  intros Hwf F Hfuel Hlen. pose proof (wf_len _ _ _ Hwf) as Hl.
  destruct (reinsert_counted_spec fuel (entries t) t1) as (t2 & Hrun & Hwf2 & Hal2 & Hc2 & Hm2 & He2).
  - apply F.
  - apply F.
  - by eapply fresh_clean.
  - pose proof (fresh_groups _ _ F). lia.
  - rewrite (fresh_entries _ _ F), app_nil_r. by apply tomb_entries_keys_NoDup, wf_sound.
  - rewrite (fresh_growth _ _ F). lia.
  - rewrite (fresh_entries _ _ F), app_nil_r in He2. exists t2. split; [done|].
    split; try done. rewrite Hm2. apply F.
Qed.

Lemma tomb_rehash_spec fuel t n :
  wf t → group_count n → n <= fuel → len t <= load_of_groups n →
  ∃ t', rehash_with D hash_key fuel t n = Some t' ∧ rehashed t t' n.
Proof.
  intros Hwf Hn Hfuel Hlen. unfold rehash_with. cbv zeta.
  match goal with |- context [allocate D ?x n] => set (t0 := x) end.
  pose proof (tomb_allocate_fresh t0 n Hn eq_refl) as F. set (t1 := allocate D t0 n) in *.
  destruct (is_allocated D t) eqn:Hal; cbn [negb].
  - rewrite tomb_occupied_kvs_entries by apply Hwf. destruct (BATCHED_REHASH D).
    + destruct (batched_spec fuel t t1 n) as (t2 & -> & R); [done..|]. by eexists.
    + by apply counted_spec.
  - exists t1. split; [done|]. apply not_allocated in Hal; [|done].
    pose proof (unallocated_entries t Hal) as He.
    split; try apply F; [by eapply fresh_clean|]. by rewrite He, (fresh_entries _ _ F).
Qed.

(** ** Growing *)

Definition grown_groups t : nat :=
  if negb (is_allocated D t) then 1
  else if full_load t <=? len t then (mask t + 1) * 2 else mask t + 1.

Lemma tomb_grown_groups_ok t :
  wf t → log_groups t < MAX_LOG_GROUPS →
  group_count (grown_groups t) ∧ grown_groups t <= 2 * (mask t + 1) ∧
  len t < load_of_groups (grown_groups t).
Proof.
  intros Hwf Hlog. pose proof (tomb_wf_group_count t Hwf) as Hc. unfold grown_groups.
  destruct (is_allocated D t) eqn:Hal; cbn [negb].
  - pose proof (len_le_full t Hwf) as Hle. rewrite tomb_full_load_groups in *.
    destruct (Nat.leb_spec (load_of_groups (mask t + 1)) (len t)).
    + assert (load_of_groups (mask t + 1) < load_of_groups ((mask t + 1) * 2)).
      { pose proof design_gs. apply load_of_double; lia. }
      split_and!; [by apply group_count_double|lia|lia].
    + split_and!; [done|lia|lia].
  - apply not_allocated in Hal; [|done]. destruct (tomb_unallocated_len t Hwf Hal) as [-> _].
    split; [exact group_count_1|]. split; [lia|]. by apply tomb_load_of_groups_pos, Nat.lt_0_succ.
Qed.

Lemma tomb_grow_spec fuel t :
  wf t → log_groups t < MAX_LOG_GROUPS → 2 * (mask t + 1) <= fuel →
  ∃ t', grow_or_rehash D hash_key fuel t = Some t' ∧
    rehashed t t' (grown_groups t) ∧ 0 < growth_left t'.
Proof.
  intros Hwf Hlog Hfuel. destruct (tomb_grown_groups_ok t Hwf Hlog) as (Hc & Hle & Hlt).
  destruct (tomb_rehash_spec fuel t (grown_groups t)) as (t' & Hrun & R); [done|done|lia|lia|].
  exists t'. split; [exact Hrun|]. split; [done|].
  pose proof (rh_clean _ _ _ R) as Hcl. unfold clean in Hcl.
  rewrite tomb_full_load_groups, (rh_groups _ _ _ R), (rehashed_len t t' _ Hwf R) in Hcl. lia.
Qed.
End ops.
