(* ===== verification/TombApi.v ===== *)
(** * The tombstone raw tables: the table interface

    Every operation of the interface as an operation on the map. *)

From Stdlib Require Import ZArith Lia.
From S2P Require Import Prelude Probe SlotMap Bitmask HashTag Group Layout.
From S2P Require Import TombTable TombInv TombWrite TombProbe TombOps.

Section api.
Context (D : TombDesign) `{!DesignOk D} {K V : Type} `{Countable K} (hash_key : K → Z).
Implicit Types t : RawTable K V.

Abbreviation tag_at := (tag_at D).
Abbreviation kv_at := (kv_at D).
Abbreviation in_range := (in_range D).
Abbreviation alloc_ok := (alloc_ok D).
Abbreviation slot_entry := (slot_entry D).
Abbreviation entries := (entries D).
Abbreviation to_map := (to_map D).
Abbreviation sound := (sound D hash_key).
Abbreviation wf := (wf D hash_key).
Abbreviation allocated := (allocated D).
Abbreviation full_load := (full_load D).
Abbreviation used := (used D).
Abbreviation gs := (T_GROUP_SIZE D).
Abbreviation inserted := (inserted D hash_key).
Abbreviation load_of_groups := (load_of_groups D).
Abbreviation fresh := (fresh D hash_key).

(** What an operation that may grow the table once needs. *)
Definition can_grow fuel t : Prop :=
  log_groups t < MAX_LOG_GROUPS ∧ 2 * (mask t + 1) <= fuel.

Lemma tomb_can_grow_fuel fuel t : can_grow fuel t → mask t < fuel.
Proof. unfold can_grow. lia. Qed.

Lemma tomb_key_eqb (k k' : K) : bool_decide (k' = k) = true ↔ k' = k.
Proof. apply bool_decide_eq_true. Qed.

Lemma find_spec fuel t k :
  wf t → mask t < fuel →
  ∃ r, find_by_hash D fuel t (hash_key k) (λ k', bool_decide (k' = k)) = Some r ∧
    find_result D t k r.
Proof.
  intros Hwf Hfuel. apply (find_ok D hash_key t k _ (wf_sound _ _ _ Hwf) (tomb_key_eqb k)); [|done].
  by apply (wf_has_room D hash_key).
Qed.

Lemma found_lookup t k gi si :
  wf t → find_result D t k (Some (gi, si)) →
  in_range t gi si ∧ ∃ v, kv_at t gi si = Some (k, v) ∧ slot_entry t (gi, si) = Some (k, v) ∧
    to_map t !! k = Some v.
Proof.
  intros Hwf [Hr [v He]]. split; [done|]. exists v. split_and!; [|done|].
  - by apply tomb_slot_entry_some in He as [_ ?].
  - apply (tomb_to_map_lookup D hash_key t k v (wf_sound _ _ _ Hwf)). eauto.
Qed.

(** A table with a pair is allocated. *)
Lemma found_allocated t k gi si :
  wf t → find_result D t k (Some (gi, si)) → allocated t.
Proof.
  intros Hwf [Hr [v He]]. destruct (wf_ctrl _ _ _ Hwf) as [Hu|?]; [|done].
  apply tomb_slot_entry_some in He as [Ht _]. simpl in Ht. by rewrite tomb_tag_at_unallocated in Ht.
Qed.

(** ** Insertion *)

(** The outcome of inserting [(k, v)], new or not. *)
Record upserted t t' (k : K) (v : V) (old : option V) : Prop := {
  up_wf : wf t';
  up_alloc : allocated t';
  up_map : to_map t' = <[k := v]> (to_map t);
  up_old : old = to_map t !! k;
}.

Lemma tomb_upserted_replace t gi si k v :
  wf t → find_result D t k (Some (gi, si)) →
  ∃ t' old, replace_value D t gi si v = (t', old) ∧ upserted t t' k v old ∧ mask t' = mask t.
Proof.
  intros Hwf Hf. pose proof (found_allocated t k gi si Hwf Hf) as Hal.
  destruct (found_lookup t k gi si Hwf Hf) as (Hr & v0 & Hkv & He & Hm).
  pose proof (wf_sound _ _ _ Hwf) as Hs. pose proof Hal as (Ha & Hx & Hg).
  destruct (overwrite_frame D hash_key t gi si k v0 v Hs Ha Hr He) as [F C].
  destruct (sound_replace D hash_key t _ gi si Hs Hr F k v0 v He C) as (Hs' & Hm' & Hl).
  exists (write_kv D t gi si (k, v)), (Some v0). split; [unfold replace_value; by rewrite Hkv|].
  assert (allocated (write_kv D t gi si (k, v))) as Hal'.
  { split_and!; [apply F|exact Hx|]. rewrite (used_frame D t _ gi si Hr F).
    destruct (tomb_slot_entry_reach D hash_key t gi si k v0 Hs Hr He) as [-> _].
    pose proof (ktag_live D hash_key k) as Hlive. unfold is_dead in Hlive.
    destruct (_ =? EMPTY)%Z; [done|]. rewrite Nat.add_0_r. exact Hg. }
  split; [|done]. split; [|done|done|done].
  split; [done|by right|]. rewrite Hl. apply (wf_len _ _ _ Hwf).
Qed.

Lemma tomb_upserted_insert t t' k v p :
  to_map t !! k = None → inserted t t' k v p → upserted t t' k v None.
Proof. intros Hk I. split; [apply I|apply I|apply I|done]. Qed.

Lemma tomb_upserted_rehash t t1 t' n k v old :
  rehashed D hash_key t t1 n → upserted t1 t' k v old → upserted t t' k v old.
Proof.
  intros R U. pose proof (tomb_rehashed_map D hash_key t t1 n R) as Hm. destruct U.
  split; [done|done|by rewrite <- Hm|by rewrite <- Hm].
Qed.

(** A vacant slot is in an allocated table. *)
Lemma growth_allocated t : wf t → 0 < growth_left t → allocated t.
Proof. intros Hwf Hg. destruct (wf_ctrl _ _ _ Hwf) as [(_ & _ & _ & Hz)|?]; [lia|done]. Qed.

(** Growing when no growth is left, then inserting a new key. *)
Lemma grow_insert_spec fuel t k v :
  wf t → to_map t !! k = None → can_grow fuel t →
  ∃ t' p, (do t <- (if growth_left t =? 0 then grow_or_rehash D hash_key fuel t else Some t);
           insert_no_check D fuel t (hash_key k) k v) = Some (t', p) ∧
    upserted t t' k v None ∧ slot_entry t' p = Some (k, v) ∧ in_range t' p.1 p.2.
Proof.
  intros Hwf Hk [Hlog Hfuel]. destruct (Nat.eqb_spec (growth_left t) 0) as [Hz|Hnz].
  - destruct (tomb_grow_spec D hash_key fuel t Hwf Hlog Hfuel) as (t1 & -> & R & Hg).
    destruct (tomb_grown_groups_ok D hash_key t Hwf Hlog) as (_ & Hle & _).
    pose proof (rh_groups _ _ _ _ _ R).
    destruct (tomb_insert_no_check_spec D hash_key fuel t1 k v) as (t' & p & Hrun & I);
      [apply R|apply R|by rewrite (tomb_rehashed_map D hash_key t t1 _ R)|done|lia|].
    exists t', p. split; [exact Hrun|]. split; [|split; apply I].
    eapply tomb_upserted_rehash; [done|]. eapply tomb_upserted_insert; [|done].
    by rewrite (tomb_rehashed_map D hash_key t t1 _ R).
  - destruct (tomb_insert_no_check_spec D hash_key fuel t k v) as (t' & p & Hrun & I);
      [done|apply growth_allocated; [done|lia]|done|lia|lia|].
    exists t', p. split; [exact Hrun|]. split; [by eapply tomb_upserted_insert|split; apply I].
Qed.

Lemma grow_insert_bind {R} fuel t k v (f : RawTable K V → nat * nat → R) :
  (do t <- (if growth_left t =? 0 then grow_or_rehash D hash_key fuel t else Some t);
   do ' (t, p) <- insert_no_check D fuel t (hash_key k) k v; Some (f t p)) =
  (do ' (t, p) <- (do t <- (if growth_left t =? 0 then grow_or_rehash D hash_key fuel t else Some t);
     insert_no_check D fuel t (hash_key k) k v); Some (f t p)).
Proof. by destruct (if growth_left t =? 0 then _ else _). Qed.

(** The home group answers most insertions by itself. *)
Lemma home_empty_spec t k si :
  wf t →
  scan_keys D t (group_index D t (hash_key k))
    (tg_match_byte (TG D) (ctrl_bytes D (ctrl t)) (meta_ptr D (group_index D t (hash_key k)))
       (reduced_hash (TTag D) (hash_key k))) (λ k', bool_decide (k' = k)) = None →
  lowest_set_bit (tg_mask (TG D)) (group_empty D t (group_index D t (hash_key k))) = Some si →
  to_map t !! k = None ∧ avail D hash_key t k (group_index D t (hash_key k)) si ∧
  tag_at t (group_index D t (hash_key k)) si = EMPTY.
Proof.
  intros Hwf Hsc He. pose proof (wf_sound _ _ _ Hwf) as Hs.
  change (group_index D t (hash_key k)) with (home D hash_key t k) in *.
  apply (tomb_scan_missed D hash_key t k _ Hs (tomb_key_eqb k)) in Hsc; [|by apply tomb_home_le].
  change (home D hash_key t k) with (pos D hash_key t k 0) in He |- *.
  apply (avail_empty D hash_key t k 0) in He as [Hav Ht]; [|done|intros j Hj; lia].
  split_and!; [|done|done].
  apply (tomb_missed_absent D hash_key t k 0); [done|apply passed_0|done|].
  exists si. split; [apply Hav|done].
Qed.

Lemma home_found_spec t k si :
  wf t →
  scan_keys D t (group_index D t (hash_key k))
    (tg_match_byte (TG D) (ctrl_bytes D (ctrl t)) (meta_ptr D (group_index D t (hash_key k)))
       (reduced_hash (TTag D) (hash_key k))) (λ k', bool_decide (k' = k)) = Some si →
  find_result D t k (Some (group_index D t (hash_key k), si)).
Proof.
  intros Hwf Hsc. apply (tomb_scan_found D hash_key t k _ (wf_sound _ _ _ Hwf) (tomb_key_eqb k)); [|done].
  apply tomb_home_le.
Qed.

Lemma slow_insert_spec fuel t k v :
  wf t → allocated t → can_grow fuel t →
  ∃ t' old,
    (do r <- find_by_hash D fuel t (hash_key k) (λ k', bool_decide (k' = k));
     match r with
     | Some (gi, si) => Some (replace_value D t gi si v)
     | None =>
         do t <- (if growth_left t =? 0 then grow_or_rehash D hash_key fuel t else Some t);
         do ' (t, _) <- insert_no_check D fuel t (hash_key k) k v;
         Some (t, None)
     end) = Some (t', old) ∧ upserted t t' k v old.
Proof.
  intros Hwf Hal Hg.
  destruct (find_spec fuel t k Hwf (tomb_can_grow_fuel _ _ Hg)) as ([[gi si]|] & -> & Hr).
  - destruct (tomb_upserted_replace t gi si k v Hwf Hr) as (t' & old & -> & U & _). eauto.
  - rewrite (grow_insert_bind fuel t k v (λ t _, (t, None))).
    destruct (grow_insert_spec fuel t k v Hwf Hr Hg) as (t' & p & -> & U & _). eauto.
Qed.

(** The first insertion allocates one group. *)
Lemma first_alloc_spec fuel t :
  wf t → can_grow fuel t →
  let t1 := if negb (is_allocated D t) then allocate D t 1 else t in
  wf t1 ∧ allocated t1 ∧ to_map t1 = to_map t ∧ can_grow fuel t1.
Proof.
  intros Hwf [Hlog Hf]. cbv zeta. destruct (is_allocated D t) eqn:Hal; cbn [negb].
  - split_and!; [done|by apply (is_allocated_spec D hash_key)|done|done].
  - apply (not_allocated D hash_key) in Hal; [|done].
    destruct (tomb_unallocated_len D hash_key t Hwf Hal) as [Hl Hm].
    pose proof (tomb_allocate_fresh D hash_key t 1 group_count_1 Hl) as F.
    pose proof (fresh_groups _ _ _ _ F) as Hg.
    split_and!; [apply F|apply F|by rewrite Hm, (tomb_fresh_map D hash_key _ _ F)|].
    split; [|lia]. unfold log_groups. rewrite Hg. apply Nat.lt_0_succ.
Qed.

Lemma upserted_eq_map t t1 t' k v old :
  to_map t1 = to_map t → upserted t1 t' k v old → upserted t t' k v old.
Proof. intros Hm [? ? ? ?]. split; [done|done|by rewrite <- Hm|by rewrite <- Hm]. Qed.

Lemma tomb_insert_or_replace_ok fuel t k v :
  wf t → can_grow fuel t →
  ∃ t' old, insert_or_replace D hash_key fuel t k v = Some (t', old) ∧ upserted t t' k v old.
Proof.
  intros Hwf0 Hg0. unfold insert_or_replace. cbv zeta.
  destruct (first_alloc_spec fuel t Hwf0 Hg0) as (Hwf & Hal & Hm & Hg).
  set (t1 := if negb (is_allocated D t) then _ else t) in *.
  match goal with |- ∃ t' old, ?e = _ ∧ _ =>
    enough (∃ t' old, e = Some (t', old) ∧ upserted t1 t' k v old) as (t' & old & Hrun & U) end.
  { exists t', old. split; [exact Hrun|by eapply upserted_eq_map]. }
  pose proof (slow_insert_spec fuel t1 k v Hwf Hal Hg) as Hslow.
  destruct (Nat.eqb_spec (growth_left t1) 0) as [Hz|Hnz]; [done|].
  rewrite tg_match_both. destruct (scan_keys D t1 _ _ _) as [si|] eqn:Hsc.
  - apply home_found_spec in Hsc; [|done].
    destruct (tomb_upserted_replace t1 _ si k v Hwf Hsc) as (t' & old & -> & U & _). eauto.
  - destruct (lowest_set_bit _ _) as [si|] eqn:Hsi; [|exact Hslow].
    destruct (home_empty_spec t1 k si Hwf Hsc Hsi) as (Hk & Hav & Ht).
    pose proof (place_ok D hash_key t1 _ si k v Hwf Hal Hav Hk) as I. unfold spent in I.
    rewrite Ht in I. eexists _, None. split; [reflexivity|].
    eapply tomb_upserted_insert; [done|]. apply I. lia.
Qed.

Lemma insert_with_rehash_ok fuel t k v :
  wf t → can_grow fuel t →
  ∃ t' p fresh, insert_with_rehash D hash_key fuel t k v = Some (t', p, fresh) ∧
    wf t' ∧
    (if fresh : bool then to_map t !! k = None ∧ to_map t' = <[k := v]> (to_map t) ∧
       slot_entry t' p = Some (k, v)
     else to_map t' = to_map t ∧ ∃ v', to_map t !! k = Some v' ∧ slot_entry t' p = Some (k, v')).
Proof.
  intros Hwf0 Hg0. unfold insert_with_rehash. cbv zeta.
  destruct (first_alloc_spec fuel t Hwf0 Hg0) as (Hwf & Hal & Hm & Hg).
  set (t1 := if negb (is_allocated D t) then _ else t) in *. unfold find_with_hash.
  destruct (find_spec fuel t1 k Hwf (tomb_can_grow_fuel _ _ Hg)) as ([[gi si]|] & -> & Hr).
  - destruct (found_lookup t1 k gi si Hwf Hr) as (_ & v' & _ & He & Hv).
    exists t1, (gi, si), false. rewrite <- Hm. split; [done|]. split; [done|]. split; [done|].
    by exists v'.
  - rewrite (grow_insert_bind fuel t1 k v (λ t p, (t, p, true))).
    destruct (grow_insert_spec fuel t1 k v Hwf Hr Hg) as (t' & p & -> & U & He & _).
    exists t', p, true. rewrite <- Hm. split; [done|]. split; [apply U|].
    split; [done|]. split; [apply U|done].
Qed.

(** ** Entries *)

Lemma tomb_find_for_entry_ok fuel t k :
  wf t → mask t < fuel →
  ∃ r, find_for_entry D fuel t (hash_key k) k = Some r ∧
    match r with
    | EntryFound gi si => find_result D t k (Some (gi, si))
    | EntryVacant None => to_map t !! k = None ∧ growth_left t = 0
    | EntryVacant (Some (gi, si, _)) =>
        to_map t !! k = None ∧ avail D hash_key t k gi si ∧ 0 < growth_left t
    end.
Proof.
  intros Hwf Hfuel. unfold find_for_entry.
  destruct (Nat.eqb_spec (growth_left t) 0) as [Hz|Hnz].
  - destruct (find_spec fuel t k Hwf Hfuel) as ([[gi si]|] & -> & Hr);
      eexists; split; try reflexivity; try done.
  - cbv zeta. rewrite tg_match_both. destruct (scan_keys D t _ _ _) as [si|] eqn:Hsc.
    + eexists. split; [reflexivity|]. by apply home_found_spec.
    + destruct (lowest_set_bit _ _) as [si|] eqn:Hsi.
      * destruct (home_empty_spec t k si Hwf Hsc Hsi) as (Hk & Hav & _).
        eexists. split; [reflexivity|]. split_and!; [done|done|lia].
      * destruct (find_or_locate_spec D hash_key t k (λ k', bool_decide (k' = k)) Hwf (tomb_key_eqb k)
          fuel Hfuel) as (r & -> & Hr).
        eexists. split; [reflexivity|]. destruct r as [gi si|gi si m|]; simpl in Hr; [done| |done].
        destruct Hr as (_ & Hk & Hav). split_and!; [done|done|lia].
Qed.

(** ** Removal *)

(** The outcome of removing [k]. *)
Record removed t t' (k : K) (r : option (K * V)) : Prop := {
  rm_wf : wf t';
  rm_map : to_map t' = delete k (to_map t);
  rm_result : r = pair k <$> to_map t !! k;
  rm_mask : mask t' = mask t;
  rm_growth : growth_left t' = growth_left t;
}.

Lemma tomb_erase_removed t gi si k :
  wf t → find_result D t k (Some (gi, si)) →
  removed t (erase_slot D t gi si) k (kv_at t gi si).
Proof.
  intros Hwf Hf. pose proof (found_allocated t k gi si Hwf Hf) as Hal.
  destruct (found_lookup t k gi si Hwf Hf) as (Hr & v & Hkv & He & Hm).
  pose proof (wf_sound _ _ _ Hwf) as Hs. pose proof Hal as (Ha & Hx & Hg).
  destruct (bury_frame D hash_key t gi si Hs Ha Hr) as [F C].
  destruct (sound_erase D hash_key t _ gi si Hs Hr F k v He C) as (Hs' & Hm' & Hp).
  set (t1 := write_meta D t gi si TOMBSTONE) in *.
  assert (used t1 = used t) as Hu.
  { rewrite (used_frame D t _ gi si Hr F).
    destruct (tomb_slot_entry_reach D hash_key t gi si k v Hs Hr He) as [-> _].
    pose proof (ktag_live D hash_key k) as Hlive. unfold is_dead in Hlive.
    destruct (_ =? EMPTY)%Z; [done|]. by rewrite Nat.add_0_r. }
  split; [|exact Hm'|by rewrite Hkv, Hm|apply F|done].
  split.
  - exact (sound_counters D hash_key t1 (len t - 1) (growth_left t) Hs').
  - right. split_and!; [apply F|exact Hx|]. change (growth_left t + used t1 = full_load t). lia.
  - change (len t - 1 = length (entries t1)). rewrite (wf_len _ _ _ Hwf), Hp. simpl. lia.
Qed.

Lemma remove_by_hash_ok fuel t k :
  wf t → mask t < fuel →
  ∃ t' r, remove_by_hash D fuel t (hash_key k) (λ k', bool_decide (k' = k)) = Some (t', r) ∧
    removed t t' k r.
Proof.
  intros Hwf Hfuel. unfold remove_by_hash.
  destruct (find_spec fuel t k Hwf Hfuel) as ([[gi si]|] & -> & Hr).
  - eexists _, _. split; [reflexivity|]. by apply tomb_erase_removed.
  - exists t, None. simpl in Hr. split; [done|].
    split; [done|by rewrite delete_id|by rewrite Hr|done|done].
Qed.

Lemma tomb_remove_ok fuel t k :
  wf t → mask t < fuel →
  ∃ t' r, remove D hash_key fuel t k = Some (t', r) ∧
    wf t' ∧ to_map t' = delete k (to_map t) ∧ r = to_map t !! k.
Proof.
  intros Hwf Hfuel. unfold remove. destruct (is_allocated D t) eqn:Hal; cbn [negb].
  - unfold find_with_hash. destruct (find_spec fuel t k Hwf Hfuel) as ([[gi si]|] & -> & Hr).
    + destruct (tomb_erase_removed t gi si k Hwf Hr) as [Hw Hm Hk _ _].
      destruct (found_lookup t k gi si Hwf Hr) as (_ & v & Hkv & _ & Hv).
      eexists _, _. split; [reflexivity|]. split; [exact Hw|]. split; [exact Hm|].
      by rewrite Hkv, Hv.
    + exists t, None. simpl in Hr. split_and!; [done|done|by rewrite delete_id|done].
  - apply (not_allocated D hash_key) in Hal; [|done].
    destruct (tomb_unallocated_len D hash_key t Hwf Hal) as [_ Hm]. exists t, None. rewrite Hm.
    split_and!; [done|done|by rewrite delete_empty|done].
Qed.
End api.
