(* ===== verification/TombMore.v ===== *)
(** * The tombstone raw tables: reserving, clearing, cloning, dropping

    The remaining operations, each with the map it leaves. *)

From Stdlib Require Import ZArith Lia.
From S2P Require Import Prelude Probe SlotMap Bitmask HashTag Group Layout TombTable TombInv TombWrite TombProbe TombOps TombApi.

Section more.
Context (D : TombDesign) `{!DesignOk D} {K V : Type} `{Countable K} (hash_key : K → Z).
Implicit Types t src dst : RawTable K V.

Abbreviation tag_at := (tag_at D).
Abbreviation kv_at := (kv_at D).
Abbreviation in_range := (in_range D).
Abbreviation alloc_ok := (alloc_ok D).
Abbreviation slot_entry := (slot_entry D).
Abbreviation entries := (entries D).
Abbreviation to_map := (to_map D).
Abbreviation wf := (wf D hash_key).
Abbreviation allocated := (allocated D).
Abbreviation full_load := (full_load D).
Abbreviation used := (used D).
Abbreviation gs := (T_GROUP_SIZE D).
Abbreviation load_of_groups := (load_of_groups D).
Abbreviation fresh := (fresh D hash_key).

Lemma tomb_new_wf : wf (@new K V) ∧ to_map (@new K V) = ∅.
Proof.
  assert (unallocated (@new K V)) as Hu by done.
  assert (∀ p, slot_entry (@new K V) p = None) as Hse.
  { intros [g s]. unfold TombInv.slot_entry. simpl. by rewrite (tomb_tag_at_unallocated D) by done. }
  assert (entries (@new K V) = []) as He by by apply unallocated_entries.
  split.
  - split; [|by left|by rewrite He]. split; try done.
    + apply Nat.le_0_l.
    + intros i. cbn [new ctrl ctrl_bytes]. unfold byte_at.
      destruct (replicate _ _ !! i) eqn:E; [|done]. by apply lookup_replicate in E as [-> _].
    + intros g s _ Hd. by rewrite (tomb_tag_at_unallocated D) in Hd.
    + intros p q k v v' _ _ Hp. by rewrite Hse in Hp.
  - unfold TombInv.to_map, slot_map. change (map_of (entries (@new K V)) = ∅). by rewrite He.
Qed.

(** ** Clearing and dropping *)

Lemma tomb_clear_ok t :
  wf t → allocated t → fresh (clear D t).1 (mask t + 1) ∧ (clear D t).2 = entries t.
Proof.
  intros Hwf Hal. pose proof Hal as ((b & Hc & Hb & Hs) & Hx & _).
  unfold clear. apply (is_allocated_spec D hash_key) in Hal; [|done]. rewrite Hal. cbn [negb].
  cbv zeta. split; [|apply (tomb_occupied_kvs_entries D hash_key); apply Hwf]. cbn [fst].
  match goal with |- TombOps.fresh _ _ ?t' _ => apply (tomb_fresh_intro D hash_key t') end; try done.
  - exact (tomb_wf_group_count D hash_key t Hwf).
  - apply Hwf.
  - eexists. rewrite Hc. split; [reflexivity|]. cbn [bytes slots]. split; [|done].
    unfold num_groups. rewrite design_meta, length_zero_bytes; [done|]. rewrite Hb. simpl. lia.
  - intros i. cbn [with_growth_left with_len with_ctrl ctrl]. rewrite Hc.
    cbn [write_bytes_with ctrl_bytes bytes]. apply zeros_byte. rewrite Hb, design_meta.
    unfold num_groups. simpl. lia.
Qed.

Lemma tomb_drop_ok t :
  wf t → (drop_table D t).1 = entries t ∧
  (allocated t → ∃ b, ctrl t = Alloc b ∧ (drop_table D t).2 = Some b).
Proof.
  intros Hwf. unfold drop_table, deallocate. destruct (is_allocated D t) eqn:Hal; cbn [negb].
  - split; [apply (tomb_occupied_kvs_entries D hash_key), Hwf|].
    intros ((b & Hc & _) & _). exists b. by rewrite Hc.
  - apply (not_allocated D hash_key) in Hal; [|done].
    split; [symmetry; by apply unallocated_entries|].
    intros ((b & Hc & _) & _). destruct Hal as [Hc' _]. congruence.
Qed.

(** ** Capacity arithmetic *)

Definition capacity_ok (c : Z) : Prop :=
  (0 <= c ∧ c * 8 + 7 + Z.of_nat gs < 2 ^ 62)%Z.

Lemma tomb_groups_for_capacity_spec (c : Z) :
  capacity_ok c →
  let n := Z.to_nat (groups_for_capacity D c) in
  n = 2 ^ Nat.log2 n ∧ (c <= Z.of_nat (load_of_groups n))%Z ∧
  (n ≠ 1 → (Z.of_nat (load_of_groups (n / 2)) < c)%Z).
Proof using DesignOk0.
  intros [Hc Hb]. pose proof design_gs. apply (groups_arith 7 8 gs); lia.
Qed.

(** ** Reserving and shrinking *)

Record preserved t t' : Prop := {
  pr_wf : wf t';
  pr_map : to_map t' = to_map t;
  pr_len : len t' = len t;
}.

Lemma tomb_preserved_rehash t t' n : wf t → rehashed D hash_key t t' n → preserved t t'.
Proof.
  intros Hwf R. split; [apply R|by eapply tomb_rehashed_map|by eapply rehashed_len].
Qed.

Lemma rehashed_full t t' n : rehashed D hash_key t t' n → max_load t' = load_of_groups n.
Proof.
  intros R. destruct (rh_alloc _ _ _ _ _ R) as (_ & -> & _).
  by rewrite tomb_full_load_groups, (rh_groups _ _ _ _ _ R).
Qed.

(** The largest number of pairs a table without tombstones holds. *)
Lemma allocated_len_load t : wf t → allocated t → len t <= max_load t.
Proof. intros Hwf (_ & -> & _). by apply (len_le_full D hash_key). Qed.

Lemma tomb_ensure_capacity_ok fuel t :
  wf t → can_grow fuel t →
  ∃ t', ensure_capacity D hash_key fuel t = Some t' ∧ preserved t t' ∧ 0 < growth_left t'.
Proof.
  intros Hwf [Hlog Hfuel]. unfold ensure_capacity.
  destruct (Nat.eqb_spec (growth_left t) 0).
  - destruct (tomb_grow_spec D hash_key fuel t Hwf Hlog Hfuel) as (t' & Hrun & R & Hlt).
    exists t'. split; [exact Hrun|]. split; [by eapply tomb_preserved_rehash|done].
  - exists t. split; [done|]. split; [done|lia].
Qed.

(** [reserve] keeps the map and leaves groups enough for the additional
    entries; tombstones may still force a rehash before they are inserted. *)
Lemma tomb_reserve_ok fuel t (additional : Z) :
  let needed := (Z.of_nat (len t) + additional)%Z in
  wf t → (0 <= additional)%Z → capacity_ok needed →
  group_count (Z.to_nat (groups_for_capacity D needed)) →
  Z.to_nat (groups_for_capacity D needed) <= fuel →
  ∃ t', reserve D hash_key fuel t additional = Some (inl t') ∧ preserved t t' ∧
    (0 < additional → needed <= Z.of_nat (full_load t'))%Z.
Proof.
  intros needed Hwf Hadd Hcap Hgc Hfuel.
  destruct (tomb_groups_for_capacity_spec needed Hcap) as (_ & Hload & _).
  set (n := Z.to_nat (groups_for_capacity D needed)) in *.
  unfold reserve. fold needed n. destruct Hcap as [_ Hcap].
  destruct (Z.leb_spec (2 ^ 64) needed) as [Hbig|_]; [lia|].
  destruct (is_allocated D t) eqn:Hal; cbn [negb].
  - change (max_load_for_capacity (num_groups t * gs)) with (full_load t).
    destruct (Z.ltb_spec (Z.of_nat (full_load t)) needed) as [Hlt|Hge]; [|by exists t].
    unfold num_groups. destruct (Nat.ltb_spec (mask t + 1) n) as [Hgrow|Hno].
    + destruct (tomb_rehash_spec D hash_key fuel t n Hwf Hgc Hfuel) as (t' & -> & R); [lia|].
      exists t'. split; [done|]. split; [by eapply tomb_preserved_rehash|]. intros _.
      by rewrite tomb_full_load_groups, (rh_groups _ _ _ _ _ R).
    + exists t. split; [done|]. split; [done|]. intros _.
      pose proof (load_of_mono 7 8 gs _ _ Hno). rewrite tomb_full_load_groups in *.
      unfold TombOps.load_of_groups in *. lia.
  - apply (not_allocated D hash_key) in Hal; [|done].
    destruct (tomb_unallocated_len D hash_key t Hwf Hal) as [Hl Hm].
    destruct (Z.ltb_spec 0 additional) as [Hp|Hp]; [|exists t; split; [done|]; split; [done|lia]].
    pose proof (tomb_allocate_fresh D hash_key t n Hgc Hl) as F.
    eexists. split; [reflexivity|]. split.
    + split; [apply F|by rewrite Hm, (tomb_fresh_map D hash_key _ _ F)|done].
    + intros _. by rewrite tomb_full_load_groups, (fresh_groups _ _ _ _ F).
Qed.

Lemma tomb_shrink_to_fit_ok fuel t :
  wf t → capacity_ok (Z.of_nat (len t)) → mask t < fuel →
  ∃ t', shrink_to_fit D hash_key fuel t = Some t' ∧ preserved t t' ∧ mask t' <= mask t ∧
    (len t = 0 → ctrl t' = EMPTY_SENTINEL).
Proof.
  intros Hwf Hcap Hfuel. unfold shrink_to_fit.
  destruct (Nat.eqb_spec (len t) 0) as [Hz|Hz].
  - destruct tomb_new_wf as (Hw & Hm).
    exists new. split; [done|]. split; [|split; [cbn; lia|done]]. split; [done| |by rewrite Hz].
    rewrite Hm. symmetry. apply map_size_empty_inv. by rewrite (tomb_size_to_map D hash_key).
  - destruct (tomb_groups_for_capacity_spec _ Hcap) as (Hp & Hload & _).
    set (n := Z.to_nat _) in *. unfold num_groups.
    destruct (Nat.ltb_spec n (mask t + 1)) as [Hlt|Hge]; [|by exists t].
    assert (group_count n) as Hn.
    { split; [done|]. pose proof (tomb_wf_group_count D hash_key t Hwf) as [_ Hl].
      etransitivity; [|exact Hl]. apply Nat.log2_le_mono. lia. }
    destruct (tomb_rehash_spec D hash_key fuel t n Hwf Hn) as (t' & -> & R); [lia|lia|].
    exists t'. split; [done|]. split; [by eapply tomb_preserved_rehash|]. split; [|done].
    pose proof (rh_groups _ _ _ _ _ R). lia.
Qed.

(** ** Cloning *)

Definition clone_slots (src dst : RawTable K V) (ps : list (nat * nat)) : RawTable K V :=
  fold_left (λ nt '(gi, si), clone_slot D src nt gi si) ps dst.

(** What copying one slot does. *)
Lemma clone_slot_spec src dst gi si :
  alloc_ok dst → in_range dst gi si →
  let dst' := clone_slot D src dst gi si in
  alloc_ok dst' ∧ mask dst' = mask dst ∧ shift dst' = shift dst ∧ max_load dst' = max_load dst ∧
  ctrl_bytes D (ctrl dst') = ctrl_bytes D (ctrl dst) ∧
  ∀ g s, in_range dst g s → kv_at dst' g s =
    if decide ((g, s) = (gi, si))
    then match kv_at src g s with Some kv => Some kv | None => kv_at dst g s end
    else kv_at dst g s.
Proof.
  intros Ha Hr. unfold clone_slot. destruct (kv_at src gi si) as [kv|] eqn:Hsrc; split_and!; try done.
  - by apply tomb_write_kv_alloc.
  - apply write_kv_bytes.
  - intros g s Hgs. rewrite tomb_write_kv_kv by done.
    destruct (decide ((g, s) = (gi, si))) as [[= -> ->]|]; [by rewrite Hsrc|done].
  - intros g s Hgs. destruct (decide ((g, s) = (gi, si))) as [[= -> ->]|]; [by rewrite Hsrc|done].
Qed.

Lemma tomb_clone_slots_spec src dst ps :
  alloc_ok dst → Forall (λ p, in_range dst p.1 p.2) ps →
  let t' := clone_slots src dst ps in
  alloc_ok t' ∧ mask t' = mask dst ∧ shift t' = shift dst ∧ max_load t' = max_load dst ∧
  ctrl_bytes D (ctrl t') = ctrl_bytes D (ctrl dst) ∧
  ∀ g s, in_range dst g s →
    kv_at t' g s = if decide ((g, s) ∈ ps)
                   then match kv_at src g s with Some kv => Some kv | None => kv_at dst g s end
                   else kv_at dst g s.
Proof.
  revert dst. induction ps as [|[gi si] ps IH]; intros dst Ha Hall; simpl.
  - split_and!; try done.
  - apply Forall_cons in Hall as [Hr Hall]. simpl in Hr.
    destruct (clone_slot_spec src dst gi si Ha Hr) as (Ha' & Hm & Hs & Hx & Hb & Hkv).
    set (dst' := clone_slot D src dst gi si) in *.
    destruct (IH dst') as (HA & HM & HS & HX & HB & HK).
    + done.
    + eapply Forall_impl; [exact Hall|]. intros p [? ?]. split; [by rewrite Hm|done].
    + unfold clone_slots in *. split_and!; try done; try congruence.
      intros g s Hgs. rewrite HK by (split; [rewrite Hm; apply Hgs|apply Hgs]).
      rewrite !Hkv by done.
      destruct (decide ((g, s) ∈ ps)), (decide ((g, s) = (gi, si))),
        (decide ((g, s) ∈ (gi, si) :: ps)) as [Hin|Hnin]; try done;
        try (by destruct (kv_at src g s)); exfalso;
        rewrite elem_of_cons in *; naive_solver.
Qed.

Lemma tomb_occupied_slots_spec t g s :
  wf t → (g, s) ∈ occupied_slots D t ↔ in_range t g s ∧ is_dead (tag_at t g s) = false.
Proof.
  intros Hwf. unfold occupied_slots, num_groups, group_occupied.
  assert (∀ g, bits (tg_mask (TG D)) (tg_match_occupied (TG D) (ctrl_bytes D (ctrl t)) (meta_ptr D g)) =
    List.filter (λ s, negb (is_dead (tag_at t g s))) (seq 0 gs)) as Hbits.
  { intros g'. apply bits_repr; [apply tg_match_occupied_repr, Hwf|apply tg_width]. }
  rewrite list_elem_of_bind. split.
  - intros (gi & (si & Heq & Hs)%list_elem_of_fmap & Hg%elem_of_seq). simplify_eq.
    rewrite Hbits in Hs.
    apply list_elem_of_In, List.filter_In in Hs as [Hs Ht]. apply in_seq in Hs.
    apply negb_true_iff in Ht. split; [|done]. split; lia.
  - intros [[Hg Hs] Ht]. exists g. split; [|apply elem_of_seq; lia].
    apply list_elem_of_fmap. exists s. split; [done|]. rewrite Hbits.
    apply list_elem_of_In, List.filter_In. split; [apply in_seq; lia|]. by rewrite Ht.
Qed.

(** A table with the metadata of [t], and its pairs where [t] has any, is as
    good as [t]. *)
Lemma wf_copy t t' :
  wf t → allocated t → mask t' = mask t → shift t' = shift t → max_load t' = max_load t →
  alloc_ok t' → ctrl_bytes D (ctrl t') = ctrl_bytes D (ctrl t) →
  (∀ g s, in_range t g s → is_dead (tag_at t g s) = false → kv_at t' g s = kv_at t g s) →
  len t' = len t → growth_left t' = growth_left t → wf t' ∧ entries t' = entries t.
Proof.
  intros Hwf (_ & Hx0 & Hg0) Hm Hs Hx Ha Hb Hkv Hl Hg.
  pose proof (wf_sound _ _ _ Hwf) as Hsd.
  assert (∀ g s, tag_at t' g s = tag_at t g s) as Htag by (intros; unfold TombInv.tag_at; by rewrite Hb).
  assert (all_slots D t' = all_slots D t) as Has by by apply tomb_all_slots_frame.
  assert (∀ q, q ∈ all_slots D t → slot_entry t' q = slot_entry t q) as Hse.
  { intros [g s] Hq%tomb_elem_of_all_slots. unfold TombInv.slot_entry. simpl. rewrite Htag.
    destruct (is_dead (tag_at t g s)) eqn:E; [done|]. by apply Hkv. }
  assert (entries t' = entries t) as He.
  { unfold TombInv.entries. rewrite Has. by apply omap_ext_elem. }
  assert (used t' = used t) as Hu.
  { unfold TombInv.used. rewrite Has. apply countb_ext. intros p _. by rewrite Htag. }
  assert (full_load t' = full_load t) as Hfl by (unfold TombInv.full_load; by rewrite Hm).
  split; [|done]. split; [|right; split_and!; [done|congruence|lia]|rewrite He, Hl; apply (wf_len _ _ _ Hwf)].
  split.
  - unfold log_groups. rewrite Hm. apply Hsd.
  - unfold log_groups. rewrite Hm. apply Hsd.
  - rewrite Hs, Hm. apply Hsd.
  - rewrite Hb. apply Hsd.
  - intros g s Hr Ht. unfold TombInv.in_range in Hr. rewrite Hm in Hr. rewrite Htag in Ht.
    destruct (sd_slot _ _ _ Hsd g s Hr Ht) as (k & v & Hk & Htg & i & Hi & Hc).
    exists k, v. rewrite Hkv, Htag by done. split_and!; [done|done|].
    assert (∀ j, pos D hash_key t' k j = pos D hash_key t k j) as Hpos.
    { intros j. unfold pos, home. by rewrite (tomb_group_index_frame D t t'), Hm. }
    exists i. split; [by rewrite Hpos|]. intros j Hj (s' & Hs' & Ht'). rewrite Hpos, Htag in Ht'.
    apply (Hc j Hj). by exists s'.
  - intros p q k v v'. rewrite Has. intros Hp Hq. rewrite !Hse by done. by apply (sd_unique _ _ _ Hsd).
Qed.

Lemma tomb_clone_ok t :
  wf t → allocated t →
  wf (clone_table D t) ∧ entries (clone_table D t) = entries t.
Proof.
  intros Hwf Hal. pose proof Hal as (Ha & Hx & _). pose proof Ha as (b & Hc & Hb & Hsl).
  unfold clone_table. rewrite (proj2 (is_allocated_spec D hash_key t Hwf) Hal). cbn [negb]. cbv zeta.
  set (n := num_groups t). set (new_table := allocate D new n).
  set (copied := with_ctrl new_table _).
  assert (n = mask t + 1) as Hn by done.
  assert (mask copied = mask t) as Hmask by (unfold copied, new_table; cbn; lia).
  assert (n * META_GROUP_BYTES D = S (mask t) * gs) as Hsize
    by (rewrite design_meta, Hn; f_equal; lia).
  assert (ctrl_bytes D (ctrl copied) = ctrl_bytes D (ctrl t)) as Hbytes.
  { unfold copied, new_table. cbn [with_ctrl ctrl allocate write_bytes_with ctrl_bytes bytes].
    rewrite Hsize, Hc. cbn [ctrl_bytes]. rewrite take_ge by lia.
    rewrite drop_ge; [apply app_nil_r|]. by rewrite length_zero_bytes; rewrite length_replicate. }
  assert (alloc_ok copied) as Hcopied.
  { eexists. split; [reflexivity|]. rewrite Hmask. cbn [bytes slots]. split.
    - change (take _ _ ++ drop _ _) with (ctrl_bytes D (ctrl copied)). rewrite Hbytes, Hc. done.
    - rewrite length_replicate, Hn. f_equal. lia. }
  destruct (tomb_clone_slots_spec t copied (occupied_slots D t)) as (Ha' & Hm' & Hs' & Hx' & Hb' & Hkv').
  { done. }
  { apply Forall_forall. intros [g s] [[? ?] _]%tomb_occupied_slots_spec; [|done].
    split; [by rewrite Hmask|done]. }
  fold (clone_slots t copied (occupied_slots D t)). set (t' := clone_slots _ _ _) in *.
  rewrite Hmask in Hm'. rewrite Hbytes in Hb'.
  apply wf_copy; try done.
  - rewrite (sd_shift _ _ _ (wf_sound _ _ _ Hwf)). exact Hs'.
  - rewrite Hx. exact Hx'.
  - intros g s Hr Ht. etransitivity; [apply Hkv'; split; [rewrite Hmask; apply Hr|apply Hr]|].
    rewrite decide_True by (by apply tomb_occupied_slots_spec).
    destruct (sd_slot _ _ _ (wf_sound _ _ _ Hwf) g s Hr Ht) as (k & v & -> & _). done.
Qed.
End more.

(** ** The tombstone raw tables: iterators *)

(** [SlotIter], [IntoIter] and [drain_impl]: every occupied slot once. *)

Section iter.
Context (D : TombDesign) `{!DesignOk D} {K V : Type} `{Countable K} (hash_key : K → Z).
Implicit Types t : RawTable K V.

Abbreviation tag_at := (tag_at D).
Abbreviation kv_at := (kv_at D).
Abbreviation in_range := (in_range D).
Abbreviation alloc_ok := (alloc_ok D).
Abbreviation wf := (wf D hash_key).
Abbreviation entries := (entries D).
Abbreviation W := (tg_mask (TG D)).
Abbreviation remaining t := (remaining W (group_occupied D t) (mask t)).
Abbreviation live t p := (negb (is_dead (tag_at t p.1 p.2))).

(** Metadata bytes as they are after [allocate]. *)
Definition bytes_ok t : Prop := ∀ i, (0 <= byte_at (ctrl_bytes D (ctrl t)) i)%Z.

Lemma wf_bytes_ok t : wf t → bytes_ok t.
Proof. intros Hwf i. apply (wf_sound _ _ _ Hwf). Qed.

Lemma group_occupied_ok t gi : bytes_ok t → mask_ok W (group_occupied D t gi).
Proof. intros Hb. eapply (tomb_match_range D), tg_match_occupied_repr, Hb. Qed.

Lemma group_occupied_bits t gi :
  bytes_ok t →
  bits W (group_occupied D t gi) = List.filter (λ s, live t (gi, s)) (seq 0 (T_GROUP_SIZE D)).
Proof. intros Hb. apply bits_repr; [apply tg_match_occupied_repr, Hb|apply tg_width]. Qed.

Lemma tomb_occupied_slots_filter t :
  bytes_ok t → occupied_slots D t = List.filter (λ p, live t p) (all_slots D t).
Proof.
  intros Hb.
  etransitivity; [|apply (groups_from_filter W (group_occupied D t) (λ g s, live t (g, s)))].
  - unfold occupied_slots, groups_from, num_groups. by rewrite Nat.sub_0_r.
  - intros g. by apply group_occupied_bits.
Qed.

(** [n] calls of [SlotIter::next]. *)
Definition take_slots (n : nat) t (it : SlotIter) : list (nat * nat) * SlotIter :=
  take_walk W (group_occupied D t) (mask t) n it.

Lemma tomb_iter_slots_mask_ok t : wf t → mask_ok W (it_mask (iter_slots D t)).
Proof.
  intros Hwf. unfold iter_slots. simpl.
  destruct (negb _); [apply mask_ok_0|by apply (group_occupied_ok t 0), wf_bytes_ok].
Qed.

Lemma unallocated_slots t : wf t → unallocated t → occupied_slots D t = [].
Proof.
  intros Hwf Hu. rewrite tomb_occupied_slots_filter by by apply wf_bytes_ok.
  destruct (List.filter _ _) as [|[g s] l] eqn:E; [done|]. exfalso.
  assert (In (g, s) ((g, s) :: l)) as Hin by by left. rewrite <- E in Hin.
  apply List.filter_In in Hin as [_ Hin]. simpl in Hin. by rewrite (tomb_tag_at_unallocated D) in Hin.
Qed.

Lemma tomb_remaining_start t : wf t → remaining t (iter_slots D t) = occupied_slots D t.
Proof.
  intros Hwf. unfold SlotWalk.remaining, iter_slots. cbn [it_group it_mask].
  assert (occupied_slots D t = groups_from W (group_occupied D t) (mask t) 0) as Heq
    by (unfold occupied_slots, groups_from, num_groups; by rewrite Nat.sub_0_r).
  rewrite Heq, (groups_from_step _ _ _ 0) by lia. f_equal. f_equal.
  destruct (is_allocated D t) eqn:Hal; [done|]. cbn [negb].
  apply (not_allocated D hash_key) in Hal; [|done].
  pose proof (unallocated_slots t Hwf Hal) as Hn.
  rewrite Heq, (groups_from_step _ _ _ 0) in Hn by lia. apply app_nil in Hn as [Hn _].
  rewrite bits_0. symmetry. by apply fmap_nil_inv in Hn.
Qed.

(** ** The owning iterator *)

(** [n] calls of [IntoIter::next]: the pairs yielded and the iterator left. *)
Fixpoint take_pairs (n : nat) (it : @IntoIter K V) : list (option (K * V)) * IntoIter :=
  match n with
  | 0 => ([], it)
  | S n' =>
      match into_iter_next D (mask (into_table it) + 1) it with
      | (Some kv, it') => let '(kvs, it'') := take_pairs n' it' in (kv :: kvs, it'')
      | (None, it') => ([], it')
      end
  end.

(** The slots of an owning iterator that still hold a pair. *)
Definition into_slots (it : @IntoIter K V) : list (nat * nat) :=
  remaining (into_table it) (into_pos it).

Definition into_kvs (it : @IntoIter K V) : list (K * V) :=
  omap (λ '(gi, si), kv_at (into_table it) gi si) (into_slots it).

Record into_ok (it : @IntoIter K V) : Prop := {
  io_alloc : into_slots it ≠ [] → alloc_ok (into_table it);
  io_load : is_allocated D (into_table it) = false → into_slots it = [];
  io_bytes : bytes_ok (into_table it);
  io_mask : mask_ok W (it_mask (into_pos it));
  io_occupied : occupied_slots D (into_table it) = into_slots it;
  io_kv p : p ∈ into_slots it → ∃ kv, kv_at (into_table it) p.1 p.2 = Some kv;
  io_len : len (into_table it) = length (into_slots it);
}.

(** Emptying the slot that was yielded. *)
Section take_slot.
Context t gi si (Hb : bytes_ok t) (Ha : alloc_ok t) (Hr : in_range t gi si).
Definition taken : RawTable K V := with_len (write_meta D t gi si EMPTY) (len t - 1).

Lemma taken_bytes : bytes_ok taken.
Proof using Hb Ha Hr DesignOk0.
  intros i. cbn [taken with_len ctrl]. rewrite write_meta_byte by done. by case_decide.
Qed.

Lemma taken_tag g s :
  in_range t g s → tag_at taken g s = if decide ((g, s) = (gi, si)) then EMPTY else tag_at t g s.
Proof using Ha Hr DesignOk0. apply (tomb_write_meta_tag D t gi si Ha Hr EMPTY). Qed.

Lemma taken_kv g s : kv_at taken g s = kv_at t g s.
Proof using Type. apply (tomb_write_meta_kv D t gi si EMPTY). Qed.

Lemma taken_alloc : alloc_ok taken.
Proof using Ha. exact (tomb_write_meta_alloc D t gi si Ha EMPTY). Qed.

Lemma taken_occupied rest :
  occupied_slots D t = (gi, si) :: rest → occupied_slots D taken = rest.
Proof using Hb Ha Hr DesignOk0.
  rewrite !tomb_occupied_slots_filter by (done || by apply taken_bytes). intros Hocc.
  eapply (filter_remove_head _ _ (all_slots D t) (gi, si)); [apply tomb_all_slots_NoDup|exact Hocc|].
  intros [g s] Hin%tomb_elem_of_all_slots. cbn [fst snd]. rewrite taken_tag by done.
  destruct (decide ((g, s) = (gi, si)));
    [by rewrite bool_decide_true, andb_false_r|by rewrite bool_decide_false, andb_true_r].
Qed.

Lemma taken_walk it : it_group it = gi → remaining taken it = remaining t it.
Proof using Hb Ha Hr DesignOk0.
  intros Hgi. unfold SlotWalk.remaining. f_equal. apply groups_from_ext. intros g Hg.
  rewrite !group_occupied_bits by (done || by apply taken_bytes).
  apply List.filter_ext_in. intros s Hs%in_seq. cbn [fst snd]. rewrite taken_tag by (split; cbn in *; lia).
  rewrite decide_False; [done|]. intros [= -> ->]. lia.
Qed.
End take_slot.

Lemma tomb_into_iter_next_spec (it : @IntoIter K V) :
  into_ok it →
  match into_iter_next D (mask (into_table it) + 1) it with
  | (Some kv, it') => ∃ kv', kv = Some kv' ∧ into_kvs it = kv' :: into_kvs it' ∧ into_ok it'
  | (None, it') => into_kvs it = [] ∧ drop_table D (into_table it') = drop_table D (into_table it)
  end.
Proof.
  intros Hok. unfold into_iter_next. set (t := into_table it).
  pose proof (io_bytes _ Hok) as Hb.
  pose proof (slot_walk_spec W (group_occupied D t) (mask t) (λ g, group_occupied_ok t g Hb)
    (mask t + 1) (into_pos it) (io_mask _ Hok) ltac:(lia)) as Hnext.
  unfold slot_iter_next. destruct (slot_walk (mask t + 1) _ _ _ _) as [[[gi si]|] it'].
  2:{ split; [|done]. unfold into_kvs, into_slots. fold t. by destruct Hnext as [-> _]. }
  destruct Hnext as (Hr & Hgi & Hm'). simpl in Hgi.
  assert (into_slots it = (gi, si) :: remaining t it') as Hslots by exact Hr.
  destruct (io_kv _ Hok (gi, si)) as [kv Hkv]; [rewrite Hslots; by left|]. simpl in Hkv. fold t in Hkv.
  assert (alloc_ok t) as Ha by (apply (io_alloc _ Hok); by rewrite Hslots).
  pose proof (io_occupied _ Hok) as Hocc. fold t in Hocc. rewrite Hslots in Hocc.
  assert (in_range t gi si) as Hrange.
  { assert (In (gi, si) (occupied_slots D t)) as Hin by (rewrite Hocc; by left).
    rewrite tomb_occupied_slots_filter in Hin by done.
    apply List.filter_In in Hin as [Hin _]. by apply list_elem_of_In, tomb_elem_of_all_slots in Hin. }
  set (it1 := {| into_table := taken t gi si; into_pos := it' |}).
  assert (into_slots it1 = remaining t it') as Hslots1 by by apply taken_walk.
  exists kv. split; [done|]. change {| into_table := _; into_pos := it' |} with it1. split.
  - unfold into_kvs. rewrite Hslots, Hslots1. fold t. csimpl. rewrite Hkv. f_equal.
    apply omap_ext_elem. intros [g s] _. symmetry. apply (taken_kv t).
  - pose proof (io_len _ Hok) as Hlen. fold t in Hlen. rewrite Hslots in Hlen. simpl in Hlen.
    split; rewrite ?Hslots1.
    + intros _. by apply taken_alloc.
    + intros Hz. assert (into_slots it = []) as Hnil.
      { apply (io_load _ Hok). revert Hz. cbn [it1 into_table]. unfold is_allocated, taken.
        simpl. fold t. destruct Ha as (b & -> & _). done. }
      by rewrite Hslots in Hnil.
    + by apply taken_bytes.
    + exact Hm'.
    + by apply taken_occupied.
    + intros p Hp. destruct (io_kv _ Hok p) as [kv' Hp']; [rewrite Hslots; by right|].
      exists kv'. rewrite <- Hp'. apply (taken_kv t).
    + cbn [into_table it1 taken len with_len]. lia.
Qed.

Lemma occupied_slots_len t : wf t → length (occupied_slots D t) = len t.
Proof.
  intros Hwf. rewrite (wf_len _ _ _ Hwf), <- (tomb_occupied_kvs_entries D hash_key t) by apply Hwf.
  unfold occupied_kvs. symmetry. apply omap_all_length.
  intros [g s] [Hgs Ht]%(tomb_occupied_slots_spec D hash_key); [|done].
  destruct (sd_slot _ _ _ (wf_sound _ _ _ Hwf) g s Hgs Ht) as (k & v & -> & _). eauto.
Qed.

Lemma tomb_into_iter_ok t : wf t → into_ok (into_iter_impl D t) ∧ into_kvs (into_iter_impl D t) = entries t.
Proof.
  intros Hwf. assert (into_slots (into_iter_impl D t) = occupied_slots D t) as Hs
    by exact (tomb_remaining_start t Hwf).
  split.
  - split; rewrite ?Hs.
    + intros Hne. destruct (wf_ctrl _ _ _ Hwf) as [Hu|[Ha _]]; [|done].
      exfalso. by apply Hne, unallocated_slots.
    + intros Hu. apply (not_allocated D hash_key) in Hu; [|done]. by apply unallocated_slots.
    + by apply wf_bytes_ok.
    + by apply tomb_iter_slots_mask_ok.
    + done.
    + intros [g s] [Hgs Ht]%(tomb_occupied_slots_spec D hash_key); [|done].
      destruct (sd_slot _ _ _ (wf_sound _ _ _ Hwf) g s Hgs Ht) as (k & v & ? & _). eauto.
    + symmetry. by apply occupied_slots_len.
  - unfold into_kvs. rewrite Hs. by apply (tomb_occupied_kvs_entries D hash_key), wf_sound.
Qed.

Lemma drop_into (it : @IntoIter K V) : into_ok it → (drop_table D (into_table it)).1 = into_kvs it.
Proof.
  intros Hok. unfold drop_table, into_kvs. destruct (is_allocated D (into_table it)) eqn:Hal; cbn [negb].
  - simpl. unfold occupied_kvs. by rewrite (io_occupied _ Hok).
  - by rewrite (io_load _ Hok Hal).
Qed.

Lemma tomb_take_pairs_spec n (it : @IntoIter K V) :
  into_ok it →
  (take_pairs n it).1 = Some <$> take n (into_kvs it) ∧
  (drop_table D (into_table (take_pairs n it).2)).1 = drop n (into_kvs it).
Proof.
  revert it. induction n as [|n IH]; intros it Hok; [split; [done|by apply drop_into]|].
  cbn [take_pairs]. pose proof (tomb_into_iter_next_spec it Hok) as Hnext.
  destruct (into_iter_next D _ it) as [[kv|] it'].
  - destruct Hnext as (kv' & -> & Hk & Hok'). rewrite Hk. destruct (IH it' Hok') as [H1 H2].
    destruct (take_pairs n it') as [kvs it'']. simpl in *. split; [by f_equal|done].
  - destruct Hnext as [Hnil Hd]. simpl. rewrite Hd, (drop_into it Hok), Hnil. done.
Qed.
End iter.
