(* ===== verification/TombSpec.v ===== *)
(** * The tombstone raw tables: correctness

    Both tombstone tables refine a finite map.  [reachable] pairs every table
    that the operations can build with the map it stands for.  Unlike the
    overflow-bit tables they may be used without restriction: an EMPTY slot
    always remains, so that every probe loop returns. *)

From Stdlib Require Import ZArith Lia.
From S2P Require Import Prelude Probe SlotMap Bitmask HashTag Group Layout.
From S2P Require Import TombTable TombInv TombWrite TombProbe TombOps TombApi TombMore.
From S2P Require Import Ipo Ipo64.

Section spec.
Context (D : TombDesign) `{!DesignOk D} {K V : Type} `{Countable K} (hash_key : K → Z).
Context (fuel : nat).
Implicit Types t : RawTable K V.

Abbreviation wf := (wf D hash_key).
Abbreviation to_map := (to_map D).
Abbreviation entries := (entries D).

Inductive reachable : RawTable K V → gmap K V → Prop :=
  | reach_new : reachable new ∅
  | reach_with_capacity c :
      capacity_ok D c → group_count (Z.to_nat (groups_for_capacity D c)) →
      reachable (with_capacity D c) ∅
  | reach_insert t m k v t' old :
      reachable t m → can_grow fuel t →
      insert_or_replace D hash_key fuel t k v = Some (t', old) →
      reachable t' (<[k := v]> m)
  | reach_insert_new t m k v t' p :
      reachable t m → can_grow fuel t →
      insert_with_rehash D hash_key fuel t k v = Some (t', p, true) →
      reachable t' (<[k := v]> m)
  | reach_remove t m k t' r :
      reachable t m → mask t < fuel →
      remove_by_hash D fuel t (hash_key k) (λ k', bool_decide (k' = k)) = Some (t', r) →
      reachable t' (delete k m)
  | reach_remove_key t m k t' r :
      reachable t m → mask t < fuel →
      remove D hash_key fuel t k = Some (t', r) → reachable t' (delete k m)
  | reach_clear t m : reachable t m → reachable (clear D t).1 ∅
  | reach_rehash t m n t' :
      reachable t m → group_count n → n <= fuel → len t <= load_of_groups D n →
      rehash_with D hash_key fuel t n = Some t' → reachable t' m
  | reach_ensure t m t' :
      reachable t m → can_grow fuel t →
      ensure_capacity D hash_key fuel t = Some t' → reachable t' m
  | reach_reserve t m additional t' :
      reachable t m → (0 <= additional)%Z →
      capacity_ok D (Z.of_nat (len t) + additional) →
      group_count (Z.to_nat (groups_for_capacity D (Z.of_nat (len t) + additional))) →
      Z.to_nat (groups_for_capacity D (Z.of_nat (len t) + additional)) <= fuel →
      reserve D hash_key fuel t additional = Some (inl t') → reachable t' m
  | reach_shrink t m t' :
      reachable t m → capacity_ok D (Z.of_nat (len t)) → mask t < fuel →
      shrink_to_fit D hash_key fuel t = Some t' → reachable t' m
  | reach_clone t m : reachable t m → reachable (clone_table D t) m
  | reach_entry t m k v gi si mask' :
      reachable t m → mask t < fuel →
      find_for_entry D fuel t (hash_key k) k = Some (EntryVacant (Some (gi, si, mask'))) →
      reachable (insert_at D t (hash_key k) gi si k v) (<[k := v]> m)
  | reach_drain t m : reachable t m → reachable (drain_impl D t).2 ∅.

Lemma tomb_clear_cases t : wf t → wf (clear D t).1 ∧ to_map (clear D t).1 = ∅.
Proof.
  intros Hwf. destruct (wf_ctrl _ _ _ Hwf) as [Hu|Ha].
  - destruct (is_allocated D t) eqn:Hal.
    { exfalso. apply (is_allocated_spec D hash_key t Hwf) in Hal as ((b & Hc & _) & _).
      destruct Hu as [Hc' _]. congruence. }
    unfold clear. rewrite Hal. cbn [negb fst].
    by destruct (tomb_unallocated_len D hash_key t Hwf Hu).
  - destruct (tomb_clear_ok D hash_key t Hwf Ha) as [F _]. split; [apply F|by eapply tomb_fresh_map].
Qed.

Lemma unallocated_flag t : wf t → unallocated t → is_allocated D t = false.
Proof.
  intros Hwf Hu. destruct (is_allocated D t) eqn:Hal; [|done]. exfalso.
  apply (is_allocated_spec D hash_key t Hwf) in Hal as ((b & Hc & _) & _).
  destruct Hu as [Hc' _]. congruence.
Qed.

Lemma tomb_clone_cases t : wf t → wf (clone_table D t) ∧ entries (clone_table D t) = entries t.
Proof.
  intros Hwf. destruct (wf_ctrl _ _ _ Hwf) as [Hu|Ha]; [|by apply tomb_clone_ok].
  unfold clone_table. rewrite unallocated_flag by done. cbn [negb].
  split; [apply (tomb_new_wf D hash_key)|].
  by rewrite (unallocated_entries D t Hu), (unallocated_entries D new).
Qed.

Lemma entries_map t t' : entries t' = entries t → to_map t' = to_map t.
Proof. intros He. unfold TombInv.to_map, slot_map. unfold TombInv.entries in He. by rewrite He. Qed.

(** What every reachable table satisfies. *)
Lemma tomb_reachable_invariant t m : reachable t m → wf t ∧ to_map t = m.
Proof.
  induction 1 as [|c Hc Hg|t m k v t' old _ (Hwf & <-) Hgrow Hrun
    |t m k v t' p _ (Hwf & <-) Hgrow Hrun
    |t m k t' r _ (Hwf & <-) Hf Hrun|t m k t' r _ (Hwf & <-) Hf Hrun|t m _ (Hwf & <-)
    |t m n t' _ (Hwf & <-) Hn Hf Hl Hrun|t m t' _ (Hwf & <-) Hgrow Hrun
    |t m a t' _ (Hwf & <-) Ha Hc Hg Hf Hrun|t m t' _ (Hwf & <-) Hc Hf Hrun
    |t m _ (Hwf & <-)|t m k v gi si mm _ (Hwf & <-) Hf Hrun|t m _ _].
  - apply (tomb_new_wf D hash_key).
  - unfold with_capacity. destruct (Z.eqb_spec c 0) as [|_]; [apply (tomb_new_wf D hash_key)|].
    pose proof (tomb_allocate_fresh D hash_key (@new K V) _ Hg eq_refl) as F.
    split; [apply F|by eapply tomb_fresh_map].
  - destruct (tomb_insert_or_replace_ok D hash_key fuel t k v Hwf Hgrow) as (t1 & o & Hr & U).
    simplify_eq. by destruct U.
  - destruct (insert_with_rehash_ok D hash_key fuel t k v Hwf Hgrow) as (t1 & q & b & Hr & Hw & Hb).
    simplify_eq. by destruct Hb as (_ & Hm & _).
  - destruct (remove_by_hash_ok D hash_key fuel t k Hwf Hf) as (t1 & o & Hr & R).
    simplify_eq. by destruct R.
  - destruct (tomb_remove_ok D hash_key fuel t k Hwf Hf) as (t1 & o & Hr & Hw & Hm & _). by simplify_eq.
  - by apply tomb_clear_cases.
  - destruct (tomb_rehash_spec D hash_key fuel t n Hwf Hn Hf Hl) as (t1 & Hr & R).
    simplify_eq. split; [apply R|by eapply tomb_rehashed_map].
  - destruct (tomb_ensure_capacity_ok D hash_key fuel t Hwf Hgrow) as (t1 & Hr & P & _).
    simplify_eq. by destruct P.
  - destruct (tomb_reserve_ok D hash_key fuel t a Hwf Ha Hc Hg Hf) as (t1 & Hr & P & _).
    simplify_eq. by destruct P.
  - destruct (tomb_shrink_to_fit_ok D hash_key fuel t Hwf Hc Hf) as (t1 & Hr & P & _).
    simplify_eq. by destruct P.
  - destruct (tomb_clone_cases t Hwf) as [Hw He]. split; [done|by apply entries_map].
  - destruct (tomb_find_for_entry_ok D hash_key fuel t k Hwf Hf) as (r & Hr & Hs).
    rewrite Hrun in Hr. simplify_eq. destruct Hs as (Hk & Hav & Hg).
    pose proof (insert_at_spec D hash_key t k v gi si Hwf (growth_allocated D hash_key t Hwf Hg) Hav Hk Hg) as I.
    split; [apply I|apply I].
  - apply (tomb_new_wf D hash_key).
Qed.

(** C5: the lookup of the tombstone tables refines the map's: on every
    reachable table it returns within as many steps as there are groups, with
    the slot that holds the key and the key's value, or with [None] when the
    map has no such key. *)
Theorem tomb_find_correct t m k :
  reachable t m → mask t < fuel →
  ∃ r, find_by_hash D fuel t (hash_key k) (λ k', bool_decide (k' = k)) = Some r ∧
    match r with
    | Some (gi, si) => ∃ v, kv_at D t gi si = Some (k, v) ∧ m !! k = Some v
    | None => m !! k = None
    end.
Proof.
  intros (Hwf & <-)%tomb_reachable_invariant Hfuel.
  destruct (find_spec D hash_key fuel t k Hwf Hfuel) as (r & Hrun & Hr). exists r. split; [done|].
  destruct r as [[gi si]|]; [|done].
  destruct (found_lookup D hash_key t k gi si Hwf Hr) as (_ & v & ? & _ & ?). eauto.
Qed.

(** C6: insertion into a tombstone table returns the previous value and
    changes exactly the given key, whichever of its paths it takes: first
    allocation, replacement, the home group, a reused tombstone, or growth
    when none is left. *)
Theorem tomb_insert_correct t m k v :
  reachable t m → can_grow fuel t →
  ∃ t', insert_or_replace D hash_key fuel t k v = Some (t', m !! k) ∧
    reachable t' (<[k := v]> m) ∧ to_map t' = <[k := v]> m ∧ len t' = size (<[k := v]> m).
Proof.
  intros Hr Hg. pose proof (tomb_reachable_invariant t m Hr) as (Hwf & <-).
  destruct (tomb_insert_or_replace_ok D hash_key fuel t k v Hwf Hg) as (t' & old & Hrun & U).
  rewrite (up_old _ _ _ _ _ _ _ U) in Hrun. exists t'.
  split; [done|]. split; [by eapply reach_insert|]. split; [apply U|].
  rewrite <- (up_map _ _ _ _ _ _ _ U). symmetry. apply (tomb_size_to_map D hash_key), U.
Qed.

(** C7: removal from a tombstone table returns the removed pair and deletes
    exactly its key; the tombstone keeps every other key within reach and
    gives back no growth. *)
Theorem tomb_remove_correct t m k :
  reachable t m → mask t < fuel →
  ∃ t', remove_by_hash D fuel t (hash_key k) (λ k', bool_decide (k' = k)) =
      Some (t', pair k <$> m !! k) ∧
    reachable t' (delete k m) ∧ to_map t' = delete k m ∧ growth_left t' = growth_left t.
Proof.
  intros Hr Hf. pose proof (tomb_reachable_invariant t m Hr) as (Hwf & <-).
  destruct (remove_by_hash_ok D hash_key fuel t k Hwf Hf) as (t' & r & Hrun & R).
  rewrite (rm_result _ _ _ _ _ _ R) in Hrun. exists t'.
  split; [done|]. split; [by eapply reach_remove|]. split; [apply R|apply R].
Qed.

(** C8: the growth accounting of the tombstone tables.  In every reachable
    allocated table the slots that are not EMPTY and the growth left add up to
    seven eighths of the slots, the pairs are among the former, and an EMPTY
    slot remains on the probe sequence of every key within the first
    [num_groups] steps: no lookup or insertion can run forever. *)
Theorem tomb_growth_accounting t m :
  reachable t m →
  (is_allocated D t = true → growth_left t + used D t = full_load D t) ∧
  len t <= used D t ∧ used D t < num_groups t * T_GROUP_SIZE D ∧
  ∀ k, ∃ i s, i < num_groups t ∧ s < T_GROUP_SIZE D ∧
    tag_at D t (probe_pos (mask t) (group_index D t (hash_key k)) i) s = EMPTY.
Proof.
  intros (Hwf & _)%tomb_reachable_invariant. split_and!.
  - intros Ha. by apply (is_allocated_spec D hash_key) in Ha as (_ & _ & ?).
  - by apply (len_le_used D hash_key).
  - by apply (wf_has_room D hash_key).
  - intros k. destruct (probe_stops D hash_key t k (wf_sound _ _ _ Hwf)) as (n & Hn & s & Hs & Ht);
      [by apply (wf_has_room D hash_key)|].
    exists n, s. split_and!; [unfold num_groups; lia|done|done].
Qed.

(** When no growth is left, [grow_or_rehash] doubles the table if it is
    full of pairs and otherwise clears its tombstones in place; either way the
    map is kept, no tombstone remains and there is growth again. *)
Theorem tomb_grow_correct t m :
  reachable t m → can_grow fuel t →
  ∃ t', grow_or_rehash D hash_key fuel t = Some t' ∧
    to_map t' = m ∧ entries t' ≡ₚ entries t ∧
    mask t' + 1 = (if negb (is_allocated D t) then 1
                   else if full_load D t <=? len t then (mask t + 1) * 2 else mask t + 1) ∧
    growth_left t' + len t' = full_load D t' ∧ used D t' = len t' ∧ 0 < growth_left t'.
Proof.
  intros (Hwf & <-)%tomb_reachable_invariant [Hlog Hf].
  destruct (tomb_grow_spec D hash_key fuel t Hwf Hlog Hf) as (t' & Hrun & R & Hg).
  exists t'. pose proof (rh_clean _ _ _ _ _ R) as Hc. unfold clean in Hc.
  destruct (rh_alloc _ _ _ _ _ R) as (_ & _ & Hu).
  split_and!; [done|by eapply tomb_rehashed_map|apply R|apply R|done|lia|done].
Qed.

(** The entry interface of the tombstone tables.  [find_for_entry] finds
    the key, or a free slot in which [insert_at] adds exactly the new pair, or
    (only when no growth is left) asks for a rehash. *)
Theorem tomb_entry_correct t m k v :
  reachable t m → mask t < fuel →
  ∃ r, find_for_entry D fuel t (hash_key k) k = Some r ∧
    match r with
    | EntryFound gi si => ∃ v', kv_at D t gi si = Some (k, v') ∧ m !! k = Some v'
    | EntryVacant None => m !! k = None ∧ growth_left t = 0
    | EntryVacant (Some (gi, si, _)) =>
        m !! k = None ∧
        let t' := insert_at D t (hash_key k) gi si k v in
        reachable t' (<[k := v]> m) ∧ to_map t' = <[k := v]> m ∧ len t' = len t + 1 ∧
        kv_at D t' gi si = Some (k, v)
    end.
Proof.
  intros Hreach Hf. pose proof (tomb_reachable_invariant t m Hreach) as (Hwf & Hm).
  destruct (tomb_find_for_entry_ok D hash_key fuel t k Hwf Hf) as (r & Hrun & Hr).
  exists r. split; [done|]. destruct r as [gi si|[[[gi si] mm]|]].
  - destruct (found_lookup D hash_key t k gi si Hwf Hr) as (_ & v' & ? & _ & Hv).
    rewrite Hm in Hv. eauto.
  - destruct Hr as (Hk & Hav & Hg). split; [by rewrite <- Hm|].
    pose proof (insert_at_spec D hash_key t k v gi si Hwf (growth_allocated D hash_key t Hwf Hg) Hav Hk Hg) as I.
    split_and!; [by eapply reach_entry|rewrite <- Hm; apply I|apply I|].
    pose proof (ins_entry _ _ _ _ _ _ _ I) as He. by apply tomb_slot_entry_some in He as [_ ?].
  - by rewrite <- Hm.
Qed.

(** Iterating a tombstone table.  [iter_slots] yields the occupied slots,
    each once, and then ends; an owning iterator stopped after [n] calls has
    yielded the first [n] pairs, and dropping it drops exactly the others. *)
Theorem tomb_iterators_correct t m n :
  reachable t m →
  let it := iter_slots D t in
  (take_slots D (len t) t it).1 = occupied_slots D t ∧
  (slot_iter_next D (mask t + 1) t (take_slots D (len t) t it).2).1 = None ∧
  NoDup (occupied_slots D t) ∧ list_to_map (entries t) = m ∧
  let '(yielded, it') := take_pairs D n (into_iter_impl D t) in
  yielded = Some <$> take n (entries t) ∧ (drop_table D (into_table it')).1 = drop n (entries t).
Proof.
  intros (Hwf & <-)%tomb_reachable_invariant. cbv zeta.
  pose proof (tomb_remaining_start D hash_key t Hwf) as Hrem.
  pose proof (occupied_slots_len D hash_key t Hwf) as Hlen.
  destruct (take_walk_all (tg_mask (TG D)) (group_occupied D t) (mask t)
    (λ g, group_occupied_ok D t g (wf_bytes_ok D hash_key t Hwf)) (iter_slots D t)
    (tomb_iter_slots_mask_ok D hash_key t Hwf)) as [H1 H2].
  rewrite Hrem, Hlen in H1, H2. split_and!; [exact H1|exact H2| |done|].
  - rewrite tomb_occupied_slots_filter by (first [exact (wf_bytes_ok D hash_key t Hwf)|done]).
    apply NoDup_ListNoDup, List.NoDup_filter, NoDup_ListNoDup, tomb_all_slots_NoDup.
  - destruct (tomb_into_iter_ok D hash_key t Hwf) as [Hok Hk].
    destruct (tomb_take_pairs_spec D n _ Hok) as [H3 H4]. rewrite Hk in H3, H4.
    by destruct (take_pairs D n (into_iter_impl D t)) as [ys it'].
Qed.

(** Clearing, dropping and cloning a tombstone table.  Clearing drops every
    pair once and restores the full growth on the same groups; dropping drops
    every pair once and frees the allocation; a clone is a reachable table
    with the same pairs in the same slots and the same counters. *)
Theorem tomb_lifecycle_correct t m :
  reachable t m →
  (is_allocated D t = true →
   (clear D t).2 = entries t ∧ entries (clear D t).1 = [] ∧ mask (clear D t).1 = mask t ∧
   growth_left (clear D t).1 = full_load D t ∧
   ∃ b, ctrl t = Alloc b ∧ drop_table D t = (entries t, Some b)) ∧
  entries (clone_table D t) = entries t ∧ reachable (clone_table D t) m ∧
  len (clone_table D t) = len t ∧ growth_left (clone_table D t) = growth_left t.
Proof.
  intros Hreach. pose proof (tomb_reachable_invariant t m Hreach) as (Hwf & _). split.
  - intros Hal. assert (allocated D t) as Ha by by apply (is_allocated_spec D hash_key).
    destruct (tomb_clear_ok D hash_key t Hwf Ha) as [F Hd].
    destruct (tomb_drop_ok D hash_key t Hwf) as [Hd1 Hd2]. destruct (Hd2 Ha) as (b & Hb & Hd3).
    pose proof (fresh_groups _ _ _ _ F).
    split_and!; [done|apply F|lia| |].
    + by rewrite (fresh_growth _ _ _ _ F), tomb_full_load_groups.
    + exists b. split; [done|]. by destruct (drop_table D t); simplify_eq/=.
  - destruct (tomb_clone_cases t Hwf) as [Hw He].
    split_and!; [done|by apply reach_clone| |].
    + by rewrite (wf_len _ _ _ Hw), He, (wf_len _ _ _ Hwf).
    + unfold clone_table. destruct (is_allocated D t) eqn:Hal; [done|]. cbn [negb].
      by apply (not_allocated D hash_key) in Hal as (_ & _ & _ & ->).
Qed.

(** [reserve] and [shrink_to_fit] on a tombstone table keep the map;
    after [reserve] the groups can hold the requested number of pairs;
    shrinking never adds a group and releases the allocation of an empty
    table. *)
Theorem tomb_resize_correct t m (additional : Z) :
  let needed := (Z.of_nat (len t) + additional)%Z in
  reachable t m → (0 < additional)%Z → capacity_ok D needed →
  group_count (Z.to_nat (groups_for_capacity D needed)) →
  Z.to_nat (groups_for_capacity D needed) <= fuel → mask t < fuel →
  (∃ t', reserve D hash_key fuel t additional = Some (inl t') ∧ to_map t' = m ∧ len t' = len t ∧
     (needed <= Z.of_nat (full_load D t'))%Z) ∧
  (∃ t', shrink_to_fit D hash_key fuel t = Some t' ∧ to_map t' = m ∧ len t' = len t ∧
     mask t' <= mask t ∧ (len t = 0 → ctrl t' = EMPTY_SENTINEL)).
Proof.
  intros needed (Hwf & <-)%tomb_reachable_invariant Ha Hc Hg Hf Hf'. split.
  - destruct (tomb_reserve_ok D hash_key fuel t additional Hwf ltac:(lia) Hc Hg Hf) as (t' & Hrun & P & Hl).
    destruct P. exists t'. split_and!; [done|done|done|by apply Hl].
  - destruct (tomb_shrink_to_fit_ok D hash_key fuel t Hwf) as (t' & Hrun & P & Hm & Hz); [|done|].
    + destruct Hc. split; lia.
    + destruct P. by exists t'.
Qed.

(** Building a table by insertions and removals. *)
Fixpoint run_ops (ops : list (K * option V)) t : option (RawTable K V) :=
  match ops with
  | [] => Some t
  | (k, Some v) :: ops' =>
      if decide (can_grow fuel t) then
        do ' (t, _) <- insert_or_replace D hash_key fuel t k v; run_ops ops' t
      else None
  | (k, None) :: ops' =>
      if decide (mask t < fuel) then
        do ' (t, _) <- remove_by_hash D fuel t (hash_key k) (λ k', bool_decide (k' = k)); run_ops ops' t
      else None
  end.

Definition run_map (ops : list (K * option V)) (m : gmap K V) : gmap K V :=
  fold_left (λ m '(k, o), match o with Some v => <[k := v]> m | None => delete k m end) ops m.

Lemma run_ops_reachable ops t m t' :
  reachable t m → run_ops ops t = Some t' → reachable t' (run_map ops m).
Proof.
  revert t m. induction ops as [|[k [v|]] ops IH]; intros t m Hr; simpl; [by intros [= ->]| |].
  - case_decide as Hg; [|done].
    destruct (insert_or_replace D hash_key fuel t k v) as [[t1 o]|] eqn:E; [|done].
    apply IH. by eapply reach_insert.
  - case_decide as Hg; [|done].
    destruct (remove_by_hash D fuel t (hash_key k) _) as [[t1 o]|] eqn:E; [|done].
    apply IH. by eapply reach_remove.
Qed.
End spec.

(** ** Instances

    IPO with keys of which the first sixteen collide on the home group and the
    tag, after insertions, removals and re-insertions. *)

Definition tomb_design : TombDesign := IpoDesign SSE2.

#[export] Instance tomb_design_ok : DesignOk tomb_design.
Proof. apply IpoDesign_ok. Qed.

Definition tomb_hash (k : nat) : Z := if k <? 16 then 1%Z else mix_hash (Z.of_nat k).

Definition tomb_ops : list (nat * option nat) :=
  map (λ k, (k, Some (10 * k))) (seq 0 24) ++ map (λ k, (k, None)) (seq 2 5) ++ [(3, Some 1)].

Definition tomb_table : RawTable nat nat :=
  Eval vm_compute in default new (run_ops tomb_design tomb_hash 64 tomb_ops new).

Definition tomb_map : gmap nat nat := run_map tomb_ops ∅.

Lemma tomb_reachable : reachable tomb_design tomb_hash 64 tomb_table tomb_map.
Proof. apply (run_ops_reachable _ _ _ _ new); [apply reach_new|vm_compute; reflexivity]. Qed.

Lemma tomb_find_correct_witness :
  ∃ r, find_by_hash tomb_design 64 tomb_table (tomb_hash 17) (λ k', bool_decide (k' = 17)) = Some r ∧
    match r with
    | Some (gi, si) => ∃ v, kv_at tomb_design tomb_table gi si = Some (17, v) ∧ tomb_map !! 17 = Some v
    | None => tomb_map !! 17 = None
    end.
Proof.
  apply (tomb_find_correct tomb_design tomb_hash 64 tomb_table tomb_map 17).
  - apply tomb_reachable.
  - vm_compute. lia.
Defined.

Lemma tomb_insert_correct_witness :
  ∃ t', insert_or_replace tomb_design tomb_hash 64 tomb_table 40 1 = Some (t', tomb_map !! 40) ∧
    reachable tomb_design tomb_hash 64 t' (<[40 := 1]> tomb_map) ∧
    to_map tomb_design t' = <[40 := 1]> tomb_map ∧ len t' = size (<[40 := 1]> tomb_map).
Proof.
  apply (tomb_insert_correct tomb_design tomb_hash 64 tomb_table tomb_map 40 1).
  - apply tomb_reachable.
  - split; vm_compute; lia.
Defined.

Lemma tomb_remove_correct_witness :
  ∃ t', remove_by_hash tomb_design 64 tomb_table (tomb_hash 7) (λ k', bool_decide (k' = 7)) =
      Some (t', pair 7 <$> tomb_map !! 7) ∧
    reachable tomb_design tomb_hash 64 t' (delete 7 tomb_map) ∧
    to_map tomb_design t' = delete 7 tomb_map ∧ growth_left t' = growth_left tomb_table.
Proof.
  apply (tomb_remove_correct tomb_design tomb_hash 64 tomb_table tomb_map 7).
  - apply tomb_reachable.
  - vm_compute. lia.
Defined.

Lemma tomb_growth_accounting_witness :
  (is_allocated tomb_design tomb_table = true →
   growth_left tomb_table + used tomb_design tomb_table = full_load tomb_design tomb_table) ∧
  len tomb_table <= used tomb_design tomb_table ∧
  used tomb_design tomb_table < num_groups tomb_table * T_GROUP_SIZE tomb_design ∧
  ∀ k, ∃ i s, i < num_groups tomb_table ∧ s < T_GROUP_SIZE tomb_design ∧
    tag_at tomb_design tomb_table
      (probe_pos (mask tomb_table) (group_index tomb_design tomb_table (tomb_hash k)) i) s = EMPTY.
Proof.
  apply (tomb_growth_accounting tomb_design tomb_hash 64 tomb_table tomb_map). apply tomb_reachable.
Defined.

Lemma tomb_grow_correct_witness :
  ∃ t', grow_or_rehash tomb_design tomb_hash 64 tomb_table = Some t' ∧
    to_map tomb_design t' = tomb_map ∧ entries tomb_design t' ≡ₚ entries tomb_design tomb_table ∧
    mask t' + 1 = (if negb (is_allocated tomb_design tomb_table) then 1
                   else if full_load tomb_design tomb_table <=? len tomb_table
                   then (mask tomb_table + 1) * 2 else mask tomb_table + 1) ∧
    growth_left t' + len t' = full_load tomb_design t' ∧ used tomb_design t' = len t' ∧
    0 < growth_left t'.
Proof.
  apply (tomb_grow_correct tomb_design tomb_hash 64 tomb_table tomb_map).
  - apply tomb_reachable.
  - split; vm_compute; lia.
Defined.

Lemma tomb_entry_correct_witness :
  ∃ r, find_for_entry tomb_design 64 tomb_table (tomb_hash 4) 4 = Some r ∧
    match r with
    | EntryFound gi si =>
        ∃ v', kv_at tomb_design tomb_table gi si = Some (4, v') ∧ tomb_map !! 4 = Some v'
    | EntryVacant None => tomb_map !! 4 = None ∧ growth_left tomb_table = 0
    | EntryVacant (Some (gi, si, _)) =>
        tomb_map !! 4 = None ∧
        let t' := insert_at tomb_design tomb_table (tomb_hash 4) gi si 4 7 in
        reachable tomb_design tomb_hash 64 t' (<[4 := 7]> tomb_map) ∧
        to_map tomb_design t' = <[4 := 7]> tomb_map ∧ len t' = len tomb_table + 1 ∧
        kv_at tomb_design t' gi si = Some (4, 7)
    end.
Proof.
  apply (tomb_entry_correct tomb_design tomb_hash 64 tomb_table tomb_map 4 7).
  - apply tomb_reachable.
  - vm_compute. lia.
Defined.

Lemma tomb_iterators_correct_witness :
  let it := iter_slots tomb_design tomb_table in
  (take_slots tomb_design (len tomb_table) tomb_table it).1 = occupied_slots tomb_design tomb_table ∧
  (slot_iter_next tomb_design (mask tomb_table + 1) tomb_table
     (take_slots tomb_design (len tomb_table) tomb_table it).2).1 = None ∧
  NoDup (occupied_slots tomb_design tomb_table) ∧
  list_to_map (entries tomb_design tomb_table) = tomb_map ∧
  let '(yielded, it') := take_pairs tomb_design 5 (into_iter_impl tomb_design tomb_table) in
  yielded = Some <$> take 5 (entries tomb_design tomb_table) ∧
  (drop_table tomb_design (into_table it')).1 = drop 5 (entries tomb_design tomb_table).
Proof.
  apply (tomb_iterators_correct tomb_design tomb_hash 64 tomb_table tomb_map 5). apply tomb_reachable.
Defined.

Lemma tomb_lifecycle_correct_witness :
  (is_allocated tomb_design tomb_table = true →
   (clear tomb_design tomb_table).2 = entries tomb_design tomb_table ∧
   entries tomb_design (clear tomb_design tomb_table).1 = [] ∧
   mask (clear tomb_design tomb_table).1 = mask tomb_table ∧
   growth_left (clear tomb_design tomb_table).1 = full_load tomb_design tomb_table ∧
   ∃ b, ctrl tomb_table = Alloc b ∧
     drop_table tomb_design tomb_table = (entries tomb_design tomb_table, Some b)) ∧
  entries tomb_design (clone_table tomb_design tomb_table) = entries tomb_design tomb_table ∧
  reachable tomb_design tomb_hash 64 (clone_table tomb_design tomb_table) tomb_map ∧
  len (clone_table tomb_design tomb_table) = len tomb_table ∧
  growth_left (clone_table tomb_design tomb_table) = growth_left tomb_table.
Proof.
  apply (tomb_lifecycle_correct tomb_design tomb_hash 64 tomb_table tomb_map). apply tomb_reachable.
Defined.

Lemma tomb_resize_correct_witness :
  let needed := (Z.of_nat (len tomb_table) + 60)%Z in
  (∃ t', reserve tomb_design tomb_hash 64 tomb_table 60 = Some (inl t') ∧
     to_map tomb_design t' = tomb_map ∧ len t' = len tomb_table ∧
     (needed <= Z.of_nat (full_load tomb_design t'))%Z) ∧
  (∃ t', shrink_to_fit tomb_design tomb_hash 64 tomb_table = Some t' ∧
     to_map tomb_design t' = tomb_map ∧ len t' = len tomb_table ∧ mask t' <= mask tomb_table ∧
     (len tomb_table = 0 → ctrl t' = EMPTY_SENTINEL)).
Proof.
  apply (tomb_resize_correct tomb_design tomb_hash 64 tomb_table tomb_map 60).
  - apply tomb_reachable.
  - lia.
  - split; vm_compute; congruence.
  - split; [vm_compute; reflexivity|vm_compute; lia].
  - vm_compute. lia.
  - vm_compute. lia.
Defined.
