(* ===== verification/AllocLayout.v ===== *)
(** * Memory layout of the tables

    The byte addresses behind the buckets: [raw/kv_storage.rs] (AoS keeps pairs
    interleaved below [ctrl]; SoA keeps the keys below [ctrl] and the values
    after the control bytes) and the allocation layouts of the three raw
    tables.  Sizes are [usize] values; what the source relies on of the layout
    of Rust types is the class [TypesOk]. *)

From Stdlib Require Import ZArith Lia.
From S2P Require Import Prelude.
Local Open Scope Z_scope.

(** ** Types *)

(** [size_of] and [align_of]. *)
Record Ty := { size_of : Z; align_of : Z }.

(** The key, the value, the pair [(K, V)] and the offsets of its fields. *)
Record KvTypes := { K_ty : Ty; V_ty : Ty; KV_ty : Ty; K_off : Z; V_off : Z }.

(** Rust reference, type layout: alignments are powers of two up to [2^29],
    sizes multiples of them; the fields of a tuple are aligned, inside it and disjoint, and a
    tuple is aligned at least as its fields are. *)
Class TyOk (T : Ty) := {
  ty_align : ∃ n, 0 <= n <= 29 ∧ align_of T = 2 ^ n;
  ty_size : 0 <= size_of T;
  ty_mult : (align_of T | size_of T);
}.

Class TypesOk (T : KvTypes) := {
  ty_K :: TyOk (K_ty T);
  ty_V :: TyOk (V_ty T);
  ty_KV :: TyOk (KV_ty T);
  K_off_ok : 0 <= K_off T ∧ K_off T + size_of (K_ty T) <= size_of (KV_ty T) ∧
             (align_of (K_ty T) | K_off T);
  V_off_ok : 0 <= V_off T ∧ V_off T + size_of (V_ty T) <= size_of (KV_ty T) ∧
             (align_of (V_ty T) | V_off T);
  KV_align : (align_of (K_ty T) | align_of (KV_ty T)) ∧ (align_of (V_ty T) | align_of (KV_ty T));
  KV_disjoint : K_off T + size_of (K_ty T) <= V_off T ∨ V_off T + size_of (V_ty T) <= K_off T;
}.

(** [(x + a - 1) & !(a - 1)] *)
Definition align_up (a x : Z) : Z := Z.ldiff (wrap64 (x + a - 1)) (a - 1).

(** [Layout::from_size_align(size, align)]; [None] when the size, rounded up,
    exceeds [isize::MAX]. *)
Definition from_size_align (size align : Z) : option (Z * Z) :=
  if size <=? 2 ^ 63 - align then Some (size, align) else None.

(** ** Key-value storage *)

(*@ raw/kv_storage.rs : pub trait KvStorage *)
Inductive KvStorage := AoS | SoA.

#[export] Instance KvStorage_eq_dec : EqDecision KvStorage.
Proof. solve_decision. Defined.

Section storage.
Context (T : KvTypes).

(*@ raw/kv_storage.rs : fn backward_size @2 *)
Definition backward_size_aos (num_slots : Z) : Z :=
  let raw := wrap64 (num_slots * size_of (KV_ty T)) in align_up 16 raw.

(*@ raw/kv_storage.rs : fn backward_size @3 *)
Definition backward_size_soa (num_slots : Z) : Z :=
  let raw := wrap64 (num_slots * size_of (K_ty T)) in align_up 16 raw.

Definition backward_size (st : KvStorage) : Z → Z :=
  match st with AoS => backward_size_aos | SoA => backward_size_soa end.

(*@ raw/kv_storage.rs : fn values_region_size @3 *)
Definition values_region_size (st : KvStorage) (num_slots : Z) : Z :=
  match st with AoS => 0 | SoA => wrap64 (num_slots * size_of (V_ty T)) end.

(*@ raw/kv_storage.rs : fn values_align @3 *)
Definition values_align (st : KvStorage) : Z :=
  match st with AoS => 1 | SoA => Z.max (align_of (V_ty T)) 1 end.

(*@ raw/kv_storage.rs : fn alloc_align @2 *)
Definition alloc_align_aos : Z := Z.max 16 (align_of (KV_ty T)).

(*@ raw/kv_storage.rs : fn alloc_align @3 *)
Definition alloc_align_soa : Z := Z.max (Z.max 16 (align_of (K_ty T))) (align_of (V_ty T)).

Definition alloc_align (st : KvStorage) : Z :=
  match st with AoS => alloc_align_aos | SoA => alloc_align_soa end.

(*@ raw/kv_storage.rs : unsafe fn init_extra @3 *)
Definition init_extra (ctrl values_offset : Z) : Z := ctrl + values_offset.

(** The cast gives the address of the pair: that of its key only where the key
    is the first field in memory. *)
(*@ raw/kv_storage.rs : unsafe fn key_ptr @2 *)
Definition key_ptr_aos (ctrl idx : Z) : Z := ctrl - (idx + 1) * size_of (KV_ty T).

(*@ raw/kv_storage.rs : unsafe fn key_ptr @3 *)
Definition key_ptr_soa (ctrl idx : Z) : Z := ctrl - (idx + 1) * size_of (K_ty T).

Definition key_ptr (st : KvStorage) : Z → Z → Z :=
  match st with AoS => key_ptr_aos | SoA => key_ptr_soa end.

(*@ raw/kv_storage.rs : unsafe fn value_ptr @2 *)
Definition value_ptr_aos (ctrl idx : Z) : Z := ctrl - (idx + 1) * size_of (KV_ty T) + V_off T.

(*@ raw/kv_storage.rs : unsafe fn value_ptr @3 *)
Definition value_ptr_soa (extra idx : Z) : Z := extra + idx * size_of (V_ty T).

Definition value_ptr (st : KvStorage) (ctrl extra idx : Z) : Z :=
  match st with AoS => value_ptr_aos ctrl idx | SoA => value_ptr_soa extra idx end.

(** ** Layouts of the tables *)

(** [forward] is the number of control bytes, overflow bytes included. *)
Definition values_offset_of (st : KvStorage) (forward : Z) : Z :=
  align_up (values_align st) forward.

(** The overflow-bit tables: [stride] buckets and [meta_stride] bytes a group,
    [extra] separate overflow bytes. *)
(*@ raw/overflow_table.rs : fn backward_size *)
Definition ov_backward_size (st : KvStorage) (meta_align stride num_groups : Z) : Z :=
  align_up meta_align (backward_size st (wrap64 (num_groups * stride))).

(*@ raw/overflow_table.rs : fn values_offset *)
Definition ov_values_offset (st : KvStorage) (meta_stride extra num_groups : Z) : Z :=
  values_offset_of st (wrap64 (wrap64 (num_groups * meta_stride) + extra)).

(*@ raw/overflow_table.rs : 143-152 : RawTable::combined_layout *)
Definition ov_combined_layout (st : KvStorage) (meta_align stride meta_stride extra num_groups : Z) :
    option (Z * Z) :=
  let backward := ov_backward_size st meta_align stride num_groups in
  let values_offset := ov_values_offset st meta_stride extra num_groups in
  let values_size := values_region_size st (wrap64 (num_groups * stride)) in
  let total_size := wrap64 (wrap64 (backward + values_offset) + values_size) in
  let align := Z.max (alloc_align st) meta_align in
  from_size_align (Z.max total_size align) align.

(*@ in_place_overflow/raw/mod.rs : fn backward_size *)
Definition ipo_backward_size (st : KvStorage) (num_groups : Z) : Z :=
  backward_size st (wrap64 (num_groups * 16)).

(*@ in_place_overflow/raw/mod.rs : fn values_offset *)
Definition ipo_values_offset (st : KvStorage) (num_groups : Z) : Z :=
  values_offset_of st (wrap64 (num_groups * 16)).

(*@ in_place_overflow/raw/mod.rs : fn combined_layout *)
Definition ipo_combined_layout (st : KvStorage) (num_groups : Z) : option (Z * Z) :=
  let backward := ipo_backward_size st num_groups in
  let values_offset := ipo_values_offset st num_groups in
  let values_size := values_region_size st (wrap64 (num_groups * 16)) in
  let total_size := wrap64 (wrap64 (backward + values_offset) + values_size) in
  let align := alloc_align st in
  from_size_align (Z.max total_size align) align.

(** IPO64 keeps the metadata first and the buckets after it. *)
(*@ ipo64/raw/mod.rs : fn bucket_offset *)
Definition ipo64_bucket_offset (num_groups : Z) : Z :=
  align_up (Z.max (align_of (KV_ty T)) 1) (wrap64 (num_groups * 64)).

(*@ ipo64/raw/mod.rs : fn combined_layout *)
Definition ipo64_combined_layout (num_groups : Z) : option (Z * Z) :=
  let total_buckets := wrap64 (num_groups * 64) in
  let total_size :=
    wrap64 (ipo64_bucket_offset num_groups + wrap64 (total_buckets * size_of (KV_ty T))) in
  from_size_align (Z.max total_size 64) 64.

(*@ ipo64/raw/mod.rs : pub(crate) unsafe fn bucket_ptr *)
Definition ipo64_bucket_addr (buckets gi si : Z) : Z :=
  buckets + (gi * 64 + si) * size_of (KV_ty T).

(** The legacy table has the same order, with 15 buckets and 16 bytes a group. *)
(*@ raw/mod.rs : fn bucket_offset *)
Definition legacy_bucket_offset (num_groups : Z) : Z :=
  let meta_size := wrap64 (num_groups * 16) in
  align_up (align_of (KV_ty T)) meta_size.

(*@ raw/mod.rs : fn combined_layout *)
Definition legacy_combined_layout (num_groups : Z) : option (Z * Z) :=
  let total_buckets := wrap64 (num_groups * 15) in
  let total_size := wrap64 (legacy_bucket_offset num_groups + wrap64 (total_buckets * size_of (KV_ty T))) in
  from_size_align (Z.max total_size 16) 16.

(** [bucket_ptr]: [Legacy.bucket_ptr] counts in buckets, this in bytes. *)
Definition legacy_bucket_addr (buckets gi si : Z) : Z :=
  buckets + (gi * 15 + si) * size_of (KV_ty T).
End storage.

(** ** Rounding up *)

Lemma align_up_spec n x :
  0 <= n <= 63 → 0 <= x → x + 2 ^ n <= 2 ^ 64 →
  x <= align_up (2 ^ n) x < x + 2 ^ n ∧ (2 ^ n | align_up (2 ^ n) x).
Proof.
  intros Hn Hx Hlt. pose proof (Z.pow_pos_nonneg 2 n ltac:(lia) ltac:(lia)) as Hp.
  unfold align_up, wrap64. rewrite Z.mod_small by lia.
  replace (2 ^ n - 1) with (Z.ones n) by (rewrite Z.ones_equiv; lia).
  rewrite Z.ldiff_ones_r, Z.shiftr_div_pow2, Z.shiftl_mul_pow2 by lia.
  pose proof (Z.div_mod (x + 2 ^ n - 1) (2 ^ n) ltac:(lia)).
  pose proof (Z.mod_pos_bound (x + 2 ^ n - 1) (2 ^ n) Hp).
  split; [lia|]. apply Z.divide_factor_r.
Qed.

(** A multiple of the alignment is left as it is. *)
Lemma align_up_id n x :
  0 <= n <= 63 → 0 <= x → x + 2 ^ n <= 2 ^ 64 → (2 ^ n | x) → align_up (2 ^ n) x = x.
Proof.
  intros Hn Hx Hlt [q ->]. pose proof (Z.pow_pos_nonneg 2 n ltac:(lia) ltac:(lia)) as Hp.
  destruct (align_up_spec n (q * 2 ^ n)) as [Hb [r Hr]]; [lia..|].
  rewrite Hr in *. f_equal. nia.
Qed.

(** One power of two divides another or is its multiple. *)
Lemma pow2_le_divide a b : 0 <= a → 0 <= b → 2 ^ a <= 2 ^ b → (2 ^ a | 2 ^ b).
Proof.
  intros Ha Hb Hle. assert (a <= b) by (by apply (Z.pow_le_mono_r_iff 2)).
  exists (2 ^ (b - a)). rewrite <- Z.pow_add_r by lia. f_equal. lia.
Qed.

Lemma pow2_max a b : 0 <= a → 0 <= b → Z.max (2 ^ a) (2 ^ b) = 2 ^ Z.max a b.
Proof.
  intros Ha Hb. destruct (Z.max_spec a b) as [[H ->]|[H ->]].
  - apply Z.max_r, Z.pow_le_mono_r; lia.
  - apply Z.max_l, Z.pow_le_mono_r; lia.
Qed.

(** ** Geometry of the overflow-bit and IPO tables *)

Definition disjoint (a la b lb : Z) : Prop := a + la <= b ∨ b + lb <= a.

Section geometry.
Context (T : KvTypes) `{!TypesOk T} (st : KvStorage).
Context (meta_align_log stride meta_stride extra num_groups : Z).

Abbreviation meta_align := (2 ^ meta_align_log).
Abbreviation num_slots := (num_groups * stride).
Abbreviation forward := (num_groups * meta_stride + extra).

(** The sizes do not come near the end of the address space: what
    [from_size_align] accepts, short of a factor, when no product wraps. *)
Record fits : Prop := {
  fit_align : 4 <= meta_align_log <= 6;
  fit_nonneg : 0 <= num_groups ∧ 0 <= stride ∧ 0 <= meta_stride ∧ 0 <= extra;
  fit_slots : num_slots * size_of (KV_ty T) + num_slots * size_of (K_ty T)
              + num_slots * size_of (V_ty T) + num_slots + forward <= 2 ^ 61;
}.

Context (Hfit : fits).

(** What lies below [ctrl] for one slot. *)
Definition below_ty : Ty := match st with AoS => KV_ty T | SoA => K_ty T end.

Lemma slots_nonneg : 0 <= num_slots ∧ 0 <= num_groups * meta_stride.
Proof using Hfit. destruct (fit_nonneg Hfit) as (? & ? & ? & ?). lia. Qed.

Lemma below_bounds : 0 <= num_slots * size_of below_ty <= 2 ^ 61.
Proof using All.
  pose proof slots_nonneg as [H1 H2]. pose proof (fit_slots Hfit) as H.
  destruct (fit_nonneg Hfit) as (_ & _ & _ & He).
  pose proof (ty_size (T := K_ty T)). pose proof (ty_size (T := V_ty T)).
  pose proof (ty_size (T := KV_ty T)). unfold below_ty. destruct st; nia.
Qed.

Lemma value_bounds : 0 <= num_slots * size_of (V_ty T) ∧
  num_slots * size_of below_ty + num_slots * size_of (V_ty T) + num_slots + forward <= 2 ^ 61.
Proof using All.
  pose proof slots_nonneg as [H1 H2]. pose proof (fit_slots Hfit) as H.
  pose proof (ty_size (T := K_ty T)). pose proof (ty_size (T := V_ty T)).
  pose proof (ty_size (T := KV_ty T)). unfold below_ty. destruct st; nia.
Qed.

Lemma num_slots_small : 0 <= num_slots <= 2 ^ 61 ∧ 0 <= forward <= 2 ^ 61.
Proof using All.
  pose proof slots_nonneg as [H1 H2]. pose proof value_bounds as [H3 H4].
  pose proof below_bounds. destruct (fit_nonneg Hfit) as (_ & _ & _ & He). lia.
Qed.

Lemma backward_size_eq :
  backward_size T st (wrap64 num_slots) = align_up 16 (num_slots * size_of below_ty).
Proof using All.
  pose proof num_slots_small as [Hs _]. pose proof below_bounds as Hb.
  unfold wrap64 at 1. rewrite Z.mod_small by lia. unfold below_ty in *.
  destruct st; cbn [backward_size]; unfold backward_size_aos, backward_size_soa, wrap64 at 1;
    by rewrite Z.mod_small by lia.
Qed.

(** The region below [ctrl]: large enough, aligned for the control bytes, and
    as aligned as its contents when those are not more aligned than needed. *)
Lemma backward_spec :
  let b := ov_backward_size T st meta_align stride num_groups in
  num_slots * size_of below_ty <= b < num_slots * size_of below_ty + 128 ∧ (meta_align | b).
Proof using All.
  intros b. unfold b, ov_backward_size. rewrite backward_size_eq.
  pose proof below_bounds as Hb. change 16 with (2 ^ 4).
  destruct (align_up_spec 4 (num_slots * size_of below_ty)) as [H1 _]; [lia..|].
  pose proof (fit_align Hfit). assert (2 ^ meta_align_log <= 2 ^ 6) by (apply Z.pow_le_mono_r; lia).
  destruct (align_up_spec meta_align_log (align_up (2 ^ 4) (num_slots * size_of below_ty)))
    as [H2 H3]; [lia..|].
  split; [lia|done].
Qed.

Lemma ty_align_pow (U : Ty) `{!TyOk U} : ∃ n, 0 <= n <= 29 ∧ align_of U = 2 ^ n ∧ 1 <= 2 ^ n <= 2 ^ 29.
Proof using Type.
  destruct (ty_align (T := U)) as (n & Hn & ->). exists n. pose proof (Z.pow_pos_nonneg 2 n ltac:(lia) ltac:(lia)).
  split; [done|]. split; [done|]. split; [lia|]. apply Z.pow_le_mono_r; lia.
Qed.

Lemma values_offset_spec :
  let o := ov_values_offset T st meta_stride extra num_groups in
  forward <= o < forward + 2 ^ 29 ∧ (st = SoA → (align_of (V_ty T) | o)).
Proof using All.
  intros o. pose proof num_slots_small as [_ Hf]. pose proof slots_nonneg as [_ Hm].
  destruct (fit_nonneg Hfit) as (_ & _ & _ & He).
  unfold o, ov_values_offset, values_offset_of, wrap64.
  rewrite (Z.mod_small (num_groups * meta_stride)) by lia. rewrite Z.mod_small by lia.
  destruct st; cbn [values_align].
  - change 1 with (2 ^ 0). destruct (align_up_spec 0 forward) as [? _]; [lia..|]. split; [lia|done].
  - destruct (ty_align_pow (V_ty T)) as (n & Hn & -> & Hp). rewrite Z.max_l by lia.
    destruct (align_up_spec n forward) as [? ?]; [lia..|]. split; [lia|done].
Qed.

Lemma combined_layout_spec total align :
  ov_combined_layout T st meta_align stride meta_stride extra num_groups = Some (total, align) →
  align = Z.max (alloc_align T st) meta_align ∧
  ov_backward_size T st meta_align stride num_groups
    + ov_values_offset T st meta_stride extra num_groups
    + match st with AoS => 0 | SoA => num_slots * size_of (V_ty T) end <= total.
Proof using All.
  pose proof num_slots_small as [Hs Hf]. pose proof value_bounds as [Hv Hv'].
  pose proof backward_spec as [Hb _]. pose proof values_offset_spec as [Ho _].
  pose proof below_bounds as Hbb. cbv zeta in Hb, Ho. revert Hb Ho.
  unfold ov_combined_layout, from_size_align. cbv zeta.
  generalize (ov_backward_size T st meta_align stride num_groups).
  generalize (ov_values_offset T st meta_stride extra num_groups). intros o b Hb Ho.
  assert (values_region_size T st (wrap64 num_slots) =
    match st with AoS => 0 | SoA => num_slots * size_of (V_ty T) end) as ->.
  { destruct st; cbn [values_region_size]; [done|]. unfold wrap64.
    rewrite (Z.mod_small num_slots), Z.mod_small; lia. }
  assert (0 <= match st with AoS => 0 | SoA => num_slots * size_of (V_ty T) end
          <= num_slots * size_of (V_ty T)) as Hvs by (destruct st; lia).
  revert Hvs. generalize (match st with AoS => 0 | SoA => num_slots * size_of (V_ty T) end). intros vs Hvs.
  unfold wrap64. rewrite (Z.mod_small (b + o)) by lia. rewrite Z.mod_small by lia.
  destruct (_ <=? _); [|done]. intros [= <- <-]. split; [done|]. lia.
Qed.

Section slot.
Context (p : Z).

(** What [key_ptr] of AoS relies on; Rust does not fix the order of the
    fields of a tuple. *)
Context (key_first : st = AoS → K_off T = 0).
Abbreviation ctrl := (p + ov_backward_size T st meta_align stride num_groups).
Abbreviation extra_ptr := (init_extra ctrl (ov_values_offset T st meta_stride extra num_groups)).
Abbreviation key i := (key_ptr T st ctrl i).
Abbreviation value i := (value_ptr T st ctrl extra_ptr i).
Abbreviation sizeK := (size_of (K_ty T)).
Abbreviation sizeV := (size_of (V_ty T)).

(** A key lies in the part of the backward region that belongs to its slot. *)
Lemma key_range i : 0 <= i < num_slots →
  ctrl - (i + 1) * size_of below_ty <= key i ∧ key i + sizeK <= ctrl - i * size_of below_ty.
Proof using All.
  intros Hi. unfold below_ty. destruct (K_off_ok (T := T)) as (H1 & H2 & _).
  destruct st; cbn [key_ptr]; unfold key_ptr_aos, key_ptr_soa; [rewrite key_first in H2 by done|]; lia.
Qed.

Lemma value_range_aos i : st = AoS → 0 <= i < num_slots →
  ctrl - (i + 1) * size_of below_ty <= value i ∧ value i + sizeV <= ctrl - i * size_of below_ty.
Proof using All.
  intros Hst Hi. unfold below_ty. destruct (V_off_ok (T := T)) as (H1 & H2 & _).
  rewrite Hst. cbn [value_ptr]. unfold value_ptr_aos. lia.
Qed.

Lemma value_range_soa i : st = SoA → 0 <= i < num_slots → value i = extra_ptr + i * sizeV.
Proof using Type. intros Hst _. by rewrite Hst. Qed.

Lemma backward_room i : 0 <= i < num_slots →
  p <= ctrl - (i + 1) * size_of below_ty ∧ ctrl - i * size_of below_ty <= ctrl.
Proof using All.
  intros Hi. pose proof backward_spec as [Hb _]. cbv zeta in Hb.
  assert (0 <= size_of below_ty) as Hs by (unfold below_ty; destruct st; apply ty_size).
  assert ((i + 1) * size_of below_ty <= num_slots * size_of below_ty)
    by (apply Z.mul_le_mono_nonneg_r; lia).
  assert (0 <= i * size_of below_ty) by (apply Z.mul_nonneg_nonneg; lia). lia.
Qed.

(** Slots do not overlap. *)
Lemma slot_apart i j (s : Z) : 0 <= s → i ≠ j → (j + 1) * s <= i * s ∨ (i + 1) * s <= j * s.
Proof using Type.
  intros Hs Hne. destruct (Z.lt_trichotomy i j) as [?|[?|?]]; [right|done|left];
    apply Z.mul_le_mono_nonneg_r; lia.
Qed.

Lemma key_key i j : 0 <= i < num_slots → 0 <= j < num_slots → i ≠ j → disjoint (key i) sizeK (key j) sizeK.
Proof using All.
  intros Hi Hj Hne. pose proof (key_range i Hi). pose proof (key_range j Hj).
  assert (0 <= size_of below_ty) as Hs by (unfold below_ty; destruct st; apply ty_size).
  destruct (slot_apart i j _ Hs Hne); [left|right]; lia.
Qed.

Lemma value_value i j :
  0 <= i < num_slots → 0 <= j < num_slots → i ≠ j → disjoint (value i) sizeV (value j) sizeV.
Proof using All.
  intros Hi Hj Hne. destruct (decide (st = AoS)) as [Ha|Hs].
  - pose proof (value_range_aos i Ha Hi). pose proof (value_range_aos j Ha Hj).
    assert (0 <= size_of below_ty) as Hs by (unfold below_ty; destruct st; apply ty_size).
    destruct (slot_apart i j _ Hs Hne); [left|right]; lia.
  - assert (st = SoA) as Hso by (by destruct st).
    rewrite (value_range_soa i Hso Hi), (value_range_soa j Hso Hj).
    destruct (slot_apart i j sizeV ty_size Hne); [right|left]; lia.
Qed.

Lemma key_value i j :
  0 <= i < num_slots → 0 <= j < num_slots → disjoint (key i) sizeK (value j) sizeV.
Proof using All.
  intros Hi Hj. pose proof (key_range i Hi) as Hk. pose proof (backward_room i Hi) as Hr.
  assert (0 <= size_of below_ty) as Hs by (unfold below_ty; destruct st; apply ty_size).
  destruct (decide (st = AoS)) as [Ha|Hn].
  - destruct (decide (i = j)) as [->|Hne].
    + rewrite Ha. cbn [key_ptr value_ptr]. unfold key_ptr_aos, value_ptr_aos, disjoint.
      pose proof (key_first Ha). destruct (KV_disjoint (T := T)); [lia|].
      pose proof (ty_size (T := V_ty T)). destruct (V_off_ok (T := T)) as (? & _). lia.
    + pose proof (value_range_aos j Ha Hj). destruct (slot_apart i j _ Hs Hne); [left|right]; lia.
  - assert (st = SoA) as Hso by (by destruct st). rewrite (value_range_soa j Hso Hj).
    pose proof values_offset_spec as [Ho _]. pose proof num_slots_small as [_ Hf].
    pose proof (ty_size (T := V_ty T)). unfold init_extra. left. cbv zeta in Ho. nia.
Qed.

Lemma value_outside i total align :
  ov_combined_layout T st meta_align stride meta_stride extra num_groups = Some (total, align) →
  0 <= i < num_slots →
  p <= value i ∧ value i + sizeV <= p + total ∧ disjoint (value i) sizeV ctrl forward.
Proof using All.
  intros [_ Ht]%combined_layout_spec Hi. pose proof (backward_room i Hi) as Hr.
  pose proof values_offset_spec as [Ho _]. pose proof backward_spec as [Hb _].
  pose proof num_slots_small as [_ Hf]. pose proof below_bounds. cbv zeta in Ho, Hb.
  pose proof (ty_size (T := V_ty T)). destruct (decide (st = AoS)) as [Ha|Hn].
  - pose proof (value_range_aos i Ha Hi).
    assert (0 <= match st with AoS => 0 | SoA => num_slots * sizeV end) by (by rewrite Ha).
    split_and!; [lia|lia|left; lia].
  - assert (st = SoA) as Hso by (by destruct st). rewrite (value_range_soa i Hso Hi).
    rewrite Hso in Ht at 3. unfold init_extra. split_and!; [nia|nia|right; nia].
Qed.

Lemma key_outside i total align :
  ov_combined_layout T st meta_align stride meta_stride extra num_groups = Some (total, align) →
  0 <= i < num_slots →
  p <= key i ∧ key i + sizeK <= p + total ∧ disjoint (key i) sizeK ctrl forward.
Proof using All.
  intros [_ Ht]%combined_layout_spec Hi. pose proof (backward_room i Hi) as Hr.
  pose proof (key_range i Hi) as Hk.
  pose proof values_offset_spec as [Ho _]. pose proof num_slots_small as [_ Hf].
  pose proof value_bounds as [Hv _]. cbv zeta in Ho.
  assert (0 <= match st with AoS => 0 | SoA => num_slots * sizeV end) by (destruct st; lia).
  split_and!; [lia|lia|left; lia].
Qed.
End slot.

(** ** Alignment *)

#[local] Instance below_ok : TyOk below_ty.
Proof using TypesOk0. unfold below_ty. destruct st; apply _. Qed.

Lemma below_align_divides_raw : (align_of below_ty | num_slots * size_of below_ty).
Proof using TypesOk0. apply Z.divide_mul_r. apply ty_mult.  Qed.

Lemma meta_align_16 : (2 ^ 4 | meta_align).
Proof using Hfit. pose proof (fit_align Hfit). apply pow2_le_divide; [lia..|]. apply Z.pow_le_mono_r; lia. Qed.

(** The backward region keeps the alignment of what it holds: either the
    control bytes need more, or no rounding takes place. *)
Lemma backward_aligned : (align_of below_ty | ov_backward_size T st meta_align stride num_groups).
Proof using All.
  pose proof backward_spec as [_ Hb]. cbv zeta in Hb. pose proof (fit_align Hfit) as Ha.
  destruct (ty_align_pow below_ty) as (n & Hn & Heq & Hp).
  destruct (Z.le_gt_cases n meta_align_log) as [Hle|Hgt].
  - rewrite Heq. etransitivity; [|exact Hb]. apply pow2_le_divide; [lia..|]. apply Z.pow_le_mono_r; lia.
  - pose proof below_align_divides_raw as Hraw. rewrite Heq in Hraw |- *.
    assert (∀ m, 0 <= m <= n → (2 ^ m | num_slots * size_of below_ty)) as Hm.
    { intros m Hm. etransitivity; [|exact Hraw]. apply pow2_le_divide; [lia..|].
      apply Z.pow_le_mono_r; lia. }
    pose proof below_bounds as Hbb. assert (2 ^ meta_align_log <= 2 ^ 6) by (apply Z.pow_le_mono_r; lia).
    unfold ov_backward_size. rewrite backward_size_eq. change 16 with (2 ^ 4).
    rewrite (align_up_id 4) by (first [lia|apply Hm; lia]).
    rewrite align_up_id by (first [lia|apply Hm; lia]). exact Hraw.
Qed.

Lemma align_divides_max a b (n : Z) : 0 <= n → a = 2 ^ n → (∃ m, 0 <= m ∧ b = 2 ^ m) →
  (a | Z.max a b) ∧ (a | Z.max b a).
Proof using Type.
  intros Hn -> (m & Hm & ->). rewrite !pow2_max by lia. split; apply pow2_le_divide; try lia;
    apply Z.pow_le_mono_r; lia.
Qed.

Lemma alloc_align_pow : ∃ m, 0 <= m ∧ alloc_align T st = 2 ^ m.
Proof using TypesOk0.
  destruct (ty_align_pow (K_ty T)) as (k & Hk & HK & _), (ty_align_pow (V_ty T)) as (v & Hv & HV & _),
    (ty_align_pow (KV_ty T)) as (n & Hn & HN & _).
  destruct st; cbn [alloc_align]; unfold alloc_align_aos, alloc_align_soa;
    rewrite ?HK, ?HV, ?HN; change 16 with (2 ^ 4); rewrite !pow2_max by lia; eexists;
    (split; [|reflexivity]); lia.
Qed.

(** The alignment of the allocation covers the types stored. *)
Lemma alloc_align_covers :
  (align_of below_ty | alloc_align T st) ∧ (st = SoA → (align_of (V_ty T) | alloc_align T st)).
Proof using TypesOk0.
  destruct (ty_align_pow (K_ty T)) as (k & Hk & HK & _), (ty_align_pow (V_ty T)) as (v & Hv & HV & _),
    (ty_align_pow (KV_ty T)) as (n & Hn & HN & _).
  unfold below_ty. destruct st; cbn [alloc_align]; unfold alloc_align_aos, alloc_align_soa;
    rewrite ?HK, ?HV, ?HN; change 16 with (2 ^ 4); rewrite !pow2_max by lia;
    split; try done; intros; apply pow2_le_divide; try lia; apply Z.pow_le_mono_r; lia.
Qed.

Lemma base_aligned total align p :
  ov_combined_layout T st meta_align stride meta_stride extra num_groups = Some (total, align) →
  (align | p) → (align_of below_ty | p) ∧ (st = SoA → (align_of (V_ty T) | p)).
Proof using All.
  intros [-> _]%combined_layout_spec Hp. destruct alloc_align_covers as [H1 H2].
  destruct alloc_align_pow as (m & Hm & Heq). pose proof (fit_align Hfit).
  assert ((alloc_align T st | Z.max (alloc_align T st) meta_align)) as Hd.
  { eapply align_divides_max; [exact Hm|exact Heq|]. exists meta_align_log. split; [lia|done]. }
  split; [|intros Hs; specialize (H2 Hs)]; etransitivity; try exact Hp; etransitivity; eauto.
Qed.

Lemma keys_aligned total align p i :
  ov_combined_layout T st meta_align stride meta_stride extra num_groups = Some (total, align) →
  (align | p) →
  (align_of (K_ty T) | key_ptr T st (p + ov_backward_size T st meta_align stride num_groups) i).
Proof using All.
  intros Hl Hp. destruct (base_aligned _ _ _ Hl Hp) as [Hb _]. pose proof backward_aligned as Hw.
  assert ((align_of (K_ty T) | align_of below_ty)) as Hk.
  { unfold below_ty. destruct st; [apply KV_align|done]. }
  assert ((align_of (K_ty T) | size_of below_ty)) as Hs.
  { etransitivity; [exact Hk|]. apply (ty_mult (T := below_ty)).  }
  assert ((align_of (K_ty T) | p + ov_backward_size T st meta_align stride num_groups
    - (i + 1) * size_of below_ty)) as Hd.
  { apply Z.divide_sub_r; [|by apply Z.divide_mul_r].
    apply Z.divide_add_r; by apply (Z.divide_trans _ _ _ Hk). }
  unfold below_ty in Hd. by destruct st.
Qed.

Lemma values_aligned total align p i :
  ov_combined_layout T st meta_align stride meta_stride extra num_groups = Some (total, align) →
  (align | p) → (st = AoS ∨ align_of (V_ty T) <= meta_align) →
  (align_of (V_ty T) |
     value_ptr T st (p + ov_backward_size T st meta_align stride num_groups)
       (init_extra (p + ov_backward_size T st meta_align stride num_groups)
          (ov_values_offset T st meta_stride extra num_groups)) i).
Proof using All.
  intros Hl Hp Hor. destruct (base_aligned _ _ _ Hl Hp) as [Hb Hv].
  destruct (decide (st = AoS)) as [Hst|Hn].
  - pose proof backward_aligned as Hw. unfold below_ty in Hb, Hw. rewrite Hst in *.
    cbn [value_ptr]. unfold value_ptr_aos. destruct (KV_align (T := T)) as [_ Hk].
    apply Z.divide_add_r; [|apply (V_off_ok (T := T))].
    apply Z.divide_sub_r; [apply Z.divide_add_r; by apply (Z.divide_trans _ _ _ Hk)|].
    apply Z.divide_mul_r. etransitivity; [exact Hk|apply ty_mult].
  - assert (st = SoA) as Hso by (by destruct st). destruct Hor as [|Hle]; [done|].
    pose proof backward_spec as [_ Hbm]. pose proof values_offset_spec as [_ Ho].
    cbv zeta in Hbm, Ho. specialize (Ho Hso). specialize (Hv Hso).
    destruct (ty_align_pow (V_ty T)) as (n & Hn' & Heq & _). pose proof (fit_align Hfit).
    assert ((align_of (V_ty T) | meta_align)) as Hd.
    { rewrite Heq in Hle |- *. apply pow2_le_divide; lia. }
    assert (∀ c e, value_ptr T st c e i = e + i * size_of (V_ty T)) as Heqv by (intros; by rewrite Hso).
    rewrite Heqv. unfold init_extra.
    apply Z.divide_add_r; [|apply Z.divide_mul_r, ty_mult].
    apply Z.divide_add_r; [|done]. apply Z.divide_add_r; [done|by apply (Z.divide_trans _ _ _ Hd)].
Qed.

(** C28: the memory layout of the overflow-bit and IPO tables is sound: for
    interleaved and for separate storage, every key and value of a slot lies
    inside the allocation, outside the control and overflow bytes, and apart
    from every other key and value.  Interleaved storage must have the key first
    in the pair, which [key_ptr] relies on ([key_ptr_misses_key]). *)
Theorem slots_disjoint_in_bounds (p total align i : Z) :
  (st = AoS → K_off T = 0) →
  ov_combined_layout T st meta_align stride meta_stride extra num_groups = Some (total, align) →
  0 <= i < num_slots →
  let ctrl := p + ov_backward_size T st meta_align stride num_groups in
  let ext := init_extra ctrl (ov_values_offset T st meta_stride extra num_groups) in
  let key := key_ptr T st ctrl in let value := value_ptr T st ctrl ext in
  let sizeK := size_of (K_ty T) in let sizeV := size_of (V_ty T) in
  p <= key i ∧ key i + sizeK <= p + total ∧ p <= value i ∧ value i + sizeV <= p + total ∧
  disjoint (key i) sizeK ctrl forward ∧ disjoint (value i) sizeV ctrl forward ∧
  (p <= ctrl ∧ ctrl + forward <= p + total) ∧
  ∀ j, 0 <= j < num_slots →
    disjoint (key i) sizeK (value j) sizeV ∧
    (i ≠ j → disjoint (key i) sizeK (key j) sizeK ∧ disjoint (value i) sizeV (value j) sizeV).
Proof using All.
  intros Hfirst Hl Hi. cbv zeta.
  destruct (key_outside p Hfirst i total align Hl Hi) as (H1 & H2 & H3).
  destruct (value_outside p Hfirst i total align Hl Hi) as (H4 & H5 & H6).
  pose proof (combined_layout_spec _ _ Hl) as [_ Ht]. pose proof backward_spec as [Hb _].
  pose proof values_offset_spec as [Ho _]. pose proof below_bounds. pose proof value_bounds as [Hv _].
  cbv zeta in Hb, Ho.
  assert (0 <= match st with AoS => 0 | SoA => num_slots * size_of (V_ty T) end) by (destruct st; lia).
  split_and!; try done; try lia. intros j Hj. split; [by apply key_value|].
  intros Hne. split; [by apply key_key|by apply value_value].
Qed.

(** Keys and pairs are aligned for their types in every table; separately
    stored values are aligned when their type needs no more than the control
    bytes do (16, 32 or 64). *)
Theorem slots_aligned (p total align i : Z) :
  ov_combined_layout T st meta_align stride meta_stride extra num_groups = Some (total, align) →
  (align | p) →
  let ctrl := p + ov_backward_size T st meta_align stride num_groups in
  let ext := init_extra ctrl (ov_values_offset T st meta_stride extra num_groups) in
  (align_of (K_ty T) | key_ptr T st ctrl i) ∧
  (st = AoS ∨ align_of (V_ty T) <= meta_align →
   (align_of (V_ty T) | value_ptr T st ctrl ext i)).
Proof using All.
  intros Hl Hp. split; [by apply (keys_aligned total align)|].
  intros Hor. by apply (values_aligned total align).
Qed.
End geometry.

(** Where the compiler puts the value first, [key_ptr] of AoS is not the address
    at which [write] stored the key: with the value at offset 0 it is the
    address of the value. *)
Theorem key_ptr_misses_key (T : KvTypes) `{!TypesOk T} (ctrl ext idx : Z) :
  K_off T ≠ 0 → 
  let pair := ctrl - (idx + 1) * size_of (KV_ty T) in
  key_ptr T AoS ctrl idx ≠ pair + K_off T ∧
  (V_off T = 0 → key_ptr T AoS ctrl idx = value_ptr T AoS ctrl ext idx ∧
   (0 < size_of (K_ty T) → 0 < size_of (V_ty T) →
    ¬ disjoint (key_ptr T AoS ctrl idx) (size_of (K_ty T)) (value_ptr T AoS ctrl ext idx) (size_of (V_ty T)))).
Proof.
  intros Hk pair. subst pair. cbn [key_ptr value_ptr]. unfold key_ptr_aos, value_ptr_aos, disjoint.
  split_and!; [lia|]. intros Hv. split; [lia|]. lia.
Qed.

(** IPO has the layout of an overflow-bit table with 16-byte groups and no
    overflow bytes. *)
Lemma ipo_layout_eq (T : KvTypes) `{!TypesOk T} (st : KvStorage) (g : Z) :
  fits T 4 16 16 0 g →
  ipo_backward_size T st g = ov_backward_size T st 16 16 g ∧
  ipo_values_offset T st g = ov_values_offset T st 16 0 g ∧
  ipo_combined_layout T st g = ov_combined_layout T st 16 16 16 0 g.
Proof.
  intros Hfit. pose proof (below_bounds T st 4 16 16 0 g Hfit) as Hb.
  destruct (num_slots_small T st 4 16 16 0 g Hfit) as [Hs _].
  assert (ipo_backward_size T st g = ov_backward_size T st 16 16 g) as H1.
  { unfold ipo_backward_size, ov_backward_size.
    rewrite (backward_size_eq T st 4 16 16 0 g Hfit).
    destruct (align_up_spec 4 (g * 16 * size_of (below_ty T st))) as [? ?]; [lia..|].
    change (2 ^ 4) with 16 in *. symmetry. apply (align_up_id 4); first [lia|done]. }
  assert (ipo_values_offset T st g = ov_values_offset T st 16 0 g) as H2.
  { unfold ipo_values_offset, ov_values_offset. unfold wrap64 at 2. rewrite Z.add_0_r.
    unfold wrap64. by rewrite Zmod_mod. }
  split_and!; [done|done|]. unfold ipo_combined_layout, ov_combined_layout. rewrite H1, H2.
  assert (Z.max (alloc_align T st) 16 = alloc_align T st) as ->; [|done].
  destruct st; cbn [alloc_align]; unfold alloc_align_aos, alloc_align_soa; lia.
Qed.

(** ** Metadata first: IPO64 and the legacy table *)

(** Buckets behind the metadata, [gs] of them and [ms] bytes a group, in an
    allocation aligned to [2 ^ la]. *)
Lemma trailing_buckets (T : KvTypes) (num_groups gs ms la p total align gi si : Z) :
  TypesOk T → 0 < gs <= ms → 0 <= la <= 6 → num_groups * ms * (size_of (KV_ty T) + 1) <= 2 ^ 61 →
  let offset := align_up (align_of (KV_ty T)) (wrap64 (num_groups * ms)) in
  from_size_align (Z.max (wrap64 (offset + wrap64 (wrap64 (num_groups * gs) * size_of (KV_ty T)))) (2 ^ la)) (2 ^ la)
    = Some (total, align) →
  (align | p) → 0 <= gi < num_groups → 0 <= si < gs →
  let addr := p + offset + (gi * gs + si) * size_of (KV_ty T) in
  p + num_groups * ms <= addr ∧ addr + size_of (KV_ty T) <= p + total ∧
  (align_of (KV_ty T) <= 2 ^ la → (align_of (KV_ty T) | addr)).
Proof.
  intros Hok Hgs Hla Hsize offset Hl Hp Hgi Hsi addr. subst offset addr.
  pose proof (ty_size (T := KV_ty T)) as Hs0.
  destruct (ty_align_pow (KV_ty T)) as (n & Hn & Heq & Hb1).
  assert (0 <= num_groups * gs <= num_groups * ms) as Hgm by nia.
  assert (0 <= num_groups * gs * size_of (KV_ty T) <= num_groups * ms * size_of (KV_ty T)) as Hns
    by (split; [lia|apply Z.mul_le_mono_nonneg_r; lia]).
  assert ((gi * gs + si + 1) * size_of (KV_ty T) <= num_groups * gs * size_of (KV_ty T)) as Hlast
    by (apply Z.mul_le_mono_nonneg_r; [lia|nia]).
  assert (0 <= (gi * gs + si) * size_of (KV_ty T)) as Hfirst by (apply Z.mul_nonneg_nonneg; nia).
  destruct (align_up_spec n (num_groups * ms)) as [Ho Hd]; [lia..|].
  revert Hl. unfold from_size_align. rewrite Heq. unfold wrap64.
  rewrite (Z.mod_small (num_groups * ms)), (Z.mod_small (num_groups * gs)) by lia.
  rewrite (Z.mod_small (num_groups * gs * size_of (KV_ty T))) by lia.
  rewrite Z.mod_small by lia. destruct (_ <=? _); [|done]. intros [= <- <-].
  split_and!; [lia|lia|]. intros Hle.
  apply Z.divide_add_r; [|apply Z.divide_mul_r; rewrite <- Heq; apply ty_mult].
  apply Z.divide_add_r; [|done]. etransitivity; [|exact Hp]. by apply pow2_le_divide; [lia..|].
Qed.

(** The buckets of IPO64 lie behind the metadata and inside the
    allocation, and are aligned when the pair needs no more than the 64 bytes
    the allocation is aligned to. *)
Theorem ipo64_buckets_sound (T : KvTypes) (num_groups p total align gi si : Z) :
  TypesOk T → num_groups * 64 * (size_of (KV_ty T) + 1) <= 2 ^ 61 →
  ipo64_combined_layout T num_groups = Some (total, align) → (align | p) →
  0 <= gi < num_groups → 0 <= si < 64 →
  let addr := ipo64_bucket_addr T (p + ipo64_bucket_offset T num_groups) gi si in
  p + num_groups * 64 <= addr ∧ addr + size_of (KV_ty T) <= p + total ∧
  (align_of (KV_ty T) <= 64 → (align_of (KV_ty T) | addr)).
Proof.
  intros Hok Hsize Hl Hp Hgi Hsi. destruct (ty_align_pow (KV_ty T)) as (n & _ & Heq & Hb1).
  assert (Z.max (align_of (KV_ty T)) 1 = align_of (KV_ty T)) as Hmax by lia.
  unfold ipo64_combined_layout in Hl. unfold ipo64_bucket_addr, ipo64_bucket_offset in *. rewrite Hmax in Hl |- *.
  apply (trailing_buckets T num_groups 64 64 6 p total align gi si); first [done|lia].
Qed.

(** The legacy table is laid out likewise; its allocation is aligned to 16 bytes. *)
Theorem legacy_buckets_sound (T : KvTypes) (num_groups p total align gi si : Z) :
  TypesOk T → num_groups * 16 * (size_of (KV_ty T) + 1) <= 2 ^ 61 →
  legacy_combined_layout T num_groups = Some (total, align) → (align | p) →
  0 <= gi < num_groups → 0 <= si < 15 →
  let addr := legacy_bucket_addr T (p + legacy_bucket_offset T num_groups) gi si in
  p + num_groups * 16 <= addr ∧ addr + size_of (KV_ty T) <= p + total ∧
  (align_of (KV_ty T) <= 16 → (align_of (KV_ty T) | addr)).
Proof. intros Hok Hsize Hl Hp Hgi Hsi. apply (trailing_buckets T num_groups 15 16 4 p total align gi si); first [done|lia]. Qed.

(** ** Over-aligned types *)

(** [(u8, V)] with [V] of 32 bytes, aligned to 32. *)
Definition u8_simd : KvTypes :=
  {| K_ty := {| size_of := 1; align_of := 1 |}; V_ty := {| size_of := 32; align_of := 32 |};
     KV_ty := {| size_of := 64; align_of := 32 |}; K_off := 32; V_off := 0 |}.

(** [(u8, V)] with [V] aligned to 128. *)
Definition u8_cache2 : KvTypes :=
  {| K_ty := {| size_of := 1; align_of := 1 |}; V_ty := {| size_of := 128; align_of := 128 |};
     KV_ty := {| size_of := 256; align_of := 128 |}; K_off := 128; V_off := 0 |}.

Lemma pow2_ty s n : 0 <= n <= 29 → 0 <= s → (2 ^ n | s) → TyOk {| size_of := s; align_of := 2 ^ n |}.
Proof. intros. split; [by exists n|done|done]. Qed.

#[export] Instance u8_simd_ok : TypesOk u8_simd.
Proof.
  split; cbn [u8_simd K_ty V_ty KV_ty K_off V_off size_of align_of].
  - apply (pow2_ty 1 0); [lia|lia|by exists 1].
  - apply (pow2_ty 32 5); [lia|lia|by exists 1].
  - apply (pow2_ty 64 5); [lia|lia|by exists 2].
  - split_and!; [lia|lia|by exists 32].
  - split_and!; [lia|lia|by exists 0].
  - split; [by exists 32|by exists 1].
  - right. lia.
Qed.

#[export] Instance u8_cache2_ok : TypesOk u8_cache2.
Proof.
  split; cbn [u8_cache2 K_ty V_ty KV_ty K_off V_off size_of align_of].
  - apply (pow2_ty 1 0); [lia|lia|by exists 1].
  - apply (pow2_ty 128 7); [lia|lia|by exists 1].
  - apply (pow2_ty 256 7); [lia|lia|by exists 2].
  - split_and!; [lia|lia|by exists 128].
  - split_and!; [lia|lia|by exists 0].
  - split; [by exists 128|by exists 1].
  - right. lia.
Qed.

(** Over-aligned types break the alignment.  In the one-group [SoaMap] and
    [SoaIpo] of [u8] keys and 32-aligned values the first value is misaligned
    at every base address the allocator may return; in an IPO64 table of
    128-aligned pairs, and in a legacy table of 32-aligned ones, the first
    bucket is misaligned at some. *)
Theorem overaligned_values_misaligned :
  (ov_combined_layout u8_simd SoA 16 16 16 1 1 = Some (560, 32) ∧
   ipo_combined_layout u8_simd SoA 1 = Some (560, 32) ∧
   ∀ p, (32 | p) →
     ¬ (32 | value_ptr u8_simd SoA (p + ov_backward_size u8_simd SoA 16 16 1)
               (init_extra (p + ov_backward_size u8_simd SoA 16 16 1)
                  (ov_values_offset u8_simd SoA 16 1 1)) 0) ∧
     ¬ (32 | value_ptr u8_simd SoA (p + ipo_backward_size u8_simd SoA 1)
               (init_extra (p + ipo_backward_size u8_simd SoA 1)
                  (ipo_values_offset u8_simd SoA 1)) 0)) ∧
  (∃ total, ipo64_combined_layout u8_cache2 1 = Some (total, 64) ∧
   ∃ p, (64 | p) ∧
     ¬ (128 | ipo64_bucket_addr u8_cache2 (p + ipo64_bucket_offset u8_cache2 1) 0 0)) ∧
  (∃ total, legacy_combined_layout u8_simd 1 = Some (total, 16) ∧
   ∃ p, (16 | p) ∧
     ¬ (32 | legacy_bucket_addr u8_simd (p + legacy_bucket_offset u8_simd 1) 0 0)).
Proof.
  split; [|split].
  - split_and!; [reflexivity|reflexivity|]. intros p [q ->].
    change (ov_backward_size u8_simd SoA 16 16 1) with 16.
    change (ov_values_offset u8_simd SoA 16 1 1) with 32.
    change (ipo_backward_size u8_simd SoA 1) with 16.
    change (ipo_values_offset u8_simd SoA 1) with 32.
    cbn [value_ptr]. unfold value_ptr_soa, init_extra. split; intros [r Hr]; lia.
  - eexists. split; [reflexivity|]. exists 64. split; [by exists 1|].
    change (ipo64_bucket_offset u8_cache2 1) with 128. unfold ipo64_bucket_addr.
    intros [r Hr]. cbn [u8_cache2 KV_ty size_of] in Hr. lia.
  - eexists. split; [reflexivity|]. exists 16. split; [by exists 1|].
    change (legacy_bucket_offset u8_simd 1) with 32. unfold legacy_bucket_addr.
    intros [r Hr]. cbn [u8_simd KV_ty size_of] in Hr. lia.
Qed.

(** ** Instances: four [SplitsiesLayout] groups of [(u8, V)] *)

Lemma demo_fits : fits u8_simd 4 16 16 4 4.
Proof. split; cbn; lia. Qed.

(** [(u64, u8)]: the key is first. *)
Definition u64_u8 : KvTypes :=
  {| K_ty := {| size_of := 8; align_of := 8 |}; V_ty := {| size_of := 1; align_of := 1 |};
     KV_ty := {| size_of := 16; align_of := 8 |}; K_off := 0; V_off := 8 |}.

#[export] Instance u64_u8_ok : TypesOk u64_u8.
Proof.
  split; cbn [u64_u8 K_ty V_ty KV_ty K_off V_off size_of align_of].
  - apply (pow2_ty 8 3); [lia|lia|by exists 1].
  - apply (pow2_ty 1 0); [lia|lia|by exists 1].
  - apply (pow2_ty 16 3); [lia|lia|by exists 2].
  - split_and!; [lia|lia|by exists 0].
  - split_and!; [lia|lia|by exists 8].
  - split; [by exists 1|by exists 8].
  - left. lia.
Qed.

Lemma u64_u8_fits : fits u64_u8 4 16 16 4 4.
Proof. split; cbn; lia. Qed.

Lemma slots_disjoint_in_bounds_witness :
  let ctrl := 4096 + ov_backward_size u64_u8 AoS (2 ^ 4) 16 4 in
  let ext := init_extra ctrl (ov_values_offset u64_u8 AoS 16 4 4) in
  disjoint (key_ptr u64_u8 AoS ctrl 5) 8 (value_ptr u64_u8 AoS ctrl ext 5) 1.
Proof.
  destruct (slots_disjoint_in_bounds u64_u8 AoS 4 16 16 4 4 u64_u8_fits 4096 1092 16 5)
    as (_ & _ & _ & _ & _ & _ & _ & H); [reflexivity|reflexivity|lia|]. apply (H 5). lia.
Defined.

Lemma key_ptr_misses_key_witness :
  K_off u8_simd = 32 ∧ ¬ disjoint (key_ptr u8_simd AoS 4096 0) 1 (value_ptr u8_simd AoS 4096 0 0) 32.
Proof.
  split; [reflexivity|].
  destruct (key_ptr_misses_key u8_simd 4096 0 0) as [_ H]; [discriminate|]. apply H; reflexivity.
Defined.

Lemma slots_aligned_witness :
  (32 | value_ptr u8_simd AoS (4096 + ov_backward_size u8_simd AoS (2 ^ 4) 16 4)
          (init_extra (4096 + ov_backward_size u8_simd AoS (2 ^ 4) 16 4)
             (ov_values_offset u8_simd AoS 16 4 4)) 3).
Proof.
  apply (slots_aligned u8_simd AoS 4 16 16 4 4 demo_fits 4096 4164 32 3);
    [reflexivity|by exists 128|by left].
Defined.

Lemma ipo64_buckets_sound_witness :
  let addr := ipo64_bucket_addr u8_simd (4096 + ipo64_bucket_offset u8_simd 2) 1 7 in
  4096 + 2 * 64 <= addr ∧ addr + 64 <= 4096 + 8320 ∧ (32 <= 64 → (32 | addr)).
Proof.
  apply (ipo64_buckets_sound u8_simd 2 4096 8320 64 1 7); [apply u8_simd_ok|..];
    first [reflexivity|cbn; lia|by exists 64].
Defined.

Lemma legacy_buckets_sound_witness :
  let addr := legacy_bucket_addr u8_cache2 (4096 + legacy_bucket_offset u8_cache2 2) 1 7 in
  4096 + 2 * 16 <= addr ∧ addr + 256 <= 4096 + 7808 ∧ (128 <= 16 → (128 | addr)).
Proof.
  apply (legacy_buckets_sound u8_cache2 2 4096 7808 16 1 7); [apply u8_cache2_ok|..];
    first [reflexivity|cbn; lia|by exists 256].
Defined.
