(* ===== verification/PerfectHash.v ===== *)
(** * Perfect hash functions

    [perfect/phf.rs] and [perfect/util.rs]: the trait of the perfect hash
    functions with what it promises, the mixer, the bucket projection and the
    duplicate check that both families share. *)

From Stdlib Require Import ZArith Lia.
From stdpp Require Import sorting.
From S2P Require Import Prelude.

(** ** Outcomes of a construction

    [Ok] and [Err] are the code's [Result]; [Panic] is a failed assertion, an
    index out of range or an [expect] on [None].  [debug_assert]s count as
    assertions: the theorems show that they hold. *)

(*@ perfect/phf.rs : pub enum BuildError *)
Inductive BuildError := Exhausted | DuplicateHash.

Inductive Result (A : Type) :=
  | Ok (a : A)
  | Err (e : BuildError)
  | Panic.
Arguments Ok {A}.
Arguments Err {A}.
Arguments Panic {A}.

#[export] Instance BuildError_eq_dec : EqDecision BuildError.
Proof. solve_decision. Defined.

(** The [?] operator. *)
Definition try {A B} (r : Result A) (f : A → Result B) : Result B :=
  match r with Ok a => f a | Err e => Err e | Panic => Panic end.

(** [assert!] and [.expect] *)
Definition assert_then {A} (b : bool) (r : Result A) : Result A := if b then r else Panic.

Definition expect {A} (o : option A) : Result A :=
  match o with Some a => Ok a | None => Panic end.

Fixpoint expect_all {A} (l : list (option A)) : Result (list A) :=
  match l with
  | [] => Ok []
  | o :: l' => try (expect o) (λ a, try (expect_all l') (λ l'', Ok (a :: l'')))
  end.

Lemma try_ok {A B} (r : Result A) (f : A → Result B) b :
  try r f = Ok b ↔ ∃ a, r = Ok a ∧ f a = Ok b.
Proof. destruct r; simpl; naive_solver. Qed.

Lemma expect_all_ok {A} (l : list (option A)) :
  Forall is_Some l → ∃ l', expect_all l = Ok l' ∧ l = Some <$> l'.
Proof.
  induction 1 as [|o l [a ->] _ (l' & E & ->)]; [by exists []|].
  exists (a :: l'). simpl. by rewrite E.
Qed.

(** ** The mixer *)

Definition xorshift (x n : Z) : Z := Z.lxor x (Z.shiftr x n).

(*@ perfect/util.rs : pub(super) fn mix *)
Definition mix (h seed : Z) : Z :=
  let x := Z.lxor h seed in
  let x := wrapping_mul64 x 0xbf58476d1ce4e5b9 in
  let x := xorshift x 30 in
  let x := wrapping_mul64 x 0x94d049bb133111eb in
  xorshift x 31.

(*@ perfect/util.rs : pub(super) fn bucket_of *)
Definition bucket_of (h seed : Z) (r : nat) : nat :=
  let mixed := mix h seed in Z.to_nat (Z.shiftr mixed 32 mod Z.of_nat r).

Lemma mod_to_nat_lt (x : Z) (m : nat) : 0 < m → Z.to_nat (x mod Z.of_nat m) < m.
Proof. intros Hm. pose proof (Z.mod_pos_bound x (Z.of_nat m)). lia. Qed.

Lemma bucket_of_lt h seed r : 0 < r → bucket_of h seed r < r.
Proof. apply mod_to_nat_lt. Qed.

(** ** The duplicate check *)

(** [windows(2).any(|w| w[0] == w[1])] *)
Fixpoint adjacent_equal (l : list Z) : bool :=
  match l with
  | x :: l' => (match l' with y :: _ => (x =? y)%Z | [] => false end) || adjacent_equal l'
  | [] => false
  end.

(*@ perfect/util.rs : pub(super) fn has_duplicate *)
Definition has_duplicate (hashes : list Z) : bool :=
  let sorted := merge_sort Z.le hashes in adjacent_equal sorted.

Lemma adjacent_equal_sorted l : Sorted Z.le l → adjacent_equal l = false ↔ NoDup l.
Proof.
  intros Hs. apply Sorted_StronglySorted in Hs; [|intros ???; lia].
  induction Hs as [|x l Hs IH Hx]; simpl; [split; [constructor|done]|].
  rewrite NoDup_cons, orb_false_iff, IH. apply and_iff_compat_r.
  destruct l as [|y l]; [split; [intros _ Hin; by apply not_elem_of_nil in Hin|done]|].
  apply Forall_cons in Hx as [Hxy Hx]. inversion Hs as [|? ? _ Hy]; subst.
  rewrite Z.eqb_neq, elem_of_cons. split.
  - intros Hne [Heq|Hin]; [done|]. rewrite Forall_forall in Hy. specialize (Hy x Hin). lia.
  - intros Hn Heq. apply Hn. by left.
Qed.

Lemma has_duplicate_spec hashes : has_duplicate hashes = false ↔ NoDup hashes.
Proof.
  unfold has_duplicate. rewrite adjacent_equal_sorted.
  - by rewrite merge_sort_Permutation.
  - apply Sorted_merge_sort. intros x y. lia.
Qed.

(** ** The trait *)

(*@ perfect/phf.rs : pub trait PerfectHashFunction *)
Class PerfectHashFunction (P : Type) := {
  phf_build : list Z → nat → Result P;
  phf_index : P → Z → nat;
  phf_capacity : P → nat;
}.

(** What the trait's documentation promises. *)
Class PhfLaws (P : Type) `{PerfectHashFunction P} := {
  phf_build_total hashes m : length hashes <= m → (Z.of_nat m < 2 ^ 32)%Z → phf_build hashes m ≠ Panic;
  phf_build_ok hashes m p :
    phf_build hashes m = Ok p →
    phf_capacity p = m ∧ length hashes <= m ∧ (∀ h, 0 < m → phf_index p h < m) ∧
    NoDup hashes ∧ NoDup (phf_index p <$> hashes);
  phf_build_duplicate hashes m :
    phf_build hashes m = Err DuplicateHash → ¬ NoDup hashes;
}.

Notation "'let?' x := a 'in' b" := (try a (λ x, b))
  (at level 200, x pattern, a at level 100, b at level 200, right associativity).
