(* ===== verification/Chd.v ===== *)
(** * CHD perfect hashing: definitions

    [perfect/chd.rs]: keys are hashed into buckets; the buckets, largest
    first, each search a displacement that sends their keys to free slots. *)

From Stdlib Require Import ZArith Lia.
From stdpp Require Import sorting.
From S2P Require Export PerfectHash.
From S2P Require Import Prelude.

(*@ perfect/chd.rs : 24-38 : DEFAULT_LAMBDA, MAX_SEED_RETRIES, MAX_DISPLACEMENT *)
Definition DEFAULT_LAMBDA : nat := 5.
Definition MAX_SEED_RETRIES : nat := 32.
Definition MAX_DISPLACEMENT : Z := 2 ^ 24.
Definition SEED_BASE : Z := 0xD6E8FEB86659FD93.

(** Unsigned overflow of [wrapping_add]. *)
Definition wrapping_add64 (a b : Z) : Z := wrap64 (a + b).

(*@ perfect/chd.rs : fn slot_of *)
Definition slot_of (h seed d : Z) (m : nat) : nat :=
  let x := Z.lxor h (wrapping_add64 seed 0x9E3779B97F4A7C15) in
  let x := wrapping_add64 x (wrapping_mul64 d 0xBF58476D1CE4E5B9) in
  let x := wrapping_mul64 x 0x94D049BB133111EB in
  let x := xorshift x 31 in
  let x := wrapping_mul64 x 0xBF58476D1CE4E5B9 in
  let x := xorshift x 32 in
  Z.to_nat (x mod Z.of_nat m).

(** The build profile only measures; it is not modelled. *)
(*@ perfect/chd.rs : pub struct ChdPhf *)
Record ChdPhf := { chd_seed : Z; displacements : list Z; chd_m : nat }.

(*@ perfect/chd.rs : fn bitset_test *)
Definition bitset_test (bits : list Z) (i : nat) : bool :=
  negb (Z.land (default 0%Z (bits !! (i / 64)%nat)) (Z.shiftl 1 (Z.of_nat (i mod 64))) =? 0)%Z.

(*@ perfect/chd.rs : fn bitset_set *)
Definition bitset_set (bits : list Z) (i : nat) : list Z :=
  alter (λ w, Z.lor w (Z.shiftl 1 (Z.of_nat (i mod 64)))) (i / 64) bits.

(** ** One attempt under a fixed seed *)

Section attempt.
Context (hashes : list Z) (m r : nat) (seed : Z).

(** Phase 1: the bucket of each key and the bucket sizes. *)
Definition assign_buckets : list nat * list nat :=
  foldl (λ '(bucket_of_key, bucket_sizes) h,
           let b := bucket_of h seed r in (bucket_of_key ++ [b], alter S b bucket_sizes))
        ([], replicate r 0) hashes.

(** Phase 2: counting sort of the key indices by bucket. *)
Definition prefix_sums (sizes : list nat) : list nat :=
  let '(bucket_start, acc) := foldl (λ '(bs, acc) sz, (bs ++ [acc], acc + sz)) ([], 0) sizes in
  bucket_start ++ [acc].

Definition scatter (bucket_of_key : list nat) (bucket_start : list nat) : list nat :=
  (foldl (λ '(bucket_keys, cursor, i) b,
            let pos := default 0 (cursor !! b) in
            (<[pos := i]> bucket_keys, alter S b cursor, S i))
         (replicate (length hashes) 0, take r bucket_start, 0) bucket_of_key).1.1.

(** Phase 4: the slots of a bucket's keys under displacement [d], or [None]
    when one of them is taken. *)
Fixpoint try_keys (occupied : list Z) (keys : list nat) (d : Z) (tentative : list nat) :
    option (list nat) :=
  match keys with
  | [] => Some tentative
  | ki :: keys' =>
      let h := default 0%Z (hashes !! ki) in
      let s := slot_of h seed d m in
      if bitset_test occupied s || bool_decide (s ∈ tentative) then None
      else try_keys occupied keys' d (tentative ++ [s])
  end.

(** What a pass of the loop over [d] ends with. *)
Inductive Search := Placed (d : Z) (tentative : list nat) | Stuck.

(** [cancelled]: what the load of the cancellation flag at [d] reads; it is
    made every 64 displacements. *)
Definition try_displacement (cancelled : Z → bool) (occupied : list Z) (keys : list nat) (d : Z) :
    option Search :=
  if (MAX_DISPLACEMENT <? d)%Z then Some Stuck
  else if (Z.land d 63 =? 0)%Z && cancelled d then Some Stuck
  else match try_keys occupied keys d [] with
       | Some tentative => Some (Placed d tentative)
       | None => None
       end.
End attempt.

(** A loop that counts up until its body breaks, for at most [n] passes. *)
Fixpoint count_up {A} (n : positive) (body : Z → option A) (d : Z) : option A :=
  match n with
  | xH => body d
  | xO n' =>
      match count_up n' body d with
      | Some a => Some a
      | None => count_up n' body (d + Zpos n')
      end
  | xI n' =>
      match body d with
      | Some a => Some a
      | None =>
          match count_up n' body (d + 1) with
          | Some a => Some a
          | None => count_up n' body (d + 1 + Zpos n')
          end
      end
  end.

(** [MAX_DISPLACEMENT + 2] passes: the last one stops at the bound. *)
Definition search_passes : positive := 0x1000002.

Section build.
(** [order.sort_unstable_by(...)]: indices by descending size, with ties in
    any order. *)
Context (sort_by_size : list nat → list nat → list nat).

(** The loop over the ordered buckets. *)
Fixpoint place_buckets (hashes : list Z) (m : nat) (seed : Z) (cancelled : nat → Z → bool)
    (bucket_sizes bucket_start bucket_keys : list nat) (order : list nat)
    (occupied displacements : list Z) : Result (list Z) :=
  match order with
  | [] => Ok displacements
  | b :: order' =>
      let sz := default 0 (bucket_sizes !! b) in
      if sz =? 0 then
        place_buckets hashes m seed cancelled bucket_sizes bucket_start bucket_keys order'
          occupied displacements
      else
        let lo := default 0 (bucket_start !! b) in
        let hi := default 0 (bucket_start !! S b) in
        let keys_in_bucket := take (hi - lo) (drop lo bucket_keys) in
        match count_up search_passes
                (try_displacement hashes m seed (cancelled b) occupied keys_in_bucket) 0 with
        | Some (Placed d tentative) =>
            assert_then (length tentative =? sz)
              (place_buckets hashes m seed cancelled bucket_sizes bucket_start bucket_keys order'
                 (foldl bitset_set occupied tentative) (<[b := d]> displacements))
        | Some Stuck => Err Exhausted
        | None => Panic
        end
  end.

(*@ perfect/chd.rs : fn try_build_seed *)
Definition try_build_seed (hashes : list Z) (m r : nat) (seed : Z) (cancelled : nat → Z → bool) :
    Result (list Z) :=
  let '(bucket_of_key, bucket_sizes) := assign_buckets hashes r seed in
  let bucket_start := prefix_sums bucket_sizes in
  let bucket_keys := scatter hashes r bucket_of_key bucket_start in
  let order := sort_by_size bucket_sizes (seq 0 r) in
  place_buckets hashes m seed cancelled bucket_sizes bucket_start bucket_keys order
    (replicate ((m + 63) / 64) 0%Z) (replicate r 0%Z).

Definition chd_seed_of (seed_try : nat) : Z := wrapping_add64 SEED_BASE (Z.of_nat seed_try).

(** The loop over [0..MAX_SEED_RETRIES]. *)
Fixpoint try_seeds (hashes : list Z) (m r : nat) (seeds : list nat) : Result ChdPhf :=
  match seeds with
  | [] => Err Exhausted
  | seed_try :: seeds' =>
      let seed := chd_seed_of seed_try in
      match try_build_seed hashes m r seed (λ _ _, false) with
      | Ok disp => Ok {| chd_seed := seed; displacements := disp; chd_m := m |}
      | Err DuplicateHash => Err DuplicateHash
      | Err Exhausted => try_seeds hashes m r seeds'
      | Panic => Panic
      end
  end.

(** The checks before the loops, shared by both builds. *)
Definition checked (hashes : list Z) (m : nat) (k : nat → Result ChdPhf) : Result ChdPhf :=
  let n := length hashes in
  assert_then (n <=? m) (assert_then (Z.of_nat m <? 2 ^ 32)%Z
    (if n =? 0 then Ok {| chd_seed := 0; displacements := []; chd_m := m |}
     else if has_duplicate hashes then Err DuplicateHash
     else k (max ((n + DEFAULT_LAMBDA - 1) / DEFAULT_LAMBDA) 1))).

(*@ perfect/chd.rs : pub fn build_with_profile *)
Definition chd_build (hashes : list Z) (m : nat) : Result ChdPhf :=
  checked hashes m (λ r, try_seeds hashes m r (seq 0 MAX_SEED_RETRIES)).

(** With the feature [parallel-build] the seeds run concurrently: any seed that
    succeeds may win, under any cancellation of the others, and the build is
    exhausted only when every seed is. *)
Definition par_seeds (hashes : list Z) (m r : nat) (res : Result ChdPhf) : Prop :=
  (∃ seed_try cancelled disp, seed_try < MAX_SEED_RETRIES ∧
     try_build_seed hashes m r (chd_seed_of seed_try) cancelled = Ok disp ∧
     res = Ok {| chd_seed := chd_seed_of seed_try; displacements := disp; chd_m := m |}) ∨
  (res = Err Exhausted ∧ ∀ seed_try, seed_try < MAX_SEED_RETRIES →
     ∃ cancelled, try_build_seed hashes m r (chd_seed_of seed_try) cancelled = Err Exhausted).

Definition par_build (hashes : list Z) (m : nat) (res : Result ChdPhf) : Prop :=
  ∃ k, res = checked hashes m k ∧ ∀ r, par_seeds hashes m r (k r).
End build.

(*@ perfect/chd.rs : fn index *)
Definition chd_index (p : ChdPhf) (hash : Z) : nat :=
  if chd_m p =? 0 then 0
  else
    let r := length (displacements p) in
    let bucket := bucket_of hash (chd_seed p) r in
    let d := default 0%Z (displacements p !! bucket) in
    slot_of hash (chd_seed p) d (chd_m p).

(** [order.sort_unstable_by] as one of the sorts it may be. *)
Definition size_ge (sizes : list nat) (a b : nat) : Prop :=
  default 0 (sizes !! b) <= default 0 (sizes !! a).

#[export] Instance size_ge_dec sizes a b : Decision (size_ge sizes a b).
Proof. unfold size_ge. apply _. Defined.

Definition sort_by_size (sizes order : list nat) : list nat := merge_sort (size_ge sizes) order.

(** ** CHD perfect hashing: correctness *)

(** A construction that succeeds gives every input hash a slot of its own,
    whatever order equal-sized buckets are processed in and whichever seed wins
    a concurrent build. *)

(** ** The counting loop *)

Lemma count_up_some {A} n (body : Z → option A) d a :
  count_up n body d = Some a → ∃ i, (0 <= i < Zpos n)%Z ∧ body (d + i)%Z = Some a.
Proof.
  revert d. induction n as [n IH|n IH|]; intros d; cbn [count_up].
  - destruct (body d) eqn:E0; [intros [= <-]; exists 0%Z; rewrite Z.add_0_r; split; [lia|done]|].
    destruct (count_up n body (d + 1)) as [a1|] eqn:E1.
    + intros [= ->]. apply IH in E1 as (i & ? & ?). exists (1 + i)%Z.
      split; [lia|]. by rewrite Z.add_assoc.
    + intros E2. apply IH in E2 as (i & ? & ?). exists (1 + Zpos n + i)%Z.
      split; [lia|]. by rewrite !Z.add_assoc.
  - destruct (count_up n body d) as [a1|] eqn:E1.
    + intros [= ->]. apply IH in E1 as (i & ? & ?). exists i. split; [lia|done].
    + intros E2. apply IH in E2 as (i & ? & ?). exists (Zpos n + i)%Z.
      split; [lia|]. by rewrite Z.add_assoc.
  - intros E. exists 0%Z. rewrite Z.add_0_r. split; [lia|done].
Qed.

Lemma count_up_none {A} n (body : Z → option A) d :
  count_up n body d = None → ∀ i, (0 <= i < Zpos n)%Z → body (d + i)%Z = None.
Proof.
  revert d. induction n as [n IH|n IH|]; intros d; cbn [count_up].
  - destruct (body d) eqn:E0; [done|].
    destruct (count_up n body (d + 1)) as [a1|] eqn:E1; [done|]. intros E2 i Hi.
    destruct (decide (i = 0%Z)) as [->|]; [by rewrite Z.add_0_r|].
    destruct (decide (i <= Zpos n)%Z).
    + replace (d + i)%Z with (d + 1 + (i - 1))%Z by lia. apply (IH _ E1). lia.
    + replace (d + i)%Z with (d + 1 + Zpos n + (i - 1 - Zpos n))%Z by lia. apply (IH _ E2). lia.
  - destruct (count_up n body d) as [a1|] eqn:E1; [done|]. intros E2 i Hi.
    destruct (decide (i < Zpos n)%Z); [apply (IH _ E1); lia|].
    replace (d + i)%Z with (d + Zpos n + (i - Zpos n))%Z by lia. apply (IH _ E2). lia.
  - intros E i Hi. by replace (d + i)%Z with d by lia.
Qed.

(** ** The occupied set *)

Lemma land_pow2_testbit (x : Z) (k : nat) :
  negb (Z.land x (Z.shiftl 1 (Z.of_nat k)) =? 0)%Z = Z.testbit x (Z.of_nat k).
Proof.
  rewrite Z.shiftl_1_l. destruct (Z.testbit x (Z.of_nat k)) eqn:E.
  - apply negb_true_iff, Z.eqb_neq. intros H0.
    assert (Z.testbit (Z.land x (2 ^ Z.of_nat k)) (Z.of_nat k) = true) as Hb.
    { rewrite Z.land_spec, E, Z.pow2_bits_true by lia. done. }
    by rewrite H0, Z.bits_0 in Hb.
  - apply negb_false_iff, Z.eqb_eq, Z.bits_inj'. intros i Hi.
    rewrite Z.land_spec, Z.bits_0, Z.pow2_bits_eqb by lia.
    destruct (Z.eqb_spec (Z.of_nat k) i) as [<-|]; [by rewrite E|by rewrite andb_false_r].
Qed.

Lemma bitset_test_set bits i j :
  i / 64 < length bits → j / 64 < length bits →
  bitset_test (bitset_set bits i) j = bool_decide (j = i) || bitset_test bits j.
Proof.
  intros Hi Hj. unfold bitset_test, bitset_set. rewrite !land_pow2_testbit.
  pose proof (Nat.div_mod_eq i 64). pose proof (Nat.div_mod_eq j 64).
  destruct (decide (i / 64 = j / 64)) as [Heq|Hne].
  - rewrite <- Heq, list_lookup_alter_eq. apply lookup_lt_is_Some in Hi as [w ->]. cbn -[Nat.modulo Nat.div].
    rewrite Z.lor_spec, Z.shiftl_1_l, Z.pow2_bits_eqb by lia. rewrite orb_comm. f_equal.
    destruct (Z.eqb_spec (Z.of_nat (i mod 64)) (Z.of_nat (j mod 64)));
      symmetry; [apply bool_decide_true; lia|apply bool_decide_false; intros ->; lia].
  - rewrite list_lookup_alter_ne by done. rewrite bool_decide_false by congruence. done.
Qed.

Lemma bitset_set_length bits i : length (bitset_set bits i) = length bits.
Proof. apply length_alter. Qed.

Lemma bitset_set_all bits l j :
  Forall (λ i, i / 64 < length bits) l → j / 64 < length bits →
  bitset_test (foldl bitset_set bits l) j = bool_decide (j ∈ l) || bitset_test bits j.
Proof.
  revert bits. induction l as [|i l IH]; intros bits Hl Hj; [done|].
  apply Forall_cons in Hl as [Hi Hl]. cbn [foldl]. rewrite IH by by rewrite bitset_set_length.
  rewrite bitset_test_set, orb_assoc by done. f_equal.
  apply eq_iff_eq_true. rewrite orb_true_iff, !bool_decide_eq_true, elem_of_cons. naive_solver.
Qed.

Lemma bitset_fold_length bits l : length (foldl bitset_set bits l) = length bits.
Proof. revert bits. induction l as [|i l IH]; intros bits; [done|]. simpl. by rewrite IH, bitset_set_length. Qed.

(** ** Buckets and the counting sort *)

Lemma default_Some {A} (d x : A) : default d (Some x) = x.
Proof. done. Qed.

(** The key indices below [n] that [bok] sends to bucket [b]. *)
Definition members (bok : list nat) (b n : nat) : list nat :=
  filter (λ i, bok !! i = Some b) (seq 0 n).

Lemma members_S bok b n :
  members bok b (S n) = members bok b n ++ (if decide (bok !! n = Some b) then [n] else []).
Proof.
  unfold members. by rewrite seq_S, filter_app.
Qed.

Lemma members_mono bok b n m : n <= m → length (members bok b n) <= length (members bok b m).
Proof.
  induction 1 as [|m _ IH]; [done|]. rewrite members_S, length_app. lia.
Qed.

Lemma members_app bok b x n :
  n <= length bok → members (bok ++ [x]) b n = members bok b n.
Proof.
  intros Hn. induction n as [|n IH]; [done|]. rewrite !members_S, IH by lia.
  by rewrite lookup_app_l by lia.
Qed.

Lemma elem_of_members bok b n i : i ∈ members bok b n ↔ bok !! i = Some b ∧ i < n.
Proof. unfold members. rewrite list_elem_of_filter, elem_of_seq. split; intros [? ?]; split; auto; lia. Qed.

Lemma members_NoDup bok b n : NoDup (members bok b n).
Proof. apply NoDup_filter, NoDup_seq. Qed.

(** Replacing an entry by its successor. *)
Lemma lookup_alter_S (l : list nat) i j x :
  l !! j = Some x → alter S i l !! j = Some (if decide (i = j) then S x else x).
Proof.
  intros Hj. destruct (decide (i = j)) as [<-|].
  - by rewrite list_lookup_alter_eq, Hj.
  - by rewrite list_lookup_alter_ne.
Qed.

Lemma sum_alter_S (l : list nat) i : i < length l → sum_list (alter S i l) = S (sum_list l).
Proof.
  revert i. induction l as [|x l IH]; intros i Hi; [simpl in Hi; lia|].
  destruct i as [|i]; cbn; [done|]. rewrite (IH i) by (simpl in Hi; lia). lia.
Qed.

Lemma assign_buckets_spec hashes r seed :
  0 < r →
  let bok := (λ h, bucket_of h seed r) <$> hashes in
  ∃ sizes, assign_buckets hashes r seed = (bok, sizes) ∧ length sizes = r ∧
    sum_list sizes = length hashes ∧ ∀ b, b < r → sizes !! b = Some (length (members bok b (length hashes))).
Proof.
  intros Hr. cbv zeta. unfold assign_buckets.
  induction hashes as [|h hashes IH] using rev_ind.
  - exists (replicate r 0). rewrite length_replicate. split_and!; [done|done|rewrite sum_list_replicate; simpl; lia|].
    intros b Hb. by rewrite lookup_replicate_2.
  - rewrite foldl_app. destruct IH as (sizes & -> & Hl & Hsum & Hs). cbn [foldl].
    rewrite fmap_app. eexists. split; [reflexivity|]. rewrite length_alter. split; [done|].
    rewrite sum_alter_S, length_app by (rewrite Hl; by apply bucket_of_lt).
    split; [rewrite Hsum; simpl; lia|].
    intros b Hb. rewrite (lookup_alter_S _ _ _ _ (Hs b Hb)), Nat.add_1_r. f_equal.
    rewrite members_S, length_app. cbn [fmap list_fmap].
    rewrite members_app by by rewrite length_fmap. rewrite lookup_app_r by (by rewrite length_fmap).
    rewrite length_fmap, Nat.sub_diag. cbn [lookup list_lookup].
    destruct (decide (bucket_of h seed r = b)), (decide (Some _ = Some b));
      cbn [length]; try congruence; lia.
Qed.

Lemma prefix_sums_spec sizes :
  length (prefix_sums sizes) = S (length sizes) ∧
  ∀ b, b <= length sizes → prefix_sums sizes !! b = Some (sum_list (take b sizes)).
Proof.
  unfold prefix_sums.
  assert (∃ bs, foldl (λ '(bs, acc) sz, (bs ++ [acc], acc + sz)) ([], 0) sizes = (bs, sum_list sizes) ∧
    length bs = length sizes ∧ ∀ b, b < length sizes → bs !! b = Some (sum_list (take b sizes)))
    as (bs & -> & Hl & Hbs).
  { induction sizes as [|sz sizes IH] using rev_ind; [by exists []; split_and!; [..|intros b Hb; simpl in Hb; lia]|].
    destruct IH as (bs & E & Hl & Hbs). rewrite foldl_app, E. simpl. eexists. split; [f_equal|].
    - rewrite sum_list_with_app. simpl. lia.
    - rewrite !length_app. simpl. split; [lia|]. intros b Hb.
      destruct (decide (b < length sizes)).
      + rewrite lookup_app_l, Hbs by lia. by rewrite take_app_le by lia.
      + assert (b = length bs) as -> by lia. rewrite lookup_app_r, Nat.sub_diag by lia. simpl.
        by rewrite Hl, take_app_length. }
  rewrite length_app. simpl. split; [lia|]. intros b Hb.
  destruct (decide (b < length sizes)).
  - rewrite lookup_app_l by lia. by apply Hbs.
  - assert (b = length bs) as -> by lia. rewrite lookup_app_r, Nat.sub_diag by lia. simpl.
    by rewrite Hl, take_ge.
Qed.

Lemma sum_take_S (sizes : list nat) b sz :
  sizes !! b = Some sz → sum_list (take (S b) sizes) = sum_list (take b sizes) + sz.
Proof. intros Hb. rewrite (take_S_r _ _ _ Hb), sum_list_with_app. simpl. lia. Qed.

Lemma sum_take_mono (sizes : list nat) b c : b <= c → sum_list (take b sizes) <= sum_list (take c sizes).
Proof.
  intros Hbc. rewrite <- (take_drop b (take c sizes)), take_take, Nat.min_l, sum_list_with_app by done. lia.
Qed.

Section scatter.
Context (hashes : list Z) (r : nat) (bok sizes : list nat).
Hypothesis Hlen : length bok = length hashes.
Hypothesis Hbok : ∀ k b, bok !! k = Some b → b < r.
Hypothesis Hsl : length sizes = r.
Hypothesis Hsum : sum_list sizes = length hashes.
Hypothesis Hsizes : ∀ b, b < r → sizes !! b = Some (length (members bok b (length hashes))).

Abbreviation n := (length hashes).
Abbreviation start b := (sum_list (take b sizes)).

Lemma start_S b : b < r → start (S b) = start b + length (members bok b n).
Proof using All. intros Hb. by apply sum_take_S, Hsizes. Qed.

Lemma start_le b : start b <= n.
Proof using All.
  rewrite <- Hsum. rewrite <- (firstn_all sizes) at 2.
  destruct (Nat.le_ge_cases b (length sizes)); [by apply sum_take_mono|by rewrite take_ge, firstn_all].
Qed.

(** Positions of different buckets differ. *)
Lemma position_inj b c i j :
  b < r → c < r → b ≠ c → i < length (members bok b n) → j < length (members bok c n) →
  start b + i ≠ start c + j.
Proof using All.
  intros Hb Hc Hne Hi Hj. pose proof (start_S b Hb). pose proof (start_S c Hc).
  destruct (Nat.lt_ge_cases b c).
  - pose proof (sum_take_mono sizes (S b) c ltac:(lia)). lia.
  - pose proof (sum_take_mono sizes (S c) b ltac:(lia)). lia.
Qed.

Definition scattered (k : nat) (st : list nat * list nat * nat) : Prop :=
  let '(bk, cur, i) := st in
  i = k ∧ length bk = n ∧
  (∀ b, b < r → cur !! b = Some (start b + length (members bok b k))) ∧
  (∀ b j x, b < r → members bok b k !! j = Some x → bk !! (start b + j) = Some x).

Lemma scatter_step k b st :
  bok !! k = Some b → scattered k st →
  scattered (S k)
    (let '(bk, cur, i) := st in
     let pos := default 0 (cur !! b) in (<[pos := i]> bk, alter S b cur, S i)).
Proof using All.
  intros Hk. destruct st as [[bk cur] i]. intros (-> & Hbk & Hcur & Hpos).
  pose proof (Hbok k b Hk) as Hb. pose proof (lookup_lt_Some _ _ _ Hk) as Hkn.
  assert (length (members bok b k) < length (members bok b n)) as Hlt.
  { pose proof (members_mono bok b (S k) n ltac:(lia)) as Hm. rewrite members_S, length_app in Hm.
    rewrite decide_True in Hm by done. simpl in Hm. lia. }
  rewrite (Hcur b Hb), default_Some. split_and!.
  - done.
  - by rewrite length_insert.
  - intros c Hc. rewrite (lookup_alter_S _ _ _ _ (Hcur c Hc)). f_equal. rewrite members_S, length_app.
    destruct (decide (b = c)) as [<-|Hne].
    + rewrite decide_True by done. simpl. lia.
    + rewrite decide_False by congruence. simpl. lia.
  - intros c j x Hc. rewrite members_S.
    intros [Hin|[Hge Hin]]%lookup_app_Some.
    + pose proof (lookup_lt_Some _ _ _ Hin). rewrite list_lookup_insert_ne; [by apply Hpos|].
      destruct (decide (b = c)) as [<-|Hne]; [lia|].
      pose proof (members_mono bok c k n ltac:(lia)).
      apply position_inj; [done..|lia].
    + destruct (decide (bok !! k = Some c)) as [Heq|]; [|by rewrite lookup_nil in Hin].
      assert (b = c) as <- by congruence.
      apply list_lookup_singleton_Some in Hin as [Hj <-].
      assert (j = length (members bok b k)) as -> by lia.
      apply list_lookup_insert_eq. rewrite Hbk. pose proof (start_S b Hb). pose proof (start_le (S b)). lia.
Qed.

Lemma scatter_fold rest k st :
  k <= n → drop k bok = rest → scattered k st →
  scattered n (foldl (λ '(bk, cur, i) b,
    let pos := default 0 (cur !! b) in (<[pos := i]> bk, alter S b cur, S i)) st rest).
Proof using All.
  revert k st. induction rest as [|b rest IH]; intros k st Hk Hd Hst; cbn [foldl].
  - assert (k = n) as -> by (apply drop_nil_inv in Hd; lia). done.
  - assert (bok !! k = Some b) as Hb by (rewrite <- (Nat.add_0_r k), <- lookup_drop, Hd; done).
    pose proof (lookup_lt_Some _ _ _ Hb).
    destruct st as [[bk cur] i].
    apply (IH (S k)); [lia| |exact (scatter_step k b (bk, cur, i) Hb Hst)].
    rewrite (drop_S _ _ _ Hb) in Hd. by injection Hd.
Qed.

(** The slice of a bucket holds its members in order. *)
Lemma scatter_slice b :
  b < r →
  let bk := scatter hashes r bok (prefix_sums sizes) in
  let lo := default 0 (prefix_sums sizes !! b) in
  let hi := default 0 (prefix_sums sizes !! S b) in
  take (hi - lo) (drop lo bk) = members bok b n ∧ hi - lo = length (members bok b n).
Proof using All.
  intros Hb. cbv zeta. destruct (prefix_sums_spec sizes) as [Hpl Hp].
  rewrite !Hp, !default_Some by lia. rewrite (start_S b Hb).
  replace (start b + _ - start b) with (length (members bok b n)) by lia. split; [|done].
  assert (scattered 0 (replicate n 0, take r (prefix_sums sizes), 0)) as H0.
  { split_and!; [done|by rewrite length_replicate| |].
    - intros c Hc. rewrite lookup_take_lt, Hp by lia. simpl. f_equal. lia.
    - intros c j x _ Hj. done. }
  pose proof (scatter_fold bok 0 _ ltac:(lia) eq_refl H0) as Hf. unfold scatter.
  destruct (foldl _ _ bok) as [[bk cur] i]. destruct Hf as (_ & Hbk & _ & Hpos). cbn [fst].
  pose proof (start_S b Hb). pose proof (start_le (S b)).
  apply list_eq_same_length with (length (members bok b n));
    [done|rewrite length_take, length_drop; lia|].
  intros j x y Hj Hx Hy. rewrite lookup_take_lt, lookup_drop in Hx by done.
  apply (Hpos b j y Hb) in Hy. congruence.
Qed.
End scatter.

(** ** The displacement search *)

Lemma slot_of_lt h seed d m : 0 < m → slot_of h seed d m < m.
Proof. apply mod_to_nat_lt. Qed.

Lemma in_bitset (words m s : nat) : m <= words * 64 → s < m → s / 64 < words.
Proof. intros Hm Hs. apply Nat.Div0.div_lt_upper_bound. lia. Qed.

Section search.
Context (hashes : list Z) (m : nat) (seed : Z).

Abbreviation key_slot d ki := (slot_of (default 0%Z (hashes !! ki)) seed d m).

Lemma try_keys_spec occupied keys d tentative t' :
  try_keys hashes m seed occupied keys d tentative = Some t' → NoDup tentative →
  t' = tentative ++ ((λ ki, key_slot d ki) <$> keys) ∧ NoDup t' ∧
  ∀ s, s ∈ ((λ ki, key_slot d ki) <$> keys) → bitset_test occupied s = false.
Proof.
  revert tentative. induction keys as [|ki keys IH]; intros tentative; cbn [try_keys].
  - intros [= <-] Hnd. rewrite app_nil_r. split_and!; [done|done|]. intros s Hs. by apply not_elem_of_nil in Hs.
  - destruct (bitset_test occupied _ || _) eqn:E; [done|].
    apply orb_false_iff in E as [Ho Ht]. apply bool_decide_eq_false in Ht. intros Hrun Hnd.
    destruct (IH _ Hrun) as (-> & Hnd' & Hs).
    { apply NoDup_app. split_and!; [done| |apply NoDup_singleton]. intros s Hs ->%list_elem_of_singleton. done. }
    rewrite <- app_assoc. split_and!; [done|by rewrite <- app_assoc in Hnd'|].
    intros s [->|Hin]%elem_of_cons; [done|by apply Hs].
Qed.

(** The loop over the displacements always ends. *)
Lemma search_ends cancelled occupied keys :
  count_up search_passes (try_displacement hashes m seed cancelled occupied keys) 0 ≠ None.
Proof.
  intros E. pose proof (count_up_none _ _ _ E (MAX_DISPLACEMENT + 1)%Z) as Hn.
  unfold try_displacement in Hn. rewrite Z.add_0_l in Hn.
  destruct (Z.ltb_spec MAX_DISPLACEMENT (MAX_DISPLACEMENT + 1)); [|lia].
  discriminate Hn. unfold MAX_DISPLACEMENT, search_passes. lia.
Qed.

Lemma search_placed cancelled occupied keys d tentative :
  count_up search_passes (try_displacement hashes m seed cancelled occupied keys) 0 =
    Some (Placed d tentative) →
  tentative = ((λ ki, key_slot d ki) <$> keys) ∧ NoDup tentative ∧
  ∀ s, s ∈ tentative → bitset_test occupied s = false.
Proof.
  intros (i & _ & E)%count_up_some. unfold try_displacement in E.
  destruct (_ <? _)%Z; [done|]. destruct (_ && _); [done|].
  destruct (try_keys _ _ _ _ _ _ _) as [t'|] eqn:Ht; [|done]. simplify_eq.
  destruct (try_keys_spec _ _ _ _ _ Ht (NoDup_nil_2)) as (-> & Hnd & Hs). done.
Qed.

(** The slots that the keys of the buckets [bs] get from displacements [disp]. *)
Definition slots_of (keys_of : nat → list nat) (disp : list Z) (bs : list nat) : list nat :=
  b ← bs; (λ ki, key_slot (default 0%Z (disp !! b)) ki) <$> keys_of b.

Lemma slots_of_ext keys_of disp disp' bs :
  (∀ b, b ∈ bs → disp' !! b = disp !! b) → slots_of keys_of disp' bs = slots_of keys_of disp bs.
Proof.
  intros He. induction bs as [|b bs IH]; [done|]. unfold slots_of in *. csimpl.
  rewrite He by by left. f_equal. apply IH. intros c Hc. apply He. by right.
Qed.

Context (bucket_sizes bucket_start bucket_keys : list nat) (keys_of : nat → list nat) (r : nat).
Hypothesis Hm : 0 < m.
Hypothesis Hslice : ∀ b, b < r →
  let lo := default 0 (bucket_start !! b) in
  let hi := default 0 (bucket_start !! S b) in
  take (hi - lo) (drop lo bucket_keys) = keys_of b.
Hypothesis Hsize : ∀ b, b < r → bucket_sizes !! b = Some (length (keys_of b)).

Lemma place_buckets_spec cancelled order occupied disp res :
  place_buckets hashes m seed cancelled bucket_sizes bucket_start bucket_keys order occupied disp = res →
  NoDup order → Forall (λ b, b < r) order → length disp = r → m <= length occupied * 64 →
  match res with
  | Ok disp' =>
      length disp' = r ∧ (∀ b, b ∉ order → disp' !! b = disp !! b) ∧
      NoDup (slots_of keys_of disp' order) ∧
      ∀ s, s ∈ slots_of keys_of disp' order → bitset_test occupied s = false
  | Err e => e = Exhausted
  | Panic => False
  end.
Proof using Hm Hslice Hsize.
  revert occupied disp. induction order as [|b order IH]; intros occupied disp Hrun Hnd Hlt Hl Ho.
  - simpl in Hrun. subst res. split_and!; [done|done|constructor|].
    intros s Hs. by apply not_elem_of_nil in Hs.
  - apply NoDup_cons in Hnd as [Hb Hnd]. apply Forall_cons in Hlt as [Hbr Hlt].
    cbn [place_buckets] in Hrun. rewrite (Hsize b Hbr), default_Some, (Hslice b Hbr) in Hrun.
    destruct (Nat.eqb_spec (length (keys_of b)) 0) as [Hz|Hnz].
    + specialize (IH occupied disp Hrun Hnd Hlt Hl Ho). destruct res as [disp'|e|]; [|done|done].
      destruct IH as (? & Hd & Hs & Hf). split_and!; [done|set_solver| |];
        unfold slots_of; csimpl; rewrite (nil_length_inv _ Hz); done.
    + destruct (count_up _ _ _) as [[d tentative|]|] eqn:E;
        [|by subst res|by apply search_ends in E].
      apply search_placed in E as (-> & Hnt & Hfree). rewrite length_fmap, Nat.eqb_refl in Hrun.
      cbn [assert_then] in Hrun.
      assert (∀ ki, key_slot d ki / 64 < length occupied) as Hkey.
      { intros ki. apply (in_bitset _ m); [done|by apply slot_of_lt]. }
      assert (Forall (λ s, s / 64 < length occupied) ((λ ki, key_slot d ki) <$> keys_of b)) as Hword.
      { apply Forall_fmap, Forall_true. intros ki. apply Hkey. }
      specialize (IH _ _ Hrun Hnd Hlt). rewrite length_insert, bitset_fold_length in IH.
      specialize (IH Hl Ho). destruct res as [disp'|e|]; [|done|done].
      destruct IH as (Hl' & Hd & Hs & Hf).
      assert (disp' !! b = Some d) as Hdb by (rewrite (Hd b Hb); apply list_lookup_insert_eq; lia).
      assert (slots_of keys_of disp' (b :: order) =
        ((λ ki, key_slot d ki) <$> keys_of b) ++ slots_of keys_of disp' order) as ->.
      { unfold slots_of. csimpl. by rewrite Hdb, default_Some. }
      assert (∀ s, s ∈ slots_of keys_of disp' order →
        s ∉ ((λ ki, key_slot d ki) <$> keys_of b) ∧ bitset_test occupied s = false) as Hnew.
      { intros s Hin. pose proof (Hf s Hin) as Hfs. rewrite bitset_set_all in Hfs; [|done|].
        - apply orb_false_iff in Hfs as [?%bool_decide_eq_false ?]. done.
        - apply list_elem_of_bind in Hin as (c & (ki & -> & _)%list_elem_of_fmap & _).
          apply (in_bitset _ m); [done|by apply slot_of_lt]. }
      split_and!; [done| | |].
      * intros c [Hc1 Hc2]%not_elem_of_cons. rewrite Hd by done. by apply list_lookup_insert_ne.
      * apply NoDup_app. split_and!; [done| |done]. intros s Hin1 Hin2. by apply Hnew in Hin2 as [? _].
      * intros s [Hin|Hin]%elem_of_app; [by apply Hfree|by apply Hnew].
Qed.
End search.

(** ** A whole attempt *)

Lemma fmap_bind_out {A B C} (g : B → C) (f : A → list B) (l : list A) :
  g <$> (a ← l; f a) = (a ← l; g <$> f a).
Proof. induction l as [|a l IH]; [done|]. csimpl. by rewrite fmap_app, IH. Qed.

Section attempt.
Context (sort : list nat → list nat → list nat).
Hypothesis Hsort : ∀ sizes l, sort sizes l ≡ₚ l.
Context (hashes : list Z) (m r : nat) (seed : Z).
Hypothesis Hr : 0 < r.

Abbreviation bok := ((λ h, bucket_of h seed r) <$> hashes).

Lemma bok_lt k b : bok !! k = Some b → b < r.
Proof using Hr. intros (h & -> & _)%list_lookup_fmap_Some. by apply bucket_of_lt. Qed.

(** The buckets in any order hold every key once. *)
Lemma members_partition order :
  order ≡ₚ seq 0 r → (b ← order; members bok b (length hashes)) ≡ₚ seq 0 (length hashes).
Proof using Hr.
  intros Ho. apply NoDup_Permutation; [apply NoDup_bind|apply NoDup_seq|].
  - intros b c i _ _ [Hb _]%elem_of_members [Hc _]%elem_of_members. congruence.
  - intros b _. apply members_NoDup.
  - rewrite Ho. apply NoDup_seq.
  - intros i. rewrite list_elem_of_bind, elem_of_seq. split.
    + intros (b & [_ ?]%elem_of_members & _). lia.
    + intros [_ Hi]. destruct (lookup_lt_is_Some_2 bok i) as [b Hb]; [by rewrite length_fmap|].
      exists b. rewrite elem_of_members, Ho, elem_of_seq. pose proof (bok_lt i b Hb). split; [done|lia].
Qed.

(** The slot of each input hash under the displacements [disp]. *)
Definition indices (disp : list Z) : list nat :=
  (λ h, slot_of h seed (default 0%Z (disp !! bucket_of h seed r)) m) <$> hashes.

Lemma indices_slots disp order :
  order ≡ₚ seq 0 r →
  slots_of hashes m seed (λ b, members bok b (length hashes)) disp order ≡ₚ indices disp.
Proof using Hr.
  intros Ho.
  set (g := λ ki, slot_of (default 0%Z (hashes !! ki)) seed
    (default 0%Z (disp !! default 0 (bok !! ki))) m).
  transitivity (g <$> (b ← order; members bok b (length hashes))).
  - rewrite fmap_bind_out. unfold slots_of. apply reflexive_eq, list_bind_ext; [|done].
    intros b. apply list_fmap_ext. intros _ ki Hki%list_elem_of_lookup_2.
    apply elem_of_members in Hki as [Hki _]. unfold g. by rewrite Hki.
  - rewrite (members_partition order Ho). unfold indices. apply reflexive_eq, list_eq. intros k.
    rewrite !list_lookup_fmap. destruct (decide (k < length hashes)) as [Hk|Hk].
    + rewrite lookup_seq_lt by done. destruct (lookup_lt_is_Some_2 _ _ Hk) as [h Hh].
      unfold g. cbn [fmap option_fmap option_map]. by rewrite Hh, Nat.add_0_l, list_lookup_fmap, Hh.
    + rewrite lookup_seq_ge, lookup_ge_None_2 by lia. done.
Qed.

(** The attempt itself. *)
Lemma try_build_seed_spec cancelled :
  0 < m →
  match try_build_seed sort hashes m r seed cancelled with
  | Ok disp => length disp = r ∧ NoDup (indices disp)
  | Err e => e = Exhausted
  | Panic => False
  end.
Proof using Hr Hsort.
  intros Hm. unfold try_build_seed.
  destruct (assign_buckets_spec hashes r seed Hr) as (sizes & -> & Hsl & Hsum & Hsizes).
  pose proof (Hsort sizes (seq 0 r)) as Ho.
  destruct (place_buckets hashes m seed cancelled sizes _ _ _ _ _) as [disp|e|] eqn:E;
    eapply (place_buckets_spec _ _ _ _ _ _ (λ b, members bok b (length hashes)) r) in E;
    rewrite ?length_replicate; try done.
  all: try (rewrite Ho; apply NoDup_seq).
  all: try (rewrite Forall_forall; intros b Hb; rewrite Ho, elem_of_seq in Hb; lia).
  all: try (pose proof (Nat.div_mod_eq (m + 63) 64); pose proof (Nat.mod_upper_bound (m + 63) 64); lia).
  all: try (intros b Hb; eapply (scatter_slice hashes r); try done; [by rewrite length_fmap|apply bok_lt]).
  destruct E as (Hl & _ & Hnd & _). split; [done|]. by rewrite <- (indices_slots disp _ Ho).
Qed.
End attempt.

(** ** The construction *)

Section build.
Context (sort : list nat → list nat → list nat).
Hypothesis Hsort : ∀ sizes l, sort sizes l ≡ₚ l.

(** What a finished construction promises. *)
Definition perfect_for (hashes : list Z) (m : nat) (p : ChdPhf) : Prop :=
  chd_m p = m ∧ (∀ h, 0 < m → chd_index p h < m) ∧ NoDup (chd_index p <$> hashes).

Lemma index_lt p h : 0 < chd_m p → chd_index p h < chd_m p.
Proof using Type.
  intros Hm. unfold chd_index. destruct (Nat.eqb_spec (chd_m p) 0); [lia|]. by apply slot_of_lt.
Qed.

Lemma attempt_perfect hashes m r seed cancelled disp :
  0 < r → 0 < m → try_build_seed sort hashes m r seed cancelled = Ok disp →
  perfect_for hashes m {| chd_seed := seed; displacements := disp; chd_m := m |}.
Proof using Hsort.
  intros Hr Hm E. pose proof (try_build_seed_spec sort Hsort hashes m r seed Hr cancelled Hm) as Hs.
  rewrite E in Hs. destruct Hs as [Hl Hnd]. split_and!; [done|intros; by apply index_lt|].
  unfold indices in Hnd. unfold chd_index. cbn [chd_m chd_seed displacements].
  destruct (Nat.eqb_spec m 0); [lia|]. by rewrite Hl.
Qed.

Lemma try_seeds_spec hashes m r seeds :
  0 < r → 0 < m →
  match try_seeds sort hashes m r seeds with
  | Ok p => perfect_for hashes m p
  | Err e => e = Exhausted
  | Panic => False
  end.
Proof using Hsort.
  intros Hr Hm. induction seeds as [|s seeds IH]; [done|]. cbn [try_seeds]. cbv zeta.
  pose proof (try_build_seed_spec sort Hsort hashes m r (chd_seed_of s) Hr (λ _ _, false) Hm) as Hs.
  destruct (try_build_seed _ _ _ _ _ _) as [disp|[|]|] eqn:E; [|done|done|done].
  eapply attempt_perfect; [exact Hr|exact Hm|exact E].
Qed.

Lemma par_seeds_spec hashes m r res :
  0 < r → 0 < m → par_seeds sort hashes m r res →
  match res with Ok p => perfect_for hashes m p | Err e => e = Exhausted | Panic => False end.
Proof using Hsort.
  intros Hr Hm [(s & c & disp & _ & E & ->)|[-> _]]; [|done]. eapply attempt_perfect; [exact Hr|exact Hm|exact E].
Qed.

(** What the checks make of a construction that is right for distinct hashes. *)
Lemma checked_spec hashes m k :
  (∀ r, 0 < r → 0 < m →
    match k r with Ok p => perfect_for hashes m p | Err e => e = Exhausted | Panic => False end) →
  match checked hashes m k with
  | Ok p => perfect_for hashes m p ∧ NoDup hashes ∧ length hashes <= m
  | Err Exhausted => NoDup hashes
  | Err DuplicateHash => ¬ NoDup hashes
  | Panic => m < length hashes ∨ (2 ^ 32 <= Z.of_nat m)%Z
  end.
Proof using Type.
  intros Hk. unfold checked. destruct (Nat.leb_spec (length hashes) m) as [Hn|]; [|by left].
  destruct (Z.ltb_spec (Z.of_nat m) (2 ^ 32)); [|by right]. cbn [assert_then].
  destruct (Nat.eqb_spec (length hashes) 0) as [Hz|Hnz].
  - apply nil_length_inv in Hz as ->. split; [|split; [constructor|simpl; lia]].
    split_and!; [done|intros h Hm; by apply (index_lt {| chd_seed := 0; displacements := []; chd_m := m |})|constructor].
  - destruct (has_duplicate hashes) eqn:Hd.
    + intros Hnd%has_duplicate_spec. congruence.
    + apply has_duplicate_spec in Hd. specialize (Hk (max ((length hashes + DEFAULT_LAMBDA - 1) / DEFAULT_LAMBDA) 1)).
      destruct (k _) as [p|e|]; [split; [apply Hk; lia|by split]|by rewrite Hk by lia|destruct Hk; lia].
Qed.

(** C21: CHD construction.  When it returns a function, every input hash has a
    slot of its own inside the table, and every other hash some slot; it reports
    a duplicate exactly when two input hashes are equal, and it panics only on
    a table too small or too large.  The same holds of the concurrent build,
    whichever seed wins, and for every order of buckets of equal size. *)
Theorem chd_build_perfect (hashes : list Z) (m : nat) (res : Result ChdPhf) :
  res = chd_build sort hashes m ∨ par_build sort hashes m res →
  match res with
  | Ok p => chd_m p = m ∧ length hashes <= m ∧ (∀ h, 0 < m → chd_index p h < m) ∧
            NoDup (chd_index p <$> hashes) ∧ NoDup hashes
  | Err Exhausted => NoDup hashes
  | Err DuplicateHash => ¬ NoDup hashes
  | Panic => m < length hashes ∨ (2 ^ 32 <= Z.of_nat m)%Z
  end.
Proof using Hsort.
  intros Hres. assert (match res with
    | Ok p => perfect_for hashes m p ∧ NoDup hashes ∧ length hashes <= m
    | Err Exhausted => NoDup hashes
    | Err DuplicateHash => ¬ NoDup hashes
    | Panic => m < length hashes ∨ (2 ^ 32 <= Z.of_nat m)%Z
    end) as H; [|destruct res; unfold perfect_for in *; naive_solver].
  destruct Hres as [->|(k & -> & Hk)]; apply checked_spec; intros r Hr Hm.
  - by apply try_seeds_spec.
  - by apply (par_seeds_spec hashes m r).
Qed.

(** CHD as a perfect hash function. *)
#[local] Instance ChdPhf_ops : PerfectHashFunction ChdPhf := {|
  phf_build := chd_build sort;
  phf_index := chd_index;
  phf_capacity := chd_m;
|}.

Lemma ChdPhf_laws : PhfLaws ChdPhf.
Proof using Hsort.
  split; cbn [phf_build phf_index phf_capacity ChdPhf_ops]; intros hashes m.
  all: pose proof (checked_spec hashes m (λ r, try_seeds sort hashes m r (seq 0 MAX_SEED_RETRIES))
    (λ r Hr Hm, try_seeds_spec hashes m r _ Hr Hm)) as Hs; fold (chd_build sort hashes m) in Hs.
  - intros Hn Hm E. rewrite E in Hs. lia.
  - intros p E. rewrite E in Hs. unfold perfect_for in Hs. naive_solver.
  - intros E. by rewrite E in Hs.
Qed.
End build.

Lemma sort_by_size_perm sizes l : sort_by_size sizes l ≡ₚ l.
Proof. apply merge_sort_Permutation. Qed.

(** [order] is in descending size. *)
Lemma sort_by_size_sorted sizes l : Sorted (size_ge sizes) (sort_by_size sizes l).
Proof. apply Sorted_merge_sort. intros x y. unfold size_ge. lia. Qed.

#[export] Instance Chd_phf : PerfectHashFunction ChdPhf := ChdPhf_ops sort_by_size.

#[export] Instance Chd_phf_laws : PhfLaws ChdPhf.
Proof. apply ChdPhf_laws, sort_by_size_perm. Qed.

Definition demo_hashes : list Z := (λ i, mix (Z.of_nat i * 11) 77) <$> seq 0 6.

Lemma chd_build_perfect_witness :
  ∃ p, chd_build sort_by_size demo_hashes 8 = Ok p ∧
    chd_m p = 8 ∧ length demo_hashes <= 8 ∧ (∀ h, 0 < 8 → chd_index p h < 8) ∧
    NoDup (chd_index p <$> demo_hashes) ∧ NoDup demo_hashes.
Proof.
  destruct (chd_build sort_by_size demo_hashes 8) as [p|e|] eqn:E.
  - exists p. split; [done|].
    exact (chd_build_perfect sort_by_size sort_by_size_perm demo_hashes 8 (Ok p) (or_introl (eq_sym E))).
  - vm_compute in E. discriminate E.
  - vm_compute in E. discriminate E.
Defined.
