(* ===== verification/Float64.v ===== *)
(** * The [f64] arithmetic of the perfect-hash configurations

    [f64] values are the binary64 numbers of the Standard Library's
    specification of IEEE 754; only the operations the configurations use. *)

From Stdlib Require Import ZArith Lia.
From Stdlib Require Export SpecFloat.
From S2P Require Import Prelude.

Abbreviation f64 := spec_float.

(** [n as f64] *)
Definition f64_of_usize (n : nat) : f64 := binary_normalize 53 1024 (Z.of_nat n) 0 false.

Definition f64_mul : f64 → f64 → f64 := SFmul 53 1024.
Definition f64_div : f64 → f64 → f64 := SFdiv 53 1024.
Definition f64_lt : f64 → f64 → bool := SFltb.
Definition f64_le : f64 → f64 → bool := SFleb.

Definition f64_is_finite (x : f64) : bool :=
  match x with S754_zero _ | S754_finite _ _ _ => true | _ => false end.

(** [x.ceil() as usize]: the cast saturates and sends NaN to 0. *)
Definition f64_ceil_usize (x : f64) : Z :=
  match x with
  | S754_zero _ | S754_nan => 0
  | S754_infinity s => if s then 0 else 2 ^ 64 - 1
  | S754_finite true _ _ => 0
  | S754_finite false m e =>
      let c := if (0 <=? e)%Z then (Zpos m * 2 ^ e)%Z else (- ((- Zpos m) / 2 ^ (- e)))%Z in
      Z.min c (2 ^ 64 - 1)
  end.

(** The literals 1.0, 1.10, 4.0, 8.0 and 16.0. *)
Definition f64_1 : f64 := S754_finite false 4503599627370496 (-52).
Definition f64_1_10 : f64 := S754_finite false 4953959590107546 (-52).
Definition f64_4 : f64 := S754_finite false 4503599627370496 (-50).
Definition f64_8 : f64 := S754_finite false 4503599627370496 (-49).
Definition f64_16 : f64 := S754_finite false 4503599627370496 (-48).

(** The literals are what the integers convert to; [1.10] is the nearest
    binary64 number to 11/10, and [ceil(100 * 1.10)] rounds to 111. *)
Example f64_literals :
  f64_of_usize 1 = f64_1 ∧ f64_of_usize 4 = f64_4 ∧ f64_of_usize 8 = f64_8 ∧
  f64_of_usize 16 = f64_16 ∧ f64_div (f64_of_usize 11) (f64_of_usize 10) = f64_1_10 ∧
  f64_ceil_usize (f64_mul (f64_of_usize 100) f64_1_10) = 111%Z.
Proof. split_and!; vm_compute; reflexivity. Qed.
