(* ===== verification/PerfectMap.v ===== *)
(** * Perfect-hash maps and sets

    [perfect/mod.rs] and [perfect/set.rs]: the dense map, the sparse map, the
    dense map without keys and the set, over any perfect hash function.  A read
    outside an array ([get_unchecked]) is [None] on the outside. *)

From Stdlib Require Import ZArith Lia.
From S2P Require Import Prelude Float64 Chd.
From S2P Require Export PerfectHash.

Section maps.
Context {P K V : Type} `{PerfectHashFunction P} `{Countable K} (hash_one : K → Z).

(** ** Placing the entries *)

(** The loop over the zipped entries and hashes; an occupied or missing slot
    fails the assertion or the bounds check. *)
Fixpoint place {T} (phf : P) (items : list (T * Z)) (placed : list (option T)) :
    Result (list (option T)) :=
  match items with
  | [] => Ok placed
  | (x, h) :: items' =>
      let slot := phf_index phf h in
      match placed !! slot with
      | Some None => place phf items' (<[slot := Some x]> placed)
      | _ => Panic
      end
  end.

(** ** The dense map *)

(*@ perfect/mod.rs : pub struct PerfectMap< *)
Record PerfectMap := { pm_slots : list (K * V); pm_phf : P }.

(*@ perfect/mod.rs : pub fn from_entries< @1 *)
Definition perfect_from_entries (entries : list (K * V)) : Result PerfectMap :=
  let n := length entries in
  let hashes := (λ kv, hash_one kv.1) <$> entries in
  let? phf := phf_build hashes n in
  let? placed := place phf (zip entries hashes) (replicate n None) in
  let? slots := expect_all placed in
  Ok {| pm_slots := slots; pm_phf := phf |}.

(*@ perfect/mod.rs : pub fn get< @1 *)
Definition perfect_get (m : PerfectMap) (key : K) : option (option V) :=
  if length (pm_slots m) =? 0 then Some None
  else
    let hash := hash_one key in
    let slot := phf_index (pm_phf m) hash in
    do ' (k, v) <- pm_slots m !! slot;
    Some (if bool_decide (k = key) then Some v else None).

(*@ perfect/mod.rs : pub fn contains_key @1 *)
Definition perfect_contains_key (m : PerfectMap) (key : K) : option bool :=
  do r <- perfect_get m key; Some (bool_decide (is_Some r)).

(*@ perfect/mod.rs : pub fn len @1 *)
Definition perfect_len (m : PerfectMap) : nat := length (pm_slots m).

(*@ perfect/mod.rs : pub fn iter @1 *)
Definition perfect_iter (m : PerfectMap) : list (K * V) := pm_slots m.

(** ** The sparse map *)

(*@ perfect/mod.rs : pub struct PerfectMapConfig *)
Record PerfectMapConfig := { load_factor : f64 }.

(*@ perfect/mod.rs : impl Default for PerfectMapConfig *)
Definition default_config : PerfectMapConfig := {| load_factor := f64_1_10 |}.

(*@ perfect/mod.rs : fn table_size *)
Definition table_size (c : PerfectMapConfig) (n : nat) : Result nat :=
  assert_then (f64_le f64_1 (load_factor c) && f64_is_finite (load_factor c))
    (if n =? 0 then Ok 0
     else Ok (Z.to_nat (f64_ceil_usize (f64_mul (f64_of_usize n) (load_factor c))))).

(*@ perfect/mod.rs : pub struct PerfectMapSparse *)
Record PerfectMapSparse := { ps_slots : list (option (K * V)); ps_phf : P; ps_len : nat }.

(*@ perfect/mod.rs : pub fn from_entries_with *)
Definition sparse_from_entries (entries : list (K * V)) (config : PerfectMapConfig) :
    Result PerfectMapSparse :=
  let n := length entries in
  let? m := table_size config n in
  let hashes := (λ kv, hash_one kv.1) <$> entries in
  let? phf := phf_build hashes m in
  let? slots := place phf (zip entries hashes) (replicate m None) in
  Ok {| ps_slots := slots; ps_phf := phf; ps_len := n |}.

(*@ perfect/mod.rs : pub fn get< @2 *)
Definition sparse_get (m : PerfectMapSparse) (key : K) : option V :=
  if length (ps_slots m) =? 0 then None
  else
    let hash := hash_one key in
    let slot := phf_index (ps_phf m) hash in
    match ps_slots m !! slot with
    | Some (Some (k, v)) => if bool_decide (k = key) then Some v else None
    | _ => None
    end.

(*@ perfect/mod.rs : pub fn contains_key @2 *)
Definition sparse_contains_key (m : PerfectMapSparse) (key : K) : bool :=
  bool_decide (is_Some (sparse_get m key)).

(*@ perfect/mod.rs : pub fn capacity *)
Definition sparse_capacity (m : PerfectMapSparse) : nat := length (ps_slots m).

(*@ perfect/mod.rs : pub fn iter @2 *)
Definition sparse_iter (m : PerfectMapSparse) : list (K * V) := omap id (ps_slots m).

(** ** The map without keys *)

(*@ perfect/mod.rs : pub struct PerfectMapUnchecked *)
Record PerfectMapUnchecked := { pu_values : list V; pu_phf : P }.

(*@ perfect/mod.rs : pub fn from_entries< @2 *)
Definition unchecked_from_entries (entries : list (K * V)) : Result PerfectMapUnchecked :=
  let n := length entries in
  let hashes := (λ kv, hash_one kv.1) <$> entries in
  let? phf := phf_build hashes n in
  let? placed := place phf (zip entries.*2 hashes) (replicate n None) in
  let? values := expect_all placed in
  Ok {| pu_values := values; pu_phf := phf |}.

(*@ perfect/mod.rs : pub fn get_unchecked *)
Definition get_unchecked (m : PerfectMapUnchecked) (key : K) : option V :=
  let hash := hash_one key in
  let slot := phf_index (pu_phf m) hash in
  pu_values m !! slot.

(** ** The set *)

(*@ perfect/set.rs : pub struct PerfectSet *)
Record PerfectSet := { pset_slots : list K; pset_phf : P }.

(*@ perfect/set.rs : pub fn from_keys *)
Definition set_from_keys (keys : list K) : Result PerfectSet :=
  let n := length keys in
  let hashes := hash_one <$> keys in
  let? phf := phf_build hashes n in
  let? placed := place phf (zip keys hashes) (replicate n None) in
  let? slots := expect_all placed in
  Ok {| pset_slots := slots; pset_phf := phf |}.

(*@ perfect/set.rs : pub fn contains *)
Definition set_contains (s : PerfectSet) (key : K) : option bool :=
  if length (pset_slots s) =? 0 then Some false
  else
    let hash := hash_one key in
    let slot := phf_index (pset_phf s) hash in
    do stored <- pset_slots s !! slot; Some (bool_decide (stored = key)).

(*@ perfect/set.rs : pub fn get *)
Definition set_get (s : PerfectSet) (key : K) : option (option K) :=
  if length (pset_slots s) =? 0 then Some None
  else
    let hash := hash_one key in
    let slot := phf_index (pset_phf s) hash in
    do stored <- pset_slots s !! slot;
    Some (if bool_decide (stored = key) then Some stored else None).

(** ** Placing without conflicts *)

Context `{!PhfLaws P}.

Lemma omap_insert_none {T} (l : list (option T)) s x :
  l !! s = Some None → omap id (<[s := Some x]> l) ≡ₚ x :: omap id l.
Proof using Type.
  intros Hs. rewrite <- (take_drop_middle _ _ _ Hs) at 2. rewrite insert_take_drop by by eapply lookup_lt_Some.
  rewrite !omap_app. csimpl. by rewrite Permutation_middle.
Qed.

Lemma place_spec {T} (phf : P) (items : list (T * Z)) placed :
  NoDup (phf_index phf <$> items.*2) →
  (∀ x h, (x, h) ∈ items → placed !! phf_index phf h = Some None) →
  ∃ placed', place phf items placed = Ok placed' ∧ length placed' = length placed ∧
    (∀ x h, (x, h) ∈ items → placed' !! phf_index phf h = Some (Some x)) ∧
    (∀ s, s ∉ (phf_index phf <$> items.*2) → placed' !! s = placed !! s) ∧
    omap id placed' ≡ₚ items.*1 ++ omap id placed.
Proof using Type.
  revert placed. induction items as [|[x h] items IH]; intros placed Hnd Hfree.
  - exists placed. split_and!; [done|done| |done|done]. intros x h Hin. by apply not_elem_of_nil in Hin.
  - csimpl in Hnd. apply NoDup_cons in Hnd as [Hnew Hnd]. cbn [place].
    pose proof (Hfree x h ltac:(by left)) as Hs. rewrite Hs.
    destruct (IH (<[phf_index phf h := Some x]> placed) Hnd) as (placed' & -> & Hl & Hin & Hout & Hp).
    { intros y g Hyg. rewrite list_lookup_insert_ne; [apply (Hfree y g); by right|].
      intros Heq. apply Hnew. rewrite Heq. apply list_elem_of_fmap_2, list_elem_of_fmap.
      by exists (y, g). }
    exists placed'. rewrite Hl, length_insert. split_and!; [done|done| | |].
    + intros y g [[= -> ->]|Hyg]%elem_of_cons; [|by apply Hin].
      rewrite Hout by done. apply list_lookup_insert_eq. by eapply lookup_lt_Some.
    + csimpl. intros s [Hne Hs']%not_elem_of_cons. rewrite Hout by done. by apply list_lookup_insert_ne.
    + rewrite Hp, omap_insert_none by done. csimpl. by rewrite Permutation_middle.
Qed.

Section build.
Context {T : Type} (items : list T) (hashes : list Z) (m : nat) (phf : P).
Hypothesis Hlen : length hashes = length items.
Hypothesis Hbuild : phf_build hashes m = Ok phf.

Lemma zip_hashes : (zip items hashes).*2 = hashes.
Proof using Hlen. apply snd_zip. lia. Qed.

Lemma zip_items : (zip items hashes).*1 = items.
Proof using Hlen. apply fst_zip. lia. Qed.

(** The slots of the placed items. *)
Lemma build_place :
  ∃ placed, place phf (zip items hashes) (replicate m None) = Ok placed ∧ length placed = m ∧
    (∀ i x h, items !! i = Some x → hashes !! i = Some h →
       placed !! phf_index phf h = Some (Some x)) ∧
    omap id placed ≡ₚ items.
Proof using Hlen Hbuild PhfLaws0.
  destruct (phf_build_ok hashes m phf Hbuild) as (_ & Hle & Hlt & _ & Hnd).
  destruct (place_spec phf (zip items hashes) (replicate m None)) as (placed & Hrun & Hl & Hin & _ & Hp).
  - by rewrite zip_hashes.
  - intros x h [i Hi]%list_elem_of_lookup.
    apply lookup_replicate_2, Hlt. apply lookup_lt_Some in Hi. rewrite length_zip in Hi. lia.
  - exists placed. rewrite Hl, length_replicate. split_and!; [done|done| |].
    + intros i x h Hx Hh. apply Hin. apply list_elem_of_lookup. exists i.
      by apply lookup_zip_with_Some; exists x, h.
    + rewrite Hp, zip_items, omap_none, app_nil_r; [done|].
      intros o Ho%list_elem_of_lookup. by destruct Ho as [? [-> _]%lookup_replicate].
Qed.
End build.

(** A minimal table is filled: the expectations hold. *)
Lemma build_dense {T} (items : list T) (hashes : list Z) (phf : P) :
  length hashes = length items → phf_build hashes (length items) = Ok phf →
  ∃ placed slots, place phf (zip items hashes) (replicate (length items) None) = Ok placed ∧
    expect_all placed = Ok slots ∧ length slots = length items ∧ slots ≡ₚ items ∧
    (∀ i x h, items !! i = Some x → hashes !! i = Some h → slots !! phf_index phf h = Some x).
Proof using PhfLaws0.
  intros Hlen Hbuild. destruct (build_place items hashes _ phf Hlen Hbuild) as (placed & Hrun & Hl & Hin & Hout).
  destruct (phf_build_ok hashes _ phf Hbuild) as (_ & _ & Hlt & _ & Hnd).
  destruct (expect_all_ok placed) as (slots & He & ->).
  { apply Forall_lookup_2. intros s o Hs. pose proof (lookup_lt_Some _ _ _ Hs) as Hslt. rewrite Hl in Hslt.
    assert (s ∈ (phf_index phf <$> hashes)) as Hsin.
    { apply (NoDup_bounded_surj _ (length items)); [done|by rewrite length_fmap| |done].
      intros x (h & -> & _)%list_elem_of_fmap. apply Hlt. lia. }
    apply list_elem_of_fmap in Hsin as (h & -> & [i Hi]%list_elem_of_lookup).
    destruct (lookup_lt_is_Some_2 items i) as [x Hx]; [rewrite <- Hlen; by eapply lookup_lt_Some|].
    rewrite (Hin i x h Hx Hi) in Hs. simplify_eq. by exists x. }
  rewrite length_fmap in Hl. exists (Some <$> slots), slots. split_and!; [done..| |].
  - rewrite <- Hout. clear. induction slots as [|x slots IH]; [done|]. csimpl. by rewrite <- IH.
  - intros i x h Hx Hh. specialize (Hin i x h Hx Hh). rewrite list_lookup_fmap in Hin.
    by apply fmap_Some in Hin as (? & -> & [= ->]).
Qed.

(** ** Correctness *)

(** Distinct hashes have distinct keys. *)
Lemma keys_NoDup (entries : list (K * V)) :
  NoDup ((λ kv, hash_one kv.1) <$> entries) → NoDup entries.*1.
Proof using Type.
  intros Hnd. apply (@NoDup_fmap_1 K Z hash_one). by rewrite <- list_fmap_compose.
Qed.

(** What the slot of a key holds decides membership. *)
Lemma stored_lookup (entries : list (K * V)) k k' v' :
  NoDup entries.*1 → (k', v') ∈ entries → (∀ v, (k, v) ∈ entries → (k', v') = (k, v)) →
  (if bool_decide (k' = k) then Some v' else None) = map_of entries !! k.
Proof using Type.
  intros Hnd Hin Hk. case_bool_decide as Hkk.
  - subst k'. symmetry. by apply map_of_lookup.
  - symmetry. apply map_of_lookup_none. intros ([k1 v] & -> & Hv)%list_elem_of_fmap.
    specialize (Hk v Hv). simplify_eq.
Qed.

Lemma entries_lookup (entries : list (K * V)) i k v :
  entries !! i = Some (k, v) → ((λ kv, hash_one kv.1) <$> entries) !! i = Some (hash_one k).
Proof using Type. intros Hi. by rewrite list_lookup_fmap, Hi. Qed.

Lemma perfect_map_ok (entries : list (K * V)) :
  match perfect_from_entries entries with
  | Ok m =>
      (∀ k, perfect_get m k = Some (map_of entries !! k)) ∧
      perfect_iter m ≡ₚ entries ∧ perfect_len m = length entries ∧ NoDup entries.*1
  | Err e => phf_build (P := P) ((λ kv, hash_one kv.1) <$> entries) (length entries) = Err e
  | Panic => (2 ^ 32 <= Z.of_nat (length entries))%Z
  end.
Proof using PhfLaws0.
  unfold perfect_from_entries. set (hashes := (λ kv, hash_one kv.1) <$> entries).
  assert (length hashes = length entries) as Hlen by apply length_fmap.
  destruct (phf_build hashes (length entries)) as [phf|e|] eqn:Hb; cbn [try]; [|done|].
  2:{ destruct (Z.lt_ge_cases (Z.of_nat (length entries)) (2 ^ 32)); [|lia].
      by apply phf_build_total in Hb; [..|lia|]. }
  destruct (build_dense entries hashes phf Hlen Hb) as (placed & slots & -> & He & Hl & Hin & Hat).
  cbn [try]. rewrite He. cbn [try perfect_iter perfect_len pm_slots].
  destruct (phf_build_ok hashes _ phf Hb) as (_ & _ & Hlt & Hnd & _).
  pose proof (keys_NoDup entries Hnd) as Hk.
  split_and!; [|done..].
  intros k. unfold perfect_get. cbn [pm_slots pm_phf]. destruct (Nat.eqb_spec (length slots) 0) as [Hz|Hz].
  { assert (entries = []) as -> by (apply nil_length_inv; lia). done. }
  destruct (lookup_lt_is_Some_2 slots (phf_index phf (hash_one k))) as [[k' v'] Hs];
    [rewrite Hl; apply Hlt; lia|].
  cbv zeta. rewrite Hs. f_equal. apply stored_lookup; [done|rewrite <- Hin; by eapply list_elem_of_lookup_2|].
  intros v [i Hi]%list_elem_of_lookup.
  specialize (Hat i _ _ Hi (entries_lookup entries i k v Hi)). congruence.
Qed.

(** C22: the dense perfect-hash map.  When the construction succeeds the map
    answers every query, of keys inside and outside, as the finite map of its
    entries, without reading outside its array; its iterator yields exactly the
    entries.  Construction never panics on fewer than [2^32] entries, and it
    fails exactly as the perfect hash function's does. *)
Theorem perfect_map_correct (entries : list (K * V)) :
  match perfect_from_entries entries with
  | Ok m =>
      (∀ k, perfect_get m k = Some (map_of entries !! k)) ∧
      perfect_iter m ≡ₚ entries ∧ perfect_len m = length entries ∧ NoDup entries.*1
  | Err e => phf_build (P := P) ((λ kv, hash_one kv.1) <$> entries) (length entries) = Err e
  | Panic => (2 ^ 32 <= Z.of_nat (length entries))%Z
  end.
Proof using PhfLaws0. apply perfect_map_ok. Qed.

Lemma perfect_sparse_ok (entries : list (K * V)) config m :
  sparse_from_entries entries config = Ok m →
  (∀ k, sparse_get m k = map_of entries !! k) ∧
  sparse_iter m ≡ₚ entries ∧ ps_len m = length entries ∧
  table_size config (length entries) = Ok (sparse_capacity m) ∧ NoDup entries.*1.
Proof using PhfLaws0.
  unfold sparse_from_entries. set (hashes := (λ kv, hash_one kv.1) <$> entries).
  intros (sz & Hsz & (phf & Hb & (slots & Hrun & [= <-])%try_ok)%try_ok)%try_ok.
  assert (length hashes = length entries) as Hlen by apply length_fmap.
  destruct (build_place entries hashes sz phf Hlen Hb) as (placed & Hrun' & Hl & Hin & Hout).
  rewrite Hrun in Hrun'. simplify_eq.
  destruct (phf_build_ok hashes _ phf Hb) as (_ & Hle & Hlt & Hnd & Hndi).
  pose proof (keys_NoDup entries Hnd) as Hk. unfold sparse_get, sparse_iter, sparse_capacity.
  cbn [ps_slots ps_phf ps_len]. split_and!; [|done..|congruence|done].
  - intros k. destruct (Nat.eqb_spec (length placed) 0) as [Hz|Hz].
    { assert (entries = []) as -> by (apply nil_length_inv; lia). done. }
    cbv zeta. assert (∀ v, (k, v) ∈ entries → placed !! phf_index phf (hash_one k) = Some (Some (k, v))) as Hkey.
    { intros v [i Hi]%list_elem_of_lookup. exact (Hin i _ _ Hi (entries_lookup entries i k v Hi)). }
    destruct (placed !! phf_index phf (hash_one k)) as [[[k' v']|]|] eqn:Hs.
    + apply stored_lookup; [done| |].
      { rewrite <- Hout, elem_of_omap_iff. eexists. split; [by eapply list_elem_of_lookup_2|done]. }
      intros v Hv. specialize (Hkey v Hv). congruence.
    + symmetry. apply map_of_lookup_none. intros ([k1 v] & -> & Hv)%list_elem_of_fmap.
      by specialize (Hkey v Hv).
    + symmetry. apply map_of_lookup_none. intros ([k1 v] & -> & Hv)%list_elem_of_fmap.
      by specialize (Hkey v Hv).
Qed.

(** The sparse perfect-hash map, for every load factor: a map that is built
    answers every query as the finite map of its entries, and its iterator
    yields exactly the entries; its table has [ceil(n * load_factor)] slots. *)
Theorem perfect_sparse_correct (entries : list (K * V)) config m :
  sparse_from_entries entries config = Ok m →
  (∀ k, sparse_get m k = map_of entries !! k) ∧
  sparse_iter m ≡ₚ entries ∧ ps_len m = length entries ∧
  table_size config (length entries) = Ok (sparse_capacity m) ∧ NoDup entries.*1.
Proof using PhfLaws0. apply perfect_sparse_ok. Qed.

Lemma perfect_unchecked_ok (entries : list (K * V)) m :
  unchecked_from_entries entries = Ok m →
  (∀ k v, (k, v) ∈ entries → get_unchecked m k = Some v) ∧
  (entries ≠ [] → ∀ k, ∃ v, get_unchecked m k = Some v ∧ v ∈ entries.*2) ∧
  (entries = [] → ∀ k, get_unchecked m k = None).
Proof using PhfLaws0.
  unfold unchecked_from_entries. set (hashes := (λ kv, hash_one kv.1) <$> entries).
  intros (phf & Hb & Hrun)%try_ok.
  assert (length hashes = length entries.*2) as Hlen by (unfold hashes; by rewrite !length_fmap).
  assert (length entries = length entries.*2) as Hn by by rewrite length_fmap. rewrite Hn in Hb, Hrun.
  destruct (build_dense entries.*2 hashes phf Hlen Hb) as (placed & slots & Hp & He & Hl & Hin & Hat).
  rewrite Hp in Hrun. cbn [try] in Hrun. rewrite He in Hrun. cbn [try] in Hrun. simplify_eq.
  destruct (phf_build_ok hashes _ phf Hb) as (_ & _ & Hlt & _ & _).
  unfold get_unchecked. cbn [pu_values pu_phf]. split_and!.
  - intros k v [i Hi]%list_elem_of_lookup.
    apply (Hat i); [by rewrite list_lookup_fmap, Hi|by eapply entries_lookup].
  - intros Hne k. assert (0 < length entries.*2) as Hpos.
    { rewrite length_fmap. destruct entries; [done|simpl; lia]. }
    destruct (lookup_lt_is_Some_2 slots (phf_index phf (hash_one k))) as [v Hv];
      [rewrite Hl; by apply Hlt|].
    exists v. split; [done|]. rewrite <- Hin. by eapply list_elem_of_lookup_2.
  - intros -> k. apply nil_length_inv in Hl as ->. done.
Qed.

(** The perfect-hash map without keys.  On a map that is built from at least
    one entry every query reads inside the array and returns a stored value,
    for a key of the construction set its own.  On a map built from no entries
    every query reads outside the array. *)
Theorem perfect_unchecked_correct (entries : list (K * V)) m :
  unchecked_from_entries entries = Ok m →
  (∀ k v, (k, v) ∈ entries → get_unchecked m k = Some v) ∧
  (entries ≠ [] → ∀ k, ∃ v, get_unchecked m k = Some v ∧ v ∈ entries.*2) ∧
  (entries = [] → ∀ k, get_unchecked m k = None).
Proof using PhfLaws0. apply perfect_unchecked_ok. Qed.

Lemma perfect_set_ok (keys : list K) s :
  set_from_keys keys = Ok s →
  (∀ k, set_contains s k = Some (bool_decide (k ∈ keys))) ∧
  (∀ k, set_get s k = Some (if decide (k ∈ keys) then Some k else None)) ∧
  pset_slots s ≡ₚ keys ∧ NoDup keys.
Proof using PhfLaws0.
  unfold set_from_keys. set (hashes := hash_one <$> keys). intros (phf & Hb & Hrun)%try_ok.
  assert (length hashes = length keys) as Hlen by apply length_fmap.
  destruct (build_dense keys hashes phf Hlen Hb) as (placed & slots & Hp & He & Hl & Hin & Hat).
  rewrite Hp in Hrun. cbn [try] in Hrun. rewrite He in Hrun. cbn [try] in Hrun. simplify_eq.
  destruct (phf_build_ok hashes _ phf Hb) as (_ & _ & Hlt & Hnd & _).
  assert (NoDup keys) as Hk by (by eapply NoDup_fmap_1).
  assert (∀ k, length slots ≠ 0 → ∃ k', slots !! phf_index phf (hash_one k) = Some k' ∧ (k' = k ↔ k ∈ keys)) as Hslot.
  { intros k Hz. destruct (lookup_lt_is_Some_2 slots (phf_index phf (hash_one k))) as [k' Hs];
      [rewrite Hl; apply Hlt; lia|].
    exists k'. split; [done|]. split; [intros ->; rewrite <- Hin; by eapply list_elem_of_lookup_2|].
    intros [i Hi]%list_elem_of_lookup.
    assert (hashes !! i = Some (hash_one k)) as Hh by (unfold hashes; by rewrite list_lookup_fmap, Hi).
    specialize (Hat i _ _ Hi Hh). congruence. }
  unfold set_contains, set_get. cbn [pset_slots pset_phf].
  split_and!; [| |done|done]; intros k; destruct (Nat.eqb_spec (length slots) 0) as [Hz|Hz].
  1, 3: assert (keys = []) as -> by (apply nil_length_inv; lia); done.
  - cbv zeta. destruct (Hslot k Hz) as (k' & -> & Hiff). f_equal. by apply bool_decide_ext.
  - cbv zeta. destruct (Hslot k Hz) as (k' & -> & Hiff). f_equal.
    case_bool_decide as Hd; case_decide as Hd'; [by rewrite Hd| | |done]; exfalso; tauto.
Qed.

(** The perfect-hash set: membership and the stored key, for every query. *)
Theorem perfect_set_correct (keys : list K) s :
  set_from_keys keys = Ok s →
  (∀ k, set_contains s k = Some (bool_decide (k ∈ keys))) ∧
  (∀ k, set_get s k = Some (if decide (k ∈ keys) then Some k else None)) ∧
  pset_slots s ≡ₚ keys ∧ NoDup keys.
Proof using PhfLaws0. apply perfect_set_ok. Qed.
End maps.

(** ** CHD maps of a few entries *)

Definition demo_hash_one (k : nat) : Z := mix (Z.of_nat k * 11) 77.
Definition demo_entries : list (nat * nat) := (λ k, (k, 10 * k)) <$> seq 0 5.

Lemma perfect_map_correct_witness :
  ∃ m : @PerfectMap ChdPhf nat nat, perfect_from_entries demo_hash_one demo_entries = Ok m ∧
    (∀ k, perfect_get demo_hash_one m k = Some (map_of demo_entries !! k)) ∧
    perfect_iter m ≡ₚ demo_entries ∧ perfect_len m = length demo_entries ∧ NoDup demo_entries.*1.
Proof.
  pose proof (perfect_map_correct (P := ChdPhf) demo_hash_one demo_entries) as Hc.
  destruct (perfect_from_entries demo_hash_one demo_entries) as [m|e|] eqn:E.
  - exists m. split; [reflexivity|exact Hc].
  - vm_compute in E. discriminate E.
  - vm_compute in E. discriminate E.
Defined.

Lemma perfect_sparse_correct_witness :
  ∃ m : @PerfectMapSparse ChdPhf nat nat, sparse_from_entries demo_hash_one demo_entries default_config = Ok m ∧
    (∀ k, sparse_get demo_hash_one m k = map_of demo_entries !! k) ∧
    sparse_iter m ≡ₚ demo_entries ∧ ps_len m = length demo_entries ∧
    table_size default_config (length demo_entries) = Ok (sparse_capacity m) ∧ NoDup demo_entries.*1.
Proof.
  destruct (sparse_from_entries (P := ChdPhf) demo_hash_one demo_entries default_config) as [m|e|] eqn:E.
  - exists m. split; [reflexivity|].
    exact (perfect_sparse_correct demo_hash_one demo_entries default_config m E).
  - vm_compute in E. discriminate E.
  - vm_compute in E. discriminate E.
Defined.

Lemma perfect_unchecked_correct_witness :
  (∃ m : @PerfectMapUnchecked ChdPhf nat, unchecked_from_entries demo_hash_one demo_entries = Ok m ∧
    get_unchecked demo_hash_one m 3 = Some 30) ∧
  (∃ m : @PerfectMapUnchecked ChdPhf nat, unchecked_from_entries (K := nat) demo_hash_one [] = Ok m ∧
    ∀ k, get_unchecked demo_hash_one m k = None).
Proof.
  split.
  - destruct (unchecked_from_entries (P := ChdPhf) demo_hash_one demo_entries) as [m|e|] eqn:E.
    + exists m. split; [reflexivity|].
      apply (perfect_unchecked_correct demo_hash_one demo_entries m E).
      apply list_elem_of_In. vm_compute. tauto.
    + vm_compute in E. discriminate E.
    + vm_compute in E. discriminate E.
  - eexists. split; [vm_compute; reflexivity|].
    apply (perfect_unchecked_correct (P := ChdPhf) (V := nat) demo_hash_one []); vm_compute; reflexivity.
Defined.

Lemma perfect_set_correct_witness :
  ∃ s : @PerfectSet ChdPhf nat, set_from_keys demo_hash_one [3; 1; 4; 5; 9] = Ok s ∧
    (∀ k, set_contains demo_hash_one s k = Some (bool_decide (k ∈ [3; 1; 4; 5; 9]))) ∧
    (∀ k, set_get demo_hash_one s k = Some (if decide (k ∈ [3; 1; 4; 5; 9]) then Some k else None)) ∧
    pset_slots s ≡ₚ [3; 1; 4; 5; 9] ∧ NoDup [3; 1; 4; 5; 9].
Proof.
  destruct (set_from_keys (P := ChdPhf) demo_hash_one [3; 1; 4; 5; 9]) as [s|e|] eqn:E.
  - exists s. split; [reflexivity|]. exact (perfect_set_correct demo_hash_one [3; 1; 4; 5; 9] s E).
  - vm_compute in E. discriminate E.
  - vm_compute in E. discriminate E.
Defined.
