(* ===== verification/TagTable.v ===== *)
(** * Bucketed tag tables

    What the bucketed perfect-hash maps and sets of [perfect/bucketed/mod.rs]
    and [perfect/bucketed/multilevel.rs] share: buckets of 16 tags with the
    entries they guard.  An entry is [None] while its memory is uninitialized;
    reading one, or reading outside an array, is [None] on the outside. *)

From Stdlib Require Import ZArith Lia.
From S2P Require Import Prelude Bitmask HashTag Group.
From S2P Require Export PerfectHash.

(*@ perfect/bucketed/algorithm.rs : pub const SLOTS_PER_BUCKET *)
Definition SLOTS_PER_BUCKET : nat := 16.

(*@ raw/group.rs : pub unsafe fn match_byte_full_16 @1 *)
Definition match_byte_full_16_sse2 (ctrl : list Z) (ptr : nat) (value : Z) : Z :=
  let data := simd_load 16 ctrl ptr in
  let needle := simd_set1 16 value in
  let cmp := simd_cmpeq data needle in
  simd_movemask cmp.

(*@ raw/group.rs : pub unsafe fn match_byte_full_16 @2 *)
Definition match_byte_full_16_scalar (ctrl : list Z) (ptr : nat) (value : Z) : Z :=
  scalar_mask 16 ctrl ptr (λ b, (b =? value)%Z).

Definition match_byte_full_16 (tier : simd_tier) : list Z → nat → Z → Z :=
  match tier with Scalar => match_byte_full_16_scalar | _ => match_byte_full_16_sse2 end.

(*@ perfect/bucketed/mod.rs : 66-76 : BucketTags *)
Definition BucketTags_EMPTY : list Z := replicate SLOTS_PER_BUCKET 0%Z.

Section table.
Context {T K : Type} `{EqDecision K} (key_of : T → K) (tier : simd_tier).

(** The tags and entries of one level. *)
Record TagTable := { tt_tags : list (list Z); tt_entries : list (option T) }.

(** [vec![BucketTags::EMPTY; r]] and [r * SLOTS_PER_BUCKET] uninitialized
    entries. *)
Definition tt_new (r : nat) : TagTable := {|
  tt_tags := replicate r BucketTags_EMPTY;
  tt_entries := replicate (r * SLOTS_PER_BUCKET) None;
|}.

(** [tags[bucket].0[slot] = tag; slots[bucket * SLOTS_PER_BUCKET + slot].write(x)],
    after the assertion that the slot is free. *)
Definition tt_store (t : TagTable) (bucket slot : nat) (tag : Z) (x : T) : Result TagTable :=
  let? tags := expect (tt_tags t !! bucket) in
  let? old := expect (tags !! slot) in
  assert_then (old =? 0)%Z
    (let? _ := expect (tt_entries t !! (bucket * SLOTS_PER_BUCKET + slot)) in
     Ok {| tt_tags := <[bucket := <[slot := tag]> tags]> (tt_tags t);
           tt_entries := <[bucket * SLOTS_PER_BUCKET + slot := Some x]> (tt_entries t) |}).

(** [for slot in mask { ... }] *)
Fixpoint tt_scan (t : TagTable) (base : nat) (slots : list nat) (key : K) : option (option T) :=
  match slots with
  | [] => Some None
  | slot :: slots' =>
      do entry <- mjoin (tt_entries t !! (base + slot));
      if bool_decide (key_of entry = key) then Some (Some entry) else tt_scan t base slots' key
  end.

(** The lookup in a bucket. *)
Definition tt_lookup (t : TagTable) (bucket : nat) (tag : Z) (key : K) : option (option T) :=
  do bucket_tags <- tt_tags t !! bucket;
  let mask := match_byte_full_16 tier bucket_tags 0 tag in
  tt_scan t (bucket * SLOTS_PER_BUCKET) (bits BitMask mask) key.

(** The entries whose tag is not zero, in slot order: what [iter] yields and
    what [drop] drops; [None] for one that is not initialized. *)
(*@ perfect/bucketed/multilevel.rs : fn iter_level *)
Definition iter_level (t : TagTable) : list (option T) :=
  b ← seq 0 (length (tt_tags t));
  omap (λ s, if (byte_at (default [] (tt_tags t !! b)) s =? 0)%Z then None
             else Some (mjoin (tt_entries t !! (b * SLOTS_PER_BUCKET + s))))
    (seq 0 (length (default [] (tt_tags t !! b)))).

(*@ perfect/bucketed/multilevel.rs : fn drop_level *)
Definition drop_level (t : TagTable) : list (option T) := iter_level t.

(** ** The table as a map from positions *)

(** Position [(b, s)] holds a tag and an entry. *)
Record tt_wf (r : nat) (t : TagTable) (m : gmap (nat * nat) (Z * T)) : Prop := {
  tw_tags : length (tt_tags t) = r;
  tw_bucket b : b < r → ∃ l, tt_tags t !! b = Some l ∧ length l = 16 ∧
    ∀ s, s < 16 → l !! s = Some (default 0%Z (fst <$> m !! (b, s)));
  tw_length : length (tt_entries t) = r * 16;
  tw_entry b s : b < r → s < 16 → tt_entries t !! (b * 16 + s) = Some (snd <$> m !! (b, s));
  tw_tag p tag x : m !! p = Some (tag, x) → tag ≠ 0%Z;
  tw_pos b s e : m !! (b, s) = Some e → b < r ∧ s < 16;
}.

Lemma position_lt b s r : b < r → s < 16 → b * 16 + s < r * 16.
Proof. nia. Qed.

Lemma position_eq b s b' s' : s < 16 → s' < 16 → b * 16 + s = b' * 16 + s' → b = b' ∧ s = s'.
Proof. lia. Qed.

Lemma tt_new_wf r : tt_wf r (tt_new r) ∅.
Proof.
  split; cbn [tt_new tt_tags tt_entries].
  - apply length_replicate.
  - intros b Hb. exists BucketTags_EMPTY. split; [by apply lookup_replicate_2|]. split; [done|].
    intros s Hs. rewrite lookup_empty. by apply lookup_replicate_2.
  - apply length_replicate.
  - intros b s Hb Hs. rewrite lookup_empty. by apply lookup_replicate_2, position_lt.
  - intros p tag x Hp. by rewrite lookup_empty in Hp.
  - intros b s e Hp. by rewrite lookup_empty in Hp.
Qed.

Lemma tt_store_ok r t m b s tag x :
  tt_wf r t m → b < r → s < 16 → m !! (b, s) = None → tag ≠ 0%Z →
  ∃ t', tt_store t b s tag x = Ok t' ∧ tt_wf r t' (<[(b, s) := (tag, x)]> m).
Proof.
  intros W Hb Hs Hm Htag. destruct (tw_bucket r t m W b Hb) as (l & Hl & Hlen & Hls).
  unfold tt_store. rewrite Hl. cbn [expect try]. rewrite (Hls s Hs), Hm. cbn [expect try fmap option_fmap option_map default].
  cbn [assert_then]. change (b * SLOTS_PER_BUCKET + s) with (b * 16 + s).
  pose proof (tw_entry r t m W b s Hb Hs) as He. rewrite He. cbn [expect try].
  eexists. split; [reflexivity|]. pose proof (tw_tags r t m W). pose proof (tw_length r t m W).
  pose proof (position_lt b s r Hb Hs). split; cbn [tt_tags tt_entries].
  - by rewrite length_insert.
  - intros b' Hb'. destruct (decide (b = b')) as [<-|Hne].
    + exists (<[s := tag]> l). rewrite list_lookup_insert_eq, length_insert by lia.
      split_and!; [done|done|]. intros s' Hs'. destruct (decide (s = s')) as [<-|Hne].
      * rewrite list_lookup_insert_eq, lookup_insert_eq by lia. done.
      * rewrite list_lookup_insert_ne, lookup_insert_ne by congruence. by apply Hls.
    + rewrite list_lookup_insert_ne by done. destruct (tw_bucket r t m W b' Hb') as (l' & ? & ? & Hl').
      exists l'. split_and!; [done|done|]. intros s' Hs'. rewrite lookup_insert_ne by congruence. by apply Hl'.
  - by rewrite length_insert.
  - intros b' s' Hb' Hs'. destruct (decide ((b, s) = (b', s'))) as [[= <- <-]|Hne].
    + rewrite list_lookup_insert_eq, lookup_insert_eq by lia. done.
    + rewrite list_lookup_insert_ne by (intros Heq; apply Hne; by destruct (position_eq b s b' s') as [-> ->]).
      rewrite lookup_insert_ne by done. by apply (tw_entry r t m W).
  - intros p tag' x'. destruct (decide (p = (b, s))) as [->|].
    + rewrite lookup_insert_eq. by intros [= <- <-].
    + rewrite lookup_insert_ne by done. apply (tw_tag r t m W).
  - intros b' s' e. destruct (decide ((b', s') = (b, s))) as [[= -> ->]|]; [done|].
    rewrite lookup_insert_ne by done. apply (tw_pos r t m W).
Qed.

(** ** Lookup *)

Lemma match_full_bits l tag :
  bits BitMask (match_byte_full_16 tier l 0 tag) =
  List.filter (λ s, (byte_at l s =? tag)%Z) (seq 0 16).
Proof.
  apply bits_repr; [|simpl; lia]. eapply mask_repr_ext;
    [|intros i Hi; change (byte_at l i) with (byte_at l (0 + i)); reflexivity].
  unfold match_byte_full_16. destruct tier; first [apply cmpeq_repr|apply scalar_repr].
Qed.

Lemma tt_scan_ok r t m b slots tag key :
  tt_wf r t m → b < r →
  (∀ s, s ∈ slots → s < 16 ∧ fst <$> m !! (b, s) = Some tag) →
  ∃ res, tt_scan t (b * 16) slots key = Some res ∧
    match res with
    | Some x => key_of x = key ∧ ∃ s, s ∈ slots ∧ m !! (b, s) = Some (tag, x)
    | None => ∀ s x, s ∈ slots → m !! (b, s) = Some (tag, x) → key_of x ≠ key
    end.
Proof.
  intros W Hb. induction slots as [|s slots IH]; intros Hs; cbn [tt_scan].
  - exists None. split; [done|]. intros s x Hin. by apply not_elem_of_nil in Hin.
  - destruct (Hs s ltac:(by left)) as [Hlt Htag]. apply fmap_Some in Htag as ([tag' x] & Hm & Heq).
    simpl in Heq. subst tag'. rewrite (tw_entry r t m W b s Hb Hlt), Hm. cbn [fmap option_fmap option_map mjoin option_join snd].
    case_bool_decide as Hk.
    + exists (Some x). split; [done|]. split; [done|]. exists s. split; [by left|done].
    + destruct IH as (res & -> & Hres); [intros s' Hs'; apply Hs; by right|].
      exists res. split; [done|]. destruct res as [y|].
      * destruct Hres as (? & s' & ? & ?). split; [done|]. exists s'. split; [by right|done].
      * intros s' y [->|Hin]%elem_of_cons Hy; [simplify_eq; done|by apply (Hres s' y)].
Qed.

(** A lookup never reads an uninitialized entry. *)
Lemma tt_lookup_ok r t m b tag key :
  tt_wf r t m → b < r → tag ≠ 0%Z →
  ∃ res, tt_lookup t b tag key = Some res ∧
    match res with
    | Some x => key_of x = key ∧ ∃ s, m !! (b, s) = Some (tag, x)
    | None => ∀ s x, m !! (b, s) = Some (tag, x) → key_of x ≠ key
    end.
Proof.
  intros W Hb Htag. unfold tt_lookup. destruct (tw_bucket r t m W b Hb) as (l & -> & Hlen & Hl).
  rewrite match_full_bits. change (b * SLOTS_PER_BUCKET) with (b * 16). cbv zeta.
  assert (∀ s, s ∈ List.filter (λ s, (byte_at l s =? tag)%Z) (seq 0 16) ↔
    s < 16 ∧ fst <$> m !! (b, s) = Some tag) as Hslots.
  { intros s. rewrite list_elem_of_In, List.filter_In, in_seq. unfold byte_at. split.
    - intros [Hs Heq]. assert (s < 16) as Hlt by lia. rewrite (Hl s Hlt) in Heq. split; [done|].
      apply Z.eqb_eq in Heq. cbn in Heq. destruct (m !! (b, s)) as [[tg x]|]; cbn in *; congruence.
    - intros [Hlt Heq]. split; [lia|]. rewrite (Hl s Hlt), Heq. cbn. apply Z.eqb_refl. }
  destruct (tt_scan_ok r t m b _ tag key W Hb (λ s Hs, proj1 (Hslots s) Hs)) as (res & -> & Hres).
  exists res. split; [done|]. destruct res as [x|].
  - destruct Hres as (? & s & _ & ?). eauto.
  - intros s x Hm. apply (Hres s x); [|done]. apply Hslots.
    destruct (tw_pos r t m W b s _ Hm). split; [done|by rewrite Hm].
Qed.

(** Iteration and drop visit every entry once, all of them initialized. *)
Lemma iter_level_spec r t m :
  tt_wf r t m → iter_level t = Some <$> omap (λ p, snd <$> m !! p) (slot_list r 16).
Proof.
  intros W. unfold iter_level, slot_list. rewrite (tw_tags r t m W).
  assert (∀ b, b < r → omap (λ s, if (byte_at (default [] (tt_tags t !! b)) s =? 0)%Z then None
      else Some (mjoin (tt_entries t !! (b * SLOTS_PER_BUCKET + s))))
      (seq 0 (length (default [] (tt_tags t !! b)))) =
    Some <$> omap (λ p, snd <$> m !! p) (pair b <$> seq 0 16)) as Hb.
  { intros b Hb. destruct (tw_bucket r t m W b Hb) as (l & -> & Hlen & Hl). cbn [default]. unfold id.
    rewrite Hlen. assert (∀ s, s ∈ seq 0 16 → s < 16) as Hs by (intros s Hs%elem_of_seq; lia).
    revert Hs. generalize (seq 0 16). intros ss Hs. induction ss as [|s ss IH]; [done|]. csimpl.
    assert (s < 16) as Hlt by (apply Hs; by left). unfold byte_at at 1. rewrite (Hl s Hlt). cbn [default]. unfold id.
    change (b * SLOTS_PER_BUCKET + s) with (b * 16 + s). rewrite (tw_entry r t m W b s Hb Hlt).
    rewrite IH by (intros; apply Hs; by right).
    destruct (m !! (b, s)) as [[tag x]|] eqn:Hm; [|done]. cbn.
    apply (tw_tag r t m W) in Hm. by apply Z.eqb_neq in Hm as ->. }
  assert (∀ b, b ∈ seq 0 r → b < r) as Hin by (intros b Hb'%elem_of_seq; lia).
  clear W. revert Hb. generalize (seq 0 16). intros ss Hb.
  revert Hin. generalize (seq 0 r). intros bs Hin. induction bs as [|b bs IH]; [done|].
  csimpl. rewrite omap_app, fmap_app, Hb by (apply Hin; by left).
  f_equal. apply IH. intros b' Hb'. apply Hin. by right.
Qed.

(** Storing adds one entry to what is iterated. *)
Lemma iter_store_perm (r b s : nat) (tag : Z) (x : T) (m : gmap (nat * nat) (Z * T)) :
  b < r → s < 16 → m !! (b, s) = None →
  omap (λ p, snd <$> <[(b, s) := (tag, x)]> m !! p) (slot_list r 16) ≡ₚ
  x :: omap (λ p, snd <$> m !! p) (slot_list r 16).
Proof.
  intros Hb Hs Hm. apply (omap_fill_perm _ _ (b, s)).
  all: try (apply slot_list_NoDup || by apply elem_of_slot_list).
  - by rewrite Hm.
  - by rewrite lookup_insert_eq.
  - intros q Hq Hne. by rewrite lookup_insert_ne by congruence.
Qed.

Lemma iter_empty (r : nat) : omap (λ p, snd <$> (∅ : gmap (nat * nat) (Z * T)) !! p) (slot_list r 16) = [].
Proof. apply omap_none. intros p _. by rewrite lookup_empty. Qed.

(** ** Storing a list of entries *)

(** The stores of a construction, in order. *)
Fixpoint tt_store_list (ps : list ((nat * nat) * (Z * T))) (t : TagTable) : Result TagTable :=
  match ps with
  | [] => Ok t
  | ((b, s), (tag, x)) :: ps' => let? t := tt_store t b s tag x in tt_store_list ps' t
  end.

(** Positions of their own, inside the table, with proper tags. *)
Record storable (r : nat) (ps : list ((nat * nat) * (Z * T))) : Prop := {
  st_NoDup : NoDup ps.*1;
  st_range b s e : ((b, s), e) ∈ ps → b < r ∧ s < 16;
  st_tag p tag x : (p, (tag, x)) ∈ ps → tag ≠ 0%Z;
}.

Lemma tt_store_list_wf r ps t m :
  tt_wf r t m → storable r ps → (∀ p, p ∈ ps.*1 → m !! p = None) →
  ∃ t' m', tt_store_list ps t = Ok t' ∧ tt_wf r t' m' ∧
    (∀ p e, m' !! p = Some e ↔ (p, e) ∈ ps ∨ m !! p = Some e) ∧
    iter_level t' ≡ₚ (Some <$> ps.*2.*2) ++ iter_level t.
Proof.
  revert t m. induction ps as [|[[b s] [tag x]] ps IH]; intros t m W St Hfree; cbn [tt_store_list].
  { exists t, m. split_and!; [done|done| |done]. intros p e. rewrite elem_of_nil. tauto. }
  destruct St as [Hnd Hr Ht]. csimpl in Hnd. apply NoDup_cons in Hnd as [Hnew Hnd].
  destruct (Hr b s (tag, x)) as [Hb Hs]; [by left|].
  assert (m !! (b, s) = None) as Hm by (apply Hfree; by left).
  destruct (tt_store_ok r t m b s tag x W Hb Hs Hm) as (t1 & Hrun & W1); [by apply (Ht (b, s) tag x); left|].
  rewrite Hrun. cbn [try].
  destruct (IH t1 (<[(b, s) := (tag, x)]> m) W1) as (t' & m' & -> & W' & Hm' & Hp).
  - split; [done| |]; intros; [eapply Hr|eapply Ht]; by right.
  - intros p Hp. rewrite lookup_insert_ne by congruence. apply Hfree. by right.
  - exists t', m'. split_and!; [done|done| |].
    + intros p e. rewrite Hm', elem_of_cons. destruct (decide (p = (b, s))) as [->|Hne].
      * rewrite lookup_insert_eq, Hm. split; [intros [?|[= <-]]; auto|].
        intros [[[= ->]|?]|?]; [by right|by left|done].
      * rewrite lookup_insert_ne by done. naive_solver.
    + rewrite Hp, (iter_level_spec r t1 _ W1), (iter_level_spec r t m W).
      rewrite iter_store_perm by done. csimpl. by rewrite Permutation_middle.
Qed.

(** A table filled from nothing. *)
Lemma tt_fill r ps :
  storable r ps →
  ∃ t m, tt_store_list ps (tt_new r) = Ok t ∧ tt_wf r t m ∧
    (∀ p e, m !! p = Some e ↔ (p, e) ∈ ps) ∧ iter_level t ≡ₚ Some <$> ps.*2.*2.
Proof.
  intros St. destruct (tt_store_list_wf r ps (tt_new r) ∅ (tt_new_wf r) St) as (t & m & ? & ? & Hm & Hp).
  { intros p _. apply lookup_empty. }
  exists t, m. split_and!; [done..| |].
  - intros p e. rewrite Hm, lookup_empty. naive_solver.
  - by rewrite Hp, (iter_level_spec r _ _ (tt_new_wf r)), iter_empty, app_nil_r.
Qed.

(** When the stored entries equal to the key are all in the bucket searched,
    under the tag searched for, the lookup finds the key exactly if it is
    stored. *)
Lemma tt_lookup_answer r t m ps b tag key :
  tt_wf r t m → (∀ p e, m !! p = Some e ↔ (p, e) ∈ ps) → b < r → tag ≠ 0%Z →
  (∀ b' s tag' x, ((b', s), (tag', x)) ∈ ps → key_of x = key → b' = b ∧ tag' = tag) →
  (∀ x y, x ∈ ps.*2.*2 → y ∈ ps.*2.*2 → key_of x = key_of y → x = y) →
  ∃ res, tt_lookup t b tag key = Some res ∧
    ∀ x, res = Some x ↔ x ∈ ps.*2.*2 ∧ key_of x = key.
Proof.
  intros W Hm Hb Htag Hkey Hinj. destruct (tt_lookup_ok r t m b tag key W Hb Htag) as (res & Hrun & Hres).
  exists res. split; [done|].
  assert (∀ p tg x, (p, (tg, x)) ∈ ps → x ∈ ps.*2.*2) as Hin.
  { intros p tg x Hx. apply list_elem_of_fmap. exists (tg, x). split; [done|].
    apply list_elem_of_fmap. by exists (p, (tg, x)). }
  destruct res as [y|].
  - destruct Hres as (Hy & s & Hs%Hm). intros x. split.
    + intros [= <-]. split; [by eapply Hin|done].
    + intros [Hx Hxk]. f_equal. apply Hinj; [by eapply Hin|done|congruence].
  - intros x. split; [done|]. intros [Hx Hxk]. exfalso.
    apply list_elem_of_fmap in Hx as ([tg x'] & -> & Hx). apply list_elem_of_fmap in Hx as ([[b' s] e] & Heq & Hx).
    cbn [snd] in *. subst e. destruct (Hkey b' s tg x' Hx Hxk) as [-> ->]. exact (Hres s x' (proj2 (Hm _ _) Hx) Hxk).
Qed.

(** ** Tables filled from placements *)

Section placed.
Context (feature : hash_feature) (sel : nat → bool) (pos : nat → nat * nat).

(** The entries of the selected items, in order. *)
Fixpoint stored_at (items : list (T * Z)) (i : nat) : list ((nat * nat) * (Z * T)) :=
  match items with
  | [] => []
  | (x, h) :: items' =>
      if sel i then (pos i, (hash_tag feature h, x)) :: stored_at items' (S i)
      else stored_at items' (S i)
  end.

Lemma elem_of_stored_at items i p tag x :
  (p, (tag, x)) ∈ stored_at items i ↔
  ∃ k h, items !! k = Some (x, h) ∧ sel (i + k) = true ∧ p = pos (i + k) ∧ tag = hash_tag feature h.
Proof using Type.
  clear dependent K.
  revert i. induction items as [|[y g] items IH]; intros i; cbn [stored_at].
  { split; [intros Hn; by apply not_elem_of_nil in Hn|intros (k & h & Hk & _); by destruct k]. }
  assert ((p, (tag, x)) ∈ stored_at items (S i) ↔ ∃ k h, ((y, g) :: items) !! S k = Some (x, h) ∧
    sel (i + S k) = true ∧ p = pos (i + S k) ∧ tag = hash_tag feature h) as Hrest.
  { rewrite IH. apply exist_proper. intros k. by replace (i + S k) with (S i + k) by lia. }
  transitivity ((sel i = true ∧ p = pos i ∧ tag = hash_tag feature g ∧ x = y) ∨ (p, (tag, x)) ∈ stored_at items (S i)).
  { destruct (sel i); [rewrite elem_of_cons|]; naive_solver. }
  rewrite Hrest. split.
  - intros [(?&->&->&->)|(k & h & ?)]; [|by exists (S k), h].
    exists 0, g. by rewrite Nat.add_0_r.
  - intros ([|k] & h & Hk & Hrest'); [|right; by exists k, h].
    rewrite Nat.add_0_r in Hrest'. cbn in Hk. simplify_eq. left. naive_solver.
Qed.

Lemma elem_of_stored_entries items i x :
  x ∈ (stored_at items i).*2.*2 ↔ ∃ k h, items !! k = Some (x, h) ∧ sel (i + k) = true.
Proof using Type.
  clear dependent K.
  split.
  - intros ([tag y] & Heq & ([p e] & He & Hin)%list_elem_of_fmap)%list_elem_of_fmap.
    cbn [snd] in *. subst e y. apply elem_of_stored_at in Hin as (k & h & ? & ? & _). eauto.
  - intros (k & h & Hk & Hs). apply list_elem_of_fmap. exists (hash_tag feature h, x). split; [done|].
    apply list_elem_of_fmap. exists (pos (i + k), (hash_tag feature h, x)). split; [done|].
    apply elem_of_stored_at. eauto 6.
Qed.

Lemma stored_at_storable items i r :
  (∀ k x h, items !! k = Some (x, h) → sel (i + k) = true → (pos (i + k)).1 < r ∧ (pos (i + k)).2 < 16) →
  (∀ k k' e e', items !! k = Some e → items !! k' = Some e' →
    sel (i + k) = true → sel (i + k') = true → pos (i + k) = pos (i + k') → k = k') →
  storable r (stored_at items i).
Proof using Type.
  clear dependent K.
  intros Hr Hinj. split.
  - revert i Hr Hinj. induction items as [|[y g] items IH]; intros i Hr Hinj; cbn [stored_at]; [constructor|].
    assert (NoDup (stored_at items (S i)).*1) as Hnd.
    { apply IH; intros k; [intros x h|intros k' e e']; replace (S i + k) with (i + S k) by lia; [apply (Hr (S k))|].
      replace (S i + k') with (i + S k') by lia. intros Hk Hk' Hs Hs' Heq.
      by assert (S k = S k') as [=] by by apply (Hinj (S k) (S k') e e'). }
    destruct (sel i) eqn:Hs; [|done]. csimpl. apply NoDup_cons. split; [|done].
    intros ([p [tag x]] & Hp & Hin)%list_elem_of_fmap. cbn [fst] in Hp. subst p.
    apply elem_of_stored_at in Hin as (k & h & Hk & Hsk & Hpk & _).
    assert (0 = S k) as [=]. apply (Hinj 0 (S k) (y, g) (x, h)); rewrite ?Nat.add_0_r; try done;
      by replace (i + S k) with (S i + k) by lia.
  - intros b s [tag x] Hin. apply elem_of_stored_at in Hin as (k & h & Hk & Hs & Hp & _).
    specialize (Hr k x h Hk Hs). by rewrite <- Hp in Hr.
  - intros p tag x Hin. apply elem_of_stored_at in Hin as (k & h & _ & _ & _ & ->).
    pose proof (hash_tag_range feature h). lia.
Qed.

(** The table of the selected items answers lookups of them. *)
Lemma placed_table items r :
  (∀ k x h, items !! k = Some (x, h) → sel k = true → (pos k).1 < r ∧ (pos k).2 < 16) →
  (∀ k k' e e', items !! k = Some e → items !! k' = Some e' →
    sel k = true → sel k' = true → pos k = pos k' → k = k') →
  (∀ x y, x ∈ items.*1 → y ∈ items.*1 → key_of x = key_of y → x = y) →
  ∃ t, tt_store_list (stored_at items 0) (tt_new r) = Ok t ∧ length (tt_tags t) = r ∧
    iter_level t ≡ₚ Some <$> (stored_at items 0).*2.*2 ∧
    ∀ b key h, b < r →
      (∀ k x h', items !! k = Some (x, h') → sel k = true → key_of x = key → h' = h ∧ (pos k).1 = b) →
      ∃ res, tt_lookup t b (hash_tag feature h) key = Some res ∧
        ∀ x, res = Some x ↔ (∃ k h', items !! k = Some (x, h') ∧ sel k = true) ∧ key_of x = key.
Proof using Type.
  intros Hr Hinj Hkeys. destruct (tt_fill r (stored_at items 0)) as (t & m & Hrun & W & Hm & Hp).
  { apply stored_at_storable; [exact Hr|exact Hinj]. }
  exists t. split_and!; [done|apply (tw_tags r t m W)|done|].
  intros b key h Hb Hkey.
  destruct (tt_lookup_answer r t m (stored_at items 0) b (hash_tag feature h) key W Hm Hb) as (res & Hl & Hres).
  - pose proof (hash_tag_range feature h). lia.
  - intros b' s tag' x Hin Hx. apply elem_of_stored_at in Hin as (k & h' & Hk & Hs & Hpos & ->).
    cbn [Nat.add] in *. destruct (Hkey k x h' Hk Hs Hx) as [-> <-]. by rewrite <- Hpos.
  - intros x y (k & h1 & Hk & _)%elem_of_stored_entries (k' & h2 & Hk' & _)%elem_of_stored_entries.
    apply Hkeys; apply list_elem_of_fmap; [exists (x, h1)|exists (y, h2)]; (split; [done|by eapply list_elem_of_lookup_2]).
  - exists res. split; [done|]. intros x. by rewrite Hres, elem_of_stored_entries.
Qed.
End placed.

(** Splitting the items over two tables loses none. *)
Lemma stored_at_split feature sel pos pos' items i :
  (stored_at feature sel pos items i).*2.*2 ++
  (stored_at feature (λ k, negb (sel k)) pos' items i).*2.*2 ≡ₚ items.*1.
Proof.
  revert i. induction items as [|[x h] items IH]; intros i; [done|]. cbn [stored_at].
  destruct (sel i); csimpl; [by rewrite IH|]. by rewrite <- Permutation_middle, IH.
Qed.

Lemma stored_at_all feature pos items i :
  (stored_at feature (λ _, true) pos items i).*2.*2 = items.*1.
Proof. revert i. induction items as [|[x h] items IH]; intros i; [done|]. csimpl. by rewrite IH. Qed.
End table.
Arguments TagTable : clear implicits.
