(* ===== verification/Bucketed.v ===== *)
(** * Bucketed perfect hashing

    [perfect/bucketed/algorithm.rs] and [perfect/bucketed/mod.rs]: keys are
    hashed to buckets of 16 slots until a seed fills none of them beyond 16;
    the map and the set scan the tags of one bucket. *)

From Stdlib Require Import ZArith Lia.
From S2P Require Export PerfectHash TagTable.
From S2P Require Import Prelude HashTag Group Float64.

(*@ perfect/bucketed/algorithm.rs : 41-54 : DEFAULT_LAMBDA, MAX_SEED_RETRIES, SEED_BASE *)
Definition BUCKETED_SEED_RETRIES : nat := 64.
Definition BUCKETED_SEED_BASE : Z := 0xD6E8FEB86659FD93.

(*@ perfect/bucketed/algorithm.rs : pub struct BucketedPhf *)
Record BucketedPhf := { bp_seed : Z; num_buckets : nat }.

(*@ perfect/bucketed/algorithm.rs : pub struct Placements *)
Record Placements := { bucket : list nat; slot : list nat }.

(** One attempt: the loop over the hashes.  [None] when a bucket overflows. *)
Fixpoint assign_slots (seed : Z) (r : nat) (hashes : list Z) (i : nat)
    (arrays : list nat * list nat) (bucket_size : list nat) :
    (list nat * list nat) * bool :=
  match hashes with
  | [] => (arrays, true)
  | h :: hashes' =>
      let b := bucket_of h seed r in
      let bs := default 0 (bucket_size !! b) in
      if SLOTS_PER_BUCKET <=? bs then (arrays, false)
      else assign_slots seed r hashes' (S i) (<[i := b]> arrays.1, <[i := bs]> arrays.2)
             (<[b := S bs]> bucket_size)
  end.

(** ['seeds: for seed_try in ..]: the placement arrays are reused. *)
Fixpoint bucketed_seeds (hashes : list Z) (r : nat) (seeds : list nat) (arrays : list nat * list nat) :
    Result (BucketedPhf * Placements) :=
  match seeds with
  | [] => Err Exhausted
  | seed_try :: seeds' =>
      let seed := wrap64 (BUCKETED_SEED_BASE + Z.of_nat seed_try) in
      match assign_slots seed r hashes 0 arrays (replicate r 0) with
      | (arrays, true) =>
          Ok ({| bp_seed := seed; num_buckets := r |}, {| bucket := arrays.1; slot := arrays.2 |})
      | (arrays, false) => bucketed_seeds hashes r seeds' arrays
      end
  end.

(** [(n as f64 / lambda).ceil() as usize], at least 1. *)
Definition bucket_count (n : nat) (lambda : f64) : Z :=
  Z.max (f64_ceil_usize (f64_div (f64_of_usize n) lambda)) 1.

(** [lambda > 0.0 && lambda < SLOTS_PER_BUCKET as f64] *)
Definition lambda_ok (lambda : f64) : bool :=
  f64_lt (S754_zero false) lambda && f64_lt lambda f64_16.

(*@ perfect/bucketed/algorithm.rs : pub fn build( *)
Definition bucketed_build (hashes : list Z) (lambda : f64) : Result (BucketedPhf * Placements) :=
  assert_then (lambda_ok lambda)
    (let n := length hashes in
     if n =? 0 then
       Ok ({| bp_seed := BUCKETED_SEED_BASE; num_buckets := 0 |}, {| bucket := []; slot := [] |})
     else if has_duplicate hashes then Err DuplicateHash
     else
       let r := bucket_count n lambda in
       assert_then (r <? 2 ^ 32)%Z
         (bucketed_seeds hashes (Z.to_nat r) (seq 0 BUCKETED_SEED_RETRIES)
            (replicate n 0, replicate n 0))).

(*@ perfect/bucketed/algorithm.rs : pub fn bucket( *)
Definition bucketed_bucket (p : BucketedPhf) (hash : Z) : nat :=
  if num_buckets p =? 0 then 0 else bucket_of hash (bp_seed p) (num_buckets p).

Section map.
Context (feature : hash_feature) (tier : simd_tier).

(** The loop that stores the entries with the tags of their hashes. *)
Fixpoint store_items {T} (pl : Placements) (items : list (T * Z)) (i : nat) (t : TagTable T) :
    Result (TagTable T) :=
  match items with
  | [] => Ok t
  | (x, h) :: items' =>
      let? bucket := expect (bucket pl !! i) in
      let? slot := expect (slot pl !! i) in
      let tag := hash_tag feature h in
      let? t := tt_store t bucket slot tag x in
      store_items pl items' (S i) t
  end.

Context {K V : Type} `{Countable K} (hash_one : K → Z).

(*@ perfect/bucketed/mod.rs : pub struct PerfectMapBucketed *)
Record PerfectMapBucketed := { pb_table : TagTable (K * V); pb_phf : BucketedPhf; pb_len : nat }.

(*@ perfect/bucketed/mod.rs : pub fn from_entries< *)
Definition bucketed_from_entries (entries : list (K * V)) (lambda : f64) : Result PerfectMapBucketed :=
  let n := length entries in
  if n =? 0 then
    let? (phf, _) := bucketed_build [] lambda in
    Ok {| pb_table := tt_new 0; pb_phf := phf; pb_len := 0 |}
  else
    let hashes := (λ kv, hash_one kv.1) <$> entries in
    let? (phf, placements) := bucketed_build hashes lambda in
    let? t := store_items placements (zip entries hashes) 0 (tt_new (num_buckets phf)) in
    Ok {| pb_table := t; pb_phf := phf; pb_len := n |}.

(*@ perfect/bucketed/mod.rs : pub fn get< @1 *)
Definition bucketed_get (m : PerfectMapBucketed) (key : K) : option (option V) :=
  if length (tt_tags (pb_table m)) =? 0 then Some None
  else
    let hash := hash_one key in
    let bucket := bucketed_bucket (pb_phf m) hash in
    let tag := hash_tag feature hash in
    do r <- tt_lookup fst tier (pb_table m) bucket tag key;
    Some (snd <$> r).

(*@ perfect/bucketed/mod.rs : pub fn contains_key *)
Definition bucketed_contains_key (m : PerfectMapBucketed) (key : K) : option bool :=
  do r <- bucketed_get m key; Some (bool_decide (is_Some r)).

(*@ perfect/bucketed/mod.rs : pub fn iter *)
Definition bucketed_iter (m : PerfectMapBucketed) : list (option (K * V)) := iter_level (pb_table m).

(*@ perfect/bucketed/mod.rs : fn drop @1 *)
Definition bucketed_drop (m : PerfectMapBucketed) : list (option (K * V)) := drop_level (pb_table m).

(** ** The set *)

(*@ perfect/bucketed/mod.rs : pub struct PerfectSetBucketed *)
Record PerfectSetBucketed := { sb_table : TagTable K; sb_phf : BucketedPhf; sb_len : nat }.

(*@ perfect/bucketed/mod.rs : pub fn from_keys *)
Definition bucketed_from_keys (keys : list K) (lambda : f64) : Result PerfectSetBucketed :=
  let n := length keys in
  if n =? 0 then
    let? (phf, _) := bucketed_build [] lambda in
    Ok {| sb_table := tt_new 0; sb_phf := phf; sb_len := 0 |}
  else
    let hashes := hash_one <$> keys in
    let? (phf, placements) := bucketed_build hashes lambda in
    let? t := store_items placements (zip keys hashes) 0 (tt_new (num_buckets phf)) in
    Ok {| sb_table := t; sb_phf := phf; sb_len := n |}.

(*@ perfect/bucketed/mod.rs : pub fn get< @2 *)
Definition bucketed_set_get (s : PerfectSetBucketed) (key : K) : option (option K) :=
  if length (tt_tags (sb_table s)) =? 0 then Some None
  else
    let hash := hash_one key in
    let bucket := bucketed_bucket (sb_phf s) hash in
    let tag := hash_tag feature hash in
    tt_lookup id tier (sb_table s) bucket tag key.

(*@ perfect/bucketed/mod.rs : pub fn contains< *)
Definition bucketed_set_contains (s : PerfectSetBucketed) (key : K) : option bool :=
  do r <- bucketed_set_get s key; Some (bool_decide (is_Some r)).
End map.

(** ** Bucketed perfect hashing: correctness *)

(** Every key gets a slot of its own in the bucket its hash selects, so that the
    scan of one bucket's tags answers every query. *)

(** ** The placement loop *)

Record assigned (seed : Z) (r : nat) (hs : list Z) (arr : list nat * list nat) (size : list nat) : Prop := {
  as_length : length size = r;
  as_le b n : size !! b = Some n → n <= 16;
  as_at k h : hs !! k = Some h →
    arr.1 !! k = Some (bucket_of h seed r) ∧
    ∃ s n, arr.2 !! k = Some s ∧ size !! bucket_of h seed r = Some n ∧ s < n;
  as_inj k k' h h' s : hs !! k = Some h → hs !! k' = Some h' →
    bucket_of h seed r = bucket_of h' seed r →
    arr.2 !! k = Some s → arr.2 !! k' = Some s → k = k';
}.

Lemma assigned_nil seed r arr : assigned seed r [] arr (replicate r 0).
Proof.
  split; [apply length_replicate| |done|done].
  intros b n [-> _]%lookup_replicate. lia.
Qed.

Lemma assigned_step seed r hs h arr size bs :
  0 < r → assigned seed r hs arr size →
  length hs < length arr.1 → length hs < length arr.2 →
  size !! bucket_of h seed r = Some bs → bs < 16 →
  assigned seed r (hs ++ [h])
    (<[length hs := bucket_of h seed r]> arr.1, <[length hs := bs]> arr.2)
    (<[bucket_of h seed r := S bs]> size).
Proof.
  intros Hr A H1 H2 Hbs Hlt. pose proof (as_length _ _ _ _ _ A) as Hl.
  assert (∀ k g, hs !! k = Some g → k ≠ length hs) as Hold.
  { intros k g Hk ->. apply lookup_lt_Some in Hk. lia. }
  split; cbn [fst snd].
  - by rewrite length_insert.
  - intros b n. destruct (decide (b = bucket_of h seed r)) as [->|].
    + rewrite list_lookup_insert_eq by (by eapply lookup_lt_Some). intros [= <-]. lia.
    + rewrite list_lookup_insert_ne by done. apply (as_le _ _ _ _ _ A).
  - intros k g [Hk|[Hk Hg]]%lookup_snoc_Some.
    + destruct Hk as [_ Hk]. pose proof (Hold k g Hk).
      destruct (as_at _ _ _ _ _ A k g Hk) as (Hb & s & n & Hs & Hn & Hsn).
      rewrite !list_lookup_insert_ne by done. split; [done|].
      destruct (decide (bucket_of g seed r = bucket_of h seed r)) as [Heq|Hne].
      * exists s, (S bs). split_and!; [done| |].
        -- rewrite Heq. apply list_lookup_insert_eq. by eapply lookup_lt_Some.
        -- rewrite Heq, Hbs in Hn. simplify_eq. lia.
      * exists s, n. rewrite list_lookup_insert_ne by done. done.
    + subst k g. rewrite !list_lookup_insert_eq by done. split; [done|]. exists bs, (S bs).
      split_and!; [done| |lia]. apply list_lookup_insert_eq. by eapply lookup_lt_Some.
  - assert (∀ k g s, hs !! k = Some g → bucket_of g seed r = bucket_of h seed r →
      <[length hs := bs]> arr.2 !! k = Some s → s ≠ bs) as Hfresh.
    { intros k g s Hk Heq Hs ->. rewrite list_lookup_insert_ne in Hs by (symmetry; by eapply Hold).
      destruct (as_at _ _ _ _ _ A k g Hk) as (_ & s' & n & Hs' & Hn & Hsn).
      rewrite Heq, Hbs in Hn. simplify_eq. lia. }
    intros k k' g g' s Hk Hk' Heq Hs Hs'.
    apply lookup_snoc_Some in Hk as [[_ Hk]|[-> <-]], Hk' as [[_ Hk']|[-> <-]]; [| | |done].
    + rewrite list_lookup_insert_ne in Hs by (symmetry; by eapply Hold).
      rewrite list_lookup_insert_ne in Hs' by (symmetry; by eapply Hold).
      by apply (as_inj _ _ _ _ _ A k k' g g' s).
    + rewrite list_lookup_insert_eq in Hs' by done. simplify_eq.
      by destruct (Hfresh k g s Hk Heq Hs).
    + rewrite list_lookup_insert_eq in Hs by done. simplify_eq.
      by destruct (Hfresh k' g' s Hk' (eq_sym Heq) Hs').
Qed.

Lemma assign_slots_spec seed r hs hs' arr size :
  0 < r → assigned seed r hs arr size →
  length arr.1 = length (hs ++ hs') → length arr.2 = length (hs ++ hs') →
  let '(arr', ok) := assign_slots seed r hs' (length hs) arr size in
  length arr'.1 = length (hs ++ hs') ∧ length arr'.2 = length (hs ++ hs') ∧
  (ok = true → ∃ size', assigned seed r (hs ++ hs') arr' size').
Proof.
  intros Hr. revert hs arr size. induction hs' as [|h hs' IH]; intros hs arr size A H1 H2; cbn [assign_slots].
  - split_and!; [done..|]. intros _. exists size. by rewrite app_nil_r.
  - destruct (lookup_lt_is_Some_2 size (bucket_of h seed r)) as [bs Hbs].
    { rewrite (as_length _ _ _ _ _ A). by apply bucket_of_lt. }
    rewrite Hbs. cbn [default]. unfold id.
    destruct (Nat.leb_spec SLOTS_PER_BUCKET bs) as [|Hlt]; [by split_and!|].
    rewrite !length_app in H1, H2. cbn [length] in H1, H2.
    rewrite (cons_middle h hs hs'), app_assoc.
    replace (S (length hs)) with (length (hs ++ [h])) by (rewrite length_app; simpl; lia).
    apply (IH (hs ++ [h])).
    + apply assigned_step; [done|done|lia|lia|done|exact Hlt].
    + cbn [fst]. rewrite length_insert, !length_app. simpl. lia.
    + cbn [snd]. rewrite length_insert, !length_app. simpl. lia.
Qed.

(** What the placements promise to the maps. *)
Record placements_ok (hashes : list Z) (phf : BucketedPhf) (pl : Placements) : Prop := {
  po_at k h : hashes !! k = Some h →
    bucketed_bucket phf h < num_buckets phf ∧
    bucket pl !! k = Some (bucketed_bucket phf h) ∧ ∃ s, slot pl !! k = Some s ∧ s < 16;
  po_inj k k' h h' s : hashes !! k = Some h → hashes !! k' = Some h' →
    bucketed_bucket phf h = bucketed_bucket phf h' →
    slot pl !! k = Some s → slot pl !! k' = Some s → k = k';
}.

Lemma bucketed_seeds_spec hashes r seeds arr :
  0 < r → length arr.1 = length hashes → length arr.2 = length hashes →
  match bucketed_seeds hashes r seeds arr with
  | Ok (phf, pl) => num_buckets phf = r ∧ placements_ok hashes phf pl
  | Err e => e = Exhausted
  | Panic => False
  end.
Proof.
  intros Hr. revert arr. induction seeds as [|sd seeds IH]; intros arr H1 H2; [done|].
  cbn [bucketed_seeds]. cbv zeta.
  pose proof (assign_slots_spec (wrap64 (BUCKETED_SEED_BASE + Z.of_nat sd)) r [] hashes arr _ Hr
    (assigned_nil _ _ _) H1 H2) as Ha. cbn [length app] in Ha.
  destruct (assign_slots _ _ _ _ _ _) as [arr' [|]]; destruct Ha as (H1' & H2' & Hok); [|by apply IH].
  destruct (Hok eq_refl) as [size A]. split; [done|].
  assert (∀ h, bucketed_bucket {| bp_seed := wrap64 (BUCKETED_SEED_BASE + Z.of_nat sd); num_buckets := r |} h =
    bucket_of h (wrap64 (BUCKETED_SEED_BASE + Z.of_nat sd)) r) as Hb.
  { intros h. unfold bucketed_bucket. cbn [num_buckets bp_seed]. destruct (Nat.eqb_spec r 0); [lia|done]. }
  split; cbn [bucket slot num_buckets].
  - intros k h Hk. rewrite Hb. destruct (as_at _ _ _ _ _ A k h Hk) as (? & s & n & ? & Hn & ?).
    split_and!; [by apply bucket_of_lt|done|]. exists s. split; [done|].
    pose proof (as_le _ _ _ _ _ A _ _ Hn). lia.
  - intros k k' h h' s. rewrite !Hb. apply (as_inj _ _ _ _ _ A).
Qed.

(** Bucketed construction.  When it succeeds every input hash has a slot of
    its own among the 16 of the bucket that lookups of it search; it reports a
    duplicate only for equal hashes, fails otherwise only when all seeds
    overflow a bucket, and panics exactly on an average load outside (0, 16) or
    a bucket count of [2^32] or more. *)
Lemma bucketed_build_spec (hashes : list Z) (lambda : f64) :
  match bucketed_build hashes lambda with
  | Ok (phf, pl) =>
      num_buckets phf = (if length hashes =? 0 then 0 else Z.to_nat (bucket_count (length hashes) lambda)) ∧
      NoDup hashes ∧ placements_ok hashes phf pl
  | Err Exhausted => NoDup hashes
  | Err DuplicateHash => ¬ NoDup hashes
  | Panic => lambda_ok lambda = false ∨ (2 ^ 32 <= bucket_count (length hashes) lambda)%Z
  end.
Proof.
  unfold bucketed_build. destruct (lambda_ok lambda); cbn [assert_then]; [|by left].
  destruct (Nat.eqb_spec (length hashes) 0) as [Hz|Hz].
  { apply nil_length_inv in Hz as ->. split_and!; [done|constructor|]. by split. }
  destruct (has_duplicate hashes) eqn:Hd.
  { intros Hnd%has_duplicate_spec. congruence. }
  apply has_duplicate_spec in Hd. cbv zeta.
  destruct (Z.ltb_spec (bucket_count (length hashes) lambda) (2 ^ 32)); cbn [assert_then]; [|by right].
  assert (0 < Z.to_nat (bucket_count (length hashes) lambda)) as Hr by (unfold bucket_count; lia).
  pose proof (bucketed_seeds_spec hashes _ (seq 0 BUCKETED_SEED_RETRIES)
    (replicate (length hashes) 0, replicate (length hashes) 0) Hr
    (length_replicate _ _) (length_replicate _ _)) as Hs.
  destruct (bucketed_seeds _ _ _ _) as [[phf pl]|e|]; [|by subst e|done].
  by destruct Hs.
Qed.

(** ** The maps and sets *)

(** The placement loop stores every item at its placement. *)
Lemma store_items_list feature {T} pl (items : list (T * Z)) i t :
  (∀ k e, items !! k = Some e → is_Some (bucket pl !! (i + k)) ∧ is_Some (slot pl !! (i + k))) →
  store_items feature pl items i t =
  tt_store_list (stored_at feature (λ _, true)
    (λ k, (default 0 (bucket pl !! k), default 0 (slot pl !! k))) items i) t.
Proof.
  revert i t. induction items as [|[x h] items IH]; intros i t Hpl; [done|]. cbn [store_items stored_at].
  destruct (Hpl 0 (x, h) eq_refl) as [[b Hb] [s Hs]]. rewrite Nat.add_0_r in Hb, Hs. rewrite Hb, Hs.
  cbn [expect try default tt_store_list]. unfold id.
  destruct (tt_store t b s (hash_tag feature h) x); [|done..]. cbn [try]. apply IH.
  intros k e Hk. replace (S i + k) with (i + S k) by lia. by apply (Hpl (S k) e).
Qed.

Section build.
Context (feature : hash_feature) (tier : simd_tier).
Context {T K : Type} `{EqDecision K} (key_of : T → K) (hash_one : K → Z).
Variable (items : list T).

Definition item_hashes : list Z := (λ x, hash_one (key_of x)) <$> items.

Lemma zip_lookup k x h : zip items item_hashes !! k = Some (x, h) → items !! k = Some x ∧ h = hash_one (key_of x).
Proof using Type.
  intros (y & g & [= <- <-] & Hy & Hg)%lookup_zip_with_Some. split; [done|].
  unfold item_hashes in Hg. rewrite list_lookup_fmap, Hy in Hg. by injection Hg.
Qed.

Lemma zip_lookup_hash k x h : zip items item_hashes !! k = Some (x, h) → item_hashes !! k = Some h.
Proof using Type. by intros (y & g & [= <- <-] & Hy & Hg)%lookup_zip_with_Some. Qed.

Lemma zip_stored : (zip items item_hashes).*1 = items.
Proof using Type. apply fst_zip. unfold item_hashes. rewrite length_fmap. lia. Qed.

Lemma hashes_keys : NoDup item_hashes → NoDup (key_of <$> items).
Proof using Type.
  intros Hnd. apply (@NoDup_fmap_1 K Z hash_one). by rewrite <- list_fmap_compose.
Qed.

Lemma keys_determine x y : NoDup (key_of <$> items) → x ∈ items → y ∈ items → key_of x = key_of y → x = y.
Proof using Type.
  intros Hnd [i Hi]%list_elem_of_lookup [j Hj]%list_elem_of_lookup Heq.
  assert (i = j) as <-; [|congruence].
  apply (NoDup_lookup _ i j (key_of x) Hnd); rewrite list_lookup_fmap; [by rewrite Hi|by rewrite Hj, Heq].
Qed.

(** A table filled from the placements of a perfect hash function. *)
Lemma bucketed_store phf pl :
  NoDup item_hashes → placements_ok item_hashes phf pl →
  ∃ t, store_items feature pl (zip items item_hashes) 0 (tt_new (num_buckets phf)) = Ok t ∧
    length (tt_tags t) = num_buckets phf ∧ iter_level t ≡ₚ Some <$> items ∧
    ∀ key, 0 < num_buckets phf →
      ∃ res, tt_lookup key_of tier t (bucketed_bucket phf (hash_one key)) (hash_tag feature (hash_one key)) key = Some res ∧
        ∀ x, res = Some x ↔ x ∈ items ∧ key_of x = key.
Proof using Type.
  intros Hnd Hpl. set (pos := λ k, (default 0 (bucket pl !! k), default 0 (slot pl !! k))).
  assert (∀ k x h, zip items item_hashes !! k = Some (x, h) →
    (pos k).1 = bucketed_bucket phf h ∧ (pos k).1 < num_buckets phf ∧ (pos k).2 < 16 ∧
    bucket pl !! k = Some (pos k).1 ∧ slot pl !! k = Some (pos k).2) as Hpos.
  { intros k x h Hk. destruct (po_at _ _ _ Hpl k h (zip_lookup_hash k x h Hk)) as (Hlt & Hb & s & Hs & Hs16).
    unfold pos. by rewrite Hb, Hs. }
  rewrite store_items_list.
  2:{ intros k [x h] Hk. cbn [Nat.add]. destruct (Hpos k x h Hk) as (_ & _ & _ & -> & ->). split; eauto. }
  fold pos. destruct (placed_table key_of tier feature (λ _, true) pos (zip items item_hashes) (num_buckets phf))
    as (t & -> & Hl & Hp & Hlook).
  - intros k x h Hk _. destruct (Hpos k x h Hk) as (_ & ? & ? & _). done.
  - intros k k' [x h] [x' h'] Hk Hk' _ _ Heq.
    destruct (Hpos k x h Hk) as (Hb & _ & _ & _ & Hs), (Hpos k' x' h' Hk') as (Hb' & _ & _ & _ & Hs').
    rewrite <- Heq in Hs', Hb'. apply (po_inj _ _ _ Hpl k k' h h' (pos k).2); try done;
      [by eapply zip_lookup_hash|by eapply zip_lookup_hash|congruence].
  - rewrite zip_stored. intros x y. apply keys_determine. by apply hashes_keys.
  - exists t. rewrite stored_at_all, zip_stored in Hp. split_and!; [done..|].
    intros key Hr. destruct (Hlook (bucketed_bucket phf (hash_one key)) key (hash_one key)) as (res & Hrun & Hres).
    + unfold bucketed_bucket. destruct (Nat.eqb_spec (num_buckets phf) 0); [lia|by apply bucket_of_lt].
    + intros k x h Hk _ <-. destruct (zip_lookup k x h Hk) as [_ ->]. split; [done|]. by apply (Hpos k x _).
    + exists res. split; [done|]. intros x. rewrite Hres. apply and_iff_compat_r. split.
      * intros (k & h & Hk & _). destruct (zip_lookup k x h Hk) as [Hx _]. by eapply list_elem_of_lookup_2.
      * intros [k Hk]%list_elem_of_lookup. exists k, (hash_one (key_of x)). split; [|done].
        apply lookup_zip_with_Some. exists x, (hash_one (key_of x)). split_and!; [done|done|].
        unfold item_hashes. by rewrite list_lookup_fmap, Hk.
Qed.
End build.

Section correct.
Context (feature : hash_feature) (tier : simd_tier).
Context {K V : Type} `{Countable K} (hash_one : K → Z).

Lemma found_value (entries : list (K * V)) (res : option (K * V)) key :
  NoDup entries.*1 → (∀ x, res = Some x ↔ x ∈ entries ∧ x.1 = key) → snd <$> res = map_of entries !! key.
Proof using Type.
  intros Hnd Hres. destruct res as [[k v]|].
  - destruct (proj1 (Hres (k, v)) eq_refl) as [Hin Hk]. cbn in Hk. subst k. symmetry. by apply map_of_lookup.
  - symmetry. apply map_of_lookup_none. intros ([k v] & -> & Hin)%list_elem_of_fmap.
    discriminate (proj2 (Hres (k, v)) (conj Hin eq_refl)).
Qed.

Lemma found_key (keys : list K) (res : option K) key :
  (∀ x, res = Some x ↔ x ∈ keys ∧ x = key) → res = if decide (key ∈ keys) then Some key else None.
Proof using Type.
  intros Hres. case_decide as Hin; [by apply Hres|].
  destruct res as [x|]; [|done]. by destruct (proj1 (Hres x) eq_refl) as [? ->].
Qed.

Lemma bucketed_map_ok (entries : list (K * V)) (lambda : f64) :
  match bucketed_from_entries feature hash_one entries lambda with
  | Ok m =>
      (∀ k, bucketed_get feature tier hash_one m k = Some (map_of entries !! k)) ∧
      bucketed_iter m ≡ₚ Some <$> entries ∧ bucketed_drop m ≡ₚ Some <$> entries ∧
      pb_len m = length entries ∧ NoDup entries.*1
  | Err Exhausted => NoDup (item_hashes fst hash_one entries)
  | Err DuplicateHash => ¬ NoDup (item_hashes fst hash_one entries)
  | Panic => lambda_ok lambda = false ∨ (2 ^ 32 <= bucket_count (length entries) lambda)%Z
  end.
Proof using Type.
  unfold bucketed_from_entries.
  pose proof (bucketed_build_spec (item_hashes fst hash_one entries) lambda) as Hb.
  assert (length (item_hashes fst hash_one entries) = length entries) as Hlen by apply length_fmap.
  rewrite Hlen in Hb. destruct (Nat.eqb_spec (length entries) 0) as [Hz|Hz].
  { apply nil_length_inv in Hz as ->. change (item_hashes fst hash_one []) with (@nil Z) in Hb.
    destruct (bucketed_build [] lambda) as [[phf pl]|e|]; cbn [try]; [|by destruct e|done].
    split_and!; try done. constructor. }
  change ((λ kv, hash_one kv.1) <$> entries) with (item_hashes fst hash_one entries). cbv zeta.
  destruct (bucketed_build (item_hashes fst hash_one entries) lambda) as [[phf pl]|e|]; cbn [try]; [|by destruct e|done].
  destruct Hb as (Hr & Hnd & Hpl).
  destruct (bucketed_store feature tier fst hash_one entries phf pl Hnd Hpl) as (t & -> & Hl & Hp & Hlook).
  cbn [try pb_len]. unfold bucketed_iter, bucketed_drop, drop_level. cbn [pb_table].
  assert (NoDup entries.*1) as Hk by by apply (hashes_keys _ hash_one).
  split_and!; [|done..]. intros k. unfold bucketed_get. cbn [pb_table pb_phf].
  assert (0 < num_buckets phf) as Hpos by (rewrite Hr; unfold bucket_count; lia).
  rewrite Hl. destruct (Nat.eqb_spec (num_buckets phf) 0); [lia|]. cbv zeta.
  destruct (Hlook k Hpos) as (res & -> & Hres). f_equal. by apply found_value.
Qed.

(** C24: the bucketed perfect-hash map.  When the construction succeeds the map
    answers every query, of keys inside and outside, as the finite map of its
    entries, without reading an uninitialized entry or outside an array; its
    iterator and its destructor visit exactly the entries, each once and
    initialized.  Construction reports a duplicate only for equal hashes, fails
    otherwise only when all seeds overflow a bucket, and panics exactly on an
    average load outside (0, 16) or a bucket count of [2^32] or more. *)
Theorem bucketed_map_correct (entries : list (K * V)) (lambda : f64) :
  match bucketed_from_entries feature hash_one entries lambda with
  | Ok m =>
      (∀ k, bucketed_get feature tier hash_one m k = Some (map_of entries !! k)) ∧
      bucketed_iter m ≡ₚ Some <$> entries ∧ bucketed_drop m ≡ₚ Some <$> entries ∧
      pb_len m = length entries ∧ NoDup entries.*1
  | Err Exhausted => NoDup (item_hashes fst hash_one entries)
  | Err DuplicateHash => ¬ NoDup (item_hashes fst hash_one entries)
  | Panic => lambda_ok lambda = false ∨ (2 ^ 32 <= bucket_count (length entries) lambda)%Z
  end.
Proof using Type. apply bucketed_map_ok. Qed.

Lemma bucketed_set_ok (keys : list K) (lambda : f64) s :
  bucketed_from_keys feature hash_one keys lambda = Ok s →
  (∀ k, bucketed_set_get feature tier hash_one s k = Some (if decide (k ∈ keys) then Some k else None)) ∧
  iter_level (sb_table s) ≡ₚ Some <$> keys ∧ sb_len s = length keys ∧ NoDup keys.
Proof using Type.
  unfold bucketed_from_keys.
  pose proof (bucketed_build_spec (item_hashes id hash_one keys) lambda) as Hb.
  assert (length (item_hashes id hash_one keys) = length keys) as Hlen by apply length_fmap.
  rewrite Hlen in Hb. destruct (Nat.eqb_spec (length keys) 0) as [Hz|Hz].
  { apply nil_length_inv in Hz as ->. destruct (bucketed_build [] lambda) as [[phf pl]|e|]; [|done..].
    intros [= <-]. split_and!; try done. constructor. }
  change (hash_one <$> keys) with (item_hashes id hash_one keys). cbv zeta.
  destruct (bucketed_build (item_hashes id hash_one keys) lambda) as [[phf pl]|e|]; cbn [try]; [|done..].
  destruct Hb as (Hr & Hnd & Hpl).
  destruct (bucketed_store feature tier id hash_one keys phf pl Hnd Hpl) as (t & -> & Hl & Hp & Hlook).
  cbn [try]. intros [= <-]. cbn [sb_table sb_len].
  assert (NoDup keys) as Hk by (rewrite <- (list_fmap_id keys); by apply (hashes_keys _ hash_one)).
  split_and!; [|done..]. intros k. unfold bucketed_set_get. cbn [sb_table sb_phf].
  assert (0 < num_buckets phf) as Hpos by (rewrite Hr; unfold bucket_count; lia).
  rewrite Hl. destruct (Nat.eqb_spec (num_buckets phf) 0); [lia|]. cbv zeta.
  destruct (Hlook k Hpos) as (res & -> & Hres). f_equal. by apply found_key.
Qed.

(** The bucketed perfect-hash set: the stored key for a member, nothing for
    any other query. *)
Theorem bucketed_set_correct (keys : list K) (lambda : f64) s :
  bucketed_from_keys feature hash_one keys lambda = Ok s →
  (∀ k, bucketed_set_get feature tier hash_one s k = Some (if decide (k ∈ keys) then Some k else None)) ∧
  iter_level (sb_table s) ≡ₚ Some <$> keys ∧ sb_len s = length keys ∧ NoDup keys.
Proof using Type. apply bucketed_set_ok. Qed.
End correct.

(** ** Examples *)

Definition bucketed_hash (k : nat) : Z := mix (Z.of_nat k * 11) 77.
Definition bucketed_entries : list (nat * nat) := (λ k, (k, 10 * k)) <$> seq 0 9.

Lemma bucketed_map_correct_witness :
  ∃ m, bucketed_from_entries PureFallback bucketed_hash bucketed_entries f64_4 = Ok m ∧
    ∀ k, bucketed_get PureFallback SSE2 bucketed_hash m k = Some (map_of bucketed_entries !! k).
Proof.
  pose proof (bucketed_map_correct PureFallback SSE2 bucketed_hash bucketed_entries f64_4) as Hc.
  destruct (bucketed_from_entries PureFallback bucketed_hash bucketed_entries f64_4) as [m|e|] eqn:E.
  - exists m. split; [reflexivity|]. exact (proj1 Hc).
  - vm_compute in E. discriminate E.
  - vm_compute in E. discriminate E.
Defined.

Lemma bucketed_set_correct_witness :
  ∃ s, bucketed_from_keys PureFallback bucketed_hash [3; 1; 4; 5; 9] f64_4 = Ok s ∧
    ∀ k, bucketed_set_get PureFallback SSE2 bucketed_hash s k =
         Some (if decide (k ∈ [3; 1; 4; 5; 9]) then Some k else None).
Proof.
  destruct (bucketed_from_keys PureFallback bucketed_hash [3; 1; 4; 5; 9] f64_4) as [s|e|] eqn:E.
  - exists s. split; [reflexivity|].
    exact (proj1 (bucketed_set_correct PureFallback SSE2 bucketed_hash [3; 1; 4; 5; 9] f64_4 s E)).
  - vm_compute in E. discriminate E.
  - vm_compute in E. discriminate E.
Defined.
