(* ===== verification/Multilevel.v ===== *)
(** * Multi-level bucketed perfect hashing

    [perfect/bucketed/multilevel.rs]: keys of level-0 buckets that overflow
    their 16 slots move to a second, single-level structure. *)

From Stdlib Require Import ZArith Lia.
From S2P Require Export PerfectHash TagTable Bucketed.
From S2P Require Import Prelude HashTag Group Float64 Chd.

(*@ perfect/bucketed/multilevel.rs : const MULTILEVEL_SEED_BASE *)
Definition MULTILEVEL_SEED_BASE : Z := 0xC4CEB9FE1A85EC53.

(*@ perfect/bucketed/multilevel.rs : pub struct MultilevelBucketedPhf *)
Record MultilevelBucketedPhf := {
  level_0 : BucketedPhf;
  overflow : list Z;
  level_1 : option BucketedPhf;
}.

(*@ perfect/bucketed/multilevel.rs : pub struct MultilevelPlacements *)
Record MultilevelPlacements := { ml_level : list nat; ml_bucket : list nat; ml_slot : list nat }.

(** The counters and indices of the construction have 32 bits, the cursors eight;
    a sum that does not fit wraps around without overflow checks. *)
Definition as_u32 (n : nat) : nat := Z.to_nat (Z.of_nat n mod 2 ^ 32).
Definition next_u32 (n : nat) : nat := as_u32 (S n).
Definition next_u8 (n : nat) : nat := Z.to_nat (as_u8 (Z.of_nat (S n))).

Lemma as_u32_small n : (Z.of_nat n < 2 ^ 32)%Z → as_u32 n = n.
Proof. intros Hn. unfold as_u32. rewrite Z.mod_small by lia. apply Nat2Z.id. Qed.

Lemma next_u8_small n : n < 255 → next_u8 n = S n.
Proof. intros Hn. unfold next_u8. rewrite as_u8_small by lia. apply Nat2Z.id. Qed.

Section passes.
Context (seed_0 : Z) (r_0 : nat).

(** Pass 1: the bucket sizes. *)
(*@ perfect/bucketed/multilevel.rs : 144-151 : build *)
Definition bucket_sizes (hashes : list Z) : list nat :=
  foldl (λ sizes h, alter next_u32 (bucket_of h seed_0 r_0) sizes) (replicate r_0 0) hashes.

(** Pass 2: the bitset of the overflowing buckets.  The number of their keys is
    only a capacity hint. *)
(*@ perfect/bucketed/multilevel.rs : 153-162 : build *)
Fixpoint mark_overflow (sizes : list nat) (b : nat) (bits : list Z) : list Z :=
  match sizes with
  | [] => bits
  | sz :: sizes' =>
      mark_overflow sizes' (S b) (if SLOTS_PER_BUCKET <? sz then bitset_set bits b else bits)
  end.

(** Pass 3: the per-key arrays, the bucket cursors, and the keys set aside. *)
Record PassState := {
  p_level : list nat;
  p_bucket : list nat;
  p_slot : list nat;
  p_cursor : list nat;
  p_hashes : list Z;
  p_orig : list nat;
}.

(*@ perfect/bucketed/multilevel.rs : 174-189 : build *)
Definition place_key (bits : list Z) (st : PassState) (i : nat) (h : Z) : PassState :=
  let b := bucket_of h seed_0 r_0 in
  if bitset_test bits b then {|
    p_level := <[i := 1]> (p_level st); p_bucket := p_bucket st; p_slot := p_slot st;
    p_cursor := p_cursor st; p_hashes := p_hashes st ++ [h]; p_orig := p_orig st ++ [as_u32 i] |}
  else {|
    p_level := p_level st; p_bucket := <[i := as_u32 b]> (p_bucket st);
    p_slot := <[i := default 0 (p_cursor st !! b)]> (p_slot st);
    p_cursor := alter next_u8 b (p_cursor st); p_hashes := p_hashes st; p_orig := p_orig st |}.

Fixpoint place_keys (bits : list Z) (hashes : list Z) (i : nat) (st : PassState) : PassState :=
  match hashes with
  | [] => st
  | h :: hashes' => place_keys bits hashes' (S i) (place_key bits st i h)
  end.

Definition pass_start (n : nat) : PassState := {|
  p_level := replicate n 0; p_bucket := replicate n 0; p_slot := replicate n 0;
  p_cursor := replicate r_0 0; p_hashes := []; p_orig := [] |}.
End passes.

(*@ perfect/bucketed/multilevel.rs : fn patch_level_1 *)
Fixpoint patch_level_1 (overflow_orig : list nat) (l1 : Placements) (idx_in_overflow : nat)
    (arrays : list nat * list nat) : Result (list nat * list nat) :=
  match overflow_orig with
  | [] => Ok arrays
  | orig_idx :: overflow_orig' =>
      let? b := expect (bucket l1 !! idx_in_overflow) in
      let? s := expect (slot l1 !! idx_in_overflow) in
      patch_level_1 overflow_orig' l1 (S idx_in_overflow)
        (<[orig_idx := b]> arrays.1, <[orig_idx := s]> arrays.2)
  end.

(*@ perfect/bucketed/multilevel.rs : pub fn build( *)
Definition multilevel_build (hashes : list Z) (lambda_0 lambda_1 : f64) :
    Result (MultilevelBucketedPhf * MultilevelPlacements) :=
  assert_then (lambda_ok lambda_0) (assert_then (lambda_ok lambda_1)
    (let n := length hashes in
     if n =? 0 then
       Ok ({| level_0 := {| bp_seed := MULTILEVEL_SEED_BASE; num_buckets := 0 |};
              overflow := []; level_1 := None |},
           {| ml_level := []; ml_bucket := []; ml_slot := [] |})
     else if has_duplicate hashes then Err DuplicateHash
     else
       let r_0 := bucket_count n lambda_0 in
       assert_then (r_0 <? 2 ^ 32)%Z
         (let r_0 := Z.to_nat r_0 in
          let seed_0 := MULTILEVEL_SEED_BASE in
          let words := (r_0 + 63) / 64 in
          let overflow := mark_overflow (bucket_sizes seed_0 r_0 hashes) 0 (replicate words 0%Z) in
          let st := place_keys seed_0 r_0 overflow hashes 0 (pass_start r_0 n) in
          let level_0 := {| bp_seed := seed_0; num_buckets := r_0 |} in
          if length (p_hashes st) =? 0 then
            Ok ({| level_0 := level_0; overflow := overflow; level_1 := None |},
                {| ml_level := p_level st; ml_bucket := p_bucket st; ml_slot := p_slot st |})
          else
            let? (l1_phf, l1_placements) := bucketed_build (p_hashes st) lambda_1 in
            let? arrays := patch_level_1 (p_orig st) l1_placements 0 (p_bucket st, p_slot st) in
            Ok ({| level_0 := level_0; overflow := overflow; level_1 := Some l1_phf |},
                {| ml_level := p_level st; ml_bucket := arrays.1; ml_slot := arrays.2 |})))).

(** An unchecked read outside the bitset and [unwrap_unchecked] on [None] are
    [None]. *)
(*@ perfect/bucketed/multilevel.rs : pub fn classify *)
Definition classify (p : MultilevelBucketedPhf) (hash : Z) : option (nat * nat) :=
  if num_buckets (level_0 p) =? 0 then Some (0, 0)
  else
    let b0 := bucketed_bucket (level_0 p) hash in
    do word <- overflow p !! (b0 / 64);
    let overflowed := negb (Z.land word (Z.shiftl 1 (Z.of_nat (b0 mod 64))) =? 0)%Z in
    if overflowed then
      do l1 <- level_1 p;
      Some (1, bucketed_bucket l1 hash)
    else Some (0, b0).

(*@ perfect/bucketed/multilevel.rs : pub fn num_buckets_level_0 @1 *)
Definition num_buckets_level_0 (p : MultilevelBucketedPhf) : nat := num_buckets (level_0 p).

(*@ perfect/bucketed/multilevel.rs : pub fn num_buckets_level_1 @1 *)
Definition num_buckets_level_1 (p : MultilevelBucketedPhf) : nat :=
  default 0 (num_buckets <$> level_1 p).

(*@ perfect/bucketed/multilevel.rs : pub fn has_level_1 @1 *)
Definition has_level_1 (p : MultilevelBucketedPhf) : bool := bool_decide (is_Some (level_1 p)).

(*@ perfect/bucketed/multilevel.rs : pub struct MultilevelBucketedConfig *)
Record MultilevelBucketedConfig := { lambda_0 : f64; lambda_1 : f64 }.

(*@ perfect/bucketed/multilevel.rs : impl Default for MultilevelBucketedConfig *)
Definition default_multilevel : MultilevelBucketedConfig := {| lambda_0 := f64_8; lambda_1 := f64_4 |}.

Section map.
Context (feature : hash_feature) (tier : simd_tier).

(** The loop that stores the entries in the table of their level. *)
Fixpoint store_levels {T} (pl : MultilevelPlacements) (items : list (T * Z)) (i : nat)
    (t : TagTable T * TagTable T) : Result (TagTable T * TagTable T) :=
  match items with
  | [] => Ok t
  | (x, h) :: items' =>
      let? bucket := expect (ml_bucket pl !! i) in
      let? slot := expect (ml_slot pl !! i) in
      let tag := hash_tag feature h in
      let? level := expect (ml_level pl !! i) in
      match level with
      | 0 => let? t0 := tt_store t.1 bucket slot tag x in store_levels pl items' (S i) (t0, t.2)
      | 1 => let? t1 := tt_store t.2 bucket slot tag x in store_levels pl items' (S i) (t.1, t1)
      | _ => Panic
      end
  end.

Context {K V : Type} `{Countable K} (hash_one : K → Z).

(*@ perfect/bucketed/multilevel.rs : pub struct PerfectMapMultilevelBucketed *)
Record PerfectMapMultilevelBucketed := {
  mm_l0 : TagTable (K * V);
  mm_l1 : TagTable (K * V);
  mm_phf : MultilevelBucketedPhf;
  mm_len : nat;
}.

(*@ perfect/bucketed/multilevel.rs : pub fn from_entries *)
Definition multilevel_from_entries (entries : list (K * V)) (config : MultilevelBucketedConfig) :
    Result PerfectMapMultilevelBucketed :=
  let n := length entries in
  if n =? 0 then
    let? (phf, _) := multilevel_build [] (lambda_0 config) (lambda_1 config) in
    Ok {| mm_l0 := tt_new 0; mm_l1 := tt_new 0; mm_phf := phf; mm_len := 0 |}
  else
    let hashes := (λ kv, hash_one kv.1) <$> entries in
    let? (phf, placements) := multilevel_build hashes (lambda_0 config) (lambda_1 config) in
    let r0 := num_buckets_level_0 phf in
    let r1 := num_buckets_level_1 phf in
    let? (t0, t1) := store_levels placements (zip entries hashes) 0 (tt_new r0, tt_new r1) in
    Ok {| mm_l0 := t0; mm_l1 := t1; mm_phf := phf; mm_len := n |}.

(*@ perfect/bucketed/multilevel.rs : pub fn get< @1 *)
Definition multilevel_get (m : PerfectMapMultilevelBucketed) (key : K) : option (option V) :=
  if mm_len m =? 0 then Some None
  else
    let hash := hash_one key in
    do ' (level, bucket) <- classify (mm_phf m) hash;
    let tag := hash_tag feature hash in
    let t := if level =? 0 then mm_l0 m else mm_l1 m in
    do r <- tt_lookup fst tier t bucket tag key;
    Some (snd <$> r).

(*@ perfect/bucketed/multilevel.rs : pub fn contains_key *)
Definition multilevel_contains_key (m : PerfectMapMultilevelBucketed) (key : K) : option bool :=
  do r <- multilevel_get m key; Some (bool_decide (is_Some r)).

(*@ perfect/bucketed/multilevel.rs : pub fn iter @1 *)
Definition multilevel_iter (m : PerfectMapMultilevelBucketed) : list (option (K * V)) :=
  let l0 := iter_level (mm_l0 m) in
  let l1 := iter_level (mm_l1 m) in
  l0 ++ l1.

(*@ perfect/bucketed/multilevel.rs : fn drop @1 *)
Definition multilevel_drop (m : PerfectMapMultilevelBucketed) : list (option (K * V)) :=
  drop_level (mm_l0 m) ++ drop_level (mm_l1 m).

(*@ perfect/bucketed/multilevel.rs : pub struct PerfectSetMultilevelBucketed *)
Record PerfectSetMultilevelBucketed := {
  sm_l0 : TagTable K;
  sm_l1 : TagTable K;
  sm_phf : MultilevelBucketedPhf;
  sm_len : nat;
}.

(*@ perfect/bucketed/multilevel.rs : pub fn from_keys *)
Definition multilevel_from_keys (keys : list K) (config : MultilevelBucketedConfig) :
    Result PerfectSetMultilevelBucketed :=
  let n := length keys in
  if n =? 0 then
    let? (phf, _) := multilevel_build [] (lambda_0 config) (lambda_1 config) in
    Ok {| sm_l0 := tt_new 0; sm_l1 := tt_new 0; sm_phf := phf; sm_len := 0 |}
  else
    let hashes := hash_one <$> keys in
    let? (phf, placements) := multilevel_build hashes (lambda_0 config) (lambda_1 config) in
    let r0 := num_buckets_level_0 phf in
    let r1 := num_buckets_level_1 phf in
    let? (t0, t1) := store_levels placements (zip keys hashes) 0 (tt_new r0, tt_new r1) in
    Ok {| sm_l0 := t0; sm_l1 := t1; sm_phf := phf; sm_len := n |}.

(*@ perfect/bucketed/multilevel.rs : pub fn get< @2 *)
Definition multilevel_set_get (s : PerfectSetMultilevelBucketed) (key : K) : option (option K) :=
  if sm_len s =? 0 then Some None
  else
    let hash := hash_one key in
    do ' (level, bucket) <- classify (sm_phf s) hash;
    let tag := hash_tag feature hash in
    let t := if level =? 0 then sm_l0 s else sm_l1 s in
    tt_lookup id tier t bucket tag key.

(*@ perfect/bucketed/multilevel.rs : pub fn contains< *)
Definition multilevel_set_contains (s : PerfectSetMultilevelBucketed) (key : K) : option bool :=
  do r <- multilevel_set_get s key; Some (bool_decide (is_Some r)).

(*@ perfect/bucketed/multilevel.rs : pub fn iter @2 *)
Definition multilevel_set_iter (s : PerfectSetMultilevelBucketed) : list (option K) :=
  iter_level (sm_l0 s) ++ iter_level (sm_l1 s).
End map.

(** ** Multi-level bucketed perfect hashing: correctness *)

(** The slot of a level-0 key is the number of earlier keys of its bucket; the
    keys of overflowing buckets are placed by the single-level structure, whose
    placements are patched back. *)

Section passes.
Context (seed : Z) (r : nat).

(** How many of the hashes fall into bucket [b]. *)
Definition rank (b : nat) (hs : list Z) : nat := countb (λ h, bucket_of h seed r =? b) hs.

Lemma rank_snoc b hs h :
  rank b (hs ++ [h]) = rank b hs + (if bucket_of h seed r =? b then 1 else 0).
Proof using Type. unfold rank. by rewrite countb_app, countb_cons, countb_nil, Nat.add_0_r. Qed.

Lemma rank_take_lt hs k h :
  hs !! k = Some h → rank (bucket_of h seed r) (take k hs) < rank (bucket_of h seed r) hs.
Proof using Type.
  intros Hk. rewrite <- (take_drop_middle hs k h Hk) at 2. unfold rank.
  rewrite countb_app, countb_cons, Nat.eqb_refl. lia.
Qed.

Lemma rank_take_inj hs k k' h h' :
  hs !! k = Some h → hs !! k' = Some h' → bucket_of h seed r = bucket_of h' seed r →
  rank (bucket_of h seed r) (take k hs) = rank (bucket_of h' seed r) (take k' hs) → k = k'.
Proof using Type.
  assert (∀ k k' h, hs !! k = Some h → k < k' →
    rank (bucket_of h seed r) (take k hs) < rank (bucket_of h seed r) (take k' hs)) as Hlt.
  { intros j j' g Hj Hjj. pose proof (rank_take_lt (take j' hs) j g) as Hl.
    rewrite lookup_take_lt, take_take, Nat.min_l in Hl by lia. by apply Hl. }
  intros Hk Hk' Hb Heq. destruct (Nat.lt_trichotomy k k') as [Hl|[->|Hl]]; [|done|].
  - pose proof (Hlt k k' h Hk Hl). rewrite Hb in *. lia.
  - pose proof (Hlt k' k h' Hk' Hl). rewrite <- Hb in *. lia.
Qed.

Lemma rank_le b hs : rank b hs <= length hs.
Proof using Type. unfold rank, countb. apply length_filter. Qed.

(** ** Passes 1 and 2 *)

Lemma bucket_sizes_rank hashes b :
  (Z.of_nat (length hashes) < 2 ^ 32)%Z → b < r → bucket_sizes seed r hashes !! b = Some (rank b hashes).
Proof using Type.
  intros Hn Hb. unfold bucket_sizes. induction hashes as [|h hs IH] using rev_ind.
  - by apply lookup_replicate_2.
  - rewrite length_app in Hn. cbn [length] in Hn. specialize (IH ltac:(lia)).
    rewrite foldl_app, rank_snoc. cbn [foldl]. destruct (Nat.eqb_spec (bucket_of h seed r) b) as [->|Hne].
    + rewrite list_lookup_alter_eq, IH. cbn [fmap option_fmap option_map]. f_equal. unfold next_u32.
      pose proof (rank_le b hs). rewrite as_u32_small by lia. lia.
    + rewrite list_lookup_alter_ne, IH by done. f_equal. lia.
Qed.

Lemma bucket_sizes_length hashes : length (bucket_sizes seed r hashes) = r.
Proof using Type.
  unfold bucket_sizes. induction hashes as [|h hs IH] using rev_ind; [apply length_replicate|].
  rewrite foldl_app. cbn [foldl]. by rewrite length_alter.
Qed.

Lemma mark_overflow_spec sizes b bits j :
  (b + length sizes <= length bits * 64) → j < length bits * 64 →
  length (mark_overflow sizes b bits) = length bits ∧
  bitset_test (mark_overflow sizes b bits) j =
  (bool_decide (b <= j) && match sizes !! (j - b) with Some sz => 16 <? sz | None => false end) ||
  bitset_test bits j.
Proof using Type.
  revert b bits. induction sizes as [|sz sizes IH]; intros b bits Hl Hj; cbn [mark_overflow length] in *.
  { split; [done|]. by rewrite andb_false_r. }
  set (bits' := if SLOTS_PER_BUCKET <? sz then bitset_set bits b else bits).
  assert (length bits' = length bits) as Hl' by (unfold bits'; destruct (_ <? _); [apply bitset_set_length|done]).
  destruct (IH (S b) bits') as [IHl ->]; [lia|lia|]. split; [congruence|].
  assert (bitset_test bits' j = (bool_decide (j = b) && (16 <? sz)) || bitset_test bits j) as ->.
  { unfold bits', SLOTS_PER_BUCKET. destruct (16 <? sz); [|by rewrite andb_false_r].
    rewrite andb_true_r. apply bitset_test_set; (eapply in_bitset; [reflexivity|lia]). }
  destruct (decide (j = b)) as [->|Hne].
  - rewrite (bool_decide_false (S b <= b)), (bool_decide_true (b <= b)), (bool_decide_true (b = b)) by lia.
    by rewrite Nat.sub_diag.
  - rewrite (bool_decide_false (j = b)) by done. cbn [andb orb]. destruct (decide (b <= j)).
    + rewrite !bool_decide_true by lia. replace (j - b) with (S (j - S b)) by lia. done.
    + by rewrite !bool_decide_false by lia.
Qed.

(** The bit of a bucket says that more than 16 hashes fall into it. *)
Lemma overflow_bits hashes b :
  (Z.of_nat (length hashes) < 2 ^ 32)%Z → b < r →
  let bits := mark_overflow (bucket_sizes seed r hashes) 0 (replicate ((r + 63) / 64) 0%Z) in
  b / 64 < length bits ∧ bitset_test bits b = (16 <? rank b hashes).
Proof using Type.
  intros Hn Hb. cbv zeta. pose proof (Nat.div_mod_eq (r + 63) 64). pose proof (Nat.mod_upper_bound (r + 63) 64 ltac:(lia)).
  destruct (mark_overflow_spec (bucket_sizes seed r hashes) 0 (replicate ((r + 63) / 64) 0%Z) b) as [-> ->];
    rewrite ?length_replicate, ?bucket_sizes_length; [lia|lia|].
  split; [eapply in_bitset; [reflexivity|lia]|].
  rewrite bool_decide_true by lia. rewrite Nat.sub_0_r, bucket_sizes_rank by done. cbn [andb].
  assert (bitset_test (replicate ((r + 63) / 64) 0%Z) b = false) as ->; [|apply orb_false_r].
  unfold bitset_test. destruct (replicate _ _ !! _) as [w|] eqn:E; [|done].
  by apply lookup_replicate in E as [-> _].
Qed.

(** ** Pass 3 *)

Section pass3.
Context (bits : list Z) (n : nat) (Hn32 : (Z.of_nat n < 2 ^ 32)%Z) (Hr32 : (Z.of_nat r < 2 ^ 32)%Z).

Abbreviation ovf h := (bitset_test bits (bucket_of h seed r)).

Record placed (hs : list Z) (st : PassState) : Prop := {
  pl_lengths : length (p_level st) = n ∧ length (p_bucket st) = n ∧ length (p_slot st) = n;
  pl_rest k : length hs <= k → k < n → p_level st !! k = Some 0;
  pl_level k h : hs !! k = Some h → p_level st !! k = Some (if ovf h then 1 else 0);
  pl_at k h : hs !! k = Some h → ovf h = false →
    p_bucket st !! k = Some (bucket_of h seed r) ∧
    p_slot st !! k = Some (rank (bucket_of h seed r) (take k hs));
  pl_cursor b : b < r → bitset_test bits b = false → p_cursor st !! b = Some (rank b hs);
  pl_aside : length (p_hashes st) = length (p_orig st) ∧ NoDup (p_orig st);
  pl_orig j k : p_orig st !! j = Some k →
    ∃ h, hs !! k = Some h ∧ p_hashes st !! j = Some h ∧ ovf h = true;
  pl_all k h : hs !! k = Some h → ovf h = true → k ∈ p_orig st;
}.

Lemma placed_nil : placed [] (pass_start r n).
Proof using Type.
  split; cbn [pass_start p_level p_bucket p_slot p_cursor p_hashes p_orig]; try done.
  - by rewrite !length_replicate.
  - intros k _ Hk. by apply lookup_replicate_2.
  - intros b Hb _. by apply lookup_replicate_2.
  - split; [done|constructor].
Qed.

Lemma placed_aside hs st h :
  length hs < n → ovf h = true → placed hs st → placed (hs ++ [h]) (place_key seed r bits st (length hs) h).
Proof using Hn32.
  intros Hn Ho [[Hl1 [Hl2 Hl3]] Hrest Hlv Hat Hcur [Ha1 Ha2] Horig Hall]. unfold place_key. rewrite Ho, (as_u32_small (length hs)) by lia.
  split; cbn [p_level p_bucket p_slot p_cursor p_hashes p_orig].
  - by rewrite length_insert.
  - rewrite length_app. cbn [length]. intros k ? ?. rewrite list_lookup_insert_ne by lia. apply Hrest; lia.
  - intros k g [[Hk Hg]|[-> <-]]%lookup_snoc_Some.
    + rewrite list_lookup_insert_ne by lia. by apply Hlv.
    + rewrite Ho. apply list_lookup_insert_eq. lia.
  - intros k g [[Hk Hg]|[-> <-]]%lookup_snoc_Some Hg'; [|congruence].
    rewrite take_app_le by lia. by apply Hat.
  - intros b Hb Hob. rewrite (Hcur b Hb Hob), rank_snoc.
    destruct (Nat.eqb_spec (bucket_of h seed r) b) as [<-|]; [congruence|]. f_equal. lia.
  - rewrite !length_app. cbn [length]. split; [lia|]. apply NoDup_app. split_and!; [done| |apply NoDup_singleton].
    intros k [j Hj]%list_elem_of_lookup ->%list_elem_of_singleton.
    destruct (Horig j _ Hj) as (g & Hg & _). apply lookup_lt_Some in Hg. lia.
  - intros j k [[Hj Hk]|[-> <-]]%lookup_snoc_Some.
    + destruct (Horig j k Hk) as (g & Hg & Hh & Hog). exists g. split_and!; [|by apply lookup_app_l_Some|done].
      by apply lookup_app_l_Some.
    + exists h. rewrite <- Ha1. split_and!; [by apply lookup_snoc_Some; right|by apply lookup_snoc_Some; right|done].
  - intros k g [[Hk Hg]|[-> <-]]%lookup_snoc_Some Hog; apply elem_of_app; [left; by eapply Hall|right].
    by apply list_elem_of_singleton.
Qed.

Lemma placed_here hs st h :
  0 < r → length hs < n → ovf h = false → rank (bucket_of h seed r) hs < 16 → placed hs st →
  placed (hs ++ [h]) (place_key seed r bits st (length hs) h).
Proof using Hr32.
  intros Hr Hn Ho Hrk [[Hl1 [Hl2 Hl3]] Hrest Hlv Hat Hcur [Ha1 Ha2] Horig Hall]. unfold place_key. rewrite Ho.
  pose proof (bucket_of_lt h seed r Hr) as Hb. rewrite (Hcur _ Hb Ho), as_u32_small by lia.
  split; cbn [p_level p_bucket p_slot p_cursor p_hashes p_orig].
  - by rewrite !length_insert.
  - rewrite length_app. cbn [length]. intros k ? ?. apply Hrest; lia.
  - intros k g [[Hk Hg]|[-> <-]]%lookup_snoc_Some; [by apply Hlv|]. rewrite Ho. apply Hrest; lia.
  - intros k g [[Hk Hg]|[-> <-]]%lookup_snoc_Some Hog.
    + rewrite !list_lookup_insert_ne, take_app_le by lia. by apply Hat.
    + rewrite !list_lookup_insert_eq by lia. by rewrite take_app_le, take_ge by lia.
  - intros b Hb' Hob. rewrite rank_snoc. destruct (Nat.eqb_spec (bucket_of h seed r) b) as [<-|Hne].
    + rewrite list_lookup_alter_eq, (Hcur _ Hb Ho). cbn [fmap option_fmap option_map]. rewrite next_u8_small by lia. f_equal. lia.
    + rewrite list_lookup_alter_ne, (Hcur _ Hb' Hob) by done. f_equal. lia.
  - done.
  - intros j k Hk. destruct (Horig j k Hk) as (g & Hg & Hh & Hog). exists g. split; [by apply lookup_app_l_Some|done].
  - intros k g [[Hk Hg]|[-> <-]]%lookup_snoc_Some Hog; [by eapply Hall|congruence].
Qed.

Lemma place_keys_spec hs hs' st :
  0 < r → length (hs ++ hs') <= n →
  (∀ b, b < r → bitset_test bits b = false → rank b (hs ++ hs') <= 16) → placed hs st →
  placed (hs ++ hs') (place_keys seed r bits hs' (length hs) st).
Proof using Hn32 Hr32.
  intros Hr. revert hs st. induction hs' as [|h hs' IH]; intros hs st Hn Hrk P; cbn [place_keys].
  - by rewrite app_nil_r.
  - rewrite (cons_middle h hs hs'), app_assoc in Hn, Hrk |- *.
    replace (S (length hs)) with (length (hs ++ [h])) by (rewrite length_app; simpl; lia).
    apply IH; [done|done|]. rewrite !length_app in Hn. cbn [length] in Hn.
    destruct (ovf h) eqn:Ho; [apply placed_aside|apply placed_here]; try done; [lia|lia|].
    pose proof (bucket_of_lt h seed r Hr) as Hb. specialize (Hrk _ Hb Ho). unfold rank in *.
    rewrite !countb_app, countb_cons, Nat.eqb_refl in Hrk. lia.
Qed.
End pass3.
End passes.

(** ** Patching the placements of level 1 *)

Lemma patch_level_1_spec orig pl i arr :
  NoDup orig → Forall (λ k, k < length arr.1 ∧ k < length arr.2) orig →
  (∀ j, j < length orig → is_Some (bucket pl !! (i + j)) ∧ is_Some (slot pl !! (i + j))) →
  ∃ arr', patch_level_1 orig pl i arr = Ok arr' ∧
    (∀ j k, orig !! j = Some k → arr'.1 !! k = bucket pl !! (i + j) ∧ arr'.2 !! k = slot pl !! (i + j)) ∧
    (∀ k, k ∉ orig → arr'.1 !! k = arr.1 !! k ∧ arr'.2 !! k = arr.2 !! k).
Proof.
  revert i arr. induction orig as [|o orig IH]; intros i arr Hnd Hlt Hpl; cbn [patch_level_1].
  { exists arr. split_and!; [done| |done]. intros j k Hj. by rewrite lookup_nil in Hj. }
  apply NoDup_cons in Hnd as [Ho Hnd]. apply Forall_cons in Hlt as [Hlo Hlt].
  destruct (Hpl 0 ltac:(cbn [length]; lia)) as [[b Hb] [s Hs]]. rewrite Nat.add_0_r in Hb, Hs.
  rewrite Hb, Hs. cbn [expect try].
  destruct (IH (S i) (<[o := b]> arr.1, <[o := s]> arr.2) Hnd) as (arr' & -> & Hin & Hout).
  - cbn [fst snd]. by rewrite !length_insert.
  - intros j Hj. replace (S i + j) with (i + S j) by lia. apply Hpl. cbn [length]. lia.
  - exists arr'. split_and!; [done| |].
    + intros [|j] k Hj; cbn in Hj.
      * injection Hj as <-. destruct (Hout o Ho) as [-> ->]. cbn [fst snd].
        rewrite !list_lookup_insert_eq, Nat.add_0_r by apply Hlo. done.
      * replace (i + S j) with (S i + j) by lia. by apply Hin.
    + intros k [Hne Hk]%not_elem_of_cons. destruct (Hout k Hk) as [-> ->]. cbn [fst snd].
      by rewrite !list_lookup_insert_ne by done.
Qed.

(** ** Construction *)

Record multilevel_ok (hashes : list Z) (phf : MultilevelBucketedPhf) (pl : MultilevelPlacements) : Prop := {
  mo_at k h : hashes !! k = Some h →
    ∃ l b s, classify phf h = Some (l, b) ∧
      ml_level pl !! k = Some l ∧ ml_bucket pl !! k = Some b ∧ ml_slot pl !! k = Some s ∧ s < 16;
  mo_inj k k' h h' lb s : hashes !! k = Some h → hashes !! k' = Some h' →
    classify phf h = Some lb → classify phf h' = Some lb →
    ml_slot pl !! k = Some s → ml_slot pl !! k' = Some s → k = k';
  mo_classify h : hashes ≠ [] → ∃ l b, classify phf h = Some (l, b) ∧
    (l = 0 ∧ b < num_buckets_level_0 phf ∨ l = 1 ∧ b < num_buckets_level_1 phf);
}.

Section construct.
Context (hashes : list Z) (seed : Z) (r : nat) (Hr : 0 < r) (Hnd : NoDup hashes).
Context (Hn32 : (Z.of_nat (length hashes) < 2 ^ 32)%Z) (Hr32 : (Z.of_nat r < 2 ^ 32)%Z).

Abbreviation bits := (mark_overflow (bucket_sizes seed r hashes) 0 (replicate ((r + 63) / 64) 0%Z)).
Abbreviation ovf h := (bitset_test bits (bucket_of h seed r)).
Abbreviation st := (place_keys seed r bits hashes 0 (pass_start r (length hashes))).
Abbreviation l0 := ({| bp_seed := seed; num_buckets := r |}).

Lemma pass3 : placed seed r bits (length hashes) hashes st.
Proof using Hr Hn32 Hr32.
  apply (place_keys_spec seed r bits (length hashes) Hn32 Hr32 [] hashes); [done|done| |apply placed_nil].
  intros b Hb Ho. destruct (overflow_bits seed r hashes b Hn32 Hb) as [_ Heq]. rewrite Heq in Ho.
  by apply Nat.ltb_ge in Ho.
Qed.

Lemma classify_eq l1 h :
  classify {| level_0 := l0; overflow := bits; level_1 := l1 |} h =
  if ovf h then (do l1 <- l1; Some (1, bucketed_bucket l1 h)) else Some (0, bucket_of h seed r).
Proof using Hr Hn32 Hr32.
  unfold classify, bucketed_bucket at 1 2. cbn [level_0 overflow level_1 num_buckets bp_seed].
  destruct (Nat.eqb_spec r 0); [lia|]. cbv zeta.
  destruct (overflow_bits seed r hashes (bucket_of h seed r) Hn32 (bucket_of_lt h seed r Hr)) as [Hlt _].
  apply lookup_lt_is_Some in Hlt as [w Hw]. cbv zeta in Hw. rewrite Hw.
  unfold bitset_test. rewrite Hw. cbn [default]. unfold id. unfold bucketed_bucket at 2. cbn [num_buckets bp_seed].
  destruct (Nat.eqb_spec r 0); [lia|]. done.
Qed.

Lemma rank_in b : 0 < rank seed r b hashes → ∃ k h, hashes !! k = Some h ∧ bucket_of h seed r = b.
Proof using Type.
  clear Hr Hnd Hn32 Hr32. unfold rank, countb. intros Hpos. destruct (filter _ hashes) as [|h l] eqn:E; [simpl in Hpos; lia|].
  assert (h ∈ filter (λ h, (bucket_of h seed r =? b) = true) hashes) as Hin by (rewrite E; by left).
  apply list_elem_of_filter in Hin as [Hb%Nat.eqb_eq [k Hk]%list_elem_of_lookup]. eauto.
Qed.

Lemma ovf_rank h : ovf h = (16 <? rank seed r (bucket_of h seed r) hashes).
Proof using Hr Hn32 Hr32. apply overflow_bits; [done|]. by apply bucket_of_lt. Qed.

(** A marked bucket has keys, which were set aside. *)
Lemma ovf_aside h : ovf h = true → p_hashes st ≠ [].
Proof using Hr Hn32 Hr32.
  intros Ho. pose proof Ho as Hrk. rewrite ovf_rank in Hrk. apply Nat.ltb_lt in Hrk.
  destruct (rank_in (bucket_of h seed r)) as (k & g & Hk & Hb); [lia|].
  assert (k ∈ p_orig st) as Hin by (eapply (pl_all _ _ _ _ _ _ pass3); [done|by rewrite Hb]).
  intros Hnil. pose proof (pl_aside _ _ _ _ _ _ pass3) as [Hl _].
  apply list_elem_of_lookup in Hin as [j Hj%lookup_lt_Some]. rewrite <- Hl, Hnil in Hj. simpl in Hj. lia.
Qed.

Lemma aside_NoDup : NoDup (p_hashes st).
Proof using Hnd Hr Hn32 Hr32.
  pose proof (pl_aside _ _ _ _ _ _ pass3) as [Hl Ho]. apply NoDup_alt. intros i j h Hi Hj.
  assert (∀ i, p_hashes st !! i = Some h → ∃ k, p_orig st !! i = Some k ∧ hashes !! k = Some h) as Horig.
  { intros i' Hi'. destruct (lookup_lt_is_Some_2 (p_orig st) i') as [k Hk]; [rewrite <- Hl; by eapply lookup_lt_Some|].
    destruct (pl_orig _ _ _ _ _ _ pass3 i' k Hk) as (h' & Hh & Hh' & _). exists k. split; [done|congruence]. }
  destruct (Horig i Hi) as (k & Hk & Hh), (Horig j Hj) as (k' & Hk' & Hh').
  assert (k = k') as <- by by apply (NoDup_lookup hashes k k' h). by apply (NoDup_lookup (p_orig st) i j k).
Qed.

Lemma pass3_length : length (p_hashes st) <= length hashes.
Proof using Hr Hn32 Hr32.
  pose proof pass3 as P. destruct (pl_aside _ _ _ _ _ _ P) as [-> Hnd'].
  transitivity (length (seq 0 (length hashes))); [|by rewrite length_seq]. apply submseteq_length, NoDup_submseteq; [done|].
  intros k [j Hj]%list_elem_of_lookup. destruct (pl_orig _ _ _ _ _ _ P j k Hj) as (h & Hk%lookup_lt_Some & _).
  apply elem_of_seq. lia.
Qed.

(** The placement of a key that stays in level 0. *)
Lemma here_at k h :
  hashes !! k = Some h → ovf h = false →
  k ∉ p_orig st ∧ p_level st !! k = Some 0 ∧ p_bucket st !! k = Some (bucket_of h seed r) ∧
  p_slot st !! k = Some (rank seed r (bucket_of h seed r) (take k hashes)) ∧
  rank seed r (bucket_of h seed r) (take k hashes) < 16.
Proof using Hr Hn32 Hr32.
  intros Hk Ho. destruct (pl_at _ _ _ _ _ _ pass3 k h Hk Ho) as [Hb Hs].
  pose proof (pl_level _ _ _ _ _ _ pass3 k h Hk) as Hlv. rewrite Ho in Hlv. split_and!; try done.
  - intros [j Hj]%list_elem_of_lookup. destruct (pl_orig _ _ _ _ _ _ pass3 j k Hj) as (h' & Hh & _ & Ho'). congruence.
  - rewrite ovf_rank in Ho. apply Nat.ltb_ge in Ho. pose proof (rank_take_lt seed r hashes k h Hk). lia.
Qed.

(** Without overflow. *)
Lemma ok_level_0 : p_hashes st = [] →
  multilevel_ok hashes {| level_0 := l0; overflow := bits; level_1 := None |}
    {| ml_level := p_level st; ml_bucket := p_bucket st; ml_slot := p_slot st |}.
Proof using Hr Hn32 Hr32.
  intros Hnil. assert (∀ h, ovf h = false) as Ho.
  { intros h. destruct (ovf h) eqn:Ho; [|done]. by destruct (ovf_aside h Ho). }
  assert (∀ h, classify {| level_0 := l0; overflow := bits; level_1 := None |} h = Some (0, bucket_of h seed r)) as Hc.
  { intros h. by rewrite classify_eq, Ho. }
  split; cbn [ml_level ml_bucket ml_slot].
  - intros k h Hk. destruct (here_at k h Hk (Ho h)) as (_ & ? & ? & ? & ?). rewrite Hc. eauto 10.
  - intros k k' h h' lb s Hk Hk'. rewrite !Hc. intros [= <-] [= Hb] Hs Hs'.
    destruct (here_at k h Hk (Ho h)) as (_ & _ & _ & Hs1 & _), (here_at k' h' Hk' (Ho h')) as (_ & _ & _ & Hs2 & _).
    apply (rank_take_inj seed r hashes k k' h h'); congruence.
  - intros h _. rewrite Hc. exists 0, (bucket_of h seed r). split; [done|]. left. split; [done|by apply bucket_of_lt].
Qed.

(** The placements of level 1 cover the keys set aside. *)
Lemma patch_run l1 pl1 :
  placements_ok (p_hashes st) l1 pl1 →
  ∃ arr, patch_level_1 (p_orig st) pl1 0 (p_bucket st, p_slot st) = Ok arr ∧
    (∀ j k, p_orig st !! j = Some k → arr.1 !! k = bucket pl1 !! j ∧ arr.2 !! k = slot pl1 !! j) ∧
    (∀ k, k ∉ p_orig st → arr.1 !! k = p_bucket st !! k ∧ arr.2 !! k = p_slot st !! k).
Proof using Hr Hn32 Hr32.
  intros Hpl. pose proof pass3 as P. pose proof (pl_aside _ _ _ _ _ _ P) as [Hlo Hndo].
  apply (patch_level_1_spec (p_orig st) pl1 0 (p_bucket st, p_slot st) Hndo).
  - apply Forall_lookup_2. intros j k Hj. destruct (pl_orig _ _ _ _ _ _ P j k Hj) as (h & Hk & _ & _).
    pose proof (pl_lengths _ _ _ _ _ _ P) as (_ & Hl2 & Hl3). cbn [fst snd]. rewrite Hl2, Hl3.
    by apply lookup_lt_Some in Hk.
  - intros j Hj. rewrite <- Hlo in Hj. apply lookup_lt_is_Some in Hj as [h Hh].
    destruct (po_at _ _ _ Hpl j h Hh) as (_ & Hb & s & Hs & _). split; eauto.
Qed.

(** With the level-1 placements of the keys set aside. *)
Lemma ok_level_1 l1 pl1 arr :
  p_hashes st ≠ [] → 0 < num_buckets l1 → placements_ok (p_hashes st) l1 pl1 →
  patch_level_1 (p_orig st) pl1 0 (p_bucket st, p_slot st) = Ok arr →
  multilevel_ok hashes {| level_0 := l0; overflow := bits; level_1 := Some l1 |}
    {| ml_level := p_level st; ml_bucket := arr.1; ml_slot := arr.2 |}.
Proof using Hr Hn32 Hr32.
  intros Hne Hn1 Hpl Hpatch. pose proof pass3 as P. pose proof (pl_aside _ _ _ _ _ _ P) as [Hlo _].
  destruct (patch_run l1 pl1 Hpl) as (arr' & Hrun & Hin & Hout).
  rewrite Hpatch in Hrun. injection Hrun as <-.
  assert (∀ k h, hashes !! k = Some h → ovf h = true → ∃ j s, p_hashes st !! j = Some h ∧ p_orig st !! j = Some k ∧
    slot pl1 !! j = Some s ∧ s < 16 ∧ arr.1 !! k = Some (bucketed_bucket l1 h) ∧ arr.2 !! k = Some s) as Haside.
  { intros k h Hk Ho. pose proof (pl_all _ _ _ _ _ _ P k h Hk Ho) as [j Hj]%list_elem_of_lookup.
    destruct (pl_orig _ _ _ _ _ _ P j k Hj) as (h' & Hk' & Hh & _). assert (h' = h) as -> by congruence.
    destruct (po_at _ _ _ Hpl j h Hh) as (_ & Hb & s & Hs & Hlt). destruct (Hin j k Hj) as [Ha1 Ha2].
    exists j, s. split_and!; congruence || done. }
  split; cbn [ml_level ml_bucket ml_slot].
  - intros k h Hk. rewrite classify_eq. pose proof (pl_level _ _ _ _ _ _ P k h Hk) as Hlv.
    destruct (ovf h) eqn:Ho.
    + destruct (Haside k h Hk Ho) as (j & s & _ & _ & _ & ? & ? & ?). eauto 10.
    + destruct (here_at k h Hk Ho) as (Hni & _ & Hb & Hs & ?). destruct (Hout k Hni) as [Ha1 Ha2].
      rewrite Ha1, Ha2. eauto 10.
  - intros k k' h h' lb s Hk Hk'. rewrite !classify_eq.
    destruct (ovf h) eqn:Ho, (ovf h') eqn:Ho'; intros [= <-] [= Hb] Hs Hs'.
    + destruct (Haside k h Hk Ho) as (j & s1 & Hj & Hoj & Hs1 & _ & _ & Ha).
      destruct (Haside k' h' Hk' Ho') as (j' & s2 & Hj' & Hoj' & Hs2 & _ & _ & Ha').
      assert (j = j') as <-; [|congruence].
      apply (po_inj _ _ _ Hpl j j' h h' s); congruence.
    + destruct (here_at k h Hk Ho) as (Hni & _ & _ & Hs1 & _), (here_at k' h' Hk' Ho') as (Hni' & _ & _ & Hs2 & _).
      destruct (Hout k Hni) as [_ Ha], (Hout k' Hni') as [_ Ha'].
      apply (rank_take_inj seed r hashes k k' h h'); congruence.
  - intros h _. rewrite classify_eq. unfold num_buckets_level_0, num_buckets_level_1.
    cbn [level_0 level_1 num_buckets default fmap option_fmap option_map]. destruct (ovf h).
    + exists 1, (bucketed_bucket l1 h). split; [done|]. right. split; [done|]. unfold id, bucketed_bucket.
      destruct (Nat.eqb_spec (num_buckets l1) 0); [lia|by apply bucket_of_lt].
    + exists 0, (bucket_of h seed r). split; [done|]. left. split; [done|by apply bucket_of_lt].
Qed.
End construct.

Lemma multilevel_build_spec (hashes : list Z) (lambda_0 lambda_1 : f64) :
  (Z.of_nat (length hashes) < 2 ^ 32)%Z →
  match multilevel_build hashes lambda_0 lambda_1 with
  | Ok (phf, pl) => NoDup hashes ∧ multilevel_ok hashes phf pl
  | Err Exhausted => NoDup hashes
  | Err DuplicateHash => ¬ NoDup hashes
  | Panic => lambda_ok lambda_0 = false ∨ lambda_ok lambda_1 = false ∨
      (2 ^ 32 <= bucket_count (length hashes) lambda_0)%Z ∨
      ∃ n, n <= length hashes ∧ (2 ^ 32 <= bucket_count n lambda_1)%Z
  end.
Proof.
  intros Hn32. unfold multilevel_build. destruct (lambda_ok lambda_0); cbn [assert_then]; [|by left].
  destruct (lambda_ok lambda_1) eqn:Hl1; cbn [assert_then]; [|by right; left]. cbv zeta.
  destruct (Nat.eqb_spec (length hashes) 0) as [Hz|Hz].
  { apply nil_length_inv in Hz as ->. split; [constructor|]. by split. }
  destruct (has_duplicate hashes) eqn:Hd.
  { intros Hnd%has_duplicate_spec. congruence. }
  apply has_duplicate_spec in Hd.
  destruct (Z.ltb_spec (bucket_count (length hashes) lambda_0) (2 ^ 32)); cbn [assert_then]; [|by right; right; left].
  set (r := Z.to_nat _). assert (0 < r) as Hr by (unfold r, bucket_count; lia).
  assert (Z.of_nat r < 2 ^ 32)%Z as Hr32 by (unfold r, bucket_count in *; lia).
  pose proof (aside_NoDup hashes MULTILEVEL_SEED_BASE r Hr Hd Hn32 Hr32) as Hnd.
  pose proof (ok_level_0 hashes MULTILEVEL_SEED_BASE r Hr Hn32 Hr32) as H0.
  pose proof (ok_level_1 hashes MULTILEVEL_SEED_BASE r Hr Hn32 Hr32) as H1.
  pose proof (patch_run hashes MULTILEVEL_SEED_BASE r Hr Hn32 Hr32) as Hp.
  pose proof (pass3_length hashes MULTILEVEL_SEED_BASE r Hr Hn32 Hr32) as Hle.
  set (st := place_keys _ _ _ _ _ _) in *. clearbody st.
  destruct (Nat.eqb_spec (length (p_hashes st)) 0) as [Hn%nil_length_inv|Hn].
  { split; [done|by apply H0]. }
  pose proof (bucketed_build_spec (p_hashes st) lambda_1) as Hb.
  destruct (bucketed_build (p_hashes st) lambda_1) as [[l1 pl1]|e|]; cbn [try].
  - destruct Hb as (Hr1 & _ & Hpl1). apply Nat.eqb_neq in Hn as Hn'. rewrite Hn' in Hr1.
    destruct (Hp l1 pl1 Hpl1) as (arr & Hrun & _). rewrite Hrun. cbn [try]. split; [done|].
    apply (H1 l1 pl1 arr); [by intros Hnil; rewrite Hnil in Hn|rewrite Hr1; unfold bucket_count; lia|done|done].
  - by destruct e.
  - destruct Hb as [|]; [congruence|]. right; right; right. by exists (length (p_hashes st)).
Qed.

(** ** The maps and sets *)

Abbreviation in_level_0 pl := (λ k, default 0 (ml_level pl !! k) =? 0).
Abbreviation position pl := (λ k, (default 0 (ml_bucket pl !! k), default 0 (ml_slot pl !! k))).

Lemma store_levels_list feature {T} pl (items : list (T * Z)) i t0 t1 t0' t1' :
  (∀ k e, items !! k = Some e → ∃ l b s,
    ml_level pl !! (i + k) = Some l ∧ l < 2 ∧ ml_bucket pl !! (i + k) = Some b ∧ ml_slot pl !! (i + k) = Some s) →
  tt_store_list (stored_at feature (in_level_0 pl) (position pl) items i) t0 = Ok t0' →
  tt_store_list (stored_at feature (λ k, negb (in_level_0 pl k)) (position pl) items i) t1 = Ok t1' →
  store_levels feature pl items i (t0, t1) = Ok (t0', t1').
Proof.
  revert i t0 t1. induction items as [|[x h] items IH]; intros i t0 t1 Hpl; cbn [store_levels stored_at].
  { by intros [= ->] [= ->]. }
  destruct (Hpl 0 (x, h) eq_refl) as (l & b & s & Hl & Hl2 & Hb & Hs). rewrite Nat.add_0_r in Hl, Hb, Hs.
  assert (∀ k e, items !! k = Some e → ∃ l b s, ml_level pl !! (S i + k) = Some l ∧ l < 2 ∧
    ml_bucket pl !! (S i + k) = Some b ∧ ml_slot pl !! (S i + k) = Some s) as Hpl'.
  { intros k e Hk. replace (S i + k) with (i + S k) by lia. by apply (Hpl (S k) e). }
  rewrite Hl, Hb, Hs. cbn [expect try default]. unfold id.
  destruct l as [|[|l]]; [| |lia]; cbn [Nat.eqb negb tt_store_list fst snd].
  - destruct (tt_store t0 b s _ x) as [t| |]; cbn [try]; [|done..]. by apply IH.
  - destruct (tt_store t1 b s _ x) as [t| |]; cbn [try]; [|done..]. by apply IH.
Qed.

Section build.
Context (feature : hash_feature) (tier : simd_tier).
Context {T K : Type} `{EqDecision K} (key_of : T → K) (hash_one : K → Z).
Variable (items : list T).

Abbreviation hashes := (item_hashes key_of hash_one items).

Section placed.
Context (phf : MultilevelBucketedPhf) (pl : MultilevelPlacements).
Hypothesis Hnd : NoDup hashes.
Hypothesis Hpl : multilevel_ok hashes phf pl.

(** Where an item was placed is where its key is classified to. *)
Lemma item_at k x h :
  zip items hashes !! k = Some (x, h) →
  ∃ l, l < 2 ∧ ml_level pl !! k = Some l ∧ classify phf h = Some (l, (position pl k).1) ∧
    (position pl k).1 < (if l =? 0 then num_buckets_level_0 phf else num_buckets_level_1 phf) ∧
    ml_bucket pl !! k = Some (position pl k).1 ∧ ml_slot pl !! k = Some (position pl k).2 ∧ (position pl k).2 < 16.
Proof using Hpl.
  intros Hk. apply zip_lookup_hash in Hk.
  destruct (mo_at _ _ _ Hpl k h Hk) as (l & b & s & Hc & Hl & -> & -> & Hs).
  destruct (mo_classify _ _ _ Hpl h) as (l' & b' & Hc' & Hb); [by intros Hnil; rewrite Hnil in Hk|].
  cbn [default fst snd]. unfold id. rewrite Hc in Hc'. simplify_eq. exists l'.
  split_and!; try done; destruct Hb as [[-> ?]|[-> ?]]; cbn; [lia|lia|done|done].
Qed.

(** The table of one level. *)
Lemma level_table (lvl : nat) (sel : nat → bool) (r : nat) :
  r = (if lvl =? 0 then num_buckets_level_0 phf else num_buckets_level_1 phf) →
  (∀ k x h, zip items hashes !! k = Some (x, h) → sel k = true ↔ ml_level pl !! k = Some lvl) →
  ∃ t, tt_store_list (stored_at feature sel (position pl) (zip items hashes) 0) (tt_new r) = Ok t ∧
    iter_level t ≡ₚ Some <$> (stored_at feature sel (position pl) (zip items hashes) 0).*2.*2 ∧
    ∀ b key, b < r → classify phf (hash_one key) = Some (lvl, b) →
      ∃ res, tt_lookup key_of tier t b (hash_tag feature (hash_one key)) key = Some res ∧
        ∀ x, res = Some x ↔ x ∈ items ∧ key_of x = key.
Proof using Hnd Hpl.
  intros Hr Hsel. destruct (placed_table key_of tier feature sel (position pl) (zip items hashes) r)
    as (t & Hrun & _ & Hp & Hlook).
  - intros k x h Hk Hs%(Hsel k x h Hk). destruct (item_at k x h Hk) as (l & _ & Hl & _ & Hb & _ & _ & Hlt).
    assert (l = lvl) as -> by congruence. by rewrite Hr.
  - intros k k' [x h] [x' h'] Hk Hk' Hs%(Hsel k x h Hk) Hs'%(Hsel k' x' h' Hk') Heq.
    destruct (item_at k x h Hk) as (l & _ & Hl & Hc & _ & _ & Hsl & _).
    destruct (item_at k' x' h' Hk') as (l' & _ & Hl' & Hc' & _ & _ & Hsl' & _).
    rewrite <- Heq in Hc', Hsl'. assert (l = lvl) as -> by congruence. assert (l' = lvl) as -> by congruence.
    apply (mo_inj _ _ _ Hpl k k' h h' (lvl, (position pl k).1) (position pl k).2); try done; by eapply zip_lookup_hash.
  - rewrite zip_stored. intros x y. apply keys_determine. by apply (hashes_keys key_of hash_one).
  - exists t. split_and!; [done..|]. intros b key Hb Hc.
    assert (∀ k x h, zip items hashes !! k = Some (x, h) → key_of x = key →
      h = hash_one key ∧ sel k = true ∧ (position pl k).1 = b) as Hkey.
    { intros k x h Hk <-. destruct (zip_lookup key_of hash_one items k x h Hk) as [_ Hh].
      destruct (item_at k x h Hk) as (l & _ & Hl & Hc' & _). rewrite Hh, Hc in Hc'.
      split; [done|]. rewrite (Hsel k x h Hk). split; congruence. }
    destruct (Hlook b key (hash_one key) Hb) as (res & Hl & Hres).
    { intros k x h Hk _ Hx. by destruct (Hkey k x h Hk Hx) as (? & _ & ?). }
    exists res. split; [done|]. intros x. rewrite Hres. split.
    + intros [(k & h & Hk & _) Hx]. destruct (zip_lookup key_of hash_one items k x h Hk) as [Hx' _].
      split; [by eapply list_elem_of_lookup_2|done].
    + intros [[k Hk]%list_elem_of_lookup Hx]. split; [|done].
      assert (zip items hashes !! k = Some (x, hash_one (key_of x))) as Hz.
      { apply lookup_zip_with_Some. exists x, (hash_one (key_of x)). split_and!; [done|done|].
        unfold item_hashes. by rewrite list_lookup_fmap, Hk. }
      exists k, (hash_one (key_of x)). split; [done|]. by apply (Hkey k x _ Hz Hx).
Qed.

Lemma multilevel_store :
  ∃ t0 t1, store_levels feature pl (zip items hashes) 0
      (tt_new (num_buckets_level_0 phf), tt_new (num_buckets_level_1 phf)) = Ok (t0, t1) ∧
    iter_level t0 ++ iter_level t1 ≡ₚ Some <$> items ∧
    ∀ key, items ≠ [] → ∃ l b, classify phf (hash_one key) = Some (l, b) ∧
      ∃ res, tt_lookup key_of tier (if l =? 0 then t0 else t1) b (hash_tag feature (hash_one key)) key = Some res ∧
        ∀ x, res = Some x ↔ x ∈ items ∧ key_of x = key.
Proof using Hnd Hpl.
  assert (∀ k x h, zip items hashes !! k = Some (x, h) → ∃ l, ml_level pl !! k = Some l ∧ l < 2) as Hlv.
  { intros k x h Hk. destruct (item_at k x h Hk) as (l & ? & ? & _). eauto. }
  destruct (level_table 0 (in_level_0 pl) _ eq_refl) as (t0 & Hrun0 & Hp0 & Hlook0).
  { intros k x h Hk. destruct (Hlv k x h Hk) as (l & -> & Hl). cbn [default]. unfold id.
    rewrite Nat.eqb_eq. split; congruence. }
  destruct (level_table 1 (λ k, negb (in_level_0 pl k)) _ eq_refl) as (t1 & Hrun1 & Hp1 & Hlook1).
  { intros k x h Hk. destruct (Hlv k x h Hk) as (l & -> & Hl). cbn [default]. unfold id.
    rewrite negb_true_iff, Nat.eqb_neq. split; [intros ?; f_equal; lia|congruence]. }
  exists t0, t1. split_and!.
  - apply store_levels_list; [|done|done]. intros k [x h] Hk. destruct (item_at k x h Hk) as (l & ? & ? & _ & _ & ? & ? & _).
    eauto 10.
  - by rewrite Hp0, Hp1, <- fmap_app, stored_at_split, zip_stored.
  - intros key Hne. destruct (mo_classify _ _ _ Hpl (hash_one key)) as (l & b & Hc & Hb).
    { intros Hnil%fmap_nil_inv. done. }
    exists l, b. split; [done|]. destruct Hb as [[-> Hb]|[-> Hb]]; [by apply Hlook0|by apply Hlook1].
Qed.
End placed.
End build.

Section correct.
Context (feature : hash_feature) (tier : simd_tier).
Context {K V : Type} `{Countable K} (hash_one : K → Z).

Lemma multilevel_map_ok (entries : list (K * V)) (config : MultilevelBucketedConfig) :
  (Z.of_nat (length entries) < 2 ^ 32)%Z →
  match multilevel_from_entries feature hash_one entries config with
  | Ok m =>
      (∀ k, multilevel_get feature tier hash_one m k = Some (map_of entries !! k)) ∧
      multilevel_iter m ≡ₚ Some <$> entries ∧ multilevel_drop m ≡ₚ Some <$> entries ∧
      mm_len m = length entries ∧ NoDup entries.*1
  | Err Exhausted => NoDup (item_hashes fst hash_one entries)
  | Err DuplicateHash => ¬ NoDup (item_hashes fst hash_one entries)
  | Panic => lambda_ok (lambda_0 config) = false ∨ lambda_ok (lambda_1 config) = false ∨
      (2 ^ 32 <= bucket_count (length entries) (lambda_0 config))%Z ∨
      ∃ n, n <= length entries ∧ (2 ^ 32 <= bucket_count n (lambda_1 config))%Z
  end.
Proof using Type.
  intros Hn32. unfold multilevel_from_entries.
  pose proof (multilevel_build_spec (item_hashes fst hash_one entries) (lambda_0 config) (lambda_1 config)) as Hb.
  rewrite (length_fmap _ entries : length (item_hashes fst hash_one entries) = length entries) in Hb. specialize (Hb Hn32).
  destruct (Nat.eqb_spec (length entries) 0) as [Hz|Hz].
  { apply nil_length_inv in Hz as ->. change (item_hashes fst hash_one []) with (@nil Z) in Hb.
    destruct (multilevel_build [] _ _) as [[phf pl]|e|]; cbn [try]; [|by destruct e|done].
    split_and!; try done. constructor. }
  change ((λ kv, hash_one kv.1) <$> entries) with (item_hashes fst hash_one entries). cbv zeta.
  destruct (multilevel_build (item_hashes fst hash_one entries) _ _) as [[phf pl]|e|]; cbn [try]; [|by destruct e|done].
  destruct Hb as [Hnd Hpl].
  destruct (multilevel_store feature tier fst hash_one entries phf pl Hnd Hpl) as (t0 & t1 & -> & Hp & Hlook).
  cbn [try mm_len]. unfold multilevel_iter, multilevel_drop, drop_level. cbn [mm_l0 mm_l1].
  assert (NoDup entries.*1) as Hk by by apply (hashes_keys _ hash_one).
  split_and!; [|done..]. intros k. unfold multilevel_get. cbn [mm_len mm_phf mm_l0 mm_l1].
  destruct (Nat.eqb_spec (length entries) 0) as [|_]; [lia|]. cbv zeta.
  destruct (Hlook k ltac:(by intros ->)) as (l & b & -> & res & -> & Hres). f_equal. by apply found_value.
Qed.

(** C23: the multi-level perfect-hash map.  When the construction succeeds the
    map answers every query, of keys inside and outside, as the finite map of
    its entries: the classification never reads outside the bitset nor unwraps
    a level 1 that is missing, and the lookup never reads an uninitialized
    entry; its iterator and its destructor visit exactly the entries, each once
    and initialized.  A duplicate is reported only for equal hashes; no store
    meets an occupied slot.  There must be fewer than [2 ^ 32] entries: the
    construction counts and indexes them in 32 bits, and nothing of the code
    checks the number ([multilevel_index_wraps]). *)
Theorem multilevel_map_correct (entries : list (K * V)) (config : MultilevelBucketedConfig) :
  (Z.of_nat (length entries) < 2 ^ 32)%Z →
  match multilevel_from_entries feature hash_one entries config with
  | Ok m =>
      (∀ k, multilevel_get feature tier hash_one m k = Some (map_of entries !! k)) ∧
      multilevel_iter m ≡ₚ Some <$> entries ∧ multilevel_drop m ≡ₚ Some <$> entries ∧
      mm_len m = length entries ∧ NoDup entries.*1
  | Err Exhausted => NoDup (item_hashes fst hash_one entries)
  | Err DuplicateHash => ¬ NoDup (item_hashes fst hash_one entries)
  | Panic => lambda_ok (lambda_0 config) = false ∨ lambda_ok (lambda_1 config) = false ∨
      (2 ^ 32 <= bucket_count (length entries) (lambda_0 config))%Z ∨
      ∃ n, n <= length entries ∧ (2 ^ 32 <= bucket_count n (lambda_1 config))%Z
  end.
Proof using Type. apply multilevel_map_ok. Qed.

Lemma multilevel_set_ok (keys : list K) (config : MultilevelBucketedConfig) s :
  (Z.of_nat (length keys) < 2 ^ 32)%Z →
  multilevel_from_keys feature hash_one keys config = Ok s →
  (∀ k, multilevel_set_get feature tier hash_one s k = Some (if decide (k ∈ keys) then Some k else None)) ∧
  multilevel_set_iter s ≡ₚ Some <$> keys ∧ sm_len s = length keys ∧ NoDup keys.
Proof using Type.
  intros Hn32. unfold multilevel_from_keys.
  pose proof (multilevel_build_spec (item_hashes id hash_one keys) (lambda_0 config) (lambda_1 config)) as Hb.
  rewrite (length_fmap _ keys : length (item_hashes id hash_one keys) = length keys) in Hb. specialize (Hb Hn32).
  destruct (Nat.eqb_spec (length keys) 0) as [Hz|Hz].
  { apply nil_length_inv in Hz as ->. destruct (multilevel_build [] _ _) as [[phf pl]|e|]; [|done..].
    intros [= <-]. split_and!; try done. constructor. }
  change (hash_one <$> keys) with (item_hashes id hash_one keys). cbv zeta.
  destruct (multilevel_build (item_hashes id hash_one keys) _ _) as [[phf pl]|e|]; cbn [try]; [|done..].
  destruct Hb as [Hnd Hpl].
  destruct (multilevel_store feature tier id hash_one keys phf pl Hnd Hpl) as (t0 & t1 & -> & Hp & Hlook).
  cbn [try]. intros [= <-]. unfold multilevel_set_iter. cbn [sm_l0 sm_l1 sm_len].
  assert (NoDup keys) as Hk by (rewrite <- (list_fmap_id keys); by apply (hashes_keys _ hash_one)).
  split_and!; [|done..]. intros k. unfold multilevel_set_get. cbn [sm_len sm_phf sm_l0 sm_l1].
  destruct (Nat.eqb_spec (length keys) 0) as [|_]; [lia|]. cbv zeta.
  destruct (Hlook k ltac:(by intros ->)) as (l & b & -> & res & -> & Hres). f_equal. by apply found_key.
Qed.

(** The multi-level perfect-hash set: the stored key for a member, nothing
    for any other query. *)
Theorem multilevel_set_correct (keys : list K) (config : MultilevelBucketedConfig) s :
  (Z.of_nat (length keys) < 2 ^ 32)%Z →
  multilevel_from_keys feature hash_one keys config = Ok s →
  (∀ k, multilevel_set_get feature tier hash_one s k = Some (if decide (k ∈ keys) then Some k else None)) ∧
  multilevel_set_iter s ≡ₚ Some <$> keys ∧ sm_len s = length keys ∧ NoDup keys.
Proof using Type. apply multilevel_set_ok. Qed.
End correct.

(** The key with index [2 ^ 32] that goes to level 1 is recorded under index 0:
    its level-1 placement is patched over that of the first key. *)
Theorem multilevel_index_wraps seed r bits st h :
  bitset_test bits (bucket_of h seed r) = true →
  p_orig (place_key seed r bits st (Z.to_nat (2 ^ 32)) h) = p_orig st ++ [0].
Proof.
  intros Ho. unfold place_key, as_u32. rewrite Ho. cbn [p_orig]. by rewrite Z2Nat.id, Z_mod_same_full by lia.
Qed.

Lemma multilevel_index_wraps_witness :
  p_orig (place_key MULTILEVEL_SEED_BASE 1 [1%Z] (pass_start 1 1) (Z.to_nat (2 ^ 32)) 5) = [0].
Proof. apply (multilevel_index_wraps MULTILEVEL_SEED_BASE 1 [1%Z] (pass_start 1 1) 5). reflexivity. Defined.

(** ** Examples *)

(** Twenty hashes of bucket 1 of 3, and ten others: bucket 1 overflows. *)
Definition crowded_keys : list nat :=
  take 20 (filter (λ k, bucket_of (bucketed_hash k) MULTILEVEL_SEED_BASE 3 = 1) (seq 0 200)) ++
  take 10 (filter (λ k, bucket_of (bucketed_hash k) MULTILEVEL_SEED_BASE 3 ≠ 1) (seq 0 200)).
Definition crowded_entries : list (nat * nat) := (λ k, (k, 10 * k)) <$> crowded_keys.
Definition crowded_config : MultilevelBucketedConfig := {| lambda_0 := f64_of_usize 10; lambda_1 := f64_4 |}.

Lemma multilevel_map_correct_witness :
  ∃ m, multilevel_from_entries PureFallback bucketed_hash crowded_entries crowded_config = Ok m ∧
    has_level_1 (mm_phf m) = true ∧
    ∀ k, multilevel_get PureFallback SSE2 bucketed_hash m k = Some (map_of crowded_entries !! k).
Proof.
  pose proof (multilevel_map_correct PureFallback SSE2 bucketed_hash crowded_entries crowded_config ltac:(by vm_compute)) as Hc.
  destruct (multilevel_from_entries PureFallback bucketed_hash crowded_entries crowded_config) as [m|e|] eqn:E.
  - exists m. split_and!; [reflexivity| |exact (proj1 Hc)].
    vm_compute in E. injection E as <-. reflexivity.
  - vm_compute in E. discriminate E.
  - vm_compute in E. discriminate E.
Defined.

Lemma multilevel_set_correct_witness :
  ∃ s, multilevel_from_keys PureFallback bucketed_hash crowded_keys crowded_config = Ok s ∧
    ∀ k, multilevel_set_get PureFallback SSE2 bucketed_hash s k =
         Some (if decide (k ∈ crowded_keys) then Some k else None).
Proof.
  destruct (multilevel_from_keys PureFallback bucketed_hash crowded_keys crowded_config) as [s|e|] eqn:E.
  - exists s. split; [reflexivity|].
    exact (proj1 (multilevel_set_correct PureFallback SSE2 bucketed_hash crowded_keys crowded_config s ltac:(by vm_compute) E)).
  - vm_compute in E. discriminate E.
  - vm_compute in E. discriminate E.
Defined.
