(* ===== verification/BTreeNode.v ===== *)
(** * B+ tree nodes

    [flat_btree/node.rs]: the layout of leaves and internal nodes in blocks of
    256 bytes. *)

From Stdlib Require Import Lia.
From S2P Require Import Prelude.

(*@ flat_btree/node.rs : pub const NODE_SIZE *)
Definition NODE_SIZE : nat := 256.

(*@ flat_btree/node.rs : 32-36 : HEADER_SIZE, LEAF_LINK_SIZE *)
Definition HEADER_SIZE : nat := 8.
Definition LEAF_LINK_SIZE : nat := 2 * 4.

Section layout.
Context (key_size val_size : nat).

Definition PAYLOAD : nat := NODE_SIZE - HEADER_SIZE.

(*@ flat_btree/node.rs : pub const LEAF_CAP *)
Definition LEAF_CAP : nat :=
  let kv_size := key_size + val_size in
  if kv_size =? 0 then 128 else (PAYLOAD - LEAF_LINK_SIZE) / kv_size.

(*@ flat_btree/node.rs : pub const INTERNAL_CAP *)
Definition INTERNAL_CAP : nat :=
  let k_plus_child := key_size + 4 in
  if k_plus_child =? 0 then 128 else (PAYLOAD - 4) / k_plus_child.

(** The compile-time assertions. *)
(*@ flat_btree/node.rs : pub fn assert_capacities *)
Definition assert_capacities : bool := (1 <=? LEAF_CAP) && (2 <=? INTERNAL_CAP).

(** Offsets in a node. *)
(*@ flat_btree/node.rs : pub unsafe fn leaf_key_ptr *)
Definition leaf_key_ptr (node idx : nat) : nat := node + (HEADER_SIZE + idx * key_size).

(*@ flat_btree/node.rs : pub unsafe fn leaf_val_ptr *)
Definition leaf_val_ptr (node idx : nat) : nat :=
  let vals_offset := HEADER_SIZE + LEAF_CAP * key_size in
  node + (vals_offset + idx * val_size).

(*@ flat_btree/node.rs : pub unsafe fn leaf_prev_ptr *)
Definition leaf_prev_ptr (node : nat) : nat := node + (NODE_SIZE - LEAF_LINK_SIZE).

(*@ flat_btree/node.rs : pub unsafe fn leaf_next_ptr *)
Definition leaf_next_ptr (node : nat) : nat := node + (NODE_SIZE - 4).

(*@ flat_btree/node.rs : pub unsafe fn internal_key_ptr *)
Definition internal_key_ptr (node idx : nat) : nat := node + (HEADER_SIZE + idx * key_size).

(*@ flat_btree/node.rs : pub unsafe fn internal_child_ptr *)
Definition internal_child_ptr (node idx : nat) : nat :=
  let children_offset := HEADER_SIZE + INTERNAL_CAP * key_size in
  node + (children_offset + idx * 4).

(** Two byte ranges do not overlap. *)
Definition disjoint_ranges (a la b lb : nat) : Prop := a + la <= b ∨ b + lb <= a.

Lemma leaf_fits : LEAF_CAP * (key_size + val_size) <= NODE_SIZE - HEADER_SIZE - LEAF_LINK_SIZE.
Proof.
  unfold LEAF_CAP. destruct (Nat.eqb_spec (key_size + val_size) 0) as [->|Hne]; [lia|].
  rewrite Nat.mul_comm. apply Nat.Div0.mul_div_le.
Qed.

Lemma internal_fits : INTERNAL_CAP * (key_size + 4) + 4 <= NODE_SIZE - HEADER_SIZE.
Proof.
  unfold INTERNAL_CAP. destruct (Nat.eqb_spec (key_size + 4) 0); [lia|].
  pose proof (Nat.Div0.mul_div_le (PAYLOAD - 4) (key_size + 4)) as Hle.
  unfold PAYLOAD, NODE_SIZE, HEADER_SIZE in *. lia.
Qed.

(** Two slots of an array that differ lie apart. *)
Lemma slots_apart i j size base : i ≠ j → disjoint_ranges (base + i * size) size (base + j * size) size.
Proof. unfold disjoint_ranges. intros Hne. destruct (Nat.lt_trichotomy i j) as [|[]]; nia. Qed.

(** The fields of a node.  The keys, the values and the two links of a leaf,
    and the keys and the children of an internal node, lie behind the header,
    inside the 256 bytes of the node and apart from each other. *)
Theorem node_layout_sound (i j : nat) :
  (i < LEAF_CAP → j < LEAF_CAP →
     (i ≠ j → disjoint_ranges (leaf_key_ptr 0 i) key_size (leaf_key_ptr 0 j) key_size ∧
              disjoint_ranges (leaf_val_ptr 0 i) val_size (leaf_val_ptr 0 j) val_size) ∧
     HEADER_SIZE <= leaf_key_ptr 0 i ∧
     leaf_key_ptr 0 i + key_size <= leaf_val_ptr 0 j ∧
     leaf_val_ptr 0 j + val_size <= leaf_prev_ptr 0 ∧
     leaf_prev_ptr 0 + 4 <= leaf_next_ptr 0 ∧ leaf_next_ptr 0 + 4 <= NODE_SIZE) ∧
  (i < INTERNAL_CAP → j <= INTERNAL_CAP →
     (i ≠ j → disjoint_ranges (internal_key_ptr 0 i) key_size (internal_key_ptr 0 j) key_size ∧
              disjoint_ranges (internal_child_ptr 0 i) 4 (internal_child_ptr 0 j) 4) ∧
     HEADER_SIZE <= internal_key_ptr 0 i ∧
     internal_key_ptr 0 i + key_size <= internal_child_ptr 0 j ∧
     internal_child_ptr 0 j + 4 <= NODE_SIZE).
Proof.
  pose proof leaf_fits as Hl. pose proof internal_fits as Hi.
  unfold leaf_key_ptr, leaf_val_ptr, leaf_prev_ptr, leaf_next_ptr, internal_key_ptr, internal_child_ptr.
  unfold NODE_SIZE, HEADER_SIZE, LEAF_LINK_SIZE in *. split; intros Hlt Hlt'; split_and!; try nia.
  all: intros Hne; split; rewrite ?Nat.add_0_l, <- ?Nat.add_assoc; unfold disjoint_ranges;
    destruct (Nat.lt_trichotomy i j) as [|[]]; nia.
Qed.
End layout.

Lemma node_layout_sound_witness :
  leaf_val_ptr 8 8 0 14 + 8 <= leaf_prev_ptr 0 ∧ internal_child_ptr 8 0 20 + 4 <= NODE_SIZE.
Proof.
  split.
  - apply (node_layout_sound 8 8 0 14); cbn; lia.
  - apply (node_layout_sound 8 8 0 20); cbn; lia.
Defined.

(** Alignment is not part of the layout.  With one-byte keys the values of a
    leaf start at byte 34, so that no eight-byte value is aligned, with 16-byte
    keys of alignment 16 no key is aligned, and with three-byte keys the
    children of an internal node are not, although every node starts at a
    multiple of 256. *)
Theorem node_fields_misaligned (n : nat) :
  leaf_val_ptr 1 8 (n * NODE_SIZE) 0 mod 8 = 2 ∧
  leaf_key_ptr 16 (n * NODE_SIZE) 0 mod 16 = 8 ∧
  internal_child_ptr 3 (n * NODE_SIZE) 0 mod 4 = 2.
Proof.
  unfold leaf_val_ptr, leaf_key_ptr, internal_child_ptr.
  replace (n * NODE_SIZE) with (n * 32 * 8) at 1 by (unfold NODE_SIZE; lia).
  replace (n * NODE_SIZE) with (n * 16 * 16) at 1 by (unfold NODE_SIZE; lia).
  replace (n * NODE_SIZE) with (n * 64 * 4) at 1 by (unfold NODE_SIZE; lia).
  rewrite !(Nat.add_comm (_ * _)), !Nat.Div0.mod_add. done.
Qed.
