(* ===== verification/BinSearch.v ===== *)
(** * Ordered keys and the searches in sorted slices

    The order on keys ([Ord]), the linear scans of [flat_btree/raw.rs] and the
    binary searches of the standard library that it uses for taller trees
    ([binary_search_by] and [partition_point]), with their agreement. *)

From Stdlib Require Import Lia.
From stdpp Require Import sorting.
From S2P Require Import Prelude.

(** ** [Ord] *)

Class Ord (K : Type) := cmp : K → K → comparison.

Class OrdLaws (K : Type) `{Ord K} := {
  cmp_eq (x y : K) : cmp x y = Eq ↔ x = y;
  cmp_opp (x y : K) : cmp y x = CompOpp (cmp x y);
  cmp_trans (x y z : K) : cmp x y = Lt → cmp y z = Lt → cmp x z = Lt;
}.

Section ord.
Context {K : Type} `{OrdLaws K}.

Definition klt (x y : K) : Prop := cmp x y = Lt.
Definition kle (x y : K) : Prop := cmp x y ≠ Gt.
Definition ltb (x y : K) : bool := match cmp x y with Lt => true | _ => false end.
Definition leb (x y : K) : bool := match cmp x y with Gt => false | _ => true end.

Lemma cmp_refl (x : K) : cmp x x = Eq.
Proof. by apply cmp_eq. Qed.

Lemma ltb_lt x y : ltb x y = true ↔ klt x y.
Proof. unfold ltb, klt. by destruct (cmp x y). Qed.

Lemma leb_le x y : leb x y = true ↔ kle x y.
Proof. unfold leb, kle. by destruct (cmp x y). Qed.

Lemma klt_irrefl x : ¬ klt x x.
Proof. unfold klt. by rewrite cmp_refl. Qed.

#[export] Instance klt_trans : Transitive klt.
Proof. intros x y z. apply cmp_trans. Qed.

#[export] Instance klt_strict : StrictOrder klt.
Proof. split; [exact klt_irrefl|apply klt_trans]. Qed.

Lemma kle_spec x y : kle x y ↔ klt x y ∨ x = y.
Proof.
  unfold kle, klt. rewrite <- cmp_eq. destruct (cmp x y); intuition congruence.
Qed.

Lemma not_klt x y : ¬ klt x y ↔ kle y x.
Proof. unfold klt, kle. rewrite (cmp_opp x y). by destruct (cmp x y). Qed.

Lemma not_kle x y : ¬ kle x y ↔ klt y x.
Proof. unfold klt, kle. rewrite (cmp_opp x y). destruct (cmp x y); simpl; intuition congruence. Qed.

Lemma klt_kle_trans x y z : klt x y → kle y z → klt x z.
Proof. intros Hxy [Hyz| ->]%kle_spec; [by etransitivity|done]. Qed.

Lemma kle_klt_trans x y z : kle x y → klt y z → klt x z.
Proof. intros [Hxy| ->]%kle_spec Hyz; [by etransitivity|done]. Qed.

Lemma klt_kle x y : klt x y → kle x y.
Proof. intros. apply kle_spec. by left. Qed.

#[export] Instance kle_trans : Transitive kle.
Proof. intros x y z Hxy [Hyz| ->]%kle_spec; [|done]. apply klt_kle. by eapply kle_klt_trans. Qed.

Lemma kle_refl x : kle x x.
Proof. apply kle_spec. by right. Qed.

Lemma klt_or_kle x y : klt x y ∨ kle y x.
Proof. destruct (cmp x y) eqn:E; [right|by left|right]; apply not_klt; unfold klt; congruence. Qed.

Lemma kle_antisym x y : kle x y → kle y x → x = y.
Proof. intros [Hlt|]%kle_spec Hle; [|done]. by apply not_klt in Hle. Qed.
End ord.

#[export] Instance nat_ord : Ord nat := Nat.compare.

#[export] Instance nat_ord_laws : OrdLaws nat.
Proof.
  split; unfold cmp, nat_ord.
  - intros x y. apply Nat.compare_eq_iff.
  - intros x y. apply Nat.compare_antisym.
  - intros x y z Hxy Hyz. apply Nat.compare_lt_iff in Hxy, Hyz. apply Nat.compare_lt_iff. lia.
Qed.

(** ** Linear scans *)

(** The first position whose element satisfies [p], or the length. *)
Fixpoint find_index {A} (p : A → bool) (l : list A) : nat :=
  match l with
  | [] => 0
  | x :: l' => if p x then 0 else S (find_index p l')
  end.

Section scan.
Context {A : Type} (p : A → bool).

Lemma find_index_le l : find_index p l <= length l.
Proof. induction l as [|x l IH]; simpl; [lia|]. destruct (p x); lia. Qed.

Lemma find_index_before l i x : l !! i = Some x → i < find_index p l → p x = false.
Proof.
  revert i. induction l as [|y l IH]; intros [|i] Hi Hlt; simpl in *; try done; destruct (p y) eqn:E; try lia.
  - by simplify_eq.
  - apply (IH i); [done|lia].
Qed.

Lemma find_index_at l x : l !! find_index p l = Some x → p x = true.
Proof.
  induction l as [|y l IH]; simpl; [done|]. destruct (p y) eqn:E; simpl; [by intros [= <-]|done].
Qed.

(** The scan finds the boundary. *)
Lemma find_index_unique l i :
  i <= length l → (∀ j x, l !! j = Some x → j < i → p x = false) →
  (∀ x, l !! i = Some x → p x = true) → find_index p l = i.
Proof.
  revert i. induction l as [|y l IH]; intros i Hle Hb Ha; simpl in *; [lia|].
  destruct i as [|i]; [by rewrite (Ha y)|]. rewrite (Hb 0 y) by (done || lia). f_equal.
  apply IH; [lia| |done]. intros j x Hj Hlt. apply (Hb (S j) x Hj). lia.
Qed.
End scan.

(** ** [slice::binary_search_by] *)

Section binary.
Context {A : Type} (f : A → comparison) (l : list A).

(** [while size > 1]; [None] for an index out of range. *)
Fixpoint binary_loop (fuel base size : nat) : option nat :=
  match fuel with
  | 0 => None
  | S fuel' =>
      if 1 <? size then
        let half := size / 2 in
        let mid := base + half in
        do x <- l !! mid;
        let base := match f x with Gt => base | _ => mid end in
        binary_loop fuel' base (size - half)
      else Some base
  end.

(** [Ok] is [inl], [Err] is [inr]. *)
Definition binary_search_by : option (nat + nat) :=
  if length l =? 0 then Some (inr 0)
  else
    do base <- binary_loop (length l) 0 (length l);
    do x <- l !! base;
    Some (match f x with Eq => inl base | Lt => inr (S base) | Gt => inr base end).

(** Sorted with respect to the target: first the smaller elements, then the
    equal, then the greater ones. *)
Definition sorted_for : Prop :=
  ∀ i j x y, l !! i = Some x → l !! j = Some y → i <= j → (f x = Gt → f y = Gt) ∧ (f y = Lt → f x = Lt).

Lemma binary_loop_spec fuel base size :
  sorted_for → size <= fuel → 0 < size → base + size <= length l →
  (∀ i x, l !! i = Some x → i <= base → 0 < base → f x ≠ Gt) →
  (∀ i x, l !! i = Some x → base + size <= i → f x = Gt) →
  ∃ base', binary_loop fuel base size = Some base' ∧ base' < length l ∧
    (∀ i x, l !! i = Some x → i <= base' → 0 < base' → f x ≠ Gt) ∧
    (∀ i x, l !! i = Some x → base' < i → f x = Gt).
Proof.
  intros Hs. revert base size. induction fuel as [|fuel IH]; intros base size Hf Hpos Hlen Hlo Hhi; [lia|].
  cbn [binary_loop]. destruct (Nat.ltb_spec 1 size) as [Hlt|Hle].
  - assert (0 < size / 2 < size) as Hhalf.
    { split; [apply Nat.div_str_pos; lia|apply Nat.div_lt; lia]. }
    destruct (lookup_lt_is_Some_2 l (base + size / 2)) as [x Hx]; [lia|]. rewrite Hx.
    pose proof (Nat.div_mod_eq size 2). pose proof (Nat.mod_upper_bound size 2 ltac:(lia)).
    destruct (f x) eqn:Efx; (apply IH; [lia|lia|lia| |]).
    + intros i y Hy Hi _ Hgt. destruct (Hs _ _ _ _ Hy Hx ltac:(lia)) as [Hg _]. specialize (Hg Hgt). congruence.
    + intros i y Hy Hi. apply (Hhi i y Hy). lia.
    + intros i y Hy Hi _ Hgt. destruct (Hs _ _ _ _ Hy Hx ltac:(lia)) as [Hg _]. specialize (Hg Hgt). congruence.
    + intros i y Hy Hi. apply (Hhi i y Hy). lia.
    + exact Hlo.
    + intros i y Hy Hi. destruct (decide (base + size <= i)); [by apply (Hhi i y Hy)|].
      assert (base + size / 2 <= i) as Hge by lia. by apply (Hs _ _ _ _ Hx Hy Hge).
  - assert (size = 1) as -> by lia. exists base. split_and!; [done|lia|done|].
    intros i x Hi Hlt. apply (Hhi i x Hi). lia.
Qed.

(** The search returns within the slice: an element equal to the target, or
    the boundary between the smaller and the greater elements. *)
Lemma binary_search_spec :
  sorted_for →
  ∃ r, binary_search_by = Some r ∧
    match r with
    | inl i => ∃ x, l !! i = Some x ∧ f x = Eq
    | inr i => i <= length l ∧ (∀ j x, l !! j = Some x → j < i → f x = Lt) ∧
               (∀ j x, l !! j = Some x → i <= j → f x = Gt)
    end.
Proof.
  intros Hs. unfold binary_search_by. destruct (Nat.eqb_spec (length l) 0) as [Hz|Hz].
  { exists (inr 0). split; [done|]. apply nil_length_inv in Hz. rewrite Hz. split; [simpl; lia|].
    split; intros j x Hj; by rewrite lookup_nil in Hj. }
  destruct (binary_loop_spec (length l) 0 (length l) Hs) as (base & -> & Hlt & Hlo & Hhi); [lia|lia|lia|lia| |].
  { intros i x Hi Hge. apply lookup_lt_Some in Hi. lia. }
  destruct (lookup_lt_is_Some_2 l base Hlt) as [x Hx]. rewrite Hx. eexists. split; [reflexivity|].
  destruct (f x) eqn:Efx; cbn.
  - eauto.
  - split_and!; [lia| |intros j y Hy Hj; apply (Hhi j y Hy); lia].
    intros j y Hy Hj. destruct (decide (j = base)) as [->|]; [congruence|].
    by apply (Hs j base y x Hy Hx ltac:(lia)).
  - split_and!; [lia| |].
    + intros j y Hy Hj. exfalso. by apply (Hlo base x Hx); [|lia|].
    + intros j y Hy Hj. by apply (Hs base j x y Hx Hy Hj).
Qed.
End binary.

(** ** [slice::partition_point] *)

Definition partition_point {A} (pred : A → bool) (l : list A) : option nat :=
  do r <- binary_search_by (λ x, if pred x then Lt else Gt) l;
  Some (match r with inl i => i | inr i => i end).

Lemma partition_point_spec {A} (pred : A → bool) (l : list A) :
  (∀ i j x y, l !! i = Some x → l !! j = Some y → i <= j → pred y = true → pred x = true) →
  partition_point pred l = Some (find_index (λ x, negb (pred x)) l).
Proof.
  intros Hp. unfold partition_point.
  destruct (binary_search_spec (λ x, if pred x then Lt else Gt) l) as (r & -> & Hr).
  { intros i j x y Hx Hy Hij. specialize (Hp i j x y Hx Hy Hij).
    destruct (pred x), (pred y); intuition congruence. }
  f_equal. destruct r as [i|i].
  - destruct Hr as (x & _ & Hx). by destruct (pred x).
  - destruct Hr as (Hle & Hlt & Hge). symmetry. apply find_index_unique; [done| |].
    + intros j x Hx Hj. specialize (Hlt j x Hx Hj). by destruct (pred x).
    + intros x Hx. specialize (Hge i x Hx ltac:(lia)). by destruct (pred x).
Qed.

(** ** Sorted keys *)

Section sorted.
Context {K : Type} `{OrdLaws K}.
Implicit Types (ks : list K) (key : K).

Definition sorted_keys ks : Prop := StronglySorted klt ks.

Lemma sorted_lookup ks i j x y :
  sorted_keys ks → ks !! i = Some x → ks !! j = Some y → i < j → klt x y.
Proof using Type*.
  intros Hs. revert i j. induction Hs as [|z ks Hs IH Hz]; intros i j; [by rewrite lookup_nil|].
  destruct i as [|i], j as [|j]; simpl; intros Hx Hy Hlt; try lia.
  - simplify_eq. rewrite Forall_forall in Hz. apply Hz. by eapply list_elem_of_lookup_2.
  - apply (IH i j); [done|done|lia].
Qed.

Lemma sorted_lookup_le ks i j x y :
  sorted_keys ks → ks !! i = Some x → ks !! j = Some y → i <= j → kle x y.
Proof using Type*.
  intros Hs Hx Hy Hle. destruct (decide (i = j)) as [->|].
  - simplify_eq. apply kle_refl.
  - apply klt_kle. apply (sorted_lookup ks i j); [done..|lia].
Qed.

(** The binary searches of taller trees find what the linear scans find. *)
Lemma partition_point_gt ks key :
  sorted_keys ks →
  partition_point (λ k, match cmp k key with Gt => false | _ => true end) ks =
  Some (find_index (λ k, ltb key k) ks).
Proof using Type*.
  intros Hs. rewrite partition_point_spec.
  - f_equal. clear Hs. induction ks as [|k ks IH]; [done|]. simpl. rewrite IH. unfold ltb.
    rewrite (cmp_opp k key). by destruct (cmp k key).
  - intros i j x y Hx Hy Hij Hle. pose proof (sorted_lookup_le ks i j x y Hs Hx Hy Hij) as Hxy.
    assert (kle y key) as Hyk by by apply leb_le. apply leb_le. by transitivity y.
Qed.

Lemma partition_point_ge ks key :
  sorted_keys ks →
  partition_point (λ k, match cmp k key with Lt => true | _ => false end) ks =
  Some (find_index (λ k, leb key k) ks).
Proof using Type*.
  intros Hs. rewrite partition_point_spec.
  - f_equal. clear Hs. induction ks as [|k ks IH]; [done|]. simpl. rewrite IH. unfold leb.
    rewrite (cmp_opp k key). by destruct (cmp k key).
  - intros i j x y Hx Hy Hij Hle. pose proof (sorted_lookup_le ks i j x y Hs Hx Hy Hij) as Hxy.
    assert (klt y key) as Hyk by by apply ltb_lt. apply ltb_lt. by apply (kle_klt_trans x y key).
Qed.

(** The scan of a leaf. *)
Fixpoint linear_search ks key : option nat :=
  match ks with
  | [] => None
  | k :: ks' => match cmp key k with Eq => Some 0 | Lt => None | Gt => S <$> linear_search ks' key end
  end.

Lemma linear_search_spec ks key :
  sorted_keys ks →
  match linear_search ks key with Some i => ks !! i = Some key | None => key ∉ ks end.
Proof using Type*.
  induction 1 as [|k ks Hs IH Hk]; simpl; [by apply not_elem_of_nil|].
  destruct (cmp key k) eqn:E.
  - apply cmp_eq in E as ->. done.
  - intros [->|Hin]%elem_of_cons; [by rewrite cmp_refl in E|].
    rewrite Forall_forall in Hk. apply (klt_irrefl key). transitivity k; [done|by apply Hk].
  - destruct (linear_search ks key) as [i|]; simpl; [done|].
    intros [->|Hin]%elem_of_cons; [by rewrite cmp_refl in E|done].
Qed.

Lemma sorted_index_unique ks i j key :
  sorted_keys ks → ks !! i = Some key → ks !! j = Some key → i = j.
Proof using Type*.
  intros Hs Hi Hj. destruct (Nat.lt_trichotomy i j) as [Hlt|[|Hlt]]; [|done|]; exfalso; apply (klt_irrefl key).
  - by apply (sorted_lookup ks i j).
  - by apply (sorted_lookup ks j i).
Qed.

Lemma binary_search_key ks key :
  sorted_keys ks →
  ∃ r, binary_search_by (λ k, cmp k key) ks = Some r ∧
    match r with inl i => Some i | inr _ => None end = linear_search ks key.
Proof using Type*.
  intros Hs. destruct (binary_search_spec (λ k, cmp k key) ks) as (r & -> & Hr).
  { intros i j x y Hx Hy Hij. pose proof (sorted_lookup_le ks i j x y Hs Hx Hy Hij) as Hxy. split.
    - intros Hg. assert (klt key x) as Hkx by (unfold klt; rewrite (cmp_opp x key), Hg; done).
      pose proof (klt_kle_trans _ _ _ Hkx Hxy) as Hky. unfold klt in Hky.
      by rewrite (cmp_opp key y), Hky.
    - apply (kle_klt_trans x y key Hxy). }
  exists r. split; [done|]. pose proof (linear_search_spec ks key Hs) as Hl. destruct r as [i|i].
  - destruct Hr as (x & Hx & ->%cmp_eq). destruct (linear_search ks key) as [j|].
    + f_equal. by apply (sorted_index_unique ks i j key).
    + exfalso. apply Hl. by eapply list_elem_of_lookup_2.
  - destruct Hr as (_ & Hlt & Hge). destruct (linear_search ks key) as [j|]; [|done]. exfalso.
    destruct (decide (j < i)) as [Hji|Hji].
    + specialize (Hlt j key Hl Hji). by rewrite cmp_refl in Hlt.
    + specialize (Hge j key Hl ltac:(lia)). by rewrite cmp_refl in Hge.
Qed.

(** The position the scans of a descent find. *)
Lemma find_index_gt ks key i :
  find_index (λ k, ltb key k) ks = i →
  i <= length ks ∧ (∀ j k, ks !! j = Some k → j < i → kle k key) ∧ (∀ k, ks !! i = Some k → klt key k).
Proof using Type*.
  intros <-. split_and!; [apply find_index_le| |].
  - intros j k Hk Hj. pose proof (find_index_before _ _ _ _ Hk Hj) as Hf.
    apply not_klt. rewrite <- ltb_lt. congruence.
  - intros k Hk. apply ltb_lt. by apply find_index_at in Hk.
Qed.

Lemma find_index_ge ks key i :
  find_index (λ k, leb key k) ks = i →
  i <= length ks ∧ (∀ j k, ks !! j = Some k → j < i → klt k key) ∧ (∀ k, ks !! i = Some k → kle key k).
Proof using Type*.
  intros <-. split_and!; [apply find_index_le| |].
  - intros j k Hk Hj. pose proof (find_index_before _ _ _ _ Hk Hj) as Hf.
    apply not_kle. rewrite <- leb_le. congruence.
  - intros k Hk. apply leb_le. by apply find_index_at in Hk.
Qed.
End sorted.
