(* ===== verification/BTree.v ===== *)
(** * The B+ tree engine

    [flat_btree/raw.rs]: the arena of nodes, search, insertion with splits,
    removal with rebalancing.  The fields of a node are kept in one map per
    field (the body with its live keys, values or children, the parent index,
    the links of a leaf), as the code reads and writes them one by one; an
    index [NO_NODE] is [None].  [None] as a result stands for a read of a node
    that is not there, a failed assertion or an arithmetic overflow. *)

From Stdlib Require Import ZArith Lia.
From S2P Require Import Prelude.
From S2P Require Export BTreeNode BinSearch.

(** The live part of a node: the first [header.len] slots of its arrays. *)
Inductive Body (K V : Type) :=
  | LeafBody (kvs : list (K * V))
  | InternalBody (keys : list K) (children : list nat).
Arguments LeafBody {K V}.
Arguments InternalBody {K V}.

(*@ flat_btree/raw.rs : pub(crate) struct Arena *)
Record Arena (K V : Type) := {
  bodies : gmap nat (Body K V);
  parents : gmap nat (option nat);
  links : gmap nat (option nat * option nat);
  arena_cap : Z;
  arena_len : nat;
  free_list : list nat;
}.
Arguments bodies {K V}.
Arguments parents {K V}.
Arguments links {K V}.
Arguments arena_cap {K V}.
Arguments arena_len {K V}.
Arguments free_list {K V}.

(** [dropped_seps] is no field of the program: it records, in order, the separators
    of internal nodes that removals have dropped in place since the tree was
    built, cleared or cut. *)
(*@ flat_btree/raw.rs : pub(crate) struct RawBTree *)
Record RawBTree (K V : Type) := {
  arena : Arena K V;
  root : option nat;
  first_leaf : option nat;
  last_leaf : option nat;
  len : nat;
  height : nat;
  dropped_seps : list K;
}.
Arguments arena {K V}.
Arguments root {K V}.
Arguments first_leaf {K V}.
Arguments last_leaf {K V}.
Arguments len {K V}.
Arguments height {K V}.
Arguments dropped_seps {K V}.

Section arena.
Context {K V : Type}.
Implicit Types (a : Arena K V) (t : RawBTree K V).

(*@ flat_btree/raw.rs : const INITIAL_CAP *)
Definition INITIAL_CAP : Z := 4.

Definition u32_limit : Z := 2 ^ 32.

Definition arena_with a (m : gmap nat (Body K V)) (p : gmap nat (option nat))
    (l : gmap nat (option nat * option nat)) : Arena K V := {|
  bodies := m; parents := p; links := l;
  arena_cap := arena_cap a; arena_len := arena_len a; free_list := free_list a |}.

Definition set_body a (i : nat) (b : Body K V) : Arena K V :=
  arena_with a (<[i := b]> (bodies a)) (parents a) (links a).
Definition set_parent a (i : nat) (p : option nat) : Arena K V :=
  arena_with a (bodies a) (<[i := p]> (parents a)) (links a).
Definition set_links a (i : nat) (l : option nat * option nat) : Arena K V :=
  arena_with a (bodies a) (parents a) (<[i := l]> (links a)).

(*@ flat_btree/raw.rs : pub fn new() -> Self @1 *)
Definition arena_new : Arena K V := {|
  bodies := ∅; parents := ∅; links := ∅; arena_cap := 0; arena_len := 0; free_list := [] |}.

(** [self.cap * 2] must fit in 32 bits. *)
(*@ flat_btree/raw.rs : fn grow(&mut self) *)
Definition arena_grow a : option (Arena K V) :=
  let new_cap := if (arena_cap a =? 0)%Z then INITIAL_CAP else (arena_cap a * 2)%Z in
  if (u32_limit <=? new_cap)%Z then None
  else Some {| bodies := bodies a; parents := parents a; links := links a;
               arena_cap := new_cap; arena_len := arena_len a; free_list := free_list a |}.

(** A fresh node has no contents. *)
(*@ flat_btree/raw.rs : pub fn alloc_node *)
Definition alloc_node a : option (nat * Arena K V) :=
  match free_list a with
  | idx :: free =>
      Some (idx, {| bodies := bodies a; parents := parents a; links := links a;
                    arena_cap := arena_cap a; arena_len := arena_len a; free_list := free |})
  | [] =>
      do a <- (if (arena_cap a <=? Z.of_nat (arena_len a))%Z then arena_grow a else Some a);
      Some (arena_len a,
            {| bodies := bodies a; parents := parents a; links := links a;
               arena_cap := arena_cap a; arena_len := arena_len a + 1; free_list := free_list a |})
  end.

(** The freed node's memory holds the next free index from now on. *)
(*@ flat_btree/raw.rs : pub fn free_node *)
Definition free_node a (idx : nat) : Arena K V := {|
  bodies := delete idx (bodies a); parents := delete idx (parents a); links := delete idx (links a);
  arena_cap := arena_cap a; arena_len := arena_len a; free_list := idx :: free_list a |}.

Definition leaf_kvs a (i : nat) : option (list (K * V)) :=
  match bodies a !! i with Some (LeafBody kvs) => Some kvs | _ => None end.

Definition internal_node a (i : nat) : option (list K * list nat) :=
  match bodies a !! i with Some (InternalBody ks cs) => Some (ks, cs) | _ => None end.

(** [header.len] *)
Definition node_len a (i : nat) : option nat :=
  match bodies a !! i with
  | Some (LeafBody kvs) => Some (length kvs)
  | Some (InternalBody ks _) => Some (length ks)
  | None => None
  end.

(** [child.parent = idx] for each of the children. *)
Definition set_parents a (children : list nat) (idx : nat) : Arena K V :=
  foldl (λ a c, set_parent a c (Some idx)) a children.

(** ** The path buffer *)

(*@ flat_btree/raw.rs : pub(crate) const MAX_PATH_HEIGHT *)
Definition MAX_PATH_HEIGHT : nat := 16.

(** The recorded [(parent, child slot)] pairs, the last one first. *)
(*@ flat_btree/raw.rs : pub(crate) struct PathBuf *)
Definition PathBuf : Type := list (nat * nat).

(*@ flat_btree/raw.rs : pub fn push *)
Definition path_push (p : PathBuf) (item : nat * nat) : option PathBuf :=
  if length p <? MAX_PATH_HEIGHT then Some (item :: p) else None.

(*@ flat_btree/raw.rs : pub fn reverse *)
Definition path_reverse (p : PathBuf) : PathBuf := reverse p.

(** ** The tree *)

Definition with_arena t a : RawBTree K V := {|
  arena := a; root := root t; first_leaf := first_leaf t; last_leaf := last_leaf t;
  len := len t; height := height t; dropped_seps := dropped_seps t |}.
Definition with_len t n : RawBTree K V := {|
  arena := arena t; root := root t; first_leaf := first_leaf t; last_leaf := last_leaf t;
  len := n; height := height t; dropped_seps := dropped_seps t |}.
Definition with_last_leaf t i : RawBTree K V := {|
  arena := arena t; root := root t; first_leaf := first_leaf t; last_leaf := i;
  len := len t; height := height t; dropped_seps := dropped_seps t |}.
Definition with_root t i h : RawBTree K V := {|
  arena := arena t; root := i; first_leaf := first_leaf t; last_leaf := last_leaf t;
  len := len t; height := h; dropped_seps := dropped_seps t |}.

(** [drop_in_place] of a separator. *)
Definition drop_sep t (k : K) : RawBTree K V := {|
  arena := arena t; root := root t; first_leaf := first_leaf t; last_leaf := last_leaf t;
  len := len t; height := height t; dropped_seps := dropped_seps t ++ [k] |}.

(*@ flat_btree/raw.rs : pub fn new() -> Self @3 *)
Definition tree_new : RawBTree K V := {|
  arena := arena_new; root := None; first_leaf := None; last_leaf := None; len := 0; height := 0;
  dropped_seps := [] |}.
End arena.

Section tree.
Context {K V : Type} `{Ord K} (key_size val_size : nat).
Implicit Types (a : Arena K V) (t : RawBTree K V).

Abbreviation LEAF_CAP := (LEAF_CAP key_size val_size).
Abbreviation INTERNAL_CAP := (INTERNAL_CAP key_size).

(** ** Search *)

(** [for _ in 0..self.height]: one descent step per level. *)
Fixpoint descend a (choose : list K → option nat) (n : nat) (node_idx : nat) : option nat :=
  match n with
  | 0 => Some node_idx
  | S n' =>
      do ' (keys, children) <- internal_node a node_idx;
      do child_idx <- choose keys;
      do child <- children !! child_idx;
      descend a choose n' child
  end.

(** The first key greater than the target, by a scan and by a binary search. *)
Definition child_linear (key : K) (keys : list K) : option nat :=
  Some (find_index (λ k, ltb key k) keys).
Definition child_binary (key : K) (keys : list K) : option nat :=
  partition_point (λ k, match cmp k key with Gt => false | _ => true end) keys.

(*@ flat_btree/raw.rs : fn search_linear *)
Definition search_linear t (root : nat) (key : K) : option (option (nat * nat)) :=
  do node_idx <- descend (arena t) (child_linear key) (height t) root;
  do kvs <- leaf_kvs (arena t) node_idx;
  Some (pair node_idx <$> linear_search kvs.*1 key).

(*@ flat_btree/raw.rs : fn search_binary *)
Definition search_binary t (root : nat) (key : K) : option (option (nat * nat)) :=
  do node_idx <- descend (arena t) (child_binary key) (height t) root;
  do kvs <- leaf_kvs (arena t) node_idx;
  do r <- binary_search_by (λ k, cmp k key) kvs.*1;
  Some (match r with inl i => Some (node_idx, i) | inr _ => None end).

(*@ flat_btree/raw.rs : pub fn search< *)
Definition search t (key : K) : option (option (nat * nat)) :=
  match root t with
  | None => Some None
  | Some r => if height t <? 3 then search_linear t r key else search_binary t r key
  end.

(** The first position whose key is not below the target. *)
Definition lower_linear (key : K) (keys : list K) : option nat :=
  Some (find_index (λ k, leb key k) keys).
Definition lower_binary (key : K) (keys : list K) : option nat :=
  partition_point (λ k, match cmp k key with Lt => true | _ => false end) keys.

(*@ flat_btree/raw.rs : pub fn lower_bound *)
Definition lower_bound t (key : K) : option (option (nat * nat)) :=
  match root t with
  | None => Some None
  | Some r =>
      let choose := if height t <? 3 then lower_linear key else lower_binary key in
      do node_idx <- descend (arena t) choose (height t) r;
      do kvs <- leaf_kvs (arena t) node_idx;
      do pos <- choose kvs.*1;
      if pos <? length kvs then Some (Some (node_idx, pos))
      else
        do ' (_, next) <- links (arena t) !! node_idx;
        match next with
        | Some next =>
            do next_len <- node_len (arena t) next;
            Some (if 0 <? next_len then Some (next, 0) else None)
        | None => Some None
        end
  end.

(** The position of a child in its parent; [dflt] when it is not there. *)
Definition child_slot (children : list nat) (child dflt : nat) : nat :=
  let i := find_index (λ c, c =? child) children in
  if i <? length children then i else dflt.

(*@ flat_btree/raw.rs : fn search_for_insert_no_path *)
Definition search_for_insert_no_path t (root : nat) (key : K) : option (nat * nat) :=
  do node_idx <- descend (arena t) (child_linear key) (height t) root;
  do kvs <- leaf_kvs (arena t) node_idx;
  Some (node_idx, find_index (λ k, leb key k) kvs.*1).

(** The descent that records its path. *)
Fixpoint descend_path a (key : K) (n : nat) (node_idx : nat) (path : PathBuf) : option (nat * PathBuf) :=
  match n with
  | 0 => Some (node_idx, path)
  | S n' =>
      do ' (keys, children) <- internal_node a node_idx;
      let child_idx := find_index (λ k, ltb key k) keys in
      do path <- path_push path (node_idx, child_idx);
      do child <- children !! child_idx;
      descend_path a key n' child path
  end.

(*@ flat_btree/raw.rs : fn search_for_insert(&self *)
Definition search_for_insert t (root : nat) (key : K) : option (nat * nat * PathBuf) :=
  do ' (node_idx, path) <- descend_path (arena t) key (height t) root [];
  do kvs <- leaf_kvs (arena t) node_idx;
  Some (node_idx, find_index (λ k, leb key k) kvs.*1, path).

(** The walk to the root along the parent pointers; [fuel]: the tree's height
    and one more. *)
Fixpoint path_up a (fuel node_idx : nat) (path : PathBuf) : option PathBuf :=
  match fuel with
  | 0 => None
  | S fuel' =>
      do parent <- parents a !! node_idx;
      match parent with
      | None => Some path
      | Some parent =>
          do ' (keys, children) <- internal_node a parent;
          do path <- path_push path (parent, child_slot children node_idx (length keys));
          path_up a fuel' parent path
      end
  end.

(*@ flat_btree/raw.rs : fn path_to_node *)
Definition path_to_node t (target : nat) : option PathBuf :=
  do path <- path_up (arena t) (height t + 1) target [];
  Some (path_reverse path).

(** ** Insertion *)

(*@ flat_btree/raw.rs : fn leaf_insert_at *)
Definition leaf_insert_at t (leaf_idx pos : nat) (key : K) (value : V) : option (RawBTree K V) :=
  do kvs <- leaf_kvs (arena t) leaf_idx;
  if length kvs <? LEAF_CAP then
    let kvs := take pos kvs ++ (key, value) :: drop pos kvs in
    Some (with_arena t (set_body (arena t) leaf_idx (LeafBody kvs)))
  else None.

(** Only full leaves are split: the copies read [LEAF_CAP] slots. *)
(*@ flat_btree/raw.rs : fn leaf_split_and_insert *)
Definition leaf_split_and_insert t (left_idx pos : nat) (key : K) (value : V) :
    option (K * nat * RawBTree K V) :=
  let leaf_cap := LEAF_CAP in
  let mid := (leaf_cap + 1) / 2 in
  do ' (right_idx, a) <- alloc_node (arena t);
  do ' (left_prev, old_next) <- links a !! left_idx;
  do left_parent <- parents a !! left_idx;
  let a := set_parent a right_idx left_parent in
  do kvs <- leaf_kvs a left_idx;
  if negb (length kvs =? leaf_cap) then None
  else
    do t <-
      (if pos <? mid then
         let move_start := mid - 1 in
         let a := set_body a right_idx (LeafBody (drop move_start kvs)) in
         let a := set_body a left_idx (LeafBody (take (mid - 1) kvs)) in
         leaf_insert_at (with_arena t a) left_idx pos key value
       else
         let right_pos := pos - mid in
         let moved := take right_pos (drop mid kvs) ++ (key, value) :: drop (mid + right_pos) kvs in
         let a := set_body a right_idx (LeafBody moved) in
         let a := set_body a left_idx (LeafBody (take mid kvs)) in
         Some (with_arena t a));
    let a := set_links (arena t) left_idx (left_prev, Some right_idx) in
    let a := set_links a right_idx (Some left_idx, old_next) in
    do t <-
      (match old_next with
       | Some old_next =>
           do ' (_, next_next) <- links a !! old_next;
           Some (with_arena t (set_links a old_next (Some right_idx, next_next)))
       | None => Some (with_last_leaf (with_arena t a) (Some right_idx))
       end);
    do right_kvs <- leaf_kvs (arena t) right_idx;
    do ' (promoted, _) <- right_kvs !! 0;
    Some (promoted, right_idx, t).

(*@ flat_btree/raw.rs : fn internal_insert_at *)
Definition internal_insert_at t (node_idx pos : nat) (key : K) (right_child : nat) :
    option (RawBTree K V) :=
  do ' (keys, children) <- internal_node (arena t) node_idx;
  if length keys <? INTERNAL_CAP then
    let keys := take pos keys ++ key :: drop pos keys in
    let children := take (pos + 1) children ++ right_child :: drop (pos + 1) children in
    Some (with_arena t (set_body (arena t) node_idx (InternalBody keys children)))
  else None.

(*@ flat_btree/raw.rs : fn internal_split_and_insert *)
Definition internal_split_and_insert t (left_idx pos : nat) (key : K) (right_child : nat) :
    option (K * nat * RawBTree K V) :=
  let cap := INTERNAL_CAP in
  let mid := cap / 2 in
  do ' (right_idx, a) <- alloc_node (arena t);
  do left_parent <- parents a !! left_idx;
  let a := set_parent a right_idx left_parent in
  do ' (keys, children) <- internal_node a left_idx;
  let all_keys := take pos keys ++ key :: drop pos keys in
  let all_children := take (pos + 1) children ++ right_child :: drop (pos + 1) children in
  if negb ((length all_keys =? cap + 1) && (length all_children =? cap + 2)) then None
  else
    do promoted <- all_keys !! mid;
    let a := set_body a left_idx (InternalBody (take mid all_keys) (take (mid + 1) all_children)) in
    let right_children := drop (mid + 1) all_children in
    let a := set_parents a right_children right_idx in
    let a := set_body a right_idx (InternalBody (drop (mid + 1) all_keys) right_children) in
    Some (promoted, right_idx, with_arena t a).

(** A new root above the two halves of the old one. *)
Definition grow_root t (key : K) (child new_child : nat) : option (RawBTree K V) :=
  do ' (new_root, a) <- alloc_node (arena t);
  let a := set_parent a new_root None in
  let a := set_body a new_root (InternalBody [key] [child; new_child]) in
  let a := set_parent a child (Some new_root) in
  let a := set_parent a new_child (Some new_root) in
  Some (with_root (with_arena t a) (Some new_root) (height t + 1)).

(*@ flat_btree/raw.rs : fn propagate_split( *)
Fixpoint propagate_split t (path : PathBuf) (key : K) (new_child : nat) : option (RawBTree K V) :=
  match path with
  | (parent_idx, child_pos) :: path' =>
      do ' (keys, _) <- internal_node (arena t) parent_idx;
      if length keys <? INTERNAL_CAP then
        do t <- internal_insert_at t parent_idx child_pos key new_child;
        Some (with_arena t (set_parent (arena t) new_child (Some parent_idx)))
      else
        do ' (promoted, new_internal, t) <- internal_split_and_insert t parent_idx child_pos key new_child;
        propagate_split t path' promoted new_internal
  | [] => do r <- root t; grow_root t key r new_child
  end.

(** [fuel]: the tree's height and one more. *)
(*@ flat_btree/raw.rs : fn propagate_split_lazy *)
Fixpoint propagate_split_lazy (fuel : nat) t (child : nat) (key : K) (new_sibling : nat) :
    option (RawBTree K V) :=
  match fuel with
  | 0 => None
  | S fuel' =>
      do parent <- parents (arena t) !! child;
      match parent with
      | None => grow_root t key child new_sibling
      | Some parent_idx =>
          do ' (keys, children) <- internal_node (arena t) parent_idx;
          let parent_len := length keys in
          let child_pos := child_slot children child (parent_len + 1) in
          if negb (child_pos <=? parent_len) then None
          else if parent_len <? INTERNAL_CAP then
            do t <- internal_insert_at t parent_idx child_pos key new_sibling;
            Some (with_arena t (set_parent (arena t) new_sibling (Some parent_idx)))
          else
            do ' (promoted, new_internal, t) <- internal_split_and_insert t parent_idx child_pos key new_sibling;
            propagate_split_lazy fuel' t parent_idx promoted new_internal
      end
  end.

(*@ flat_btree/raw.rs : pub(crate) fn insert_first *)
Definition insert_first t (key : K) (value : V) : option (RawBTree K V) :=
  do ' (leaf_idx, a) <- alloc_node (arena t);
  let a := set_parent a leaf_idx None in
  let a := set_body a leaf_idx (LeafBody [(key, value)]) in
  let a := set_links a leaf_idx (None, None) in
  Some {| arena := a; root := Some leaf_idx; first_leaf := Some leaf_idx;
          last_leaf := Some leaf_idx; len := 1; height := height t;
          dropped_seps := dropped_seps t |}.

(** Splitting a full leaf and propagating along a path. *)
Definition split_leaf t (path : PathBuf) (leaf_idx pos : nat) (key : K) (value : V) :
    option (RawBTree K V) :=
  do ' (promoted_key, new_leaf_idx, t) <- leaf_split_and_insert t leaf_idx pos key value;
  let t := with_len t (len t + 1) in
  propagate_split t path promoted_key new_leaf_idx.

(** Inserting at the position the search found. *)
Definition insert_new t (path : PathBuf) (leaf_idx pos : nat) (key : K) (value : V) :
    option (RawBTree K V * option V) :=
  do kvs <- leaf_kvs (arena t) leaf_idx;
  if length kvs <? LEAF_CAP then
    do t <- leaf_insert_at t leaf_idx pos key value;
    Some (with_len t (len t + 1), None)
  else
    do t <- split_leaf t path leaf_idx pos key value;
    Some (t, None).

(** The general case, after the fast paths. *)
Definition insert_searched t (root : nat) (key : K) (value : V) : option (RawBTree K V * option V) :=
  do ' (leaf_idx, pos, path) <- search_for_insert t root key;
  do kvs <- leaf_kvs (arena t) leaf_idx;
  match kvs !! pos with
  | Some (existing_key, old) =>
      if bool_decide (cmp existing_key key = Eq) then
        let kvs := <[pos := (existing_key, value)]> kvs in
        Some (with_arena t (set_body (arena t) leaf_idx (LeafBody kvs)), Some old)
      else insert_new t path leaf_idx pos key value
  | None => insert_new t path leaf_idx pos key value
  end.

(*@ flat_btree/raw.rs : pub fn insert(&mut self *)
Definition insert t (key : K) (value : V) : option (RawBTree K V * option V) :=
  match root t with
  | None => do t <- insert_first t key value; Some (t, None)
  | Some r =>
      do last_idx <- last_leaf t;
      do last_kvs <- leaf_kvs (arena t) last_idx;
      if match last last_kvs with Some (last_key, _) => ltb last_key key | None => false end then
        let last_len := length last_kvs in
        if last_len <? LEAF_CAP then
          let a := set_body (arena t) last_idx (LeafBody (last_kvs ++ [(key, value)])) in
          Some (with_len (with_arena t a) (len t + 1), None)
        else
          do path <- path_to_node t last_idx;
          do t <- split_leaf t path last_idx last_len key value;
          Some (t, None)
      else
        do first_idx <- first_leaf t;
        do first_kvs <- leaf_kvs (arena t) first_idx;
        if match head first_kvs with Some (first_key, _) => ltb key first_key | None => false end then
          if length first_kvs <? LEAF_CAP then
            do t <- leaf_insert_at t first_idx 0 key value;
            Some (with_len t (len t + 1), None)
          else
            do path <- path_to_node t first_idx;
            do t <- split_leaf t path first_idx 0 key value;
            Some (t, None)
        else insert_searched t r key value
  end.

(** ** The entry interface *)

(*@ flat_btree/raw.rs : pub(crate) enum EntrySearch *)
Inductive EntrySearch :=
  | EmptyTree
  | OccupiedAt (leaf_idx slot_idx : nat)
  | VacantAt (leaf_idx pos : nat).

(*@ flat_btree/raw.rs : pub(crate) fn entry_search *)
Definition entry_search t (key : K) : option EntrySearch :=
  match root t with
  | None => Some EmptyTree
  | Some r =>
      do ' (leaf_idx, pos) <- search_for_insert_no_path t r key;
      do kvs <- leaf_kvs (arena t) leaf_idx;
      Some (match kvs !! pos with
            | Some (existing_key, _) =>
                if bool_decide (cmp existing_key key = Eq) then OccupiedAt leaf_idx pos else VacantAt leaf_idx pos
            | None => VacantAt leaf_idx pos
            end)
  end.

(*@ flat_btree/raw.rs : pub(crate) fn insert_at_vacant *)
Definition insert_at_vacant t (leaf_idx pos : nat) (key : K) (value : V) :
    option (RawBTree K V * (nat * nat)) :=
  do kvs <- leaf_kvs (arena t) leaf_idx;
  if length kvs <? LEAF_CAP then
    do t <- leaf_insert_at t leaf_idx pos key value;
    Some (with_len t (len t + 1), (leaf_idx, pos))
  else
    let mid := (LEAF_CAP + 1) / 2 in
    do ' (promoted_key, new_leaf_idx, t) <- leaf_split_and_insert t leaf_idx pos key value;
    let t := with_len t (len t + 1) in
    do t <- propagate_split_lazy (height t + 1) t leaf_idx promoted_key new_leaf_idx;
    Some (t, if pos <? mid then (leaf_idx, pos) else (new_leaf_idx, pos - mid)).

(*@ flat_btree/raw.rs : pub fn get< *)
Definition get t (key : K) : option (option V) :=
  do r <- search t key;
  match r with
  | Some (leaf_idx, slot_idx) =>
      do kvs <- leaf_kvs (arena t) leaf_idx;
      do ' (_, v) <- kvs !! slot_idx;
      Some (Some v)
  | None => Some None
  end.

(** ** The keys of the internal nodes *)

(** Own keys first, then child by child; [fuel]: the number of levels. *)
(*@ flat_btree/raw.rs : fn drop_internal_keys *)
Fixpoint drop_internal_keys (fuel : nat) a (node_idx : nat) : option (list K) :=
  match fuel with
  | 0 => None
  | S fuel' =>
      do b <- bodies a !! node_idx;
      match b with
      | LeafBody _ => Some []
      | InternalBody keys children =>
          do below <- mapM (λ i, do child <- children !! i; drop_internal_keys fuel' a child)
                        (seq 0 (S (length keys)));
          Some (keys ++ concat below)
      end
  end.

(** The keys of the internal nodes. *)
Definition internal_keys t : option (list K) :=
  match root t with Some r => drop_internal_keys (S (height t)) (arena t) r | None => Some [] end.

(** ** Removal *)

(** Moving the first child, or the last, of a sibling to an internal node, the
    separator in the parent rotating along. *)
(*@ flat_btree/raw.rs : 1910-1952 : rebalance_internal (a sibling gives) *)
Definition steal_internal_right t (parent_idx child_pos node_idx right_idx : nat) : option (RawBTree K V) :=
  let a := arena t in
  do ' (pkeys, pchildren) <- internal_node a parent_idx;
  do sep_key <- pkeys !! child_pos;
  do ' (keys, children) <- internal_node a node_idx;
  do ' (rkeys, rchildren) <- internal_node a right_idx;
  do moved_child <- rchildren !! 0;
  do new_sep <- rkeys !! 0;
  let a := set_body a node_idx (InternalBody (keys ++ [sep_key]) (children ++ [moved_child])) in
  let a := set_parent a moved_child (Some node_idx) in
  let a := set_body a parent_idx (InternalBody (<[child_pos := new_sep]> pkeys) pchildren) in
  let a := set_body a right_idx (InternalBody (drop 1 rkeys) (drop 1 rchildren)) in
  Some (with_arena t a).

(*@ flat_btree/raw.rs : 1963-2005 : rebalance_internal (a sibling gives) *)
Definition steal_internal_left t (parent_idx child_pos node_idx left_idx : nat) : option (RawBTree K V) :=
  let a := arena t in
  do ' (pkeys, pchildren) <- internal_node a parent_idx;
  do sep_key <- pkeys !! (child_pos - 1);
  do ' (keys, children) <- internal_node a node_idx;
  do ' (lkeys, lchildren) <- internal_node a left_idx;
  let left_len := length lkeys in
  do moved_child <- lchildren !! left_len;
  do new_sep <- lkeys !! (left_len - 1);
  let a := set_body a node_idx (InternalBody (sep_key :: keys) (moved_child :: children)) in
  let a := set_parent a moved_child (Some node_idx) in
  let a := set_body a left_idx (InternalBody (take (left_len - 1) lkeys) (take left_len lchildren)) in
  let a := set_body a parent_idx (InternalBody (<[child_pos - 1 := new_sep]> pkeys) pchildren) in
  Some (with_arena t a).

(** The recursion of [internal_remove_at], [rebalance_internal] and
    [merge_internals] goes up one level per round: [remove_at] is the next
    round. *)
Section round.
Context (remove_at : RawBTree K V → nat → nat → option (RawBTree K V)).

(** The separator is read out of the parent's slot, which still holds it when
    [remove_at] drops the slot. *)
(*@ flat_btree/raw.rs : fn merge_internals *)
Definition merge_internals t (left_idx left_child_pos parent_idx : nat) : option (RawBTree K V) :=
  let a := arena t in
  do ' (pkeys, pchildren) <- internal_node a parent_idx;
  do right_idx <- pchildren !! (left_child_pos + 1);
  do sep_key <- pkeys !! left_child_pos;
  do ' (lkeys, lchildren) <- internal_node a left_idx;
  do ' (rkeys, rchildren) <- internal_node a right_idx;
  if INTERNAL_CAP <? length lkeys + 1 + length rkeys then None
  else
    let a := set_parents a rchildren left_idx in
    let a := set_body a left_idx (InternalBody (lkeys ++ sep_key :: rkeys) (lchildren ++ rchildren)) in
    let a := free_node a right_idx in
    remove_at (with_arena t a) parent_idx left_child_pos.

(*@ flat_btree/raw.rs : fn rebalance_internal *)
Definition rebalance_internal t (node_idx : nat) : option (RawBTree K V) :=
  let a := arena t in
  do parent <- parents a !! node_idx;
  match parent with
  | None => Some t
  | Some parent_idx =>
      let min_keys := INTERNAL_CAP / 2 in
      do ' (pkeys, pchildren) <- internal_node a parent_idx;
      let parent_len := length pkeys in
      let child_pos := child_slot pchildren node_idx 0 in
      do right <-
        (if child_pos <? parent_len then
           do right_idx <- pchildren !! (child_pos + 1);
           do right_len <- node_len a right_idx;
           Some (if min_keys <? right_len then Some right_idx else None)
         else Some None);
      match right with
      | Some right_idx => steal_internal_right t parent_idx child_pos node_idx right_idx
      | None =>
          do left <-
            (if 0 <? child_pos then
               do left_idx <- pchildren !! (child_pos - 1);
               do left_len <- node_len a left_idx;
               Some (if min_keys <? left_len then Some left_idx else None)
             else Some None);
          match left with
          | Some left_idx => steal_internal_left t parent_idx child_pos node_idx left_idx
          | None =>
              if child_pos <? parent_len then merge_internals t node_idx child_pos parent_idx
              else if child_pos =? 0 then None
              else
                do left_idx <- pchildren !! (child_pos - 1);
                merge_internals t left_idx (child_pos - 1) parent_idx
          end
      end
  end.
End round.

(** [fuel]: the tree's height and one more. *)
(*@ flat_btree/raw.rs : fn internal_remove_at *)
Fixpoint internal_remove_at (fuel : nat) t (node_idx idx : nat) : option (RawBTree K V) :=
  match fuel with
  | 0 => None
  | S fuel' =>
      do ' (keys, children) <- internal_node (arena t) node_idx;
      do separator <- keys !! idx;
      let t := drop_sep t separator in
      let keys := delete idx keys in
      let children := delete (idx + 1) children in
      let new_len := length keys in
      let t := with_arena t (set_body (arena t) node_idx (InternalBody keys children)) in
      if bool_decide (root t = Some node_idx) && (new_len =? 0) then
        do only_child <- children !! 0;
        let a := set_parent (arena t) only_child None in
        let a := free_node a node_idx in
        if height t =? 0 then None
        else Some (with_root (with_arena t a) (Some only_child) (height t - 1))
      else
        let min_keys := INTERNAL_CAP / 2 in
        if (new_len <? min_keys) && negb (bool_decide (root t = Some node_idx)) then
          rebalance_internal (internal_remove_at fuel') t node_idx
        else Some t
  end.

(*@ flat_btree/raw.rs : 1674-1708 : rebalance_leaf (a sibling gives) *)
Definition steal_leaf_right t (parent_idx child_pos leaf_idx right_idx : nat) : option (RawBTree K V) :=
  let a := arena t in
  do kvs <- leaf_kvs a leaf_idx;
  do rkvs <- leaf_kvs a right_idx;
  do stolen <- rkvs !! 0;
  if length kvs <? LEAF_CAP then
    let a := set_body a leaf_idx (LeafBody (kvs ++ [stolen])) in
    let a := set_body a right_idx (LeafBody (drop 1 rkvs)) in
    do ' (new_sep, _) <- rkvs !! 1;
    do ' (pkeys, pchildren) <- internal_node a parent_idx;
    do old_sep <- pkeys !! child_pos;
    Some (with_arena (drop_sep t old_sep)
      (set_body a parent_idx (InternalBody (<[child_pos := new_sep]> pkeys) pchildren)))
  else None.

(*@ flat_btree/raw.rs : 1719-1754 : rebalance_leaf (a sibling gives) *)
Definition steal_leaf_left t (parent_idx child_pos leaf_idx left_idx : nat) : option (RawBTree K V) :=
  let a := arena t in
  do kvs <- leaf_kvs a leaf_idx;
  do lkvs <- leaf_kvs a left_idx;
  let left_len := length lkvs in
  do stolen <- lkvs !! (left_len - 1);
  if length kvs <? LEAF_CAP then
    let a := set_body a leaf_idx (LeafBody (stolen :: kvs)) in
    let a := set_body a left_idx (LeafBody (take (left_len - 1) lkvs)) in
    do ' (pkeys, pchildren) <- internal_node a parent_idx;
    do old_sep <- pkeys !! (child_pos - 1);
    Some (with_arena (drop_sep t old_sep) (set_body a parent_idx
      (InternalBody (<[child_pos - 1 := stolen.1]> pkeys) pchildren)))
  else None.

(*@ flat_btree/raw.rs : fn merge_leaves *)
Definition merge_leaves t (left_idx left_child_pos parent_idx : nat) : option (RawBTree K V) :=
  let a := arena t in
  do ' (_, pchildren) <- internal_node a parent_idx;
  do right_idx <- pchildren !! (left_child_pos + 1);
  do lkvs <- leaf_kvs a left_idx;
  do rkvs <- leaf_kvs a right_idx;
  if LEAF_CAP <? length lkvs + length rkvs then None
  else
    let a := set_body a left_idx (LeafBody (lkvs ++ rkvs)) in
    do ' (_, right_next) <- links a !! right_idx;
    do ' (left_prev, _) <- links a !! left_idx;
    let a := set_links a left_idx (left_prev, right_next) in
    do t <-
      (match right_next with
       | Some right_next =>
           do ' (_, next_next) <- links a !! right_next;
           Some (with_arena t (set_links a right_next (Some left_idx, next_next)))
       | None => Some (with_last_leaf (with_arena t a) (Some left_idx))
       end);
    let a := free_node (arena t) right_idx in
    internal_remove_at (height t + 1) (with_arena t a) parent_idx left_child_pos.

(*@ flat_btree/raw.rs : fn rebalance_leaf *)
Definition rebalance_leaf t (leaf_idx : nat) : option (RawBTree K V) :=
  let a := arena t in
  do parent <- parents a !! leaf_idx;
  match parent with
  | None => Some t
  | Some parent_idx =>
      let min_keys := LEAF_CAP / 2 in
      do ' (pkeys, pchildren) <- internal_node a parent_idx;
      let parent_len := length pkeys in
      let child_pos := child_slot pchildren leaf_idx 0 in
      do right <-
        (if child_pos <? parent_len then
           do right_idx <- pchildren !! (child_pos + 1);
           do right_len <- node_len a right_idx;
           Some (if min_keys <? right_len then Some right_idx else None)
         else Some None);
      match right with
      | Some right_idx => steal_leaf_right t parent_idx child_pos leaf_idx right_idx
      | None =>
          do left <-
            (if 0 <? child_pos then
               do left_idx <- pchildren !! (child_pos - 1);
               do left_len <- node_len a left_idx;
               Some (if min_keys <? left_len then Some left_idx else None)
             else Some None);
          match left with
          | Some left_idx => steal_leaf_left t parent_idx child_pos leaf_idx left_idx
          | None =>
              if child_pos <? parent_len then merge_leaves t leaf_idx child_pos parent_idx
              else if child_pos =? 0 then None
              else
                do left_idx <- pchildren !! (child_pos - 1);
                merge_leaves t left_idx (child_pos - 1) parent_idx
          end
      end
  end.

(*@ flat_btree/raw.rs : pub(crate) fn leaf_remove_at *)
Definition leaf_remove_at t (leaf_idx idx : nat) : option (RawBTree K V * (K * V)) :=
  do kvs <- leaf_kvs (arena t) leaf_idx;
  do kv <- kvs !! idx;
  if len t =? 0 then None
  else
    let t := with_arena t (set_body (arena t) leaf_idx (LeafBody (delete idx kvs))) in
    let t := with_len t (len t - 1) in
    let new_len := length kvs - 1 in
    let min_keys := LEAF_CAP / 2 in
    do t <- (if (new_len <? min_keys) && (0 <? height t) then rebalance_leaf t leaf_idx else Some t);
    Some (t, kv).

(*@ flat_btree/raw.rs : pub fn remove_entry< *)
Definition remove_entry t (key : K) : option (RawBTree K V * option (K * V)) :=
  do r <- search t key;
  match r with
  | Some (leaf_idx, slot_idx) =>
      do ' (t, kv) <- leaf_remove_at t leaf_idx slot_idx; Some (t, Some kv)
  | None => Some (t, None)
  end.

(*@ flat_btree/raw.rs : pub fn remove< *)
Definition remove t (key : K) : option (RawBTree K V * option V) :=
  do r <- search t key;
  match r with
  | Some (leaf_idx, slot_idx) =>
      do ' (t, (_, v)) <- leaf_remove_at t leaf_idx slot_idx; Some (t, Some v)
  | None => Some (t, None)
  end.
End tree.
