(* ===== verification/BTreeInv.v ===== *)
(** * The B+ tree engine: the represented tree

    The arena of a well-formed tree spells out a tree of node indices: the
    bodies, the parent indices and the chain of the leaves are those of the
    tree.  A zipper singles out the place an operation works at. *)

From Stdlib Require Import ZArith Lia.
From stdpp Require Import sorting.
From S2P Require Import Prelude BTree.

(** ** What a map holds *)

Section agrees.
Context {A : Type}.
Implicit Types (m : gmap nat A) (l : list (nat * A)).

Definition agrees m l : Prop := Forall (λ e, m !! e.1 = Some e.2) l.

Lemma agrees_nil m : agrees m [].
Proof. constructor. Qed.

Lemma agrees_cons m i x l : agrees m ((i, x) :: l) ↔ m !! i = Some x ∧ agrees m l.
Proof. unfold agrees. by rewrite Forall_cons. Qed.

Lemma agrees_app m l1 l2 : agrees m (l1 ++ l2) ↔ agrees m l1 ∧ agrees m l2.
Proof. unfold agrees. by rewrite Forall_app. Qed.

Lemma agrees_perm m l1 l2 : l1 ≡ₚ l2 → agrees m l1 ↔ agrees m l2.
Proof. intros Hp. unfold agrees. by rewrite Hp. Qed.

#[export] Instance agrees_proper m : Proper (Permutation ==> iff) (agrees m).
Proof. intros l l'. apply agrees_perm. Qed.

Lemma agrees_insert m l i x : i ∉ l.*1 → agrees m l → agrees (<[i := x]> m) l.
Proof.
  intros Hi Hl. unfold agrees in *. rewrite Forall_forall in Hl |- *. intros [j y] Hj.
  simpl. rewrite lookup_insert_ne; [by apply (Hl (j, y))|]. intros ->.
  apply Hi, list_elem_of_fmap. by exists (j, y).
Qed.

Lemma agrees_delete m l i : i ∉ l.*1 → agrees m l → agrees (delete i m) l.
Proof.
  intros Hi Hl. unfold agrees in *. rewrite Forall_forall in Hl |- *. intros [j y] Hj.
  simpl. rewrite lookup_delete_ne; [by apply (Hl (j, y))|]. intros ->.
  apply Hi, list_elem_of_fmap. by exists (j, y).
Qed.

Lemma agrees_lookup m l i x : agrees m l → (i, x) ∈ l → m !! i = Some x.
Proof. unfold agrees. rewrite Forall_forall. intros Hl Hi. by apply (Hl (i, x)). Qed.
End agrees.

(** ** Trees and zippers *)

Section tree.
Context {K V : Type} `{OrdLaws K} (key_size val_size : nat).

Abbreviation LEAF_CAP := (LEAF_CAP key_size val_size).
Abbreviation INTERNAL_CAP := (INTERNAL_CAP key_size).

Inductive tree :=
  | TLeaf (i : nat) (kvs : list (K * V))
  | TNode (i : nat) (keys : list K) (children : list tree).

Definition tid (g : tree) : nat := match g with TLeaf i _ => i | TNode i _ _ => i end.

(** The bodies, parent indices, leaves and entries of a tree. *)
Fixpoint tbodies (g : tree) : list (nat * Body K V) :=
  match g with
  | TLeaf i kvs => [(i, LeafBody kvs)]
  | TNode i ks cs => (i, InternalBody ks (List.map tid cs)) :: List.flat_map tbodies cs
  end.

Fixpoint tparents (p : option nat) (g : tree) : list (nat * option nat) :=
  match g with
  | TLeaf i _ => [(i, p)]
  | TNode i _ cs => (i, p) :: List.flat_map (tparents (Some i)) cs
  end.

Fixpoint ids (g : tree) : list nat :=
  match g with TLeaf i _ => [i] | TNode i _ cs => i :: List.flat_map ids cs end.

Fixpoint leaves (g : tree) : list nat :=
  match g with TLeaf i _ => [i] | TNode _ _ cs => List.flat_map leaves cs end.

Fixpoint entries (g : tree) : list (K * V) :=
  match g with TLeaf _ kvs => kvs | TNode _ _ cs => List.flat_map entries cs end.

Fixpoint tkeys (g : tree) : list K :=
  match g with TLeaf _ _ => [] | TNode _ ks cs => ks ++ List.flat_map tkeys cs end.

(** A node with a hole at one child. *)
Record frame := {
  f_id : nat;
  f_lkeys : list K; f_left : list tree;
  f_rkeys : list K; f_right : list tree;
}.

Definition fill (f : frame) (gs : list tree) (ks : list K) : tree :=
  TNode (f_id f) (f_lkeys f ++ ks ++ f_rkeys f) (f_left f ++ gs ++ f_right f).

(** The innermost frame comes first. *)
Definition plug (fs : list frame) (g : tree) : tree :=
  foldl (λ g f, fill f [g] []) g fs.

Definition parent_of (fs : list frame) : option nat := f_id <$> head fs.

(** The parts of a tree outside the hole. *)
Fixpoint cbodies (fs : list frame) (i : nat) : list (nat * Body K V) :=
  match fs with
  | [] => []
  | f :: fs' =>
      (f_id f, InternalBody (f_lkeys f ++ f_rkeys f)
         (List.map tid (f_left f) ++ i :: List.map tid (f_right f))) ::
      List.flat_map tbodies (f_left f) ++ List.flat_map tbodies (f_right f) ++ cbodies fs' (f_id f)
  end.

Fixpoint cparents (fs : list frame) : list (nat * option nat) :=
  match fs with
  | [] => []
  | f :: fs' =>
      (f_id f, parent_of fs') ::
      List.flat_map (tparents (Some (f_id f))) (f_left f) ++
      List.flat_map (tparents (Some (f_id f))) (f_right f) ++ cparents fs'
  end.

Fixpoint cids (fs : list frame) : list nat :=
  match fs with
  | [] => []
  | f :: fs' => f_id f :: List.flat_map ids (f_left f) ++ List.flat_map ids (f_right f) ++ cids fs'
  end.

Fixpoint lleaves (fs : list frame) : list nat :=
  match fs with [] => [] | f :: fs' => lleaves fs' ++ List.flat_map leaves (f_left f) end.
Fixpoint rleaves (fs : list frame) : list nat :=
  match fs with [] => [] | f :: fs' => List.flat_map leaves (f_right f) ++ rleaves fs' end.
Fixpoint lentries (fs : list frame) : list (K * V) :=
  match fs with [] => [] | f :: fs' => lentries fs' ++ List.flat_map entries (f_left f) end.
Fixpoint rentries (fs : list frame) : list (K * V) :=
  match fs with [] => [] | f :: fs' => List.flat_map entries (f_right f) ++ rentries fs' end.

Fixpoint ckeys (fs : list frame) : list K :=
  match fs with
  | [] => []
  | f :: fs' =>
      (f_lkeys f ++ f_rkeys f) ++ List.flat_map tkeys (f_left f) ++ List.flat_map tkeys (f_right f) ++ ckeys fs'
  end.

(** The tree with [gs] in the place of the hole, separated by [ks]. *)
Definition plugs (fs : list frame) (gs : list tree) (ks : list K) : option tree :=
  match fs with
  | f :: fs' => Some (plug fs' (fill f gs ks))
  | [] => head gs
  end.

Lemma plug_cons f fs g : plug (f :: fs) g = plug fs (fill f [g] []).
Proof using Type. done. Qed.

Lemma plug_app fs1 fs2 g : plug (fs1 ++ fs2) g = plug fs2 (plug fs1 g).
Proof using Type. apply foldl_app. Qed.

Lemma fill_id f gs ks : tid (fill f gs ks) = f_id f.
Proof using Type. done. Qed.

Lemma tbodies_fill f gs ks :
  tbodies (fill f gs ks) ≡ₚ
  (f_id f, InternalBody (f_lkeys f ++ ks ++ f_rkeys f)
     (List.map tid (f_left f) ++ List.map tid gs ++ List.map tid (f_right f))) ::
  List.flat_map tbodies (f_left f) ++ List.flat_map tbodies (f_right f) ++ List.flat_map tbodies gs.
Proof using Type.
  unfold fill. cbn [tbodies]. rewrite !List.map_app, !List.flat_map_app. constructor.
  apply Permutation_app_head, Permutation_app_comm.
Qed.

Lemma tkeys_fill f fs gs ks :
  ckeys fs ++ tkeys (fill f gs ks) ≡ₚ ckeys (f :: fs) ++ ks ++ List.flat_map tkeys gs.
Proof using Type. unfold fill. cbn [tkeys ckeys]. rewrite !List.flat_map_app. solve_Permutation. Qed.

Lemma tkeys_plug fs g : tkeys (plug fs g) ≡ₚ ckeys fs ++ tkeys g.
Proof using Type.
  revert g. induction fs as [|f fs IH]; intros g; [done|].
  rewrite plug_cons, IH, tkeys_fill. cbn. by rewrite app_nil_r.
Qed.

Lemma tbodies_plug fs g : tbodies (plug fs g) ≡ₚ cbodies fs (tid g) ++ tbodies g.
Proof using Type.
  revert g. induction fs as [|f fs IH]; intros g; [done|].
  rewrite plug_cons, IH, tbodies_fill, fill_id. cbn [cbodies app List.flat_map]. rewrite app_nil_r.
  rewrite <- Permutation_middle. constructor. rewrite <- !app_assoc.
  rewrite (Permutation_app_comm (cbodies fs (f_id f))), <- !app_assoc. do 2 apply Permutation_app_head.
  apply Permutation_app_comm.
Qed.

Lemma tparents_plug fs g : tparents None (plug fs g) ≡ₚ cparents fs ++ tparents (parent_of fs) g.
Proof using Type.
  revert g. induction fs as [|f fs IH]; intros g; [done|].
  rewrite plug_cons, IH. cbn [fill tparents cparents app parent_of head fmap option_fmap option_map].
  rewrite !List.flat_map_app. cbn [List.flat_map]. rewrite <- Permutation_middle. constructor.
  rewrite (Permutation_app_comm (cparents fs)), <- !app_assoc. apply Permutation_app_head.
  rewrite (Permutation_app_comm (tparents _ g)), <- !app_assoc. done.
Qed.

Lemma ids_plug fs g : ids (plug fs g) ≡ₚ cids fs ++ ids g.
Proof using Type.
  revert g. induction fs as [|f fs IH]; intros g; [done|].
  rewrite plug_cons, IH. cbn [fill ids cids app]. rewrite !List.flat_map_app. cbn [List.flat_map].
  rewrite <- Permutation_middle. constructor.
  rewrite (Permutation_app_comm (cids fs)), <- !app_assoc. apply Permutation_app_head.
  rewrite (Permutation_app_comm (ids g)), <- !app_assoc. done.
Qed.

Lemma leaves_plug fs g : leaves (plug fs g) = lleaves fs ++ leaves g ++ rleaves fs.
Proof using Type.
  revert g. induction fs as [|f fs IH]; intros g; cbn [lleaves rleaves app]; [by rewrite app_nil_r|].
  rewrite plug_cons, IH. cbn [fill leaves]. rewrite !List.flat_map_app. cbn [List.flat_map].
  by rewrite <- !app_assoc.
Qed.

Lemma entries_plug fs g : entries (plug fs g) = lentries fs ++ entries g ++ rentries fs.
Proof using Type.
  revert g. induction fs as [|f fs IH]; intros g; cbn [lentries rentries app]; [by rewrite app_nil_r|].
  rewrite plug_cons, IH. cbn [fill entries]. rewrite !List.flat_map_app. cbn [List.flat_map].
  by rewrite <- !app_assoc.
Qed.

Lemma leaves_fill fs f gs ks :
  lleaves fs ++ leaves (fill f gs ks) ++ rleaves fs =
  lleaves (f :: fs) ++ List.flat_map leaves gs ++ rleaves (f :: fs).
Proof using Type. cbn. by rewrite !List.flat_map_app, <- !app_assoc. Qed.

Lemma entries_fill fs f gs ks :
  lentries fs ++ entries (fill f gs ks) ++ rentries fs =
  lentries (f :: fs) ++ List.flat_map entries gs ++ rentries (f :: fs).
Proof using Type. cbn. by rewrite !List.flat_map_app, <- !app_assoc. Qed.

(** The indices of the parts. *)
Lemma tree_ind_strong (P : tree → Prop) :
  (∀ i kvs, P (TLeaf i kvs)) → (∀ i ks cs, Forall P cs → P (TNode i ks cs)) → ∀ g, P g.
Proof using Type.
  intros Hl Hn. fix go 1. intros [i kvs|i ks cs]; [apply Hl|apply Hn].
  induction cs as [|c cs IH]; constructor; [apply go|exact IH].
Qed.

Lemma flat_map_fst {A} (fa : tree → list (nat * A)) (fi : tree → list nat) cs :
  Forall (λ c, (fa c).*1 = fi c) cs → (List.flat_map fa cs).*1 = List.flat_map fi cs.
Proof using Type. induction 1 as [|c cs Hc _ IH]; [done|]. cbn [List.flat_map]. by rewrite fmap_app, Hc, IH. Qed.

Lemma tbodies_ids g : (tbodies g).*1 = ids g.
Proof using Type.
  induction g as [i kvs|i ks cs IH] using tree_ind_strong; [done|]. cbn [tbodies ids fmap list_fmap fst].
  f_equal. by apply flat_map_fst.
Qed.

Lemma tparents_ids p g : (tparents p g).*1 = ids g.
Proof using Type.
  revert p. induction g as [i kvs|i ks cs IH] using tree_ind_strong; intros p; [done|].
  cbn [tparents ids fmap list_fmap fst]. f_equal. apply flat_map_fst.
  apply (Forall_impl _ _ _ IH). intros c Hc. apply Hc.
Qed.

Lemma flat_tbodies_ids cs : (List.flat_map tbodies cs).*1 = List.flat_map ids cs.
Proof using Type. apply flat_map_fst, Forall_true, tbodies_ids. Qed.

Lemma flat_tparents_ids p cs : (List.flat_map (tparents p) cs).*1 = List.flat_map ids cs.
Proof using Type. apply flat_map_fst, Forall_true, tparents_ids. Qed.

Lemma cbodies_ids fs i : (cbodies fs i).*1 = cids fs.
Proof using Type.
  revert i. induction fs as [|f fs IH]; intros i; [done|]. cbn [cbodies cids fmap list_fmap fst].
  by rewrite !fmap_app, !flat_tbodies_ids, IH.
Qed.

Lemma cparents_ids fs : (cparents fs).*1 = cids fs.
Proof using Type.
  induction fs as [|f fs IH]; [done|]. cbn [cparents cids fmap list_fmap fst].
  by rewrite !fmap_app, !flat_tparents_ids, IH.
Qed.

Lemma tid_in_ids g : tid g ∈ ids g.
Proof using Type. destruct g; by left. Qed.

(** ** Leaves with their contents *)

Fixpoint tleaves (g : tree) : list (nat * list (K * V)) :=
  match g with TLeaf i kvs => [(i, kvs)] | TNode _ _ cs => List.flat_map tleaves cs end.
Fixpoint ltleaves (fs : list frame) : list (nat * list (K * V)) :=
  match fs with [] => [] | f :: fs' => ltleaves fs' ++ List.flat_map tleaves (f_left f) end.
Fixpoint rtleaves (fs : list frame) : list (nat * list (K * V)) :=
  match fs with [] => [] | f :: fs' => List.flat_map tleaves (f_right f) ++ rtleaves fs' end.

Lemma tleaves_plug fs g : tleaves (plug fs g) = ltleaves fs ++ tleaves g ++ rtleaves fs.
Proof using Type.
  revert g. induction fs as [|f fs IH]; intros g; cbn [ltleaves rtleaves app]; [by rewrite app_nil_r|].
  rewrite plug_cons, IH. cbn [fill tleaves]. rewrite !List.flat_map_app. cbn [List.flat_map].
  by rewrite <- !app_assoc.
Qed.

Lemma tleaves_fill fs f gs ks :
  ltleaves fs ++ tleaves (fill f gs ks) ++ rtleaves fs =
  ltleaves (f :: fs) ++ List.flat_map tleaves gs ++ rtleaves (f :: fs).
Proof using Type. cbn. by rewrite !List.flat_map_app, <- !app_assoc. Qed.

Lemma tleaves_ids g : (tleaves g).*1 = leaves g.
Proof using Type.
  induction g as [i kvs|i ks cs IH] using tree_ind_strong; [done|]. cbn [tleaves leaves].
  by apply flat_map_fst.
Qed.

Lemma flat_tleaves_ids cs : (List.flat_map tleaves cs).*1 = List.flat_map leaves cs.
Proof using Type. apply flat_map_fst, Forall_true, tleaves_ids. Qed.

Lemma lleaves_eq fs : lleaves fs = (ltleaves fs).*1.
Proof using Type. induction fs as [|f fs IH]; [done|]. cbn. by rewrite fmap_app, flat_tleaves_ids, IH. Qed.

Lemma rleaves_eq fs : rleaves fs = (rtleaves fs).*1.
Proof using Type. induction fs as [|f fs IH]; [done|]. cbn. by rewrite fmap_app, flat_tleaves_ids, IH. Qed.

Lemma entries_tleaves g : entries g = List.flat_map snd (tleaves g).
Proof using Type.
  induction g as [i kvs|i ks cs IH] using tree_ind_strong; cbn; [by rewrite app_nil_r|].
  induction IH as [|c cs Hc _ IH]; [done|]. cbn. by rewrite List.flat_map_app, Hc, IH.
Qed.

Lemma flat_entries_tleaves cs : List.flat_map entries cs = List.flat_map snd (List.flat_map tleaves cs).
Proof using Type.
  induction cs as [|c cs IH]; [done|]. cbn. by rewrite List.flat_map_app, entries_tleaves, IH.
Qed.

Lemma lentries_eq fs : lentries fs = List.flat_map snd (ltleaves fs).
Proof using Type.
  induction fs as [|f fs IH]; [done|]. cbn. by rewrite List.flat_map_app, <- flat_entries_tleaves, IH.
Qed.

Lemma rentries_eq fs : rentries fs = List.flat_map snd (rtleaves fs).
Proof using Type.
  induction fs as [|f fs IH]; [done|]. cbn. by rewrite List.flat_map_app, <- flat_entries_tleaves, IH.
Qed.
End tree.
Arguments tree : clear implicits.
Arguments frame : clear implicits.

(** Where an element of a concatenation lies. *)
Lemma flat_map_split {A B} (f : A → list B) l L1 x L2 :
  List.flat_map f l = L1 ++ x :: L2 →
  ∃ l1 a l2 M1 M2, l = l1 ++ a :: l2 ∧ f a = M1 ++ x :: M2 ∧
    L1 = List.flat_map f l1 ++ M1 ∧ L2 = M2 ++ List.flat_map f l2.
Proof.
  revert L1. induction l as [|a l IH]; intros L1 Heq; [by destruct L1|]. cbn in Heq.
  destruct (decide (length (f a) <= length L1)) as [Hle|Hgt].
  - assert (∃ L1', L1 = f a ++ L1') as [L1' ->].
    { exists (drop (length (f a)) L1). rewrite <- (take_drop (length (f a)) L1) at 1. f_equal.
      apply (f_equal (take (length (f a)))) in Heq. by rewrite take_app_length, take_app_le in Heq by done. }
    rewrite <- app_assoc in Heq. apply app_inv_head in Heq.
    destruct (IH _ Heq) as (l1 & b & l2 & M1 & M2 & -> & Hb & -> & ->).
    exists (a :: l1), b, l2, M1, M2. split_and!; [done..| |done]. cbn. by rewrite app_assoc.
  - assert (f a = L1 ++ drop (length L1) (f a)) as Hfa.
    { rewrite <- (take_drop (length L1) (f a)) at 1. f_equal.
      apply (f_equal (take (length L1))) in Heq. by rewrite take_app_le, take_app_length in Heq by lia. }
    rewrite Hfa, <- app_assoc in Heq. apply app_inv_head in Heq.
    destruct (drop (length L1) (f a)) as [|y M2] eqn:E.
    + rewrite Hfa, length_app in Hgt. cbn in Hgt. lia.
    + cbn in Heq. injection Heq as -> HL2. exists [], a, l, L1, M2. split_and!; try done.
Qed.
