(* ===== verification/BTreeShape.v ===== *)
(** * The B+ tree engine: order, balance and the invariant

    What the keys of a tree of given height within given bounds satisfy, how
    the condition splits at a hole, and the invariant of the engine. *)

From Stdlib Require Import ZArith Lia.
From stdpp Require Import sorting.
From S2P Require Import Prelude BTree BTreeInv.

(** ** Bounds *)

Section bounds.
Context {K : Type} `{OrdLaws K}.
Implicit Types (lo hi : option K) (k : K) (ks : list K).

Definition in_range lo hi k : Prop :=
  (match lo with Some l => kle l k | None => True end) ∧
  (match hi with Some h => klt k h | None => True end).

Definition lt_bound lo hi : Prop :=
  match lo, hi with Some a, Some b => klt a b | _, _ => True end.

(** The bounds of the hole between the keys [lks] and [rks] of a node. *)
Definition last_bound lo ks : option K := match last ks with Some k => Some k | None => lo end.
Definition head_bound ks hi : option K := match ks with k :: _ => Some k | [] => hi end.

Lemma last_bound_cons lo k ks : last_bound lo (k :: ks) = last_bound (Some k) ks.
Proof. unfold last_bound. rewrite last_cons. by destruct (last ks). Qed.

Lemma last_bound_snoc lo ks k : last_bound lo (ks ++ [k]) = Some k.
Proof. unfold last_bound. by rewrite last_snoc. Qed.

Lemma in_range_lt lo hi k : in_range lo hi k → lt_bound lo hi.
Proof. destruct lo, hi; try done. intros [Hl Hh]. by apply (kle_klt_trans _ k). Qed.

Lemma in_range_weaken lo hi lo' hi' k :
  in_range lo hi k →
  (∀ l, lo' = Some l → ∃ l', lo = Some l' ∧ kle l l') →
  (∀ h, hi' = Some h → ∃ h', hi = Some h' ∧ kle h' h) →
  in_range lo' hi' k.
Proof.
  intros [Hl Hh] Hlo Hhi. split.
  - destruct lo' as [l|]; [|done]. destruct (Hlo l eq_refl) as (l' & -> & Hle). by transitivity l'.
  - destruct hi' as [h|]; [|done]. destruct (Hhi h eq_refl) as (h' & -> & Hle). by apply (klt_kle_trans _ h').
Qed.
End bounds.

(** ** The children of a node, between its keys *)

Section seps.
Context {K A : Type} (P : option K → option K → A → Prop).
Implicit Types (lo hi : option K) (ks : list K) (cs : list A).

Fixpoint seps lo ks cs hi : Prop :=
  match ks, cs with
  | [], [c] => P lo hi c
  | k :: ks', c :: cs' => P lo (Some k) c ∧ seps (Some k) ks' cs' hi
  | _, _ => False
  end.

(** Those left of a hole, each before a key, and those right of it. *)
Fixpoint lseps lo ks cs : Prop :=
  match ks, cs with
  | [], [] => True
  | k :: ks', c :: cs' => P lo (Some k) c ∧ lseps (Some k) ks' cs'
  | _, _ => False
  end.

Fixpoint rseps ks cs hi : Prop :=
  match ks, cs with
  | [], [] => True
  | k :: ks', c :: cs' => P (Some k) (head_bound ks' hi) c ∧ rseps ks' cs' hi
  | _, _ => False
  end.

Lemma seps_length lo ks cs hi : seps lo ks cs hi → length cs = S (length ks).
Proof.
  revert lo cs. induction ks as [|k ks IH]; intros lo [|c cs]; simpl; try done.
  - by destruct cs.
  - intros [_ Hs]. f_equal. by eapply IH.
Qed.

Lemma lseps_length lo ks cs : lseps lo ks cs → length cs = length ks.
Proof.
  revert lo cs. induction ks as [|k ks IH]; intros lo [|c cs]; simpl; try done.
  intros [_ Hs]. f_equal. by eapply IH.
Qed.

Lemma rseps_length ks cs hi : rseps ks cs hi → length cs = length ks.
Proof.
  revert cs. induction ks as [|k ks IH]; intros [|c cs]; simpl; try done.
  intros [_ Hs]. f_equal. by apply IH.
Qed.

Lemma seps_cons_right lo rks rcs hi c :
  length rcs = length rks → seps lo rks (c :: rcs) hi ↔ P lo (head_bound rks hi) c ∧ rseps rks rcs hi.
Proof.
  revert lo c rcs. induction rks as [|k rks IH]; intros lo c [|c' rcs] Hl; simpl in *; try done; [tauto|].
  rewrite IH by lia. done.
Qed.

Lemma seps_right lo ks gs rks rcs hi :
  length gs = S (length ks) → length rcs = length rks →
  seps lo (ks ++ rks) (gs ++ rcs) hi ↔ seps lo ks gs (head_bound rks hi) ∧ rseps rks rcs hi.
Proof.
  revert lo gs. induction ks as [|k ks IH]; intros lo [|g gs] Hg Hr; simpl in *; try done.
  - destruct gs; [|done]. cbn [app]. by apply seps_cons_right.
  - rewrite IH by lia. tauto.
Qed.

(** A node splits at a hole. *)
Lemma seps_hole lo lks ks rks lcs gs rcs hi :
  length lcs = length lks → length gs = S (length ks) → length rcs = length rks →
  seps lo (lks ++ ks ++ rks) (lcs ++ gs ++ rcs) hi ↔
  lseps lo lks lcs ∧ seps (last_bound lo lks) ks gs (head_bound rks hi) ∧ rseps rks rcs hi.
Proof.
  intros Hl Hg Hr. revert lo lcs Hl. induction lks as [|k lks IH]; intros lo [|c lcs] Hl; simpl in *; try done.
  - rewrite seps_right by done. cbn. tauto.
  - rewrite IH by lia. rewrite last_bound_cons. tauto.
Qed.

(** Cutting a node in two at one of its keys. *)
Lemma seps_cut lo ks1 k ks2 cs1 cs2 hi :
  length cs1 = S (length ks1) →
  seps lo (ks1 ++ k :: ks2) (cs1 ++ cs2) hi ↔ seps lo ks1 cs1 (Some k) ∧ seps (Some k) ks2 cs2 hi.
Proof.
  revert lo cs1. induction ks1 as [|k1 ks1 IH]; intros lo [|c1 cs1] Hl; simpl in *; try done.
  - destruct cs1; [|done]. done.
  - rewrite IH by lia. tauto.
Qed.

Lemma lseps_snoc lo ks k cs c :
  lseps lo (ks ++ [k]) (cs ++ [c]) ↔ lseps lo ks cs ∧ P (last_bound lo ks) (Some k) c.
Proof.
  revert lo cs. induction ks as [|k1 ks IH]; intros lo [|c1 cs]; simpl.
  - unfold last_bound. simpl. tauto.
  - destruct cs; simpl; tauto.
  - destruct ks; simpl; tauto.
  - rewrite IH, last_bound_cons. tauto.
Qed.
End seps.

(** ** Shapes *)

(** The least number of keys of an internal node: every operation keeps at least
    one, a bulk load may leave a node with a single child and no key. *)
Class MinKeys := {
  min_keys : nat;
  min_keys_le : min_keys <= 1;
}.

Definition any_nodes : MinKeys := {| min_keys := 0; min_keys_le := Nat.le_0_l 1 |}.
Definition full_nodes : MinKeys := {| min_keys := 1; min_keys_le := Nat.le_refl 1 |}.

Section shape.
Context {K V : Type} `{OrdLaws K} {MK : MinKeys} (key_size val_size : nat).

Abbreviation LEAF_CAP := (LEAF_CAP key_size val_size).
Abbreviation INTERNAL_CAP := (INTERNAL_CAP key_size).
Abbreviation tree := (tree K V).
Abbreviation frame := (frame K V).
Implicit Types (lo hi : option K) (g : tree) (fs : list frame).

(** A tree of height [n] with keys from [lo] on and below [hi]. *)
Fixpoint shape (n : nat) lo hi g : Prop :=
  match n, g with
  | 0, TLeaf _ kvs =>
      length kvs <= LEAF_CAP ∧ lt_bound lo hi ∧ sorted_keys kvs.*1 ∧ Forall (in_range lo hi) kvs.*1
  | S n', TNode _ ks cs => min_keys <= length ks <= INTERNAL_CAP ∧ seps (shape n') lo ks cs hi
  | _, _ => False
  end.

(** What surrounds a hole of height [n] with bounds [lo] and [hi]. *)
Fixpoint cshape (n : nat) fs lo hi : Prop :=
  match fs with
  | [] => lo = None ∧ hi = None
  | f :: fs' => ∃ flo fhi,
      lo = last_bound flo (f_lkeys f) ∧ hi = head_bound (f_rkeys f) fhi ∧
      lseps (shape n) flo (f_lkeys f) (f_left f) ∧ rseps (shape n) (f_rkeys f) (f_right f) fhi ∧
      min_keys <= length (f_lkeys f) + length (f_rkeys f) <= INTERNAL_CAP ∧
      cshape (S n) fs' flo fhi
  end.

Lemma cshape_lengths n f fs lo hi :
  cshape n (f :: fs) lo hi → length (f_left f) = length (f_lkeys f) ∧ length (f_right f) = length (f_rkeys f).
Proof using Type. intros (flo & fhi & _ & _ & Hl & Hr & _). by split; [eapply lseps_length|eapply rseps_length]. Qed.

(** Filling the hole with trees of the right shape. *)
Lemma fill_shape n f gs ks lo hi flo fhi :
  lseps (shape n) flo (f_lkeys f) (f_left f) → rseps (shape n) (f_rkeys f) (f_right f) fhi →
  lo = last_bound flo (f_lkeys f) → hi = head_bound (f_rkeys f) fhi →
  seps (shape n) lo ks gs hi →
  min_keys <= length (f_lkeys f) + length ks + length (f_rkeys f) <= INTERNAL_CAP →
  shape (S n) flo fhi (fill f gs ks).
Proof using Type.
  intros Hl Hr -> -> Hg Hlen. cbn [shape fill]. rewrite !length_app. split; [lia|].
  apply seps_hole; [by eapply lseps_length|by eapply seps_length|by eapply rseps_length|done].
Qed.

Lemma plug_shape n fs lo hi g :
  cshape n fs lo hi → shape n lo hi g → shape (n + length fs) None None (plug fs g).
Proof using Type.
  revert n lo hi g. induction fs as [|f fs IH]; intros n lo hi g Hc Hg.
  - destruct Hc as [-> ->]. by rewrite Nat.add_0_r.
  - destruct Hc as (flo & fhi & Hlo & Hhi & Hl & Hr & Hlen & Hc).
    rewrite plug_cons. cbn [length]. rewrite Nat.add_succ_r. apply (IH (S n) flo fhi); [done|].
    apply (fill_shape n f [g] [] lo hi); try done. cbn [length]. lia.
Qed.

Lemma shape_lt n lo hi g : shape n lo hi g → lt_bound lo hi.
Proof using Type*.
  revert lo hi g. induction n as [|n IH]; intros lo hi [i kvs|i ks cs]; simpl; try tauto.
  intros [Hlen Hs]. assert (∀ lo, seps (shape n) lo ks cs hi → lt_bound lo hi) as Hgen; [|by apply Hgen].
  clear Hs Hlen lo. revert cs. induction ks as [|k ks IHk]; intros [|c cs] lo; simpl; try done.
  - destruct cs; [apply IH|done].
  - intros [Hc Hs]. apply IH in Hc. apply IHk in Hs. destruct lo, hi; simpl in *; try done. by transitivity k.
Qed.

Lemma sorted_app (l1 l2 : list K) k :
  sorted_keys l1 → sorted_keys l2 → Forall (λ x, klt x k) l1 → Forall (kle k) l2 → sorted_keys (l1 ++ l2).
Proof using Type*.
  intros H1 H2 Hl Hr. induction H1 as [|x l1 H1 IH Hx]; [done|]. cbn [app].
  apply Forall_cons in Hl as [Hxk Hl]. constructor; [by apply IH|].
  apply Forall_app. split; [done|]. apply (Forall_impl _ _ _ Hr). intros y. by apply klt_kle_trans.
Qed.

(** The entries of a tree are sorted and within its bounds. *)
Lemma shape_entries n lo hi g :
  shape n lo hi g → sorted_keys (entries g).*1 ∧ Forall (in_range lo hi) (entries g).*1.
Proof using Type*.
  revert lo hi g. induction n as [|n IH]; intros lo hi [i kvs|i ks cs]; simpl; try tauto.
  intros [_ Hs]. revert cs lo Hs. induction ks as [|k ks IHk]; intros [|c cs] lo; simpl; try done.
  - destruct cs; [|done]. cbn. rewrite app_nil_r. apply IH.
  - intros [Hc Hs]. pose proof (shape_lt n lo (Some k) c Hc) as Hlt.
    assert (lt_bound (Some k) hi) as Hlt'.
    { destruct (IHk cs (Some k) Hs) as [_ _]. clear -Hs IH Hs H0.
      revert k cs Hs. induction ks as [|k' ks IHk]; intros k [|c cs]; simpl; try done.
      - destruct cs; [|done]. apply shape_lt.
      - intros [Hc Hs]. apply shape_lt in Hc. specialize (IHk _ _ Hs). destruct hi; [|done]. simpl in *. by transitivity k'. }
    apply IH in Hc as [Hsc Hrc]. destruct (IHk cs (Some k) Hs) as [Hss Hrs]. rewrite fmap_app. split.
    + apply (sorted_app _ _ k); [done|done| |].
      * apply (Forall_impl _ _ _ Hrc). by intros x [_ Hx].
      * apply (Forall_impl _ _ _ Hrs). by intros x [Hx _].
    + apply Forall_app. split.
      * apply (Forall_impl _ _ _ Hrc). intros x Hx. apply (in_range_weaken _ _ _ _ x Hx).
        -- intros l ->. exists l. split; [done|apply kle_refl].
        -- intros h ->. exists k. split; [done|by apply klt_kle].
      * apply (Forall_impl _ _ _ Hrs). intros x Hx. apply (in_range_weaken _ _ _ _ x Hx).
        -- intros l ->. exists k. split; [done|by apply klt_kle].
        -- intros h ->. exists h. split; [done|apply kle_refl].
Qed.

(** A tree has one height. *)
Lemma shape_depth n n' lo hi lo' hi' g : shape n lo hi g → shape n' lo' hi' g → n = n'.
Proof using Type.
  revert n' lo hi lo' hi' g. induction n as [|n IH]; intros [|n'] lo hi lo' hi' [i kvs|i ks cs]; try done.
  intros [_ Hs] [_ Hs']. f_equal. destruct cs as [|c cs]; [by destruct ks|].
  destruct ks as [|k ks]; [|destruct Hs, Hs'; by eapply IH]. destruct cs; [|done]. by eapply IH.
Qed.
End shape.
