(* ===== verification/BTreeRep.v ===== *)
(** * The B+ tree engine: how an arena holds a tree

    One invariant for the three maps of an arena ([field_ok]), the chain of the
    leaves, the state of an arena that holds given bodies, parent indices and
    leaves among the allocated nodes ([astate]), and what each primitive step of
    the engine does to that state. *)

From Stdlib Require Import ZArith Lia.
From stdpp Require Import list_tactics.
From S2P Require Import Prelude BTree BTreeInv BTreeShape.

(** ** One map *)

Section field.
Context {A : Type}.
Implicit Types (m : gmap nat A) (l : list (nat * A)) (I : list nat).

(** The map holds [l], for distinct indices among [I]. *)
Definition field_ok m I l : Prop := NoDup l.*1 ∧ l.*1 ⊆ I ∧ agrees m l.

Lemma field_perm m I l l' : l ≡ₚ l' → field_ok m I l → field_ok m I l'.
Proof. unfold field_ok. intros Hp. by rewrite Hp. Qed.

Lemma field_weaken m I I' l : I ⊆ I' → field_ok m I l → field_ok m I' l.
Proof. intros HI (Hn & Hs & Ha). split_and!; [done| |done]. set_solver. Qed.

Lemma field_look m I i x l : field_ok m I ((i, x) :: l) → m !! i = Some x.
Proof. intros (_ & _ & Ha). by apply agrees_cons in Ha as [? _]. Qed.

Lemma field_get m I i x l : (i, x) ∈ l → field_ok m I l → m !! i = Some x.
Proof. intros Hi (_ & _ & Ha). by apply (agrees_lookup m l). Qed.

Lemma field_tail m I e l : field_ok m I (e :: l) → field_ok m I l.
Proof.
  intros (Hn & Hs & Ha). rewrite fmap_cons in Hn, Hs. apply NoDup_cons in Hn as [_ Hn].
  split_and!; [done|set_solver|]. by inversion Ha.
Qed.

Lemma field_new m I i x l : i ∈ I → i ∉ l.*1 → field_ok m I l → field_ok (<[i := x]> m) I ((i, x) :: l).
Proof.
  intros HI Hi (Hn & Hs & Ha). split_and!; [by apply NoDup_cons|rewrite fmap_cons; set_solver|].
  apply agrees_cons. split; [apply lookup_insert_eq|by apply agrees_insert].
Qed.

Lemma field_set m I i x y l : field_ok m I ((i, x) :: l) → field_ok (<[i := y]> m) I ((i, y) :: l).
Proof.
  intros Hf. pose proof Hf as (Hn & Hs & _). rewrite fmap_cons in Hn, Hs. apply NoDup_cons in Hn as [Hi _].
  apply field_new; [set_solver|done|by eapply field_tail].
Qed.

Lemma field_delete m I i l : i ∉ l.*1 → field_ok m (i :: I) l → field_ok (delete i m) I l.
Proof.
  intros Hi (Hn & Hs & Ha). split_and!; [done| |by apply agrees_delete]. intros x Hx.
  pose proof (Hs x Hx) as [->|?]%elem_of_cons; done.
Qed.

(** Setting the same value at several indices. *)
Lemma field_set_list m I cs x y l :
  field_ok m I (List.map (λ c, (c, x)) cs ++ l) →
  field_ok (foldl (λ m c, <[c := y]> m) m cs) I (List.map (λ c, (c, y)) cs ++ l).
Proof.
  revert m l. induction cs as [|c cs IH]; intros m l Hf; [done|]. cbn [foldl List.map app] in *.
  apply (field_perm _ _ (List.map (λ c, (c, y)) cs ++ (c, y) :: l)); [solve_Permutation|].
  apply IH. apply (field_perm _ _ ((c, y) :: List.map (λ c, (c, x)) cs ++ l)); [solve_Permutation|].
  by apply (field_set _ _ _ x).
Qed.
End field.

(** ** The chain of the leaves *)

Abbreviation link_map := (gmap nat (option nat * option nat)).

Fixpoint chain (p : option nat) (l : list nat) (nxt : option nat) : list (nat * (option nat * option nat)) :=
  match l with
  | [] => []
  | i :: l' => (i, (p, head_bound l' nxt)) :: chain (Some i) l' nxt
  end.

Lemma chain_ids p l nxt : (chain p l nxt).*1 = l.
Proof. revert p. induction l as [|i l IH]; intros p; [done|]. cbn. by rewrite IH. Qed.

Lemma chain_app p l1 l2 nxt :
  chain p (l1 ++ l2) nxt = chain p l1 (head_bound l2 nxt) ++ chain (last_bound p l1) l2 nxt.
Proof.
  revert p. induction l1 as [|i l1 IH]; intros p; [done|]. cbn [app chain].
  rewrite IH, last_bound_cons. f_equal. by destruct l1.
Qed.

Lemma head_bound_None {A} (l : list A) : head_bound l None = head l.
Proof. by destruct l. Qed.

Lemma last_bound_None {A} (l : list A) : last_bound None l = last l.
Proof. unfold last_bound. by destruct (last l). Qed.

(** The links around a leaf. *)
Lemma chain_at (m : link_map) I L1 i L2 :
  field_ok m I (chain None (L1 ++ i :: L2) None) → m !! i = Some (last L1, head L2).
Proof.
  apply field_get. rewrite chain_app. cbn [chain]. rewrite last_bound_None, head_bound_None.
  apply elem_of_app. right. by left.
Qed.

(** A new leaf behind [i]: its successor, if any, is redirected. *)
Lemma chain_split (m : link_map) I L1 i j L2 :
  j ∈ I → j ∉ L1 ++ i :: L2 → field_ok m I (chain None (L1 ++ i :: L2) None) →
  let m' := <[j := (Some i, head L2)]> (<[i := (last L1, Some j)]> m) in
  match head L2 with
  | Some o => ∃ nn, m' !! o = Some (Some i, nn) ∧
      field_ok (<[o := (Some j, nn)]> m') I (chain None (L1 ++ i :: j :: L2) None)
  | None => field_ok m' I (chain None (L1 ++ i :: j :: L2) None)
  end.
Proof.
  intros HI Hj Hf m'. rewrite chain_app in Hf. cbn [chain head_bound] in Hf.
  rewrite last_bound_None, head_bound_None in Hf.
  assert (field_ok m' I ((i, (last L1, Some j)) :: (j, (Some i, head L2)) ::
    chain None L1 (Some i) ++ chain (Some i) L2 None)) as Hm'.
  { apply (field_perm _ _ ((j, (Some i, head L2)) :: (i, (last L1, Some j)) ::
      chain None L1 (Some i) ++ chain (Some i) L2 None)); [solve_Permutation|].
    apply field_new; [done| |].
    - rewrite fmap_cons, fmap_app, !chain_ids. cbn. set_solver.
    - eapply field_set, field_perm; [|exact Hf]. solve_Permutation. }
  assert (chain None (L1 ++ i :: j :: L2) None =
    chain None L1 (Some i) ++ (i, (last L1, Some j)) :: (j, (Some i, head L2)) :: chain (Some j) L2 None) as ->.
  { rewrite chain_app. cbn [chain head_bound]. by rewrite last_bound_None, head_bound_None. }
  destruct L2 as [|o L2]; cbn [head chain] in *.
  - eapply field_perm; [|exact Hm']. solve_Permutation.
  - exists (head_bound L2 None). split.
    + eapply field_get; [|exact Hm']. rewrite !elem_of_cons, elem_of_app. right; right; right. by left.
    + apply (field_perm _ _ ((o, (Some j, head_bound L2 None)) :: (i, (last L1, Some j)) ::
        (j, (Some i, Some o)) :: chain None L1 (Some i) ++ chain (Some o) L2 None)); [solve_Permutation|].
      apply (field_set _ _ _ (Some i, head_bound L2 None)). eapply field_perm; [|exact Hm']. solve_Permutation.
Qed.

(** The leaf behind [i] leaves the chain. *)
Lemma chain_merge (m : link_map) I L1 i j L2 :
  field_ok m I (chain None (L1 ++ i :: j :: L2) None) →
  let m' := <[i := (last L1, head L2)]> m in
  match head L2 with
  | Some o => ∃ nn, m' !! o = Some (Some j, nn) ∧
      field_ok (<[o := (Some i, nn)]> m') I (chain None (L1 ++ i :: L2) None)
  | None => field_ok m' I (chain None (L1 ++ i :: L2) None)
  end.
Proof.
  intros Hf m'. rewrite chain_app in Hf. cbn [chain head_bound] in Hf.
  rewrite last_bound_None, head_bound_None in Hf.
  assert (field_ok m' I ((i, (last L1, head L2)) :: chain None L1 (Some i) ++ chain (Some j) L2 None)) as Hm'.
  { apply (field_set _ _ _ (last L1, Some j)), (field_tail _ _ (j, (Some i, head L2))).
    eapply field_perm; [|exact Hf]. solve_Permutation. }
  assert (chain None (L1 ++ i :: L2) None =
    chain None L1 (Some i) ++ (i, (last L1, head L2)) :: chain (Some i) L2 None) as ->.
  { rewrite chain_app. cbn [chain head_bound]. by rewrite last_bound_None, head_bound_None. }
  destruct L2 as [|o L2]; cbn [head chain] in *.
  - eapply field_perm; [|exact Hm']. solve_Permutation.
  - exists (head_bound L2 None). split.
    + eapply field_get; [|exact Hm']. rewrite !elem_of_cons, elem_of_app. right; right. by left.
    + apply (field_perm _ _ ((o, (Some i, head_bound L2 None)) :: (i, (last L1, Some o)) ::
        chain None L1 (Some i) ++ chain (Some o) L2 None)); [solve_Permutation|].
      apply (field_set _ _ _ (Some j, head_bound L2 None)). eapply field_perm; [|exact Hm']. solve_Permutation.
Qed.

(** ** The arena *)

Section arena.
Context {K V : Type}.
Implicit Types (a : Arena K V) (t : RawBTree K V) (I L : list nat)
  (B : list (nat * Body K V)) (P : list (nat * option nat)) (X : list (nat * (option nat * option nat))).

(** The allocated and the free nodes are distinct and below the bump index. *)
Definition arena_ok a I : Prop :=
  NoDup (I ++ free_list a) ∧ Forall (λ i, i < arena_len a) (I ++ free_list a) ∧
  (Z.of_nat (arena_len a) <= arena_cap a)%Z.

(** [n] allocations do not exceed the indices of 32 bits. *)
Definition room (n : nat) a : Prop := (Z.of_nat (arena_len a) + Z.of_nat n <= 2 ^ 31)%Z.

Record fstate a I B P X : Prop := {
  as_bodies : field_ok (bodies a) I B;
  as_parents : field_ok (parents a) I P;
  as_links : field_ok (links a) I X;
  as_arena : arena_ok a I;
}.

Lemma arena_ok_perm a I I' : I ≡ₚ I' → arena_ok a I → arena_ok a I'.
Proof. unfold arena_ok. intros Hp. by rewrite Hp. Qed.

Lemma astate_perm a I B P X I' B' P' :
  I ≡ₚ I' → B ≡ₚ B' → P ≡ₚ P' → fstate a I B P X → fstate a I' B' P' X.
Proof.
  intros HI HB HP [Hb Hp Hl Ha]. assert (I ⊆ I') by (intros x; by rewrite HI). split.
  - apply (field_perm _ _ B); [done|]. by apply (field_weaken _ I).
  - apply (field_perm _ _ P); [done|]. by apply (field_weaken _ I).
  - by apply (field_weaken _ I).
  - by apply (arena_ok_perm _ I).
Qed.

Lemma astate_set_body a I i b b' B P X :
  fstate a I ((i, b) :: B) P X → fstate (set_body a i b') I ((i, b') :: B) P X.
Proof. intros [Hb Hp Hl Ha]. split; [by apply (field_set _ _ _ b)|done..]. Qed.

Lemma astate_new_body a I i b B P X :
  i ∈ I → i ∉ B.*1 → fstate a I B P X → fstate (set_body a i b) I ((i, b) :: B) P X.
Proof. intros HI Hi [Hb Hp Hl Ha]. split; [by apply field_new|done..]. Qed.

Lemma astate_set_parent a I i p p' B P X :
  fstate a I B ((i, p) :: P) X → fstate (set_parent a i p') I B ((i, p') :: P) X.
Proof. intros [Hb Hp Hl Ha]. split; [done|by apply (field_set _ _ _ p)|done..]. Qed.

Lemma astate_new_parent a I i p B P X :
  i ∈ I → i ∉ P.*1 → fstate a I B P X → fstate (set_parent a i p) I B ((i, p) :: P) X.
Proof. intros HI Hi [Hb Hp Hl Ha]. split; [done|by apply field_new|done..]. Qed.

Lemma set_parents_eq a cs i :
  set_parents a cs i = arena_with a (bodies a) (foldl (λ m c, <[c := Some i]> m) (parents a) cs) (links a).
Proof.
  unfold set_parents. revert a. induction cs as [|c cs IH]; intros a; [by destruct a|]. cbn [foldl].
  by rewrite IH.
Qed.

Lemma astate_set_parents a I cs p i B P X :
  fstate a I B (List.map (λ c, (c, p)) cs ++ P) X →
  fstate (set_parents a cs i) I B (List.map (λ c, (c, Some i)) cs ++ P) X.
Proof.
  intros [Hb Hp Hl Ha]. rewrite set_parents_eq. split; [done|by apply (field_set_list _ _ _ p)|done..].
Qed.

(** Allocation gives an index of its own. *)
Lemma alloc_node_ok a I B P X :
  room 1 a → fstate a I B P X →
  ∃ i a', alloc_node a = Some (i, a') ∧ i ∉ I ∧ fstate a' (i :: I) B P X ∧
    (∀ n, room (S n) a → room n a').
Proof.
  intros Hroom [Hb Hp Hl (Hn & Hlt & Hcap)]. unfold alloc_node, room in *.
  assert (I ⊆ (I : list nat)) by done.
  destruct (free_list a) as [|i free] eqn:Ef.
  - rewrite app_nil_r in Hn, Hlt. rewrite Forall_forall in Hlt.
    assert (arena_len a ∉ I) as Hfresh by (intros Hi; apply Hlt in Hi; lia).
    assert (∃ cap', (Z.of_nat (arena_len a + 1) <= cap')%Z ∧
      (if (arena_cap a <=? Z.of_nat (arena_len a))%Z then arena_grow a else Some a) =
      Some {| bodies := bodies a; parents := parents a; links := links a; arena_cap := cap';
              arena_len := arena_len a; free_list := free_list a |}) as (cap' & Hcap' & ->).
    { destruct (Z.leb_spec (arena_cap a) (Z.of_nat (arena_len a))).
      - unfold arena_grow, u32_limit, INITIAL_CAP. destruct (Z.eqb_spec (arena_cap a) 0).
        + exists 4%Z. split; [lia|done].
        + destruct (Z.leb_spec (2 ^ 32) (arena_cap a * 2)); [lia|]. eexists. split; [|done]. lia.
      - exists (arena_cap a). split; [lia|]. by destruct a. }
    eexists _, _. split; [reflexivity|]. split; [done|]. split; [|simpl; lia].
    split; simpl; try (eapply field_weaken; [|done]; set_solver).
    unfold arena_ok. simpl. rewrite Ef, app_nil_r. split_and!; [by apply NoDup_cons|..|done].
    constructor; [lia|]. rewrite Forall_forall. intros x Hx. apply Hlt in Hx. lia.
  - eexists _, _. split; [reflexivity|]. rewrite <- Permutation_middle in Hn, Hlt.
    pose proof Hn as Hn'. apply NoDup_cons in Hn' as [Hi _]. split; [set_solver|].
    split; [|simpl; lia].
    split; simpl; try (eapply field_weaken; [|done]; set_solver). done.
Qed.

Lemma free_fields a I i B P X :
  i ∉ B.*1 → i ∉ P.*1 → i ∉ X.*1 → fstate a (i :: I) B P X → fstate (free_node a i) I B P X.
Proof.
  intros HB HP HL [Hb Hp Hl (Hn & Hlt & Hcap)]. split; try (by apply field_delete).
  unfold arena_ok. simpl in *. by rewrite <- Permutation_middle.
Qed.

End arena.

(** The links are those of one chain of leaves. *)
Abbreviation astate a I B P L := (fstate a I B P (chain None L None)).

Lemma free_node_ok {K V} (a : Arena K V) I i B P L :
  i ∉ B.*1 → i ∉ P.*1 → i ∉ L → astate a (i :: I) B P L → astate (free_node a i) I B P L.
Proof. intros HB HP HL. apply free_fields; [done..|]. by rewrite chain_ids. Qed.

(** Reorder the lists of a state. *)
Ltac arrange_parents Hs P' :=
  lazymatch type of Hs with
  | fstate ?a ?I ?B ?P ?X =>
      let HP := fresh in
      assert (P ≡ₚ P') as HP;
      [|apply (astate_perm _ _ _ _ _ _ _ _ (reflexivity I) (reflexivity B) HP) in Hs; clear HP]
  end.

Ltac arrange_bodies Hs B' :=
  lazymatch type of Hs with
  | fstate ?a ?I ?B ?P ?X =>
      let HB := fresh in
      assert (B ≡ₚ B') as HB;
      [|apply (astate_perm _ _ _ _ _ _ _ _ (reflexivity I) HB (reflexivity P)) in Hs; clear HB]
  end.

(** ** The tree an engine holds *)

Section rep.
Context {K V : Type} `{OrdLaws K} {MK : MinKeys} (key_size val_size : nat).
Abbreviation tree := (tree K V).
Abbreviation frame := (frame K V).
Abbreviation shape := (shape key_size val_size).
Implicit Types (a : Arena K V) (t : RawBTree K V) (g : tree) (fs : list frame) (f : frame).

Record holds t g : Prop := {
  h_state : astate (arena t) (ids g) (tbodies g) (tparents None g) (leaves g);
  h_root : root t = Some (tid g);
  h_first : first_leaf t = head (leaves g);
  h_last : last_leaf t = last (leaves g);
  h_len : len t = length (entries g);
}.

(** The invariant of a tree that is not empty. *)
Definition repr t g : Prop := holds t g ∧ shape (height t) None None g.

(** The parents of all nodes but the root. *)
Definition tsub g : list (nat * option nat) :=
  match g with TLeaf _ _ => [] | TNode i _ cs => List.flat_map (tparents (Some i)) cs end.

Lemma tparents_root p g : tparents p g = (tid g, p) :: tsub g.
Proof using Type. by destruct g. Qed.

Lemma flat_tparents p cs :
  List.flat_map (tparents p) cs ≡ₚ List.map (λ c, (c, p)) (List.map (@tid K V) cs) ++ List.flat_map tsub cs.
Proof using Type.
  induction cs as [|c cs IH]; [done|]. cbn [List.flat_map List.map app]. rewrite IH, tparents_root.
  solve_Permutation.
Qed.

Definition node_body g : Body K V :=
  match g with TLeaf _ kvs => LeafBody kvs | TNode _ ks cs => InternalBody ks (List.map tid cs) end.

Lemma node_body_in g : (tid g, node_body g) ∈ tbodies g.
Proof using Type. destruct g; by left. Qed.

(** The index of the root of a plugged tree. *)
Lemma tid_plug fs g : tid (plug fs g) = default (tid g) (last (f_id <$> fs)).
Proof using Type.
  revert g. induction fs as [|f fs IH]; intros g; [done|]. rewrite plug_cons, IH, fill_id.
  rewrite fmap_cons, last_cons. by destruct (last _).
Qed.

Lemma default_last_cons (d x : nat) l : default d (last (x :: l)) = default x (last l).
Proof using Type. rewrite last_cons. by destruct (last l). Qed.

(** The parts of an engine around a hole. *)
Lemma holds_plug t fs g :
  holds t (plug fs g) ↔
  astate (arena t) (cids fs ++ ids g) (cbodies fs (tid g) ++ tbodies g)
    (cparents fs ++ tparents (parent_of fs) g) (lleaves fs ++ leaves g ++ rleaves fs) ∧
  root t = Some (tid (plug fs g)) ∧ first_leaf t = head (lleaves fs ++ leaves g ++ rleaves fs) ∧
  last_leaf t = last (lleaves fs ++ leaves g ++ rleaves fs) ∧
  len t = length (lentries fs ++ entries g ++ rentries fs).
Proof using Type.
  rewrite <- leaves_plug, <- entries_plug. split.
  - intros [Hs Hr Hf Hl Hlen]. split_and!; [|done..].
    by apply (astate_perm _ _ _ _ _ _ _ _ (ids_plug fs g) (tbodies_plug fs g) (tparents_plug fs g)).
  - intros (Hs & ? & ? & ? & ?). split; [|done..].
    eapply astate_perm; [| | |exact Hs]; symmetry; [apply ids_plug|apply tbodies_plug|apply tparents_plug].
Qed.

Lemma hole_state t fs g :
  holds t (plug fs g) →
  astate (arena t) (cids fs ++ ids g) (cbodies fs (tid g) ++ tbodies g)
    (cparents fs ++ tparents (parent_of fs) g) (lleaves fs ++ leaves g ++ rleaves fs).
Proof using Type. intros Ht. by apply holds_plug in Ht as [? _]. Qed.

Lemma hole_nodup t fs g : holds t (plug fs g) → NoDup (cids fs ++ ids g).
Proof using Type.
  intros Ht. destruct (as_arena _ _ _ _ _ (hole_state _ _ _ Ht)) as [Hn _]. by apply NoDup_app in Hn as [? _]. Qed.

Lemma hole_body t fs g : holds t (plug fs g) → bodies (arena t) !! tid g = Some (node_body g).
Proof using Type.
  intros Ht. eapply field_get; [|apply (as_bodies _ _ _ _ _ (hole_state _ _ _ Ht))]. apply elem_of_app. right. apply node_body_in.
Qed.

Lemma hole_parent t fs g : holds t (plug fs g) → parents (arena t) !! tid g = Some (parent_of fs).
Proof using Type.
  intros Ht. eapply field_get; [|apply (as_parents _ _ _ _ _ (hole_state _ _ _ Ht))]. apply elem_of_app. right.
  rewrite tparents_root. by left.
Qed.

Lemma hole_frame t f fs g :
  holds t (plug (f :: fs) g) →
  bodies (arena t) !! f_id f = Some (InternalBody (f_lkeys f ++ f_rkeys f)
    (List.map tid (f_left f) ++ tid g :: List.map tid (f_right f))).
Proof using Type.
  intros Ht. eapply field_get; [|apply (as_bodies _ _ _ _ _ (hole_state _ _ _ Ht))]. apply elem_of_app. left. by left.
Qed.

(** The position of a child among its siblings. *)
Lemma child_slot_at (l r : list nat) x dflt : x ∉ l → child_slot (l ++ x :: r) x dflt = length l.
Proof using Type.
  intros Hx. unfold child_slot. assert (find_index (λ c, c =? x) (l ++ x :: r) = length l) as ->.
  { apply find_index_unique.
    - rewrite length_app. lia.
    - intros j y Hj Hlt. apply Nat.eqb_neq. intros ->. rewrite lookup_app_l in Hj by done.
      by apply list_elem_of_lookup_2 in Hj.
    - intros y. rewrite list_lookup_middle by done. intros [= <-]. apply Nat.eqb_refl. }
  rewrite length_app. cbn [length]. destruct (Nat.ltb_spec (length l) (length l + S (length r))); [done|lia].
Qed.

Lemma not_left_sibling f fs g J :
  NoDup (cids (f :: fs) ++ ids g ++ J) → tid g ∉ List.map (@tid K V) (f_left f).
Proof using Type.
  intros Hn Hin. apply NoDup_app in Hn as (_ & Hn & _). apply (Hn (tid g)).
  - cbn [cids]. rewrite elem_of_cons, !elem_of_app. right; left.
    apply list_elem_of_In, List.in_map_iff in Hin as (c & Hc & Hin). rewrite <- Hc.
    apply list_elem_of_In, List.in_flat_map. exists c. split; [done|]. apply list_elem_of_In, tid_in_ids.
  - apply elem_of_app. left. apply tid_in_ids.
Qed.

Lemma hole_slot t f fs g dflt :
  holds t (plug (f :: fs) g) →
  child_slot (List.map tid (f_left f) ++ tid g :: List.map tid (f_right f)) (tid g) dflt = length (f_left f).
Proof using Type.
  intros Ht. rewrite child_slot_at, length_map; [done|].
  apply (not_left_sibling f fs g []). rewrite app_nil_r. apply (hole_nodup _ _ _ Ht).
Qed.
End rep.

(** ** The keys of the internal nodes *)

Section skeleton.
Context {K V : Type} `{OrdLaws K} {MK : MinKeys} (key_size val_size : nat).
Implicit Types (a : Arena K V) (t : RawBTree K V) (g : tree K V).

(** The nodes of the tree, whatever the leaves hold. *)
Fixpoint skeleton a (n : nat) g {struct g} : Prop :=
  match g, n with
  | TLeaf i _, _ => is_Some (leaf_kvs a i)
  | TNode _ _ _, 0 => False
  | TNode i ks cs, S n' =>
      bodies a !! i = Some (InternalBody ks (List.map tid cs)) ∧ length cs = S (length ks) ∧
      Forall id (List.map (skeleton a n') cs)
  end.

Lemma drop_internal_keys_ok a n g fuel :
  skeleton a n g → n < fuel → drop_internal_keys fuel a (tid g) = Some (tkeys g).
Proof using Type.
  revert n fuel. induction g as [i kvs|i ks cs IH] using tree_ind_strong; intros n fuel Hs Hf.
  - destruct fuel as [|fuel]; [lia|]. cbn in *. destruct Hs as [x Hx]. unfold leaf_kvs in Hx.
    by destruct (bodies a !! i) as [[]|].
  - destruct n as [|n]; [done|]. destruct fuel as [|fuel]; [lia|]. destruct Hs as (Hb & Hlen & Hcs).
    cbn [drop_internal_keys tid tkeys]. rewrite Hb.
    assert (mapM (λ j, do child <- List.map tid cs !! j; drop_internal_keys fuel a child) (seq 0 (S (length ks))) =
      Some (List.map tkeys cs)) as ->; [|cbn; by rewrite List.flat_map_concat_map].
    apply mapM_Some. rewrite <- Hlen. clear Hb Hlen.
    assert (∀ pre, Forall2 (λ j y, (do child <- List.map tid (pre ++ cs) !! j; drop_internal_keys fuel a child) = Some y)
      (seq (length pre) (length cs)) (List.map tkeys cs)) as Hgen; [|apply (Hgen [])].
    induction IH as [|c cs Hc _ IH']; intros pre; [constructor|]. cbn in Hcs. apply Forall_cons in Hcs as [Hc' Hcs].
    cbn [length seq List.map]. constructor.
    + rewrite List.map_app. cbn [List.map]. rewrite lookup_app_r by (by rewrite length_map). rewrite length_map, Nat.sub_diag. cbn.
      apply (Hc n); [done|lia].
    + specialize (IH' Hcs (pre ++ [c])). rewrite <- app_assoc, length_app, Nat.add_1_r in IH'. exact IH'.
Qed.

Lemma shape_skeleton a n lo hi g :
  Forall (λ e, bodies a !! e.1 = Some e.2) (tbodies g) → shape key_size val_size n lo hi g → skeleton a n g.
Proof using Type.
  revert n lo hi. induction g as [i kvs|i ks cs IH] using tree_ind_strong; intros n lo hi Hb Hs.
  - cbn [tbodies] in Hb. apply Forall_cons in Hb as [Hb _]. cbn in *. unfold leaf_kvs. by rewrite Hb.
  - destruct n as [|n]; [done|]. cbn [tbodies] in Hb. apply Forall_cons in Hb as [Hb Hcs]. destruct Hs as (_ & Hs).
    cbn [skeleton]. split_and!; [done|by apply seps_length in Hs|]. clear Hb. revert lo ks Hs.
    induction IH as [|c cs Hc _ IH']; intros lo ks Hs; [constructor|]. cbn [List.flat_map] in Hcs.
    apply Forall_app in Hcs as [Hb Hcs]. cbn [List.map]. destruct ks as [|k ks]; cbn in Hs.
    + destruct cs; [|done]. constructor; [by eapply Hc|constructor].
    + destruct Hs as [Hs Hss]. constructor; [by eapply Hc|by eapply IH'].
Qed.

Lemma repr_internal_keys t g : repr key_size val_size t g → internal_keys t = Some (tkeys g).
Proof using Type.
  intros [Hh Hs]. unfold internal_keys. rewrite (h_root _ _ Hh).
  apply (drop_internal_keys_ok _ (height t)); [|lia]. apply (shape_skeleton _ _ None None); [|done].
  by destruct (as_bodies _ _ _ _ _ (h_state _ _ Hh)) as (_ & _ & ?).
Qed.
End skeleton.
