(* ===== verification/SortedAssoc.v ===== *)
(** * Ordered maps as sorted association lists

    The abstract specification of the B+ tree: the list of its entries in key
    order, with lookup, insertion and deletion, the laws that make it a map,
    and how the operations act at a given place of the list. *)

From Stdlib Require Import Lia.
From stdpp Require Import sorting.
From S2P Require Import Prelude BinSearch.

(** ** Bounds of a range: [std::ops::Bound] *)

Inductive Bound (K : Type) := Included (key : K) | Excluded (key : K) | Unbounded.
Arguments Included {K}.
Arguments Excluded {K}.
Arguments Unbounded {K}.

Section bounds.
Context {K : Type} `{Ord K}.
Implicit Types (key : K).

(** Membership in a range. *)
Definition in_bounds (start_bound end_bound : Bound K) key : bool :=
  match start_bound with Included k => leb k key | Excluded k => ltb k key | Unbounded => true end &&
  match end_bound with Included k => leb key k | Excluded k => ltb key k | Unbounded => true end.

(** The start of a range is not behind its end. *)
Definition bounds_ordered (start_bound end_bound : Bound K) : Prop :=
  match start_bound, end_bound with
  | Unbounded, _ | _, Unbounded => True
  | Excluded a, Excluded b => klt a b
  | Included a, Included b | Included a, Excluded b | Excluded a, Included b => kle a b
  end.
End bounds.

Section assoc.
Context {K V : Type} `{OrdLaws K}.
Implicit Types (l : list (K * V)) (key : K) (v : V).

Definition sorted_map l : Prop := sorted_keys l.*1.

Fixpoint sm_lookup l key : option V :=
  match l with
  | [] => None
  | (k, v) :: l' => match cmp key k with Eq => Some v | _ => sm_lookup l' key end
  end.

Fixpoint sm_insert l key v : list (K * V) :=
  match l with
  | [] => [(key, v)]
  | (k, w) :: l' =>
      match cmp key k with
      | Lt => (key, v) :: l
      | Eq => (k, v) :: l'
      | Gt => (k, w) :: sm_insert l' key v
      end
  end.

Fixpoint sm_delete l key : list (K * V) :=
  match l with
  | [] => []
  | (k, w) :: l' => match cmp key k with Eq => l' | _ => (k, w) :: sm_delete l' key end
  end.

(** The entries from a key on, and those below it. *)
Definition sm_from l key : list (K * V) := List.filter (λ e, leb key e.1) l.
Definition sm_to l key : list (K * V) := List.filter (λ e, ltb e.1 key) l.

(** ** At a place of the list *)

Definition all_below key l : Prop := Forall (λ k, klt k key) l.*1.
Definition all_above key l : Prop := Forall (klt key) l.*1.

Lemma all_below_cons key k v l : all_below key ((k, v) :: l) ↔ klt k key ∧ all_below key l.
Proof. unfold all_below. by rewrite fmap_cons, Forall_cons. Qed.

Lemma all_above_cons key k v l : all_above key ((k, v) :: l) ↔ klt key k ∧ all_above key l.
Proof. unfold all_above. by rewrite fmap_cons, Forall_cons. Qed.

Lemma all_below_app key l1 l2 : all_below key (l1 ++ l2) ↔ all_below key l1 ∧ all_below key l2.
Proof. unfold all_below. by rewrite fmap_app, Forall_app. Qed.

Lemma all_above_app key l1 l2 : all_above key (l1 ++ l2) ↔ all_above key l1 ∧ all_above key l2.
Proof. unfold all_above. by rewrite fmap_app, Forall_app. Qed.

Lemma cmp_gt key k : klt k key → cmp key k = Gt.
Proof using Type*. unfold klt. intros Hlt. by rewrite (cmp_opp k key), Hlt. Qed.

Lemma sm_lookup_above key l : all_above key l → sm_lookup l key = None.
Proof using Type*.
  induction l as [|[k v] l IH]; [done|]. rewrite all_above_cons. intros [Hk Hl]. simpl.
  rewrite (Hk : cmp key k = Lt). by apply IH.
Qed.

Lemma sm_lookup_skip key l1 l2 : all_below key l1 → sm_lookup (l1 ++ l2) key = sm_lookup l2 key.
Proof using Type*.
  induction l1 as [|[k v] l1 IH]; [done|]. rewrite all_below_cons. intros [Hk Hl]. simpl.
  rewrite (cmp_gt _ _ Hk). by apply IH.
Qed.

Lemma sm_insert_skip key v l1 l2 : all_below key l1 → sm_insert (l1 ++ l2) key v = l1 ++ sm_insert l2 key v.
Proof using Type*.
  induction l1 as [|[k w] l1 IH]; [done|]. rewrite all_below_cons. intros [Hk Hl]. simpl.
  rewrite (cmp_gt _ _ Hk). by rewrite IH.
Qed.

Lemma sm_delete_skip key l1 l2 : all_below key l1 → sm_delete (l1 ++ l2) key = l1 ++ sm_delete l2 key.
Proof using Type*.
  induction l1 as [|[k w] l1 IH]; [done|]. rewrite all_below_cons. intros [Hk Hl]. simpl.
  rewrite (cmp_gt _ _ Hk). by rewrite IH.
Qed.

(** Where the key is absent. *)
Lemma sm_absent key v l1 l2 :
  all_below key l1 → all_above key l2 →
  sm_lookup (l1 ++ l2) key = None ∧ sm_insert (l1 ++ l2) key v = l1 ++ (key, v) :: l2 ∧
  sm_delete (l1 ++ l2) key = l1 ++ l2.
Proof using Type*.
  intros H1 H2. rewrite sm_lookup_skip, sm_insert_skip, sm_delete_skip by done.
  split_and!; [by apply sm_lookup_above|..].
  - destruct l2 as [|[k w] l2]; [done|]. apply all_above_cons in H2 as [Hk _]. simpl.
    by rewrite (Hk : cmp key k = Lt).
  - f_equal. induction l2 as [|[k w] l2 IH]; [done|]. apply all_above_cons in H2 as [Hk H2]. simpl.
    rewrite (Hk : cmp key k = Lt). by rewrite IH.
Qed.

(** Where it is present. *)
Lemma sm_present key v w l1 l2 :
  all_below key l1 →
  sm_lookup (l1 ++ (key, w) :: l2) key = Some w ∧
  sm_insert (l1 ++ (key, w) :: l2) key v = l1 ++ (key, v) :: l2 ∧
  sm_delete (l1 ++ (key, w) :: l2) key = l1 ++ l2.
Proof using Type*.
  intros H1. rewrite sm_lookup_skip, sm_insert_skip, sm_delete_skip by done. simpl. by rewrite cmp_refl.
Qed.

(** Every sorted list splits at a key. *)
Lemma sorted_split l key :
  sorted_map l →
  ∃ l1 l2, all_below key l1 ∧ all_above key l2 ∧ (l = l1 ++ l2 ∨ ∃ v, l = l1 ++ (key, v) :: l2).
Proof using Type*.
  unfold sorted_map. induction l as [|[k v] l IH]; intros Hs; [exists [], []; split_and!; [constructor..|by left]|].
  rewrite fmap_cons in Hs. inversion Hs as [|? ? Hs' Hk]; subst. destruct (cmp key k) eqn:E.
  - apply cmp_eq in E as ->. exists [], l. split_and!; [constructor|done|]. right. by exists v.
  - exists [], ((k, v) :: l). split_and!; [constructor| |by left]. apply all_above_cons. split; [done|].
    unfold all_above. apply (Forall_impl _ _ _ Hk). intros x Hx. by transitivity k.
  - destruct (IH Hs') as (l1 & l2 & H1 & H2 & Hl). exists ((k, v) :: l1), l2. split_and!; [|done|].
    + apply all_below_cons. split; [|done]. unfold klt. by rewrite (cmp_opp key k), E.
    + destruct Hl as [->|[w ->]]; [by left|right; by exists w].
Qed.

Lemma sorted_middle l1 k v l2 :
  sorted_map (l1 ++ (k, v) :: l2) → all_below k l1 ∧ all_above k l2 ∧ sorted_map (l1 ++ l2).
Proof using Type*.
  unfold sorted_map, sorted_keys. induction l1 as [|[k1 v1] l1 IH]; csimpl; intros Hs;
    inversion Hs as [|? ? Hs' Hk]; subst.
  - split_and!; [constructor|done|done].
  - apply IH in Hs' as (H1 & H2 & H3). rewrite fmap_app, fmap_cons in Hk.
    apply Forall_app in Hk as [Hk1 Hk2]. apply Forall_cons in Hk2 as [Hk Hk2].
    split_and!; [by apply all_below_cons|done|]. constructor; [done|]. rewrite fmap_app. by apply Forall_app.
Qed.

Lemma sorted_extend l1 k v l2 :
  sorted_map (l1 ++ l2) → all_below k l1 → all_above k l2 → sorted_map (l1 ++ (k, v) :: l2).
Proof using Type*.
  unfold sorted_map, sorted_keys. induction l1 as [|[k1 v1] l1 IH]; csimpl; intros Hs H1 H2.
  - by constructor.
  - inversion Hs as [|? ? Hs' Hk]; subst. apply all_below_cons in H1 as [Hlt H1]. constructor; [by apply IH|].
    rewrite fmap_app in Hk |- *. apply Forall_app in Hk as [Hk1 Hk2]. apply Forall_app.
    split; [done|]. rewrite fmap_cons. by constructor.
Qed.

(** ** The laws of maps *)

Lemma sm_insert_sorted l key v : sorted_map l → sorted_map (sm_insert l key v).
Proof using Type*.
  intros Hs. destruct (sorted_split l key Hs) as (l1 & l2 & H1 & H2 & [->|[w ->]]).
  - destruct (sm_absent key v l1 l2 H1 H2) as (_ & -> & _). by apply sorted_extend.
  - destruct (sm_present key v w l1 l2 H1) as (_ & -> & _). apply sorted_middle in Hs as (? & ? & ?).
    by apply sorted_extend.
Qed.

Lemma sm_delete_sorted l key : sorted_map l → sorted_map (sm_delete l key).
Proof using Type*.
  intros Hs. destruct (sorted_split l key Hs) as (l1 & l2 & H1 & H2 & [->|[w ->]]).
  - destruct l2 as [|[k w] l2'].
    + rewrite app_nil_r in *. rewrite <- (app_nil_r l1), (sm_delete_skip key l1 []) by done.
      simpl. by rewrite app_nil_r.
    + by destruct (sm_absent key w l1 ((k, w) :: l2') H1 H2) as (_ & _ & ->).
  - destruct (sm_present key w w l1 l2 H1) as (_ & _ & ->). by apply sorted_middle in Hs as (? & ? & ?).
Qed.

Lemma sm_lookup_insert l key v key' :
  sorted_map l → sm_lookup (sm_insert l key v) key' = if bool_decide (cmp key' key = Eq) then Some v else sm_lookup l key'.
Proof using Type*.
  intros _. induction l as [|[k w] l IH]; simpl.
  - destruct (cmp key' key) eqn:E; by rewrite ?bool_decide_eq_true_2, ?bool_decide_eq_false_2 by congruence.
  - destruct (cmp key k) eqn:E; simpl.
    + apply cmp_eq in E as ->. destruct (cmp key' k) eqn:E'; case_bool_decide; congruence.
    + destruct (cmp key' key) eqn:E'; case_bool_decide; congruence.
    + rewrite IH. destruct (cmp key' k) eqn:E'; [|done..]. apply cmp_eq in E' as ->.
      rewrite bool_decide_eq_false_2; [done|]. intros ->%cmp_eq. by rewrite cmp_refl in E.
Qed.

Lemma sm_lookup_delete l key key' :
  sorted_map l → sm_lookup (sm_delete l key) key' = if bool_decide (cmp key' key = Eq) then None else sm_lookup l key'.
Proof using Type*.
  intros Hs. case_bool_decide as E.
  - apply cmp_eq in E as ->. destruct (sorted_split l key Hs) as (l1 & l2 & H1 & H2 & Hl).
    assert (sm_delete l key = l1 ++ l2) as ->.
    { destruct Hl as [->|[w ->]]; [|by apply (sm_present key w w)]. rewrite sm_delete_skip by done. f_equal.
      clear -H0 H2. induction l2 as [|[k w] l2 IH]; [done|]. apply all_above_cons in H2 as [Hk H2]. simpl.
      rewrite (Hk : cmp key k = Lt). by rewrite IH. }
    rewrite sm_lookup_skip by done. by apply sm_lookup_above.
  - clear Hs. induction l as [|[k w] l IH]; [done|]. simpl. destruct (cmp key k) eqn:Ek; simpl.
    + apply cmp_eq in Ek as ->. by destruct (cmp key' k).
    + by rewrite IH.
    + by rewrite IH.
Qed.

Lemma sm_delete_absent l key : sorted_map l → sm_lookup l key = None → sm_delete l key = l.
Proof using Type*.
  intros Hs Hn. destruct (sorted_split l key Hs) as (l1 & l2 & H1 & H2 & [->|[w ->]]).
  - clear -Hn. revert Hn. induction (l1 ++ l2) as [|[k v] l IH]; [done|]. simpl.
    destruct (cmp key k); [done|intros Hn; f_equal; by apply IH..].
  - by rewrite (proj1 (sm_present key w w l1 l2 H1)) in Hn.
Qed.

(** Two sorted lists with the same lookups are equal. *)
Lemma sorted_map_ext l l' :
  sorted_map l → sorted_map l' → (∀ key, sm_lookup l key = sm_lookup l' key) → l = l'.
Proof using Type*.
  unfold sorted_map. revert l'. induction l as [|[k v] l IH]; intros [|[k' v'] l'] Hs Hs' Heq.
  - done.
  - specialize (Heq k'). simpl in Heq. by rewrite cmp_refl in Heq.
  - specialize (Heq k). simpl in Heq. by rewrite cmp_refl in Heq.
  - rewrite fmap_cons in Hs, Hs'. inversion Hs as [|? ? Hsl Hk]; subst. inversion Hs' as [|? ? Hsl' Hk']; subst.
    assert (k = k') as ->.
    { pose proof (Heq k) as H1. pose proof (Heq k') as H2. simpl in H1, H2. rewrite cmp_refl in H1, H2.
      destruct (cmp k k') eqn:E; [by apply cmp_eq| |].
      - rewrite (sm_lookup_above k l') in H1; [done|]. apply (Forall_impl _ _ _ Hk'). intros x Hx. by transitivity k'.
      - rewrite (cmp_opp k k'), E in H2. simpl in H2. rewrite (sm_lookup_above k' l) in H2; [done|].
        apply (Forall_impl _ _ _ Hk). intros x Hx. transitivity k; [|done]. unfold klt.
        by rewrite (cmp_opp k k'), E. }
    f_equal.
    + specialize (Heq k'). simpl in Heq. rewrite cmp_refl in Heq. congruence.
    + apply IH; [done|done|]. intros key. specialize (Heq key). simpl in Heq.
      destruct (cmp key k') eqn:E; [|done..]. apply cmp_eq in E as ->.
      by rewrite !sm_lookup_above.
Qed.
End assoc.
