(* ===== verification/BTreeSearch.v ===== *)
(** * The B+ tree engine: search

    A descent ends at the leaf whose bounds enclose the target; what [search],
    [get], [lower_bound] and the walks that record a path return. *)

From Stdlib Require Import ZArith Lia.
From stdpp Require Import sorting.
From S2P Require Import Prelude BTree BTreeInv BTreeShape BTreeRep SortedAssoc.

Section descend.
Context {K V : Type} `{OrdLaws K} {MK : MinKeys} (key_size val_size : nat).
Abbreviation tree := (tree K V).
Abbreviation frame := (frame K V).
Abbreviation shape := (shape key_size val_size).
Abbreviation cshape := (cshape key_size val_size).
Implicit Types (a : Arena K V) (t : RawBTree K V) (g : tree) (fs : list frame) (f : frame)
  (lo hi : option K) (p : K → bool).

(** The recorded path of a hole. *)
Definition path_of fs : PathBuf := List.map (λ f, (f_id f, length (f_left f))) fs.

(** The keys of a node are sorted and above its lower bound. *)
Lemma seps_sorted n lo ks (cs : list tree) hi :
  seps (shape n) lo ks cs hi → sorted_keys ks ∧ Forall (λ k, lt_bound lo (Some k)) ks.
Proof using Type*.
  revert lo cs. induction ks as [|k ks IH]; intros lo [|c cs]; simpl; try done; [by split; constructor|].
  intros [Hc Hs]. apply shape_lt in Hc. apply IH in Hs as [Hs Hf]. split; [by constructor|].
  constructor; [done|]. apply (Forall_impl _ _ _ Hf). intros x Hx. destruct lo; [|done]. simpl in *.
  by transitivity k.
Qed.

(** The hole at a child of a node. *)
Lemma child_zip n i ks cs fs lo hi j :
  shape (S n) lo hi (TNode i ks cs) → cshape (S n) fs lo hi → j <= length ks →
  ∃ f c, cs !! j = Some c ∧ TNode i ks cs = fill f [c] [] ∧ f_id f = i ∧ length (f_left f) = j ∧
    f_lkeys f = take j ks ∧ f_rkeys f = drop j ks ∧ f_left f = take j cs ∧ f_right f = drop (S j) cs ∧
    cshape n (f :: fs) (last_bound lo (take j ks)) (head_bound (drop j ks) hi) ∧
    shape n (last_bound lo (take j ks)) (head_bound (drop j ks) hi) c.
Proof using Type.
  intros [Hlen Hs] Hfs Hj. pose proof (seps_length _ _ _ _ _ Hs) as Hcs.
  destruct (lookup_lt_is_Some_2 cs j) as [c Hc]; [lia|].
  exists {| f_id := i; f_lkeys := take j ks; f_left := take j cs; f_rkeys := drop j ks; f_right := drop (S j) cs |}, c.
  rewrite <- (take_drop j ks), <- (take_drop_middle _ _ _ Hc) in Hs.
  change (c :: drop (S j) cs) with ([c] ++ drop (S j) cs) in Hs.
  apply (seps_hole _ lo (take j ks) [] (drop j ks) (take j cs) [c] (drop (S j) cs) hi) in Hs as (Hl & Hc' & Hr).
  - split_and!; [done|..|done].
    + unfold fill. cbn. by rewrite take_drop, (take_drop_middle _ _ _ Hc).
    + done.
    + cbn. rewrite length_take. lia.
    + done.
    + done.
    + done.
    + done.
    + exists lo, hi. cbn [f_lkeys f_left f_rkeys f_right]. split_and!; try done.
      * rewrite length_take, length_drop. lia.
      * rewrite length_take, length_drop. lia.
  - rewrite !length_take. lia.
  - done.
  - rewrite !length_drop. lia.
Qed.

(** The bounds of a hole enclose the boundary of [p]. *)
Definition encloses p lo hi : Prop :=
  (∀ l, lo = Some l → p l = false) ∧ (∀ h, hi = Some h → p h = true).

Lemma encloses_child p lo hi ks j :
  encloses p lo hi → find_index p ks = j →
  encloses p (last_bound lo (take j ks)) (head_bound (drop j ks) hi).
Proof using Type.
  intros [Hlo Hhi] Hj. pose proof (find_index_le p ks). split.
  - intros l. unfold last_bound. destruct (last (take j ks)) as [k|] eqn:E; [|apply Hlo].
    intros [= <-]. rewrite last_lookup, length_take in E.
    rewrite lookup_take_Some in E. destruct E as [E Hlt].
    apply (find_index_before p ks _ _ E). lia.
  - intros h. unfold head_bound. destruct (drop j ks) as [|k ks'] eqn:E; [apply Hhi|].
    intros [= <-]. apply (find_index_at p ks). rewrite Hj, <- (Nat.add_0_r j), <- lookup_drop, E. done.
Qed.

(** The descent at a node ends at a leaf whose bounds enclose the boundary. *)
Lemma descend_zip (a : Arena K V) p n fs lo hi g :
  agrees (bodies a) (tbodies g) → cshape n fs lo hi → shape n lo hi g → encloses p lo hi →
  ∃ fs' i kvs lo' hi',
    (∀ choose, (∀ ks, sorted_keys ks → choose ks = Some (find_index p ks)) →
       descend a choose n (tid g) = Some i) ∧
    plug fs g = plug fs' (TLeaf i kvs) ∧
    cshape 0 fs' lo' hi' ∧ shape 0 lo' hi' (TLeaf i kvs) ∧ encloses p lo' hi' ∧
    length fs' = n + length fs ∧
    (∀ key, p = (λ k, ltb key k) → length fs' <= MAX_PATH_HEIGHT →
       descend_path a key n (tid g) (path_of fs) = Some (i, path_of fs')).
Proof using Type*.
  intros Ha Hfs Hg Hp. revert fs lo hi g Ha Hfs Hg Hp. induction n as [|n IH]; intros fs lo hi g Ha Hfs Hg Hp.
  { destruct g as [i kvs|]; [|done]. exists fs, i, kvs, lo, hi. done. }
  destruct g as [|i ks cs]; [done|]. destruct Hg as [Hlen Hs] eqn:Eg. clear Eg.
  pose proof (seps_sorted _ _ _ _ _ Hs) as [Hks _].
  destruct (child_zip n i ks cs fs lo hi (find_index p ks)) as (f & c & Hc & Heq & Hid & Hleft & _ & _ & _ & _ & Hfs' & Hc');
    [done|done|apply find_index_le|].
  cbn [tbodies] in Ha. apply agrees_cons in Ha as [Hi Ha].
  assert (agrees (bodies a) (tbodies c)) as Hac.
  { unfold agrees in *. rewrite Forall_forall in Ha |- *. intros e He. apply Ha.
    apply list_elem_of_In, List.in_flat_map. exists c.
    split; apply list_elem_of_In; [by eapply list_elem_of_lookup_2|done]. }
  destruct (IH _ _ _ _ Hac Hfs' Hc') as (fs' & i' & kvs & lo' & hi' & Hd & Hpl & Hc0 & Hl & He & Hn & Hpath);
    [by apply encloses_child|].
  assert (List.map tid cs !! find_index p ks = Some (tid c)) as Hci.
  { change (List.map tid cs) with (tid <$> cs). by rewrite list_lookup_fmap, Hc. }
  exists fs', i', kvs, lo', hi'. cbn [tid descend descend_path]. unfold internal_node. rewrite Hi.
  split_and!; [intros choose Hch; rewrite (Hch ks Hks), Hci; by apply Hd| |done|done|done|cbn [length] in Hn; lia|].
  - rewrite Heq. by rewrite <- plug_cons.
  - intros key -> Hmax. specialize (Hpath key eq_refl Hmax). unfold path_push.
    destruct (Nat.ltb_spec (length (path_of fs)) MAX_PATH_HEIGHT) as [_|Hge].
    + rewrite Hci. cbn [path_of List.map] in Hpath. by rewrite Hid, Hleft in Hpath.
    + unfold path_of in Hge. rewrite length_map in Hge. cbn [length] in Hn. lia.
Qed.
(** ** The entries around a hole *)

Lemma lseps_below n lo ks (cs : list tree) b :
  lseps (shape n) lo ks cs → last_bound lo ks = Some b →
  Forall (λ k, klt k b) (List.flat_map entries cs).*1 ∧ (∀ l, lo = Some l → kle l b).
Proof using Type*.
  revert lo cs. induction ks as [|k ks IH]; intros lo [|c cs]; try done.
  - intros _ Hb. split; [constructor|]. intros l ->. cbn in Hb. simplify_eq. apply kle_refl.
  - cbn [lseps]. rewrite last_bound_cons. intros [Hc Hs] Hb. destruct (IH _ _ Hs Hb) as [Hall Hle].
    specialize (Hle k eq_refl). cbn [List.flat_map]. rewrite fmap_app. split.
    + apply Forall_app. split; [|done]. apply shape_entries in Hc as [_ Hc].
      apply (Forall_impl _ _ _ Hc). intros x [_ Hx]. by apply (klt_kle_trans x k).
    + intros l ->. apply shape_lt in Hc. cbn in Hc. by apply klt_kle, (klt_kle_trans l k).
Qed.

Lemma rseps_above n ks (cs : list tree) hi b :
  rseps (shape n) ks cs hi → head_bound ks hi = Some b →
  Forall (kle b) (List.flat_map entries cs).*1 ∧ (∀ h, hi = Some h → kle b h).
Proof using Type*.
  revert cs b. induction ks as [|k ks IH]; intros [|c cs] b; try done.
  - intros _ Hb. split; [constructor|]. intros h ->. cbn in Hb. simplify_eq. apply kle_refl.
  - cbn [rseps head_bound]. intros [Hc Hs] Hb. simplify_eq.
    assert (∀ b', head_bound ks hi = Some b' → klt b b') as Hlt.
    { intros b' Hb'. apply shape_lt in Hc. by rewrite Hb' in Hc. }
    cbn [List.flat_map]. rewrite fmap_app. split.
    + apply Forall_app. split.
      * apply shape_entries in Hc as [_ Hc]. apply (Forall_impl _ _ _ Hc). by intros x [Hx _].
      * destruct ks as [|k' ks]; [by destruct cs|]. destruct (IH cs k' Hs eq_refl) as [Hall _].
        apply (Forall_impl _ _ _ Hall). intros x Hx. transitivity k'; [|done]. by apply klt_kle, Hlt.
    + intros h ->. destruct ks as [|k' ks]; [by apply klt_kle, Hlt|].
      destruct (IH cs k' Hs eq_refl) as [_ Hh]. transitivity k'; [by apply klt_kle, Hlt|by apply Hh].
Qed.

(** What lies left of a hole is below its lower bound, what lies right of it
    not below its upper bound. *)
Lemma cshape_entries n fs lo hi :
  cshape n fs lo hi →
  Forall (λ k, ∃ b, lo = Some b ∧ klt k b) (lentries fs).*1 ∧
  Forall (λ k, ∃ b, hi = Some b ∧ kle b k) (rentries fs).*1.
Proof using Type*.
  revert n lo hi. induction fs as [|f fs IH]; intros n lo hi; [by split; constructor|].
  intros (flo & fhi & -> & -> & Hl & Hr & _ & Hfs). destruct (IH _ _ _ Hfs) as [Hle Hre].
  cbn [lentries rentries]. rewrite !fmap_app, !Forall_app. split_and!.
  - apply (Forall_impl _ _ _ Hle). intros k (b & -> & Hk).
    destruct (last_bound (Some b) (f_lkeys f)) as [b'|] eqn:E.
    + exists b'. split; [done|]. apply (klt_kle_trans k b); [done|]. by apply (lseps_below _ _ _ _ _ Hl E).
    + unfold last_bound in E. by destruct (last (f_lkeys f)).
  - destruct (last_bound flo (f_lkeys f)) as [b'|] eqn:E.
    + destruct (lseps_below _ _ _ _ _ Hl E) as [Hall _]. apply (Forall_impl _ _ _ Hall). eauto.
    + apply lseps_length in Hl. unfold last_bound in E. destruct (last (f_lkeys f)) eqn:E'; [done|].
      apply last_None in E'. rewrite E' in Hl. apply nil_length_inv in Hl. rewrite Hl. constructor.
  - destruct (head_bound (f_rkeys f) fhi) as [b'|] eqn:E.
    + destruct (rseps_above _ _ _ _ _ Hr E) as [Hall _]. apply (Forall_impl _ _ _ Hall). eauto.
    + apply rseps_length in Hr. destruct (f_rkeys f); [|done]. apply nil_length_inv in Hr. rewrite Hr. constructor.
  - apply (Forall_impl _ _ _ Hre). intros k (b & -> & Hk).
    destruct (head_bound (f_rkeys f) (Some b)) as [b'|] eqn:E.
    + exists b'. split; [done|]. transitivity b; [|done]. by apply (rseps_above _ _ _ _ _ Hr E).
    + by destruct (f_rkeys f).
Qed.

(** For the key a descent looks for. *)
Lemma encloses_gt fs lo hi key :
  cshape 0 fs lo hi → encloses (λ k, ltb key k) lo hi →
  all_below key (lentries fs) ∧ all_above key (rentries fs) ∧ in_range lo hi key.
Proof using Type*.
  intros Hfs [Hlo Hhi]. destruct (cshape_entries _ _ _ _ Hfs) as [Hl Hr]. split_and!.
  - apply (Forall_impl _ _ _ Hl). intros k (b & -> & Hk). specialize (Hlo b eq_refl).
    apply (klt_kle_trans k b); [done|]. apply not_klt. rewrite <- ltb_lt. congruence.
  - apply (Forall_impl _ _ _ Hr). intros k (b & -> & Hk). specialize (Hhi b eq_refl).
    apply (klt_kle_trans key b); [|done]. by apply ltb_lt.
  - split.
    + destruct lo as [l|]; [|done]. apply not_klt. rewrite <- ltb_lt. by rewrite (Hlo l eq_refl).
    + destruct hi as [h|]; [|done]. apply ltb_lt. by apply Hhi.
Qed.

Lemma encloses_ge fs lo hi key :
  cshape 0 fs lo hi → encloses (λ k, leb key k) lo hi →
  all_below key (lentries fs) ∧ Forall (kle key) (rentries fs).*1.
Proof using Type*.
  intros Hfs [Hlo Hhi]. destruct (cshape_entries _ _ _ _ Hfs) as [Hl Hr]. split_and!.
  - apply (Forall_impl _ _ _ Hl). intros k (b & -> & Hk). specialize (Hlo b eq_refl).
    apply (klt_trans k b); [done|]. apply not_kle. rewrite <- leb_le. congruence.
  - apply (Forall_impl _ _ _ Hr). intros k (b & -> & Hk). specialize (Hhi b eq_refl).
    transitivity b; [|done]. by apply leb_le.
Qed.
End descend.

(** ** Search *)

Section search.
Context {K V : Type} `{OrdLaws K} {MK : MinKeys} (key_size val_size : nat).
Abbreviation tree := (tree K V).
Abbreviation frame := (frame K V).
Abbreviation shape := (shape key_size val_size).
Abbreviation cshape := (cshape key_size val_size).
Abbreviation repr := (repr key_size val_size).
Implicit Types (t : RawBTree K V) (g : tree) (fs : list frame) (key : K).

(** A leaf of the tree with what surrounds it. *)
Record leaf_at g fs (i : nat) (kvs : list (K * V)) (lo hi : option K) : Prop := {
  la_tree : g = plug fs (TLeaf i kvs);
  la_ctx : cshape 0 fs lo hi;
  la_leaf : shape 0 lo hi (TLeaf i kvs);
}.

Lemma leaf_at_sorted g fs i kvs lo hi : leaf_at g fs i kvs lo hi → sorted_keys kvs.*1.
Proof using Type. by intros [_ _ (_ & _ & Hs & _)]. Qed.

Lemma leaf_at_kvs t g fs i kvs lo hi :
  holds t g → leaf_at g fs i kvs lo hi → leaf_kvs (arena t) i = Some kvs.
Proof using Type.
  intros Ht [-> _ _]. unfold leaf_kvs. by rewrite (hole_body t fs (TLeaf i kvs) Ht : bodies (arena t) !! i = _).
Qed.

Lemma find_leaf t g p :
  repr t g → encloses p None None →
  ∃ fs i kvs lo hi,
    (∀ choose, (∀ ks, sorted_keys ks → choose ks = Some (find_index p ks)) →
       descend (arena t) choose (height t) (tid g) = Some i) ∧
    leaf_at g fs i kvs lo hi ∧ encloses p lo hi ∧ length fs = height t ∧
    (∀ key, p = (λ k, ltb key k) → height t <= MAX_PATH_HEIGHT →
       descend_path (arena t) key (height t) (tid g) [] = Some (i, path_of fs)).
Proof using Type*.
  intros [Ht Hs] Hp. destruct (as_bodies _ _ _ _ _ (h_state _ _ Ht)) as (_ & _ & Hb).
  destruct (descend_zip key_size val_size (arena t) p (height t) [] None None g Hb)
    as (fs & i & kvs & lo & hi & Hd & Hpl & Hc & Hl & He & Hn & Hpath); [done..|].
  cbn [length] in Hn. rewrite Nat.add_0_r in Hn. exists fs, i, kvs, lo, hi.
  split_and!; [done|by split|done|done|]. intros key Hk Hle. apply Hpath; [done|lia].
Qed.

Lemma linear_correct key ks : sorted_keys ks → child_linear key ks = Some (find_index (λ k, ltb key k) ks).
Proof using Type. done. Qed.

Lemma binary_correct key ks : sorted_keys ks → child_binary key ks = Some (find_index (λ k, ltb key k) ks).
Proof using Type*. apply partition_point_gt. Qed.

(** The entries of the tree around a leaf that may hold [key]. *)
Lemma leaf_lookup g fs i kvs lo hi key :
  leaf_at g fs i kvs lo hi → encloses (λ k, ltb key k) lo hi →
  all_below key (lentries fs) ∧ all_above key (rentries fs) ∧ in_range lo hi key ∧
  sm_lookup (entries g) key = sm_lookup kvs key.
Proof using Type*.
  intros [-> Hc Hl] He. destruct (encloses_gt _ _ _ _ _ _ Hc He) as (Hb & Ha & Hr). split_and!; [done..|].
  rewrite entries_plug, sm_lookup_skip by done. cbn [entries].
  destruct (sorted_split kvs key) as (l1 & l2 & H1 & H2 & [->|[w ->]]); [by destruct Hl as (_ & _ & Hs & _)|..].
  - rewrite <- app_assoc, !(sm_lookup_skip key l1), !sm_lookup_above; [done|done|by apply all_above_app|done..].
  - rewrite <- app_assoc, !(sm_lookup_skip key l1) by done. simpl. by rewrite cmp_refl.
Qed.

Lemma linear_search_lookup (kvs : list (K * V)) key :
  sorted_keys kvs.*1 →
  match linear_search kvs.*1 key with
  | Some s => ∃ v, kvs !! s = Some (key, v) ∧ sm_lookup kvs key = Some v
  | None => sm_lookup kvs key = None
  end.
Proof using Type*.
  intros Hs. pose proof (linear_search_spec kvs.*1 key Hs) as Hl.
  destruct (sorted_split kvs key Hs) as (l1 & l2 & H1 & H2 & Hkvs).
  destruct (linear_search kvs.*1 key) as [s|].
  - rewrite list_lookup_fmap in Hl. destruct (kvs !! s) as [[k v]|] eqn:E; [|done]. cbn in Hl. simplify_eq.
    exists v. split; [done|]. rewrite <- (take_drop_middle _ _ _ E).
    rewrite <- (take_drop_middle _ _ _ E) in Hs. apply sorted_middle in Hs as (Hb & _ & _).
    rewrite sm_lookup_skip by done. simpl. by rewrite cmp_refl.
  - destruct Hkvs as [->|[w ->]].
    + rewrite sm_lookup_skip by done. by apply sm_lookup_above.
    + destruct Hl. rewrite fmap_app, fmap_cons. set_solver.
Qed.

(** What [search] returns. *)
Definition search_result g key (r : option (nat * nat)) : Prop :=
  match r with
  | Some (i, s) => ∃ fs kvs lo hi v, leaf_at g fs i kvs lo hi ∧ kvs !! s = Some (key, v) ∧
      sm_lookup (entries g) key = Some v
  | None => sm_lookup (entries g) key = None
  end.

Lemma search_linear_ok t g key :
  repr t g → ∃ r, search_linear t (tid g) key = Some r ∧ search_result g key r ∧
    search_binary t (tid g) key = Some r.
Proof using Type*.
  intros Hr. unfold search_linear, search_binary.
  destruct (find_leaf t g (λ k, ltb key k) Hr) as (fs & i & kvs & lo & hi & Hd & Hat & He & _ & _); [by split|].
  rewrite (Hd _ (linear_correct key)), (Hd _ (binary_correct key)).
  rewrite (leaf_at_kvs _ _ _ _ _ _ _ (proj1 Hr) Hat). pose proof (leaf_at_sorted _ _ _ _ _ _ Hat) as Hs.
  exists (pair i <$> linear_search kvs.*1 key). split; [done|].
  destruct (leaf_lookup _ _ _ _ _ _ _ Hat He) as (_ & _ & _ & Hlk).
  pose proof (linear_search_lookup kvs key Hs) as Hls. split.
  - destruct (linear_search kvs.*1 key) as [s|]; cbn.
    + destruct Hls as (v & Hv & Hkv). exists fs, kvs, lo, hi, v. split_and!; [done..|]. by rewrite Hlk.
    + by rewrite Hlk.
  - destruct (binary_search_key kvs.*1 key Hs) as (r & -> & <-). by destruct r.
Qed.

(** [search] finds the entry of the key, or establishes that there is none. *)
Lemma search_ok t g key :
  repr t g → ∃ r, search t key = Some r ∧ search_result g key r.
Proof using Type*.
  intros Hr. destruct (search_linear_ok t g key Hr) as (r & Hl & Hres & Hb). exists r. split; [|done].
  unfold search. rewrite (h_root _ _ (proj1 Hr)). by destruct (height t <? 3).
Qed.

Lemma tree_get_ok t g key : repr t g → get t key = Some (sm_lookup (entries g) key).
Proof using Type*.
  intros Hr. unfold get. destruct (search_ok t g key Hr) as ([[i s]|] & -> & Hres); [|by rewrite Hres].
  destruct Hres as (fs & kvs & lo & hi & v & Hat & Hv & ->).
  by rewrite (leaf_at_kvs _ _ _ _ _ _ _ (proj1 Hr) Hat), Hv.
Qed.

(** ** The leaf at a position of the chain *)

Lemma leaf_zip n fs lo hi g L1 i kvs L2 :
  cshape n fs lo hi → shape n lo hi g → tleaves g = L1 ++ (i, kvs) :: L2 →
  ∃ fs' lo' hi', leaf_at (plug fs g) fs' i kvs lo' hi' ∧ length fs' = n + length fs ∧
    ltleaves fs' = ltleaves fs ++ L1 ∧ rtleaves fs' = L2 ++ rtleaves fs.
Proof using Type.
  revert fs lo hi g L1 L2. induction n as [|n IH]; intros fs lo hi g L1 L2 Hfs Hg HL.
  { destruct g as [j kvs'|]; [|done]. cbn in HL. symmetry in HL. apply app_singleton in HL as [[-> HL]|[? ?]]; [|done].
    simplify_eq. exists fs, lo, hi. rewrite app_nil_r. by split_and!. }
  destruct g as [|j ks cs]; [done|]. cbn [tleaves] in HL.
  apply flat_map_split in HL as (cs1 & c & cs2 & M1 & M2 & -> & HM & -> & ->).
  assert (length cs1 <= length ks) as Hle.
  { destruct Hg as [_ Hs]. apply seps_length in Hs. rewrite length_app in Hs. cbn in Hs. lia. }
  destruct (child_zip _ _ _ _ _ _ _ _ _ _ Hg Hfs Hle)
    as (f & c' & Hc' & Heq & _ & _ & _ & _ & Hfl & Hfr & Hfs' & Hsc).
  rewrite list_lookup_middle in Hc' by done. simplify_eq.
  destruct (IH _ _ _ _ _ _ Hfs' Hsc HM) as (fs' & lo' & hi' & Hat & Hn & Hl & Hr).
  exists fs', lo', hi'. rewrite Heq, <- plug_cons. split_and!; [done|cbn in Hn; lia|..].
  - rewrite Hl. cbn. by rewrite Hfl, take_app_length, app_assoc.
  - assert (drop (S (length cs1)) (cs1 ++ c' :: cs2) = cs2) as Hdrop.
    { rewrite drop_app_ge by lia. by replace (S (length cs1) - length cs1) with 1 by lia. }
    rewrite Hr. cbn. by rewrite Hfr, Hdrop, app_assoc.
Qed.

Lemma repr_leaf t g L1 i kvs L2 :
  repr t g → tleaves g = L1 ++ (i, kvs) :: L2 →
  ∃ fs lo hi, leaf_at g fs i kvs lo hi ∧ length fs = height t ∧ ltleaves fs = L1 ∧ rtleaves fs = L2.
Proof using Type.
  intros [_ Hs] HL. destruct (leaf_zip _ [] _ _ _ _ _ _ _ ltac:(done) Hs HL) as (fs & lo & hi & Hat & Hn & Hl & Hr).
  exists fs, lo, hi. cbn in *. by rewrite app_nil_r, Nat.add_0_r in *.
Qed.

(** The links of a leaf. *)
Lemma leaf_at_links t g fs i kvs lo hi :
  holds t g → leaf_at g fs i kvs lo hi →
  links (arena t) !! i = Some (last (lleaves fs), head (rleaves fs)).
Proof using Type.
  intros Ht [-> _ _]. apply (chain_at _ _ _ _ _ (as_links _ _ _ _ _ (hole_state _ _ _ Ht))).
Qed.

(** ** [lower_bound] *)

(** Every leaf has an entry. *)
Definition no_empty_leaf g : Prop := Forall (λ e, e.2 ≠ []) (tleaves g).

Lemma sm_from_split key (l1 l2 : list (K * V)) :
  all_below key l1 → Forall (kle key) l2.*1 → sm_from (l1 ++ l2) key = l2.
Proof using Type*.
  intros H1 H2. unfold sm_from. rewrite List.filter_app.
  assert (List.filter (λ e, leb key e.1) l1 = []) as ->.
  { induction l1 as [|[k v] l1 IH]; [done|]. apply all_below_cons in H1 as [Hk H1]. cbn.
    destruct (leb key k) eqn:E; [|by apply IH]. apply leb_le in E. by apply not_kle in Hk. }
  cbn. induction l2 as [|[k v] l2 IH]; [done|]. rewrite fmap_cons in H2. apply Forall_cons in H2 as [Hk H2].
  cbn in *. apply leb_le in Hk. rewrite Hk. by rewrite IH.
Qed.

(** The position [lower_bound] returns is that of the first entry that is not
    below the key. *)
Lemma lower_bound_ok t g key :
  repr t g → no_empty_leaf g →
  ∃ r, lower_bound t key = Some r ∧
    match r with
    | Some (i, s) => ∃ fs kvs lo hi, leaf_at g fs i kvs lo hi ∧ s < length kvs ∧
        sm_from (entries g) key = drop s kvs ++ rentries fs
    | None => sm_from (entries g) key = []
    end.
Proof using Type*.
  intros Hr Hne. unfold lower_bound. rewrite (h_root _ _ (proj1 Hr)).
  destruct (find_leaf t g (λ k, leb key k) Hr) as (fs & i & kvs & lo & hi & Hd & Hat & He & _ & _); [by split|].
  assert (∀ ks, sorted_keys ks → (if height t <? 3 then lower_linear key else lower_binary key) ks =
    Some (find_index (λ k, leb key k) ks)) as Hch.
  { intros ks Hks. destruct (height t <? 3); [done|]. by apply partition_point_ge. }
  pose proof (leaf_at_sorted _ _ _ _ _ _ Hat) as Hs.
  rewrite (Hd _ Hch), (leaf_at_kvs _ _ _ _ _ _ _ (proj1 Hr) Hat), (Hch _ Hs).
  destruct Hat as [Hg Hc Hl] eqn:EH. clear EH.
  destruct (encloses_ge _ _ _ _ _ _ Hc He) as [Hb Ha].
  destruct (find_index_ge kvs.*1 key _ eq_refl) as (Hle & Hbef & Hat0). rewrite length_fmap in Hle.
  set (pos := find_index (λ k, leb key k) kvs.*1) in *.
  assert (all_below key (take pos kvs)) as Htake.
  { unfold all_below. apply Forall_forall. intros k Hk. rewrite fmap_take in Hk.
    apply list_elem_of_lookup in Hk as (j & Hj). apply lookup_take_Some in Hj as [Hj Hlt]. by apply (Hbef j k). }
  assert (Forall (kle key) (drop pos kvs).*1) as Hdrop.
  { rewrite fmap_drop. destruct (drop pos kvs.*1) as [|k ks] eqn:E; [constructor|].
    assert (kvs.*1 !! pos = Some k) as Hk by by rewrite <- (Nat.add_0_r pos), <- lookup_drop, E.
    apply Forall_forall. intros x Hx. transitivity k; [by apply Hat0|].
    apply list_elem_of_lookup in Hx as (j & Hj). rewrite <- E, lookup_drop in Hj.
    apply (sorted_lookup_le kvs.*1 pos (pos + j)); [done..|lia]. }
  assert (sm_from (entries g) key = drop pos kvs ++ rentries fs) as Hfrom.
  { rewrite Hg, entries_plug. cbn [entries]. rewrite <- (take_drop pos kvs) at 1.
    rewrite <- app_assoc, app_assoc. apply sm_from_split; [by apply all_below_app|].
    rewrite fmap_app. by apply Forall_app. }
  destruct (Nat.ltb_spec pos (length kvs)) as [Hlt|Hge].
  { eexists. split; [reflexivity|]. by exists fs, kvs, lo, hi. }
  rewrite drop_ge in Hfrom by done. cbn [app] in Hfrom.
  rewrite (leaf_at_links t g fs i kvs lo hi (proj1 Hr) Hat).
  destruct (rtleaves fs) as [|[o kvs'] R] eqn:ER.
  { rewrite rleaves_eq, ER. eexists. split; [reflexivity|]. by rewrite Hfrom, rentries_eq, ER. }
  assert (tleaves g = (ltleaves fs ++ [(i, kvs)]) ++ (o, kvs') :: R) as HL.
  { rewrite Hg, tleaves_plug, ER. by rewrite <- app_assoc. }
  destruct (repr_leaf _ _ _ _ _ _ Hr HL) as (fs' & lo' & hi' & Hat' & _ & _ & HR).
  rewrite rleaves_eq, ER. cbn [fmap list_fmap fst head]. unfold node_len.
  rewrite (la_tree _ _ _ _ _ _ Hat') in Hr. rewrite (hole_body t fs' _ (proj1 Hr) : bodies (arena t) !! o = _).
  cbn [node_body].
  assert (kvs' ≠ []) as Hkvs'.
  { unfold no_empty_leaf in Hne. rewrite Forall_forall in Hne. apply (Hne (o, kvs')). rewrite HL. set_solver. }
  destruct kvs' as [|kv kvs']; [done|]. eexists. split; [reflexivity|].
  exists fs', (kv :: kvs'), lo', hi'. split_and!; [done|cbn; lia|].
  rewrite Hfrom, rentries_eq, ER, rentries_eq, HR. done.
Qed.
End search.
