(* ===== verification/BTreeSplit.v ===== *)
(** * The B+ tree engine: splitting upwards

    After a node was split its new right half waits to be linked into the
    parent.  Linking it where there is room, splitting the parent, and growing a
    new root each keep the tree; so both forms of the propagation end with a
    well-formed tree of the same entries. *)

From Stdlib Require Import ZArith Lia.
From stdpp Require Import list_tactics.
From S2P Require Import Prelude BTree BTreeInv BTreeShape BTreeRep SortedAssoc BTreeSearch.

Section split.
Context {K V : Type} `{OrdLaws K} {MK : MinKeys} (key_size val_size : nat).
Abbreviation tree := (tree K V).
Abbreviation frame := (frame K V).
Abbreviation shape := (shape key_size val_size).
Abbreviation cshape := (cshape key_size val_size).
Abbreviation repr := (repr key_size val_size).
Abbreviation INTERNAL_CAP := (INTERNAL_CAP key_size).
Implicit Types (a : Arena K V) (t : RawBTree K V) (g : tree) (fs : list frame) (f : frame) (k : K).

(** The hole of [fs], of height [n], holds two trees separated by [k]; the
    context only knows the first one. *)
Record split_at t n fs g1 k g2 : Prop := {
  sa_state : astate (arena t) (cids fs ++ ids g1 ++ ids g2)
    (cbodies fs (tid g1) ++ tbodies g1 ++ tbodies g2)
    (cparents fs ++ tparents (parent_of fs) g1 ++ tparents (parent_of fs) g2)
    (lleaves fs ++ (leaves g1 ++ leaves g2) ++ rleaves fs);
  sa_root : root t = Some (default (tid g1) (last (f_id <$> fs)));
  sa_first : first_leaf t = head (lleaves fs ++ (leaves g1 ++ leaves g2) ++ rleaves fs);
  sa_last : last_leaf t = last (lleaves fs ++ (leaves g1 ++ leaves g2) ++ rleaves fs);
  sa_len : len t = length (lentries fs ++ (entries g1 ++ entries g2) ++ rentries fs);
  sa_height : height t = n + length fs;
  sa_shape : ∃ lo hi, cshape n fs lo hi ∧ shape n lo (Some k) g1 ∧ shape n (Some k) hi g2;
}.

(** The tree an insertion ends with. *)
Definition split_done t fs g1 g2 : Prop :=
  ∃ g, repr t g ∧ tleaves g = ltleaves fs ++ (tleaves g1 ++ tleaves g2) ++ rtleaves fs.

Lemma split_done_entries fs g g1 g2 :
  tleaves g = ltleaves fs ++ (tleaves g1 ++ tleaves g2) ++ rtleaves fs →
  entries g = lentries fs ++ (entries g1 ++ entries g2) ++ rentries fs.
Proof using Type.
  intros Ht. rewrite entries_tleaves, Ht, !List.flat_map_app.
  by rewrite <- !entries_tleaves, lentries_eq, rentries_eq.
Qed.

(** A new root. *)
Lemma grow_root_ok t n g1 k g2 :
  2 <= INTERNAL_CAP → room 1 (arena t) → split_at t n [] g1 k g2 →
  ∃ t', grow_root t k (tid g1) (tid g2) = Some t' ∧ split_done t' [] g1 g2.
Proof using Type.
  intros Hcap Hroom [Hs Hr Hf Hl Hlen Hh (lo & hi & [-> ->] & H1 & H2)].
  cbn [cids cbodies cparents lleaves rleaves app parent_of head fmap option_fmap option_map lentries rentries] in *.
  rewrite !app_nil_r in *.
  unfold grow_root. destruct (alloc_node_ok _ _ _ _ _ Hroom Hs) as (r & a & -> & Hfresh & Hs' & _).
  eexists. split; [reflexivity|]. exists (TNode r [k] [g1; g2]).
  split; [|cbn; by rewrite !app_nil_r].
  split; [split; cbn; rewrite ?app_nil_r; try done|].
  - assert (r ∉ (tbodies g1 ++ tbodies g2).*1 ∧ r ∉ (tparents None g1 ++ tparents None g2).*1) as [HB HP].
    { rewrite !fmap_app, !tbodies_ids, !tparents_ids. done. }
    apply (astate_new_parent _ _ r None) in Hs'; [|by left|done].
    apply (astate_new_body _ _ r (InternalBody [k] [tid g1; tid g2])) in Hs'; [|by left|done].
    arrange_parents Hs' ((tid g1, @None nat) :: tsub g1 ++ (r, None) :: tparents None g2).
    { rewrite (tparents_root None g1). solve_Permutation. }
    apply (astate_set_parent _ _ _ _ (Some r)) in Hs'.
    arrange_parents Hs' ((tid g2, None) :: (tid g1, Some r) :: tsub g1 ++ (r, None) :: tsub g2).
    { rewrite (tparents_root None g2). solve_Permutation. }
    apply (astate_set_parent _ _ _ _ (Some r)) in Hs'.
    eapply astate_perm; [| | |exact Hs']; [done|done|].
    rewrite (tparents_root _ g1), (tparents_root _ g2). solve_Permutation.
  - cbn [height with_root]. rewrite Hh. cbn [length]. rewrite Nat.add_0_r, Nat.add_1_r. pose proof min_keys_le. cbn. split; [lia|done].
Qed.

(** Where the parent has room. *)
Lemma take_keys (lks rks : list K) (lcs : list nat) k :
  length lcs = length lks → take (length lcs) (lks ++ rks) ++ k :: drop (length lcs) (lks ++ rks) = lks ++ k :: rks.
Proof using Type. intros ->. by rewrite take_app_length, drop_app_length. Qed.

Lemma take_children (lcs rcs : list nat) c d :
  take (length lcs + 1) (lcs ++ c :: rcs) ++ d :: drop (length lcs + 1) (lcs ++ c :: rcs) = lcs ++ c :: d :: rcs.
Proof using Type.
  change (c :: rcs) with ([c] ++ rcs). rewrite !app_assoc.
  replace (length lcs + 1) with (length (lcs ++ [c])) by (rewrite length_app; done).
  rewrite take_app_length, drop_app_length. by rewrite <- !app_assoc.
Qed.

Lemma split_at_frame t n f fs g1 k g2 :
  split_at t n (f :: fs) g1 k g2 →
  internal_node (arena t) (f_id f) =
    Some (f_lkeys f ++ f_rkeys f, List.map tid (f_left f) ++ tid g1 :: List.map tid (f_right f)) ∧
  length (f_left f) = length (f_lkeys f) ∧ length (f_right f) = length (f_rkeys f).
Proof using Type.
  intros [Hs _ _ _ _ _ (lo & hi & Hc & _)]. split; [|by eapply cshape_lengths].
  unfold internal_node. erewrite (field_get (bodies (arena t))); [|by left|apply (as_bodies _ _ _ _ _ Hs)]. done.
Qed.

Lemma insert_room_ok t n f fs g1 k g2 :
  split_at t n (f :: fs) g1 k g2 → length (f_lkeys f ++ f_rkeys f) < INTERNAL_CAP →
  ∃ t', internal_insert_at key_size t (f_id f) (length (f_left f)) k (tid g2) = Some t' ∧
    split_done (with_arena t' (set_parent (arena t') (tid g2) (Some (f_id f)))) (f :: fs) g1 g2.
Proof using Type.
  intros Hsa Hlen. destruct (split_at_frame _ _ _ _ _ _ _ Hsa) as (Hnode & Hll & Hlr).
  unfold internal_insert_at. rewrite Hnode. destruct (Nat.ltb_spec (length (f_lkeys f ++ f_rkeys f)) INTERNAL_CAP) as [_|?]; [|lia].
  eexists. split; [reflexivity|]. exists (plug fs (fill f [g1; g2] [k])).
  assert (length (List.map (@tid K V) (f_left f)) = length (f_left f)) as Hml by apply length_map.
  rewrite <- Hml, take_keys, take_children by lia.
  destruct Hsa as [Hs Hr Hf Hl Hn Hh (lo & hi & (flo & fhi & -> & -> & Hls & Hrs & Hcap & Hc) & H1 & H2)].
  split; [split|].
  - apply holds_plug. rewrite leaves_fill, entries_fill. cbn [List.flat_map]. rewrite !app_nil_r.
    cbn [arena with_arena root first_leaf last_leaf len].
    split_and!; [|by rewrite Hr, tid_plug, fmap_cons, default_last_cons|done..].
    cbn [tid ids tbodies tparents cids cbodies cparents fill parent_of head fmap option_fmap option_map] in *.
    rewrite List.map_app, !List.flat_map_app. cbn [List.flat_map List.map app] in *.
    apply (astate_set_body _ _ _ _ (InternalBody (f_lkeys f ++ k :: f_rkeys f)
      (List.map tid (f_left f) ++ tid g1 :: tid g2 :: List.map tid (f_right f)))) in Hs.
    arrange_parents Hs ((tid g2, Some (f_id f)) :: (f_id f, parent_of fs) ::
      List.flat_map (tparents (Some (f_id f))) (f_left f) ++
      List.flat_map (tparents (Some (f_id f))) (f_right f) ++ cparents fs ++
      tparents (Some (f_id f)) g1 ++ tsub g2).
    { rewrite (tparents_root _ g2). cbn. solve_Permutation. }
    apply (astate_set_parent _ _ _ _ (Some (f_id f))) in Hs.
    eapply astate_perm; [| | |exact Hs]; [solve_Permutation..|].
    rewrite (tparents_root _ g2). solve_Permutation.
  - cbn [height with_arena]. rewrite Hh. cbn [length]. rewrite <- Nat.add_succ_comm.
    apply (plug_shape _ _ (S n) fs flo fhi); [done|].
    apply (fill_shape _ _ n f [g1; g2] [k] (last_bound flo (f_lkeys f)) (head_bound (f_rkeys f) fhi));
      [done..|by split|]. pose proof min_keys_le. rewrite length_app in *. cbn [length]. lia.
  - by rewrite tleaves_plug, tleaves_fill; cbn [List.flat_map]; rewrite app_nil_r.
Qed.

(** The state after splitting: the children of the two halves together are
    those of the old node and the new child. *)
Lemma internal_split_state a r f fs g1 g2 ks1 ks2 cs1 cs2 L :
  r ∉ cids (f :: fs) ++ ids g1 ++ ids g2 →
  cs1 ++ cs2 = f_left f ++ g1 :: g2 :: f_right f →
  astate a (r :: cids (f :: fs) ++ ids g1 ++ ids g2) (cbodies (f :: fs) (tid g1) ++ tbodies g1 ++ tbodies g2)
    (cparents (f :: fs) ++ tparents (parent_of (f :: fs)) g1 ++ tparents (parent_of (f :: fs)) g2) L →
  astate (set_body (set_parents (set_body (set_parent a r (parent_of fs)) (f_id f)
      (InternalBody ks1 (List.map tid cs1))) (List.map tid cs2) r) r (InternalBody ks2 (List.map tid cs2)))
    (cids fs ++ ids (TNode (f_id f) ks1 cs1) ++ ids (TNode r ks2 cs2))
    (cbodies fs (f_id f) ++ tbodies (TNode (f_id f) ks1 cs1) ++ tbodies (TNode r ks2 cs2))
    (cparents fs ++ tparents (parent_of fs) (TNode (f_id f) ks1 cs1) ++ tparents (parent_of fs) (TNode r ks2 cs2)) L.
Proof using Type.
  intros Hr Hcs Hs.
  assert (r ∉ (cparents (f :: fs) ++ tparents (Some (f_id f)) g1 ++ tparents (Some (f_id f)) g2).*1) as Hrp
    by (by rewrite !fmap_app, cparents_ids, !tparents_ids).
  assert (r ∉ (cbodies (f :: fs) (tid g1) ++ tbodies g1 ++ tbodies g2).*1) as Hrb
    by (by rewrite !fmap_app, cbodies_ids, !tbodies_ids).
  apply (astate_new_parent _ _ r (parent_of fs)) in Hs; [|by left|done].
  cbn [cids cbodies cparents tid ids tbodies tparents parent_of head fmap option_fmap option_map app] in *.
  apply (astate_set_body _ _ _ _ (InternalBody ks1 (List.map tid cs1))) in Hs.
  assert (∀ {A} (F : tree → list A), List.flat_map F cs1 ++ List.flat_map F cs2 ≡ₚ
    List.flat_map F (f_left f) ++ List.flat_map F (f_right f) ++ F g1 ++ F g2) as Hflat.
  { intros A F. rewrite <- List.flat_map_app, Hcs, List.flat_map_app. cbn. solve_Permutation. }
  arrange_parents Hs (List.map (λ c, (c, Some (f_id f))) (List.map (@tid K V) cs2) ++
    List.flat_map tsub cs2 ++ List.flat_map (tparents (Some (f_id f))) cs1 ++
    (r, parent_of fs) :: (f_id f, parent_of fs) :: cparents fs).
  { pose proof (Hflat _ (tparents (Some (f_id f)))) as Hp. rewrite (flat_tparents (Some (f_id f)) cs2) in Hp.
    transitivity ((r, parent_of fs) :: (f_id f, parent_of fs) :: cparents fs ++
      (List.flat_map (tparents (Some (f_id f))) (f_left f) ++ List.flat_map (tparents (Some (f_id f))) (f_right f) ++
       tparents (Some (f_id f)) g1 ++ tparents (Some (f_id f)) g2)); [solve_Permutation|].
    rewrite <- Hp. solve_Permutation. }
  apply (astate_set_parents _ _ _ _ r) in Hs.
  apply (astate_new_body _ _ r (InternalBody ks2 (List.map tid cs2))) in Hs; [|by left|done].
  eapply astate_perm; [| | |exact Hs].
  - pose proof (Hflat _ ids) as Hp. transitivity (r :: f_id f :: cids fs ++
      (List.flat_map ids (f_left f) ++ List.flat_map ids (f_right f) ++ ids g1 ++ ids g2)); [solve_Permutation|].
    rewrite <- Hp. solve_Permutation.
  - pose proof (Hflat _ tbodies) as Hp. transitivity ((r, InternalBody ks2 (List.map tid cs2)) ::
      (f_id f, InternalBody ks1 (List.map tid cs1)) :: cbodies fs (f_id f) ++
      (List.flat_map tbodies (f_left f) ++ List.flat_map tbodies (f_right f) ++ tbodies g1 ++ tbodies g2));
      [solve_Permutation|].
    rewrite <- Hp. solve_Permutation.
  - rewrite (flat_tparents (Some r) cs2). solve_Permutation.
Qed.

(** A full parent is split in turn. *)
Lemma internal_split_ok t n f fs g1 k g2 :
  2 <= INTERNAL_CAP → room 1 (arena t) → split_at t n (f :: fs) g1 k g2 →
  length (f_lkeys f ++ f_rkeys f) = INTERNAL_CAP →
  ∃ k' t' g1' g2',
    internal_split_and_insert key_size t (f_id f) (length (f_left f)) k (tid g2) = Some (k', tid g2', t') ∧
    tid g1' = f_id f ∧ split_at t' (S n) fs g1' k' g2' ∧
    (∀ t'', split_done t'' fs g1' g2' → split_done t'' (f :: fs) g1 g2) ∧
    (∀ m, room (S m) (arena t) → room m (arena t')).
Proof using Type.
  intros Hcap2 Hroom Hsa Hfull. destruct (split_at_frame _ _ _ _ _ _ _ Hsa) as (Hnode & Hll & Hlr).
  destruct Hsa as [Hs Hr Hf Hl Hn Hh (lo & hi & (flo & fhi & -> & -> & Hls & Hrs & Hcap & Hc) & H1 & H2)].
  set (ks := f_lkeys f ++ k :: f_rkeys f). set (cs := f_left f ++ g1 :: g2 :: f_right f).
  set (mid := INTERNAL_CAP / 2).
  assert (2 * mid <= INTERNAL_CAP ∧ INTERNAL_CAP < 2 * mid + 2) as Hmid.
  { pose proof (Nat.div_mod_eq INTERNAL_CAP 2). pose proof (Nat.mod_upper_bound INTERNAL_CAP 2 ltac:(lia)).
    subst mid. lia. }
  assert (length ks = INTERNAL_CAP + 1) as Hks by (subst ks; rewrite length_app in *; cbn; lia).
  assert (length cs = INTERNAL_CAP + 2) as Hcs by (subst cs; rewrite length_app in *; cbn; lia).
  destruct (lookup_lt_is_Some_2 ks mid) as [k' Hk']; [lia|].
  unfold internal_split_and_insert.
  destruct (alloc_node_ok _ _ _ _ _ Hroom Hs) as (r & a & -> & Hfresh & Hs' & Hroom').
  assert (parents a !! f_id f = Some (parent_of fs)) as Hpar.
  { eapply field_get; [|apply (as_parents _ _ _ _ _ Hs')]. by left. }
  assert (internal_node a (f_id f) = Some (f_lkeys f ++ f_rkeys f,
    List.map tid (f_left f) ++ tid g1 :: List.map tid (f_right f))) as Hnode'.
  { unfold internal_node. erewrite (field_get (bodies a)); [|by left|apply (as_bodies _ _ _ _ _ Hs')]. done. }
  assert (length (List.map (@tid K V) (f_left f)) = length (f_left f)) as Hml by apply length_map.
  rewrite Hpar. change (internal_node (set_parent ?a _ _) ?i) with (internal_node a i). rewrite Hnode'.
  rewrite <- Hml, take_keys, take_children by lia.
  change (f_lkeys f ++ k :: f_rkeys f) with ks.
  assert (List.map tid (f_left f) ++ tid g1 :: tid g2 :: List.map tid (f_right f) = List.map tid cs) as ->
    by (subst cs; by rewrite List.map_app).
  rewrite Hks, length_map, Hcs, !Nat.eqb_refl. cbn [andb negb]. fold mid. rewrite Hk'.
  rewrite List.firstn_map, List.skipn_map.
  exists k', (with_arena t (set_body (set_parents (set_body (set_parent a r (parent_of fs)) (f_id f)
    (InternalBody (take mid ks) (List.map tid (take (mid + 1) cs)))) (List.map tid (drop (mid + 1) cs)) r) r
    (InternalBody (drop (mid + 1) ks) (List.map tid (drop (mid + 1) cs))))),
    (TNode (f_id f) (take mid ks) (take (mid + 1) cs)), (TNode r (drop (mid + 1) ks) (drop (mid + 1) cs)).
  split_and!; [done|done| | |].
  - assert (lleaves fs ++ (leaves (TNode (f_id f) (take mid ks) (take (mid + 1) cs)) ++
      leaves (TNode r (drop (mid + 1) ks) (drop (mid + 1) cs))) ++ rleaves fs =
      lleaves (f :: fs) ++ (leaves g1 ++ leaves g2) ++ rleaves (f :: fs)) as HL.
    { cbn [leaves]. rewrite <- List.flat_map_app, take_drop. subst cs. cbn.
      rewrite !List.flat_map_app. cbn. by rewrite <- !app_assoc. }
    assert (lentries fs ++ (entries (TNode (f_id f) (take mid ks) (take (mid + 1) cs)) ++
      entries (TNode r (drop (mid + 1) ks) (drop (mid + 1) cs))) ++ rentries fs =
      lentries (f :: fs) ++ (entries g1 ++ entries g2) ++ rentries (f :: fs)) as HE.
    { cbn [entries]. rewrite <- List.flat_map_app, take_drop. subst cs. cbn.
      rewrite !List.flat_map_app. cbn. by rewrite <- !app_assoc. }
    split; rewrite ?HL, ?HE; cbn [tid with_arena root first_leaf last_leaf len height arena]; try done.
    + rewrite <- (take_drop (mid + 1) cs) in Hcs.
      by apply (internal_split_state a r f fs g1 g2); rewrite ?take_drop.
    + by rewrite Hr, fmap_cons, default_last_cons.
    + rewrite Hh. cbn [length]. lia.
    + exists flo, fhi. split; [done|]. cbn [shape]. rewrite !length_take, !length_drop.
      assert (seps (shape n) flo ks cs fhi) as Hseps.
      { apply (seps_hole _ flo (f_lkeys f) [k] (f_rkeys f) (f_left f) [g1; g2] (f_right f) fhi); [lia|done|lia|].
        by split_and!. }
      rewrite <- (take_drop_middle _ _ _ Hk'), <- (take_drop (mid + 1) cs) in Hseps.
      rewrite <- (Nat.add_1_r mid) in Hseps. apply seps_cut in Hseps as [Hc1 Hc2]; [|rewrite !length_take; lia].
      pose proof min_keys_le. split_and!; [lia..|done|lia|lia|done].
  - intros t'' (g & Hg & Heq). exists g. split; [done|]. rewrite Heq. cbn [tleaves].
    rewrite <- List.flat_map_app, take_drop. subst cs. cbn. rewrite !List.flat_map_app. cbn.
    by rewrite <- !app_assoc.
  - intros m Hm. specialize (Hroom' m Hm). rewrite set_parents_eq. done.
Qed.

Lemma split_at_parent t n fs g1 k g2 :
  split_at t n fs g1 k g2 → parents (arena t) !! tid g1 = Some (parent_of fs).
Proof using Type.
  intros Hsa. eapply field_get; [|apply (as_parents _ _ _ _ _ (sa_state _ _ _ _ _ _ Hsa))].
  apply elem_of_app. right. rewrite (tparents_root _ g1). by left.
Qed.

Lemma split_at_slot t n f fs g1 k g2 dflt :
  split_at t n (f :: fs) g1 k g2 →
  child_slot (List.map tid (f_left f) ++ tid g1 :: List.map tid (f_right f)) (tid g1) dflt = length (f_left f).
Proof using Type.
  intros Hsa. rewrite child_slot_at, length_map; [done|]. apply (not_left_sibling f fs g1 (ids g2)).
  destruct (as_arena _ _ _ _ _ (sa_state _ _ _ _ _ _ Hsa)) as [Hn _]. by apply NoDup_app in Hn as [? _].
Qed.

(** ** Both propagations *)

Lemma propagate_ok fs t n g1 k g2 :
  2 <= INTERNAL_CAP → room (length fs + 1) (arena t) → split_at t n fs g1 k g2 →
  ∃ t', propagate_split key_size t (path_of fs) k (tid g2) = Some t' ∧
    (∀ fuel, length fs < fuel → propagate_split_lazy key_size fuel t (tid g1) k (tid g2) = Some t') ∧
    split_done t' fs g1 g2.
Proof using Type.
  intros Hcap. revert t n g1 k g2. induction fs as [|f fs IH]; intros t n g1 k g2 Hroom Hsa.
  { destruct (grow_root_ok t n g1 k g2 Hcap Hroom Hsa) as (t' & Hg & Hdone). exists t'.
    cbn [path_of List.map propagate_split]. rewrite (sa_root _ _ _ _ _ _ Hsa). split_and!; [done| |done].
    intros [|fuel] Hf; [cbn in Hf; lia|]. cbn [propagate_split_lazy].
    by rewrite (split_at_parent _ _ _ _ _ _ Hsa). }
  destruct (split_at_frame _ _ _ _ _ _ _ Hsa) as (Hnode & Hll & _).
  pose proof (split_at_parent _ _ _ _ _ _ Hsa) as Hpar.
  assert (length (f_left f) <= length (f_lkeys f ++ f_rkeys f)) as Hpos by (rewrite length_app; lia).
  apply Nat.leb_le in Hpos. cbn [path_of List.map propagate_split]. rewrite Hnode. cbn [length] in *.
  destruct (Nat.ltb_spec (length (f_lkeys f ++ f_rkeys f)) INTERNAL_CAP) as [Hlt|Hge].
  - destruct (insert_room_ok t n f fs g1 k g2 Hsa Hlt) as (t' & Ht' & Hdone). rewrite Ht'.
    eexists. split_and!; [reflexivity| |done]. intros [|fuel] Hf; [lia|]. cbn [propagate_split_lazy].
    rewrite Hpar. cbn [parent_of head fmap option_fmap option_map].
    rewrite Hnode, (split_at_slot _ _ _ _ _ _ _ _ Hsa), Hpos. cbn [negb].
    apply Nat.ltb_lt in Hlt. by rewrite Hlt, Ht'.
  - assert (length (f_lkeys f ++ f_rkeys f) = INTERNAL_CAP) as Hfull.
    { destruct (sa_shape _ _ _ _ _ _ Hsa) as (lo & hi & (flo & fhi & _ & _ & _ & _ & Hle & _) & _).
      rewrite length_app in *. lia. }
    destruct (internal_split_ok t n f fs g1 k g2 Hcap) as (k' & t' & g1' & g2' & Ht' & Hid & Hsa' & Hback & Hroom');
      [unfold room in *; lia|done|done|].
    destruct (IH t' (S n) g1' k' g2') as (t'' & Ht'' & Hlazy & Hdone); [apply Hroom'; unfold room in *; lia|done|].
    rewrite Ht'. exists t''. split_and!; [done| |by apply Hback]. intros [|fuel] Hf; [lia|].
    cbn [propagate_split_lazy]. rewrite Hpar. cbn [parent_of head fmap option_fmap option_map].
    rewrite Hnode, (split_at_slot _ _ _ _ _ _ _ _ Hsa), Hpos. cbn [negb].
    apply Nat.ltb_ge in Hge. rewrite Hge, Ht', <- Hid. apply Hlazy. lia.
Qed.
End split.
