(* ===== verification/BTreeLeaf.v ===== *)
(** * The B+ tree engine: one leaf

    Replacing the contents of a leaf, splitting a full leaf around a new entry,
    the walk from a leaf to the root, and the leaves at both ends. *)

From Stdlib Require Import ZArith Lia.
From stdpp Require Import list_tactics sorting.
From S2P Require Import Prelude BTree BTreeInv BTreeShape BTreeRep SortedAssoc BTreeSearch BTreeSplit.

(** ** Lists *)

Section lists.
Context {A : Type}.
Implicit Types (l : list A) (x : A).

Definition insert_at (pos : nat) x l : list A := take pos l ++ x :: drop pos l.

Lemma insert_at_length pos x l : pos <= length l → length (insert_at pos x l) = S (length l).
Proof. intros Hp. unfold insert_at. rewrite length_app, length_take. cbn. rewrite length_drop. lia. Qed.

(** The halves of a full node around a new element, as the code copies them. *)
Lemma insert_at_low pos mid x l :
  pos < mid → mid <= length l →
  take mid (insert_at pos x l) = insert_at pos x (take (mid - 1) l) ∧
  drop mid (insert_at pos x l) = drop (mid - 1) l.
Proof.
  intros Hlt Hle. unfold insert_at. assert (length (take pos l) = pos) as Hl by (rewrite length_take; lia). split.
  - rewrite take_app_ge, Hl by lia. replace (mid - pos) with (S (mid - 1 - pos)) by lia. cbn [take].
    rewrite take_drop_commute, take_take. f_equal; [f_equal; lia|]. f_equal. do 2 f_equal. lia.
  - rewrite drop_app_ge, Hl by lia. replace (mid - pos) with (S (mid - 1 - pos)) by lia. cbn [drop].
    rewrite drop_drop. f_equal. lia.
Qed.

Lemma insert_at_high pos mid x l :
  mid <= pos → pos <= length l →
  take mid (insert_at pos x l) = take mid l ∧
  drop mid (insert_at pos x l) = insert_at (pos - mid) x (drop mid l).
Proof.
  intros Hle Hp. unfold insert_at. assert (length (take pos l) = pos) as Hl by (rewrite length_take; lia). split.
  - rewrite take_app_le, take_take by lia. f_equal. lia.
  - rewrite drop_app_le, take_drop_commute, drop_drop by lia. f_equal; [do 2 f_equal; lia|]. do 2 f_equal. lia.
Qed.

Lemma insert_at_fmap {B} (h : A → B) pos x l :
  h <$> insert_at pos x l = take pos (h <$> l) ++ h x :: drop pos (h <$> l).
Proof. unfold insert_at. by rewrite fmap_app, fmap_cons, fmap_take, fmap_drop. Qed.
End lists.

Section leaf.
Context {K V : Type} `{OrdLaws K} {MK : MinKeys} (key_size val_size : nat).
Abbreviation tree := (tree K V).
Abbreviation frame := (frame K V).
Abbreviation shape := (shape key_size val_size).
Abbreviation cshape := (cshape key_size val_size).
Abbreviation repr := (repr key_size val_size).
Abbreviation leaf_at := (leaf_at key_size val_size).
Abbreviation LEAF_CAP := (LEAF_CAP key_size val_size).
Abbreviation INTERNAL_CAP := (INTERNAL_CAP key_size).
Implicit Types (a : Arena K V) (t : RawBTree K V) (g : tree) (fs : list frame) (f : frame) (key : K).

(** ** Replacing the contents of a leaf *)

Definition set_leaf t (i : nat) (kvs : list (K * V)) : RawBTree K V :=
  with_arena t (set_body (arena t) i (LeafBody kvs)).

Lemma set_leaf_holds t fs i kvs kvs' n :
  holds t (plug fs (TLeaf i kvs)) → n = length (lentries fs ++ kvs' ++ rentries fs) →
  holds (with_len (set_leaf t i kvs') n) (plug fs (TLeaf i kvs')).
Proof using Type.
  intros Ht Hn. apply holds_plug in Ht as (Hs & Hr & Hf & Hl & _). apply holds_plug.
  cbn [arena with_len set_leaf with_arena root first_leaf last_leaf len] in *. split_and!; [|by rewrite Hr, !tid_plug|done..].
  cbn [tid tbodies tparents ids leaves] in *.
  arrange_bodies Hs ((i, LeafBody kvs) :: cbodies fs i); [solve_Permutation|].
  apply (astate_set_body _ _ _ _ (LeafBody kvs')) in Hs. eapply astate_perm; [| | |exact Hs]; solve_Permutation.
Qed.

Lemma set_leaf_repr t g fs i kvs lo hi kvs' n :
  repr t g → leaf_at g fs i kvs lo hi → length kvs' <= LEAF_CAP →
  sorted_keys kvs'.*1 → Forall (in_range lo hi) kvs'.*1 →
  n = length (lentries fs ++ kvs' ++ rentries fs) →
  repr (with_len (set_leaf t i kvs') n) (plug fs (TLeaf i kvs')).
Proof using Type.
  intros [Ht Hs] [-> Hc (Hlen & Hlt & Hsk & Hrg)] Hcap Hs' Hr' Hn. split; [by eapply set_leaf_holds|].
  cbn [height with_len set_leaf with_arena].
  assert (height t = 0 + length fs) as ->.
  { eapply shape_depth; [exact Hs|]. by eapply plug_shape. }
  by apply (plug_shape _ _ _ _ lo hi).
Qed.

(** ** The leaves at both ends *)

Lemma shape_tleaves n lo hi g : shape n lo hi g → tleaves g ≠ [].
Proof using Type.
  revert lo hi g. induction n as [|n IH]; intros lo hi [i kvs|i ks cs]; try done.
  intros [_ Hs]. destruct cs as [|c cs]; [by destruct ks|]. cbn [tleaves List.flat_map].
  intros [Hc _]%app_nil. revert Hc. destruct ks as [|k ks]; [destruct cs; [|done]|destruct Hs]; by eapply IH.
Qed.

Lemma lseps_empty n lo ks (cs : list tree) :
  lseps (shape n) lo ks cs → List.flat_map tleaves cs = [] → ks = [].
Proof using Type.
  destruct ks as [|k ks], cs as [|c cs]; try done. intros [Hc _] [Hn _]%app_nil. by apply shape_tleaves in Hc.
Qed.

Lemma rseps_empty n ks (cs : list tree) hi :
  rseps (shape n) ks cs hi → List.flat_map tleaves cs = [] → ks = [].
Proof using Type.
  destruct ks as [|k ks], cs as [|c cs]; try done. intros [Hc _] [Hn _]%app_nil. by apply shape_tleaves in Hc.
Qed.

Lemma left_edge n fs lo hi : cshape n fs lo hi → ltleaves fs = [] → lo = None.
Proof using Type.
  revert n lo hi. induction fs as [|f fs IH]; intros n lo hi; [by intros [-> _]|].
  intros (flo & fhi & -> & _ & Hl & _ & _ & Hc) [Hfs Hf]%app_nil. rewrite (lseps_empty _ _ _ _ Hl Hf).
  by apply (IH _ _ _ Hc).
Qed.

Lemma right_edge n fs lo hi : cshape n fs lo hi → rtleaves fs = [] → hi = None.
Proof using Type.
  revert n lo hi. induction fs as [|f fs IH]; intros n lo hi; [by intros [_ ->]|].
  intros (flo & fhi & _ & -> & _ & Hr & _ & Hc) [Hf Hfs]%app_nil. rewrite (rseps_empty _ _ _ _ Hr Hf).
  by apply (IH _ _ _ Hc).
Qed.

Lemma first_leaf_at t g :
  repr t g → ∃ fs i kvs hi, first_leaf t = Some i ∧ leaf_at g fs i kvs None hi ∧
    length fs = height t ∧ ltleaves fs = [].
Proof using Type.
  intros Hr. destruct (tleaves g) as [|[i kvs] L] eqn:EL; [by destruct Hr as [_ Hs%shape_tleaves]|].
  destruct (repr_leaf _ _ _ _ [] _ _ _ Hr EL) as (fs & lo & hi & Hat & Hn & Hl & _).
  assert (lo = None) as -> by (eapply left_edge; [apply Hat|done]).
  exists fs, i, kvs, hi. split_and!; [|done..]. by rewrite (h_first _ _ (proj1 Hr)), <- tleaves_ids, EL.
Qed.

Lemma last_leaf_at t g :
  repr t g → ∃ fs i kvs lo, last_leaf t = Some i ∧ leaf_at g fs i kvs lo None ∧
    length fs = height t ∧ rtleaves fs = [].
Proof using Type.
  intros Hr. destruct (exists_last (l := tleaves g)) as (L & [i kvs] & EL); [by destruct Hr as [_ Hs%shape_tleaves]|].
  destruct (repr_leaf _ _ _ _ L _ _ [] Hr EL) as (fs & lo & hi & Hat & Hn & _ & Hl).
  assert (hi = None) as -> by (eapply right_edge; [apply Hat|done]).
  exists fs, i, kvs, lo. split_and!; [|done..].
  rewrite (h_last _ _ (proj1 Hr)), <- tleaves_ids, EL, fmap_app. apply last_snoc.
Qed.

(** ** The walk to the root *)

Lemma path_up_ok t fs g fuel path :
  holds t (plug fs g) → length fs < fuel → length fs + length path <= MAX_PATH_HEIGHT →
  path_up (arena t) fuel (tid g) path = Some (reverse (path_of fs) ++ path).
Proof using Type.
  revert g fuel path. induction fs as [|f fs IH]; intros g [|fuel] path Ht Hf Hm; try lia; cbn [path_up].
  { by rewrite (hole_parent _ _ _ Ht). }
  rewrite (hole_parent _ _ _ Ht). cbn [parent_of head fmap option_fmap option_map]. unfold internal_node.
  rewrite (hole_frame _ _ _ _ Ht), (hole_slot _ _ _ _ _ Ht). unfold path_push. cbn [length] in *.
  destruct (Nat.ltb_spec (length path) MAX_PATH_HEIGHT); [|lia].
  rewrite plug_cons in Ht. pose proof (IH _ fuel ((f_id f, length (f_left f)) :: path) Ht) as IH'.
  rewrite fill_id in IH'. rewrite IH' by (cbn; lia). cbn [path_of List.map].
  rewrite reverse_cons, <- app_assoc. done.
Qed.

Lemma path_to_node_ok t fs g :
  holds t (plug fs g) → length fs = height t → height t <= MAX_PATH_HEIGHT →
  path_to_node t (tid g) = Some (path_of fs).
Proof using Type.
  intros Ht Hn Hm. unfold path_to_node. rewrite (path_up_ok t fs g) by (done || (cbn; lia)).
  rewrite app_nil_r. unfold path_reverse. by rewrite reverse_involutive.
Qed.

Lemma leaf_path_ok t g fs i kvs lo hi :
  repr t g → leaf_at g fs i kvs lo hi → length fs = height t → height t <= MAX_PATH_HEIGHT →
  path_to_node t i = Some (path_of fs).
Proof using Type. intros [Ht _] [-> _ _]. apply (path_to_node_ok t fs (TLeaf i kvs) Ht). Qed.

(** ** Splitting a full leaf *)

(** The contents of the halves, on both sides of the middle. *)
Lemma split_contents t a I i r kvs pos key v B P L :
  astate a I ((i, LeafBody kvs) :: B) P L → r ∈ I → r ∉ i :: B.*1 →
  1 <= LEAF_CAP → length kvs = LEAF_CAP → pos <= length kvs →
  let mid := (LEAF_CAP + 1) / 2 in
  let kvs' := insert_at pos (key, v) kvs in
  ∃ a',
    (if pos <? mid then
       leaf_insert_at key_size val_size (with_arena t (set_body (set_body a r (LeafBody (drop (mid - 1) kvs))) i
         (LeafBody (take (mid - 1) kvs)))) i pos key v
     else Some (with_arena t (set_body (set_body a r (LeafBody (take (pos - mid) (drop mid kvs) ++
       (key, v) :: drop (mid + (pos - mid)) kvs))) i (LeafBody (take mid kvs))))) = Some (with_arena t a') ∧
    links a' = links a ∧ arena_len a' = arena_len a ∧
    astate a' I ((i, LeafBody (take mid kvs')) :: (r, LeafBody (drop mid kvs')) :: B) P L.
Proof using Type.
  intros Hs HrI Hfresh Hcap Hfull Hpos mid kvs'.
  assert (2 * mid <= LEAF_CAP + 1 ∧ LEAF_CAP < 2 * mid + 1) as Hmid.
  { pose proof (Nat.div_mod_eq (LEAF_CAP + 1) 2). pose proof (Nat.mod_upper_bound (LEAF_CAP + 1) 2 ltac:(lia)).
    subst mid. lia. }
  assert (∀ D T, astate (set_body (set_body a r (LeafBody D)) i (LeafBody T)) I
    ((i, LeafBody T) :: (r, LeafBody D) :: B) P L) as Hset.
  { intros D T. pose proof Hs as Hs'. apply (astate_new_body _ _ r (LeafBody D)) in Hs'; [|done..].
    arrange_bodies Hs' ((i, LeafBody kvs) :: (r, LeafBody D) :: B); [solve_Permutation|].
    by apply (astate_set_body _ _ _ _ (LeafBody T)) in Hs'. }
  destruct (Nat.ltb_spec pos mid) as [Hlt|Hge].
  - destruct (insert_at_low pos mid (key, v) kvs) as [Ht Hd]; [lia..|]. fold kvs' in Ht, Hd. rewrite Ht, Hd.
    pose proof (Hset (drop (mid - 1) kvs) (take (mid - 1) kvs)) as Hs'.
    unfold leaf_insert_at, leaf_kvs. cbn [arena with_arena].
    rewrite (field_look _ _ _ _ _ (as_bodies _ _ _ _ _ Hs')).
    destruct (Nat.ltb_spec (length (take (mid - 1) kvs)) LEAF_CAP) as [_|Hge]; [|rewrite length_take in Hge; lia].
    eexists. split_and!; [reflexivity|done|done|]. by eapply astate_set_body.
  - destruct (insert_at_high pos mid (key, v) kvs) as [Ht Hd]; [lia..|]. fold kvs' in Ht, Hd. rewrite Ht, Hd.
    eexists. split_and!; [reflexivity|done|done|]. unfold insert_at. rewrite drop_drop. apply Hset.
Qed.

(** The order of the halves. *)
Lemma split_shape lo hi i r (kvs : list (K * V)) mid k v :
  length kvs <= LEAF_CAP + mid → 1 <= mid <= LEAF_CAP → sorted_keys kvs.*1 → Forall (in_range lo hi) kvs.*1 →
  kvs !! mid = Some (k, v) →
  shape 0 lo (Some k) (TLeaf i (take mid kvs)) ∧ shape 0 (Some k) hi (TLeaf r (drop mid kvs)).
Proof using Type*.
  intros Hlen Hmid Hs Hr Hk. pose proof (lookup_lt_Some _ _ _ Hk) as Hml. pose proof Hr as Hr'. rewrite <- (take_drop mid kvs), fmap_app in Hr, Hs.
  apply Forall_app in Hr as [Hr1 Hr2].
  assert (kvs.*1 !! mid = Some k) as Hk' by by rewrite list_lookup_fmap, Hk.
  assert (in_range lo hi k) as [Hklo Hkhi].
  { rewrite Forall_forall in Hr'. apply Hr'. by eapply list_elem_of_lookup_2. }
  assert (drop mid kvs = (k, v) :: drop (S mid) kvs) as Hd by by apply drop_S.
  rewrite Hd, fmap_cons in Hs. pose proof Hs as Hsd. cbn [fst] in Hs, Hsd.
  assert (Forall (λ x, klt x k) (take mid kvs).*1 ∧ sorted_keys (take mid kvs).*1 ∧
    sorted_keys (k :: (drop (S mid) kvs).*1)) as (Hlt & Hs1 & Hs2).
  { apply StronglySorted_app in Hs as (Hx & Hs1 & Hs2). split_and!; [|done..].
    apply Forall_forall. intros x Hx'. apply Hx; [done|by left]. }
  cbn [shape]. rewrite length_take, length_drop. split_and!; try lia; try done.
  - destruct (take mid kvs) as [|[x w] l] eqn:Et; [apply (f_equal length) in Et; rewrite length_take in Et; cbn in Et; lia|].
    rewrite fmap_cons in Hlt, Hr1. apply Forall_cons in Hlt as [Hx _]. apply Forall_cons in Hr1 as [[Hxlo _] _].
    destruct lo as [l0|]; [|done]. by apply (kle_klt_trans l0 x k).
  - rewrite Forall_forall in Hlt, Hr1 |- *. intros x Hx. split; [by apply Hr1|by apply Hlt].
  - by rewrite Hd, fmap_cons.
  - rewrite Hd, fmap_cons in Hr2 |- *. inversion Hs2 as [|? ? _ Hall]; subst. apply Forall_cons in Hr2 as [_ Hr2].
    constructor; [split; [apply kle_refl|done]|]. rewrite Forall_forall in Hall, Hr2 |- *. intros x Hx.
    split; [by apply klt_kle, Hall|by apply Hr2].
Qed.

(** Linking the new leaf. *)
Lemma link_new_leaf t a I B P L1 i r L2 :
  astate a I B P (L1 ++ i :: L2) → r ∈ I → r ∉ L1 ++ i :: L2 → last_leaf t = last (L1 ++ i :: L2) →
  ∃ t1,
    match head L2 with
    | Some o =>
        match links (set_links (set_links a i (last L1, Some r)) r (Some i, head L2)) !! o with
        | Some (_, nn) => Some (with_arena t
            (set_links (set_links (set_links a i (last L1, Some r)) r (Some i, head L2)) o (Some r, nn)))
        | None => None
        end
    | None => Some (with_last_leaf (with_arena t
        (set_links (set_links a i (last L1, Some r)) r (Some i, head L2))) (Some r))
    end = Some t1 ∧
    astate (arena t1) I B P (L1 ++ i :: r :: L2) ∧ root t1 = root t ∧ first_leaf t1 = first_leaf t ∧
    last_leaf t1 = last (L1 ++ i :: r :: L2) ∧ len t1 = len t ∧ height t1 = height t ∧
    arena_len (arena t1) = arena_len a.
Proof using Type.
  intros [Hb Hp Hl Ha] HrI Hr Hlast. pose proof (chain_split _ _ _ _ _ _ HrI Hr Hl) as Hch. cbn zeta in Hch.
  destruct L2 as [|o L2]; cbn [head] in Hch |- *.
  - eexists. split; [reflexivity|]. cbn. split_and!; try done. rewrite last_app_cons, last_cons_cons. done.
  - destruct Hch as (nn & Hnn & Hch). cbn [links set_links arena_with]. rewrite Hnn. eexists. split; [reflexivity|].
    cbn. split_and!; try done. rewrite Hlast, !last_app_cons, !last_cons_cons. done.
Qed.

Lemma leaf_split_ok t g fs i kvs lo hi pos key v :
  1 <= LEAF_CAP → room 1 (arena t) → repr t g → leaf_at g fs i kvs lo hi →
  length kvs = LEAF_CAP → pos <= length kvs →
  sorted_keys (insert_at pos (key, v) kvs).*1 → in_range lo hi key →
  let mid := (LEAF_CAP + 1) / 2 in
  let kvs' := insert_at pos (key, v) kvs in
  ∃ k' r t', leaf_split_and_insert key_size val_size t i pos key v = Some (k', r, t') ∧
    split_at key_size val_size (with_len t' (len t' + 1)) 0 fs (TLeaf i (take mid kvs')) k' (TLeaf r (drop mid kvs')) ∧
    (∀ m, room (S m) (arena t) → room m (arena t')).
Proof using Type*.
  intros Hcap Hroom [Ht Hsh] [-> Hc (Hlen & Hlt & Hsk & Hrg)] Hfull Hpos Hsort Hkey mid kvs'.
  assert (2 * mid <= LEAF_CAP + 1 ∧ LEAF_CAP < 2 * mid + 1) as Hmid.
  { pose proof (Nat.div_mod_eq (LEAF_CAP + 1) 2). pose proof (Nat.mod_upper_bound (LEAF_CAP + 1) 2 ltac:(lia)).
    subst mid. lia. }
  assert (length kvs' = LEAF_CAP + 1) as Hkvs' by (unfold kvs'; rewrite insert_at_length by done; lia).
  destruct (lookup_lt_is_Some_2 kvs' mid) as [[k' v'] Hk']; [lia|].
  assert (Forall (in_range lo hi) kvs'.*1) as Hrg'.
  { unfold kvs'. rewrite insert_at_fmap, Forall_app, Forall_cons. rewrite <- (take_drop pos kvs.*1) in Hrg.
    apply Forall_app in Hrg as [? ?]. by split_and!. }
  destruct (proj1 (holds_plug _ _ _) Ht) as (Hs & Hr & Hf & Hl & Hn).
  cbn [tid ids tbodies tparents leaves entries] in *.
  unfold leaf_split_and_insert. fold mid.
  destruct (alloc_node_ok _ _ _ _ _ Hroom Hs) as (r & a & -> & Hfresh & Hs' & Hroom').
  rewrite (chain_at _ _ _ _ _ (as_links _ _ _ _ _ Hs')).
  assert (parents a !! i = Some (parent_of fs)) as ->.
  { eapply field_get; [|apply (as_parents _ _ _ _ _ Hs')]. apply elem_of_app. right. by left. }
  assert (r ∉ cids fs ∧ r ≠ i) as [Hrc Hri] by (rewrite elem_of_app, list_elem_of_singleton in Hfresh; tauto).
  apply (astate_new_parent _ _ r (parent_of fs)) in Hs'; [|by left|rewrite fmap_app, cparents_ids; set_solver].
  arrange_bodies Hs' ((i, @LeafBody K V kvs) :: cbodies fs i); [solve_Permutation|].
  assert (leaf_kvs (set_parent a r (parent_of fs)) i = Some kvs) as ->.
  { unfold leaf_kvs. by rewrite (field_look _ _ _ _ _ (as_bodies _ _ _ _ _ Hs')). }
  rewrite Hfull, Nat.eqb_refl. cbn [negb].
  destruct (split_contents t _ _ i r kvs pos key v _ _ _ Hs') as (a' & Ha' & Hlinks & Hlen' & Hs'');
    [by left|rewrite cbodies_ids; set_solver|done..|]. fold mid kvs' in Ha', Hs''.
  rewrite Ha'. change (arena (with_arena t a')) with a'. clear Ha' Hs'.
  destruct (link_new_leaf (with_arena t a') a' _ _ _ (lleaves fs) i r (rleaves fs) Hs'') as (t1 & -> & Hs1 & Hr1 & Hf1 & Hl1 & Hn1 & Hh1 & Ha1);
    [by left|intros Hin; destruct (as_links _ _ _ _ _ Hs) as (_ & Hsub & _); rewrite chain_ids in Hsub;
     by apply Hfresh, Hsub|done|].
  cbn [root first_leaf len height with_arena] in Hr1, Hf1, Hn1, Hh1.
  assert (leaf_kvs (arena t1) r = Some (drop mid kvs')) as ->.
  { unfold leaf_kvs. erewrite (field_get (bodies (arena t1))); [|by right; left|apply (as_bodies _ _ _ _ _ Hs1)]. done. }
  rewrite lookup_drop, Nat.add_0_r, Hk'. exists k', r, t1. split; [done|]. split.
  - split; cbn [arena with_len root first_leaf last_leaf len height tid ids tbodies tparents leaves entries app].
    + eapply astate_perm; [| | |exact Hs1]; solve_Permutation.
    + rewrite Hr1, Hr, tid_plug. done.
    + rewrite Hf1, Hf. by destruct (lleaves fs).
    + done.
    + rewrite Hn1, Hn, take_drop. unfold kvs'. rewrite !length_app, insert_at_length by done. lia.
    + rewrite Hh1. eapply shape_depth; [exact Hsh|]. by eapply plug_shape.
    + exists lo, hi. split; [done|]. by apply (split_shape lo hi i r kvs' mid k' v'); [lia|lia|..].
  - intros m Hm. specialize (Hroom' m Hm). unfold room in *. by rewrite Ha1, Hlen'.
Qed.
End leaf.
