(* ===== verification/BTreeInsert.v ===== *)
(** * The B+ tree engine: insertion

    What [insert] and the vacant entry do to the tree and to the ordered map it
    represents, on every path: the first entry, the appending and prepending fast
    paths, overwriting, a leaf with room, and splits up to a new root. *)

From Stdlib Require Import ZArith Lia.
From stdpp Require Import list_tactics sorting.
From S2P Require Import Prelude BTree BTreeInv BTreeShape BTreeRep SortedAssoc BTreeSearch BTreeSplit BTreeLeaf.

Section insert.
Context {K V : Type} `{OrdLaws K} {MK : MinKeys} (key_size val_size : nat).
Abbreviation tree := (tree K V).
Abbreviation frame := (frame K V).
Abbreviation cshape := (cshape key_size val_size).
Abbreviation repr := (repr key_size val_size).
Abbreviation leaf_at := (leaf_at key_size val_size).
Abbreviation LEAF_CAP := (LEAF_CAP key_size val_size).
Abbreviation INTERNAL_CAP := (INTERNAL_CAP key_size).
Implicit Types (a : Arena K V) (t : RawBTree K V) (g : tree) (fs : list frame) (key : K) (l : list (K * V)).

Definition empty_tree t : Prop :=
  root t = None ∧ first_leaf t = None ∧ last_leaf t = None ∧ len t = 0 ∧ height t = 0 ∧ arena_ok (arena t) [].

(** The tree is well formed and [l] is the list of its entries. *)
Definition represents t l : Prop := (empty_tree t ∧ l = []) ∨ (∃ g, repr t g ∧ l = entries g).

Lemma represents_len t l : represents t l → len t = length l.
Proof using Type. intros [[(_ & _ & _ & Hl & _) ->]|(g & [Ht _] & ->)]; [done|by apply h_len]. Qed.

Lemma represents_sorted t l : represents t l → sorted_map l.
Proof using Type*.
  intros [[_ ->]|(g & [_ Hs] & ->)]; [constructor|]. by apply shape_entries in Hs as [? _].
Qed.

Lemma tree_new_represents : represents tree_new [].
Proof using Type. left. split; [|done]. repeat split; cbn; [constructor..|lia]. Qed.

(** ** A place for a new entry *)

Record place g fs (i : nat) (kvs : list (K * V)) (pos : nat) key : Prop := {
  pl_bounds : ∃ lo hi, leaf_at g fs i kvs lo hi ∧ in_range lo hi key;
  pl_pos : pos <= length kvs;
  pl_below : all_below key (take pos kvs);
  pl_above : all_above key (drop pos kvs);
}.

Lemma around_hole fs lo hi key :
  cshape 0 fs lo hi → in_range lo hi key → all_below key (lentries fs) ∧ all_above key (rentries fs).
Proof using Type*.
  intros Hc [Hlo Hhi]. destruct (cshape_entries _ _ _ _ _ _ Hc) as [Hl Hr]. split.
  - apply (Forall_impl _ _ _ Hl). intros k (b & -> & Hk). by apply (klt_kle_trans k b).
  - apply (Forall_impl _ _ _ Hr). intros k (b & -> & Hk). by apply (klt_kle_trans key b).
Qed.

Lemma place_entries g fs i kvs pos key v :
  place g fs i kvs pos key →
  sm_lookup (entries g) key = None ∧
  sm_insert (entries g) key v = lentries fs ++ insert_at pos (key, v) kvs ++ rentries fs ∧
  sorted_keys (insert_at pos (key, v) kvs).*1.
Proof using Type*.
  intros [(lo & hi & [-> Hc Hl] & Hr) Hpos Hb Ha]. destruct (around_hole _ _ _ _ Hc Hr) as [Hbl Hab].
  rewrite entries_plug. cbn [entries]. rewrite <- (take_drop pos kvs) at 1 2.
  rewrite <- app_assoc, app_assoc.
  destruct (sm_absent key v (lentries fs ++ take pos kvs) (drop pos kvs ++ rentries fs)) as (-> & -> & _);
    [by apply all_below_app|by apply all_above_app|]. unfold insert_at. split_and!; [done|by rewrite <- !app_assoc|].
  apply sorted_extend; [|done..]. rewrite take_drop. by destruct Hl as (_ & _ & Hs & _).
Qed.

Lemma insert_room t g fs i kvs pos key v :
  repr t g → place g fs i kvs pos key → length kvs < LEAF_CAP →
  leaf_insert_at key_size val_size t i pos key v = Some (set_leaf t i (insert_at pos (key, v) kvs)) ∧
  represents (with_len (set_leaf t i (insert_at pos (key, v) kvs)) (len t + 1)) (sm_insert (entries g) key v) ∧
  repr (with_len (set_leaf t i (insert_at pos (key, v) kvs)) (len t + 1))
    (plug fs (TLeaf i (insert_at pos (key, v) kvs))).
Proof using Type*.
  intros Hr Hp Hlen. destruct (place_entries _ _ _ _ _ _ v Hp) as (_ & -> & Hs).
  destruct Hp as [(lo & hi & Hat & Hrg) Hpos _ _].
  assert (repr (with_len (set_leaf t i (insert_at pos (key, v) kvs)) (len t + 1))
    (plug fs (TLeaf i (insert_at pos (key, v) kvs)))) as Hrep.
  { apply (set_leaf_repr _ _ t g fs i kvs lo hi); [done|done|rewrite insert_at_length by done; lia|done| |].
    - destruct Hat as [_ _ (_ & _ & _ & Hall)]. rewrite insert_at_fmap, Forall_app, Forall_cons.
      rewrite <- (take_drop pos kvs.*1) in Hall. apply Forall_app in Hall as [? ?]. by split_and!.
    - rewrite (h_len _ _ (proj1 Hr)), (la_tree _ _ _ _ _ _ _ _ Hat), entries_plug. cbn [entries].
      rewrite !length_app, insert_at_length by done. lia. }
  split_and!; [|right; eexists; split; [exact Hrep|by rewrite entries_plug]|done].
  unfold leaf_insert_at. rewrite (leaf_at_kvs _ _ _ _ _ _ _ _ _ (proj1 Hr) Hat).
  destruct (Nat.ltb_spec (length kvs) LEAF_CAP); [done|lia].
Qed.

Lemma insert_split t g fs i kvs pos key v :
  1 <= LEAF_CAP → 2 <= INTERNAL_CAP → room (height t + 2) (arena t) → length fs = height t →
  repr t g → place g fs i kvs pos key → length kvs = LEAF_CAP →
  ∃ k' r t1 t', leaf_split_and_insert key_size val_size t i pos key v = Some (k', r, t1) ∧
    height t1 = height t ∧
    propagate_split key_size (with_len t1 (len t1 + 1)) (path_of fs) k' r = Some t' ∧
    propagate_split_lazy key_size (height t1 + 1) (with_len t1 (len t1 + 1)) i k' r = Some t' ∧
    represents t' (sm_insert (entries g) key v) ∧
    ∃ g', repr t' g' ∧ tleaves g' = ltleaves fs ++
      [(i, take ((LEAF_CAP + 1) / 2) (insert_at pos (key, v) kvs));
       (r, drop ((LEAF_CAP + 1) / 2) (insert_at pos (key, v) kvs))] ++ rtleaves fs.
Proof using Type*.
  intros Hcl Hci Hroom Hh Hr Hp Hfull. destruct (place_entries _ _ _ _ _ _ v Hp) as (_ & -> & Hs).
  destruct Hp as [(lo & hi & Hat & Hrg) Hpos _ _].
  destruct (leaf_split_ok _ _ t g fs i kvs lo hi pos key v Hcl ltac:(unfold room in *; lia) Hr Hat Hfull Hpos Hs Hrg)
    as (k' & r & t1 & Hsplit & Hsa & Hroom').
  assert (height t1 = length fs) as Hh1 by apply (sa_height _ _ _ _ _ _ _ _ Hsa).
  edestruct (λ Hrm, propagate_ok key_size val_size fs (with_len t1 (len t1 + 1)) 0 _ k' _ Hci Hrm Hsa) as (t' & Ht' & Hlazy & g' & Hg' & Hent);
    [apply (Hroom' (length fs + 1)); unfold room in *; lia|].
  exists k', r, t1, t'. split_and!; [done|lia|done|apply Hlazy; cbn; lia| |].
  - right. exists g'. split; [done|]. rewrite (split_done_entries _ _ _ _ Hent). cbn [entries]. by rewrite take_drop.
  - by exists g'.
Qed.

(** Appending behind the last entry and prepending before the first. *)
Lemma append_place g key fs i kvs lo k w :
  leaf_at g fs i kvs lo None → rtleaves fs = [] → last kvs = Some (k, w) → klt k key →
  place g fs i kvs (length kvs) key.
Proof using Type*.
  intros Hat Hrt Hlast Hlt. pose proof Hat as [_ _ (_ & _ & Hs & Hall)].
  assert (kvs.*1 !! (length kvs - 1) = Some k) as Hk.
  { rewrite last_lookup in Hlast. rewrite list_lookup_fmap.
    replace (length kvs - 1) with (pred (length kvs)) by lia. by rewrite Hlast. }
  split.
  - exists lo, None. split; [done|]. split; [|done]. rewrite Forall_forall in Hall.
    destruct (Hall k) as [Hlo _]; [by eapply list_elem_of_lookup_2|]. destruct lo as [b|]; [|done].
    transitivity k; [done|by apply klt_kle].
  - done.
  - rewrite take_ge by done. apply Forall_forall. intros x Hx. apply list_elem_of_lookup in Hx as (j & Hj).
    pose proof (lookup_lt_Some _ _ _ Hj) as Hjl. rewrite length_fmap in Hjl.
    apply (kle_klt_trans x k); [|done]. apply (sorted_lookup_le kvs.*1 j (length kvs - 1)); [done..|lia].
  - rewrite drop_ge by done. constructor.
Qed.

Lemma prepend_place g key fs i kvs hi k w :
  leaf_at g fs i kvs None hi → ltleaves fs = [] → head kvs = Some (k, w) → klt key k →
  place g fs i kvs 0 key.
Proof using Type*.
  intros Hat Hlt Hhead Hk. pose proof Hat as [_ _ (_ & _ & Hs & Hall)].
  destruct kvs as [|[k' w'] kvs]; [done|]. cbn in Hhead. simplify_eq.
  rewrite fmap_cons in Hs, Hall. inversion Hs as [|? ? _ Hgt]; subst. apply Forall_cons in Hall as [[_ Hhi] _].
  split.
  - exists None, hi. split; [done|]. split; [done|]. destruct hi as [b|]; [|done]. by transitivity k.
  - lia.
  - constructor.
  - apply all_above_cons. split; [done|]. apply (Forall_impl _ _ _ Hgt). intros x Hx. by transitivity k.
Qed.

(** ** [insert] *)

Section paths.
Context t g (Hr : repr t g) (key : K) (v : V).
Context (Hcl : 1 <= LEAF_CAP) (Hci : 2 <= INTERNAL_CAP).
Context (Hroom : room (height t + 2) (arena t)) (Hheight : height t <= MAX_PATH_HEIGHT).

Lemma split_leaf_ok fs i kvs pos :
  length fs = height t → place g fs i kvs pos key → length kvs = LEAF_CAP →
  ∃ t', split_leaf key_size val_size t (path_of fs) i pos key v = Some t' ∧
    represents t' (sm_insert (entries g) key v).
Proof using Hcl Hci Hroom Hr Hheight H0.
  intros Hh Hp Hfull. destruct (insert_split t g fs i kvs pos key v Hcl Hci Hroom Hh Hr Hp Hfull)
    as (k' & r & t1 & t' & Hsplit & _ & Hprop & _ & Hrep & _).
  exists t'. split; [|done]. unfold split_leaf. by rewrite Hsplit.
Qed.

Lemma insert_new_ok fs i kvs pos :
  length fs = height t → place g fs i kvs pos key →
  ∃ t', insert_new key_size val_size t (path_of fs) i pos key v = Some (t', None) ∧
    represents t' (sm_insert (entries g) key v).
Proof using Hcl Hci Hroom Hr Hheight H0.
  intros Hh Hp. destruct (pl_bounds _ _ _ _ _ _ Hp) as (lo & hi & Hat & _).
  unfold insert_new. rewrite (leaf_at_kvs _ _ _ _ _ _ _ _ _ (proj1 Hr) Hat).
  destruct (Nat.ltb_spec (length kvs) LEAF_CAP) as [Hlt|Hge].
  - destruct (insert_room t g fs i kvs pos key v Hr Hp Hlt) as (-> & Hrep & _). eauto.
  - destruct (split_leaf_ok fs i kvs pos Hh Hp) as (t' & -> & Hrep); [|eauto].
    destruct Hat as [_ _ (Hle & _)]. lia.
Qed.

(** Where the search for the insertion position ends. *)
Lemma search_place fs i kvs lo hi :
  leaf_at g fs i kvs lo hi → encloses (λ k, ltb key k) lo hi →
  let pos := find_index (λ k, leb key k) kvs.*1 in
  match kvs !! pos with
  | Some (k, w) => (k = key ∧ sm_lookup (entries g) key = Some w ∧
      represents (set_leaf t i (<[pos := (key, v)]> kvs)) (sm_insert (entries g) key v)) ∨
      (k ≠ key ∧ place g fs i kvs pos key)
  | None => place g fs i kvs pos key
  end.
Proof using Hr H0.
  intros Hat He pos. pose proof (leaf_at_sorted _ _ _ _ _ _ _ _ Hat) as Hs.
  destruct (leaf_lookup _ _ _ _ _ _ _ _ _ Hat He) as (Hbl & Hab & Hrg & Hlk).
  destruct (find_index_ge kvs.*1 key pos eq_refl) as (Hle & Hbef & Hat0). rewrite length_fmap in Hle.
  assert (all_below key (take pos kvs)) as Htake.
  { unfold all_below. apply Forall_forall. intros k Hk. rewrite fmap_take in Hk.
    apply list_elem_of_lookup in Hk as (j & Hj). apply lookup_take_Some in Hj as [Hj Hlt]. by apply (Hbef j k). }
  destruct (kvs !! pos) as [[k w]|] eqn:Ek.
  - assert (kvs.*1 !! pos = Some k) as Hk by by rewrite list_lookup_fmap, Ek.
    pose proof (Hat0 k Hk) as [Hlt| ->]%kle_spec.
    + right. split; [intros ->; by apply (klt_irrefl key)|]. split; [eauto|done|done|].
      rewrite (drop_S _ _ _ Ek). apply all_above_cons. split; [done|].
      rewrite <- (take_drop_middle _ _ _ Ek) in Hs. apply sorted_middle in Hs as (_ & Ha & _).
      apply (Forall_impl _ _ _ Ha). intros x Hx. by transitivity k.
    + left. split; [done|].
      destruct (sm_present k v w (lentries fs ++ take pos kvs) (drop (S pos) kvs ++ rentries fs)) as (Hl & Hi & _);
        [by apply all_below_app|].
      assert (entries g = (lentries fs ++ take pos kvs) ++ (k, w) :: drop (S pos) kvs ++ rentries fs) as Hent.
      { rewrite (la_tree _ _ _ _ _ _ _ _ Hat), entries_plug. cbn [entries].
        rewrite <- (take_drop_middle _ _ _ Ek) at 1. by rewrite <- !app_assoc. }
      rewrite Hent. split; [done|]. right. exists (plug fs (TLeaf i (<[pos := (k, v)]> kvs))).
      assert ((<[pos := (k, v)]> kvs).*1 = kvs.*1) as Hkeys.
      { rewrite list_fmap_insert. cbn. by apply list_insert_id. }
      assert (<[pos := (k, v)]> kvs = take pos kvs ++ (k, v) :: drop (S pos) kvs) as Hins
        by (apply insert_take_drop; by eapply lookup_lt_Some).
      split.
      * apply (set_leaf_repr _ _ t g fs i kvs lo hi _ (len t)); rewrite ?Hkeys; try done.
        -- rewrite length_insert. by destruct Hat as [_ _ (? & _)].
        -- by destruct Hat as [_ _ (_ & _ & _ & ?)].
        -- rewrite (h_len _ _ (proj1 Hr)), (la_tree _ _ _ _ _ _ _ _ Hat), entries_plug. cbn [entries].
           by rewrite !length_app, length_insert.
      * rewrite Hi, entries_plug. cbn [entries]. rewrite Hins, <- !app_assoc. done.
  - split; [eauto|done|done|]. rewrite drop_ge; [constructor|]. by apply lookup_ge_None.
Qed.

Lemma insert_searched_ok :
  ∃ t', insert_searched key_size val_size t (tid g) key v = Some (t', sm_lookup (entries g) key) ∧
    represents t' (sm_insert (entries g) key v).
Proof using Hcl Hci Hroom Hr Hheight H0.
  destruct (find_leaf _ _ t g (λ k, ltb key k) Hr) as (fs & i & kvs & lo & hi & Hd & Hat & He & Hh & Hpath); [by split|].
  unfold insert_searched, search_for_insert. rewrite (Hpath key eq_refl Hheight).
  rewrite !(leaf_at_kvs _ _ _ _ _ _ _ _ _ (proj1 Hr) Hat).
  pose proof (search_place fs i kvs lo hi Hat He) as Hsp. cbn zeta in Hsp.
  set (pos := find_index (λ k, leb key k) kvs.*1) in *.
  assert (place g fs i kvs pos key → ∃ t',
    insert_new key_size val_size t (path_of fs) i pos key v = Some (t', sm_lookup (entries g) key) ∧
    represents t' (sm_insert (entries g) key v)) as Hnew.
  { intros Hp. destruct (place_entries _ _ _ _ _ _ v Hp) as (-> & _). by apply (insert_new_ok fs i kvs pos). }
  destruct (kvs !! pos) as [[k w]|]; [|by apply Hnew].
  destruct Hsp as [(-> & -> & Hrep)|[Hne Hp]].
  - rewrite bool_decide_eq_true_2 by apply cmp_refl. eexists. by split.
  - rewrite bool_decide_eq_false_2 by (by rewrite cmp_eq). by apply Hnew.
Qed.

Lemma insert_ok :
  ∃ t', insert key_size val_size t key v = Some (t', sm_lookup (entries g) key) ∧
    represents t' (sm_insert (entries g) key v).
Proof using Hcl Hci Hroom Hr Hheight H0.
  unfold insert. rewrite (h_root _ _ (proj1 Hr)).
  destruct (last_leaf_at _ _ t g Hr) as (fs & i & kvs & lo & -> & Hat & Hh & Hrt).
  rewrite (leaf_at_kvs _ _ _ _ _ _ _ _ _ (proj1 Hr) Hat).
  destruct (match last kvs with Some (last_key, _) => ltb last_key key | None => false end) eqn:Elast.
  { destruct (last kvs) as [[k w]|] eqn:El; [|done]. apply ltb_lt in Elast.
    pose proof (append_place g key fs i kvs lo k w Hat Hrt El Elast) as Hp.
    destruct (place_entries _ _ _ _ _ _ v Hp) as (-> & _ & _).
    destruct (Nat.ltb_spec (length kvs) LEAF_CAP) as [Hlt|Hge].
    - destruct (insert_room t g fs i kvs _ key v Hr Hp Hlt) as (_ & Hrep & _). eexists. split; [|exact Hrep].
      unfold insert_at. by rewrite take_ge, drop_ge.
    - assert (length kvs = LEAF_CAP) as Hfull by (destruct Hat as [_ _ (Hle & _)]; lia).
      rewrite (leaf_path_ok _ _ _ _ _ _ _ _ _ Hr Hat Hh Hheight).
      destruct (split_leaf_ok fs i kvs _ Hh Hp Hfull) as (t' & -> & Hrep). eauto. }
  clear dependent fs i kvs lo. destruct (first_leaf_at _ _ t g Hr) as (fs & i & kvs & hi & -> & Hat & Hh & Hlt).
  rewrite (leaf_at_kvs _ _ _ _ _ _ _ _ _ (proj1 Hr) Hat).
  destruct (match head kvs with Some (first_key, _) => ltb key first_key | None => false end) eqn:Ehead;
    [|apply insert_searched_ok].
  destruct (head kvs) as [[k w]|] eqn:El; [|done]. apply ltb_lt in Ehead.
  pose proof (prepend_place g key fs i kvs hi k w Hat Hlt El Ehead) as Hp.
  destruct (place_entries _ _ _ _ _ _ v Hp) as (-> & _ & _).
  destruct (Nat.ltb_spec (length kvs) LEAF_CAP) as [Hltc|Hge].
  - destruct (insert_room t g fs i kvs _ key v Hr Hp Hltc) as (-> & Hrep & _). eexists. split; [done|exact Hrep].
  - assert (length kvs = LEAF_CAP) as Hfull by (destruct Hat as [_ _ (Hle & _)]; lia).
    rewrite (leaf_path_ok _ _ _ _ _ _ _ _ _ Hr Hat Hh Hheight).
    destruct (split_leaf_ok fs i kvs _ Hh Hp Hfull) as (t' & -> & Hrep). eauto.
Qed.
End paths.

(** The first entry. *)
Lemma insert_first_ok t key v :
  1 <= LEAF_CAP → empty_tree t → room 1 (arena t) →
  ∃ t' i, insert_first t key v = Some t' ∧ repr t' (TLeaf i [(key, v)]).
Proof using Type*.
  intros Hcap (Hr & Hf & Hl & Hn & Hh & Ha) Hroom. unfold insert_first.
  assert (∀ {A} (m : gmap nat A), field_ok m [] []) as Hnil.
  { intros A m. split; [apply NoDup_nil_2|]. split; [done|apply agrees_nil]. }
  assert (astate (arena t) [] [] [] []) as Hs by by split.
  destruct (alloc_node_ok _ _ _ _ _ Hroom Hs) as (i & a & -> & _ & [Hb Hp Hli Ha'] & _).
  eexists _, i. split; [reflexivity|]. split.
  - split; cbn; try done. split; [..|exact Ha']; (apply field_new; [by left|apply not_elem_of_nil|done]).
  - cbn [height]. rewrite Hh. cbn [shape]. split_and!; [done|done|repeat constructor..].
Qed.

Lemma insert_represents t l key v :
  1 <= LEAF_CAP → 2 <= INTERNAL_CAP → represents t l → room (height t + 2) (arena t) → height t <= MAX_PATH_HEIGHT →
  ∃ t', insert key_size val_size t key v = Some (t', sm_lookup l key) ∧ represents t' (sm_insert l key v).
Proof using Type*.
  intros Hcl Hci [[He ->]|(g & Hr & ->)] Hroom Hheight; [|by apply insert_ok].
  destruct (insert_first_ok t key v Hcl He ltac:(unfold room in *; lia)) as (t' & i & Ht' & Hrep).
  exists t'. unfold insert. rewrite (proj1 He), Ht'. split; [done|]. right. by eexists.
Qed.

(** C32: insertion.  On a well-formed B+ tree, whatever path the code takes -
    first entry, append, prepend, overwrite, a leaf with room, or splits up to a
    new root - [insert] returns the previous value of the key and leaves a
    well-formed tree whose entries are those of the ordered map with the key set
    to the value; as long as node indices fit 31 bits and the tree is at most as
    tall as the path buffer. *)
Theorem btree_insert_correct t l key v :
  assert_capacities key_size val_size = true → represents t l →
  room (height t + 2) (arena t) → height t <= MAX_PATH_HEIGHT →
  ∃ t', insert key_size val_size t key v = Some (t', sm_lookup l key) ∧ represents t' (sm_insert l key v).
Proof using Type*.
  intros [Hcl%Nat.leb_le Hci%Nat.leb_le]%andb_true_iff. by apply insert_represents.
Qed.

(** ** The entry interface *)

Lemma insert_at_vacant_ok t g fs i kvs pos key v :
  1 <= LEAF_CAP → 2 <= INTERNAL_CAP → room (height t + 2) (arena t) → length fs = height t →
  repr t g → place g fs i kvs pos key →
  ∃ t' j s kvs', insert_at_vacant key_size val_size t i pos key v = Some (t', (j, s)) ∧
    represents t' (sm_insert (entries g) key v) ∧
    leaf_kvs (arena t') j = Some kvs' ∧ kvs' !! s = Some (key, v).
Proof using Type*.
  intros Hcl Hci Hroom Hh Hr Hp. destruct (pl_bounds _ _ _ _ _ _ Hp) as (lo & hi & Hat & _).
  pose proof (pl_pos _ _ _ _ _ _ Hp) as Hpos.
  assert (∀ x, insert_at pos x kvs !! pos = Some x) as Hnth.
  { intros x. unfold insert_at. apply list_lookup_middle. by rewrite length_take, Nat.min_l. }
  unfold insert_at_vacant. rewrite (leaf_at_kvs _ _ _ _ _ _ _ _ _ (proj1 Hr) Hat).
  destruct (Nat.ltb_spec (length kvs) LEAF_CAP) as [Hlt|Hge].
  { destruct (insert_room t g fs i kvs pos key v Hr Hp Hlt) as (-> & Hrep & Hr' & _).
    exists (with_len (set_leaf t i (insert_at pos (key, v) kvs)) (len t + 1)), i, pos, (insert_at pos (key, v) kvs).
    split_and!; [reflexivity|done| |apply Hnth]. pose proof (hole_body _ _ _ Hr') as Hb. cbn [tid] in Hb.
    unfold leaf_kvs. by rewrite Hb. }
  assert (length kvs = LEAF_CAP) as Hfull by (destruct Hat as [_ _ (Hle & _)]; lia).
  destruct (insert_split t g fs i kvs pos key v Hcl Hci Hroom Hh Hr Hp Hfull)
    as (k' & r & t1 & t' & -> & Hh1 & _ & Hlazy & Hrep & g' & Hr' & HL).
  set (mid := (LEAF_CAP + 1) / 2) in *. cbn [height with_len]. rewrite Hlazy.
  destruct (Nat.ltb_spec pos mid) as [Hlm|Hgm].
  - destruct (repr_leaf _ _ _ _ _ _ _ _ Hr' HL) as (fs' & lo' & hi' & Hat' & _).
    eexists _, i, pos, _. split_and!; [reflexivity|done|apply (leaf_at_kvs _ _ _ _ _ _ _ _ _ (proj1 Hr') Hat')|].
    rewrite lookup_take_lt by lia. apply Hnth.
  - change [?x; ?y] with ([x] ++ [y]) in HL. rewrite <- app_assoc, app_assoc in HL.
    destruct (repr_leaf _ _ _ _ _ _ _ _ Hr' HL) as (fs' & lo' & hi' & Hat' & _).
    eexists _, r, (pos - mid), _.
    split_and!; [reflexivity|done|apply (leaf_at_kvs _ _ _ _ _ _ _ _ _ (proj1 Hr') Hat')|].
    rewrite lookup_drop. replace (mid + (pos - mid)) with pos by lia. apply Hnth.
Qed.

Lemma entry_search_ok t l key v :
  assert_capacities key_size val_size = true → represents t l → room (height t + 2) (arena t) →
  match entry_search t key with
  | Some EmptyTree => l = [] ∧ ∃ t', insert_first t key v = Some t' ∧ represents t' [(key, v)]
  | Some (OccupiedAt i s) => ∃ kvs w, leaf_kvs (arena t) i = Some kvs ∧ kvs !! s = Some (key, w) ∧
      sm_lookup l key = Some w ∧ represents (set_leaf t i (<[s := (key, v)]> kvs)) (sm_insert l key v)
  | Some (VacantAt i pos) => sm_lookup l key = None ∧
      ∃ t' j s kvs, insert_at_vacant key_size val_size t i pos key v = Some (t', (j, s)) ∧
        represents t' (sm_insert l key v) ∧ leaf_kvs (arena t') j = Some kvs ∧ kvs !! s = Some (key, v)
  | None => False
  end.
Proof using Type*.
  intros [Hcl%Nat.leb_le Hci%Nat.leb_le]%andb_true_iff Hrep Hroom. unfold entry_search.
  destruct Hrep as [[He ->]|(g & Hr & ->)].
  { rewrite (proj1 He). split; [done|].
    destruct (insert_first_ok t key v Hcl He ltac:(unfold room in *; lia)) as (t' & i & Ht' & Hrep).
    exists t'. split; [done|]. right. by eexists. }
  rewrite (h_root _ _ (proj1 Hr)). unfold search_for_insert_no_path.
  destruct (find_leaf _ _ t g (λ k, ltb key k) Hr) as (fs & i & kvs & lo & hi & Hd & Hat & He & Hh & _); [by split|].
  rewrite (Hd _ (linear_correct key)). rewrite !(leaf_at_kvs _ _ _ _ _ _ _ _ _ (proj1 Hr) Hat).
  pose proof (search_place t g Hr key v fs i kvs lo hi Hat He) as Hsp. cbn zeta in Hsp.
  set (pos := find_index (λ k, leb key k) kvs.*1) in *.
  assert (place g fs i kvs pos key → sm_lookup (entries g) key = None ∧
    ∃ t' j s kvs, insert_at_vacant key_size val_size t i pos key v = Some (t', (j, s)) ∧
        represents t' (sm_insert (entries g) key v) ∧ leaf_kvs (arena t') j = Some kvs ∧ kvs !! s = Some (key, v)) as Hnew.
  { intros Hp. destruct (place_entries _ _ _ _ _ _ v Hp) as (Hl & _). split; [done|].
    by apply (insert_at_vacant_ok t g fs i kvs pos key v). }
  destruct (kvs !! pos) as [[k w]|] eqn:Ek; [|by apply Hnew].
  destruct Hsp as [(-> & Hl & Hset)|[Hne Hp]].
  - rewrite bool_decide_eq_true_2 by apply cmp_refl. exists kvs, w. split_and!; [|done..]. apply (leaf_at_kvs _ _ _ _ _ _ _ _ _ (proj1 Hr) Hat).
  - rewrite bool_decide_eq_false_2 by (by rewrite cmp_eq). by apply Hnew.
Qed.
(** The entry interface.  [entry_search] finds the key's slot or the place
    for it; inserting at that place leaves the ordered map with the new entry and
    returns the slot that holds it, after splits too, and without a bound on the
    height, since the propagation follows the parent indices. *)
Theorem btree_entry_correct t l key v :
  assert_capacities key_size val_size = true → represents t l → room (height t + 2) (arena t) →
  match entry_search t key with
  | Some EmptyTree => l = [] ∧ ∃ t', insert_first t key v = Some t' ∧ represents t' [(key, v)]
  | Some (OccupiedAt i s) => ∃ kvs w, leaf_kvs (arena t) i = Some kvs ∧ kvs !! s = Some (key, w) ∧
      sm_lookup l key = Some w
  | Some (VacantAt i pos) => sm_lookup l key = None ∧
      ∃ t' j s kvs, insert_at_vacant key_size val_size t i pos key v = Some (t', (j, s)) ∧
        represents t' (sm_insert l key v) ∧ leaf_kvs (arena t') j = Some kvs ∧ kvs !! s = Some (key, v)
  | None => False
  end.
Proof using Type*.
  intros Hc Hrep Hroom. pose proof (entry_search_ok t l key v Hc Hrep Hroom) as He.
  destruct (entry_search t key) as [[|i s|i pos]|]; [done| |done|done].
  destruct He as (kvs & w & ? & ? & ? & _). by exists kvs, w.
Qed.
End insert.
