(* ===== verification/BTreeRebalance.v ===== *)
(** * The B+ tree engine: moving and merging siblings

    The six steps of rebalancing on two adjacent siblings of a node: taking an
    entry or a child from the right or the left one, and merging the two. *)

From Stdlib Require Import ZArith Lia.
From stdpp Require Import list_tactics sorting.
From S2P Require Import Prelude BTree BTreeInv BTreeShape BTreeRep SortedAssoc BTreeSearch BTreeSplit BTreeLeaf.

Section lists.
Context {A : Type}.
Implicit Types (l : list A) (x : A).

Lemma insert_middle l1 x y l2 : <[length l1 := y]> (l1 ++ x :: l2) = l1 ++ y :: l2.
Proof. rewrite <- (Nat.add_0_r (length l1)). by rewrite insert_app_r. Qed.

Lemma insert_middle' n l1 x y l2 : n = length l1 → <[n := y]> (l1 ++ x :: l2) = l1 ++ y :: l2.
Proof. intros ->. apply insert_middle. Qed.

Lemma delete_at n l1 x l2 : n = length l1 → delete n (l1 ++ x :: l2) = l1 ++ l2.
Proof. intros ->. apply delete_middle. Qed.

Lemma lookup_at n l1 x l2 : n = length l1 → (l1 ++ x :: l2) !! n = Some x.
Proof. by apply list_lookup_middle. Qed.

Lemma lookup_next n l1 x y l2 : n = length l1 + 1 → (l1 ++ x :: y :: l2) !! n = Some y.
Proof.
  intros ->. change (x :: y :: l2) with ([x] ++ y :: l2). rewrite app_assoc. apply list_lookup_middle.
  by rewrite length_app.
Qed.
End lists.

Section sub.
Context {K V : Type}.
Implicit Types (g : tree K V) (fs : list (frame K V)).

Lemma leaves_sub g : leaves g ⊆ ids g.
Proof.
  induction g as [i kvs|i ks cs IH] using tree_ind_strong; [done|]. cbn. intros x Hx. right.
  apply list_elem_of_In, List.in_flat_map in Hx as (c & Hc & Hx). apply list_elem_of_In, List.in_flat_map.
  exists c. split; [done|]. rewrite Forall_forall in IH. apply list_elem_of_In.
  apply IH; by apply list_elem_of_In.
Qed.

Lemma flat_leaves_sub (cs : list (tree K V)) : List.flat_map leaves cs ⊆ List.flat_map ids cs.
Proof.
  intros x Hx. apply list_elem_of_In, List.in_flat_map in Hx as (c & Hc & Hx).
  apply list_elem_of_In, List.in_flat_map. exists c. split; [done|]. apply list_elem_of_In, leaves_sub.
  by apply list_elem_of_In.
Qed.

Lemma context_leaves_sub fs : lleaves fs ++ rleaves fs ⊆ cids fs.
Proof.
  induction fs as [|f fs IH]; [done|]. cbn. pose proof (flat_leaves_sub (f_left f)).
  pose proof (flat_leaves_sub (f_right f)). set_solver.
Qed.
End sub.

Section pair.
Context {K V : Type} `{OrdLaws K} {MK : MinKeys} (key_size val_size : nat).
Abbreviation tree := (tree K V).
Abbreviation frame := (frame K V).
Abbreviation shape := (shape key_size val_size).
Abbreviation cshape := (cshape key_size val_size).
Abbreviation LEAF_CAP := (LEAF_CAP key_size val_size).
Abbreviation INTERNAL_CAP := (INTERNAL_CAP key_size).
Implicit Types (a : Arena K V) (t : RawBTree K V) (g : tree) (fs : list frame) (f : frame) (k : K).

(** ** Reading a state *)

Lemma leaf_kvs_look a I B P L i kvs : astate a I B P L → (i, LeafBody kvs) ∈ B → leaf_kvs a i = Some kvs.
Proof using Type. intros Hs Hi. unfold leaf_kvs. by rewrite (field_get _ _ _ _ _ Hi (as_bodies _ _ _ _ _ Hs)). Qed.

Lemma internal_node_look a I B P L i ks cs :
  astate a I B P L → (i, InternalBody ks cs) ∈ B → internal_node a i = Some (ks, cs).
Proof using Type. intros Hs Hi. unfold internal_node. by rewrite (field_get _ _ _ _ _ Hi (as_bodies _ _ _ _ _ Hs)). Qed.

Lemma node_len_look a I B P L i b :
  astate a I B P L → (i, b) ∈ B →
  node_len a i = Some (match b with LeafBody kvs => length kvs | InternalBody ks _ => length ks end).
Proof using Type.
  intros Hs Hi. unfold node_len. rewrite (field_get _ _ _ _ _ Hi (as_bodies _ _ _ _ _ Hs)). by destruct b.
Qed.

Lemma astate_free a I i b p B P L :
  astate a (i :: I) ((i, b) :: B) ((i, p) :: P) L → i ∉ L → astate (free_node a i) I B P L.
Proof using Type.
  intros [Hb Hp Hl Ha] HL. pose proof Hb as (Hnb & _). pose proof Hp as (Hnp & _).
  rewrite fmap_cons in Hnb. rewrite fmap_cons in Hnp. apply NoDup_cons in Hnb as [Hnb _]. apply NoDup_cons in Hnp as [Hnp _].
  apply free_node_ok; [done..|]. split; [by eapply field_tail|by eapply field_tail|done..].
Qed.

Lemma holds_drop_sep t g k : holds t g → holds (drop_sep t k) g.
Proof using Type. by intros []. Qed.

(** ** Two siblings *)

(** What surrounds two adjacent trees, or the one they become. *)
Definition pshape (n : nat) f fs (lo hi : option K) : Prop :=
  ∃ flo fhi, lo = last_bound flo (f_lkeys f) ∧ hi = head_bound (f_rkeys f) fhi ∧
    lseps (shape n) flo (f_lkeys f) (f_left f) ∧ rseps (shape n) (f_rkeys f) (f_right f) fhi ∧
    length (f_lkeys f) + 1 + length (f_rkeys f) <= INTERNAL_CAP ∧ cshape (S n) fs flo fhi.

Lemma pshape_lengths n f fs lo hi :
  pshape n f fs lo hi → length (f_left f) = length (f_lkeys f) ∧ length (f_right f) = length (f_rkeys f).
Proof using Type. intros (flo & fhi & _ & _ & Hl & Hr & _). by split; [eapply lseps_length|eapply rseps_length]. Qed.

Lemma pair_shape n f fs lo hi g1 k g2 :
  pshape n f fs lo hi → shape n lo (Some k) g1 → shape n (Some k) hi g2 →
  shape (S n + length fs) None None (plug fs (fill f [g1; g2] [k])).
Proof using Type.
  intros (flo & fhi & -> & -> & Hl & Hr & Hlen & Hc) H1 H2. pose proof min_keys_le. apply (plug_shape _ _ (S n) fs flo fhi); [done|].
  apply (fill_shape _ _ n f [g1; g2] [k] (last_bound flo (f_lkeys f)) (head_bound (f_rkeys f) fhi));
    [done..|by split|cbn [length]; lia].
Qed.

Lemma single_shape n f fs lo hi g :
  pshape n f fs lo hi → min_keys <= length (f_lkeys f) + length (f_rkeys f) → shape n lo hi g →
  cshape n (f :: fs) lo hi ∧ shape (S n + length fs) None None (plug fs (fill f [g] [])).
Proof using Type.
  intros (flo & fhi & -> & -> & Hl & Hr & Hlen & Hc) H1 Hg. split.
  - exists flo, fhi. split_and!; try done. lia.
  - apply (plug_shape _ _ (S n) fs flo fhi); [done|].
    apply (fill_shape _ _ n f [g] [] (last_bound flo (f_lkeys f)) (head_bound (f_rkeys f) fhi));
      [done..|cbn [length]; lia].
Qed.

(** The bodies around two siblings. *)
Definition pair_rest f fs : list (nat * Body K V) :=
  List.flat_map tbodies (f_left f) ++ List.flat_map tbodies (f_right f) ++ cbodies fs (f_id f).

Definition pair_body f k (i1 i2 : nat) : Body K V :=
  InternalBody (f_lkeys f ++ k :: f_rkeys f) (List.map tid (f_left f) ++ i1 :: i2 :: List.map tid (f_right f)).

Lemma pair_bodies f fs g1 k g2 :
  cbodies fs (f_id f) ++ tbodies (fill f [g1; g2] [k]) ≡ₚ
  (f_id f, pair_body f k (tid g1) (tid g2)) :: tbodies g1 ++ tbodies g2 ++ pair_rest f fs.
Proof using Type.
  unfold pair_rest, pair_body. cbn [fill tbodies]. rewrite List.map_app, !List.flat_map_app. cbn. solve_Permutation.
Qed.

Definition pair_prest f fs : list (nat * option nat) :=
  List.flat_map (tparents (Some (f_id f))) (f_left f) ++ List.flat_map (tparents (Some (f_id f))) (f_right f) ++ cparents fs.

Lemma pair_parents f fs g1 k g2 :
  cparents fs ++ tparents (parent_of fs) (fill f [g1; g2] [k]) ≡ₚ
  (f_id f, parent_of fs) :: tparents (Some (f_id f)) g1 ++ tparents (Some (f_id f)) g2 ++ pair_prest f fs.
Proof using Type. unfold pair_prest. cbn [fill tparents]. rewrite !List.flat_map_app. cbn. solve_Permutation. Qed.

Lemma pair_ids f fs g1 k g2 :
  cids fs ++ ids (fill f [g1; g2] [k]) ≡ₚ cids (f :: fs) ++ ids g1 ++ ids g2.
Proof using Type. cbn [fill ids cids]. rewrite !List.flat_map_app. cbn. solve_Permutation. Qed.

(** An engine around two siblings. *)
Lemma holds_pair t fs f g1 k g2 :
  holds t (plug fs (fill f [g1; g2] [k])) ↔
  astate (arena t) (cids (f :: fs) ++ ids g1 ++ ids g2)
    ((f_id f, pair_body f k (tid g1) (tid g2)) :: tbodies g1 ++ tbodies g2 ++ pair_rest f fs)
    ((f_id f, parent_of fs) :: tparents (Some (f_id f)) g1 ++ tparents (Some (f_id f)) g2 ++ pair_prest f fs)
    (lleaves (f :: fs) ++ (leaves g1 ++ leaves g2) ++ rleaves (f :: fs)) ∧
  root t = Some (default (f_id f) (last (f_id <$> fs))) ∧
  first_leaf t = head (lleaves (f :: fs) ++ (leaves g1 ++ leaves g2) ++ rleaves (f :: fs)) ∧
  last_leaf t = last (lleaves (f :: fs) ++ (leaves g1 ++ leaves g2) ++ rleaves (f :: fs)) ∧
  len t = length (lentries (f :: fs) ++ (entries g1 ++ entries g2) ++ rentries (f :: fs)).
Proof using Type.
  rewrite holds_plug, leaves_fill, entries_fill, tid_plug, fill_id. cbn [List.flat_map]. rewrite !app_nil_r.
  split; intros (Hs & ?); (split; [|done]).
  - eapply astate_perm; [apply pair_ids|apply pair_bodies|apply pair_parents|exact Hs].
  - eapply astate_perm; [symmetry; apply pair_ids|symmetry; apply pair_bodies|symmetry; apply pair_parents|exact Hs].
Qed.

(** ** Moving an entry between leaves *)

(** New contents for two sibling leaves and a new separator. *)
Lemma leaf_pair_update t fs f i kvs k j kvs' l1 k' l2 a' :
  holds t (plug fs (fill f [TLeaf i kvs; TLeaf j kvs'] [k])) → l1 ++ l2 = kvs ++ kvs' →
  (∀ I B P L, astate (arena t) I ((i, LeafBody kvs) :: (j, LeafBody kvs') :: (f_id f, pair_body f k i j) :: B) P L →
     astate a' I ((i, LeafBody l1) :: (j, LeafBody l2) :: (f_id f, pair_body f k' i j) :: B) P L) →
  holds (with_arena t a') (plug fs (fill f [TLeaf i l1; TLeaf j l2] [k'])).
Proof using Type.
  intros Ht Hl Ha. apply holds_pair in Ht as (Hs & Hr & Hf & Hla & Hn). apply holds_pair.
  cbn [arena with_arena root first_leaf last_leaf len tid ids tbodies tparents leaves entries app] in *.
  split_and!; [|done..|by rewrite Hl].
  arrange_bodies Hs ((i, LeafBody kvs) :: (j, LeafBody kvs') :: (f_id f, pair_body f k i j) :: pair_rest f fs);
    [solve_Permutation|]. apply Ha in Hs.
  eapply astate_perm; [| | |exact Hs]; solve_Permutation.
Qed.

Lemma pair_internal_node t fs f g1 k g2 :
  holds t (plug fs (fill f [g1; g2] [k])) →
  internal_node (arena t) (f_id f) = Some (f_lkeys f ++ k :: f_rkeys f,
    List.map tid (f_left f) ++ tid g1 :: tid g2 :: List.map tid (f_right f)).
Proof using Type.
  intros Ht. apply holds_pair in Ht as (Hs & _). eapply internal_node_look; [exact Hs|]. by left.
Qed.

Lemma steal_leaf_right_ok t fs f i kvs k j e1 e2 kvs' :
  holds t (plug fs (fill f [TLeaf i kvs; TLeaf j (e1 :: e2 :: kvs')] [k])) →
  length kvs < LEAF_CAP → length (f_left f) = length (f_lkeys f) →
  ∃ t', steal_leaf_right key_size val_size t (f_id f) (length (f_left f)) i j = Some t' ∧ height t' = height t ∧
    dropped_seps t' = dropped_seps t ++ [k] ∧
    holds t' (plug fs (fill f [TLeaf i (kvs ++ [e1]); TLeaf j (e2 :: kvs')] [e2.1])).
Proof using Type.
  intros Ht Hcap Hl. pose proof (proj1 (holds_pair _ _ _ _ _ _) Ht) as (Hs & _). cbn [tid tbodies app] in Hs.
  unfold steal_leaf_right.
  rewrite (leaf_kvs_look _ _ _ _ _ i kvs Hs) by (right; by left).
  rewrite (leaf_kvs_look _ _ _ _ _ j (e1 :: e2 :: kvs') Hs) by (do 2 right; by left).
  cbn [lookup list_lookup drop]. destruct (Nat.ltb_spec (length kvs) LEAF_CAP) as [_|]; [|lia]. destruct e2 as [k2 v2].
  set (a := set_body (set_body (arena t) i (LeafBody (kvs ++ [e1]))) j (LeafBody ((k2, v2) :: kvs'))).
  assert (∀ I B P L b, astate (arena t) I ((i, LeafBody kvs) :: (j, LeafBody (e1 :: (k2, v2) :: kvs')) :: (f_id f, b) :: B) P L →
    astate a I ((f_id f, b) :: (i, LeafBody (kvs ++ [e1])) :: (j, LeafBody ((k2, v2) :: kvs')) :: B) P L) as Ha.
  { clear Hs. intros I B P L b Hs. apply (astate_set_body _ _ _ _ (LeafBody (kvs ++ [e1]))) in Hs.
    arrange_bodies Hs ((j, LeafBody (e1 :: (k2, v2) :: kvs')) :: (i, LeafBody (kvs ++ [e1])) :: (f_id f, b) :: B);
      [solve_Permutation|].
    apply (astate_set_body _ _ _ _ (LeafBody ((k2, v2) :: kvs'))) in Hs.
    eapply astate_perm; [done| |done|exact Hs]. solve_Permutation. }
  assert (internal_node a (f_id f) = Some (f_lkeys f ++ k :: f_rkeys f,
    List.map tid (f_left f) ++ i :: j :: List.map tid (f_right f))) as ->.
  { arrange_bodies Hs ((i, LeafBody kvs) :: (j, LeafBody (e1 :: (k2, v2) :: kvs')) ::
      (f_id f, pair_body f k i j) :: pair_rest f fs); [solve_Permutation|].
    apply Ha in Hs. eapply internal_node_look; [exact Hs|by left]. }
  rewrite lookup_at, insert_middle' by done. eexists. split; [reflexivity|]. split; [done|]. split; [done|].
  eapply leaf_pair_update; [by apply holds_drop_sep|by rewrite <- app_assoc|]. intros I B P L Hs'. apply Ha in Hs'.
  apply (astate_set_body _ _ _ _ (pair_body f k2 i j)) in Hs'. eapply astate_perm; [done| |done|exact Hs'].
  solve_Permutation.
Qed.

Lemma steal_leaf_left_ok t fs f i kvs k j kvs' e :
  holds t (plug fs (fill f [TLeaf j (kvs' ++ [e]); TLeaf i kvs] [k])) →
  length kvs < LEAF_CAP → length (f_left f) = length (f_lkeys f) →
  ∃ t', steal_leaf_left key_size val_size t (f_id f) (length (f_left f) + 1) i j = Some t' ∧ height t' = height t ∧
    dropped_seps t' = dropped_seps t ++ [k] ∧
    holds t' (plug fs (fill f [TLeaf j kvs'; TLeaf i (e :: kvs)] [e.1])).
Proof using Type.
  intros Ht Hcap Hl. pose proof (proj1 (holds_pair _ _ _ _ _ _) Ht) as (Hs & _). cbn [tid tbodies app] in Hs.
  unfold steal_leaf_left.
  rewrite (leaf_kvs_look _ _ _ _ _ i kvs Hs) by (do 2 right; by left).
  rewrite (leaf_kvs_look _ _ _ _ _ j (kvs' ++ [e]) Hs) by (right; by left).
  rewrite length_app. cbn [length]. rewrite !Nat.add_sub, lookup_at, take_app_length by done.
  destruct (Nat.ltb_spec (length kvs) LEAF_CAP) as [_|]; [|lia].
  set (a := set_body (set_body (arena t) i (LeafBody (e :: kvs))) j (LeafBody kvs')).
  assert (∀ I B P L b, astate (arena t) I ((j, LeafBody (kvs' ++ [e])) :: (i, LeafBody kvs) :: (f_id f, b) :: B) P L →
    astate a I ((f_id f, b) :: (j, LeafBody kvs') :: (i, LeafBody (e :: kvs)) :: B) P L) as Ha.
  { clear Hs. intros I B P L b Hs.
    arrange_bodies Hs ((i, LeafBody kvs) :: (j, LeafBody (kvs' ++ [e])) :: (f_id f, b) :: B); [solve_Permutation|].
    apply (astate_set_body _ _ _ _ (LeafBody (e :: kvs))) in Hs.
    arrange_bodies Hs ((j, LeafBody (kvs' ++ [e])) :: (i, LeafBody (e :: kvs)) :: (f_id f, b) :: B); [solve_Permutation|].
    apply (astate_set_body _ _ _ _ (LeafBody kvs')) in Hs.
    eapply astate_perm; [done| |done|exact Hs]. solve_Permutation. }
  assert (internal_node a (f_id f) = Some (f_lkeys f ++ k :: f_rkeys f,
    List.map tid (f_left f) ++ j :: i :: List.map tid (f_right f))) as ->.
  { arrange_bodies Hs ((j, LeafBody (kvs' ++ [e])) :: (i, LeafBody kvs) ::
      (f_id f, pair_body f k j i) :: pair_rest f fs); [solve_Permutation|].
    apply Ha in Hs. eapply internal_node_look; [exact Hs|by left]. }
  rewrite lookup_at, insert_middle' by done. eexists. split; [reflexivity|]. split; [done|]. split; [done|].
  eapply leaf_pair_update; [by apply holds_drop_sep|by rewrite <- app_assoc|]. intros I B P L Hs'. apply Ha in Hs'.
  apply (astate_set_body _ _ _ _ (pair_body f e.1 j i)) in Hs'. eapply astate_perm; [done| |done|exact Hs'].
  solve_Permutation.
Qed.

(** ** Moving a child between internal nodes *)

(** Two sibling nodes with other keys and separator; one child, [c], has moved
    from [j] to [i]. *)
Lemma node_pair_update t fs f g1 g2 k g1' g2' k' (i j : nat) (c : tree) b1 b2 rest prest a' :
  holds t (plug fs (fill f [g1; g2] [k])) →
  tid g1' = tid g1 → tid g2' = tid g2 →
  leaves g1' ++ leaves g2' = leaves g1 ++ leaves g2 → entries g1' ++ entries g2' = entries g1 ++ entries g2 →
  ids g1' ++ ids g2' ≡ₚ ids g1 ++ ids g2 →
  tbodies g1 ++ tbodies g2 ≡ₚ (i, b1) :: (j, b2) :: rest →
  tparents (Some (f_id f)) g1 ++ tparents (Some (f_id f)) g2 ≡ₚ (tid c, Some j) :: prest →
  tparents (Some (f_id f)) g1' ++ tparents (Some (f_id f)) g2' ≡ₚ (tid c, Some i) :: prest →
  (∃ b1' b2', tbodies g1' ++ tbodies g2' ≡ₚ (i, b1') :: (j, b2') :: rest ∧
     (a' = set_body (set_body (set_parent (set_body (arena t) i b1') (tid c) (Some i))
        (f_id f) (pair_body f k' (tid g1) (tid g2))) j b2' ∨
      a' = set_body (set_body (set_parent (set_body (arena t) i b1') (tid c) (Some i)) j b2')
        (f_id f) (pair_body f k' (tid g1) (tid g2)))) →
  holds (with_arena t a') (plug fs (fill f [g1'; g2'] [k'])).
Proof using Type.
  intros Ht Ht1 Ht2 HL HE HI HB HP HP' (b1' & b2' & HB' & Ha').
  apply holds_pair in Ht as (Hs & Hr & Hf & Hla & Hn). apply holds_pair.
  cbn [arena with_arena root first_leaf last_leaf len]. rewrite Ht1, Ht2, HL, HE. split_and!; [|done..].
  arrange_bodies Hs ((i, b1) :: (f_id f, pair_body f k (tid g1) (tid g2)) :: (j, b2) :: rest ++ pair_rest f fs).
  { rewrite (app_assoc (tbodies g1)), HB. solve_Permutation. }
  apply (astate_set_body _ _ _ _ b1') in Hs.
  arrange_parents Hs ((tid c, Some j) :: prest ++ (f_id f, parent_of fs) :: pair_prest f fs).
  { rewrite (app_assoc (tparents _ g1)), HP. solve_Permutation. }
  apply (astate_set_parent _ _ _ _ (Some i)) in Hs.
  assert (astate a' (cids (f :: fs) ++ ids g1 ++ ids g2)
    ((f_id f, pair_body f k' (tid g1) (tid g2)) :: (i, b1') :: (j, b2') :: rest ++ pair_rest f fs)
    ((tid c, Some i) :: prest ++ (f_id f, parent_of fs) :: pair_prest f fs)
    (lleaves (f :: fs) ++ (leaves g1 ++ leaves g2) ++ rleaves (f :: fs))) as Hs'.
  { destruct Ha' as [-> | ->].
    - arrange_bodies Hs ((f_id f, pair_body f k (tid g1) (tid g2)) :: (i, b1') :: (j, b2) :: rest ++ pair_rest f fs);
        [solve_Permutation|]. apply (astate_set_body _ _ _ _ (pair_body f k' (tid g1) (tid g2))) in Hs.
      arrange_bodies Hs ((j, b2) :: (i, b1') :: (f_id f, pair_body f k' (tid g1) (tid g2)) :: rest ++ pair_rest f fs);
        [solve_Permutation|]. apply (astate_set_body _ _ _ _ b2') in Hs.
      eapply astate_perm; [done| |done|exact Hs]. solve_Permutation.
    - arrange_bodies Hs ((j, b2) :: (i, b1') :: (f_id f, pair_body f k (tid g1) (tid g2)) :: rest ++ pair_rest f fs);
        [solve_Permutation|]. apply (astate_set_body _ _ _ _ b2') in Hs.
      arrange_bodies Hs ((f_id f, pair_body f k (tid g1) (tid g2)) :: (i, b1') :: (j, b2') :: rest ++ pair_rest f fs);
        [solve_Permutation|]. by apply (astate_set_body _ _ _ _ (pair_body f k' (tid g1) (tid g2))) in Hs. }
  eapply astate_perm; [| | |exact Hs'].
  - by rewrite HI.
  - rewrite (app_assoc (tbodies g1')), HB'. solve_Permutation.
  - rewrite (app_assoc (tparents _ g1')), HP'. solve_Permutation.
Qed.

Lemma steal_internal_right_ok t fs f i ks cs k j k2 ks2 c cs2 :
  holds t (plug fs (fill f [TNode i ks cs; TNode j (k2 :: ks2) (c :: cs2)] [k])) →
  length (f_left f) = length (f_lkeys f) →
  ∃ t', steal_internal_right t (f_id f) (length (f_left f)) i j = Some t' ∧ height t' = height t ∧
    dropped_seps t' = dropped_seps t ∧
    holds t' (plug fs (fill f [TNode i (ks ++ [k]) (cs ++ [c]); TNode j ks2 cs2] [k2])).
Proof using Type.
  intros Ht Hl. pose proof (pair_internal_node _ _ _ _ _ _ Ht) as Hp.
  pose proof (proj1 (holds_pair _ _ _ _ _ _) Ht) as (Hs & _). cbn [tid tbodies app List.map List.flat_map] in Hs.
  unfold steal_internal_right. rewrite Hp, lookup_at by done.
  rewrite (internal_node_look _ _ _ _ _ i ks (List.map tid cs) Hs) by (right; by left).
  rewrite (internal_node_look _ _ _ _ _ j (k2 :: ks2) (tid c :: List.map tid cs2) Hs)
    by (right; right; apply elem_of_app; right; by left).
  cbn [lookup list_lookup drop]. rewrite insert_middle' by done. eexists. split; [reflexivity|]. split; [done|]. split; [done|].
  eapply (node_pair_update t fs f _ _ _ (TNode i (ks ++ [k]) (cs ++ [c])) (TNode j ks2 cs2) k2 i j c _ _
    (List.flat_map tbodies cs ++ tbodies c ++ List.flat_map tbodies cs2)
    ((i, Some (f_id f)) :: List.flat_map (tparents (Some i)) cs ++ tsub c ++
     (j, Some (f_id f)) :: List.flat_map (tparents (Some j)) cs2) _ Ht); try done.
  - cbn. rewrite List.flat_map_app. cbn. by rewrite app_nil_r, <- app_assoc.
  - cbn. rewrite List.flat_map_app. cbn. by rewrite app_nil_r, <- app_assoc.
  - cbn. rewrite List.flat_map_app. cbn. solve_Permutation.
  - cbn. solve_Permutation.
  - cbn. rewrite (tparents_root _ c). solve_Permutation.
  - cbn. rewrite List.flat_map_app. cbn. rewrite (tparents_root _ c). solve_Permutation.
  - eexists _, _. split; [|left; reflexivity]. cbn. rewrite List.map_app, List.flat_map_app. cbn. solve_Permutation.
Qed.

Lemma steal_internal_left_ok t fs f i ks cs k j k2 ks2 c cs2 :
  holds t (plug fs (fill f [TNode j (ks2 ++ [k2]) (cs2 ++ [c]); TNode i ks cs] [k])) →
  length (f_left f) = length (f_lkeys f) → length cs2 = length ks2 + 1 →
  ∃ t', steal_internal_left t (f_id f) (length (f_left f) + 1) i j = Some t' ∧ height t' = height t ∧
    dropped_seps t' = dropped_seps t ∧
    holds t' (plug fs (fill f [TNode j ks2 cs2; TNode i (k :: ks) (c :: cs)] [k2])).
Proof using Type.
  intros Ht Hl Hl2. pose proof (pair_internal_node _ _ _ _ _ _ Ht) as Hp.
  pose proof (proj1 (holds_pair _ _ _ _ _ _) Ht) as (Hs & _). cbn [tid tbodies app List.map List.flat_map] in Hs.
  unfold steal_internal_left. rewrite Hp, Nat.add_sub, lookup_at by done.
  rewrite (internal_node_look _ _ _ _ _ i ks (List.map tid cs) Hs)
    by (right; right; apply elem_of_app; right; by left).
  rewrite (internal_node_look _ _ _ _ _ j (ks2 ++ [k2]) (List.map tid (cs2 ++ [c])) Hs) by (right; by left).
  rewrite List.map_app, length_app. cbn [length List.map].
  rewrite (lookup_at _ (List.map tid cs2)) by (rewrite length_map; lia).
  rewrite Nat.add_sub, lookup_at, insert_middle' by done. rewrite take_app_length.
  rewrite take_app_length' by (rewrite length_map; lia).
  eexists. split; [reflexivity|]. split; [done|]. split; [done|].
  eapply (node_pair_update t fs f _ _ _ (TNode j ks2 cs2) (TNode i (k :: ks) (c :: cs)) k2 i j c _ _
    (List.flat_map tbodies cs2 ++ tbodies c ++ List.flat_map tbodies cs)
    ((i, Some (f_id f)) :: List.flat_map (tparents (Some i)) cs ++ tsub c ++
     (j, Some (f_id f)) :: List.flat_map (tparents (Some j)) cs2) _ Ht); try done.
  - cbn. rewrite List.flat_map_app. cbn. by rewrite app_nil_r, <- app_assoc.
  - cbn. rewrite List.flat_map_app. cbn. by rewrite app_nil_r, <- app_assoc.
  - cbn. rewrite List.flat_map_app. cbn. solve_Permutation.
  - cbn. rewrite List.flat_map_app. cbn. solve_Permutation.
  - cbn. rewrite List.flat_map_app. cbn. rewrite (tparents_root _ c). solve_Permutation.
  - cbn. rewrite (tparents_root _ c). solve_Permutation.
  - eexists _, _. split; [|right; reflexivity]. cbn. solve_Permutation.
Qed.

(** ** Merging *)

(** What a merge hands to the removal in the parent: the parent still lists the
    freed node, and without that entry the engine is well formed. *)
Definition to_remove t fs f g k (j : nat) : Prop :=
  internal_node (arena t) (f_id f) = Some (f_lkeys f ++ k :: f_rkeys f,
    List.map tid (f_left f) ++ tid g :: j :: List.map tid (f_right f)) ∧
  holds (with_arena t (set_body (arena t) (f_id f) (InternalBody (f_lkeys f ++ f_rkeys f)
    (List.map tid (f_left f) ++ tid g :: List.map tid (f_right f))))) (plug fs (fill f [g] [])).

Lemma to_remove_intro t fs f g k j :
  astate (arena t) (cids (f :: fs) ++ ids g)
    ((f_id f, pair_body f k (tid g) j) :: tbodies g ++ pair_rest f fs)
    ((f_id f, parent_of fs) :: tparents (Some (f_id f)) g ++ pair_prest f fs)
    (lleaves (f :: fs) ++ leaves g ++ rleaves (f :: fs)) →
  root t = Some (default (f_id f) (last (f_id <$> fs))) →
  first_leaf t = head (lleaves (f :: fs) ++ leaves g ++ rleaves (f :: fs)) →
  last_leaf t = last (lleaves (f :: fs) ++ leaves g ++ rleaves (f :: fs)) →
  len t = length (lentries (f :: fs) ++ entries g ++ rentries (f :: fs)) →
  to_remove t fs f g k j.
Proof using Type.
  intros Hs Hr Hf Hl Hn. split; [eapply internal_node_look; [exact Hs|by left]|].
  apply holds_plug. rewrite leaves_fill, entries_fill, tid_plug, fill_id. cbn [List.flat_map]. rewrite !app_nil_r.
  cbn [arena with_arena root first_leaf last_leaf len]. split_and!; [|done..].
  apply (astate_set_body _ _ _ _ (InternalBody (f_lkeys f ++ f_rkeys f)
    (List.map tid (f_left f) ++ tid g :: List.map tid (f_right f)))) in Hs.
  eapply astate_perm; [| | |exact Hs]; unfold pair_rest, pair_prest;
    cbn [fill ids cids tbodies tparents app]; rewrite ?List.map_app, !List.flat_map_app;
    cbn [List.map List.flat_map app]; solve_Permutation.
Qed.

Lemma unlink_leaf t a I B P L1 i j L2 :
  astate a I B P (L1 ++ i :: j :: L2) → last_leaf t = last (L1 ++ i :: j :: L2) →
  ∃ t1,
    match head L2 with
    | Some o =>
        match links (set_links a i (last L1, head L2)) !! o with
        | Some (_, nn) => Some (with_arena t (set_links (set_links a i (last L1, head L2)) o (Some i, nn)))
        | None => None
        end
    | None => Some (with_last_leaf (with_arena t (set_links a i (last L1, head L2))) (Some i))
    end = Some t1 ∧
    astate (arena t1) I B P (L1 ++ i :: L2) ∧ root t1 = root t ∧ first_leaf t1 = first_leaf t ∧
    last_leaf t1 = last (L1 ++ i :: L2) ∧ len t1 = len t ∧ height t1 = height t ∧ dropped_seps t1 = dropped_seps t.
Proof using Type.
  intros [Hb Hp Hl Ha] Hlast. pose proof (chain_merge _ _ _ _ _ _ Hl) as Hch. cbn zeta in Hch.
  destruct L2 as [|o L2]; cbn [head] in Hch |- *.
  - eexists. split; [reflexivity|]. cbn. split_and!; try done. by rewrite last_app_cons.
  - destruct Hch as (nn & Hnn & Hch). cbn [links set_links arena_with]. rewrite Hnn. eexists. split; [reflexivity|].
    cbn. split_and!; try done. by rewrite Hlast, !last_app_cons, !last_cons_cons.
Qed.

Lemma merge_leaves_ok t fs f i kvs k j kvs' :
  holds t (plug fs (fill f [TLeaf i kvs; TLeaf j kvs'] [k])) →
  length kvs + length kvs' <= LEAF_CAP → length (f_left f) = length (f_lkeys f) →
  ∃ t1, merge_leaves key_size val_size t i (length (f_left f)) (f_id f) =
      internal_remove_at key_size (height t + 1) t1 (f_id f) (length (f_left f)) ∧
    height t1 = height t ∧ dropped_seps t1 = dropped_seps t ∧ to_remove t1 fs f (TLeaf i (kvs ++ kvs')) k j.
Proof using Type.
  intros Ht Hcap Hl. pose proof (pair_internal_node _ _ _ _ _ _ Ht) as Hp.
  destruct (proj1 (holds_pair _ _ _ _ _ _) Ht) as (Hs & Hr & Hf & Hla & Hn).
  cbn [tid ids tbodies tparents leaves entries app] in *. unfold merge_leaves. rewrite Hp.
  rewrite lookup_next by (rewrite length_map; lia).
  rewrite (leaf_kvs_look _ _ _ _ _ i kvs Hs) by (right; by left).
  rewrite (leaf_kvs_look _ _ _ _ _ j kvs' Hs) by (right; right; by left).
  destruct (Nat.ltb_spec LEAF_CAP (length kvs + length kvs')) as [|_]; [lia|].
  arrange_bodies Hs ((i, LeafBody kvs) :: (j, LeafBody kvs') :: (f_id f, pair_body f k i j) :: pair_rest f fs);
    [solve_Permutation|].
  apply (astate_set_body _ _ _ _ (LeafBody (kvs ++ kvs'))) in Hs.
  assert (∀ i, links (set_body (arena t) i (LeafBody (kvs ++ kvs'))) = links (arena t)) as Hlk by done.
  pose proof (chain_at _ _ _ _ _ (as_links _ _ _ _ _ Hs)) as Hli.
  assert (links (arena t) !! j = Some (Some i, head (rleaves (f :: fs)))) as Hlj.
  { assert (lleaves (f :: fs) ++ i :: j :: rleaves (f :: fs) = (lleaves (f :: fs) ++ [i]) ++ j :: rleaves (f :: fs))
      as HL by by rewrite <- app_assoc.
    pose proof (as_links _ _ _ _ _ Hs) as Hc. rewrite HL in Hc. apply chain_at in Hc. by rewrite last_snoc in Hc. }
  rewrite !Hlk in *. rewrite Hlj, Hli.
  destruct (unlink_leaf t _ _ _ _ _ _ _ _ Hs Hla) as (t1 & -> & Hs1 & Hr1 & Hf1 & Hl1 & Hn1 & Hh1 & Hd1).
  assert (j ∉ lleaves (f :: fs) ++ i :: rleaves (f :: fs)) as Hj.
  { destruct (as_links _ _ _ _ _ Hs) as (Hnd & _). rewrite chain_ids in Hnd.
    assert (lleaves (f :: fs) ++ i :: j :: rleaves (f :: fs) ≡ₚ j :: lleaves (f :: fs) ++ i :: rleaves (f :: fs)) as HP
      by solve_Permutation.
    rewrite HP in Hnd. by apply NoDup_cons in Hnd as [? _]. }
  assert (astate (arena t1) (j :: cids (f :: fs) ++ [i])
    ((j, LeafBody kvs') :: (f_id f, pair_body f k i j) :: (i, LeafBody (kvs ++ kvs')) :: pair_rest f fs)
    ((j, Some (f_id f)) :: (f_id f, parent_of fs) :: (i, Some (f_id f)) :: pair_prest f fs)
    (lleaves (f :: fs) ++ i :: rleaves (f :: fs))) as Hs2.
  { eapply astate_perm; [| | |exact Hs1]; solve_Permutation. }
  apply astate_free in Hs2; [|done]. eexists. split; [by rewrite Hh1|]. split; [done|]. split; [done|].
  apply to_remove_intro; cbn [arena with_arena root first_leaf last_leaf len tid ids tbodies tparents leaves entries app].
  - done.
  - by rewrite Hr1.
  - rewrite Hf1, Hf. by destruct (lleaves (f :: fs)).
  - done.
  - by rewrite Hn1, Hn.
Qed.

Lemma merge_internals_ok ra t fs f i ks cs k j ks2 cs2 :
  holds t (plug fs (fill f [TNode i ks cs; TNode j ks2 cs2] [k])) →
  length ks + 1 + length ks2 <= INTERNAL_CAP → length (f_left f) = length (f_lkeys f) →
  ∃ t1, merge_internals key_size ra t i (length (f_left f)) (f_id f) = ra t1 (f_id f) (length (f_left f)) ∧
    height t1 = height t ∧ dropped_seps t1 = dropped_seps t ∧ to_remove t1 fs f (TNode i (ks ++ k :: ks2) (cs ++ cs2)) k j.
Proof using Type.
  intros Ht Hcap Hl. pose proof (pair_internal_node _ _ _ _ _ _ Ht) as Hp.
  destruct (proj1 (holds_pair _ _ _ _ _ _) Ht) as (Hs & Hr & Hf & Hla & Hn).
  cbn [tid ids tbodies tparents leaves entries app] in *. unfold merge_internals. rewrite Hp.
  rewrite lookup_next by (rewrite length_map; lia). rewrite lookup_at by done.
  rewrite (internal_node_look _ _ _ _ _ i ks (List.map tid cs) Hs) by (right; by left).
  rewrite (internal_node_look _ _ _ _ _ j ks2 (List.map tid cs2) Hs)
    by (right; right; apply elem_of_app; right; by left).
  destruct (Nat.ltb_spec INTERNAL_CAP (length ks + 1 + length ks2)) as [|_]; [lia|].
  arrange_parents Hs (List.map (λ c, (c, Some j)) (List.map (@tid K V) cs2) ++ (j, Some (f_id f)) ::
    (f_id f, parent_of fs) :: (i, Some (f_id f)) :: List.flat_map (tparents (Some i)) cs ++
    List.flat_map tsub cs2 ++ pair_prest f fs).
  { rewrite (flat_tparents (Some j) cs2). solve_Permutation. }
  apply (astate_set_parents _ _ _ _ i) in Hs.
  arrange_bodies Hs ((i, InternalBody ks (List.map tid cs)) :: (j, InternalBody ks2 (List.map tid cs2)) ::
    (f_id f, pair_body f k i j) :: List.flat_map tbodies (cs ++ cs2) ++ pair_rest f fs).
  { rewrite List.flat_map_app. solve_Permutation. }
  apply (astate_set_body _ _ _ _ (InternalBody (ks ++ k :: ks2) (List.map tid (cs ++ cs2)))) in Hs.
  assert (j ∉ lleaves (f :: fs) ++ (List.flat_map leaves cs ++ List.flat_map leaves cs2) ++ rleaves (f :: fs)) as Hj.
  { destruct (as_arena _ _ _ _ _ Hs) as [Hnd _]. apply NoDup_app in Hnd as [Hnd _].
    assert (cids (f :: fs) ++ i :: List.flat_map ids cs ++ j :: List.flat_map ids cs2 ≡ₚ
      j :: i :: cids (f :: fs) ++ List.flat_map ids cs ++ List.flat_map ids cs2) as HP by solve_Permutation.
    cbn [cids app] in Hnd, HP. rewrite HP in Hnd. apply NoDup_cons in Hnd as [Hj _].
    pose proof (context_leaves_sub (f :: fs)) as H1. pose proof (flat_leaves_sub cs) as H2.
    pose proof (flat_leaves_sub cs2) as H3. cbn [cids] in H1. clear -Hj H1 H2 H3.
    generalize dependent (lleaves (f :: fs)). generalize dependent (rleaves (f :: fs)). intros ? ? ?. set_solver. }
  assert (astate (set_body (set_parents (arena t) (List.map tid cs2) i) i
      (InternalBody (ks ++ k :: ks2) (List.map tid (cs ++ cs2)))) (j :: cids (f :: fs) ++ i :: List.flat_map ids (cs ++ cs2))
    ((j, InternalBody ks2 (List.map tid cs2)) :: (f_id f, pair_body f k i j) ::
      (i, InternalBody (ks ++ k :: ks2) (List.map tid (cs ++ cs2))) :: List.flat_map tbodies (cs ++ cs2) ++ pair_rest f fs)
    ((j, Some (f_id f)) :: (f_id f, parent_of fs) :: (i, Some (f_id f)) ::
      List.flat_map (tparents (Some i)) (cs ++ cs2) ++ pair_prest f fs)
    (lleaves (f :: fs) ++ (List.flat_map leaves cs ++ List.flat_map leaves cs2) ++ rleaves (f :: fs))) as Hs2.
  { eapply astate_perm; [| | |exact Hs].
    - rewrite List.flat_map_app. cbn. solve_Permutation.
    - solve_Permutation.
    - rewrite List.flat_map_app, (flat_tparents (Some i) cs2). solve_Permutation. }
  apply astate_free in Hs2; [|done]. eexists. split; [by rewrite <- List.map_app|]. split; [done|]. split; [done|].
  apply to_remove_intro;
    cbn [arena with_arena root first_leaf last_leaf len tid ids tbodies tparents leaves entries app];
    rewrite ?(List.flat_map_app leaves), ?(List.flat_map_app entries); try done.
Qed.
End pair.
