(* ===== verification/BTreeRemove.v ===== *)
(** * The B+ tree engine: removal

    Deleting a separator and its right child from an internal node, with the
    rebalancing that climbs to the root; deleting an entry from a leaf; what
    [remove] and [remove_entry] do to the represented map. *)

From Stdlib Require Import ZArith Lia.
From stdpp Require Import list_tactics sorting.
From S2P Require Import Prelude BTree BTreeInv BTreeShape BTreeRep SortedAssoc BTreeSearch BTreeSplit BTreeLeaf BTreeInsert BTreeRebalance.

Section remove.
Context {K V : Type} `{OrdLaws K} {MK : MinKeys} (key_size val_size : nat).
Abbreviation tree := (tree K V).
Abbreviation frame := (frame K V).
Abbreviation shape := (shape key_size val_size).
Abbreviation cshape := (cshape key_size val_size).
Abbreviation pshape := (pshape key_size val_size).
Abbreviation repr := (repr key_size val_size).
Abbreviation leaf_at := (leaf_at key_size val_size).
Abbreviation represents := (represents key_size val_size).
Abbreviation LEAF_CAP := (LEAF_CAP key_size val_size).
Abbreviation INTERNAL_CAP := (INTERNAL_CAP key_size).
Implicit Types (a : Arena K V) (t : RawBTree K V) (g : tree) (fs : list frame) (f : frame) (k key : K).

(** ** Siblings of a hole *)

Lemma right_sibling n f fs lo hi g :
  cshape n (f :: fs) lo hi → length (f_left f) < length (f_lkeys f ++ f_rkeys f) →
  ∃ k f1 g2 hi2, fill f [g] [] = fill f1 [g; g2] [k] ∧ f_id f1 = f_id f ∧ f_left f1 = f_left f ∧
    f_lkeys f1 = f_lkeys f ∧ f_right f = g2 :: f_right f1 ∧
    hi = Some k ∧ shape n (Some k) hi2 g2 ∧ pshape n f1 fs lo hi2.
Proof using Type.
  intros (flo & fhi & -> & -> & Hl & Hr & Hlen & Hc) Hlt. pose proof (lseps_length _ _ _ _ Hl) as Hll.
  destruct f as [i lks lcs rks rcs]. cbn [f_id f_lkeys f_left f_rkeys f_right] in *. rewrite length_app in Hlt.
  destruct rks as [|k rks]; [cbn in Hlt; lia|]. destruct rcs as [|g2 rcs]; [done|]. destruct Hr as [Hg2 Hr].
  exists k, {| f_id := i; f_lkeys := lks; f_left := lcs; f_rkeys := rks; f_right := rcs |}, g2, (head_bound rks fhi).
  split_and!; try done. exists flo, fhi. cbn [f_id f_lkeys f_left f_rkeys f_right length] in *. split_and!; try done. lia.
Qed.

Lemma left_sibling n f fs lo hi g :
  cshape n (f :: fs) lo hi → 0 < length (f_left f) →
  ∃ k f1 g2 lo2, fill f [g] [] = fill f1 [g2; g] [k] ∧ f_id f1 = f_id f ∧ f_left f = f_left f1 ++ [g2] ∧
    length (f_left f1) = length (f_lkeys f1) ∧ lo = Some k ∧ shape n lo2 (Some k) g2 ∧ pshape n f1 fs lo2 hi.
Proof using Type.
  intros (flo & fhi & -> & -> & Hl & Hr & Hlen & Hc) Hlt. pose proof (lseps_length _ _ _ _ Hl) as Hll.
  destruct f as [i lks lcs rks rcs]. cbn [f_id f_lkeys f_left f_rkeys f_right] in *.
  destruct (exists_last (l := lcs)) as (lcs' & g2 & ->); [intros ->; cbn in Hlt; lia|].
  destruct (exists_last (l := lks)) as (lks' & k & ->); [intros ->; rewrite length_app in Hll; cbn in Hll; lia|].
  apply lseps_snoc in Hl as [Hl Hg2]. rewrite !length_app in *. cbn [length] in *.
  exists k, {| f_id := i; f_lkeys := lks'; f_left := lcs'; f_rkeys := rks; f_right := rcs |}, g2, (last_bound flo lks').
  split_and!; try done.
  - unfold fill. cbn. by rewrite <- !app_assoc.
  - cbn. lia.
  - apply last_bound_snoc.
  - exists flo, fhi. cbn [f_id f_lkeys f_left f_rkeys f_right length]. split_and!; try done. lia.
Qed.

(** ** The separators *)

(** The record of drops after a removal that started with [D], in a tree [g'] whose
    separators are [ks]: every separator it adds, at most [n], is still there,
    in a live internal node. *)
Definition moved_seps (n : nat) (D : list K) t' (g' : tree) (ks : list K) : Prop :=
  ∃ ss, dropped_seps t' = D ++ ss ∧ length ss <= n ∧ ss ⊆ tkeys g' ∧ tkeys g' ≡ₚ ks.

Lemma moved_none n t' g' ks : tkeys g' ≡ₚ ks → moved_seps n (dropped_seps t') t' g' ks.
Proof using Type.
  intros Hk. exists []. rewrite app_nil_r. split_and!; [done|cbn; lia|by intros x ?%elem_of_nil|done].
Qed.

Lemma moved_perm n D t' g' ks ks' : moved_seps n D t' g' ks → ks ≡ₚ ks' → moved_seps n D t' g' ks'.
Proof using Type. intros (ss & ? & ? & ? & Hk) Heq. exists ss. split_and!; [done..|by rewrite Hk]. Qed.

(** A separator that a merge moved down before its slot was dropped. *)
Lemma moved_double n D t' g' k ks ks' :
  moved_seps n (D ++ [k]) t' g' ks → ks ≡ₚ ks' → k ∈ ks' → moved_seps (S n) D t' g' ks'.
Proof using Type.
  intros (ss & Hd & Hn & Hs & Hk) Hks Hin. exists (k :: ss). rewrite Hd, <- app_assoc. rewrite Hks in Hk.
  split_and!; [done|cbn; lia| |done]. intros x [->|Hx]%elem_of_cons; [by rewrite Hk|by apply Hs].
Qed.

Lemma fill_keys fs f gs ks : tkeys (plug fs (fill f gs ks)) ≡ₚ ckeys (f :: fs) ++ ks ++ List.flat_map tkeys gs.
Proof using Type. by rewrite tkeys_plug, tkeys_fill. Qed.

Ltac solve_keys := rewrite !fill_keys; cbn [List.flat_map tkeys app]; rewrite ?List.flat_map_app; cbn [List.flat_map]; solve_Permutation.

(** What a removal does to the separators: it drops at most one of them that
    leaves the tree, clones at most one new key into the place of a dropped
    one, and all it drops after the first are still in the tree. *)
Definition seps_accounted (g : tree) t t' (g' : tree) : Prop :=
  ∃ D c, dropped_seps t' = dropped_seps t ++ D ∧ length D <= height t ∧ tail D ⊆ tkeys g' ∧
    tkeys g' ++ take 1 D ≡ₚ tkeys g ++ c ∧ length c <= 1.

Lemma accounted_same g t t' g' : dropped_seps t' = dropped_seps t → tkeys g' ≡ₚ tkeys g → seps_accounted g t t' g'.
Proof using Type.
  intros Hd Hk. exists [], []. rewrite !app_nil_r. split_and!; [done|cbn; lia|by intros x ?%elem_of_nil|done|cbn; lia].
Qed.

Lemma accounted_moved n fs f gs k c t t' g' :
  moved_seps n (dropped_seps t ++ [k]) t' g' (c ++ ckeys (f :: fs)) → List.flat_map tkeys gs = [] → length c <= 1 →
  n < height t → seps_accounted (plug fs (fill f gs [k])) t t' g'.
Proof using Type.
  intros (ss & Hd & Hn & Hs & Hk) Hgs Hc Hlt. exists (k :: ss), c. rewrite Hd, <- app_assoc.
  split_and!; [done|cbn; lia|done| |done]. rewrite fill_keys, Hgs, Hk. cbn [take app]. solve_Permutation.
Qed.

(** ** The climb *)

(** What deleting the entry a merge left behind achieves, for at most [N] levels
    above the parent. *)
Definition remove_spec (ra : RawBTree K V → nat → nat → option (RawBTree K V)) (N : nat) : Prop :=
  ∀ fs t n f g k j lo hi,
    length fs < N → height t = S n + length fs → pshape n f fs lo hi → shape n lo hi g →
    to_remove t fs f g k j →
    ∃ t' g', ra t (f_id f) (length (f_left f)) = Some t' ∧ repr t' g' ∧
      entries g' = entries (plug fs (fill f [g] [])) ∧
      moved_seps (length fs) (dropped_seps t ++ [k]) t' g' (tkeys (plug fs (fill f [g] []))).

Lemma leaf_seps n ks1 k ks2 (cs1 cs2 : list tree) lo hi :
  seps (shape n) lo ks1 cs1 (Some k) → seps (shape n) (Some k) ks2 cs2 hi →
  seps (shape n) lo (ks1 ++ k :: ks2) (cs1 ++ cs2) hi.
Proof using Type. intros H1 H2. apply seps_cut; [by eapply seps_length|done]. Qed.

(** A merge, completed in the parent. *)
Lemma merged_ok ra N t1 n f fs g k j lo hi h :
  remove_spec ra N → length fs < N → h = S n + length fs → height t1 = h → pshape n f fs lo hi → shape n lo hi g →
  to_remove t1 fs f g k j →
  ∃ t' g', ra t1 (f_id f) (length (f_left f)) = Some t' ∧ repr t' g' ∧
    entries g' = lentries (f :: fs) ++ entries g ++ rentries (f :: fs) ∧
    moved_seps (length fs) (dropped_seps t1 ++ [k]) t' g' (tkeys (plug fs (fill f [g] []))).
Proof using Type.
  intros Hra HN -> Hh Hp Hg Hrm. destruct (Hra fs t1 n f g k j lo hi HN Hh Hp Hg Hrm) as (t' & g' & Ht' & Hr & He & Hm).
  exists t', g'. split_and!; [done..| |done]. rewrite He, entries_plug, entries_fill. cbn. by rewrite app_nil_r.
Qed.

(** Two siblings after entries or children moved between them. *)
Lemma moved_ok t' n f fs lo hi g1 k g2 :
  holds t' (plug fs (fill f [g1; g2] [k])) → height t' = S n + length fs → pshape n f fs lo hi →
  shape n lo (Some k) g1 → shape n (Some k) hi g2 →
  ∃ g', repr t' g' ∧ entries g' = lentries (f :: fs) ++ (entries g1 ++ entries g2) ++ rentries (f :: fs) ∧
    ∀ m, moved_seps m (dropped_seps t') t' g' (tkeys (plug fs (fill f [g1; g2] [k]))).
Proof using Type.
  intros Ht Hh Hp H1 H2. exists (plug fs (fill f [g1; g2] [k])). split_and!; [..|intros m; by apply moved_none].
  - split; [done|]. rewrite Hh. by eapply pair_shape.
  - rewrite entries_plug, entries_fill. cbn. by rewrite app_nil_r.
Qed.

Section climb.
Context (ra : RawBTree K V → nat → nat → option (RawBTree K V)) (N : nat) (Hra : remove_spec ra N).
Context (t : RawBTree K V) (n : nat) (f : frame) (fs : list frame) (i : nat) (ks : list K) (cs : list tree) (k : K) (g2 : tree).
Context (lo hi : option K) (HN : length fs < N) (Hh : height t = S (S n) + length fs).
Context (Hp : pshape (S n) f fs lo hi) (Hlt : length ks < INTERNAL_CAP / 2).

(** An underfull node and its right sibling. *)
Lemma right_internal_ok :
  holds t (plug fs (fill f [TNode i ks cs; g2] [k])) → seps (shape n) lo ks cs (Some k) → shape (S n) (Some k) hi g2 →
  ∃ len2, node_len (arena t) (tid g2) = Some len2 ∧
    ∃ t' g', (if INTERNAL_CAP / 2 <? len2 then steal_internal_right t (f_id f) (length (f_left f)) i (tid g2)
      else merge_internals key_size ra t i (length (f_left f)) (f_id f)) = Some t' ∧ repr t' g' ∧
      entries g' = lentries (f :: fs) ++ (entries (TNode i ks cs) ++ entries g2) ++ rentries (f :: fs) ∧
      moved_seps (S (length fs)) (dropped_seps t) t' g' (tkeys (plug fs (fill f [TNode i ks cs; g2] [k]))).
Proof using Hra HN Hh Hp Hlt.
  intros Ht Hs Hg2. destruct g2 as [|j ks2 cs2]; [done|]. destruct Hg2 as [Hlen2 Hs2]. cbn [tid].
  destruct (pshape_lengths _ _ _ _ _ _ _ Hp) as [Hll _].
  pose proof min_keys_le as Hmk. pose proof (Nat.div_mod_eq INTERNAL_CAP 2) as Hdiv. pose proof (Nat.mod_upper_bound INTERNAL_CAP 2 ltac:(lia)) as Hmod.
  exists (length ks2). split.
  { apply holds_pair in Ht as (Hst & _).
    apply (node_len_look _ _ _ _ _ j (InternalBody ks2 (List.map tid cs2)) Hst).
    right. right. apply elem_of_app. right. by left. }
  destruct (Nat.ltb_spec (INTERNAL_CAP / 2) (length ks2)) as [Hgt|Hle].
  - destruct ks2 as [|k2 ks2]; [cbn [length] in Hgt; lia|]. destruct cs2 as [|c cs2]; [done|]. destruct Hs2 as [Hc Hs2].
    destruct (steal_internal_right_ok _ _ _ _ _ _ _ _ _ _ _ _ Ht Hll) as (t' & Ht' & Hh' & Hd' & Hhold).
    destruct (moved_ok t' (S n) f fs lo hi _ _ _ Hhold) as (g' & Hr & He & Hm); [lia|done|..|exists t', g'].
    + cbn [shape]. rewrite length_app. cbn [length] in *. split; [lia|]. apply (leaf_seps n ks k []); [done|done].
    + cbn [shape length] in *. split; [lia|done].
    + rewrite Hd' in Hm. split_and!; [done..| |eapply moved_perm; [apply Hm|solve_keys]].
      rewrite He. f_equal. f_equal. cbn. rewrite List.flat_map_app. cbn. by rewrite app_nil_r, <- app_assoc.
  - destruct (merge_internals_ok key_size ra _ _ _ _ _ _ _ _ _ _ Ht) as (t1 & -> & Hh1 & Hd1 & Hrm); [lia|done|].
    destruct (merged_ok ra N t1 (S n) f fs (TNode i (ks ++ k :: ks2) (cs ++ cs2)) k j lo hi (height t) Hra HN) as (t' & g' & Ht' & Hr & He & Hm);
      [lia|done|done| |done|].
    + cbn [shape]. rewrite length_app. cbn [length]. split; [lia|]. by apply leaf_seps.
    + exists t', g'. rewrite Hd1 in Hm. split_and!; [done..|rewrite He; cbn; by rewrite List.flat_map_app|].
      eapply moved_double; [exact Hm|solve_keys|]. rewrite fill_keys. apply elem_of_app. right. by left.
Qed.

(** An underfull node and its left sibling. *)
Lemma left_internal_ok :
  holds t (plug fs (fill f [g2; TNode i ks cs] [k])) → seps (shape n) (Some k) ks cs hi → shape (S n) lo (Some k) g2 →
  ∃ len2, node_len (arena t) (tid g2) = Some len2 ∧
    ∃ t' g', (if INTERNAL_CAP / 2 <? len2 then steal_internal_left t (f_id f) (length (f_left f) + 1) i (tid g2)
      else merge_internals key_size ra t (tid g2) (length (f_left f)) (f_id f)) = Some t' ∧ repr t' g' ∧
      entries g' = lentries (f :: fs) ++ (entries g2 ++ entries (TNode i ks cs)) ++ rentries (f :: fs) ∧
      moved_seps (S (length fs)) (dropped_seps t) t' g' (tkeys (plug fs (fill f [g2; TNode i ks cs] [k]))).
Proof using Hra HN Hh Hp Hlt.
  intros Ht Hs Hg2. destruct g2 as [|j ks2 cs2]; [done|]. destruct Hg2 as [Hlen2 Hs2]. cbn [tid].
  destruct (pshape_lengths _ _ _ _ _ _ _ Hp) as [Hll _].
  pose proof min_keys_le as Hmk. pose proof (Nat.div_mod_eq INTERNAL_CAP 2) as Hdiv. pose proof (Nat.mod_upper_bound INTERNAL_CAP 2 ltac:(lia)) as Hmod.
  exists (length ks2). split.
  { apply holds_pair in Ht as (Hst & _).
    apply (node_len_look _ _ _ _ _ j (InternalBody ks2 (List.map tid cs2)) Hst). right. by left. }
  destruct (Nat.ltb_spec (INTERNAL_CAP / 2) (length ks2)) as [Hgt|Hle].
  - pose proof (seps_length _ _ _ _ _ Hs2) as Hcs2.
    destruct (exists_last (l := ks2)) as (ks2' & k2 & ->); [intros ->; cbn [length] in Hgt; lia|].
    destruct (exists_last (l := cs2)) as (cs2' & c & ->); [by intros ->|]. rewrite !length_app in *. cbn [length] in *.
    apply (seps_cut _ _ ks2' k2 [] cs2' [c]) in Hs2 as [Hs2 Hc]; [|lia].
    destruct (steal_internal_left_ok _ _ _ _ _ _ _ _ _ _ _ _ Ht Hll) as (t' & Ht' & Hh' & Hd' & Hhold); [lia|].
    destruct (moved_ok t' (S n) f fs lo hi _ _ _ Hhold) as (g' & Hr & He & Hm); [lia|done|..|exists t', g'].
    + cbn [shape]. split; [lia|done].
    + cbn [shape length]. split; [lia|]. by split.
    + rewrite Hd' in Hm. split_and!; [done..| |eapply moved_perm; [apply Hm|solve_keys]].
      rewrite He. f_equal. f_equal. cbn. rewrite List.flat_map_app. cbn. by rewrite app_nil_r, <- app_assoc.
  - destruct (merge_internals_ok key_size ra _ _ _ _ _ _ _ _ _ _ Ht) as (t1 & -> & Hh1 & Hd1 & Hrm); [lia|done|].
    destruct (merged_ok ra N t1 (S n) f fs (TNode j (ks2 ++ k :: ks) (cs2 ++ cs)) k i lo hi (height t) Hra HN) as (t' & g' & Ht' & Hr & He & Hm);
      [lia|done|done| |done|].
    + cbn [shape]. rewrite length_app. cbn [length]. split; [lia|]. by apply leaf_seps.
    + exists t', g'. rewrite Hd1 in Hm. split_and!; [done..|rewrite He; cbn; by rewrite List.flat_map_app|].
      eapply moved_double; [exact Hm|solve_keys|]. rewrite fill_keys. apply elem_of_app. right. by left.
Qed.
End climb.

(** How both rebalancings choose a sibling: the right one if it can spare
    something, then the left one, then a merge with the right one or, at the last
    child, with the left one. *)
Lemma choice_ok (Q : RawBTree K V → Prop) a min f g plen sr sl mr ml :
  (length (f_left f) < plen → ∃ g2 r len2, f_right f = g2 :: r ∧ node_len a (tid g2) = Some len2 ∧
     ∃ t', (if min <? len2 then sr (tid g2) else mr) = Some t' ∧ Q t') →
  (0 < length (f_left f) → ∃ l g2 len2, f_left f = l ++ [g2] ∧ node_len a (tid g2) = Some len2 ∧
     ∃ t', (if min <? len2 then sl (tid g2) else ml (tid g2)) = Some t' ∧ Q t') →
  0 < length (f_left f) ∨ length (f_left f) < plen →
  let children := List.map tid (f_left f) ++ tid g :: List.map tid (f_right f) in
  let child_pos := length (f_left f) in
  ∃ t',
    (do right <-
       (if child_pos <? plen then
          do right_idx <- children !! (child_pos + 1);
          do right_len <- node_len a right_idx;
          Some (if min <? right_len then Some right_idx else None)
        else Some None);
     match right with
     | Some right_idx => sr right_idx
     | None =>
         do left <-
           (if 0 <? child_pos then
              do left_idx <- children !! (child_pos - 1);
              do left_len <- node_len a left_idx;
              Some (if min <? left_len then Some left_idx else None)
            else Some None);
         match left with
         | Some left_idx => sl left_idx
         | None =>
             if child_pos <? plen then mr
             else if child_pos =? 0 then None
             else do left_idx <- children !! (child_pos - 1); ml left_idx
         end
     end) = Some t' ∧ Q t'.
Proof using Type.
  intros Hright Hleft Hsome children child_pos.
  assert (∀ l g2, f_left f = l ++ [g2] → children !! (child_pos - 1) = Some (tid g2)) as Hlidx.
  { intros l g2 Hl. subst children child_pos. rewrite Hl, List.map_app, <- app_assoc. apply lookup_at.
    rewrite length_app, length_map. cbn. lia. }
  destruct (Nat.ltb_spec child_pos plen) as [Hlt|Hge].
  - destruct (Hright Hlt) as (g2 & r & len2 & Hr & Hlen & t1 & Ht1 & HQ1).
    assert (children !! (child_pos + 1) = Some (tid g2)) as ->.
    { subst children child_pos. rewrite Hr. apply lookup_next. by rewrite length_map. }
    rewrite Hlen. destruct (min <? len2); [by exists t1|].
    destruct (Nat.ltb_spec 0 child_pos) as [Hpos|]; [|by exists t1].
    destruct (Hleft Hpos) as (l & g3 & len3 & Hl & Hlen3 & t2 & Ht2 & HQ2).
    rewrite (Hlidx _ _ Hl), Hlen3. destruct (min <? len3); [by exists t2|by exists t1].
  - assert (0 < child_pos) as Hpos by (subst child_pos; lia).
    destruct (Hleft Hpos) as (l & g3 & len3 & Hl & Hlen3 & t2 & Ht2 & HQ2).
    destruct (Nat.ltb_spec 0 child_pos) as [_|]; [|lia]. rewrite !(Hlidx _ _ Hl), Hlen3.
    destruct (min <? len3); [by exists t2|]. destruct (Nat.eqb_spec child_pos 0); [lia|]. by exists t2.
Qed.

Lemma has_sibling n f fs lo hi :
  1 <= min_keys → cshape n (f :: fs) lo hi → 0 < length (f_left f) ∨ length (f_left f) < length (f_lkeys f ++ f_rkeys f).
Proof using Type.
  intros Hmin Hc. destruct (cshape_lengths _ _ _ _ _ _ _ Hc) as [Hll _].
  destruct Hc as (flo & fhi & _ & _ & _ & _ & Hlen & _). rewrite length_app. lia.
Qed.

Lemma rebalance_internal_ok ra N t n f fs i ks cs lo hi :
  1 <= min_keys → remove_spec ra N → length fs < N → height t = S (S n) + length fs →
  holds t (plug (f :: fs) (TNode i ks cs)) → cshape (S n) (f :: fs) lo hi →
  seps (shape n) lo ks cs hi → length ks < INTERNAL_CAP / 2 →
  ∃ t' g', rebalance_internal key_size ra t i = Some t' ∧ repr t' g' ∧
    entries g' = entries (plug (f :: fs) (TNode i ks cs)) ∧
    moved_seps (S (length fs)) (dropped_seps t) t' g' (tkeys (plug (f :: fs) (TNode i ks cs))).
Proof using Type.
  intros Hmin Hra HN Hh Ht Hc Hs Hlt.
  pose proof (hole_parent _ _ _ Ht) as Hpar. pose proof (hole_frame _ _ _ _ Ht) as Hnode.
  pose proof (hole_slot _ _ _ _ 0 Ht) as Hslot. cbn [tid parent_of head fmap option_fmap option_map] in *.
  unfold rebalance_internal. rewrite Hpar. unfold internal_node. rewrite Hnode, Hslot.
  destruct (choice_ok (λ t', ∃ g', repr t' g' ∧ entries g' = entries (plug (f :: fs) (TNode i ks cs)) ∧
      moved_seps (S (length fs)) (dropped_seps t) t' g' (tkeys (plug (f :: fs) (TNode i ks cs))))
    (arena t) (INTERNAL_CAP / 2) f (TNode i ks cs) (length (f_lkeys f ++ f_rkeys f))
    (λ r, steal_internal_right t (f_id f) (length (f_left f)) i r)
    (λ l, steal_internal_left t (f_id f) (length (f_left f)) i l)
    (merge_internals key_size ra t i (length (f_left f)) (f_id f))
    (λ l, merge_internals key_size ra t l (length (f_left f) - 1) (f_id f))) as (t' & Ht' & g' & Hr & He & Hm).
  - intros Hpos. destruct (right_sibling _ _ _ _ _ (TNode i ks cs) Hc Hpos)
      as (k & f1 & g2 & hi2 & Heq & Hid & Hl1 & _ & Hr & -> & Hg2 & Hp).
    rewrite plug_cons in Ht. rewrite Heq in Ht.
    destruct (right_internal_ok ra N Hra t n f1 fs i ks cs k g2 lo hi2 HN Hh Hp Hlt Ht Hs Hg2)
      as (len2 & Hlen & t' & g' & Ht' & Hrep & He & Hm). rewrite Hid, Hl1 in Ht'.
    exists g2, (f_right f1), len2. split_and!; [done..|]. exists t'. split; [done|]. exists g'. split; [done|].
    rewrite plug_cons, Heq. split; [|done]. rewrite He, entries_plug, entries_fill. cbn. by rewrite app_nil_r.
  - intros Hpos. destruct (left_sibling _ _ _ _ _ (TNode i ks cs) Hc Hpos)
      as (k & f1 & g2 & lo2 & Heq & Hid & Hl1 & Hll1 & -> & Hg2 & Hp).
    rewrite plug_cons in Ht. rewrite Heq in Ht.
    destruct (left_internal_ok ra N Hra t n f1 fs i ks cs k g2 lo2 hi HN Hh Hp Hlt Ht Hs Hg2)
      as (len2 & Hlen & t' & g' & Ht' & Hrep & He & Hm).
    assert (length (f_left f) = length (f_left f1) + 1) as Hlf by by rewrite Hl1, length_app.
    rewrite Hid in Ht'.
    exists (f_left f1), g2, len2. split_and!; [done..|]. exists t'. rewrite Hlf, Nat.add_sub. split; [done|].
    exists g'. split; [done|]. rewrite plug_cons, Heq. split; [|done]. rewrite He, entries_plug, entries_fill. cbn. by rewrite app_nil_r.
  - by apply (has_sibling _ _ _ _ _ Hmin Hc).
  - by exists t', g'.
Qed.

(** ** The removal in an internal node *)

Lemma root_not_hole t f fs g : holds t (plug (f :: fs) g) → root t ≠ Some (tid g).
Proof using Type.
  intros Ht. rewrite (h_root _ _ Ht), tid_plug. pose proof (hole_nodup _ _ _ Ht) as Hn.
  rewrite fmap_cons, last_cons. intros [= Heq].
  apply NoDup_app in Hn as (_ & Hn & _). apply (Hn (tid g)); [|apply tid_in_ids]. rewrite <- Heq.
  destruct (last (f_id <$> fs)) as [i|] eqn:El; cbn [default]; [|by left].
  assert (∀ i fs, i ∈ f_id <$> fs → i ∈ cids (K := K) (V := V) fs) as Hsub.
  { clear. intros i fs. induction fs as [|f fs IH]; [done|]. rewrite fmap_cons.
    intros [->|Hi]%elem_of_cons; [by left|]. cbn. right. rewrite !elem_of_app. right; right. by apply IH. }
  cbn [cids]. right. rewrite !elem_of_app. right; right. apply Hsub.
  apply last_Some_elem_of in El. done.
Qed.

(** The old root disappears when its last key does. *)
Lemma shrink_root_ok t n f g :
  holds t (plug [] (fill f [g] [])) → f_left f = [] → f_right f = [] → height t = S n → shape n None None g →
  repr (with_root (with_arena t (free_node (set_parent (arena t) (tid g) None) (f_id f))) (Some (tid g)) n) g.
Proof using Type.
  intros [Hs _ Hf Hl Hn] Hlf Hrf Hh Hg. cbn [plug foldl fill ids tbodies tparents leaves entries] in *.
  rewrite Hlf, Hrf in *. cbn [app List.flat_map] in *. rewrite !app_nil_r in *.
  assert (f_id f ∉ leaves g) as Hnl.
  { destruct (as_arena _ _ _ _ _ Hs) as [Hnd _]. apply NoDup_app in Hnd as [Hnd _].
    apply NoDup_cons in Hnd as [Hnd _]. intros Hin. by apply Hnd, leaves_sub. }
  arrange_parents Hs ((tid g, Some (f_id f)) :: (f_id f, None) :: tsub g).
  { rewrite (tparents_root _ g). solve_Permutation. }
  apply (astate_set_parent _ _ _ _ None) in Hs.
  arrange_parents Hs ((f_id f, None) :: tparents None g).
  { rewrite (tparents_root None g). solve_Permutation. }
  apply astate_free in Hs; [|done]. split; [|done]. by split.
Qed.

Lemma internal_remove_at_ok fuel : 1 <= min_keys → 2 <= INTERNAL_CAP → remove_spec (internal_remove_at key_size fuel) fuel.
Proof using Type.
  intros Hmin Hci. pose proof min_keys_le as Hmk. pose proof (Nat.div_mod_eq INTERNAL_CAP 2) as Hdiv.
  pose proof (Nat.mod_upper_bound INTERNAL_CAP 2 ltac:(lia)) as Hmod.
  induction fuel as [|fuel IH]; intros fs t n f g k j lo hi HN Hh Hp Hg [Hnode Ht]; [lia|].
  destruct (pshape_lengths _ _ _ _ _ _ _ Hp) as [Hll Hlr].
  cbn [internal_remove_at]. rewrite Hnode, lookup_at, delete_at by done.
  assert (delete (length (f_left f) + 1) (List.map tid (f_left f) ++ tid g :: j :: List.map tid (f_right f)) =
    List.map tid (f_left f) ++ tid g :: List.map tid (f_right f)) as ->.
  { change (tid g :: j :: List.map tid (f_right f)) with ([tid g] ++ j :: List.map tid (f_right f)).
    rewrite app_assoc, delete_at by (rewrite length_app, length_map; done). by rewrite <- app_assoc. }
  cbv zeta. change (arena (drop_sep t k)) with (arena t).
  set (t1 := with_arena (drop_sep t k) (set_body (arena t) (f_id f) (InternalBody (f_lkeys f ++ f_rkeys f)
    (List.map tid (f_left f) ++ tid g :: List.map tid (f_right f))))) in *.
  apply (holds_drop_sep _ _ k) in Ht.
  match type of Ht with holds ?x _ => change x with t1 in Ht end.
  destruct fs as [|f2 fs].
  - rewrite bool_decide_eq_true_2 by apply (h_root _ _ Ht).
    destruct (Nat.eqb_spec (length (f_lkeys f ++ f_rkeys f)) 0) as [Hz|Hnz]; cbn [andb negb].
    + rewrite length_app in Hz. assert (f_left f = [] ∧ f_right f = []) as [Hlf Hrf]
        by (split; apply nil_length_inv; lia).
      rewrite Hlf. cbn [List.map app lookup list_lookup]. change (height t1) with (height t). rewrite Hh.
      cbn [length Nat.add Nat.eqb Nat.sub]. rewrite Nat.add_0_r, Nat.sub_0_r. eexists _, g. split; [reflexivity|].
      destruct Hp as (flo & fhi & -> & -> & _ & _ & _ & [-> ->]).
      assert (f_lkeys f = [] ∧ f_rkeys f = []) as [Hlk Hrk] by (split; apply nil_length_inv; lia).
      rewrite Hlk, Hrk in Hg. split; [apply (shrink_root_ok t1 n); try done; cbn in Hh |- *; lia|].
      split; [cbn; rewrite Hlf, Hrf; cbn; by rewrite app_nil_r|].
      change (dropped_seps t ++ [k]) with (dropped_seps (with_root (with_arena t1 (free_node (set_parent (arena t1) (tid g) None) (f_id f))) (Some (tid g)) n)).
      apply moved_none. rewrite fill_keys. cbn. rewrite Hlk, Hrk, Hlf, Hrf. cbn. by rewrite app_nil_r.
    + rewrite andb_false_r. eexists _, _. split; [reflexivity|].
      split; [|split; [reflexivity|by apply (moved_none _ t1)]]. split; [done|].
      change (height t1) with (height t). rewrite Hh. rewrite length_app in Hnz.
      eapply (single_shape _ _ n f [] lo hi g Hp); [lia|done].
  - rewrite bool_decide_eq_false_2 by apply (root_not_hole t1 f2 fs (fill f [g] []) Ht). cbn [andb negb].
    rewrite andb_true_r. destruct (Nat.ltb_spec (length (f_lkeys f ++ f_rkeys f)) (INTERNAL_CAP / 2)) as [Hlt|Hge].
    + destruct Hp as (flo & fhi & -> & -> & Hls & Hrs & Hlen & Hc).
      destruct (rebalance_internal_ok _ fuel t1 n f2 fs (f_id f) (f_lkeys f ++ f_rkeys f)
        (f_left f ++ g :: f_right f) flo fhi Hmin IH) as (t' & g' & Ht' & Hr & He & Hm); [cbn in HN; lia|cbn in Hh |- *; lia|done|done| |done|].
      * apply (seps_hole _ flo (f_lkeys f) [] (f_rkeys f) (f_left f) [g] (f_right f) fhi); [done..|]. by split_and!.
      * exists t', g'. split_and!; [done..|exact He|exact Hm].
    + eexists _, _. split; [reflexivity|].
      split; [|split; [reflexivity|by apply (moved_none _ t1)]]. split; [done|].
      change (height t1) with (height t). rewrite Hh. rewrite length_app in Hge.
      eapply (single_shape _ _ n f (f2 :: fs) lo hi g Hp); [lia|done].
Qed.

(** ** Underfull leaves *)

(** Two sibling leaves as one sorted list, and cut elsewhere. *)
Lemma leaf_join lo k hi i j (l1 l2 : list (K * V)) :
  shape 0 lo (Some k) (TLeaf i l1) → shape 0 (Some k) hi (TLeaf j l2) →
  lt_bound lo hi ∧ sorted_keys (l1 ++ l2).*1 ∧ Forall (in_range lo hi) (l1 ++ l2).*1.
Proof using Type*.
  intros (_ & Hlt1 & Hs1 & Hr1) (_ & Hlt2 & Hs2 & Hr2).
  split; [by destruct lo, hi; try done; cbn in *; transitivity k|]. rewrite fmap_app. split.
  - apply (sorted_app _ _ k); [done..| |].
    + apply (Forall_impl _ _ _ Hr1). by intros x [_ Hx].
    + apply (Forall_impl _ _ _ Hr2). by intros x [Hx _].
  - apply Forall_app. split.
    + apply (Forall_impl _ _ _ Hr1). intros x [Hx Hx']. split; [done|]. destruct hi; [|done]. by transitivity k.
    + apply (Forall_impl _ _ _ Hr2). intros x [Hx Hx']. split; [|done]. destruct lo; [|done]. cbn in Hlt1.
      transitivity k; [by apply klt_kle|done].
Qed.

Lemma leaf_recut lo k hi i j (l1 l2 l1' l2' : list (K * V)) e :
  shape 0 lo (Some k) (TLeaf i l1) → shape 0 (Some k) hi (TLeaf j l2) →
  l1 ++ l2 = l1' ++ e :: l2' → l1' ≠ [] → length l1' <= LEAF_CAP → S (length l2') <= LEAF_CAP →
  shape 0 lo (Some e.1) (TLeaf i l1') ∧ shape 0 (Some e.1) hi (TLeaf j (e :: l2')).
Proof using Type*.
  intros H1 H2 Heq Hne Hc1 Hc2. destruct (leaf_join _ _ _ _ _ _ _ H1 H2) as (_ & Hs & Hr). rewrite Heq in Hs, Hr.
  destruct e as [k' v']. assert (1 <= length l1') by (destruct l1'; [done|cbn; lia]).
  pose proof (split_shape key_size val_size lo hi i j (l1' ++ (k', v') :: l2') (length l1') k' v') as Hsp.
  rewrite take_app_length, drop_app_length in Hsp.
  apply Hsp; [rewrite length_app; cbn; lia|lia|done|done|by apply lookup_at].
Qed.

Section leaf_climb.
Context (ra : RawBTree K V → nat → nat → option (RawBTree K V)) (N : nat) (Hra : remove_spec ra N).
Context (t : RawBTree K V) (f : frame) (fs : list frame) (i : nat) (kvs : list (K * V)) (k : K) (g2 : tree).
Context (lo hi : option K) (HN : length fs < N) (Hh : height t = 1 + length fs).
Context (Hfuel : ∀ t1, height t1 = height t → ∀ x y, ra t1 x y = internal_remove_at key_size (height t + 1) t1 x y).
Context (Hp : pshape 0 f fs lo hi) (Hlt : length kvs < LEAF_CAP / 2).

Lemma right_leaf_ok :
  holds t (plug fs (fill f [TLeaf i kvs; g2] [k])) → shape 0 lo (Some k) (TLeaf i kvs) → shape 0 (Some k) hi g2 →
  ∃ len2, node_len (arena t) (tid g2) = Some len2 ∧
    ∃ t' g', (if LEAF_CAP / 2 <? len2 then steal_leaf_right key_size val_size t (f_id f) (length (f_left f)) i (tid g2)
      else merge_leaves key_size val_size t i (length (f_left f)) (f_id f)) = Some t' ∧ repr t' g' ∧
      entries g' = lentries (f :: fs) ++ (kvs ++ entries g2) ++ rentries (f :: fs) ∧
      seps_accounted (plug fs (fill f [TLeaf i kvs; g2] [k])) t t' g'.
Proof using Hra HN Hh Hfuel Hp Hlt H0.
  intros Ht Hs Hg2. destruct g2 as [j kvs2|]; [|done]. cbn [tid entries].
  destruct (pshape_lengths _ _ _ _ _ _ _ Hp) as [Hll _].
  pose proof (Nat.div_mod_eq LEAF_CAP 2) as Hdiv. pose proof (Nat.mod_upper_bound LEAF_CAP 2 ltac:(lia)) as Hmod.
  exists (length kvs2). split.
  { apply holds_pair in Ht as (Hst & _). apply (node_len_look _ _ _ _ _ j (LeafBody kvs2) Hst). right. right. by left. }
  destruct (Nat.ltb_spec (LEAF_CAP / 2) (length kvs2)) as [Hgt|Hle].
  - destruct kvs2 as [|e1 [|e2 kvs2]]; [cbn [length] in Hgt; lia..|].
    destruct (steal_leaf_right_ok key_size val_size _ _ _ _ _ _ _ _ _ _ Ht) as (t' & Ht' & Hh' & Hd' & Hhold); [lia|done|].
    destruct (leaf_recut _ _ _ _ _ _ _ (kvs ++ [e1]) kvs2 e2 Hs Hg2) as [Hs1 Hs2].
    + by rewrite <- app_assoc.
    + by intros [_ ?]%app_nil.
    + rewrite length_app. cbn. lia.
    + destruct Hg2 as [Hcap _]. cbn [length] in Hcap |- *. lia.
    + destruct (moved_ok t' 0 f fs lo hi _ _ _ Hhold) as (g' & Hr & He & Hm); [lia|done..|]. rewrite Hd' in Hm.
      exists t', g'. split_and!; [done..|rewrite He; cbn [entries]; by rewrite <- (app_assoc kvs [e1])|].
      apply (accounted_moved (length fs) _ _ _ _ [e2.1]); [|done|done|lia]. eapply moved_perm; [apply Hm|solve_keys].
  - destruct (merge_leaves_ok key_size val_size _ _ _ _ _ _ _ _ Ht) as (t1 & -> & Hh1 & Hd1 & Hrm); [lia|done|].
    rewrite <- Hfuel by done.
    destruct (merged_ok ra N t1 0 f fs (TLeaf i (kvs ++ kvs2)) k j lo hi (height t) Hra HN) as (t' & g' & Ht' & Hr & He & Hm);
      [lia|done|done| |done|exists t', g'; split_and!; [done..|]].
    2:{ apply (accounted_moved (length fs) _ _ _ _ []); [|done|cbn; lia|lia]. rewrite Hd1 in Hm. eapply moved_perm; [exact Hm|solve_keys]. }
    destruct (leaf_join _ _ _ _ _ _ _ Hs Hg2) as (? & ? & ?). cbn [shape]. rewrite length_app. split_and!; [lia|done..].
Qed.

Lemma left_leaf_ok :
  holds t (plug fs (fill f [g2; TLeaf i kvs] [k])) → shape 0 (Some k) hi (TLeaf i kvs) → shape 0 lo (Some k) g2 →
  ∃ len2, node_len (arena t) (tid g2) = Some len2 ∧
    ∃ t' g', (if LEAF_CAP / 2 <? len2 then steal_leaf_left key_size val_size t (f_id f) (length (f_left f) + 1) i (tid g2)
      else merge_leaves key_size val_size t (tid g2) (length (f_left f)) (f_id f)) = Some t' ∧ repr t' g' ∧
      entries g' = lentries (f :: fs) ++ (entries g2 ++ kvs) ++ rentries (f :: fs) ∧
      seps_accounted (plug fs (fill f [g2; TLeaf i kvs] [k])) t t' g'.
Proof using Hra HN Hh Hfuel Hp Hlt H0.
  intros Ht Hs Hg2. destruct g2 as [j kvs2|]; [|done]. cbn [tid entries].
  destruct (pshape_lengths _ _ _ _ _ _ _ Hp) as [Hll _].
  pose proof (Nat.div_mod_eq LEAF_CAP 2) as Hdiv. pose proof (Nat.mod_upper_bound LEAF_CAP 2 ltac:(lia)) as Hmod.
  exists (length kvs2). split.
  { apply holds_pair in Ht as (Hst & _). apply (node_len_look _ _ _ _ _ j (LeafBody kvs2) Hst). right. by left. }
  destruct (Nat.ltb_spec (LEAF_CAP / 2) (length kvs2)) as [Hgt|Hle].
  - destruct (exists_last (l := kvs2)) as (kvs2' & e & ->); [intros ->; cbn [length] in Hgt; lia|].
    rewrite length_app in Hgt. cbn [length] in Hgt.
    destruct (steal_leaf_left_ok key_size val_size _ _ _ _ _ _ _ _ _ Ht) as (t' & Ht' & Hh' & Hd' & Hhold); [lia|done|].
    destruct Hg2 as [Hcap Hg2'] eqn:Eg. clear Eg.
    destruct (leaf_recut _ _ _ _ _ _ _ kvs2' kvs e Hg2 Hs) as [Hs1 Hs2].
    + by rewrite <- app_assoc.
    + intros ->. cbn [length] in Hgt. lia.
    + rewrite length_app in Hcap. lia.
    + lia.
    + destruct (moved_ok t' 0 f fs lo hi _ _ _ Hhold) as (g' & Hr & He & Hm); [lia|done..|]. rewrite Hd' in Hm.
      exists t', g'. split_and!; [done..|rewrite He; cbn [entries]; by rewrite <- (app_assoc kvs2' [e])|].
      apply (accounted_moved (length fs) _ _ _ _ [e.1]); [|done|done|lia]. eapply moved_perm; [apply Hm|solve_keys].
  - destruct (merge_leaves_ok key_size val_size _ _ _ _ _ _ _ _ Ht) as (t1 & -> & Hh1 & Hd1 & Hrm); [lia|done|].
    rewrite <- Hfuel by done.
    destruct (merged_ok ra N t1 0 f fs (TLeaf j (kvs2 ++ kvs)) k i lo hi (height t) Hra HN) as (t' & g' & Ht' & Hr & He & Hm);
      [lia|done|done| |done|exists t', g'; split_and!; [done..|]].
    2:{ apply (accounted_moved (length fs) _ _ _ _ []); [|done|cbn; lia|lia]. rewrite Hd1 in Hm. eapply moved_perm; [exact Hm|solve_keys]. }
    destruct (leaf_join _ _ _ _ _ _ _ Hg2 Hs) as (? & ? & ?). cbn [shape]. rewrite length_app. split_and!; [lia|done..].
Qed.
End leaf_climb.

Lemma rebalance_leaf_ok t f fs i kvs lo hi :
  1 <= min_keys → 2 <= INTERNAL_CAP → height t = 1 + length fs →
  holds t (plug (f :: fs) (TLeaf i kvs)) → cshape 0 (f :: fs) lo hi → shape 0 lo hi (TLeaf i kvs) →
  length kvs < LEAF_CAP / 2 →
  ∃ t' g', rebalance_leaf key_size val_size t i = Some t' ∧ repr t' g' ∧
    entries g' = lentries (f :: fs) ++ kvs ++ rentries (f :: fs) ∧
    seps_accounted (plug (f :: fs) (TLeaf i kvs)) t t' g'.
Proof using Type*.
  intros Hmin Hci Hh Ht Hc Hs Hlt. pose proof (internal_remove_at_ok (height t + 1) Hmin Hci) as Hra.
  assert (length fs < height t + 1) as HN by lia.
  pose proof (hole_parent _ _ _ Ht) as Hpar. pose proof (hole_frame _ _ _ _ Ht) as Hnode.
  pose proof (hole_slot _ _ _ _ 0 Ht) as Hslot. cbn [tid parent_of head fmap option_fmap option_map] in *.
  unfold rebalance_leaf. rewrite Hpar. unfold internal_node. rewrite Hnode, Hslot.
  assert (∀ f1 gs k g', fill f [TLeaf i kvs] [] = fill f1 gs [k] →
    entries g' = lentries (f1 :: fs) ++ List.flat_map entries gs ++ rentries (f1 :: fs) →
    entries g' = lentries (f :: fs) ++ kvs ++ rentries (f :: fs)) as Hback.
  { intros f1 gs k g' Heq ->. rewrite <- (entries_fill fs f1 gs [k]), <- Heq, entries_fill. cbn. by rewrite app_nil_r. }
  destruct (choice_ok (λ t', ∃ g', repr t' g' ∧ entries g' = lentries (f :: fs) ++ kvs ++ rentries (f :: fs) ∧
      seps_accounted (plug (f :: fs) (TLeaf i kvs)) t t' g')
    (arena t) (LEAF_CAP / 2) f (TLeaf i kvs) (length (f_lkeys f ++ f_rkeys f))
    (λ r, steal_leaf_right key_size val_size t (f_id f) (length (f_left f)) i r)
    (λ l, steal_leaf_left key_size val_size t (f_id f) (length (f_left f)) i l)
    (merge_leaves key_size val_size t i (length (f_left f)) (f_id f))
    (λ l, merge_leaves key_size val_size t l (length (f_left f) - 1) (f_id f))) as (t' & Ht' & g' & Hr & He & Hm).
  - intros Hpos. destruct (right_sibling _ _ _ _ _ (TLeaf i kvs) Hc Hpos)
      as (k & f1 & g2 & hi2 & Heq & Hid & Hl1 & _ & Hr & -> & Hg2 & Hp).
    rewrite plug_cons in Ht. rewrite Heq in Ht.
    destruct (right_leaf_ok _ _ Hra t f1 fs i kvs k g2 lo hi2 HN Hh ltac:(done) Hp Hlt Ht Hs Hg2)
      as (len2 & Hlen & t' & g' & Ht' & Hrep & He & Hm). rewrite Hid, Hl1 in Ht'.
    exists g2, (f_right f1), len2. split_and!; [done..|]. exists t'. split; [done|]. exists g'. split; [done|].
    rewrite plug_cons, Heq. split; [|done].
    eapply Hback; [exact Heq|]. cbn [List.flat_map entries]. by rewrite app_nil_r.
  - intros Hpos. destruct (left_sibling _ _ _ _ _ (TLeaf i kvs) Hc Hpos)
      as (k & f1 & g2 & lo2 & Heq & Hid & Hl1 & Hll1 & -> & Hg2 & Hp).
    rewrite plug_cons in Ht. rewrite Heq in Ht.
    destruct (left_leaf_ok _ _ Hra t f1 fs i kvs k g2 lo2 hi HN Hh ltac:(done) Hp Hlt Ht Hs Hg2)
      as (len2 & Hlen & t' & g' & Ht' & Hrep & He & Hm).
    assert (length (f_left f) = length (f_left f1) + 1) as Hlf by by rewrite Hl1, length_app.
    rewrite Hid in Ht'.
    exists (f_left f1), g2, len2. split_and!; [done..|]. exists t'. rewrite Hlf, Nat.add_sub. split; [done|].
    exists g'. split; [done|]. rewrite plug_cons, Heq. split; [|done]. eapply Hback; [exact Heq|]. cbn [List.flat_map entries]. by rewrite app_nil_r.
  - by apply (has_sibling _ _ _ _ _ Hmin Hc).
  - by exists t', g'.
Qed.

(** ** Removing an entry *)

Lemma leaf_remove_at_ok t g fs i kvs lo hi idx kv :
  1 <= min_keys → 2 <= INTERNAL_CAP → repr t g → leaf_at g fs i kvs lo hi → length fs = height t → kvs !! idx = Some kv →
  ∃ t' g', leaf_remove_at key_size val_size t i idx = Some (t', kv) ∧ repr t' g' ∧
    entries g' = lentries fs ++ delete idx kvs ++ rentries fs ∧ seps_accounted g t t' g'.
Proof using Type*.
  intros Hmin Hci Hr Hat Hh Hkv. unfold leaf_remove_at.
  rewrite (leaf_at_kvs _ _ _ _ _ _ _ _ _ (proj1 Hr) Hat), Hkv.
  pose proof (lookup_lt_Some _ _ _ Hkv) as Hidx. pose proof (length_delete kvs idx (ltac:(eauto))) as Hld.
  assert (len t = length (lentries fs ++ kvs ++ rentries fs)) as Hlen.
  { by rewrite (h_len _ _ (proj1 Hr)), (la_tree _ _ _ _ _ _ _ _ Hat), entries_plug. }
  rewrite !length_app in Hlen. destruct (Nat.eqb_spec (len t) 0) as [|_]; [lia|].
  pose proof Hat as [_ Hc (Hcap & Hlt & Hs & Hall)].
  assert (shape 0 lo hi (TLeaf i (delete idx kvs))) as Hsh.
  { assert (delete idx kvs = take idx kvs ++ drop (S idx) kvs) as Hdel.
    { rewrite <- (take_drop_middle _ _ _ Hkv) at 1. apply delete_at. rewrite length_take. lia. }
    rewrite <- (take_drop_middle _ _ _ Hkv) in Hs. destruct kv as [k v]. apply sorted_middle in Hs as (_ & _ & Hs).
    cbn [shape]. split_and!; [lia|done|by rewrite Hdel|]. apply Forall_forall. intros x Hx.
    rewrite Forall_forall in Hall. apply Hall. rewrite Hdel, fmap_app in Hx.
    rewrite <- (take_drop_middle _ _ _ Hkv), fmap_app, fmap_cons. set_solver. }
  assert (repr (with_len (set_leaf t i (delete idx kvs)) (len t - 1)) (plug fs (TLeaf i (delete idx kvs)))) as Hr'.
  { destruct Hsh as (? & _ & ? & ?). apply (set_leaf_repr _ _ t g fs i kvs lo hi); [done..|]. rewrite !length_app. lia. }
  change (with_arena t (set_body (arena t) i (LeafBody (delete idx kvs)))) with (set_leaf t i (delete idx kvs)).
  set (t1 := with_len (set_leaf t i (delete idx kvs)) (len t - 1)) in *.
  change (len (set_leaf t i (delete idx kvs))) with (len t).
  replace (length kvs - 1) with (length (delete idx kvs)) by lia. fold t1. change (height t1) with (height t).
  destruct ((length (delete idx kvs) <? LEAF_CAP / 2) && (0 <? height t)) eqn:Eund.
  - apply andb_true_iff in Eund as [Hund%Nat.ltb_lt Hpos%Nat.ltb_lt].
    destruct fs as [|f fs]; [cbn in Hh; lia|].
    destruct (rebalance_leaf_ok t1 f fs i (delete idx kvs) lo hi Hmin Hci) as (t' & g' & -> & Hrep & He & Hm);
      [change (height t1) with (height t); cbn in Hh; lia|apply Hr'|done..|exists t', g'; split_and!; [done..|]].
    destruct Hm as (D & c & Hd & Hn' & Hs' & Hk & Hc'). exists D, c. split_and!; [exact Hd|exact Hn'|done| |done].
    rewrite Hk, (la_tree _ _ _ _ _ _ _ _ Hat), !tkeys_plug. done.
  - exists t1, (plug fs (TLeaf i (delete idx kvs))). split_and!; [done..|by rewrite entries_plug|].
    apply accounted_same; [done|]. by rewrite (la_tree _ _ _ _ _ _ _ _ Hat), !tkeys_plug.
Qed.

(** What a removal does to the keys of the internal nodes: [D] are the separators
    it drops in place, [c] those it clones out of a leaf. *)
Definition separators_after t t' : Prop :=
  ∃ ks ks' D c, internal_keys t = Some ks ∧ internal_keys t' = Some ks' ∧
    dropped_seps t' = dropped_seps t ++ D ∧ length D <= height t ∧ tail D ⊆ ks' ∧ ks' ++ take 1 D ≡ₚ ks ++ c ∧ length c <= 1.

Lemma accounted_separators t g t' g' :
  repr t g → repr t' g' → seps_accounted g t t' g' → separators_after t t'.
Proof using Type.
  intros Hr Hr' (D & c & Ha). exists (tkeys g), (tkeys g'), D, c.
  split; [by apply (repr_internal_keys key_size val_size)|]. by split; [apply (repr_internal_keys key_size val_size)|].
Qed.

Lemma separators_same t ks : internal_keys t = Some ks → separators_after t t.
Proof using Type.
  intros Hk. exists ks, ks, [], []. rewrite !app_nil_r. split_and!; try done; [cbn; lia|by intros x ?%elem_of_nil|cbn; lia].
Qed.

Lemma remove_separators t l key :
  1 <= min_keys → assert_capacities key_size val_size = true → represents t l →
  ∃ t', remove_entry key_size val_size t key = Some (t', pair key <$> sm_lookup l key) ∧
    remove key_size val_size t key = Some (t', sm_lookup l key) ∧ represents t' (sm_delete l key) ∧
    separators_after t t'.
Proof using Type*.
  intros Hmin [_ Hci%Nat.leb_le]%andb_true_iff Hrep. unfold remove_entry, remove.
  pose proof (represents_sorted _ _ _ _ Hrep) as Hsl. destruct Hrep as [[He ->]|(g & Hr & ->)].
  { exists t. unfold search. rewrite (proj1 He). split_and!; [done..|by left|].
    apply (separators_same t []). unfold internal_keys. by rewrite (proj1 He). }
  destruct (search_ok _ _ t g key Hr) as (r & -> & Hres). destruct r as [[i s]|].
  - destruct Hres as (fs & kvs & lo & hi & v & Hat & Hv & Hlk). rewrite Hlk.
    assert (length fs = height t) as Hh.
    { destruct Hr as [_ Hs]. rewrite (la_tree _ _ _ _ _ _ _ _ Hat) in Hs.
      eapply (shape_depth _ _ (0 + length fs)); [|exact Hs]. eapply plug_shape; apply Hat. }
    destruct (leaf_remove_at_ok t g fs i kvs lo hi s (key, v) Hmin Hci Hr Hat Hh Hv) as (t' & g' & -> & Hr' & He & Hm).
    exists t'. split_and!; [done..| |by eapply accounted_separators]. right. exists g'. split; [done|]. rewrite He.
    rewrite (la_tree _ _ _ _ _ _ _ _ Hat), entries_plug in Hsl |- *. cbn [entries] in *.
    rewrite <- (take_drop_middle _ _ _ Hv) in Hsl |- *. rewrite delete_at by (rewrite length_take; apply lookup_lt_Some in Hv; lia).
    rewrite <- app_assoc, app_assoc in Hsl |- *. apply sorted_middle in Hsl as (Hb & Ha & _).
    destruct (sm_present key v v (lentries fs ++ take s kvs) (drop (S s) kvs ++ rentries fs) Hb) as (_ & _ & Hd).
    cbn [app]. rewrite Hd. by rewrite <- !app_assoc.
  - cbn in Hres. rewrite Hres. exists t. split_and!; [done..| |eapply separators_same, repr_internal_keys, Hr]. right. exists g. split; [done|].
    by rewrite sm_delete_absent.
Qed.

Lemma remove_represents t l key :
  1 <= min_keys → assert_capacities key_size val_size = true → represents t l →
  ∃ t', remove_entry key_size val_size t key = Some (t', pair key <$> sm_lookup l key) ∧
    remove key_size val_size t key = Some (t', sm_lookup l key) ∧ represents t' (sm_delete l key).
Proof using Type*.
  intros Hmin Hcap Hl. destruct (remove_separators t l key Hmin Hcap Hl) as (t' & ? & ? & ? & _). by exists t'.
Qed.

(** C33: removal.  On a well-formed B+ tree without an internal node of a single
    child (that a bulk load may leave) [remove] and [remove_entry] return the
    value, or the pair, of the key if it has one, and leave a well-formed tree
    whose entries are those of the ordered map without the key, through every
    combination of stealing from siblings, merging and shrinking the root; no
    read of a node that is not there, no failed assertion, and within the height
    of the tree.  Of the keys in the internal nodes at most one leaves and at
    most one is new; the code drops in place the one that leaves, and besides
    it, when it merges internal nodes, separators that are still in the tree
    afterwards, up to one per level ([merge_drops_live_separator]): for keys with
    a destructor the nodes that the theorem describes then hold dropped keys. *)
Theorem btree_remove_correct t l key :
  1 <= min_keys → assert_capacities key_size val_size = true → represents t l →
  ∃ t', remove_entry key_size val_size t key = Some (t', pair key <$> sm_lookup l key) ∧
    remove key_size val_size t key = Some (t', sm_lookup l key) ∧ represents t' (sm_delete l key) ∧
    ∃ ks ks' D c, internal_keys t = Some ks ∧ internal_keys t' = Some ks' ∧
      dropped_seps t' = dropped_seps t ++ D ∧ length D <= height t ∧ tail D ⊆ ks' ∧ ks' ++ take 1 D ≡ₚ ks ++ c ∧ length c <= 1.
Proof using Type*. apply remove_separators. Qed.
End remove.
