(* ===== verification/BTreeSpec.v ===== *)
(** * The B+ tree engine: the properties and their runs

    Lookup, the equality of the two search strategies and [lower_bound]; trees
    built by runs of the code, as witnesses of the theorems on the operations; and
    a run on which [lower_bound] misses an entry. *)

From Stdlib Require Import ZArith Lia.
From stdpp Require Import sorting.
From S2P Require Import Prelude BTree BTreeInv BTreeShape BTreeRep SortedAssoc BTreeSearch BTreeInsert BTreeRemove.

Section spec.
Context {K V : Type} `{OrdLaws K} {MK : MinKeys} (key_size val_size : nat).
Abbreviation represents := (represents key_size val_size).
Implicit Types (t : RawBTree K V) (key : K) (l : list (K * V)).

(** C30: lookup.  On a well-formed B+ tree [get] returns the value of the key in
    the represented ordered map, and the linear search of short trees and the
    binary search of tall ones find the same slot. *)
Theorem btree_get_correct t l key :
  represents t l →
  get t key = Some (sm_lookup l key) ∧
  (∀ r, root t = Some r → ∃ s, search_linear t r key = Some s ∧ search_binary t r key = Some s).
Proof using Type*.
  intros [[He ->]|(g & Hr & ->)].
  - unfold get, search. rewrite (proj1 He). by split.
  - split; [by eapply tree_get_ok|]. intros r. rewrite (h_root _ _ (proj1 Hr)). intros [= <-].
    destruct (search_linear_ok _ _ t g key Hr) as (s & Hl & _ & Hb). by exists s.
Qed.

(** No leaf in use is empty. *)
Definition leaf_used (b : Body K V) : bool := match b with LeafBody [] => false | _ => true end.
Definition no_empty_leaf_of t : Prop := map_Forall (λ _ b, leaf_used b = true) (bodies (arena t)).

Lemma no_empty_leaf_repr t g : repr key_size val_size t g → no_empty_leaf_of t → no_empty_leaf g.
Proof using Type.
  intros Hr Hne. apply Forall_forall. intros [i kvs] Hin E. cbn in E. subst kvs.
  apply list_elem_of_split in Hin as (L1 & L2 & HL).
  destruct (repr_leaf _ _ t g L1 i [] L2 Hr HL) as (fs & lo & hi & Hat & _).
  rewrite (la_tree _ _ _ _ _ _ _ _ Hat) in Hr. pose proof (Hne _ _ (hole_body t fs (TLeaf i []) (proj1 Hr))) as Hu. done.
Qed.

(** [lower_bound] returns the place of the first entry whose key is not below
    the given one, and nothing when there is no such entry, on every well-formed
    tree in which no leaf is empty. *)
Theorem btree_lower_bound_correct t l key :
  represents t l → no_empty_leaf_of t →
  ∃ r, lower_bound t key = Some r ∧
    match r with
    | Some (i, s) => ∃ kvs e rest, leaf_kvs (arena t) i = Some kvs ∧ kvs !! s = Some e ∧ sm_from l key = e :: rest
    | None => sm_from l key = []
    end.
Proof using Type*.
  intros [[He ->]|(g & Hr & ->)] Hne.
  { exists None. unfold lower_bound. by rewrite (proj1 He). }
  destruct (lower_bound_ok _ _ t g key Hr (no_empty_leaf_repr _ _ Hr Hne)) as ([[i s]|] & Hl & Hs); [|by exists None].
  exists (Some (i, s)). split; [done|]. destruct Hs as (fs & kvs & lo & hi & Hat & Hlt & Hf).
  destruct (lookup_lt_is_Some_2 _ _ Hlt) as [e Hk]. exists kvs, e, (drop (S s) kvs ++ rentries fs).
  rewrite (leaf_at_kvs _ _ _ _ _ _ _ _ _ (proj1 Hr) Hat), Hf, (drop_S _ _ _ Hk). done.
Qed.

(** Runs of insertions, with the limits of the insertion theorem checked. *)
Definition within_limits t : bool :=
  (Z.of_nat (arena_len (arena t)) + Z.of_nat (height t + 2) <=? 2 ^ 31)%Z && (height t <=? MAX_PATH_HEIGHT).

Fixpoint insert_all t l : option (RawBTree K V) :=
  match l with
  | [] => Some t
  | (k, v) :: l' =>
      if within_limits t then do ' (t, _) <- insert key_size val_size t k v; insert_all t l' else None
  end.

Lemma insert_all_represents t l kvs t' :
  assert_capacities key_size val_size = true → represents t l → insert_all t kvs = Some t' →
  represents t' (foldl (λ l e, sm_insert l e.1 e.2) l kvs).
Proof using Type*.
  intros Hc. pose proof Hc as [Hcl%Nat.leb_le Hci%Nat.leb_le]%andb_true_iff. revert t l.
  induction kvs as [|[k v] kvs IH]; intros t l Hr Ht; cbn [insert_all foldl] in *; [by simplify_eq|].
  destruct (within_limits t) eqn:Elim; [|done]. apply andb_true_iff in Elim as [Hroom%Z.leb_le Hh%Nat.leb_le].
  destruct (insert_represents _ _ t l k v Hcl Hci Hr Hroom Hh) as (t1 & Ht1 & Hr1). rewrite Ht1 in Ht.
  by apply (IH t1).
Qed.
End spec.

#[local] Existing Instance full_nodes.

(** A tree of four levels: leaves of two entries, nodes of two or three keys. *)
Definition small_key : nat := 80.
Definition small_val : nat := 40.
Definition sample (n : nat) : list (nat * nat) := List.map (λ i, (i, 10 * i)) (seq 1 n).

Lemma sample_sorted n : sorted_map (sample n).
Proof.
  enough (∀ i, sorted_keys (List.map (λ i, (i, 10 * i)) (seq i n)).*1) as Hs by apply Hs.
  unfold sorted_keys. induction n as [|n IH]; intros i; [constructor|].
  cbn [seq List.map fmap list_fmap fst]. constructor; [apply IH|]. apply Forall_forall. intros k Hk.
  apply list_elem_of_fmap in Hk as ([k' v'] & -> & Hk). apply list_elem_of_In, List.in_map_iff in Hk as (j & [= <- <-] & Hj).
  apply List.in_seq in Hj. apply Nat.compare_lt_iff. cbn. lia.
Qed.

Definition sample_tree (n : nat) : RawBTree nat nat :=
  default tree_new (insert_all small_key small_val tree_new (sample n)).

Lemma sample_represents_9 : represents small_key small_val (sample_tree 9) (sample 9).
Proof.
  assert (insert_all small_key small_val tree_new (sample 9) = Some (sample_tree 9)) as Ht by (vm_compute; reflexivity).
  apply (insert_all_represents small_key small_val tree_new [] (sample 9)) in Ht; [exact Ht|done|apply tree_new_represents].
Qed.

Example sample_tree_9_height : height (sample_tree 9) = 3.
Proof. vm_compute. reflexivity. Qed.

Lemma btree_get_correct_witness : get (sample_tree 9) 5 = Some (Some 50) ∧ get (sample_tree 9) 77 = Some None.
Proof.
  split.
  - apply (btree_get_correct small_key small_val (sample_tree 9) (sample 9) 5 sample_represents_9).
  - apply (btree_get_correct small_key small_val (sample_tree 9) (sample 9) 77 sample_represents_9).
Defined.

Lemma btree_insert_correct_witness :
  ∃ t', insert small_key small_val (sample_tree 9) 5 55 = Some (t', Some 50) ∧
    represents small_key small_val t' (sm_insert (sample 9) 5 55).
Proof.
  destruct (btree_insert_correct small_key small_val (sample_tree 9) (sample 9) 5 55) as (t' & Ht' & Hr);
    [reflexivity|apply sample_represents_9|vm_compute; discriminate|vm_compute; lia|].
  exists t'. split; [exact Ht'|exact Hr].
Defined.

Lemma btree_entry_correct_witness :
  match entry_search (sample_tree 9) 77 with
  | Some (VacantAt i pos) => ∃ t' j s, insert_at_vacant small_key small_val (sample_tree 9) i pos 77 7 = Some (t', (j, s))
  | _ => False
  end.
Proof.
  pose proof (btree_entry_correct small_key small_val (sample_tree 9) (sample 9) 77 7) as Hw.
  specialize (Hw eq_refl sample_represents_9). vm_compute in Hw |- *.
  destruct (Hw ltac:(discriminate)) as (_ & t' & j & s & kvs & Ht' & _). exists t', j, s. exact Ht'.
Defined.

Lemma btree_remove_correct_witness :
  ∃ t', remove small_key small_val (sample_tree 9) 5 = Some (t', Some 50) ∧
    represents small_key small_val t' (sm_delete (sample 9) 5).
Proof.
  destruct (btree_remove_correct small_key small_val (sample_tree 9) (sample 9) 5) as (t' & _ & Ht' & Hr);
    [cbn; lia|reflexivity|apply sample_represents_9|]. exists t'. split; [exact Ht'|exact (proj1 Hr)].
Defined.

Lemma btree_lower_bound_correct_witness :
  ∃ i s, lower_bound (sample_tree 9) 5 = Some (Some (i, s)).
Proof.
  destruct (btree_lower_bound_correct small_key small_val (sample_tree 9) (sample 9) 5) as (r & Hl & Hr).
  - exact sample_represents_9.
  - unfold no_empty_leaf_of. apply (bool_decide_unpack _). vm_compute. exact I.
  - destruct r as [[i s]|]; [exists i, s; exact Hl|]. vm_compute in Hr. discriminate.
Defined.

(** Insertions of [1..6] with leaves of one entry, two removals and a lookup of the
    lower bound of the first removed key. *)
Definition removed_bound : option (option nat * option (option (nat * nat))) :=
  do t <- insert_all 8 200 tree_new (sample 6);
  do ' (t, _) <- remove 8 200 t 3;
  do ' (t, _) <- remove 8 200 t 4;
  do found <- get t 5;
  Some (found, lower_bound t 3).

(** With leaves of one entry (pairs of 208 bytes) removals leave empty leaves,
    and [lower_bound] looks at one following leaf only: after the removal of 3 and
    4 from the keys 1 to 6 it finds nothing from 3 on, although 5 is there. *)
Theorem lower_bound_misses_entries : removed_bound = Some (Some 50, Some None).
Proof. vm_compute. reflexivity. Qed.
