(* ===== verification/BTreeBulk.v ===== *)
(** * The B+ tree engine: bulk loading

    [RawBTree::bulk_load] of [flat_btree/raw.rs]: full leaves from a sorted
    vector, their chain, and internal nodes level by level. *)

From Stdlib Require Import ZArith Lia.
From stdpp Require Import list_tactics sorting.
From S2P Require Import Prelude BTree BTreeInv BTreeShape BTreeRep SortedAssoc BTreeSearch BTreeLeaf BTreeInsert BTreeRebalance BTreeSpec.

Section bulk.
Context {K V : Type} (key_size val_size : nat).
Implicit Types (a : Arena K V) (pairs : list (K * V)).

Abbreviation LEAF_CAP := (LEAF_CAP key_size val_size).
Abbreviation INTERNAL_CAP := (INTERNAL_CAP key_size).

(** [node_count.next_power_of_two()] must fit in 32 bits. *)
(*@ flat_btree/raw.rs : pub fn with_capacity(node_count: u32) *)
Definition arena_with_capacity (node_count : Z) : option (Arena K V) :=
  if (node_count =? 0)%Z then Some arena_new
  else
    let cap := Z.max (next_power_of_two node_count) INITIAL_CAP in
    if (u32_limit <=? cap)%Z then None
    else Some {| bodies := ∅; parents := ∅; links := ∅; arena_cap := cap; arena_len := 0; free_list := [] |}.

(** Phase 1: the leaves; each takes the next [LEAF_CAP] pairs. *)
(*@ flat_btree/raw.rs : 2253-2278 : bulk_load, phase 1 *)
Fixpoint load_leaves (num_leaves : nat) a pairs : option (list nat * Arena K V) :=
  match num_leaves with
  | 0 => Some ([], a)
  | S n =>
      do ' (leaf_idx, a) <- alloc_node a;
      let a := set_body a leaf_idx (LeafBody (take LEAF_CAP pairs)) in
      let a := set_parent a leaf_idx None in
      do ' (leaf_indices, a) <- load_leaves n a (drop LEAF_CAP pairs);
      Some (leaf_idx :: leaf_indices, a)
  end.

(** Phase 2: the chain. *)
(*@ flat_btree/raw.rs : 2284-2298 : bulk_load, phase 2 *)
Fixpoint wire_leaves (prev : option nat) (leaf_indices : list nat) a : Arena K V :=
  match leaf_indices with
  | [] => a
  | i :: rest => wire_leaves (Some i) rest (set_links a i (prev, head rest))
  end.

(** The first key of each leaf. *)
Fixpoint leaf_min_keys a (leaf_indices : list nat) : option (list K) :=
  match leaf_indices with
  | [] => Some []
  | i :: rest =>
      do kvs <- leaf_kvs a i;
      do ' (k, _) <- kvs !! 0;
      do ks <- leaf_min_keys a rest;
      Some (k :: ks)
  end.

(** Phase 3, one level: parents over [internal_cap + 1] children each; [fuel]:
    the number of children. *)
(*@ flat_btree/raw.rs : 2321-2367 : bulk_load, phase 3 *)
Fixpoint build_level (fuel : nat) a (children : list nat) (min_keys : list K) :
    option (list nat * list K * Arena K V) :=
  match children, fuel with
  | [], _ => Some ([], [], a)
  | _, 0 => None
  | _, S fuel' =>
      do ' (parent_idx, a) <- alloc_node a;
      let n_children := Nat.min (length children) (INTERNAL_CAP + 1) in
      let n_keys := n_children - 1 in
      let a := set_parent a parent_idx None in
      let a := set_body a parent_idx
        (InternalBody (take n_keys (drop 1 min_keys)) (take n_children children)) in
      let a := set_parents a (take n_children children) parent_idx in
      do min_key <- min_keys !! 0;
      do ' (parents, parent_min_keys, a) <-
        build_level fuel' a (drop n_children children) (drop n_children min_keys);
      Some (parent_idx :: parents, min_key :: parent_min_keys, a)
  end.

(** [while children.len() > 1]; [fuel]: the number of children. *)
(*@ flat_btree/raw.rs : 2320-2372 : bulk_load, phase 3 *)
Fixpoint build_levels (fuel : nat) a (children : list nat) (min_keys : list K) (height : nat) :
    option (nat * nat * Arena K V) :=
  if 1 <? length children then
    match fuel with
    | 0 => None
    | S fuel' =>
        do ' (parents, parent_min_keys, a) <- build_level (length children) a children min_keys;
        build_levels fuel' a parents parent_min_keys (height + 1)
    end
  else
    do root <- children !! 0;
    Some (root, height, a).

(*@ flat_btree/raw.rs : pub fn bulk_load *)
Definition bulk_load pairs : option (RawBTree K V) :=
  match pairs with
  | [] => Some tree_new
  | _ =>
      let n := length pairs in
      let num_leaves := (n + LEAF_CAP - 1) / LEAF_CAP in
      let estimated_nodes := num_leaves + num_leaves / 2 + 4 in
      do a <- arena_with_capacity (Z.of_nat estimated_nodes mod u32_limit);
      do ' (leaf_indices, a) <- load_leaves num_leaves a pairs;
      do first_leaf <- head leaf_indices;
      do last_leaf <- last leaf_indices;
      let a := wire_leaves None leaf_indices a in
      do min_keys <- leaf_min_keys a leaf_indices;
      do ' (root, height, a) <- build_levels (length leaf_indices) a leaf_indices min_keys 0;
      Some {| arena := a; root := Some root; first_leaf := Some first_leaf; last_leaf := Some last_leaf;
              len := n; height := height; dropped_seps := [] |}
  end.
End bulk.

(** ** The B+ tree engine: what a bulk load builds *)

(** Every sorted vector gives a well-formed tree of exactly its entries, in which
    a node may have a single child; when the last group of a level has one child
    only, the tree has an internal node without keys, on which the removal code
    is undefined. *)

Section chain.
Implicit Types (m : gmap nat (option nat * option nat)).

(** Wiring a list of leaves gives their chain. *)
Lemma wire_chain m I prev L :
  NoDup L → L ⊆ I → field_ok m I [] →
  field_ok (foldl (λ m e, <[e.1 := e.2]> m) m (chain prev L None)) I (chain prev L None).
Proof.
  intros Hn Hs Hm.
  assert (∀ l m0 l0, field_ok m0 I l0 → NoDup (l.*1 ++ l0.*1) → l.*1 ⊆ I →
    field_ok (foldl (λ m e, <[e.1 := e.2]> m) m0 l) I (l ++ l0)) as Hgen.
  { clear. induction l as [|[i x] l IH]; intros m0 l0 H0 Hn Hs; [done|]. cbn [foldl fst snd app].
    rewrite fmap_cons in Hn, Hs. cbn in Hn, Hs. apply NoDup_cons in Hn as [Hi Hn].
    apply (field_perm _ _ (l ++ (i, x) :: l0)); [solve_Permutation|]. apply IH.
    - apply field_new; [set_solver|set_solver|done].
    - rewrite fmap_cons. cbn. rewrite <- Permutation_middle. by apply NoDup_cons.
    - set_solver. }
  rewrite <- (app_nil_r (chain prev L None)) at 2. apply Hgen; [done| |by rewrite chain_ids].
  by rewrite chain_ids, app_nil_r.
Qed.
End chain.

Section bulk.
Context {K V : Type} `{OrdLaws K} {MK : MinKeys} (key_size val_size : nat).
Abbreviation tree := (tree K V).
Abbreviation shape := (shape key_size val_size).
Abbreviation LEAF_CAP := (LEAF_CAP key_size val_size).
Abbreviation INTERNAL_CAP := (INTERNAL_CAP key_size).
Implicit Types (a : Arena K V) (g : tree) (gs : list tree) (pairs : list (K * V)) (lo : option K).

(** Trees side by side among other nodes. *)
Definition forest a gs I B P L : Prop :=
  astate a (List.flat_map ids gs ++ I) (List.flat_map tbodies gs ++ B) (List.flat_map (tparents None) gs ++ P) L.

(** A new node above trees of a forest. *)
Lemma forest_node a i ks gs gs' I B P L :
  i ∉ List.flat_map ids (gs ++ gs') ++ I → forest a (gs ++ gs') I B P L → B.*1 ⊆ I → P.*1 ⊆ I →
  (∀ a', astate a' (i :: List.flat_map ids (gs ++ gs') ++ I) (List.flat_map tbodies (gs ++ gs') ++ B)
     (List.flat_map (tparents None) (gs ++ gs') ++ P) L →
   forest (set_parents (set_body (set_parent a' i None) i (InternalBody ks (List.map tid gs))) (List.map tid gs) i)
     gs' (ids (TNode i ks gs) ++ I) (tbodies (TNode i ks gs) ++ B) (tparents None (TNode i ks gs) ++ P) L).
Proof using Type*.
  intros Hi Hf HB HP a' Hs. unfold forest.
  assert (i ∉ (List.flat_map (tparents None) (gs ++ gs') ++ P).*1) as Hip.
  { rewrite fmap_app, flat_tparents_ids. set_solver. }
  assert (i ∉ (List.flat_map tbodies (gs ++ gs') ++ B).*1) as Hib.
  { rewrite fmap_app, flat_tbodies_ids. set_solver. }
  apply (astate_new_parent _ _ i None) in Hs; [|by left|done].
  apply (astate_new_body _ _ i (InternalBody ks (List.map tid gs))) in Hs; [|by left|done].
  arrange_parents Hs (List.map (λ c, (c, @None nat)) (List.map (@tid K V) gs) ++
    List.flat_map tsub gs ++ (i, None) :: List.flat_map (tparents None) gs' ++ P).
  { rewrite List.flat_map_app, (flat_tparents None gs). solve_Permutation. }
  apply (astate_set_parents _ _ _ _ i) in Hs.
  eapply astate_perm; [| | |exact Hs]; cbn [ids tbodies tparents]; rewrite ?List.flat_map_app.
  - solve_Permutation.
  - solve_Permutation.
  - rewrite (flat_tparents (Some i) gs). solve_Permutation.
Qed.

(** ** The leaves *)

(** The first keys of trees side by side. *)
Definition first_keys gs (mks : list K) : Prop := Forall2 (λ g k, head (entries g).*1 = Some k) gs mks.

Lemma cut_leaf lo i j (kvs rest : list (K * V)) k v :
  rest = (k, v) :: j → sorted_map (kvs ++ rest) → Forall (in_range lo None) (kvs ++ rest).*1 →
  kvs ≠ [] → length kvs <= LEAF_CAP →
  shape 0 lo (Some k) (TLeaf i kvs) ∧ sorted_map rest ∧ Forall (in_range (Some k) None) rest.*1.
Proof using Type*.
  intros -> Hs Hr Hne Hlen. unfold sorted_map, sorted_keys in *. rewrite fmap_app in Hs, Hr.
  apply StronglySorted_app in Hs as (Hlt & Hs1 & Hs2). apply Forall_app in Hr as [Hr1 Hr2].
  assert (∀ x, x ∈ kvs.*1 → klt x k) as Hx by (intros x Hx; apply Hlt; [done|by left]).
  split_and!; [|done|].
  - cbn [shape]. split_and!; [done| |done|].
    + destruct kvs as [|[k1 v1] kvs]; [done|]. rewrite fmap_cons in Hr1, Hx. apply Forall_cons in Hr1 as [[Hlo _] _].
      destruct lo as [l|]; [|done]. apply (kle_klt_trans l k1); [done|]. apply Hx. by left.
    + rewrite Forall_forall in Hr1 |- *. intros x Hin. split; [by apply Hr1|by apply Hx].
  - rewrite fmap_cons in Hs2 |- *. inversion Hs2 as [|? ? _ Hall]; subst. constructor; [split; [apply kle_refl|done]|].
    apply (Forall_impl _ _ _ Hall). intros x Hxk. split; [by apply klt_kle|done].
Qed.

Lemma load_leaves_ok num a I B P lo pairs :
  1 <= LEAF_CAP → room num a → astate a I B P [] → B.*1 ⊆ I → P.*1 ⊆ I →
  (num = 0 ∧ pairs = [] ∨ 0 < num ∧ (num - 1) * LEAF_CAP < length pairs <= num * LEAF_CAP) →
  sorted_map pairs → Forall (in_range lo None) pairs.*1 →
  ∃ gs a' mks, load_leaves key_size val_size num a pairs = Some (List.map tid gs, a') ∧
    forest a' gs I B P [] ∧ List.flat_map entries gs = pairs ∧ List.flat_map leaves gs = List.map tid gs ∧
    length gs = num ∧ (0 < num → seps (shape 0) lo (drop 1 mks) gs None) ∧ first_keys gs mks ∧
    (∀ n, room (num + n) a → room n a').
Proof using Type*.
  intros Hcap. revert a I B P lo pairs. induction num as [|num IH]; intros a I B P lo pairs Hroom Hs HB HP Hn Hsort Hr.
  { destruct Hn as [[_ ->]|[? _]]; [|lia]. exists [], a, []. split_and!; try done; [lia|constructor]. }
  destruct Hn as [[? _]|[_ Hn]]; [lia|].
  assert (room 1 a) as Hroom1' by (unfold room in *; lia).
  cbn [load_leaves]. destruct (alloc_node_ok _ _ _ _ _ Hroom1' Hs) as (i & a1 & -> & Hi & Hs1 & Hroom1).
  set (kvs := take LEAF_CAP pairs). set (rest := drop LEAF_CAP pairs).
  apply (astate_new_body _ _ i (LeafBody kvs)) in Hs1; [|by left|set_solver].
  apply (astate_new_parent _ _ i None) in Hs1; [|by left|set_solver].
  assert (pairs = kvs ++ rest) as Hpairs by (symmetry; apply take_drop).
  assert (length kvs = Nat.min LEAF_CAP (length pairs)) as Hk by apply length_take.
  assert (length rest = length pairs - LEAF_CAP) as Hrl by apply length_drop.
  assert (kvs ≠ []) as Hne by (intros E; rewrite E in Hk; cbn [length] in Hk; lia).
  assert (rest = [] ∧ num = 0 ∨ (0 < num ∧ (num - 1) * LEAF_CAP < length rest <= num * LEAF_CAP)) as Hrest.
  { destruct num as [|num]; [left|right; rewrite Hrl; nia]. split; [|done]. apply nil_length_inv. lia. }
  rewrite Hpairs in Hsort, Hr.
  assert (∃ k0 v0 kvs', kvs = (k0, v0) :: kvs') as (k0 & v0 & kvs' & Ek) by (destruct kvs as [|[k0 v0] kvs']; [done|eauto]).
  assert (∃ lo', sorted_map rest ∧ Forall (in_range lo' None) rest.*1 ∧
    (0 < num → ∃ k v rest', rest = (k, v) :: rest' ∧ lo' = Some k ∧ shape 0 lo (Some k) (TLeaf i kvs))) as (lo' & Hsr & Hrr & Hlo').
  { destruct rest as [|[k v] rest'] eqn:Er.
    - exists None. split_and!; [constructor|constructor|]. intros Hpos. destruct Hrest as [[_ ->]|[_ ?]]; [lia|cbn [length] in *; nia].
    - destruct (cut_leaf lo i rest' kvs ((k, v) :: rest') k v eq_refl Hsort Hr Hne) as (Hsh & ? & ?); [lia|].
      exists (Some k). split_and!; [done..|]. intros _. by exists k, v, rest'. }
  assert (room num (set_parent (set_body a1 i (LeafBody kvs)) i None)) as Hroom2 by (by apply Hroom1).
  destruct (IH _ _ _ _ lo' rest Hroom2 Hs1) as
    (gs & a' & mks & -> & Hf & He & Hl & Hlen & Hseps & Hfirst & Hroom'); [set_solver..| |done|done|].
  { destruct Hrest as [[? ?]|?]; [by left|by right]. }
  exists (TLeaf i kvs :: gs), a', (k0 :: mks). split_and!.
  - done.
  - unfold forest in *. cbn [List.flat_map ids tbodies tparents].
    eapply astate_perm; [| | |exact Hf]; solve_Permutation.
  - cbn. rewrite He. done.
  - cbn. by rewrite Hl.
  - cbn. by rewrite Hlen.
  - intros _. cbn [drop]. destruct (decide (0 < num)) as [Hpos|Hz].
    + destruct (Hlo' Hpos) as (k & v & rest' & Er & -> & Hsh). specialize (Hseps Hpos).
      destruct gs as [|g gs]; [cbn in Hlen; lia|]. inversion Hfirst as [|? k1 ? mks' Hk1 Hft]; subst mks.
      assert (k1 = k) as ->.
      { assert (entries g ≠ []) as Hge.
        { intros E. rewrite E in Hk1. done. }
        cbn in He. rewrite Er in He. destruct (entries g) as [|[k2 v2] es]; [done|]. cbn in He, Hk1. congruence. }
      cbn [seps drop] in Hseps |- *. by split.
    + assert (num = 0) as -> by lia. destruct gs; [|done]. inversion Hfirst; subst mks.
      destruct Hrest as [[Er _]|[? _]]; [|lia]. rewrite Er, app_nil_r in Hsort, Hr. cbn [seps shape].
      split_and!; [lia|by destruct lo|done|done].
  - constructor; [by rewrite Ek|done].
  - intros n Hroom''. apply Hroom'. apply Hroom1. unfold room in *. lia.
Qed.

Lemma leaf_min_keys_ok a gs mks I B P L :
  astate a I (List.flat_map tbodies gs ++ B) P L → Forall (λ g, ∃ i kvs, g = TLeaf i kvs) gs → first_keys gs mks →
  leaf_min_keys a (List.map tid gs) = Some mks.
Proof using Type.
  intros Hs Hleaf Hf. revert B Hs. induction Hf as [|g k gs mks Hk Hf IH]; intros B Hs; [done|].
  apply Forall_cons in Hleaf as [(i & kvs & ->) Hleaf]. cbn [List.map tid leaf_min_keys List.flat_map tbodies app] in *.
  rewrite (leaf_kvs_look _ _ _ _ _ i kvs Hs) by by left. cbn in Hk.
  destruct kvs as [|[k1 v1] kvs]; [done|]. cbn in Hk |- *. simplify_eq.
  rewrite (IH Hleaf ((i, LeafBody ((k, v1) :: kvs)) :: B)); [done|].
  eapply astate_perm; [done| |done|exact Hs]. solve_Permutation.
Qed.

Lemma seps_leaves lo ks gs hi : seps (shape 0) lo ks gs hi → Forall (λ g, ∃ i kvs, g = TLeaf i kvs) gs.
Proof using Type.
  revert lo ks. induction gs as [|g gs IH]; intros lo ks Hs; [constructor|].
  destruct ks as [|k ks]; cbn in Hs.
  - destruct gs; [|done]. constructor; [|constructor]. destruct g as [i kvs|]; [eauto|done].
  - destruct Hs as [Hg Hs]. constructor; [|by eapply IH]. destruct g as [i kvs|]; [eauto|done].
Qed.

Lemma leaves_only gs :
  Forall (λ g, ∃ i kvs, g = TLeaf i kvs) gs →
  List.flat_map ids gs = List.map tid gs ∧ List.flat_map leaves gs = List.map tid gs ∧
  (List.flat_map tleaves gs).*1 = List.map tid gs.
Proof using Type. induction 1 as [|g gs (i & kvs & ->) _ (IH1 & IH2 & IH3)]; [done|]. cbn in *. by rewrite IH1, IH2, IH3. Qed.

(** ** The chain *)

Lemma wire_leaves_eq prev L a :
  wire_leaves prev L a =
    arena_with a (bodies a) (parents a) (foldl (λ m e, <[e.1 := e.2]> m) (links a) (chain prev L None)).
Proof using Type.
  revert prev a. induction L as [|i L IH]; intros prev a; [by destruct a|]. cbn [wire_leaves chain foldl].
  rewrite IH. by destruct L.
Qed.

Lemma wire_leaves_ok a I B P L :
  NoDup L → L ⊆ I → astate a I B P [] → astate (wire_leaves None L a) I B P L.
Proof using Type.
  intros Hn Hs [Hb Hp Hl Ha]. rewrite wire_leaves_eq. split; [done|done| |done]. by apply wire_chain.
Qed.

(** The arena a load starts with. *)
Lemma arena_with_capacity_ok (count : Z) :
  (0 < count <= 2 ^ 31)%Z → ∃ a : Arena K V, arena_with_capacity count = Some a ∧ astate a [] [] [] [] ∧ arena_len a = 0.
Proof using Type.
  intros Hc. unfold arena_with_capacity. destruct (Z.eqb_spec count 0); [lia|].
  assert (next_power_of_two count <= 2 ^ 31)%Z as Hp.
  { unfold next_power_of_two, wrap64. assert (Z.log2_up count <= 31)%Z by (apply Z.log2_up_le_pow2; lia).
    assert (2 ^ Z.log2_up count <= 2 ^ 31)%Z by (apply Z.pow_le_mono_r; lia).
    pose proof (Z.pow_pos_nonneg 2 (Z.log2_up count) ltac:(lia) (Z.log2_up_nonneg _)).
    rewrite Z.mod_small; lia. }
  assert (0 <= next_power_of_two count)%Z by (apply Z.mod_pos_bound; lia).
  unfold INITIAL_CAP, u32_limit. destruct (Z.leb_spec (2 ^ 32) (next_power_of_two count `max` 4)); [lia|].
  eexists. split; [done|]. split; [|done].
  split; [split_and!; [constructor|done|constructor]..|]. split_and!; cbn; [constructor|constructor|lia].
Qed.

(** ** One level *)

Lemma room_parents n a i body p cs j :
  room n a → room n (set_parents (set_body (set_parent a i p) i body) cs j).
Proof using Type. rewrite set_parents_eq. done. Qed.

(** Every group of the level has two children or more. *)
Definition no_lone (c : nat) : Prop := min_keys = 0 ∨ c mod (INTERNAL_CAP + 1) ≠ 1.

Lemma no_lone_sub c : INTERNAL_CAP + 1 < c → no_lone c → no_lone (c - (INTERNAL_CAP + 1)).
Proof using Type.
  intros Hlt [Hz|Hm]; [by left|right]. replace c with (c - (INTERNAL_CAP + 1) + 1 * (INTERNAL_CAP + 1)) in Hm by lia.
  by rewrite Nat.Div0.mod_add in Hm.
Qed.

(** A group of children with the keys between them is a node; what is left starts at the next first key. *)
Lemma seps_group n i lo mks gs nc :
  1 <= nc <= length gs → length mks = length gs → min_keys <= nc - 1 <= INTERNAL_CAP →
  seps (shape n) lo (drop 1 mks) gs None →
  ∃ hi, shape (S n) lo hi (TNode i (take (nc - 1) (drop 1 mks)) (take nc gs)) ∧
    (drop nc gs = [] ∧ hi = None ∨
     drop nc gs ≠ [] ∧ is_Some hi ∧ head (drop nc mks) = hi ∧ seps (shape n) hi (drop 1 (drop nc mks)) (drop nc gs) None).
Proof using Type.
  intros Hnc Hmk Hks Hseps. rewrite <- (take_drop nc gs) in Hseps.
  assert (length (drop nc gs) = length gs - nc) as Hd by apply length_drop.
  destruct (decide (drop nc gs = [])) as [E|Hne].
  - rewrite E, app_nil_r in Hseps. rewrite E in Hd. cbn [length] in Hd.
    exists None. split; [|by left]. cbn [BTreeShape.shape]. rewrite (take_ge (drop 1 mks)) by (rewrite length_drop; lia).
    rewrite length_drop. split; [lia|done].
  - assert (nc < length mks) as Hlt by (destruct (drop nc gs); [done|cbn [length] in Hd; lia]).
    destruct (lookup_lt_is_Some_2 _ _ Hlt) as [m Hm].
    assert (drop 1 mks !! (nc - 1) = Some m) as Hm' by (rewrite lookup_drop; by replace (1 + (nc - 1)) with nc by lia).
    assert (length (take (nc - 1) (drop 1 mks)) = nc - 1) as Hlk by (rewrite length_take, length_drop; lia).
    rewrite <- (take_drop_middle _ _ _ Hm'), drop_drop in Hseps.
    replace (1 + S (nc - 1)) with (S nc) in Hseps by lia.
    apply seps_cut in Hseps as [Hs1 Hs2]; [|rewrite Hlk, length_take; lia].
    exists (Some m). rewrite (drop_S _ _ _ Hm). split; [|by right].
    cbn [BTreeShape.shape]. split; [rewrite Hlk; lia|done].
Qed.

Lemma group_bounds c :
  2 <= INTERNAL_CAP → 0 < c → no_lone c →
  1 <= Nat.min c (INTERNAL_CAP + 1) <= c ∧ min_keys <= Nat.min c (INTERNAL_CAP + 1) - 1 <= INTERNAL_CAP.
Proof using Type.
  intros Hcap Hc Hl. pose proof min_keys_le. split; [lia|]. split; [|lia]. destruct Hl as [->|Hl]; [lia|].
  destruct (decide (c = 1)) as [->|]; [|lia]. rewrite Nat.mod_small in Hl by lia. done.
Qed.

Lemma groups_step c :
  2 <= INTERNAL_CAP → 0 < c →
  (c + INTERNAL_CAP) / (INTERNAL_CAP + 1) =
    S ((c - Nat.min c (INTERNAL_CAP + 1) + INTERNAL_CAP) / (INTERNAL_CAP + 1)).
Proof using Type.
  intros Hcap Hc. destruct (decide (c <= INTERNAL_CAP + 1)) as [Hle|Hgt].
  - rewrite Nat.min_l, Nat.sub_diag by done. rewrite (Nat.div_small (0 + _)) by lia.
    symmetry. apply (Nat.div_unique _ _ _ (c - 1)); lia.
  - rewrite Nat.min_r by lia. replace (c + INTERNAL_CAP) with (c - (INTERNAL_CAP + 1) + INTERNAL_CAP + 1 * (INTERNAL_CAP + 1)) by lia.
    rewrite Nat.div_add by lia. lia.
Qed.

Lemma build_level_ok n fuel a gs mks lo I B P L :
  2 <= INTERNAL_CAP → length gs <= fuel → length mks = length gs → no_lone (length gs) →
  room (length gs) a → forest a gs I B P L → B.*1 ⊆ I → P.*1 ⊆ I →
  (gs ≠ [] → seps (shape n) lo (drop 1 mks) gs None) →
  ∃ ps pmks a', build_level key_size fuel a (List.map tid gs) mks = Some (List.map tid ps, pmks, a') ∧
    forest a' ps I B P L ∧ (gs ≠ [] → seps (shape (S n)) lo (drop 1 pmks) ps None) ∧
    length pmks = length ps ∧ head pmks = head mks ∧
    List.flat_map tleaves ps = List.flat_map tleaves gs ∧
    length ps = (length gs + INTERNAL_CAP) / (INTERNAL_CAP + 1) ∧
    (∀ m, room (length ps + m) a → room m a').
Proof using Type*.
  intros Hcap. revert a gs mks lo I B P.
  induction fuel as [|fuel IH]; intros a gs mks lo I B P Hf Hmk Hlone Hroom Hfo HB HP Hseps.
  { destruct gs; [|cbn in Hf; lia]. destruct mks; [|done]. exists [], [], a. split_and!; try done.
    by rewrite Nat.div_small by (cbn [length]; lia). }
  destruct (decide (gs = [])) as [->|Hne].
  { destruct mks; [|done]. exists [], [], a. split_and!; try done. by rewrite Nat.div_small by (cbn [length]; lia). }
  specialize (Hseps Hne).
  assert (0 < length gs) as Hpos by (destruct gs; [done|cbn [length]; lia]).
  assert (∃ c0 cs0, List.map (@tid K V) gs = c0 :: cs0) as (c0 & cs0 & Hmap) by (destruct gs; [done|eauto]).
  cbn [build_level]. rewrite Hmap. rewrite <- Hmap. clear c0 cs0 Hmap.
  assert (room 1 a) as Hroom1 by (unfold room in *; lia).
  destruct (alloc_node_ok _ _ _ _ _ Hroom1 Hfo) as (i & a1 & -> & Hi & Hs1 & Hroom2).
  rewrite length_map. destruct (group_bounds _ Hcap Hpos Hlone) as [Hnc Hks].
  rewrite (groups_step _ Hcap Hpos). set (nc := Nat.min (length gs) (INTERNAL_CAP + 1)) in *.
  destruct (seps_group n i lo mks gs nc Hnc Hmk Hks Hseps) as (hi & Hp & Hrest).
  rewrite List.firstn_map, List.skipn_map.
  set (g1 := take nc gs) in *. set (g2 := drop nc gs) in *. set (ks := take (nc - 1) (drop 1 mks)) in *.
  assert (gs = g1 ++ g2) as Hgs by (symmetry; apply take_drop).
  assert (length g2 = length gs - nc) as Hg2 by (subst g2; apply length_drop).
  assert (∃ mk0 mks0, mks = mk0 :: mks0) as (mk0 & mks0 & Emk) by (destruct mks; [cbn [length] in Hmk; lia|eauto]).
  assert (mks !! 0 = Some mk0) as -> by by rewrite Emk.
  rewrite Hgs in Hi, Hs1, Hfo.
  destruct (IH (set_parents (set_body (set_parent a1 i None) i (InternalBody ks (List.map tid g1))) (List.map tid g1) i)
    g2 (drop nc mks) hi (ids (TNode i ks g1) ++ I) (tbodies (TNode i ks g1) ++ B) (tparents None (TNode i ks g1) ++ P))
    as (ps & pmks & a' & Hb & Hfo' & Hse & Hlp & Hhd & Htl & Hln & Hro).
  { lia. }
  { rewrite length_drop. lia. }
  { rewrite Hg2. subst nc. destruct (decide (length gs <= INTERNAL_CAP + 1)).
    - replace (length gs - _) with 0 by lia. right. rewrite Nat.mod_small; lia.
    - rewrite Nat.min_r by lia. apply no_lone_sub; [lia|done]. }
  { apply room_parents, Hroom2. unfold room in *. lia. }
  { apply (forest_node a i ks g1 g2 I B P L Hi Hfo HB HP a1 Hs1). }
  { rewrite fmap_app, (tbodies_ids (TNode i ks g1)). set_solver. }
  { rewrite fmap_app, (tparents_ids None (TNode i ks g1)). set_solver. }
  { intros Hg. by destruct Hrest as [[? _]|(_ & _ & _ & ?)]. }
  rewrite Hb. exists (TNode i ks g1 :: ps), (mk0 :: pmks), a'. split_and!.
  - done.
  - unfold forest in *. cbn [List.flat_map].
    eapply astate_perm; [| | |exact Hfo']; solve_Permutation.
  - intros _. cbn [drop]. destruct Hrest as [[E ->]|(Hg & (k & ->) & Hk & _)].
    + rewrite E in Hg2, Hln. rewrite Nat.div_small in Hln by (cbn [length]; lia).
      destruct ps; [|done]. destruct pmks; [|done]. exact Hp.
    + rewrite Hk in Hhd. destruct pmks as [|k' pmks]; [done|]. cbn in Hhd. injection Hhd as ->.
      specialize (Hse Hg). cbn [drop] in Hse. by split.
  - cbn [length]. by rewrite Hlp.
  - by rewrite Emk.
  - rewrite Hgs, List.flat_map_app, <- Htl. done.
  - cbn [length]. rewrite Hln, Hg2. done.
  - intros m Hm. apply Hro, room_parents, Hroom2. cbn [length] in Hm. unfold room in *. lia.
Qed.

(** ** All levels *)

Definition level_size (c : nat) : nat := (c + INTERNAL_CAP) / (INTERNAL_CAP + 1).

(** No level built above [c] nodes has a group of one child. *)
Fixpoint no_lone_levels (fuel c : nat) : Prop :=
  match fuel with
  | 0 => True
  | S fuel' => 1 < c → no_lone c ∧ no_lone_levels fuel' (level_size c)
  end.

Lemma level_size_half c : 2 <= INTERNAL_CAP → 1 < c → 0 < level_size c ∧ 2 * level_size c <= c.
Proof using Type.
  intros Hcap Hc. unfold level_size. split; [apply Nat.div_str_pos; lia|].
  destruct (decide (c <= INTERNAL_CAP + 1)) as [Hle|Hgt].
  - enough ((c + INTERNAL_CAP) / (INTERNAL_CAP + 1) < 2) by lia. apply Nat.Div0.div_lt_upper_bound. lia.
  - pose proof (Nat.Div0.mul_div_le (c + INTERNAL_CAP) (INTERNAL_CAP + 1)) as Hm.
    set (q := (c + INTERNAL_CAP) / (INTERNAL_CAP + 1)) in *. nia.
Qed.

Lemma build_levels_ok fuel a gs mks n lo I B P L :
  2 <= INTERNAL_CAP → length gs <= fuel → length mks = length gs → gs ≠ [] → no_lone_levels fuel (length gs) →
  room (length gs) a → forest a gs I B P L → B.*1 ⊆ I → P.*1 ⊆ I →
  seps (shape n) lo (drop 1 mks) gs None →
  ∃ g n' a', build_levels key_size fuel a (List.map tid gs) mks n = Some (tid g, n', a') ∧
    forest a' [g] I B P L ∧ shape n' lo None g ∧ tleaves g = List.flat_map tleaves gs.
Proof using Type*.
  intros Hcap. revert a gs mks n. induction fuel as [|fuel IH]; intros a gs mks n Hf Hmk Hne Hlone Hroom Hfo HB HP Hseps.
  { destruct gs; [done|cbn [length] in Hf; lia]. }
  cbn [build_levels]. rewrite length_map. destruct (Nat.ltb_spec 1 (length gs)) as [Hlt|Hge].
  - destruct (Hlone Hlt) as [Hl Hls]. destruct (level_size_half _ Hcap Hlt) as [Hpos Hhalf].
    destruct (build_level_ok n (length gs) a gs mks lo I B P L) as
      (ps & pmks & a' & -> & Hfo' & Hse & Hlp & _ & Htl & Hln & Hro); [done..|]. fold (level_size (length gs)) in Hln.
    destruct (IH a' ps pmks (S n)) as (g & n' & a'' & Hb & Hg & Hsh & Ht); [lia|done| | | |done..|by apply Hse|].
    + intros ->. cbn [length] in Hln. lia.
    + by rewrite Hln.
    + apply Hro. unfold room in *. lia.
    + rewrite Nat.add_1_r. exists g, n', a''. by rewrite Ht, <- Htl.
  - destruct gs as [|g [|g' gs]]; [done| |cbn [length] in Hge; lia]. destruct mks as [|mk [|]]; [done| |done].
    exists g, n, a. cbn [seps drop List.flat_map] in *. by rewrite app_nil_r.
Qed.

(** ** The whole load *)

Definition leaf_count (n : nat) : nat := (n + LEAF_CAP - 1) / LEAF_CAP.

Lemma leaf_count_ok n :
  1 <= LEAF_CAP → 0 < n → 0 < leaf_count n <= n ∧ (leaf_count n - 1) * LEAF_CAP < n <= leaf_count n * LEAF_CAP.
Proof using Type.
  intros Hcap Hn. unfold leaf_count.
  pose proof (Nat.div_mod (n + LEAF_CAP - 1) LEAF_CAP ltac:(lia)) as Hd.
  pose proof (Nat.mod_upper_bound (n + LEAF_CAP - 1) LEAF_CAP ltac:(lia)) as Hm.
  set (q := (n + LEAF_CAP - 1) / LEAF_CAP) in *. set (r := (n + LEAF_CAP - 1) mod LEAF_CAP) in *.
  assert (0 < q) by (destruct q; [lia|lia]). split; nia.
Qed.

(** No node of the tree above [n] entries has a single child. *)
Definition bulk_full (n : nat) : Prop := no_lone_levels (leaf_count n) (leaf_count n).

Lemma estimated_fits c : (2 * Z.of_nat c + 8 <= 2 ^ 31)%Z →
  (0 < Z.of_nat (c + c / 2 + 4) mod u32_limit <= 2 ^ 31)%Z.
Proof using Type.
  intros Hc. pose proof (Nat.div_le_upper_bound c 2 c ltac:(lia) ltac:(lia)).
  unfold u32_limit. rewrite Z.mod_small; lia.
Qed.

Lemma bulk_load_ok pairs :
  1 <= LEAF_CAP → 2 <= INTERNAL_CAP → sorted_map pairs → (2 * Z.of_nat (length pairs) + 8 <= 2 ^ 31)%Z →
  bulk_full (length pairs) →
  ∃ t, bulk_load key_size val_size pairs = Some t ∧ represents key_size val_size t pairs.
Proof using Type*.
  intros Hl Hi Hsort Hlim Hfull. destruct (decide (pairs = [])) as [->|Hne].
  { exists tree_new. split; [done|apply tree_new_represents]. }
  assert (0 < length pairs) as Hpos by (destruct pairs; [done|cbn [length]; lia]).
  destruct (leaf_count_ok (length pairs) Hl Hpos) as [Hc Hcl]. unfold bulk_full in Hfull.
  assert (bulk_load key_size val_size pairs =
    do a <- arena_with_capacity (Z.of_nat (leaf_count (length pairs) + leaf_count (length pairs) / 2 + 4) mod u32_limit);
    do ' (leaf_indices, a) <- load_leaves key_size val_size (leaf_count (length pairs)) a pairs;
    do first_leaf <- head leaf_indices;
    do last_leaf <- last leaf_indices;
    let a := wire_leaves None leaf_indices a in
    do min_keys <- leaf_min_keys a leaf_indices;
    do ' (root, height, a) <- build_levels key_size (length leaf_indices) a leaf_indices min_keys 0;
    Some {| arena := a; root := Some root; first_leaf := Some first_leaf; last_leaf := Some last_leaf;
            len := length pairs; height := height; dropped_seps := [] |}) as -> by (by destruct pairs).
  set (c := leaf_count (length pairs)) in *.
  destruct (arena_with_capacity_ok _ (estimated_fits c ltac:(lia))) as (a0 & -> & Hs0 & Hlen0).
  assert (room (c + c) a0) as Hroom by (unfold room; rewrite Hlen0; lia).
  destruct (load_leaves_ok c a0 [] [] [] None pairs) as (gs & a1 & mks & -> & Hf1 & He & Hlv & Hlen & Hseps & Hfirst & Hro);
    [done|unfold room in *; lia|done|done|done|right; split; [lia|done]|done|by apply Forall_true|].
  assert (seps (shape 0) None (drop 1 mks) gs None) as Hsp by (apply Hseps; lia).
  destruct (leaves_only gs (seps_leaves _ _ _ _ Hsp)) as (Hids & _ & Htids).
  assert (forest (wire_leaves None (List.map tid gs) a1) gs [] [] [] (List.map tid gs)) as Hf2.
  { destruct (as_arena _ _ _ _ _ Hf1) as (Hn & _). apply NoDup_app in Hn as [Hn _].
    apply wire_leaves_ok; [|rewrite app_nil_r, Hids; done|done]. by rewrite app_nil_r, Hids in Hn. }
  destruct gs as [|g0 gs0] eqn:Egs; [cbn [length] in Hlen; lia|]. rewrite <- Egs in *.
  assert (head (List.map tid gs) = Some (tid g0)) as Hhead by by rewrite Egs.
  destruct (last (List.map tid gs)) as [il|] eqn:Elast; [|by apply last_None in Elast; rewrite Egs in Elast].
  rewrite Hhead. cbv zeta.
  rewrite (leaf_min_keys_ok _ gs mks _ _ _ _ Hf2 (seps_leaves _ _ _ _ Hsp) Hfirst), length_map, Hlen.
  destruct (build_levels_ok c (wire_leaves None (List.map tid gs) a1) gs mks 0 None [] [] [] (List.map tid gs))
    as (g & n' & a' & Hb & Hg & Hsh & Htl); [done|by rewrite Hlen|by apply Forall2_length in Hfirst|by rewrite Egs
     |by rewrite Hlen|rewrite Hlen; unfold room; rewrite wire_leaves_eq; by apply Hro|done..|].
  rewrite Hb. eexists. split; [reflexivity|]. right. exists g.
  assert (leaves g = List.map tid gs) as Hlg by (by rewrite <- tleaves_ids, Htl, Htids).
  assert (entries g = pairs) as Heg by (by rewrite entries_tleaves, Htl, <- flat_entries_tleaves).
  split; [|done]. split; [|done]. split; cbn; [|done|by rewrite Hlg|by rewrite Hlg|by rewrite Heg].
  unfold forest in Hg. cbn [List.flat_map] in Hg. rewrite !app_nil_r in Hg. by rewrite Hlg.
Qed.
End bulk.

(** ** The properties *)

Section properties.
Context {K V : Type} `{OrdLaws K} (key_size val_size : nat).
Implicit Types (pairs : list (K * V)).

(** C34: bulk loading.  From a strictly sorted vector [bulk_load] builds, without
    running out of node indices, a B+ tree of exactly its entries; every node of
    it has a key, as the removal code needs, when no level has a last group of
    one child. *)
Theorem btree_bulk_load_correct pairs :
  1 <= LEAF_CAP key_size val_size → 2 <= INTERNAL_CAP key_size →
  sorted_map pairs → (2 * Z.of_nat (length pairs) + 8 <= 2 ^ 31)%Z →
  ∃ t, bulk_load key_size val_size pairs = Some t ∧
    represents (MK := any_nodes) key_size val_size t pairs ∧
    (bulk_full (MK := full_nodes) key_size val_size (length pairs) →
     represents (MK := full_nodes) key_size val_size t pairs).
Proof using Type*.
  intros Hl Hi Hs Hlim.
  destruct (bulk_load_ok (MK := any_nodes) key_size val_size pairs Hl Hi Hs Hlim) as (t & Ht & Hr).
  { unfold bulk_full. set (f := leaf_count key_size val_size (length pairs)). generalize f at 2.
    induction f as [|f IH]; intros c; [done|]. intros _. split; [by left|apply IH]. }
  exists t. split; [done|]. split; [done|]. intros Hfull.
  destruct (bulk_load_ok (MK := full_nodes) key_size val_size pairs Hl Hi Hs Hlim Hfull) as (t' & Ht' & Hr').
  by simplify_eq.
Qed.
End properties.

(** A load of [n] pairs, then a lookup and a removal of the greatest key. *)
Definition load_then_remove (n : nat) : option (option nat * option (option nat)) :=
  do t <- bulk_load 8 8 (sample n);
  do found <- get t n;
  Some (found, snd <$> remove 8 8 t n).

(** An internal node without keys.  For 8-byte keys and values (leaves of 15
    entries, nodes of 20 keys) the bulk load of 316 sorted pairs makes 22 leaves,
    the last of them the only child of its parent; the lookup of the greatest key
    succeeds, but its removal indexes the children of that parent at -1: it has no
    defined result.  With 315 pairs the removal returns the value. *)
Theorem bulk_load_remove_undefined :
  load_then_remove 316 = Some (Some 3160, None) ∧
  load_then_remove 315 = Some (Some 3150, Some (Some 3150)).
Proof. split; vm_compute; reflexivity. Qed.

Lemma btree_bulk_load_correct_witness :
  ∃ t, bulk_load 8 8 (sample 315) = Some t ∧ represents (MK := full_nodes) 8 8 t (sample 315).
Proof.
  destruct (btree_bulk_load_correct 8 8 (sample 315)) as (t & Ht & _ & Hr).
  - vm_compute. lia.
  - vm_compute. lia.
  - apply sample_sorted.
  - vm_compute. discriminate.
  - exists t. split; [exact Ht|]. apply Hr. unfold bulk_full. vm_compute. intros _. split; [right; discriminate|intros Hlt; lia].
Defined.
