(* ===== verification/BTreeIter.v ===== *)
(** * The B+ tree map: iterators

    The iterators of [flat_btree/map.rs] over the chain of the leaves: shared,
    mutable, draining, owning and ranged.  A mutable iterator yields the place of
    each value.  [None] of the outer option is an access outside a live node. *)

From Stdlib Require Import Lia.
From stdpp Require Import list_tactics sorting.
From S2P Require Import Prelude BTree BTreeInv BTreeShape BTreeRep SortedAssoc BTreeSearch BTreeLeaf BTreeInsert.

Section iter.
Context {K V : Type}.
Implicit Types (a : Arena K V) (t : RawBTree K V).

(** The chain visits every node at most once. *)
Definition walk_fuel t : nat := S (arena_len (arena t)).

(** ** The ends of the chain *)

Fixpoint next_nonempty (fuel : nat) a (idx : option nat) : option (option nat) :=
  match idx, fuel with
  | None, _ => Some None
  | _, 0 => None
  | Some i, S fuel' =>
      do n <- node_len a i;
      if 0 <? n then Some (Some i)
      else do ' (_, next) <- links a !! i; next_nonempty fuel' a next
  end.

Fixpoint prev_nonempty (fuel : nat) a (idx : option nat) : option (option nat) :=
  match idx, fuel with
  | None, _ => Some None
  | _, 0 => None
  | Some i, S fuel' =>
      do n <- node_len a i;
      if 0 <? n then Some (Some i)
      else do ' (prev, _) <- links a !! i; prev_nonempty fuel' a prev
  end.

(*@ flat_btree/raw.rs : pub(crate) fn first_nonempty_leaf *)
Definition first_nonempty_leaf t : option (option nat) := next_nonempty (walk_fuel t) (arena t) (first_leaf t).

(*@ flat_btree/raw.rs : pub(crate) fn last_nonempty_leaf *)
Definition last_nonempty_leaf t : option (option nat) := prev_nonempty (walk_fuel t) (arena t) (last_leaf t).

(** ** The shared iterator *)

(*@ flat_btree/map.rs : pub struct Iter *)
Record Iter := {
  front_leaf : option nat;
  front_idx : nat;
  back_leaf : option nat;
  back_idx : nat;
  iter_remaining : nat;
}.

(*@ flat_btree/map.rs : pub fn iter(&self) *)
Definition iter t : option Iter :=
  do back_idx <- match last_leaf t with Some i => node_len (arena t) i | None => Some 0 end;
  Some {| front_leaf := first_leaf t; front_idx := 0; back_leaf := last_leaf t; back_idx := back_idx;
          iter_remaining := len t |}.

(** [next] and its cold path [advance_front], which calls it again. *)
(*@ flat_btree/map.rs : 1202-1241 : Iter::next *)
Fixpoint iter_next (fuel : nat) a (it : Iter) : option (option (K * V) * Iter) :=
  if iter_remaining it =? 0 then Some (None, it)
  else
    match fuel with
    | 0 => None
    | S fuel' =>
        do i <- front_leaf it;
        do kvs <- leaf_kvs a i;
        match kvs !! front_idx it with
        | Some kv =>
            Some (Some kv, {| front_leaf := front_leaf it; front_idx := front_idx it + 1; back_leaf := back_leaf it;
                              back_idx := back_idx it; iter_remaining := iter_remaining it - 1 |})
        | None =>
            do ' (_, next) <- links a !! i;
            iter_next fuel' a {| front_leaf := next; front_idx := 0; back_leaf := back_leaf it;
                                 back_idx := back_idx it; iter_remaining := iter_remaining it |}
        end
    end.

(*@ flat_btree/map.rs : 1243-1279 : Iter::next_back *)
Fixpoint iter_next_back (fuel : nat) a (it : Iter) : option (option (K * V) * Iter) :=
  if iter_remaining it =? 0 then Some (None, it)
  else
    match fuel with
    | 0 => None
    | S fuel' =>
        let start := if bool_decide (back_leaf it = front_leaf it) then front_idx it else 0 in
        do i <- back_leaf it;
        if start <? back_idx it then
          do kvs <- leaf_kvs a i;
          do kv <- kvs !! (back_idx it - 1);
          Some (Some kv, {| front_leaf := front_leaf it; front_idx := front_idx it; back_leaf := back_leaf it;
                            back_idx := back_idx it - 1; iter_remaining := iter_remaining it - 1 |})
        else
          do ' (prev, _) <- links a !! i;
          match prev with
          | Some p =>
              do n <- node_len a p;
              iter_next_back fuel' a {| front_leaf := front_leaf it; front_idx := front_idx it; back_leaf := Some p;
                                        back_idx := n; iter_remaining := iter_remaining it |}
          | None =>
              Some (None, {| front_leaf := front_leaf it; front_idx := front_idx it; back_leaf := None;
                             back_idx := back_idx it; iter_remaining := 0 |})
          end
    end.

(** Any mixture of steps from the two ends. *)
Inductive End := Front | Back.

Fixpoint iter_run t (ends : list End) (it : Iter) : option (list (option (K * V)) * Iter) :=
  match ends with
  | [] => Some ([], it)
  | e :: ends' =>
      do ' (x, it) <- match e with Front => iter_next (walk_fuel t) (arena t) it
                                 | Back => iter_next_back (walk_fuel t) (arena t) it end;
      do ' (xs, it) <- iter_run t ends' it;
      Some (x :: xs, it)
  end.

(** Collecting an iterator; [fuel]: more than the number of items. *)
Fixpoint collect_iter (fuel : nat) t (it : Iter) : option (list (K * V)) :=
  match fuel with
  | 0 => None
  | S fuel' =>
      do ' (x, it) <- iter_next (walk_fuel t) (arena t) it;
      match x with
      | Some kv => do kvs <- collect_iter fuel' t it; Some (kv :: kvs)
      | None => Some []
      end
  end.

Definition items t : option (list (K * V)) := do it <- iter t; collect_iter (S (len t)) t it.

(*@ flat_btree/map.rs : pub fn keys(&self) *)
Definition keys t : option (list K) := do kvs <- items t; Some kvs.*1.

(*@ flat_btree/map.rs : pub fn values(&self) *)
Definition values t : option (list V) := do kvs <- items t; Some kvs.*2.

(** ** The mutable iterator *)

(*@ flat_btree/map.rs : pub struct IterMut *)
Record IterMut := { im_leaf : option nat; im_idx : nat; im_remaining : nat }.

(*@ flat_btree/map.rs : pub fn iter_mut(&mut self) *)
Definition iter_mut t : IterMut := {| im_leaf := first_leaf t; im_idx := 0; im_remaining := len t |}.

(*@ flat_btree/map.rs : 1322-1351 : IterMut::next *)
Fixpoint iter_mut_next (fuel : nat) a (it : IterMut) : option (option (nat * nat * K) * IterMut) :=
  match im_leaf it, fuel with
  | None, _ => Some (None, it)
  | _, 0 => None
  | Some i, S fuel' =>
      do kvs <- leaf_kvs a i;
      match kvs !! im_idx it with
      | Some (k, _) =>
          if im_remaining it =? 0 then None
          else Some (Some (i, im_idx it, k),
                     {| im_leaf := im_leaf it; im_idx := im_idx it + 1; im_remaining := im_remaining it - 1 |})
      | None =>
          do ' (_, next) <- links a !! i;
          iter_mut_next fuel' a {| im_leaf := next; im_idx := 0; im_remaining := im_remaining it |}
      end
  end.

(** A client that replaces each value it is handed. *)
Definition write_at t (i s : nat) (f : V → V) : option (RawBTree K V) :=
  do kvs <- leaf_kvs (arena t) i;
  do ' (k, v) <- kvs !! s;
  Some (with_arena t (set_body (arena t) i (LeafBody (<[s := (k, f v)]> kvs)))).

Fixpoint for_each_mut (fuel : nat) (f : K → V → V) t (it : IterMut) : option (RawBTree K V) :=
  match fuel with
  | 0 => None
  | S fuel' =>
      do ' (x, it) <- iter_mut_next (walk_fuel t) (arena t) it;
      match x with
      | Some (i, s, k) => do t <- write_at t i s (f k); for_each_mut fuel' f t it
      | None => Some t
      end
  end.

(*@ flat_btree/map.rs : pub fn values_mut(&mut self) *)
Definition values_mut (f : V → V) t : option (RawBTree K V) := for_each_mut (S (len t)) (λ _, f) t (iter_mut t).
End iter.
Arguments Iter : clear implicits.
Arguments IterMut : clear implicits.

(** ** The B+ tree map: what the iterators yield *)

(** The chain of the leaves as a list, and the iterators as walks along it: a
    shared iterator yields from both ends what a list of the entries yields, and a
    mutable one hands out each value once. *)

(** ** The chain *)

Section chain.
Context {K V : Type}.
Implicit Types (a : Arena K V) (t : RawBTree K V) (L : list (nat * list (K * V))).

(** The entries of leaves. *)
Definition contents L : list (K * V) := List.flat_map snd L.

(** Every leaf of [L] is a leaf of the arena, linked to its neighbours in [L]. *)
Definition leaf_chain a L : Prop :=
  Forall (λ e, leaf_kvs a e.1 = Some e.2) L ∧
  ∀ I1 i I2, L.*1 = I1 ++ i :: I2 → links a !! i = Some (last I1, head I2).

Record chained t L : Prop := {
  ch_chain : leaf_chain (arena t) L;
  ch_nodup : NoDup L.*1;
  ch_first : first_leaf t = head L.*1;
  ch_last : last_leaf t = last L.*1;
  ch_len : len t = length (contents L);
  ch_fuel : length L <= arena_len (arena t);
}.

Lemma contents_app L1 L2 : contents (L1 ++ L2) = contents L1 ++ contents L2.
Proof. apply List.flat_map_app. Qed.

Lemma contents_cons i kvs L : contents ((i, kvs) :: L) = kvs ++ contents L.
Proof. done. Qed.

Lemma chain_here a L1 i kvs L2 :
  leaf_chain a (L1 ++ (i, kvs) :: L2) → leaf_kvs a i = Some kvs ∧ links a !! i = Some (last L1.*1, head L2.*1).
Proof.
  intros [Hk Hl]. apply Forall_app in Hk as [_ Hk]. apply Forall_cons in Hk as [Hk _]. split; [done|].
  apply Hl. by rewrite fmap_app.
Qed.

Lemma leaf_kvs_set a i j kvs : leaf_kvs (set_body a i (LeafBody kvs)) j = if decide (i = j) then Some kvs else leaf_kvs a j.
Proof.
  unfold leaf_kvs, set_body, arena_with. cbn [bodies]. case_decide as E.
  - by rewrite E, lookup_insert_eq.
  - by rewrite lookup_insert_ne.
Qed.

(** Replacing the entries of one leaf. *)
Lemma leaf_chain_set a L1 i kvs kvs' L2 :
  NoDup (L1 ++ (i, kvs) :: L2).*1 → leaf_chain a (L1 ++ (i, kvs) :: L2) →
  leaf_chain (set_body a i (LeafBody kvs')) (L1 ++ (i, kvs') :: L2).
Proof.
  rewrite fmap_app. intros Hn [Hk Hl]. split.
  - assert (∀ L, i ∉ L.*1 → Forall (λ e, leaf_kvs a e.1 = Some e.2) L →
      Forall (λ e, leaf_kvs (set_body a i (LeafBody kvs')) e.1 = Some e.2) L) as Hother.
    { intros L Hi HL. rewrite Forall_forall in HL |- *. intros [j jk] Hj. rewrite leaf_kvs_set, decide_False; [by apply HL|].
      intros ->. apply Hi. apply list_elem_of_fmap. by exists (j, jk). }
    apply NoDup_app in Hn as (_ & Hd & Hn). cbn in Hn. apply NoDup_cons in Hn as [Hi2 _].
    apply Forall_app in Hk as [Hk1 Hk2]. apply Forall_cons in Hk2 as [_ Hk2].
    apply Forall_app. split; [|apply Forall_cons; split].
    + apply Hother; [|done]. intros Hi. apply (Hd i Hi). by left.
    + cbn. by rewrite leaf_kvs_set, decide_True.
    + by apply Hother.
  - intros I1 j I2 HI. cbn. apply Hl. rewrite fmap_app in HI |- *. exact HI.
Qed.

Lemma node_len_leaf a i kvs : leaf_kvs a i = Some kvs → node_len a i = Some (length kvs).
Proof. unfold leaf_kvs, node_len. destruct (bodies a !! i) as [[]|]; naive_solver. Qed.

(** A position splits the entries. *)
Lemma contents_at L1 i kvs L2 s :
  contents (L1 ++ (i, kvs) :: L2) = (contents L1 ++ take s kvs) ++ drop s kvs ++ contents L2.
Proof.
  rewrite contents_app. cbn [contents List.flat_map snd]. rewrite <- (take_drop s kvs) at 1. by rewrite <- !app_assoc.
Qed.
End chain.

(** Well-formed trees are chained. *)
Section chained.
Context {K V : Type} `{OrdLaws K} {MK : MinKeys} (key_size val_size : nat).
Implicit Types (t : RawBTree K V) (l : list (K * V)).

Lemma repr_chained t g : repr key_size val_size t g → chained t (tleaves g).
Proof using Type*.
  intros Hr. pose proof Hr as [Ht Hs]. split.
  - split.
    + apply Forall_forall. intros [i kvs] (L1 & L2 & HL)%list_elem_of_split.
      destruct (repr_leaf _ _ t g L1 i kvs L2 Hr HL) as (fs & lo & hi & Hat & _).
      apply (leaf_at_kvs _ _ _ _ _ _ _ _ _ Ht Hat).
    + intros I1 i I2 HI. rewrite tleaves_ids in HI. pose proof (as_links _ _ _ _ _ (h_state _ _ Ht)) as Hlk.
      rewrite HI in Hlk. apply (chain_at _ _ _ _ _ Hlk).
  - rewrite tleaves_ids. pose proof (as_links _ _ _ _ _ (h_state _ _ Ht)) as (Hn & _ & _). by rewrite chain_ids in Hn.
  - by rewrite tleaves_ids, (h_first _ _ Ht).
  - by rewrite tleaves_ids, (h_last _ _ Ht).
  - by rewrite (h_len _ _ Ht), entries_tleaves.
  - rewrite <- (length_fmap fst), tleaves_ids. pose proof (h_state _ _ Ht) as [_ _ (Hn & Hsub & _) (_ & Hlt & _)].
    rewrite chain_ids in Hn, Hsub.
    rewrite <- (length_seq (arena_len (arena t)) 0). apply submseteq_length, NoDup_submseteq; [done|].
    intros i Hi. apply elem_of_seq. rewrite Forall_app, !Forall_forall in Hlt. destruct Hlt as [Hlt _].
    pose proof (Hlt i (Hsub i Hi)). lia.
Qed.

Lemma represents_chained t l : represents key_size val_size t l → ∃ L, chained t L ∧ contents L = l.
Proof using Type*.
  intros [[(_ & Hf & Hl & Hn & _) ->]|(g & Hr & ->)].
  - exists []. split; [|done]. split; try done; [|constructor|cbn; lia]. split; [constructor|]. by intros [] ? ?.
  - exists (tleaves g). split; [by apply repr_chained|]. by rewrite entries_tleaves.
Qed.
End chained.

(** ** The ends of the chain *)

Section ends.
Context {K V : Type}.
Implicit Types (a : Arena K V) (t : RawBTree K V) (L : list (nat * list (K * V))).

Lemma next_nonempty_ok a L1 L2 fuel :
  leaf_chain a (L1 ++ L2) → length L2 <= fuel →
  ∃ r, next_nonempty fuel a (head L2.*1) = Some r ∧
    match r with
    | None => contents L2 = []
    | Some i => ∃ M1 kvs M2, L2 = M1 ++ (i, kvs) :: M2 ∧ contents M1 = [] ∧ kvs ≠ []
    end.
Proof.
  revert L1 fuel. induction L2 as [|[i kvs] L2 IH]; intros L1 fuel Hc Hf; [exists None; by destruct fuel|].
  destruct fuel as [|fuel]; [cbn in Hf; lia|]. cbn [next_nonempty fmap list_fmap head].
  destruct (chain_here _ _ _ _ _ Hc) as [Hk Hl]. cbn [fst]. rewrite (node_len_leaf _ _ _ Hk), Hl.
  destruct kvs as [|e kvs]; cbn [length Nat.ltb Nat.leb].
  - rewrite (app_assoc L1 [(i, [])] L2) in Hc || rewrite cons_middle, app_assoc in Hc.
    destruct (IH (L1 ++ [(i, [])]) fuel) as (r & -> & Hr); [done|cbn in Hf; lia|]. exists r. split; [done|].
    destruct r as [j|]; [|done]. destruct Hr as (M1 & kvs & M2 & -> & HM & Hne). by exists ((i, []) :: M1), kvs, M2.
  - exists (Some i). split; [done|]. by exists [], (e :: kvs), L2.
Qed.

Lemma prev_nonempty_ok a L1 L2 fuel :
  leaf_chain a (L1 ++ L2) → length L1 <= fuel →
  ∃ r, prev_nonempty fuel a (last L1.*1) = Some r ∧
    match r with
    | None => contents L1 = []
    | Some i => ∃ M1 kvs M2, L1 = M1 ++ (i, kvs) :: M2 ∧ contents M2 = [] ∧ kvs ≠ []
    end.
Proof.
  revert L2 fuel. induction L1 as [|[i kvs] L1 IH] using rev_ind; intros L2 fuel Hc Hf; [exists None; by destruct fuel|].
  destruct fuel as [|fuel]; [rewrite length_app in Hf; cbn in Hf; lia|]. rewrite fmap_app. cbn [fmap list_fmap fst]. rewrite last_snoc. cbn [prev_nonempty].
  rewrite <- app_assoc in Hc. cbn [app] in Hc.
  destruct (chain_here _ _ _ _ _ Hc) as [Hk Hl]. rewrite (node_len_leaf _ _ _ Hk), Hl.
  destruct kvs as [|e kvs]; cbn [length Nat.ltb Nat.leb].
  - destruct (IH ((i, []) :: L2) fuel) as (r & -> & Hr); [done|rewrite length_app in Hf; cbn in Hf; lia|].
    exists r. split; [done|]. destruct r as [j|].
    + destruct Hr as (M1 & kvs & M2 & -> & HM & Hne). exists M1, kvs, (M2 ++ [(i, [])]).
      split_and!; [by rewrite <- app_assoc|by rewrite contents_app, HM|done].
    + by rewrite contents_app, Hr.
  - exists (Some i). split; [done|]. by exists L1, (e :: kvs), [].
Qed.

(** ** The shared iterator *)

(** A place in the chain, with the leaves that follow or precede its leaf and the
    entries before or from it on. *)
Definition front_at L (i : option nat) (s n : nat) (pre : list (K * V)) : Prop :=
  ∃ F1 fi fk F2, L = F1 ++ (fi, fk) :: F2 ∧ i = Some fi ∧ s <= length fk ∧ length F2 <= n ∧
    pre = contents F1 ++ take s fk.

Definition back_at L (i : option nat) (s n : nat) (post : list (K * V)) : Prop :=
  ∃ B1 bi bk B2, L = B1 ++ (bi, bk) :: B2 ∧ i = Some bi ∧ s <= length bk ∧ length B1 = n ∧
    post = drop s bk ++ contents B2.

(** [rest] is what lies between the two ends of the iterator. *)
Definition iter_at L (it : Iter) (rest : list (K * V)) : Prop :=
  iter_remaining it = length rest ∧
  (rest = [] ∨
   ∃ n m pre post, front_at L (front_leaf it) (front_idx it) n pre ∧ back_at L (back_leaf it) (back_idx it) m post ∧
     contents L = pre ++ rest ++ post).

Lemma iter_at_nil L it : iter_remaining it = 0 → iter_at L it [].
Proof. split; [done|by left]. Qed.

(** A walk: [rest] is what lies ahead, at most [n] more nodes are visited. *)
Definition walk_at L (i : option nat) (s n : nat) (pre rest : list (K * V)) : Prop :=
  contents L = pre ++ rest ∧ (i = None ∧ rest = [] ∨ ∃ m, n = S m ∧ front_at L i s m pre).

Lemma walk_start t L : chained t L → walk_at L (first_leaf t) 0 (walk_fuel t) [] (contents L).
Proof.
  intros Ht. split; [done|]. rewrite (ch_first _ _ Ht). destruct L as [|[i kvs] L]; [by left|]. right.
  exists (arena_len (arena t)). split; [done|]. exists [], i, kvs, L.
  pose proof (ch_fuel _ _ Ht). cbn in *. split_and!; try done; lia.
Qed.

(** A step of a walk: at an entry, or at the end of a leaf. *)
Lemma walk_step a L fi s n pre rest :
  leaf_chain a L → walk_at L (Some fi) s n pre rest →
  ∃ fk m, n = S m ∧ leaf_kvs a fi = Some fk ∧
    (∃ F1 F2, L = F1 ++ (fi, fk) :: F2 ∧ pre = contents F1 ++ take s fk) ∧
    match fk !! s with
    | Some kv => ∃ rest', rest = kv :: rest' ∧ walk_at L (Some fi) (s + 1) n (pre ++ [kv]) rest'
    | None => ∃ prev next, links a !! fi = Some (prev, next) ∧ walk_at L next 0 m pre rest
    end.
Proof.
  intros Hc [Hcont [[? _]|(m & -> & F1 & i & fk & F2 & HL & [= <-] & Hs & Hm & ->)]]; [done|]. exists fk, m.
  pose proof Hc as Hc'. rewrite HL in Hc'. destruct (chain_here _ _ _ _ _ Hc') as [Hk Hl].
  split_and!; [done..|by exists F1, F2|].
  pose proof Hcont as Hrest. rewrite HL, (contents_at F1 fi fk F2 s) in Hrest. apply app_inv_head in Hrest.
  destruct (fk !! s) as [kv|] eqn:Ekv.
  - rewrite (drop_S _ _ _ Ekv) in Hrest. exists (drop (S s) fk ++ contents F2). split; [done|].
    rewrite <- Hrest in Hcont. split; [by rewrite Hcont, <- (app_assoc _ [kv])|]. right. exists m. split; [done|].
    exists F1, fi, fk, F2. pose proof (lookup_lt_Some _ _ _ Ekv). split_and!; try done; [lia|].
    by rewrite Nat.add_1_r, (take_S_r _ _ _ Ekv), app_assoc.
  - apply lookup_ge_None in Ekv. rewrite drop_ge in Hrest by lia. eexists _, _. split; [exact Hl|]. split; [done|].
    destruct F2 as [|[i2 k2] F2]; [by left|]. right. cbn in Hm.
    destruct m as [|m]; [lia|]. exists m. split; [done|]. exists (F1 ++ [(fi, fk)]), i2, k2, F2. cbn.
    split_and!; try done; [by rewrite <- app_assoc|lia|lia|]. rewrite contents_app. cbn. by rewrite (take_ge fk), !app_nil_r by lia.
Qed.

Lemma iter_next_ok a L it rest fuel :
  leaf_chain a L → iter_at L it rest → length L <= fuel →
  ∃ it', iter_next fuel a it = Some (head rest, it') ∧ iter_at L it' (tail rest).
Proof.
  intros Hc [Hrem Hpos] Hlen. destruct rest as [|x rest].
  { exists it. split; [destruct fuel; cbn [iter_next]; by rewrite Hrem|by apply iter_at_nil]. }
  destruct Hpos as [|(m & m' & pre & post & Hf & Hb & Hcont)]; [done|].
  assert (∃ n, walk_at L (front_leaf it) (front_idx it) n pre ((x :: rest) ++ post) ∧ n <= fuel) as (n & Hw & Hm).
  { destruct Hf as (F1 & fi & fk & F2 & HL & Hi & Hs & _ & Hpre). exists (S (length F2)).
    split; [split; [done|right; exists (length F2)]; split; [done|by exists F1, fi, fk, F2]|].
    rewrite HL, length_app in Hlen. cbn in Hlen. lia. }
  clear Hlen Hf m. revert it n Hrem Hw Hb Hm.
  induction fuel as [|fuel IH]; intros it n Hrem Hw Hb Hm.
  { destruct Hw as [_ [[_ ?]|(m & -> & _)]]; [done|lia]. }
  cbn [iter_next]. destruct (Nat.eqb_spec (iter_remaining it) 0) as [|_]; [cbn in Hrem; lia|]. cbn [head tail].
  destruct (front_leaf it) as [fi|] eqn:Ei; [|by destruct Hw as [_ [[_ ?]|(? & _ & ? & ? & ? & ? & _ & ? & _)]]].
  destruct (walk_step _ _ _ _ _ _ _ Hc Hw) as (fk & n' & -> & Hk & _ & Hstep). rewrite Hk.
  destruct (fk !! front_idx it) as [kv|].
  - destruct Hstep as (rest' & Heq & [_ [[? _]|(m & _ & Hf')]]); [done|]. cbn in Heq. injection Heq as -> Heq.
    eexists. split; [reflexivity|]. split; [cbn in *; lia|]. right.
    exists m, m', (pre ++ [kv]), post. cbn. split_and!; [done..|]. by rewrite <- app_assoc.
  - destruct Hstep as (prev & next & -> & Hw').
    destruct (IH {| front_leaf := next; front_idx := 0; back_leaf := back_leaf it; back_idx := back_idx it;
      iter_remaining := iter_remaining it |} n') as (it' & Hit' & Hr'); [done..|lia|]. by exists it'.
Qed.

Lemma back_step a L i s n post x rest :
  leaf_chain a L → back_at L i s n post → contents L = (rest ++ [x]) ++ post →
  ∃ bi bk, i = Some bi ∧ leaf_kvs a bi = Some bk ∧
    (0 < s → bk !! (s - 1) = Some x ∧ back_at L i (s - 1) n (x :: post)) ∧
    (s = 0 → ∃ p next n' pk, links a !! bi = Some (Some p, next) ∧ n = S n' ∧ leaf_kvs a p = Some pk ∧
       back_at L (Some p) (length pk) n' post).
Proof.
  intros Hc (B1 & bi & bk & B2 & HL & -> & Hs & <- & ->) Hcont. exists bi, bk.
  pose proof Hc as Hc'. rewrite HL in Hc'. destruct (chain_here _ _ _ _ _ Hc') as [Hk Hl].
  rewrite HL, (contents_at B1 bi bk B2 s) in Hcont. apply app_inv_tail in Hcont. split_and!; [done..| |].
  - intros Hpos. destruct (lookup_lt_is_Some_2 bk (s - 1)) as [kv Hkv]; [lia|].
    assert (take s bk = take (s - 1) bk ++ [kv]) as Ht by (rewrite <- (take_S_r _ _ _ Hkv); f_equal; lia).
    rewrite Ht, app_assoc in Hcont. apply app_inj_tail in Hcont as [_ ->]. split; [done|].
    exists B1, bi, bk, B2. split_and!; try done; [lia|]. rewrite (drop_S _ _ _ Hkv). cbn. do 3 f_equal. lia.
  - intros ->. rewrite app_nil_r in Hcont. destruct B1 as [|[p pk] B1 _] using rev_ind; [by destruct rest|].
    rewrite fmap_app in Hl. cbn [fmap list_fmap fst] in Hl. rewrite last_snoc in Hl.
    rewrite <- app_assoc in Hc', HL. destruct (chain_here _ _ _ _ _ Hc') as [Hpk _].
    eexists p, _, (length B1), pk. split_and!; [exact Hl|rewrite length_app; cbn; lia|done|].
    exists B1, p, pk, ((bi, bk) :: B2). split_and!; try done. by rewrite drop_all.
Qed.

Lemma nodup_split (L A1 A2 B1 B2 : list (nat * list (K * V))) i x y :
  NoDup L.*1 → L = A1 ++ (i, x) :: A2 → L = B1 ++ (i, y) :: B2 → A1 = B1 ∧ x = y ∧ A2 = B2.
Proof.
  intros Hn HA HB. assert (length A1 = length B1) as Hlen.
  { apply (NoDup_lookup L.*1 _ _ i Hn); rewrite list_lookup_fmap; [rewrite HA|rewrite HB]; by rewrite list_lookup_middle. }
  rewrite HA in HB. apply app_inj_1 in HB as [-> HB]; [|done]. by injection HB as -> ->.
Qed.

(** When the two ends are in one leaf, the front index is the lower one. *)
Lemma ends_in_order L i s s' n m pre post rest x :
  NoDup L.*1 → front_at L i s n pre → back_at L i s' m post → contents L = pre ++ (rest ++ [x]) ++ post → s < s'.
Proof.
  intros Hn (F1 & fi & fk & F2 & HL & -> & Hs & _ & ->) (B1 & bi & bk & B2 & HB & [= <-] & Hs' & _ & ->) Hcont.
  destruct (nodup_split _ _ _ _ _ _ _ _ Hn HL HB) as (<- & <- & <-).
  rewrite HL, (contents_at F1 fi fk F2 s') in Hcont. rewrite (app_assoc _ (rest ++ [x])) in Hcont.
  apply app_inv_tail in Hcont. apply (f_equal length) in Hcont. rewrite !length_app, !length_take in Hcont. cbn in Hcont. lia.
Qed.

Lemma iter_next_back_ok a L it rest x fuel :
  NoDup L.*1 → leaf_chain a L → iter_at L it (rest ++ [x]) → length L <= fuel →
  ∃ it', iter_next_back fuel a it = Some (Some x, it') ∧ iter_at L it' rest.
Proof.
  intros Hn Hc [Hrem Hpos] Hlen. destruct Hpos as [E|(m & m' & pre & post & Hf & Hb & Hcont)]; [by destruct rest|].
  rewrite length_app in Hrem. cbn [length] in Hrem.
  assert (m' < fuel) as Hm.
  { destruct Hb as (B1 & bi & bk & B2 & -> & _ & _ & <- & _). rewrite length_app in Hlen. cbn in Hlen. lia. }
  clear Hlen. revert it m' Hrem Hf Hb Hm. induction fuel as [|fuel IH]; intros it m' Hrem Hf Hb Hm; [lia|].
  cbn [iter_next_back]. destruct (Nat.eqb_spec (iter_remaining it) 0) as [|_]; [lia|].
  rewrite app_assoc, app_assoc in Hcont. destruct (back_step _ _ _ _ _ _ _ _ Hc Hb Hcont) as (bi & bk & Ei & Hk & Htake & Hmove).
  rewrite <- !app_assoc in Hcont.
  set (start := if bool_decide (back_leaf it = front_leaf it) then front_idx it else 0).
  assert (back_idx it <= start → back_idx it = 0) as Hstart.
  { subst start. case_bool_decide as E; [|lia]. rewrite <- E in Hf.
    pose proof (ends_in_order L _ _ _ _ _ _ _ rest x Hn Hf Hb ltac:(by rewrite <- app_assoc)). lia. }
  rewrite Ei. destruct (Nat.ltb_spec start (back_idx it)) as [Hlt|Hge].
  - destruct (Htake ltac:(lia)) as [Hx Hb']. rewrite Hk, Hx. eexists. split; [reflexivity|].
    split; [cbn; lia|]. right. exists m, m', pre, (x :: post). cbn. rewrite Ei in Hb'. done.
  - destruct (Hmove (Hstart Hge)) as (p & next & n' & pk & -> & -> & Hpk & Hb'). rewrite (node_len_leaf _ _ _ Hpk).
    destruct (IH {| front_leaf := front_leaf it; front_idx := front_idx it; back_leaf := Some p; back_idx := length pk;
      iter_remaining := iter_remaining it |} n') as (it' & Hit' & Hr'); [done..|lia|]. by exists it'.
Qed.

(** What a double-ended sequence of steps yields from a list. *)
Fixpoint ends_of {A} (ends : list End) (rest : list A) : list (option A) :=
  match ends with
  | [] => []
  | Front :: ends' => head rest :: ends_of ends' (tail rest)
  | Back :: ends' => last rest :: ends_of ends' (removelast rest)
  end.

Lemma iter_run_ok t L ends it rest :
  chained t L → iter_at L it rest → ∃ it', iter_run t ends it = Some (ends_of ends rest, it').
Proof.
  intros Ht. revert it rest. induction ends as [|e ends IH]; intros it rest Hit; [by exists it|].
  assert (length L <= walk_fuel t) as Hfuel by (pose proof (ch_fuel _ _ Ht); unfold walk_fuel; lia).
  cbn [iter_run ends_of]. destruct e.
  - destruct (iter_next_ok _ _ _ _ _ (ch_chain _ _ Ht) Hit Hfuel) as (it' & -> & Hit').
    destruct (IH _ _ Hit') as (it'' & ->). by exists it''.
  - destruct rest as [|x rest _] using rev_ind.
    + assert (iter_next_back (walk_fuel t) (arena t) it = Some (None, it)) as ->.
      { unfold walk_fuel. cbn [iter_next_back]. by rewrite (proj1 Hit). }
      destruct (IH _ _ Hit) as (it' & ->). by exists it'.
    + destruct (iter_next_back_ok _ _ _ _ _ _ (ch_nodup _ _ Ht) (ch_chain _ _ Ht) Hit Hfuel) as (it' & -> & Hit').
      destruct (IH _ _ Hit') as (it'' & ->). exists it''. by rewrite last_snoc, List.removelast_last.
Qed.

Lemma iter_start t L : chained t L → ∃ it, iter t = Some it ∧ iter_at L it (contents L).
Proof.
  intros Ht. unfold iter. rewrite (ch_last _ _ Ht). destruct L as [|[bi bk] L1 _] eqn:EL using rev_ind.
  { eexists. split; [reflexivity|]. apply iter_at_nil. exact (ch_len _ _ Ht). }
  rewrite fmap_app. cbn [fmap list_fmap fst]. rewrite last_snoc.
  destruct (chain_here _ _ _ _ _ (ch_chain _ _ Ht)) as [Hk _]. rewrite (node_len_leaf _ _ _ Hk).
  eexists. split; [reflexivity|]. split; [apply (ch_len _ _ Ht)|]. right. cbn.
  exists (length L1), (length L1), [], []. rewrite app_nil_r. split_and!; [| |done].
  - rewrite (ch_first _ _ Ht). destruct L1 as [|[fi fk] L1].
    + exists [], bi, bk, []. split_and!; try done; lia.
    + exists [], fi, fk, (L1 ++ [(bi, bk)]). split_and!; try done; [lia|rewrite length_app; cbn; lia].
  - exists L1, bi, bk, []. split_and!; try done. by rewrite drop_all.
Qed.

Lemma collect_iter_ok t L it rest fuel :
  chained t L → iter_at L it rest → length rest < fuel → collect_iter fuel t it = Some rest.
Proof.
  intros Ht. revert it rest. induction fuel as [|fuel IH]; intros it rest Hit Hlen; [lia|]. cbn [collect_iter].
  destruct (iter_next_ok _ _ _ _ (walk_fuel t) (ch_chain _ _ Ht) Hit) as (it' & -> & Hit').
  { pose proof (ch_fuel _ _ Ht). unfold walk_fuel. lia. }
  destruct rest as [|x rest]; [done|]. cbn [head tail] in *. rewrite (IH _ _ Hit'); [done|cbn in Hlen; lia].
Qed.

Lemma items_ok t L : chained t L → items t = Some (contents L).
Proof.
  intros Ht. unfold items. destruct (iter_start _ _ Ht) as (it & -> & Hit).
  apply (collect_iter_ok _ _ _ _ _ Ht Hit). rewrite <- (ch_len _ _ Ht). lia.
Qed.
End ends.

(** ** The mutable iterator *)

Section mutable.
Context {K V : Type} `{OrdLaws K} {MK : MinKeys} (key_size val_size : nat).
Abbreviation repr := (repr key_size val_size).
Implicit Types (t : RawBTree K V) (g : tree K V) (L : list (nat * list (K * V))).

Lemma sorted_sublist (ks ks' : list K) : ks' `sublist_of` ks → sorted_keys ks → sorted_keys ks'.
Proof using Type.
  unfold sorted_keys. induction 1 as [|k ks' ks Hsub IH|k ks' ks Hsub IH]; intros Hs; [done| |].
  - inversion Hs as [|? ? Hs' Hall]; subst. constructor; [by apply IH|]. rewrite Forall_forall in Hall |- *.
    intros x Hx. apply Hall. by eapply elem_of_sublist.
  - inversion Hs; subst. by apply IH.
Qed.

(** Replacing the entries of a leaf by entries with some of its keys. *)
Lemma fewer_keys_ok t g L1 i kvs kvs' L2 n :
  repr t g → tleaves g = L1 ++ (i, kvs) :: L2 → kvs'.*1 `sublist_of` kvs.*1 → n = length (contents (L1 ++ (i, kvs') :: L2)) →
  ∃ g', repr (with_len (set_leaf t i kvs') n) g' ∧ tleaves g' = L1 ++ (i, kvs') :: L2.
Proof using Type*.
  intros Hr HL Hk ->. destruct (repr_leaf _ _ t g L1 i kvs L2 Hr HL) as (fs & lo & hi & Hat & _ & Hl & Hrt).
  pose proof (la_leaf _ _ _ _ _ _ _ _ Hat) as (Hcap & Hlt & Hs & Hrg).
  exists (plug fs (TLeaf i kvs')). split; [|rewrite tleaves_plug, Hl, Hrt; done].
  pose proof (sublist_length _ _ Hk) as Hlen. rewrite !length_fmap in Hlen.
  apply (set_leaf_repr _ _ t g fs i kvs lo hi kvs' _ Hr Hat); [lia|by apply (sorted_sublist kvs.*1)| |].
  - rewrite Forall_forall in Hrg |- *. intros x Hx. apply Hrg. by eapply elem_of_sublist.
  - by rewrite lentries_eq, rentries_eq, Hl, Hrt, contents_app.
Qed.

Lemma write_at_ok t g L1 i kvs L2 s k v f :
  repr t g → tleaves g = L1 ++ (i, kvs) :: L2 → kvs !! s = Some (k, v) →
  ∃ t' g', write_at t i s f = Some t' ∧ repr t' g' ∧ tleaves g' = L1 ++ (i, <[s := (k, f v)]> kvs) :: L2 ∧
    arena_len (arena t') = arena_len (arena t).
Proof using Type*.
  intros Hr HL Hs. pose proof (repr_chained _ _ _ _ Hr) as Ht. pose proof (ch_chain _ _ Ht) as Hc. rewrite HL in Hc.
  destruct (chain_here _ _ _ _ _ Hc) as [Hk _]. unfold write_at. rewrite Hk, Hs.
  destruct (fewer_keys_ok t g L1 i kvs (<[s := (k, f v)]> kvs) L2 (len t) Hr HL) as (g' & Hr' & HL').
  - rewrite list_fmap_insert. cbn. rewrite list_insert_id; [done|]. by rewrite list_lookup_fmap, Hs.
  - rewrite (ch_len _ _ Ht), HL, !contents_app. cbn. by rewrite !length_app, length_insert.
  - exists (with_len (set_leaf t i (<[s := (k, f v)]> kvs)) (len t)), g'. by destruct t.
Qed.

Lemma iter_mut_next_ok a L it n pre rest fuel :
  leaf_chain a L → walk_at L (im_leaf it) (im_idx it) n pre rest → im_remaining it = length rest → n <= fuel →
  ∃ it', match rest with
    | [] => iter_mut_next fuel a it = Some (None, it')
    | (k, v) :: rest' => ∃ i s F1 fk F2 n',
        iter_mut_next fuel a it = Some (Some (i, s, k), it') ∧ L = F1 ++ (i, fk) :: F2 ∧ fk !! s = Some (k, v) ∧
        pre = contents F1 ++ take s fk ∧ it' = {| im_leaf := Some i; im_idx := s + 1; im_remaining := length rest' |} ∧
        n' <= n ∧ walk_at L (Some i) (s + 1) n' (pre ++ [(k, v)]) rest'
    end.
Proof using Type.
  intros Hc Hw Hrem Hf. revert it n Hw Hrem Hf. induction fuel as [|fuel IH]; intros it n Hw Hrem Hf.
  { destruct Hw as [_ [[E ->]|(m & -> & _)]]; [|lia]. exists it. cbn [iter_mut_next]. by rewrite E. }
  cbn [iter_mut_next]. destruct (im_leaf it) as [fi|] eqn:Ei.
  2:{ destruct Hw as [_ [[_ ->]|(? & _ & ? & ? & ? & ? & _ & ? & _)]]; [by exists it|done]. }
  destruct (walk_step _ _ _ _ _ _ _ Hc Hw) as (fk & n' & -> & Hk & (F1 & F2 & HL & Hpre) & Hstep). rewrite Hk.
  destruct (fk !! im_idx it) as [[k v]|] eqn:Ekv.
  - destruct Hstep as (rest' & -> & Hw'). rewrite Hrem. cbn [length Nat.eqb]. eexists.
    exists fi, (im_idx it), F1, fk, F2, (S n'). split_and!; try done. f_equal. f_equal. f_equal. cbn. lia.
  - destruct Hstep as (prev & next & -> & Hw').
    destruct (IH {| im_leaf := next; im_idx := 0; im_remaining := im_remaining it |} n') as (it' & Hit'); [done..|lia|].
    exists it'. destruct rest as [|[k v] rest]; [done|].
    destruct Hit' as (i & s & G1 & gk & G2 & m & ? & ? & ? & ? & ? & ? & ?).
    exists i, s, G1, gk, G2, m. split_and!; try done. lia.
Qed.

Lemma walk_write L L' F1 i fk F2 s n kv kv' rest :
  NoDup L.*1 → L = F1 ++ (i, fk) :: F2 → fk !! s = Some kv → L' = F1 ++ (i, <[s := kv']> fk) :: F2 →
  walk_at L (Some i) (s + 1) n ((contents F1 ++ take s fk) ++ [kv]) rest →
  walk_at L' (Some i) (s + 1) n ((contents F1 ++ take s fk) ++ [kv']) rest.
Proof using Type.
  intros Hn HL Hs -> [Hcont [[? _]|(m & -> & G1 & j & gk & G2 & HG & [= <-] & _ & Hm & _)]]; [done|].
  destruct (nodup_split _ _ _ _ _ _ _ _ Hn HL HG) as (<- & <- & <-).
  pose proof (lookup_lt_Some _ _ _ Hs) as Hlt. rewrite Nat.add_1_r in *.
  assert (take (S s) (<[s := kv']> fk) = take s fk ++ [kv']) as Htk.
  { rewrite (take_S_r _ _ kv') by by rewrite list_lookup_insert_eq. by rewrite take_insert_ge by lia. }
  split.
  - rewrite HL, (contents_at F1 i fk F2 (S s)), (take_S_r _ _ _ Hs), (app_assoc (contents F1)) in Hcont. apply app_inv_head in Hcont.
    by rewrite (contents_at F1 i _ F2 (S s)), Htk, drop_insert_lt, Hcont, !app_assoc by lia.
  - right. exists m. split; [done|]. exists F1, i, (<[s := kv']> fk), F2. rewrite length_insert, Htk, app_assoc.
    split_and!; done.
Qed.

Definition map_values (f : K → V → V) (l : list (K * V)) : list (K * V) := List.map (λ e, (e.1, f e.1 e.2)) l.

Lemma for_each_mut_ok f t g it n pre rest fuel :
  repr t g → walk_at (tleaves g) (im_leaf it) (im_idx it) n pre rest → im_remaining it = length rest →
  length rest < fuel → n <= walk_fuel t →
  ∃ t' g', for_each_mut fuel f t it = Some t' ∧ repr t' g' ∧ entries g' = pre ++ map_values f rest.
Proof using Type*.
  revert t g it n pre rest. induction fuel as [|fuel IH]; intros t g it n pre rest Hr Hw Hrem Hf Hn; [lia|].
  pose proof (repr_chained _ _ _ _ Hr) as Ht. cbn [for_each_mut].
  destruct (iter_mut_next_ok (arena t) (tleaves g) it n pre rest (walk_fuel t) (ch_chain _ _ Ht) Hw Hrem Hn) as (it' & Hit').
  destruct rest as [|[k v] rest].
  - rewrite Hit'. exists t, g. split_and!; [done..|]. rewrite entries_tleaves. exact (proj1 Hw).
  - destruct Hit' as (i & s & F1 & fk & F2 & n' & -> & HL & Hs & Hpre & -> & Hn' & Hw').
    destruct (write_at_ok t g F1 i fk F2 s k v (f k) Hr HL Hs) as (t' & g' & -> & Hr' & HL' & Ha).
    rewrite Hpre in Hw'.
    pose proof (walk_write _ _ _ _ _ _ _ _ _ _ _ (ch_nodup _ _ Ht) HL Hs HL' Hw') as Hw2.
    destruct (IH t' g' {| im_leaf := Some i; im_idx := s + 1; im_remaining := length rest |} n' _ _ Hr' Hw2) as
      (t2 & g2 & -> & Hr2 & He); [done|cbn in Hf; lia|unfold walk_fuel in *; lia|].
    exists t2, g2. split_and!; [done..|]. rewrite He, Hpre, <- (app_assoc _ [_]). done.
Qed.
End mutable.

(** ** The properties *)

Section properties.
Context {K V : Type} `{OrdLaws K} {MK : MinKeys} (key_size val_size : nat).
Abbreviation represents := (represents key_size val_size).
Implicit Types (t : RawBTree K V) (l : list (K * V)).

(** C35: the double-ended iterator.  On a well-formed B+ tree, empty leaves
    included, every mixture of steps from the front and from the back yields what
    the same steps yield from the list of the entries in key order, and nothing
    once all entries are out. *)
Theorem btree_iter_correct t l ends :
  represents t l → ∃ it it', iter t = Some it ∧ iter_run t ends it = Some (ends_of ends l, it').
Proof using Type*.
  intros Hr. destruct (represents_chained _ _ _ _ Hr) as (L & Ht & <-).
  destruct (iter_start _ _ Ht) as (it & Hit & Hat). destruct (iter_run_ok _ _ ends _ _ Ht Hat) as (it' & Hrun).
  by exists it, it'.
Qed.

(** The mutable iterator hands out each value once, in key order: a client that
    replaces each value turns the represented map into the one with all values
    replaced, and neither order nor shape change. *)
Theorem btree_iter_mut_correct t l f :
  represents t l →
  ∃ t', for_each_mut (S (len t)) f t (iter_mut t) = Some t' ∧ represents t' (map_values f l).
Proof using Type*.
  intros [[He ->]|(g & Hr & ->)].
  - exists t. destruct He as (Hroot & Hf & Hl & Hn & Hrest). rewrite Hn. cbn [for_each_mut].
    unfold iter_mut, walk_fuel. rewrite Hf. cbn. split; [done|]. left. by split.
  - pose proof (repr_chained key_size val_size _ _ Hr) as Ht.
    destruct (for_each_mut_ok key_size val_size f t g (iter_mut t) (walk_fuel t) [] (entries g) (S (len t))) as (t' & g' & Ht' & Hr' & He);
      [done| | |by rewrite (h_len _ _ (proj1 Hr)); lia|done|].
    + rewrite entries_tleaves. apply (walk_start _ _ Ht).
    + cbn. by rewrite (h_len _ _ (proj1 Hr)).
    + exists t'. split; [done|]. right. by exists g'.
Qed.
End properties.
