(* ===== verification/BTreeScan.v ===== *)
(** * The B+ tree engine: lookups by equality

    The map interface of hash tables gives no order on the queried keys, so that
    the tree behind it scans its leaves.  The scan finds the place the ordered
    search finds. *)

From Stdlib Require Import Lia.
From S2P Require Import Prelude BinSearch BTree BTreeInv BTreeShape BTreeRep SortedAssoc BTreeSearch BTreeInsert BTreeIter.

Section scan.
Context {K V : Type} `{Ord K} `{EqDecision K} (key_size val_size : nat).
Implicit Types (a : Arena K V) (t : RawBTree K V) (key : K).

(** The first position of the key in a leaf. *)
Fixpoint position_of key (keys : list K) : option nat :=
  match keys with
  | [] => None
  | k :: keys' => if bool_decide (k = key) then Some 0 else S <$> position_of key keys'
  end.

(** The loop over the leaves; [fuel]: the leaves left. *)
Fixpoint find_by_eq (fuel : nat) a key (leaf_idx : option nat) : option (option (nat * nat)) :=
  match leaf_idx, fuel with
  | None, _ => Some None
  | _, 0 => None
  | Some leaf_idx, S fuel' =>
      do kvs <- leaf_kvs a leaf_idx;
      match position_of key kvs.*1 with
      | Some i => Some (Some (leaf_idx, i))
      | None => do ' (_, next) <- links a !! leaf_idx; find_by_eq fuel' a key next
      end
  end.

(** The place of the value. *)
(*@ flat_btree/raw.rs : pub fn get_mut_by_eq *)
Definition get_mut_by_eq t key : option (option (nat * nat)) :=
  find_by_eq (walk_fuel t) (arena t) key (first_leaf t).

(*@ flat_btree/raw.rs : pub fn get_by_eq *)
Definition get_by_eq t key : option (option V) :=
  do r <- find_by_eq (walk_fuel t) (arena t) key (first_leaf t);
  match r with
  | Some (leaf_idx, i) => do kvs <- leaf_kvs (arena t) leaf_idx; do ' (_, v) <- kvs !! i; Some (Some v)
  | None => Some None
  end.

(*@ flat_btree/raw.rs : pub fn get_key_value_by_eq *)
Definition get_key_value_by_eq t key : option (option (K * V)) :=
  do r <- find_by_eq (walk_fuel t) (arena t) key (first_leaf t);
  match r with
  | Some (leaf_idx, i) => do kvs <- leaf_kvs (arena t) leaf_idx; do kv <- kvs !! i; Some (Some kv)
  | None => Some None
  end.

(*@ flat_btree/raw.rs : pub fn remove_entry_by_eq *)
Definition remove_entry_by_eq t key : option (RawBTree K V * option (K * V)) :=
  do r <- find_by_eq (walk_fuel t) (arena t) key (first_leaf t);
  match r with
  | Some (leaf_idx, i) => do ' (t, kv) <- leaf_remove_at key_size val_size t leaf_idx i; Some (t, Some kv)
  | None => Some (t, None)
  end.

(*@ flat_btree/raw.rs : pub fn remove_by_eq *)
Definition remove_by_eq t key : option (RawBTree K V * option V) :=
  do ' (t, r) <- remove_entry_by_eq t key; Some (t, snd <$> r).
End scan.

Section properties.
Context {K V : Type} `{OrdLaws K} `{EqDecision K} {MK : MinKeys} (key_size val_size : nat).
Abbreviation repr := (repr key_size val_size).
Abbreviation represents := (represents key_size val_size).
Implicit Types (a : Arena K V) (t : RawBTree K V) (l kvs : list (K * V)) (L : list (nat * list (K * V))).

Lemma position_of_ok key (keys : list K) :
  match position_of key keys with Some i => keys !! i = Some key | None => key ∉ keys end.
Proof using Type.
  induction keys as [|k keys IH]; [apply not_elem_of_nil|]. cbn [position_of]. case_bool_decide as E.
  - by rewrite E.
  - destruct (position_of key keys) as [i|]; [done|]. cbn. rewrite not_elem_of_cons. auto.
Qed.

Lemma find_by_eq_ok fuel a key L1 L2 :
  leaf_chain a (L1 ++ L2) → length L2 <= fuel →
  ∃ r, find_by_eq fuel a key (head L2.*1) = Some r ∧
    match r with
    | Some (i, s) => ∃ M1 kvs M2 v, L2 = M1 ++ (i, kvs) :: M2 ∧ kvs !! s = Some (key, v)
    | None => key ∉ (contents L2).*1
    end.
Proof using Type.
  revert L1 L2. induction fuel as [|fuel IH]; intros L1 L2 Hc Hf.
  { destruct L2; [|cbn in Hf; lia]. exists None. split; [done|]. apply not_elem_of_nil. }
  destruct L2 as [|[i kvs] L2]; [exists None; split; [done|apply not_elem_of_nil]|].
  cbn [fmap list_fmap head fst find_by_eq]. destruct (chain_here _ _ _ _ _ Hc) as [Hk Hl]. rewrite Hk, Hl.
  cbn [mbind option_bind]. pose proof (position_of_ok key kvs.*1) as Hp. destruct (position_of key kvs.*1) as [s|].
  - exists (Some (i, s)). split; [done|]. apply list_lookup_fmap_Some in Hp as ([k v] & Hk' & Hs). cbn in Hk'. subst k.
    by exists [], kvs, L2, v.
  - destruct (IH (L1 ++ [(i, kvs)]) L2) as (r & Hr & Hs); [by rewrite <- app_assoc|cbn in Hf; lia|]. exists r. split; [exact Hr|].
    destruct r as [[j s]|].
    + destruct Hs as (M1 & kvs' & M2 & v & -> & Hv). by exists ((i, kvs) :: M1), kvs', M2, v.
    + rewrite contents_cons, fmap_app, elem_of_app. tauto.
Qed.

Lemma key_in key v kvs s : kvs !! s = Some (key, v) → key ∈ kvs.*1.
Proof using Type. intros Hs. apply list_elem_of_fmap. exists (key, v). split; [done|]. by eapply list_elem_of_lookup_2. Qed.

Lemma leaf_key_in key v A i kvs s B : kvs !! s = Some (key, v) → key ∈ (contents (A ++ (i, kvs) :: B)).*1.
Proof using Type.
  intros Hs. rewrite contents_app, contents_cons, !fmap_app, !elem_of_app. right. left. by eapply key_in.
Qed.

Lemma sm_lookup_in l key : key ∈ l.*1 → sm_lookup l key ≠ None.
Proof using Type*.
  induction l as [|[k v] l IH]; cbn; [by intros ?%elem_of_nil|]. intros [->|Hin]%elem_of_cons; [by rewrite cmp_refl|].
  destruct (cmp key k); [done|by apply IH..].
Qed.

(** A key has one place. *)
Lemma place_unique key L A i kvs s v B A' i' kvs' s' v' B' :
  NoDup (contents L).*1 → L = A ++ (i, kvs) :: B → kvs !! s = Some (key, v) →
  L = A' ++ (i', kvs') :: B' → kvs' !! s' = Some (key, v') → i = i' ∧ s = s'.
Proof using Type.
  intros Hn HL Hs HL' Hs'. revert L A' Hn HL HL'.
  induction A as [|[j jk] A IH]; intros L [|[j' jk'] A'] Hn HL HL'; subst L; cbn [app] in HL'; injection HL' as <- <- HL'.
  - split; [done|]. cbn [app] in Hn. rewrite contents_cons, fmap_app in Hn. apply NoDup_app in Hn as (Hn & _).
    eapply (NoDup_lookup _ s s' key Hn); rewrite list_lookup_fmap; [by rewrite Hs|by rewrite Hs'].
  - exfalso. cbn [app] in Hn. rewrite contents_cons, fmap_app in Hn. apply NoDup_app in Hn as (_ & Hd & _).
    apply (Hd key); [by eapply key_in|]. rewrite HL'. by eapply leaf_key_in.
  - exfalso. cbn [app] in Hn. rewrite contents_cons, fmap_app in Hn. apply NoDup_app in Hn as (_ & Hd & _).
    apply (Hd key); [by eapply key_in|]. by eapply leaf_key_in.
  - cbn [app] in Hn. rewrite contents_cons, fmap_app in Hn. apply NoDup_app in Hn as (_ & _ & Hn). by eapply (IH _ A').
Qed.

Lemma sorted_map_NoDup l : sorted_map l → NoDup l.*1.
Proof using Type*.
  unfold sorted_map. generalize l.*1 as ks. intros ks Hs. induction Hs as [|k ks Hs IH Hk]; [constructor|].
  constructor; [|done]. intros Hin. rewrite Forall_forall in Hk. by apply (klt_irrefl k), Hk.
Qed.

(** The scan of the leaves for an equal key finds the place the ordered search finds,
    so that the tree answers alike behind both map interfaces. *)
Theorem btree_scan_correct t l key : represents t l → get_mut_by_eq t key = search t key.
Proof using Type*.
  unfold get_mut_by_eq. intros [[He ->]|(g & Hr & ->)].
  { destruct He as (Hroot & Hf & _). unfold search. by rewrite Hroot, Hf. }
  pose proof (repr_chained key_size val_size _ _ Hr) as Ht. rewrite (ch_first _ _ Ht).
  destruct (find_by_eq_ok (walk_fuel t) (arena t) key [] (tleaves g)) as (r & -> & Hres);
    [apply (ch_chain _ _ Ht)|pose proof (ch_fuel _ _ Ht); unfold walk_fuel; lia|].
  destruct (search_ok key_size val_size t g key Hr) as (r' & -> & Hres'). f_equal.
  assert (sorted_map (entries g)) as Hs by (apply (represents_sorted key_size val_size t); right; by exists g).
  destruct r as [[i s]|], r' as [[i' s']|]; try done.
  - destruct Hres as (A & kvs & B & v & HL & Hv). destruct Hres' as (fs & kvs' & lo & hi & v' & Hat & Hv' & _).
    destruct (place_unique key (tleaves g) A i kvs s v B (ltleaves fs) i' kvs' s' v' (rtleaves fs)) as [-> ->]; try done.
    + unfold contents. rewrite <- entries_tleaves. by apply sorted_map_NoDup.
    + rewrite (la_tree _ _ _ _ _ _ _ _ Hat), tleaves_plug. done.
  - exfalso. destruct Hres as (A & kvs & B & v & HL & Hv). cbn in Hres'. revert Hres'. apply sm_lookup_in.
    rewrite entries_tleaves. fold (contents (tleaves g)). rewrite HL. by eapply leaf_key_in.
  - exfalso. destruct Hres' as (fs & kvs' & lo & hi & v' & Hat & Hv' & _). apply Hres.
    rewrite (la_tree _ _ _ _ _ _ _ _ Hat), tleaves_plug. by eapply leaf_key_in.
Qed.
End properties.
