(* ===== verification/BTreeDrain.v ===== *)
(** * The B+ tree map: clearing, draining and the owning iterator

    What these return and what they drop: a definition that drops entries or
    keys returns the list of them, in the order of the drops. *)

From Stdlib Require Import Lia.
From stdpp Require Import fin_maps list_tactics sorting.
From S2P Require Import Prelude BTree BTreeIter BTreeInv BTreeShape BTreeRep SortedAssoc BTreeSearch BTreeInsert.
From S2P Require BTreeRemove BTreeSpec.

(** What a step drops: entries of leaves and keys of internal nodes. *)
Record Dropped (K V : Type) := { dropped_entries : list (K * V); dropped_keys : list K }.
Arguments dropped_entries {K V}.
Arguments dropped_keys {K V}.

Section drain.
Context {K V : Type}.
Implicit Types (a : Arena K V) (t : RawBTree K V).

Definition no_drops : Dropped K V := {| dropped_entries := []; dropped_keys := [] |}.

(** ** Clearing *)

(** The entries of the leaves from one on. *)
Fixpoint drop_leaves (fuel : nat) a (leaf_idx : option nat) : option (list (K * V)) :=
  match leaf_idx, fuel with
  | None, _ => Some []
  | _, 0 => None
  | Some i, S fuel' =>
      do kvs <- leaf_kvs a i;
      do ' (_, next) <- links a !! i;
      do rest <- drop_leaves fuel' a next;
      Some (kvs ++ rest)
  end.

(*@ flat_btree/raw.rs : fn drop_all_contents *)
Definition drop_all_contents t : option (Dropped K V) :=
  match root t with
  | None => Some no_drops
  | Some r =>
      do kvs <- drop_leaves (walk_fuel t) (arena t) (first_leaf t);
      do ks <- drop_internal_keys (S (height t)) (arena t) r;
      Some {| dropped_entries := kvs; dropped_keys := ks |}
  end.

(** The arena keeps its memory; no node of it is allocated any more. *)
Definition cleared t : RawBTree K V := {|
  arena := {| bodies := ∅; parents := ∅; links := ∅; arena_cap := arena_cap (arena t); arena_len := 0; free_list := [] |};
  root := None; first_leaf := None; last_leaf := None; len := 0; height := 0; dropped_seps := [] |}.

(*@ flat_btree/raw.rs : pub fn clear(&mut self) *)
Definition clear t : option (RawBTree K V * Dropped K V) :=
  do d <- drop_all_contents t; Some (cleared t, d).

(** ** Draining *)

(*@ flat_btree/map.rs : pub struct Drain *)
Record Drain := { dr_tree : RawBTree K V; dr_leaf : option nat; dr_idx : nat; dr_remaining : nat }.

(*@ flat_btree/map.rs : pub fn drain(&mut self) *)
Definition drain t : Drain := {| dr_tree := t; dr_leaf := first_leaf t; dr_idx := 0; dr_remaining := len t |}.

(** The entry is read out and stays in the node until the leaf is passed. *)
(*@ flat_btree/map.rs : 1011-1043 : Drain::next *)
Fixpoint drain_next (fuel : nat) (d : Drain) : option (option (K * V) * Drain) :=
  match dr_leaf d, fuel with
  | None, _ => Some (None, d)
  | _, 0 => None
  | Some i, S fuel' =>
      let t := dr_tree d in
      do kvs <- leaf_kvs (arena t) i;
      match kvs !! dr_idx d with
      | Some kv =>
          if (dr_remaining d =? 0) || (len t =? 0) then None
          else Some (Some kv, {| dr_tree := with_len t (len t - 1); dr_leaf := dr_leaf d; dr_idx := dr_idx d + 1;
                                 dr_remaining := dr_remaining d - 1 |})
      | None =>
          do ' (_, next) <- links (arena t) !! i;
          drain_next fuel' {| dr_tree := with_arena t (set_body (arena t) i (LeafBody [])); dr_leaf := next; dr_idx := 0;
                              dr_remaining := dr_remaining d |}
      end
  end.

Definition drain_fuel (d : Drain) : nat := walk_fuel (dr_tree d).

(** The first [n] items. *)
Fixpoint drain_take (n : nat) (d : Drain) : option (list (K * V) * Drain) :=
  match n with
  | 0 => Some ([], d)
  | S n' =>
      do ' (x, d) <- drain_next (drain_fuel d) d;
      match x with
      | Some kv => do ' (kvs, d) <- drain_take n' d; Some (kv :: kvs, d)
      | None => Some ([], d)
      end
  end.

(** Dropping the iterator drops the items that are left, then clears the tree;
    the result: the tree, the items and what clearing drops. *)
(*@ flat_btree/map.rs : 1045-1057 : Drain::drop *)
Definition drain_drop (d : Drain) : option (RawBTree K V * list (K * V) * Dropped K V) :=
  do ' (rest, d) <- drain_take (S (dr_remaining d)) d;
  do ' (t, dropped) <- clear (dr_tree d);
  Some (t, rest, dropped).

(** Taking [n] items of a drain, then dropping it. *)
Definition drain_run (n : nat) t : option (list (K * V) * RawBTree K V * list (K * V) * Dropped K V) :=
  do ' (taken, d) <- drain_take n (drain t);
  do ' (t, rest, dropped) <- drain_drop d;
  Some (taken, t, rest, dropped).

Definition drain_all t : option (list (K * V) * RawBTree K V) :=
  do ' (taken, t, _, _) <- drain_run (S (len t)) t; Some (taken, t).

(** ** The owning iterator *)

(*@ flat_btree/map.rs : pub struct IntoIter *)
Record IntoIter := {
  ii_tree : RawBTree K V;
  ii_leaf : option nat;
  ii_idx : nat;
  consumed_start : nat;
  ii_remaining : nat;
}.

(*@ flat_btree/map.rs : 1954-1974 : FlatBTree::into_iter *)
Definition into_iter t : IntoIter := {|
  ii_tree := t; ii_leaf := first_leaf t; ii_idx := 0; consumed_start := 0; ii_remaining := len t |}.

(*@ flat_btree/map.rs : 1382-1417 : IntoIter::next *)
Fixpoint into_iter_next (fuel : nat) (it : IntoIter) : option (option (K * V) * IntoIter) :=
  match ii_leaf it, fuel with
  | None, _ => Some (None, it)
  | _, 0 => None
  | Some i, S fuel' =>
      let t := ii_tree it in
      do kvs <- leaf_kvs (arena t) i;
      match kvs !! ii_idx it with
      | Some kv =>
          if ii_remaining it =? 0 then None
          else Some (Some kv, {| ii_tree := t; ii_leaf := ii_leaf it; ii_idx := ii_idx it + 1;
                                 consumed_start := ii_idx it + 1; ii_remaining := ii_remaining it - 1 |})
      | None =>
          do ' (_, next) <- links (arena t) !! i;
          into_iter_next fuel' {| ii_tree := with_arena t (set_body (arena t) i (LeafBody [])); ii_leaf := next;
                                  ii_idx := 0; consumed_start := 0; ii_remaining := ii_remaining it |}
      end
  end.

Fixpoint into_iter_take (n : nat) (it : IntoIter) : option (list (K * V) * IntoIter) :=
  match n with
  | 0 => Some ([], it)
  | S n' =>
      do ' (x, it) <- into_iter_next (walk_fuel (ii_tree it)) it;
      match x with
      | Some kv => do ' (kvs, it) <- into_iter_take n' it; Some (kv :: kvs, it)
      | None => Some ([], it)
      end
  end.

(** The unread entries of the current leaf, those of the following leaves (whose
    lengths the code sets to zero: nothing reads them again), then
    the drop of the tree, whose root is unset by then. *)
(*@ flat_btree/map.rs : 1421-1467 : IntoIter::drop *)
Definition into_iter_drop (it : IntoIter) : option (list (K * V) * Dropped K V) :=
  let t := ii_tree it in
  do rest <- match ii_leaf it with
             | None => Some []
             | Some i =>
                 do kvs <- leaf_kvs (arena t) i;
                 do ' (_, next) <- links (arena t) !! i;
                 do rest <- drop_leaves (walk_fuel t) (arena t) next;
                 Some (drop (consumed_start it) kvs ++ rest)
             end;
  let t := {| arena := arena t; root := None; first_leaf := None; last_leaf := last_leaf t; len := len t;
              height := height t; dropped_seps := dropped_seps t |} in
  do dropped <- drop_all_contents t;
  Some (rest, dropped).

(** Taking [n] items of the owning iterator, then dropping it. *)
Definition into_iter_run (n : nat) t : option (list (K * V) * list (K * V) * Dropped K V) :=
  do ' (taken, it) <- into_iter_take n (into_iter t);
  do ' (rest, dropped) <- into_iter_drop it;
  Some (taken, rest, dropped).

Definition into_pairs t : option (list (K * V)) := do ' (taken, _, _) <- into_iter_run (S (len t)) t; Some taken.

(*@ flat_btree/map.rs : pub fn into_keys(self) *)
Definition into_keys t : option (list K) := do kvs <- into_pairs t; Some kvs.*1.

(*@ flat_btree/map.rs : pub fn into_values(self) *)
Definition into_values t : option (list V) := do kvs <- into_pairs t; Some kvs.*2.
End drain.
Arguments Drain : clear implicits.
Arguments IntoIter : clear implicits.

(** ** The B+ tree map: what clearing, draining and consuming drop *)

(** Every entry is dropped or handed out exactly once, whenever the iterator is
    dropped; the keys of the internal nodes are dropped once by clearing and
    draining, and never by the owning iterator. *)

Section walks.
Context {K V : Type}.
Implicit Types (a : Arena K V) (t : RawBTree K V) (g : tree K V) (L : list (nat * list (K * V))).

Lemma skeleton_set a n g i kvs kvs' :
  leaf_kvs a i = Some kvs → skeleton a n g → skeleton (set_body a i (LeafBody kvs')) n g.
Proof.
  intros Hi. assert (bodies a !! i = Some (LeafBody kvs)) as Hb.
  { unfold leaf_kvs in Hi. destruct (bodies a !! i) as [[]|]; naive_solver. }
  revert n. induction g as [j jk|j ks cs IH] using tree_ind_strong; intros n; [|destruct n as [|n]; [done|]]; cbn [skeleton].
  - intros Hj. rewrite leaf_kvs_set. by case_decide.
  - intros (Hj & Hlen & Hcs). split_and!; [|done|].
    + cbn [set_body arena_with bodies]. rewrite lookup_insert_ne; [done|]. intros ->. rewrite Hb in Hj. done.
    + clear Hj Hlen. induction IH as [|c cs Hc _ IH']; [constructor|]. cbn in *. apply Forall_cons in Hcs as [Hc' Hcs].
      constructor; [by apply Hc|by apply IH'].
Qed.

(** ** The leaves *)

Lemma drop_leaves_ok a L1 L2 fuel :
  leaf_chain a (L1 ++ L2) → length L2 <= fuel → drop_leaves fuel a (head L2.*1) = Some (contents L2).
Proof.
  revert L1 fuel. induction L2 as [|[i kvs] L2 IH]; intros L1 fuel Hc Hf; [by destruct fuel|].
  destruct fuel as [|fuel]; [cbn in Hf; lia|]. cbn [drop_leaves fmap list_fmap head fst].
  destruct (chain_here _ _ _ _ _ Hc) as [Hk Hl]. rewrite Hk, Hl.
  rewrite (IH (L1 ++ [(i, kvs)]) fuel); [done| |cbn in Hf; lia]. by rewrite <- app_assoc.
Qed.

(** A tree whose leaves are being emptied from the left: the walk is at entry [s]
    of leaf [i], the leaves before it are empty. *)
Definition emptied_to L (i : option nat) (s n : nat) (rest : list (K * V)) : Prop :=
  (i = None ∧ rest = [] ∧ contents L = []) ∨
  (∃ F1 fi fk F2 m, L = F1 ++ (fi, fk) :: F2 ∧ i = Some fi ∧ s <= length fk ∧ contents F1 = [] ∧
     rest = drop s fk ++ contents F2 ∧ n = S m ∧ length F2 <= m).

Lemma emptied_start t L : chained t L → emptied_to L (first_leaf t) 0 (walk_fuel t) (contents L).
Proof.
  intros Ht. rewrite (ch_first _ _ Ht). destruct L as [|[i kvs] L]; [by left|]. right.
  exists [], i, kvs, L, (arena_len (arena t)). pose proof (ch_fuel _ _ Ht). cbn in *. split_and!; try done; lia.
Qed.

(** A step: at an entry, or past a leaf, which is emptied. *)
Lemma emptied_step a L fi s n rest :
  NoDup L.*1 → leaf_chain a L → emptied_to L (Some fi) s n rest →
  ∃ fk m, n = S m ∧ leaf_kvs a fi = Some fk ∧
    match fk !! s with
    | Some kv => ∃ rest', rest = kv :: rest' ∧ emptied_to L (Some fi) (s + 1) n rest'
    | None => ∃ prev next L', links a !! fi = Some (prev, next) ∧ L'.*1 = L.*1 ∧
        leaf_chain (set_body a fi (LeafBody [])) L' ∧ emptied_to L' next 0 m rest
    end.
Proof.
  intros Hn Hc [(? & _)|(F1 & i & fk & F2 & m & HL & [= <-] & Hs & HF1 & -> & -> & Hm)]; [done|]. exists fk, m.
  rewrite HL in Hc, Hn. destruct (chain_here _ _ _ _ _ Hc) as [Hk Hl]. split_and!; [done..|].
  destruct (fk !! s) as [kv|] eqn:Ekv.
  - rewrite (drop_S _ _ _ Ekv). eexists. split; [reflexivity|]. right. exists F1, fi, fk, F2, m.
    pose proof (lookup_lt_Some _ _ _ Ekv). rewrite Nat.add_1_r. split_and!; try done; lia.
  - apply lookup_ge_None in Ekv. rewrite drop_ge by lia. eexists _, _, (F1 ++ (fi, []) :: F2). split; [exact Hl|].
    split; [by rewrite HL, !fmap_app|]. split; [by apply (leaf_chain_set _ _ _ fk)|].
    destruct F2 as [|[i2 k2] F2].
    + left. split_and!; [done..|]. by rewrite contents_app, HF1.
    + right. destruct m as [|m]; [cbn in Hm; lia|]. exists (F1 ++ [(fi, [])]), i2, k2, F2, m. cbn in Hm.
      split_and!; try done; [by rewrite <- app_assoc|lia|by rewrite contents_app, HF1|lia].
Qed.

(** What emptying leaves alone. *)
Definition same_frame t t' : Prop :=
  root t' = root t ∧ first_leaf t' = first_leaf t ∧ height t' = height t ∧
  arena_len (arena t') = arena_len (arena t) ∧ arena_cap (arena t') = arena_cap (arena t).

(** A tree with root [g], emptied up to a place: [rest] is still in it. *)
Definition emptying t0 g t (i : option nat) (s n : nat) (rest : list (K * V)) : Prop :=
  same_frame t0 t ∧ skeleton (arena t) (height t0) g ∧ n <= walk_fuel t0 ∧
  ∃ L, NoDup L.*1 ∧ L.*1 = leaves g ∧ length L <= arena_len (arena t0) ∧ leaf_chain (arena t) L ∧ emptied_to L i s n rest.

Lemma emptying_step t0 g t fi s n rest :
  emptying t0 g t (Some fi) s n rest →
  ∃ fk m, n = S m ∧ leaf_kvs (arena t) fi = Some fk ∧
    match fk !! s with
    | Some kv => ∃ rest', rest = kv :: rest' ∧ ∀ x, emptying t0 g (with_len t x) (Some fi) (s + 1) n rest'
    | None => ∃ prev next, links (arena t) !! fi = Some (prev, next) ∧
        emptying t0 g (with_arena t (set_body (arena t) fi (LeafBody []))) next 0 m rest
    end.
Proof.
  intros (Hfr & Hsk & Hf & L & Hn & HL & Hlen & Hc & He).
  destruct (emptied_step _ _ _ _ _ _ Hn Hc He) as (fk & m & -> & Hk & Hstep). exists fk, m. split_and!; [done..|].
  destruct (fk !! s) as [kv|].
  - destruct Hstep as (rest' & -> & He'). exists rest'. split; [done|]. intros x. split_and!; [done..|]. by exists L.
  - destruct Hstep as (prev & next & L' & Hl & HL' & Hc' & He'). exists prev, next. split; [done|].
    split_and!; [done|by apply (skeleton_set _ _ _ _ fk)|lia|]. exists L'. rewrite HL'. split_and!; try done.
    by rewrite <- (length_fmap fst), HL', length_fmap.
Qed.

Lemma emptying_none t0 g t i s n rest :
  emptying t0 g t i s n rest → i = None → rest = [].
Proof. by intros (_ & _ & _ & L & _ & _ & _ & _ & [(_ & ? & _)|(? & ? & ? & ? & ? & _ & ? & _)]) ->. Qed.

Lemma emptying_fuel t0 g t i s n rest : emptying t0 g t i s n rest → walk_fuel t = walk_fuel t0.
Proof. intros ((_ & _ & _ & Ha & _) & _). unfold walk_fuel. by rewrite Ha. Qed.
End walks.

(** ** Draining *)

Section drains.
Context {K V : Type} `{OrdLaws K} {MK : MinKeys} (key_size val_size : nat).
Abbreviation repr := (repr key_size val_size).
Abbreviation represents := (represents key_size val_size).
Implicit Types (t : RawBTree K V) (g : tree K V) (l : list (K * V)).

Lemma repr_emptying t g : repr t g → emptying t g t (first_leaf t) 0 (walk_fuel t) (entries g).
Proof using Type*.
  intros Hr. pose proof (repr_chained _ _ _ _ Hr) as Ht. split; [done|]. split.
  - destruct Hr as [Hh Hs]. apply (shape_skeleton key_size val_size _ _ None None); [|done].
    destruct (as_bodies _ _ _ _ _ (h_state _ _ Hh)) as (_ & _ & Ha). done.
  - split; [done|]. exists (tleaves g). split_and!; [apply Ht|apply tleaves_ids|apply Ht|apply Ht|].
    rewrite entries_tleaves. by apply emptied_start.
Qed.

Lemma drain_next_ok t0 g d n rest fuel :
  emptying t0 g (dr_tree d) (dr_leaf d) (dr_idx d) n rest → dr_remaining d = length rest → len (dr_tree d) = length rest →
  n <= fuel →
  ∃ d' n', drain_next fuel d = Some (head rest, d') ∧
    emptying t0 g (dr_tree d') (dr_leaf d') (dr_idx d') n' (tail rest) ∧ dr_remaining d' = length (tail rest) ∧
    len (dr_tree d') = length (tail rest) ∧ (rest = [] → dr_leaf d' = None).
Proof using Type.
  intros He Hrem Hlen Hf. revert d n He Hrem Hlen Hf. induction fuel as [|fuel IH]; intros d n He Hrem Hlen Hf.
  { destruct (dr_leaf d) as [i|] eqn:Ei.
    - destruct (emptying_step _ _ _ _ _ _ _ He) as (? & ? & ? & _). lia.
    - pose proof (emptying_none _ _ _ _ _ _ _ He eq_refl) as ->. exists d, n. cbn [drain_next]. by rewrite Ei. }
  cbn [drain_next]. destruct (dr_leaf d) as [i|] eqn:Ei.
  2:{ pose proof (emptying_none _ _ _ _ _ _ _ He eq_refl) as ->. exists d, n. by rewrite Ei. }
  destruct (emptying_step _ _ _ _ _ _ _ He) as (fk & m & -> & Hk & Hstep). rewrite Hk.
  destruct (fk !! dr_idx d) as [kv|].
  - destruct Hstep as (rest' & -> & He'). rewrite Hrem, Hlen. cbn [length Nat.eqb orb]. eexists _, _. split; [reflexivity|].
    cbn [dr_tree dr_leaf dr_idx dr_remaining tail]. split; [apply He'|]. cbn. split_and!; [lia|lia|done].
  - destruct Hstep as (prev & next & -> & He').
    by apply (IH {| dr_tree := with_arena (dr_tree d) (set_body (arena (dr_tree d)) i (LeafBody [])); dr_leaf := next;
      dr_idx := 0; dr_remaining := dr_remaining d |} m He' Hrem Hlen ltac:(lia)).
Qed.

Lemma drain_take_ok t0 g n d m rest :
  emptying t0 g (dr_tree d) (dr_leaf d) (dr_idx d) m rest → dr_remaining d = length rest → len (dr_tree d) = length rest →
  ∃ d' m', drain_take n d = Some (take n rest, d') ∧
    emptying t0 g (dr_tree d') (dr_leaf d') (dr_idx d') m' (drop n rest) ∧ dr_remaining d' = length (drop n rest) ∧
    len (dr_tree d') = length (drop n rest) ∧ (length rest < n → dr_leaf d' = None).
Proof using Type.
  revert d m rest. induction n as [|n IH]; intros d m rest He Hrem Hlen.
  { exists d, m. cbn. rewrite drop_0. split_and!; try done. lia. }
  assert (m <= drain_fuel d) as Hm by (unfold drain_fuel; rewrite (emptying_fuel _ _ _ _ _ _ _ He); by destruct He as (_ & _ & ? & _)).
  destruct (drain_next_ok _ _ _ _ _ _ He Hrem Hlen Hm) as (d1 & m1 & Hnext & He1 & Hrem1 & Hlen1 & Hnone).
  cbn [drain_take]. rewrite Hnext. destruct rest as [|x rest]; cbn [head tail] in *.
  - exists d1, m1. cbn. split_and!; try done. intros _. by apply Hnone.
  - destruct (IH _ _ _ He1 Hrem1 Hlen1) as (d2 & m2 & -> & He2 & Hrem2 & Hlen2 & Hnone2). exists d2, m2. cbn [drop take].
    split_and!; try done. cbn [length]. intros ?. apply Hnone2. lia.
Qed.

(** ** Clearing *)

Lemma cleared_empty t l : represents t l → represents (cleared t) [].
Proof using Type.
  intros Hr. left. split; [|done]. unfold empty_tree, cleared, arena_ok. cbn. split_and!; try done; [apply NoDup_nil_2|].
  assert (Z.of_nat (arena_len (arena t)) <= arena_cap (arena t))%Z; [|lia].
  destruct Hr as [[(_ & _ & _ & _ & _ & (_ & _ & ?)) _]|(g & [Hh _] & _)]; [done|].
  by destruct (as_arena _ _ _ _ _ (h_state _ _ Hh)) as (_ & _ & ?).
Qed.

Lemma emptied_clear t0 g t i s n :
  root t0 = Some (tid g) → first_leaf t0 = head (leaves g) → emptying t0 g t i s n [] → i = None →
  clear t = Some (cleared t0, {| dropped_entries := []; dropped_keys := tkeys g |}).
Proof using Type.
  intros Hroot Hfirst ((Hr & Hf & Hh & Ha & Hcap) & Hsk & _ & L & _ & HL & Hlen & Hc & He) ->.
  assert (contents L = []) as HcL by (destruct He as [(_ & _ & ?)|(? & ? & ? & ? & ? & _ & ? & _)]; done).
  unfold clear, drop_all_contents. rewrite Hr, Hroot, Hf, Hfirst, Hh, <- HL.
  rewrite (drop_leaves_ok (arena t) [] L _ Hc) by (unfold walk_fuel; lia). rewrite HcL.
  rewrite (drop_internal_keys_ok _ _ _ (S (height t0)) Hsk) by lia. unfold cleared. by rewrite Hcap.
Qed.

Lemma btree_clear_ok t l :
  represents t l → ∃ ks, internal_keys t = Some ks ∧
    clear t = Some (cleared t, {| dropped_entries := l; dropped_keys := ks |}).
Proof using Type*.
  intros [[He ->]|(g & Hr & ->)].
  - exists []. unfold internal_keys, clear, drop_all_contents. by rewrite (proj1 He).
  - pose proof (repr_internal_keys key_size val_size _ _ Hr) as Hks. exists (tkeys g). split; [done|].
    unfold internal_keys in Hks. rewrite (h_root _ _ (proj1 Hr)) in Hks.
    unfold clear, drop_all_contents. rewrite (h_root _ _ (proj1 Hr)), Hks.
    pose proof (repr_chained _ _ _ _ Hr) as Ht. rewrite (ch_first _ _ Ht).
    rewrite (drop_leaves_ok _ [] (tleaves g)); [by rewrite entries_tleaves|apply Ht|].
    pose proof (ch_fuel _ _ Ht). unfold walk_fuel. lia.
Qed.

Lemma drain_run_ok t l n :
  represents t l → ∃ ks, internal_keys t = Some ks ∧
    drain_run n t = Some (take n l, cleared t, drop n l, {| dropped_entries := []; dropped_keys := ks |}).
Proof using Type*.
  intros [[He ->]|(g & Hr & ->)].
  - exists []. destruct He as (Hroot & Hf & _). unfold internal_keys, drain_run, drain. rewrite Hroot, Hf. split; [done|].
    assert (∀ m x y, drain_take m {| dr_tree := t; dr_leaf := None; dr_idx := x; dr_remaining := y |} =
      Some ([], {| dr_tree := t; dr_leaf := None; dr_idx := x; dr_remaining := y |})) as Hd by by intros [].
    rewrite Hd. unfold drain_drop. rewrite Hd. cbn [dr_tree]. unfold clear, drop_all_contents. rewrite Hroot.
    by rewrite take_nil, drop_nil.
  - exists (tkeys g). split; [by apply (repr_internal_keys key_size val_size)|]. pose proof Hr as [Hh _].
    pose proof (repr_emptying _ _ Hr) as He. unfold drain_run.
    destruct (drain_take_ok t g n (drain t) _ _ He) as (d & m & -> & He1 & Hrem1 & Hlen1 & _);
      [apply (h_len _ _ Hh)..|]. unfold drain_drop.
    destruct (drain_take_ok t g (S (dr_remaining d)) d _ _ He1 Hrem1 Hlen1) as (d2 & m2 & -> & He2 & _ & _ & Hnone).
    assert (drop (S (dr_remaining d)) (drop n (entries g)) = []) as E by (apply drop_ge; lia).
    rewrite E in He2. rewrite (emptied_clear _ _ _ _ _ _ (h_root _ _ Hh) (h_first _ _ Hh) He2) by (apply Hnone; lia).
    by rewrite (take_ge (drop n (entries g))) by lia.
Qed.

Lemma drain_all_ok t l : represents t l → drain_all t = Some (l, cleared t).
Proof using Type*.
  intros Hr. unfold drain_all. destruct (drain_run_ok t l (S (len t)) Hr) as (ks & _ & ->).
  rewrite take_ge; [done|]. rewrite (represents_len _ _ _ _ Hr). lia.
Qed.

(** ** The owning iterator *)

Lemma into_iter_next_ok t0 g it n rest fuel :
  emptying t0 g (ii_tree it) (ii_leaf it) (ii_idx it) n rest → ii_remaining it = length rest → consumed_start it = ii_idx it →
  n <= fuel →
  ∃ it' n', into_iter_next fuel it = Some (head rest, it') ∧
    emptying t0 g (ii_tree it') (ii_leaf it') (ii_idx it') n' (tail rest) ∧ ii_remaining it' = length (tail rest) ∧
    consumed_start it' = ii_idx it'.
Proof using Type.
  intros He Hrem Hcs Hf. revert it n He Hrem Hcs Hf. induction fuel as [|fuel IH]; intros it n He Hrem Hcs Hf.
  { destruct (ii_leaf it) as [i|] eqn:Ei.
    - destruct (emptying_step _ _ _ _ _ _ _ He) as (? & ? & ? & _). lia.
    - pose proof (emptying_none _ _ _ _ _ _ _ He eq_refl) as ->. exists it, n. cbn [into_iter_next]. by rewrite Ei. }
  cbn [into_iter_next]. destruct (ii_leaf it) as [i|] eqn:Ei.
  2:{ pose proof (emptying_none _ _ _ _ _ _ _ He eq_refl) as ->. exists it, n. by rewrite Ei. }
  destruct (emptying_step _ _ _ _ _ _ _ He) as (fk & m & -> & Hk & Hstep). rewrite Hk.
  destruct (fk !! ii_idx it) as [kv|].
  - destruct Hstep as (rest' & -> & He'). rewrite Hrem. cbn [length Nat.eqb]. eexists _, _. split; [reflexivity|].
    cbn [ii_tree ii_leaf ii_idx ii_remaining tail consumed_start].
    specialize (He' (len (ii_tree it))). split; [by destruct (ii_tree it)|]. split; [lia|done].
  - destruct Hstep as (prev & next & -> & He').
    by apply (IH {| ii_tree := with_arena (ii_tree it) (set_body (arena (ii_tree it)) i (LeafBody [])); ii_leaf := next;
      ii_idx := 0; consumed_start := 0; ii_remaining := ii_remaining it |} m He' Hrem eq_refl ltac:(lia)).
Qed.

Lemma into_iter_take_ok t0 g n it m rest :
  emptying t0 g (ii_tree it) (ii_leaf it) (ii_idx it) m rest → ii_remaining it = length rest → consumed_start it = ii_idx it →
  ∃ it' m', into_iter_take n it = Some (take n rest, it') ∧
    emptying t0 g (ii_tree it') (ii_leaf it') (ii_idx it') m' (drop n rest) ∧ consumed_start it' = ii_idx it'.
Proof using Type.
  revert it m rest. induction n as [|n IH]; intros it m rest He Hrem Hcs.
  { exists it, m. cbn. by rewrite drop_0. }
  assert (m <= walk_fuel (ii_tree it)) as Hm by (rewrite (emptying_fuel _ _ _ _ _ _ _ He); by destruct He as (_ & _ & ? & _)).
  destruct (into_iter_next_ok _ _ _ _ _ _ He Hrem Hcs Hm) as (it1 & m1 & Hnext & He1 & Hrem1 & Hcs1).
  cbn [into_iter_take]. rewrite Hnext. destruct rest as [|x rest]; cbn [head tail] in *; [by exists it1, m1|].
  destruct (IH _ _ _ He1 Hrem1 Hcs1) as (it2 & m2 & -> & He2 & Hcs2). by exists it2, m2.
Qed.

Lemma into_iter_drop_ok t0 g it m rest :
  emptying t0 g (ii_tree it) (ii_leaf it) (ii_idx it) m rest → consumed_start it = ii_idx it →
  into_iter_drop it = Some (rest, no_drops).
Proof using Type.
  intros (Hfr & _ & _ & L & Hn & HL & Hlen & Hc & He) Hcs. unfold into_iter_drop.
  destruct He as [(-> & -> & _)|(F1 & fi & fk & F2 & m' & E & -> & Hs & HF1 & -> & _ & _)]; [done|].
  rewrite E in Hc, Hlen. destruct (chain_here _ _ _ _ _ Hc) as [-> ->].
  rewrite cons_middle, app_assoc in Hc. rewrite (drop_leaves_ok _ _ _ _ Hc), Hcs; [done|].
  destruct Hfr as (_ & _ & _ & Ha & _). unfold walk_fuel. rewrite length_app in Hlen. cbn in Hlen. lia.
Qed.

Lemma into_iter_run_ok t l n : represents t l → into_iter_run n t = Some (take n l, drop n l, no_drops).
Proof using Type*.
  intros [[He ->]|(g & Hr & ->)]; unfold into_iter_run.
  - destruct He as (Hroot & Hf & _). unfold into_iter. rewrite Hf, take_nil, drop_nil. by destruct n.
  - pose proof (repr_emptying _ _ Hr) as He.
    destruct (into_iter_take_ok t g n (into_iter t) _ _ He) as (it & m & -> & He' & Hcs'); [apply (h_len _ _ (proj1 Hr))|done|].
    by rewrite (into_iter_drop_ok _ _ _ _ _ He' Hcs').
Qed.

Lemma into_pairs_ok t l : represents t l → into_pairs t = Some l.
Proof using Type*.
  intros Hr. unfold into_pairs. rewrite (into_iter_run_ok t l _ Hr), take_ge; [done|].
  rewrite (represents_len _ _ _ _ Hr). lia.
Qed.

(** ** The properties *)

(** Clearing drops every entry once, in key order, and every key of an internal
    node once, and leaves an empty tree with the memory of the arena. *)
Theorem btree_clear_correct t l :
  represents t l → ∃ t' ks, clear t = Some (t', {| dropped_entries := l; dropped_keys := ks |}) ∧
    internal_keys t = Some ks ∧ represents t' [] ∧ arena_cap (arena t') = arena_cap (arena t).
Proof using Type*.
  intros Hr. destruct (btree_clear_ok t l Hr) as (ks & Hks & Hc). exists (cleared t), ks.
  split_and!; [done..|by eapply cleared_empty|done].
Qed.


(** Draining.  An iterator that is dropped after any number of steps has handed
    out the first entries in key order and drops the others once; then the keys of
    the internal nodes are dropped, no entry a second time, and the map is empty. *)
Theorem btree_drain_correct t l n :
  represents t l → ∃ t' ks,
    drain_run n t = Some (take n l, t', drop n l, {| dropped_entries := []; dropped_keys := ks |}) ∧
    internal_keys t = Some ks ∧ represents t' [].
Proof using Type*.
  intros Hr. destruct (drain_run_ok t l n Hr) as (ks & Hks & Hd). exists (cleared t), ks.
  split_and!; [done..|by eapply cleared_empty].
Qed.

(** C40: the owning iterator, dropped after any number of steps, has handed out the
    first entries and drops the others once, none twice.  The keys of the internal
    nodes are not dropped at all: the drop of the tree stops at the unset root. *)
Theorem btree_into_iter_correct t l n :
  represents t l →
  into_iter_run n t = Some (take n l, drop n l, {| dropped_entries := []; dropped_keys := [] |}) ∧
  (1 <= min_keys → 0 < height t → ∃ k ks, internal_keys t = Some (k :: ks)).
Proof using Type*.
  intros Hr. split; [by apply into_iter_run_ok|]. intros Hmin Hh. destruct Hr as [[He _]|(g & Hr & _)].
  - destruct He as (_ & _ & _ & _ & Hz & _). lia.
  - rewrite (repr_internal_keys key_size val_size _ _ Hr). destruct Hr as [_ Hs].
    destruct g as [i kvs|i ks cs], (height t) as [|h]; [lia|done|done|]. destruct Hs as (Hk & _).
    destruct ks as [|k ks]; [cbn in Hk; lia|]. cbn. by eexists _, _.
Qed.
End drains.

(** ** A run of two levels

    Leaves of two entries and internal nodes of up to three keys: removing 1 from
    the keys 1 to 5 merges two internal nodes and drops the separator 3, which
    the merged node keeps; clearing the tree drops it again. *)

#[local] Existing Instance full_nodes.
Abbreviation small_key := BTreeSpec.small_key.
Abbreviation small_val := BTreeSpec.small_val.


Theorem merge_drops_live_separator :
  internal_keys (BTreeSpec.sample_tree 5) = Some [3; 2; 4] ∧ dropped_seps (BTreeSpec.sample_tree 5) = [] ∧
  (do ' (t, v) <- remove small_key small_val (BTreeSpec.sample_tree 5) 1;
   do ks <- internal_keys t;
   do ' (_, dropped) <- clear t;
   Some (v, dropped_seps t, ks, dropped_keys dropped)) = Some (Some 10, [2; 3], [3; 4], [3; 4]).
Proof. vm_compute. done. Qed.

