(* ===== verification/BTreeMap.v ===== *)
(** * The B+ tree map: operations

    The operations of [flat_btree/map.rs] on the engine: the ends of the map,
    entries, [retain], collecting, appending, splitting and comparing. *)

From Stdlib Require Import ZArith.
From S2P Require Import Prelude BinSearch BTree BTreeBulk BTreeIter BTreeDrain.

Section map.
Context {K V : Type} `{Ord K} (key_size val_size : nat).
Implicit Types (a : Arena K V) (t : RawBTree K V) (key : K) (value : V).

Abbreviation LEAF_CAP := (LEAF_CAP key_size val_size).

(** ** Construction and size *)

(*@ flat_btree/raw.rs : pub fn with_capacity(capacity: usize) *)
Definition tree_with_capacity (capacity : nat) : option (RawBTree K V) :=
  if negb (assert_capacities key_size val_size) then None
  else
    let leaf_cap := LEAF_CAP in
    let leaves := (Z.of_nat ((capacity + Nat.max leaf_cap 1 - 1) / Nat.max leaf_cap 1) mod u32_limit)%Z in
    let estimated := Z.max (Z.min (leaves + leaves / 4) (u32_limit - 1)) 4 in
    do a <- arena_with_capacity estimated;
    Some {| arena := a; root := None; first_leaf := None; last_leaf := None; len := 0; height := 0;
            dropped_seps := [] |}.

(*@ flat_btree/raw.rs : pub fn capacity(&self) *)
Definition capacity t : nat := arena_len (arena t) * LEAF_CAP.

(*@ flat_btree/map.rs : pub fn from_sorted_iter *)
Definition from_sorted_iter (debug_assertions : bool) (pairs : list (K * V)) : option (RawBTree K V) :=
  let windows := zip pairs (tail pairs) in
  if debug_assertions && negb (forallb (λ w, ltb w.1.1 w.2.1) windows) then None
  else bulk_load key_size val_size pairs.

(** ** The ends of the map *)

(*@ flat_btree/map.rs : pub fn first_key_value(&self) @1 *)
Definition first_key_value t : option (option (K * V)) :=
  if len t =? 0 then Some None
  else
    do leaf <- first_nonempty_leaf t;
    match leaf with
    | None => Some None
    | Some leaf_idx => do kvs <- leaf_kvs (arena t) leaf_idx; do kv <- kvs !! 0; Some (Some kv)
    end.

(*@ flat_btree/map.rs : pub fn last_key_value(&self) *)
Definition last_key_value t : option (option (K * V)) :=
  if len t =? 0 then Some None
  else
    do leaf <- last_nonempty_leaf t;
    match leaf with
    | None => Some None
    | Some leaf_idx =>
        do kvs <- leaf_kvs (arena t) leaf_idx;
        if length kvs =? 0 then None
        else do kv <- kvs !! (length kvs - 1); Some (Some kv)
    end.

(*@ flat_btree/map.rs : pub fn pop_first(&mut self) *)
Definition pop_first t : option (RawBTree K V * option (K * V)) :=
  if len t =? 0 then Some (t, None)
  else
    do leaf <- first_nonempty_leaf t;
    match leaf with
    | None => Some (t, None)
    | Some leaf_idx => do ' (t, kv) <- leaf_remove_at key_size val_size t leaf_idx 0; Some (t, Some kv)
    end.

(*@ flat_btree/map.rs : pub fn pop_last(&mut self) *)
Definition pop_last t : option (RawBTree K V * option (K * V)) :=
  if len t =? 0 then Some (t, None)
  else
    do leaf <- last_nonempty_leaf t;
    match leaf with
    | None => Some (t, None)
    | Some leaf_idx =>
        do n <- node_len (arena t) leaf_idx;
        if n =? 0 then None
        else do ' (t, kv) <- leaf_remove_at key_size val_size t leaf_idx (n - 1); Some (t, Some kv)
    end.

(** ** Lookup *)

(*@ flat_btree/map.rs : pub fn get_key_value *)
Definition get_key_value t key : option (option (K * V)) :=
  do r <- search t key;
  match r with
  | Some (leaf_idx, slot_idx) =>
      do kvs <- leaf_kvs (arena t) leaf_idx; do kv <- kvs !! slot_idx; Some (Some kv)
  | None => Some None
  end.

(*@ flat_btree/map.rs : pub fn contains_key *)
Definition contains_key t key : option bool := do r <- search t key; Some (match r with Some _ => true | None => false end).

(** [get_mut]: the place of the value. *)
(*@ flat_btree/raw.rs : pub fn get_mut< *)
Definition get_mut t key : option (option (nat * nat)) := search t key.

(** Indexing panics on an absent key. *)
(*@ flat_btree/map.rs : fn index(&self, key: &Q) -> &V *)
Definition index t key : option V := do v <- get t key; v.

(** ** Entries *)

(*@ flat_btree/map.rs : pub enum Entry *)
Inductive Entry :=
  | Occupied (key : K) (place : nat * nat)
  | Vacant (key : K) (leaf_idx : option nat) (pos : nat).

(*@ flat_btree/map.rs : pub fn entry(&mut self *)
Definition entry t key : option Entry :=
  do s <- entry_search t key;
  Some (match s with
        | OccupiedAt leaf_idx slot_idx => Occupied key (leaf_idx, slot_idx)
        | VacantAt leaf_idx pos => Vacant key (Some leaf_idx) pos
        | EmptyTree => Vacant key None 0
        end).

(*@ flat_btree/map.rs : pub fn insert(self, value: V) -> &'a mut V *)
Definition vacant_insert t key (leaf_idx : option nat) (pos : nat) value : option (RawBTree K V * (nat * nat)) :=
  match leaf_idx with
  | None =>
      do t <- insert_first t key value;
      do i <- first_leaf t;
      do kvs <- leaf_kvs (arena t) i;
      if length kvs =? 0 then None else Some (t, (i, 0))
  | Some leaf_idx => insert_at_vacant key_size val_size t leaf_idx pos key value
  end.

(*@ flat_btree/map.rs : pub fn or_insert(self, default: V) *)
Definition or_insert t (e : Entry) (default : V) : option (RawBTree K V * (nat * nat)) :=
  match e with
  | Occupied _ place => Some (t, place)
  | Vacant key leaf_idx pos => vacant_insert t key leaf_idx pos default
  end.

(*@ flat_btree/map.rs : pub fn or_insert_with_key *)
Definition or_insert_with_key t (e : Entry) (default : K → V) : option (RawBTree K V * (nat * nat)) :=
  match e with
  | Occupied _ place => Some (t, place)
  | Vacant key leaf_idx pos => vacant_insert t key leaf_idx pos (default key)
  end.

(*@ flat_btree/map.rs : pub fn key(&self) -> &K @1 *)
Definition entry_key (e : Entry) : K := match e with Occupied key _ => key | Vacant key _ _ => key end.

(*@ flat_btree/map.rs : pub fn and_modify *)
Definition and_modify t (e : Entry) (f : V → V) : option (RawBTree K V * Entry) :=
  match e with
  | Occupied key (i, s) => do t <- write_at t i s f; Some (t, Occupied key (i, s))
  | Vacant _ _ _ => Some (t, e)
  end.

(** The map, and the key and value given back when the key is there. *)
(*@ flat_btree/map.rs : pub fn try_insert( *)
Definition try_insert t key value : option (RawBTree K V * option (K * V)) :=
  do e <- entry t key;
  match e with
  | Occupied key _ => Some (t, Some (key, value))
  | Vacant key leaf_idx pos => do ' (t, _) <- vacant_insert t key leaf_idx pos value; Some (t, None)
  end.

(** ** Retain *)

(** One leaf: the closure's state, the entries left and the entries dropped;
    [fuel]: the entries not yet visited. *)
Fixpoint retain_leaf {St} (f : St → K → V → St * V * bool) (fuel : nat) (s : St) (kvs : list (K * V)) (i : nat) :
    option (St * list (K * V) * list (K * V)) :=
  match kvs !! i, fuel with
  | None, _ => Some (s, kvs, [])
  | _, 0 => None
  | Some (k, v), S fuel' =>
      let '(s, v, keep) := f s k v in
      if keep : bool then retain_leaf f fuel' s (<[i := (k, v)]> kvs) (i + 1)
      else
        do ' (s, kvs, dropped) <- retain_leaf f fuel' s (delete i kvs) i;
        Some (s, kvs, (k, v) :: dropped)
  end.

(*@ flat_btree/map.rs : 559-597 : retain *)
Fixpoint retain_leaves {St} (f : St → K → V → St * V * bool) (fuel : nat) (s : St) t (leaf_idx : option nat) :
    option (St * RawBTree K V * list (K * V)) :=
  match leaf_idx, fuel with
  | None, _ => Some (s, t, [])
  | _, 0 => None
  | Some i, S fuel' =>
      do ' (_, next) <- links (arena t) !! i;
      do kvs <- leaf_kvs (arena t) i;
      do ' (s, kept, dropped) <- retain_leaf f (length kvs) s kvs 0;
      if len t <? length dropped then None
      else
        let t := with_len (with_arena t (set_body (arena t) i (LeafBody kept))) (len t - length dropped) in
        do ' (s, t, dropped') <- retain_leaves f fuel' s t next;
        Some (s, t, dropped ++ dropped')
  end.

(*@ flat_btree/map.rs : pub fn retain *)
Definition retain {St} t (s : St) (f : St → K → V → St * V * bool) :
    option (St * RawBTree K V * list (K * V) * Dropped K V) :=
  do ' (s, t, dropped) <- retain_leaves f (walk_fuel t) s t (first_leaf t);
  if len t =? 0 then do ' (t, d) <- clear t; Some (s, t, dropped, d)
  else Some (s, t, dropped, no_drops).

(** ** Collecting *)

(*@ flat_btree/map.rs : 1924-1930 : FlatBTree::extend *)
Fixpoint extend t (pairs : list (K * V)) : option (RawBTree K V) :=
  match pairs with
  | [] => Some t
  | (k, v) :: pairs' => do ' (t, _) <- insert key_size val_size t k v; extend t pairs'
  end.

(** [sort_by] is stable, which determines its result. *)
Fixpoint sort_insert (e : K * V) (l : list (K * V)) : list (K * V) :=
  match l with
  | [] => [e]
  | x :: l' => if leb e.1 x.1 then e :: l else x :: sort_insert e l'
  end.

Definition sort_by_key (l : list (K * V)) : list (K * V) := foldr sort_insert [] l.

(** [dedup_by] compares with the last entry kept; the closure of [from_iter] gives
    it the later value. *)
Fixpoint dedup_from (kept : K * V) (l : list (K * V)) : list (K * V) :=
  match l with
  | [] => [kept]
  | (k, v) :: l' =>
      if bool_decide (cmp kept.1 k = Eq) then dedup_from (kept.1, v) l' else kept :: dedup_from (k, v) l'
  end.

Definition dedup_last (l : list (K * V)) : list (K * V) := match l with [] => [] | e :: l' => dedup_from e l' end.

(*@ flat_btree/map.rs : 1898-1922 : FlatBTree::from_iter *)
Definition from_iter (pairs : list (K * V)) : option (RawBTree K V) :=
  match pairs with
  | [] => Some tree_new
  | _ => bulk_load key_size val_size (dedup_last (sort_by_key pairs))
  end.

(** Moving everything to a fresh tree. *)
(*@ flat_btree/map.rs : pub fn shrink_to_fit *)
Definition shrink_to_fit t : option (RawBTree K V) :=
  if len t =? 0 then Some tree_new
  else do pairs <- into_pairs t; bulk_load key_size val_size pairs.

(** ** Appending: the new [self] and the new [other] *)

(*@ flat_btree/map.rs : 703-736 : append_drain *)
Fixpoint merge_pairs (fuel : nat) (xs ys : list (K * V)) : option (list (K * V)) :=
  match xs, ys, fuel with
  | [], [], _ => Some []
  | _, _, 0 => None
  | x :: xs', [], S fuel' => do out <- merge_pairs fuel' xs' []; Some (x :: out)
  | [], y :: ys', S fuel' => do out <- merge_pairs fuel' [] ys'; Some (y :: out)
  | x :: xs', y :: ys', S fuel' =>
      match cmp x.1 y.1 with
      | Lt => do out <- merge_pairs fuel' xs' ys; Some (x :: out)
      | Gt => do out <- merge_pairs fuel' xs ys'; Some (y :: out)
      | Eq => do out <- merge_pairs fuel' xs' ys'; Some (y :: out)
      end
  end.

(*@ flat_btree/map.rs : pub fn append_drain *)
Definition append_drain t other : option (RawBTree K V * RawBTree K V) :=
  if len other =? 0 then Some (t, other)
  else if len t =? 0 then Some (other, t)
  else
    do ' (xs, _) <- drain_all t;
    do ' (ys, other) <- drain_all other;
    do out <- merge_pairs (length xs + length ys) xs ys;
    do t <- bulk_load key_size val_size out;
    Some (t, other).

(** The order of the two key ranges is checked in debug builds only. *)
Definition ranges_apart t other : option bool :=
  do last <- last_key_value t;
  do first <- first_key_value other;
  Some (match last, first with
        | None, Some _ => true
        | Some (k, _), Some (k', _) => ltb k k'
        | _, None => false
        end).

(*@ flat_btree/map.rs : pub fn append_concat *)
Definition append_concat (debug_assertions : bool) t other : option (RawBTree K V * RawBTree K V) :=
  if len other =? 0 then Some (t, other)
  else if len t =? 0 then Some (other, t)
  else
    do apart <- (if debug_assertions then ranges_apart t other else Some true);
    if negb apart then None
    else
      do ' (xs, _) <- drain_all t;
      do ' (ys, other) <- drain_all other;
      do t <- bulk_load key_size val_size (xs ++ ys);
      Some (t, other).

(*@ flat_btree/map.rs : pub fn append_extend *)
Definition append_extend t other : option (RawBTree K V * RawBTree K V) :=
  if len other =? 0 then Some (t, other)
  else if len t =? 0 then Some (other, t)
  else
    do ' (pairs, other) <- drain_all other;
    do t <- extend t pairs;
    Some (t, other).

(** ** Splitting: what stays and what is returned *)

(*@ flat_btree/map.rs : pub fn split_off_drain *)
Definition split_off_drain t (at_key : K) : option (RawBTree K V * RawBTree K V) :=
  if len t =? 0 then Some (t, tree_new)
  else
    do lb <- lower_bound t at_key;
    match lb with
    | None => Some (t, tree_new)
    | Some (leaf_idx, pos) =>
        if (pos =? 0) && bool_decide (Some leaf_idx = first_leaf t) then Some (tree_new, t)
        else
          do ' (pairs, t) <- drain_all t;
          do split <- partition_point (λ k, ltb k at_key) pairs.*1;
          let left := take split pairs in
          let right := drop split pairs in
          do t <- (if length left =? 0 then Some t else bulk_load key_size val_size left);
          do right_tree <- (if length right =? 0 then Some tree_new else bulk_load key_size val_size right);
          Some (t, right_tree)
    end.

(** ** Comparing *)

(*@ flat_btree/map.rs : 1866-1873 : FlatBTree::eq *)
Definition eq_map (value_eqb : V → V → bool) t other : option bool :=
  if negb (len t =? len other) then Some false
  else
    do xs <- items t;
    do ys <- items other;
    Some (forallb (λ p, bool_decide (cmp p.1.1 p.2.1 = Eq) && value_eqb p.1.2 p.2.2) (zip xs ys)).
End map.
Arguments Entry : clear implicits.
