(* ===== verification/BTreeEnds.v ===== *)
(** * The B+ tree map: lookups, the ends of the map, and entries

    The first and the last entry, past empty leaves, their removal, and what the
    entry operations of the map do to the represented ordered map. *)

From Stdlib Require Import ZArith Lia.
From stdpp Require Import list_tactics sorting.
From S2P Require Import Prelude BTree BTreeInv BTreeShape BTreeRep SortedAssoc BTreeSearch BTreeLeaf BTreeInsert BTreeRebalance BTreeRemove BTreeIter BTreeMap BTreeDrain.

Section ends.
Context {K V : Type} `{OrdLaws K} {MK : MinKeys} (key_size val_size : nat).
Abbreviation repr := (repr key_size val_size).
Abbreviation represents := (represents key_size val_size).
Abbreviation leaf_at := (leaf_at key_size val_size).
Implicit Types (t : RawBTree K V) (g : tree K V) (l : list (K * V)).

(** The leaf with the first entry, and the one with the last. *)
Lemma first_leaf_entry t g :
  repr t g → entries g ≠ [] →
  ∃ fs i kvs lo hi e rest, first_nonempty_leaf t = Some (Some i) ∧ leaf_at g fs i kvs lo hi ∧ length fs = height t ∧
    kvs = e :: rest ∧ lentries fs = [].
Proof using Type*.
  intros Hr Hne. pose proof (repr_chained _ _ _ _ Hr) as Ht. unfold first_nonempty_leaf. rewrite (ch_first _ _ Ht).
  destruct (next_nonempty_ok (arena t) [] (tleaves g) (walk_fuel t)) as (r & -> & Hres);
    [apply Ht|pose proof (ch_fuel _ _ Ht); unfold walk_fuel; lia|].
  destruct r as [i|]; [|rewrite entries_tleaves in Hne; done]. destruct Hres as (M1 & kvs & M2 & HL & HM & Hkvs).
  destruct (repr_leaf _ _ t g M1 i kvs M2 Hr HL) as (fs & lo & hi & Hat & Hh & Hl & _).
  destruct kvs as [|e rest]; [done|]. exists fs, i, (e :: rest), lo, hi, e, rest. split_and!; try done.
  by rewrite lentries_eq, Hl.
Qed.

Lemma last_leaf_entry t g :
  repr t g → entries g ≠ [] →
  ∃ fs i kvs lo hi e rest, last_nonempty_leaf t = Some (Some i) ∧ leaf_at g fs i kvs lo hi ∧ length fs = height t ∧
    kvs = rest ++ [e] ∧ rentries fs = [].
Proof using Type*.
  intros Hr Hne. pose proof (repr_chained _ _ _ _ Hr) as Ht. unfold last_nonempty_leaf. rewrite (ch_last _ _ Ht).
  destruct (prev_nonempty_ok (arena t) (tleaves g) [] (walk_fuel t)) as (r & -> & Hres);
    [rewrite app_nil_r; apply Ht|pose proof (ch_fuel _ _ Ht); unfold walk_fuel; lia|].
  destruct r as [i|]; [|rewrite entries_tleaves in Hne; done]. destruct Hres as (M1 & kvs & M2 & HL & HM & Hkvs).
  destruct (repr_leaf _ _ t g M1 i kvs M2 Hr HL) as (fs & lo & hi & Hat & Hh & _ & Hrt).
  destruct kvs as [|e rest _] using rev_ind; [done|]. exists fs, i, (rest ++ [e]), lo, hi, e, rest. split_and!; try done.
  by rewrite rentries_eq, Hrt.
Qed.

(** The entries of the tree, from the first one and up to the last. *)
Lemma entries_ends t g :
  repr t g → entries g ≠ [] →
  ∃ fs i e rest lo hi fs' i' e' rest' lo' hi',
    first_nonempty_leaf t = Some (Some i) ∧ leaf_at g fs i (e :: rest) lo hi ∧ length fs = height t ∧
    last_nonempty_leaf t = Some (Some i') ∧ leaf_at g fs' i' (rest' ++ [e']) lo' hi' ∧ length fs' = height t ∧
    lentries fs = [] ∧ rentries fs' = [] ∧ entries g = e :: rest ++ rentries fs ∧
    entries g = (lentries fs' ++ rest') ++ [e'] ∧
    (rest' ++ [e']) !! (length (rest' ++ [e']) - 1) = Some e'.
Proof using Type*.
  intros Hr Hne.
  destruct (first_leaf_entry t g Hr Hne) as (fs & i & kvs & lo & hi & e & rest & Hi & Hat & Hht & -> & Hl).
  destruct (last_leaf_entry t g Hr Hne) as (fs' & i' & kvs' & lo' & hi' & e' & rest' & Hi' & Hat' & Hht' & -> & Hl').
  exists fs, i, e, rest, lo, hi, fs', i', e', rest', lo', hi'. split_and!; try done.
  - by rewrite (la_tree _ _ _ _ _ _ _ _ Hat), entries_plug, Hl.
  - rewrite (la_tree _ _ _ _ _ _ _ _ Hat'), entries_plug, Hl', app_nil_r. cbn [entries]. by rewrite app_assoc.
  - rewrite length_app. cbn [length]. rewrite Nat.add_sub. by apply list_lookup_middle.
Qed.

Lemma end_entries t l :
  represents t l → first_key_value t = Some (head l) ∧ last_key_value t = Some (last l).
Proof using Type*.
  intros Hrep. pose proof (represents_len _ _ _ _ Hrep) as Hlen. unfold first_key_value, last_key_value. rewrite Hlen.
  destruct (decide (l = [])) as [->|Hne]; [done|]. destruct (Nat.eqb_spec (length l) 0) as [?%nil_length_inv|_]; [done|].
  destruct Hrep as [[_ ?]|(g & Hr & ->)]; [done|].
  destruct (entries_ends t g Hr Hne) as (fs & i & e & rest & lo & hi & fs' & i' & e' & rest' & lo' & hi' & -> & Hat & _ & -> & Hat' & _ & _ & _ & He & He' & Hlast).
  pose proof (proj1 Hr) as Hh. rewrite (leaf_at_kvs _ _ _ _ _ _ _ _ _ Hh Hat), (leaf_at_kvs _ _ _ _ _ _ _ _ _ Hh Hat').
  destruct (Nat.eqb_spec (length (rest' ++ [e'])) 0) as [E|_]; [rewrite length_app in E; cbn in E; lia|]. rewrite Hlast.
  split; [by rewrite He|by rewrite He', last_snoc].
Qed.

Lemma ends_represents t l :
  1 <= min_keys → assert_capacities key_size val_size = true → represents t l →
  first_key_value t = Some (head l) ∧ last_key_value t = Some (last l) ∧
  (∃ t', pop_first key_size val_size t = Some (t', head l) ∧ represents t' (tail l)) ∧
  (∃ t', pop_last key_size val_size t = Some (t', last l) ∧ represents t' (removelast l)).
Proof using Type*.
  intros Hmin [_ Hci%Nat.leb_le]%andb_true_iff Hrep. destruct (end_entries t l Hrep) as [Hfirst Hlst].
  split; [done|]. split; [done|]. clear Hfirst Hlst. pose proof (represents_len _ _ _ _ Hrep) as Hlen. unfold pop_first, pop_last. rewrite Hlen.
  destruct (decide (l = [])) as [->|Hne]; [cbn; split; by exists t|].
  destruct (Nat.eqb_spec (length l) 0) as [?%nil_length_inv|_]; [done|].
  destruct Hrep as [[_ ?]|(g & Hr & ->)]; [done|].
  destruct (entries_ends t g Hr Hne) as (fs & i & e & rest & lo & hi & fs' & i' & e' & rest' & lo' & hi' & -> & Hat & Hht & -> & Hat' & Hht' & Hl & Hl' & He & He' & Hlast).
  rewrite (node_len_leaf _ _ _ (leaf_at_kvs _ _ _ _ _ _ _ _ _ (proj1 Hr) Hat')).
  destruct (Nat.eqb_spec (length (rest' ++ [e'])) 0) as [E|_]; [rewrite length_app in E; cbn in E; lia|]. split.
  - destruct (leaf_remove_at_ok _ _ t g fs i (e :: rest) lo hi 0 e Hmin Hci Hr Hat Hht eq_refl) as (t' & g' & -> & Hr' & Hg' & _).
    exists t'. rewrite He. split; [done|]. right. exists g'. split; [done|]. by rewrite Hg', Hl.
  - destruct (leaf_remove_at_ok _ _ t g fs' i' _ lo' hi' _ e' Hmin Hci Hr Hat' Hht' Hlast) as (t' & g' & -> & Hr' & Hg' & _).
    exists t'. rewrite He', last_snoc, List.removelast_last. split; [done|]. right. exists g'. split; [done|].
    assert (delete (length (rest' ++ [e']) - 1) (rest' ++ [e']) = rest') as Hd.
    { rewrite length_app. cbn [length]. rewrite Nat.add_sub, delete_at by done. apply app_nil_r. }
    by rewrite Hg', Hl', app_nil_r, Hd.
Qed.

(** The ends of the map.  [first_key_value] and [last_key_value] return the
    entries of least and greatest key, [pop_first] and [pop_last] remove them, past
    leaves that were left empty, and all return nothing on an empty map. *)
Theorem btree_ends_correct t l :
  1 <= min_keys → assert_capacities key_size val_size = true → represents t l →
  first_key_value t = Some (head l) ∧ last_key_value t = Some (last l) ∧
  (∃ t', pop_first key_size val_size t = Some (t', head l) ∧ represents t' (tail l)) ∧
  (∃ t', pop_last key_size val_size t = Some (t', last l) ∧ represents t' (removelast l)).
Proof using Type*. apply ends_represents. Qed.

(** ** Lookups *)

(** The other lookups.  [get_key_value], [contains_key] and indexing answer as
    the ordered map - indexing panics exactly on an absent key - and the place
    [get_mut] returns holds the value of the key. *)
Theorem btree_lookups_correct t l key :
  represents t l →
  get_key_value t key = Some (pair key <$> sm_lookup l key) ∧
  contains_key t key = Some (bool_decide (is_Some (sm_lookup l key))) ∧
  index t key = sm_lookup l key ∧
  match get_mut t key with
  | Some (Some (i, s)) => ∃ kvs v, leaf_kvs (arena t) i = Some kvs ∧ kvs !! s = Some (key, v) ∧ sm_lookup l key = Some v
  | Some None => sm_lookup l key = None
  | None => False
  end.
Proof using Type*.
  unfold get_key_value, contains_key, index, get_mut. intros [[He ->]|(g & Hr & ->)].
  { unfold get, search. by rewrite (proj1 He). }
  rewrite (tree_get_ok _ _ t g key Hr). destruct (search_ok _ _ t g key Hr) as ([[i s]|] & -> & Hres).
  - destruct Hres as (fs & kvs & lo & hi & v & Hat & Hv & Hl).
    rewrite (leaf_at_kvs _ _ _ _ _ _ _ _ _ (proj1 Hr) Hat), Hv, Hl. split_and!; [done..|by exists kvs, v].
  - cbn in Hres. by rewrite Hres.
Qed.

(** ** Entries *)

Section entries.
Context (t : RawBTree K V) (l : list (K * V)) (key : K).
Hypothesis Hcaps : assert_capacities key_size val_size = true.
Hypothesis Hrep : represents t l.
Hypothesis Hroom : room (height t + 2) (arena t).

(** What [entry] finds. *)
Definition entry_found (e : Entry K) : Prop :=
  match e with
  | Occupied key' (i, s) => key' = key ∧ ∃ kvs w, leaf_kvs (arena t) i = Some kvs ∧ kvs !! s = Some (key, w) ∧
      sm_lookup l key = Some w ∧ ∀ v, represents (set_leaf t i (<[s := (key, v)]> kvs)) (sm_insert l key v)
  | Vacant key' leaf_idx pos => key' = key ∧ sm_lookup l key = None ∧
      ∀ v, ∃ t' i s kvs, vacant_insert key_size val_size t key leaf_idx pos v = Some (t', (i, s)) ∧
        represents t' (sm_insert l key v) ∧ leaf_kvs (arena t') i = Some kvs ∧ kvs !! s = Some (key, v)
  end.

Lemma vacant_first_ok v :
  empty_tree t → ∃ t' i, vacant_insert key_size val_size t key None 0 v = Some (t', (i, 0)) ∧
    represents t' [(key, v)] ∧ leaf_kvs (arena t') i = Some [(key, v)].
Proof using Hcaps Hroom H0.
  intros He. pose proof Hcaps as [Hcl%Nat.leb_le _]%andb_true_iff.
  destruct (insert_first_ok _ _ t key v Hcl He) as (t' & i & Hins & Hr); [unfold room in *; lia|].
  pose proof (repr_chained _ _ _ _ Hr) as Hch. pose proof (ch_first _ _ Hch) as Hf.
  destruct (chain_here _ [] _ _ [] (ch_chain _ _ Hch)) as [Hk _]. cbn [tleaves fmap list_fmap head fst] in Hf.
  exists t', i. cbn [vacant_insert]. rewrite Hins, Hf, Hk. split_and!; [done| |done]. right. by eexists.
Qed.

Lemma entry_search_total g : repr t g → ∃ s, entry_search t key = Some s ∧ s ≠ EmptyTree.
Proof using Type*.
  intros Hr. unfold entry_search, search_for_insert_no_path. rewrite (h_root _ _ (proj1 Hr)).
  destruct (find_leaf _ _ t g (λ k, ltb key k) Hr) as (fs & i & kvs & lo & hi & Hd & Hat & _); [by split|].
  rewrite (Hd _ (linear_correct key)), !(leaf_at_kvs _ _ _ _ _ _ _ _ _ (proj1 Hr) Hat).
  eexists. split; [reflexivity|]. destruct (kvs !! _) as [[k w]|]; [|done]. by case_bool_decide.
Qed.

Lemma entry_found_ok (v0 : V) : ∃ e, entry t key = Some e ∧ entry_found e.
Proof using Type*.
  unfold entry. pose proof (λ v, entry_search_ok _ _ t l key v Hcaps Hrep Hroom) as He. destruct Hrep as [[Ht El]|(g & Hr & Hl)].
  - unfold entry_search. rewrite (proj1 Ht). eexists. split; [reflexivity|]. cbn. rewrite El. split_and!; [done..|]. intros v.
    destruct (vacant_first_ok v Ht) as (t' & i & ? & ? & ?). by exists t', i, 0, [(key, v)].
  - destruct (entry_search_total g Hr) as (s & Hs & Hne). rewrite Hs in He |- *.
    destruct s as [|i s|i pos]; [done|..]; eexists; (split; [reflexivity|]); (split; [done|]).
    + destruct (He v0) as (kvs & w & Hk & Hw & Hlk & _). exists kvs, w. split_and!; [done..|]. intros v.
      destruct (He v) as (kvs' & w' & Hk' & _ & _ & Hset). rewrite Hk in Hk'. by injection Hk' as <-.
    + destruct (He v0) as [Hlk _]. split; [done|]. intros v. apply (He v).
Qed.
End entries.

Lemma map_entry_represents t l key v f :
  assert_capacities key_size val_size = true → represents t l → room (height t + 2) (arena t) →
  (∃ e t' i s kvs, entry t key = Some e ∧ entry_key e = key ∧ or_insert key_size val_size t e v = Some (t', (i, s)) ∧
     represents t' (match sm_lookup l key with Some _ => l | None => sm_insert l key v end) ∧
     leaf_kvs (arena t') i = Some kvs ∧ kvs !! s = Some (key, default v (sm_lookup l key))) ∧
  (∃ e t' e', entry t key = Some e ∧ and_modify t e f = Some (t', e') ∧
     represents t' (match sm_lookup l key with Some w => sm_insert l key (f w) | None => l end)) ∧
  (∃ t', try_insert key_size val_size t key v =
       Some (t', match sm_lookup l key with Some _ => Some (key, v) | None => None end) ∧
     represents t' (match sm_lookup l key with Some _ => l | None => sm_insert l key v end)).
Proof using Type*.
  intros Hc Hrep Hroom. destruct (entry_found_ok t l key Hc Hrep Hroom v) as (e & He & Hf).
  unfold try_insert. rewrite He. destruct e as [key' [i s]|key' leaf_idx pos]; destruct Hf as (-> & Hf).
  - destruct Hf as (kvs & w & Hk & Hw & -> & Hset). split_and!.
    + exists (Occupied key (i, s)), t, i, s, kvs. by split_and!.
    + exists (Occupied key (i, s)). cbn [and_modify]. unfold write_at. rewrite Hk, Hw. eexists _, _.
      split; [done|]. split; [reflexivity|]. apply (Hset (f w)).
    + exists t. by split.
  - destruct Hf as (-> & Hins). destruct (Hins v) as (t' & i & s & kvs & Hv & Hr' & Hk & Hs). split_and!.
    + exists (Vacant key leaf_idx pos), t', i, s, kvs. by split_and!.
    + exists (Vacant key leaf_idx pos), t, (Vacant key leaf_idx pos). by split_and!.
    + exists t'. by rewrite Hv.
Qed.

(** Entries of the map.  [entry] and [or_insert] leave a present key alone and
    insert an absent one, after any splits; [and_modify] changes the value of a
    present key only; each returned place holds the value of the key; [try_insert]
    gives key and value back when the key is there. *)
Theorem btree_map_entry_correct t l key v f :
  assert_capacities key_size val_size = true → represents t l → room (height t + 2) (arena t) →
  (∃ e t' i s kvs, entry t key = Some e ∧ entry_key e = key ∧ or_insert key_size val_size t e v = Some (t', (i, s)) ∧
     represents t' (match sm_lookup l key with Some _ => l | None => sm_insert l key v end) ∧
     leaf_kvs (arena t') i = Some kvs ∧ kvs !! s = Some (key, default v (sm_lookup l key))) ∧
  (∃ e t' e', entry t key = Some e ∧ and_modify t e f = Some (t', e') ∧
     represents t' (match sm_lookup l key with Some w => sm_insert l key (f w) | None => l end)) ∧
  (∃ t', try_insert key_size val_size t key v =
       Some (t', match sm_lookup l key with Some _ => Some (key, v) | None => None end) ∧
     represents t' (match sm_lookup l key with Some _ => l | None => sm_insert l key v end)).
Proof using Type*. apply map_entry_represents. Qed.
End ends.

(** ** The B+ tree map: [retain] *)

(** The closure sees every entry once, in key order; leaves may be left empty, and
    a map left without entries is cleared. *)

Section retain.
Context {K V St : Type} (f : St → K → V → St * V * bool).
Implicit Types (l kvs : list (K * V)) (s : St).

(** What the closure makes of a list: its state, the entries kept, with the values
    it gives them, and the entries dropped. *)
Fixpoint retain_list s l : St * list (K * V) * list (K * V) :=
  match l with
  | [] => (s, [], [])
  | (k, v) :: l' =>
      let '(s, v, keep) := f s k v in
      let '(s, kept, dropped) := retain_list s l' in
      if keep : bool then (s, (k, v) :: kept, dropped) else (s, kept, (k, v) :: dropped)
  end.

Lemma retain_leaf_ok fuel s pre l :
  length l <= fuel →
  retain_leaf f fuel s (pre ++ l) (length pre) =
    Some (let '(s, kept, dropped) := retain_list s l in (s, pre ++ kept, dropped)).
Proof.
  revert s pre l. induction fuel as [|fuel IH]; intros s pre l Hf.
  { destruct l; [|cbn in Hf; lia]. cbn. rewrite app_nil_r. by rewrite lookup_ge_None_2 by lia. }
  destruct l as [|[k v] l]; cbn [retain_leaf retain_list].
  { rewrite app_nil_r. by rewrite lookup_ge_None_2 by lia. }
  rewrite list_lookup_middle by done. destruct (f s k v) as [[s1 v1] keep]. destruct keep.
  - assert (<[length pre:=(k, v1)]> (pre ++ (k, v) :: l) = pre ++ (k, v1) :: l) as -> by (by rewrite insert_app_r_alt, Nat.sub_diag by done).
    specialize (IH s1 (pre ++ [(k, v1)]) l). rewrite length_app, <- app_assoc in IH. cbn in IH. rewrite IH by (cbn in Hf; lia).
    destruct (retain_list s1 l) as [[s2 kept] dropped]. by rewrite <- app_assoc.
  - rewrite delete_middle. rewrite IH by (cbn in Hf; lia). by destruct (retain_list s1 l) as [[s2 kept] dropped].
Qed.

Lemma retain_list_app s l1 l2 :
  retain_list s (l1 ++ l2) =
    let '(s, kept1, dropped1) := retain_list s l1 in
    let '(s, kept2, dropped2) := retain_list s l2 in (s, kept1 ++ kept2, dropped1 ++ dropped2).
Proof.
  revert s. induction l1 as [|[k v] l1 IH]; intros s; cbn; [by destruct (retain_list s l2) as [[? ?] ?]|].
  destruct (f s k v) as [[s1 v1] keep]. rewrite IH. destruct (retain_list s1 l1) as [[s2 kept1] dropped1].
  destruct keep; by destruct (retain_list s2 l2) as [[s3 kept2] dropped2].
Qed.

Lemma retain_list_spec s l s' kept dropped :
  retain_list s l = (s', kept, dropped) →
  kept.*1 `sublist_of` l.*1 ∧ length kept + length dropped = length l.
Proof.
  revert s s' kept dropped. induction l as [|[k v] l IH]; intros s s' kept dropped; cbn; [by intros [= <- <- <-]|].
  destruct (f s k v) as [[s1 v1] keep]. destruct (retain_list s1 l) as [[s2 kept1] dropped1] eqn:E.
  destruct (IH _ _ _ _ E) as [Hsub Hlen].
  destruct keep; intros [= <- <- <-]; cbn; (split; [by constructor|lia]).
Qed.
End retain.

Section tree.
Context {K V St : Type} `{OrdLaws K} {MK : MinKeys} (key_size val_size : nat) (f : St → K → V → St * V * bool).
Abbreviation repr := (repr key_size val_size).
Abbreviation represents := (represents key_size val_size).
Implicit Types (t : RawBTree K V) (l : list (K * V)) (s : St).

Lemma retain_leaves_ok fuel s t g L1 L2 :
  repr t g → tleaves g = L1 ++ L2 → length L2 <= fuel →
  ∃ t' g' L2', retain_leaves f fuel s t (head L2.*1) =
      Some (let '(s, _, dropped) := retain_list f s (contents L2) in (s, t', dropped)) ∧
    repr t' g' ∧ tleaves g' = L1 ++ L2' ∧ contents L2' = (retain_list f s (contents L2)).1.2.
Proof using Type*.
  revert s t g L1 L2. induction fuel as [|fuel IH]; intros s t g L1 L2 Hr HL Hf.
  { destruct L2; [|cbn in Hf; lia]. by exists t, g, []. }
  destruct L2 as [|[i kvs] L2]; [by exists t, g, []|]. cbn [retain_leaves fmap list_fmap head fst].
  pose proof (repr_chained _ _ _ _ Hr) as Ht. pose proof (ch_chain _ _ Ht) as Hc. rewrite HL in Hc.
  destruct (chain_here _ _ _ _ _ Hc) as [Hk Hl]. rewrite Hl, Hk.
  pose proof (retain_leaf_ok f (length kvs) s [] kvs (le_n _)) as Hleaf. cbn [app length] in Hleaf. rewrite Hleaf. clear Hleaf.
  cbn [contents List.flat_map snd]. fold (contents L2). rewrite (retain_list_app f s kvs (contents L2)).
  destruct (retain_list f s kvs) as [[s1 kept] dropped] eqn:E1. cbn [app].
  destruct (retain_list_spec _ _ _ _ _ _ E1) as [Hsub Hlen].
  assert (len t = length (contents L1) + (length kvs + length (contents L2))) as Hlt.
  { by rewrite (ch_len _ _ Ht), HL, contents_app, contents_cons, !length_app. }
  destruct (Nat.ltb_spec (len t) (length dropped)) as [?|_]; [lia|].
  destruct (fewer_keys_ok _ _ t g L1 i kvs kept L2 (len t - length dropped) Hr HL Hsub) as (g1 & Hr1 & HL1).
  { rewrite contents_app, contents_cons, !length_app. lia. }
  rewrite cons_middle, app_assoc in HL1.
  destruct (IH s1 _ _ _ _ Hr1 HL1) as (t' & g' & L2' & Hret & Hr' & HL' & Hc'); [cbn in Hf; lia|].
  unfold set_leaf in Hret. rewrite Hret.
  destruct (retain_list f s1 (contents L2)) as [[s2 kept2] dropped2]. cbn in Hc'.
  exists t', g', ((i, kept) :: L2'). split_and!; [done..|by rewrite HL', <- app_assoc|]. by rewrite contents_cons, Hc'.
Qed.

Lemma retain_represents t l s :
  represents t l →
  let '(s', kept, dropped) := retain_list f s l in
  ∃ t' d, retain t s f = Some (s', t', dropped, d) ∧ represents t' kept ∧ dropped_entries d = [].
Proof using Type*.
  intros Hrep. destruct (retain_list f s l) as [[s' kept] dropped] eqn:E. unfold retain.
  assert (∃ t1, retain_leaves f (walk_fuel t) s t (first_leaf t) = Some (s', t1, dropped) ∧ represents t1 kept) as (t1 & -> & Hr1).
  { destruct Hrep as [[He ->]|(g & Hr & ->)].
    - injection E as <- <- <-. exists t. destruct He as (? & Hf & ?). rewrite Hf. split; [done|]. left. by split.
    - pose proof (repr_chained _ _ _ _ Hr) as Ht. rewrite (ch_first _ _ Ht).
      destruct (retain_leaves_ok (walk_fuel t) s t g [] (tleaves g) Hr eq_refl) as (t' & g' & L' & Hret & Hr' & HL' & Hc').
      { pose proof (ch_fuel _ _ Ht). unfold walk_fuel. lia. }
      unfold contents in Hret, Hc'. rewrite <- entries_tleaves, E in Hret, Hc'. exists t'. split; [done|].
      right. exists g'. split; [done|]. rewrite entries_tleaves, HL'. symmetry. exact Hc'. }
  destruct (Nat.eqb_spec (len t1) 0) as [Hz|_]; [|by exists t1, no_drops].
  destruct (btree_clear_ok _ _ _ _ Hr1) as (ks & _ & ->). rewrite (represents_len _ _ _ _ Hr1) in Hz.
  apply nil_length_inv in Hz as ->. eexists _, _. split_and!; [reflexivity|by eapply cleared_empty|done].
Qed.

(** [retain] calls the closure on every entry once, in key order, and leaves it
    in the state of that walk; the map keeps the accepted entries with the values
    the closure gave them; the others are dropped once; a map that becomes empty is
    cleared and drops the keys of its internal nodes. *)
Theorem btree_retain_correct t l s :
  represents t l →
  let '(s', kept, dropped) := retain_list f s l in
  ∃ t' d, retain t s f = Some (s', t', dropped, d) ∧ represents t' kept ∧ dropped_entries d = [].
Proof using Type*. apply retain_represents. Qed.
End tree.
