(* ===== verification/BTreeClone.v ===== *)
(** * The B+ tree engine: cloning and reserving

    [clone_tree] copies the arena bit by bit and then writes the clone of each key
    and value over its copy; [reserve] grows the arena. *)

From Stdlib Require Import ZArith Lia.
From stdpp Require Import fin_maps.
From S2P Require Import Prelude BTree BTreeInv BTreeShape BTreeRep SortedAssoc BTreeSearch BTreeLeaf BTreeInsert BTreeBulk BTreeIter BTreeDrain BTreeMap BTreeEnds.

Section clone.
Context {K V : Type} (clone_key : K → K) (clone_val : V → V).
Implicit Types (a src : Arena K V) (t : RawBTree K V).

(** The pointer of an arena is null as long as it has no capacity. *)
(*@ flat_btree/raw.rs : pub fn clone_arena *)
Definition clone_arena a : Arena K V := if (arena_cap a =? 0)%Z then arena_new else a.

(** The loop of [clone_tree] over the leaves. *)
(*@ flat_btree/raw.rs : 2168-2189 : clone_tree (leaves) *)
Fixpoint clone_leaves (fuel : nat) src a (leaf_idx : option nat) : option (Arena K V) :=
  match leaf_idx, fuel with
  | None, _ => Some a
  | _, 0 => None
  | Some i, S fuel' =>
      do kvs <- leaf_kvs src i;
      do ' (_, next) <- links src !! i;
      do _ <- bodies a !! i;
      clone_leaves fuel' src (set_body a i (LeafBody (prod_map clone_key clone_val <$> kvs))) next
  end.

(** The children of the copy are the copied ones; [fuel]: the number of levels. *)
(*@ flat_btree/raw.rs : fn clone_internal_keys *)
Fixpoint clone_internal_keys (fuel : nat) src a (node_idx : nat) : option (Arena K V) :=
  match fuel with
  | 0 => None
  | S fuel' =>
      do b <- bodies src !! node_idx;
      match b with
      | LeafBody _ => Some a
      | InternalBody keys children =>
          do ' (_, children') <- internal_node a node_idx;
          let a := set_body a node_idx (InternalBody (clone_key <$> keys) children') in
          (fix go (slots : list nat) a : option (Arena K V) :=
             match slots with
             | [] => Some a
             | i :: slots' =>
                 do child <- children !! i;
                 do a <- clone_internal_keys fuel' src a child;
                 go slots' a
             end) (seq 0 (S (length keys))) a
      end
  end.

(*@ flat_btree/raw.rs : pub fn clone_tree *)
Definition clone_tree t : option (RawBTree K V) :=
  match root t with
  | None => Some tree_new
  | Some r =>
      let new_arena := clone_arena (arena t) in
      do a <- clone_leaves (walk_fuel t) (arena t) new_arena (first_leaf t);
      do a <- clone_internal_keys (S (height t)) (arena t) a r;
      Some {| arena := a; root := root t; first_leaf := first_leaf t; last_leaf := last_leaf t;
              len := len t; height := height t; dropped_seps := [] |}
  end.
End clone.

Section reserve.
Context {K V : Type} (key_size val_size : nat).
Implicit Types (a : Arena K V) (t : RawBTree K V).

(** [fuel]: the doublings left; 33 of them exceed 32 bits. *)
(*@ flat_btree/raw.rs : pub fn ensure_capacity *)
Fixpoint ensure_capacity (fuel : nat) a (min_cap : Z) : option (Arena K V) :=
  if (min_cap <=? arena_cap a)%Z then Some a
  else match fuel with
       | 0 => None
       | S fuel' => do a <- arena_grow a; ensure_capacity fuel' a min_cap
       end.

(** The target must fit in 32 bits. *)
(*@ flat_btree/map.rs : pub fn reserve(&mut self, additional: usize) *)
Definition reserve t (additional : nat) : option (RawBTree K V) :=
  let leaf_cap := Nat.max (LEAF_CAP key_size val_size) 1 in
  let needed_leaves := (Z.of_nat ((additional + leaf_cap - 1) / leaf_cap) mod u32_limit)%Z in
  let target := (Z.of_nat (arena_len (arena t)) + needed_leaves + needed_leaves / 4)%Z in
  if (u32_limit <=? target)%Z then None
  else do a <- ensure_capacity 33 (arena t) target; Some (with_arena t a).
End reserve.

Section properties.
Context {K V : Type} `{OrdLaws K} {MK : MinKeys} (key_size val_size : nat).
Abbreviation repr := (repr key_size val_size).
Abbreviation represents := (represents key_size val_size).
Implicit Types (a src : Arena K V) (t : RawBTree K V) (l : list (K * V)) (L : list (nat * list (K * V))).

(** ** Cloning *)

Section values.
Context (clone_key : K → K) (clone_val : V → V) (Hkey : ∀ k, clone_key k = k).

Abbreviation keep_clone := (λ (s : unit) (_ : K) v, (s, clone_val v, true)).
Abbreviation cloned := (map_values (λ _, clone_val)).

Lemma retain_clone l : retain_list keep_clone () l = ((), cloned l, []).
Proof using Type. induction l as [|[k v] l IH]; [done|]. cbn [retain_list]. by rewrite IH. Qed.

Lemma fmap_clone l : prod_map clone_key clone_val <$> l = cloned l.
Proof using Hkey. induction l as [|[k v] l IH]; [done|]. cbn. by rewrite Hkey, IH. Qed.

(** The loop over the leaves does what [retain] with the cloning closure does. *)
Lemma clone_leaves_retain fuel src t L1 L2 :
  leaf_chain src (L1 ++ L2) → NoDup L2.*1 → links (arena t) = links src →
  Forall (λ e, leaf_kvs (arena t) e.1 = Some e.2) L2 → length L2 <= fuel →
  ∃ a, clone_leaves clone_key clone_val fuel src (arena t) (head L2.*1) = Some a ∧
    retain_leaves keep_clone fuel () t (head L2.*1) = Some ((), with_arena t a, []) ∧
    ∀ i ks cs, bodies (arena t) !! i = Some (InternalBody ks cs) → bodies a !! i = Some (InternalBody ks cs).
Proof using Hkey.
  revert t L1 L2. induction fuel as [|fuel IH]; intros t L1 L2 Hc Hn Hl Hk Hf.
  { destruct L2; [|cbn in Hf; lia]. exists (arena t). split_and!; [done|by destruct t|done]. }
  destruct L2 as [|[i kvs] L2]; [exists (arena t); split_and!; [done|by destruct t|done]|].
  cbn [fmap list_fmap head fst clone_leaves retain_leaves].
  destruct (chain_here _ _ _ _ _ Hc) as [Hs Hi]. rewrite Hs, Hl, Hi.
  apply Forall_cons in Hk as [Hk Hks]. cbn [fst snd] in Hk. rewrite Hk.
  assert (bodies (arena t) !! i = Some (LeafBody kvs)) as Hb.
  { unfold leaf_kvs in Hk. destruct (bodies (arena t) !! i) as [[]|]; naive_solver. }
  pose proof (retain_leaf_ok keep_clone (length kvs) () [] kvs (le_n _)) as Hleaf. cbn [app length] in Hleaf.
  cbn [mbind option_bind]. rewrite Hb, Hleaf, retain_clone, fmap_clone. cbn [mbind option_bind length Nat.ltb Nat.leb app].
  rewrite Nat.sub_0_r. set (t1 := with_len _ (len t)).
  cbn [fmap list_fmap fst] in Hn. apply NoDup_cons in Hn as [Hi2 Hn].
  destruct (IH t1 (L1 ++ [(i, kvs)]) L2) as (a & Hca & Hra & Hin); [by rewrite <- app_assoc|done|done| |cbn in Hf; lia|].
  - rewrite Forall_forall in Hks |- *. intros e He. unfold t1. cbn [arena with_len with_arena].
    rewrite leaf_kvs_set, decide_False; [by apply Hks|]. intros ->. apply Hi2. by apply list_elem_of_fmap_2.
  - exists a. split; [exact Hca|]. rewrite Hra. split; [done|]. intros j ks cs Hj. apply Hin.
    unfold t1. cbn. rewrite lookup_insert_ne; [done|]. intros ->. by rewrite Hb in Hj.
Qed.

(** Writing keys that are equal changes nothing. *)
Lemma clone_internal_keys_ok src a n g fuel :
  skeleton src n g → n < fuel →
  (∀ i ks cs, bodies src !! i = Some (InternalBody ks cs) → bodies a !! i = Some (InternalBody ks cs)) →
  clone_internal_keys clone_key fuel src a (tid g) = Some a.
Proof using Hkey.
  intros Hs Hf Hin. revert n fuel Hs Hf.
  induction g as [i kvs|i ks cs IH] using tree_ind_strong; intros n fuel Hs Hf; (destruct fuel as [|fuel]; [lia|]).
  - cbn in *. destruct Hs as [x Hx]. unfold leaf_kvs in Hx. by destruct (bodies src !! i) as [[]|].
  - destruct n as [|n]; [done|]. destruct Hs as (Hb & Hlen & Hcs).
    cbn [clone_internal_keys tid]. rewrite Hb. cbn [mbind option_bind]. unfold internal_node. rewrite (Hin _ _ _ Hb).
    cbn [mbind option_bind].
    assert (set_body a i (InternalBody (clone_key <$> ks) (List.map tid cs)) = a) as ->.
    { rewrite (list_fmap_ext clone_key id ks) by (intros; apply Hkey). rewrite list_fmap_id.
      unfold set_body, arena_with. rewrite insert_id by (by apply Hin). by destruct a. }
    rewrite <- Hlen. clear Hb Hlen. change (List.map tid cs) with (List.map tid ([] ++ cs)).
    change (seq 0 (length cs)) with (seq (length (@nil (tree K V))) (length cs)). generalize (@nil (tree K V)) as pre.
    induction IH as [|c cs Hc _ IH']; intros pre; [done|]. cbn in Hcs. apply Forall_cons in Hcs as [Hc' Hcs].
    cbn [length seq]. rewrite List.map_app. cbn [List.map].
    rewrite lookup_app_r by (by rewrite length_map). rewrite length_map, Nat.sub_diag. cbn [lookup list_lookup mbind option_bind].
    rewrite (Hc n) by (done || lia). cbn [mbind option_bind].
    specialize (IH' Hcs (pre ++ [c])). rewrite <- app_assoc, length_app, Nat.add_1_r in IH'.
    rewrite <- IH'. by rewrite !List.map_app.
Qed.

(** Cloning.  The clone of a map holds the clone of each value under the same key,
    in a well-formed tree of its own; a [Clone] of keys must give equal keys, as
    an ordered map needs. *)
Theorem btree_clone_correct t l :
  represents t l → ∃ t', clone_tree clone_key clone_val t = Some t' ∧ represents t' (map_values (λ _, clone_val) l).
Proof using Type* Hkey.
  intros [[He ->]|(g & Hr & ->)].
  { exists tree_new. unfold clone_tree. rewrite (proj1 He). split; [done|apply tree_new_represents]. }
  pose proof (repr_chained _ _ _ _ Hr) as Ht. pose proof Hr as [Hh _].
  unfold clone_tree. rewrite (h_root _ _ Hh).
  assert (clone_arena (arena t) = arena t) as ->.
  { unfold clone_arena. destruct (Z.eqb_spec (arena_cap (arena t)) 0) as [Hz|]; [|done].
    destruct (as_arena _ _ _ _ _ (h_state _ _ Hh)) as (_ & Hlt & Hle).
    rewrite Forall_app in Hlt. destruct Hlt as [Hlt _]. destruct g; cbn in Hlt; apply Forall_cons in Hlt as [? _]; lia. }
  rewrite (ch_first _ _ Ht).
  destruct (clone_leaves_retain (walk_fuel t) (arena t) t [] (tleaves g)) as (a & Ha & Hret & Hin);
    [apply (ch_chain _ _ Ht)|apply (ch_nodup _ _ Ht)|done|apply (ch_chain _ _ Ht)|pose proof (ch_fuel _ _ Ht); unfold walk_fuel; lia|].
  rewrite Ha. cbn [mbind option_bind].
  destruct (repr_emptying key_size val_size _ _ Hr) as (_ & Hsk & _).
  rewrite (clone_internal_keys_ok _ _ _ _ _ Hsk) by (lia || done). cbn [mbind option_bind]. eexists. split; [reflexivity|].
  destruct (retain_leaves_ok key_size val_size keep_clone (walk_fuel t) () t g [] (tleaves g) Hr eq_refl) as (t' & g' & L' & Hret' & Hr' & HL' & Hc').
  { pose proof (ch_fuel _ _ Ht). unfold walk_fuel. lia. }
  rewrite Hret, retain_clone in Hret'. injection Hret' as <-.
  right. exists g'. split.
  - unfold with_arena in Hr'. rewrite (h_root _ _ Hh), (ch_first _ _ Ht) in Hr'. destruct Hr' as [[] ?]. by split.
  - rewrite retain_clone in Hc'. cbn in Hc', HL'. rewrite !entries_tleaves, HL'. unfold contents in Hc'. by rewrite <- Hc'.
Qed.
End values.

(** ** Reserving *)

Lemma arena_ok_cap a I c :
  arena_ok a I → (arena_cap a <= c)%Z →
  arena_ok {| bodies := bodies a; parents := parents a; links := links a; arena_cap := c; arena_len := arena_len a; free_list := free_list a |} I.
Proof using Type. intros (? & ? & ?) ?. split_and!; cbn; [done..|lia]. Qed.

Lemma astate_cap a I B P Q c :
  astate a I B P Q → (arena_cap a <= c)%Z →
  astate {| bodies := bodies a; parents := parents a; links := links a; arena_cap := c; arena_len := arena_len a; free_list := free_list a |} I B P Q.
Proof using Type. intros [? ? ? ?] ?. split; cbn; [done..|by apply arena_ok_cap]. Qed.

Lemma ensure_capacity_cap fuel a min_cap :
  (0 <= arena_cap a)%Z → (min_cap <= 2 ^ 31)%Z → (2 * min_cap <= 2 ^ Z.of_nat fuel * Z.max (arena_cap a) 1)%Z →
  ∃ c, ensure_capacity fuel a min_cap =
      Some {| bodies := bodies a; parents := parents a; links := links a; arena_cap := c; arena_len := arena_len a; free_list := free_list a |} ∧
    (arena_cap a <= c)%Z ∧ (min_cap <= c)%Z.
Proof using Type.
  revert a. induction fuel as [|fuel IH]; intros a Hc0 H1 H3; cbn [ensure_capacity];
    (destruct (Z.leb_spec min_cap (arena_cap a)); [by exists (arena_cap a); destruct a|]).
  - change (2 ^ Z.of_nat 0)%Z with 1%Z in H3. lia.
  - rewrite Nat2Z.inj_succ, Z.pow_succ_r in H3 by lia. assert (0 < 2 ^ Z.of_nat fuel)%Z by (apply Z.pow_pos_nonneg; lia).
    unfold arena_grow, u32_limit. set (c := if (arena_cap a =? 0)%Z then INITIAL_CAP else (arena_cap a * 2)%Z).
    assert (c = 4 ∧ arena_cap a = 0 ∨ c = 2 * arena_cap a ∧ 0 < arena_cap a)%Z as Hc.
    { unfold c, INITIAL_CAP. destruct (Z.eqb_spec (arena_cap a) 0); lia. }
    destruct (Z.leb_spec (2 ^ 32) c) as [?|_]; [lia|]. cbn [mbind option_bind].
    match goal with |- context [ensure_capacity fuel ?a' _] => destruct (IH a') as (c' & Hrun & Hle & Hm) end; cbn [arena_cap].
    + lia.
    + done.
    + destruct Hc as [[-> Hz]|[-> Hz]]; [rewrite Hz in H3; cbn in H3; lia|]. nia.
    + exists c'. cbn in Hrun, Hle. rewrite Hrun. split_and!; [done|lia|done].
Qed.

(** Reserving.  A reservation whose target of nodes fits in 31 bits leaves the map
    as it is and the arena with room for the target. *)
Theorem btree_reserve_correct t l additional :
  represents t l → (Z.of_nat (arena_len (arena t)) + 2 * (Z.of_nat additional + 1) <= 2 ^ 31)%Z →
  ∃ t', reserve key_size val_size t additional = Some t' ∧ represents t' l ∧
    (Z.of_nat (arena_len (arena t) + additional / Nat.max (LEAF_CAP key_size val_size) 1) <= arena_cap (arena t'))%Z.
Proof using Type*.
  intros Hr Hb. unfold reserve. set (cap := Nat.max _ 1). assert (1 <= cap) as Hcap by (unfold cap; lia). clearbody cap.
  set (leaves := (additional + cap - 1) / cap).
  assert (additional / cap <= leaves <= additional + 1) as [Hl1 Hl2].
  { unfold leaves. split; [apply Nat.Div0.div_le_mono; lia|]. apply Nat.Div0.div_le_upper_bound. nia. }
  assert (0 <= arena_cap (arena t) ∧ Z.of_nat (arena_len (arena t)) <= arena_cap (arena t))%Z as [Hc0 Hc1].
  { assert (Z.of_nat (arena_len (arena t)) <= arena_cap (arena t))%Z; [|lia].
    destruct Hr as [[(_ & _ & _ & _ & _ & (_ & _ & ?)) _]|(g & [Hh _] & _)]; [done|].
    by destruct (as_arena _ _ _ _ _ (h_state _ _ Hh)) as (_ & _ & ?). }
  unfold u32_limit. rewrite Z.mod_small by lia.
  pose proof (Z.div_le_upper_bound (Z.of_nat leaves) 4 (Z.of_nat leaves) ltac:(lia) ltac:(lia)).
  assert (0 <= Z.of_nat leaves / 4)%Z by (apply Z.div_pos; lia).
  set (target := (_ + _ + _)%Z). assert (target <= 2 ^ 31)%Z as Ht by (unfold target; lia).
  destruct (Z.leb_spec (2 ^ 32) target) as [?|_]; [lia|].
  destruct (ensure_capacity_cap 33 (arena t) target Hc0 Ht) as (c & -> & Hle & Hm); [change (Z.of_nat 33) with 33%Z; lia|].
  cbn [mbind option_bind]. eexists. split; [reflexivity|]. split; [|cbn; unfold target in Hm; lia].
  destruct Hr as [[(?&?&?&?&?&?) ->]|(g & [[? ? ? ? ?] ?] & ->)]; [left|right; exists g]; (split; [|done]).
  - split_and!; cbn; [done..|by apply arena_ok_cap].
  - split; [|done]. split; cbn; [by apply astate_cap|done..].
Qed.
End properties.
