(* ===== verification/BTreeCollect.v ===== *)
(** * The B+ tree map: collecting and merging

    Sorting and removing duplicates, or merging two sorted sequences, gives the
    ordered map that inserting the pairs one by one gives. *)

From Stdlib Require Import ZArith Lia.
From stdpp Require Import list_tactics sorting.
From S2P Require Import Prelude BinSearch BTree BTreeInv BTreeShape BTreeRep SortedAssoc BTreeSearch BTreeInsert BTreeBulk BTreeSpec BTreeIter BTreeDrain BTreeMap.

(** ** Lists of pairs as maps, the last value of a key winning *)

Section pairs.
Context {K V : Type} `{OrdLaws K}.
Implicit Types (l : list (K * V)) (key : K).

Definition insert_pairs l (pairs : list (K * V)) : list (K * V) := foldl (λ l e, sm_insert l e.1 e.2) l pairs.

(** The values given to a key, in order. *)
Definition values_of key (pairs : list (K * V)) : list V :=
  omap (λ e, match cmp key e.1 with Eq => Some e.2 | _ => None end) pairs.

Lemma values_of_cons key e pairs :
  values_of key (e :: pairs) = match cmp key e.1 with Eq => e.2 :: values_of key pairs | _ => values_of key pairs end.
Proof using Type. unfold values_of. cbn. by destruct (cmp key e.1). Qed.

Lemma insert_pairs_sorted l pairs : sorted_map l → sorted_map (insert_pairs l pairs).
Proof using Type*.
  revert l. induction pairs as [|e pairs IH]; intros l Hs; [done|]. cbn. by apply IH, sm_insert_sorted.
Qed.

Lemma lookup_insert_pairs l pairs key :
  sorted_map l →
  sm_lookup (insert_pairs l pairs) key =
    match last (values_of key pairs) with Some v => Some v | None => sm_lookup l key end.
Proof using Type*.
  revert l. induction pairs as [|[k v] pairs IH]; intros l Hs; [done|]. cbn [insert_pairs foldl].
  rewrite IH by by apply sm_insert_sorted. cbn [fst snd]. rewrite sm_lookup_insert by done.
  rewrite values_of_cons. cbn [fst snd]. destruct (cmp key k) eqn:E.
  - rewrite bool_decide_eq_true_2 by done. rewrite last_cons. by destruct (last _).
  - by rewrite bool_decide_eq_false_2.
  - by rewrite bool_decide_eq_false_2.
Qed.

Lemma values_above key l : all_above key l → values_of key l = [].
Proof using Type*.
  induction l as [|[k v] l IH]; [done|]. rewrite all_above_cons. intros [Hk Hl]. rewrite values_of_cons, (Hk : cmp key (k, v).1 = Lt). apply IH. exact Hl.
Qed.

Lemma last_values_sorted key l : sorted_map l → last (values_of key l) = sm_lookup l key.
Proof using Type*.
  unfold sorted_map. induction l as [|[k v] l IH]; intros Hs; [done|]. rewrite fmap_cons in Hs. cbn in Hs.
  inversion Hs as [|? ? Hs' Hall]; subst. rewrite values_of_cons. cbn. destruct (cmp key k) eqn:E; [|by apply IH..].
  apply cmp_eq in E as ->. rewrite values_above; [done|]. exact Hall.
Qed.

(** ** The stable sort *)

Definition weakly_sorted l : Prop := StronglySorted (λ x y, kle x.1 y.1) l.

Lemma sort_insert_sorted e l : weakly_sorted l → weakly_sorted (sort_insert e l).
Proof using Type*.
  induction 1 as [|x l Hs IH Hall]; cbn; [repeat constructor|]. destruct (leb e.1 x.1) eqn:E.
  - apply leb_le in E. constructor; [by constructor|]. constructor; [done|].
    apply (Forall_impl _ _ _ Hall). intros y Hy. by transitivity x.1.
  - constructor; [done|]. assert (kle x.1 e.1) as Hle.
    { apply klt_kle, not_kle. intros ?%leb_le. congruence. }
    clear IH Hs. induction l as [|y l IH]; cbn; [by constructor|]. apply Forall_cons in Hall as [Hy Hall].
    destruct (leb e.1 y.1); repeat (constructor; try done). by apply IH.
Qed.

Lemma sort_sorted l : weakly_sorted (sort_by_key l).
Proof using Type*. induction l as [|e l IH]; [constructor|]. by apply sort_insert_sorted. Qed.

Lemma sort_insert_values e key l : values_of key (sort_insert e l) = values_of key (e :: l).
Proof using Type*.
  induction l as [|x l IH]; [done|]. cbn [sort_insert]. destruct (leb e.1 x.1) eqn:E; [done|].
  rewrite !values_of_cons, IH, values_of_cons. destruct (cmp key e.1) eqn:Ee; [|done..]. apply cmp_eq in Ee as ->. destruct (cmp e.1 x.1) eqn:Ex; [|done..].
  unfold leb in E. by rewrite Ex in E.
Qed.

Lemma sort_values key l : values_of key (sort_by_key l) = values_of key l.
Proof using Type*.
  induction l as [|e l IH]; [done|]. cbn [sort_by_key foldr]. fold (sort_by_key l). by rewrite sort_insert_values, !values_of_cons, IH.
Qed.

(** ** Removing duplicates *)

Lemma dedup_from_sorted e l :
  weakly_sorted (e :: l) → sorted_map (dedup_from e l) ∧ Forall (λ k, kle e.1 k) (dedup_from e l).*1.
Proof using Type*.
  revert e. induction l as [|[k v] l IH]; intros e Hs; cbn [dedup_from].
  - split; [repeat constructor|]. repeat constructor. apply kle_refl.
  - inversion Hs as [|? ? Hs' Hall]; subst. inversion Hs' as [|? ? Hs2 Hall2]; subst.
    apply Forall_cons in Hall as [Hk Hall]. case_bool_decide as E.
    + by apply (IH (e.1, v)); constructor.
    + destruct (IH (k, v) Hs') as [Hsm Hle]. cbn in Hk, Hle. assert (klt e.1 k) as Hlt.
      { destruct (cmp e.1 k) eqn:Ek; [done|done|]. by destruct (Hk Ek). }
      split.
      * unfold sorted_map, sorted_keys in *. rewrite fmap_cons. constructor; [done|].
        apply (Forall_impl _ _ _ Hle). intros x Hx. by apply (klt_kle_trans _ k).
      * rewrite fmap_cons. constructor; [apply kle_refl|]. apply (Forall_impl _ _ _ Hle). intros x Hx. by transitivity k.
Qed.

Lemma dedup_from_values key e l :
  weakly_sorted (e :: l) → sm_lookup (dedup_from e l) key = last (values_of key (e :: l)).
Proof using Type*.
  revert e. induction l as [|[k v] l IH]; intros [k0 v0] Hs; cbn [dedup_from fst].
  - rewrite values_of_cons. cbn. by destruct (cmp key k0).
  - inversion Hs as [|? ? Hs' Hall]; subst. inversion Hs' as [|? ? Hs2 Hall2]; subst.
    apply Forall_cons in Hall as [Hk Hall]. case_bool_decide as E.
    + rewrite (IH (k0, v)) by by constructor. apply cmp_eq in E as ->. rewrite !values_of_cons. cbn [fst snd].
      destruct (cmp key k); [|done..]. rewrite !last_cons. by destruct (last _).
    + cbn [sm_lookup]. rewrite (IH (k, v) Hs'), !values_of_cons. cbn [fst snd].
      destruct (cmp key k0) eqn:Ek0; [|done..]. apply cmp_eq in Ek0 as ->. cbn in Hk.
      assert (klt k0 k) as Hlt by (destruct (cmp k0 k) eqn:Ek; [done|done|]; by destruct (Hk Ek)).
      rewrite (values_above k0 l), (Hlt : cmp k0 k = Lt); [done|].
      unfold all_above. rewrite Forall_fmap. apply (Forall_impl _ _ _ Hall2). intros x Hx. by apply (klt_kle_trans _ k).
Qed.

Lemma dedup_sort l : dedup_last (sort_by_key l) = insert_pairs [] l.
Proof using Type*.
  pose proof (sort_sorted l) as Hs. apply sorted_map_ext.
  - destruct (sort_by_key l) as [|e l']; [constructor|]. by apply dedup_from_sorted.
  - apply insert_pairs_sorted. constructor.
  - intros key. rewrite lookup_insert_pairs by constructor. rewrite <- (sort_values key l).
    destruct (sort_by_key l) as [|e l']; [done|]. cbn [dedup_last]. rewrite dedup_from_values by done. by destruct (last _).
Qed.

(** ** Merging *)

Lemma sorted_cons_iff k v l : sorted_map ((k, v) :: l) ↔ sorted_map l ∧ all_above k l.
Proof using Type.
  unfold sorted_map, sorted_keys, all_above. rewrite fmap_cons. cbn. split.
  - intros Hs. by inversion Hs.
  - intros [Hs Hk]. by constructor.
Qed.

Lemma all_above_trans k k' l : klt k k' → all_above k' l → all_above k l.
Proof using Type*. intros Hk Hl. apply (Forall_impl _ _ _ Hl). intros x Hx. by transitivity k'. Qed.

(** What a merge of [xs] and [ys] is to be, the values of [ys] winning. *)
Definition merged (xs ys out : list (K * V)) : Prop :=
  sorted_map out ∧ (∀ k, all_above k xs → all_above k ys → all_above k out) ∧
  ∀ key, sm_lookup out key = match sm_lookup ys key with Some v => Some v | None => sm_lookup xs key end.

Lemma merge_pairs_ok fuel (xs ys : list (K * V)) :
  sorted_map xs → sorted_map ys → length xs + length ys <= fuel →
  ∃ out, merge_pairs fuel xs ys = Some out ∧ merged xs ys out.
Proof using Type*.
  revert xs ys. induction fuel as [|fuel IH]; intros xs ys Hx Hy Hf.
  { destruct xs, ys; cbn in Hf; try lia. exists []. split; [done|]. split_and!; [constructor|done|done]. }
  destruct xs as [|[k v] xs], ys as [|[k' v'] ys]; cbn [merge_pairs fst].
  - exists []. split; [done|]. split_and!; [constructor|done|done].
  - apply sorted_cons_iff in Hy as [Hy Hk']. destruct (IH [] ys) as (out & -> & Hs & Ha & Hl); [constructor|done|cbn in *; lia|].
    exists ((k', v') :: out). split; [done|]. split_and!.
    + apply sorted_cons_iff. split; [done|]. apply Ha; [constructor|done].
    + intros k _ [Hk Hys]%all_above_cons. apply all_above_cons. split; [done|]. apply Ha; [constructor|done].
    + intros key. cbn. rewrite Hl. by destruct (cmp key k').
  - apply sorted_cons_iff in Hx as [Hx Hk]. destruct (IH xs []) as (out & -> & Hs & Ha & Hl); [done|constructor|cbn in *; lia|].
    exists ((k, v) :: out). split; [done|]. split_and!.
    + apply sorted_cons_iff. split; [done|]. apply Ha; [done|constructor].
    + intros k0 [Hk0 Hxs]%all_above_cons _. apply all_above_cons. split; [done|]. apply Ha; [done|constructor].
    + intros key. cbn. rewrite Hl. by destruct (cmp key k).
  - pose proof Hx as Hx0. pose proof Hy as Hy0.
    apply sorted_cons_iff in Hx as [Hx Hk]. apply sorted_cons_iff in Hy as [Hy Hk']. destruct (cmp k k') eqn:E.
    + apply cmp_eq in E as ->. destruct (IH xs ys) as (out & -> & Hs & Ha & Hl); [done|done|cbn in *; lia|].
      exists ((k', v') :: out). split; [done|]. split_and!.
      * apply sorted_cons_iff. split; [done|]. by apply Ha.
      * intros k0 [_ Hxs]%all_above_cons [Hk0 Hys]%all_above_cons. apply all_above_cons. split; [done|]. by apply Ha.
      * intros key. cbn. rewrite Hl. by destruct (cmp key k').
    + destruct (IH xs ((k', v') :: ys)) as (out & -> & Hs & Ha & Hl); [done|done|cbn in *; lia|].
      assert (all_above k ((k', v') :: ys)) as Hky by (apply all_above_cons; split; [done|by apply (all_above_trans _ k')]).
      exists ((k, v) :: out). split; [done|]. split_and!.
      * apply sorted_cons_iff. split; [done|]. by apply Ha.
      * intros k0 [Hk0 Hxs]%all_above_cons Hys. apply all_above_cons. split; [done|]. by apply Ha.
      * intros key. cbn [sm_lookup]. rewrite Hl. destruct (cmp key k) eqn:Ek; [|done..]. apply cmp_eq in Ek as ->.
        apply all_above_cons in Hky as [_ Hky]. by rewrite E, (sm_lookup_above k ys).
    + assert (klt k' k) as Hlt by (unfold klt; rewrite (cmp_opp k k'), E; done).
      destruct (IH ((k, v) :: xs) ys) as (out & -> & Hs & Ha & Hl); [done|done|cbn in *; lia|].
      assert (all_above k' ((k, v) :: xs)) as Hkx by (apply all_above_cons; split; [done|by apply (all_above_trans _ k)]).
      exists ((k', v') :: out). split; [done|]. split_and!.
      * apply sorted_cons_iff. split; [done|]. by apply Ha.
      * intros k0 Hxs [Hk0 Hys]%all_above_cons. apply all_above_cons. split; [done|]. by apply Ha.
      * intros key. cbn [sm_lookup]. destruct (cmp key k') eqn:Ek; [done|apply Hl..].
Qed.

Lemma merged_insert xs ys out : sorted_map xs → sorted_map ys → merged xs ys out → out = insert_pairs xs ys.
Proof using Type*.
  intros Hx Hy (Hs & _ & Hl). apply sorted_map_ext; [done|by apply insert_pairs_sorted|]. intros key.
  by rewrite lookup_insert_pairs, Hl, last_values_sorted.
Qed.

(** Two maps one behind the other. *)
Lemma concat_insert xs ys :
  sorted_map (xs ++ ys) → xs ++ ys = insert_pairs xs ys.
Proof using Type*.
  intros Hs. assert (sorted_map xs ∧ sorted_map ys ∧ ∀ k, k ∈ xs.*1 → all_above k ys) as (Hx & Hy & Hxy).
  { unfold sorted_map, sorted_keys, all_above in *. rewrite fmap_app in Hs. apply StronglySorted_app in Hs as (Hlt & Hx & Hy).
    split_and!; [done..|]. intros k Hk. apply Forall_forall. intros y Hy'. by apply Hlt. }
  apply sorted_map_ext; [done|by apply insert_pairs_sorted|]. intros key.
  rewrite lookup_insert_pairs, last_values_sorted by done. clear Hs Hx Hy. induction xs as [|[k v] xs IH]; cbn [app sm_lookup].
  - by destruct (sm_lookup ys key).
  - destruct (cmp key k) eqn:E; [|apply IH; intros k0 Hk0; apply Hxy; rewrite fmap_cons; by right..].
    apply cmp_eq in E as ->. by rewrite sm_lookup_above by (apply Hxy; by left).
Qed.
End pairs.

(** ** The B+ tree map: collecting, appending, splitting and comparing *)

(** The operations that rebuild trees from sorted vectors, on the trees. *)

Section collect.
Context {K V : Type} `{OrdLaws K} {MK : MinKeys} (key_size val_size : nat).
Abbreviation repr := (repr key_size val_size).
Abbreviation represents := (represents key_size val_size).
Implicit Types (t other : RawBTree K V) (l m pairs : list (K * V)).

(** A bulk load of [n] entries fits the node indices; when the removal code is to
    work on the result, no node has a single child. *)
Definition bulk_ready (n : nat) : Prop :=
  (2 * Z.of_nat n + 8 <= 2 ^ 31)%Z ∧ bulk_full key_size val_size n.

Lemma bulk_ok l :
  assert_capacities key_size val_size = true → sorted_map l → bulk_ready (length l) →
  ∃ t, bulk_load key_size val_size l = Some t ∧ represents t l.
Proof using Type*.
  intros [Hcl%Nat.leb_le Hci%Nat.leb_le]%andb_true_iff Hs [Hn Hf]. by apply bulk_load_ok.
Qed.

Lemma shrink_represents t l :
  assert_capacities key_size val_size = true → represents t l → bulk_ready (length l) →
  ∃ t', shrink_to_fit key_size val_size t = Some t' ∧ represents t' l.
Proof using Type*.
  intros Hc Hrep Hn. unfold shrink_to_fit. rewrite (represents_len _ _ _ _ Hrep).
  destruct (Nat.eqb_spec (length l) 0) as [?%nil_length_inv|_]; [subst l; exists tree_new; split; [done|apply tree_new_represents]|].
  rewrite (into_pairs_ok _ _ _ _ Hrep). apply bulk_ok; [done|by eapply represents_sorted|done].
Qed.

Lemma windows_sorted l : sorted_map l ↔ forallb (λ w, ltb w.1.1 w.2.1) (zip l (tail l)) = true.
Proof using Type*.
  induction l as [|[k v] l IH]; [split; [done|constructor]|]. rewrite sorted_cons_iff, IH. cbn [tail].
  destruct l as [|[k' v'] l]; cbn [tail zip zip_with forallb fst snd]; [split; [done|split; [done|constructor]]|].
  rewrite andb_true_iff, ltb_lt. split.
  - intros [Hf [Hk _]%all_above_cons]. by split.
  - intros [Hk Hf]. split; [done|]. apply all_above_cons. split; [done|]. apply (all_above_trans _ k'); [done|].
    apply IH in Hf. by apply sorted_cons_iff in Hf as [_ ?].
Qed.

(** Collecting.  [from_iter] builds the map that inserting the pairs in order
    builds, whatever their order and duplicates; [from_sorted_iter] builds the map
    of a strictly sorted sequence and panics, in debug builds, on any other;
    [shrink_to_fit] rebuilds a map with the same entries. *)
Theorem btree_from_iter_correct pairs t l :
  assert_capacities key_size val_size = true →
  bulk_ready (length (insert_pairs [] pairs)) → represents t l → bulk_ready (length l) →
  (∃ t', from_iter key_size val_size pairs = Some t' ∧ represents t' (insert_pairs [] pairs)) ∧
  (∃ t', from_sorted_iter key_size val_size true l = Some t' ∧ represents t' l) ∧
  (¬ sorted_map pairs → from_sorted_iter key_size val_size true pairs = None) ∧
  (∃ t', shrink_to_fit key_size val_size t = Some t' ∧ represents t' l).
Proof using Type*.
  intros Hc Hp Hrep Hn. pose proof (represents_sorted _ _ _ _ Hrep) as Hs. split_and!.
  - unfold from_iter. rewrite dedup_sort. destruct pairs as [|e pairs]; [exists tree_new; split; [done|apply tree_new_represents]|].
    apply bulk_ok; [done|apply insert_pairs_sorted; constructor|done].
  - unfold from_sorted_iter. rewrite (proj1 (windows_sorted l) Hs). by apply bulk_ok.
  - intros Hns. unfold from_sorted_iter. destruct (forallb _ _) eqn:E; [|done]. by apply windows_sorted in E.
  - by apply shrink_represents.
Qed.

(** C39: round trip.  The pairs that a map collected from an iterator gives back, by
    reference or by value, are those of the iterator in key order with the last
    value of each key; collecting them again changes nothing. *)
Theorem btree_collect_roundtrip pairs :
  assert_capacities key_size val_size = true → bulk_ready (length (insert_pairs [] pairs)) →
  ∃ t t' out, from_iter key_size val_size pairs = Some t ∧ items t = Some out ∧ into_pairs t = Some out ∧
    from_iter key_size val_size out = Some t' ∧ items t' = Some out ∧
    sorted_map out ∧ ∀ key, sm_lookup out key = last (values_of key pairs).
Proof using Type*.
  intros Hc Hn. assert (sorted_map (insert_pairs [] pairs)) as Hs by (apply insert_pairs_sorted; constructor).
  assert (∀ ps, insert_pairs [] ps = insert_pairs [] pairs → ∃ t, from_iter key_size val_size ps = Some t ∧
    represents t (insert_pairs [] pairs) ∧ items t = Some (insert_pairs [] pairs)) as Hbuild.
  { intros ps Hps. assert (∃ t, from_iter key_size val_size ps = Some t ∧ represents t (insert_pairs [] pairs)) as (t & Ht & Hr).
    { unfold from_iter. rewrite dedup_sort. destruct ps as [|e ps].
      - exists tree_new. rewrite <- Hps. split; [done|apply tree_new_represents].
      - rewrite Hps. by apply bulk_ok. }
    exists t. split_and!; [done..|]. destruct (represents_chained _ _ _ _ Hr) as (L & Hch & <-). by apply items_ok. }
  destruct (Hbuild pairs eq_refl) as (t & Ht & Hr & Hi).
  destruct (Hbuild (insert_pairs [] pairs)) as (t' & Ht' & Hr' & Hi').
  { apply sorted_map_ext; [apply insert_pairs_sorted; constructor|done|]. intros key.
    rewrite lookup_insert_pairs by constructor. rewrite last_values_sorted by done. by destruct (sm_lookup _ key). }
  exists t, t', (insert_pairs [] pairs). split_and!; try done; [by eapply into_pairs_ok|]. intros key.
  rewrite lookup_insert_pairs by constructor. by destruct (last _).
Qed.

(** ** Appending *)

(** Inserting one by one, as long as each insertion is within its limits. *)
Lemma btree_extend_ok t l pairs t' :
  assert_capacities key_size val_size = true → represents t l → insert_all key_size val_size t pairs = Some t' →
  extend key_size val_size t pairs = Some t' ∧ represents t' (insert_pairs l pairs).
Proof using Type*.
  intros Hc Hr Ht. split; [|by eapply insert_all_represents]. clear Hr l. revert t Ht.
  induction pairs as [|[k v] pairs IH]; intros t Ht; cbn [extend insert_all] in *; [done|].
  destruct (within_limits t); [|done]. destruct (insert key_size val_size t k v) as [[t1 o]|]; [|done]. by apply IH.
Qed.

Section append.
Context (t other : RawBTree K V) (l m : list (K * V)).
Hypothesis Hl : represents t l.
Hypothesis Hm : represents other m.

(** The two cases without work. *)
Lemma append_trivial (r : option (RawBTree K V * RawBTree K V)) :
  (l ≠ [] → m ≠ [] → ∃ t' other', r = Some (t', other') ∧ represents t' (insert_pairs l m) ∧ represents other' []) →
  ∃ t' other', (if len other =? 0 then Some (t, other) else if len t =? 0 then Some (other, t) else r) = Some (t', other') ∧
    represents t' (insert_pairs l m) ∧ represents other' [].
Proof using Type*.
  intros Hr. pose proof (represents_sorted _ _ _ _ Hm) as Hsm.
  rewrite (represents_len _ _ _ _ Hl), (represents_len _ _ _ _ Hm).
  destruct (Nat.eqb_spec (length m) 0) as [E%nil_length_inv|Hmn].
  { exists t, other. rewrite E in Hm |- *. by split_and!. }
  destruct (Nat.eqb_spec (length l) 0) as [E%nil_length_inv|Hln].
  { exists other, t. rewrite E in Hl |- *. split_and!; [done| |done].
    rewrite <- (concat_insert [] m); [done|]. done. }
  apply Hr; by intros ->.
Qed.

Lemma both_drained :
  drain_all t = Some (l, cleared t) ∧ drain_all other = Some (m, cleared other) ∧ represents (cleared other) [].
Proof using Type*.
  split_and!; [by eapply drain_all_ok..|]. by eapply cleared_empty.
Qed.

Lemma append_drain_ok :
  assert_capacities key_size val_size = true → bulk_ready (length (insert_pairs l m)) →
  ∃ t' other', append_drain key_size val_size t other = Some (t', other') ∧
    represents t' (insert_pairs l m) ∧ represents other' [].
Proof using Type*.
  intros Hc Hn. unfold append_drain. apply append_trivial. intros _ _.
  pose proof (represents_sorted _ _ _ _ Hl) as Hsl. pose proof (represents_sorted _ _ _ _ Hm) as Hsm.
  destruct both_drained as (-> & -> & He). cbn [mbind option_bind].
  destruct (merge_pairs_ok (length l + length m) l m Hsl Hsm (le_n _)) as (out & -> & Hout).
  apply merged_insert in Hout; [|done..]. subst out.
  destruct (bulk_ok _ Hc (insert_pairs_sorted l m Hsl) Hn) as (t' & -> & Hr). by exists t', (cleared other).
Qed.
End append.

(** Appending.  Draining both maps and merging, or inserting the entries of the
    other map, gives the first map with the entries of the second put into it, the
    values of the second winning, and leaves the second empty; when the key ranges
    are apart concatenating does the same, and otherwise debug builds panic. *)
Theorem btree_append_correct t other l m :
  assert_capacities key_size val_size = true → represents t l → represents other m →
  bulk_ready (length (insert_pairs l m)) → is_Some (insert_all key_size val_size t m) →
  (∃ t' other', append_drain key_size val_size t other = Some (t', other') ∧
     represents t' (insert_pairs l m) ∧ represents other' []) ∧
  (∃ t' other', append_extend key_size val_size t other = Some (t', other') ∧
     represents t' (insert_pairs l m) ∧ represents other' []) ∧
  (sorted_map (l ++ m) → ∃ t' other', append_concat key_size val_size false t other = Some (t', other') ∧
     represents t' (insert_pairs l m) ∧ represents other' []).
Proof using Type*.
  intros Hc Hl Hm Hn [t1 Hins]. pose proof (represents_sorted _ _ _ _ Hl) as Hsl. pose proof (represents_sorted _ _ _ _ Hm) as Hsm.
  destruct (both_drained t other l m Hl Hm) as (Hdl & Hdm & He).
  split_and!; [by apply append_drain_ok
              |unfold append_extend; apply append_trivial; [done..|]; intros _ _
              |intros Hlm; unfold append_concat; apply append_trivial; [done..|]; intros _ _].
  - rewrite Hdm. destruct (btree_extend_ok t l m t1 Hc Hl Hins) as [-> Hr]. by exists t1, (cleared other).
  - cbn [negb]. rewrite Hdl, Hdm, (concat_insert l m Hlm).
    destruct (bulk_ok _ Hc (insert_pairs_sorted l m Hsl) Hn) as (t' & -> & Hr). by exists t', (cleared other).
Qed.

(** ** Splitting *)

Lemma below_split l key :
  sorted_map l → let split := find_index (λ k, leb key k) l.*1 in
  sm_from l key = drop split l ∧ sorted_map (take split l) ∧ sorted_map (drop split l) ∧
  l = take split l ++ drop split l ∧ all_below key (take split l).
Proof using Type*.
  intros Hs split. destruct (find_index_ge l.*1 key _ eq_refl) as (Hle & Hbef & Hat). fold split in Hle, Hbef, Hat.
  assert (all_below key (take split l)) as Hb.
  { unfold all_below. apply Forall_forall. intros k Hk. rewrite fmap_take in Hk.
    apply list_elem_of_lookup in Hk as (j & [Hj Hlt]%lookup_take_Some). by apply (Hbef j k). }
  pose proof Hs as Hs'. unfold sorted_map, sorted_keys in Hs'. rewrite <- (take_drop split l), fmap_app in Hs'.
  apply StronglySorted_app in Hs' as (_ & Ht & Hd). split_and!; [|done|done|by rewrite take_drop|done].
  rewrite <- (take_drop split l) at 1. apply sm_from_split; [done|].
  rewrite fmap_drop. destruct (drop split l.*1) as [|k ks] eqn:E; [constructor|].
  assert (l.*1 !! split = Some k) as Hk by by rewrite <- (Nat.add_0_r split), <- lookup_drop, E.
  apply Forall_forall. intros x Hx. transitivity k; [by apply Hat|].
  apply list_elem_of_lookup in Hx as (j & Hj). rewrite <- E, lookup_drop in Hj.
  apply (sorted_lookup_le l.*1 split (split + j)); [done..|lia].
Qed.

Lemma filter_id {A} (p : A → bool) (l : list A) : Forall (λ x, p x = true) l → List.filter p l = l.
Proof. induction 1 as [|x l Hx _ IH]; [done|]. cbn. by rewrite Hx, IH. Qed.

Lemma filter_nil {A} (p : A → bool) (l : list A) : Forall (λ x, p x = false) l → List.filter p l = [].
Proof. induction 1 as [|x l Hx _ IH]; [done|]. cbn. by rewrite Hx. Qed.

Lemma to_split l key : sorted_map l → sm_to l key = take (find_index (λ k, leb key k) l.*1) l.
Proof using Type*.
  intros Hs. destruct (below_split l key Hs) as (Hf & _ & _ & Hl & Hb). set (split := find_index _ _) in *.
  unfold sm_to. rewrite Hl at 1. rewrite List.filter_app, filter_id, filter_nil, app_nil_r; [done| |].
  - rewrite <- Hf. unfold sm_from. apply Forall_forall. intros e [_ He]%list_elem_of_In%List.filter_In.
    apply not_true_iff_false. rewrite ltb_lt. intros Hlt. apply leb_le in He. by apply not_kle in Hlt.
  - unfold all_below in Hb. rewrite Forall_fmap in Hb. apply (Forall_impl _ _ _ Hb). intros e He. by apply ltb_lt.
Qed.

Lemma to_from l key : sorted_map l → l = sm_to l key ++ sm_from l key.
Proof using Type*. intros Hs. rewrite to_split by done. destruct (below_split l key Hs) as (-> & _ & _ & ? & _). done. Qed.

(** A position at the first leaf's first entry is that of the whole map. *)
Lemma first_position t g fs i kvs lo hi :
  repr t g → leaf_at key_size val_size g fs i kvs lo hi → first_leaf t = Some i → lentries fs = [].
Proof using Type*.
  intros Hr Hat Hf. rewrite (h_first _ _ (proj1 Hr)), (la_tree _ _ _ _ _ _ _ _ Hat), leaves_plug in Hf. cbn [leaves] in Hf.
  assert (NoDup (leaves g)) as Hn.
  { pose proof (ch_nodup _ _ (repr_chained _ _ _ _ Hr)) as Hn. by rewrite tleaves_ids in Hn. }
  rewrite (la_tree _ _ _ _ _ _ _ _ Hat), leaves_plug in Hn. cbn [leaves] in Hn.
  rewrite lentries_eq. rewrite lleaves_eq in Hf, Hn. destruct (ltleaves fs) as [|[j jk] L]; [done|].
  cbn in Hf. injection Hf as ->. rewrite fmap_cons in Hn. cbn in Hn. apply NoDup_cons in Hn as [Hn _]. set_solver.
Qed.

(** What [lower_bound] and the comparison with the first leaf decide. *)
Lemma split_cases t l key :
  represents t l → no_empty_leaf_of t → ∃ r, lower_bound t key = Some r ∧
    match r with
    | None => sm_from l key = []
    | Some (i, s) => s = 0 → first_leaf t = Some i → sm_from l key = l
    end.
Proof using Type*.
  intros [[He ->]|(g & Hr & ->)] Hne.
  { exists None. unfold lower_bound. by rewrite (proj1 He). }
  destruct (lower_bound_ok _ _ t g key Hr (no_empty_leaf_repr _ _ _ _ Hr Hne)) as ([[i s]|] & Hl & Hs); [|by exists None].
  exists (Some (i, s)). split; [done|]. destruct Hs as (fs & kvs & lo & hi & Hat & Hlt & Hf). intros -> Hfirst.
  rewrite Hf, (la_tree _ _ _ _ _ _ _ _ Hat), entries_plug, (first_position _ _ _ _ _ _ _ Hr Hat Hfirst). done.
Qed.

Lemma bulk_or_new l :
  assert_capacities key_size val_size = true → sorted_map l → bulk_ready (length l) →
  ∃ t, (if length l =? 0 then Some tree_new else bulk_load key_size val_size l) = Some t ∧ represents t l.
Proof using Type*.
  intros Hc Hs Hn. destruct (Nat.eqb_spec (length l) 0) as [?%nil_length_inv|_]; [|by apply bulk_ok].
  subst l. exists tree_new. split; [done|apply tree_new_represents].
Qed.

(** Splitting.  On a map without empty leaves [split_off_drain] keeps the
    entries below the key and returns those from it on, whether it moves nothing,
    everything, or rebuilds both halves. *)
Theorem btree_split_off_correct t l key :
  assert_capacities key_size val_size = true → represents t l → no_empty_leaf_of t →
  bulk_ready (length (sm_to l key)) → bulk_ready (length (sm_from l key)) →
  ∃ t' right, split_off_drain key_size val_size t key = Some (t', right) ∧
    represents t' (sm_to l key) ∧ represents right (sm_from l key) ∧ l = sm_to l key ++ sm_from l key.
Proof using Type*.
  intros Hc Hrep Hne Hnl Hnr. pose proof (represents_sorted _ _ _ _ Hrep) as Hs. pose proof (to_from l key Hs) as Htf.
  unfold split_off_drain. rewrite (represents_len _ _ _ _ Hrep).
  destruct (Nat.eqb_spec (length l) 0) as [E%nil_length_inv|_].
  { subst l. exists t, tree_new. split_and!; [done|done|apply tree_new_represents|done]. }
  destruct (split_cases t l key Hrep Hne) as (r & -> & Hr). destruct r as [[i s]|].
  2:{ exists t, tree_new. rewrite Hr in Htf |- *. rewrite app_nil_r in Htf. rewrite <- Htf.
      split_and!; [done|done|apply tree_new_represents|by rewrite app_nil_r]. }
  destruct ((s =? 0) && bool_decide (Some i = first_leaf t)) eqn:E.
  { apply andb_true_iff in E as [Hs0%Nat.eqb_eq Hi%bool_decide_eq_true]. specialize (Hr Hs0 (eq_sym Hi)).
    assert (sm_to l key = []) as Hto.
    { rewrite Hr in Htf. apply (f_equal length) in Htf. rewrite length_app in Htf. apply nil_length_inv. lia. }
    exists tree_new, t. rewrite Hto, Hr. split_and!; [done|apply tree_new_represents|done|done]. }
  rewrite (drain_all_ok _ _ _ _ Hrep). unfold ltb at 1. rewrite (partition_point_ge l.*1 key) by done.
  rewrite <- (to_split l key Hs). destruct (below_split l key Hs) as (<- & _).
  assert (sorted_map (sm_to l key) ∧ sorted_map (sm_from l key)) as [Hst Hsf].
  { rewrite to_split by done. destruct (below_split l key Hs) as (-> & ? & ? & _). done. }
  assert (∃ t', (if length (sm_to l key) =? 0 then Some (cleared t) else bulk_load key_size val_size (sm_to l key)) = Some t' ∧
    represents t' (sm_to l key)) as (t' & -> & Ht').
  { destruct (Nat.eqb_spec (length (sm_to l key)) 0) as [Ez%nil_length_inv|_]; [|by apply bulk_ok].
    rewrite Ez. exists (cleared t). split; [done|]. by eapply cleared_empty. }
  destruct (bulk_or_new _ Hc Hsf Hnr) as (right & -> & Hright). by exists t', right.
Qed.

(** ** Comparing *)

(** Equality.  Two maps compare equal exactly when they have the same entries,
    however their trees are shaped. *)
Theorem btree_eq_correct t other l m (value_eqb : V → V → bool) :
  (∀ x y, value_eqb x y = true ↔ x = y) → represents t l → represents other m →
  ∃ b, eq_map value_eqb t other = Some b ∧ (b = true ↔ l = m).
Proof using Type*.
  intros Hv Hl Hm. unfold eq_map. rewrite (represents_len _ _ _ _ Hl), (represents_len _ _ _ _ Hm).
  destruct (Nat.eqb_spec (length l) (length m)) as [Hlen|Hne]; cbn [negb]; [|exists false; split; [done|]; split; [done|by intros ->]].
  destruct (represents_chained _ _ _ _ Hl) as (L & HL & EL). destruct (represents_chained _ _ _ _ Hm) as (M & HM & EM).
  rewrite (items_ok _ _ HL), (items_ok _ _ HM), EL, EM. eexists. split; [reflexivity|]. clear -Hlen Hv H0.
  revert m Hlen. induction l as [|[k v] l IH]; intros [|[k' v'] m] Hlen; try done. cbn [zip zip_with forallb fst snd].
  rewrite andb_true_iff, (IH m) by (cbn in Hlen; lia). rewrite andb_true_iff, bool_decide_eq_true, cmp_eq, Hv. naive_solver.
Qed.
End collect.
