(* ===== verification/BTreeRange.v ===== *)
(** * The B+ tree map: ranges

    [resolve_range_bounds] and the range iterators; what they yield when the start
    is not behind the end, and where a range with its ends the wrong way round
    leads. *)

From Stdlib Require Import ZArith Lia.
From stdpp Require Import list_tactics sorting.
From S2P Require Import Prelude BinSearch BTree BTreeInv BTreeShape BTreeRep SortedAssoc BTreeSearch BTreeInsert BTreeSpec BTreeIter BTreeMap BTreeCollect.

Section range.
Context {K V : Type} `{Ord K}.
Implicit Types (a : Arena K V) (t : RawBTree K V) (key : K).

(** The place of a key's lower bound, and the place behind the key. *)
Definition bound_at t key : option (option nat * nat) :=
  do r <- lower_bound t key;
  Some (match r with Some (leaf, idx) => (Some leaf, idx) | None => (None, 0) end).

(*@ flat_btree/raw.rs : 373-391 : resolve_range_bounds *)
Definition bound_behind t key : option (option nat * nat) :=
  do r <- lower_bound t key;
  match r with
  | Some (leaf, idx) =>
      do kvs <- leaf_kvs (arena t) leaf;
      do ' (k, _) <- kvs !! idx;
      if bool_decide (cmp k key = Eq) then
        if idx + 1 <? length kvs then Some (Some leaf, idx + 1)
        else do ' (_, next) <- links (arena t) !! leaf; Some (next, 0)
      else Some (Some leaf, idx)
  | None => Some (None, 0)
  end.

(*@ flat_btree/raw.rs : pub fn resolve_range_bounds *)
Definition resolve_range_bounds t (start_bound end_bound : Bound K) :
    option (option nat * nat * (option nat * nat)) :=
  do start <- match start_bound with
              | Included key => bound_at t key
              | Excluded key => bound_behind t key
              | Unbounded => Some (first_leaf t, 0)
              end;
  do finish <- match end_bound with
               | Included key => bound_behind t key
               | Excluded key => bound_at t key
               | Unbounded => Some (None, 0)
               end;
  Some (start, finish).

(*@ flat_btree/map.rs : pub struct RangeIter< *)
Record RangeIter := { ri_leaf : option nat; ri_idx : nat; end_leaf : option nat; end_idx : nat }.

(*@ flat_btree/map.rs : pub fn range< *)
Definition range t (start_bound end_bound : Bound K) : option RangeIter :=
  do ' (start, finish) <- resolve_range_bounds t start_bound end_bound;
  Some {| ri_leaf := start.1; ri_idx := start.2; end_leaf := finish.1; end_idx := finish.2 |}.

(** The place the iterator yields; [None] as the end leaf equals no leaf. *)
(*@ flat_btree/map.rs : 1480-1510 : RangeIter::next *)
Fixpoint range_next (fuel : nat) a (it : RangeIter) : option (option (nat * nat * (K * V)) * RangeIter) :=
  match ri_leaf it, fuel with
  | None, _ => Some (None, it)
  | _, 0 => None
  | Some i, S fuel' =>
      if bool_decide (end_leaf it = Some i) && (end_idx it <=? ri_idx it) then
        Some (None, {| ri_leaf := None; ri_idx := ri_idx it; end_leaf := end_leaf it; end_idx := end_idx it |})
      else
        do kvs <- leaf_kvs a i;
        match kvs !! ri_idx it with
        | Some kv => Some (Some (i, ri_idx it, kv),
                           {| ri_leaf := ri_leaf it; ri_idx := ri_idx it + 1; end_leaf := end_leaf it; end_idx := end_idx it |})
        | None =>
            do ' (_, next) <- links a !! i;
            range_next fuel' a {| ri_leaf := next; ri_idx := 0; end_leaf := end_leaf it; end_idx := end_idx it |}
        end
  end.

(** The items of a range; [fuel]: more than their number. *)
Fixpoint range_items (fuel : nat) t (it : RangeIter) : option (list (K * V)) :=
  match fuel with
  | 0 => None
  | S fuel' =>
      do ' (x, it) <- range_next (walk_fuel t) (arena t) it;
      match x with
      | Some (_, kv) => do kvs <- range_items fuel' t it; Some (kv :: kvs)
      | None => Some []
      end
  end.

Definition collect_range t (start_bound end_bound : Bound K) : option (list (K * V)) :=
  do it <- range t start_bound end_bound; range_items (S (len t)) t it.

(** The mutable range: a client that replaces each value it is handed. *)
(*@ flat_btree/map.rs : 1532-1563 : RangeIterMut::next *)
Fixpoint for_each_in_range (fuel : nat) (f : K → V → V) t (it : RangeIter) : option (RawBTree K V) :=
  match fuel with
  | 0 => None
  | S fuel' =>
      do ' (x, it) <- range_next (walk_fuel t) (arena t) it;
      match x with
      | Some (i, s, (k, _)) => do t <- write_at t i s (f k); for_each_in_range fuel' f t it
      | None => Some t
      end
  end.

(*@ flat_btree/map.rs : pub fn range_mut< *)
Definition range_mut t (start_bound end_bound : Bound K) (f : K → V → V) : option (RawBTree K V) :=
  do it <- range t start_bound end_bound; for_each_in_range (S (len t)) f t it.
End range.

(** ** The B+ tree map: what ranges yield *)

(** The items of a range whose start is not behind its end are the entries within
    the bounds, on every tree without empty leaves; a range with its ends the wrong
    way round runs to the end of the map. *)

(** ** Cutting a list by a predicate *)

Section cut.
Context {A : Type}.
Implicit Types (p q : A → bool) (l : list A).

Definition cut p l b a : Prop := l = b ++ a ∧ Forall (λ x, p x = true) b ∧ Forall (λ x, p x = false) a.

(** Two cuts, the first never behind the second. *)
Lemma cut_between p q l b a eb ea :
  cut (λ x, negb (p x)) l b a → cut q l eb ea → (∀ x, p x = false → q x = true) →
  ∃ mid, a = mid ++ ea ∧ eb = b ++ mid ∧ List.filter (λ x, p x && q x) l = mid.
Proof.
  intros (-> & Hb & Ha) (Hl & Heb & Hea) Hpq.
  assert (∃ mid, a = mid ++ ea ∧ eb = b ++ mid) as (mid & -> & ->).
  { symmetry in Hl. apply app_eq_inv in Hl as [(mid & -> & ->)|(mid & -> & ->)]; [by exists mid|].
    assert (mid = []) as ->; [|by exists []; rewrite !app_nil_r].
    destruct mid as [|x mid]; [done|]. exfalso. apply Forall_app in Hb as [_ Hb]. apply Forall_cons in Hb as [Hx _].
    cbn in Hea. apply Forall_cons in Hea as [Hx' _]. apply negb_true_iff, Hpq in Hx. congruence. }
  exists mid. split_and!; [done..|]. apply Forall_app in Ha as [Hm Hae]. apply Forall_app in Heb as [_ Hqm].
  rewrite !List.filter_app, filter_nil, filter_id, filter_nil, app_nil_r; [done|..].
  - apply (Forall_impl _ _ _ Hea). intros x ->. apply andb_false_r.
  - apply Forall_forall. intros x Hx. rewrite Forall_forall in Hm, Hqm. rewrite (Hqm x Hx), andb_true_r.
    by apply negb_false_iff, Hm.
  - apply (Forall_impl _ _ _ Hb). intros x ->%negb_true_iff. done.
Qed.
End cut.

(** ** Places in the chain *)

Section places.
Context {K V : Type}.
Implicit Types (a : Arena K V) (t : RawBTree K V) (L : list (nat * list (K * V))).

(** The place of an entry, or none behind the last one. *)
Definition place_at L (i : option nat) (s : nat) (before after : list (K * V)) : Prop :=
  contents L = before ++ after ∧
  (i = None ∧ after = [] ∨
   ∃ F1 fi fk F2, L = F1 ++ (fi, fk) :: F2 ∧ i = Some fi ∧ s < length fk ∧ before = contents F1 ++ take s fk).

Lemma place_walk L i s before after :
  place_at L i s before after → walk_at L i s (length L) before after.
Proof.
  intros [Hc [[-> ->]|(F1 & fi & fk & F2 & -> & -> & Hs & ->)]]; split; [done|by left|done|]. right.
  exists (length F1 + length F2). split; [rewrite length_app; cbn; lia|].
  exists F1, fi, fk, F2. split_and!; try done; lia.
Qed.

Lemma same_place L F1 i fk F2 s G1 j gk G2 u :
  L = F1 ++ (i, fk) :: F2 → L = G1 ++ (j, gk) :: G2 → s < length fk → u < length gk →
  length (contents F1 ++ take s fk) = length (contents G1 ++ take u gk) → i = j ∧ s = u.
Proof.
  intros -> HL Hs Hu Hlen. rewrite !length_app, !length_take in Hlen.
  apply app_eq_inv in HL as [(M & -> & HM)|(M & -> & HM)]; destruct M as [|[m mk] M]; cbn in HM; simplify_eq.
  - rewrite ?app_nil_r in *. split; [done|lia].
  - rewrite contents_app, contents_cons, !length_app in Hlen. lia.
  - rewrite ?app_nil_r in *. split; [done|lia].
  - rewrite contents_app, contents_cons, !length_app in Hlen. lia.
Qed.

(** The iterator between a position and the end place. *)
Definition range_at L (it : RangeIter) (n : nat) (pre mid post : list (K * V)) : Prop :=
  walk_at L (ri_leaf it) (ri_idx it) n pre (mid ++ post) ∧ place_at L (end_leaf it) (end_idx it) (pre ++ mid) post.

(** At the end place, or at an entry before it. *)
Lemma range_stop L it i n pre mid post fk F1 F2 :
  NoDup L.*1 → range_at L it n pre mid post → ri_leaf it = Some i → L = F1 ++ (i, fk) :: F2 → pre = contents F1 ++ take (ri_idx it) fk →
  (end_leaf it = Some i → end_idx it <= ri_idx it → mid = []) ∧
  (mid = [] → ri_idx it < length fk → end_leaf it = Some i ∧ end_idx it <= ri_idx it ∨ post = []).
Proof.
  intros Hn [_ [_ Hend]] Hi HL Hpre. split.
  - intros He Hle. destruct Hend as [[? _]|(G1 & gi & gk & G2 & HG & Hgi & Hs & Hb)]; [congruence|].
    rewrite He in Hgi. injection Hgi as <-. destruct (nodup_split _ _ _ _ _ _ _ _ Hn HL HG) as (<- & <- & _).
    rewrite Hpre in Hb. apply (f_equal length) in Hb. rewrite !length_app, !length_take in Hb.
    apply nil_length_inv. lia.
  - intros -> Hlt. destruct Hend as [[_ ->]|(G1 & gi & gk & G2 & HG & -> & Hs & Hb)]; [by right|]. left.
    rewrite app_nil_r, Hpre in Hb. destruct (same_place L F1 i fk F2 (ri_idx it) G1 gi gk G2 (end_idx it)) as [-> ->];
      [done..|by rewrite Hb|done].
Qed.

Lemma range_next_ok a L it n pre mid post fuel :
  leaf_chain a L → NoDup L.*1 → range_at L it n pre mid post → n <= fuel →
  match mid with
  | [] => ∃ it', range_next fuel a it = Some (None, it')
  | x :: mid' => ∃ i s it' F1 fk F2 n',
      range_next fuel a it = Some (Some (i, s, x), it') ∧ L = F1 ++ (i, fk) :: F2 ∧ fk !! s = Some x ∧
      pre = contents F1 ++ take s fk ∧ n' <= n ∧ range_at L it' n' (pre ++ [x]) mid' post ∧
      it' = {| ri_leaf := Some i; ri_idx := s + 1; end_leaf := end_leaf it; end_idx := end_idx it |}
  end.
Proof.
  intros Hc Hn. revert it n. induction fuel as [|fuel IH]; intros it n Hr Hf.
  { pose proof Hr as [[_ [[E Hm]|(m & -> & _)]] _]; [|lia]. destruct mid; [|done]. exists it. cbn [range_next]. by rewrite E. }
  cbn [range_next]. destruct (ri_leaf it) as [i|] eqn:Ei.
  2:{ destruct Hr as [[_ [[_ Hm]|(? & _ & ? & ? & ? & ? & _ & E & _)]] _]; [|congruence]. destruct mid; [by exists it|done]. }
  pose proof Hr as [Hw Hend]. rewrite Ei in Hw.
  destruct (walk_step _ _ _ _ _ _ _ Hc Hw) as (fk & m & -> & Hk & (F1 & F2 & HL & Hpre) & Hstep).
  destruct (range_stop _ _ _ _ _ _ _ _ _ _ Hn Hr Ei HL Hpre) as [Hstop1 Hstop2].
  destruct (bool_decide (end_leaf it = Some i) && (end_idx it <=? ri_idx it)) eqn:Echk.
  { apply andb_true_iff in Echk as [He%bool_decide_eq_true Hle%Nat.leb_le]. rewrite (Hstop1 He Hle). by eexists. }
  assert (¬ (end_leaf it = Some i ∧ end_idx it <= ri_idx it)) as Hchk.
  { intros [He Hle%Nat.leb_le]. by rewrite bool_decide_eq_true_2, Hle in Echk. }
  rewrite Hk. destruct (fk !! ri_idx it) as [kv|] eqn:Ekv.
  - destruct Hstep as (rest' & Heq & Hw'). pose proof (lookup_lt_Some _ _ _ Ekv) as Hlt.
    destruct mid as [|x mid]; [destruct (Hstop2 eq_refl Hlt) as [?| ->]; [done|by destruct rest']|].
    cbn in Heq. injection Heq as -> <-. eexists i, (ri_idx it), _, F1, fk, F2, (S m).
    split_and!; [reflexivity|done|done|done|done| |done]. split; [done|]. cbn. by rewrite <- app_assoc.
  - destruct Hstep as (prev & next & -> & Hw').
    specialize (IH {| ri_leaf := next; ri_idx := 0; end_leaf := end_leaf it; end_idx := end_idx it |} m (conj Hw' Hend) ltac:(lia)).
    destruct mid as [|x mid]; [done|]. destruct IH as (j & s & it' & G1 & gk & G2 & n' & ? & ? & ? & ? & ? & ? & ?).
    exists j, s, it', G1, gk, G2, n'. split_and!; try done. lia.
Qed.

Lemma range_items_ok t L it n pre mid post fuel :
  chained t L → range_at L it n pre mid post → n <= walk_fuel t → length mid < fuel → range_items fuel t it = Some mid.
Proof.
  intros Ht. revert it n pre mid. induction fuel as [|fuel IH]; intros it n pre mid Hr Hn Hf; [lia|]. cbn [range_items].
  pose proof (range_next_ok _ _ _ _ _ _ _ _ (ch_chain _ _ Ht) (ch_nodup _ _ Ht) Hr Hn) as Hnext. destruct mid as [|x mid].
  - by destruct Hnext as (it' & ->).
  - destruct Hnext as (i & s & it' & F1 & fk & F2 & n' & -> & _ & _ & _ & Hn' & Hr' & _).
    rewrite (IH _ _ _ _ Hr'); [done|lia|cbn in Hf; lia].
Qed.
End places.

(** ** Ranges of a tree *)

Section ranges.
Context {K V : Type} `{OrdLaws K} {MK : MinKeys} (key_size val_size : nat).
Abbreviation repr := (repr key_size val_size).
Abbreviation represents := (represents key_size val_size).
Implicit Types (t : RawBTree K V) (l : list (K * V)) (key : K).

Definition below_key key (e : K * V) : bool := ltb e.1 key.
Definition upto_key key (e : K * V) : bool := leb e.1 key.

Lemma cut_below l key : sorted_map l → cut (below_key key) l (sm_to l key) (sm_from l key).
Proof using Type*.
  intros Hs. split; [by apply to_from|]. split; apply Forall_forall; intros e [_ He]%list_elem_of_In%List.filter_In; [done|].
  unfold below_key. apply not_true_iff_false. rewrite ltb_lt. intros Hlt. apply leb_le in He. by apply not_kle in Hlt.
Qed.

Lemma bound_at_ok t g key :
  repr t g → no_empty_leaf g → ∃ i s, bound_at t key = Some (i, s) ∧
    place_at (tleaves g) i s (sm_to (entries g) key) (sm_from (entries g) key).
Proof using Type*.
  intros Hr Hne. assert (sorted_map (entries g)) as Hsorted by (destruct Hr as [_ Hs]; by apply shape_entries in Hs as [? _]).
  pose proof (to_from (entries g) key Hsorted) as Htf. rewrite entries_tleaves in Htf at 1.
  unfold bound_at. destruct (lower_bound_ok _ _ t g key Hr Hne) as ([[i s]|] & -> & Hs).
  - destruct Hs as (fs & kvs & lo & hi & Hat & Hlt & Hf). exists (Some i), s. split; [done|]. split; [done|]. right.
    exists (ltleaves fs), i, kvs, (rtleaves fs). pose proof (la_tree _ _ _ _ _ _ _ _ Hat) as Hg.
    split_and!; [by rewrite Hg, tleaves_plug|done..|].
    apply (app_inv_tail (sm_from (entries g) key)). rewrite Hf at 2.
    fold (contents (tleaves g)) in Htf. rewrite <- Htf, Hg, tleaves_plug. cbn [tleaves app].
    by rewrite (contents_at _ i kvs _ s), rentries_eq.
  - exists None, 0. split; [done|]. split; [done|]. by left.
Qed.

Lemma below_upto key b : Forall (λ e, below_key key e = true) b → Forall (λ e, upto_key key e = true) b.
Proof using Type*.
  intros Hb. apply (Forall_impl _ _ _ Hb). intros e He. unfold upto_key. by apply leb_le, klt_kle, ltb_lt.
Qed.

Lemma above_upto key a : all_above key a → Forall (λ e, upto_key key e = false) a.
Proof using Type*.
  unfold all_above. rewrite Forall_fmap. intros Ha. apply (Forall_impl _ _ _ Ha). intros e He.
  apply not_true_iff_false. unfold upto_key. rewrite leb_le. intros Hle. by apply not_klt in Hle.
Qed.

(** Cutting behind a key: the key is there, or not. *)
Lemma cut_present l key v b a :
  sorted_map l → cut (below_key key) l b ((key, v) :: a) → cut (upto_key key) l (b ++ [(key, v)]) a.
Proof using Type*.
  intros Hs (-> & Hb & _). apply sorted_middle in Hs as (_ & Ha & _). split; [by rewrite <- app_assoc|].
  split; [|by apply above_upto]. apply Forall_app. split; [by apply below_upto|]. constructor; [|constructor]. unfold upto_key. by apply leb_le, kle_refl.
Qed.

Lemma cut_absent l key b a :
  sorted_map l → cut (below_key key) l b a → (∀ k v a', a = (k, v) :: a' → k ≠ key) → cut (upto_key key) l b a.
Proof using Type*.
  intros Hs (Hl & Hb & Ha) Hne. split; [done|]. split; [by apply below_upto|]. destruct a as [|[k v] a]; [constructor|].
  rewrite Hl in Hs. apply sorted_middle in Hs as (_ & Hka & _). apply Forall_cons in Ha as [Hk _].
  apply above_upto, all_above_cons. assert (klt key k) as Hlt.
  { unfold below_key, ltb in Hk. cbn in Hk. unfold klt. rewrite (cmp_opp k key).
    destruct (cmp k key) eqn:E; [|done|done]. apply cmp_eq in E. by destruct (Hne k v a eq_refl). }
  split; [done|]. by apply (all_above_trans _ k).
Qed.

(** The place behind a key. *)
Lemma bound_behind_ok t g key :
  repr t g → no_empty_leaf g → ∃ i s b a, bound_behind t key = Some (i, s) ∧
    place_at (tleaves g) i s b a ∧ cut (upto_key key) (entries g) b a.
Proof using Type*.
  intros Hr Hne. destruct (bound_at_ok t g key Hr Hne) as (i & s & Hb & Hp).
  assert (sorted_map (entries g)) as Hsorted by (destruct Hr as [_ Hs]; by apply shape_entries in Hs as [? _]).
  destruct (cut_below (entries g) key Hsorted) as (Hl & Hto & Hfrom). unfold bound_at, bound_behind in *.
  destruct (lower_bound t key) as [[[j u]|]|]; [| |done]; injection Hb as <- <-.
  2:{ exists None, 0, (sm_to (entries g) key), (sm_from (entries g) key). split_and!; [done..|].
      apply cut_absent; [done|by split|]. intros k v a' E. destruct Hp as [_ [[_ ?]|(? & ? & ? & ? & _ & ? & _)]]; [congruence|done]. }
  destruct Hp as [Hcont [[? _]|(F1 & fi & fk & F2 & HL & [= <-] & Hs & Hbef)]]; [done|].
  pose proof (repr_chained _ _ _ _ Hr) as Ht. pose proof (ch_chain _ _ Ht) as Hc. rewrite HL in Hc.
  destruct (chain_here _ _ _ _ _ Hc) as [Hk Hlk]. rewrite Hk.
  destruct (lookup_lt_is_Some_2 _ _ Hs) as [[k v] Hkv]. rewrite Hkv.
  assert (sm_from (entries g) key = (k, v) :: drop (S u) fk ++ contents F2) as Hfr.
  { rewrite HL, (contents_at F1 j fk F2 u), Hbef in Hcont. apply app_inv_head in Hcont. by rewrite <- Hcont, (drop_S _ _ _ Hkv). }
  rewrite Hfr in Hcont, Hl, Hfrom. case_bool_decide as Ek.
  2:{ exists (Some j), u, (sm_to (entries g) key), ((k, v) :: drop (S u) fk ++ contents F2). split_and!; [done| |].
      - split; [done|]. right. by exists F1, j, fk, F2.
      - apply cut_absent; [done|by split|]. intros k0 v0 a' [= <- _ _] ->. apply Ek. by apply cmp_eq. }
  apply cmp_eq in Ek as ->. set (b := sm_to (entries g) key ++ [(key, v)]).
  assert (cut (upto_key key) (entries g) b (drop (S u) fk ++ contents F2)) as Hcut by (by apply cut_present; [|split]).
  assert (contents (tleaves g) = b ++ drop (S u) fk ++ contents F2) as Hcont' by by rewrite Hcont; unfold b; rewrite <- app_assoc.
  assert (b = contents F1 ++ take (S u) fk) as Hb by (unfold b; by rewrite Hbef, (take_S_r _ _ _ Hkv), app_assoc).
  destruct (Nat.ltb_spec (u + 1) (length fk)) as [Hlt|Hge].
  - exists (Some j), (u + 1), b, (drop (S u) fk ++ contents F2). split_and!; [done| |done].
    split; [done|]. right. exists F1, j, fk, F2. by rewrite Nat.add_1_r in *.
  - rewrite Hlk. exists (head F2.*1), 0, b, (drop (S u) fk ++ contents F2). split_and!; [done| |done].
    split; [done|]. rewrite drop_ge in * by lia. destruct F2 as [|[i2 k2] F2]; [by left|]. right.
    exists (F1 ++ [(j, fk)]), i2, k2, F2. split_and!; [by rewrite HL, <- app_assoc|done| |].
    + unfold no_empty_leaf in Hne. rewrite Forall_forall in Hne. pose proof (Hne (i2, k2)) as Hk2. rewrite HL in Hk2.
      destruct k2; [|cbn; lia]. destruct Hk2; [set_solver|done].
    + by rewrite take_0, app_nil_r, contents_app, contents_cons, app_nil_r, Hb, take_ge by lia.
Qed.

Definition from_bound (b : Bound K) (k : K) : bool :=
  match b with Included k' => leb k' k | Excluded k' => ltb k' k | Unbounded => true end.
Definition to_bound (b : Bound K) (k : K) : bool :=
  match b with Included k' => leb k k' | Excluded k' => ltb k k' | Unbounded => true end.

Lemma leb_negb x y : leb x y = negb (ltb y x).
Proof using Type*. unfold leb, ltb. rewrite (cmp_opp y x). by destruct (cmp y x). Qed.

Lemma cut_ext (p q : K * V → bool) l b a : (∀ e, p e = q e) → cut p l b a → cut q l b a.
Proof using Type.
  intros Hpq (Hl & Hb & Ha). split_and!; [done|..]; [apply (Forall_impl _ _ _ Hb)|apply (Forall_impl _ _ _ Ha)];
    intros e He; by rewrite <- Hpq.
Qed.

Lemma start_ok t g b :
  repr t g → no_empty_leaf g → ∃ i s pre rest,
    match b with Included key => bound_at t key | Excluded key => bound_behind t key | Unbounded => Some (first_leaf t, 0) end =
      Some (i, s) ∧
    place_at (tleaves g) i s pre rest ∧ cut (λ e, negb (from_bound b e.1)) (entries g) pre rest.
Proof using Type*.
  intros Hr Hne. assert (sorted_map (entries g)) as Hs by (destruct Hr as [_ Hs]; by apply shape_entries in Hs as [? _]).
  destruct b as [key|key|].
  - destruct (bound_at_ok t g key Hr Hne) as (i & s & -> & Hp). eexists _, _, _, _. split_and!; [done|exact Hp|].
    eapply cut_ext; [|by apply cut_below]. intros e. cbn. by rewrite leb_negb, negb_involutive.
  - destruct (bound_behind_ok t g key Hr Hne) as (i & s & pre & rest & -> & Hp & Hc). eexists _, _, _, _. split_and!; [done|exact Hp|].
    eapply cut_ext; [|exact Hc]. intros e. unfold upto_key. by rewrite leb_negb.
  - pose proof (repr_chained _ _ _ _ Hr) as Ht. exists (first_leaf t), 0, [], (entries g). split; [done|]. split.
    + rewrite entries_tleaves. split; [done|]. rewrite (ch_first _ _ Ht). destruct (tleaves g) as [|[i kvs] L] eqn:EL; [by left|].
      right. exists [], i, kvs, L. split_and!; try done. unfold no_empty_leaf in Hne. rewrite EL in Hne.
      apply Forall_cons in Hne as [Hk _]. destruct kvs; [done|cbn; lia].
    + split; [done|]. split; [constructor|]. by apply Forall_true.
Qed.

Lemma finish_ok t g b :
  repr t g → no_empty_leaf g → ∃ i s pre rest,
    match b with Included key => bound_behind t key | Excluded key => bound_at t key | Unbounded => Some (None, 0) end =
      Some (i, s) ∧
    place_at (tleaves g) i s pre rest ∧ cut (λ e, to_bound b e.1) (entries g) pre rest.
Proof using Type*.
  intros Hr Hne. assert (sorted_map (entries g)) as Hs by (destruct Hr as [_ Hs]; by apply shape_entries in Hs as [? _]).
  destruct b as [key|key|].
  - destruct (bound_behind_ok t g key Hr Hne) as (i & s & pre & rest & -> & Hp & Hc). by eexists _, _, _, _.
  - destruct (bound_at_ok t g key Hr Hne) as (i & s & -> & Hp). eexists _, _, _, _. split_and!; [done|exact Hp|].
    by apply cut_below.
  - exists None, 0, (entries g), []. split; [done|]. split; [split; [by rewrite app_nil_r, entries_tleaves|by left]|].
    split; [by rewrite app_nil_r|]. split; [by apply Forall_true|constructor].
Qed.

Lemma ordered_cover sb eb k : bounds_ordered sb eb → from_bound sb k = false → to_bound eb k = true.
Proof using Type*.
  destruct sb as [a|a|], eb as [b|b|]; cbn; try done; rewrite ?leb_negb, ?negb_false_iff, ?negb_true_iff; intros Hab.
  - intros Hk%ltb_lt. apply not_true_iff_false. rewrite ltb_lt. intros Hbk. apply not_kle in Hbk. apply Hbk.
    by apply klt_kle, (klt_kle_trans _ a).
  - intros Hk%ltb_lt. apply ltb_lt. by apply (klt_kle_trans _ a).
  - intros Hk. apply not_true_iff_false. rewrite ltb_lt. intros Hbk. apply not_true_iff_false in Hk. apply Hk, ltb_lt.
    by apply (kle_klt_trans _ b).
  - intros Hk. apply ltb_lt. apply (kle_klt_trans _ a); [|done]. apply leb_le. by rewrite leb_negb, Hk.
Qed.

Lemma range_ok t g sb eb :
  repr t g → no_empty_leaf g → bounds_ordered sb eb →
  ∃ it pre post, range t sb eb = Some it ∧
    range_at (tleaves g) it (length (tleaves g)) pre (List.filter (λ e, in_bounds sb eb e.1) (entries g)) post.
Proof using Type*.
  intros Hr Hne Hord. destruct (start_ok t g sb Hr Hne) as (i & s & pre & rest & Hs & Hp & Hc).
  destruct (finish_ok t g eb Hr Hne) as (j & u & epre & post & He & Hep & Hec).
  unfold range, resolve_range_bounds. rewrite Hs, He. eexists _, pre, post. split; [reflexivity|].
  destruct (cut_between (λ e, from_bound sb e.1) (λ e, to_bound eb e.1) _ _ _ _ _ Hc Hec) as (mid & -> & -> & Hmid).
  { intros e. by apply ordered_cover. }
  assert (List.filter (λ e, in_bounds sb eb e.1) (entries g) = mid) as -> by exact Hmid.
  split; [by apply place_walk|done].
Qed.

Lemma collect_range_ok t l sb eb :
  represents t l → no_empty_leaf_of t → bounds_ordered sb eb →
  collect_range t sb eb = Some (List.filter (λ e, in_bounds sb eb e.1) l).
Proof using Type*.
  intros [[He ->]|(g & Hr & ->)] Hne Hord; unfold collect_range.
  { destruct He as (Hroot & Hf & _). unfold range, resolve_range_bounds, bound_at, bound_behind, lower_bound. rewrite Hroot, Hf.
    destruct sb, eb; cbn; done. }
  pose proof (no_empty_leaf_repr _ _ _ _ Hr Hne) as Hne'. pose proof (repr_chained _ _ _ _ Hr) as Ht.
  destruct (range_ok t g sb eb Hr Hne' Hord) as (it & pre & post & -> & Hat).
  apply (range_items_ok t (tleaves g) it _ _ _ _ _ Ht Hat).
  - pose proof (ch_fuel _ _ Ht). unfold walk_fuel. lia.
  - rewrite (h_len _ _ (proj1 Hr)). pose proof (List.filter_length_le (λ e, in_bounds sb eb e.1) (entries g)). lia.
Qed.
(** C38: ranges.  On a map without empty leaves the items of a range, for every kind
    of bounds with the start not behind the end, are the entries within the bounds,
    in key order. *)
Theorem btree_range_correct t l sb eb :
  represents t l → no_empty_leaf_of t → bounds_ordered sb eb →
  collect_range t sb eb = Some (List.filter (λ e, in_bounds sb eb e.1) l).
Proof using Type*. apply collect_range_ok. Qed.
End ranges.

#[local] Existing Instance full_nodes.

(** A range with its start behind its end is not empty and does not panic, as
    it does for the maps of the standard library: it yields everything from its
    start on. *)
Theorem inverted_range_runs_on :
  collect_range (sample_tree 9) (Included 7) (Excluded 2) = Some [(7, 70); (8, 80); (9, 90)].
Proof. vm_compute. reflexivity. Qed.

Lemma btree_range_correct_witness :
  collect_range (sample_tree 9) (Excluded 3) (Included 7) = Some [(4, 40); (5, 50); (6, 60); (7, 70)].
Proof.
  rewrite (btree_range_correct small_key small_val (sample_tree 9) (sample 9) (Excluded 3) (Included 7)).
  - vm_compute. reflexivity.
  - exact sample_represents_9.
  - unfold no_empty_leaf_of. apply (bool_decide_unpack _). vm_compute. exact I.
  - vm_compute. discriminate.
Defined.
