(* ===== verification/BTreeSurgery.v ===== *)
(** * The B+ tree engine: tree surgery

    The last part of [flat_btree/raw.rs] and the operations of [flat_btree/map.rs]
    over it: grafting a tree onto the right edge of another one ([append]), and
    cutting a tree in two along the path to a key ([split_off]), with the estimate
    that chooses the half to copy.  A key that is moved out of a node and dropped
    has no further effect and is not tracked. *)

From Stdlib Require Import ZArith Lia.
From S2P Require Import Prelude Float64 BTree BTreeIter BTreeDrain BTreeMap.

(** ** Copying subtrees *)

Section copy.
Context {K V : Type}.
Implicit Types (a src : Arena K V) (t other : RawBTree K V).

(** The arena copied into and the ends of the chain of copied leaves. *)
Record Copy := {
  cp_arena : Arena K V;
  dst_first_leaf : option nat;
  dst_chain_tail : option nat;
}.

Definition copy_with (c : Copy) a : Copy :=
  {| cp_arena := a; dst_first_leaf := dst_first_leaf c; dst_chain_tail := dst_chain_tail c |}.

(** The copy of a leaf goes to the end of the chain. *)
Definition copy_leaf a (tail : option nat) (dst : nat) (kvs : list (K * V)) : option (Arena K V) :=
  let a := set_body a dst (LeafBody kvs) in
  let a := set_parent a dst None in
  let a := set_links a dst (tail, None) in
  match tail with
  | Some prev => do ' (prev_prev, _) <- links a !! prev; Some (set_links a prev (prev_prev, Some dst))
  | None => Some a
  end.

(** [internal_child_ptr(node, i).write(child)] and the child's parent. *)
Definition adopt a (node i child : nat) : option (Arena K V) :=
  do ' (keys, children) <- internal_node a node;
  if i <? length children then
    Some (set_parent (set_body a node (InternalBody keys (<[i := child]> children))) child (Some node))
  else None.

(** The loop over the children of a copied node; [copy] copies one subtree. *)
Fixpoint copy_children {S} (arena_of : S → Arena K V) (put : S → Arena K V → S) (copy : nat → S → option (nat * S))
    (dst i : nat) (children : list nat) (s : S) : option S :=
  match children with
  | [] => Some s
  | child :: children' =>
      do ' (new_c, s) <- copy child s;
      do a <- adopt (arena_of s) dst i new_c;
      copy_children arena_of put copy dst (i + 1) children' (put s a)
  end.

(** [fuel]: the number of levels. *)
(*@ flat_btree/raw.rs : fn clone_subtree_into *)
Fixpoint clone_subtree_into (fuel : nat) (src_arena : Arena K V) (src : nat) (c : Copy) : option (nat * Copy) :=
  match fuel with
  | 0 => None
  | S fuel' =>
      do b <- bodies src_arena !! src;
      do ' (dst, a) <- alloc_node (cp_arena c);
      match b with
      | LeafBody kvs =>
          do a <- copy_leaf a (dst_chain_tail c) dst kvs;
          Some (dst, {| cp_arena := a;
                        dst_first_leaf := match dst_first_leaf c with Some i => Some i | None => Some dst end;
                        dst_chain_tail := Some dst |})
      | InternalBody _ children =>
          let a := set_parent (set_body a dst b) dst None in
          do c <- copy_children cp_arena copy_with (clone_subtree_into fuel' src_arena) dst 0 children (copy_with c a);
          Some (dst, c)
      end
  end.

(** A move frees the nodes it has copied. *)
Record Move := { mv_src : Arena K V; mv_copy : Copy; mv_count : nat }.

Definition move_with (m : Move) (src : Arena K V) a : Move :=
  {| mv_src := src; mv_copy := copy_with (mv_copy m) a; mv_count := mv_count m |}.

(*@ flat_btree/raw.rs : fn deep_copy_subtree *)
Fixpoint deep_copy_subtree (fuel : nat) (src : nat) (m : Move) : option (nat * Move) :=
  match fuel with
  | 0 => None
  | S fuel' =>
      do b <- bodies (mv_src m) !! src;
      let c := mv_copy m in
      do ' (dst, a) <- alloc_node (cp_arena c);
      match b with
      | LeafBody kvs =>
          do a <- copy_leaf a (dst_chain_tail c) dst kvs;
          Some (dst,
            {| mv_src := free_node (mv_src m) src;
               mv_copy := {| cp_arena := a;
                             dst_first_leaf := match dst_chain_tail c with Some _ => dst_first_leaf c | None => Some dst end;
                             dst_chain_tail := Some dst |};
               mv_count := mv_count m + length kvs |})
      | InternalBody _ children =>
          let a := set_parent (set_body a dst b) dst None in
          do m <- copy_children (λ m, cp_arena (mv_copy m)) (λ m, move_with m (mv_src m)) (deep_copy_subtree fuel') dst 0 children
            (move_with m (mv_src m) a);
          Some (dst, {| mv_src := free_node (mv_src m) src; mv_copy := mv_copy m; mv_count := mv_count m |})
      end
  end.

(** The children at a level, in order. *)
Fixpoint deep_copy_all (fuel : nat) (cs : list nat) (m : Move) : option (list nat * Move) :=
  match cs with
  | [] => Some ([], m)
  | child :: cs' =>
      do ' (new_c, m) <- deep_copy_subtree fuel child m;
      do ' (copied, m) <- deep_copy_all fuel cs' m;
      Some (new_c :: copied, m)
  end.

(** ** Edges *)

(*@ flat_btree/raw.rs : pub(crate) enum CollapseEdge *)
Inductive CollapseEdge := Leftmost | Rightmost.

(** The loop: [parent] holds the link to [current]; [fuel]: the number of levels. *)
(*@ flat_btree/raw.rs : pub(crate) fn collapse_along_edge *)
Fixpoint collapse_along_edge (fuel : nat) a (edge : CollapseEdge) (new_root : nat)
    (parent : option (nat * nat)) (current : nat) : option (Arena K V * nat) :=
  match fuel with
  | 0 => None
  | S fuel' =>
      do b <- bodies a !! current;
      match b with
      | LeafBody _ => Some (a, new_root)
      | InternalBody keys children =>
          let len := length keys in
          if len =? 0 then
            do only <- children !! 0;
            let a := set_parent a only (fst <$> parent) in
            do ' (a, new_root) <-
              (match parent with
               | Some (p, slot) =>
                   do ' (pkeys, pchildren) <- internal_node a p;
                   Some (set_body a p (InternalBody pkeys (<[slot := only]> pchildren)), new_root)
               | None => Some (a, only)
               end);
            collapse_along_edge fuel' (free_node a current) edge new_root parent only
          else
            let slot := match edge with Leftmost => 0 | Rightmost => len end in
            do child <- children !! slot;
            collapse_along_edge fuel' a edge new_root (Some (current, slot)) child
      end
  end.

(** The number of steps along the leftmost children. *)
(*@ flat_btree/raw.rs : pub(crate) fn compute_height *)
Fixpoint compute_height (fuel : nat) a (node : nat) : option nat :=
  match fuel with
  | 0 => None
  | S fuel' =>
      do b <- bodies a !! node;
      match b with
      | LeafBody _ => Some 0
      | InternalBody _ children =>
          do child <- children !! 0;
          do h <- compute_height fuel' a child;
          Some (S h)
      end
  end.
End copy.
Arguments Copy : clear implicits.
Arguments Move : clear implicits.

Section surgery.
Context {K V : Type} `{Ord K} (key_size val_size : nat).
Implicit Types (a : Arena K V) (t other : RawBTree K V).

Abbreviation LEAF_CAP := (LEAF_CAP key_size val_size).
Abbreviation INTERNAL_CAP := (INTERNAL_CAP key_size).

(** ** Grafting *)

(** The descent along the rightmost children, with its path. *)
(*@ flat_btree/raw.rs : 2570-2585 : graft_combine_roots (descent) *)
Fixpoint right_spine a (n : nat) (cur : nat) (path : PathBuf) : option (nat * PathBuf) :=
  match n with
  | 0 => Some (cur, path)
  | S n' =>
      do ' (keys, children) <- internal_node a cur;
      let cur_len := length keys in
      do path <- path_push path (cur, cur_len);
      do child <- children !! cur_len;
      right_spine a n' child path
  end.

(*@ flat_btree/raw.rs : fn graft_combine_roots *)
Definition graft_combine_roots t (other_root : nat) (separator : K) (other_height : nat) : option (RawBTree K V) :=
  do r <- root t;
  if height t =? other_height then grow_root t separator r other_root
  else
    let descend := height t - other_height - 1 in
    do ' (cur, path) <- right_spine (arena t) descend r [];
    do ' (keys, _) <- internal_node (arena t) cur;
    let cur_len := length keys in
    if cur_len <? INTERNAL_CAP then
      do t <- internal_insert_at key_size t cur cur_len separator other_root;
      Some (with_arena t (set_parent (arena t) other_root (Some cur)))
    else
      do ' (promoted, new_internal, t) <- internal_split_and_insert key_size t cur cur_len separator other_root;
      propagate_split key_size t path promoted new_internal.

(** The new [self] and the new [other], or nothing when [other] is taller. *)
(*@ flat_btree/raw.rs : pub(crate) fn append_graft_disjoint *)
Definition append_graft_disjoint t other : option (option (RawBTree K V * RawBTree K V)) :=
  if height t <? height other then Some None
  else
    do other_root <- root other;
    do ' (other_root_in_self, c) <-
      clone_subtree_into (S (height other)) (arena other) other_root
        {| cp_arena := arena t; dst_first_leaf := None; dst_chain_tail := last_leaf t |};
    do last <- last_leaf t;
    do ' (last_prev, _) <- links (cp_arena c) !! last;
    let a := set_links (cp_arena c) last (last_prev, dst_first_leaf c) in
    do first <- dst_first_leaf c;
    do kvs <- leaf_kvs a first;
    do ' (separator, _) <- kvs !! 0;
    do t <- graft_combine_roots (with_arena t a) other_root_in_self separator (height other);
    Some (Some (with_len (with_last_leaf t (dst_chain_tail c)) (len t + len other), tree_new)).

(*@ flat_btree/map.rs : pub fn append_graft *)
Definition append_graft (debug_assertions : bool) t other : option (RawBTree K V * RawBTree K V) :=
  if len other =? 0 then Some (t, other)
  else if len t =? 0 then Some (other, t)
  else
    do apart <- (if debug_assertions then ranges_apart t other else Some true);
    if negb apart then None
    else
      do grafted <- append_graft_disjoint t other;
      match grafted with
      | Some r => Some r
      | None => append_drain key_size val_size t other
      end.

(*@ flat_btree/map.rs : pub fn append( *)
Definition append (debug_assertions : bool) t other : option (RawBTree K V * RawBTree K V) :=
  if len other =? 0 then Some (t, other)
  else if len t =? 0 then Some (other, t)
  else
    do self_max <- last_key_value t;
    do ' (self_max, _) <- self_max;
    do other_min <- first_key_value other;
    do ' (other_min, _) <- other_min;
    if ltb self_max other_min then append_graft debug_assertions t other
    else
      do self_min <- first_key_value t;
      do ' (self_min, _) <- self_min;
      do other_max <- last_key_value other;
      do ' (other_max, _) <- other_max;
      if ltb other_max self_min then append_graft debug_assertions other t
      else append_drain key_size val_size t other.

(** ** Cutting *)

(** The state of the walk from the boundary leaf to the root: the two arenas, and
    the roots of the two halves at the current level. *)
Record Cut := { ct_move : Move K V; left_root_below : option nat; right_root_below : option nat }.

(** A node of the copy: [children], already copied, between [keys]. *)
(*@ flat_btree/raw.rs : 2948-2974 : split_off_surgical_right (the new node) *)
Definition build_node a (keys : list K) (children : list nat) : option (option nat * Arena K V) :=
  match children with
  | [] => Some (None, a)
  | _ =>
      do ' (node, a) <- alloc_node a;
      let a := set_parent a node None in
      let a := set_body a node (InternalBody keys children) in
      Some (Some node, set_parents a children node)
  end.

(** The parent as the left half keeps it. *)
(*@ flat_btree/raw.rs : 2976-3000 : split_off_surgical_right (the kept node) *)
Definition keep_left_side a (parent_idx child_pos : nat) (keys : list K) (children : list nat) (left_root_below : option nat) :
    option nat * Arena K V :=
  match left_root_below with
  | Some lrb =>
      let kept := InternalBody (take child_pos keys) (take (child_pos + 1) (<[child_pos := lrb]> children)) in
      (Some parent_idx, set_body (set_parent a lrb (Some parent_idx)) parent_idx kept)
  | None =>
      if child_pos =? 0 then (None, free_node a parent_idx)
      else (Some parent_idx, set_body a parent_idx (InternalBody (take (child_pos - 1) keys) (take child_pos children)))
  end.

(** One level of the walk of [split_off_surgical_right]; [fuel]: the number of
    levels of a subtree. *)
(*@ flat_btree/raw.rs : 2880-3001 : split_off_surgical_right (phase 2) *)
Definition cut_right_level (fuel : nat) (parent_idx child_pos : nat) (c : Cut) : option Cut :=
  do ' (keys, children) <- internal_node (mv_src (ct_move c)) parent_idx;
  let moved_children := drop (child_pos + 1) children in
  let separator_at_split := keys !! child_pos in
  let keys_after_split := drop (child_pos + 1) keys in
  do ' (copied_children, m) <- deep_copy_all fuel moved_children (ct_move c);
  do ' (new_right_keys, new_right_children) <-
    (match right_root_below c with
     | Some rrb =>
         match copied_children with
         | [] => Some (keys_after_split, [rrb])
         | _ => do separator <- separator_at_split; Some (separator :: keys_after_split, rrb :: copied_children)
         end
     | None => Some (keys_after_split, copied_children)
     end);
  do ' (right_root_below, right_arena) <- build_node (cp_arena (mv_copy m)) new_right_keys new_right_children;
  let '(left_root_below, a) := keep_left_side (mv_src m) parent_idx child_pos keys children (left_root_below c) in
  Some {| ct_move := move_with m a right_arena; left_root_below := left_root_below; right_root_below := right_root_below |}.

(** The levels, from the parent of the boundary leaf to the root. *)
Fixpoint cut_levels (level : nat → nat → Cut → option Cut) (spine : PathBuf) (c : Cut) : option Cut :=
  match spine with
  | [] => Some c
  | (parent_idx, child_pos) :: spine' => do c <- level parent_idx child_pos c; cut_levels level spine' c
  end.

(** The root of a half: without a parent, and without nodes of one child along
    the cut; its height. *)
(*@ flat_btree/raw.rs : 3004-3011 : split_off_surgical_right (the root of a half) *)
Definition finish_half (fuel : nat) a (half : option nat) (edge : CollapseEdge) : option (Arena K V * option nat * nat) :=
  match half with
  | None => Some (a, None, 0)
  | Some r =>
      do ' (a, r) <- collapse_along_edge fuel (set_parent a r None) edge r None r;
      do h <- compute_height fuel a r;
      Some (a, Some r, h)
  end.

(** [leaf_next_ptr] and [leaf_prev_ptr] of an end of the chain. *)
Definition cut_next a (leaf : option nat) : option (Arena K V) :=
  match leaf with Some i => do ' (prev, _) <- links a !! i; Some (set_links a i (prev, None)) | None => Some a end.
Definition cut_prev a (leaf : option nat) : option (Arena K V) :=
  match leaf with Some i => do ' (_, next) <- links a !! i; Some (set_links a i (None, next)) | None => Some a end.

(** A tree from its arena, root, height, chain and number of entries. *)
Definition half_tree a (root : option nat) (height : nat) (first last : option nat) (n : nat) : RawBTree K V :=
  {| arena := a; root := root; first_leaf := first; last_leaf := last; len := n; height := height;
     dropped_seps := [] |}.

(** The entries of a leaf that go to a leaf of their own. *)
Definition new_leaf a (kvs : list (K * V)) : option (nat * Arena K V) :=
  do ' (dst, a) <- alloc_node a;
  let a := set_parent a dst None in
  let a := set_links a dst (None, None) in
  Some (dst, set_body a dst (LeafBody kvs)).

(** The two parts of the boundary leaf. *)
(*@ flat_btree/raw.rs : 2823-2873 : split_off_surgical_right (phase 1) *)
Definition begin_right t (leaf_idx slot_idx : nat) : option Cut :=
  do kvs <- leaf_kvs (arena t) leaf_idx;
  if slot_idx =? 0 then
    do ' (dst, m) <-
      deep_copy_subtree 1 leaf_idx
        {| mv_src := arena t; mv_count := 0;
           mv_copy := {| cp_arena := arena_new; dst_first_leaf := None; dst_chain_tail := None |} |};
    Some {| ct_move := m; left_root_below := None; right_root_below := Some dst |}
  else
    do ' (right_dst, right_arena) <- new_leaf arena_new (drop slot_idx kvs);
    let a := set_body (arena t) leaf_idx (LeafBody (take slot_idx kvs)) in
    do ' (prev, _) <- links a !! leaf_idx;
    let a := set_links a leaf_idx (prev, None) in
    Some {| ct_move :=
              {| mv_src := a; mv_count := length kvs - slot_idx;
                 mv_copy := {| cp_arena := right_arena; dst_first_leaf := Some right_dst; dst_chain_tail := Some right_dst |} |};
            left_root_below := Some leaf_idx; right_root_below := Some right_dst |}.

(** The copied half as a tree. *)
Definition finish_copy (fuel : nat) (m : Move K V) (half : option nat) (edge : CollapseEdge) : option (RawBTree K V) :=
  let first := dst_first_leaf (mv_copy m) in
  let tail := dst_chain_tail (mv_copy m) in
  do ' (a, root, height) <- finish_half fuel (cp_arena (mv_copy m)) half edge;
  do a <- cut_prev a first;
  do a <- cut_next a tail;
  Some (half_tree a root height first tail (mv_count m)).

(*@ flat_btree/raw.rs : 3003-3074 : split_off_surgical_right (phases 3 and 4) *)
Definition finish_right t (leaf_idx slot_idx : nat) (original_leaf_prev : option nat) (c : Cut) :
    option (RawBTree K V * RawBTree K V) :=
  let m := ct_move c in
  do ' (a, self_root, self_height) <- finish_half (S (height t)) (mv_src m) (left_root_below c) Rightmost;
  let new_last := if slot_idx =? 0 then original_leaf_prev else Some leaf_idx in
  do a <- cut_next a new_last;
  let new_first := match new_last with Some _ => first_leaf t | None => None end in
  if len t <? mv_count m then None
  else
    let kept := half_tree a self_root self_height new_first new_last (len t - mv_count m) in
    do right <- finish_copy (S (height t)) m (right_root_below c) Leftmost;
    Some (kept, right).

(** What stays in [self] and what is returned. *)
(*@ flat_btree/raw.rs : 2786-2821 : split_off_surgical_right *)
Definition split_off_surgical_right t (at_key : K) : option (RawBTree K V * RawBTree K V) :=
  match root t with
  | None => Some (t, tree_new)
  | Some _ =>
      do boundary <- lower_bound t at_key;
      match boundary with
      | None => Some (t, tree_new)
      | Some (leaf_idx, slot_idx) =>
          if bool_decide (Some leaf_idx = first_leaf t) && (slot_idx =? 0) then Some (tree_new, t)
          else
            do spine <- path_to_node t leaf_idx;
            do ' (original_leaf_prev, _) <- links (arena t) !! leaf_idx;
            do c <- begin_right t leaf_idx slot_idx;
            do c <- cut_levels (cut_right_level (S (height t))) spine c;
            finish_right t leaf_idx slot_idx original_leaf_prev c
      end
  end.

(** The chain that ends at [tail] before the one that starts at [first]. *)
(*@ flat_btree/raw.rs : 3276-3283 : split_off_surgical_left (joining the chains) *)
Definition join_chains a (tail first : nat) : option (Arena K V) :=
  do ' (tail_prev, _) <- links a !! tail;
  let a := set_links a tail (tail_prev, Some first) in
  do ' (_, first_next) <- links a !! first;
  Some (set_links a first (Some tail, first_next)).

(** One level of the walk of [split_off_surgical_left]: the copied leaves of the
    level form a chain of their own, put before the others. *)
(*@ flat_btree/raw.rs : 3173-3318 : split_off_surgical_left (phase 2) *)
Definition cut_left_level (fuel : nat) (parent_idx child_pos : nat) (c : Cut) : option Cut :=
  do ' (keys, children) <- internal_node (mv_src (ct_move c)) parent_idx;
  let moved_children := take child_pos children in
  let separator_at_split := if 0 <? child_pos then keys !! (child_pos - 1) else None in
  let keys_before_split := take (child_pos - 1) keys in
  let main := mv_copy (ct_move c) in
  do ' (copied_children, temp) <-
    deep_copy_all fuel moved_children
      {| mv_src := mv_src (ct_move c); mv_count := 0;
         mv_copy := {| cp_arena := cp_arena main; dst_first_leaf := None; dst_chain_tail := None |} |};
  do ' (new_left_keys, new_left_children) <-
    (match left_root_below c with
     | Some lrb =>
         match copied_children with
         | [] => Some (keys_before_split, [lrb])
         | _ => do separator <- separator_at_split; Some (keys_before_split ++ [separator], copied_children ++ [lrb])
         end
     | None => Some (keys_before_split, copied_children)
     end);
  do ' (left_root_below, left_arena) <- build_node (cp_arena (mv_copy temp)) new_left_keys new_left_children;
  do ' (main, left_count) <-
    (match dst_first_leaf (mv_copy temp) with
     | Some temp_first =>
         match dst_first_leaf main with
         | Some left_first =>
             do temp_tail <- dst_chain_tail (mv_copy temp);
             do a <- join_chains left_arena temp_tail left_first;
             Some ({| cp_arena := a; dst_first_leaf := Some temp_first; dst_chain_tail := dst_chain_tail main |},
                   mv_count (ct_move c) + mv_count temp)
         | None =>
             Some ({| cp_arena := left_arena; dst_first_leaf := Some temp_first;
                      dst_chain_tail := dst_chain_tail (mv_copy temp) |},
                   mv_count (ct_move c) + mv_count temp)
         end
     | None => Some (copy_with main left_arena, mv_count (ct_move c))
     end);
  do rrb <- right_root_below c;
  let kept := InternalBody (drop child_pos keys) (rrb :: drop (child_pos + 1) children) in
  let a := set_body (set_parent (mv_src temp) rrb (Some parent_idx)) parent_idx kept in
  Some {| ct_move := {| mv_src := a; mv_copy := main; mv_count := left_count |};
          left_root_below := left_root_below; right_root_below := Some parent_idx |}.

(** The two parts of the boundary leaf. *)
(*@ flat_btree/raw.rs : 3111-3170 : split_off_surgical_left (phase 1) *)
Definition begin_left t (leaf_idx slot_idx : nat) : option Cut :=
  do kvs <- leaf_kvs (arena t) leaf_idx;
  if 0 <? slot_idx then
    do ' (left_dst, left_arena) <- new_leaf arena_new (take slot_idx kvs);
    let a := set_body (arena t) leaf_idx (LeafBody (drop slot_idx kvs)) in
    do ' (_, next) <- links a !! leaf_idx;
    let a := set_links a leaf_idx (None, next) in
    Some {| ct_move :=
              {| mv_src := a; mv_count := slot_idx;
                 mv_copy := {| cp_arena := left_arena; dst_first_leaf := Some left_dst; dst_chain_tail := Some left_dst |} |};
            left_root_below := Some left_dst; right_root_below := Some leaf_idx |}
  else
    Some {| ct_move :=
              {| mv_src := arena t; mv_count := 0;
                 mv_copy := {| cp_arena := arena_new; dst_first_leaf := None; dst_chain_tail := None |} |};
            left_root_below := None; right_root_below := Some leaf_idx |}.

(** The halves are swapped at the end. *)
(*@ flat_btree/raw.rs : 3320-3394 : split_off_surgical_left (phases 3 and 4) *)
Definition finish_left t (leaf_idx : nat) (c : Cut) : option (RawBTree K V * RawBTree K V) :=
  let m := ct_move c in
  do ' (a, self_root, self_height) <- finish_half (S (height t)) (mv_src m) (right_root_below c) Leftmost;
  let new_first := match self_root with Some _ => Some leaf_idx | None => None end in
  do a <- cut_prev a new_first;
  let new_last := match self_root with Some _ => last_leaf t | None => None end in
  if len t <? mv_count m then None
  else
    let kept := half_tree a self_root self_height new_first new_last (len t - mv_count m) in
    do left <- finish_copy (S (height t)) m (left_root_below c) Rightmost;
    Some (left, kept).

(** The walk keeps the right half in place. *)
(*@ flat_btree/raw.rs : 3083-3109 : split_off_surgical_left *)
Definition split_off_surgical_left t (at_key : K) : option (RawBTree K V * RawBTree K V) :=
  match root t with
  | None => Some (t, tree_new)
  | Some _ =>
      do boundary <- lower_bound t at_key;
      match boundary with
      | None => Some (t, tree_new)
      | Some (leaf_idx, slot_idx) =>
          if bool_decide (Some leaf_idx = first_leaf t) && (slot_idx =? 0) then Some (tree_new, t)
          else
            do spine <- path_to_node t leaf_idx;
            do c <- begin_left t leaf_idx slot_idx;
            do c <- cut_levels (cut_left_level (S (height t))) spine c;
            finish_left t leaf_idx c
      end
  end.

(** ** Choosing the half to copy *)

(** [u64] with [saturating_mul]; the sums stay far below the width. *)
Definition saturating_mul64 (a b : Z) : Z := Z.min (a * b) (2 ^ 64 - 1).

Definition f64_of_u64 (n : Z) : f64 := binary_normalize 53 1024 n 0 false.

(** The loop down to the boundary: the estimated sizes on both sides; [fuel]: the
    number of levels. *)
(*@ flat_btree/raw.rs : 553-600 : estimate_right_fraction (loop) *)
Fixpoint estimate_sides (fuel : nat) a (at_key : K) (node : nat) (lsum rsum child_size : Z) : option (Z * Z) :=
  match fuel with
  | 0 => None
  | S fuel' =>
      do b <- bodies a !! node;
      match b with
      | LeafBody kvs =>
          let len := length kvs in
          if len =? 0 then Some (lsum, rsum)
          else
            do pos <- lower_binary at_key kvs.*1;
            Some (lsum + Z.of_nat pos, rsum + Z.of_nat (len - pos))%Z
      | InternalBody keys children =>
          let len := length keys in
          let n_children_full := Z.of_nat (INTERNAL_CAP + 1) in
          do child_idx <- lower_binary at_key keys;
          let on_boundary_key :=
            match keys !! child_idx with Some k => bool_decide (cmp k at_key = Eq) | None => false end in
          let rsum := (rsum + saturating_mul64 (Z.of_nat (len - child_idx)) child_size)%Z in
          if on_boundary_key then Some (lsum + saturating_mul64 (Z.of_nat (child_idx + 1)) child_size, rsum)%Z
          else
            let lsum := (lsum + saturating_mul64 (Z.of_nat child_idx) child_size)%Z in
            do child <- children !! child_idx;
            estimate_sides fuel' a at_key child lsum rsum (Z.max (child_size / n_children_full) 1)
      end
  end.

(*@ flat_btree/raw.rs : pub(crate) fn estimate_right_fraction *)
Definition estimate_right_fraction t (at_key : K) : option (option f64) :=
  match root t with
  | None => Some None
  | Some r =>
      let child_size := Nat.iter (height t - 1) (λ s, saturating_mul64 s (Z.of_nat (INTERNAL_CAP + 1))) (Z.of_nat LEAF_CAP) in
      do ' (lsum, rsum) <- estimate_sides (S (height t)) (arena t) at_key r 0 0 child_size;
      let total := (lsum + rsum)%Z in
      Some (if (total =? 0)%Z then None else Some (f64_div (f64_of_u64 rsum) (f64_of_u64 total)))
  end.

(** The literal 0.70. *)
(*@ flat_btree/map.rs : pub const DEFAULT_RIGHT_FRAC_LEFT_CUTOFF *)
Definition DEFAULT_RIGHT_FRAC_LEFT_CUTOFF : f64 := S754_finite false 6305039478318694 (-53).

(*@ flat_btree/map.rs : pub fn split_off_with_cutoff *)
Definition split_off_with_cutoff t (at_key : K) (cutoff : f64) : option (RawBTree K V * RawBTree K V) :=
  do rf <- estimate_right_fraction t at_key;
  if match rf with Some rf => f64_lt cutoff rf | None => false end then split_off_surgical_left t at_key
  else split_off_surgical_right t at_key.

(*@ flat_btree/map.rs : pub fn split_off< *)
Definition split_off t (at_key : K) : option (RawBTree K V * RawBTree K V) :=
  split_off_with_cutoff t at_key DEFAULT_RIGHT_FRAC_LEFT_CUTOFF.
End surgery.

Example cutoff_literal : f64_div (f64_of_u64 7) (f64_of_u64 10) = DEFAULT_RIGHT_FRAC_LEFT_CUTOFF.
Proof. vm_compute. reflexivity. Qed.
