(* ===== verification/BTreeRuns.v ===== *)
(** * The B+ tree map: runs

    The theorems on the map's operations at trees built by runs of the code. *)

From Stdlib Require Import ZArith Lia.
From S2P Require Import Prelude BinSearch BTree BTreeInv BTreeShape BTreeRep SortedAssoc BTreeSearch BTreeInsert BTreeSpec BTreeBulk BTreeIter BTreeDrain BTreeMap BTreeEnds BTreeCollect.

Lemma sample_represents_any n :
  insert_all small_key small_val tree_new (sample n) = Some (sample_tree n) →
  represents (MK := any_nodes) small_key small_val (sample_tree n) (insert_pairs [] (sample n)).
Proof.
  intros Ht. apply (insert_all_represents (MK := any_nodes) small_key small_val tree_new [] (sample n)); [reflexivity| |exact Ht].
  apply tree_new_represents.
Qed.

Lemma sample_any_9 : represents (MK := any_nodes) small_key small_val (sample_tree 9) (sample 9).
Proof. apply (sample_represents_any 9). vm_compute. reflexivity. Qed.

Lemma sample_any_3 : represents (MK := any_nodes) small_key small_val (sample_tree 3) (sample 3).
Proof. apply (sample_represents_any 3). vm_compute. reflexivity. Qed.

Lemma ready_any n : (2 * Z.of_nat n + 8 <= 2 ^ 31)%Z → bulk_ready (MK := any_nodes) small_key small_val n.
Proof.
  intros Hn. split; [exact Hn|]. unfold bulk_full. set (fuel := leaf_count small_key small_val n). generalize fuel at 2.
  induction fuel as [|fuel IH]; intros c; [exact I|]. intros _. split; [left; reflexivity|apply IH].
Qed.

#[local] Existing Instance full_nodes.

Lemma btree_iter_correct_witness :
  ∃ it it', iter (sample_tree 9) = Some it ∧
    iter_run (sample_tree 9) [Front; Back; Front] it = Some ([Some (1, 10); Some (9, 90); Some (2, 20)], it').
Proof. exact (btree_iter_correct small_key small_val (sample_tree 9) (sample 9) [Front; Back; Front] sample_represents_9). Defined.

Lemma btree_iter_mut_correct_witness :
  ∃ t', for_each_mut 10 (λ k v, k + v) (sample_tree 9) (iter_mut (sample_tree 9)) = Some t' ∧
    represents small_key small_val t' (map_values (λ k v, k + v) (sample 9)).
Proof. exact (btree_iter_mut_correct small_key small_val (sample_tree 9) (sample 9) (λ k v, k + v) sample_represents_9). Defined.

Lemma btree_clear_correct_witness :
  ∃ t' ks, clear (sample_tree 9) = Some (t', {| dropped_entries := sample 9; dropped_keys := ks |}).
Proof.
  destruct (btree_clear_correct small_key small_val (sample_tree 9) (sample 9) sample_represents_9) as (t' & ks & Hc & _).
  exists t', ks. exact Hc.
Defined.

Lemma btree_drain_correct_witness :
  ∃ t' ks, drain_run 2 (sample_tree 9) =
    Some (sample 2, t', drop 2 (sample 9), {| dropped_entries := []; dropped_keys := ks |}).
Proof.
  destruct (btree_drain_correct small_key small_val (sample_tree 9) (sample 9) 2 sample_represents_9) as (t' & ks & Hd & _).
  exists t', ks. exact Hd.
Defined.

Lemma btree_into_iter_correct_witness :
  into_iter_run 2 (sample_tree 9) = Some (sample 2, drop 2 (sample 9), {| dropped_entries := []; dropped_keys := [] |}) ∧
  ∃ k ks, internal_keys (sample_tree 9) = Some (k :: ks).
Proof.
  destruct (btree_into_iter_correct small_key small_val (sample_tree 9) (sample 9) 2 sample_represents_9) as [Hi Hk].
  split; [exact Hi|]. apply Hk; [cbn; lia|vm_compute; lia].
Defined.

Lemma btree_ends_correct_witness :
  ∃ t', pop_last small_key small_val (sample_tree 9) = Some (t', Some (9, 90)) ∧ represents small_key small_val t' (sample 8).
Proof.
  destruct (btree_ends_correct small_key small_val (sample_tree 9) (sample 9)) as (_ & _ & _ & Hp);
    [cbn; lia|reflexivity|exact sample_represents_9|exact Hp].
Defined.

Lemma btree_lookups_correct_witness : get_key_value (sample_tree 9) 5 = Some (Some (5, 50)).
Proof. exact (proj1 (btree_lookups_correct small_key small_val (sample_tree 9) (sample 9) 5 sample_represents_9)). Defined.

Lemma btree_map_entry_correct_witness :
  ∃ t', try_insert small_key small_val (sample_tree 9) 77 7 = Some (t', None) ∧
    represents small_key small_val t' (sm_insert (sample 9) 77 7).
Proof.
  destruct (btree_map_entry_correct small_key small_val (sample_tree 9) (sample 9) 77 7 S) as (_ & _ & Ht);
    [reflexivity|exact sample_represents_9|vm_compute; discriminate|exact Ht].
Defined.

Lemma btree_retain_correct_witness :
  ∃ t' d, retain (sample_tree 9) 0 (λ n k v, (S n, v, Nat.even k)) =
    Some (9, t', [(1, 10); (3, 30); (5, 50); (7, 70); (9, 90)], d) ∧
    represents small_key small_val t' [(2, 20); (4, 40); (6, 60); (8, 80)].
Proof.
  destruct (btree_retain_correct small_key small_val (λ n k v, (S n, v, Nat.even k)) (sample_tree 9) (sample 9) 0 sample_represents_9)
    as (t' & d & Hr & Hrep & _). exists t', d. split; [exact Hr|exact Hrep].
Defined.

Lemma btree_from_iter_correct_witness :
  ∃ t', from_iter small_key small_val [(3, 1); (1, 2); (3, 5)] = Some t' ∧
    represents (MK := any_nodes) small_key small_val t' [(1, 2); (3, 5)].
Proof.
  destruct (btree_from_iter_correct (MK := any_nodes) small_key small_val [(3, 1); (1, 2); (3, 5)] (sample_tree 9) (sample 9))
    as (Hf & _); [reflexivity|apply ready_any; vm_compute; discriminate|exact sample_any_9|apply ready_any; vm_compute; discriminate|exact Hf].
Defined.

Lemma btree_collect_roundtrip_witness :
  ∃ t, from_iter small_key small_val [(3, 1); (1, 2); (3, 5)] = Some t ∧ items t = Some [(1, 2); (3, 5)].
Proof.
  destruct (btree_collect_roundtrip (MK := any_nodes) small_key small_val [(3, 1); (1, 2); (3, 5)])
    as (t & t' & out & Ht & Hi & _ & _ & _ & _ & _); [reflexivity|apply ready_any; vm_compute; discriminate|].
  exists t. split; [exact Ht|]. clear Hi. vm_compute in Ht. injection Ht as <-. vm_compute. reflexivity.
Defined.

Lemma btree_append_correct_witness :
  ∃ t' other', append_drain small_key small_val (sample_tree 9) (sample_tree 3) = Some (t', other') ∧
    represents (MK := any_nodes) small_key small_val t' (sample 9).
Proof.
  destruct (btree_append_correct (MK := any_nodes) small_key small_val (sample_tree 9) (sample_tree 3) (sample 9) (sample 3))
    as ((t' & other' & Ha & Hr & _) & _); [reflexivity|exact sample_any_9|exact sample_any_3| | |].
  - apply ready_any. vm_compute. discriminate.
  - vm_compute. eexists. reflexivity.
  - exists t', other'. split; [exact Ha|exact Hr].
Defined.

Lemma btree_split_off_correct_witness :
  ∃ t' right, split_off_drain small_key small_val (sample_tree 9) 3 = Some (t', right) ∧
    represents (MK := any_nodes) small_key small_val t' (sample 2).
Proof.
  destruct (btree_split_off_correct (MK := any_nodes) small_key small_val (sample_tree 9) (sample 9) 3)
    as (t' & right & Hs & Hl & _); [reflexivity|exact sample_any_9| | | |].
  - unfold no_empty_leaf_of. apply (bool_decide_unpack _). vm_compute. exact I.
  - apply ready_any. vm_compute. discriminate.
  - apply ready_any. vm_compute. discriminate.
  - exists t', right. split; [exact Hs|exact Hl].
Defined.

Lemma btree_eq_correct_witness : eq_map Nat.eqb (sample_tree 9) (sample_tree 3) = Some false.
Proof.
  destruct (btree_eq_correct (MK := any_nodes) small_key small_val (sample_tree 9) (sample_tree 3) (sample 9) (sample 3) Nat.eqb)
    as (b & -> & Hb); [apply Nat.eqb_eq|exact sample_any_9|exact sample_any_3|].
  destruct b; [|reflexivity]. pose proof (proj1 Hb eq_refl) as E. vm_compute in E. discriminate.
Defined.
