(* ===== verification/BTreeSurgerySpec.v ===== *)
(** * The B+ tree engine: what tree surgery does

    A copied subtree is the subtree at other nodes, its leaves at the end of the
    chain; grafting it keeps the tree well formed, and [append] joins two maps
    without empty leaves.  Runs show what an empty leaf at the seam leads to. *)

From Stdlib Require Import ZArith Lia.
From stdpp Require Import list_tactics sorting.
From S2P Require Import Prelude BinSearch BTree BTreeInv BTreeShape BTreeRep SortedAssoc BTreeSearch BTreeSplit BTreeLeaf BTreeInsert BTreeBulk BTreeSpec BTreeIter BTreeDrain BTreeMap BTreeEnds BTreeCollect BTreeRuns BTreeSurgery.

(** ** Trees up to their node indices *)

Section skel.
Context {K V : Type}.
Implicit Types (g : tree K V) (cs : list (tree K V)).

Fixpoint skel g : tree K V :=
  match g with TLeaf _ kvs => TLeaf 0 kvs | TNode _ ks cs => TNode 0 ks (List.map skel cs) end.

Fixpoint levels (n : nat) g : Prop :=
  match n, g with
  | 0, TLeaf _ _ => True
  | S n', TNode _ ks cs => length cs = S (length ks) ∧ Forall (levels n') cs
  | _, _ => False
  end.

Lemma entries_skel g : entries (skel g) = entries g.
Proof.
  induction g as [i kvs|i ks cs IH] using tree_ind_strong; [done|]. cbn.
  induction IH as [|c cs Hc _ IH]; [done|]. cbn. by rewrite Hc, IH.
Qed.

Lemma skel_entries g g' : skel g' = skel g → entries g' = entries g.
Proof. intros E. by rewrite <- (entries_skel g'), E, entries_skel. Qed.

Lemma flat_skel_entries cs cs' : List.map skel cs' = List.map skel cs → List.flat_map entries cs' = List.flat_map entries cs.
Proof.
  revert cs'. induction cs as [|c cs IH]; intros [|c' cs']; try done. cbn. intros [= Hc Hcs].
  by rewrite (skel_entries c c' Hc), (IH cs' Hcs).
Qed.
End skel.

Section seps_map.
Context {K V : Type} (P : option K → option K → tree K V → Prop).
Context (HP : ∀ lo hi g g', skel g' = skel g → P lo hi g → P lo hi g').

Lemma seps_skel lo ks cs cs' hi : List.map skel cs' = List.map skel cs → seps P lo ks cs hi → seps P lo ks cs' hi.
Proof using HP.
  revert lo cs cs'. induction ks as [|k ks IH]; intros lo [|c cs] [|c' cs']; try done; cbn; intros [= Hc Hcs].
  - destruct cs, cs'; try done. by apply HP.
  - intros [Hh Ht]. split; [by eapply HP|by eapply IH].
Qed.
End seps_map.

Section spec.
Context {K V : Type} `{OrdLaws K} {MK : MinKeys} (key_size val_size : nat).
Abbreviation tree := (tree K V).
Abbreviation frame := (frame K V).
Abbreviation shape := (shape key_size val_size).
Abbreviation cshape := (cshape key_size val_size).
Abbreviation repr := (repr key_size val_size).
Abbreviation represents := (represents key_size val_size).
Abbreviation LEAF_CAP := (LEAF_CAP key_size val_size).
Abbreviation INTERNAL_CAP := (INTERNAL_CAP key_size).
Implicit Types (a src : Arena K V) (t other : RawBTree K V) (g : tree) (fs : list frame) (f : frame) (l : list (K * V)) (I L : list nat)
  (B : list (nat * Body K V)) (P : list (nat * option nat)).

Lemma shape_skel n lo hi g g' : skel g' = skel g → shape n lo hi g → shape n lo hi g'.
Proof using Type.
  revert lo hi g g'. induction n as [|n IH]; intros lo hi [i kvs|i ks cs] [i' kvs'|i' ks' cs'] E; try done; cbn in E.
  - by injection E as ->.
  - injection E as -> E. intros [Hl Hs]. split; [done|]. by apply (seps_skel _ IH _ _ cs).
Qed.

Lemma shape_levels n lo hi g : shape n lo hi g → levels n g.
Proof using Type.
  revert lo hi g. induction n as [|n IH]; intros lo hi [i kvs|i ks cs]; try done. intros [_ Hs]. cbn.
  split; [by eapply seps_length|]. revert lo ks Hs. induction cs as [|c cs IHc]; intros lo ks Hs; [done|]. constructor.
  - destruct ks; [destruct cs; [|done]|destruct Hs]; by eapply IH.
  - destruct ks as [|k ks]; [by destruct cs|]. destruct Hs as [_ Hs]. by eapply IHc.
Qed.

(** ** Copying *)

Lemma room_le n n' a : n <= n' → room n' a → room n a.
Proof using Type. unfold room. lia. Qed.

Lemma chain_snoc (mp : link_map) I X L i :
  i ∈ I → i ∉ X.*1 → i ∉ L → field_ok mp I (X ++ chain None L None) →
  let mp' := <[i := (last L, None)]> mp in
  match last L with
  | Some p => ∃ pp, mp' !! p = Some (pp, None) ∧ field_ok (<[p := (pp, Some i)]> mp') I (X ++ chain None (L ++ [i]) None)
  | None => field_ok mp' I (X ++ chain None (L ++ [i]) None)
  end.
Proof using Type.
  intros HI HX Hi Hf mp'. destruct L as [|p L _] using rev_ind; cbn.
  - apply (field_perm _ _ ((i, (None, None)) :: X)); [solve_Permutation|]. cbn in Hf. rewrite app_nil_r in Hf. by apply field_new.
  - rewrite last_snoc. unfold mp'. rewrite last_snoc. exists (last L).
    assert (field_ok (<[i := (Some p, None)]> mp) I ((p, (last L, None)) :: (i, (Some p, None)) :: X ++ chain None L (Some p))) as Hf'.
    { apply (field_perm _ _ ((i, (Some p, None)) :: X ++ chain None (L ++ [p]) None)).
      { rewrite chain_app. cbn. rewrite last_bound_None. solve_Permutation. }
      apply field_new; [done| |done]. rewrite fmap_app, chain_ids. by intros [?|?]%elem_of_app. }
    split; [by apply (field_look _ _ _ _ _ Hf')|]. apply (field_set _ _ _ _ (last L, Some i)) in Hf'.
    eapply field_perm; [|exact Hf']. rewrite <- app_assoc, chain_app. cbn. rewrite last_bound_None. solve_Permutation.
Qed.

Lemma copy_leaf_ok a I B P X L dst kvs :
  dst ∈ I → dst ∉ B.*1 → dst ∉ P.*1 → dst ∉ X.*1 → dst ∉ L → fstate a I B P (X ++ chain None L None) →
  ∃ a', copy_leaf a (last L) dst kvs = Some a' ∧
    fstate a' I ((dst, LeafBody kvs) :: B) ((dst, None) :: P) (X ++ chain None (L ++ [dst]) None) ∧ arena_len a' = arena_len a.
Proof using Type.
  intros HI HB HP HX HL Hs. unfold copy_leaf.
  apply (astate_new_body _ _ dst (LeafBody kvs)) in Hs; [|done..].
  apply (astate_new_parent _ _ dst None) in Hs; [|done..]. destruct Hs as [Hb Hp Hl Ha].
  pose proof (chain_snoc _ _ _ _ _ HI HX HL Hl) as Hc. cbn in Hc. destruct (last L) as [p|].
  - destruct Hc as (pp & Hlook & Hf). cbn in Hlook |- *. rewrite Hlook. eexists. split; [reflexivity|]. by split.
  - eexists. split; [reflexivity|]. by split.
Qed.

Lemma adopt_ok a I B P X dst ks (ds : list nat) x rest c :
  fstate a I ((dst, InternalBody ks (ds ++ x :: rest)) :: B) ((c, None) :: P) X →
  ∃ a', adopt a dst (length ds) c = Some a' ∧
    fstate a' I ((dst, InternalBody ks (ds ++ c :: rest)) :: B) ((c, Some dst) :: P) X ∧ arena_len a' = arena_len a.
Proof using Type.
  intros Hs. unfold adopt, internal_node. rewrite (field_look _ _ _ _ _ (as_bodies _ _ _ _ _ Hs)). cbn [mbind option_bind].
  destruct (Nat.ltb_spec (length ds) (length (ds ++ x :: rest))) as [_|Hge]; [|rewrite length_app in Hge; cbn in Hge; lia].
  eexists. split; [reflexivity|]. split; [|done].
  replace (length ds) with (length ds + 0) at 1 by lia. rewrite insert_app_r. cbn.
  apply (astate_set_parent _ _ _ None). by apply (astate_set_body _ _ _ (InternalBody ks (ds ++ x :: rest))).
Qed.

Lemma alloc_len a i a' : alloc_node a = Some (i, a') → arena_len a' <= arena_len a + 1.
Proof using Type.
  unfold alloc_node. destruct (free_list a); [|by intros [= <- <-]; cbn; lia].
  destruct (arena_cap a <=? Z.of_nat (arena_len a))%Z; [|by intros [= <- <-]].
  unfold arena_grow. destruct (u32_limit <=? _)%Z; [done|]. cbn. by intros [= <- <-].
Qed.

(** A new node has no part in what the arena holds. *)
Lemma alloc_fresh a I B P X :
  room 1 a → fstate a I B P X →
  ∃ i a', alloc_node a = Some (i, a') ∧ i ∉ I ∧ i ∉ B.*1 ∧ i ∉ P.*1 ∧ i ∉ X.*1 ∧ fstate a' (i :: I) B P X ∧
    arena_len a' <= arena_len a + 1.
Proof using Type.
  intros Hroom Hs. destruct (alloc_node_ok _ _ _ _ _ Hroom Hs) as (i & a' & Ea & Hi & Hs' & _). exists i, a'.
  destruct Hs as [(_ & Hb & _) (_ & Hp & _) (_ & Hl & _) _]. split_and!; [done|done|by intros ?%Hb|by intros ?%Hp|by intros ?%Hl|done|by eapply alloc_len].
Qed.

(** A new internal node, still with the children of its source. *)
Lemma astate_new_node a I B P X i b p :
  fstate a (i :: I) B P X → i ∉ B.*1 → i ∉ P.*1 →
  fstate (set_parent (set_body a i b) i p) (i :: I) ((i, b) :: B) ((i, p) :: P) X.
Proof using Type.
  intros Hs HB HP. apply astate_new_parent; [by left|done|]. apply astate_new_body; [by left|done|done].
Qed.

Lemma skel_ids g g' : skel g' = skel g → length (ids g') = length (ids g).
Proof using Type.
  revert g'. induction g as [i kvs|i ks cs IH] using tree_ind_strong; intros [i' kvs'|i' ks' cs'] E; try done.
  cbn in E |- *. injection E as _ E. f_equal. revert cs' E. induction IH as [|c cs Hc _ IH]; intros [|c' cs'] E; try done.
  cbn in E |- *. injection E as Ec E. by rewrite !length_app, (Hc c' Ec), (IH cs' E).
Qed.

Lemma flat_skel_ids (cs cs' : list tree) : List.map skel cs' = List.map skel cs → length (List.flat_map ids cs') = length (List.flat_map ids cs).
Proof using Type.
  revert cs'. induction cs as [|c cs IH]; intros [|c' cs']; try done. cbn. intros [= Hc Hcs].
  by rewrite !length_app, (skel_ids _ _ Hc), (IH _ Hcs).
Qed.

Lemma levels_leaves n g : levels n g → ∃ i L, leaves g = i :: L.
Proof using Type.
  revert g. induction n as [|n IH]; intros [i kvs|i ks cs]; try done; [by exists i, []|].
  intros [Hl Hc]. destruct cs as [|c cs]; [done|]. apply Forall_cons in Hc as [Hc _].
  destruct (IH c Hc) as (j & L & E). cbn. rewrite E. by eexists _, _.
Qed.

(** The copies of subtrees: their leaves go to the end of the chain [L]. *)
Definition copied (c c' : Copy K V) I B P X L (gs : list tree) : Prop :=
  fstate (cp_arena c') (I ++ List.flat_map ids gs) (B ++ List.flat_map tbodies gs) (P ++ List.flat_map (tparents None) gs)
    (X ++ chain None (L ++ List.flat_map leaves gs) None) ∧
  dst_chain_tail c' = last (L ++ List.flat_map leaves gs) ∧
  dst_first_leaf c' = match dst_first_leaf c with Some i => Some i | None => head (List.flat_map leaves gs) end ∧
  arena_len (cp_arena c') <= arena_len (cp_arena c) + length (List.flat_map ids gs).

(** Both ways of copying: a state with a [Copy], and what is left of the source. *)
Section generic.
Context {S : Type} (view : S → Copy K V) (put : S → Arena K V → S) (copy : nat → S → option (nat * S))
  (inv : list tree → S → Prop).
Context (Hview : ∀ s a, view (put s a) = copy_with (view s) a) (Hinv : ∀ gs s a, inv gs s → inv gs (put s a)).

Definition copies g : Prop := ∀ gs s I B P X L,
  inv (g :: gs) s → fstate (cp_arena (view s)) I B P (X ++ chain None L None) → dst_chain_tail (view s) = last L →
  room (length (ids g)) (cp_arena (view s)) →
  ∃ g' s', copy (tid g) s = Some (tid g', s') ∧ inv gs s' ∧ skel g' = skel g ∧ copied (view s) (view s') I B P X L [g'].

(** The children of [dst], after those already adopted ([ds]). *)
Lemma copy_children_ok dst ks cs : Forall copies cs → ∀ ds gs s I B P X L,
  inv (cs ++ gs) s →
  fstate (cp_arena (view s)) (dst :: I ++ List.flat_map ids ds)
    ((dst, InternalBody ks (List.map tid ds ++ List.map tid cs)) :: B ++ List.flat_map tbodies ds)
    ((dst, None) :: P ++ List.flat_map (tparents (Some dst)) ds) (X ++ chain None (L ++ List.flat_map leaves ds) None) →
  dst_chain_tail (view s) = last (L ++ List.flat_map leaves ds) → room (length (List.flat_map ids cs)) (cp_arena (view s)) →
  ∃ cs' s', copy_children (λ s, cp_arena (view s)) put copy dst (length ds) (List.map tid cs) s = Some s' ∧ inv gs s' ∧
    List.map skel cs' = List.map skel cs ∧
    fstate (cp_arena (view s')) (dst :: I ++ List.flat_map ids (ds ++ cs'))
      ((dst, InternalBody ks (List.map tid (ds ++ cs'))) :: B ++ List.flat_map tbodies (ds ++ cs'))
      ((dst, None) :: P ++ List.flat_map (tparents (Some dst)) (ds ++ cs')) (X ++ chain None (L ++ List.flat_map leaves (ds ++ cs')) None) ∧
    dst_chain_tail (view s') = last (L ++ List.flat_map leaves (ds ++ cs')) ∧
    arena_len (cp_arena (view s')) <= arena_len (cp_arena (view s)) + length (List.flat_map ids cs') ∧
    dst_first_leaf (view s') = match dst_first_leaf (view s) with Some i => Some i | None => head (List.flat_map leaves cs') end.
Proof using Hview Hinv.
  induction 1 as [|g cs Hg _ IH]; intros ds gs s I B P X L Hi Hs Ht Hroom.
  { exists [], s. rewrite app_nil_r. cbn in Hs. rewrite app_nil_r in Hs. split_and!; [done..|lia|by destruct (dst_first_leaf (view s))]. }
  cbn [List.map List.flat_map copy_children] in *. rewrite length_app in Hroom.
  destruct (Hg (cs ++ gs) s _ _ _ _ _ Hi Hs Ht ltac:(eapply room_le; [|exact Hroom]; lia)) as (g' & s1 & -> & Hi1 & Hskel & (Hs1 & Ht1 & Hfirst & Hlen1)).
  cbn [mbind option_bind List.flat_map] in *. rewrite !app_nil_r in *.
  arrange_bodies Hs1 ((dst, InternalBody ks (List.map tid ds ++ tid g :: List.map tid cs)) :: B ++ List.flat_map tbodies (ds ++ [g'])).
  { rewrite List.flat_map_app. cbn. solve_Permutation. }
  arrange_parents Hs1 ((tid g', None) :: (dst, None) :: P ++ List.flat_map (tparents (Some dst)) ds ++ tsub g').
  { rewrite (tparents_root None g'). solve_Permutation. }
  rewrite <- (length_map tid ds). destruct (adopt_ok _ _ _ _ _ _ _ _ _ _ _ Hs1) as (a2 & -> & Hs2 & Hlen2). cbn [mbind option_bind].
  rewrite length_map. replace (length ds + 1) with (length (ds ++ [g'])) by (rewrite length_app; cbn; lia).
  destruct (IH (ds ++ [g']) gs (put s1 a2) I B P X L) as (cs' & s' & -> & Hi' & Hcs & Hs' & Ht' & Hlen' & Hfirst').
  - by apply Hinv.
  - rewrite Hview, !List.flat_map_app, List.map_app. cbn [List.flat_map List.map cp_arena copy_with]. rewrite !app_nil_r, <- !app_assoc.
    eapply astate_perm; [| | |rewrite <- !app_assoc in Hs2; exact Hs2].
    + solve_Permutation.
    + rewrite List.flat_map_app. cbn. rewrite app_nil_r. done.
    + rewrite (tparents_root _ g'). solve_Permutation.
  - rewrite Hview. cbn. rewrite List.flat_map_app. cbn. by rewrite app_nil_r, app_assoc.
  - rewrite Hview. cbn. unfold room in *. rewrite (skel_ids _ _ Hskel) in Hlen1. lia.
  - exists (g' :: cs'), s'. rewrite Hview in *. cbn [cp_arena copy_with dst_first_leaf] in *. rewrite <- app_assoc in Hs', Ht'.
    split_and!; [done|done|cbn; by rewrite Hskel, Hcs|done|done| |].
    + cbn. rewrite length_app. lia.
    + rewrite Hfirst', Hfirst. destruct (dst_first_leaf (view s)); [done|]. cbn. by destruct (leaves g').
Qed.

(** A node whose children were all adopted. *)
Lemma node_copied (c c0 c' : Copy K V) dst ks cs' I B P X L :
  fstate (cp_arena c') (dst :: I ++ List.flat_map ids cs') ((dst, InternalBody ks (List.map tid cs')) :: B ++ List.flat_map tbodies cs')
    ((dst, None) :: P ++ List.flat_map (tparents (Some dst)) cs') (X ++ chain None (L ++ List.flat_map leaves cs') None) →
  dst_chain_tail c' = last (L ++ List.flat_map leaves cs') →
  arena_len (cp_arena c') <= arena_len (cp_arena c0) + length (List.flat_map ids cs') →
  arena_len (cp_arena c0) <= arena_len (cp_arena c) + 1 → dst_first_leaf c0 = dst_first_leaf c →
  dst_first_leaf c' = match dst_first_leaf c0 with Some i => Some i | None => head (List.flat_map leaves cs') end →
  copied c c' I B P X L [TNode dst ks cs'].
Proof using Type.
  intros Hs Ht Hl1 Hl2 Hf0 Hf. unfold copied. cbn [List.flat_map]. rewrite !app_nil_r. cbn [ids tbodies tparents leaves]. split_and!.
  - eapply astate_perm; [| | |exact Hs]; solve_Permutation.
  - done.
  - by rewrite Hf, Hf0.
  - cbn [length]. lia.
Qed.
End generic.

(** [clone_subtree_into] leaves the source alone. *)
Lemma clone_subtree_ok src g : ∀ n fuel, agrees (bodies src) (tbodies g) → levels n g → n < fuel →
  copies (λ c, c) (clone_subtree_into fuel src) (λ _ _, True) g.
Proof using Type.
  induction g as [i kvs|i ks cs IH] using tree_ind_strong; intros n fuel Ha Hlev Hf gs c I B P X L _ Hs Ht Hroom;
    (destruct fuel as [|fuel]; [lia|]); cbn [tbodies] in Ha; apply agrees_cons in Ha as [Hi Ha];
    cbn [clone_subtree_into tid]; rewrite Hi; cbn [mbind option_bind];
    (destruct (alloc_fresh _ _ _ _ _ ltac:(eapply room_le; [|exact Hroom]; cbn; lia) Hs) as (dst & a & -> & _ & HB & HP & HX & Hs1 & Hlen));
    cbn [mbind option_bind].
  - rewrite fmap_app, chain_ids, not_elem_of_app in HX. destruct HX as [HX HL].
    destruct (copy_leaf_ok a (dst :: I) B P X L dst kvs) as (a' & Ha' & Hs2 & Hlen'); [by left|done..|].
    rewrite Ht, Ha'. cbn [mbind option_bind]. eexists (TLeaf dst kvs), _. split_and!; [reflexivity|done|done|unfold copied; split_and!; cbn].
    + eapply astate_perm; [| | |exact Hs2]; solve_Permutation.
    + by rewrite last_snoc.
    + by destruct (dst_first_leaf c).
    + lia.
  - destruct n as [|n]; [done|]. destruct Hlev as [_ Hlev].
    assert (Forall (copies (λ c, c) (clone_subtree_into fuel src) (λ _ _, True)) cs) as Hcs.
    { clear -IH Hlev Ha Hf. induction IH as [|g cs Hg _ IH]; [constructor|]. cbn in Ha. apply agrees_app in Ha as [Hag Ha].
      apply Forall_cons in Hlev as [Hl Hlev]. constructor; [apply (Hg n); [done..|lia]|by apply IH]. }
    apply (astate_new_node _ _ _ _ _ _ (InternalBody ks (List.map tid cs)) None) in Hs1; [|done..].
    set (a0 := set_parent _ _ _) in *.
    destruct (copy_children_ok (λ c, c) copy_with (clone_subtree_into fuel src) (λ _ _, True) ltac:(done) ltac:(done) dst ks cs Hcs [] [] (copy_with c a0) I B P X L)
      as (cs' & c' & Hrun & _ & Hskel & Hs' & Ht' & Hlen' & Hfirst); [done|cbn; by rewrite !app_nil_r|cbn; by rewrite app_nil_r| |].
    { unfold a0, room in *. cbn in Hroom |- *. lia. }
    change (length (@nil tree)) with 0 in Hrun. exists (TNode dst ks cs'), c'.
    assert (copy_children cp_arena copy_with (clone_subtree_into fuel src) dst 0 (List.map tid cs) (copy_with c a0) = Some c') as -> by exact Hrun.
    split_and!; [done|done|cbn; by rewrite Hskel|]. by apply (node_copied c (copy_with c a0)).
Qed.

(** Freeing a node of the source. *)
Lemma src_free a I i b p B P X :
  fstate a (i :: I) ((i, b) :: B) ((i, p) :: P) X → i ∉ X.*1 → fstate (free_node a i) I B P X.
Proof using Type.
  intros [Hb Hp Hl Ha] HX. pose proof Hb as (Hnb & _). pose proof Hp as (Hnp & _).
  cbn in Hnb, Hnp. apply NoDup_cons in Hnb as [? _]. apply NoDup_cons in Hnp as [? _].
  apply free_fields; [done..|]. split; [by eapply field_tail|by eapply field_tail|done|done].
Qed.

(** What a move keeps: the trees [gs] are still in the source, below [p], next to
    nodes that stay; the links that are still used belong to none of them. *)
Definition moving (p : option nat) (J : list nat) BJ PJ X (N : nat) (gs : list tree) (m : Move K V) : Prop :=
  fstate (mv_src m) (List.flat_map ids gs ++ J) (List.flat_map tbodies gs ++ BJ) (List.flat_map (tparents p) gs ++ PJ) X ∧
  Forall (λ i, i ∉ X.*1) (List.flat_map ids gs) ∧
  (dst_first_leaf (mv_copy m) = None ↔ dst_chain_tail (mv_copy m) = None) ∧
  mv_count m + length (List.flat_map entries gs) = N.

Lemma moving_put p J BJ PJ X N gs (m : Move K V) a : moving p J BJ PJ X N gs m → moving p J BJ PJ X N gs (move_with m (mv_src m) a).
Proof using Type. done. Qed.

Lemma deep_ok g : ∀ n fuel p J BJ PJ X N, levels n g → n < fuel → copies mv_copy (deep_copy_subtree fuel) (moving p J BJ PJ X N) g.
Proof using Type.
  induction g as [i kvs|i ks cs IH] using tree_ind_strong; intros n fuel p J BJ PJ X N Hlev Hf gs m I B P Y L (Hsrc & HX & Hft & Hcount) Hs Ht Hroom;
    (destruct fuel as [|fuel]; [lia|]); cbn [List.flat_map ids tbodies tparents entries app] in *;
    apply Forall_cons in HX as [HXi HX]; cbn [deep_copy_subtree tid]; rewrite (field_look _ _ _ _ _ (as_bodies _ _ _ _ _ Hsrc)); cbn [mbind option_bind];
    (destruct (alloc_fresh _ _ _ _ _ ltac:(eapply room_le; [|exact Hroom]; cbn; lia) Hs) as (dst & a & -> & _ & HB & HP & HY & Hs1 & Hlen));
    cbn [mbind option_bind].
  - rewrite fmap_app, chain_ids, not_elem_of_app in HY. destruct HY as [HY HL].
    destruct (copy_leaf_ok a (dst :: I) B P Y L dst kvs) as (a' & Ha' & Hs2 & Hlen'); [by left|done..|].
    rewrite Ht, Ha'. cbn [mbind option_bind]. eexists (TLeaf dst kvs), _. split_and!; [reflexivity| |done|].
    + cbn [app] in *. split_and!; cbn [mv_src mv_copy mv_count]; [by eapply src_free|done|cbn; destruct (last L); naive_solver|].
      rewrite length_app in Hcount. lia.
    + unfold copied. cbn. split_and!.
      * eapply astate_perm; [| | |exact Hs2]; solve_Permutation.
      * by rewrite last_snoc.
      * rewrite <- Ht. destruct (dst_chain_tail (mv_copy m)), (dst_first_leaf (mv_copy m)); naive_solver.
      * lia.
  - destruct n as [|n]; [done|]. destruct Hlev as [_ Hlev].
    set (inner := moving (Some i) (i :: List.flat_map ids gs ++ J) ((i, InternalBody ks (List.map tid cs)) :: List.flat_map tbodies gs ++ BJ)
      ((i, p) :: List.flat_map (tparents p) gs ++ PJ) X (mv_count m + length (List.flat_map entries cs))).
    assert (Forall (copies mv_copy (deep_copy_subtree fuel) inner) cs) as Hcs.
    { rewrite Forall_forall in IH, Hlev |- *. intros g Hg. apply (IH g Hg n); [by apply Hlev|lia]. }
    apply (astate_new_node _ _ _ _ _ _ (InternalBody ks (List.map tid cs)) None) in Hs1; [|done..].
    set (a0 := set_parent _ _ _) in *. rewrite Forall_app in HX. destruct HX as [HXc HXg].
    destruct (copy_children_ok mv_copy (λ m, move_with m (mv_src m)) (deep_copy_subtree fuel) inner ltac:(done) (moving_put _ _ _ _ _ _) dst ks cs Hcs [] []
      (move_with m (mv_src m) a0) I B P Y L) as (cs' & m' & Hrun & (Hsrc' & _ & Hft' & Hcount') & Hskel & Hs' & Ht' & Hlen' & Hfirst).
    { rewrite app_nil_r. split_and!; [|done|done|done]. cbn [mv_src move_with]. eapply astate_perm; [| | |exact Hsrc]; rewrite <- ?app_assoc; solve_Permutation. }
    { cbn. by rewrite !app_nil_r. }
    { cbn. by rewrite app_nil_r. }
    { unfold a0, room in *. cbn in Hroom |- *. lia. }
    change (length (@nil tree)) with 0 in Hrun. cbv beta in Hrun. rewrite Hrun. cbn [mbind option_bind app List.flat_map] in *.
    eexists (TNode dst ks cs'), _. split_and!; [reflexivity| |cbn; by rewrite Hskel|by apply (node_copied _ (copy_with (mv_copy m) a0))].
    split_and!; cbn [mv_src mv_copy mv_count]; [|done|done|].
    + by apply src_free in Hsrc'.
    + rewrite length_app in Hcount. cbn in Hcount'. lia.
Qed.

Lemma copied_cons c c1 c2 I B P X L g gs :
  copied c c1 I B P X L [g] → copied c1 c2 (I ++ ids g) (B ++ tbodies g) (P ++ tparents None g) X (L ++ leaves g) gs →
  copied c c2 I B P X L (g :: gs).
Proof using Type.
  intros (_ & _ & Hf1 & Hl1) (Hs & Ht & Hf2 & Hl2). unfold copied. cbn [List.flat_map] in *. rewrite !app_nil_r in Hf1, Hl1.
  repeat rewrite <- app_assoc in Hs. rewrite <- app_assoc in Ht. rewrite length_app. split_and!; [done|done| |lia].
  rewrite Hf2, Hf1. destruct (dst_first_leaf c); [done|]. by destruct (leaves g).
Qed.

Lemma deep_copy_all_ok fuel inv cs : Forall (copies mv_copy (deep_copy_subtree fuel) inv) cs → ∀ m I B P X L,
  inv cs m → fstate (cp_arena (mv_copy m)) I B P (X ++ chain None L None) → dst_chain_tail (mv_copy m) = last L →
  room (length (List.flat_map ids cs)) (cp_arena (mv_copy m)) →
  ∃ cs' m', deep_copy_all fuel (List.map tid cs) m = Some (List.map tid cs', m') ∧ inv [] m' ∧
    List.map skel cs' = List.map skel cs ∧ copied (mv_copy m) (mv_copy m') I B P X L cs'.
Proof using Type.
  induction 1 as [|g cs Hg _ IH]; intros m I B P X L Hi Hs Ht Hroom.
  { exists [], m. split_and!; [done|done|done|]. unfold copied. cbn. rewrite !app_nil_r. split_and!; [done|done|by destruct (dst_first_leaf _)|lia]. }
  cbn [List.map List.flat_map deep_copy_all] in *. rewrite length_app in Hroom.
  destruct (Hg cs m _ _ _ _ _ Hi Hs Ht ltac:(eapply room_le; [|exact Hroom]; lia)) as (g' & m1 & -> & Hi1 & Hskel & Hc1).
  pose proof Hc1 as (Hs1 & Ht1 & _ & Hlen1). cbn [mbind option_bind List.flat_map] in *. rewrite !app_nil_r in *.
  destruct (IH m1 _ _ _ _ _ Hi1 Hs1 Ht1) as (cs' & m' & -> & Hi' & Hskels & Hc2).
  { unfold room in *. rewrite (skel_ids _ _ Hskel) in Hlen1. lia. }
  exists (g' :: cs'), m'. split_and!; [done|done|cbn; by rewrite Hskel, Hskels|by eapply copied_cons].
Qed.

(** ** Tightening the outer bounds of a tree *)

Lemma no_empty_children i ks cs : no_empty_leaf (TNode (K:=K) (V:=V) i ks cs) → Forall no_empty_leaf cs.
Proof using Type.
  unfold no_empty_leaf. cbn [tleaves]. induction cs as [|c cs IH]; intros Hc; [constructor|]. cbn in Hc.
  apply Forall_app in Hc as [? ?]. constructor; [done|by apply IH].
Qed.

Lemma tighten_hi n lo g k :
  shape n lo None g → no_empty_leaf g → all_below k (entries g) → shape n lo (Some k) g.
Proof using Type*.
  unfold all_below. revert lo g. induction n as [|n IH]; intros lo [i kvs|i ks cs]; try done; cbn [BTreeShape.shape].
  - intros (Hlen & _ & Hs & Hr) Hne Hk. cbn in Hk. unfold no_empty_leaf in Hne. cbn in Hne. apply Forall_cons in Hne as [Hne _]. cbn in Hne.
    assert (Forall (in_range lo (Some k)) kvs.*1) as Hr'.
    { rewrite Forall_forall in Hr, Hk |- *. intros x Hx. destruct (Hr x Hx) as [? _]. split; [done|]. by apply Hk. }
    split_and!; [done| |done|done]. destruct kvs as [|[k0 v0] kvs]; [done|].
    rewrite fmap_cons in Hr'. apply Forall_cons in Hr' as [Hr0 _]. by eapply in_range_lt.
  - intros [Hlen Hs] Hne%no_empty_children Hk. split; [done|]. clear Hlen. cbn [entries] in Hk. revert lo ks Hs.
    induction cs as [|c cs IHc]; intros lo ks Hs; [by destruct ks|]. apply Forall_cons in Hne as [Hc Hne].
    cbn in Hk. rewrite fmap_app in Hk. apply Forall_app in Hk as [Hkc Hk].
    destruct ks as [|k1 ks]; [destruct cs; [by apply IH|done]|]. destruct Hs as [Hs1 Hs]. split; [done|]. by apply IHc.
Qed.

Lemma tighten_lo n hi g k :
  shape n None hi g → no_empty_leaf g → Forall (kle k) (entries g).*1 → shape n (Some k) hi g.
Proof using Type*.
  revert hi g. induction n as [|n IH]; intros hi [i kvs|i ks cs]; try done; cbn [BTreeShape.shape].
  - intros (Hlen & _ & Hs & Hr) Hne Hk. cbn in Hk. unfold no_empty_leaf in Hne. cbn in Hne. apply Forall_cons in Hne as [Hne _]. cbn in Hne.
    assert (Forall (in_range (Some k) hi) kvs.*1) as Hr'.
    { rewrite Forall_forall in Hr, Hk |- *. intros x Hx. destruct (Hr x Hx) as [_ ?]. split; [|done]. by apply Hk. }
    split_and!; [done| |done|done]. destruct kvs as [|[k0 v0] kvs]; [done|].
    rewrite fmap_cons in Hr'. apply Forall_cons in Hr' as [Hr0 _]. by eapply in_range_lt.
  - intros [Hlen Hs] Hne%no_empty_children Hk. split; [done|]. clear Hlen. cbn [entries] in Hk.
    destruct cs as [|c cs]; [by destruct ks|]. apply Forall_cons in Hne as [Hc _].
    cbn in Hk. rewrite fmap_app in Hk. apply Forall_app in Hk as [Hkc _].
    destruct ks as [|k1 ks]; [destruct cs; [by apply IH|done]|]. destruct Hs as [Hs1 Hs]. split; [by apply IH|done].
Qed.

(** ** The right spine *)

Lemma rfree_parts fs n lo hi :
  cshape n fs lo hi → Forall (λ f, f_rkeys f = []) fs →
  hi = None ∧ rleaves fs = [] ∧ rentries fs = [].
Proof using Type.
  revert n lo hi. induction fs as [|f fs IH]; intros n lo hi; [by intros [_ ->] _|].
  intros (flo & fhi & _ & -> & _ & Hr & _ & Hc) [Hf Hfs]%Forall_cons.
  apply rseps_length in Hr. rewrite Hf in Hr |- *. destruct (IH _ _ _ Hc Hfs) as (-> & HL & HE).
  apply nil_length_inv in Hr. cbn. by rewrite Hr.
Qed.

Lemma right_child n i ks cs fs lo :
  shape (S n) lo None (TNode i ks cs) → cshape (S n) fs lo None → Forall (λ f, f_rkeys f = []) fs →
  ∃ f c, TNode i ks cs = fill f [c] [] ∧ f_id f = i ∧ length (f_left f) = length ks ∧ f_lkeys f = ks ∧ cs !! length ks = Some c ∧
    Forall (λ f, f_rkeys f = []) (f :: fs) ∧ cshape n (f :: fs) (last_bound lo ks) None ∧ shape n (last_bound lo ks) None c.
Proof using Type.
  intros Hg Hfs Hall.
  destruct (child_zip _ _ n i ks cs fs lo None (length ks) Hg Hfs (le_n _)) as (f & c & Hc & Heq & Hid & Hleft & Hlk & Hrk & _ & _ & Hcs & Hsh).
  rewrite firstn_all in Hlk, Hcs, Hsh. rewrite drop_all in Hrk, Hcs, Hsh. exists f, c. by split_and!; [..|constructor| |].
Qed.

Lemma right_spine_ok a d n fs lo g :
  agrees (bodies a) (tbodies g) → cshape (d + n) fs lo None → shape (d + n) lo None g → Forall (λ f, f_rkeys f = []) fs →
  d + length fs <= MAX_PATH_HEIGHT →
  ∃ fs' lo' g', right_spine a d (tid g) (path_of fs) = Some (tid g', path_of fs') ∧ plug fs g = plug fs' g' ∧
    cshape n fs' lo' None ∧ shape n lo' None g' ∧ Forall (λ f, f_rkeys f = []) fs' ∧ agrees (bodies a) (tbodies g') ∧
    length fs' = d + length fs.
Proof using Type.
  revert fs lo g. induction d as [|d IH]; intros fs lo g Ha Hfs Hg Hall Hm; [by exists fs, lo, g|].
  destruct g as [|i ks cs]; [done|]. cbn [Nat.add] in Hg, Hfs.
  destruct (right_child _ _ _ _ _ _ Hg Hfs Hall) as (f & c & Heq & Hid & Hleft & _ & Hc & Hall' & Hfs' & Hc').
  cbn [tbodies] in Ha. apply agrees_cons in Ha as [Hi Ha].
  assert (agrees (bodies a) (tbodies c)) as Hac.
  { unfold agrees in *. rewrite Forall_forall in Ha |- *. intros e He. apply Ha. apply list_elem_of_In, List.in_flat_map. exists c.
    split; apply list_elem_of_In; [by eapply list_elem_of_lookup_2|done]. }
  cbn [right_spine tid]. unfold internal_node. rewrite Hi. cbn [mbind option_bind]. unfold path_push.
  assert (length (path_of fs) = length fs) as -> by apply length_map.
  destruct (Nat.ltb_spec (length fs) MAX_PATH_HEIGHT) as [_|?]; [|lia]. cbn [mbind option_bind].
  change (List.map tid cs) with (tid <$> cs). rewrite list_lookup_fmap, Hc. cbn [mbind option_bind fmap option_fmap option_map].
  destruct (IH _ _ _ Hac Hfs' Hc' Hall') as (fs' & lo' & g' & Hrun & Hpl & ?); [cbn; lia|].
  exists fs', lo', g'. change (path_of (f :: fs)) with ((f_id f, length (f_left f)) :: path_of fs) in Hrun.
  rewrite Hid, Hleft in Hrun. rewrite Hrun, Heq, <- Hpl, plug_cons.
  cbn [length] in *. rewrite Nat.add_succ_r in *. done.
Qed.
(** ** Grafting *)

(** The length and the last leaf, which the engine sets after the roots are joined. *)
Definition finish t (x : option nat) (n : nat) : RawBTree K V := with_len (with_last_leaf t x) n.

Lemma propagate_finish x n path t k c :
  propagate_split key_size (finish t x n) path k c = (λ t, finish t x n) <$> propagate_split key_size t path k c.
Proof using Type.
  revert t k c. induction path as [|[p pos] path IH]; intros t k c; cbn [propagate_split].
  - cbn. destruct (root t); [|done]. unfold grow_root. cbn. by destruct (alloc_node (arena t)) as [[]|].
  - cbn [arena finish with_len with_last_leaf]. destruct (internal_node (arena t) p) as [[keys children]|] eqn:E; [|done]. cbn [mbind option_bind].
    destruct (length keys <? INTERNAL_CAP) eqn:El.
    + unfold internal_insert_at. cbn [arena finish with_len with_last_leaf]. rewrite E. cbn [mbind option_bind]. by rewrite El.
    + unfold internal_split_and_insert. cbn [arena finish with_len with_last_leaf].
      destruct (alloc_node (arena t)) as [[right_idx a]|]; [|done]. cbn [mbind option_bind].
      destruct (parents a !! p); [|done]. cbn [mbind option_bind].
      destruct (internal_node (set_parent a right_idx _) p) as [[keys' children']|]; [|done]. cbn [mbind option_bind].
      match goal with |- context [if ?b then None else _] => destruct b end; [done|].
      match goal with |- context [?l !! (INTERNAL_CAP / 2)] => destruct (l !! (INTERNAL_CAP / 2)) end; [|done]. cbn [mbind option_bind].
      match goal with |- context [with_arena (finish t x n) ?a] => apply (IH (with_arena t a)) end.
Qed.

Lemma foldl_insert_lookup {A} (mp : gmap nat A) cs x i :
  foldl (λ mp c, <[c := x]> mp) mp cs !! i = if decide (i ∈ cs) then Some x else mp !! i.
Proof using Type.
  revert mp. induction cs as [|c cs IH]; intros mp; [done|]. cbn [foldl]. rewrite IH.
  destruct (decide (i ∈ cs)) as [Hi|Hi]; [by rewrite decide_True by by right|]. destruct (decide (i = c)) as [->|Hne].
  - by rewrite lookup_insert_eq, decide_True by by left.
  - rewrite lookup_insert_ne by done. rewrite decide_False; [done|]. by intros [?|?]%elem_of_cons.
Qed.

(** Where the new child is linked last its parent index is written, whatever it was. *)
Lemma propagate_parent t cur cur_len path k r p keys children :
  internal_node (arena t) cur = Some (keys, children) → length children = S cur_len → length keys = cur_len → cur ≠ r →
  2 <= INTERNAL_CAP → cur_len <= INTERNAL_CAP →
  propagate_split key_size (with_arena t (set_parent (arena t) r p)) ((cur, cur_len) :: path) k r =
  propagate_split key_size t ((cur, cur_len) :: path) k r.
Proof using Type.
  intros Hn Hc Hk Hne Hcap Hle. cbn [propagate_split arena with_arena].
  change (internal_node (set_parent ?a _ _) ?i) with (internal_node a i). rewrite Hn. cbn [mbind option_bind].
  destruct (Nat.ltb_spec (length keys) INTERNAL_CAP) as [Hlt|Hge].
  - unfold internal_insert_at. cbn [arena with_arena].
    change (internal_node (set_parent ?a _ _) ?i) with (internal_node a i). rewrite Hn. cbn [mbind option_bind].
    apply Nat.ltb_lt in Hlt. rewrite Hlt. cbn. do 2 f_equal. unfold set_parent, arena_with. cbn. by rewrite insert_insert_eq.
  - unfold internal_split_and_insert. cbn [arena with_arena].
    assert (INTERNAL_CAP / 2 < INTERNAL_CAP) as Hmid by (apply Nat.div_lt; lia). generalize dependent (INTERNAL_CAP / 2). intros mid Hmid.
    assert (∀ a, alloc_node (set_parent a r p) = (λ x, (x.1, set_parent x.2 r p)) <$> alloc_node a) as ->.
    { intros a. unfold alloc_node. cbn. destruct (free_list a); [|done]. destruct (_ <=? _)%Z; [|done]. unfold arena_grow. cbn. by destruct (_ <=? _)%Z. }
    destruct (alloc_node (arena t)) as [[right_idx a]|]; [|done]. cbn [mbind option_bind fmap option_fmap option_map fst snd].
    cbn [parents set_parent arena_with]. rewrite lookup_insert_ne by done. destruct (parents a !! cur) as [lp|]; [|done]. cbn [mbind option_bind].
    repeat change (internal_node (set_parent ?a _ _) ?i) with (internal_node a i).
    destruct (internal_node a cur) as [[keys' children']|]; [|done]. cbn [mbind option_bind].
    destruct (_ && _) eqn:Elen; [|done]. cbn [negb]. apply andb_true_iff in Elen as [_ Elen%Nat.eqb_eq].
    match goal with |- context [?l !! mid] => destruct (l !! mid) end; [|done]. cbn [mbind option_bind].
    f_equal. rewrite !set_parents_eq. do 2 f_equal.
    unfold set_body, set_parent, arena_with. cbn. f_equal. apply map_eq. intros i. rewrite !foldl_insert_lookup.
    case_decide as Hin; [done|]. destruct (decide (i = right_idx)) as [->|Hi]; [by rewrite !lookup_insert_eq|].
    rewrite !(lookup_insert_ne _ right_idx) by done. destruct (decide (i = r)) as [->|Hir]; [|by rewrite lookup_insert_ne].
    exfalso. apply Hin. clear Hin. rewrite length_app in Elen. cbn [length] in Elen. rewrite length_take, length_drop in Elen.
    rewrite drop_app. apply elem_of_app. right. rewrite length_take.
    replace (mid + 1 - (cur_len + 1) `min` length children') with 0 by lia. by left.
Qed.
Lemma alloc_set_parent a r p : alloc_node (set_parent a r p) = (λ x, (x.1, set_parent x.2 r p)) <$> alloc_node a.
Proof using Type.
  unfold alloc_node. cbn. destruct (free_list a); [|done]. destruct (_ <=? _)%Z; [|done]. unfold arena_grow. cbn. by destruct (_ <=? _)%Z.
Qed.

Lemma propagate_parent_root t k r p :
  propagate_split key_size (with_arena t (set_parent (arena t) r p)) [] k r = propagate_split key_size t [] k r.
Proof using Type.
  cbn. destruct (root t) as [c|]; [|done]. cbn. unfold grow_root. cbn [arena with_arena]. rewrite alloc_set_parent.
  destruct (alloc_node (arena t)) as [[i a]|]; [|done]. cbn. do 3 f_equal. unfold set_parent, set_body, arena_with. cbn. f_equal.
  apply map_eq. intros j. destruct (decide (j = r)) as [->|Hj]; [by rewrite !lookup_insert_eq|].
  rewrite !(lookup_insert_ne _ r) by done. destruct (decide (j = c)) as [->|Hc]; [by rewrite !lookup_insert_eq|].
  rewrite !(lookup_insert_ne _ c) by done. destruct (decide (j = i)) as [->|Hi]; [by rewrite !lookup_insert_eq|].
  by rewrite !lookup_insert_ne.
Qed.

Lemma finish_self t : finish t (last_leaf t) (len t) = t.
Proof using Type. by destruct t. Qed.

Lemma propagate_len path t k c u : propagate_split key_size t path k c = Some u → len u = len t.
Proof using Type.
  intros Hu. pose proof (propagate_finish (last_leaf t) (len t) path t k c) as Hf. rewrite finish_self, Hu in Hf.
  cbn in Hf. injection Hf as ->. done.
Qed.

(** Where the grafted tree goes: the tree of its height on the right edge. *)
Lemma graft_spine t g n :
  2 <= INTERNAL_CAP → agrees (bodies (arena t)) (tbodies g) → root t = Some (tid g) → shape (height t) None None g →
  n <= height t → height t <= MAX_PATH_HEIGHT →
  ∃ fs lo g1, g = plug fs g1 ∧ cshape n fs lo None ∧ shape n lo None g1 ∧ Forall (λ f, f_rkeys f = []) fs ∧
    height t = n + length fs ∧
    ∀ r k, r ∉ ids g → graft_combine_roots key_size t r k n =
      propagate_split key_size (with_arena t (set_parent (arena t) r (parent_of fs))) (path_of fs) k r.
Proof using Type.
  intros Hcap Ha Hr Hs Hle Hm. unfold graft_combine_roots. rewrite Hr. cbn [mbind option_bind].
  destruct (Nat.eqb_spec (height t) n) as [Heq|Hne].
  { subst n. exists [], None, g. split_and!; [done..|cbn; lia|]. intros r k _. rewrite propagate_parent_root. cbn [propagate_split]. by rewrite Hr. }
  destruct (right_spine_ok (arena t) (height t - n - 1) (S n) [] None g) as (fs & lo & g1 & Hrun & Hpl & Hfs & Hg1 & Hall & Ha1 & Hlen);
    [done|by split|by replace (height t - n - 1 + S n) with (height t) by lia|constructor|cbn; lia|].
  cbn [plug foldl length path_of List.map] in Hrun, Hpl, Hlen. destruct g1 as [|i ks cs]; [done|].
  destruct (right_child _ _ _ _ _ _ Hg1 Hfs Hall) as (f & c & Heq & Hid & Hleft & Hlk & Hc & Hall' & Hfs' & Hc').
  exists (f :: fs), (last_bound lo ks), c. split_and!; [|done..|cbn [length]; lia|].
  { rewrite Hpl. change (plug fs (TNode i ks cs) = plug (f :: fs) c). by rewrite plug_cons, <- Heq. }
  intros r k Hfresh. rewrite Hrun. cbn [tid mbind option_bind]. cbn [tbodies] in Ha1. apply agrees_cons in Ha1 as [Hi _].
  assert (internal_node (arena t) i = Some (ks, List.map tid cs)) as Hnode by (unfold internal_node; by rewrite Hi).
  destruct Hg1 as [Hks Hseps]. apply seps_length in Hseps.
  change (path_of (f :: fs)) with ((f_id f, length (f_left f)) :: path_of fs). rewrite Hid, Hleft.
  rewrite (propagate_parent t i (length ks) _ k r _ ks (List.map tid cs)); [|done|by rewrite length_map|done| |done|lia].
  - cbn [propagate_split]. by rewrite Hnode.
  - intros ->. apply Hfresh. rewrite Hpl, ids_plug. apply elem_of_app. right. by left.
Qed.

Lemma tleaves_body i kvs g : (i, kvs) ∈ tleaves g → (i, LeafBody kvs) ∈ tbodies g.
Proof using Type.
  induction g as [j kvs'|j ks cs IH] using tree_ind_strong; cbn.
  - intros [= -> ->]%list_elem_of_singleton. by left.
  - intros Hi. right. apply list_elem_of_In, List.in_flat_map in Hi as (c & Hc & Hi). apply list_elem_of_In, List.in_flat_map. exists c.
    split; [done|]. rewrite Forall_forall in IH. apply list_elem_of_In, IH; by apply list_elem_of_In.
Qed.

Lemma skel_tleaves g g' : skel g' = skel g → (tleaves g').*2 = (tleaves g).*2.
Proof using Type.
  revert g'. induction g as [i kvs|i ks cs IH] using tree_ind_strong; intros [i' kvs'|i' ks' cs'] E; try done.
  - cbn in E. by injection E as ->.
  - cbn in E |- *. injection E as _ E. revert cs' E. induction IH as [|c cs Hc _ IH]; intros [|c' cs'] E; try done.
    cbn in E |- *. injection E as Ec E. by rewrite !fmap_app, (Hc c' Ec), (IH cs' E).
Qed.
Lemma first_entry n lo hi g :
  shape n lo hi g → no_empty_leaf g →
  ∃ i k v kvs R, tleaves g = (i, (k, v) :: kvs) :: R ∧ head (leaves g) = Some i ∧ head (entries g) = Some (k, v).
Proof using Type.
  intros Hs Hne. apply shape_tleaves in Hs. destruct (tleaves g) as [|[i kvs] R] eqn:E; [done|].
  unfold no_empty_leaf in Hne. rewrite E in Hne. apply Forall_cons in Hne as [Hk _]. cbn in Hk. destruct kvs as [|[k v] kvs]; [done|].
  exists i, k, v, kvs, R. split_and!; [done|by rewrite <- tleaves_ids, E|by rewrite entries_tleaves, E].
Qed.

Lemma skel_no_empty g g' : skel g' = skel g → no_empty_leaf g → no_empty_leaf g'.
Proof using Type.
  intros E%skel_tleaves Hne. assert (Forall (λ kvs, kvs ≠ []) (tleaves g).*2) as Hf by (rewrite Forall_fmap; exact Hne).
  rewrite <- E, Forall_fmap in Hf. exact Hf.
Qed.

(** The links of the last leaf already lead to the copy. *)
Lemma splice_nothing a I B P L L' p :
  astate a I B P (L ++ L') → last L = Some p →
  ∃ pp, links a !! p = Some (pp, head L') ∧ set_links a p (pp, head L') = a.
Proof using Type.
  intros Hs Hp. apply last_Some in Hp as [L0 ->]. rewrite <- app_assoc in Hs. cbn in Hs.
  pose proof (chain_at _ _ _ _ _ (as_links _ _ _ _ _ Hs)) as Hl. exists (last L0). split; [done|].
  unfold set_links, arena_with. rewrite insert_id by done. by destruct a.
Qed.

(** The state in which the roots are joined, with the parent of the copy set. *)
Lemma graft_state t fs g1 g' a n lo k :
  cshape n fs lo None → shape n lo (Some k) g1 → shape n (Some k) None g' → Forall (λ f, f_rkeys f = []) fs →
  astate a (ids (plug fs g1) ++ ids g') (tbodies (plug fs g1) ++ tbodies g') (tparents None (plug fs g1) ++ tparents None g')
    (leaves (plug fs g1) ++ leaves g') →
  root t = Some (tid (plug fs g1)) → first_leaf t = head (leaves (plug fs g1)) → leaves (plug fs g1) ≠ [] →
  height t = n + length fs →
  split_at key_size val_size
    (finish (with_arena t (set_parent a (tid g') (parent_of fs))) (last (leaves (plug fs g1) ++ leaves g'))
      (length (entries (plug fs g1)) + length (entries g'))) n fs g1 k g'.
Proof using Type.
  intros Hc H1 H2 Hall Hs Hr Hf Hne Hh. destruct (rfree_parts fs n lo None Hc Hall) as (_ & HL & HE).
  assert (lleaves fs ++ (leaves g1 ++ leaves g') ++ rleaves fs = leaves (plug fs g1) ++ leaves g') as EL.
  { rewrite leaves_plug, HL, !app_nil_r. by rewrite app_assoc. }
  assert (lentries fs ++ (entries g1 ++ entries g') ++ rentries fs = entries (plug fs g1) ++ entries g') as EE.
  { rewrite entries_plug, HE, !app_nil_r. by rewrite app_assoc. }
  split; rewrite ?EL, ?EE; cbn [finish with_len with_last_leaf arena with_arena root first_leaf last_leaf len height].
  - arrange_parents Hs ((tid g', None) :: tsub g' ++ cparents fs ++ tparents (parent_of fs) g1).
    { rewrite tparents_plug, (tparents_root None g'). solve_Permutation. }
    apply (astate_set_parent _ _ _ _ (parent_of fs)) in Hs. eapply astate_perm; [| | |exact Hs].
    + rewrite ids_plug. solve_Permutation.
    + rewrite tbodies_plug. solve_Permutation.
    + rewrite (tparents_root (parent_of fs) g'). solve_Permutation.
  - by rewrite Hr, tid_plug.
  - rewrite Hf. by destruct (leaves (plug fs g1)).
  - done.
  - by rewrite length_app.
  - done.
  - by exists lo, None.
Qed.

Lemma graft_ok t other g go :
  assert_capacities key_size val_size = true → repr t g → repr other go → no_empty_leaf g → no_empty_leaf go →
  sorted_map (entries g ++ entries go) → height other <= height t → height t <= MAX_PATH_HEIGHT →
  room (length (ids go) + (height t + 1)) (arena t) →
  ∃ t', append_graft_disjoint key_size t other = Some (Some (t', tree_new)) ∧ represents t' (entries g ++ entries go).
Proof using Type*.
  intros [_ Hcap%Nat.leb_le]%andb_true_iff [Ht Hs] [Ho Hso] Hne Hneo Hsort Hle Hm Hroom. unfold append_graft_disjoint.
  destruct (Nat.ltb_spec (height t) (height other)) as [?|_]; [lia|]. rewrite (h_root _ _ Ho). cbn [mbind option_bind].
  destruct (clone_subtree_ok (arena other) go (height other) (S (height other))
    ltac:(apply (as_bodies _ _ _ _ _ (h_state _ _ Ho))) ltac:(by eapply shape_levels) ltac:(lia) []
    {| cp_arena := arena t; dst_first_leaf := None; dst_chain_tail := last_leaf t |} _ _ _ [] _ I (h_state _ _ Ht) (h_last _ _ Ht)
    ltac:(eapply room_le; [|exact Hroom]; lia)) as (g' & c & Hrun & _ & Hskel & (Hsc & Htail & Hfirst & Hlen)).
  rewrite Hrun. cbn [mbind option_bind dst_first_leaf cp_arena List.flat_map app] in *. rewrite !app_nil_r in *. clear Hrun.
  assert (entries g' = entries go) as Ego by by apply skel_entries.
  pose proof (skel_no_empty _ _ Hskel Hneo) as Hne'.
  pose proof (shape_skel _ _ _ _ _ Hskel Hso) as Hs'.
  destruct (first_entry _ _ _ _ Hs' Hne') as (i & k & v & kvs & L' & Etl & Ehead & Ehe).
  assert (∃ q, last (leaves g) = Some q) as [q Hq].
  { destruct (levels_leaves _ _ (shape_levels _ _ _ _ Hs)) as (x & L & ->). rewrite last_cons. by destruct (last L); eexists. }
  rewrite (h_last _ _ Ht), Hq. cbn [mbind option_bind].
  destruct (splice_nothing _ _ _ _ _ _ _ Hsc Hq) as (pp & Hpp & Hset). rewrite Hpp, Hfirst. cbn [mbind option_bind]. rewrite Hset, Ehead.
  assert (leaf_kvs (cp_arena c) i = Some ((k, v) :: kvs)) as Hi.
  { unfold leaf_kvs. erewrite (field_get (bodies (cp_arena c))); [|apply elem_of_app; right; apply (tleaves_body i ((k, v) :: kvs)); rewrite Etl; by left|apply (as_bodies _ _ _ _ _ Hsc)]. done. }
  cbn [mbind option_bind]. rewrite Hi. cbn [mbind option_bind lookup list_lookup].
  assert (∃ l2, entries g' = (k, v) :: l2) as [l2 El2] by (destruct (entries g'); [done|]; cbn in Ehe; injection Ehe as ->; by eexists).
  rewrite <- Ego, El2 in Hsort. destruct (sorted_middle _ _ _ _ Hsort) as (Hb & Hab & _).
  assert (agrees (bodies (cp_arena c)) (tbodies g)) as Hag.
  { destruct (as_bodies _ _ _ _ _ Hsc) as (_ & _ & Ha). by apply agrees_app in Ha as [? _]. }
  destruct (graft_spine (with_arena t (cp_arena c)) g (height other) Hcap Hag (h_root _ _ Ht) Hs Hle Hm)
    as (fs & lo & g1 & Hg & Hfs & Hg1 & Hall & Hh & Hrun).
  assert (tid g' ∉ ids g) as Hfresh.
  { destruct (as_arena _ _ _ _ _ Hsc) as [Hn _]. apply NoDup_app in Hn as (Hn & _ & _). apply NoDup_app in Hn as (_ & Hn & _).
    intros Hin. apply (Hn _ Hin), tid_in_ids. }
  rewrite (Hrun _ k Hfresh). subst g. cbn [arena with_arena height] in *.
  assert (shape (height other) lo (Some k) g1) as Hg1k.
  { apply tighten_hi; [done| |].
    - unfold no_empty_leaf in Hne |- *. rewrite tleaves_plug in Hne. by apply Forall_app in Hne as [_ [? _]%Forall_app].
    - rewrite entries_plug in Hb. by apply all_below_app in Hb as [_ [? _]%all_below_app]. }
  assert (shape (height other) (Some k) None g') as Hgk.
  { apply tighten_lo; [done|done|]. rewrite El2, fmap_cons. constructor; [apply kle_refl|].
    apply (Forall_impl _ _ _ Hab). intros x. apply klt_kle. }
  pose proof (graft_state t fs g1 g' (cp_arena c) _ lo k Hfs Hg1k Hgk Hall Hsc (h_root _ _ Ht) (h_first _ _ Ht) ltac:(by intros E; rewrite E in Hq) Hh) as Hsa.
  assert (room (length fs + 1) (cp_arena c)) as Hrm by (unfold room in *; rewrite (skel_ids _ _ Hskel) in Hlen; lia).
  edestruct (propagate_ok key_size val_size fs) as (t' & Ht' & _ & gf & Hgf & Etf); [exact Hcap| |exact Hsa|]; [exact Hrm|].
  rewrite propagate_finish in Ht'. destruct (propagate_split key_size _ (path_of fs) k (tid g')) as [u|] eqn:Eu; [|done].
  apply propagate_len in Eu. cbn in Ht'. injection Ht' as <-. cbn [mbind option_bind]. eexists. split; [reflexivity|].
  rewrite Eu, Htail. cbn [len with_arena]. rewrite (h_len _ _ Ht), (h_len _ _ Ho), <- Ego. right. exists gf. split; [exact Hgf|].
  rewrite (split_done_entries _ _ _ _ Etf). destruct (rfree_parts _ _ _ _ Hfs Hall) as (_ & _ & ->).
  rewrite entries_plug, !app_nil_r, (proj2 (proj2 (rfree_parts _ _ _ _ Hfs Hall))), app_nil_r. by rewrite app_assoc.
Qed.
(** ** Appending *)

Lemma represents_ids t g : repr t g → length (ids g) <= arena_len (arena t).
Proof using Type.
  intros [Hh _]. destruct (as_arena _ _ _ _ _ (h_state _ _ Hh)) as (Hn & Hlt & _). apply NoDup_app in Hn as (Hn & _ & _).
  rewrite Forall_app in Hlt. destruct Hlt as [Hlt _]. rewrite Forall_forall in Hlt.
  rewrite <- (length_seq (arena_len (arena t)) 0). apply submseteq_length, NoDup_submseteq; [done|].
  intros i Hi. apply elem_of_seq. pose proof (Hlt i Hi). lia.
Qed.

Lemma sorted_join l m kl vl k1 v1 m0 :
  sorted_map l → sorted_map m → last l = Some (kl, vl) → m = (k1, v1) :: m0 → klt kl k1 → sorted_map (l ++ m).
Proof using Type*.
  intros Hl Hm [l0 ->]%last_Some Hm0 Hk. unfold sorted_map in *. rewrite fmap_app. apply (sorted_app _ _ k1); [done|done| |].
  - apply sorted_middle in Hl as (Hb & _ & _). rewrite fmap_app, Forall_app. split; [|by repeat constructor].
    apply (Forall_impl _ _ _ Hb). intros x Hx. by transitivity kl.
  - subst m. apply sorted_cons_iff in Hm as [_ Ha]. rewrite fmap_cons. constructor; [apply kle_refl|].
    apply (Forall_impl _ _ _ Ha). intros x. apply klt_kle.
Qed.

(** All entries of [m] are below those of [l]. *)
Lemma insert_pairs_below l m : sorted_map (m ++ l) → insert_pairs l m = m ++ l.
Proof using Type*.
  intros Hs. assert (sorted_map l ∧ sorted_map m) as [Hl Hm].
  { unfold sorted_map, sorted_keys in *. rewrite fmap_app in Hs. by apply StronglySorted_app in Hs as (_ & ? & ?). }
  apply sorted_map_ext; [by apply insert_pairs_sorted|done|]. intros key.
  rewrite lookup_insert_pairs, last_values_sorted by done. clear Hl Hm. induction m as [|[k v] m IH]; [done|].
  cbn in Hs. apply sorted_cons_iff in Hs as [Hs _]. cbn [app sm_lookup]. destruct (cmp key k); [done|by apply IH..].
Qed.

(** The trees are small enough to be joined, in either direction. *)
Definition graftable t other : Prop :=
  (Z.of_nat (arena_len (arena t) + arena_len (arena other) + Nat.max (height t) (height other) + 1) <= 2 ^ 31)%Z ∧
  height t <= MAX_PATH_HEIGHT ∧ height other <= MAX_PATH_HEIGHT.

Lemma append_graft_ok debug t other l m :
  assert_capacities key_size val_size = true → represents t l → represents other m →
  no_empty_leaf_of t → no_empty_leaf_of other → l ≠ [] → m ≠ [] → sorted_map (l ++ m) →
  bulk_ready key_size val_size (length (insert_pairs l m)) → graftable t other →
  ∃ t' other', append_graft key_size val_size debug t other = Some (t', other') ∧
    represents t' (l ++ m) ∧ represents other' [].
Proof using Type*.
  intros Hc Hl Hm Hnl Hnm Hl0 Hm0 Hs Hn (Hz & Ht & _). unfold append_graft.
  rewrite (represents_len _ _ _ _ Hl), (represents_len _ _ _ _ Hm).
  destruct (Nat.eqb_spec (length m) 0) as [?%nil_length_inv|_]; [done|].
  destruct (Nat.eqb_spec (length l) 0) as [?%nil_length_inv|_]; [done|].
  assert ((if debug then ranges_apart t other else Some true) = Some true) as ->.
  { destruct debug; [|done]. unfold ranges_apart. destruct (end_entries _ _ t l Hl) as [_ ->]. destruct (end_entries _ _ other m Hm) as [-> _].
    destruct l as [|e l _] using rev_ind; [done|]. rewrite last_snoc. destruct m as [|[k v] m]; [done|]. destruct e as [k' v']. cbn. f_equal.
    apply ltb_lt. rewrite <- app_assoc in Hs. apply sorted_middle in Hs as (_ & [? _]%all_above_cons & _). done. }
  cbn [mbind option_bind negb]. destruct Hl as [[_ ?]|(g & Hg & El)]; [done|]. destruct Hm as [[_ ?]|(go & Hgo & Em)]; [done|].
  destruct (decide (height other <= height t)) as [Hle|Hgt].
  - subst l m. destruct (graft_ok t other g go Hc Hg Hgo) as (t' & -> & Hr); [by eapply no_empty_leaf_repr..|done|done|done| |].
    + pose proof (represents_ids _ _ Hgo). unfold room. lia.
    + exists t', tree_new. split_and!; [done|done|apply tree_new_represents].
  - unfold append_graft_disjoint. destruct (Nat.ltb_spec (height t) (height other)) as [_|?]; [|lia]. cbn [mbind option_bind].
    destruct (append_drain_ok key_size val_size t other l m) as (t' & other' & Ha & Hr & Ho); [right; by exists g|right; by exists go|done|done|].
    exists t', other'. by rewrite (concat_insert _ _ Hs).
Qed.

Lemma append_surgery_ok debug t other l m :
  assert_capacities key_size val_size = true → represents t l → represents other m →
  no_empty_leaf_of t → no_empty_leaf_of other →
  bulk_ready key_size val_size (length (insert_pairs l m)) → graftable t other →
  ∃ t' other', append key_size val_size debug t other = Some (t', other') ∧
    represents t' (insert_pairs l m) ∧ represents other' [].
Proof using Type*.
  intros Hc Hl Hm Hnl Hnm Hn Hg. unfold append. apply (append_trivial _ _ _ _ _ _ Hl Hm). intros Hl0 Hm0.
  destruct (end_entries _ _ t l Hl) as [-> ->]. destruct (end_entries _ _ other m Hm) as [-> ->].
  pose proof (represents_sorted _ _ _ _ Hl) as Hsl. pose proof (represents_sorted _ _ _ _ Hm) as Hsm.
  destruct (last l) as [[kl vl]|] eqn:El; [|by apply last_None in El]. destruct (last m) as [[km vm]|] eqn:Em; [|by apply last_None in Em].
  destruct l as [|[k0 v0] l0] eqn:Ell; [done|]. destruct m as [|[k1 v1] m0] eqn:Emm; [done|]. cbn [head mbind option_bind].
  rewrite <- Ell, <- Emm in *. destruct (ltb kl k1) eqn:E1.
  - apply ltb_lt in E1. assert (sorted_map (l ++ m)) as Hs by (by eapply sorted_join).
    rewrite <- (concat_insert _ _ Hs). by apply append_graft_ok.
  - destruct (ltb km k0) eqn:E2; [|by apply append_drain_ok].
    apply ltb_lt in E2. assert (sorted_map (m ++ l)) as Hs by (by eapply sorted_join).
    rewrite (insert_pairs_below _ _ Hs). apply append_graft_ok; try done.
    + rewrite <- (concat_insert _ _ Hs), <- (insert_pairs_below _ _ Hs). done.
    + destruct Hg as (? & ? & ?). split_and!; [|done..]. rewrite Nat.max_comm. lia.
Qed.

(** C36: appending by tree surgery.  On maps without empty leaves [append] leaves
    the first map with the entries of the second put into it, the values of the
    second winning, and the second empty: by grafting the second tree onto the
    right edge of the first, or the first onto the second, where the key ranges are
    apart, and by merging otherwise; the assertions of debug builds hold. *)
Theorem btree_append_surgery_correct debug t other l m :
  assert_capacities key_size val_size = true → represents t l → represents other m →
  no_empty_leaf_of t → no_empty_leaf_of other →
  bulk_ready key_size val_size (length (insert_pairs l m)) → graftable t other →
  ∃ t' other', append key_size val_size debug t other = Some (t', other') ∧
    represents t' (insert_pairs l m) ∧ represents other' [].
Proof using Type*. intros. by apply append_surgery_ok. Qed.
End spec.

(** ** Runs *)

(** Entries with consecutive keys. *)
Definition stretch (from n : nat) : list (nat * nat) := List.map (λ k, (k, 10 * k)) (seq from n).

Definition stretch_tree (from n : nat) : RawBTree nat nat :=
  default tree_new (insert_all small_key small_val tree_new (stretch from n)).

Lemma stretch_represents_3 : represents (MK := any_nodes) small_key small_val (stretch_tree 20 3) (stretch 20 3).
Proof.
  change (stretch 20 3) with (insert_pairs [] (stretch 20 3)).
  apply (insert_all_represents (MK := any_nodes) small_key small_val tree_new [] (stretch 20 3)).
  - reflexivity.
  - apply tree_new_represents.
  - vm_compute. reflexivity.
Qed.

Definition is_defined {A} (o : option A) : bool := match o with Some _ => true | None => false end.

Lemma btree_append_surgery_correct_witness :
  ∃ t' other', append small_key small_val true (sample_tree 9) (stretch_tree 20 3) = Some (t', other') ∧
    represents (MK := any_nodes) small_key small_val t' (sample 9 ++ stretch 20 3).
Proof.
  destruct (btree_append_surgery_correct (MK := any_nodes) small_key small_val true (sample_tree 9) (stretch_tree 20 3)
    (sample 9) (stretch 20 3)) as (t' & other' & Ha & Hr & _).
  - reflexivity.
  - exact sample_any_9.
  - exact stretch_represents_3.
  - unfold no_empty_leaf_of. apply (bool_decide_unpack _). vm_compute. exact I.
  - unfold no_empty_leaf_of. apply (bool_decide_unpack _). vm_compute. exact I.
  - apply ready_any. vm_compute. discriminate.
  - vm_compute. split; [discriminate|]. split; lia.
  - exists t', other'. split; [exact Ha|exact Hr].
Defined.

(** Maps with keys and values of 8 bytes. *)
Definition built (from n : nat) : option (RawBTree nat nat) :=
  insert_all 8 8 tree_new (stretch from n).

Definition retained (p : nat → bool) (t : RawBTree nat nat) : option (RawBTree nat nat) :=
  do ' (_, t, _, _) <- retain t tt (λ s k v, (s, v, p k)); Some t.

(** The last leaf of the first map was emptied by [retain]: the separators of the
    joined map are not in order and none of the appended entries is found. *)
Theorem append_after_retain_loses :
  (do t <- built 1 20;
   do t <- retained (λ k, k <? 5) t;
   do other <- built 5 3;
   do ' (t, _) <- append 8 8 true t other;
   do ks <- keys t;
   Some (ks, List.map (get t) ks)) =
  Some ([1; 2; 3; 4; 5; 6; 7],
        [Some (Some 10); Some (Some 20); Some (Some 30); Some (Some 40); Some None; Some None; Some None]).
Proof. vm_compute. reflexivity. Qed.

(** The first leaf of the second map was emptied by [retain]: the separator is read
    from its first, dropped, key. *)
Theorem append_reads_dropped :
  (do t <- built 1 20; do other <- built 100 20; append 8 8 true t other) ≠ None ∧
  (do t <- built 1 20;
   do other <- built 100 20;
   do other <- retained (λ k, 115 <? k) other;
   do l <- items other;
   Some (l.*1, is_defined (append 8 8 true t other))) = Some ([116; 117; 118; 119], false).
Proof. split; vm_compute; [discriminate|reflexivity]. Qed.
