(* ===== verification/BTreeCut.v ===== *)
(** * The B+ tree engine: what cutting a tree does

    The walk of [split_off] from the boundary leaf to the root keeps two halves: the
    nodes that stay, and copies of those that move.  Their chains hold the entries on
    both sides of the key, always; their trees are well formed where no lone child
    is left inside the cut, and a run shows the lookups that fail where one is. *)

From Stdlib Require Import ZArith Lia.
From stdpp Require Import list_tactics sorting.
From S2P Require Import Prelude Float64 BinSearch BTree BTreeInv BTreeShape BTreeRep SortedAssoc BTreeSearch BTreeSplit BTreeLeaf BTreeInsert BTreeBulk BTreeSpec BTreeIter BTreeDrain BTreeMap BTreeEnds BTreeCollect BTreeRuns BTreeSurgery BTreeSurgerySpec.

Section cut.
Context {K V : Type} `{OrdLaws K} {MK : MinKeys} (key_size val_size : nat).
Abbreviation tree := (tree K V).
Abbreviation frame := (frame K V).
Abbreviation shape := (shape key_size val_size).
Abbreviation cshape := (cshape key_size val_size).
Abbreviation repr := (repr key_size val_size).
Abbreviation represents := (represents key_size val_size).
Abbreviation LEAF_CAP := (LEAF_CAP key_size val_size).
Abbreviation INTERNAL_CAP := (INTERNAL_CAP key_size).
Implicit Types (a src : Arena K V) (t other : RawBTree K V) (g : tree) (fs : list frame) (f : frame) (l : list (K * V)) (I L : list nat)
  (B : list (nat * Body K V)) (P : list (nat * option nat)).

(** ** Halves of a tree *)

(** The left half of a cut: the nodes of its right edge may have lost keys down to
    none; likewise the right half and its left edge. *)
Fixpoint lhalf (n : nat) (lo hi : option K) g : Prop :=
  match n, g with
  | 0, TLeaf _ _ => shape 0 lo hi g
  | S n', TNode _ ks cs =>
      length ks <= INTERNAL_CAP ∧ ∃ cs0 c, cs = cs0 ++ [c] ∧ lseps (shape n') lo ks cs0 ∧ lhalf n' (last_bound lo ks) hi c
  | _, _ => False
  end.

Fixpoint rhalf (n : nat) (lo hi : option K) g : Prop :=
  match n, g with
  | 0, TLeaf _ _ => shape 0 lo hi g
  | S n', TNode _ ks cs =>
      length ks <= INTERNAL_CAP ∧ ∃ c cs0, cs = c :: cs0 ∧ rhalf n' lo (head_bound ks hi) c ∧ rseps (shape n') ks cs0 hi
  | _, _ => False
  end.

Definition edge_child (e : CollapseEdge) (cs : list tree) : option tree :=
  match e with Leftmost => head cs | Rightmost => last cs end.

(** The numbers of keys of the nodes along an edge, from the root. *)
Fixpoint edge_keys (e : CollapseEdge) (n : nat) g : list nat :=
  match n, g with
  | S n', TNode _ ks cs => length ks :: match edge_child e cs with Some c => edge_keys e n' c | None => [] end
  | _, _ => []
  end.

(** Lone children at the top only. *)
Fixpoint straight (counts : list nat) : bool :=
  match counts with
  | [] => true
  | 0 :: counts' => straight counts'
  | _ => forallb (λ c, 0 <? c) counts
  end.

Fixpoint strip g : tree :=
  match g with TNode _ [] [c] => strip c | _ => g end.

Lemma lhalf_shape n lo hi g :
  lhalf n lo hi g → forallb (λ c, 0 <? c) (edge_keys Rightmost n g) = true → shape n lo hi g.
Proof using Type.
  revert lo hi g. induction n as [|n IH]; intros lo hi [i kvs|i ks cs]; try done. cbn [lhalf edge_keys edge_child BTreeShape.shape].
  intros (Hlen & cs0 & c & -> & Hl & Hc). rewrite last_snoc. cbn [forallb]. intros [Hk%Nat.ltb_lt Hf]%andb_true_iff.
  pose proof min_keys_le. split; [lia|]. rewrite <- (app_nil_r ks).
  apply (seps_hole _ lo ks [] [] cs0 [c] [] hi); [by eapply lseps_length|done|done|]. split_and!; [done|by apply IH|done].
Qed.

Lemma rhalf_shape n lo hi g :
  rhalf n lo hi g → forallb (λ c, 0 <? c) (edge_keys Leftmost n g) = true → shape n lo hi g.
Proof using Type.
  revert lo hi g. induction n as [|n IH]; intros lo hi [i kvs|i ks cs]; try done. cbn [rhalf edge_keys edge_child BTreeShape.shape].
  intros (Hlen & c & cs0 & -> & Hc & Hr). cbn [head forallb]. intros [Hk%Nat.ltb_lt Hf]%andb_true_iff.
  pose proof min_keys_le. split; [lia|]. apply seps_cons_right; [by eapply rseps_length|]. split; [by apply IH|done].
Qed.

(** Stripping the lone children at the top leaves a tree. *)
Lemma lhalf_strip n lo hi g :
  lhalf n lo hi g → straight (edge_keys Rightmost n g) = true → ∃ n', n' <= n ∧ shape n' lo hi (strip g).
Proof using Type.
  revert lo hi g. induction n as [|n IH]; intros lo hi [i kvs|i ks cs]; try done; [by intros Hs _; exists 0|].
  intros Hg Hst. cbn [edge_keys edge_child] in Hst. destruct ks as [|k ks].
  - destruct Hg as (_ & cs0 & c & -> & Hl & Hc). apply lseps_length in Hl. destruct cs0; [|done]. cbn in Hst, Hc |- *.
    destruct (IH _ _ _ Hc Hst) as (n' & Hn & Hs). exists n'. split; [lia|done].
  - exists (S n). split; [done|]. apply (lhalf_shape (S n)); [done|]. exact Hst.
Qed.

Lemma rhalf_strip n lo hi g :
  rhalf n lo hi g → straight (edge_keys Leftmost n g) = true → ∃ n', n' <= n ∧ shape n' lo hi (strip g).
Proof using Type.
  revert lo hi g. induction n as [|n IH]; intros lo hi [i kvs|i ks cs]; try done; [by intros Hs _; exists 0|].
  intros Hg Hst. cbn [edge_keys edge_child] in Hst. destruct ks as [|k ks].
  - destruct Hg as (_ & c & cs0 & -> & Hc & Hr). apply rseps_length in Hr. destruct cs0; [|done]. cbn in Hst, Hc |- *.
    destruct (IH _ _ _ Hc Hst) as (n' & Hn & Hs). exists n'. split; [lia|done].
  - exists (S n). split; [done|]. apply (rhalf_shape (S n)); [done|]. exact Hst.
Qed.

(** Depth at most [n]. *)
Fixpoint within (n : nat) g : Prop :=
  match n, g with
  | _, TLeaf _ _ => True
  | S n', TNode _ ks cs => length cs = S (length ks) ∧ Forall (within n') cs
  | 0, TNode _ _ _ => False
  end.

Lemma levels_within n g : levels n g → within n g.
Proof using Type.
  revert g. induction n as [|n IH]; intros [i kvs|i ks cs]; try done. intros [Hl Hc]. split; [done|].
  apply (Forall_impl _ _ _ Hc). apply IH.
Qed.

Lemma within_mono n g : within n g → within (S n) g.
Proof using Type.
  revert g. induction n as [|n IH]; intros [i kvs|i ks cs]; try done. intros [Hl Hc]. split; [done|].
  apply (Forall_impl _ _ _ Hc). apply IH.
Qed.

Lemma within_plug fs g c N : (∀ n, within n g → within n c) → within N (plug fs g) → within N (plug fs c).
Proof using Type.
  revert g c. induction fs as [|f fs IH]; intros g c Hgc; [apply Hgc|]. rewrite !plug_cons. apply IH. clear -Hgc.
  intros [|n]; [done|]. cbn. rewrite !length_app, !Forall_app, !Forall_cons. cbn. intros (? & ? & ? & ?). split_and!; try done. by apply Hgc.
Qed.

Lemma within_hole fs g N : within N (plug fs g) → ∃ n, n <= N ∧ within n g.
Proof using Type.
  revert g. induction fs as [|f fs IH]; intros g Hw; [by exists N|]. rewrite plug_cons in Hw. destruct (IH _ Hw) as ([|n] & Hn & Hf); [done|].
  exists n. split; [lia|]. destruct Hf as [_ Hf]. rewrite !Forall_app, !Forall_cons in Hf. by destruct Hf as (_ & [? _] & _).
Qed.

Lemma compute_height_ok a g n fuel :
  agrees (bodies a) (tbodies g) → within n g → n < fuel →
  ∃ h, compute_height fuel a (tid g) = Some h ∧ (∀ n', levels n' g → h = n').
Proof using Type.
  revert g fuel. induction n as [|n IH]; intros [i kvs|i ks cs] [|fuel] Ha Hw Hf; try done; try lia; cbn [tbodies] in Ha; apply agrees_cons in Ha as [Hi Ha];
    cbn [compute_height tid]; rewrite Hi; cbn [mbind option_bind].
  1,2: exists 0; split; [done|]; by intros [|n'].
  destruct Hw as [Hl Hc]. destruct cs as [|c cs]; [done|]. cbn in Ha. apply agrees_app in Ha as [Ha _]. apply Forall_cons in Hc as [Hc _].
  destruct (IH c fuel Ha Hc) as (h & Hh & Hlev); [lia|]. cbn [List.map lookup list_lookup mbind option_bind]. rewrite Hh. exists (S h). split; [done|].
  intros [|n']; [done|]. intros [_ [Hc' _]%Forall_cons]. f_equal. by apply Hlev.
Qed.
(** ** Collapsing *)

Lemma leaves_in_ids g i : i ∈ leaves g → i ∈ ids g.
Proof using Type.
  induction g as [j kvs|j ks cs IH] using tree_ind_strong; [done|]. cbn. intros Hi. right.
  apply list_elem_of_In, List.in_flat_map in Hi as (c & Hc & Hi). apply list_elem_of_In, List.in_flat_map. exists c. split; [done|].
  rewrite Forall_forall in IH. apply list_elem_of_In, IH; by apply list_elem_of_In.
Qed.

Lemma flat_leaves_in_ids gs i : i ∈ List.flat_map (@leaves K V) gs → i ∈ List.flat_map ids gs.
Proof using Type.
  intros Hi. apply list_elem_of_In, List.in_flat_map in Hi as (c & Hc & Hi). apply list_elem_of_In, List.in_flat_map. exists c.
  split; [done|]. by apply list_elem_of_In, leaves_in_ids, list_elem_of_In.
Qed.

Lemma side_leaves_in_ids fs i : i ∈ lleaves (K:=K) (V:=V) fs ++ rleaves fs → i ∈ cids fs.
Proof using Type.
  induction fs as [|f fs IH]; [done|]. cbn. rewrite elem_of_cons, !elem_of_app.
  intros [[Hi|Hi]|[Hi|Hi]]; [do 3 right; apply IH, elem_of_app; by left|right; left; by apply flat_leaves_in_ids
    |right; right; left; by apply flat_leaves_in_ids|do 3 right; apply IH, elem_of_app; by right].
Qed.

Lemma internal_not_leaf fs i ks cs :
  NoDup (cids fs ++ ids (TNode (K:=K) (V:=V) i ks cs)) → i ∉ lleaves fs ++ leaves (TNode i ks cs) ++ rleaves fs.
Proof using Type.
  intros (_ & Hd & Hn)%NoDup_app. cbn in Hn. apply NoDup_cons in Hn as [Hn _]. cbn [leaves]. rewrite !elem_of_app. intros Hi.
  assert (i ∈ cids fs → False) as Hc by (intros Hi'; apply (Hd _ Hi'); by left).
  destruct Hi as [Hi|[Hi|Hi]]; [|by apply Hn, flat_leaves_in_ids|]; apply Hc, side_leaves_in_ids, elem_of_app; [by left|by right].
Qed.

(** The link to the hole. *)
Definition slot_of fs : option (nat * nat) := match fs with f :: _ => Some (f_id f, length (f_left f)) | [] => None end.

Lemma lone_step a fs i c X :
  fstate a (cids fs ++ ids (TNode i [] [c])) (cbodies fs i ++ tbodies (TNode i [] [c]))
    (cparents fs ++ tparents (parent_of fs) (TNode i [] [c])) X → i ∉ X.*1 →
  ∃ a', (match slot_of fs with
         | Some (p, slot) =>
             do ' (pkeys, pchildren) <- internal_node (set_parent a (tid c) (fst <$> slot_of fs)) p;
             Some (set_body (set_parent a (tid c) (fst <$> slot_of fs)) p (InternalBody pkeys (<[slot := tid c]> pchildren)), tid (plug fs (TNode i [] [c])))
         | None => Some (set_parent a (tid c) (fst <$> slot_of fs), tid c)
         end) = Some (a', tid (plug fs c)) ∧
    fstate (free_node a' i) (cids fs ++ ids c) (cbodies fs (tid c) ++ tbodies c) (cparents fs ++ tparents (parent_of fs) c) X.
Proof using Type.
  intros Hs HX. assert (fst <$> slot_of fs = parent_of fs) as -> by by destruct fs. cbn [ids tbodies tparents List.flat_map List.map] in Hs.
  rewrite !app_nil_r in Hs.
  arrange_parents Hs ((tid c, Some i) :: (i, parent_of fs) :: cparents fs ++ tsub c).
  { rewrite (tparents_root (Some i) c). solve_Permutation. }
  apply (astate_set_parent _ _ _ _ (parent_of fs)) in Hs.
  assert (∀ a b, fstate a (cids fs ++ i :: ids c) ((i, b) :: cbodies fs (tid c) ++ tbodies c)
    ((tid c, parent_of fs) :: (i, parent_of fs) :: cparents fs ++ tsub c) X →
    fstate (free_node a i) (cids fs ++ ids c) (cbodies fs (tid c) ++ tbodies c) (cparents fs ++ tparents (parent_of fs) c) X) as Hfree.
  { intros a0 b H1. apply (src_free _ _ _ b (parent_of fs)); [|done]. eapply astate_perm; [| | |exact H1]; [solve_Permutation|done|].
    rewrite (tparents_root (parent_of fs) c). solve_Permutation. }
  destruct fs as [|f fs]; cbn [slot_of].
  - eexists. split; [reflexivity|]. eapply Hfree. exact Hs.
  - assert (internal_node (set_parent a (tid c) (parent_of (f :: fs))) (f_id f) =
      Some (f_lkeys f ++ f_rkeys f, List.map tid (f_left f) ++ i :: List.map tid (f_right f))) as ->.
    { unfold internal_node. erewrite (field_get (bodies _)); [|by left|apply (as_bodies _ _ _ _ _ Hs)]. done. }
    cbn [mbind option_bind]. eexists. split; [by rewrite !plug_cons, !tid_plug, !fill_id|].
    rewrite <- (length_map tid (f_left f)). replace (length (List.map tid (f_left f))) with (length (List.map tid (f_left f)) + 0) by lia.
    rewrite insert_app_r. cbn [insert list_insert]. eapply Hfree. cbn [cbodies app] in *.
    apply (astate_set_body _ _ _ _ (InternalBody (f_lkeys f ++ f_rkeys f) (List.map tid (f_left f) ++ tid c :: List.map tid (f_right f)))) in Hs.
    eapply astate_perm; [| | |exact Hs]; solve_Permutation.
Qed.

(** The child on the edge. *)
Lemma edge_zip e i ks cs :
  length cs = S (length ks) →
  ∃ f c, TNode i ks cs = fill f [c] [] ∧ f_id f = i ∧ edge_child e cs = Some c ∧
    (match e with Leftmost => 0 | Rightmost => length ks end) = length (f_left f) ∧ cs !! length (f_left f) = Some c.
Proof using Type.
  intros Hl. destruct e.
  - destruct cs as [|c cs]; [done|]. by exists {| f_id := i; f_lkeys := []; f_left := []; f_rkeys := ks; f_right := cs |}, c.
  - destruct cs as [|c cs _] using rev_ind; [done|]. exists {| f_id := i; f_lkeys := ks; f_left := cs; f_rkeys := []; f_right := [] |}, c.
    rewrite length_app in Hl. cbn in Hl. unfold fill. cbn. rewrite app_nil_r, last_snoc, list_lookup_middle by done. split_and!; [done..|lia|done].
Qed.

(** The walk down an edge: the tree with every lone child in the place of its
    parent; only the root changes where lone children are at the top only. *)
Lemma collapse_ok e X N fuel : ∀ n fs g a,
  fstate a (cids fs ++ ids g) (cbodies fs (tid g) ++ tbodies g) (cparents fs ++ tparents (parent_of fs) g) X →
  X.*1 = leaves (plug fs g) → within n g → within N (plug fs g) → n < fuel →
  ∃ a' g', collapse_along_edge fuel a e (tid (plug fs g)) (slot_of fs) (tid g) = Some (a', tid g') ∧
    fstate a' (ids g') (tbodies g') (tparents None g') X ∧ tleaves g' = tleaves (plug fs g) ∧ within N g' ∧
    (forallb (λ c, 0 <? c) (edge_keys e n g) = true → g' = plug fs g) ∧
    (fs = [] → straight (edge_keys e n g) = true → g' = strip g).
Proof using Type.
  induction fuel as [|fuel IH]; intros n fs g a Hs HX Hn HN Hf; [lia|]. destruct g as [i kvs|i ks cs].
  { exists a, (plug fs (TLeaf i kvs)). cbn [collapse_along_edge tid].
    erewrite (field_get (bodies a)); [|apply elem_of_app; right; by left|apply (as_bodies _ _ _ _ _ Hs)]. cbn [mbind option_bind].
    split_and!; [done| |done|done|done|by intros ->]. eapply astate_perm; [| | |exact Hs]; symmetry; [apply ids_plug|apply tbodies_plug|apply tparents_plug]. }
  destruct n as [|n]; [done|]. destruct Hn as [Hl Hc]. cbn [collapse_along_edge].
  assert (bodies a !! tid (TNode i ks cs) = Some (InternalBody ks (List.map tid cs))) as ->.
  { eapply field_get; [|apply (as_bodies _ _ _ _ _ Hs)]. apply elem_of_app. right. by left. }
  cbn [mbind option_bind]. destruct ks as [|k ks].
  - destruct cs as [|c [|]]; try done. cbn [length Nat.eqb List.map lookup list_lookup mbind option_bind].
    assert (NoDup (cids fs ++ ids (TNode i [] [c]))) as Hnd.
    { destruct (as_arena _ _ _ _ _ Hs) as [Hn _]. by apply NoDup_app in Hn as [? _]. }
    destruct (lone_step a fs i c X Hs) as (a' & -> & Hs').
    { rewrite HX, leaves_plug. by apply internal_not_leaf. }
    cbn [mbind option_bind]. apply Forall_cons in Hc as [Hc _].
    destruct (IH n fs c _ Hs') as (a2 & g' & Hrun & Hs2 & Htl & HN' & _ & Hst).
    { rewrite HX, !leaves_plug. cbn [leaves List.flat_map]. by rewrite app_nil_r. }
    { done. }
    { eapply within_plug; [|exact HN]. intros [|m]; [done|]. cbn. intros [_ [? _]%Forall_cons]. by apply within_mono. }
    { lia. }
    exists a2, g'. cbn [tid]. split_and!; [exact Hrun|done| |done|done|].
    + rewrite Htl, !tleaves_plug. cbn [tleaves List.flat_map]. by rewrite app_nil_r.
    + intros -> Hs3. cbn [strip]. apply Hst; [done|]. by destruct e.
  - cbn [length Nat.eqb]. destruct (edge_zip e i (k :: ks) cs Hl) as (f & c & Heq & Hid & Hec & Hslot & Hlook).
    cbn [length] in Hslot. rewrite Hslot. change (List.map tid cs) with (tid <$> cs). rewrite list_lookup_fmap, Hlook. cbn [mbind option_bind fmap option_fmap option_map].
    assert (within n c) as Hcw by (eapply Forall_forall; [exact Hc|]; by eapply list_elem_of_lookup_2).
    rewrite Heq in Hs, HX, HN |- *. destruct (IH n (f :: fs) c a) as (a' & g' & Hrun & Hs' & Htl & HN' & Hsol & _); [|done|done|done|lia|].
    { eapply astate_perm; [| | |exact Hs].
      - cbn. rewrite !List.flat_map_app. cbn. solve_Permutation.
      - rewrite tbodies_fill, fill_id. cbn. rewrite app_nil_r. solve_Permutation.
      - cbn. rewrite !List.flat_map_app. cbn. solve_Permutation. }
    exists a', g'. cbn [slot_of tid] in Hrun |- *. rewrite plug_cons in *. rewrite Hid in Hrun. rewrite fill_id, Hid.
    split_and!; [exact Hrun|done|done|done| |].
    + cbn [edge_keys] in *. rewrite <- Heq. cbn [edge_keys forallb]. rewrite Hec. intros [_ Hf']%andb_true_iff. by rewrite (Hsol Hf'), <- Heq.
    + intros ->. rewrite <- Heq. cbn [edge_keys straight forallb strip length]. rewrite Hec. intros [_ Hf']%andb_true_iff. rewrite (Hsol Hf'), <- Heq. by destruct cs as [|? [|]].
Qed.
Lemma finish_half_ok e n fuel g a p X :
  fstate a (ids g) (tbodies g) (tparents p g) X → X.*1 = leaves g → within n g → n < fuel →
  ∃ a' g' h, finish_half fuel a (Some (tid g)) e = Some (a', Some (tid g'), h) ∧
    fstate a' (ids g') (tbodies g') (tparents None g') X ∧ tleaves g' = tleaves g ∧
    (straight (edge_keys e n g) = true → g' = strip g) ∧ (∀ n', levels n' g' → h = n').
Proof using Type.
  intros Hs HX Hn Hf. unfold finish_half. rewrite (tparents_root p g) in Hs. apply (astate_set_parent _ _ _ _ None) in Hs.
  rewrite <- (tparents_root None g) in Hs.
  destruct (collapse_ok e X n fuel n [] g _ Hs HX Hn Hn Hf) as (a' & g' & Hrun & Hs' & Htl & HN' & _ & Hst).
  cbn [plug foldl slot_of] in Hrun. rewrite Hrun. cbn [mbind option_bind].
  destruct (compute_height_ok a' g' n fuel) as (h & -> & Hh); [apply (as_bodies _ _ _ _ _ Hs')|done|done|]. cbn [mbind option_bind].
  exists a', g', h. split_and!; [done|done|done|by apply Hst|done].
Qed.

(** A tree that is held is chained, whatever its shape. *)
Lemma holds_chained t g : holds t g → chained t (tleaves g).
Proof using Type.
  intros Ht. pose proof (h_state _ _ Ht) as [Hb _ Hlk (Hn & Hlt & _)]. split.
  - split.
    + apply Forall_forall. intros [i kvs] Hi%tleaves_body. unfold leaf_kvs. cbn [fst snd]. by rewrite (field_get _ _ _ _ _ Hi Hb).
    + intros I1 i I2 HI. rewrite tleaves_ids in HI. rewrite HI in Hlk. apply (chain_at _ _ _ _ _ Hlk).
  - rewrite tleaves_ids. destruct Hlk as (Hnl & _ & _). by rewrite chain_ids in Hnl.
  - by rewrite tleaves_ids, (h_first _ _ Ht).
  - by rewrite tleaves_ids, (h_last _ _ Ht).
  - by rewrite (h_len _ _ Ht), entries_tleaves.
  - rewrite <- (length_fmap fst), tleaves_ids. destruct Hlk as (Hnl & Hsub & _).
    rewrite chain_ids in Hnl, Hsub.
    rewrite <- (length_seq (arena_len (arena t)) 0). apply submseteq_length, NoDup_submseteq; [done|].
    intros i Hi. apply elem_of_seq. rewrite Forall_app, !Forall_forall in Hlt. destruct Hlt as [Hlt _].
    pose proof (Hlt i (Hsub i Hi)). lia.
Qed.

Lemma shape_open_hi n lo hi g : shape n lo hi g → shape n lo None g.
Proof using Type.
  revert lo hi g. induction n as [|n IH]; intros lo hi [i kvs|i ks cs]; try done; cbn [BTreeShape.shape].
  - intros (Hlen & _ & Hs & Hr). split_and!; [done|by destruct lo|done|]. apply (Forall_impl _ _ _ Hr). by intros x [? _].
  - intros [Hlen Hs]. split; [done|]. clear Hlen. revert lo ks Hs. induction cs as [|c cs IHc]; intros lo ks Hs; [by destruct ks|].
    destruct ks as [|k ks]; [destruct cs; [by eapply IH|done]|]. destruct Hs as [? Hs]. split; [done|by apply IHc].
Qed.

Lemma shape_open_lo n lo hi g : shape n lo hi g → shape n None hi g.
Proof using Type.
  revert hi g. induction n as [|n IH]; intros hi [i kvs|i ks cs]; try done; cbn [BTreeShape.shape].
  - intros (Hlen & _ & Hs & Hr). split_and!; [done|done|done|]. apply (Forall_impl _ _ _ Hr). by intros x [_ ?].
  - intros [Hlen Hs]. split; [done|]. destruct cs as [|c cs]; [by destruct ks|].
    destruct ks as [|k ks]; [destruct cs; [by eapply IH|done]|]. destruct Hs as [? Hs]. split; [by apply IH|done].
Qed.

(** ** The walk *)

Lemma build_node_ok a ks gs X :
  gs ≠ [] → room 1 a → fstate a (List.flat_map ids gs) (List.flat_map tbodies gs) (List.flat_map (tparents None) gs) X →
  ∃ i a', build_node a ks (List.map tid gs) = Some (Some i, a') ∧
    fstate a' (ids (TNode i ks gs)) (tbodies (TNode i ks gs)) (tparents None (TNode i ks gs)) X ∧ arena_len a' <= arena_len a + 1.
Proof using Type.
  intros Hne Hroom Hs. unfold build_node. destruct gs as [|g gs']; [done|]. cbn [List.map]. set (gs := g :: gs') in *.
  change (tid g :: List.map tid gs') with (List.map tid gs). clearbody gs.
  destruct (alloc_fresh _ _ _ _ _ Hroom Hs) as (i & a' & -> & _ & HB & HP & _ & Hs' & Hlen). cbn [mbind option_bind].
  apply (astate_new_parent _ _ i None) in Hs'; [|by left|done]. apply (astate_new_body _ _ i (InternalBody ks (List.map tid gs))) in Hs'; [|by left|done].
  arrange_parents Hs' (List.map (λ c, (c, None)) (List.map (@tid K V) gs) ++ (i, None) :: List.flat_map tsub gs).
  { rewrite (flat_tparents None gs). solve_Permutation. }
  apply (astate_set_parents _ _ _ _ i) in Hs'. exists i. eexists. split; [reflexivity|]. split; [|by rewrite set_parents_eq].
  eapply astate_perm; [| | |exact Hs']; [done|done|]. cbn [tparents]. rewrite (flat_tparents (Some i) gs). solve_Permutation.
Qed.

(** The half in the source, which may not have begun yet. *)
Definition oids (og : option tree) : list nat := match og with Some g => ids g | None => [] end.
Definition obodies (og : option tree) := match og with Some g => tbodies g | None => [] end.
Definition oparents p (og : option tree) := match og with Some g => tparents p g | None => [] end.
Definition oleaves (og : option tree) : list nat := match og with Some g => leaves g | None => [] end.
Definition oentries (og : option tree) : list (K * V) := match og with Some g => entries g | None => [] end.

(** What a level adds to the left half [og]: the node with the children left of
    the cut, if there are any. *)
Definition grow_left (i : nat) f (og : option tree) (left : list tree) : option tree :=
  match og with
  | Some g => Some (TNode i (f_lkeys f) (left ++ [g]))
  | None => match left with [] => None | _ => Some (TNode i (take (length left - 1) (f_lkeys f)) left) end
  end.

(** The keys on the right edge of the left half, as the walk counts them. *)
Fixpoint left_counts (begun : bool) (spine : list (nat * nat)) (counts : list nat) : list nat :=
  match spine with
  | [] => counts
  | (pos, _) :: spine' =>
      if begun then left_counts true spine' (pos :: counts)
      else if pos =? 0 then left_counts false spine' counts else left_counts true spine' (pos - 1 :: counts)
  end.

Fixpoint right_counts (spine : list (nat * nat)) (counts : list nat) : list nat :=
  match spine with [] => counts | (pos, n) :: spine' => right_counts spine' (n - pos :: counts) end.

(** The slot of each node of a path and its number of keys. *)
Definition spine_of fs : list (nat * nat) := List.map (λ f, (length (f_left f), length (f_lkeys f ++ f_rkeys f))) fs.
(** Lists around a hole. *)
Lemma drop_hole {A} (ls rs : list A) x : drop (length ls + 1) (ls ++ x :: rs) = rs.
Proof using Type. rewrite drop_app_add. by destruct rs. Qed.

Lemma take_hole {A} (ls rs : list A) x y : take (length ls + 1) (<[length ls := y]> (ls ++ x :: rs)) = ls ++ [y].
Proof using Type.
  replace (length ls) with (length ls + 0) at 2 by lia. rewrite insert_app_r. cbn [insert list_insert]. rewrite take_app_add. done.
Qed.

Lemma head_behind {A} (ls rs : list A) : (ls ++ rs) !! length ls = head rs.
Proof using Type. rewrite lookup_app_r by done. rewrite Nat.sub_diag. by destruct rs. Qed.

Lemma drop_behind {A} (ls rs : list A) : drop (length ls + 1) (ls ++ rs) = tail rs.
Proof using Type. rewrite drop_app_add. by destruct rs. Qed.

Lemma seps_child n lo ks (cs : list tree) hi c : seps (shape n) lo ks cs hi → c ∈ cs → ∃ lo' hi', shape n lo' hi' c.
Proof using Type.
  revert lo ks. induction cs as [|c' cs IH]; intros lo ks Hs Hc; [by apply not_elem_of_nil in Hc|].
  destruct ks as [|k ks]; [destruct cs; [|done]; apply list_elem_of_singleton in Hc as ->; by eexists _, _|].
  destruct Hs as [Hs1 Hs]. apply elem_of_cons in Hc as [->|Hc]; [by eexists _, _|by eapply IH].
Qed.

Lemma edge_positive e n lo hi g : 1 <= min_keys → shape n lo hi g → forallb (λ c, 0 <? c) (edge_keys e n g) = true.
Proof using Type.
  intros Hm. revert lo hi g. induction n as [|n IH]; intros lo hi [i kvs|i ks cs]; try done. intros [Hlen Hs]. cbn [edge_keys forallb].
  apply andb_true_iff. split; [apply Nat.ltb_lt; lia|].
  destruct (edge_child e cs) as [c|] eqn:E; [|done]. destruct (seps_child _ _ _ _ _ c Hs) as (lo' & hi' & Hc); [|by eapply IH].
  destruct e; cbn in E; [destruct cs; [done|injection E as ->; by left]|]. apply last_Some in E as [cs' ->]. apply elem_of_app. right. by left.
Qed.

Lemma shape_lhalf n lo hi g : shape n lo hi g → lhalf n lo hi g.
Proof using Type.
  revert lo hi g. induction n as [|n IH]; intros lo hi [i kvs|i ks cs]; try done. intros [Hlen Hs]. cbn [lhalf]. split; [lia|].
  pose proof (seps_length _ _ _ _ _ Hs) as Hl. destruct cs as [|c cs _] using rev_ind; [done|]. exists cs, c. split; [done|].
  rewrite length_app in Hl. cbn in Hl. rewrite <- (app_nil_r ks) in Hs.
  apply (seps_hole _ lo ks [] [] cs [c] [] hi) in Hs as (H1 & H2 & _); [|lia|done|done]. cbn in H2. split; [done|by apply IH].
Qed.

(** What is known of the left half. *)
Definition left_ok (n : nat) lo (og : option tree) (counts : list nat) : Prop :=
  match og with
  | Some g => (∃ hi, lhalf n lo hi g) ∧ ∃ more, edge_keys Rightmost n g = counts ++ more ∧ (1 <= min_keys → forallb (λ c, 0 <? c) more = true)
  | None => counts = []
  end.

Definition is_begun (og : option tree) : bool := match og with Some _ => true | None => false end.

(** One more level of the left half. *)
Lemma left_grow n flo i f og left counts :
  lseps (shape n) flo (f_lkeys f) left → length (f_lkeys f) <= INTERNAL_CAP → left_ok n (last_bound flo (f_lkeys f)) og counts →
  left_ok (S n) flo (grow_left i f og left)
    (if is_begun og then length left :: counts else if length left =? 0 then counts else length left - 1 :: counts).
Proof using Type.
  intros Hl Hcap Hog. pose proof (lseps_length _ _ _ _ Hl) as Hlen. destruct og as [g|]; cbn [is_begun grow_left].
  - destruct Hog as [[hi Hg] (more & He & Hm)]. split.
    + exists hi. cbn [lhalf]. split; [done|]. by exists left, g.
    + exists more. cbn [edge_keys edge_child]. by rewrite last_snoc, He, Hlen.
  - cbn in Hog. subst counts. destruct left as [|c left _] using rev_ind; [done|]. rewrite length_app in *. cbn [length] in *.
    destruct (Nat.eqb_spec (length left + 1) 0) as [?|_]; [lia|]. rewrite Nat.add_sub. rewrite Nat.add_1_r in Hlen.
    destruct (left ++ [c]) as [|y ys] eqn:E; [by destruct left|]. rewrite <- E in *. clear E y ys. cbn [left_ok].
    destruct (f_lkeys f) as [|k ks _] using rev_ind; [done|]. rewrite length_app in Hlen, Hcap. cbn in Hlen, Hcap.
    apply lseps_snoc in Hl as [Hl Hc]. replace (length left) with (length ks) by lia. rewrite take_app_length. split.
    + exists (Some k). cbn [lhalf]. split; [lia|]. exists left, c. split_and!; [done|done|by apply shape_lhalf].
    + exists (edge_keys Rightmost n c). cbn [edge_keys edge_child]. rewrite last_snoc. split; [done|]. intros Hm. by eapply edge_positive.
Qed.

Lemma seps_rskel n ks (cs cs' : list tree) hi : List.map skel cs' = List.map skel cs → rseps (shape n) ks cs hi → rseps (shape n) ks cs' hi.
Proof using Type.
  revert ks cs'. induction cs as [|c cs IH]; intros [|k ks] [|c' cs']; try done. cbn. intros [= Hc Hcs] [Hs Hr].
  split; [by eapply shape_skel|by apply IH].
Qed.

Lemma seps_lskel n lo ks (cs cs' : list tree) : List.map skel cs' = List.map skel cs → lseps (shape n) lo ks cs → lseps (shape n) lo ks cs'.
Proof using Type.
  revert lo ks cs'. induction cs as [|c cs IH]; intros lo [|k ks] [|c' cs']; try done. cbn. intros [= Hc Hcs] [Hs Hr].
  split; [by eapply shape_skel|by apply IH].
Qed.

Lemma rseps_levels n ks (cs : list tree) hi : rseps (shape n) ks cs hi → Forall (levels n) cs.
Proof using Type.
  revert ks. induction cs as [|c cs IH]; intros [|k ks]; try done. intros [Hs Hr]. constructor; [by eapply shape_levels|by eapply IH].
Qed.

Lemma lseps_levels n lo ks (cs : list tree) : lseps (shape n) lo ks cs → Forall (levels n) cs.
Proof using Type.
  revert lo ks. induction cs as [|c cs IH]; intros lo [|k ks]; try done. intros [Hs Hr]. constructor; [by eapply shape_levels|by eapply IH].
Qed.

(** The state of the walk that moves the right half. *)
Record rwalk fs (n : nat) lo hi (x : nat) (og : option tree) gr (cl cr : list nat) (nxt : option nat) (LL : list nat)
    (le re : list (K * V)) (c : Cut) : Prop := {
  rw_left : left_root_below c = tid <$> og;
  rw_right : right_root_below c = Some (tid gr);
  rw_hole : ∀ g, og = Some g → x = tid g;
  rw_src : fstate (mv_src (ct_move c)) (oids og ++ cids fs) (obodies og ++ cbodies fs x) (oparents (parent_of fs) og ++ cparents fs)
    (chain None LL nxt);
  rw_dst : astate (cp_arena (mv_copy (ct_move c))) (ids gr) (tbodies gr) (tparents None gr) (leaves gr);
  rw_tail : dst_chain_tail (mv_copy (ct_move c)) = last (leaves gr);
  rw_first : dst_first_leaf (mv_copy (ct_move c)) = head (leaves gr);
  rw_count : mv_count (ct_move c) = length (entries gr);
  rw_room : room (length (cids fs)) (cp_arena (mv_copy (ct_move c)));
  rw_shape : cshape n fs lo hi;
  rw_lhalf : left_ok n lo og cl;
  rw_rhalf : (∃ lo', rhalf n lo' hi gr) ∧ edge_keys Leftmost n gr = cr;
  rw_leaves : lleaves fs ++ oleaves og = LL;
  rw_le : lentries fs ++ oentries og = le;
  rw_re : entries gr ++ rentries fs = re;
}.
Lemma oleaves_in_ids og i : i ∈ oleaves og → i ∈ oids og.
Proof using Type. destruct og; [apply leaves_in_ids|done]. Qed.

(** The leaves left of a hole are not in the subtrees right of it. *)
Lemma left_not_right f fs og i :
  NoDup (oids og ++ cids (f :: fs)) → i ∈ List.flat_map ids (f_right f) → i ∉ lleaves (f :: fs) ++ oleaves og.
Proof using Type.
  intros Hn Hi Hl. cbn [cids] in Hn.
  assert (NoDup (List.flat_map ids (f_right f) ++ oids og ++ f_id f :: List.flat_map ids (f_left f) ++ cids fs)) as Hn'.
  { eapply NoDup_Permutation_proper; [|exact Hn]. solve_Permutation. }
  apply NoDup_app in Hn' as (_ & Hd & _). apply (Hd _ Hi). cbn [lleaves] in Hl. rewrite !elem_of_app in Hl. rewrite !elem_of_app, elem_of_cons, !elem_of_app.
  destruct Hl as [[Hl|Hl]|Hl].
  - do 3 right. apply side_leaves_in_ids, elem_of_app. by left.
  - right. right. left. by apply flat_leaves_in_ids.
  - left. by apply oleaves_in_ids.
Qed.

(** The node that stays, with what it keeps. *)
Lemma keep_left a f fs x og X :
  length (f_left f) = length (f_lkeys f) → (∀ g, og = Some g → x = tid g) → f_id f ∉ X.*1 →
  fstate a (oids og ++ f_id f :: List.flat_map ids (f_left f) ++ cids fs)
    (obodies og ++ (f_id f, InternalBody (f_lkeys f ++ f_rkeys f) (List.map tid (f_left f) ++ x :: List.map tid (f_right f))) ::
      List.flat_map tbodies (f_left f) ++ cbodies fs (f_id f))
    (oparents (Some (f_id f)) og ++ (f_id f, parent_of fs) :: List.flat_map (tparents (Some (f_id f))) (f_left f) ++ cparents fs) X →
  let og' := grow_left (f_id f) f og (f_left f) in
  ∃ a', keep_left_side a (f_id f) (length (f_left f)) (f_lkeys f ++ f_rkeys f)
      (List.map tid (f_left f) ++ x :: List.map tid (f_right f)) (tid <$> og) = (tid <$> og', a') ∧ (∀ g, og' = Some g → f_id f = tid g) ∧
    fstate a' (oids og' ++ cids fs) (obodies og' ++ cbodies fs (f_id f)) (oparents (parent_of fs) og' ++ cparents fs) X.
Proof using Type.
  intros Hlen Hx HX Hs. unfold keep_left_side. assert (length (f_left f) = length (List.map (@tid K V) (f_left f))) as Hml by by rewrite length_map.
  destruct og as [g|]; cbn [fmap option_fmap option_map grow_left oids obodies oparents] in *.
  - assert (take (length (f_left f) + 1) (<[length (f_left f) := tid g]> (List.map tid (f_left f) ++ x :: List.map tid (f_right f))) =
      List.map tid (f_left f) ++ [tid g]) as -> by (rewrite Hml; apply take_hole).
    rewrite Hlen, take_app_length. eexists. split; [reflexivity|]. split; [by intros ? [= <-]|].
    arrange_parents Hs ((tid g, Some (f_id f)) :: tsub g ++ (f_id f, parent_of fs) :: List.flat_map (tparents (Some (f_id f))) (f_left f) ++ cparents fs).
    { rewrite (tparents_root _ g). solve_Permutation. }
    apply (astate_set_parent _ _ _ _ (Some (f_id f))) in Hs.
    arrange_bodies Hs ((f_id f, InternalBody (f_lkeys f ++ f_rkeys f) (List.map tid (f_left f) ++ x :: List.map tid (f_right f))) ::
      tbodies g ++ List.flat_map tbodies (f_left f) ++ cbodies fs (f_id f)); [solve_Permutation|].
    apply (astate_set_body _ _ _ _ (InternalBody (f_lkeys f) (List.map tid (f_left f) ++ [tid g]))) in Hs.
    eapply astate_perm; [| | |exact Hs]; cbn [ids tbodies tparents]; rewrite ?List.map_app, !List.flat_map_app; cbn; rewrite ?app_nil_r.
    + solve_Permutation.
    + solve_Permutation.
    + rewrite (tparents_root _ g). solve_Permutation.
  - destruct (Nat.eqb_spec (length (f_left f)) 0) as [E%nil_length_inv|Hne].
    + rewrite E in Hs |- *. cbn in Hs |- *. eexists. split; [reflexivity|]. split; [done|]. by eapply src_free.
    + assert (match f_left f with [] => None | _ :: _ => Some (TNode (f_id f) (take (length (f_left f) - 1) (f_lkeys f)) (f_left f)) end =
        Some (TNode (f_id f) (take (length (f_left f) - 1) (f_lkeys f)) (f_left f))) as -> by by destruct (f_left f).
      cbn [app] in Hs. apply (astate_set_body _ _ _ _ (InternalBody (take (length (f_left f) - 1) (f_lkeys f)) (List.map tid (f_left f)))) in Hs.
      assert (take (length (f_left f)) (List.map tid (f_left f) ++ x :: List.map tid (f_right f)) = List.map tid (f_left f)) as ->
        by (rewrite Hml; apply take_app_length).
      rewrite take_app_le by lia. eexists. split; [reflexivity|]. split; [by intros ? [= <-]|].
      eapply astate_perm; [| | |exact Hs]; cbn [oids obodies oparents ids tbodies tparents]; solve_Permutation.
Qed.

Lemma cut_right_step fuel f fs n lo hi x og gr cl cr nxt LL le re c :
  rwalk (f :: fs) n lo hi x og gr cl cr nxt LL le re c → n < fuel →
  ∃ c' flo fhi og' gr', cut_right_level fuel (f_id f) (length (f_left f)) c = Some c' ∧ is_begun og' = is_begun og || negb (length (f_left f) =? 0) ∧
    rwalk fs (S n) flo fhi (f_id f) og' gr'
      (if is_begun og then length (f_left f) :: cl else if length (f_left f) =? 0 then cl else length (f_left f) - 1 :: cl)
      (length (f_rkeys f) :: cr) nxt LL le re c'.
Proof using Type.
  intros [Hleft Hright Hx Hsrc Hdst Htail Hfirst Hcount Hroom (flo & fhi & -> & -> & Hls & Hrs & Hcap & Hc) Hog [[lo' Hgr] Hcr] HLL Hle Hre] Hf.
  destruct (cshape_lengths key_size val_size n f fs _ _ ltac:(by exists flo, fhi)) as [Hll Hlr].
  unfold cut_right_level. cbn [cids cbodies cparents parent_of head fmap option_fmap option_map] in *.
  assert (internal_node (mv_src (ct_move c)) (f_id f) = Some (f_lkeys f ++ f_rkeys f, List.map tid (f_left f) ++ x :: List.map tid (f_right f))) as ->.
  { unfold internal_node. erewrite (field_get (bodies _)); [|apply elem_of_app; right; by left|apply (as_bodies _ _ _ _ _ Hsrc)]. done. }
  cbn [mbind option_bind]. 
  assert (drop (length (f_left f) + 1) (List.map tid (f_left f) ++ x :: List.map tid (f_right f)) = List.map tid (f_right f)) as ->
    by (rewrite <- (length_map tid (f_left f)); apply drop_hole).
  set (J := oids og ++ f_id f :: List.flat_map ids (f_left f) ++ cids fs).
  set (BJ := obodies og ++ (f_id f, InternalBody (f_lkeys f ++ f_rkeys f) (List.map tid (f_left f) ++ x :: List.map tid (f_right f))) ::
    List.flat_map tbodies (f_left f) ++ cbodies fs (f_id f)).
  set (PJ := oparents (Some (f_id f)) og ++ (f_id f, parent_of fs) :: List.flat_map (tparents (Some (f_id f))) (f_left f) ++ cparents fs).
  assert (NoDup (oids og ++ cids (f :: fs))) as Hnd.
  { destruct (as_arena _ _ _ _ _ Hsrc) as [Hn _]. by apply NoDup_app in Hn as [? _]. }
  destruct (deep_copy_all_ok fuel (moving (Some (f_id f)) J BJ PJ (chain None LL nxt) (length (entries gr) + length (List.flat_map entries (f_right f)))) (f_right f))
    with (m := ct_move c) (I := ids gr) (B := tbodies gr) (P := tparents None gr) (X := @nil (nat * (option nat * option nat))) (L := leaves gr)
    as (cs' & m' & Hrun & (Hsrc' & _ & _ & Hcount') & Hskel & Hcopied).
  { pose proof (rseps_levels _ _ _ _ Hrs) as Hlev. rewrite Forall_forall in Hlev |- *. intros g Hg. apply (deep_ok g n); [by apply Hlev|done]. }
  { split_and!.
    - eapply astate_perm; [| | |exact Hsrc]; unfold J, BJ, PJ; solve_Permutation.
    - apply Forall_forall. intros i Hi. rewrite chain_ids, <- HLL. by apply left_not_right.
    - rewrite Htail, Hfirst. destruct (leaves gr) as [|j lv]; [done|]. rewrite last_cons. split; [done|]. by destruct (last lv).
    - by rewrite Hcount. }
  { done. }
  { done. }
  { eapply room_le; [|exact Hroom]. cbn. rewrite !length_app. lia. }
  cbn [List.flat_map app] in Hsrc', Hcount'. destruct Hcopied as (Hdst' & Htail' & Hfirst' & Hlen'). cbn [app] in Hdst'.
  rewrite Hrun. cbn [mbind option_bind]. rewrite Hright.
  assert (length cs' = length (f_rkeys f)) as Hcs'.
  { rewrite <- Hlr, <- (length_map skel cs'), Hskel, length_map. done. }
  assert ((match List.map tid cs' with
    | [] => Some (drop (length (f_left f) + 1) (f_lkeys f ++ f_rkeys f), [tid gr])
    | _ => do separator <- (f_lkeys f ++ f_rkeys f) !! length (f_left f);
           Some (separator :: drop (length (f_left f) + 1) (f_lkeys f ++ f_rkeys f), tid gr :: List.map tid cs')
    end) = Some (f_rkeys f, List.map tid (gr :: cs'))) as Hkeys.
  { rewrite Hll, head_behind, drop_behind. destruct cs' as [|c' cs'], (f_rkeys f) as [|k ks]; done. }
  cbn [mbind option_bind] in Hkeys |- *. rewrite Hkeys. cbn [mbind option_bind].
  destruct (build_node_ok (cp_arena (mv_copy m')) (f_rkeys f) (gr :: cs') (chain None (leaves gr ++ List.flat_map leaves cs') None)) as (r & a' & -> & Hdst2 & Hlen2).
  { done. }
  { eapply room_le; [|unfold room in *; instantiate (1 := S (length (cids fs)))]; [lia|]. cbn [length] in Hroom. rewrite !length_app in Hroom.
    rewrite (flat_skel_ids _ _ Hskel) in Hlen'. lia. }
  { exact Hdst'. }
  cbn [mbind option_bind]. rewrite Hleft.
  assert (f_id f ∉ (chain None LL nxt).*1) as HX.
  { rewrite chain_ids, <- HLL. intros Hin. cbn [lleaves] in Hin. cbn [cids] in Hnd. apply NoDup_app in Hnd as (_ & Hd & Hn).
    apply NoDup_cons in Hn as [Hn _]. rewrite !elem_of_app in Hn, Hin. destruct Hin as [[Hin|Hin]|Hin].
    - apply Hn. do 2 right. apply side_leaves_in_ids, elem_of_app. by left.
    - apply Hn. left. by apply flat_leaves_in_ids.
    - apply (Hd (f_id f)); [by apply oleaves_in_ids|by left]. }
  destruct (keep_left (mv_src m') f fs x og _ Hll Hx HX Hsrc') as (a2 & -> & Hx' & Hsrc2).
  eexists _, flo, fhi, (grow_left (f_id f) f og (f_left f)), (TNode r (f_rkeys f) (gr :: cs')).
  split; [reflexivity|]. split; [by destruct og, (f_left f)|].
  split; cbn [ct_move left_root_below right_root_below mv_src mv_copy mv_count move_with copy_with cp_arena dst_first_leaf dst_chain_tail].
  - done.
  - done.
  - done.
  - done.
  - exact Hdst2.
  - exact Htail'.
  - rewrite Hfirst', Hfirst. cbn [leaves List.flat_map]. by destruct (leaves gr).
  - cbn [entries List.flat_map]. rewrite length_app, (flat_skel_entries _ _ Hskel). cbn in Hcount'. lia.
  - unfold room in *. cbn [length] in Hroom. rewrite !length_app in Hroom. rewrite (flat_skel_ids _ _ Hskel) in Hlen'. lia.
  - exact Hc.
  - apply left_grow; [done|lia|done].
  - cbn [edge_keys edge_child head]. rewrite Hcr. split; [|done]. exists lo'. cbn [rhalf]. split; [lia|]. exists gr, cs'.
    split_and!; [done|done|by eapply seps_rskel].
  - rewrite <- HLL. cbn [lleaves]. destruct og as [g|]; cbn [grow_left oleaves leaves].
    + rewrite List.flat_map_app. cbn. by rewrite app_nil_r, <- app_assoc.
    + rewrite app_nil_r. by destruct (f_left f).
  - rewrite <- Hle. cbn [lentries]. destruct og as [g|]; cbn [grow_left oentries entries].
    + rewrite List.flat_map_app. cbn. by rewrite app_nil_r, <- app_assoc.
    + rewrite app_nil_r. by destruct (f_left f).
  - rewrite <- Hre. cbn [rentries entries List.flat_map]. rewrite (flat_skel_entries _ _ Hskel). by rewrite <- app_assoc.
Qed.
Lemma cut_right_walk fuel fs : ∀ n lo hi x og gr cl cr nxt LL le re c,
  rwalk fs n lo hi x og gr cl cr nxt LL le re c → n + length fs < fuel →
  ∃ c' lo' hi' x' og' gr', cut_levels (cut_right_level fuel) (path_of fs) c = Some c' ∧
    rwalk [] (n + length fs) lo' hi' x' og' gr' (left_counts (is_begun og) (spine_of fs) cl) (right_counts (spine_of fs) cr) nxt LL le re c'.
Proof using Type.
  induction fs as [|f fs IH]; intros n lo hi x og gr cl cr nxt LL le re c Hw Hf.
  { exists c, lo, hi, x, og, gr. split; [done|]. by rewrite Nat.add_0_r. }
  destruct (cshape_lengths _ _ _ _ _ _ _ (rw_shape _ _ _ _ _ _ _ _ _ _ _ _ _ _ Hw)) as [Hll Hlr]. cbn [length] in Hf.
  destruct (cut_right_step fuel f fs _ _ _ _ _ _ _ _ _ _ _ _ _ Hw ltac:(lia)) as (c1 & flo & fhi & og1 & gr1 & Hrun & Hb & Hw1).
  destruct (IH _ _ _ _ _ _ _ _ _ _ _ _ _ Hw1 ltac:(lia)) as (c' & lo' & hi' & x' & og' & gr' & Hrun' & Hw').
  exists c', lo', hi', x', og', gr'. cbn [path_of List.map cut_levels]. rewrite Hrun. cbn [mbind option_bind]. split; [exact Hrun'|].
  cbn [length spine_of List.map left_counts right_counts]. rewrite Nat.add_succ_r. rewrite Hb in Hw'.
  replace (length (f_lkeys f ++ f_rkeys f) - length (f_left f)) with (length (f_rkeys f)) by (rewrite length_app; lia).
  destruct og; [exact Hw'|]. cbn [is_begun orb] in Hw' |- *. by destruct (length (f_left f) =? 0).
Qed.

Lemma arena_new_state : astate (arena_new (K:=K) (V:=V)) [] [] [] [].
Proof using Type. repeat split; cbn; try constructor; try done; lia. Qed.

Lemma room_new n : (Z.of_nat n <= 2 ^ 31)%Z → room n (arena_new (K:=K) (V:=V)).
Proof using Type. unfold room. cbn. lia. Qed.

Lemma new_leaf_ok kvs :
  ∃ i a, new_leaf arena_new kvs = Some (i, a) ∧ astate a (ids (TLeaf i kvs)) (tbodies (TLeaf i kvs)) (tparents None (TLeaf i kvs)) [i] ∧
    arena_len a <= 1.
Proof using Type.
  unfold new_leaf. destruct (alloc_fresh _ _ _ _ _ (room_new 1 ltac:(lia)) arena_new_state) as (i & a & -> & _ & _ & _ & _ & Hs & Hlen).
  cbn [mbind option_bind]. exists i. eexists. split; [reflexivity|]. split; [|exact Hlen].
  apply (astate_new_parent _ _ i None) in Hs; [|by left|apply not_elem_of_nil].
  apply (astate_new_body _ _ i (LeafBody kvs)) in Hs; [|by left|apply not_elem_of_nil]. destruct Hs as [Hb Hp Hl Ha].
  split; [done|done| |done]. cbn. by apply field_new; [left|apply not_elem_of_nil|].
Qed.

Lemma field_app {A} (mp : gmap nat A) I (l1 l2 : list (nat * A)) : field_ok mp I (l1 ++ l2) → field_ok mp I l1.
Proof using Type.
  intros (Hn & Hs & Ha). rewrite fmap_app in Hn, Hs. apply NoDup_app in Hn as (Hn & _ & _). apply agrees_app in Ha as [Ha _].
  split_and!; [done| |done]. intros x Hx. apply Hs, elem_of_app. by left.
Qed.

Lemma field_app_r {A} (mp : gmap nat A) I (l1 l2 : list (nat * A)) : field_ok mp I (l1 ++ l2) → field_ok mp I l2.
Proof using Type. intros Hf. apply (field_app _ _ l2 l1). eapply field_perm; [|exact Hf]. apply Permutation_app_comm. Qed.

(** A part of a leaf between the bounds of the leaf. *)
Lemma leaf_part i j lo hi (kvs kvs' : list (K * V)) : kvs' `sublist_of` kvs → shape 0 lo hi (TLeaf i kvs) → shape 0 lo hi (TLeaf j kvs').
Proof using Type*.
  intros Hsub (Hlen & Hb & Hs & Hr). assert (kvs'.*1 `sublist_of` kvs.*1) as Hk by by apply fmap_sublist.
  split_and!; [|done|by eapply sorted_sublist|].
  - apply sublist_length in Hsub. lia.
  - rewrite Forall_forall in Hr |- *. intros x Hx. apply Hr. by eapply elem_of_sublist.
Qed.

Lemma lhalf_levels n lo hi g : lhalf n lo hi g → levels n g.
Proof using Type.
  revert lo hi g. induction n as [|n IH]; intros lo hi [i kvs|i ks cs]; try done. intros (_ & cs0 & c & -> & Hl & Hc). split.
  - apply lseps_length in Hl. rewrite length_app. cbn. lia.
  - apply Forall_app. split; [by eapply lseps_levels|]. constructor; [by eapply IH|constructor].
Qed.

Lemma rhalf_levels n lo hi g : rhalf n lo hi g → levels n g.
Proof using Type.
  revert lo hi g. induction n as [|n IH]; intros lo hi [i kvs|i ks cs]; try done. intros (_ & c & cs0 & -> & Hc & Hr). split.
  - apply rseps_length in Hr. cbn. lia.
  - constructor; [by eapply IH|by eapply rseps_levels].
Qed.

Lemma straight_more counts more : forallb (λ c, 0 <? c) more = true → straight (counts ++ more) = straight counts.
Proof using Type.
  intros Hm. assert (∀ cs, forallb (λ c, 0 <? c) (cs ++ more) = forallb (λ c, 0 <? c) cs) as Hf.
  { intros cs. by rewrite forallb_app, Hm, andb_true_r. }
  induction counts as [|[|c] counts IH]; cbn [app straight]; [|done|exact (Hf (S c :: counts))].
  clear Hf. induction more as [|[|c] more IH]; [done|done|]. cbn in Hm |- *. exact Hm.
Qed.
(** ** The ends of the walk *)

Lemma cut_next_ok a I B P L nxt :
  fstate a I B P (chain None L nxt) → ∃ a', cut_next a (last L) = Some a' ∧ astate a' I B P L.
Proof using Type.
  intros [Hb Hp Hl Ha]. destruct L as [|i L _] using rev_ind; [by exists a|]. rewrite last_snoc. cbn [cut_next].
  rewrite chain_app in Hl. cbn [chain head_bound] in Hl.
  apply (field_perm _ _ _ ((i, (last_bound None L, nxt)) :: chain None L (Some i))) in Hl; [|solve_Permutation].
  rewrite (field_look _ _ _ _ _ Hl). eexists. split; [reflexivity|]. split; [done|done| |done].
  rewrite chain_app. cbn [chain head_bound].
  apply (field_perm _ _ ((i, (last_bound None L, None)) :: chain None L (Some i))); [solve_Permutation|]. by eapply field_set.
Qed.

Lemma cut_prev_ok a I B P L prev :
  fstate a I B P (chain prev L None) → ∃ a', cut_prev a (head L) = Some a' ∧ astate a' I B P L.
Proof using Type.
  intros [Hb Hp Hl Ha]. destruct L as [|i L]; [by exists a|]. cbn [head cut_prev]. cbn [chain] in Hl.
  rewrite (field_look _ _ _ _ _ Hl). eexists. split; [reflexivity|]. split; [done|done| |done]. cbn [chain]. by eapply field_set.
Qed.

(** A half: its chain holds [l], and its tree is well formed if [clean]. *)
Definition half_ok t l (clean : Prop) : Prop := items t = Some l ∧ len t = length l ∧ (clean → represents t l).

Lemma half_holds t g (clean : Prop) : holds t g → (clean → shape (height t) None None g) → half_ok t (entries g) clean.
Proof using Type.
  intros Ht Hs. split_and!; [|apply (h_len _ _ Ht)|].
  - rewrite (items_ok _ _ (holds_chained _ _ Ht)). f_equal. symmetry. apply entries_tleaves.
  - intros Hc. right. exists g. split; [|done]. split; [done|by apply Hs].
Qed.

Lemma half_empty a (clean : Prop) : arena_ok a [] → half_ok (half_tree a None 0 None None 0) [] clean.
Proof using Type.
  intros Ha. split_and!; [|done|]; [|intros _; left; split; [|done]; repeat split; try done; apply Ha].
  by vm_compute.
Qed.

(** A finished half. *)
Lemma finish_shape e n g hi lo h :
  (match e with Rightmost => lhalf n None hi g | Leftmost => rhalf n lo None g end) → straight (edge_keys e n g) = true →
  (∀ n', levels n' (strip g) → h = n') → shape h None None (strip g).
Proof using Type.
  intros Hg Hst Hh. destruct e.
  - destruct (rhalf_strip _ _ _ _ Hg Hst) as (n' & _ & Hs). rewrite (Hh n') by by eapply shape_levels. by eapply shape_open_lo.
  - destruct (lhalf_strip _ _ _ _ Hg Hst) as (n' & _ & Hs). rewrite (Hh n') by by eapply shape_levels. by eapply shape_open_hi.
Qed.

Lemma tleaves_entries g g' : tleaves g' = tleaves g → entries g' = entries g.
Proof using Type. intros E. by rewrite !entries_tleaves, E. Qed.

Lemma tleaves_leaves g g' : tleaves g' = tleaves g → leaves g' = leaves g.
Proof using Type. intros E. by rewrite <- !tleaves_ids, E. Qed.

(** The copied half. *)
Lemma finish_copy_ok e n fuel m g (clean : Prop) :
  astate (cp_arena (mv_copy m)) (ids g) (tbodies g) (tparents None g) (leaves g) →
  dst_first_leaf (mv_copy m) = head (leaves g) → dst_chain_tail (mv_copy m) = last (leaves g) → mv_count m = length (entries g) →
  levels n g → n < fuel →
  (clean → straight (edge_keys e n g) = true ∧ ∃ b, match e with Rightmost => lhalf n None b g | Leftmost => rhalf n b None g end) →
  ∃ t, finish_copy fuel m (Some (tid g)) e = Some t ∧ half_ok t (entries g) clean.
Proof using Type.
  intros Hs Hfirst Hlast Hcount Hlev Hf Hclean. unfold finish_copy.
  destruct (finish_half_ok e n fuel g _ None _ Hs) as (a' & g' & h & -> & Hs' & Htl & Hst & Hh); [by rewrite chain_ids|by apply levels_within|done|].
  cbn [mbind option_bind]. rewrite Hfirst, Hlast.
  destruct (cut_prev_ok _ _ _ _ _ _ Hs') as (a2 & -> & Hs2). cbn [mbind option_bind].
  destruct (cut_next_ok _ _ _ _ _ _ Hs2) as (a3 & -> & Hs3). cbn [mbind option_bind]. eexists. split; [reflexivity|].
  rewrite <- (tleaves_entries _ _ Htl). apply half_holds.
  - split; cbn; [by rewrite (tleaves_leaves _ _ Htl)|done|by rewrite (tleaves_leaves _ _ Htl)..|]. by rewrite Hcount, (tleaves_entries _ _ Htl).
  - intros Hc. destruct (Hclean Hc) as (Hc1 & b & Hb). specialize (Hst Hc1). subst g'. cbn [height half_tree]. by eapply (finish_shape e n).
Qed.

(** The half that stays. *)
Lemma finish_kept_ok e n fuel a g p prev nxt L (len : nat) (clean : Prop) :
  fstate a (ids g) (tbodies g) (tparents p g) (chain prev L nxt) → L = leaves g → len = length (entries g) → levels n g → n < fuel →
  (clean → straight (edge_keys e n g) = true ∧ ∃ b, match e with Rightmost => lhalf n None b g | Leftmost => rhalf n b None g end) →
  ∃ a' r h, finish_half fuel a (Some (tid g)) e = Some (a', Some r, h) ∧
    (match e with Rightmost => prev = None | Leftmost => nxt = None end →
     ∃ a'', (match e with Rightmost => cut_next a' (last L) | Leftmost => cut_prev a' (head L) end) = Some a'' ∧
       half_ok (half_tree a'' (Some r) h (head L) (last L) len) (entries g) clean).
Proof using Type.
  intros Hs HL Hlen Hlev Hf Hclean.
  destruct (finish_half_ok e n fuel g _ p _ Hs) as (a' & g' & h & -> & Hs' & Htl & Hst & Hh); [by rewrite chain_ids|by apply levels_within|done|].
  exists a', (tid g'), h. split; [done|]. intros Hends.
  assert (∃ a'', (match e with Rightmost => cut_next a' (last L) | Leftmost => cut_prev a' (head L) end) = Some a'' ∧
    astate a'' (ids g') (tbodies g') (tparents None g') L) as (a2 & -> & Hs2).
  { destruct e; subst; [by eapply cut_prev_ok|by eapply cut_next_ok]. }
  exists a2. split; [done|]. rewrite <- (tleaves_entries _ _ Htl). rewrite HL, <- (tleaves_leaves _ _ Htl) in *. apply half_holds.
  - split; cbn; [done..|]. by rewrite Hlen, (tleaves_entries _ _ Htl).
  - intros Hc. destruct (Hclean Hc) as (Hc1 & b & Hb). specialize (Hst Hc1). subst g'. cbn [height half_tree]. by eapply (finish_shape e n).
Qed.

Lemma finish_right_ok t n lo hi x og gr cl cr nxt LL le re c i s prev :
  rwalk [] n lo hi x og gr cl cr nxt LL le re c → n <= height t → len t = length (le ++ re) → (LL ≠ [] → first_leaf t = head LL) →
  last LL = (if s =? 0 then prev else Some i) →
  ∃ t' upper, finish_right t i s prev c = Some (t', upper) ∧
    half_ok t' le (1 <= min_keys ∧ straight cl = true) ∧ half_ok upper re (straight cr = true).
Proof using Type.
  intros [Hleft Hright Hx Hsrc Hdst Htail Hfirst Hcount _ [-> ->] Hog [[lo' Hgr] Hcr] HLL Hle Hre] Hn Hlen Hhead Hlast.
  cbn [lleaves lentries rentries app cids cbodies cparents parent_of head fmap option_fmap option_map] in *.
  rewrite !app_nil_r in *. unfold finish_right. rewrite Hright, Hleft. subst re le.
  destruct (finish_copy_ok Leftmost n (S (height t)) (ct_move c) gr (straight cr = true)) as (upper & Hup & Hupper); [done..|by eapply rhalf_levels|lia| |].
  { intros Hst. split; [by rewrite Hcr|]. by exists lo'. }
  assert (len t <? mv_count (ct_move c) = false) as Hc0 by (apply Nat.ltb_ge; rewrite Hlen, length_app; lia).
  assert (len t - mv_count (ct_move c) = length (oentries og)) as Hcl by (rewrite Hlen, length_app; lia).
  rewrite <- Hlast, Hcl, Hc0, Hup. clear Hup Hcl Hc0 Hlast.
  destruct og as [g|]; cbn [oids obodies oparents oleaves oentries fmap option_fmap option_map] in *.
  - destruct Hog as [[hi' Hg] (more & He & Hm)].
    destruct (finish_kept_ok Rightmost n (S (height t)) (mv_src (ct_move c)) g None None nxt LL (length (entries g))
      (1 <= min_keys ∧ straight cl = true)) as (a' & r & h & -> & Hkeep); [done..|by eapply lhalf_levels|lia| |].
    { intros [Hmin Hst]. rewrite He, straight_more by by apply Hm. split; [done|by exists hi']. }
    destruct (Hkeep eq_refl) as (a2 & Hcut & Hhalf). cbn [mbind option_bind]. rewrite Hcut. cbn [mbind option_bind].
    eexists _, upper. split; [reflexivity|]. split; [|done].
    destruct (levels_leaves n g ltac:(by eapply lhalf_levels)) as (j & L & E). rewrite <- HLL, E in Hhead, Hhalf |- *.
    rewrite Hhead by done. destruct (last (j :: L)) eqn:El; [done|]. by apply last_None in El.
  - subst LL. cbn [mbind option_bind last cut_next finish_half length]. eexists _, upper. split; [reflexivity|]. split; [|done].
    apply half_empty. apply (as_arena _ _ _ _ _ Hsrc).
Qed.

(** The state around a leaf, with the links up to it. *)
Lemma leaf_state t g fs i kvs lo hi :
  holds t g → leaf_at key_size val_size g fs i kvs lo hi →
  fstate (arena t) (i :: cids fs) ((i, LeafBody kvs) :: cbodies fs i) ((i, parent_of fs) :: cparents fs)
    ((i, (last (lleaves fs), head (rleaves fs))) :: chain None (lleaves fs) (Some i) ++ chain (Some i) (rleaves fs) None).
Proof using Type.
  intros Ht Hat. pose proof (h_state _ _ Ht) as Hs. rewrite (la_tree _ _ _ _ _ _ _ _ Hat) in Hs.
  eapply astate_perm in Hs; [|rewrite ids_plug|rewrite tbodies_plug|rewrite tparents_plug].
  2-4: cbn [ids tbodies tparents tid]; symmetry; apply Permutation_cons_append.
  destruct Hs as [Hb Hp Hl Ha]. split; [done|done| |done]. eapply field_perm; [|exact Hl]. rewrite leaves_plug. cbn [leaves app].
  rewrite chain_app. cbn [chain head_bound]. rewrite last_bound_None, head_bound_None. solve_Permutation.
Qed.

Lemma begin_right_ok t g fs i kvs lo hi s :
  holds t g → leaf_at key_size val_size g fs i kvs lo hi → s < length kvs → (Z.of_nat (length (ids g)) <= 2 ^ 31)%Z →
  ∃ c og gr nxt, begin_right t i s = Some c ∧ is_begun og = (0 <? s) ∧
    rwalk fs 0 lo hi i og gr [] [] nxt (lleaves fs ++ if s =? 0 then [] else [i]) (lentries fs ++ take s kvs) (drop s kvs ++ rentries fs) c.
Proof using Type*.
  intros Ht Hat Hlt Hids. pose proof (leaf_state _ _ _ _ _ _ _ Ht Hat) as Hs. unfold begin_right. rewrite (leaf_at_kvs _ _ _ _ _ _ _ _ _ Ht Hat).
  cbn [mbind option_bind]. destruct Hat as [-> Hctx Hleaf]. rewrite ids_plug, length_app in Hids. cbn in Hids.
  assert (i ∉ lleaves fs) as HiL.
  { pose proof (as_links _ _ _ _ _ Hs) as (Hn & _ & _). cbn in Hn. apply NoDup_cons in Hn as [Hn _].
    rewrite fmap_app, !chain_ids in Hn. intros Hin. apply Hn, elem_of_app. by left. }
  destruct (Nat.eqb_spec s 0) as [->|Hs0].
  - set (m0 := {| mv_src := arena t; mv_count := 0; mv_copy := {| cp_arena := arena_new; dst_first_leaf := None; dst_chain_tail := None |} |}).
    destruct (deep_ok (TLeaf i kvs) 0 1 (parent_of fs) (cids fs) (cbodies fs i) (cparents fs) (chain None (lleaves fs) (Some i)) (length kvs) ltac:(done) ltac:(lia)
      [] m0 [] [] [] [] []) as (gr & m & Hrun & (Hsrc & _ & _ & Hcount) & Hskel & (Hdst & Htail & Hfirst & Hlen)).
    { unfold moving. cbn. split_and!; [|constructor; [by rewrite chain_ids|constructor]|done|by rewrite app_nil_r].
      destruct Hs as [Hb Hp Hl Ha]. split; [done..| |done]. by eapply field_app, field_tail. }
    { apply arena_new_state. }
    { done. }
    { apply room_new. cbn. lia. }
    cbn [tid] in Hrun. rewrite Hrun. cbn [mbind option_bind]. destruct gr as [j kvs'|]; [|done]. injection Hskel as ->.
    cbn in Hsrc, Hcount, Hdst, Htail, Hfirst, Hlen. eexists _, None, (TLeaf j kvs), (Some i). split; [reflexivity|]. split; [done|].
    split; cbn; rewrite ?app_nil_r; try done; [lia|unfold room; lia|]. split; [|done]. by exists lo.
  - destruct (new_leaf_ok (drop s kvs)) as (j & ra & -> & Hra & Hlen). cbn [mbind option_bind].
    assert (links (set_body (arena t) i (LeafBody (take s kvs))) !! i = Some (last (lleaves fs), head (rleaves fs))) as ->
      by apply (field_look _ _ _ _ _ (as_links _ _ _ _ _ Hs)).
    cbn [mbind option_bind]. eexists _, (Some (TLeaf i (take s kvs))), (TLeaf j (drop s kvs)), None. split; [reflexivity|].
    destruct (Nat.ltb_spec 0 s) as [_|?]; [|lia]. split; [done|]. split; cbn; rewrite ?app_nil_r; try done.
    + by intros g [= <-].
    + apply (astate_set_body _ _ _ _ (LeafBody (take s kvs))) in Hs. destruct Hs as [Hb Hp Hl Ha]. split; [done..| |done]. cbn in Hl |- *.
      apply (field_set _ _ _ _ (last (lleaves fs), None)) in Hl. rewrite app_comm_cons in Hl. apply field_app in Hl.
      rewrite chain_app. cbn [chain head_bound]. rewrite last_bound_None. eapply field_perm; [|exact Hl]. solve_Permutation.
    + rewrite length_drop. lia.
    + unfold room. lia.
    + split; [|by exists []]. exists hi. apply (leaf_part i i _ _ kvs); [apply sublist_take|exact Hleaf].
    + split; [|done]. exists lo. apply (leaf_part i j _ _ kvs); [apply sublist_drop|exact Hleaf].
Qed.

(** ** Cutting a map *)

(** The nodes of a path: the slot taken and the number of keys. *)
Definition spine_view a (path : PathBuf) : list (nat * nat) :=
  List.map (λ e, (e.2, match bodies a !! e.1 with Some (InternalBody ks _) => length ks | _ => 0 end)) path.

Lemma spine_view_ok t fs g : holds t (plug fs g) → spine_view (arena t) (path_of fs) = spine_of fs.
Proof using Type.
  revert g. induction fs as [|f fs IH]; intros g Ht; [done|]. cbn [path_of spine_view spine_of List.map fst snd].
  rewrite (hole_frame _ _ _ _ Ht). f_equal. by apply (IH (fill f [g] [])).
Qed.

(** No lone child is left inside the cut. *)
Definition clean_cut t (at_key : K) : bool :=
  match lower_bound t at_key with
  | Some (Some (leaf_idx, slot_idx)) =>
      match path_to_node t leaf_idx with
      | Some path =>
          let spine := spine_view (arena t) path in
          straight (left_counts (0 <? slot_idx) spine []) && straight (right_counts spine [])
      | None => true
      end
  | _ => true
  end.

(** Both halves hold their entries; their trees are well formed after a clean cut. *)
Definition halves_ok t l (at_key : K) (r : option (RawBTree K V * RawBTree K V)) : Prop :=
  ∃ t' upper, r = Some (t', upper) ∧ half_ok t' (sm_to l at_key) (1 <= min_keys ∧ clean_cut t at_key = true) ∧
    half_ok upper (sm_from l at_key) (1 <= min_keys ∧ clean_cut t at_key = true).

Lemma half_ok_represents t l clean : represents t l → half_ok t l clean.
Proof using Type*.
  intros Hr. split_and!; [|by apply (represents_len _ _ _ _ Hr)|done].
  destruct (represents_chained _ _ _ _ Hr) as (L & HL & <-). by apply items_ok.
Qed.

Lemma half_ok_weaken t l (c1 c2 : Prop) : (c2 → c1) → half_ok t l c1 → half_ok t l c2.
Proof using Type. intros Hc (? & ? & Hr). split_and!; [done..|]. by intros ?%Hc%Hr. Qed.

(** The boundary of a cut. *)
Record boundary t g fs (i s : nat) (kvs : list (K * V)) lo hi (at_key : K) : Prop := {
  bd_repr : repr t g;
  bd_leaf : leaf_at key_size val_size g fs i kvs lo hi;
  bd_slot : s < length kvs;
  bd_to : sm_to (entries g) at_key = lentries fs ++ take s kvs;
  bd_from : sm_from (entries g) at_key = drop s kvs ++ rentries fs;
  bd_depth : length fs = height t;
  bd_clean : clean_cut t at_key = straight (left_counts (0 <? s) (spine_of fs) []) && straight (right_counts (spine_of fs) []);
}.

Lemma boundary_depth t g fs i kvs lo hi : repr t g → leaf_at key_size val_size g fs i kvs lo hi → length fs = height t.
Proof using Type.
  intros [_ Hsh] Hat. rewrite (la_tree _ _ _ _ _ _ _ _ Hat) in Hsh.
  eapply (shape_depth _ _ (0 + length fs)); [|exact Hsh]. eapply plug_shape; apply Hat.
Qed.

(** What both ways of cutting do first. *)
Lemma surgery_cases t l key (cut : nat → nat → PathBuf → option (RawBTree K V * RawBTree K V)) :
  represents t l → no_empty_leaf_of t → height t <= MAX_PATH_HEIGHT →
  (∀ g fs i s kvs lo hi, l = entries g → boundary t g fs i s kvs lo hi key → halves_ok t l key (cut i s (path_of fs))) →
  halves_ok t l key
    (match root t with
     | None => Some (t, tree_new)
     | Some _ =>
         do b <- lower_bound t key;
         match b with
         | None => Some (t, tree_new)
         | Some (leaf_idx, slot_idx) =>
             if bool_decide (Some leaf_idx = first_leaf t) && (slot_idx =? 0) then Some (tree_new, t)
             else do spine <- path_to_node t leaf_idx; cut leaf_idx slot_idx spine
         end
     end).
Proof using Type*.
  intros Hrep Hne Hm Hcut. pose proof (to_from l key (represents_sorted _ _ _ _ Hrep)) as Htf.
  assert (∀ c, half_ok tree_new [] c) as Hnew by (intros c; apply half_ok_represents, tree_new_represents).
  assert (sm_from l key = [] → halves_ok t l key (Some (t, tree_new))) as Hall.
  { intros Hf. unfold halves_ok. rewrite Hf in Htf |- *. rewrite app_nil_r in Htf. rewrite <- Htf. exists t, tree_new. split_and!; [done|by apply half_ok_represents|done]. }
  destruct Hrep as [[He ->]|(g & Hr & ->)]; [rewrite (proj1 He); by apply Hall|]. rewrite (h_root _ _ (proj1 Hr)).
  destruct (lower_bound_ok _ _ t g key Hr (no_empty_leaf_repr _ _ _ _ Hr Hne)) as (r & Hlb & Hs). rewrite Hlb. cbn [mbind option_bind].
  destruct r as [[i s]|]; [|by apply Hall]. destruct Hs as (fs & kvs & lo & hi & Hat & Hlt & Hf).
  assert (sm_to (entries g) key = lentries fs ++ take s kvs) as Hto.
  { apply (app_inv_tail (sm_from (entries g) key)). rewrite <- Htf, Hf. rewrite (la_tree _ _ _ _ _ _ _ _ Hat), entries_plug. cbn [entries].
    rewrite <- (take_drop s kvs) at 1. by rewrite <- !app_assoc. }
  destruct (bool_decide _ && _) eqn:E.
  - apply andb_true_iff in E as [Hi%bool_decide_eq_true Hs0%Nat.eqb_eq]. subst s. cbn in Hto. rewrite app_nil_r in Hto.
    rewrite (first_position _ _ _ _ _ _ _ _ _ Hr Hat (eq_sym Hi)) in Hto. unfold halves_ok. rewrite Hto in Htf |- *. cbn [app] in Htf. rewrite <- Htf.
    exists tree_new, t. split_and!; [done|done|]. apply half_ok_represents. right. by exists g.
  - pose proof (boundary_depth _ _ _ _ _ _ _ Hr Hat) as Hd.
    rewrite (leaf_path_ok _ _ _ _ _ _ _ _ _ Hr Hat Hd Hm). cbn [mbind option_bind]. apply (Hcut g fs i s kvs lo hi); [done|].
    split; try done. unfold clean_cut. rewrite Hlb, (leaf_path_ok _ _ _ _ _ _ _ _ _ Hr Hat Hd Hm).
    destruct Hr as [Ht _]. rewrite (la_tree _ _ _ _ _ _ _ _ Hat) in Ht. by rewrite (spine_view_ok _ _ _ Ht).
Qed.

Lemma surgical_right_ok t l key :
  represents t l → no_empty_leaf_of t → height t <= MAX_PATH_HEIGHT → (Z.of_nat (arena_len (arena t)) <= 2 ^ 31)%Z →
  halves_ok t l key (split_off_surgical_right t key).
Proof using Type*.
  intros Hrep Hne Hm Hlen. apply (surgery_cases t l key (λ i s spine, do ' (prev, _) <- links (arena t) !! i; do c <- begin_right t i s;
    do c <- cut_levels (cut_right_level (S (height t))) spine c; finish_right t i s prev c)); [done..|].
  intros g fs i s kvs lo hi -> [Hr Hat Hlt Hto Hfrom Hd Hclean]. destruct Hr as [Ht Hsh].
  pose proof (leaf_state _ _ _ _ _ _ _ Ht Hat) as Hst. rewrite (field_look _ _ _ _ _ (as_links _ _ _ _ _ Hst)). cbn [mbind option_bind].
  destruct (begin_right_ok t g fs i kvs lo hi s Ht Hat Hlt) as (c & og & gr & nxt & -> & Hb & Hw).
  { pose proof (represents_ids _ _ t g (conj Ht Hsh)). lia. }
  cbn [mbind option_bind].
  destruct (cut_right_walk (S (height t)) fs _ _ _ _ _ _ _ _ _ _ _ _ _ Hw ltac:(lia)) as (c' & lo' & hi' & x' & og' & gr' & -> & Hw').
  cbn [mbind option_bind]. rewrite Hb in Hw'.
  destruct (finish_right_ok t _ _ _ _ _ _ _ _ _ _ _ _ _ i s (last (lleaves fs)) Hw') as (t' & upper & -> & Hl & Hu).
  - lia.
  - rewrite (h_len _ _ Ht), (la_tree _ _ _ _ _ _ _ _ Hat), entries_plug. cbn [entries]. rewrite <- (take_drop s kvs) at 1. by rewrite <- !app_assoc.
  - intros HL. rewrite (h_first _ _ Ht), (la_tree _ _ _ _ _ _ _ _ Hat), leaves_plug. cbn [leaves].
    destruct (lleaves fs); [|done]. by destruct (s =? 0).
  - destruct (Nat.eqb_spec s 0); [by rewrite app_nil_r|apply last_snoc].
  - exists t', upper. rewrite Hto, Hfrom. split; [done|].
    split; (eapply half_ok_weaken; [|done]); rewrite Hclean; intros [? [? ?]%andb_true_iff]; done.
Qed.

(** ** The walk that copies the left half *)

Lemma join_chains_ok a I B P L M tl fr :
  fstate a I B P (chain None L None ++ chain None M None) → last L = Some tl → head M = Some fr →
  ∃ a', join_chains a tl fr = Some a' ∧ astate a' I B P (L ++ M) ∧ arena_len a' = arena_len a.
Proof using Type.
  intros [Hb Hp Hl Ha] [L' ->]%last_Some HM. destruct M as [|j M]; [done|]. injection HM as ->.
  rewrite chain_app in Hl. cbn [chain head_bound] in Hl. rewrite last_bound_None, <- app_assoc in Hl. cbn [app] in Hl.
  apply (field_perm _ _ _ ((tl, (last L', None)) :: (fr, (None, head_bound M None)) :: chain None L' (Some tl) ++ chain (Some fr) M None)) in Hl; [|solve_Permutation].
  unfold join_chains. rewrite (field_look _ _ _ _ _ Hl). cbn [mbind option_bind].
  apply (field_set _ _ _ _ (last L', Some fr)) in Hl.
  apply (field_perm _ _ _ ((fr, (None, head_bound M None)) :: (tl, (last L', Some fr)) :: chain None L' (Some tl) ++ chain (Some fr) M None)) in Hl; [|solve_Permutation].
  cbn [set_links links arena_with]. rewrite (field_look _ _ _ _ _ Hl). cbn [mbind option_bind]. eexists. split; [reflexivity|]. split; [|done].
  apply (field_set _ _ _ _ (Some tl, head_bound M None)) in Hl. split; [done|done| |done].
  eapply field_perm; [|exact Hl]. rewrite <- app_assoc. cbn [app]. rewrite chain_app. cbn [chain head_bound]. rewrite last_bound_None. solve_Permutation.
Qed.

Record lwalk fs (n : nat) lo hi (og : option tree) gr (cl cr : list nat) (prev : option nat) (LL : list nat)
    (le re : list (K * V)) (c : Cut) : Prop := {
  lw_left : left_root_below c = tid <$> og;
  lw_right : right_root_below c = Some (tid gr);
  lw_src : fstate (mv_src (ct_move c)) (ids gr ++ cids fs) (tbodies gr ++ cbodies fs (tid gr)) (tparents (parent_of fs) gr ++ cparents fs)
    (chain prev LL None);
  lw_dst : astate (cp_arena (mv_copy (ct_move c))) (oids og) (obodies og) (oparents None og) (oleaves og);
  lw_tail : dst_chain_tail (mv_copy (ct_move c)) = last (oleaves og);
  lw_first : dst_first_leaf (mv_copy (ct_move c)) = head (oleaves og);
  lw_count : mv_count (ct_move c) = length (oentries og);
  lw_room : room (length (cids fs)) (cp_arena (mv_copy (ct_move c)));
  lw_shape : cshape n fs lo hi;
  lw_lhalf : left_ok n lo og cl;
  lw_rhalf : (∃ lo', rhalf n lo' hi gr) ∧ edge_keys Leftmost n gr = cr;
  lw_leaves : leaves gr ++ rleaves fs = LL;
  lw_le : lentries fs ++ oentries og = le;
  lw_re : entries gr ++ rentries fs = re;
}.

(** The new level of the copy. *)
Definition olist (og : option tree) : list tree := match og with Some g => [g] | None => [] end.

Lemma grow_left_children f og (cs : list tree) :
  length cs = length (f_lkeys f) → (match og with None => cs = [] | Some _ => False end → False) →
  ∃ ks, (∀ r, grow_left r f og cs = Some (TNode r ks (cs ++ olist og))) ∧
    (match tid <$> og with
     | Some lrb =>
         match List.map tid cs with
         | [] => Some (take (length cs - 1) (f_lkeys f ++ f_rkeys f), [lrb])
         | _ => do separator <- (if 0 <? length cs then (f_lkeys f ++ f_rkeys f) !! (length cs - 1) else None);
                Some (take (length cs - 1) (f_lkeys f ++ f_rkeys f) ++ [separator], List.map tid cs ++ [lrb])
         end
     | None => Some (take (length cs - 1) (f_lkeys f ++ f_rkeys f), List.map tid cs)
     end) = Some (ks, List.map tid (cs ++ olist og)).
Proof using Type.
  intros Hlen Hne. rewrite take_app_le by lia. rewrite List.map_app. destruct og as [g|]; cbn [fmap option_fmap option_map grow_left olist List.map].
  - exists (f_lkeys f). split; [done|]. destruct cs as [|c cs _] using rev_ind.
    + by destruct (f_lkeys f).
    + rewrite length_app in *. cbn [length] in *. rewrite Nat.add_sub. destruct (f_lkeys f) as [|k ks _] using rev_ind; [cbn in Hlen; lia|].
      rewrite length_app in Hlen. cbn in Hlen. replace (length cs) with (length ks) by lia.
      rewrite <- app_assoc, lookup_app_r by done. rewrite Nat.sub_diag, take_app_length. cbn [app lookup list_lookup mbind option_bind].
      destruct (Nat.ltb_spec 0 (length ks + 1)) as [_|?]; [|lia]. rewrite List.map_app. cbn [List.map].
      by destruct (List.map tid cs ++ [tid c]) eqn:E; [destruct (List.map tid cs)|].
  - exists (take (length cs - 1) (f_lkeys f)). rewrite !app_nil_r. destruct cs; [by destruct Hne|done].
Qed.

Lemma build_left a f og (cs : list tree) X :
  length cs = length (f_lkeys f) → room 1 a →
  fstate a (oids og ++ List.flat_map ids cs) (obodies og ++ List.flat_map tbodies cs)
    (oparents None og ++ List.flat_map (tparents None) cs) X →
  ∃ r ks children a',
    (match tid <$> og with
     | Some lrb =>
         match List.map tid cs with
         | [] => Some (take (length cs - 1) (f_lkeys f ++ f_rkeys f), [lrb])
         | _ => do separator <- (if 0 <? length cs then (f_lkeys f ++ f_rkeys f) !! (length cs - 1) else None);
                Some (take (length cs - 1) (f_lkeys f ++ f_rkeys f) ++ [separator], List.map tid cs ++ [lrb])
         end
     | None => Some (take (length cs - 1) (f_lkeys f ++ f_rkeys f), List.map tid cs)
     end) = Some (ks, children) ∧ let og' := grow_left r f og cs in
    build_node a ks children = Some (tid <$> og', a') ∧
    fstate a' (oids og') (obodies og') (oparents None og') X ∧ arena_len a' <= arena_len a + 1.
Proof using Type.
  intros Hlen Hroom Hs. assert (og = None ∧ cs = [] ∨ (match og with None => cs = [] | Some _ => False end → False)) as [[-> ->]|Hne].
  { destruct og, cs; naive_solver. }
  { exists 0. eexists _, _, a. split; [reflexivity|]. cbn in Hs |- *. split_and!; [done|done|lia]. }
  destruct (grow_left_children f og cs Hlen Hne) as (ks & Hg & Hkeys).
  destruct (build_node_ok a ks (cs ++ olist og) X) as (r & a' & Hb & Hs' & Hl).
  { destruct og, cs; naive_solver. }
  { done. }
  { eapply astate_perm; [| | |exact Hs]; destruct og; cbn; rewrite ?app_nil_r, ?List.flat_map_app; cbn; rewrite ?app_nil_r; try done; apply Permutation_app_comm. }
  exists r, ks, (List.map tid (cs ++ olist og)), a'. split; [done|]. rewrite Hg. by split_and!.
Qed.

(** The chain of the copies of a level goes before the others. *)
Lemma join_level a I B P L M (main temp : Copy K V) (n tn : nat) :
  fstate a I B P (chain None L None ++ chain None M None) →
  dst_first_leaf main = head L → dst_chain_tail main = last L → dst_first_leaf temp = head M → dst_chain_tail temp = last M →
  (M = [] → tn = 0) →
  ∃ main',
    (match dst_first_leaf temp with
     | Some temp_first =>
         match dst_first_leaf main with
         | Some left_first =>
             do temp_tail <- dst_chain_tail temp;
             do a <- join_chains a temp_tail left_first;
             Some ({| cp_arena := a; dst_first_leaf := Some temp_first; dst_chain_tail := dst_chain_tail main |}, n + tn)
         | None => Some ({| cp_arena := a; dst_first_leaf := Some temp_first; dst_chain_tail := dst_chain_tail temp |}, n + tn)
         end
     | None => Some (copy_with main a, n)
     end) = Some (main', n + tn) ∧
    astate (cp_arena main') I B P (M ++ L) ∧ dst_first_leaf main' = head (M ++ L) ∧ dst_chain_tail main' = last (M ++ L) ∧
    arena_len (cp_arena main') = arena_len a.
Proof using Type.
  intros Hs Hmf Hmt Htf Htt Htn. rewrite Htf, Hmf, Htt. destruct M as [|j M].
  { exists (copy_with main a). rewrite Htn by done. rewrite Nat.add_0_r. cbn in Hs |- *. rewrite app_nil_r in Hs. by split_and!. }
  cbn [head]. destruct (last (j :: M)) as [tl|] eqn:E; [|by apply last_None in E]. destruct L as [|i L].
  - cbn [head]. eexists. split; [reflexivity|]. rewrite app_nil_r. cbn in Hs |- *. by split_and!.
  - cbn [head mbind option_bind]. destruct (join_chains_ok a I B P (j :: M) (i :: L) tl i) as (a' & -> & Hs' & Hlen); [|done|done|].
    { destruct Hs as [Hb Hp Hl Ha]. split; [done..| |done]. eapply field_perm; [|exact Hl]. apply Permutation_app_comm. }
    cbn [mbind option_bind]. eexists. split; [reflexivity|]. cbn [cp_arena dst_first_leaf dst_chain_tail]. split_and!; [done|done| |done].
    by rewrite last_app_cons.
Qed.

(** The leaves from a hole on are not in the subtrees left of it. *)
Lemma right_not_left f fs (gr : tree) i :
  NoDup (ids gr ++ cids (f :: fs)) → i ∈ List.flat_map ids (f_left f) → i ∉ leaves gr ++ rleaves (f :: fs).
Proof using Type.
  intros Hn Hi Hl. cbn [cids] in Hn.
  assert (NoDup (List.flat_map ids (f_left f) ++ ids gr ++ f_id f :: List.flat_map ids (f_right f) ++ cids fs)) as Hn'.
  { eapply NoDup_Permutation_proper; [|exact Hn]. solve_Permutation. }
  apply NoDup_app in Hn' as (_ & Hd & _). apply (Hd _ Hi). cbn [rleaves] in Hl. rewrite !elem_of_app in Hl. rewrite !elem_of_app, elem_of_cons, !elem_of_app.
  destruct Hl as [Hl|[Hl|Hl]].
  - left. by apply leaves_in_ids.
  - right. right. left. by apply flat_leaves_in_ids.
  - do 3 right. apply side_leaves_in_ids, elem_of_app. by right.
Qed.

Lemma cut_left_step fuel f fs n lo hi og (gr : tree) cl cr prev LL le re c :
  lwalk (f :: fs) n lo hi og gr cl cr prev LL le re c → n < fuel →
  ∃ c' flo fhi og' gr', cut_left_level fuel (f_id f) (length (f_left f)) c = Some c' ∧ is_begun og' = is_begun og || negb (length (f_left f) =? 0) ∧
    lwalk fs (S n) flo fhi og' gr'
      (if is_begun og then length (f_left f) :: cl else if length (f_left f) =? 0 then cl else length (f_left f) - 1 :: cl)
      (length (f_rkeys f) :: cr) prev LL le re c'.
Proof using Type.
  intros [Hleft Hright Hsrc Hdst Htail Hfirst Hcount Hroom (flo & fhi & -> & -> & Hls & Hrs & Hcap & Hc) Hog [[lo' Hgr] Hcr] HLL Hle Hre] Hf.
  destruct (cshape_lengths key_size val_size n f fs _ _ ltac:(by exists flo, fhi)) as [Hll Hlr].
  unfold cut_left_level. cbn [cids cbodies cparents parent_of head fmap option_fmap option_map] in *.
  assert (internal_node (mv_src (ct_move c)) (f_id f) = Some (f_lkeys f ++ f_rkeys f, List.map tid (f_left f) ++ tid gr :: List.map tid (f_right f))) as ->.
  { unfold internal_node. erewrite (field_get (bodies _)); [|apply elem_of_app; right; by left|apply (as_bodies _ _ _ _ _ Hsrc)]. done. }
  cbn [mbind option_bind].
  assert (take (length (f_left f)) (List.map tid (f_left f) ++ tid gr :: List.map tid (f_right f)) = List.map tid (f_left f)) as ->
    by (rewrite <- (length_map tid (f_left f)); apply take_app_length).
  assert (drop (length (f_left f) + 1) (List.map tid (f_left f) ++ tid gr :: List.map tid (f_right f)) = List.map tid (f_right f)) as ->
    by (rewrite <- (length_map tid (f_left f)); apply drop_hole).
  set (J := ids gr ++ f_id f :: List.flat_map ids (f_right f) ++ cids fs).
  set (BJ := tbodies gr ++ (f_id f, InternalBody (f_lkeys f ++ f_rkeys f) (List.map tid (f_left f) ++ tid gr :: List.map tid (f_right f))) ::
    List.flat_map tbodies (f_right f) ++ cbodies fs (f_id f)).
  set (PJ := tparents (Some (f_id f)) gr ++ (f_id f, parent_of fs) :: List.flat_map (tparents (Some (f_id f))) (f_right f) ++ cparents fs).
  assert (NoDup (ids gr ++ cids (f :: fs))) as Hnd.
  { destruct (as_arena _ _ _ _ _ Hsrc) as [Hn _]. by apply NoDup_app in Hn as [? _]. }
  set (m0 := {| mv_src := mv_src (ct_move c); mv_count := 0;
                mv_copy := {| cp_arena := cp_arena (mv_copy (ct_move c)); dst_first_leaf := None; dst_chain_tail := None |} |}).
  destruct (deep_copy_all_ok fuel (moving (Some (f_id f)) J BJ PJ (chain prev LL None) (length (List.flat_map entries (f_left f)))) (f_left f))
    with (m := m0) (I := oids og) (B := obodies og) (P := oparents None og) (X := chain None (oleaves og) None) (L := @nil nat)
    as (cs' & m' & Hrun & (Hsrc' & _ & _ & Hcount') & Hskel & Hcopied).
  { pose proof (lseps_levels _ _ _ _ Hls) as Hlev. rewrite Forall_forall in Hlev |- *. intros g Hg. apply (deep_ok g n); [by apply Hlev|done]. }
  { split_and!.
    - eapply astate_perm; [| | |exact Hsrc]; unfold J, BJ, PJ; solve_Permutation.
    - apply Forall_forall. intros i Hi. rewrite chain_ids, <- HLL. by apply right_not_left.
    - done.
    - done. }
  { cbn. by rewrite app_nil_r. }
  { done. }
  { eapply room_le; [|exact Hroom]. cbn. rewrite !length_app. lia. }
  cbn [List.flat_map app] in Hsrc', Hcount'. destruct Hcopied as (Hdst' & Htail' & Hfirst' & Hlen').
  cbn [app mv_copy m0 cp_arena dst_first_leaf] in Hdst', Hlen', Htail', Hfirst'.
  rewrite Hrun. cbn [mbind option_bind]. rewrite Hleft.
  assert (length cs' = length (f_left f)) as Hcs' by by rewrite <- (length_map skel cs'), Hskel, length_map.
  rewrite (flat_skel_ids _ _ Hskel) in Hlen'. cbn [length] in Hroom. rewrite !length_app in Hroom.
  destruct (build_left (cp_arena (mv_copy m')) f og cs' (chain None (oleaves og) None ++ chain None (List.flat_map leaves cs') None))
    as (r & ks & children & a1 & Hkeys & Hbuild & Hdst2 & Hlen2); [lia| |exact Hdst'|].
  { unfold room in *. lia. }
  rewrite <- Hcs', Hkeys. cbn [mbind option_bind]. rewrite Hbuild. cbn [mbind option_bind].
  set (og' := grow_left r f og cs') in *.
  destruct (join_level a1 _ _ _ (oleaves og) (List.flat_map leaves cs') (mv_copy (ct_move c)) (mv_copy m') (mv_count (ct_move c)) (mv_count m') Hdst2 Hfirst Htail Hfirst' Htail')
    as (main' & Hmain & Hdst3 & Hfirst3 & Htail3 & Hlen3).
  { intros E. destruct cs' as [|c' cs']; [|destruct (levels_leaves n c') as (? & ? & E'); [|cbn in E; by rewrite E' in E]].
    - destruct (f_left f); [|done]. cbn in Hcount'. lia.
    - pose proof (lseps_levels _ _ _ _ (seps_lskel _ _ _ _ _ Hskel Hls)) as Hlev. by apply Forall_cons in Hlev as [? _]. }
  rewrite Hmain. cbn [mbind option_bind]. rewrite Hright. cbn [mbind option_bind].
  assert (drop (length cs') (f_lkeys f ++ f_rkeys f) = f_rkeys f) as -> by (rewrite Hcs', Hll; apply drop_app_length).
  assert (oleaves og' = List.flat_map leaves cs' ++ oleaves og) as Hol.
  { subst og'. destruct og as [g|]; cbn [grow_left oleaves leaves]; [rewrite List.flat_map_app; cbn; by rewrite app_nil_r|].
    rewrite app_nil_r. by destruct cs'. }
  assert (oentries og' = List.flat_map entries (f_left f) ++ oentries og) as Hoe.
  { rewrite <- (flat_skel_entries _ _ Hskel). subst og'. destruct og as [g|]; cbn [grow_left oentries entries]; [rewrite List.flat_map_app; cbn; by rewrite app_nil_r|].
    rewrite app_nil_r. by destruct cs'. }
  eexists _, flo, fhi, og', (TNode (f_id f) (f_rkeys f) (gr :: f_right f)). split; [reflexivity|].
  split; [subst og'; by destruct og, cs'|]. rewrite Hcs'.
  split; cbn [ct_move left_root_below right_root_below mv_src mv_copy mv_count].
  - done.
  - done.
  - assert (fstate (mv_src m') J BJ PJ (chain prev LL None)) as Hs3 by exact Hsrc'. unfold J, BJ, PJ in Hs3.
    arrange_parents Hs3 ((tid gr, Some (f_id f)) :: tsub gr ++ (f_id f, parent_of fs) :: List.flat_map (tparents (Some (f_id f))) (f_right f) ++ cparents fs).
    { rewrite (tparents_root _ gr). solve_Permutation. }
    apply (astate_set_parent _ _ _ _ (Some (f_id f))) in Hs3.
    arrange_bodies Hs3 ((f_id f, InternalBody (f_lkeys f ++ f_rkeys f) (List.map tid (f_left f) ++ tid gr :: List.map tid (f_right f))) ::
      tbodies gr ++ List.flat_map tbodies (f_right f) ++ cbodies fs (f_id f)); [solve_Permutation|].
    apply (astate_set_body _ _ _ _ (InternalBody (f_rkeys f) (tid gr :: List.map tid (f_right f)))) in Hs3.
    eapply astate_perm; [| | |exact Hs3]; cbn [ids tbodies tparents List.flat_map List.map tid].
    + solve_Permutation.
    + solve_Permutation.
    + rewrite (tparents_root _ gr). solve_Permutation.
  - by rewrite Hol.
  - by rewrite Hol.
  - by rewrite Hol.
  - rewrite Hoe, length_app, Hcount. cbn in Hcount'. lia.
  - unfold room in *. lia.
  - exact Hc.
  - rewrite <- Hcs'. apply left_grow; [by eapply seps_lskel|lia|done].
  - cbn [edge_keys edge_child head]. rewrite Hcr. split; [|done]. exists lo'. cbn [rhalf]. split; [lia|]. by exists gr, (f_right f).
  - rewrite <- HLL. cbn [leaves List.flat_map rleaves]. by rewrite <- app_assoc.
  - rewrite Hoe, <- Hle. cbn [lentries]. by rewrite <- app_assoc.
  - rewrite <- Hre. cbn [rentries entries List.flat_map]. by rewrite <- app_assoc.
Qed.

Lemma cut_left_walk fuel fs : ∀ n lo hi og (gr : tree) cl cr prev LL le re c,
  lwalk fs n lo hi og gr cl cr prev LL le re c → n + length fs < fuel →
  ∃ c' lo' hi' og' gr', cut_levels (cut_left_level fuel) (path_of fs) c = Some c' ∧
    lwalk [] (n + length fs) lo' hi' og' gr' (left_counts (is_begun og) (spine_of fs) cl) (right_counts (spine_of fs) cr) prev LL le re c'.
Proof using Type.
  induction fs as [|f fs IH]; intros n lo hi og gr cl cr prev LL le re c Hw Hf.
  { exists c, lo, hi, og, gr. split; [done|]. by rewrite Nat.add_0_r. }
  destruct (cshape_lengths _ _ _ _ _ _ _ (lw_shape _ _ _ _ _ _ _ _ _ _ _ _ _ Hw)) as [Hll Hlr]. cbn [length] in Hf.
  destruct (cut_left_step fuel f fs _ _ _ _ _ _ _ _ _ _ _ _ Hw ltac:(lia)) as (c1 & flo & fhi & og1 & gr1 & Hrun & Hb & Hw1).
  destruct (IH _ _ _ _ _ _ _ _ _ _ _ _ Hw1 ltac:(lia)) as (c' & lo' & hi' & og' & gr' & Hrun' & Hw').
  exists c', lo', hi', og', gr'. cbn [path_of List.map cut_levels]. rewrite Hrun. cbn [mbind option_bind]. split; [exact Hrun'|].
  cbn [length spine_of List.map left_counts right_counts]. rewrite Nat.add_succ_r. rewrite Hb in Hw'.
  replace (length (f_lkeys f ++ f_rkeys f) - length (f_left f)) with (length (f_rkeys f)) by (rewrite length_app; lia).
  destruct og; [exact Hw'|]. cbn [is_begun orb] in Hw' |- *. by destruct (length (f_left f) =? 0).
Qed.

Lemma begin_left_ok t g fs i kvs lo hi s :
  holds t g → leaf_at key_size val_size g fs i kvs lo hi → s < length kvs → (Z.of_nat (length (ids g)) <= 2 ^ 31)%Z →
  ∃ c og gr prev, begin_left t i s = Some c ∧ is_begun og = (0 <? s) ∧
    lwalk fs 0 lo hi og gr [] [] prev (i :: rleaves fs) (lentries fs ++ take s kvs) (drop s kvs ++ rentries fs) c.
Proof using Type*.
  intros Ht Hat Hlt Hids. pose proof (leaf_state _ _ _ _ _ _ _ Ht Hat) as Hs. unfold begin_left. rewrite (leaf_at_kvs _ _ _ _ _ _ _ _ _ Ht Hat).
  cbn [mbind option_bind]. destruct Hat as [-> Hctx Hleaf]. rewrite ids_plug, length_app in Hids. cbn in Hids.
  destruct (Nat.ltb_spec 0 s) as [Hs0|Hs0].
  - destruct (new_leaf_ok (take s kvs)) as (j & ra & -> & Hra & Hlen). cbn [mbind option_bind].
    assert (links (set_body (arena t) i (LeafBody (drop s kvs))) !! i = Some (last (lleaves fs), head (rleaves fs))) as ->
      by apply (field_look _ _ _ _ _ (as_links _ _ _ _ _ Hs)).
    cbn [mbind option_bind]. eexists _, (Some (TLeaf j (take s kvs))), (TLeaf i (drop s kvs)), None. split; [reflexivity|].
    split; [done|]. split; cbn; rewrite ?app_nil_r; try done.
    + apply (astate_set_body _ _ _ _ (LeafBody (drop s kvs))) in Hs. destruct Hs as [Hb Hp Hl Ha]. split; [done..| |done]. cbn in Hl |- *.
      apply (field_set _ _ _ _ (None, head (rleaves fs))) in Hl. apply (field_app_r _ _ (chain None (lleaves fs) (Some i))). rewrite head_bound_None.
      eapply field_perm; [|exact Hl]. solve_Permutation.
    + rewrite length_take. lia.
    + unfold room. lia.
    + split; [|by exists []]. exists hi. apply (leaf_part i j _ _ kvs); [apply sublist_take|exact Hleaf].
    + split; [|done]. exists lo. apply (leaf_part i i _ _ kvs); [apply sublist_drop|exact Hleaf].
  - assert (s = 0) as -> by lia. eexists _, None, (TLeaf i kvs), (last (lleaves fs)). split; [reflexivity|]. split; [done|].
    split; cbn; rewrite ?app_nil_r; try done.
    + destruct Hs as [Hb Hp Hl Ha]. split; [done..| |done]. apply (field_app_r _ _ (chain None (lleaves fs) (Some i))). rewrite head_bound_None.
      eapply field_perm; [|exact Hl]. solve_Permutation.
    + apply arena_new_state.
    + apply room_new. lia.
    + split; [|done]. by exists lo.
Qed.

Lemma finish_left_ok t n lo hi og gr cl cr prev i L le re c :
  lwalk [] n lo hi og gr cl cr prev (i :: L) le re c → n <= height t → len t = length (le ++ re) → last_leaf t = last (i :: L) →
  ∃ t' upper, finish_left t i c = Some (t', upper) ∧
    half_ok t' le (1 <= min_keys ∧ straight cl = true) ∧ half_ok upper re (straight cr = true).
Proof using Type.
  intros [Hleft Hright Hsrc Hdst Htail Hfirst Hcount _ [-> ->] Hog [[lo' Hgr] Hcr] HLL Hle Hre] Hn Hlen Hlast.
  cbn [rleaves lentries rentries app cids cbodies cparents parent_of head fmap option_fmap option_map] in *.
  rewrite !app_nil_r in *. unfold finish_left. rewrite Hright, Hleft. subst re le.
  destruct (finish_kept_ok Leftmost n (S (height t)) (mv_src (ct_move c)) gr None prev None (i :: L) (length (entries gr)) (straight cr = true))
    as (a' & r & h & -> & Hkeep); [done..|by eapply rhalf_levels|lia| |].
  { intros Hst. split; [by rewrite Hcr|]. by exists lo'. }
  destruct (Hkeep eq_refl) as (a2 & Hcut & Hhalf). cbn [mbind option_bind head] in Hcut |- *. rewrite Hcut. cbn [mbind option_bind].
  rewrite Hlast, Hlen, Hcount, length_app. destruct (Nat.ltb_spec (length (oentries og) + length (entries gr)) (length (oentries og))) as [?|_]; [lia|].
  assert (∃ t', finish_copy (S (height t)) (ct_move c) (tid <$> og) Rightmost = Some t' ∧ half_ok t' (oentries og) (1 <= min_keys ∧ straight cl = true))
    as (t' & -> & Ht').
  { destruct og as [g|]; cbn [oids obodies oparents oleaves oentries fmap option_fmap option_map] in *.
    - destruct Hog as [[hi' Hg] (more & He & Hm)]. apply (finish_copy_ok Rightmost n); [done..|by eapply lhalf_levels|lia|].
      intros [Hmin Hst]. rewrite He, straight_more by by apply Hm. split; [done|by exists hi'].
    - unfold finish_copy. rewrite Hfirst, Htail. cbn. eexists. split; [reflexivity|]. rewrite Hcount. apply half_empty, (as_arena _ _ _ _ _ Hdst). }
  cbn [mbind option_bind]. exists t'. eexists. split; [reflexivity|]. split; [done|].
  replace (length (oentries og) + length (entries gr) - length (oentries og)) with (length (entries gr)) by lia. exact Hhalf.
Qed.

Lemma surgical_left_ok t l key :
  represents t l → no_empty_leaf_of t → height t <= MAX_PATH_HEIGHT → (Z.of_nat (arena_len (arena t)) <= 2 ^ 31)%Z →
  halves_ok t l key (split_off_surgical_left t key).
Proof using Type*.
  intros Hrep Hne Hm Hlen. apply (surgery_cases t l key (λ i s spine, do c <- begin_left t i s;
    do c <- cut_levels (cut_left_level (S (height t))) spine c; finish_left t i c)); [done..|].
  intros g fs i s kvs lo hi -> [Hr Hat Hlt Hto Hfrom Hd Hclean]. destruct Hr as [Ht Hsh].
  destruct (begin_left_ok t g fs i kvs lo hi s Ht Hat Hlt) as (c & og & gr & prev & -> & Hb & Hw).
  { pose proof (represents_ids _ _ t g (conj Ht Hsh)). lia. }
  cbn [mbind option_bind].
  destruct (cut_left_walk (S (height t)) fs _ _ _ _ _ _ _ _ _ _ _ _ Hw ltac:(lia)) as (c' & lo' & hi' & og' & gr' & -> & Hw').
  cbn [mbind option_bind]. rewrite Hb in Hw'.
  destruct (finish_left_ok t _ _ _ _ _ _ _ _ i (rleaves fs) _ _ _ Hw') as (t' & upper & -> & Hl & Hu).
  - lia.
  - rewrite (h_len _ _ Ht), (la_tree _ _ _ _ _ _ _ _ Hat), entries_plug. cbn [entries]. rewrite <- (take_drop s kvs) at 1. by rewrite <- !app_assoc.
  - rewrite (h_last _ _ Ht), (la_tree _ _ _ _ _ _ _ _ Hat), leaves_plug. cbn [leaves app]. by rewrite last_app_cons.
  - exists t', upper. rewrite Hto, Hfrom. split; [done|].
    split; (eapply half_ok_weaken; [|done]); rewrite Hclean; intros [? [? ?]%andb_true_iff]; done.
Qed.

(** ** The public operation *)

Lemma estimate_sides_ok a key fuel : ∀ n lo hi g lsum rsum size,
  shape n lo hi g → agrees (bodies a) (tbodies g) → n < fuel →
  is_Some (estimate_sides key_size fuel a key (tid g) lsum rsum size).
Proof using Type*.
  induction fuel as [|fuel IH]; intros n lo hi g lsum rsum size Hs Ha Hf; [lia|]. destruct n as [|n], g as [i kvs|i ks cs]; try done;
    cbn [tbodies] in Ha; apply agrees_cons in Ha as [Hi Ha]; cbn [estimate_sides tid]; rewrite Hi; cbn [mbind option_bind]; unfold lower_binary.
  - destruct (length kvs =? 0); [done|]. destruct Hs as (_ & _ & Hs & _). rewrite (partition_point_ge kvs.*1 key) by done. done.
  - destruct Hs as [_ Hs]. pose proof (seps_sorted _ _ _ _ _ _ _ Hs) as [Hks _]. rewrite (partition_point_ge ks key) by done. cbn [mbind option_bind].
    match goal with |- context [if ?b then _ else _] => destruct b end; [done|].
    set (j := find_index _ _). assert (j <= length ks) as Hj by apply find_index_le.
    pose proof (seps_length _ _ _ _ _ Hs) as Hlen. destruct (lookup_lt_is_Some_2 cs j) as [c Hc]; [lia|].
    rewrite list_lookup_fmap, Hc. cbn [fmap option_fmap option_map mbind option_bind].
    apply list_elem_of_lookup_2 in Hc. destruct (seps_child _ _ _ _ _ _ Hs Hc) as (lo' & hi' & Hsc). eapply IH; [exact Hsc| |lia].
    unfold agrees in *. rewrite Forall_forall in Ha |- *. intros e He. apply Ha.
    apply list_elem_of_In, List.in_flat_map. exists c. split; by apply list_elem_of_In.
Qed.

Lemma estimate_ok t l key : represents t l → is_Some (estimate_right_fraction key_size val_size t key).
Proof using Type*.
  intros [[He ->]|(g & [Ht Hs] & ->)]; unfold estimate_right_fraction; [by rewrite (proj1 He)|]. rewrite (h_root _ _ Ht).
  destruct (estimate_sides_ok (arena t) key (S (height t)) _ _ _ g 0 0
    (Nat.iter (height t - 1) (λ s, saturating_mul64 s (Z.of_nat (INTERNAL_CAP + 1))) (Z.of_nat LEAF_CAP)) Hs) as [[x y] E].
  - apply (as_bodies _ _ _ _ _ (h_state _ _ Ht)).
  - lia.
  - rewrite E. cbn [mbind option_bind]. done.
Qed.

Lemma split_off_surgery_ok t l key (cutoff : f64) :
  represents t l → no_empty_leaf_of t → height t <= MAX_PATH_HEIGHT → (Z.of_nat (arena_len (arena t)) <= 2 ^ 31)%Z →
  ∃ t' upper, split_off_with_cutoff key_size val_size t key cutoff = Some (t', upper) ∧ l = sm_to l key ++ sm_from l key ∧
    items t' = Some (sm_to l key) ∧ len t' = length (sm_to l key) ∧
    items upper = Some (sm_from l key) ∧ len upper = length (sm_from l key) ∧
    (1 <= min_keys → clean_cut t key = true → represents t' (sm_to l key) ∧ represents upper (sm_from l key)).
Proof using Type*.
  intros Hrep Hne Hm Hlen. unfold split_off_with_cutoff. destruct (estimate_ok t l key Hrep) as [rf ->]. cbn [mbind option_bind].
  assert (halves_ok t l key (if match rf with Some rf => f64_lt cutoff rf | None => false end then split_off_surgical_left t key
    else split_off_surgical_right t key)) as (t' & upper & -> & (Hl1 & Hl2 & Hl3) & (Hu1 & Hu2 & Hu3)).
  { destruct (match rf with Some rf => f64_lt cutoff rf | None => false end); [by apply surgical_left_ok|by apply surgical_right_ok]. }
  exists t', upper. split_and!; [done|by apply to_from, (represents_sorted _ _ _ _ Hrep)|done..|]. intros Hmin Hc. split; [by apply Hl3|by apply Hu3].
Qed.

(** C37: splitting by tree surgery.  On a map without empty leaves [split_off] keeps
    the entries below the key and returns those from it on, whichever half it
    copies; both maps list their entries in order, and both trees are well formed
    if no lone child is left inside the cut. *)
Theorem btree_split_off_surgery_correct t l key (cutoff : f64) :
  represents t l → no_empty_leaf_of t → height t <= MAX_PATH_HEIGHT → (Z.of_nat (arena_len (arena t)) <= 2 ^ 31)%Z →
  ∃ t' upper, split_off_with_cutoff key_size val_size t key cutoff = Some (t', upper) ∧ l = sm_to l key ++ sm_from l key ∧
    items t' = Some (sm_to l key) ∧ len t' = length (sm_to l key) ∧
    items upper = Some (sm_from l key) ∧ len upper = length (sm_from l key) ∧
    (1 <= min_keys → clean_cut t key = true → represents t' (sm_to l key) ∧ represents upper (sm_from l key)).
Proof using Type*. intros. by apply split_off_surgery_ok. Qed.

(** On trees of at most two levels no cut leaves a lone child inside. *)
Lemma clean_cut_low t l key : represents t l → no_empty_leaf_of t → height t <= 1 → clean_cut t key = true.
Proof using Type*.
  intros [[He ->]|(g & Hr & ->)] Hne Hh; unfold clean_cut; [unfold lower_bound; by rewrite (proj1 He)|].
  destruct (lower_bound_ok _ _ t g key Hr (no_empty_leaf_repr _ _ _ _ Hr Hne)) as (r & -> & Hs). destruct r as [[i s]|]; [|done].
  destruct Hs as (fs & kvs & lo & hi & Hat & _). pose proof (boundary_depth _ _ _ _ _ _ _ Hr Hat) as Hd.
  rewrite (leaf_path_ok _ _ _ _ _ _ _ _ _ Hr Hat Hd) by (unfold MAX_PATH_HEIGHT; lia).
  destruct fs as [|f [|]]; cbn in Hd; [by destruct (0 <? s)| |lia]. cbn [path_of spine_view List.map fst snd left_counts right_counts].
  assert (∀ c, straight [c] = true) as H1 by by intros [].
  destruct (0 <? s); cbn [left_counts]; [|destruct (length (f_left f) =? 0); cbn [left_counts]]; by rewrite !H1.
Qed.
End cut.

(** ** Runs *)

Lemma btree_split_off_surgery_correct_witness :
  ∃ t' upper, split_off_with_cutoff small_key small_val (sample_tree 9) 5 DEFAULT_RIGHT_FRAC_LEFT_CUTOFF = Some (t', upper) ∧
    represents (MK := full_nodes) small_key small_val t' (sample 4) ∧ items upper = Some (drop 4 (sample 9)).
Proof.
  destruct (btree_split_off_surgery_correct (MK := full_nodes) small_key small_val (sample_tree 9) (sample 9) 5 DEFAULT_RIGHT_FRAC_LEFT_CUTOFF)
    as (t' & upper & Hs & _ & _ & _ & Hu & _ & Hr).
  - exact sample_represents_9.
  - unfold no_empty_leaf_of. apply (bool_decide_unpack _). vm_compute. exact I.
  - vm_compute. lia.
  - vm_compute. discriminate.
  - exists t', upper. split; [exact Hs|]. split; [|exact Hu]. apply Hr; [apply le_n|vm_compute; reflexivity].
Defined.

(** [split_off] puts the lone child of a node, a node of the level below, in the
    place of the node, next to nodes of the upper level: the leaves of the returned
    map are at different depths.  Its last key is there, and neither found nor
    removed: the walk has no defined result. *)
Definition split_run (n at_key : nat) :=
  do t <- built 1 n;
  do ' (t, upper) <- split_off 8 8 t at_key;
  do l <- items upper;
  Some (length l, last l, get upper n, is_defined (remove 8 8 upper n)).

Theorem split_off_uneven : split_run 400 81 = Some (320, Some (400, 4000), None, false) ∧
  split_run 400 200 = Some (201, Some (400, 4000), Some (Some 4000), true).
Proof. split; vm_compute; reflexivity. Qed.
