(* ===== verification/GenericMap.v ===== *)
(** * The generic map

    [generic_map.rs]: the map API over any raw table.  The operations are
    written against the interface of [TableApi.v] and proved against its
    contract, so that the theorems hold for every table that keeps it.  A
    reference into the map ([&mut V]) is the slot it points to. *)

From Stdlib Require Import ZArith Lia.
From S2P Require Import Prelude.
From S2P Require Export TableApi.

Section map.
Context {R K V : Type} `{Countable K} (A : RawTableApi R K V) (hash_key : K → Z).
Implicit Types (t : R) (p : slot).

(** ** Lookup *)

Definition value_at t p : option V := snd <$> api_kv A t p.

(*@ generic_map.rs : pub fn get_mut< *)
Definition get_mut t (key : K) : option (option slot) :=
  let h := hash_key key in api_find_by_hash A t h (eq_key key).

(*@ generic_map.rs : pub fn get_key_value *)
Definition get_key_value t (key : K) : option (option (K * V)) :=
  let h := hash_key key in
  do r <- api_find_by_hash A t h (eq_key key);
  Some (match r with Some p => api_kv A t p | None => None end).

(*@ generic_map.rs : pub fn get< *)
Definition get t (key : K) : option (option V) :=
  let h := hash_key key in
  do r <- api_find_by_hash A t h (eq_key key);
  Some (match r with Some p => value_at t p | None => None end).

(*@ generic_map.rs : pub fn contains_key *)
Definition contains_key t (key : K) : option bool :=
  do r <- get t key; Some (bool_decide (is_Some r)).

(** [.expect("no entry found for key")] *)
Inductive IndexPanic := NoEntryFound.

(*@ generic_map.rs : fn index( *)
Definition index t (key : K) : option (V + IndexPanic) :=
  do r <- get t key;
  Some (match r with Some v => inl v | None => inr NoEntryFound end).

(** ** Construction and size *)

(*@ generic_map.rs : pub fn with_capacity_and_hasher *)
Definition with_capacity (capacity : Z) : R := api_with_capacity A capacity.

(*@ generic_map.rs : pub fn with_hasher *)
Definition with_hasher : R := api_new A.

(*@ generic_map.rs : pub fn len( *)
Definition len t : nat := api_len A t.

(*@ generic_map.rs : pub fn is_empty( *)
Definition is_empty t : bool := api_len A t =? 0.

(*@ generic_map.rs : pub fn capacity( *)
Definition capacity t : nat := api_capacity A t.

(*@ generic_map.rs : pub fn clear( *)
Definition clear t : R := api_clear A t.

(*@ generic_map.rs : pub fn reserve( *)
Definition reserve t (additional : Z) : option (R + Panic) := api_reserve A t additional.

(*@ generic_map.rs : pub fn shrink_to_fit( *)
Definition shrink_to_fit t : option R := api_shrink_to_fit A t.

(*@ generic_map.rs : fn clone( *)
Definition clone t : R := api_clone_table A t.

(** ** Insertion and removal *)

(*@ generic_map.rs : pub fn insert(&mut self, key: K, value: V) *)
Definition insert t (key : K) (value : V) : option (R * option V) :=
  api_insert_or_replace A t key value.

(*@ generic_map.rs : pub fn remove_entry< *)
Definition remove_entry t (key : K) : option (R * option (K * V)) :=
  let h := hash_key key in api_remove_by_hash A t h (eq_key key).

(*@ generic_map.rs : pub fn remove< *)
Definition remove t (key : K) : option (R * option V) :=
  let h := hash_key key in
  do ' (t, r) <- api_remove_by_hash A t h (eq_key key); Some (t, snd <$> r).

(** ** Entries *)

(*@ generic_map.rs : 311-327 : Entry, OccupiedEntry, VacantEntry *)
Inductive Entry :=
  | Occupied (key : K) (value : slot)
  | Vacant (key : K) (hash : Z) (at_slot : option (nat * nat * Z)).

(** [None] outside: divergence; [inr]: the panic of [reserve]. *)
(*@ generic_map.rs : pub fn entry( *)
Definition entry t (key : K) : option ((R * Entry) + Panic) :=
  do r <- (if negb (api_is_allocated A t) then api_reserve A t 1 else Some (inl t));
  match r with
  | inr e => Some (inr e)
  | inl t =>
      let h := hash_key key in
      do r <- api_find_for_entry A t h key;
      Some (inl (match r with
                 | EntryFound gi si => (t, Occupied key (gi, si))
                 | EntryVacant at_slot => (t, Vacant key h at_slot)
                 end))
  end.

(*@ generic_map.rs : pub fn insert(self, value: V) *)
Definition vacant_insert t (key : K) (hash : Z) (at_slot : option (nat * nat * Z)) (value : V) :
    option (R * slot) :=
  match at_slot with
  | Some (gi, si, full_mask) =>
      Some (api_insert_at A t hash (gi, si) key value full_mask, (gi, si))
  | None =>
      do t <- api_ensure_capacity A t;
      api_insert_no_check A t hash key value
  end.

(*@ generic_map.rs : pub fn or_insert_with_key *)
Definition or_insert_with_key t (e : Entry) (default : K → V) : option (R * slot) :=
  match e with
  | Occupied _ p => Some (t, p)
  | Vacant key hash at_slot => vacant_insert t key hash at_slot (default key)
  end.

(*@ generic_map.rs : pub fn or_insert_with< *)
Definition or_insert_with t (e : Entry) (default : () → V) : option (R * slot) :=
  match e with
  | Occupied _ p => Some (t, p)
  | Vacant key hash at_slot => vacant_insert t key hash at_slot (default ())
  end.

(** [or_insert_with(V::default)]. *)
(*@ generic_map.rs : pub fn or_default *)
Definition or_default `{Inhabited V} t (e : Entry) : option (R * slot) := or_insert_with t e (λ _, inhabitant).

(*@ generic_map.rs : pub fn or_insert( *)
Definition or_insert t (e : Entry) (default : V) : option (R * slot) :=
  match e with
  | Occupied _ p => Some (t, p)
  | Vacant key hash at_slot => vacant_insert t key hash at_slot default
  end.

(** Writing through the reference of a slot. *)
Definition write_value t p (v : V) : R :=
  match api_kv A t p with Some (k, _) => api_set_kv A t p (k, v) | None => t end.

(*@ generic_map.rs : pub fn and_modify *)
Definition and_modify t (e : Entry) (f : V → V) : R * Entry :=
  match e with
  | Occupied key p =>
      (match value_at t p with Some v => write_value t p (f v) | None => t end, Occupied key p)
  | Vacant key hash at_slot => (t, Vacant key hash at_slot)
  end.

(*@ generic_map.rs : pub fn insert(&mut self, value: V) *)
Definition occupied_insert t p (value : V) : R * option V := (write_value t p value, value_at t p).

(*@ generic_map.rs : pub fn key(&self) -> &K @1 *)
Definition entry_key (e : Entry) : K := match e with Occupied key _ => key | Vacant key _ _ => key end.

(*@ generic_map.rs : pub fn into_mut *)
Definition into_mut (p : slot) : slot := p.

(*@ generic_map.rs : pub fn try_insert *)
Definition try_insert t (key : K) (value : V) : option ((R * bool) + Panic) :=
  do r <- entry t key;
  match r with
  | inr e => Some (inr e)
  | inl (t, Occupied _ _) => Some (inl (t, false))
  | inl (t, Vacant key hash at_slot) =>
      do ' (t, _) <- vacant_insert t key hash at_slot value; Some (inl (t, true))
  end.

(** ** Iteration *)

(*@ generic_map.rs : pub fn iter( *)
Definition iter t : list (K * V) := omap (api_kv A t) (api_occupied_positions A t).

(*@ generic_map.rs : pub fn keys( *)
Definition keys t : list K := (iter t).*1.

(*@ generic_map.rs : pub fn values( *)
Definition values t : list V := (iter t).*2.

(** A client of the mutable iterator that replaces each value it is handed. *)
(*@ generic_map.rs : 446-467 : IterMut *)
Fixpoint for_each_mut (f : K → V → V) (positions : list slot) t : R :=
  match positions with
  | [] => t
  | p :: positions' =>
      match api_kv A t p with
      | Some (key, value) => for_each_mut f positions' (api_set_kv A t p (key, f key value))
      | None => for_each_mut f positions' t
      end
  end.

(*@ generic_map.rs : pub fn iter_mut *)
Definition iter_mut (f : K → V → V) t : R := for_each_mut f (api_occupied_positions A t) t.

(*@ generic_map.rs : pub fn values_mut *)
Definition values_mut (f : V → V) t : R := iter_mut (λ _, f) t.

(*@ generic_map.rs : fn into_iter(self) -> R::IntoIter *)
Definition into_iter t : list (K * V) := api_into_iter A t.

(*@ generic_map.rs : pub fn into_keys *)
Definition into_keys t : list K := (into_iter t).*1.

(*@ generic_map.rs : pub fn into_values *)
Definition into_values t : list V := (into_iter t).*2.

(** What the iterator yields, and the map left. *)
(*@ generic_map.rs : pub fn drain( *)
Definition drain t : list (K * V) * R := api_drain A t.

(** The closure of [retain] may change the value and its own state. *)
Fixpoint retain_loop {St} (f : St → K → V → St * V * bool) (positions : list slot) (s : St) t :
    St * R :=
  match positions with
  | [] => (s, t)
  | p :: positions' =>
      match api_kv A t p with
      | Some (key, value) =>
          let '(s, value, keep) := f s key value in
          let t := api_set_kv A t p (key, value) in
          let t :=
            if negb keep then let h := hash_key key in api_erase_slot A t h p else t in
          retain_loop f positions' s t
      | None => retain_loop f positions' s t
      end
  end.

(*@ generic_map.rs : pub fn retain *)
Definition retain {St} t (s : St) (f : St → K → V → St * V * bool) : St * R :=
  if negb (api_is_allocated A t) then (s, t)
  else retain_loop f (api_occupied_positions A t) s t.

(*@ generic_map.rs : fn extend *)
Fixpoint extend t (kvs : list (K * V)) : option R :=
  match kvs with
  | [] => Some t
  | (k, v) :: kvs' => do ' (t, _) <- insert t k v; extend t kvs'
  end.

(** [lower]: the lower bound of the iterator's [size_hint]. *)
(*@ generic_map.rs : fn from_iter *)
Definition from_iter (lower : Z) (kvs : list (K * V)) : option R :=
  extend (api_with_capacity A lower) kvs.

(** [self.iter().all(|(k, v)| other.get(k) == Some(v))] *)
Fixpoint all_found `{EqDecision V} (kvs : list (K * V)) (other : R) : option bool :=
  match kvs with
  | [] => Some true
  | (k, v) :: kvs' =>
      do r <- get other k;
      if bool_decide (r = Some v) then all_found kvs' other else Some false
  end.

(*@ generic_map.rs : fn eq( *)
Definition eq_map `{EqDecision V} t (other : R) : option bool :=
  if negb (api_len A t =? api_len A other) then Some false else all_found (iter t) other.

(** ** The operations on the represented map *)

Context (M : TableRep R K V) `{!TableLaws A M hash_key}.

Abbreviation rep := (rep M).
Abbreviation holds := (holds M).
Abbreviation bounded := (bounded M).
Abbreviation growable := (growable M).

Lemma find_law t m k :
  rep t m → bounded t →
  ∃ r, api_find_by_hash A t (hash_key k) (eq_key k) = Some r ∧
    match r with
    | Some p => ∃ v, holds t p k v ∧ api_kv A t p = Some (k, v) ∧ m !! k = Some v
    | None => m !! k = None
    end.
Proof using TableLaws0.
  intros Hr Hb. destruct (law_find t m k Hr Hb) as ([p|] & -> & Hp); eexists; split; try reflexivity.
  - destruct Hp as [v Hp]. destruct (law_holds t m p k v Hr Hp). eauto.
  - done.
Qed.

Lemma get_ok t m k : rep t m → bounded t → get t k = Some (m !! k).
Proof using TableLaws0.
  intros Hr Hb. unfold get, value_at. destruct (find_law t m k Hr Hb) as ([p|] & -> & Hp); simpl.
  - by destruct Hp as (v & _ & -> & ->).
  - by rewrite Hp.
Qed.

Lemma entry_ok t m k :
  rep t m → growable t →
  ∃ t' e, entry t k = Some (inl (t', e)) ∧ rep t' m ∧
    match e with
    | Occupied k' p => k' = k ∧ ∃ v, holds t' p k v ∧ m !! k = Some v
    | Vacant k' h at_slot =>
        k' = k ∧ h = hash_key k ∧ m !! k = None ∧
        ∀ v, ∃ t'' p, vacant_insert t' k h at_slot v = Some (t'', p) ∧
          rep t'' (<[k := v]> m) ∧ holds t'' p k v
    end.
Proof using TableLaws0.
  intros Hr Hg. unfold entry.
  assert (∃ t1, (if negb (api_is_allocated A t) then api_reserve A t 1 else Some (inl t)) =
    Some (inl t1) ∧ rep t1 m ∧ growable t1) as (t1 & -> & Hr1 & Hg1).
  { destruct (api_is_allocated A t) eqn:Ha; cbn [negb]; [by exists t|].
    destruct (law_reserve_first t m Hr Hg Ha) as (t1 & ? & ? & ?). eauto. }
  destruct (law_entry t1 m k Hr1 (law_growable t1 Hg1)) as (r & -> & Hp).
  destruct r as [gi si|[[[gi si] b]|]]; simpl; eexists t1, _; (split; [reflexivity|]); (split; [done|]).
  - destruct Hp as [v Hp]. split; [done|]. exists v. split; [done|]. by apply (law_holds t1 m _ _ _ Hr1 Hp).
  - destruct Hp as [Hk Hp]. split_and!; [done|done|done|]. intros v. destruct (Hp v) as [H1 H2].
    by eexists _, _.
  - split_and!; [done|done|done|]. intros v.
    destruct (law_insert_grown t1 m k v Hr1 Hg1 Hp) as (t2 & t3 & p & E1 & E2 & H1 & H2).
    exists t3, p. simpl. by rewrite E1, E2.
Qed.

Lemma write_value_ok t m p k v v' :
  rep t m → holds t p k v →
  rep (write_value t p v') (<[k := v']> m) ∧ holds (write_value t p v') p k v'.
Proof using TableLaws0.
  intros Hr Hp. unfold write_value. destruct (law_holds t m p k v Hr Hp) as [-> _].
  destruct (law_set t m p k v v' Hr Hp) as (H1 & H2 & _). done.
Qed.

(** ** Retaining *)

(** One step of the loop. *)
Lemma retain_step t m p k v v' (keep : bool) :
  rep t m → holds t p k v →
  let t1 := api_set_kv A t p (k, v') in
  let t2 := if negb keep then api_erase_slot A t1 (hash_key k) p else t1 in
  rep t2 (if keep then <[k := v']> m else delete k m) ∧
  ∀ q k1 v1, q ≠ p → holds t q k1 v1 → holds t2 q k1 v1.
Proof using TableLaws0.
  intros Hr Hp. destruct (law_set t m p k v v' Hr Hp) as (Hr1 & Hp1 & Hq1 & _). cbv zeta in *.
  destruct keep; cbn [negb]; [done|].
  destruct (law_erase _ _ p k v' Hr1 Hp1) as [Hr2 Hq2]. cbv zeta in *. split.
  - by rewrite delete_insert_eq in Hr2.
  - intros q k1 v1 Hne Hq. apply Hq2; [done|]. by apply Hq1.
Qed.

Lemma retain_loop_ok {St} (f : St → K → V → St * V * bool) ps s t m kvs :
  rep t m → NoDup ps → Forall2 (λ p kv, holds t p kv.1 kv.2) ps kvs →
  (retain_loop f ps s t).1 = (retained f kvs s m).1 ∧
  rep (retain_loop f ps s t).2 (retained f kvs s m).2.
Proof using TableLaws0.
  revert s t m kvs. induction ps as [|p ps IH]; intros s t m kvs Hr Hnd Hall.
  - apply Forall2_nil_inv_l in Hall as ->. done.
  - apply Forall2_cons_inv_l in Hall as ([k v] & kvs' & Hp & Hall & ->). simpl in Hp.
    apply NoDup_cons in Hnd as [Hnp Hnd]. cbn [retain_loop retained].
    destruct (law_holds t m p k v Hr Hp) as [-> _].
    destruct (f s k v) as [[s' v'] keep].
    destruct (retain_step t m p k v v' keep Hr Hp) as [Hr' Hq]. cbv zeta in *.
    apply IH; [done|done|]. eapply Forall2_impl; [|intros ? ? Hx; exact Hx].
    apply Forall2_same_length_lookup. split; [by eapply Forall2_length|].
    intros i q kv Hqi Hkv. apply Hq.
    + intros ->. apply Hnp. by eapply list_elem_of_lookup_2.
    + by apply (Forall2_lookup_lr _ _ _ _ _ _ Hall Hqi Hkv).
Qed.

(** The pairs in slot order. *)
Lemma positions_holds t m :
  rep t m →
  Forall2 (λ p kv, holds t p kv.1 kv.2) (api_occupied_positions A t) (iter t) ∧
  list_to_map (iter t) = m.
Proof using TableLaws0.
  intros Hr. destruct (law_positions t m Hr) as (_ & Hp & Hm & _). split; [|done].
  unfold iter. clear Hm.
  assert (∀ p, p ∈ api_occupied_positions A t → ∃ k v, holds t p k v) as Hex by (intros p; apply Hp).
  clear Hp. induction (api_occupied_positions A t) as [|p ps IH]; [constructor|].
  destruct (Hex p) as (k & v & Hh); [by left|]. csimpl.
  destruct (law_holds t m p k v Hr Hh) as [-> _]. constructor; [done|].
  apply IH. intros q Hq. apply Hex. by right.
Qed.

Lemma iter_keys_NoDup t m : rep t m → NoDup (iter t).*1.
Proof using TableLaws0.
  intros Hr. destruct (positions_holds t m Hr) as [Hall _].
  destruct (law_positions t m Hr) as (Hnd & _ & _).
  revert Hnd Hall. generalize (api_occupied_positions A t) (iter t). intros ps kvs Hnd Hall.
  induction Hall as [|p [k v] ps kvs Hp Hall IH]; [constructor|].
  apply NoDup_cons in Hnd as [Hnp Hnd]. csimpl. apply NoDup_cons. split; [|by apply IH].
  intros ([k' v'] & Heq & Hin)%list_elem_of_fmap. simpl in Heq. subst k'.
  apply list_elem_of_lookup in Hin as [i Hi].
  destruct (Forall2_lookup_r _ _ _ _ _ Hall Hi) as (q & Hq & Hh). simpl in *.
  apply Hnp. rewrite (law_holds_inj t m p q k v v' Hr Hp Hh). by eapply list_elem_of_lookup_2.
Qed.

Lemma retained_lookup (f : K → V → V * bool) kvs (m : gmap K V) k :
  NoDup kvs.*1 → (∀ k v, (k, v) ∈ kvs → m !! k = Some v) →
  (retained (λ (s : unit) k v, let '(v', keep) := f k v in (s, v', keep)) kvs () m).2 !! k =
  if decide (k ∈ kvs.*1)
  then (v ← m !! k; let '(v', keep) := f k v in if keep : bool then Some v' else None)
  else m !! k.
Proof using Type.
  revert m. induction kvs as [|[k0 v0] kvs IH]; intros m Hnd Hm; [done|].
  simpl in Hnd. apply NoDup_cons in Hnd as [Hk0 Hnd]. cbn [retained].
  destruct (f k0 v0) as [v' keep] eqn:Hf.
  rewrite IH; [|done|].
  2:{ intros k1 v1 Hin. assert (k1 ≠ k0) as Hne.
      { intros ->. apply Hk0, list_elem_of_fmap. by exists (k0, v1). }
      destruct keep; [rewrite lookup_insert_ne by done|rewrite lookup_delete_ne by done];
        apply Hm; by right. }
  csimpl. destruct (decide (k = k0)) as [->|Hne].
  - rewrite decide_False by done. rewrite decide_True by by left.
    rewrite (Hm k0 v0) by by left. simpl. rewrite Hf.
    destruct keep; [by rewrite lookup_insert_eq|by rewrite lookup_delete_eq].
  - assert ((if keep then <[k0 := v']> m else delete k0 m) !! k = m !! k) as ->.
    { destruct keep; [by rewrite lookup_insert_ne|by rewrite lookup_delete_ne]. }
    destruct (decide (k ∈ kvs.*1)), (decide (k ∈ k0 :: kvs.*1)) as [|Hn];
      try done; rewrite elem_of_cons in *; naive_solver.
Qed.

Lemma retained_pure (f : K → V → V * bool) kvs (m : gmap K V) :
  NoDup kvs.*1 → list_to_map kvs = m →
  (retained (λ (s : unit) k v, let '(v', keep) := f k v in (s, v', keep)) kvs () m).2 =
  map_imap (λ k v, let '(v', keep) := f k v in if keep : bool then Some v' else None) m.
Proof using Type.
  intros Hnd Hm.
  assert (∀ k v, (k, v) ∈ kvs ↔ m !! k = Some v) as Hin by (intros; rewrite <- Hm; by apply elem_of_list_to_map).
  apply map_eq. intros k. rewrite map_lookup_imap, retained_lookup; [|done|intros; by apply Hin].
  destruct (decide (k ∈ kvs.*1)) as [|Hk]; [done|].
  destruct (m !! k) as [v|] eqn:E; [|done]. exfalso. apply Hk, list_elem_of_fmap.
  exists (k, v). split; [done|]. by apply Hin.
Qed.

Lemma all_found_ok `{EqDecision V} kvs other mo :
  rep other mo → bounded other →
  all_found kvs other = Some (bool_decide (Forall (λ kv, mo !! kv.1 = Some kv.2) kvs)).
Proof using TableLaws0.
  intros Hr Hb. induction kvs as [|[k v] kvs IH]; cbn [all_found]; [by rewrite bool_decide_true by constructor|].
  rewrite (get_ok other mo k Hr Hb). cbn [mbind option_bind].
  destruct (decide (mo !! k = Some v)) as [Heq|Hne].
  - rewrite bool_decide_true by done. rewrite IH. f_equal. apply bool_decide_ext.
    rewrite Forall_cons. simpl. naive_solver.
  - rewrite bool_decide_false by done. f_equal. symmetry. apply bool_decide_false.
    rewrite Forall_cons. naive_solver.
Qed.

(** A map of the same size that contains all pairs is the same map. *)
Lemma map_eq_of_incl (m mo : gmap K V) :
  size m = size mo → (∀ k v, m !! k = Some v → mo !! k = Some v) → m = mo.
Proof using Type.
  intros Hs Hi. assert (m ⊆ mo) as Hsub by by apply map_subseteq_spec.
  apply map_eq. intros k. destruct (m !! k) as [v|] eqn:Hk; [by rewrite (Hi k v)|].
  destruct (mo !! k) as [v|] eqn:Hk'; [|done]. exfalso.
  assert (m ⊂ mo) as Hss.
  { split; [done|]. intros Hsub'. apply (lookup_weaken _ m) in Hk'; [congruence|done]. }
  apply map_subset_size in Hss. lia.
Qed.

Lemma generic_get_key_value_ok t m k : rep t m → bounded t → get_key_value t k = Some (pair k <$> m !! k).
Proof using TableLaws0.
  intros Hr Hb. unfold get_key_value. destruct (find_law t m k Hr Hb) as ([p|] & -> & Hp); simpl.
  - destruct Hp as (v0 & _ & -> & ->). done.
  - by rewrite Hp.
Qed.

Lemma generic_remove_ok t m k :
  rep t m → bounded t → ∃ t', remove t k = Some (t', m !! k) ∧ rep t' (delete k m).
Proof using TableLaws0.
  intros Hr Hb. unfold remove. destruct (law_remove t m k Hr Hb) as (t' & -> & Hr'). exists t'. simpl.
  split; [|done]. by destruct (m !! k).
Qed.

(** Lookup, insertion and removal of the generic map are those of the
    finite map, over any raw table that keeps the interface's contract. *)
Theorem map_operations_correct t m k v :
  rep t m → growable t →
  get t k = Some (m !! k) ∧
  contains_key t k = Some (bool_decide (is_Some (m !! k))) ∧
  index t k = Some (match m !! k with Some v => inl v | None => inr NoEntryFound end) ∧
  get_key_value t k = Some (pair k <$> m !! k) ∧
  (∃ t', insert t k v = Some (t', m !! k) ∧ rep t' (<[k := v]> m)) ∧
  (∃ t', remove t k = Some (t', m !! k) ∧ rep t' (delete k m)) ∧
  (∃ t', remove_entry t k = Some (t', pair k <$> m !! k) ∧ rep t' (delete k m)).
Proof using TableLaws0.
  intros Hr Hg. pose proof (law_growable t Hg) as Hb.
  unfold contains_key, index. rewrite (get_ok t m k Hr Hb). split_and!; [done|done|done|..].
  - by apply generic_get_key_value_ok.
  - by apply law_insert.
  - by apply generic_remove_ok.
  - by apply law_remove.
Qed.

(** What the entry of a key is. *)
Definition entry_of t m k (e : Entry) : Prop :=
  match e with
  | Occupied k' p => k' = k ∧ ∃ v, holds t p k v ∧ m !! k = Some v
  | Vacant k' h at_slot =>
      k' = k ∧ h = hash_key k ∧ m !! k = None ∧
      ∀ v, ∃ t'' p, vacant_insert t k h at_slot v = Some (t'', p) ∧
        rep t'' (<[k := v]> m) ∧ holds t'' p k v
  end.

Lemma generic_or_insert_ok t m k v e :
  rep t m → entry_of t m k e →
  ∃ t' p, or_insert t e v = Some (t', p) ∧
    rep t' (<[k := default v (m !! k)]> m) ∧ holds t' p k (default v (m !! k)).
Proof using TableLaws0.
  intros Hr He. destruct e as [k' p|k' h o].
  - destruct He as (-> & v0 & Hp & Hv). rewrite Hv. exists t, p. cbn [default]. by rewrite insert_id.
  - destruct He as (-> & -> & Hk & Hins). rewrite Hk. destruct (Hins v) as (t' & p & ? & ? & ?). by exists t', p.
Qed.

Lemma generic_and_modify_ok t m k (f : V → V) e :
  rep t m → entry_of t m k e → ∃ e', (and_modify t e f).2 = e' ∧ rep (and_modify t e f).1 (alter f k m).
Proof using TableLaws0.
  intros Hr He. eexists. split; [reflexivity|]. destruct e as [k' p|k' h o]; cbn [and_modify fst].
  - destruct He as (-> & v0 & Hp & Hv). unfold value_at.
    destruct (law_holds t m p k v0 Hr Hp) as [-> _]. simpl.
    destruct (write_value_ok t m p k v0 (f v0) Hr Hp) as [H1 _].
    by rewrite (alter_alt_Some f m k v0 Hv).
  - destruct He as (-> & -> & Hk & _). by rewrite alter_alt, Hk.
Qed.

Lemma generic_try_insert_ok t m k v :
  rep t m → growable t →
  ∃ t', try_insert t k v = Some (inl (t', bool_decide (m !! k = None))) ∧ rep t' (<[k := default v (m !! k)]> m).
Proof using TableLaws0.
  intros Hr Hg. unfold try_insert. destruct (entry_ok t m k Hr Hg) as (t' & e & -> & Hr' & He).
  destruct e as [k' p|k' h o].
  - destruct He as (-> & v0 & Hp & Hv). rewrite Hv. exists t'. cbn [default].
    rewrite bool_decide_false by done. split; [done|]. by rewrite insert_id.
  - destruct He as (-> & -> & Hk & Hins). rewrite Hk. destruct (Hins v) as (t'' & p & Hrun & Hr'' & Hp).
    exists t''. cbn [mbind option_bind]. by rewrite Hrun.
Qed.

(** The entry interface.  [entry(k)] is occupied by the key's slot or
    vacant; [or_insert] leaves a present value alone and inserts an absent one,
    and returns the slot that then holds the key; [and_modify] changes exactly
    the value of a present key; [try_insert] inserts only an absent key. *)
Theorem entry_correct t m k v (f : V → V) :
  rep t m → growable t →
  (∃ t' e t'' p, entry t k = Some (inl (t', e)) ∧ or_insert t' e v = Some (t'', p) ∧
     rep t'' (<[k := default v (m !! k)]> m) ∧ holds t'' p k (default v (m !! k))) ∧
  (∃ t' e, entry t k = Some (inl (t', e)) ∧ rep (and_modify t' e f).1 (alter f k m)) ∧
  (∃ t', try_insert t k v = Some (inl (t', bool_decide (m !! k = None))) ∧
     rep t' (<[k := default v (m !! k)]> m)).
Proof using TableLaws0.
  intros Hr Hg. destruct (entry_ok t m k Hr Hg) as (t' & e & He & Hr' & Hf). split_and!.
  - destruct (generic_or_insert_ok t' m k v e Hr' Hf) as (t'' & p & ? & ? & ?). by exists t', e, t'', p.
  - destruct (generic_and_modify_ok t' m k f e Hr' Hf) as (e' & _ & ?). by exists t', e.
  - by apply generic_try_insert_ok.
Qed.

Lemma generic_retain_ok {St} (f : St → K → V → St * V * bool) t m s :
  rep t m →
  (retain t s f).1 = (retained f (iter t) s m).1 ∧ rep (retain t s f).2 (retained f (iter t) s m).2.
Proof using TableLaws0.
  intros Hr. destruct (positions_holds t m Hr) as [Hall Hm].
  destruct (law_positions t m Hr) as (Hpos & _ & _ & Hun).
  unfold retain. destruct (api_is_allocated A t); cbn [negb].
  - by apply retain_loop_ok.
  - unfold iter. by rewrite (Hun eq_refl).
Qed.

(** [retain] visits every pair once, in slot order: it leaves the closure in
    the state it reaches on these pairs and keeps the pairs it accepts with the
    values it gives them.  With a closure without state of its own the result
    is the map filtered and mapped pointwise. *)
Theorem retain_correct t m :
  rep t m →
  list_to_map (iter t) = m ∧ NoDup (iter t).*1 ∧
  (∀ St (s : St) (f : St → K → V → St * V * bool),
     (retain t s f).1 = (retained f (iter t) s m).1 ∧
     rep (retain t s f).2 (retained f (iter t) s m).2) ∧
  (∀ f : K → V → V * bool,
     rep (retain t () (λ s k v, let '(v', keep) := f k v in (s, v', keep))).2
       (map_imap (λ k v, let '(v', keep) := f k v in if keep : bool then Some v' else None) m)).
Proof using TableLaws0.
  intros Hr. destruct (positions_holds t m Hr) as [_ Hm]. pose proof (iter_keys_NoDup t m Hr) as Hnd.
  split_and!; [done|done|intros; by apply generic_retain_ok|]. intros f.
  destruct (generic_retain_ok (λ s k v, let '(v', keep) := f k v in (s, v', keep)) t m () Hr) as [_ Hrep].
  by rewrite (retained_pure f (iter t) m Hnd Hm) in Hrep.
Qed.

(** The mutable iterator is [retain] with a closure that keeps everything. *)
Lemma for_each_mut_retain (f : K → V → V) ps t :
  for_each_mut f ps t = (retain_loop (λ (s : unit) k v, (s, f k v, true)) ps () t).2.
Proof using Type.
  revert t. induction ps as [|p ps IH]; intros t; [done|]. cbn [for_each_mut retain_loop].
  destruct (api_kv A t p) as [[k v]|]; apply IH.
Qed.

Lemma generic_iter_mut_ok (f : K → V → V) t m : rep t m → rep (iter_mut f t) (map_imap (λ k v, Some (f k v)) m).
Proof using TableLaws0.
  intros Hr. destruct (positions_holds t m Hr) as [Hall Hm]. destruct (law_positions t m Hr) as (Hpos & _).
  unfold iter_mut. rewrite for_each_mut_retain.
  destruct (retain_loop_ok (λ (s : unit) k v, (s, f k v, true)) _ () t m _ Hr Hpos Hall) as [_ Hrep].
  by rewrite (retained_pure (λ k v, (f k v, true)) (iter t) m (iter_keys_NoDup t m Hr) Hm) in Hrep.
Qed.

Lemma generic_into_iter_ok t m : rep t m → into_iter t = iter t.
Proof using TableLaws0. intros Hr. by destruct (law_into_iter t m Hr). Qed.

Lemma generic_drain_ok t m : rep t m → (drain t).1 = iter t ∧ rep (drain t).2 ∅.
Proof using TableLaws0. intros Hr. destruct (law_into_iter t m Hr) as (Hi & Hd & He). split; [by etransitivity|done]. Qed.

(** The budget and the allocator cover all the insertions of [extend]. *)
Fixpoint extendable t (kvs : list (K * V)) : Prop :=
  match kvs with
  | [] => True
  | (k, v) :: kvs' =>
      growable t ∧ match insert t k v with Some (t', _) => extendable t' kvs' | None => True end
  end.

Lemma foldl_insert (m : gmap K V) kvs :
  foldl (λ m kv, <[kv.1 := kv.2]> m) m kvs = list_to_map (reverse kvs) ∪ m.
Proof using Type.
  revert m. induction kvs as [|[k v] kvs IH] using rev_ind; intros m.
  - by rewrite reverse_nil, list_to_map_nil, (left_id_L ∅ (∪)).
  - rewrite foldl_app, reverse_snoc. simpl. by rewrite IH, insert_union_l.
Qed.

Lemma extend_ok t m kvs :
  rep t m → extendable t kvs →
  ∃ t', extend t kvs = Some t' ∧ rep t' (foldl (λ m kv, <[kv.1 := kv.2]> m) m kvs).
Proof using TableLaws0.
  revert t m. induction kvs as [|[k v] kvs IH]; intros t m Hr Hx; cbn [extend foldl].
  - by exists t.
  - destruct Hx as [Hg Hx]. destruct (law_insert t m k v Hr Hg) as (t1 & Hrun & Hr1).
    unfold insert in *. rewrite Hrun in *. cbn [mbind option_bind]. by apply IH.
Qed.

(** [extend] inserts the pairs in order, so that the last value of a key
    wins, and [collect] starts from a table allocated for the iterator's lower
    bound, which changes nothing of the result. *)
Theorem from_iter_correct lower kvs :
  capable M lower → extendable (api_with_capacity A lower) kvs →
  (∃ t', from_iter lower kvs = Some t' ∧ rep t' (list_to_map (reverse kvs))) ∧
  ∀ t m, rep t m → extendable t kvs →
    ∃ t', extend t kvs = Some t' ∧ rep t' (list_to_map (reverse kvs) ∪ m).
Proof using TableLaws0.
  intros Hc Hx. split.
  - destruct (extend_ok _ _ kvs (law_with_capacity lower Hc) Hx) as (t' & Hrun & Hr).
    exists t'. split; [done|]. by rewrite foldl_insert, map_union_empty in Hr.
  - intros t m Hr Hx'. destruct (extend_ok t m kvs Hr Hx') as (t' & Hrun & Hr').
    exists t'. split; [done|]. by rewrite <- foldl_insert.
Qed.

(** Two maps compare equal exactly when they represent the same finite map,
    whatever their tables, capacities and insertion orders are; a clone
    compares equal to its original. *)
Theorem eq_map_correct `{EqDecision V} t m other mo :
  rep t m → rep other mo → bounded t → bounded other →
  eq_map t other = Some (bool_decide (m = mo)) ∧ rep (api_clone_table A t) m.
Proof using TableLaws0.
  intros Hr Hr' Hb Hb'. split; [|by apply law_clone]. unfold eq_map.
  rewrite (law_len t m Hr), (law_len other mo Hr').
  destruct (positions_holds t m Hr) as [_ Hm]. pose proof (iter_keys_NoDup t m Hr) as Hnd.
  destruct (Nat.eqb_spec (size m) (size mo)) as [Hs|Hs]; cbn [negb].
  - rewrite (all_found_ok (iter t) other mo Hr' Hb'). f_equal. apply bool_decide_ext.
    rewrite Forall_forall. split; [|intros <- [k v] Hin].
    + intros Hall. apply map_eq_of_incl; [done|]. intros k v Hk. rewrite <- Hm in Hk.
      apply elem_of_list_to_map in Hk; [|done]. by apply (Hall (k, v)).
    + rewrite <- Hm. by apply elem_of_list_to_map.
  - f_equal. symmetry. apply bool_decide_false. by intros ->.
Qed.
End map.
