(* ===== verification/RawEntry.v ===== *)
(** * Raw entries

    [raw_entry.rs]: lookup and insertion with a hash and an equality of the
    caller's, over any raw table.  A pair of references into the map is the
    slot it points to.  The theorem is about callers that give the hash and the
    equality of a key, as [from_key] does. *)

From Stdlib Require Import ZArith Lia.
From S2P Require Import Prelude TableApi.
From S2P Require GenericMap.

Section raw_entry.
Context {R K V : Type} `{Countable K} (A : RawTableApi R K V) (hash_key : K → Z).
Implicit Types (t : R) (p : slot) (hash : Z).

(** ** Reading *)

(*@ raw_entry.rs : pub fn from_hash @1 *)
Definition from_hash t hash (is_match : K → bool) : option (option (K * V)) :=
  do r <- api_find_by_hash A t hash is_match;
  Some (match r with Some p => api_kv A t p | None => None end).

(*@ raw_entry.rs : pub fn from_key_hashed_nocheck @1 *)
Definition from_key_hashed_nocheck t hash (k : K) : option (option (K * V)) := from_hash t hash (eq_key k).

(*@ raw_entry.rs : pub fn from_key< @1 *)
Definition from_key t (k : K) : option (option (K * V)) :=
  let h := hash_key k in from_key_hashed_nocheck t h k.

(** ** Entries *)

(*@ raw_entry.rs : pub enum RawEntryMut *)
Inductive RawEntryMut :=
  | RawOccupied (p : slot) (hash : Z)
  | RawVacant (hash : Z).

(*@ raw_entry.rs : pub fn from_hash @2 *)
Definition from_hash_mut t hash (is_match : K → bool) : option RawEntryMut :=
  do r <- api_find_by_hash A t hash is_match;
  Some (match r with Some p => RawOccupied p hash | None => RawVacant hash end).

(*@ raw_entry.rs : pub fn from_key_hashed_nocheck @2 *)
Definition from_key_hashed_nocheck_mut t hash (k : K) : option RawEntryMut := from_hash_mut t hash (eq_key k).

(*@ raw_entry.rs : pub fn from_key< @2 *)
Definition from_key_mut t (k : K) : option RawEntryMut :=
  let h := hash_key k in from_key_hashed_nocheck_mut t h k.

(*@ raw_entry.rs : pub fn insert_hashed_nocheck *)
Definition insert_hashed_nocheck t hash (key : K) (value : V) : option (R * slot) :=
  do t <- api_ensure_capacity A t;
  api_insert_no_check A t hash key value.

(*@ raw_entry.rs : pub fn insert(self, key: K, value: V) *)
Definition vacant_insert t (key : K) (value : V) : option (R * slot) :=
  let h := hash_key key in insert_hashed_nocheck t h key value.

(*@ raw_entry.rs : pub fn or_insert( *)
Definition or_insert t (e : RawEntryMut) (default_key : K) (default_value : V) : option (R * slot) :=
  match e with
  | RawOccupied p _ => Some (t, p)
  | RawVacant _ => vacant_insert t default_key default_value
  end.

(*@ raw_entry.rs : pub fn or_insert_with< *)
Definition or_insert_with t (e : RawEntryMut) (default : () → K * V) : option (R * slot) :=
  match e with
  | RawOccupied p _ => Some (t, p)
  | RawVacant _ => let '(k, v) := default () in vacant_insert t k v
  end.

(** [f] may change the key too. *)
(*@ raw_entry.rs : pub fn and_modify *)
Definition and_modify t (e : RawEntryMut) (f : K → V → K * V) : R * RawEntryMut :=
  match e with
  | RawOccupied p hash =>
      (match api_kv A t p with Some (k, v) => api_set_kv A t p (f k v) | None => t end, RawOccupied p hash)
  | RawVacant hash => (t, RawVacant hash)
  end.

(** ** Occupied entries *)

(*@ raw_entry.rs : pub fn get_key_value( *)
Definition get_key_value t p : option (K * V) := api_kv A t p.

(*@ raw_entry.rs : pub fn key(&self) *)
Definition key t p : option K := fst <$> api_kv A t p.

(*@ raw_entry.rs : pub fn get(&self) *)
Definition get t p : option V := snd <$> api_kv A t p.

(*@ raw_entry.rs : pub fn insert(&mut self, value: V) *)
Definition occupied_insert t p (value : V) : R * option V :=
  match api_kv A t p with Some (k, v) => (api_set_kv A t p (k, value), Some v) | None => (t, None) end.

(*@ raw_entry.rs : pub fn insert_key *)
Definition insert_key t p (new_key : K) : R * option K :=
  match api_kv A t p with Some (k, v) => (api_set_kv A t p (new_key, v), Some k) | None => (t, None) end.

(** The hash is the one the entry was looked up with. *)
(*@ raw_entry.rs : pub fn remove_entry(self) *)
Definition remove_entry t p hash : R * option (K * V) := (api_erase_slot A t hash p, api_kv A t p).

(*@ raw_entry.rs : pub fn remove(self) *)
Definition remove t p hash : R * option V := let '(t, r) := remove_entry t p hash in (t, snd <$> r).

(** ** Correctness *)

Context (M : TableRep R K V) `{!TableLaws A M hash_key}.

(** Raw entries, looked up with a key.  The lookups return the key's pair;
    the entry is occupied by the key's slot or vacant; [or_insert] with the key
    leaves a present value alone and inserts an absent one; [and_modify] that
    keeps the key changes exactly its value; replacing the value and removing the
    entry return the old value, or the pair, and act on that key only. *)
Theorem raw_entry_correct t m k v (g : V → V) :
  rep M t m → growable M t →
  from_key t k = Some (pair k <$> m !! k) ∧
  ∃ e, from_key_mut t k = Some e ∧
    (∃ t' p, or_insert t e k v = Some (t', p) ∧ rep M t' (<[k := default v (m !! k)]> m) ∧
       holds M t' p k (default v (m !! k))) ∧
    rep M (and_modify t e (λ k v, (k, g v))).1 (alter g k m) ∧
    match e with
    | RawVacant _ => m !! k = None
    | RawOccupied p h =>
        ∃ w, m !! k = Some w ∧ key t p = Some k ∧ get t p = Some w ∧
          (occupied_insert t p v).2 = Some w ∧ rep M (occupied_insert t p v).1 (<[k := v]> m) ∧
          (remove_entry t p h).2 = Some (k, w) ∧ rep M (remove_entry t p h).1 (delete k m)
    end.
Proof using TableLaws0.
  intros Hr Hg. pose proof (law_growable t Hg) as Hb.
  destruct (GenericMap.find_law A hash_key M t m k Hr Hb) as (r & Hrun & Hf).
  unfold from_key, from_key_hashed_nocheck, from_hash, from_key_mut, from_key_hashed_nocheck_mut, from_hash_mut.
  rewrite Hrun. destruct r as [p|].
  - destruct Hf as (w & Hp & Hkv & Hk). rewrite Hkv, Hk. split; [done|]. eexists. split; [reflexivity|].
    destruct (law_set t m p k w (g w) Hr Hp) as (Hrg & _). destruct (law_set t m p k w v Hr Hp) as (Hrv & _).
    destruct (law_erase t m p k w Hr Hp) as (Hre & _). cbn [default]. split.
    { exists t, p. cbn. by rewrite insert_id. }
    unfold and_modify, key, get, occupied_insert, remove_entry. rewrite Hkv. cbn [fst snd fmap option_fmap option_map].
    split; [by rewrite (alter_alt_Some g m k w Hk)|]. exists w. by split_and!.
  - rewrite Hf. split; [done|]. eexists. split; [reflexivity|]. cbn [or_insert and_modify fst default].
    unfold vacant_insert, insert_hashed_nocheck.
    destruct (law_insert_grown t m k v Hr Hg Hf) as (t1 & t' & p & E1 & E2 & Hr' & Hp'). rewrite E1.
    split; [by exists t', p|]. split; [|done]. by rewrite alter_alt, Hf.
Qed.
End raw_entry.
