(* ===== verification/OverflowMap.v ===== *)
(** * The overflow-bit tables as map backends

    [RawTableApi for RawTable] of [raw/overflow_table.rs]: a table with one
    overflow bit per group offers the interface of [TableApi.v] and keeps its
    contract, so that the theorems of [GenericMap.v] hold for it.  A table with
    eight overflow channels keeps it where its probes have an exit. *)

From Stdlib Require Import ZArith Lia.
From S2P Require Import Prelude Probe SlotMap SlotWalk Bitmask HashTag Group Layout OverflowTable.
From S2P Require Import OverflowInv OverflowWrite OverflowProbe OverflowOps OverflowApi.
From S2P Require Import OverflowEntry OverflowSpec GenericMap.

Section backend.
Context (L : GroupLayout) `{!LayoutOk L} {K V : Type} `{Countable K} (hash_key : K → Z).
Context (fuel : nat).
Implicit Types t : RawTable K V.

Abbreviation wf := (wf L hash_key).
Abbreviation probe_bound := (probe_bound L).
Abbreviation lookups_end := (lookups_end L hash_key).
Abbreviation to_map := (to_map L).
Abbreviation kv_at := (kv_at L).
Abbreviation in_range := (in_range L).
Abbreviation slot_entry := (slot_entry L).
Abbreviation entries := (entries L).

(** [self.iter_slots().collect()]: a table has no more slots than that. *)
(*@ raw/table_api.rs : fn occupied_positions *)
Definition occupied_positions t : list (nat * nat) :=
  (take_slots L ((mask t + 1) * GROUP_SIZE L) t (iter_slots L t)).1.

(** All that the owning iterator yields. *)
Definition all_pairs (it : @IntoIter K V) : list (K * V) := omap id (take_pairs L (S (OverflowTable.len (into_table it))) it).1.

(*@ raw/overflow_table.rs : 536-697 : RawTableApi for RawTable *)
Definition OverflowBackend : RawTableApi (RawTable K V) K V := {|
  api_new := new;
  api_with_capacity := OverflowTable.with_capacity L;
  api_len := OverflowTable.len;
  api_capacity := OverflowTable.capacity L;
  api_is_allocated := is_allocated;
  api_clear t := (OverflowTable.clear L t).1;
  api_kv t p := kv_at t p.1 p.2;
  api_set_kv t p kv := write_kv L t p.1 p.2 kv;
  api_find_by_hash := find_by_hash_impl L fuel;
  api_insert_or_replace := insert_or_replace L hash_key fuel;
  api_find_for_entry := find_for_entry L fuel;
  api_insert_at t h p k v full_mask := insert_at_impl L t h p.1 p.2 k v full_mask;
  api_insert_no_check := insert_no_check_impl L fuel;
  api_ensure_capacity := ensure_capacity L hash_key fuel;
  api_remove_by_hash := remove_by_hash L fuel;
  api_erase_slot t h p := erase_slot L t h p.1 p.2;
  api_reserve := OverflowTable.reserve L hash_key fuel;
  api_shrink_to_fit := OverflowTable.shrink_to_fit L hash_key fuel;
  api_occupied_positions := occupied_positions;
  api_into_iter t := all_pairs (into_iter_impl L t);
  api_drain t := let '(it, t) := drain_impl L t in (all_pairs it, t);
  api_clone_table := clone_table L;
|}.

Definition reserve_bound t (n : Z) : Prop :=
  let needed := (Z.of_nat (OverflowTable.len t) + n)%Z in
  (0 <= n)%Z ∧ capacity_ok L needed ∧ group_count (Z.to_nat (groups_for_capacity L needed)) ∧
  Z.to_nat (groups_for_capacity L needed) <= fuel.

(** The readiness of a table has two parts: the budget covers its loops, and
    every lookup has an exit.  Tables with one overflow bit per group keep
    [probe_bound], and with it the second part, for good, so that it is part of
    what such a table is.  With eight channels removals may lose the exits
    ([channelled_lookup_diverges] in [OverflowSpec.v]), so that they are a
    condition on the state for the operations that probe. *)
Abbreviation channeled := (CHANNELED (Overflow L) = true).
Abbreviation unchanneled := (CHANNELED (Overflow L) = false).

Definition OverflowRep : TableRep (RawTable K V) K V := {|
  capable c := capacity_ok L c ∧ group_count (Z.to_nat (groups_for_capacity L c));
  rep t m := (wf t ∧ (unchanneled → probe_bound t)) ∧ to_map t = m;
  holds t p k v := in_range t p.1 p.2 ∧ slot_entry t p = Some (k, v);
  bounded t := mask t < fuel ∧ (channeled → lookups_end t);
  growable t := can_grow fuel t ∧ (channeled → lookups_end t);
  reservable t n := reserve_bound t n;
  shrinkable t := capacity_ok L (Z.of_nat (OverflowTable.len t)) ∧ mask t < fuel;
|}.

Lemma ready_ends t : wf t → (unchanneled → probe_bound t) → (channeled → lookups_end t) → lookups_end t.
Proof.
  intros Hwf Hu Hc. destruct (CHANNELED (Overflow L)); [by apply Hc|]. by apply probe_bound_ends, Hu.
Qed.

Abbreviation holds_at t p k v := (in_range t p.1 p.2 ∧ slot_entry t p = Some (k, v)).

Lemma holds_lookup t p k v :
  wf t → holds_at t p k v → kv_at t p.1 p.2 = Some (k, v) ∧ to_map t !! k = Some v.
Proof.
  intros Hwf [Hr He]. destruct p as [gi si]. split; [by apply slot_entry_some in He as [_ ?]|].
  apply (to_map_lookup L hash_key t k v Hwf). eauto.
Qed.

(** Changing one slot leaves the pairs of the others. *)
Lemma frame_holds t t' p q k v :
  mask t' = mask t →
  (∀ g s, in_range t g s → (g, s) ≠ p → tag_at L t' g s = tag_at L t g s) →
  (∀ g s, in_range t g s → (g, s) ≠ p → kv_at t' g s = kv_at t g s) →
  q ≠ p → holds_at t q k v → holds_at t' q k v.
Proof.
  intros Hm Ht Hkv Hne [Hr He]. destruct q as [g s]. cbn [fst snd] in *.
  split; [unfold OverflowInv.in_range; by rewrite Hm|].
  unfold OverflowInv.slot_entry in *. cbn [fst snd] in *. by rewrite Ht, Hkv.
Qed.

Lemma set_kv_ok t p k v v' :
  wf t → holds_at t p k v →
  let t' := write_kv L t p.1 p.2 (k, v') in
  (wf t' ∧ (probe_bound t → probe_bound t')) ∧ to_map t' = <[k := v']> (to_map t) ∧
  (mask t' = mask t ∧ (lookups_end t → lookups_end t')) ∧ holds_at t' p k v' ∧
  ∀ q k1 v1, q ≠ p → holds_at t q k1 v1 → holds_at t' q k1 v1.
Proof.
  intros Hwf Hh. destruct p as [gi si]. cbn [fst snd]. pose proof Hh as [Hr He]. cbn [fst snd] in Hr.
  pose proof (wf_alloc L hash_key t gi si k v Hwf He) as Ha.
  destruct (holds_lookup t (gi, si) k v Hwf Hh) as [Hkv _]. cbn [fst snd] in Hkv.
  destruct (replace_spec L hash_key t gi si k v v' Hwf Hr He) as (t1 & Hrun & Hw & Hm & _ & Hmask & _ & Hb).
  unfold replace_value in Hrun. rewrite Hkv in Hrun. simplify_eq.
  cbv zeta. split_and!; [done|done|done|done| | |..].
  - intros He' k0. destruct (He' k0) as [Hk0|(g & Hg & Ho)].
    + left. rewrite Hm, lookup_insert. by case_decide.
    + right. exists g. split; [by rewrite Hmask|]. etransitivity; [|exact Ho]. by apply write_kv_ovf.
  - unfold OverflowInv.in_range. by rewrite Hmask.
  - unfold OverflowInv.slot_entry. cbn [fst snd]. rewrite write_kv_tag by done.
    apply slot_entry_some in He as [Ht _]. apply Z.eqb_neq in Ht as ->.
    rewrite write_kv_kv by done. by rewrite decide_True.
  - intros q k1 v1. apply frame_holds; [done|..].
    + intros g s _ _. by apply write_kv_tag.
    + intros g s Hgs Hne. rewrite write_kv_kv by done. by rewrite decide_False.
Qed.

Lemma erase_holds t p k v q k1 v1 :
  wf t → holds_at t p k v → q ≠ p → holds_at t q k1 v1 →
  holds_at (erase_slot L t (hash_key k) p.1 p.2) q k1 v1.
Proof.
  intros Hwf Hh Hne Hq. destruct p as [gi si]. cbn [fst snd]. pose proof Hh as [Hr He]. cbn [fst snd] in Hr.
  pose proof (wf_alloc L hash_key t gi si k v Hwf He) as Ha.
  rewrite (erase_slot_eq L t _ gi si Ha Hr).
  change (holds_at (write_meta L t gi si EMPTY) q k1 v1).
  revert q k1 v1 Hne Hq. intros q k1 v1. apply frame_holds; [done|..].
  - intros g s Hgs Hne. rewrite write_meta_tag by done. by rewrite decide_False.
  - intros g s _ _. apply write_meta_kv.
Qed.

Lemma occupied_positions_spec t : wf t → occupied_positions t = occupied_slots L t.
Proof.
  intros Hwf. unfold occupied_positions, take_slots.
  destruct (take_walk_spec (Mask (Grp L)) (group_mask L t) (mask t) (group_mask_ok L t)
    ((mask t + 1) * GROUP_SIZE L) (iter_slots L t) (iter_slots_mask_ok L t)) as [-> _].
  rewrite (remaining_start L hash_key t Hwf). apply take_ge.
  rewrite (occupied_slots_filter L).
  etransitivity; [apply filter_length_le|]. by rewrite all_slots_length.
Qed.

(** The first allocation, [reserve(1)], takes one group. *)
Lemma reserve_first t :
  capacity_ok L 1 → wf t → can_grow fuel t → is_allocated t = false →
  ∃ t', OverflowTable.reserve L hash_key fuel t 1 = Some (inl t') ∧ (preserved L hash_key t t' ∧ probe_bound t') ∧ can_grow fuel t'.
Proof.
  intros Hc Hwf [_ Hf] Hal. unfold is_allocated in Hal. apply Nat.ltb_ge in Hal.
  assert (max_load t = 0) as Hz by lia.
  destruct (unallocated_len L hash_key t Hwf Hz) as [Hl Hm].
  unfold OverflowTable.reserve. rewrite Hl, Hz. cbn [Z.of_nat]. rewrite Z.add_0_l.
  cbn -[allocate groups_for_capacity].
  destruct (groups_for_capacity_spec L 1 Hc) as (Hp & _ & Hleast).
  set (n := Z.to_nat (groups_for_capacity L 1)) in *.
  assert (n = 1) as ->.
  { destruct (decide (n = 1)) as [|Hne]; [done|]. specialize (Hleast Hne).
    assert (0 < n / 2) as Hpos.
    { apply Nat.div_str_pos. destruct n as [|[|n]]; [by rewrite Hp|done|lia]. }
    pose proof (load_of_groups_pos L (n / 2) Hpos). lia. }
  exists (allocate L t 1). split; [done|].
  destruct (allocate_fresh L hash_key t 1 group_count_1 Hl) as [F Hg].
  split; [split; [by apply preserved_allocate; [done..|apply group_count_1]|apply F]|]. split; [|lia].
  unfold log_groups. rewrite Hg. apply Nat.lt_0_succ.
Qed.

(** Growing when the table is full, then inserting a new key. *)
Lemma ensure_insert_spec t k v :
  wf t → to_map t !! k = None → can_grow fuel t →
  ∃ t1 t' p, ensure_capacity L hash_key fuel t = Some t1 ∧
    insert_no_check_impl L fuel t1 (hash_key k) k v = Some (t', p) ∧
    ((wf t' ∧ (probe_bound t → probe_bound t')) ∧ to_map t' = <[k := v]> (to_map t)) ∧ holds_at t' p k v.
Proof.
  intros Hwf Hk [Hlog Hfuel]. unfold ensure_capacity.
  enough (∃ t1, (if max_load t <=? OverflowTable.len t then grow_and_rehash L hash_key fuel t else Some t) = Some t1 ∧
    wf t1 ∧ (probe_bound t → probe_bound t1) ∧ to_map t1 = to_map t ∧ OverflowTable.len t1 < max_load t1 ∧ mask t1 < fuel)
    as (t1 & Hrun1 & Hw1 & Hb1 & Hm1 & Hl1 & Hf1).
  { rewrite <- Hm1 in Hk |- *.
    destruct (insert_no_check_spec L hash_key fuel t1 k v Hw1 Hk Hl1 Hf1) as (t' & p & Hrun & I).
    exists t1, t', p. split_and!; [exact Hrun1|exact Hrun|apply I|intros ?; apply I; auto| |apply I..].
    by apply (inserted_map L hash_key t1 t' k v p). }
  destruct (Nat.leb_spec (max_load t) (OverflowTable.len t)).
  - destruct (grow_spec L hash_key fuel t Hwf Hlog Hfuel) as (t1 & Hrun & R & Hlt).
    destruct (grown_groups_ok L hash_key t Hwf Hlog) as (_ & Hle & _).
    pose proof (rh_groups _ _ _ _ _ R). exists t1.
    split_and!; [exact Hrun|apply R|intros _; apply R|by eapply rehashed_map|done|lia].
  - exists t. split_and!; try done. lia.
Qed.


Lemma all_pairs_spec t : wf t → all_pairs (into_iter_impl L t) = entries t.
Proof.
  intros Hwf. destruct (into_iter_ok L hash_key t Hwf) as [Hok Hk].
  destruct (take_pairs_spec L (S (OverflowTable.len t)) _ Hok) as [Hp _]. unfold all_pairs.
  cbn [into_table into_iter_impl]. change {| into_table := t; into_pos := _ |} with (into_iter_impl L t).
  rewrite Hp, Hk, omap_id_some, take_ge; [done|]. rewrite (wf_len _ _ _ Hwf). lia.
Qed.

#[export] Instance OverflowLaws (Hone : capacity_ok L 1) : TableLaws OverflowBackend OverflowRep hash_key.
Proof.
  split; cbn [capable rep holds bounded growable reservable shrinkable OverflowRep OverflowBackend
    api_new api_with_capacity api_len api_is_allocated api_clear api_kv api_set_kv
    api_find_by_hash api_insert_or_replace api_find_for_entry api_insert_at api_insert_no_check
    api_ensure_capacity api_remove_by_hash api_erase_slot api_reserve api_shrink_to_fit
    api_occupied_positions api_into_iter api_drain api_clone_table].
  - intros t [? ?]. split; [by apply can_grow_fuel|done].
  - destruct (new_wf L hash_key (V := V)) as (? & ? & ?). auto.
  - intros c [Hc Hg]. unfold OverflowTable.with_capacity.
    destruct (Z.eqb_spec c 0) as [|_]; [destruct (new_wf L hash_key (V := V)) as (? & ? & ?); auto|].
    destruct (allocate_fresh L hash_key (@new K V) _ Hg eq_refl) as [F _].
    split; [split; [|intros _]; apply F|by apply (fresh_map L hash_key)].
  - intros t m [[Hwf _] <-]. by rewrite (size_to_map L hash_key).
  - intros t m p k v [[Hwf _] <-]. by apply holds_lookup.
  - intros t m p q k v v' [[Hwf _] _] [Hp Hep] [Hq Heq].
    destruct p, q. apply (wf_keys _ _ _ Hwf _ _ k v v'); [..|done|done]; by apply elem_of_all_slots.
  - intros t m [[Hwf Hb] _]. destruct (clear_cases L hash_key t Hwf) as (? & ? & ?). auto.
  - intros t m p k v v' [[Hwf Hb] <-] Hh.
    destruct (set_kv_ok t p k v v' Hwf Hh) as ([Hw Hb'] & Hm & [Hmask He] & Hp & Hq). cbv zeta.
    split_and!; [done|by intros ?; apply Hb', Hb|done|apply Hp|apply Hp|exact Hq|rewrite Hmask| ].
    + intros [? ?]. auto.
    + unfold can_grow, log_groups. rewrite Hmask. intros [? ?]. auto.
  - intros t m k [[Hwf Hu] <-] [Hf Hc]. pose proof (ready_ends t Hwf Hu Hc) as He.
    destruct (find_eq_spec L hash_key fuel t k Hwf (He k) Hf) as ([[gi si]|] & Hrun & Hr);
      eexists; (split; [exact Hrun|]); [|done].
    destruct Hr as [Hr [v Hv]]. by exists v.
  - intros t m k v [[Hwf Hu] <-] [Hg Hc]. pose proof (ready_ends t Hwf Hu Hc) as He.
    destruct (insert_or_replace_ok L hash_key fuel t k v Hwf (or_intror (He k)) Hg) as (t' & old & Hrun & U).
    exists t'. rewrite Hrun, (up_old _ _ _ _ _ _ _ U). split; [done|]. destruct U. by split; [split; auto|].
  - intros t m k [[Hwf Hu] <-] [Hf Hc]. pose proof (ready_ends t Hwf Hu Hc) as He.
    destruct (find_for_entry_ok L hash_key t k Hwf fuel (He k) Hf) as (r & Hrun & Hs).
    exists r. split; [exact Hrun|]. destruct r as [gi si|[[[gi si] b]|]]; [..|done].
    + destruct Hs as [Hr [v Hv]]. by exists v.
    + destruct Hs as (Hk & Hv & Hl). split; [done|]. intros v. cbv zeta.
      pose proof (insert_at_ok L hash_key t k v gi si b Hwf Hk Hl Hv) as I.
      split; [|split; apply I]. split; [split; [by apply I|intros ?; apply I; auto]|].
      by apply (inserted_map L hash_key t _ k v (gi, si)).
  - intros t m k v [[Hwf Hu] <-] [Hg _] Hk.
    destruct (ensure_insert_spec t k v Hwf Hk Hg) as (t1 & t' & p & ? & ? & [[? ?] ?] & ?).
    exists t1, t', p. auto 10.
  - intros t m k [[Hwf Hu] <-] [Hf Hc]. pose proof (ready_ends t Hwf Hu Hc) as He.
    destruct (remove_ok L hash_key fuel t k Hwf (He k) Hf) as (t' & r & Hrun & R).
    exists t'. unfold eq_key. rewrite Hrun, (rm_result _ _ _ _ _ _ R). split; [done|].
    destruct R. by split; [split; auto|].
  - intros t m p k v [[Hwf Hb] <-] Hh. cbv zeta. split; [|intros q k1 v1; exact (erase_holds t p k v q k1 v1 Hwf Hh)].
    destruct p as [gi si]. destruct Hh as [Hr He]. cbn [fst snd] in *.
    pose proof (erase_spec L hash_key t gi si k v Hwf Hr He) as E.
    split; [split; [apply E|intros Hu; by apply (er_bound _ _ _ _ _ _ E), Hb]|].
    by apply (erased_map L hash_key _ _ _ _ Hwf E).
  - intros t m [[Hwf Hb] <-]. rewrite occupied_positions_spec by done. split_and!.
    + rewrite (occupied_slots_filter L). apply NoDup_ListNoDup, List.NoDup_filter, NoDup_ListNoDup, all_slots_NoDup.
    + intros [g s]. rewrite (occupied_slots_spec L). cbn [fst snd]. split.
      * intros [Hr Hd]. destruct (wf_slot _ _ _ Hwf g s Hr Hd) as (k & v & Hkv & _).
        exists k, v. split; [done|]. unfold OverflowInv.slot_entry. cbn [fst snd].
        by apply Z.eqb_neq in Hd as ->.
      * intros (k & v & Hr & [Hd _]%slot_entry_some). done.
    + transitivity (map_of (entries t)); [|done]. rewrite <- (occupied_kvs_entries L t).
      unfold occupied_kvs, map_of. f_equal. apply omap_ext_elem. by intros [? ?].
    + intros Hal. unfold is_allocated in Hal. apply Nat.ltb_ge in Hal.
      destruct (into_iter_ok L hash_key t Hwf) as [Hok _].
      etransitivity; [apply (io_occupied _ _ Hok)|]. apply (io_load _ _ Hok). cbn. lia.
  - intros t m [[Hwf Hb] <-]. rewrite occupied_positions_spec by done. cbn [drain_impl]. split; [|split].
    + rewrite all_pairs_spec by done. rewrite <- (occupied_kvs_entries L t). apply omap_ext_elem. by intros [? ?].
    + done.
    + destruct (new_wf L hash_key (V := V)) as (? & ? & ?). auto.
  - intros t m n [[Hwf Hu] <-] (Hn & Hc & Hg & Hf).
    destruct (reserve_ok L hash_key fuel t n Hwf Hn Hc Hg Hf) as (t' & Hrun & P & _).
    exists t'. split; [done|]. destruct P. by split; [split; auto|].
  - intros t m [[Hwf Hb] <-] [Hg _] Hal.
    destruct (reserve_first t Hone Hwf Hg Hal) as (t' & Hrun & [P Hb'] & Hg').
    exists t'. split; [done|]. destruct P. split; [by split; [split; auto|]|]. split; [done|]. intros _. by apply probe_bound_ends.
  - intros t m [[Hwf Hu] <-] [Hc Hf].
    destruct (shrink_to_fit_ok L hash_key fuel t Hwf Hc Hf) as (t' & Hrun & P & _).
    exists t'. split; [done|]. destruct P. by split; [split; auto|].
  - intros t m [[Hwf Hb] <-]. destruct (clone_cases L hash_key t Hwf) as (? & ? & ?). auto.
Qed.
End backend.

(** C9: every overflow-bit table keeps the contract of the raw-table interface, so
    that the theorems about the generic map hold over it: the operations, removal
    without tombstones included, refine those of the finite map the table
    represents.  With one overflow bit per group the step budget is the only
    condition of an operation; with eight channels every lookup must also have
    an exit, which removals may take away. *)
Theorem overflow_backend_refines (L : GroupLayout) `{!LayoutOk L} {K V : Type} `{Countable K}
    (hash_key : K → Z) (fuel : nat) :
  capacity_ok L 1 →
  TableLaws (OverflowBackend (V := V) L hash_key fuel) (OverflowRep L hash_key fuel) hash_key ∧
  ∀ t : RawTable K V, bounded (OverflowRep L hash_key fuel) t ↔
    mask t < fuel ∧ (CHANNELED (Overflow L) = true → lookups_end L hash_key t).
Proof. intros Hone. split; [exact (OverflowLaws L hash_key fuel Hone)|done]. Qed.

Lemma overflow_backend_refines_witness :
  TableLaws (OverflowBackend (V := nat) demo_layout demo_hash 64)
    (OverflowRep demo_layout demo_hash 64) demo_hash ∧
  ∀ t : RawTable nat nat, bounded (OverflowRep demo_layout demo_hash 64) t ↔
    mask t < 64 ∧ (CHANNELED (Overflow demo_layout) = true → lookups_end demo_layout demo_hash t).
Proof. apply (overflow_backend_refines demo_layout demo_hash 64). by vm_compute. Defined.
