(* ===== verification/TombMap.v ===== *)
(** * The tombstone tables as map backends

    [RawTableApi for RawTable] of [in_place_overflow/raw/mod.rs] and
    [ipo64/raw/mod.rs]: the tombstone engine offers the interface of
    [TableApi.v] and keeps its contract, so that the theorems of
    [GenericMap.v] hold for both tables. *)

From Stdlib Require Import ZArith Lia.
From S2P Require Import Prelude Probe SlotMap SlotWalk Layout.
From S2P Require Import TombTable TombInv TombWrite TombProbe TombOps TombApi TombMore.
From S2P Require Import TombSpec GenericMap.

Section backend.
Context (D : TombDesign) `{!DesignOk D} {K V : Type} `{Countable K} (hash_key : K → Z).
Context (fuel : nat).
Implicit Types t : RawTable K V.

Abbreviation wf := (wf D hash_key).
Abbreviation to_map := (to_map D).
Abbreviation kv_at := (kv_at D).
Abbreviation in_range := (in_range D).
Abbreviation slot_entry := (slot_entry D).
Abbreviation entries := (entries D).

(** [self.iter_slots().collect()]: a table has no more slots than that. *)
(*@ raw/table_api.rs : fn occupied_positions *)
Definition occupied_positions t : list (nat * nat) :=
  (take_slots D (num_groups t * T_GROUP_SIZE D) t (iter_slots D t)).1.

(** All that the owning iterator yields. *)
Definition all_pairs (it : @IntoIter K V) : list (K * V) := omap id (take_pairs D (S (TombTable.len (into_table it))) it).1.

(*@ in_place_overflow/raw/mod.rs : 1020-1240 : RawTableApi for RawTable *)
Definition TombBackend : RawTableApi (RawTable K V) K V := {|
  api_new := new;
  api_with_capacity := TombTable.with_capacity D;
  api_len := TombTable.len;
  api_capacity := TombTable.capacity D;
  api_is_allocated := is_allocated D;
  api_clear t := (TombTable.clear D t).1;
  api_kv t p := kv_at t p.1 p.2;
  api_set_kv t p kv := write_kv D t p.1 p.2 kv;
  api_find_by_hash := find_by_hash D fuel;
  api_insert_or_replace := insert_or_replace D hash_key fuel;
  api_find_for_entry := find_for_entry D fuel;
  api_insert_at t h p k v _ := insert_at D t h p.1 p.2 k v;
  api_insert_no_check := insert_no_check D fuel;
  api_ensure_capacity := ensure_capacity D hash_key fuel;
  api_remove_by_hash := remove_by_hash D fuel;
  api_erase_slot t _ p := erase_slot D t p.1 p.2;
  api_reserve := TombTable.reserve D hash_key fuel;
  api_shrink_to_fit := TombTable.shrink_to_fit D hash_key fuel;
  api_occupied_positions := occupied_positions;
  api_into_iter t := all_pairs (into_iter_impl D t);
  api_drain t := let '(it, t) := drain_impl D t in (all_pairs it, t);
  api_clone_table := clone_table D;
|}.

Definition reserve_bound t (n : Z) : Prop :=
  let needed := (Z.of_nat (TombTable.len t) + n)%Z in
  (0 <= n)%Z ∧ capacity_ok D needed ∧ group_count (Z.to_nat (groups_for_capacity D needed)) ∧
  Z.to_nat (groups_for_capacity D needed) <= fuel.

Definition TombRep : TableRep (RawTable K V) K V := {|
  capable c := capacity_ok D c ∧ group_count (Z.to_nat (groups_for_capacity D c));
  rep t m := wf t ∧ to_map t = m;
  holds t p k v := in_range t p.1 p.2 ∧ slot_entry t p = Some (k, v);
  bounded t := mask t < fuel;
  growable := can_grow fuel;
  reservable := reserve_bound;
  shrinkable t := capacity_ok D (Z.of_nat (TombTable.len t)) ∧ mask t < fuel;
|}.

Abbreviation holds_at t p k v := (in_range t p.1 p.2 ∧ slot_entry t p = Some (k, v)).

Lemma tomb_holds_lookup t p k v :
  wf t → holds_at t p k v → kv_at t p.1 p.2 = Some (k, v) ∧ to_map t !! k = Some v.
Proof.
  intros Hwf [Hr He]. destruct p as [gi si]. split; [by apply tomb_slot_entry_some in He as [_ ?]|].
  apply (tomb_to_map_lookup D hash_key t k v (wf_sound _ _ _ Hwf)). eauto.
Qed.

Lemma holds_result t p k v : holds_at t p k v → find_result D t k (Some p).
Proof. destruct p. intros [? ?]. split; [done|eauto]. Qed.

(** Changing one slot leaves the pairs of the others. *)
Lemma tomb_frame_holds t t' p q k v :
  slot_frame D t t' p → q ≠ p → holds_at t q k v → holds_at t' q k v.
Proof.
  intros F Hne [Hr He]. split; [unfold TombInv.in_range; by rewrite (fr_mask D _ _ _ F)|].
  rewrite (tomb_slot_entry_frame D t t' p q F); [done| |done].
  destruct q. by apply tomb_elem_of_all_slots.
Qed.

Lemma tomb_set_kv_ok t p k v v' :
  wf t → holds_at t p k v →
  let t' := write_kv D t p.1 p.2 (k, v') in
  wf t' ∧ to_map t' = <[k := v']> (to_map t) ∧ mask t' = mask t ∧ holds_at t' p k v' ∧
  ∀ q k1 v1, q ≠ p → holds_at t q k1 v1 → holds_at t' q k1 v1.
Proof.
  intros Hwf Hh. destruct p as [gi si]. cbn [fst snd]. pose proof Hh as [Hr He]. cbn [fst snd] in Hr.
  pose proof (holds_result t (gi, si) k v Hh) as Hf.
  pose proof (found_allocated D hash_key t k gi si Hwf Hf) as (Ha & _).
  destruct (tomb_holds_lookup t (gi, si) k v Hwf Hh) as [Hkv _]. cbn [fst snd] in Hkv.
  destruct (tomb_upserted_replace D hash_key t gi si k v' Hwf Hf) as (t1 & old & Hrun & U & Hm).
  unfold replace_value in Hrun. rewrite Hkv in Hrun. simplify_eq.
  destruct (overwrite_frame D hash_key t gi si k v v' (wf_sound _ _ _ Hwf) Ha Hr He) as [F C].
  cbv zeta. split_and!; [apply U|apply U|done| |..].
  - unfold TombInv.in_range. by rewrite (fr_mask D _ _ _ F).
  - by apply tomb_slot_content_entry in C.
  - intros q k1 v1. by apply tomb_frame_holds.
Qed.

Lemma erase_ok t p k v :
  wf t → holds_at t p k v →
  let t' := erase_slot D t p.1 p.2 in
  wf t' ∧ to_map t' = delete k (to_map t) ∧
  ∀ q k1 v1, q ≠ p → holds_at t q k1 v1 → holds_at t' q k1 v1.
Proof.
  intros Hwf Hh. destruct p as [gi si]. cbn [fst snd]. pose proof Hh as [Hr He]. cbn [fst snd] in Hr.
  pose proof (holds_result t (gi, si) k v Hh) as Hf.
  pose proof (found_allocated D hash_key t k gi si Hwf Hf) as (Ha & _).
  destruct (tomb_erase_removed D hash_key t gi si k Hwf Hf) as [Hw Hm _ _ _].
  destruct (bury_frame D hash_key t gi si (wf_sound _ _ _ Hwf) Ha Hr) as [F _].
  cbv zeta. split_and!; [done|done|]. intros q k1 v1 Hne Hq.
  exact (tomb_frame_holds _ _ _ _ _ _ F Hne Hq).
Qed.

Lemma tomb_occupied_positions_spec t : wf t → occupied_positions t = occupied_slots D t.
Proof.
  intros Hwf. unfold occupied_positions, take_slots.
  destruct (take_walk_spec (tg_mask (TG D)) (group_occupied D t) (mask t)
    (λ g, group_occupied_ok D t g (wf_bytes_ok D hash_key t Hwf))
    (num_groups t * T_GROUP_SIZE D) (iter_slots D t) (tomb_iter_slots_mask_ok D hash_key t Hwf))
    as [-> _].
  rewrite (tomb_remaining_start D hash_key t Hwf). apply take_ge.
  rewrite (tomb_occupied_slots_filter D) by exact (wf_bytes_ok D hash_key t Hwf).
  etransitivity; [apply filter_length_le|]. unfold all_slots, num_groups. by rewrite slot_list_length.
Qed.

(** The first allocation, [reserve(1)], takes one group. *)
Lemma tomb_reserve_first t :
  capacity_ok D 1 → wf t → can_grow fuel t → is_allocated D t = false →
  ∃ t', TombTable.reserve D hash_key fuel t 1 = Some (inl t') ∧ wf t' ∧ to_map t' = to_map t ∧
    can_grow fuel t'.
Proof.
  intros Hc Hwf [_ Hf] Hal. pose proof design_gs as Hgs.
  pose proof (not_allocated D hash_key t Hwf Hal) as Hu.
  destruct (tomb_unallocated_len D hash_key t Hwf Hu) as [Hl Hm].
  unfold TombTable.reserve. rewrite Hl, Hal. cbn [negb]. cbn [Z.of_nat]. rewrite Z.add_0_l. cbn -[allocate groups_for_capacity].
  destruct (tomb_groups_for_capacity_spec D 1 Hc) as (Hp & _ & Hleast).
  set (n := Z.to_nat (groups_for_capacity D 1)) in *.
  assert (n = 1) as ->.
  { destruct (decide (n = 1)) as [|Hne]; [done|]. specialize (Hleast Hne).
    assert (0 < n / 2) as Hpos.
    { apply Nat.div_str_pos. destruct n as [|[|n]]; [by rewrite Hp|done|lia]. }
    pose proof (tomb_load_of_groups_pos D (n / 2) Hpos). lia. }
  pose proof (tomb_allocate_fresh D hash_key t 1 group_count_1 Hl) as F.
  exists (allocate D t 1). split; [done|]. split; [apply F|].
  split; [by rewrite Hm, (tomb_fresh_map D hash_key _ _ F)|].
  pose proof (fresh_groups _ _ _ _ F) as Hg. split; [|lia].
  unfold log_groups. rewrite Hg. apply Nat.lt_0_succ.
Qed.

Lemma tomb_all_pairs_spec t : wf t → all_pairs (into_iter_impl D t) = entries t.
Proof.
  intros Hwf. destruct (tomb_into_iter_ok D hash_key t Hwf) as [Hok Hk].
  destruct (tomb_take_pairs_spec D (S (TombTable.len t)) _ Hok) as [Hp _]. unfold all_pairs.
  cbn [into_table into_iter_impl]. change {| into_table := t; into_pos := _ |} with (into_iter_impl D t).
  rewrite Hp, Hk, omap_id_some, take_ge; [done|]. rewrite (wf_len _ _ _ Hwf). lia.
Qed.

#[export] Instance TombLaws (Hone : capacity_ok D 1) : TableLaws TombBackend TombRep hash_key.
Proof.
  split; cbn [capable rep holds bounded growable reservable shrinkable TombRep TombBackend
    api_new api_with_capacity api_len api_is_allocated api_clear api_kv api_set_kv
    api_find_by_hash api_insert_or_replace api_find_for_entry api_insert_at api_insert_no_check
    api_ensure_capacity api_remove_by_hash api_erase_slot api_reserve api_shrink_to_fit
    api_occupied_positions api_into_iter api_drain api_clone_table].
  - intros t. apply tomb_can_grow_fuel.
  - apply (tomb_new_wf D hash_key).
  - intros c [Hc Hg]. unfold TombTable.with_capacity.
    destruct (Z.eqb_spec c 0) as [|_]; [apply (tomb_new_wf D hash_key)|].
    pose proof (tomb_allocate_fresh D hash_key (@new K V) _ Hg eq_refl) as F.
    split; [apply F|by eapply tomb_fresh_map].
  - intros t m [Hwf <-]. by rewrite (tomb_size_to_map D hash_key).
  - intros t m p k v [Hwf <-]. by apply tomb_holds_lookup.
  - intros t m p q k v v' [Hwf _] [Hp Hep] [Hq Heq].
    destruct p, q. apply (sd_unique _ _ _ (wf_sound _ _ _ Hwf) _ _ k v v'); [..|done|done];
      by apply tomb_elem_of_all_slots.
  - intros t m [Hwf _]. by apply tomb_clear_cases.
  - intros t m p k v v' [Hwf <-] Hh.
    destruct (tomb_set_kv_ok t p k v v' Hwf Hh) as (Hw & Hm & Hmask & Hp & Hq). cbv zeta.
    split_and!; [done|done|apply Hp|apply Hp|exact Hq|by rewrite Hmask|].
    unfold can_grow, log_groups. by rewrite Hmask.
  - intros t m k [Hwf <-] Hf.
    destruct (find_spec D hash_key fuel t k Hwf Hf) as ([[gi si]|] & Hrun & Hr);
      eexists; (split; [exact Hrun|]); [|done].
    destruct Hr as [Hr [v He]]. by exists v.
  - intros t m k v [Hwf <-] Hg.
    destruct (tomb_insert_or_replace_ok D hash_key fuel t k v Hwf Hg) as (t' & old & Hrun & U).
    exists t'. rewrite Hrun, (up_old _ _ _ _ _ _ _ U). split; [done|]. split; apply U.
  - intros t m k [Hwf <-] Hf.
    destruct (tomb_find_for_entry_ok D hash_key fuel t k Hwf Hf) as (r & Hrun & Hs).
    exists r. split; [exact Hrun|]. destruct r as [gi si|[[[gi si] b]|]].
    + destruct Hs as [Hr [v He]]. by exists v.
    + destruct Hs as (Hk & Hav & Hg). split; [done|]. intros v. cbv zeta.
      pose proof (insert_at_spec D hash_key t k v gi si Hwf
        (growth_allocated D hash_key t Hwf Hg) Hav Hk Hg) as I.
      split; (split; [apply I|apply I]).
    + apply Hs.
  - intros t m k v [Hwf <-] Hg Hk.
    destruct (grow_insert_spec D hash_key fuel t k v Hwf Hk Hg) as (t' & p & Hrun & U & He & Hr).
    unfold ensure_capacity.
    destruct (if growth_left t =? 0 then _ else _) as [t1|]; [|done]. exists t1, t', p.
    split; [done|]. split; [exact Hrun|]. split; [split; apply U|]. done.
  - intros t m k [Hwf <-] Hf.
    destruct (remove_by_hash_ok D hash_key fuel t k Hwf Hf) as (t' & r & Hrun & R).
    exists t'. unfold eq_key. rewrite Hrun, (rm_result _ _ _ _ _ _ R). split; [done|]. split; apply R.
  - intros t m p k v [Hwf <-] Hh. destruct (erase_ok t p k v Hwf Hh) as (Hw & Hm & Hq). by cbv zeta.
  - intros t m [Hwf <-]. rewrite tomb_occupied_positions_spec by done. split_and!.
    + rewrite (tomb_occupied_slots_filter D) by exact (wf_bytes_ok D hash_key t Hwf).
      apply NoDup_ListNoDup, List.NoDup_filter, NoDup_ListNoDup, tomb_all_slots_NoDup.
    + intros [g s]. rewrite (tomb_occupied_slots_spec D hash_key) by done. cbn [fst snd]. split.
      * intros [Hr Hd]. destruct (sd_slot _ _ _ (wf_sound _ _ _ Hwf) g s Hr Hd) as (k & v & Hkv & _).
        exists k, v. split; [done|]. unfold TombInv.slot_entry. cbn [fst snd]. by rewrite Hd.
      * intros (k & v & Hr & [Hd _]%tomb_slot_entry_some). done.
    + transitivity (list_to_map (M := gmap K V) (entries t)); [|done].
      rewrite <- (tomb_occupied_kvs_entries D hash_key t) by apply Hwf. unfold occupied_kvs. f_equal.
      apply omap_ext_elem. by intros [? ?].
    + intros Hal. apply (unallocated_slots D hash_key t Hwf). by apply (not_allocated D hash_key).
  - intros t m [Hwf <-]. rewrite tomb_occupied_positions_spec by done. cbn [drain_impl]. split; [|split].
    + rewrite tomb_all_pairs_spec by done. rewrite <- (tomb_occupied_kvs_entries D hash_key t) by apply Hwf.
      apply omap_ext_elem. by intros [? ?].
    + done.
    + apply (tomb_new_wf D hash_key).
  - intros t m n [Hwf <-] (Hn & Hc & Hg & Hf).
    destruct (tomb_reserve_ok D hash_key fuel t n Hwf Hn Hc Hg Hf) as (t' & Hrun & P & _).
    exists t'. split; [done|]. split; apply P.
  - intros t m [Hwf <-] Hg Hal.
    destruct (tomb_reserve_first t Hone Hwf Hg Hal) as (t' & Hrun & Hw & Hm & Hg').
    by exists t'.
  - intros t m [Hwf <-] [Hc Hf].
    destruct (tomb_shrink_to_fit_ok D hash_key fuel t Hwf Hc Hf) as (t' & Hrun & P & _).
    exists t'. split; [done|]. split; apply P.
  - intros t m [Hwf <-]. destruct (tomb_clone_cases D hash_key t Hwf) as [Hw He].
    split; [done|by apply entries_map].
Qed.
End backend.

(** Both tombstone tables keep the contract of the raw-table interface, so
    that the theorems about the generic map hold over them: the operations,
    each with its guards and fallbacks, refine those of the finite map the
    table represents. *)
Theorem tomb_backend_refines (D : TombDesign) `{!DesignOk D} {K V : Type} `{Countable K}
    (hash_key : K → Z) (fuel : nat) :
  capacity_ok D 1 →
  TableLaws (TombBackend (V := V) D hash_key fuel) (TombRep D hash_key fuel) hash_key.
Proof. exact (TombLaws D hash_key fuel). Qed.

(** ** The map theorems at work

    The generic map over the in-place-overflow table [tomb_table]. *)

Definition tomb_backend : RawTableApi (RawTable nat nat) nat nat :=
  TombBackend tomb_design tomb_hash 64.

Definition tomb_rep : TableRep (RawTable nat nat) nat nat := TombRep tomb_design tomb_hash 64.

#[export] Instance tomb_backend_laws : TableLaws tomb_backend tomb_rep tomb_hash.
Proof. apply (TombLaws tomb_design tomb_hash 64). by vm_compute. Qed.

Lemma tomb_table_rep : rep tomb_rep tomb_table tomb_map.
Proof. exact (tomb_reachable_invariant _ _ _ _ _ tomb_reachable). Qed.

Lemma map_operations_correct_witness :
  get tomb_backend tomb_hash tomb_table 17 = Some (tomb_map !! 17) ∧
  contains_key tomb_backend tomb_hash tomb_table 17 = Some (bool_decide (is_Some (tomb_map !! 17))) ∧
  index tomb_backend tomb_hash tomb_table 17 =
    Some (match tomb_map !! 17 with Some v => inl v | None => inr NoEntryFound end) ∧
  get_key_value tomb_backend tomb_hash tomb_table 17 = Some (pair 17 <$> tomb_map !! 17) ∧
  (∃ t', insert tomb_backend tomb_table 17 5 = Some (t', tomb_map !! 17) ∧
     rep tomb_rep t' (<[17 := 5]> tomb_map)) ∧
  (∃ t', remove tomb_backend tomb_hash tomb_table 17 = Some (t', tomb_map !! 17) ∧
     rep tomb_rep t' (delete 17 tomb_map)) ∧
  (∃ t', remove_entry tomb_backend tomb_hash tomb_table 17 = Some (t', pair 17 <$> tomb_map !! 17) ∧
     rep tomb_rep t' (delete 17 tomb_map)).
Proof.
  apply (map_operations_correct tomb_backend tomb_hash tomb_rep tomb_table tomb_map 17 5).
  - apply tomb_table_rep.
  - split; vm_compute; lia.
Defined.

Lemma entry_correct_witness :
  let m := tomb_map in
  (∃ t' e t'' p, entry tomb_backend tomb_hash tomb_table 4 = Some (inl (t', e)) ∧
     or_insert tomb_backend t' e 9 = Some (t'', p) ∧
     rep tomb_rep t'' (<[4 := default 9 (m !! 4)]> m) ∧
     holds tomb_rep t'' p 4 (default 9 (m !! 4))) ∧
  (∃ t' e, entry tomb_backend tomb_hash tomb_table 4 = Some (inl (t', e)) ∧
     rep tomb_rep (and_modify tomb_backend t' e S).1 (alter S 4 m)) ∧
  (∃ t', try_insert tomb_backend tomb_hash tomb_table 4 9 =
       Some (inl (t', bool_decide (m !! 4 = None))) ∧
     rep tomb_rep t' (<[4 := default 9 (m !! 4)]> m)).
Proof.
  apply (entry_correct tomb_backend tomb_hash tomb_rep tomb_table tomb_map 4 9 S).
  - apply tomb_table_rep.
  - split; vm_compute; lia.
Defined.

Lemma retain_correct_witness :
  let iter_t := iter tomb_backend tomb_table in
  list_to_map iter_t = tomb_map ∧ NoDup iter_t.*1 ∧
  (∀ St (s : St) (f : St → nat → nat → St * nat * bool),
     (retain tomb_backend tomb_hash tomb_table s f).1 = (retained f iter_t s tomb_map).1 ∧
     rep tomb_rep (retain tomb_backend tomb_hash tomb_table s f).2 (retained f iter_t s tomb_map).2) ∧
  (∀ f : nat → nat → nat * bool,
     rep tomb_rep
       (retain tomb_backend tomb_hash tomb_table ()
          (λ s k v, let '(v', keep) := f k v in (s, v', keep))).2
       (map_imap (λ k v, let '(v', keep) := f k v in if keep : bool then Some v' else None) tomb_map)).
Proof.
  apply (retain_correct tomb_backend tomb_hash tomb_rep tomb_table tomb_map). apply tomb_table_rep.
Defined.

Lemma eq_map_correct_witness :
  eq_map tomb_backend tomb_hash tomb_table tomb_table = Some (bool_decide (tomb_map = tomb_map)) ∧
  rep tomb_rep (api_clone_table tomb_backend tomb_table) tomb_map.
Proof.
  apply (eq_map_correct tomb_backend tomb_hash tomb_rep tomb_table tomb_map tomb_table tomb_map);
    [apply tomb_table_rep|apply tomb_table_rep|vm_compute; lia|vm_compute; lia].
Defined.

Lemma from_iter_correct_witness :
  let kvs := [(1, 5); (17, 6); (1, 7)] in
  (∃ t', from_iter tomb_backend 2 kvs = Some t' ∧ rep tomb_rep t' (list_to_map (reverse kvs))) ∧
  ∀ t m, rep tomb_rep t m → extendable tomb_backend tomb_rep t kvs →
    ∃ t', extend tomb_backend t kvs = Some t' ∧ rep tomb_rep t' (list_to_map (reverse kvs) ∪ m).
Proof.
  apply (from_iter_correct tomb_backend tomb_hash tomb_rep 2 [(1, 5); (17, 6); (1, 7)]).
  - split; [split; vm_compute; congruence|]. split; [vm_compute; reflexivity|vm_compute; lia].
  - vm_compute. lia.
Defined.

Lemma tomb_backend_refines_witness :
  TableLaws (TombBackend (V := nat) tomb_design tomb_hash 64) (TombRep tomb_design tomb_hash 64) tomb_hash.
Proof. apply (tomb_backend_refines tomb_design tomb_hash 64). by vm_compute. Defined.
