(* ===== verification/MapApi.v ===== *)
(** * The interface of the maps

    [traits.rs]: the operations every map of the crate offers, hash tables and
    the B+ tree alike, and the contract that the adaptive map and the sets rely on.
    [None] stands for an operation without a defined result (a probe loop
    outside the step budget, a failed assertion, a read of a node that is not
    there). *)

From Stdlib Require Import ZArith.
From S2P Require Import Prelude TableApi BinSearch SortedAssoc.

(** [S]: the hasher a new map is given; [E]: entries; [P]: references to values,
    as the places they point to.  A client of [map_iter_mut] replaces each value;
    the iterators of [map_into_iter] and [map_drain] are run to their end. *)
(*@ traits.rs : pub trait HashedMap<K *)
Record MapApi (S M E P K V : Type) := {
  map_new : S → option M;
  map_with_capacity : S → Z → option M;
  map_len : M → nat;
  map_capacity : M → nat;
  map_clear : M → option M;
  map_insert : M → K → V → option (M * option V);
  map_get : M → K → option (option V);
  map_get_key_value : M → K → option (option (K * V));
  map_get_mut : M → K → option (option P);
  map_contains_key : M → K → option bool;
  map_remove : M → K → option (M * option V);
  map_remove_entry : M → K → option (M * option (K * V));
  map_entry : M → K → option ((M * E) + Panic);
  map_entry_key : E → K;
  map_or_insert : M → E → V → option (M * P);
  map_and_modify : M → E → (V → V) → option (M * E);
  map_try_insert : M → K → V → option ((M * option (K * V)) + Panic);
  map_iter : M → option (list (K * V));
  map_iter_mut : (K → V → V) → M → option M;
  map_into_iter : M → option (list (K * V));
  map_drain : M → option (list (K * V) * M);
  map_retain : ∀ St, M → St → (St → K → V → St * V * bool) → option (St * M);
  map_reserve : M → Z → option (M + Panic);
  map_shrink_to_fit : M → option M;
  map_clone : M → option M;
}.
Arguments map_new {S M E P K V}.
Arguments map_with_capacity {S M E P K V}.
Arguments map_len {S M E P K V}.
Arguments map_capacity {S M E P K V}.
Arguments map_clear {S M E P K V}.
Arguments map_insert {S M E P K V}.
Arguments map_get {S M E P K V}.
Arguments map_get_key_value {S M E P K V}.
Arguments map_get_mut {S M E P K V}.
Arguments map_contains_key {S M E P K V}.
Arguments map_remove {S M E P K V}.
Arguments map_remove_entry {S M E P K V}.
Arguments map_entry {S M E P K V}.
Arguments map_entry_key {S M E P K V}.
Arguments map_or_insert {S M E P K V}.
Arguments map_and_modify {S M E P K V}.
Arguments map_try_insert {S M E P K V}.
Arguments map_iter {S M E P K V}.
Arguments map_iter_mut {S M E P K V}.
Arguments map_into_iter {S M E P K V}.
Arguments map_drain {S M E P K V}.
Arguments map_retain {S M E P K V} _ {St}.
Arguments map_reserve {S M E P K V}.
Arguments map_shrink_to_fit {S M E P K V}.
Arguments map_clone {S M E P K V}.

(** [mrep t m]: the map [t] represents [m]; [mplace t p k v]: place [p] of [t] holds
    the value [v] of key [k].  [mready t]: a lookup of [t] returns, because it is
    within the budget and, in a table with eight overflow channels, has an exit;
    [mgrowable t]: so does an insertion, with the growth it may need;
    [mcapable c]: a map for [c] entries can be allocated; [mreservable],
    [mshrinkable]: what [reserve] and [shrink_to_fit] need. *)
Record MapRep (M P K V : Type) `{Countable K} := {
  mrep : M → gmap K V → Prop;
  mplace : M → P → K → V → Prop;
  mready : M → Prop;
  mgrowable : M → Prop;
  mcapable : Z → Prop;
  mreservable : M → Z → Prop;
  mshrinkable : M → Prop;
}.
Arguments mrep {M P K V _ _}.
Arguments mplace {M P K V _ _}.
Arguments mready {M P K V _ _}.
Arguments mgrowable {M P K V _ _}.
Arguments mcapable {M P K V _ _}.
Arguments mreservable {M P K V _ _}.
Arguments mshrinkable {M P K V _ _}.

(** The list enumerates the map, each key once. *)
Definition enumerates {K V} `{Countable K} (l : list (K * V)) (m : gmap K V) : Prop :=
  NoDup l.*1 ∧ list_to_map l = m.

(** The value kept by [or_insert]. *)
Definition with_default {K V} `{Countable K} (m : gmap K V) (k : K) (v : V) : gmap K V :=
  <[k := default v (m !! k)]> m.

Class MapLaws {S M E P K V : Type} `{Countable K} (A : MapApi S M E P K V) (R : MapRep M P K V) := {
  ml_ready t : mgrowable R t → mready R t;
  ml_new s : ∃ t, map_new A s = Some t ∧ mrep R t ∅;
  ml_with_capacity s c : mcapable R c → ∃ t, map_with_capacity A s c = Some t ∧ mrep R t ∅;
  ml_len t m : mrep R t m → map_len A t = size m;
  ml_clear t m : mrep R t m → ∃ t', map_clear A t = Some t' ∧ mrep R t' ∅;
  ml_insert t m k v : mrep R t m → mgrowable R t →
    ∃ t', map_insert A t k v = Some (t', m !! k) ∧ mrep R t' (<[k := v]> m);
  ml_get t m k : mrep R t m → mready R t → map_get A t k = Some (m !! k);
  ml_get_key_value t m k : mrep R t m → mready R t → map_get_key_value A t k = Some (pair k <$> m !! k);
  ml_contains_key t m k : mrep R t m → mready R t →
    map_contains_key A t k = Some (bool_decide (is_Some (m !! k)));
  ml_get_mut t m k : mrep R t m → mready R t →
    ∃ r, map_get_mut A t k = Some r ∧
      match r with Some p => ∃ v, m !! k = Some v ∧ mplace R t p k v | None => m !! k = None end;
  ml_remove t m k : mrep R t m → mready R t →
    ∃ t', map_remove A t k = Some (t', m !! k) ∧ mrep R t' (delete k m);
  ml_remove_entry t m k : mrep R t m → mready R t →
    ∃ t', map_remove_entry A t k = Some (t', pair k <$> m !! k) ∧ mrep R t' (delete k m);
  ml_entry t m k v f : mrep R t m → mgrowable R t →
    ∃ t' e, map_entry A t k = Some (inl (t', e)) ∧ mrep R t' m ∧ map_entry_key A e = k ∧
      (∃ t'' p, map_or_insert A t' e v = Some (t'', p) ∧ mrep R t'' (with_default m k v) ∧
         mplace R t'' p k (default v (m !! k))) ∧
      (∃ t'' e', map_and_modify A t' e f = Some (t'', e') ∧ mrep R t'' (alter f k m));
  ml_try_insert t m k v : mrep R t m → mgrowable R t →
    ∃ t', map_try_insert A t k v = Some (inl (t', if m !! k then Some (k, v) else None)) ∧
      mrep R t' (with_default m k v);
  ml_iter t m : mrep R t m → ∃ l, map_iter A t = Some l ∧ enumerates l m;
  ml_iter_mut t m f : mrep R t m →
    ∃ t', map_iter_mut A f t = Some t' ∧ mrep R t' (map_imap (λ k v, Some (f k v)) m);
  ml_into_iter t m : mrep R t m → ∃ l, map_into_iter A t = Some l ∧ enumerates l m;
  ml_drain t m : mrep R t m → ∃ l t', map_drain A t = Some (l, t') ∧ enumerates l m ∧ mrep R t' ∅;
  ml_retain St t m (s : St) f : mrep R t m →
    ∃ l t', enumerates l m ∧ map_retain A t s f = Some ((retained f l s m).1, t') ∧
      mrep R t' (retained f l s m).2;
  ml_reserve t m n : mrep R t m → mreservable R t n → ∃ t', map_reserve A t n = Some (inl t') ∧ mrep R t' m;
  ml_shrink t m : mrep R t m → mshrinkable R t → ∃ t', map_shrink_to_fit A t = Some t' ∧ mrep R t' m;
  ml_clone t m : mrep R t m → ∃ t', map_clone A t = Some t' ∧ mrep R t' m;
}.

(** ** Sorted maps *)

(** What a map whose keys are ordered offers besides: the ends, the entries in key
    order, ranges, splitting and appending. *)
(*@ traits.rs : 377-422 : SortedMap *)
Record SortedApi (M K V : Type) := {
  sorted_first_key_value : M → option (option (K * V));
  sorted_last_key_value : M → option (option (K * V));
  sorted_pop_first : M → option (M * option (K * V));
  sorted_pop_last : M → option (M * option (K * V));
  sorted_iter : M → option (list (K * V));
  sorted_range : M → Bound K → Bound K → option (list (K * V));
  sorted_split_off : M → K → option (M * M);
  sorted_append : M → M → option (M * M);
}.
Arguments sorted_first_key_value {M K V}.
Arguments sorted_last_key_value {M K V}.
Arguments sorted_pop_first {M K V}.
Arguments sorted_pop_last {M K V}.
Arguments sorted_iter {M K V}.
Arguments sorted_range {M K V}.
Arguments sorted_split_off {M K V}.
Arguments sorted_append {M K V}.

(** [srange t]: ranges of [t] have a defined result; [ssplit t k], [sjoin t t']:
    so have splitting [t] at [k] and appending [t'] to [t]. *)
Record SortedRep (M K : Type) := {
  srange : M → Prop;
  ssplit : M → K → Prop;
  sjoin : M → M → Prop;
}.
Arguments srange {M K}.
Arguments ssplit {M K}.
Arguments sjoin {M K}.

(** The entries of a map in key order. *)
Definition in_order {K V} `{OrdLaws K} `{Countable K} (l : list (K * V)) (m : gmap K V) : Prop :=
  sorted_map l ∧ list_to_map l = m.

Class SortedLaws {M P K V : Type} `{OrdLaws K} `{Countable K} (B : SortedApi M K V) (R : MapRep M P K V)
    (O : SortedRep M K) := {
  sl_iter t m : mrep R t m → ∃ l, sorted_iter B t = Some l ∧ in_order l m;
  sl_ends t m l : mrep R t m → in_order l m →
    sorted_first_key_value B t = Some (head l) ∧ sorted_last_key_value B t = Some (last l);
  sl_pops t m l : mrep R t m → in_order l m →
    (∃ t', sorted_pop_first B t = Some (t', head l) ∧ mrep R t' (list_to_map (tail l))) ∧
    (∃ t', sorted_pop_last B t = Some (t', last l) ∧ mrep R t' (list_to_map (removelast l)));
  sl_range t m l sb eb : mrep R t m → in_order l m → srange O t → bounds_ordered sb eb →
    sorted_range B t sb eb = Some (List.filter (λ e, in_bounds sb eb e.1) l);
  sl_split t m l k : mrep R t m → in_order l m → ssplit O t k →
    ∃ t' u, sorted_split_off B t k = Some (t', u) ∧
      mrep R t' (list_to_map (sm_to l k)) ∧ mrep R u (list_to_map (sm_from l k));
  sl_append t m u m2 : mrep R t m → mrep R u m2 → sjoin O t u →
    ∃ t' u', sorted_append B t u = Some (t', u') ∧ mrep R t' (m2 ∪ m) ∧ mrep R u' ∅;
}.

(** ** Inserting many *)

Section many.
Context {S M E P K V : Type} `{Countable K} (A : MapApi S M E P K V) (R : MapRep M P K V) `{!MapLaws A R}.
Implicit Types (t : M) (kvs : list (K * V)) (m : gmap K V).

(** [for (k, v) in kvs { map.insert(k, v); }] *)
Fixpoint map_insert_all t kvs : option M :=
  match kvs with
  | [] => Some t
  | (k, v) :: kvs' => do ' (t, _) <- map_insert A t k v; map_insert_all t kvs'
  end.

(** The budget and the allocator cover all the insertions. *)
Fixpoint insertable t kvs : Prop :=
  match kvs with
  | [] => True
  | (k, v) :: kvs' =>
      mgrowable R t ∧ match map_insert A t k v with Some (t', _) => insertable t' kvs' | None => True end
  end.

Definition inserted_all m kvs : gmap K V := foldl (λ m kv, <[kv.1 := kv.2]> m) m kvs.

Lemma map_insert_all_ok t m kvs :
  mrep R t m → insertable t kvs → ∃ t', map_insert_all t kvs = Some t' ∧ mrep R t' (inserted_all m kvs).
Proof using MapLaws0.
  revert t m. induction kvs as [|[k v] kvs IH]; intros t m Hr Hi; [by exists t|].
  destruct Hi as [Hg Hi]. destruct (ml_insert t m k v Hr Hg) as (t1 & Hrun & Hr1).
  cbn [map_insert_all]. rewrite Hrun in Hi |- *. by apply IH.
Qed.

Lemma inserted_all_union m kvs : inserted_all m kvs = list_to_map (reverse kvs) ∪ m.
Proof using Type.
  unfold inserted_all. revert m. induction kvs as [|[k v] kvs IH] using rev_ind; intros m.
  - by rewrite reverse_nil, list_to_map_nil, (left_id_L ∅ (∪)).
  - rewrite foldl_app, reverse_snoc. simpl. by rewrite IH, insert_union_l.
Qed.

(** Inserting the pairs of a map in any order. *)
Lemma inserted_all_enumerates m m' kvs : enumerates kvs m → inserted_all m' kvs = m ∪ m'.
Proof using Type.
  intros [Hn <-]. rewrite inserted_all_union. f_equal. apply list_to_map_proper; [|by rewrite reverse_Permutation].
  by rewrite fmap_reverse, reverse_Permutation.
Qed.
End many.
