(* ===== verification/GenericSet.v ===== *)
(** * Sets over maps

    [generic_set.rs]: a set is a map to the unit type.  The operations are
    written against the map interface of [MapApi.v] and proved against its
    contract, so that they hold for every map of the crate, and between sets over
    different maps where the code allows it. *)

From Stdlib Require Import ZArith Lia.
From S2P Require Import Prelude TableApi MapApi SortedAssoc.

(** The set is its map; the marker of the element type holds no data. *)
(*@ generic_set.rs : pub struct GenericSet< *)
Definition GenericSet (M : Type) : Type := M.

(** [items.all(f)] *)
Fixpoint all_items {T} (f : T → option bool) (items : list T) : option bool :=
  match items with
  | [] => Some true
  | v :: items' => do b <- f v; if b : bool then all_items f items' else Some false
  end.

Section set.
Context {S M E P T : Type} (A : MapApi S M E P T unit).
Implicit Types (t : GenericSet M) (hb : S) (value : T).

(*@ generic_set.rs : pub fn new( *)
Definition new hb : option (GenericSet M) := map_new A hb.

(*@ generic_set.rs : pub fn with_capacity( *)
Definition with_capacity hb (capacity : Z) : option (GenericSet M) := map_with_capacity A hb capacity.

(*@ generic_set.rs : pub fn insert *)
Definition insert t value : option (GenericSet M * bool) :=
  do ' (t, r) <- map_insert A t value (); Some (t, match r with None => true | Some _ => false end).

(*@ generic_set.rs : pub fn contains *)
Definition contains t value : option bool :=
  do r <- map_get A t value; Some (match r with Some _ => true | None => false end).

(*@ generic_set.rs : pub fn get< *)
Definition get t value : option (option T) := do r <- map_get_key_value A t value; Some (fst <$> r).

(*@ generic_set.rs : pub fn remove *)
Definition remove t value : option (GenericSet M * bool) :=
  do ' (t, r) <- map_remove A t value; Some (t, match r with Some _ => true | None => false end).

(*@ generic_set.rs : pub fn take< *)
Definition take t value : option (GenericSet M * option T) :=
  do ' (t, r) <- map_remove_entry A t value; Some (t, fst <$> r).

(*@ generic_set.rs : pub fn len( *)
Definition len t : nat := map_len A t.

(*@ generic_set.rs : pub fn is_empty( *)
Definition is_empty t : bool := map_len A t =? 0.

(*@ generic_set.rs : pub fn capacity( *)
Definition capacity t : nat := map_capacity A t.

(*@ generic_set.rs : pub fn clear( *)
Definition clear t : option (GenericSet M) := map_clear A t.

(*@ generic_set.rs : pub fn reserve( *)
Definition reserve t (additional : Z) : option (GenericSet M + Panic) := map_reserve A t additional.

(*@ generic_set.rs : pub fn shrink_to_fit( *)
Definition shrink_to_fit t : option (GenericSet M) := map_shrink_to_fit A t.

(*@ generic_set.rs : pub fn iter( *)
Definition iter t : option (list T) := do l <- map_iter A t; Some l.*1.

(** The closure may change its own state. *)
(*@ generic_set.rs : pub fn retain< *)
Definition retain {St} t (s : St) (f : St → T → St * bool) : option (St * GenericSet M) :=
  map_retain A t s (λ s k _, let '(s, keep) := f s k in (s, (), keep)).

(*@ generic_set.rs : pub fn drain( *)
Definition drain t : option (list T * GenericSet M) := do ' (l, t) <- map_drain A t; Some (l.*1, t).

(*@ generic_set.rs : fn into_iter( *)
Definition into_iter t : option (list T) := do ' (l, _) <- map_drain A t; Some l.*1.

(*@ generic_set.rs : fn clone( *)
Definition clone t : option (GenericSet M) := map_clone A t.

(*@ generic_set.rs : fn extend< *)
Fixpoint extend t (items : list T) : option (GenericSet M) :=
  match items with
  | [] => Some t
  | item :: items' => do ' (t, _) <- insert t item; extend t items'
  end.

(** [lower]: the lower bound of the iterator's size. *)
(*@ generic_set.rs : fn from_iter *)
Definition from_iter hb (lower : Z) (items : list T) : option (GenericSet M) :=
  do t <- with_capacity hb lower; extend t items.

(** [for item in items { if cond(item) { result.insert(item.clone()); } }] *)
Fixpoint insert_if (cond : T → option bool) (items : list T) (result : GenericSet M) : option (GenericSet M) :=
  match items with
  | [] => Some result
  | item :: items' =>
      do b <- cond item;
      if b : bool then do ' (result, _) <- insert result item; insert_if cond items' result
      else insert_if cond items' result
  end.
End set.

Definition not {T} (f : T → option bool) (v : T) : option bool := do b <- f v; Some (negb b).

(** ** Set algebra, between sets over two maps *)

Section algebra.
Context {S M E P S2 M2 E2 P2 T : Type} (A : MapApi S M E P T unit) (A2 : MapApi S2 M2 E2 P2 T unit).
Implicit Types (t : GenericSet M) (other : GenericSet M2) (hb : S).

(*@ generic_set.rs : pub fn is_disjoint *)
Definition is_disjoint t other : option bool :=
  if len A t <=? len A2 other then do l <- iter A t; all_items (not (contains A2 other)) l
  else do l <- iter A2 other; all_items (not (contains A t)) l.

(*@ generic_set.rs : pub fn is_subset *)
Definition is_subset t other : option bool :=
  if len A2 other <? len A t then Some false
  else do l <- iter A t; all_items (contains A2 other) l.

(*@ generic_set.rs : pub fn intersection *)
Definition intersection hb t other : option (GenericSet M) :=
  do result <- new A hb;
  if len A t <=? len A2 other then do l <- iter A t; insert_if A (contains A2 other) l result
  else do l <- iter A2 other; insert_if A (contains A t) l result.

(*@ generic_set.rs : pub fn difference *)
Definition difference hb t other : option (GenericSet M) :=
  do result <- new A hb;
  do l <- iter A t; insert_if A (not (contains A2 other)) l result.
End algebra.

(*@ generic_set.rs : pub fn is_superset *)
Definition is_superset {S M E P S2 M2 E2 P2 T} (A : MapApi S M E P T unit) (A2 : MapApi S2 M2 E2 P2 T unit)
    (t : GenericSet M) (other : GenericSet M2) : option bool :=
  is_subset A2 A other t.

Section same.
Context {S M E P T : Type} (A : MapApi S M E P T unit).
Implicit Types (t other : GenericSet M) (hb : S).

(*@ generic_set.rs : pub fn union *)
Definition union hb t other : option (GenericSet M) :=
  do result <- with_capacity A hb (Z.of_nat (len A t + len A other));
  do l <- iter A t;
  do result <- extend A result l;
  do l <- iter A other;
  extend A result l.

(*@ generic_set.rs : pub fn symmetric_difference *)
Definition symmetric_difference hb t other : option (GenericSet M) :=
  do result <- new A hb;
  do l <- iter A t;
  do result <- insert_if A (not (contains A other)) l result;
  do l <- iter A other;
  insert_if A (not (contains A t)) l result.

(*@ generic_set.rs : fn eq(&self *)
Definition eq_set t other : option bool :=
  if negb (len A t =? len A other) then Some false
  else do l <- iter A t; all_items (contains A other) l.
End same.

(** ** Sets over sorted maps *)

Section sorted.
Context {M T : Type} (B : SortedApi M T unit).
Implicit Types (t other : GenericSet M).

(*@ generic_set.rs : pub fn first( *)
Definition first t : option (option T) := do r <- sorted_first_key_value B t; Some (fst <$> r).

(*@ generic_set.rs : pub fn last( *)
Definition last t : option (option T) := do r <- sorted_last_key_value B t; Some (fst <$> r).

(*@ generic_set.rs : pub fn pop_first( *)
Definition pop_first t : option (GenericSet M * option T) := do ' (t, r) <- sorted_pop_first B t; Some (t, fst <$> r).

(*@ generic_set.rs : pub fn pop_last( *)
Definition pop_last t : option (GenericSet M * option T) := do ' (t, r) <- sorted_pop_last B t; Some (t, fst <$> r).

(*@ generic_set.rs : pub fn iter_sorted( *)
Definition iter_sorted t : option (list T) := do l <- sorted_iter B t; Some l.*1.

(*@ generic_set.rs : pub fn range< *)
Definition range t (start_bound end_bound : Bound T) : option (list T) :=
  do l <- sorted_range B t start_bound end_bound; Some l.*1.

(*@ generic_set.rs : pub fn split_off< *)
Definition split_off t (at_value : T) : option (GenericSet M * GenericSet M) := sorted_split_off B t at_value.

(*@ generic_set.rs : pub fn append( *)
Definition append t other : option (GenericSet M * GenericSet M) := sorted_append B t other.
End sorted.

(** ** Operators *)

Section operators.
Context {S M E P T : Type} (A : MapApi S M E P T unit).
Implicit Types (t rhs : GenericSet M) (hb : S).

(*@ generic_set.rs : fn bitor( *)
Definition bitor hb t rhs : option (GenericSet M) := union A hb t rhs.

(*@ generic_set.rs : fn bitand( *)
Definition bitand hb t rhs : option (GenericSet M) := intersection A A hb t rhs.

(*@ generic_set.rs : fn bitxor( *)
Definition bitxor hb t rhs : option (GenericSet M) := symmetric_difference A hb t rhs.

(*@ generic_set.rs : fn sub( *)
Definition sub hb t rhs : option (GenericSet M) := difference A A hb t rhs.
End operators.
