(* ===== verification/BTreeBackend.v ===== *)
(** * The B+ tree behind the map interfaces

    [FlatBTree] offers the interface of [MapApi.v] twice: with its own ordered
    operations ([SortedMap], [Map], and the calls of the adaptive map), and as a
    [HashedMap] whose lookups scan the leaves.  Both keep the contract. *)

From Stdlib Require Import ZArith Lia.
From S2P Require Import Prelude TableApi MapApi BinSearch BTree BTreeInv BTreeShape BTreeRep SortedAssoc BTreeSearch BTreeInsert BTreeRemove BTreeSpec BTreeBulk BTreeIter BTreeScan BTreeDrain BTreeMap BTreeEnds BTreeClone BTreeCollect.
From S2P Require BTreeRange BTreeSurgery BTreeSurgerySpec BTreeCut.

(** ** Ordered association lists as finite maps *)

Section assoc.
Context {K V : Type} `{OrdLaws K} `{Countable K}.
Implicit Types (l : list (K * V)).

Abbreviation to_gmap l := (list_to_map l : gmap K V).

Lemma sm_lookup_map l key : to_gmap l !! key = sm_lookup l key.
Proof using Type*.
  induction l as [|[k v] l IH]; [done|]. cbn [list_to_map foldr sm_lookup fst snd]. destruct (decide (k = key)) as [->|Hne].
  - by rewrite lookup_insert_eq, cmp_refl.
  - rewrite lookup_insert_ne by done. destruct (cmp key k) eqn:E; [|done..]. by apply cmp_eq in E.
Qed.

Lemma sm_insert_map l key v : sorted_map l → to_gmap (sm_insert l key v) = <[key := v]> (to_gmap l).
Proof using Type*.
  intros Hs. apply map_eq. intros k. rewrite sm_lookup_map, sm_lookup_insert by done. case_bool_decide as E.
  - apply cmp_eq in E as ->. by rewrite lookup_insert_eq.
  - rewrite lookup_insert_ne, sm_lookup_map; [done|]. intros ->. by rewrite cmp_refl in E.
Qed.

Lemma sm_delete_map l key : sorted_map l → to_gmap (sm_delete l key) = delete key (to_gmap l).
Proof using Type*.
  intros Hs. apply map_eq. intros k. rewrite sm_lookup_map, sm_lookup_delete by done. case_bool_decide as E.
  - apply cmp_eq in E as ->. by rewrite lookup_delete_eq.
  - rewrite lookup_delete_ne, sm_lookup_map; [done|]. intros ->. by rewrite cmp_refl in E.
Qed.

(** [or_insert] on the list and on the map. *)
Lemma with_default_map l key v : sorted_map l →
  to_gmap (match sm_lookup l key with Some _ => l | None => sm_insert l key v end) = with_default (to_gmap l) key v.
Proof using Type*.
  intros Hs. unfold with_default. rewrite sm_lookup_map. destruct (sm_lookup l key) as [w|] eqn:E; cbn [default].
  - symmetry. apply insert_id. by rewrite sm_lookup_map.
  - by apply sm_insert_map.
Qed.

Lemma alter_map l key (f : V → V) : sorted_map l →
  to_gmap (match sm_lookup l key with Some w => sm_insert l key (f w) | None => l end) = alter f key (to_gmap l).
Proof using Type*.
  intros Hs. rewrite alter_alt, sm_lookup_map. destruct (sm_lookup l key); [by apply sm_insert_map|done].
Qed.

Lemma map_values_map (f : K → V → V) l : to_gmap (map_values f l) = map_imap (λ k v, Some (f k v)) (to_gmap l).
Proof using Type*.
  apply map_eq. intros key. rewrite map_lookup_imap, !sm_lookup_map.
  induction l as [|[k v] l IH]; [done|]. cbn. destruct (cmp key k) eqn:E; [|done..]. by apply cmp_eq in E as ->.
Qed.

(** [retain] on the list and on the map. *)
Lemma retained_list {St} (f : St → K → V → St * V * bool) l s (m : gmap K V) :
  NoDup l.*1 → (∀ k v, (k, v) ∈ l → m !! k = Some v) → let '(s', kept, _) := retain_list f s l in
  (retained f l s m).1 = s' ∧
  ∀ k, (retained f l s m).2 !! k = if decide (k ∈ l.*1) then to_gmap kept !! k else m !! k.
Proof using Type*.
  revert s m. induction l as [|[k0 v0] l IH]; intros s m Hnd Hm.
  { cbn. split; [done|]. intros k. rewrite decide_False; [done|apply not_elem_of_nil]. }
  cbn [retain_list retained]. destruct (f s k0 v0) as [[s1 v1] keep]. apply NoDup_cons in Hnd as [Hk0 Hnd]. cbn in Hk0.
  set (m1 := if keep then _ else _). specialize (IH s1 m1 Hnd).
  pose proof (retain_list_spec f s1 l) as Hspec.
  destruct (retain_list f s1 l) as [[s2 kept] dropped]. destruct (Hspec _ _ _ eq_refl) as [Hsub _].
  destruct IH as [Hs Hl].
  { intros k v Hkv. assert (k ≠ k0) by (intros ->; by apply Hk0, list_elem_of_fmap; exists (k0, v)).
    unfold m1. destruct keep; [rewrite lookup_insert_ne by done|rewrite lookup_delete_ne by done]; apply Hm; by right. }
  assert (to_gmap kept !! k0 = None) as Hn.
  { apply not_elem_of_list_to_map. intros Hin. apply Hk0. by eapply elem_of_sublist. }
  destruct keep; (split; [done|]); intros k; rewrite Hl; cbn [fmap list_fmap fst list_to_map foldr snd].
  - destruct (decide (k = k0)) as [->|Hne].
    + rewrite decide_False, decide_True by (done || by left). unfold m1. by rewrite !lookup_insert_eq.
    + rewrite lookup_insert_ne by done. unfold m1. rewrite lookup_insert_ne by done.
      destruct (decide (k ∈ l.*1)), (decide (k ∈ k0 :: l.*1)) as [|Hx]; try done; rewrite elem_of_cons in *; naive_solver.
  - destruct (decide (k = k0)) as [->|Hne].
    + rewrite decide_False, decide_True by (done || by left). unfold m1. by rewrite lookup_delete_eq.
    + unfold m1. rewrite lookup_delete_ne by done.
      destruct (decide (k ∈ l.*1)), (decide (k ∈ k0 :: l.*1)) as [|Hx]; try done; rewrite elem_of_cons in *; naive_solver.
Qed.

Lemma retained_sorted {St} (f : St → K → V → St * V * bool) l s :
  sorted_map l → let '(s', kept, _) := retain_list f s l in retained f l s (to_gmap l) = (s', to_gmap kept).
Proof using Type*.
  intros Hs. pose proof (sorted_map_NoDup l Hs) as Hnd.
  pose proof (retained_list f l s (to_gmap l) Hnd (λ k v Hkv, elem_of_list_to_map_1 l k v Hnd Hkv)) as Hr.
  pose proof (retain_list_spec f s l) as Hspec.
  destruct (retain_list f s l) as [[s' kept] dropped]. destruct (Hspec _ _ _ eq_refl) as [Hsub _].
  destruct Hr as [Hst Hlk]. rewrite (surjective_pairing (retained _ _ _ _)), Hst. f_equal.
  apply map_eq. intros k. rewrite Hlk. case_decide as Hin; [done|].
  rewrite !(not_elem_of_list_to_map_1 (M := gmap K)); [done| |done]. intros Hk. apply Hin. by eapply elem_of_sublist.
Qed.
End assoc.

(** ** The two interfaces *)

Section backend.
Context {S K V : Type} `{OrdLaws K} `{Countable K} (key_size val_size : nat).
Implicit Types (t : RawBTree K V).

(** The hasher of a tree is never used; a cloned key or value is equal to its
    original. *)
(*@ flat_btree/map.rs : 108-736 : FlatBTree *)
Definition btree_api : MapApi S (RawBTree K V) (Entry K) (nat * nat) K V := {|
  map_new _ := Some tree_new;
  map_with_capacity _ c := tree_with_capacity key_size val_size (Z.to_nat c);
  map_len := len;
  map_capacity := capacity key_size val_size;
  map_clear t := do ' (t, _) <- clear t; Some t;
  map_insert := insert key_size val_size;
  map_get := get;
  map_get_key_value := get_key_value;
  map_get_mut := get_mut;
  map_contains_key := contains_key;
  map_remove := remove key_size val_size;
  map_remove_entry := remove_entry key_size val_size;
  map_entry t k := do e <- entry t k; Some (inl (t, e));
  map_entry_key := entry_key;
  map_or_insert := or_insert key_size val_size;
  map_and_modify := and_modify;
  map_try_insert t k v := do r <- try_insert key_size val_size t k v; Some (inl r);
  map_iter := items;
  map_iter_mut f t := for_each_mut (Datatypes.S (len t)) f t (iter_mut t);
  map_into_iter := into_pairs;
  map_drain := drain_all;
  map_retain _ t s f := do ' (s, t, _, _) <- retain t s f; Some (s, t);
  map_reserve t n := do t <- reserve key_size val_size t (Z.to_nat n); Some (inl t);
  map_shrink_to_fit := shrink_to_fit key_size val_size;
  map_clone := clone_tree id id;
|}.

(** Lookups and removals by equality; everything else is shared. *)
(*@ flat_btree/map.rs : 1070-1187 : HashedMap for FlatBTree *)
Definition btree_hashed_api : MapApi S (RawBTree K V) (Entry K) (nat * nat) K V := {|
  map_new := map_new btree_api;
  map_with_capacity := map_with_capacity btree_api;
  map_len := map_len btree_api;
  map_capacity := map_capacity btree_api;
  map_clear := map_clear btree_api;
  map_insert := map_insert btree_api;
  map_get := get_by_eq;
  map_get_key_value := get_key_value_by_eq;
  map_get_mut := get_mut_by_eq;
  map_contains_key t k := do r <- get_by_eq t k; Some (bool_decide (is_Some r));
  map_remove := remove_by_eq key_size val_size;
  map_remove_entry := remove_entry_by_eq key_size val_size;
  map_entry := map_entry btree_api;
  map_entry_key := map_entry_key btree_api;
  map_or_insert := map_or_insert btree_api;
  map_and_modify := map_and_modify btree_api;
  map_try_insert := map_try_insert btree_api;
  map_iter := map_iter btree_api;
  map_iter_mut := map_iter_mut btree_api;
  map_into_iter := map_into_iter btree_api;
  map_drain := map_drain btree_api;
  map_retain _ := map_retain btree_api;
  map_reserve := map_reserve btree_api;
  map_shrink_to_fit := map_shrink_to_fit btree_api;
  map_clone := map_clone btree_api;
|}.

(** The sorted operations; [debug] says whether the assertions of debug builds
    are compiled in. *)
(*@ flat_btree/map.rs : 1693-1731 : SortedMap for FlatBTree *)
Definition btree_sorted_api (debug : bool) : SortedApi (RawBTree K V) K V := {|
  sorted_first_key_value := first_key_value;
  sorted_last_key_value := last_key_value;
  sorted_pop_first := pop_first key_size val_size;
  sorted_pop_last := pop_last key_size val_size;
  sorted_iter := items;
  sorted_range := BTreeRange.collect_range;
  sorted_split_off := BTreeSurgery.split_off key_size val_size;
  sorted_append := BTreeSurgery.append key_size val_size debug;
|}.

(** No node has a single child, as removals need. *)
Abbreviation represents := (represents (MK := full_nodes) key_size val_size).

Definition btree_rep : MapRep (RawBTree K V) (nat * nat) K V := {|
  mrep t m := ∃ l, represents t l ∧ list_to_map l = m;
  mplace t p k v := ∃ kvs, leaf_kvs (arena t) p.1 = Some kvs ∧ kvs !! p.2 = Some (k, v);
  mready _ := True;
  mgrowable t := room (height t + 2) (arena t) ∧ height t <= MAX_PATH_HEIGHT;
  mcapable c := (0 <= c ∧ 2 * c + 8 <= 2 ^ 31)%Z;
  mreservable t n := (0 <= n ∧ Z.of_nat (arena_len (arena t)) + 2 * (n + 1) <= 2 ^ 31)%Z;
  mshrinkable t := bulk_ready (MK := full_nodes) key_size val_size (len t);
|}.

Context (Hcap : assert_capacities key_size val_size = true).

Lemma tree_with_capacity_ok c :
  (2 * Z.of_nat c + 8 <= 2 ^ 31)%Z →
  ∃ t, tree_with_capacity (K := K) (V := V) key_size val_size c = Some t ∧ represents t [].
Proof using Hcap.
  intros Hc. unfold tree_with_capacity. rewrite Hcap. cbn [negb].
  set (cap := Nat.max _ 1). assert (1 <= cap) as Hc1 by (unfold cap; lia). clearbody cap.
  assert ((c + cap - 1) / cap <= c + 1) as Hl.
  { apply Nat.Div0.div_le_upper_bound. nia. }
  unfold u32_limit. rewrite Z.mod_small by lia. set (leaves := Z.of_nat ((c + cap - 1) / cap)) in *.
  assert (0 <= leaves / 4 <= leaves)%Z.
  { split; [apply Z.div_pos; lia|]. apply Z.div_le_upper_bound; lia. }
  destruct (arena_with_capacity_ok (K := K) (V := V) (Z.max (Z.min (leaves + leaves / 4) (2 ^ 32 - 1)) 4)) as (a & -> & Hs & Hlen); [lia|].
  cbn [mbind option_bind]. eexists. split; [reflexivity|]. left. split; [|done].
  split_and!; cbn; try done. apply (as_arena _ _ _ _ _ Hs).
Qed.

Lemma represents_enumerates t l : represents t l → enumerates l (list_to_map l : gmap K V).
Proof using Type*. intros Hr. split; [|done]. by eapply sorted_map_NoDup, represents_sorted. Qed.

Lemma get_represents t l key : represents t l → get t key = Some (sm_lookup l key).
Proof using Type*.
  intros [[He ->]|(g & Hr & ->)]; [unfold get, search; by rewrite (proj1 He)|by eapply tree_get_ok].
Qed.

Lemma btree_iter_represents t l : represents t l → items t = Some l.
Proof using Type*. intros Hr. destruct (represents_chained _ _ _ _ Hr) as (L & HL & <-). by apply items_ok. Qed.

(** Every place of a key holds its value. *)
Lemma btree_place_ok t l key :
  represents t l →
  match get_mut t key with
  | Some (Some p) => ∃ v, (list_to_map l : gmap K V) !! key = Some v ∧ mplace btree_rep t p key v
  | Some None => (list_to_map l : gmap K V) !! key = None
  | None => False
  end.
Proof using Type*.
  intros Hr. destruct (btree_lookups_correct _ _ t l key Hr) as (_ & _ & _ & Hp). rewrite sm_lookup_map.
  destruct (get_mut t key) as [[[i s]|]|]; [|done..]. destruct Hp as (kvs & v & ? & ? & ?). exists v. split; [done|]. by exists kvs.
Qed.

#[export] Instance btree_laws : MapLaws btree_api btree_rep.
Proof using Type*.
  assert (1 <= min_keys (MinKeys := full_nodes)) as Hmin by done.
  pose proof (λ t l, represents_sorted (MK := full_nodes) key_size val_size t l) as Hsorted.
  pose proof Hcap as [Hcl%Nat.leb_le Hci%Nat.leb_le]%andb_true_iff.
  split; cbn [map_new map_with_capacity map_len map_capacity map_clear map_insert map_get map_get_key_value map_get_mut
    map_contains_key map_remove map_remove_entry map_entry map_entry_key map_or_insert map_and_modify map_try_insert
    map_iter map_iter_mut map_into_iter map_drain map_retain map_reserve map_shrink_to_fit map_clone btree_api
    mrep mready mgrowable mcapable mreservable mshrinkable btree_rep].
  - done.
  - intros _. exists tree_new. split; [done|]. exists []. split; [apply tree_new_represents|done].
  - intros _ c [Hc1 Hc2]. destruct (tree_with_capacity_ok (Z.to_nat c)) as (t & Ht & Hr); [lia|]. exists t. split; [done|]. by exists [].
  - intros t m (l & Hr & <-). rewrite (represents_len _ _ _ _ Hr).
    destruct (represents_enumerates t l Hr) as [Hn _]. by rewrite map_size_list_to_map.
  - intros t m (l & Hr & <-). destruct (btree_clear_ok _ _ t l Hr) as (ks & _ & ->). cbn. eexists. split; [done|].
    exists []. split; [by eapply cleared_empty|done].
  - intros t m k v (l & Hr & <-) [Hroom Hh]. destruct (insert_represents _ _ t l k v Hcl Hci Hr Hroom Hh) as (t' & -> & Hr').
    exists t'. rewrite sm_lookup_map. split; [done|]. exists (sm_insert l k v). split; [done|]. by apply sm_insert_map, (Hsorted t).
  - intros t m k (l & Hr & <-) _. rewrite sm_lookup_map. by apply get_represents with (1 := Hr).
  - intros t m k (l & Hr & <-) _. rewrite sm_lookup_map. by apply btree_lookups_correct with (1 := Hr).
  - intros t m k (l & Hr & <-) _. rewrite sm_lookup_map. by apply btree_lookups_correct with (1 := Hr).
  - intros t m k (l & Hr & <-) _. pose proof (btree_place_ok t l k Hr) as Hp. destruct (get_mut t k) as [r|]; [|done].
    exists r. split; [done|]. by destruct r.
  - intros t m k (l & Hr & <-) _. destruct (remove_represents _ _ t l k Hmin Hcap Hr) as (t' & _ & -> & Hr').
    exists t'. rewrite sm_lookup_map. split; [done|]. exists (sm_delete l k). split; [done|]. by apply sm_delete_map, (Hsorted t).
  - intros t m k (l & Hr & <-) _. destruct (remove_represents _ _ t l k Hmin Hcap Hr) as (t' & -> & _ & Hr').
    exists t'. rewrite sm_lookup_map. split; [done|]. exists (sm_delete l k). split; [done|]. by apply sm_delete_map, (Hsorted t).
  - intros t m k v f (l & Hr & <-) [Hroom Hh].
    destruct (map_entry_represents _ _ t l k v f Hcap Hr Hroom) as
      ((e & t1 & i & s & kvs & He & Hk & Ho & Hr1 & Hkvs & Hs) & (e' & t2 & e2 & He' & Ha & Hr2) & _).
    rewrite He in He'. injection He' as <-. exists t, e. rewrite He. split_and!; [done|by exists l|done|..].
    + exists t1, (i, s). rewrite Ho, sm_lookup_map. split_and!; [done| |by exists kvs].
      eexists. split; [exact Hr1|]. by apply with_default_map, (Hsorted t).
    + exists t2, e2. split; [done|]. eexists. split; [exact Hr2|]. by apply alter_map, (Hsorted t).
  - intros t m k v (l & Hr & <-) [Hroom Hh].
    destruct (map_entry_represents _ _ t l k v id Hcap Hr Hroom) as (_ & _ & t' & -> & Hr'). cbn [mbind option_bind].
    exists t'. rewrite sm_lookup_map. split; [done|]. eexists. split; [exact Hr'|]. by apply with_default_map, (Hsorted t).
  - intros t m (l & Hr & <-). exists l. split; [by apply btree_iter_represents|by apply (represents_enumerates t)].
  - intros t m f (l & Hr & <-). destruct (btree_iter_mut_correct _ _ t l f Hr) as (t' & -> & Hr'). exists t'. split; [done|].
    exists (map_values f l). split; [done|]. apply map_values_map.
  - intros t m (l & Hr & <-). exists l. split; [by eapply into_pairs_ok|by apply (represents_enumerates t)].
  - intros t m (l & Hr & <-). exists l, (cleared t). split; [by eapply drain_all_ok|].
    split; [by apply (represents_enumerates t)|]. exists []. split; [by eapply cleared_empty|done].
  - intros St t m s f (l & Hr & <-). pose proof (retain_represents _ _ f t l s Hr) as Hret.
    pose proof (retained_sorted f l s (Hsorted _ _ Hr)) as Hl.
    destruct (retain_list f s l) as [[s' kept] dropped]. destruct Hret as (t' & d & -> & Hr' & _).
    exists l, t'. rewrite Hl. split; [by apply (represents_enumerates t)|]. split; [done|]. by exists kept.
  - intros t m n (l & Hr & <-) [Hn Hb]. destruct (btree_reserve_correct key_size val_size t l (Z.to_nat n) Hr) as (t' & -> & Hr' & _); [lia|].
    exists t'. split; [done|]. by exists l.
  - intros t m (l & Hr & <-) Hb. rewrite (represents_len _ _ _ _ Hr) in Hb. destruct (shrink_represents key_size val_size t l Hcap Hr Hb) as (t' & -> & Hr').
    exists t'. split; [done|]. by exists l.
  - intros t m (l & Hr & <-). destruct (btree_clone_correct key_size val_size id id (λ _, eq_refl) t l Hr) as (t' & -> & Hr').
    exists t'. split; [done|]. exists l. split; [|done]. unfold map_values in Hr'. rewrite (List.map_ext _ id) in Hr' by (by intros []).
    by rewrite List.map_id in Hr'.
Qed.

(** The scans answer as the searches. *)
Lemma by_eq_same t l key :
  represents t l →
  get_by_eq t key = get t key ∧ get_key_value_by_eq t key = get_key_value t key ∧
  get_mut_by_eq t key = get_mut t key ∧
  remove_entry_by_eq key_size val_size t key = remove_entry key_size val_size t key ∧
  remove_by_eq key_size val_size t key = remove key_size val_size t key.
Proof using Type*.
  intros Hr. pose proof (btree_scan_correct key_size val_size t l key Hr) as Hs.
  unfold remove_by_eq, get_by_eq, get_key_value_by_eq, remove_entry_by_eq, get, get_key_value, get_mut, remove, remove_entry.
  unfold get_mut_by_eq in *. rewrite Hs. destruct (search t key) as [[[i s]|]|]; cbn [mbind option_bind fmap option_fmap option_map]; [|done|done].
  split_and!; try done.
  by destruct (leaf_remove_at _ _ _ _ _) as [[t' [k v]]|].
Qed.

#[export] Instance btree_hashed_laws : MapLaws btree_hashed_api btree_rep.
Proof using Type*.
  destruct btree_laws as [L1 L2 L3 L4 L5 L6 Lg Lgkv Lck Lgm Lr Lre L13 L14 L15 L16 L17 L18 L19 L20 L21 L22].
  split; cbn [map_new map_with_capacity map_len map_capacity map_clear map_insert map_get map_get_key_value map_get_mut
    map_contains_key map_remove map_remove_entry map_entry map_entry_key map_or_insert map_and_modify map_try_insert
    map_iter map_iter_mut map_into_iter map_drain map_retain map_reserve map_shrink_to_fit map_clone btree_hashed_api];
    try assumption; intros t m k Hm Hb; pose proof Hm as (l & Hr & _);
    destruct (by_eq_same t l k Hr) as (E1 & E2 & E3 & E4 & E5).
  - rewrite E1. by apply (Lg t m k).
  - rewrite E2. by apply (Lgkv t m k).
  - rewrite E1. pose proof (Lg t m k Hm Hb) as Hg. cbn [map_get btree_api] in Hg. by rewrite Hg.
  - rewrite E3. by apply (Lgm t m k).
  - rewrite E5. by apply (Lr t m k).
  - rewrite E4. by apply (Lre t m k).
Qed.

(** ** Sorted operations *)

(** Ranges, cuts and grafts rely on every leaf having an entry; a cut also on no
    lone child inside it, and what is built must fit the arena. *)
Definition btree_sorted_rep : SortedRep (RawBTree K V) K := {|
  srange t := no_empty_leaf_of t;
  ssplit t k := no_empty_leaf_of t ∧ height t <= MAX_PATH_HEIGHT ∧ (Z.of_nat (arena_len (arena t)) <= 2 ^ 31)%Z ∧
    BTreeCut.clean_cut t k = true;
  sjoin t u := no_empty_leaf_of t ∧ no_empty_leaf_of u ∧ BTreeSurgerySpec.graftable t u ∧
    ∀ l l', items t = Some l → items u = Some l' →
      bulk_ready (MK := full_nodes) key_size val_size (length (insert_pairs l l'));
|}.

(** The order determines the list. *)
Lemma in_order_represents t m l l' :
  represents t l' → list_to_map l' = m → in_order l m → l' = l.
Proof using Type*.
  intros Hr Hm [Hs Hl]. apply sorted_map_ext; [by eapply represents_sorted|done|]. intros key.
  by rewrite <- !sm_lookup_map, Hm, Hl.
Qed.

Lemma insert_pairs_map l ps : sorted_map l → list_to_map (insert_pairs l ps) = inserted_all (list_to_map l : gmap K V) ps.
Proof using Type*.
  revert l. induction ps as [|[k v] ps IH]; intros l Hs; [done|]. cbn [insert_pairs foldl inserted_all].
  unfold insert_pairs, inserted_all in IH. rewrite <- sm_insert_map by done. apply IH. by apply sm_insert_sorted.
Qed.

#[export] Instance btree_sorted_laws debug : SortedLaws (btree_sorted_api debug) btree_rep btree_sorted_rep.
Proof using Type*.
  assert (1 <= min_keys (MinKeys := full_nodes)) as Hmin by done.
  split; cbn [sorted_first_key_value sorted_last_key_value sorted_pop_first sorted_pop_last sorted_iter sorted_range
    sorted_split_off sorted_append btree_sorted_api mrep btree_rep srange ssplit sjoin btree_sorted_rep].
  - intros t m (l & Hr & Hm). exists l. split; [by apply btree_iter_represents|]. split; [by eapply represents_sorted|done].
  - intros t m l (l' & Hr & Hm) Ho. destruct (in_order_represents t m l l' Hr Hm Ho).
    destruct (ends_represents (MK := full_nodes) key_size val_size t l' Hmin Hcap Hr) as (? & ? & _). done.
  - intros t m l (l' & Hr & Hm) Ho. destruct (in_order_represents t m l l' Hr Hm Ho).
    destruct (ends_represents (MK := full_nodes) key_size val_size t l' Hmin Hcap Hr) as (_ & _ & (t1 & ? & ?) & (t2 & ? & ?)).
    split; [exists t1|exists t2]; (split; [done|]); eauto.
  - intros t m l sb eb (l' & Hr & Hm) Ho Hne Hb. destruct (in_order_represents t m l l' Hr Hm Ho).
    by apply (BTreeRange.collect_range_ok (MK := full_nodes) key_size val_size).
  - intros t m l k (l' & Hr & Hm) Ho (Hne & Hh & Ha & Hc). destruct (in_order_represents t m l l' Hr Hm Ho).
    destruct (BTreeCut.split_off_surgery_ok (MK := full_nodes) key_size val_size t l' k BTreeSurgery.DEFAULT_RIGHT_FRAC_LEFT_CUTOFF Hr Hne Hh Ha) as (t' & u & Hrun & _ & _ & _ & _ & _ & Hs).
    destruct (Hs Hmin Hc) as [Ht Hu]. exists t', u. split; [exact Hrun|]. split; eauto.
  - intros t m u m2 (l & Hr & <-) (l' & Hr' & <-) (Hne & Hne' & Hg & Hb).
    destruct (BTreeSurgerySpec.append_surgery_ok (MK := full_nodes) key_size val_size debug t u l l' Hcap Hr Hr' Hne Hne') as (t' & u' & Hrun & Ht & Hu);
      [by apply Hb; apply btree_iter_represents|done|].
    exists t', u'. split; [exact Hrun|]. split; [|by exists []]. eexists. split; [exact Ht|].
    rewrite insert_pairs_map by (by eapply represents_sorted). apply inserted_all_enumerates. by apply (represents_enumerates u).
Qed.

(** C31: the B+ tree keeps the contract of the map interfaces: every operation of the
    map - searching in the tree, or scanning the leaves where only equality is
    available - acts on the represented finite map as the interface says, and the
    ends, the ordered iteration, ranges, splitting and appending on its entries in
    key order.  Keys are read as the values they hold: for keys with a destructor
    a removal that merges internal nodes leaves separators behind that it has
    dropped, as the last part says ([separators_after]). *)
Theorem btree_refines debug :
  MapLaws btree_api btree_rep ∧ MapLaws btree_hashed_api btree_rep ∧
  SortedLaws (btree_sorted_api debug) btree_rep btree_sorted_rep ∧
  ∀ t m k, mrep btree_rep t m →
    ∃ t' v, map_remove btree_api t k = Some (t', v) ∧ BTreeRemove.separators_after t t'.
Proof using Type*.
  split_and!; [apply _..|]. intros t m k (l & Hr & _).
  destruct (BTreeRemove.remove_separators (MK := full_nodes) key_size val_size t l k (le_n 1) Hcap Hr) as (t' & _ & Hrun & _ & Hs).
  by exists t', (SortedAssoc.sm_lookup l k).
Qed.
End backend.

Lemma btree_refines_witness :
  MapLaws (btree_api (S := unit) (K := nat) (V := nat) 80 40) (btree_rep 80 40) ∧
  MapLaws (btree_hashed_api (S := unit) (K := nat) (V := nat) 80 40) (btree_rep 80 40) ∧
  SortedLaws (btree_sorted_api (K := nat) (V := nat) 80 40 true) (btree_rep 80 40) (btree_sorted_rep 80 40) ∧
  ∀ t m k, mrep (btree_rep 80 40) t m →
    ∃ t' v, map_remove (btree_api (S := unit) (K := nat) (V := nat) 80 40) t k = Some (t', v) ∧ BTreeRemove.separators_after t t'.
Proof. exact (btree_refines 80 40 eq_refl true). Defined.
