(* ===== verification/HashBackend.v ===== *)
(** * The hash tables behind the map interface

    [impl_map_trait!] of [traits.rs]: a [GenericMap] with its hasher offers the
    interface of [MapApi.v] and keeps its contract, for every raw table that
    keeps the contract of [TableApi.v]. *)

From Stdlib Require Import ZArith.
From S2P Require Import Prelude GenericMap MapApi.

(** The hasher comes with the map: tables are created with one, and every call
    that hashes uses the map's own. *)
(*@ generic_map.rs : pub struct GenericMap< *)
Record HashedMap (R S : Type) := { table : R; hash_builder : S }.
Arguments table {R S}.
Arguments hash_builder {R S}.

Section backend.
Context {R S K V : Type} `{Countable K} (B : (K → Z) → RawTableApi R K V) (hash : S → K → Z).
Implicit Types m : HashedMap R S.

Definition with_table m (t : R) : HashedMap R S := {| table := t; hash_builder := hash_builder m |}.
Definition tables m : RawTableApi R K V := B (hash (hash_builder m)).
Definition hash_key m : K → Z := hash (hash_builder m).

(*@ traits.rs : 769-991 : impl_map_trait *)
Definition hashed_map_api : MapApi S (HashedMap R S) (@Entry K) slot K V := {|
  map_new s := Some {| table := with_hasher (B (hash s)); hash_builder := s |};
  map_with_capacity s c := Some {| table := with_capacity (B (hash s)) c; hash_builder := s |};
  map_len m := len (tables m) (table m);
  map_capacity m := capacity (tables m) (table m);
  map_clear m := Some (with_table m (clear (tables m) (table m)));
  map_insert m k v := do ' (t, r) <- insert (tables m) (table m) k v; Some (with_table m t, r);
  map_get m k := get (tables m) (hash_key m) (table m) k;
  map_get_key_value m k := get_key_value (tables m) (hash_key m) (table m) k;
  map_get_mut m k := get_mut (tables m) (hash_key m) (table m) k;
  map_contains_key m k := contains_key (tables m) (hash_key m) (table m) k;
  map_remove m k := do ' (t, r) <- remove (tables m) (hash_key m) (table m) k; Some (with_table m t, r);
  map_remove_entry m k :=
    do ' (t, r) <- remove_entry (tables m) (hash_key m) (table m) k; Some (with_table m t, r);
  map_entry m k :=
    do r <- entry (tables m) (hash_key m) (table m) k;
    Some (match r with inl (t, e) => inl (with_table m t, e) | inr p => inr p end);
  map_entry_key := entry_key;
  map_or_insert m e v := do ' (t, p) <- or_insert (tables m) (table m) e v; Some (with_table m t, p);
  map_and_modify m e f :=
    let '(t, e) := and_modify (tables m) (table m) e f in Some (with_table m t, e);
  map_try_insert m k v :=
    do r <- try_insert (tables m) (hash_key m) (table m) k v;
    Some (match r with
          | inl (t, ok) => inl (with_table m t, if ok : bool then None else Some (k, v))
          | inr p => inr p
          end);
  map_iter m := Some (iter (tables m) (table m));
  map_iter_mut f m := Some (with_table m (iter_mut (tables m) f (table m)));
  map_into_iter m := Some (into_iter (tables m) (table m));
  map_drain m := let '(l, t) := drain (tables m) (table m) in Some (l, with_table m t);
  map_retain _ m s f :=
    let '(s, t) := retain (tables m) (hash_key m) (table m) s f in Some (s, with_table m t);
  map_reserve m n :=
    do r <- reserve (tables m) (table m) n;
    Some (match r with inl t => inl (with_table m t) | inr p => inr p end);
  map_shrink_to_fit m := do t <- shrink_to_fit (tables m) (table m); Some (with_table m t);
  map_clone m := Some (with_table m (clone (tables m) (table m)));
|}.

Context (T : (K → Z) → TableRep R K V) (L : ∀ h, TableLaws (B h) (T h) h).

Abbreviation rep_of m := (T (hash (hash_builder m))).

Definition hashed_map_rep : MapRep (HashedMap R S) slot K V := {|
  mrep m g := rep (rep_of m) (table m) g;
  mplace m p k v := holds (rep_of m) (table m) p k v;
  mready m := bounded (rep_of m) (table m);
  mgrowable m := growable (rep_of m) (table m);
  mcapable c := ∀ h, capable (T h) c;
  mreservable m n := reservable (rep_of m) (table m) n;
  mshrinkable m := shrinkable (rep_of m) (table m);
|}.

Lemma iter_enumerates h t (g : gmap K V) : rep (T h) t g → enumerates (iter (B h) t) g.
Proof using L.
  intros Hr. split; [by eapply (iter_keys_NoDup _ h (T h))|].
  by destruct (positions_holds _ h (T h) t g Hr) as [_ ?].
Qed.

#[export] Instance hashed_map_laws : MapLaws hashed_map_api hashed_map_rep.
Proof using L.
  split; cbn -[iter iter_mut into_iter drain clear len clone retain alter map_imap with_default]; unfold tables, hash_key.
  - intros m. apply law_growable.
  - intros s. eexists. split; [reflexivity|]. apply law_new.
  - intros s c Hc. eexists. split; [reflexivity|]. by apply law_with_capacity.
  - intros m g Hr. by eapply law_len.
  - intros m g Hr. eexists. split; [reflexivity|]. by eapply law_clear.
  - intros m g k v Hr Hg. destruct (law_insert _ _ k v Hr Hg) as (t' & Hrun & Hr').
    unfold insert. rewrite Hrun. by eexists.
  - intros m g k Hr Hb. by apply (get_ok _ _ (rep_of m)).
  - intros m g k Hr Hb. by apply (generic_get_key_value_ok _ _ (rep_of m)).
  - intros m g k Hr Hb. unfold contains_key. by rewrite (get_ok _ _ (rep_of m) _ g).
  - intros m g k Hr Hb. destruct (find_law _ _ (rep_of m) _ g k Hr Hb) as (r & Hrun & Hf).
    exists r. split; [exact Hrun|]. destruct r; [|done]. destruct Hf as (v & Hh & _ & Hv). by exists v.
  - intros m g k Hr Hb. destruct (generic_remove_ok _ _ (rep_of m) _ g k Hr Hb) as (t' & -> & Hr'). by eexists.
  - intros m g k Hr Hb. destruct (law_remove _ g k Hr Hb) as (t' & Hrun & Hr').
    unfold remove_entry. rewrite Hrun. by eexists.
  - intros m g k v f Hr Hg. destruct (entry_ok _ _ (rep_of m) _ g k Hr Hg) as (t' & e & -> & Hr' & He).
    eexists _, e. split; [reflexivity|]. split; [exact Hr'|]. split; [by destruct e, He|]. split.
    + cbn [with_table hash_builder table]. destruct (generic_or_insert_ok _ _ (rep_of m) _ g k v e Hr' He) as (t'' & p & -> & ? & ?).
      by eexists _, p.
    + cbn [with_table hash_builder table]. destruct (generic_and_modify_ok _ _ (rep_of m) _ g k f e Hr' He) as (e' & Hrun & ?).
      destruct (and_modify _ t' e f) as [t'' e'']. by eexists _, _.
  - intros m g k v Hr Hg. destruct (generic_try_insert_ok _ _ (rep_of m) _ g k v Hr Hg) as (t' & -> & Hr').
    exists (with_table m t'). split; [|exact Hr']. cbn.
    by destruct (g !! k); [rewrite bool_decide_false|rewrite bool_decide_true].
  - intros m g Hr. eexists. split; [reflexivity|]. by eapply iter_enumerates.
  - intros m g f Hr. eexists. split; [reflexivity|]. by eapply (generic_iter_mut_ok _ _ (rep_of m)).
  - intros m g Hr. eexists. split; [reflexivity|]. rewrite (generic_into_iter_ok _ _ (rep_of m) _ g Hr). by eapply iter_enumerates.
  - intros m g Hr. destruct (generic_drain_ok _ _ (rep_of m) _ g Hr) as [Hl Ht].
    destruct (drain _ _) as [l t']. cbn in *. eexists _, _. split; [reflexivity|]. split; [|exact Ht].
    subst l. by eapply iter_enumerates.
  - intros St m g s f Hr. destruct (generic_retain_ok _ _ (rep_of m) f _ g s Hr) as [Hs Ht].
    exists (iter (B (hash (hash_builder m))) (table m)).
    destruct (retain _ _ _ s f) as [s' t']. cbn in *. eexists. split; [by eapply iter_enumerates|].
    subst s'. by split.
  - intros m g n Hr Hn. destruct (law_reserve _ g n Hr Hn) as (t' & Hrun & Hr').
    unfold reserve. rewrite Hrun. by eexists.
  - intros m g Hr Hs. destruct (law_shrink _ g Hr Hs) as (t' & Hrun & Hr').
    unfold shrink_to_fit. rewrite Hrun. by eexists.
  - intros m g Hr. eexists. split; [reflexivity|]. by apply law_clone.
Qed.
End backend.
