(* ===== verification/NamedMaps.v ===== *)
(** * The named maps

    The type aliases of the crate: a [GenericMap] over a raw table with a given
    layout ([map.rs], [split_overflow/map.rs], [gaps/map.rs]) or tombstone design
    ([in_place_overflow/map.rs], [ipo64/map.rs], [HighTag128_TombMap] of [lib.rs]),
    behind the map interface and with its contract. *)

From Stdlib Require Import ZArith Lia.
From S2P Require Import Prelude HashTag Group TombGroup Layout TableApi MapApi.
From S2P Require Import OverflowInv TombInv Ipo Ipo64.
From S2P Require OverflowTable OverflowInv OverflowProbe OverflowOps OverflowApi OverflowSpec OverflowMap TombApi TombTable TombInv TombMore TombMap Ipo Ipo64 GenericMap.
From S2P Require Import HashBackend.

(** The IPO table with the 128-value tag. *)
(*@ lib.rs : ipo_map!(HighTag128_TombMap, HighTag128) *)
Definition HighTag128Design (tier : simd_tier) : TombTable.TombDesign := {|
  TombTable.TG := IpoGroup tier;
  TombTable.TTag := HighTag128Tomb;
  TombTable.T_GROUP_SIZE := 16;
  TombTable.META_GROUP_BYTES := 16;
  TombTable.T_SENTINEL := 16;
  TombTable.T_REGION := Low;
  TombTable.T_bucket_index := Ipo.ipo_bucket_index;
  TombTable.ALLOC_BY_POINTER := false;
  TombTable.BATCHED_REHASH := true;
|}.

#[export] Instance HighTag128Design_ok tier : TombInv.DesignOk (HighTag128Design tier).
Proof. split; try apply _; try done; try (simpl; lia). intros gi si Hsi. exact (Ipo.lor_shifted 4 gi si Hsi). Qed.

#[export] Instance UfmLayout_ok tier f : LayoutOk (UfmLayout tier f).
Proof. apply Layout16EmbCompact_ok, _. Qed.
#[export] Instance SplitsiesLayout_ok tier f : LayoutOk (SplitsiesLayout tier f).
Proof. apply Layout16_ok; [apply _|by left]. Qed.
#[export] Instance GapsLayout_ok tier f : LayoutOk (GapsLayout tier f).
Proof. apply Layout16EmbP2_ok, _. Qed.

Section named.
Context (tier : simd_tier) (f : hash_feature) {S K V : Type} `{Countable K} (hash : S → K → Z) (fuel : nat).

Abbreviation overflow_map := (HashedMap (OverflowTable.RawTable K V) S).
Abbreviation tomb_map := (HashedMap (TombTable.RawTable K V) S).
Abbreviation hash_entry := (@GenericMap.Entry K).

Definition overflow_api (L : GroupLayout) : MapApi S overflow_map hash_entry slot K V :=
  hashed_map_api (λ h, OverflowMap.OverflowBackend L h fuel) hash.
Definition overflow_rep (L : GroupLayout) `{!LayoutOk L} : MapRep overflow_map slot K V :=
  hashed_map_rep hash (λ h, OverflowMap.OverflowRep L h fuel).
Definition tomb_api (D : TombTable.TombDesign) : MapApi S tomb_map hash_entry slot K V :=
  hashed_map_api (λ h, TombMap.TombBackend D h fuel) hash.
Definition tomb_rep (D : TombTable.TombDesign) `{!TombInv.DesignOk D} : MapRep tomb_map slot K V :=
  hashed_map_rep hash (λ h, TombMap.TombRep D h fuel).

#[export] Instance overflow_map_laws L `{!LayoutOk L} :
  OverflowApi.capacity_ok L 1 → MapLaws (overflow_api L) (overflow_rep L).
Proof. intros Hone. apply hashed_map_laws. intros h. by apply OverflowMap.OverflowLaws. Qed.

#[export] Instance tomb_map_laws D `{!TombInv.DesignOk D} :
  TombMore.capacity_ok D 1 → MapLaws (tomb_api D) (tomb_rep D).
Proof. intros Hone. apply hashed_map_laws. intros h. by apply TombMap.TombLaws. Qed.

(*@ map.rs : pub type UnorderedFlatMap *)
Definition UnorderedFlatMap := overflow_api (UfmLayout tier f).
(*@ split_overflow/map.rs : pub type Splitsies< *)
Definition Splitsies := overflow_api (SplitsiesLayout tier f).
(*@ gaps/map.rs : pub type Gaps< *)
Definition Gaps := overflow_api (GapsLayout tier f).
(*@ in_place_overflow/map.rs : pub type InPlaceOverflow< *)
Definition InPlaceOverflow := tomb_api (Ipo.IpoDesign tier).
(*@ ipo64/map.rs : pub type IPO64< *)
Definition IPO64 := tomb_api (Ipo64.Ipo64Design tier).
Definition HighTag128_TombMap := tomb_api (HighTag128Design tier).

Ltac alias_laws := first [apply overflow_map_laws|apply tomb_map_laws]; by vm_compute.

#[export] Instance ufm_laws : MapLaws UnorderedFlatMap (overflow_rep (UfmLayout tier f)).
Proof. alias_laws. Qed.
#[export] Instance splitsies_laws : MapLaws Splitsies (overflow_rep (SplitsiesLayout tier f)).
Proof. alias_laws. Qed.
#[export] Instance gaps_laws : MapLaws Gaps (overflow_rep (GapsLayout tier f)).
Proof. alias_laws. Qed.
#[export] Instance ipo_laws : MapLaws InPlaceOverflow (tomb_rep (Ipo.IpoDesign tier)).
Proof. alias_laws. Qed.
#[export] Instance ipo64_laws : MapLaws IPO64 (tomb_rep (Ipo64.Ipo64Design tier)).
Proof. alias_laws. Qed.
#[export] Instance tomb_laws : MapLaws HighTag128_TombMap (tomb_rep (HighTag128Design tier)).
Proof. alias_laws. Qed.

(** When a map over an overflow-bit table is ready: the budget covers its
    probe sequence, and every lookup has an exit. *)
Definition exits_open (L : GroupLayout) (m : overflow_map) : Prop :=
  OverflowProbe.lookups_end L (hash (hash_builder m)) (table m).

Definition channelled_ready (L : GroupLayout) `{!LayoutOk L} : Prop :=
  ∀ m : overflow_map,
    (mready (overflow_rep L) m ↔ OverflowTable.mask (table m) < fuel ∧ exits_open L m) ∧
    (mgrowable (overflow_rep L) m ↔ OverflowOps.can_grow fuel (table m) ∧ exits_open L m) ∧
    ∀ g, OverflowSpec.reachable L (hash (hash_builder m)) fuel false (table m) g → exits_open L m.

Definition tomb_ready (D : TombTable.TombDesign) `{!TombInv.DesignOk D} : Prop :=
  ∀ m : tomb_map,
    (mready (tomb_rep D) m ↔ TombTable.mask (table m) < fuel) ∧
    (mgrowable (tomb_rep D) m ↔ TombApi.can_grow fuel (table m)).

Lemma channelled_ready_ok L `{!LayoutOk L} :
  Layout.CHANNELED (Layout.Overflow L) = true → channelled_ready L.
Proof.
  intros Hc m. split_and!; cbn; [tauto|tauto|].
  intros g Hr. apply (OverflowSpec.steady_ends L _ fuel false (table m) g Hr). by right.
Qed.

(** C10: every named hash map - [UnorderedFlatMap], [Splitsies], [Gaps],
    [InPlaceOverflow], [IPO64], [HighTag128_TombMap] - keeps the contract of the map
    interface, on every SIMD tier and with every tag reduction.  The tombstone
    maps are ready whenever the budget covers the table.  The first three have
    eight overflow channels: they are ready when the budget covers the table and
    every lookup has an exit, which holds as long as no key was removed since
    the control bytes were last cleared, and which removals may end
    ([channelled_lookup_diverges]). *)
Theorem named_maps_refine :
  (MapLaws UnorderedFlatMap (overflow_rep (UfmLayout tier f)) ∧
   MapLaws Splitsies (overflow_rep (SplitsiesLayout tier f)) ∧
   MapLaws Gaps (overflow_rep (GapsLayout tier f)) ∧
   MapLaws InPlaceOverflow (tomb_rep (Ipo.IpoDesign tier)) ∧
   MapLaws IPO64 (tomb_rep (Ipo64.Ipo64Design tier)) ∧
   MapLaws HighTag128_TombMap (tomb_rep (HighTag128Design tier))) ∧
  channelled_ready (UfmLayout tier f) ∧ channelled_ready (SplitsiesLayout tier f) ∧
  channelled_ready (GapsLayout tier f) ∧
  tomb_ready (Ipo.IpoDesign tier) ∧ tomb_ready (Ipo64.Ipo64Design tier) ∧ tomb_ready (HighTag128Design tier).
Proof.
  split; [split_and!; apply _|]. split_and!; try by apply channelled_ready_ok. all: intros m; by split.
Qed.
End named.

(** ** A run

    A new [UnorderedFlatMap] takes a pair and finds it again. *)

Abbreviation demo_ufm := (UnorderedFlatMap SSE2 PureFallback (V := nat) (λ (_ : unit) k, mix_hash (Z.of_nat k)) 64).

Lemma named_maps_refine_witness :
  ∃ t t', map_new demo_ufm () = Some t ∧ map_insert demo_ufm t 3 30 = Some (t', None) ∧
    map_get demo_ufm t' 3 = Some (Some 30) ∧ map_get demo_ufm t' 4 = Some None.
Proof.
  destruct (named_maps_refine SSE2 PureFallback (V := nat) (λ (_ : unit) k, mix_hash (Z.of_nat k)) 64)
    as ((Hufm & _) & Hready & _).
  set (t := {| table := OverflowTable.new; hash_builder := () |} : HashedMap (OverflowTable.RawTable nat nat) unit).
  pose proof (OverflowSpec.reach_new (V := nat) (UfmLayout SSE2 PureFallback) (λ k, mix_hash (Z.of_nat k)) 64) as Hnew.
  destruct (Hready t) as (_ & Hgrow & Hends). specialize (Hends ∅ Hnew).
  assert (mgrowable (overflow_rep (λ (_ : unit) k, mix_hash (Z.of_nat k)) 64 (UfmLayout SSE2 PureFallback)) t) as Hg.
  { apply Hgrow. split; [split; vm_compute; lia|exact Hends]. }
  destruct (ml_new (MapLaws := Hufm) ()) as (t0 & Hn & Hr0). assert (t0 = t) as -> by (by injection Hn).
  destruct (ml_insert (MapLaws := Hufm) t ∅ 3 30 Hr0 Hg) as (t' & Hi & Hr).
  exists t, t'. split; [exact Hn|]. split; [exact Hi|].
  assert (mready (overflow_rep (λ (_ : unit) k, mix_hash (Z.of_nat k)) 64 (UfmLayout SSE2 PureFallback)) t') as Hb.
  { destruct (Hready t') as (Hb & _ & Hends'). apply Hb. split.
    - revert Hi. vm_compute. intros [= <-]. cbn. lia.
    - apply (Hends' {[3 := 30]}).
      assert (∃ o, OverflowTable.insert_or_replace (UfmLayout SSE2 PureFallback) (λ k, mix_hash (Z.of_nat k)) 64
        OverflowTable.new 3 30 = Some (table t', o)) as [o Ho].
      { revert Hi. vm_compute. intros [= <-]. by eexists. }
      eapply OverflowSpec.reach_insert; [exact Hnew| |exact Ho]. split; vm_compute; lia. }
  split; [exact (ml_get (MapLaws := Hufm) t' _ 3 Hr Hb)|exact (ml_get (MapLaws := Hufm) t' _ 4 Hr Hb)].
Defined.
