(* ===== verification/GenericSetSpec.v ===== *)
(** * Sets over maps: correctness

    Against the contract of the map interface: each operation acts on the
    represented finite set as its mathematical counterpart, also between sets
    over different maps. *)

From Stdlib Require Import ZArith Lia.
From S2P Require Import Prelude TableApi MapApi HashTag Group BinSearch SortedAssoc NamedMaps.
From S2P Require GenericSet Layout BTreeNode BTreeSpec BTreeBackend.

Lemma all_items_ok {T} (f : T → option bool) (p : T → bool) (l : list T) :
  (∀ v, v ∈ l → f v = Some (p v)) → GenericSet.all_items f l = Some (forallb p l).
Proof.
  induction l as [|v l IH]; intros Hf; [done|]. cbn [GenericSet.all_items forallb]. rewrite Hf by by left.
  destruct (p v); [|done]. apply IH. intros w Hw. apply Hf. by right.
Qed.

Lemma forallb_True_in {T} (p : T → bool) l : forallb p l = true ↔ ∀ x, x ∈ l → p x = true.
Proof. rewrite List.forallb_forall. by setoid_rewrite list_elem_of_In. Qed.

Section items.
Context {T : Type} `{Countable T}.
Implicit Types (X Y : gset T) (x : T).

Lemma not_in_ok (f : T → option bool) X x : f x = Some (bool_decide (x ∈ X)) → GenericSet.not f x = Some (negb (bool_decide (x ∈ X))).
Proof. intros Hf. unfold GenericSet.not. by rewrite Hf. Qed.

Lemma forallb_in X Y l : (∀ x, x ∈ l ↔ x ∈ X) → forallb (λ x, bool_decide (x ∈ Y)) l = bool_decide (X ⊆ Y).
Proof.
  intros Hl. apply Bool.eq_true_iff_eq. rewrite forallb_True_in, bool_decide_eq_true. split.
  - intros Hall x Hx. by eapply bool_decide_eq_true, Hall, Hl.
  - intros Hsub x Hx. apply bool_decide_eq_true. set_solver.
Qed.

Lemma forallb_not_in X Y l : (∀ x, x ∈ l ↔ x ∈ X) → forallb (λ x, negb (bool_decide (x ∈ Y))) l = bool_decide (X ## Y).
Proof.
  intros Hl. apply Bool.eq_true_iff_eq. rewrite forallb_True_in, bool_decide_eq_true. split.
  - intros Hall x Hx Hy. apply Hl, Hall, negb_true_iff, bool_decide_eq_false in Hx. done.
  - intros Hd x Hx. apply negb_true_iff, bool_decide_eq_false. set_solver.
Qed.

Abbreviation items l p := (List.filter p l).

Lemma elem_of_items (p : T → bool) l x : x ∈ items l p ↔ x ∈ l ∧ p x = true.
Proof. by rewrite !list_elem_of_In, List.filter_In. Qed.

(** A filtered list of the items of a set. *)
Lemma filtered_items (p : T → bool) l X Y :
  (∀ x, x ∈ l ↔ x ∈ X) → (∀ x, x ∈ X → p x = true ↔ x ∈ Y) → (list_to_set (items l p) : gset T) = X ∩ Y.
Proof.
  intros Hl Hp. apply set_eq. intros x. rewrite elem_of_list_to_set, elem_of_items, Hl, elem_of_intersection.
  split; intros [Hx Hy]; (split; [done|]); by apply Hp.
Qed.

Lemma set_eq_of_subset X Y : X ⊆ Y → size Y <= size X → X = Y.
Proof.
  intros Hsub Hs. apply leibniz_equiv, (anti_symm (⊆)); [done|].
  intros y Hy. destruct (decide (y ∈ X)) as [|Hn]; [done|]. exfalso.
  pose proof (subset_size X Y) as Hlt. assert (X ⊂ Y) by set_solver. specialize (Hlt H0). lia.
Qed.
End items.

Abbreviation items l p := (List.filter p l).

Section set.
Context {S M E P T : Type} `{Countable T} (A : MapApi S M E P T unit) (R : MapRep M P T unit) `{!MapLaws A R}.
Implicit Types (t : M) (X Y : gset T) (x : T).

(** The set represented: the keys of the represented map. *)
Definition set_rep t X : Prop := mrep R t (gset_to_gmap () X).

Lemma lookup_set X x : (gset_to_gmap () X : gmap T unit) !! x = if decide (x ∈ X) then Some () else None.
Proof using Type. rewrite lookup_gset_to_gmap. by destruct (decide (x ∈ X)); [rewrite option_guard_True|rewrite option_guard_False]. Qed.

Lemma insert_set X x : <[x := ()]> (gset_to_gmap () X : gmap T unit) = gset_to_gmap () ({[x]} ∪ X).
Proof using Type. by rewrite gset_to_gmap_union_singleton. Qed.

Lemma delete_set X x : delete x (gset_to_gmap () X : gmap T unit) = gset_to_gmap () (X ∖ {[x]}).
Proof using Type. by rewrite gset_to_gmap_difference_singleton. Qed.

Lemma set_len_ok t X : set_rep t X → GenericSet.len A t = size X.
Proof using MapLaws0. intros Hr. unfold GenericSet.len. by rewrite (ml_len t _ Hr), <- size_dom, dom_gset_to_gmap. Qed.

Lemma set_contains_ok t X x : set_rep t X → mready R t → GenericSet.contains A t x = Some (bool_decide (x ∈ X)).
Proof using MapLaws0.
  intros Hr Hb. unfold GenericSet.contains. rewrite (ml_get t _ x Hr Hb), lookup_set.
  by destruct (decide (x ∈ X)); [rewrite bool_decide_true|rewrite bool_decide_false].
Qed.

Lemma set_iter_ok t X : set_rep t X → ∃ l, GenericSet.iter A t = Some l ∧ NoDup l ∧ ∀ x, x ∈ l ↔ x ∈ X.
Proof using MapLaws0.
  intros Hr. destruct (ml_iter t _ Hr) as (l & Hl & Hn & Hm). exists l.*1. unfold GenericSet.iter. rewrite Hl.
  split_and!; [done|done|]. intros x. rewrite <- (dom_gset_to_gmap X ()), <- Hm. by rewrite dom_list_to_map_L, elem_of_list_to_set.
Qed.

Lemma set_insert_ok t X x :
  set_rep t X → mgrowable R t →
  ∃ t', GenericSet.insert A t x = Some (t', bool_decide (x ∉ X)) ∧ set_rep t' ({[x]} ∪ X).
Proof using MapLaws0.
  intros Hr Hg. destruct (ml_insert t _ x () Hr Hg) as (t' & Hrun & Hr'). exists t'. unfold GenericSet.insert, set_rep.
  rewrite Hrun, lookup_set. split; [|by rewrite <- insert_set].
  by destruct (decide (x ∈ X)); [rewrite bool_decide_false by auto|rewrite bool_decide_true].
Qed.

Lemma set_remove_ok t X x :
  set_rep t X → mready R t →
  ∃ t', GenericSet.remove A t x = Some (t', bool_decide (x ∈ X)) ∧ set_rep t' (X ∖ {[x]}).
Proof using MapLaws0.
  intros Hr Hb. destruct (ml_remove t _ x Hr Hb) as (t' & Hrun & Hr'). exists t'. unfold GenericSet.remove, set_rep.
  rewrite Hrun, lookup_set, <- delete_set. split; [|done].
  by destruct (decide (x ∈ X)); [rewrite bool_decide_true|rewrite bool_decide_false].
Qed.

(** The budget covers the insertions. *)
Fixpoint insertable_items t (l : list T) : Prop :=
  match l with
  | [] => True
  | x :: l' => mgrowable R t ∧ match GenericSet.insert A t x with Some (t', _) => insertable_items t' l' | None => True end
  end.

Lemma set_extend_ok t X l :
  set_rep t X → insertable_items t l → ∃ t', GenericSet.extend A t l = Some t' ∧ set_rep t' (list_to_set l ∪ X).
Proof using MapLaws0.
  revert t X. induction l as [|x l IH]; intros t X Hr Hi.
  { exists t. split; [done|]. cbn. by rewrite (left_id_L ∅ (∪)). }
  destruct Hi as [Hg Hi]. destruct (set_insert_ok t X x Hr Hg) as (t1 & Hrun & Hr1). cbn [GenericSet.extend].
  rewrite Hrun in Hi |- *. destruct (IH t1 _ Hr1 Hi) as (t' & ? & Hr'). exists t'. split; [done|].
  replace (list_to_set (x :: l) ∪ X) with (list_to_set l ∪ ({[x]} ∪ X)) by set_solver. done.
Qed.

(** Collecting an iterator, with a table allocated for its lower bound. *)
Lemma set_from_iter_ok hb lower l :
  mcapable R lower → (∀ t, map_with_capacity A hb lower = Some t → insertable_items t l) →
  ∃ t, GenericSet.from_iter A hb lower l = Some t ∧ set_rep t (list_to_set l).
Proof using MapLaws0.
  intros Hc Hi. unfold GenericSet.from_iter, GenericSet.with_capacity. destruct (ml_with_capacity hb lower Hc) as (t & Hn & Hr).
  rewrite Hn. destruct (set_extend_ok t ∅ l) as (t' & -> & Hr'); [unfold set_rep; by rewrite gset_to_gmap_empty|by apply Hi|].
  rewrite (right_id_L ∅ (∪)) in Hr'. by exists t'.
Qed.

(** Inserting under a condition is inserting the items that satisfy it. *)
Lemma insert_if_extend (cond : T → option bool) (p : T → bool) l t :
  (∀ x, x ∈ l → cond x = Some (p x)) →
  GenericSet.insert_if A cond l t = GenericSet.extend A t (List.filter p l).
Proof using Type.
  revert t. induction l as [|x l IH]; intros t Hc; [done|]. cbn [GenericSet.insert_if List.filter]. rewrite Hc by by left.
  assert (∀ y, y ∈ l → cond y = Some (p y)) as Hc' by (intros y Hy; apply Hc; by right).
  destruct (p x); [|by apply IH]. cbn [GenericSet.extend]. destruct (GenericSet.insert A t x) as [[t' b]|]; [by apply IH|done].
Qed.

(** The operations of a set.  [insert] adds the value and tells whether it was
    absent, [remove] and [take] remove it and tell, or return, what was there,
    and the size, the membership test and the iteration are those of the finite
    set.  Size, iteration and clearing always return; the others when the map
    underneath is ready ([mready], [mgrowable]). *)
Theorem set_operations_correct t X x :
  set_rep t X →
  (GenericSet.len A t = size X ∧
   (∃ l, GenericSet.iter A t = Some l ∧ NoDup l ∧ ∀ y, y ∈ l ↔ y ∈ X) ∧
   (∃ t', GenericSet.clear A t = Some t' ∧ set_rep t' ∅)) ∧
  (mready R t →
   GenericSet.contains A t x = Some (bool_decide (x ∈ X)) ∧
   GenericSet.get A t x = Some (if decide (x ∈ X) then Some x else None) ∧
   (∃ t', GenericSet.remove A t x = Some (t', bool_decide (x ∈ X)) ∧ set_rep t' (X ∖ {[x]})) ∧
   (∃ t', GenericSet.take A t x = Some (t', if decide (x ∈ X) then Some x else None) ∧ set_rep t' (X ∖ {[x]}))) ∧
  (mgrowable R t →
   ∃ t', GenericSet.insert A t x = Some (t', bool_decide (x ∉ X)) ∧ set_rep t' ({[x]} ∪ X)).
Proof using MapLaws0.
  intros Hr. split; [|split; [intros Hb|intros Hg; by apply set_insert_ok]].
  - split; [by apply set_len_ok|]. split; [by apply set_iter_ok|].
    destruct (ml_clear t _ Hr) as (t' & ? & ?). exists t'. unfold set_rep. by rewrite gset_to_gmap_empty.
  - split; [by apply set_contains_ok|]. split.
    { unfold GenericSet.get. rewrite (ml_get_key_value t _ x Hr Hb), lookup_set. by destruct (decide (x ∈ X)). }
    split; [by apply set_remove_ok|].
    destruct (ml_remove_entry t _ x Hr Hb) as (t' & Hrun & Hr'). exists t'. unfold GenericSet.take, set_rep. rewrite Hrun, lookup_set, <- delete_set.
    split; [|done]. by destruct (decide (x ∈ X)).
Qed.
End set.

Section algebra.
Context {S M E P S2 M2 E2 P2 T : Type} `{Countable T}.
Context (A : MapApi S M E P T unit) (R : MapRep M P T unit) `{!MapLaws A R}.
Context (A2 : MapApi S2 M2 E2 P2 T unit) (R2 : MapRep M2 P2 T unit) `{!MapLaws A2 R2}.
Implicit Types (t : M) (other : M2) (X Y : gset T) (x : T) (hb : S).

Lemma set_comparisons_ok t X other Y :
  set_rep R t X → set_rep R2 other Y → mready R t → mready R2 other →
  GenericSet.is_disjoint A A2 t other = Some (bool_decide (X ## Y)) ∧
  GenericSet.is_subset A A2 t other = Some (bool_decide (X ⊆ Y)) ∧
  GenericSet.is_superset A A2 t other = Some (bool_decide (Y ⊆ X)).
Proof using MapLaws0 MapLaws1.
  intros Hr Hr2 Hb Hb2. destruct (set_iter_ok A R t X Hr) as (l & Hl & _ & Hin). destruct (set_iter_ok A2 R2 other Y Hr2) as (l2 & Hl2 & _ & Hin2).
  pose proof (λ x, set_contains_ok A R t X x Hr Hb) as Hc. pose proof (λ x, set_contains_ok A2 R2 other Y x Hr2 Hb2) as Hc2.
  unfold GenericSet.is_superset, GenericSet.is_subset, GenericSet.is_disjoint.
  rewrite Hl, Hl2, (set_len_ok A R t X Hr), (set_len_ok A2 R2 other Y Hr2). split_and!.
  - destruct (size X <=? size Y).
    + rewrite (all_items_ok _ (λ x, negb (bool_decide (x ∈ Y)))) by (intros; by apply not_in_ok). by rewrite (forallb_not_in X Y).
    + rewrite (all_items_ok _ (λ x, negb (bool_decide (x ∈ X)))) by (intros; by apply not_in_ok). rewrite (forallb_not_in Y X) by done.
      f_equal. apply bool_decide_ext. set_solver.
  - destruct (Nat.ltb_spec (size Y) (size X)) as [Hlt|Hge].
    + rewrite bool_decide_false; [done|]. intros Hsub%subseteq_size. lia.
    + rewrite (all_items_ok _ (λ x, bool_decide (x ∈ Y))) by done. by rewrite (forallb_in X Y).
  - destruct (Nat.ltb_spec (size X) (size Y)) as [Hlt|Hge].
    + rewrite bool_decide_false; [done|]. intros Hsub%subseteq_size. lia.
    + rewrite (all_items_ok _ (λ x, bool_decide (x ∈ X))) by done. by rewrite (forallb_in Y X).
Qed.

(** The comparisons of two sets - over the same map type or over different
    ones - decide disjointness and inclusion of the sets they represent. *)
Theorem set_comparisons_correct t X other Y :
  set_rep R t X → set_rep R2 other Y → mready R t → mready R2 other →
  GenericSet.is_disjoint A A2 t other = Some (bool_decide (X ## Y)) ∧
  GenericSet.is_subset A A2 t other = Some (bool_decide (X ⊆ Y)) ∧
  GenericSet.is_superset A A2 t other = Some (bool_decide (Y ⊆ X)).
Proof using MapLaws0 MapLaws1. apply set_comparisons_ok. Qed.

(** The insertions of the result's items, into the new set, are within the budget. *)
Definition collectable hb (l : list T) : Prop := ∀ t, map_new A hb = Some t → insertable_items A R t l.

Lemma collect_ok hb l : collectable hb l →
  ∃ t t', GenericSet.new A hb = Some t ∧ GenericSet.extend A t l = Some t' ∧ set_rep R t' (list_to_set l).
Proof using MapLaws0.
  intros Hc. destruct (ml_new hb) as (t & Hn & Hr). exists t. specialize (Hc t Hn).
  destruct (set_extend_ok A R t ∅ l) as (t' & ? & Hr'); [by unfold set_rep; rewrite gset_to_gmap_empty|done|].
  rewrite (right_id_L ∅ (∪)) in Hr'. by exists t'.
Qed.

(** C17: two sets, over the same map type or over different ones, whose maps are
    ready for lookups.  The comparisons decide disjointness and inclusion of the
    represented sets, in either order of the sizes; [intersection], which scans
    the smaller set, and [difference] build the intersection and the difference
    when the new set can take the items they insert. *)
Theorem set_meet_correct hb t X other Y :
  set_rep R t X → set_rep R2 other Y → mready R t → mready R2 other →
  (GenericSet.is_disjoint A A2 t other = Some (bool_decide (X ## Y)) ∧
   GenericSet.is_subset A A2 t other = Some (bool_decide (X ⊆ Y)) ∧
   GenericSet.is_superset A A2 t other = Some (bool_decide (Y ⊆ X))) ∧
  ((∀ l l2, GenericSet.iter A t = Some l → GenericSet.iter A2 other = Some l2 →
      collectable hb (if size X <=? size Y then items l (λ x, bool_decide (x ∈ Y)) else items l2 (λ x, bool_decide (x ∈ X)))) →
   ∃ t', GenericSet.intersection A A2 hb t other = Some t' ∧ set_rep R t' (X ∩ Y)) ∧
  ((∀ l, GenericSet.iter A t = Some l → collectable hb (items l (λ x, negb (bool_decide (x ∈ Y))))) →
   ∃ t', GenericSet.difference A A2 hb t other = Some t' ∧ set_rep R t' (X ∖ Y)).
Proof using MapLaws0 MapLaws1.
  intros Hr Hr2 Hb Hb2. split; [by apply set_comparisons_ok|]. destruct (set_iter_ok A R t X Hr) as (l & Hl & _ & Hin). destruct (set_iter_ok A2 R2 other Y Hr2) as (l2 & Hl2 & _ & Hin2).
  pose proof (λ x, set_contains_ok A R t X x Hr Hb) as Hc. pose proof (λ x, set_contains_ok A2 R2 other Y x Hr2 Hb2) as Hc2.
  unfold GenericSet.intersection, GenericSet.difference.
  rewrite Hl, Hl2, (set_len_ok A R t X Hr), (set_len_ok A2 R2 other Y Hr2).
  split; [intros Hi; specialize (Hi l l2 eq_refl eq_refl)|intros Hd; specialize (Hd l eq_refl)].
  - destruct (size X <=? size Y); destruct (collect_ok hb _ Hi) as (t0 & t' & -> & Hx & Hr'); exists t'.
    + rewrite (insert_if_extend A _ (λ x, bool_decide (x ∈ Y))), Hx by done. split; [done|].
      rewrite (filtered_items _ l X Y) in Hr'; [done..|]. intros x _. apply bool_decide_eq_true.
    + rewrite (insert_if_extend A _ (λ x, bool_decide (x ∈ X))), Hx by done. split; [done|].
      rewrite (filtered_items _ l2 Y X), (comm_L (∩)) in Hr'; [done..|]. intros x _. apply bool_decide_eq_true.
  - destruct (collect_ok hb _ Hd) as (t0 & t' & -> & Hx & Hr'). exists t'.
    rewrite (insert_if_extend A _ (λ x, negb (bool_decide (x ∈ Y)))), Hx by (intros; by apply not_in_ok). split; [done|].
    rewrite (filtered_items _ l X (X ∖ Y)) in Hr'; [|done|].
    + replace (X ∩ (X ∖ Y)) with (X ∖ Y) in Hr' by set_solver. done.
    + intros x Hx0. rewrite negb_true_iff, bool_decide_eq_false. set_solver.
Qed.
End algebra.

Section same.
Context {S M E P T : Type} `{Countable T} (A : MapApi S M E P T unit) (R : MapRep M P T unit) `{!MapLaws A R}.
Implicit Types (t other : M) (X Y : gset T) (x : T) (hb : S).

Lemma insertable_app t X l l2 :
  set_rep R t X → insertable_items A R t (l ++ l2) →
  insertable_items A R t l ∧ ∀ t', GenericSet.extend A t l = Some t' → insertable_items A R t' l2.
Proof using MapLaws0.
  revert t X. induction l as [|x l IH]; intros t X Hr Hi; [split; [done|]; by intros t' [= <-]|].
  destruct Hi as [Hg Hi]. destruct (set_insert_ok A R t X x Hr Hg) as (t1 & Hrun & Hr1). cbn [insertable_items GenericSet.extend].
  rewrite Hrun in Hi |- *. destruct (IH t1 _ Hr1 Hi) as [? ?]. by split_and!.
Qed.

(** Inserting two lists one after the other. *)
Lemma extend_twice t l l2 :
  set_rep R t ∅ → insertable_items A R t (l ++ l2) →
  ∃ t1 t2, GenericSet.extend A t l = Some t1 ∧ GenericSet.extend A t1 l2 = Some t2 ∧
    set_rep R t2 (list_to_set l2 ∪ list_to_set l).
Proof using MapLaws0.
  intros Hr Hi. destruct (insertable_app t ∅ l l2 Hr Hi) as [Hi1 Hi2].
  destruct (set_extend_ok A R t ∅ l Hr Hi1) as (t1 & Ht1 & Hr1). destruct (set_extend_ok A R t1 _ l2 Hr1 (Hi2 t1 Ht1)) as (t2 & Ht2 & Hr2).
  exists t1, t2. rewrite (right_id_L ∅ (∪)) in Hr2. by split_and!.
Qed.

(** C20: [union] and [symmetric_difference] build the union and the symmetric
    difference, and two sets compare equal exactly when they have the same
    elements. *)
Theorem set_join_correct hb t X other Y :
  set_rep R t X → set_rep R other Y → mready R t → mready R other →
  mcapable R (Z.of_nat (size X + size Y)) →
  (∀ l l2, GenericSet.iter A t = Some l → GenericSet.iter A other = Some l2 →
     (∀ t0, map_with_capacity A hb (Z.of_nat (size X + size Y)) = Some t0 → insertable_items A R t0 (l ++ l2)) ∧
     collectable A R hb (items l (λ x, negb (bool_decide (x ∈ Y))) ++ items l2 (λ x, negb (bool_decide (x ∈ X))))) →
  (∃ t', GenericSet.union A hb t other = Some t' ∧ set_rep R t' (X ∪ Y)) ∧
  (∃ t', GenericSet.symmetric_difference A hb t other = Some t' ∧ set_rep R t' ((X ∖ Y) ∪ (Y ∖ X))) ∧
  GenericSet.eq_set A t other = Some (bool_decide (X = Y)).
Proof using MapLaws0.
  intros Hr Hr2 Hb Hb2 Hcap Hi. destruct (set_iter_ok A R t X Hr) as (l & Hl & _ & Hin). destruct (set_iter_ok A R other Y Hr2) as (l2 & Hl2 & _ & Hin2).
  destruct (Hi l l2 Hl Hl2) as [Hu Hs].
  pose proof (λ x, set_contains_ok A R t X x Hr Hb) as Hc. pose proof (λ x, set_contains_ok A R other Y x Hr2 Hb2) as Hc2.
  unfold GenericSet.union, GenericSet.symmetric_difference, GenericSet.eq_set, GenericSet.with_capacity.
  rewrite Hl, Hl2, (set_len_ok A R t X Hr), (set_len_ok A R other Y Hr2). split_and!.
  - destruct (ml_with_capacity hb _ Hcap) as (t0 & Hn & Hr0). rewrite Hn.
    destruct (extend_twice t0 l l2) as (t1 & t2 & -> & -> & Hr'); [unfold set_rep; by rewrite gset_to_gmap_empty|by apply Hu|].
    exists t2. split; [done|]. replace (X ∪ Y) with ((list_to_set l2 : gset T) ∪ list_to_set l); [done|]. set_solver.
  - destruct (ml_new hb) as (t0 & Hn & Hr0). unfold GenericSet.new. rewrite Hn. specialize (Hs t0 Hn).
    rewrite (insert_if_extend A _ (λ x, negb (bool_decide (x ∈ Y)))) by (intros; by apply not_in_ok).
    assert (set_rep R t0 ∅) as Hr0' by (unfold set_rep; by rewrite gset_to_gmap_empty).
    destruct (extend_twice t0 _ _ Hr0' Hs) as (t1 & t2 & -> & Hx & Hr').
    rewrite (insert_if_extend A _ (λ x, negb (bool_decide (x ∈ X)))), Hx by (intros; by apply not_in_ok).
    exists t2. split; [done|].
    rewrite (filtered_items _ l X (X ∖ Y)), (filtered_items _ l2 Y (Y ∖ X)) in Hr'; try done.
    + replace (X ∖ Y ∪ Y ∖ X) with (Y ∩ (Y ∖ X) ∪ X ∩ (X ∖ Y)); [done|]. set_solver.
    + intros x Hx'. rewrite negb_true_iff, bool_decide_eq_false. set_solver.
    + intros x Hx'. rewrite negb_true_iff, bool_decide_eq_false. set_solver.
  - destruct (Nat.eqb_spec (size X) (size Y)) as [Hs'|Hs']; cbn [negb].
    2: { rewrite bool_decide_false; [done|]. by intros ->. }
    rewrite (all_items_ok _ (λ x, bool_decide (x ∈ Y))), (forallb_in X Y) by done. f_equal. apply bool_decide_ext.
    split; [|by intros ->]. intros Hsub. apply set_eq_of_subset; [done|lia].
Qed.
End same.

(** ** Sets over sorted maps *)

Section sorted.
Context {M P T : Type} `{OrdLaws T} `{Countable T} (B : SortedApi M T unit) (R : MapRep M P T unit) (O : SortedRep M T) `{!SortedLaws B R O}.
Implicit Types (t u : M) (X Y : gset T) (x : T).

Lemma unit_map (l : list (T * unit)) : (list_to_map l : gmap T unit) = gset_to_gmap () (list_to_set l.*1).
Proof using Type.
  induction l as [|[k []] l IH]; [cbn; by rewrite gset_to_gmap_empty|]. cbn [list_to_map foldr fst snd fmap list_fmap list_to_set].
  by rewrite IH, gset_to_gmap_union_singleton.
Qed.

Lemma fst_filter (p : T → bool) (l : list (T * unit)) : (List.filter (λ e, p e.1) l).*1 = List.filter p l.*1.
Proof using Type. induction l as [|[k []] l IH]; [done|]. cbn. destruct (p k); csimpl; by rewrite IH. Qed.

Lemma head_fst (l : list (T * unit)) : fst <$> head l = head l.*1.
Proof using Type. by destruct l. Qed.

Lemma last_fst (l : list (T * unit)) : fst <$> last l = last l.*1.
Proof using Type. by rewrite fmap_last. Qed.

Lemma removelast_fst (l : list (T * unit)) : (removelast l).*1 = removelast l.*1.
Proof using Type. induction l as [|e [|e' l] IH]; [done..|]. cbn [removelast fmap list_fmap] in *. by rewrite IH. Qed.

Lemma set_rep_keys t l : mrep R t (list_to_map l) → set_rep R t (list_to_set l.*1).
Proof using Type. unfold set_rep. by rewrite unit_map. Qed.

(** The sorted operations of a set: the elements in order, the least and the
    greatest, removal of either, the elements within bounds; splitting at a value
    and moving all elements of another set over. *)
Theorem sorted_set_correct t X :
  set_rep R t X →
  ∃ l, GenericSet.iter_sorted B t = Some l ∧ sorted_keys l ∧ (∀ x, x ∈ l ↔ x ∈ X) ∧
    GenericSet.first B t = Some (head l) ∧ GenericSet.last B t = Some (last l) ∧
    (∃ t', GenericSet.pop_first B t = Some (t', head l) ∧ set_rep R t' (list_to_set (tail l))) ∧
    (∃ t', GenericSet.pop_last B t = Some (t', last l) ∧ set_rep R t' (list_to_set (removelast l))) ∧
    (∀ sb eb, srange O t → bounds_ordered sb eb → GenericSet.range B t sb eb = Some (List.filter (in_bounds sb eb) l)) ∧
    (∀ x, ssplit O t x → ∃ t' u, GenericSet.split_off B t x = Some (t', u) ∧
       set_rep R t' (list_to_set (List.filter (λ y, ltb y x) l)) ∧ set_rep R u (list_to_set (List.filter (leb x) l))) ∧
    (∀ u Y, set_rep R u Y → sjoin O t u → ∃ t' u', GenericSet.append B t u = Some (t', u') ∧
       set_rep R t' (Y ∪ X) ∧ set_rep R u' ∅).
Proof using Type*.
  intros Hr. destruct (sl_iter t _ Hr) as (l & Hl & Ho). destruct (sl_ends t _ l Hr Ho) as [Hf Hla].
  destruct (sl_pops t _ l Hr Ho) as [(t1 & Hp1 & Hr1) (t2 & Hp2 & Hr2)]. exists l.*1.
  split; [unfold GenericSet.iter_sorted; by rewrite Hl|]. split; [apply Ho|]. split.
  { intros x. rewrite <- (dom_gset_to_gmap X ()). destruct Ho as [_ <-]. by rewrite dom_list_to_map_L, elem_of_list_to_set. }
  split; [unfold GenericSet.first; rewrite Hf; cbn; by rewrite head_fst|].
  split; [unfold GenericSet.last; rewrite Hla; cbn; by rewrite last_fst|].
  split; [exists t1; unfold GenericSet.pop_first; rewrite Hp1, <- head_fst; split; [done|]|].
  { apply set_rep_keys in Hr1. by rewrite <- fmap_tail. }
  split; [exists t2; unfold GenericSet.pop_last; rewrite Hp2, <- last_fst; split; [done|]|].
  { apply set_rep_keys in Hr2. by rewrite <- removelast_fst. }
  split; [|split].
  - intros sb eb Hs Hb. unfold GenericSet.range. rewrite (sl_range t _ l sb eb Hr Ho Hs Hb). cbn. by rewrite fst_filter.
  - intros x Hs. destruct (sl_split t _ l x Hr Ho Hs) as (t' & u & Hrun & Ht & Hu). exists t', u. split; [exact Hrun|].
    apply set_rep_keys in Ht, Hu. unfold sm_to, sm_from in *. rewrite (fst_filter (λ y, ltb y x)) in Ht. by rewrite (fst_filter (leb x)) in Hu.
  - intros u Y Hu Hj. destruct (sl_append t _ u _ Hr Hu Hj) as (t' & u' & Hrun & Ht & Hu'). exists t', u'. split; [exact Hrun|].
    unfold set_rep. rewrite gset_to_gmap_empty. split; [|done].
    replace (gset_to_gmap () (Y ∪ X)) with (gset_to_gmap () Y ∪ gset_to_gmap () X : gmap T unit); [done|].
    apply map_eq. intros x. rewrite lookup_union, !lookup_set. by do 3 case_decide; set_solver.
Qed.
End sorted.

(** ** Examples: a hash set and a tree set *)

Definition demo_hash (_ : unit) (k : nat) : Z := Z.of_nat k.
Abbreviation demo_api := (Splitsies (V := unit) SSE2 PureFallback demo_hash 64).
Abbreviation demo_rep := (overflow_rep (V := unit) demo_hash 64 (Layout.SplitsiesLayout SSE2 PureFallback)).
Abbreviation demo_tree_api := (BTreeBackend.btree_hashed_api (S := unit) (K := nat) (V := unit) BTreeSpec.small_key BTreeSpec.small_val).
Abbreviation demo_tree_rep := (BTreeBackend.btree_rep (K := nat) (V := unit) BTreeSpec.small_key BTreeSpec.small_val).

Definition demo_table l := GenericSet.from_iter demo_api () 0 l.
Definition demo_tree l := GenericSet.from_iter demo_tree_api () 0 l.

Ltac budget := first [intros _; apply (OverflowProbe.clear_group_ends _ _ _ 0); vm_compute; first [done|lia]
                     |vm_compute; first [done|lia|discriminate]].
Ltac ready := clear; cbn; split_and!; budget.

Ltac run_insertions := clear; repeat match goal with
  | |- insertable_items _ _ _ [] => exact I
  | |- insertable_items _ _ _ (_ :: _) => split; [cbn; split_and!; budget|]
  | |- match ?r with Some _ => _ | None => _ end => let r' := eval vm_compute in r in change r with r'; cbv iota beta
  end.

Lemma demo_table_ok : ∃ t, demo_table [1; 2; 3] = Some t ∧ set_rep demo_rep t (list_to_set [1; 2; 3]).
Proof.
  apply (set_from_iter_ok demo_api demo_rep (MapLaws0 := splitsies_laws SSE2 PureFallback demo_hash 64)).
  - intros h. split; [by split; vm_compute|]. exact Memory.group_count_1.
  - intros t Ht. vm_compute in Ht. injection Ht as <-. run_insertions.
Qed.

Lemma demo_tree_ok : ∃ t, demo_tree [2; 3; 4] = Some t ∧ set_rep demo_tree_rep t (list_to_set [2; 3; 4]).
Proof.
  apply (set_from_iter_ok demo_tree_api demo_tree_rep (MapLaws0 := BTreeBackend.btree_hashed_laws BTreeSpec.small_key BTreeSpec.small_val eq_refl)).
  - split; vm_compute; done.
  - intros t Ht. vm_compute in Ht. injection Ht as <-. run_insertions.
Qed.

Abbreviation demo_laws := (splitsies_laws SSE2 PureFallback demo_hash 64).
Abbreviation demo_tree_laws := (BTreeBackend.btree_hashed_laws BTreeSpec.small_key BTreeSpec.small_val eq_refl).

Lemma set_operations_correct_witness :
  ∃ t t', demo_table [1; 2; 3] = Some t ∧ GenericSet.insert demo_api t 2 = Some (t', false).
Proof.
  destruct demo_table_ok as (t & Ht & Hr). pose proof Ht as Ht'. vm_compute in Ht'. injection Ht' as Ht'.
  destruct (set_operations_correct (MapLaws0 := demo_laws) demo_api demo_rep t _ 2 Hr)
    as (_ & _ & Hins). destruct Hins as (t' & Hi & _); [subst t; ready|].
  exists t, t'. by split.
Defined.

Lemma set_comparisons_correct_witness :
  ∃ t o, demo_table [1; 2; 3] = Some t ∧ demo_tree [2; 3; 4] = Some o ∧
    GenericSet.is_disjoint demo_api demo_tree_api t o = Some false.
Proof.
  destruct demo_table_ok as (t & Ht & Hr). destruct demo_tree_ok as (o & Ho & Hro).
  pose proof Ht as Ht'. vm_compute in Ht'. injection Ht' as Ht'.
  destruct (set_comparisons_correct (MapLaws0 := demo_laws) (MapLaws1 := demo_tree_laws) demo_api demo_rep demo_tree_api demo_tree_rep t _ o _ Hr Hro)
    as (Hd & _); [subst t; ready|exact I|].
  exists t, o. split; [done|]. split; [done|]. rewrite Hd. reflexivity.
Defined.

Lemma set_meet_correct_witness :
  ∃ t o t', demo_table [1; 2; 3] = Some t ∧ demo_tree [2; 3; 4] = Some o ∧
    GenericSet.is_disjoint demo_api demo_tree_api t o = Some false ∧
    GenericSet.intersection demo_api demo_tree_api () t o = Some t' ∧ set_rep demo_rep t' (list_to_set [2; 3]).
Proof.
  destruct demo_table_ok as (t & Ht & Hr). destruct demo_tree_ok as (o & Ho & Hro).
  pose proof Ht as Ht'. vm_compute in Ht'. injection Ht' as Ht'. pose proof Ho as Ho'. vm_compute in Ho'. injection Ho' as Ho'.
  destruct (set_meet_correct (MapLaws0 := demo_laws) (MapLaws1 := demo_tree_laws) demo_api demo_rep demo_tree_api demo_tree_rep () t _ o _ Hr Hro)
    as ((Hd & _) & Hmeet & _); [subst t; ready|exact I|].
  destruct Hmeet as (t' & Hi & Hr').
  - intros l l2 Hl Hl2 t0 Hn. subst t o. clear Ht Ho Hr Hro Hd. vm_compute in Hl, Hl2, Hn. injection Hl as <-. injection Hl2 as <-. injection Hn as <-.
    match goal with |- insertable_items _ _ _ ?l => let l' := eval vm_compute in l in change l with l' end. run_insertions.
  - exists t, o, t'. split; [done|]. split; [done|]. split; [rewrite Hd; reflexivity|]. by split.
Defined.

Lemma set_join_correct_witness :
  ∃ t t', demo_table [1; 2; 3] = Some t ∧ GenericSet.union demo_api () t t = Some t' ∧ GenericSet.eq_set demo_api t t = Some true.
Proof.
  destruct demo_table_ok as (t & Ht & Hr). pose proof Ht as Ht'. vm_compute in Ht'. injection Ht' as Ht'.
  destruct (set_join_correct (MapLaws0 := demo_laws) demo_api demo_rep () t _ t _ Hr Hr) as ((t' & Hu & _) & _ & He).
  - subst t; ready.
  - subst t; ready.
  - intros h. split; [by split; vm_compute|]. exact Memory.group_count_1.
  - intros l l2 Hl Hl2. subst t. clear Ht Hr. vm_compute in Hl, Hl2. injection Hl as <-. injection Hl2 as <-. split.
    + intros t0 Hn. vm_compute in Hn. injection Hn as <-. cbn [app]. run_insertions.
    + intros t0 Hn. vm_compute in Hn. injection Hn as <-.
      match goal with |- insertable_items _ _ _ ?l => let l' := eval vm_compute in l in change l with l' end. run_insertions.
  - exists t, t'. split_and!; try done.
Defined.

Lemma sorted_set_correct_witness :
  ∃ t t' u, demo_tree [2; 3; 4] = Some t ∧
    GenericSet.split_off (BTreeBackend.btree_sorted_api (K := nat) (V := unit) BTreeSpec.small_key BTreeSpec.small_val true) t 3 = Some (t', u) ∧
    set_rep demo_tree_rep t' (list_to_set [2]) ∧ set_rep demo_tree_rep u (list_to_set [3; 4]).
Proof.
  destruct demo_tree_ok as (t & Ht & Hr). pose proof Ht as Ht'. vm_compute in Ht'. injection Ht' as Ht'.
  destruct (sorted_set_correct (SortedLaws0 := BTreeBackend.btree_sorted_laws BTreeSpec.small_key BTreeSpec.small_val eq_refl true)
    (BTreeBackend.btree_sorted_api BTreeSpec.small_key BTreeSpec.small_val true) demo_tree_rep
    (BTreeBackend.btree_sorted_rep BTreeSpec.small_key BTreeSpec.small_val) t _ Hr)
    as (l & Hl & _ & _ & _ & _ & _ & _ & _ & Hs & _).
  subst t. vm_compute in Hl. injection Hl as <-.
  destruct (Hs 3) as (t' & u & Hrun & Ht1 & Hu1).
  { split; [apply (bool_decide_unpack _); vm_compute; exact I|]. split_and!; vm_compute; first [done|lia|discriminate]. }
  eexists _, t', u. split; [exact Ht|]. split; [exact Hrun|]. by split.
Defined.
