(* ===== verification/LegacyTable.v ===== *)
(** * The legacy table

    [raw/mod.rs] and [raw/group.rs]: the table under [UnorderedFlatSet], written
    for 15-slot groups with an embedded overflow byte before the table over
    layouts replaced it.  Its operations are given as the file writes them and
    shown to be those of the overflow-bit engine with a layout of their own, so
    that the engine's theorems hold for it; prefetching has no effect. *)

From Stdlib Require Import ZArith Lia.
From S2P Require Import Prelude Probe SlotMap SlotWalk Bitmask HashTag Group Layout TagTable OverflowTable.
From S2P Require Import OverflowInv OverflowWrite OverflowProbe OverflowOps OverflowApi OverflowEntry OverflowSpec MapApi OverflowMap.

(** ** Groups of 15 slots and an overflow byte *)

(*@ raw/group.rs : 3-11 : GROUP_SIZE, META_GROUP_BYTES *)
Definition GROUP_SIZE : nat := 15.
Definition META_GROUP_BYTES : nat := 16.

(*@ raw/group.rs : pub fn overflow_bit *)
Definition overflow_bit (h : Z) : Z := shl_u8 1 (Z.land h 7).

Section group.
Context (tier : simd_tier).
Implicit Types (ctrl : list Z) (ptr : nat).

(*@ raw/group.rs : pub unsafe fn match_byte( @1 *)
Definition group_match_byte ctrl ptr (value : Z) : Z := Z.land (match_byte_full_16 tier ctrl ptr value) 0x7FFF.

(*@ raw/group.rs : pub unsafe fn match_empty( @1 *)
Definition group_match_empty_sse2 ctrl ptr : Z :=
  let data := simd_load 16 ctrl ptr in
  let zero := simd_set1 16 0 in
  let cmp := simd_cmpeq data zero in
  Z.land (simd_movemask cmp) 0x7FFF.

(*@ raw/group.rs : pub unsafe fn match_empty( @2 *)
Definition group_match_empty ctrl ptr : Z :=
  match tier with Scalar => group_match_byte ctrl ptr EMPTY | _ => group_match_empty_sse2 ctrl ptr end.

(*@ raw/group.rs : pub unsafe fn match_non_empty( @1 *)
Definition group_match_non_empty_sse2 ctrl ptr : Z :=
  let data := simd_load 16 ctrl ptr in
  let zero := simd_set1 16 0 in
  let cmp := simd_cmpeq data zero in
  let mask := simd_movemask cmp in
  Z.land (not_w 16 mask) 0x7FFF.

(*@ raw/group.rs : pub unsafe fn match_non_empty( @2 *)
Definition group_match_non_empty ctrl ptr : Z :=
  match tier with
  | Scalar => scalar_mask GROUP_SIZE ctrl ptr (λ b, negb (b =? EMPTY)%Z)
  | _ => group_match_non_empty_sse2 ctrl ptr
  end.

(*@ raw/group.rs : pub unsafe fn match_byte_and_empty( @1 *)
Definition group_match_byte_and_empty_sse2 ctrl ptr (value : Z) : Z * Z :=
  let data := simd_load 16 ctrl ptr in
  let needle := simd_set1 16 value in
  let zero := simd_set1 16 0 in
  let match_cmp := simd_cmpeq data needle in
  let empty_cmp := simd_cmpeq data zero in
  (Z.land (simd_movemask match_cmp) 0x7FFF, Z.land (simd_movemask empty_cmp) 0x7FFF).

(*@ raw/group.rs : pub unsafe fn match_byte_and_empty( @2 *)
Definition group_match_byte_and_empty ctrl ptr (value : Z) : Z * Z :=
  match tier with
  | Scalar => (group_match_byte ctrl ptr value, group_match_empty ctrl ptr)
  | _ => group_match_byte_and_empty_sse2 ctrl ptr value
  end.

(*@ raw/group.rs : pub unsafe fn has_overflow_bit @1 *)
Definition group_has_overflow_bit ctrl ptr (bit : Z) : bool := negb (Z.land (byte_at ctrl (ptr + GROUP_SIZE)) bit =? 0)%Z.

(*@ raw/group.rs : pub unsafe fn set_overflow_bit @1 *)
Definition group_set_overflow_bit ctrl ptr (bit : Z) : list Z :=
  set_byte ctrl (ptr + GROUP_SIZE) (Z.lor (byte_at ctrl (ptr + GROUP_SIZE)) bit).

Definition LegacyGroup : GroupOps := {|
  Mask := BitMask;
  match_byte := group_match_byte;
  match_empty := group_match_empty;
  match_non_empty := group_match_non_empty;
  match_byte_and_empty := group_match_byte_and_empty;
|}.

#[export] Instance LegacyGroup_ok : GroupOk LegacyGroup 15.
Proof.
  assert (∀ ctrl ptr v, mask_repr (match_byte_full_16 tier ctrl ptr v) 16 (λ i, (byte_at ctrl (ptr + i) =? v)%Z)) as Hfull.
  { intros ctrl ptr v. destruct tier; (apply scalar_repr || apply cmpeq_repr). }
  assert (∀ ctrl ptr v, mask_repr (group_match_byte ctrl ptr v) 15 (λ i, (byte_at ctrl (ptr + i) =? v)%Z)) as Hbyte.
  { intros ctrl ptr v. by apply (land_ones_repr _ 16); [apply Hfull|lia|]. }
  split; cbn [Mask LegacyGroup match_byte match_empty match_non_empty match_byte_and_empty]; [cbn; lia|exact Hbyte|..].
  - intros ctrl ptr. unfold group_match_empty, group_match_empty_sse2. destruct tier; [apply Hbyte|..]; by apply (land_ones_repr _ 16); [apply cmpeq_repr|lia|].
  - intros ctrl ptr. unfold group_match_non_empty, group_match_non_empty_sse2. destruct tier; [apply scalar_repr|..];
      by apply (land_ones_repr _ 16); [apply not_repr; [apply cmpeq_repr|]|lia|].
  - intros ctrl ptr v. unfold group_match_byte_and_empty, group_match_byte, group_match_empty, match_byte_full_16. by destruct tier.
Qed.
End group.

(** The layout of the engine that this table has. *)
Definition LegacyLayout (tier : simd_tier) (f : hash_feature) : GroupLayout := embedded_layout (LegacyGroup tier) 15 15 16 High (LowTag255 f).

#[export] Instance LegacyLayout_ok tier f : LayoutOk (LegacyLayout tier f).
Proof. apply embedded_ok; try apply _; lia. Qed.

(** The masks of a group depend on the bytes alone. *)
Lemma masks_agree {G gs} `{!GroupOk G gs} (l l' : list Z) (p : nat) (v : Z) :
  (∀ i, byte_at l i = byte_at l' i) →
  match_byte G l p v = match_byte G l' p v ∧ match_empty G l p = match_empty G l' p ∧
  match_non_empty G l p = match_non_empty G l' p ∧
  match_byte_and_empty G l p v = match_byte_and_empty G l' p v.
Proof.
  intros E. assert (match_byte G l p v = match_byte G l' p v) as E1.
  { eapply mask_repr_eq; [apply match_byte_repr|]. eapply mask_repr_ext; [apply match_byte_repr|]. intros i _. cbv beta. by rewrite E. }
  assert (match_empty G l p = match_empty G l' p) as E2.
  { eapply mask_repr_eq; [apply match_empty_repr|]. eapply mask_repr_ext; [apply match_empty_repr|]. intros i _. cbv beta. by rewrite E. }
  split_and!; [done|done| |by rewrite !match_both, E1, E2].
  eapply mask_repr_eq; [apply match_non_empty_repr|]. eapply mask_repr_ext; [apply match_non_empty_repr|]. intros i _. cbv beta. by rewrite E.
Qed.

(** Loops whose bodies agree. *)
Lemma probe_loop_ext {S R} (body body' : nat → nat → S → R + S) fuel m p gi s :
  (∀ p gi s, body p gi s = body' p gi s) → probe_loop fuel m body p gi s = probe_loop fuel m body' p gi s.
Proof.
  intros E. revert p gi s. induction fuel as [|n IH]; intros p gi s; [done|]. cbn [probe_loop]. rewrite E.
  destruct (body' p gi s); [done|apply IH].
Qed.

(** ** The table *)

Module Legacy.
Section table.
Context (tier : simd_tier) (f : hash_feature) {K V : Type} `{EqDecision K} (hash_key : K → Z).

Abbreviation match_byte := (group_match_byte tier).
Abbreviation match_empty := (group_match_empty tier).
Abbreviation match_non_empty := (group_match_non_empty tier).
Abbreviation match_byte_and_empty := (group_match_byte_and_empty tier).

(*@ raw/mod.rs : pub struct RawTable *)
Definition LegacyRawTable : Type := RawTable K V.
Implicit Types t : LegacyRawTable.

(*@ raw/mod.rs : pub(crate) enum ProbeResult *)
Definition ProbeResult : Type := FindOrLocateResult.

(** The bytes [metadata] points to. *)
(*@ raw/mod.rs : 22-27 : EMPTY_SENTINEL *)
Definition metadata t : list Z := match ctrl t with EMPTY_SENTINEL => replicate 16 0%Z | Alloc b => bytes b end.

(*@ raw/mod.rs : fn max_load_for_capacity *)
Definition max_load_for_capacity (capacity : nat) : nat := capacity * 7 / 8.

(*@ raw/mod.rs : pub fn new() *)
Definition new : LegacyRawTable := {| mask := 0; ctrl := EMPTY_SENTINEL; len := 0; max_load := 0; shift := 64%Z |}.

(*@ raw/mod.rs : pub(crate) fn num_groups *)
Definition num_groups t : nat := mask t + 1.

(*@ raw/mod.rs : pub(crate) fn is_allocated *)
Definition is_allocated t : bool := 0 <? max_load t.

(*@ raw/mod.rs : pub fn capacity *)
Definition capacity t : nat := if is_allocated t then num_groups t * GROUP_SIZE else 0.

(*@ raw/mod.rs : pub(crate) fn groups_for_capacity *)
Definition groups_for_capacity (capacity : Z) : Z :=
  let min_slots := (wrap64 (capacity * 8 + 7 - 1) / 7)%Z in
  let min_groups := (wrap64 (min_slots + 15 - 1) / 15)%Z in
  next_power_of_two min_groups.

(** The fresh block: the metadata is zeroed, the buckets are uninitialized. *)
(*@ raw/mod.rs : pub(crate) fn allocate *)
Definition allocate t (num_groups : nat) : LegacyRawTable :=
  let meta_size := num_groups * META_GROUP_BYTES in
  let total_buckets := num_groups * GROUP_SIZE in
  {| mask := num_groups - 1;
     ctrl := Alloc {| bytes := zero_bytes meta_size (replicate meta_size uninit); slots := replicate total_buckets None |};
     len := len t;
     max_load := max_load_for_capacity total_buckets;
     shift := wrapping_sub32 64 (Z.of_nat (trailing_zeros 64 (Z.of_nat num_groups))) |}.

(*@ raw/mod.rs : pub fn with_capacity *)
Definition with_capacity (capacity : Z) : LegacyRawTable :=
  if (capacity =? 0)%Z then new else allocate new (Z.to_nat (groups_for_capacity capacity)).

(** The second component is the block handed to the allocator. *)
(*@ raw/mod.rs : unsafe fn deallocate *)
Definition deallocate t : LegacyRawTable * option (Block K V) :=
  if negb (is_allocated t) then (t, None)
  else (with_max_load (with_ctrl t EMPTY_SENTINEL) 0, match ctrl t with Alloc b => Some b | EMPTY_SENTINEL => None end).

(*@ raw/mod.rs : pub(crate) fn group_index *)
Definition group_index t (h : Z) : nat := Z.to_nat (Z.land (wrapping_shr64 h (shift t)) (Z.of_nat (mask t))).

(*@ raw/mod.rs : pub(crate) unsafe fn meta_ptr *)
Definition meta_ptr (gi : nat) : nat := gi * META_GROUP_BYTES.

(*@ raw/mod.rs : pub(crate) unsafe fn bucket_ptr *)
Definition bucket_ptr (gi si : nat) : nat := gi * GROUP_SIZE + si.

Definition bucket t (i : nat) : option (K * V) := mjoin (ctrl_slots (ctrl t) !! i).

Definition key_is t (gi si : nat) (eq : K → bool) : bool :=
  match bucket t (bucket_ptr gi si) with Some (k, _) => eq k | None => false end.

(** [Group::set_meta(meta_ptr(gi), si, b)], [bucket_ptr(gi, si).write(kv)] and
    [Group::set_overflow_bit(meta_ptr(gi), bit)] *)
Definition write_meta t (gi si : nat) (b : Z) : LegacyRawTable :=
  with_ctrl t (write_bytes_with (ctrl t) (λ l, set_meta l (meta_ptr gi) si b)).
Definition write_bucket t (gi si : nat) (kv : K * V) : LegacyRawTable :=
  with_ctrl t (write_slots_with (ctrl t) (λ l, <[bucket_ptr gi si := Some kv]> l)).
Definition write_overflow t (gi : nat) (bit : Z) : LegacyRawTable :=
  with_ctrl t (write_bytes_with (ctrl t) (λ l, group_set_overflow_bit l (meta_ptr gi) bit)).

Definition has_overflow_bit t (gi : nat) (bit : Z) : bool := group_has_overflow_bit (metadata t) (meta_ptr gi) bit.

(** A pair goes into an empty slot. *)
Definition fill t (h : Z) (gi si : nat) (key : K) (value : V) : LegacyRawTable :=
  let t := write_meta t gi si (hash_tag f h) in
  let t := write_bucket t gi si (key, value) in
  with_len t (len t + 1).

Context (fuel : nat).

Definition scan_keys t (gi : nat) (matches : Z) (eq : K → bool) : option nat :=
  scan BitMask matches (λ si, key_is t gi si eq).

(*@ raw/mod.rs : pub(crate) fn find_by_hash *)
Definition find_by_hash t (h : Z) (eq : K → bool) : option (option (nat * nat)) :=
  let reduced := hash_tag f h in
  let ofw_bit := overflow_bit h in
  probe_loop fuel (mask t)
    (λ _ gi (_ : unit),
       match scan_keys t gi (match_byte (metadata t) (meta_ptr gi) reduced) eq with
       | Some si => inl (Some (gi, si))
       | None => if negb (has_overflow_bit t gi ofw_bit) then inl None else inr ()
       end)
    0 (group_index t h) ().

(*@ raw/mod.rs : pub(crate) fn find_with_hash *)
Definition find_with_hash t (key : K) (h : Z) : option (option (nat * nat)) := find_by_hash t h (λ k, bool_decide (k = key)).

(*@ raw/mod.rs : pub fn find< *)
Definition find t (key : K) : option (option (nat * nat)) := find_by_hash t (hash_key key) (λ k, bool_decide (k = key)).

(** The bucket is returned by its index. *)
(*@ raw/mod.rs : pub(crate) fn find_bucket *)
Definition find_bucket t (h : Z) (eq : K → bool) : option (option nat) :=
  let reduced := hash_tag f h in
  let ofw_bit := overflow_bit h in
  probe_loop fuel (mask t)
    (λ _ gi (_ : unit),
       match scan_keys t gi (match_byte (metadata t) (meta_ptr gi) reduced) eq with
       | Some si => inl (Some (bucket_ptr gi si))
       | None => if negb (has_overflow_bit t gi ofw_bit) then inl None else inr ()
       end)
    0 (group_index t h) ().

(** Emptying a slot, with the anti-drift adjustment. *)
Definition erase t (h : Z) (gi si : nat) : LegacyRawTable :=
  let t := write_meta t gi si EMPTY in
  let t := with_len t (len t - 1) in
  let initial_gi := group_index t h in
  if has_overflow_bit t initial_gi (overflow_bit h) then with_max_load t (max_load t - 1) else t.

(*@ raw/mod.rs : pub(crate) fn remove_by_hash *)
Definition remove_by_hash t (h : Z) (eq : K → bool) : option (LegacyRawTable * option (K * V)) :=
  do r <- find_by_hash t h eq;
  match r with
  | None => Some (t, None)
  | Some (gi, si) => let kv := bucket t (bucket_ptr gi si) in Some (erase t h gi si, kv)
  end.

(*@ raw/mod.rs : pub(crate) fn insert_no_check *)
Definition insert_no_check t (h : Z) (key : K) (value : V) : option (LegacyRawTable * (nat * nat)) :=
  probe_loop fuel (mask t)
    (λ _ gi t,
       match lowest_set_bit BitMask (match_empty (metadata t) (meta_ptr gi)) with
       | Some si => inl (fill t h gi si key value, (gi, si))
       | None => inr (write_overflow t gi (overflow_bit h))
       end)
    0 (group_index t h) t.

(*@ raw/mod.rs : fn find_or_locate_overflow *)
Definition find_or_locate_overflow t (eq : K → bool) (reduced ofw_bit : Z) (home_gi : nat)
    (first_empty : option (nat * nat)) (full_mask : Z) : option ProbeResult :=
  probe_loop fuel (mask t)
    (λ probe gi '(first_empty, full_mask),
       let '(matches, empties) := match_byte_and_empty (metadata t) (meta_ptr gi) reduced in
       match scan_keys t gi matches eq with
       | Some si => inl (Found gi si)
       | None =>
           let '(first_empty, full_mask) :=
             match first_empty with
             | Some _ => (first_empty, full_mask)
             | None =>
                 match lowest_set_bit BitMask empties with
                 | Some si => (Some (gi, si), full_mask)
                 | None => (None, if probe <? 8 then Z.lor full_mask (shl_u8 1 (Z.of_nat probe)) else full_mask)
                 end
             end in
           if negb (has_overflow_bit t gi ofw_bit) then
             inl (match first_empty with
                  | Some (ins_gi, ins_si) => InsertSlot ins_gi ins_si full_mask
                  | None => NotFound
                  end)
           else inr (first_empty, full_mask)
       end)
    1 (next_group (mask t) home_gi 1) (first_empty, full_mask).

(*@ raw/mod.rs : pub(crate) fn find_or_locate< *)
Definition find_or_locate t (h : Z) (eq : K → bool) : option ProbeResult :=
  let reduced := hash_tag f h in
  let ofw_bit := overflow_bit h in
  let gi := group_index t h in
  let '(matches, empties) := match_byte_and_empty (metadata t) (meta_ptr gi) reduced in
  match scan_keys t gi matches eq with
  | Some si => Some (Found gi si)
  | None =>
      match lowest_set_bit BitMask empties with
      | Some si =>
          if negb (has_overflow_bit t gi ofw_bit) then Some (InsertSlot gi si 0%Z)
          else find_or_locate_overflow t eq reduced ofw_bit gi (Some (gi, si)) 0%Z
      | None =>
          if negb (has_overflow_bit t gi ofw_bit) then Some NotFound
          else find_or_locate_overflow t eq reduced ofw_bit gi None 1%Z
      end
  end.

(** The [while mask != 0] loop: a [u8] is exhausted after eight shifts. *)
Fixpoint set_full_mask (n : nat) t (ofw_bit m : Z) (set_probe set_gi : nat) : LegacyRawTable :=
  match n with
  | 0 => t
  | S n' =>
      if (m =? 0)%Z then t
      else
        let t := if negb (Z.land m 1 =? 0)%Z then write_overflow t set_gi ofw_bit else t in
        let set_probe := set_probe + 1 in
        set_full_mask n' t ofw_bit (Z.shiftr m 1) set_probe (next_group (mask t) set_gi set_probe)
  end.

(*@ raw/mod.rs : pub(crate) fn insert_at *)
Definition insert_at t (h : Z) (gi si : nat) (key : K) (value : V) (full_mask : Z) : LegacyRawTable :=
  let t := if negb (full_mask =? 0)%Z then set_full_mask 8 t (overflow_bit h) full_mask 0 (group_index t h) else t in
  fill t h gi si key value.

(** [for gi in 0..num_groups { for si in match_non_empty(meta_ptr(gi)) { .. } }] *)
Definition occupied_slots t : list (nat * nat) :=
  gi ← seq 0 (num_groups t); pair gi <$> bits BitMask (match_non_empty (metadata t) (meta_ptr gi)).
Definition occupied_pairs t : list (K * V) := omap (λ '(gi, si), bucket t (bucket_ptr gi si)) (occupied_slots t).

Fixpoint reinsert (kvs : list (K * V)) t : option LegacyRawTable :=
  match kvs with
  | [] => Some t
  | (key, value) :: kvs' => do ' (t, _) <- insert_no_check t (hash_key key) key value; reinsert kvs' t
  end.

(*@ raw/mod.rs : pub fn rehash_with *)
Definition rehash_with t (new_num_groups : nat) : option LegacyRawTable :=
  let was_allocated := is_allocated t in
  let t0 := {| mask := 0; ctrl := EMPTY_SENTINEL; len := 0; max_load := 0; shift := shift t |} in
  let t1 := allocate t0 new_num_groups in
  if negb was_allocated then Some t1 else reinsert (occupied_pairs t) t1.

(** The bucket of the key and whether it is new; the value of a key that is there stays. *)
(*@ raw/mod.rs : pub fn insert_with_rehash *)
Definition insert_with_rehash t (key : K) (value : V) : option (LegacyRawTable * (nat * bool)) :=
  let t := if negb (is_allocated t) then allocate t 1 else t in
  let h := hash_key key in
  do r <- find_with_hash t key h;
  match r with
  | Some (gi, si) => Some (t, (bucket_ptr gi si, false))
  | None =>
      do t <-
        (if max_load t <=? len t
         then rehash_with t (if negb (is_allocated t) then 1 else num_groups t * 2)
         else Some t);
      do ' (t, (gi, si)) <- insert_no_check t h key value;
      Some (t, (bucket_ptr gi si, true))
  end.

(*@ raw/mod.rs : pub fn remove< *)
Definition remove t (key : K) : option (LegacyRawTable * option V) :=
  if negb (is_allocated t) then Some (t, None)
  else
    let h := hash_key key in
    do r <- find_with_hash t key h;
    match r with
    | None => Some (t, None)
    | Some (gi, si) => let kv := bucket t (bucket_ptr gi si) in Some (erase t h gi si, snd <$> kv)
    end.

(*@ raw/mod.rs : pub fn get< *)
Definition get t (key : K) : option (option V) :=
  do r <- find_bucket t (hash_key key) (λ k, bool_decide (k = key));
  Some (match r with Some i => snd <$> bucket t i | None => None end).

(*@ raw/mod.rs : pub fn get_mut *)
Definition get_mut t (key : K) : option (option nat) := find_bucket t (hash_key key) (λ k, bool_decide (k = key)).

(** The second component is what is dropped. *)
(*@ raw/mod.rs : pub fn clear *)
Definition clear t : LegacyRawTable * list (K * V) :=
  if negb (is_allocated t) then (t, [])
  else
    let dropped := occupied_pairs t in
    let meta_size := num_groups t * META_GROUP_BYTES in
    let t := with_ctrl t (write_bytes_with (ctrl t) (zero_bytes meta_size)) in
    (with_max_load (with_len t 0) (max_load_for_capacity (num_groups t * GROUP_SIZE)), dropped).

(*@ raw/mod.rs : fn drop( *)
Definition drop_table t : list (K * V) * option (Block K V) :=
  if negb (is_allocated t) then ([], None) else (occupied_pairs t, (deallocate t).2).

(** Pairs of size zero are not cloned; they have no memory either. *)
(*@ raw/mod.rs : fn clone( *)
Definition clone t : LegacyRawTable :=
  if negb (is_allocated t) then new
  else
    let new_table := allocate new (num_groups t) in
    let meta_size := num_groups t * META_GROUP_BYTES in
    let new_table := with_ctrl new_table (write_bytes_with (ctrl new_table) (λ l, take meta_size (metadata t) ++ drop meta_size l)) in
    let new_table :=
      fold_left (λ nt '(gi, si), match bucket t (bucket_ptr gi si) with Some kv => write_bucket nt gi si kv | None => nt end)
        (occupied_slots t) new_table in
    with_max_load (with_len new_table (len t)) (max_load t).

(*@ raw/mod.rs : pub fn iter_slots *)
Definition iter_slots t : SlotIter :=
  {| it_group := 0; it_mask := if negb (is_allocated t) then 0%Z else match_non_empty (metadata t) 0 |}.

(** [n]: the number of groups still to visit. *)
(*@ raw/mod.rs : fn next( *)
Fixpoint slot_iter_next (n : nat) t (it : SlotIter) : option (nat * nat) * SlotIter :=
  match next BitMask (it_mask it) with
  | Some (si, m) => (Some (it_group it, si), {| it_group := it_group it; it_mask := m |})
  | None =>
      let group := it_group it + 1 in
      match n with
      | 0 => (None, {| it_group := group; it_mask := it_mask it |})
      | S n' =>
          if mask t <? group then (None, {| it_group := group; it_mask := it_mask it |})
          else slot_iter_next n' t {| it_group := group; it_mask := match_non_empty (metadata t) (meta_ptr group) |}
      end
  end.

(** ** The table is the engine's, at its layout *)

Abbreviation L := (LegacyLayout tier f).
Abbreviation engine_bytes t := (ctrl_bytes (ctrl t)).

(** The sentinels of the two tables differ in size only. *)
Lemma metadata_bytes t i : byte_at (metadata t) i = byte_at (engine_bytes t) i.
Proof using Type.
  unfold metadata. destruct (ctrl t); [|done]. cbn [ctrl_bytes]. rewrite sentinel_byte.
  unfold byte_at. destruct (replicate 16 0%Z !! i) eqn:E; [|done]. by apply lookup_replicate in E as [-> _].
Qed.

Lemma masks_engine t p v :
  match_byte (metadata t) p v = Group.match_byte (Grp L) (engine_bytes t) p v ∧
  match_empty (metadata t) p = Group.match_empty (Grp L) (engine_bytes t) p ∧
  match_non_empty (metadata t) p = Group.match_non_empty (Grp L) (engine_bytes t) p ∧
  match_byte_and_empty (metadata t) p v = Group.match_byte_and_empty (Grp L) (engine_bytes t) p v.
Proof using Type. apply (masks_agree (G := LegacyGroup tier) (gs := 15)), metadata_bytes. Qed.

Lemma match_byte_engine t p v : match_byte (metadata t) p v = Group.match_byte (Grp L) (engine_bytes t) p v.
Proof using Type. apply masks_engine. Qed.
Lemma match_empty_engine t p : match_empty (metadata t) p = Group.match_empty (Grp L) (engine_bytes t) p.
Proof using Type. by apply (masks_engine t p 0%Z). Qed.
Lemma match_non_empty_engine t p : match_non_empty (metadata t) p = Group.match_non_empty (Grp L) (engine_bytes t) p.
Proof using Type. by apply (masks_engine t p 0%Z). Qed.
Lemma match_both_engine t p v : match_byte_and_empty (metadata t) p v = Group.match_byte_and_empty (Grp L) (engine_bytes t) p v.
Proof using Type. apply masks_engine. Qed.

(** The overflow byte is the last one of the group. *)
Lemma overflow_offset gi : meta_ptr gi + GROUP_SIZE = overflow_off (Overflow L) 0 gi (META_STRIDE L).
Proof using Type. cbn [overflow_off Overflow LegacyLayout embedded_layout EmbeddedOverflow META_STRIDE]. unfold meta_ptr, META_GROUP_BYTES, GROUP_SIZE. lia. Qed.

Lemma has_overflow_engine t gi bit : has_overflow_bit t gi bit = OverflowTable.has_overflow_bit L t gi bit.
Proof using Type.
  unfold has_overflow_bit, group_has_overflow_bit. rewrite overflow_offset, metadata_bytes. done.
Qed.

Lemma write_overflow_engine t gi bit : write_overflow t gi bit = set_overflow_bit L t gi bit.
Proof using Type.
  unfold write_overflow, set_overflow_bit. f_equal. unfold write_bytes_with. destruct (ctrl t); [done|].
  unfold group_set_overflow_bit. by rewrite overflow_offset.
Qed.

Lemma allocate_engine t n : allocate t n = OverflowTable.allocate L t n.
Proof using Type.
  unfold allocate, OverflowTable.allocate, ctrl_size.
  cbn [overflow_bytes_to_zero extra_alloc_bytes Overflow LegacyLayout embedded_layout EmbeddedOverflow].
  by rewrite !Nat.add_0_r.
Qed.

Lemma fill_engine t h gi si key value : fill t h gi si key value = put L t h gi si key value.
Proof using Type. done. Qed.

Lemma erase_engine t h gi si : erase t h gi si = erase_slot L t h gi si.
Proof using Type. unfold erase, erase_slot. by rewrite has_overflow_engine. Qed.

Lemma find_by_hash_engine t h eq : find_by_hash t h eq = find_by_hash_impl L fuel t h eq.
Proof using Type.
  apply probe_loop_ext. intros _ gi []. by rewrite match_byte_engine, has_overflow_engine.
Qed.

(** [find_bucket] finds the bucket of the slot that [find_by_hash] finds. *)
Lemma find_bucket_engine t h eq :
  find_bucket t h eq = do r <- find_by_hash_impl L fuel t h eq; Some ((λ '(gi, si), bucket_ptr gi si) <$> r).
Proof using Type.
  rewrite <- find_by_hash_engine. unfold find_bucket, find_by_hash.
  generalize (group_index t h), 0. induction fuel as [|n IH]; intros gi p; [done|].
  cbn [probe_loop]. destruct (scan_keys t gi _ eq) as [si|]; [done|].
  destruct (has_overflow_bit t gi (overflow_bit h)); cbn [negb]; [apply IH|done].
Qed.

Lemma insert_no_check_engine t h key value : insert_no_check t h key value = insert_no_check_impl L fuel t h key value.
Proof using Type.
  apply probe_loop_ext. intros _ gi t'. rewrite match_empty_engine, write_overflow_engine. done.
Qed.

Lemma locate_overflow_engine t eq reduced bit gi e m :
  find_or_locate_overflow t eq reduced bit gi e m = OverflowTable.find_or_locate_overflow L fuel t eq reduced bit gi e m.
Proof using Type.
  apply probe_loop_ext. intros p g [fe fm]. rewrite match_both_engine, has_overflow_engine. done.
Qed.

Lemma find_or_locate_engine t h eq : find_or_locate t h eq = find_or_locate_impl L fuel t h eq.
Proof using Type.
  unfold find_or_locate, find_or_locate_impl. rewrite match_both_engine, has_overflow_engine.
  destruct (Group.match_byte_and_empty _ _ _ _) as [ms es]. rewrite locate_overflow_engine.
  change (OverflowTable.scan_keys L t (OverflowTable.group_index L t h) ms eq) with (scan_keys t (group_index t h) ms eq).
  destruct (scan_keys t (group_index t h) ms eq); [done|]. change (lowest_set_bit (Mask (Grp L)) es) with (lowest_set_bit BitMask es).
  destruct (lowest_set_bit BitMask es); [by rewrite locate_overflow_engine|done].
Qed.

Lemma set_full_mask_engine n t bit m p gi : set_full_mask n t bit m p gi = OverflowTable.set_full_mask L n t bit m p gi.
Proof using Type.
  revert t m p gi. induction n as [|n IH]; intros t m p gi; [done|]. cbn [set_full_mask OverflowTable.set_full_mask].
  by rewrite write_overflow_engine, IH.
Qed.

Lemma insert_at_engine t h gi si key value m : insert_at t h gi si key value m = insert_at_impl L t h gi si key value m.
Proof using Type. unfold insert_at, insert_at_impl. by rewrite set_full_mask_engine. Qed.

Lemma remove_by_hash_engine t h eq : remove_by_hash t h eq = OverflowTable.remove_by_hash L fuel t h eq.
Proof using Type.
  unfold remove_by_hash, OverflowTable.remove_by_hash. rewrite find_by_hash_engine.
  destruct (find_by_hash_impl L fuel t h eq) as [[[gi si]|]|]; [|done..]. by rewrite erase_engine.
Qed.

Lemma occupied_slots_engine t : occupied_slots t = OverflowTable.occupied_slots L t.
Proof using Type.
  unfold occupied_slots, OverflowTable.occupied_slots, num_groups. induction (seq 0 (mask t + 1)) as [|gi l IH]; [done|].
  rewrite !bind_cons, match_non_empty_engine, IH. done.
Qed.

Lemma occupied_pairs_engine t : occupied_pairs t = occupied_kvs L t.
Proof using Type. unfold occupied_pairs, occupied_kvs. by rewrite occupied_slots_engine. Qed.

Lemma reinsert_engine kvs t : reinsert kvs t = OverflowTable.reinsert L hash_key fuel kvs t.
Proof using Type.
  revert t. induction kvs as [|[k v] kvs IH]; intros t; [done|]. cbn [reinsert OverflowTable.reinsert].
  rewrite insert_no_check_engine. destruct (insert_no_check_impl L fuel t (hash_key k) k v) as [[t' p]|]; [apply IH|done].
Qed.

Lemma rehash_engine t n : rehash_with t n = rehash_with_impl L hash_key fuel t n.
Proof using Type. unfold rehash_with, rehash_with_impl. by rewrite allocate_engine, reinsert_engine, occupied_pairs_engine. Qed.

Lemma unallocated_engine t : negb (is_allocated t) = (max_load t =? 0).
Proof using Type. unfold is_allocated. by destruct (max_load t). Qed.

Lemma clear_engine t : clear t = OverflowTable.clear L t.
Proof using Type.
  unfold clear, OverflowTable.clear. rewrite unallocated_engine, occupied_pairs_engine.
  cbn [overflow_bytes_to_zero Overflow LegacyLayout embedded_layout EmbeddedOverflow]. by rewrite Nat.add_0_r.
Qed.

Lemma drop_engine t : drop_table t = OverflowTable.drop_table L t.
Proof using Type. unfold drop_table, OverflowTable.drop_table, deallocate, OverflowTable.deallocate. by rewrite unallocated_engine, occupied_pairs_engine. Qed.

Lemma clone_engine t : (is_allocated t = true → ctrl t ≠ EMPTY_SENTINEL) → clone t = clone_table L t.
Proof using Type.
  intros Ha. unfold clone, clone_table. rewrite unallocated_engine. destruct (Nat.eqb_spec (max_load t) 0) as [|Hne]; [done|].
  rewrite allocate_engine, occupied_slots_engine. unfold bytes_to_copy_total.
  cbn [overflow_bytes_to_copy Overflow LegacyLayout embedded_layout EmbeddedOverflow]. rewrite Nat.add_0_r.
  unfold metadata. destruct (ctrl t) eqn:Ec; [|done]. by destruct Ha; [unfold is_allocated; destruct (max_load t)|].
Qed.

Lemma iter_slots_engine t : iter_slots t = OverflowTable.iter_slots L t.
Proof using Type. unfold iter_slots, OverflowTable.iter_slots, first_non_empty_mask. by rewrite unallocated_engine, match_non_empty_engine. Qed.

Lemma slot_iter_next_engine n t it : slot_iter_next n t it = OverflowTable.slot_iter_next L n t it.
Proof using Type.
  unfold OverflowTable.slot_iter_next. revert it. induction n as [|n IH]; intros it; [done|].
  cbn [slot_iter_next slot_walk]. rewrite match_non_empty_engine, IH. done.
Qed.

(** ** What the operations do *)

Section spec.
Context {Hc : Countable K}.
Implicit Types (k : K) (v : V).

Abbreviation wf := (OverflowInv.wf L hash_key).
Abbreviation probe_bound := (OverflowInv.probe_bound L).
Abbreviation to_map := (OverflowInv.to_map L).

Lemma find_legacy t k :
  wf t → probe_bound t → mask t < fuel →
  ∃ r, find_with_hash t k (hash_key k) = Some r ∧ find_result L t k r.
Proof using Type.
  intros Hwf Hb Hf. unfold find_with_hash. rewrite find_by_hash_engine. apply (find_eq_spec L hash_key); [done| |done]. by apply (probe_bound_ends L hash_key).
Qed.

(** The pair of a found slot. *)
Lemma found_pair t k gi si :
  wf t → find_result L t k (Some (gi, si)) → ∃ v, bucket t (bucket_ptr gi si) = Some (k, v) ∧ to_map t !! k = Some v.
Proof using Type. intros Hwf [Hr [v He]]. exists v. by apply (holds_lookup L hash_key t (gi, si) k v). Qed.

Lemma find_bucket_spec t k :
  wf t → probe_bound t → mask t < fuel →
  ∃ r, find_bucket t (hash_key k) (λ k', bool_decide (k' = k)) = Some r ∧
    match r with Some i => ∃ v, bucket t i = Some (k, v) ∧ to_map t !! k = Some v | None => to_map t !! k = None end.
Proof using Type.
  intros Hwf Hb Hf. rewrite find_bucket_engine. destruct (find_eq_spec L hash_key fuel t k Hwf (probe_bound_ends L hash_key t Hwf Hb k) Hf) as (r & Hrun & Hr).
  unfold find_by_hash_eq in Hrun. rewrite Hrun. eexists. split; [reflexivity|]. destruct r as [[gi si]|]; [|done]. by apply found_pair.
Qed.

(** A table that has memory before the first insertion. *)
Lemma first_allocation t :
  wf t → probe_bound t → can_grow fuel t →
  let t' := if negb (is_allocated t) then allocate t 1 else t in
  wf t' ∧ probe_bound t' ∧ to_map t' = to_map t ∧ can_grow fuel t'.
Proof using Type.
  intros Hwf Hb Hg. rewrite unallocated_engine, allocate_engine. destruct (Nat.eqb_spec (max_load t) 0) as [Hz|_]; [|done].
  cbv zeta. destruct (preserved_allocate L hash_key t 1 Hwf Hz group_count_1) as [Hw Hb' Hm _]. split_and!; [done|by apply Hb'|done|].
  destruct (unallocated_len L hash_key t Hwf Hz) as [Hl _].
  destruct (allocate_fresh L hash_key t 1 group_count_1 Hl) as [_ H1]. destruct Hg as [_ Hg]. split; [|lia].
  unfold log_groups. rewrite H1. apply Nat.lt_0_succ.
Qed.

(** The growth of [insert_with_rehash] is [ensure_capacity] of the engine. *)
Lemma ensure_engine t :
  (if max_load t <=? len t then rehash_with t (if negb (is_allocated t) then 1 else num_groups t * 2) else Some t) =
  ensure_capacity L hash_key fuel t.
Proof using Type. rewrite unallocated_engine, rehash_engine. done. Qed.

Lemma insert_with_rehash_spec t k v :
  wf t → probe_bound t → can_grow fuel t →
  ∃ t' i, insert_with_rehash t k v = Some (t', (i, bool_decide (to_map t !! k = None))) ∧
    wf t' ∧ probe_bound t' ∧ to_map t' = with_default (to_map t) k v ∧
    bucket t' i = Some (k, default v (to_map t !! k)).
Proof using Type.
  intros Hwf Hb Hg. destruct (first_allocation t Hwf Hb Hg) as (Hw1 & Hb1 & Hm1 & Hg1). unfold insert_with_rehash.
  set (t1 := if negb (is_allocated t) then allocate t 1 else t) in *. rewrite <- Hm1. cbv zeta.
  destruct (find_legacy t1 k Hw1 Hb1 (can_grow_fuel fuel t1 Hg1)) as ([[gi si]|] & -> & Hr).
  - destruct (found_pair t1 k gi si Hw1 Hr) as (v0 & Hp & Hl). exists t1, (bucket_ptr gi si). unfold with_default. rewrite Hl.
    split_and!; [done..| |done]. symmetry. by apply insert_id.
  - destruct (ensure_insert_spec L hash_key fuel t1 k v Hw1 Hr Hg1) as (t2 & t' & [gi si] & He & Hi & ((Hw & Hb') & Hm) & Hh).
    rewrite ensure_engine, He, insert_no_check_engine, Hi. cbn in Hr. exists t', (bucket_ptr gi si). unfold with_default. rewrite Hr.
    split_and!; [done|done|by apply Hb'|done|]. by apply (holds_lookup L hash_key t' (gi, si) k v).
Qed.

Lemma remove_spec t k :
  wf t → probe_bound t → mask t < fuel →
  ∃ t', remove t k = Some (t', to_map t !! k) ∧ wf t' ∧ to_map t' = delete k (to_map t).
Proof using Type.
  intros Hwf Hb Hf. unfold remove. rewrite unallocated_engine. destruct (Nat.eqb_spec (max_load t) 0) as [Hz|_].
  { destruct (unallocated_len L hash_key t Hwf Hz) as [_ Hm]. exists t. by rewrite Hm, lookup_empty, delete_empty. }
  destruct (find_legacy t k Hwf Hb Hf) as ([[gi si]|] & -> & Hr).
  - destruct (found_pair t k gi si Hwf Hr) as (v & Hp & Hl).
    destruct (erase_removed L hash_key t gi si k Hwf Hr) as [Hw _ Hm _ _].
    rewrite Hp, Hl, erase_engine. eexists. split; [reflexivity|]. done.
  - exists t. cbn in Hr. rewrite Hr. split_and!; [done..|]. by rewrite delete_id.
Qed.

(** Every operation of the table is the operation of the engine at the layout of
    the table: fifteen slots a group, the eight overflow bits in the sixteenth
    byte, the group index from the high bits of the hash. *)
Theorem legacy_table_is_engine t h eq gi si key value m n it :
  find_by_hash t h eq = find_by_hash_impl L fuel t h eq ∧
  find_bucket t h eq = (do r <- find_by_hash_impl L fuel t h eq; Some ((λ '(gi, si), bucket_ptr gi si) <$> r)) ∧
  find_or_locate t h eq = find_or_locate_impl L fuel t h eq ∧
  insert_at t h gi si key value m = insert_at_impl L t h gi si key value m ∧
  insert_no_check t h key value = insert_no_check_impl L fuel t h key value ∧
  remove_by_hash t h eq = OverflowTable.remove_by_hash L fuel t h eq ∧
  rehash_with t n = rehash_with_impl L hash_key fuel t n ∧
  clear t = OverflowTable.clear L t ∧ drop_table t = OverflowTable.drop_table L t ∧
  ((is_allocated t = true → ctrl t ≠ EMPTY_SENTINEL) → clone t = clone_table L t) ∧
  iter_slots t = OverflowTable.iter_slots L t ∧ slot_iter_next n t it = OverflowTable.slot_iter_next L n t it.
Proof using Type.
  split; [apply find_by_hash_engine|]. split; [apply find_bucket_engine|]. split; [apply find_or_locate_engine|].
  split; [apply insert_at_engine|]. split; [apply insert_no_check_engine|]. split; [apply remove_by_hash_engine|].
  split; [apply rehash_engine|]. split; [apply clear_engine|]. split; [apply drop_engine|].
  split; [apply clone_engine|]. split; [apply iter_slots_engine|apply slot_iter_next_engine].
Qed.

(** C19: the legacy table is a map: a lookup returns the value of the key; the entry
    insertion keeps a value that is there and returns the bucket of the pair; a
    removal takes the pair out and returns its value.  All of it needs a table
    whose probe loops end, which insertions keep and removals may lose. *)
Theorem legacy_operations_correct t k v :
  wf t → probe_bound t → can_grow fuel t →
  get t k = Some (to_map t !! k) ∧
  (∃ r, get_mut t k = Some r ∧
     match r with Some i => ∃ v, bucket t i = Some (k, v) ∧ to_map t !! k = Some v | None => to_map t !! k = None end) ∧
  (∃ t' i, insert_with_rehash t k v = Some (t', (i, bool_decide (to_map t !! k = None))) ∧
     wf t' ∧ probe_bound t' ∧ to_map t' = with_default (to_map t) k v ∧
     bucket t' i = Some (k, default v (to_map t !! k))) ∧
  (∃ t', remove t k = Some (t', to_map t !! k) ∧ wf t' ∧ to_map t' = delete k (to_map t)).
Proof using Type.
  intros Hwf Hb Hg. pose proof (can_grow_fuel fuel t Hg) as Hf.
  destruct (find_bucket_spec t k Hwf Hb Hf) as (r & Hrun & Hr). split_and!.
  - unfold get. rewrite Hrun. destruct r as [i|]; [|by rewrite Hr]. destruct Hr as (v0 & Hp & Hl). by rewrite Hp, Hl.
  - by exists r.
  - by apply insert_with_rehash_spec.
  - by apply remove_spec.
Qed.
End spec.
End table.
End Legacy.

Lemma legacy_operations_correct_witness :
  ∃ t i, Legacy.insert_with_rehash SSE2 PureFallback demo_hash 64 Legacy.new 7 1 = Some (t, (i, true)) ∧
    to_map (LegacyLayout SSE2 PureFallback) t = {[7 := 1]}.
Proof.
  assert (let L := LegacyLayout SSE2 PureFallback in let t := @Legacy.new nat nat in
    wf L demo_hash t ∧ probe_bound L t ∧ to_map L t = ∅) as (Hw & Hb & Hm)
    by exact (new_wf (LegacyLayout SSE2 PureFallback) demo_hash (V := nat)).
  destruct (Legacy.legacy_operations_correct SSE2 PureFallback demo_hash 64 Legacy.new 7 1 Hw Hb)
    as (_ & _ & (t & i & Hrun & _ & _ & Ht & _) & _); [vm_compute; lia|].
  exists t, i. split; [|by rewrite Ht, Hm]. rewrite Hrun. by rewrite Hm.
Defined.
