(* ===== verification/LegacySet.v ===== *)
(** * The legacy set

    [set.rs]: [UnorderedFlatSet], a set written directly on the table of
    [LegacyTable.v], with copies of its own of the insertion paths, of [reserve]
    and of [shrink_to_fit].  It is shown to behave as the generic set over the
    overflow-bit engine that replaced it. *)

From Stdlib Require Import ZArith Lia.
From S2P Require Import Prelude Probe SlotWalk Bitmask HashTag Group Layout Memory TableApi MapApi.
From S2P Require Import OverflowTable OverflowInv OverflowOps OverflowApi OverflowEntry OverflowMap HashBackend NamedMaps LegacyTable.
From S2P Require GenericMap GenericSet GenericSetSpec.

Section set.
Context (tier : simd_tier) (f : hash_feature) {S T : Type} `{EqDecision T} (hash : S → T → Z) (fuel : nat).

(** The table and the hasher. *)
(*@ set.rs : pub struct UnorderedFlatSet *)
Definition UnorderedFlatSet : Type := HashedMap (RawTable T unit) S.
Implicit Types (s other : UnorderedFlatSet) (hb : S) (value : T).

(*@ set.rs : pub fn with_hasher *)
Definition with_hasher hb : UnorderedFlatSet := {| table := Legacy.new; hash_builder := hb |}.

(*@ set.rs : pub fn with_capacity_and_hasher *)
Definition with_capacity_and_hasher (capacity : Z) hb : UnorderedFlatSet :=
  {| table := Legacy.with_capacity capacity; hash_builder := hb |}.

(*@ set.rs : pub fn len( *)
Definition len s : nat := OverflowTable.len (table s).

(*@ set.rs : pub fn is_empty( *)
Definition is_empty s : bool := OverflowTable.len (table s) =? 0.

(*@ set.rs : pub fn capacity( *)
Definition capacity s : nat := Legacy.capacity (table s).

(*@ set.rs : pub fn clear( *)
Definition clear s : UnorderedFlatSet := with_table s (Legacy.clear tier (table s)).1.

(*@ set.rs : fn hash_key *)
Definition hash_key s value : Z := hash (hash_builder s) value.

(*@ set.rs : pub fn contains *)
Definition contains s value : option bool :=
  let h := hash_key s value in
  do r <- Legacy.find_by_hash tier f fuel (table s) h (eq_key value);
  Some (match r with Some _ => true | None => false end).

(*@ set.rs : fn grow_and_rehash *)
Definition grow_and_rehash s : option UnorderedFlatSet :=
  let new_groups := if negb (Legacy.is_allocated (table s)) then 1 else Legacy.num_groups (table s) * 2 in
  do t <- Legacy.rehash_with tier f (hash (hash_builder s)) fuel (table s) new_groups; Some (with_table s t).

(*@ set.rs : fn insert_at_capacity *)
Definition insert_at_capacity s (h : Z) value : option (UnorderedFlatSet * bool) :=
  do r <- Legacy.find_by_hash tier f fuel (table s) h (eq_key value);
  match r with
  | Some _ => Some (s, false)
  | None =>
      do s <- grow_and_rehash s;
      do ' (t, _) <- Legacy.insert_no_check tier f fuel (table s) h value ();
      Some (with_table s t, true)
  end.

(*@ set.rs : fn insert_overflow *)
Definition insert_overflow s (h : Z) value : option (UnorderedFlatSet * bool) :=
  do r <- Legacy.find_by_hash tier f fuel (table s) h (eq_key value);
  match r with
  | Some _ => Some (s, false)
  | None =>
      do s <- (if max_load (table s) <=? OverflowTable.len (table s) then grow_and_rehash s else Some s);
      do ' (t, _) <- Legacy.insert_no_check tier f fuel (table s) h value ();
      Some (with_table s t, true)
  end.

(*@ set.rs : pub fn insert *)
Definition insert s value : option (UnorderedFlatSet * bool) :=
  let s := if negb (Legacy.is_allocated (table s)) then with_table s (Legacy.allocate (table s) 1) else s in
  let h := hash_key s value in
  if max_load (table s) <=? OverflowTable.len (table s) then insert_at_capacity s h value
  else
    let reduced := hash_tag f h in
    let gi := Legacy.group_index (table s) h in
    let '(matches, empties) :=
      group_match_byte_and_empty tier (Legacy.metadata (table s)) (Legacy.meta_ptr gi) reduced in
    match Legacy.scan_keys (table s) gi matches (eq_key value) with
    | Some _ => Some (s, false)
    | None =>
        let ofw_bit := overflow_bit h in
        match lowest_set_bit BitMask empties with
        | Some si =>
            if negb (Legacy.has_overflow_bit (table s) gi ofw_bit)
            then Some (with_table s (Legacy.fill f (table s) h gi si value ()), true)
            else insert_overflow s h value
        | None => insert_overflow s h value
        end
    end.

(*@ set.rs : pub fn remove *)
Definition remove s value : option (UnorderedFlatSet * bool) :=
  let h := hash_key s value in
  do ' (t, r) <- Legacy.remove_by_hash tier f fuel (table s) h (eq_key value);
  Some (with_table s t, match r with Some _ => true | None => false end).

(*@ set.rs : pub fn get< *)
Definition get s value : option (option T) :=
  let h := hash_key s value in
  do r <- Legacy.find_by_hash tier f fuel (table s) h (eq_key value);
  Some (match r with Some (gi, si) => fst <$> Legacy.bucket (table s) (Legacy.bucket_ptr gi si) | None => None end).

(*@ set.rs : pub fn take< *)
Definition take s value : option (UnorderedFlatSet * option T) :=
  let h := hash_key s value in
  do ' (t, r) <- Legacy.remove_by_hash tier f fuel (table s) h (eq_key value);
  Some (with_table s t, fst <$> r).

(*@ set.rs : pub fn reserve *)
Definition reserve s (additional : Z) : option (UnorderedFlatSet + Panic) :=
  let t := table s in
  let needed := (Z.of_nat (OverflowTable.len t) + additional)%Z in
  if (2 ^ 64 <=? needed)%Z then Some (inr CapacityOverflow)
  else if negb (Legacy.is_allocated t) then
    Some (inl (if (0 <? additional)%Z
               then with_table s (Legacy.allocate t (Z.to_nat (Legacy.groups_for_capacity needed))) else s))
  else if (Z.of_nat (max_load t) <? needed)%Z then
    let new_groups := Z.to_nat (Legacy.groups_for_capacity needed) in
    if Legacy.num_groups t <? new_groups then
      do t <- Legacy.rehash_with tier f (hash (hash_builder s)) fuel t new_groups; Some (inl (with_table s t))
    else Some (inl s)
  else Some (inl s).

(*@ set.rs : pub fn shrink_to_fit *)
Definition shrink_to_fit s : option UnorderedFlatSet :=
  let t := table s in
  if OverflowTable.len t =? 0 then Some (with_table s Legacy.new)
  else
    let min_groups := Z.to_nat (Legacy.groups_for_capacity (Z.of_nat (OverflowTable.len t))) in
    if min_groups <? Legacy.num_groups t then
      do t <- Legacy.rehash_with tier f (hash (hash_builder s)) fuel t min_groups; Some (with_table s t)
    else Some s.

(** The inner loop of [retain], over the slots of the mask of group [gi]; the
    closure may change its own state. *)
Fixpoint retain_group {St} (keep : St → T → St * bool) (gi : nat) (occupied : list nat) (st : St) s : St * UnorderedFlatSet :=
  match occupied with
  | [] => (st, s)
  | si :: occupied' =>
      match Legacy.bucket (table s) (Legacy.bucket_ptr gi si) with
      | Some (key, _) =>
          let '(st, b) := keep st key in
          let s := if negb b then let h := hash_key s key in with_table s (Legacy.erase (table s) h gi si) else s in
          retain_group keep gi occupied' st s
      | None => retain_group keep gi occupied' st s
      end
  end.

(** The outer loop: the mask of a group is loaded when the loop comes to it. *)
Fixpoint retain_groups {St} (keep : St → T → St * bool) (groups : list nat) (st : St) s : St * UnorderedFlatSet :=
  match groups with
  | [] => (st, s)
  | gi :: groups' =>
      let occupied := bits BitMask (group_match_non_empty tier (Legacy.metadata (table s)) (Legacy.meta_ptr gi)) in
      let '(st, s) := retain_group keep gi occupied st s in
      retain_groups keep groups' st s
  end.

(*@ set.rs : pub fn retain *)
Definition retain {St} s (st : St) (keep : St → T → St * bool) : St * UnorderedFlatSet :=
  if negb (Legacy.is_allocated (table s)) then (st, s)
  else retain_groups keep (seq 0 (mask (table s) + 1)) st s.

(** ** Iterators *)

(*@ set.rs : pub struct SetIter< *)
Definition SetIter : Type := SlotIter.

(*@ set.rs : fn next( @1 *)
Definition set_iter_next s (it : SetIter) : option (option T) * SetIter :=
  match Legacy.slot_iter_next tier (mask (table s) + 1) (table s) it with
  | (Some (gi, si), it) => (Some (fst <$> Legacy.bucket (table s) (Legacy.bucket_ptr gi si)), it)
  | (None, it) => (None, it)
  end.

(** [n] calls of [next]. *)
Fixpoint take_items (n : nat) s (it : SetIter) : list (option T) :=
  match n with
  | 0 => []
  | Datatypes.S n' => match set_iter_next s it with (Some v, it) => v :: take_items n' s it | (None, _) => [] end
  end.

(** All that [SetIter] yields: a table has no more slots than that. *)
(*@ set.rs : pub fn iter( *)
Definition iter s : list T :=
  omap id (take_items ((mask (table s) + 1) * GROUP_SIZE) s (Legacy.iter_slots tier (table s))).

(*@ set.rs : pub struct SetIntoIter *)
Record SetIntoIter := { set_table : RawTable T unit; set_pos : SlotIter }.

(*@ set.rs : fn next( @2 *)
Definition set_into_next (n : nat) (it : SetIntoIter) : option (option T) * SetIntoIter :=
  let t := set_table it in
  match Legacy.slot_iter_next tier n t (set_pos it) with
  | (Some (gi, si), pos) =>
      let key := fst <$> Legacy.bucket t (Legacy.bucket_ptr gi si) in
      let t := Legacy.write_meta t gi si EMPTY in
      let t := with_len t (OverflowTable.len t - 1) in
      (Some key, {| set_table := t; set_pos := pos |})
  | (None, pos) => (None, {| set_table := t; set_pos := pos |})
  end.

(** The pointer to the metadata is never null: it is the sentinel's at least. *)
(*@ set.rs : fn into_iter(self) -> SetIntoIter *)
Definition into_iter s : SetIntoIter :=
  {| set_table := table s;
     set_pos := {| it_group := 0; it_mask := group_match_non_empty tier (Legacy.metadata (table s)) 0 |} |}.

(*@ set.rs : pub fn drain *)
Definition drain s : SetIntoIter * UnorderedFlatSet := (into_iter s, with_table s Legacy.new).

Fixpoint take_owned (n : nat) (it : SetIntoIter) : list (option T) :=
  match n with
  | 0 => []
  | Datatypes.S n' =>
      match set_into_next (mask (set_table it) + 1) it with (Some v, it) => v :: take_owned n' it | (None, _) => [] end
  end.

(** All that the owning iterator yields. *)
Definition all_owned (it : SetIntoIter) : list T := omap id (take_owned (Datatypes.S (OverflowTable.len (set_table it))) it).

(** ** Set algebra; [hb] is [S::default()] *)

(*@ set.rs : pub fn is_disjoint *)
Definition is_disjoint s other : option bool :=
  if len s <=? len other then GenericSet.all_items (GenericSet.not (contains other)) (iter s)
  else GenericSet.all_items (GenericSet.not (contains s)) (iter other).

(*@ set.rs : pub fn is_subset *)
Definition is_subset s other : option bool :=
  if len other <? len s then Some false else GenericSet.all_items (contains other) (iter s).

(*@ set.rs : pub fn is_superset *)
Definition is_superset s other : option bool := is_subset other s.

(*@ set.rs : fn eq( *)
Definition eq_set s other : option bool :=
  if negb (len s =? len other) then Some false else GenericSet.all_items (contains other) (iter s).

(*@ set.rs : fn clone( *)
Definition clone s : UnorderedFlatSet := with_table s (Legacy.clone tier (table s)).

(*@ set.rs : fn extend< *)
Fixpoint extend s (items : list T) : option UnorderedFlatSet :=
  match items with
  | [] => Some s
  | item :: items' => do ' (s, _) <- insert s item; extend s items'
  end.

(** [lower]: the lower bound of the iterator's size. *)
(*@ set.rs : fn from_iter *)
Definition from_iter hb (lower : Z) (items : list T) : option UnorderedFlatSet :=
  extend (with_capacity_and_hasher lower hb) items.

(** [for item in items { if cond(item) { result.insert(item.clone()); } }] *)
Fixpoint insert_if (cond : T → option bool) (items : list T) (result : UnorderedFlatSet) : option UnorderedFlatSet :=
  match items with
  | [] => Some result
  | item :: items' =>
      do b <- cond item;
      if b : bool then do ' (result, _) <- insert result item; insert_if cond items' result
      else insert_if cond items' result
  end.

(*@ set.rs : pub fn union *)
Definition union s other : option UnorderedFlatSet := extend (clone s) (iter other).

(*@ set.rs : pub fn intersection *)
Definition intersection hb s other : option UnorderedFlatSet :=
  let '(smaller, larger) := if len s <=? len other then (s, other) else (other, s) in
  let result := with_hasher hb in
  insert_if (contains larger) (iter smaller) result.

(*@ set.rs : pub fn difference *)
Definition difference hb s other : option UnorderedFlatSet :=
  let result := with_hasher hb in
  insert_if (GenericSet.not (contains other)) (iter s) result.

(*@ set.rs : pub fn symmetric_difference *)
Definition symmetric_difference hb s other : option UnorderedFlatSet :=
  let result := with_hasher hb in
  do result <- insert_if (GenericSet.not (contains other)) (iter s) result;
  insert_if (GenericSet.not (contains s)) (iter other) result.
End set.

(** ** The legacy set is the generic set over the engine *)

Section generic.
Context (tier : simd_tier) (f : hash_feature) {S T : Type} `{Countable T} (hash : S → T → Z) (fuel : nat).

Abbreviation L := (LegacyLayout tier f).
Abbreviation api := (overflow_api (V := unit) hash fuel L).
Abbreviation Set' := (UnorderedFlatSet (S := S) (T := T)).
Implicit Types (s other : Set') (hb : S) (value : T).

(** A slot that a lookup returns holds a pair. *)
Lemma legacy_scan_holds (t : RawTable T unit) gi m eq si : scan_keys L t gi m eq = Some si → key_is L t gi si eq = true.
Proof using Type. unfold scan_keys, scan. intros Hs. by apply List.find_some in Hs as [_ ?]. Qed.

Lemma legacy_key_is_holds (t : RawTable T unit) gi si value :
  key_is L t gi si (eq_key value) = true → kv_at L t gi si = Some (value, ()).
Proof using Type.
  unfold key_is, eq_key. destruct (kv_at L t gi si) as [[k []]|]; [|done]. by intros ->%bool_decide_eq_true.
Qed.

Lemma legacy_find_holds (t : RawTable T unit) h value gi si :
  find_by_hash_impl L fuel t h (eq_key value) = Some (Some (gi, si)) → kv_at L t gi si = Some (value, ()).
Proof using Type.
  unfold find_by_hash_impl. generalize (group_index L t h), 0. induction fuel as [|n IH]; intros g p; [done|].
  cbn [probe_loop]. destruct (scan_keys L t g _ _) as [s'|] eqn:Es.
  - intros [= <- <-]. by apply legacy_scan_holds, legacy_key_is_holds in Es.
  - destruct (negb _); [done|apply IH].
Qed.

(** Writing the pair that is there: the value of a set's entry never changes. *)
Lemma legacy_write_same (t : RawTable T unit) gi si kv : kv_at L t gi si = Some kv → write_kv L t gi si kv = t.
Proof using Type.
  unfold kv_at, write_kv, with_ctrl. intros Hk. destruct t as [m c l x sh]. cbn [ctrl mask len max_load shift] in *. f_equal.
  destruct c as [|[bs ss]]; [done|]. cbn [write_slots_with ctrl_slots slots] in *. do 2 f_equal.
  apply list_insert_id. destruct (ss !! _) as [o|]; [|done]. cbn in Hk. by subst.
Qed.

Lemma legacy_replace_same (t : RawTable T unit) gi si value :
  kv_at L t gi si = Some (value, ()) → replace_value L t gi si () = (t, Some ()).
Proof using Type. intros Hk. unfold replace_value. by rewrite Hk, legacy_write_same. Qed.

(** The replacing insertion of the engine, as the set reports it. *)
Abbreviation reported r := (do ' (t, o) <- r; Some (t, match o with Some () => false | None => true end)).

Lemma legacy_table_eta s : with_table s (table s) = s.
Proof using Type. by destruct s. Qed.

Lemma legacy_grow_same s :
  grow_and_rehash tier f hash fuel s =
  do t <- OverflowTable.grow_and_rehash L (hash (hash_builder s)) fuel (table s); Some (with_table s t).
Proof using Type. unfold grow_and_rehash. by rewrite Legacy.rehash_engine, Legacy.unallocated_engine. Qed.

Lemma legacy_insert_at_capacity_same s h value :
  insert_at_capacity tier f hash fuel s h value =
  do ' (t, b) <- reported (OverflowTable.insert_at_capacity L (hash (hash_builder s)) fuel (table s) h value ()); Some (with_table s t, b).
Proof using Type.
  unfold insert_at_capacity, OverflowTable.insert_at_capacity. rewrite Legacy.find_by_hash_engine, legacy_grow_same.
  change (find_by_hash_impl L fuel (table s) h (eq_key value)) with (find_by_hash_eq L fuel (table s) h value).
  destruct (find_by_hash_eq L fuel (table s) h value) as [[[gi si]|]|] eqn:Ef; [| |done].
  - rewrite (legacy_replace_same (table s) gi si value) by (by eapply legacy_find_holds). by rewrite legacy_table_eta.
  - destruct (OverflowTable.grow_and_rehash _ _ _ _) as [t|]; [|done]. cbn [mbind option_bind]. rewrite Legacy.insert_no_check_engine.
    cbn [table with_table]. by destruct (insert_no_check_impl L fuel t h value ()) as [[t' p]|].
Qed.

Lemma legacy_insert_overflow_same s h value :
  insert_overflow tier f hash fuel s h value =
  do ' (t, b) <- reported (OverflowTable.insert_overflow L (hash (hash_builder s)) fuel (table s) h value ()); Some (with_table s t, b).
Proof using Type.
  unfold insert_overflow, OverflowTable.insert_overflow. rewrite Legacy.find_by_hash_engine, legacy_grow_same.
  change (find_by_hash_impl L fuel (table s) h (eq_key value)) with (find_by_hash_eq L fuel (table s) h value).
  destruct (find_by_hash_eq L fuel (table s) h value) as [[[gi si]|]|] eqn:Ef; [| |done].
  - rewrite (legacy_replace_same (table s) gi si value) by (by eapply legacy_find_holds). by rewrite legacy_table_eta.
  - destruct (max_load (table s) <=? OverflowTable.len (table s)).
    + destruct (OverflowTable.grow_and_rehash _ _ _ _) as [t|]; [|done]. cbn [mbind option_bind]. rewrite Legacy.insert_no_check_engine.
      cbn [table with_table]. by destruct (insert_no_check_impl L fuel t h value ()) as [[t' p]|].
    + cbn [mbind option_bind]. rewrite Legacy.insert_no_check_engine.
      by destruct (insert_no_check_impl L fuel (table s) h value ()) as [[t' p]|].
Qed.

(** The set's own copy of the insertion path, the home group first, is the
    engine's replacing insertion of the unit value. *)
Lemma legacy_insert_same s value : insert tier f hash fuel s value = GenericSet.insert api s value.
Proof using Type.
  unfold insert, GenericSet.insert. cbn [map_insert overflow_api hashed_map_api]. unfold GenericMap.insert, tables.
  cbn [api_insert_or_replace OverflowBackend]. unfold insert_or_replace. rewrite Legacy.unallocated_engine, (Legacy.allocate_engine tier f). cbv zeta.
  set (t := if max_load (table s) =? 0 then allocate L (table s) 1 else table s).
  assert ((if max_load (table s) =? 0 then with_table s (allocate L (table s) 1) else s) = with_table s t) as ->
    by (subst t; destruct (max_load (table s) =? 0); [done|by rewrite legacy_table_eta]).
  cbn [table with_table]. change (hash_key hash (with_table s t) value) with (hash (hash_builder s) value).
  set (h := hash (hash_builder s) value).
  destruct (max_load t <=? OverflowTable.len t).
  { rewrite legacy_insert_at_capacity_same. cbn [table with_table hash_builder].
    by destruct (OverflowTable.insert_at_capacity _ _ _ _ _ _ _) as [[t' [[]|]]|]. }
  rewrite (Legacy.match_both_engine tier f t). change (Legacy.group_index t h) with (group_index L t h).
  change (Legacy.meta_ptr (group_index L t h)) with (meta_ptr L (group_index L t h)). change (tag (Tag L) h) with (hash_tag f h).
  destruct (match_byte_and_empty (Grp L) _ _ _) as [ms es]. change (Legacy.scan_keys t (group_index L t h) ms (eq_key value)) with
    (scan_keys L t (group_index L t h) ms (λ k, bool_decide (k = value))).
  destruct (scan_keys L t (group_index L t h) ms _) as [si|] eqn:Es.
  { apply legacy_scan_holds, legacy_key_is_holds in Es. by rewrite (legacy_replace_same t _ _ value Es). }
  change (lowest_set_bit (Mask (Grp L)) es) with (lowest_set_bit BitMask es).
  assert (insert_overflow tier f hash fuel (with_table s t) h value =
    do ' (t, r) <- (do ' (t, r) <- OverflowTable.insert_overflow L (hash (hash_builder s)) fuel t h value (); Some (with_table s t, r));
    Some (t, match r with Some _ => false | None => true end)) as Hov.
  { rewrite legacy_insert_overflow_same. cbn [table with_table hash_builder].
    by destruct (OverflowTable.insert_overflow _ _ _ _ _ _ _) as [[t' [[]|]]|]. }
  destruct (lowest_set_bit BitMask es) as [si|]; [|exact Hov].
  rewrite (Legacy.has_overflow_engine tier f). destruct (negb _); [done|exact Hov].
Qed.

Lemma legacy_contains_same s value : contains tier f hash fuel s value = GenericSet.contains api s value.
Proof using Type.
  unfold contains, GenericSet.contains. cbn [map_get overflow_api hashed_map_api]. unfold GenericMap.get, tables.
  cbn [api_find_by_hash OverflowBackend]. rewrite Legacy.find_by_hash_engine.
  change (HashBackend.hash_key hash s value) with (hash_key hash s value).
  destruct (find_by_hash_impl L fuel (table s) _ _) as [[[gi si]|]|] eqn:Ef; [|done..].
  unfold GenericMap.value_at. cbn [mbind option_bind api_kv OverflowBackend fst snd]. by rewrite (legacy_find_holds _ _ _ _ _ Ef).
Qed.

Lemma legacy_get_same s value : get tier f hash fuel s value = GenericSet.get api s value.
Proof using Type.
  unfold get, GenericSet.get. cbn [map_get_key_value overflow_api hashed_map_api]. unfold GenericMap.get_key_value, tables.
  cbn [api_find_by_hash OverflowBackend]. rewrite Legacy.find_by_hash_engine.
  change (HashBackend.hash_key hash s value) with (hash_key hash s value).
  by destruct (find_by_hash_impl L fuel (table s) _ _) as [[[gi si]|]|].
Qed.

Lemma legacy_remove_same s value :
  remove tier f hash fuel s value = GenericSet.remove api s value ∧ take tier f hash fuel s value = GenericSet.take api s value.
Proof using Type.
  unfold remove, take, GenericSet.remove, GenericSet.take. cbn [map_remove map_remove_entry overflow_api hashed_map_api].
  unfold GenericMap.remove, GenericMap.remove_entry, tables. cbn [api_remove_by_hash OverflowBackend].
  rewrite Legacy.remove_by_hash_engine. change (HashBackend.hash_key hash s value) with (hash_key hash s value).
  by destruct (OverflowTable.remove_by_hash L fuel (table s) _ _) as [[t [[k []]|]]|].
Qed.

(** The walk of [SetIter] is the one of the engine's iterator. *)
Lemma legacy_take_items_same n s it :
  take_items tier n s it = (λ p, fst <$> kv_at L (table s) p.1 p.2) <$> (take_slots L n (table s) it).1.
Proof using Type.
  revert it. induction n as [|n IH]; intros it; [done|]. unfold take_slots. cbn [take_items take_walk]. unfold set_iter_next.
  rewrite (Legacy.slot_iter_next_engine tier f). unfold slot_iter_next.
  destruct (slot_walk (mask (table s) + 1) (Mask (Grp L)) (group_mask L (table s)) (mask (table s)) it) as [[[gi si]|] it']; [|done].
  rewrite IH. unfold take_slots. by destruct (take_walk _ _ _ n it') as [ps it''].
Qed.

Lemma legacy_omap_keys {A} (g : A → option (T * unit)) l : omap id ((λ p, fst <$> g p) <$> l) = (omap g l).*1.
Proof using Type. induction l as [|p l IH]; [done|]. csimpl. destruct (g p) as [[k []]|]; csimpl; by rewrite IH. Qed.

Lemma legacy_iter_same s : GenericSet.iter api s = Some (iter tier s).
Proof using Type.
  unfold GenericSet.iter, iter. cbn [map_iter overflow_api hashed_map_api mbind option_bind]. unfold GenericMap.iter, tables.
  cbn [api_kv api_occupied_positions OverflowBackend]. unfold OverflowMap.occupied_positions.
  by rewrite legacy_take_items_same, legacy_omap_keys, (Legacy.iter_slots_engine tier f).
Qed.

Lemma legacy_len_same s : len s = GenericSet.len api s.
Proof using Type. done. Qed.

Lemma legacy_clear_same s : GenericSet.clear api s = Some (clear tier s).
Proof using Type. unfold clear. by rewrite (Legacy.clear_engine tier f). Qed.

Lemma legacy_with_capacity_same hb c : GenericSet.with_capacity api hb c = Some (with_capacity_and_hasher c hb).
Proof using Type.
  unfold with_capacity_and_hasher, Legacy.with_capacity. rewrite (Legacy.allocate_engine tier f). done.
Qed.

Lemma legacy_reserve_same s n : reserve tier f hash fuel s n = GenericSet.reserve api s n.
Proof using Type.
  unfold reserve, GenericSet.reserve. cbn [map_reserve overflow_api hashed_map_api]. unfold GenericMap.reserve, tables.
  cbn [api_reserve OverflowBackend]. unfold OverflowTable.reserve.
  rewrite Legacy.unallocated_engine, (Legacy.allocate_engine tier f), Legacy.rehash_engine.
  destruct (2 ^ 64 <=? _)%Z; [done|]. destruct (max_load (table s) =? 0).
  { by destruct (0 <? n)%Z; cbn [mbind option_bind]; rewrite ?legacy_table_eta. }
  destruct (_ <? _)%Z; [|by cbn [mbind option_bind]; rewrite legacy_table_eta].
  change (Legacy.groups_for_capacity _) with (groups_for_capacity L (Z.of_nat (OverflowTable.len (table s)) + n)).
  change (Legacy.num_groups (table s)) with (mask (table s) + 1).
  destruct (_ <? _); [|by cbn [mbind option_bind]; rewrite legacy_table_eta].
  by destruct (rehash_with_impl _ _ _ _ _).
Qed.

Lemma legacy_shrink_same s : shrink_to_fit tier f hash fuel s = GenericSet.shrink_to_fit api s.
Proof using Type.
  unfold shrink_to_fit, GenericSet.shrink_to_fit. cbn [map_shrink_to_fit overflow_api hashed_map_api].
  unfold GenericMap.shrink_to_fit, tables. cbn [api_shrink_to_fit OverflowBackend]. unfold OverflowTable.shrink_to_fit.
  rewrite Legacy.rehash_engine. destruct (_ =? 0); [done|].
  change (Legacy.groups_for_capacity _) with (groups_for_capacity L (Z.of_nat (OverflowTable.len (table s)))).
  change (Legacy.num_groups (table s)) with (mask (table s) + 1).
  destruct (_ <? _); [by destruct (rehash_with_impl _ _ _ _ _)|]. cbn [mbind option_bind]. by rewrite legacy_table_eta.
Qed.

Lemma legacy_extend_same s items : extend tier f hash fuel s items = GenericSet.extend api s items.
Proof using Type.
  revert s. induction items as [|v items IH]; intros s; [done|]. cbn [extend GenericSet.extend]. rewrite legacy_insert_same.
  destruct (GenericSet.insert api s v) as [[s' b]|]; [apply IH|done].
Qed.

Lemma legacy_insert_if_same (g h : T → option bool) items s :
  (∀ v, g v = h v) → insert_if tier f hash fuel g items s = GenericSet.insert_if api h items s.
Proof using Type.
  intros E. revert s. induction items as [|v items IH]; intros s; [done|]. cbn [insert_if GenericSet.insert_if].
  rewrite E. destruct (h v) as [[]|]; [|apply IH|done]. rewrite legacy_insert_same.
  destruct (GenericSet.insert api s v) as [[s' b]|]; [apply IH|done].
Qed.

(** ** Owned iteration *)

Abbreviation wf s := (OverflowInv.wf L (hash (hash_builder s)) (table s)).

Lemma legacy_set_into_next_same n (it : @IntoIter T unit) :
  set_into_next tier n {| set_table := into_table it; set_pos := into_pos it |} =
  let '(r, it') := into_iter_next L n it in ((λ kv : option (T * unit), fst <$> kv) <$> r, {| set_table := into_table it'; set_pos := into_pos it' |}).
Proof using Type.
  unfold set_into_next, into_iter_next. cbn [set_table set_pos]. rewrite (Legacy.slot_iter_next_engine tier f).
  by destruct (slot_iter_next L n (into_table it) (into_pos it)) as [[[gi si]|] it'].
Qed.

Lemma legacy_take_owned_same n (it : @IntoIter T unit) :
  take_owned tier n {| set_table := into_table it; set_pos := into_pos it |} = (λ kv : option (T * unit), fst <$> kv) <$> (take_pairs L n it).1.
Proof using Type.
  revert it. induction n as [|n IH]; intros it; [done|]. cbn [take_owned take_pairs].
  rewrite (legacy_set_into_next_same _ it). cbn [set_table].
  destruct (into_iter_next L _ it) as [[kv|] it']; [|done]. csimpl. rewrite IH. by destruct (take_pairs L n it').
Qed.

(** A table without load has no entries, so that its walk starts with an empty
    mask even when the mask is read from memory. *)
Lemma legacy_unloaded_tags (t : RawTable T unit) h gi si :
  OverflowInv.wf L h t → max_load t = 0 → in_range L t gi si → tag_at L t gi si = EMPTY.
Proof using EqDecision0 H T f tier.
  intros Hwf Hz Hr. destruct (decide (tag_at L t gi si = EMPTY)) as [|Hne]; [done|]. exfalso.
  destruct (unallocated_len L h t Hwf Hz) as [_ Hm].
  destruct (wf_slot _ _ _ Hwf gi si Hr Hne) as (k & v & Hkv & _).
  assert (to_map L t !! k = Some v) as Hl.
  { apply (to_map_lookup L h t k v Hwf). exists gi, si. split; [done|]. unfold slot_entry. cbn [fst snd].
    by apply Z.eqb_neq in Hne as ->. }
  by rewrite Hm, lookup_empty in Hl.
Qed.

Lemma legacy_into_iter_same s : wf s →
  into_iter tier s = {| set_table := table s; set_pos := into_pos (into_iter_impl L (table s)) |}.
Proof using EqDecision0 H S T f hash tier.
  intros Hwf. unfold into_iter, into_iter_impl, OverflowTable.iter_slots, first_non_empty_mask. cbn [into_pos].
  rewrite (Legacy.match_non_empty_engine tier f). destruct (Nat.eqb_spec (max_load (table s)) 0) as [Hz|_]; [|done].
  do 2 f_equal. eapply mask_repr_eq; [apply (match_non_empty_repr (G := LegacyGroup tier))|].
  apply (mask_repr_ext _ _ (λ _, false)); [split; [done|intros i; by rewrite Z.bits_0, andb_false_r]|].
  intros i Hi.
  pose proof (legacy_unloaded_tags (table s) _ 0 i Hwf Hz) as He. unfold tag_at, get_meta, meta_ptr in He. cbn in He.
  change (0 + i) with i. rewrite He; [done|]. split; [lia|exact Hi].
Qed.

Lemma legacy_all_owned_same s : wf s → all_owned tier (into_iter tier s) = (all_pairs L (into_iter_impl L (table s))).*1.
Proof using EqDecision0 H S T f hash tier.
  intros Hwf. rewrite legacy_into_iter_same by done. unfold all_owned, all_pairs. cbn [set_table].
  change (table s) with (into_table (into_iter_impl L (table s))) at 2.
  rewrite legacy_take_owned_same. cbn [into_table into_iter_impl].
  generalize (take_pairs L (Datatypes.S (OverflowTable.len (table s))) (into_iter_impl L (table s))).1. intros l.
  induction l as [|[[k []]|] l IH]; [done|..]; csimpl; by rewrite IH.
Qed.

Lemma legacy_drain_same s : wf s →
  GenericSet.drain api s = Some (all_owned tier (drain tier s).1, (drain tier s).2) ∧
  GenericSet.into_iter api s = Some (all_owned tier (into_iter tier s)).
Proof using EqDecision0 H S T f fuel hash tier.
  intros Hwf. unfold GenericSet.drain, GenericSet.into_iter. cbn [map_drain overflow_api hashed_map_api].
  unfold GenericMap.drain, tables. cbn [api_drain OverflowBackend drain_impl]. cbn [drain fst snd mbind option_bind].
  by rewrite legacy_all_owned_same.
Qed.

Lemma legacy_clone_same s : wf s → GenericSet.clone api s = Some (clone tier s).
Proof using Type.
  intros Hwf. unfold clone. rewrite (Legacy.clone_engine tier f); [done|]. intros Ha Hc.
  destruct (wf_ctrl _ _ _ Hwf) as [(_ & _ & Hm)|(b & Hb & _)]; [|by rewrite Hc in Hb].
  unfold Legacy.is_allocated in Ha. by rewrite Hm in Ha.
Qed.

(** ** Retaining *)

Section retain.
Context {St : Type} (keep : St → T → St * bool).
Implicit Types (st : St).

(** The loops as one loop over slots. *)
Fixpoint retain_slots (ps : list (nat * nat)) st s : St * Set' :=
  match ps with
  | [] => (st, s)
  | (gi, si) :: ps' => let '(st, s) := retain_group hash keep gi [si] st s in retain_slots ps' st s
  end.

(** The mask that the loop loads for a group. *)
Definition gm s (gi : nat) : Z := group_match_non_empty tier (Legacy.metadata (table s)) (Legacy.meta_ptr gi).

Lemma retain_slots_app ps ps' st s :
  retain_slots (ps ++ ps') st s = let '(st, s) := retain_slots ps st s in retain_slots ps' st s.
Proof using Type.
  revert st s. induction ps as [|[gi si] ps IH]; intros st s; [done|]. cbn [app retain_slots].
  destruct (retain_group hash keep gi [si] st s) as [st' s']. apply IH.
Qed.

Lemma retain_group_slots gi occupied st s :
  retain_group hash keep gi occupied st s = retain_slots (pair gi <$> occupied) st s.
Proof using Type.
  revert st s. induction occupied as [|si l IH]; intros st s; [done|]. csimpl. cbn [retain_slots retain_group].
  destruct (Legacy.bucket _ _) as [[k u]|]; [|apply IH]. destruct (keep st k) as [st' b]. apply IH.
Qed.

(** Emptying a slot leaves the masks of the other groups. *)
Lemma erase_mask s h gi si g :
  si < 15 → g ≠ gi → gm (with_table s (Legacy.erase (table s) h gi si)) g = gm s g.
Proof using Type.
  intros Hsi Hg. unfold gm. cbn [table with_table]. eapply mask_repr_eq; [apply (match_non_empty_repr (G := LegacyGroup tier))|].
  eapply mask_repr_ext; [apply (match_non_empty_repr (G := LegacyGroup tier))|]. intros i Hi. do 2 f_equal.
  assert (ctrl (Legacy.erase (table s) h gi si) =
    write_bytes_with (ctrl (table s)) (λ l, set_meta l (Legacy.meta_ptr gi) si EMPTY)) as Hc
    by (unfold Legacy.erase; by destruct (Legacy.has_overflow_bit _ _ _)).
  unfold Legacy.metadata. rewrite Hc. destruct (ctrl (table s)) as [|b]; [done|]. cbn [write_bytes_with bytes].
  unfold set_meta, set_byte, byte_at. rewrite list_lookup_insert_ne; [done|].
  unfold Legacy.meta_ptr, META_GROUP_BYTES. lia.
Qed.

Lemma retain_group_frame gi occupied st s :
  (∀ si, si ∈ occupied → si < 15) →
  mask (table (retain_group hash keep gi occupied st s).2) = mask (table s) ∧
  ∀ g, g ≠ gi → gm (retain_group hash keep gi occupied st s).2 g = gm s g.
Proof using Type.
  revert st s. induction occupied as [|si l IH]; intros st s Hlt; [done|]. cbn [retain_group].
  assert (∀ si', si' ∈ l → si' < 15) as Hl by (intros; apply Hlt; by right).
  destruct (Legacy.bucket _ _) as [[k u]|]; [|by apply IH]. destruct (keep st k) as [st' b]. destruct b; cbn [negb]; [by apply IH|].
  destruct (IH st' (with_table s (Legacy.erase (table s) (hash_key hash s k) gi si)) Hl) as [Hm Hg]. split.
  - rewrite Hm. cbn [table with_table]. unfold Legacy.erase. by destruct (Legacy.has_overflow_bit _ _ _).
  - intros g Hne. rewrite Hg by done. apply erase_mask; [apply Hlt; by left|done].
Qed.

Lemma gm_slots s gi si : si ∈ bits BitMask (gm s gi) → si < 15.
Proof using Type.
  rewrite (bits_repr BitMask (gm s gi) 15 _ (match_non_empty_repr (G := LegacyGroup tier) _ _)) by (cbn; lia).
  rewrite list_elem_of_In. intros [Hs _]%List.filter_In. apply in_seq in Hs. lia.
Qed.

Lemma retain_groups_slots n g st s :
  n = mask (table s) + 1 - g →
  retain_groups tier hash keep (seq g n) st s = retain_slots (groups_from BitMask (gm s) (mask (table s)) g) st s.
Proof using Type.
  revert g st s. induction n as [|n IH]; intros g st s Hn; [by rewrite groups_from_end by lia|].
  rewrite groups_from_step, retain_slots_app by lia. cbn [seq retain_groups]. rewrite <- retain_group_slots. fold (gm s g).
  destruct (retain_group_frame g (bits BitMask (gm s g)) st s (gm_slots s g)) as [Hm Hg].
  destruct (retain_group hash keep g _ st s) as [st1 s1]. cbn [snd] in *.
  rewrite IH by lia. rewrite Hm. f_equal. rewrite <- (Nat.add_1_r g). apply groups_from_ext.
  intros gi Hgi. rewrite Hg by lia. done.
Qed.

(** Slot by slot it is the loop of the generic map, which writes the unit value
    back before it erases. *)
Lemma retain_slots_generic ps st s :
  let '(st', t) := GenericMap.retain_loop (OverflowBackend L (hash (hash_builder s)) fuel) (hash (hash_builder s))
    (λ st k _, let '(st, b) := keep st k in (st, (), b)) ps st (table s) in
  retain_slots ps st s = (st', with_table s t).
Proof using Type.
  revert st s. induction ps as [|[gi si] ps IH]; intros st s; [cbn; by destruct s|].
  cbn [retain_slots retain_group GenericMap.retain_loop api_kv api_set_kv api_erase_slot OverflowBackend fst snd].
  change (Legacy.bucket (table s) (Legacy.bucket_ptr gi si)) with (kv_at L (table s) gi si).
  destruct (kv_at L (table s) gi si) as [[k []]|] eqn:Hkv; [|apply IH].
  destruct (keep st k) as [st1 b]. rewrite (legacy_write_same (table s) gi si _ Hkv). destruct b; cbn [negb]; [apply IH|].
  rewrite (Legacy.erase_engine tier f). change (hash_key hash s k) with (hash (hash_builder s) k).
  apply (IH st1 (with_table s (erase_slot L (table s) (hash (hash_builder s) k) gi si))).
Qed.

Lemma legacy_retain_same st s : wf s → GenericSet.retain api s st keep = Some (retain tier hash s st keep).
Proof using Type*.
  intros Hwf. unfold GenericSet.retain, retain. cbn [map_retain overflow_api hashed_map_api].
  unfold GenericMap.retain, tables. cbn [api_is_allocated api_occupied_positions OverflowBackend].
  change (Legacy.is_allocated (table s)) with (is_allocated (table s)).
  destruct (negb (is_allocated (table s))); [by rewrite legacy_table_eta|].
  rewrite retain_groups_slots by lia. rewrite (occupied_positions_spec L (hash (hash_builder s)) (table s) Hwf).
  assert (groups_from BitMask (gm s) (mask (table s)) 0 = occupied_slots L (table s)) as ->.
  { rewrite <- Legacy.occupied_slots_engine. unfold groups_from. by rewrite Nat.sub_0_r. }
  pose proof (retain_slots_generic (occupied_slots L (table s)) st s) as Hs.
  change (HashBackend.hash_key hash s) with (hash (hash_builder s)).
  destruct (GenericMap.retain_loop _ _ _ _ _ _) as [st' t]. by rewrite Hs.
Qed.
End retain.

(** ** The theorems *)

Lemma legacy_all_items_same (g h : T → option bool) l :
  (∀ v, g v = h v) → GenericSet.all_items g l = GenericSet.all_items h l ∧
  GenericSet.all_items (GenericSet.not g) l = GenericSet.all_items (GenericSet.not h) l.
Proof using Type.
  intros E. unfold GenericSet.not. split; (induction l as [|v l IH]; [done|]; cbn; rewrite E; by destruct (h v) as [[]|]).
Qed.

Lemma legacy_not_same s v : GenericSet.not (contains tier f hash fuel s) v = GenericSet.not (GenericSet.contains api s) v.
Proof using Type. unfold GenericSet.not. by rewrite legacy_contains_same. Qed.

Lemma legacy_algebra_same hb s other :
  is_disjoint tier f hash fuel s other = GenericSet.is_disjoint api api s other ∧
  is_subset tier f hash fuel s other = GenericSet.is_subset api api s other ∧
  is_superset tier f hash fuel s other = GenericSet.is_superset api api s other ∧
  eq_set tier f hash fuel s other = GenericSet.eq_set api s other ∧
  intersection tier f hash fuel hb s other = GenericSet.intersection api api hb s other ∧
  difference tier f hash fuel hb s other = GenericSet.difference api api hb s other ∧
  symmetric_difference tier f hash fuel hb s other = GenericSet.symmetric_difference api hb s other.
Proof using Type.
  unfold is_superset, GenericSet.is_superset, is_disjoint, GenericSet.is_disjoint, is_subset, GenericSet.is_subset,
    eq_set, GenericSet.eq_set, intersection, GenericSet.intersection, difference, GenericSet.difference,
    symmetric_difference, GenericSet.symmetric_difference.
  rewrite !legacy_iter_same, <- !legacy_len_same. change (GenericSet.new api hb) with (Some (with_hasher hb : Set')).
  cbn [mbind option_bind].
  pose proof (λ s l, legacy_all_items_same _ _ l (legacy_contains_same s)) as Hall.
  split_and!.
  - by rewrite !(proj2 (Hall _ _)).
  - by rewrite (proj1 (Hall _ _)).
  - by rewrite (proj1 (Hall _ _)).
  - by rewrite (proj1 (Hall _ _)).
  - destruct (len s <=? len other); apply legacy_insert_if_same, legacy_contains_same.
  - apply legacy_insert_if_same, legacy_not_same.
  - rewrite (legacy_insert_if_same _ _ _ _ (legacy_not_same other)).
    destruct (GenericSet.insert_if api _ _ _) as [r|]; [|done]. apply legacy_insert_if_same, legacy_not_same.
Qed.

Lemma legacy_capacity_same s : capacity s = GenericSet.capacity api s.
Proof using Type. done. Qed.

(** [union] starts from a clone; the generic set fills a new set with both. *)
Lemma legacy_union_same s other :
  wf s → union tier f hash fuel s other =
  (do c <- GenericSet.clone api s; do l <- GenericSet.iter api other; GenericSet.extend api c l).
Proof using Type.
  intros Hwf. rewrite (legacy_clone_same s Hwf), legacy_iter_same. apply legacy_extend_same.
Qed.

(** C18: the legacy set and the generic set over the overflow-bit engine with the
    legacy layout give the same results, operation by operation, although the
    legacy set has insertion paths, loops and iterators of its own.  Only
    [union] has another algorithm: it extends a clone by the items of the other
    set, where the generic set fills a new set with the items of both. *)
Theorem legacy_set_is_generic hb s other value items lower n {St} (st : St) keep :
  wf s →
  insert tier f hash fuel s value = GenericSet.insert api s value ∧
  contains tier f hash fuel s value = GenericSet.contains api s value ∧
  get tier f hash fuel s value = GenericSet.get api s value ∧
  (remove tier f hash fuel s value = GenericSet.remove api s value ∧
   take tier f hash fuel s value = GenericSet.take api s value) ∧
  (len s = GenericSet.len api s ∧ is_empty s = GenericSet.is_empty api s ∧ capacity s = GenericSet.capacity api s) ∧
  Some (iter tier s) = GenericSet.iter api s ∧
  Some (clear tier s) = GenericSet.clear api s ∧ Some (clone tier s) = GenericSet.clone api s ∧
  reserve tier f hash fuel s n = GenericSet.reserve api s n ∧
  shrink_to_fit tier f hash fuel s = GenericSet.shrink_to_fit api s ∧
  extend tier f hash fuel s items = GenericSet.extend api s items ∧
  from_iter tier f hash fuel hb lower items = GenericSet.from_iter api hb lower items ∧
  Some (retain tier hash s st keep) = GenericSet.retain api s st keep ∧
  (Some (all_owned tier (drain tier s).1, (drain tier s).2) = GenericSet.drain api s ∧
   Some (all_owned tier (into_iter tier s)) = GenericSet.into_iter api s) ∧
  union tier f hash fuel s other =
    (do c <- GenericSet.clone api s; do l <- GenericSet.iter api other; GenericSet.extend api c l) ∧
  is_disjoint tier f hash fuel s other = GenericSet.is_disjoint api api s other ∧
  is_subset tier f hash fuel s other = GenericSet.is_subset api api s other ∧
  is_superset tier f hash fuel s other = GenericSet.is_superset api api s other ∧
  eq_set tier f hash fuel s other = GenericSet.eq_set api s other ∧
  intersection tier f hash fuel hb s other = GenericSet.intersection api api hb s other ∧
  difference tier f hash fuel hb s other = GenericSet.difference api api hb s other ∧
  symmetric_difference tier f hash fuel hb s other = GenericSet.symmetric_difference api hb s other.
Proof using Type*.
  intros Hwf. destruct (legacy_drain_same s Hwf) as [Hd Hi].
  split; [apply legacy_insert_same|]. split; [apply legacy_contains_same|]. split; [apply legacy_get_same|].
  split; [apply legacy_remove_same|]. split; [done|]. split; [by rewrite legacy_iter_same|].
  split; [by rewrite legacy_clear_same|]. split; [by rewrite legacy_clone_same|]. split; [apply legacy_reserve_same|].
  split; [apply legacy_shrink_same|]. split; [apply legacy_extend_same|].
  split; [unfold from_iter, GenericSet.from_iter; rewrite legacy_with_capacity_same; apply legacy_extend_same|].
  split; [by rewrite legacy_retain_same|]. split; [by rewrite Hd, Hi|].
  split; [by apply legacy_union_same|]. apply legacy_algebra_same.
Qed.

Abbreviation rep := (overflow_rep (V := unit) hash fuel L).

#[local] Instance legacy_laws : MapLaws api rep.
Proof using Type. apply overflow_map_laws. by vm_compute. Qed.

(** The legacy set is a finite set: the size, the membership, insertion with what
    it reports, removal and iteration are those of the set; [union] inserts the
    elements of the other set into a clone. *)
Theorem legacy_set_correct s X other Y value :
  GenericSetSpec.set_rep rep s X → GenericSetSpec.set_rep rep other Y → mgrowable rep s →
  (∀ l, iter tier other = l → GenericSetSpec.insertable_items api rep (clone tier s) l) →
  len s = size X ∧ contains tier f hash fuel s value = Some (bool_decide (value ∈ X)) ∧
  (∃ s', insert tier f hash fuel s value = Some (s', bool_decide (value ∉ X)) ∧ GenericSetSpec.set_rep rep s' ({[value]} ∪ X)) ∧
  (∃ s', remove tier f hash fuel s value = Some (s', bool_decide (value ∈ X)) ∧ GenericSetSpec.set_rep rep s' (X ∖ {[value]})) ∧
  (NoDup (iter tier s) ∧ ∀ y, y ∈ iter tier s ↔ y ∈ X) ∧
  (∃ s', union tier f hash fuel s other = Some s' ∧ GenericSetSpec.set_rep rep s' (X ∪ Y)).
Proof using Type*.
  intros Hr Hr2 Hg Hi. pose proof (ml_ready (A := api) (R := rep) s Hg) as Hb. split; [by apply (GenericSetSpec.set_len_ok api rep)|].
  split; [rewrite legacy_contains_same; by apply (GenericSetSpec.set_contains_ok api rep)|].
  split; [rewrite legacy_insert_same; by apply (GenericSetSpec.set_insert_ok api rep)|]. split; [|split].
  - rewrite (proj1 (legacy_remove_same s value)). by apply (GenericSetSpec.set_remove_ok api rep).
  - destruct (GenericSetSpec.set_iter_ok api rep s X Hr) as (l & Hl & Hn & Hin). rewrite legacy_iter_same in Hl. by injection Hl as ->.
  - destruct (GenericSetSpec.set_iter_ok api rep other Y Hr2) as (l & Hl & _ & Hin). rewrite legacy_iter_same in Hl.
    injection Hl as Hl. destruct (ml_clone (A := api) (R := rep) s _ Hr) as (c & Hc & Hrc).
    change (GenericSet.clone api s = Some c) in Hc. rewrite legacy_clone_same in Hc by apply Hr. injection Hc as Hc. subst c.
    destruct (GenericSetSpec.set_extend_ok api rep _ X l Hrc (Hi l Hl)) as (s' & Hrun & Hr').
    exists s'. unfold union. rewrite Hl, legacy_extend_same. split; [exact Hrun|].
    replace (X ∪ Y) with (list_to_set l ∪ X); [done|]. apply set_eq. intros x. rewrite !elem_of_union, elem_of_list_to_set, Hin. tauto.
Qed.
End generic.

(** ** Instances *)

Definition demo_hash (_ : unit) (k : nat) : Z := Z.of_nat k.
Abbreviation demo_layout := (LegacyLayout SSE2 PureFallback).
Abbreviation demo_api := (overflow_api (V := unit) demo_hash 64 demo_layout).
Abbreviation demo_rep := (overflow_rep (V := unit) demo_hash 64 demo_layout).

#[local] Instance legacy_demo_laws : MapLaws demo_api demo_rep.
Proof. apply overflow_map_laws. by vm_compute. Qed.

Definition demo_set (l : list nat) : option UnorderedFlatSet := GenericSet.from_iter demo_api () 0 l.

Ltac grown := clear; cbn; split_and!;
  first [intros _; apply (OverflowProbe.clear_group_ends _ _ _ 0); vm_compute; first [done|lia]
        |vm_compute; intros; first [done|lia]].
Ltac run_insertions := clear; repeat match goal with
  | |- GenericSetSpec.insertable_items _ _ _ [] => exact I
  | |- GenericSetSpec.insertable_items _ _ _ (_ :: _) => split; [grown|]
  | |- match ?r with Some _ => _ | None => _ end => let r' := eval vm_compute in r in change r with r'; cbv iota beta
  end.

Lemma legacy_demo_ok l : l = [1; 2; 3] ∨ l = [3; 4] → ∃ s, demo_set l = Some s ∧ GenericSetSpec.set_rep demo_rep s (list_to_set l).
Proof.
  intros Hl. apply (GenericSetSpec.set_from_iter_ok demo_api demo_rep).
  - intros h. split; [by split; vm_compute|]. exact group_count_1.
  - intros t Ht. destruct Hl as [-> | ->]; vm_compute in Ht; injection Ht as <-; run_insertions.
Qed.

Lemma legacy_set_correct_witness :
  ∃ s o u, demo_set [1; 2; 3] = Some s ∧ demo_set [3; 4] = Some o ∧
    union SSE2 PureFallback demo_hash 64 s o = Some u ∧ GenericSetSpec.set_rep demo_rep u (list_to_set [1; 2; 3; 4]).
Proof.
  destruct (legacy_demo_ok [1; 2; 3]) as (s & Hs & Hr); [by left|]. destruct (legacy_demo_ok [3; 4]) as (o & Ho & Hro); [by right|].
  pose proof Hs as Es. vm_compute in Es. injection Es as Es. pose proof Ho as Eo. vm_compute in Eo. injection Eo as Eo.
  destruct (legacy_set_correct SSE2 PureFallback demo_hash 64 s _ o _ 1 Hr Hro) as (_ & _ & _ & _ & _ & (u & Hu & Hru)).
  - subst s. grown.
  - intros l Hl. subst o s. vm_compute in Hl. subst l.
    match goal with |- GenericSetSpec.insertable_items _ _ ?t _ => let t' := eval vm_compute in t in change t with t' end. run_insertions.
  - exists s, o, u. split_and!; [done..|]. replace (list_to_set [1; 2; 3; 4] : gset nat) with (list_to_set [1; 2; 3] ∪ list_to_set [3; 4] : gset nat); [done|].
    by vm_compute.
Defined.

Lemma legacy_set_is_generic_witness :
  ∃ s o, demo_set [1; 2; 3] = Some s ∧ demo_set [3; 4] = Some o ∧
    insert SSE2 PureFallback demo_hash 64 s 4 = GenericSet.insert demo_api s 4 ∧
    remove SSE2 PureFallback demo_hash 64 s 4 = GenericSet.remove demo_api s 4 ∧
    Some (iter SSE2 s) = GenericSet.iter demo_api s ∧
    intersection SSE2 PureFallback demo_hash 64 () s o = GenericSet.intersection demo_api demo_api () s o.
Proof.
  destruct (legacy_demo_ok [1; 2; 3]) as (s & Hs & Hr); [by left|].
  destruct (legacy_demo_ok [3; 4]) as (o & Ho & _); [by right|]. exists s, o.
  destruct (legacy_set_is_generic SSE2 PureFallback demo_hash 64 () s o 4 [] 0 0 () (λ _ _, ((), true)))
    as (Hi & _ & _ & [Hrm _] & _ & Hit & Hrest); [apply Hr|].
  split; [exact Hs|]. split; [exact Ho|]. split; [exact Hi|]. split; [exact Hrm|]. split; [exact Hit|].
  apply Hrest.
Defined.
