(* ===== verification/OptiMap.v ===== *)
(** * The adaptive map

    [optimap.rs]: a map that keeps its entries in one of seven backends, chosen by
    a policy from its capacity, and moves them to another backend when an
    insertion or a reservation changes the capacity to one for which the policy
    chooses another. *)

From Stdlib Require Import ZArith.
From S2P Require Import Prelude HashTag Group TableApi MapApi BinSearch HashBackend.
From S2P Require GenericMap BTree BTreeIter SortedAssoc BTreeRange BTreeMap BTreeSurgery BTreeBackend NamedMaps OverflowTable TombTable.

(** ** Policies *)

(*@ optimap.rs : pub enum MapType *)
Inductive MapType := Ufm | Splitsies | Ipo | Tomb | Gaps | Ipo64 | FlatBTree.

#[export] Instance MapType_eq_dec : EqDecision MapType.
Proof. solve_decision. Defined.

(*@ optimap.rs : pub enum Hint *)
Inductive Hint := Auto | ReadHeavy | WriteHeavy | MissHeavy | LowLatency | Churn | Iteration | Sorted.

(** The bands, by ascending capacity. *)
(*@ optimap.rs : pub struct Policy *)
Definition Policy : Type := list (Z * MapType).

(*@ optimap.rs : pub fn new() -> Self { @1 : Policy::new *)
Definition policy_new : Policy := [].

(*@ optimap.rs : pub fn pinned(backend: MapType) *)
Definition policy_pinned (backend : MapType) : Policy := [(0%Z, backend)].

(*@ optimap.rs : pub fn band *)
Definition band (p : Policy) (min_capacity : Z) (backend : MapType) : option Policy :=
  do r <- binary_search_by (λ c, Z.compare c min_capacity) p.*1;
  Some (match r with
        | inl i => alter (λ b, (b.1, backend)) i p
        | inr i => take i p ++ (min_capacity, backend) :: drop i p
        end).

(** [partition_point(..).saturating_sub(1)] is the index looked up. *)
(*@ optimap.rs : pub fn backend_for *)
Definition backend_for (p : Policy) (capacity : Z) : option MapType :=
  do n <- partition_point (λ c, (c <=? capacity)%Z) p.*1;
  let idx := n - 1 in
  Some (match p !! idx with Some (_, b) => b | None => Splitsies end).

(*@ optimap.rs : pub fn auto() *)
Definition policy_auto : Policy := policy_pinned Tomb.

(*@ optimap.rs : pub fn for_hint *)
Definition for_hint (hint : Hint) : Policy :=
  match hint with
  | Auto => policy_auto
  | ReadHeavy | WriteHeavy => policy_pinned Tomb
  | MissHeavy => policy_pinned Ipo
  | LowLatency => policy_pinned FlatBTree
  | Churn => policy_pinned Splitsies
  | Iteration => policy_pinned Gaps
  | Sorted => policy_pinned FlatBTree
  end.

(*@ optimap.rs : enum Backend *)
Inductive Backend := AutoBackend (policy : Policy) | Pinned.

(** The panic of a sorted operation on another backend. *)
(*@ optimap.rs : fn not_flat_btree *)
Inductive SortedPanic := NotFlatBTree.

Section optimap.
Context (tier : simd_tier) (f : hash_feature) {S K V : Type} `{Ord K} `{Countable K}.
Context (hash : S → K → Z) (fuel key_size val_size : nat).

Abbreviation hashed R := (HashedMap R S).
Abbreviation overflow_map := (hashed (OverflowTable.RawTable K V)).
Abbreviation tomb_map := (hashed (TombTable.RawTable K V)).
Abbreviation tree_map := (BTree.RawBTree K V).
Abbreviation place := (nat * nat)%type.

Abbreviation ufm := (NamedMaps.UnorderedFlatMap tier f (V := V) hash fuel).
Abbreviation splitsies := (NamedMaps.Splitsies tier f (V := V) hash fuel).
Abbreviation ipo := (NamedMaps.InPlaceOverflow tier (V := V) hash fuel).
Abbreviation tomb := (NamedMaps.HighTag128_TombMap tier (V := V) hash fuel).
Abbreviation gaps := (NamedMaps.Gaps tier f (V := V) hash fuel).
Abbreviation ipo64 := (NamedMaps.IPO64 tier (V := V) hash fuel).
Abbreviation tree := (BTreeBackend.btree_api (S := S) (K := K) (V := V) key_size val_size).

(** ** The map *)

(*@ optimap.rs : enum Inner< *)
Inductive Inner :=
  | UfmMap (m : overflow_map)
  | SplitsiesMap (m : overflow_map)
  | IpoMap (m : tomb_map)
  | TombMap (m : tomb_map)
  | GapsMap (m : overflow_map)
  | Ipo64Map (m : tomb_map)
  | FlatBTreeMap (m : tree_map).

(*@ optimap.rs : pub struct OptiMap< *)
Record OptiMap := { inner : Inner; backend : Backend }.
Implicit Types (o : OptiMap) (i : Inner) (hb : S).

Definition with_inner o i : OptiMap := {| inner := i; backend := backend o |}.

(*@ optimap.rs : macro_rules! dispatch { *)
Definition dispatch {A} (method : ∀ M E, MapApi S M E place K V → M → A) i : A :=
  match i with
  | UfmMap m => method _ _ ufm m
  | SplitsiesMap m => method _ _ splitsies m
  | IpoMap m => method _ _ ipo m
  | TombMap m => method _ _ tomb m
  | GapsMap m => method _ _ gaps m
  | Ipo64Map m => method _ _ ipo64 m
  | FlatBTreeMap m => method _ _ tree m
  end.

(** The method returns the changed backend, and its result. *)
Definition on {A M} (wrap : M → Inner) (r : option (M * A)) : option (Inner * A) :=
  do ' (m, a) <- r; Some (wrap m, a).

(*@ optimap.rs : macro_rules! dispatch_mut *)
Definition dispatch_mut {A} (method : ∀ M E, MapApi S M E place K V → M → option (M * A)) i : option (Inner * A) :=
  match i with
  | UfmMap m => on UfmMap (method _ _ ufm m)
  | SplitsiesMap m => on SplitsiesMap (method _ _ splitsies m)
  | IpoMap m => on IpoMap (method _ _ ipo m)
  | TombMap m => on TombMap (method _ _ tomb m)
  | GapsMap m => on GapsMap (method _ _ gaps m)
  | Ipo64Map m => on Ipo64Map (method _ _ ipo64 m)
  | FlatBTreeMap m => on FlatBTreeMap (method _ _ tree m)
  end.

Definition on_inner {A} o (r : option (Inner * A)) : option (OptiMap * A) :=
  do ' (i, a) <- r; Some (with_inner o i, a).

(** The same for methods without a result. *)
Definition with_unit {M} (r : option M) : option (M * unit) := do m <- r; Some (m, ()).
Definition only {M} (r : option (M * unit)) : option M := do ' (m, _) <- r; Some m.

(*@ optimap.rs : pub fn map_type *)
Definition map_type o : MapType :=
  match inner o with
  | UfmMap _ => Ufm
  | SplitsiesMap _ => Splitsies
  | IpoMap _ => Ipo
  | TombMap _ => Tomb
  | GapsMap _ => Gaps
  | Ipo64Map _ => Ipo64
  | FlatBTreeMap _ => FlatBTree
  end.

(** ** Construction; [hb]: the hasher the new table is given *)

(*@ optimap.rs : fn build_inner *)
Definition build_inner hb (t : MapType) (capacity : Z) : option Inner :=
  match t with
  | Ufm => UfmMap <$> map_with_capacity ufm hb capacity
  | Splitsies => SplitsiesMap <$> map_with_capacity splitsies hb capacity
  | Ipo => IpoMap <$> map_with_capacity ipo hb capacity
  | Tomb => TombMap <$> map_with_capacity tomb hb capacity
  | Gaps => GapsMap <$> map_with_capacity gaps hb capacity
  | Ipo64 => Ipo64Map <$> map_with_capacity ipo64 hb capacity
  | FlatBTree => FlatBTreeMap <$> map_with_capacity tree hb capacity
  end.

(*@ optimap.rs : fn pinned(map_type: MapType, capacity: usize) *)
Definition pinned hb (t : MapType) (capacity : Z) : option OptiMap :=
  do i <- build_inner hb t capacity; Some {| inner := i; backend := Pinned |}.

(*@ optimap.rs : pub fn with_policy_and_capacity *)
Definition with_policy_and_capacity hb (policy : Policy) (capacity : Z) : option OptiMap :=
  do t <- backend_for policy capacity;
  do i <- build_inner hb t capacity;
  Some {| inner := i; backend := AutoBackend policy |}.

(*@ optimap.rs : pub fn with_policy(policy: Policy) *)
Definition with_policy hb (policy : Policy) : option OptiMap := with_policy_and_capacity hb policy 0.

(*@ optimap.rs : pub fn with_capacity_and_hint *)
Definition with_capacity_and_hint hb (capacity : Z) (hint : Hint) : option OptiMap :=
  with_policy_and_capacity hb (for_hint hint) capacity.

(*@ optimap.rs : pub fn with_hint *)
Definition with_hint hb (hint : Hint) : option OptiMap := with_capacity_and_hint hb 0 hint.

(*@ optimap.rs : pub fn with_capacity(capacity: usize) *)
Definition with_capacity hb (capacity : Z) : option OptiMap := with_capacity_and_hint hb capacity Auto.

(*@ optimap.rs : pub fn new() -> Self { @2 : OptiMap::new *)
Definition new hb : option OptiMap := with_capacity hb 0.

(*@ optimap.rs : pub fn with_type( *)
Definition with_type hb (t : MapType) : option OptiMap := pinned hb t 0.

(*@ optimap.rs : pub fn with_type_and_capacity *)
Definition with_type_and_capacity hb (t : MapType) (capacity : Z) : option OptiMap := pinned hb t capacity.

(*@ optimap.rs : pub fn sorted_with_capacity *)
Definition sorted_with_capacity hb (capacity : Z) : option OptiMap := pinned hb FlatBTree capacity.

(*@ optimap.rs : pub fn from_sorted_iter *)
Definition from_sorted_iter (debug_assertions : bool) (pairs : list (K * V)) : option OptiMap :=
  do m <- BTreeMap.from_sorted_iter key_size val_size debug_assertions pairs;
  Some {| inner := FlatBTreeMap m; backend := Pinned |}.

(** ** Size *)

(*@ optimap.rs : pub fn len( *)
Definition len o : nat := dispatch (λ _ _ A m, map_len A m) (inner o).

(*@ optimap.rs : pub fn is_empty *)
Definition is_empty o : bool := len o =? 0.

(*@ optimap.rs : pub fn capacity( *)
Definition capacity o : nat := dispatch (λ _ _ A m, map_capacity A m) (inner o).

(** ** Moving to another backend *)

(** The pairs a backend's [drain] yields, run to its end. *)
(*@ optimap.rs : let entries: Vec<(K, V)> = match old *)
Definition drained i : option (list (K * V)) := dispatch (λ _ _ A m, fst <$> map_drain A m) i.

(*@ optimap.rs : for (k, v) in entries { *)
Fixpoint insert_entries i (entries : list (K * V)) : option Inner :=
  match entries with
  | [] => Some i
  | (k, v) :: entries' =>
      do ' (i, _) <- dispatch_mut (λ _ _ A m, map_insert A m k v) i; insert_entries i entries'
  end.

(*@ optimap.rs : fn transition_to *)
Definition transition_to hb o (t : MapType) (capacity : Z) : option OptiMap :=
  do fresh <- build_inner hb t capacity;
  do entries <- drained (inner o);
  do i <- insert_entries fresh entries;
  Some (with_inner o i).

(*@ optimap.rs : fn maybe_transition_after_grow *)
Definition maybe_transition_after_grow hb o (new_cap : Z) : option OptiMap :=
  match backend o with
  | AutoBackend p =>
      do desired <- backend_for p new_cap;
      if negb (bool_decide (desired = map_type o)) then transition_to hb o desired new_cap else Some o
  | Pinned => Some o
  end.

(** ** Operations; [hb]: the hasher a table built by the call is given *)

(*@ optimap.rs : fn insert_auto *)
Definition insert_auto hb o (key : K) (value : V) : option (OptiMap * option V) :=
  let cap_before := capacity o in
  do ' (o, result) <- on_inner o (dispatch_mut (λ _ _ A m, map_insert A m key value) (inner o));
  match result with
  | Some _ => Some (o, result)
  | None =>
      let cap_after := capacity o in
      if negb (cap_after =? cap_before) then
        do o <- maybe_transition_after_grow hb o (Z.of_nat cap_after); Some (o, result)
      else Some (o, result)
  end.

(*@ optimap.rs : pub fn insert(&mut self, key: K, value: V) *)
Definition insert hb o (key : K) (value : V) : option (OptiMap * option V) :=
  match backend o with
  | Pinned => on_inner o (dispatch_mut (λ _ _ A m, map_insert A m key value) (inner o))
  | AutoBackend _ => insert_auto hb o key value
  end.

(*@ optimap.rs : pub fn get< *)
Definition get o (key : K) : option (option V) := dispatch (λ _ _ A m, map_get A m key) (inner o).

(*@ optimap.rs : pub fn get_key_value *)
Definition get_key_value o (key : K) : option (option (K * V)) :=
  dispatch (λ _ _ A m, map_get_key_value A m key) (inner o).

(*@ optimap.rs : pub fn get_mut< *)
Definition get_mut o (key : K) : option (option place) := dispatch (λ _ _ A m, map_get_mut A m key) (inner o).

(*@ optimap.rs : pub fn remove< *)
Definition remove o (key : K) : option (OptiMap * option V) :=
  on_inner o (dispatch_mut (λ _ _ A m, map_remove A m key) (inner o)).

(*@ optimap.rs : pub fn remove_entry< *)
Definition remove_entry o (key : K) : option (OptiMap * option (K * V)) :=
  on_inner o (dispatch_mut (λ _ _ A m, map_remove_entry A m key) (inner o)).

(*@ optimap.rs : pub fn contains_key *)
Definition contains_key o (key : K) : option bool := dispatch (λ _ _ A m, map_contains_key A m key) (inner o).

(*@ optimap.rs : pub fn clear *)
Definition clear o : option OptiMap := only (on_inner o (dispatch_mut (λ _ _ A m, with_unit (map_clear A m)) (inner o))).

(** A backend's [reserve] may panic. *)
Definition reserve_inner o (additional : Z) : option (OptiMap + Panic) :=
  do ' (r, p) <- dispatch_mut (λ _ _ A m,
      do r <- map_reserve A m additional;
      Some (match r with inl m' => (m', None) | inr p => (m, Some p) end)) (inner o);
  Some (match p with None => inl (with_inner o r) | Some p => inr p end).

(*@ optimap.rs : pub fn reserve *)
Definition reserve hb o (additional : Z) : option (OptiMap + Panic) :=
  let new_cap := wrap64 (Z.of_nat (len o) + additional) in
  do desired <- match backend o with
                | AutoBackend p => do t <- backend_for p new_cap; Some (Some t)
                | Pinned => Some None
                end;
  match desired with
  | Some d =>
      if negb (bool_decide (d = map_type o)) then do o <- transition_to hb o d new_cap; Some (inl o)
      else reserve_inner o additional
  | None => reserve_inner o additional
  end.

(*@ optimap.rs : pub fn shrink_to_fit *)
Definition shrink_to_fit o : option OptiMap :=
  only (on_inner o (dispatch_mut (λ _ _ A m, with_unit (map_shrink_to_fit A m)) (inner o))).

(** ** Iteration *)

(*@ optimap.rs : pub fn iter( *)
Definition iter o : option (list (K * V)) := dispatch (λ _ _ A m, map_iter A m) (inner o).

(** A client that replaces every value. *)
(*@ optimap.rs : pub fn iter_mut( *)
Definition iter_mut (g : K → V → V) o : option OptiMap :=
  only (on_inner o (dispatch_mut (λ _ _ A m, with_unit (map_iter_mut A g m)) (inner o))).

(*@ optimap.rs : pub fn keys( *)
Definition keys o : option (list K) := do l <- iter o; Some l.*1.

(*@ optimap.rs : pub fn values( *)
Definition values o : option (list V) := do l <- iter o; Some l.*2.

(*@ optimap.rs : pub fn values_mut *)
Definition values_mut (g : V → V) o : option OptiMap := iter_mut (λ _, g) o.

(*@ optimap.rs : pub fn retain< *)
Definition retain {St} o (s : St) (g : St → K → V → St * V * bool) : option (OptiMap * St) :=
  on_inner o (dispatch_mut (λ _ _ A m, do ' (s, m) <- map_retain A m s g; Some (m, s)) (inner o)).

(*@ optimap.rs : fn into_iter(self) *)
Definition into_iter o : option (list (K * V)) := dispatch (λ _ _ A m, map_into_iter A m) (inner o).

(*@ optimap.rs : pub fn into_keys *)
Definition into_keys o : option (list K) := do l <- into_iter o; Some l.*1.

(*@ optimap.rs : pub fn into_values *)
Definition into_values o : option (list V) := do l <- into_iter o; Some l.*2.

(*@ optimap.rs : pub fn drain( *)
Definition drain o : option (OptiMap * list (K * V)) :=
  on_inner o (dispatch_mut (λ _ _ A m, do ' (l, m) <- map_drain A m; Some (m, l)) (inner o)).

(** ** Entries *)

(** [Occupied] and [Vacant] are the constructors of the backend's entry. *)
(*@ optimap.rs : 175-206 : Entry, OccupiedEntry, VacantEntry *)
Inductive Entry :=
  | UfmEntry (e : @GenericMap.Entry K)
  | SplitsiesEntry (e : @GenericMap.Entry K)
  | IpoEntry (e : @GenericMap.Entry K)
  | TombEntry (e : @GenericMap.Entry K)
  | GapsEntry (e : @GenericMap.Entry K)
  | Ipo64Entry (e : @GenericMap.Entry K)
  | FlatBTreeEntry (e : BTreeMap.Entry K).

Definition entered {M E} o (wrap : M → Inner) (wrap_entry : E → Entry) (r : option ((M * E) + Panic)) :
    option ((OptiMap * Entry) + Panic) :=
  do r <- r;
  Some (match r with inl (m, e) => inl (with_inner o (wrap m), wrap_entry e) | inr p => inr p end).

(*@ optimap.rs : pub fn entry *)
Definition entry o (key : K) : option ((OptiMap * Entry) + Panic) :=
  match inner o with
  | UfmMap m => entered o UfmMap UfmEntry (map_entry ufm m key)
  | SplitsiesMap m => entered o SplitsiesMap SplitsiesEntry (map_entry splitsies m key)
  | IpoMap m => entered o IpoMap IpoEntry (map_entry ipo m key)
  | TombMap m => entered o TombMap TombEntry (map_entry tomb m key)
  | GapsMap m => entered o GapsMap GapsEntry (map_entry gaps m key)
  | Ipo64Map m => entered o Ipo64Map Ipo64Entry (map_entry ipo64 m key)
  | FlatBTreeMap m => entered o FlatBTreeMap FlatBTreeEntry (map_entry tree m key)
  end.

(** An entry borrows the backend that made it: no other pair of variants meets. *)
(*@ optimap.rs : pub fn or_insert( *)
Definition or_insert o (e : Entry) (default : V) : option (OptiMap * place) :=
  on_inner o
    match inner o, e with
    | UfmMap m, UfmEntry e => on UfmMap (map_or_insert ufm m e default)
    | SplitsiesMap m, SplitsiesEntry e => on SplitsiesMap (map_or_insert splitsies m e default)
    | IpoMap m, IpoEntry e => on IpoMap (map_or_insert ipo m e default)
    | TombMap m, TombEntry e => on TombMap (map_or_insert tomb m e default)
    | GapsMap m, GapsEntry e => on GapsMap (map_or_insert gaps m e default)
    | Ipo64Map m, Ipo64Entry e => on Ipo64Map (map_or_insert ipo64 m e default)
    | FlatBTreeMap m, FlatBTreeEntry e => on FlatBTreeMap (map_or_insert tree m e default)
    | _, _ => None
    end.

(*@ optimap.rs : pub fn or_insert_with< *)
Definition or_insert_with o (e : Entry) (default : () → V) : option (OptiMap * place) :=
  or_insert o e (default ()).

(*@ optimap.rs : pub fn or_default *)
Definition or_default `{Inhabited V} o (e : Entry) : option (OptiMap * place) :=
  or_insert_with o e (λ _, inhabitant).

(*@ optimap.rs : pub fn key(&self) -> &K { @1 : Entry::key *)
Definition entry_key (e : Entry) : K :=
  match e with
  | UfmEntry e => map_entry_key ufm e
  | SplitsiesEntry e => map_entry_key splitsies e
  | IpoEntry e => map_entry_key ipo e
  | TombEntry e => map_entry_key tomb e
  | GapsEntry e => map_entry_key gaps e
  | Ipo64Entry e => map_entry_key ipo64 e
  | FlatBTreeEntry e => map_entry_key tree e
  end.

(*@ optimap.rs : pub fn or_insert_with_key *)
Definition or_insert_with_key o (e : Entry) (default : K → V) : option (OptiMap * place) :=
  or_insert o e (default (entry_key e)).

Definition modified {M E} o (wrap : M → Inner) (wrap_entry : E → Entry) (r : option (M * E)) :
    option (OptiMap * Entry) :=
  do ' (m, e) <- r; Some (with_inner o (wrap m), wrap_entry e).

(*@ optimap.rs : pub fn and_modify *)
Definition and_modify o (e : Entry) (g : V → V) : option (OptiMap * Entry) :=
  match inner o, e with
  | UfmMap m, UfmEntry e => modified o UfmMap UfmEntry (map_and_modify ufm m e g)
  | SplitsiesMap m, SplitsiesEntry e => modified o SplitsiesMap SplitsiesEntry (map_and_modify splitsies m e g)
  | IpoMap m, IpoEntry e => modified o IpoMap IpoEntry (map_and_modify ipo m e g)
  | TombMap m, TombEntry e => modified o TombMap TombEntry (map_and_modify tomb m e g)
  | GapsMap m, GapsEntry e => modified o GapsMap GapsEntry (map_and_modify gaps m e g)
  | Ipo64Map m, Ipo64Entry e => modified o Ipo64Map Ipo64Entry (map_and_modify ipo64 m e g)
  | FlatBTreeMap m, FlatBTreeEntry e => modified o FlatBTreeMap FlatBTreeEntry (map_and_modify tree m e g)
  | _, _ => None
  end.

(*@ optimap.rs : pub fn try_insert *)
Definition try_insert o (key : K) (value : V) : option ((OptiMap * option (K * V)) + Panic) :=
  do ' (i, r) <- dispatch_mut (λ _ _ A m,
      do r <- map_try_insert A m key value;
      Some (match r with inl (m', e) => (m', inl e) | inr p => (m, inr p) end)) (inner o);
  Some (match r with inl e => inl (with_inner o i, e) | inr p => inr p end).

(** ** Sorted operations *)

(** Only the tree has them. *)
Definition on_tree {A} o (method : tree_map → option A) : option (A + SortedPanic) :=
  match inner o with
  | FlatBTreeMap m => do a <- method m; Some (inl a)
  | _ => Some (inr NotFlatBTree)
  end.
Definition on_tree_mut {A} o (method : tree_map → option (tree_map * A)) : option ((OptiMap * A) + SortedPanic) :=
  on_tree o (λ m, do ' (m, a) <- method m; Some (with_inner o (FlatBTreeMap m), a)).

(*@ optimap.rs : pub fn first_key_value *)
Definition first_key_value o : option (option (K * V) + SortedPanic) := on_tree o BTreeMap.first_key_value.

(*@ optimap.rs : pub fn last_key_value *)
Definition last_key_value o : option (option (K * V) + SortedPanic) := on_tree o BTreeMap.last_key_value.

(*@ optimap.rs : pub fn pop_first *)
Definition pop_first o : option ((OptiMap * option (K * V)) + SortedPanic) :=
  on_tree_mut o (BTreeMap.pop_first key_size val_size).

(*@ optimap.rs : pub fn pop_last *)
Definition pop_last o : option ((OptiMap * option (K * V)) + SortedPanic) :=
  on_tree_mut o (BTreeMap.pop_last key_size val_size).

(*@ optimap.rs : pub fn iter_sorted *)
Definition iter_sorted o : option (list (K * V) + SortedPanic) := on_tree o BTreeIter.items.

(*@ optimap.rs : pub fn range< *)
Definition range o (start_bound end_bound : SortedAssoc.Bound K) : option (list (K * V) + SortedPanic) :=
  on_tree o (λ m, BTreeRange.collect_range m start_bound end_bound).

(*@ optimap.rs : pub fn range_mut *)
Definition range_mut o (start_bound end_bound : SortedAssoc.Bound K) (g : K → V → V) :
    option ((OptiMap * unit) + SortedPanic) :=
  on_tree_mut o (λ m, with_unit (BTreeRange.range_mut m start_bound end_bound g)).

(** The entries from [at_key] on, in a map of their own that is pinned to the tree. *)
(*@ optimap.rs : pub fn split_off *)
Definition split_off o (at_key : K) : option ((OptiMap * OptiMap) + SortedPanic) :=
  on_tree_mut o (λ m, do ' (m, other) <- BTreeSurgery.split_off key_size val_size m at_key;
                      Some (m, {| inner := FlatBTreeMap other; backend := Pinned |})).

(*@ optimap.rs : pub fn append *)
Definition append (debug_assertions : bool) o other : option ((OptiMap * OptiMap) + SortedPanic) :=
  match inner o, inner other with
  | FlatBTreeMap a, FlatBTreeMap b =>
      do ' (a, b) <- BTreeSurgery.append key_size val_size debug_assertions a b;
      Some (inl (with_inner o (FlatBTreeMap a), with_inner other (FlatBTreeMap b)))
  | _, _ => Some (inr NotFlatBTree)
  end.

(** ** Copying, comparing, collecting *)

(*@ optimap.rs : fn clone(&self) *)
Definition clone o : option OptiMap :=
  do i <- match inner o with
          | UfmMap m => UfmMap <$> map_clone ufm m
          | SplitsiesMap m => SplitsiesMap <$> map_clone splitsies m
          | IpoMap m => IpoMap <$> map_clone ipo m
          | TombMap m => TombMap <$> map_clone tomb m
          | GapsMap m => GapsMap <$> map_clone gaps m
          | Ipo64Map m => Ipo64Map <$> map_clone ipo64 m
          | FlatBTreeMap m => FlatBTreeMap <$> map_clone tree m
          end;
  Some {| inner := i; backend := backend o |}.

(** [check_eq!] *)
(*@ optimap.rs : macro_rules! check_eq { *)
Fixpoint check_eq `{EqDecision V} (kvs : list (K * V)) (other : OptiMap) : option bool :=
  match kvs with
  | [] => Some true
  | (k, v) :: kvs' =>
      do r <- get other k;
      match r with
      | Some v2 => if bool_decide (v = v2) then check_eq kvs' other else Some false
      | None => Some false
      end
  end.

(*@ optimap.rs : fn eq(&self *)
Definition eq_map `{EqDecision V} o (other : OptiMap) : option bool :=
  if negb (len o =? len other) then Some false
  else do kvs <- iter o; check_eq kvs other.

(** [fresh n]: the hasher a table built while [n] pairs are still to come is given. *)
(*@ optimap.rs : fn extend *)
Fixpoint extend (fresh : nat → S) o (pairs : list (K * V)) : option OptiMap :=
  match pairs with
  | [] => Some o
  | (k, v) :: pairs' => do ' (o, _) <- insert (fresh (length pairs)) o k v; extend fresh o pairs'
  end.

(** [lower]: the lower bound of the iterator's size. *)
(*@ optimap.rs : fn from_iter *)
Definition from_iter (fresh : nat → S) (lower : Z) (pairs : list (K * V)) : option OptiMap :=
  do o <- with_capacity (fresh 0) lower; extend fresh o pairs.

(** [.expect("no entry found for key")] *)
(*@ optimap.rs : fn index( *)
Definition index o (key : K) : option (V + GenericMap.IndexPanic) :=
  do r <- get o key; Some (match r with Some v => inl v | None => inr GenericMap.NoEntryFound end).

(** ** The map interface *)

(** The trait, and the inherent methods it does not name; [fresh o]: the hasher a
    table built by a call on [o] is given. *)
(*@ optimap.rs : 1410-1518 : Map for OptiMap *)
Definition optimap_api (fresh : OptiMap → S) : MapApi S OptiMap Entry place K V := {|
  map_new := new;
  map_with_capacity := with_capacity;
  map_len := len;
  map_capacity := capacity;
  map_clear := clear;
  map_insert o := insert (fresh o) o;
  map_get := get;
  map_get_key_value := get_key_value;
  map_get_mut := get_mut;
  map_contains_key := contains_key;
  map_remove := remove;
  map_remove_entry := remove_entry;
  map_entry := entry;
  map_entry_key := entry_key;
  map_or_insert := or_insert;
  map_and_modify := and_modify;
  map_try_insert := try_insert;
  map_iter := iter;
  map_iter_mut := iter_mut;
  map_into_iter := into_iter;
  map_drain o := do ' (o, l) <- drain o; Some (l, o);
  map_retain _ o s g := do ' (o, s) <- retain o s g; Some (s, o);
  map_reserve o := reserve (fresh o) o;
  map_shrink_to_fit := shrink_to_fit;
  map_clone := clone;
|}.
End optimap.
