(* ===== verification/OptiMapSpec.v ===== *)
(** * The adaptive map: correctness

    The policy picks the band with the largest threshold under the capacity; every
    operation of the map acts on the represented finite map as its backend
    promises, whichever backend holds the entries; a transition moves
    all of them. *)

From Stdlib Require Import ZArith Lia Sorting.Sorted.
From S2P Require Import Prelude Memory HashTag Group TableApi MapApi BinSearch HashBackend NamedMaps Ipo Ipo64 BTreeInv OptiMap.
From S2P Require GenericMap Layout OverflowInv OverflowTable TombInv TombTable TombMap BTree BTreeNode BTreeRange BTreeInsert BTreeSpec BTreeRep BTreeMap BTreeEnds BTreeBackend BTreeBulk SortedAssoc BTreeSearch BTreeCollect BTreeIter BTreeSurgery BTreeSurgerySpec BTreeCut.

(** ** Policies *)

#[local] Instance Z_ord : Ord Z := Z.compare.

#[local] Instance Z_ord_laws : OrdLaws Z.
Proof.
  split; unfold cmp, Z_ord.
  - intros x y. apply Z.compare_eq_iff.
  - intros x y. apply Z.compare_antisym.
  - intros x y z. apply Z.lt_trans.
Qed.

Abbreviation bands := (list (Z * MapType)).

Definition policy_sorted (p : bands) : Prop := StronglySorted Z.lt p.*1.

(** The band in force at a capacity. *)
Definition in_force (p : bands) (capacity : Z) (b : Z * MapType) : Prop :=
  b ∈ p ∧ (b.1 <= capacity)%Z ∧ ∀ b', b' ∈ p → (b'.1 <= capacity)%Z → (b'.1 <= b.1)%Z.

Lemma policy_order (p : bands) i j b b' :
  policy_sorted p → p !! i = Some b → p !! j = Some b' → i < j → (b.1 < b'.1)%Z.
Proof.
  intros Hs Hb Hb' Hij. apply (sorted_lookup p.*1 i j); [done|by rewrite list_lookup_fmap, Hb|by rewrite list_lookup_fmap, Hb'|done].
Qed.

Lemma policy_order_le (p : bands) i j b b' :
  policy_sorted p → p !! i = Some b → p !! j = Some b' → i <= j → (b.1 <= b'.1)%Z.
Proof.
  intros Hs Hb Hb' Hij. destruct (decide (i = j)) as [->|]; [simplify_eq; lia|].
  pose proof (policy_order p i j b b' Hs Hb Hb'). lia.
Qed.

Lemma policy_sorted_intro (p : bands) :
  (∀ i j b b', p !! i = Some b → p !! j = Some b' → i < j → (b.1 < b'.1)%Z) → policy_sorted p.
Proof.
  unfold policy_sorted. induction p as [|b p IH]; intros Hs; [constructor|]. cbn. constructor.
  - apply IH. intros i j b1 b2 H1 H2 Hij. apply (Hs (S i) (S j) b1 b2); [done|done|lia].
  - apply Forall_forall. intros x Hx. apply list_elem_of_fmap in Hx as (b' & -> & Hb').
    apply list_elem_of_lookup in Hb' as [j Hj]. by apply (Hs 0 (S j) b b'); [..|lia].
Qed.

Lemma policy_sorted_split (xs ys : list Z) (c : Z) :
  StronglySorted Z.lt (xs ++ ys) → (∀ x, x ∈ xs → (x < c)%Z) → (∀ y, y ∈ ys → (c < y)%Z) →
  StronglySorted Z.lt (xs ++ c :: ys).
Proof.
  induction xs as [|x xs IH]; cbn; intros Hs Hx Hy.
  - constructor; [done|]. by apply Forall_forall.
  - apply StronglySorted_inv in Hs as [Hs Hall]. constructor.
    + apply IH; [done|intros z Hz; apply Hx; by right|done].
    + rewrite !Forall_app in *. destruct Hall as [? ?]. split; [done|]. constructor; [apply Hx; by left|done].
Qed.

Lemma backend_for_spec (p : bands) capacity :
  policy_sorted p →
  match p with
  | [] => backend_for p capacity = Some Splitsies
  | first :: _ =>
      if (first.1 <=? capacity)%Z then ∃ b, backend_for p capacity = Some b.2 ∧ in_force p capacity b
      else backend_for p capacity = Some first.2
  end.
Proof.
  intros Hs. unfold backend_for, Policy. rewrite partition_point_spec.
  2: { intros i j x y Hx Hy Hij. rewrite !Z.leb_le. intros Hle.
       rewrite list_lookup_fmap in Hx, Hy. apply fmap_Some in Hx as (b & Hx & ->). apply fmap_Some in Hy as (b' & Hy & ->).
       pose proof (policy_order_le p i j b b' Hs Hx Hy Hij). lia. }
  set (n := find_index _ p.*1).
  assert (n <= length p) as Hn by (unfold n; rewrite <- (length_fmap fst p); apply find_index_le).
  assert (∀ i b, p !! i = Some b → i < n → (b.1 <= capacity)%Z) as Hlo.
  { intros i b Hb Hi. apply Z.leb_le, negb_false_iff. apply (find_index_before (λ c, negb (c <=? capacity)%Z) p.*1 i); [|done].
    by rewrite list_lookup_fmap, Hb. }
  assert (∀ i b, p !! i = Some b → n <= i → (capacity < b.1)%Z) as Hhi.
  { intros i b Hb Hi. destruct (lookup_lt_is_Some_2 p n) as [b0 Hb0]; [apply lookup_lt_Some in Hb; lia|].
    pose proof (policy_order_le p n i b0 b Hs Hb0 Hb Hi).
    assert (negb (b0.1 <=? capacity)%Z = true) as Hgt.
    { apply (find_index_at (λ c, negb (c <=? capacity)%Z) p.*1). fold n. by rewrite list_lookup_fmap, Hb0. }
    apply negb_true_iff, Z.leb_gt in Hgt. lia. }
  clearbody n. destruct p as [|first p']; [done|]. cbv zeta. destruct (Z.leb_spec first.1 capacity) as [Hle|Hgt].
  - assert (0 < n) as Hpos.
    { destruct n; [|lia]. pose proof (Hhi 0 first eq_refl ltac:(lia)). lia. }
    destruct (lookup_lt_is_Some_2 (first :: p') (n - 1)) as [b Hb]; [lia|]. rewrite Hb. exists b.
    split; [by destruct b|]. split; [by eapply list_elem_of_lookup_2|]. split; [apply (Hlo (n - 1)); [done|lia]|].
    intros b' Hin Hb'. apply list_elem_of_lookup in Hin as [j Hj].
    assert (j < n) by (destruct (decide (n <= j)) as [Hge|]; [pose proof (Hhi j b' Hj Hge)|]; lia).
    by apply (policy_order_le _ j (n - 1) b' b Hs Hj Hb); lia.
  - assert (n = 0) as ->.
    { destruct n; [done|]. pose proof (Hlo 0 first eq_refl ltac:(lia)). lia. }
    cbn. by destruct first.
Qed.

(** A policy's answer is the band with the largest threshold at or below
    the capacity; a capacity below the first threshold gets the first band, and
    an empty policy gives [Splitsies]. *)
Theorem policy_backend_for_correct (p : bands) capacity :
  policy_sorted p →
  match p with
  | [] => backend_for p capacity = Some Splitsies
  | first :: _ =>
      if (first.1 <=? capacity)%Z then ∃ b, backend_for p capacity = Some b.2 ∧ in_force p capacity b
      else backend_for p capacity = Some first.2
  end.
Proof. apply backend_for_spec. Qed.

Lemma policy_backend_for_correct_witness :
  backend_for [(64%Z, Gaps); (1024%Z, Ipo)] 10 = Some Gaps.
Proof.
  refine (policy_backend_for_correct [(64%Z, Gaps); (1024%Z, Ipo)] 10 _).
  repeat constructor; by vm_compute.
Defined.

(** [band] keeps the thresholds sorted and without repetition, and sets the
    band of its threshold only. *)
Theorem policy_band_correct (p : bands) min_capacity backend :
  policy_sorted p →
  ∃ p', band p min_capacity backend = Some p' ∧ policy_sorted p' ∧
    ∀ b, b ∈ p' ↔ b = (min_capacity, backend) ∨ (b ∈ p ∧ b.1 ≠ min_capacity).
Proof.
  intros Hs. unfold band, Policy.
  assert (∀ i c, p.*1 !! i = Some c ↔ ∃ b, p !! i = Some b ∧ b.1 = c) as Hfst.
  { intros i c. rewrite list_lookup_fmap, fmap_Some. naive_solver. }
  destruct (binary_search_spec (λ c, Z.compare c min_capacity) p.*1) as (r & -> & Hr).
  { intros i j x y (b & Hb & <-)%Hfst (b' & Hb' & <-)%Hfst Hij.
    pose proof (policy_order_le p i j b b' Hs Hb Hb' Hij). rewrite !Z.compare_gt_iff, !Z.compare_lt_iff. lia. }
  eexists. split; [reflexivity|]. destruct r as [i|i].
  - destruct Hr as (x & (b & Hb & <-)%Hfst & Heq%Z.compare_eq_iff).
    assert (∀ j, alter (λ b, (b.1, backend)) i p !! j = if decide (j = i) then Some (min_capacity, backend) else p !! j) as Hl.
    { intros j. destruct (decide (j = i)) as [->|Hne]; [by rewrite list_lookup_alter_eq, Hb; cbn; rewrite Heq|by rewrite list_lookup_alter_ne]. }
    split.
    + unfold policy_sorted in *. replace (alter _ i p).*1 with p.*1; [done|]. apply list_eq. intros j.
      rewrite !list_lookup_fmap, Hl. case_decide as Hj; [|done]. by rewrite Hj, Hb; cbn; rewrite Heq.
    + intros b'. rewrite !list_elem_of_lookup. split.
      * intros [j Hj]. rewrite Hl in Hj. case_decide as Hji; [simplify_eq; by left|]. right. split; [by exists j|].
        intros Hb'. destruct (Nat.lt_gt_cases j i) as [[Hlt|Hlt] _]; [done|..];
          [pose proof (policy_order p j i _ _ Hs Hj Hb Hlt)|pose proof (policy_order p i j _ _ Hs Hb Hj Hlt)]; lia.
      * intros [->|[[j Hj] Hne]]; [exists i; rewrite Hl; by rewrite decide_True|]. exists j. rewrite Hl, decide_False; [done|].
        intros ->. by simplify_eq.
  - destruct Hr as (Hle & Hlt & Hgt). rewrite length_fmap in Hle.
    assert (∀ j b, p !! j = Some b → j < i → (b.1 < min_capacity)%Z) as Hlo.
    { intros j b Hb Hj. apply Z.compare_lt_iff, (Hlt j); [apply Hfst; by exists b|done]. }
    assert (∀ j b, p !! j = Some b → i <= j → (min_capacity < b.1)%Z) as Hhi.
    { intros j b Hb Hj. apply Z.compare_gt_iff, (Hgt j); [apply Hfst; by exists b|done]. }
    split.
    + unfold policy_sorted in *. rewrite fmap_app. cbn. rewrite fmap_take, fmap_drop.
      rewrite <- (take_drop i p.*1) in Hs. apply policy_sorted_split; [done|..].
      * intros x Hx. apply elem_of_take in Hx as (j & (b & Hb & <-)%Hfst & Hj). by apply (Hlo j).
      * intros x Hx. apply list_elem_of_lookup in Hx as [j Hj]. rewrite lookup_drop in Hj.
        apply Hfst in Hj as (b & Hb & <-). apply (Hhi (i + j) b Hb). lia.
    + intros b'. rewrite elem_of_app, elem_of_cons.
      assert (b' ∈ p ↔ b' ∈ take i p ∨ b' ∈ drop i p) as -> by (rewrite <- elem_of_app; by rewrite take_drop).
      split; [intros [Hin|[->|Hin]]|intros [->|[[Hin|Hin] _]]]; try tauto; right; (split; [tauto|]).
      * apply elem_of_take in Hin as (j & Hj & Hji). pose proof (Hlo j b' Hj Hji). lia.
      * apply list_elem_of_lookup in Hin as [j Hj]. rewrite lookup_drop in Hj. pose proof (Hhi (i + j) b' Hj). lia.
Qed.

Section optimap.
Context (tier : simd_tier) (f : hash_feature) {S K V : Type} `{OrdLaws K} `{Countable K}.
Context (hash : S → K → Z) (fuel key_size val_size : nat).
Context (Hcap : BTreeNode.assert_capacities key_size val_size = true).

Abbreviation place := (nat * nat)%type.
Abbreviation Inner := (@OptiMap.Inner S K V).
Abbreviation OptiMap := (@OptiMap.OptiMap S K V).
Abbreviation dispatch := (OptiMap.dispatch tier f hash fuel key_size val_size).
Abbreviation dispatch_mut := (OptiMap.dispatch_mut tier f hash fuel key_size val_size).
Implicit Types (o : OptiMap) (i : Inner) (m : gmap K V).

(** ** What the backends promise, for whichever is there *)

Definition dispatch_rep {A} (P : ∀ M, MapRep M place K V → M → A) i : A :=
  match i with
  | UfmMap t => P _ (overflow_rep hash fuel (Layout.UfmLayout tier f)) t
  | SplitsiesMap t => P _ (overflow_rep hash fuel (Layout.SplitsiesLayout tier f)) t
  | IpoMap t => P _ (tomb_rep hash fuel (Ipo.IpoDesign tier)) t
  | TombMap t => P _ (tomb_rep hash fuel (HighTag128Design tier)) t
  | GapsMap t => P _ (overflow_rep hash fuel (Layout.GapsLayout tier f)) t
  | Ipo64Map t => P _ (tomb_rep hash fuel (Ipo64.Ipo64Design tier)) t
  | FlatBTreeMap t => P _ (BTreeBackend.btree_rep key_size val_size) t
  end.

Abbreviation variant i := (map_type {| inner := i; backend := Pinned |}).

(** Every method runs on a backend that keeps its contract. *)
Lemma dispatch_ok {A} (method : ∀ M E, MapApi S M E place K V → M → A)
    (P : ∀ M, MapRep M place K V → M → Prop) (Q : A → Prop) i :
  (∀ M E (api : MapApi S M E place K V) R `{!MapLaws api R} t, P M R t → Q (method M E api t)) →
  dispatch_rep P i → Q (dispatch method i).
Proof using Type*.
  pose proof (BTreeBackend.btree_laws (S := S) (V := V) key_size val_size Hcap) as Htree. intros Hm Hi.
  destruct i; cbn [OptiMap.dispatch dispatch_rep] in *.
  - exact (Hm _ _ _ _ (ufm_laws tier f hash fuel) _ Hi).
  - exact (Hm _ _ _ _ (splitsies_laws tier f hash fuel) _ Hi).
  - exact (Hm _ _ _ _ (ipo_laws tier hash fuel) _ Hi).
  - exact (Hm _ _ _ _ (tomb_laws tier hash fuel) _ Hi).
  - exact (Hm _ _ _ _ (gaps_laws tier f hash fuel) _ Hi).
  - exact (Hm _ _ _ _ (ipo64_laws tier hash fuel) _ Hi).
  - exact (Hm _ _ _ _ Htree _ Hi).
Qed.

#[local] Ltac run H := let t := fresh in destruct H as (t & a & -> & Hq); eexists _, a; split; [reflexivity|by split].

Lemma dispatch_mut_ok {A} (method : ∀ M E, MapApi S M E place K V → M → option (M * A))
    (P : ∀ M, MapRep M place K V → M → Prop) (Q : ∀ M, MapRep M place K V → M → A → Prop) i :
  (∀ M E (api : MapApi S M E place K V) R `{!MapLaws api R} t, P M R t →
     ∃ t' a, method M E api t = Some (t', a) ∧ Q M R t' a) →
  dispatch_rep P i →
  ∃ i' a, dispatch_mut method i = Some (i', a) ∧ dispatch_rep (λ M R t, Q M R t a) i' ∧
    variant i' = variant i.
Proof using Type*.
  pose proof (BTreeBackend.btree_laws (S := S) (V := V) key_size val_size Hcap) as Htree. intros Hm Hi.
  destruct i; cbn [OptiMap.dispatch_mut dispatch_rep] in *.
  - run (Hm _ _ _ _ (ufm_laws tier f hash fuel) _ Hi).
  - run (Hm _ _ _ _ (splitsies_laws tier f hash fuel) _ Hi).
  - run (Hm _ _ _ _ (ipo_laws tier hash fuel) _ Hi).
  - run (Hm _ _ _ _ (tomb_laws tier hash fuel) _ Hi).
  - run (Hm _ _ _ _ (gaps_laws tier f hash fuel) _ Hi).
  - run (Hm _ _ _ _ (ipo64_laws tier hash fuel) _ Hi).
  - run (Hm _ _ _ _ Htree _ Hi).
Qed.

Definition rep o m : Prop := dispatch_rep (λ _ R t, mrep R t m) (inner o).
Definition place_of o (p : place) (k : K) (v : V) : Prop := dispatch_rep (λ _ R t, mplace R t p k v) (inner o).
Definition ready o : Prop := dispatch_rep (λ _ R t, mready R t) (inner o).
Definition growable_inner i : Prop := dispatch_rep (λ _ R t, mgrowable R t) i.

Lemma dispatch_rep_and (P Q : ∀ M, MapRep M place K V → M → Prop) i :
  dispatch_rep P i → dispatch_rep Q i → dispatch_rep (λ M R t, P M R t ∧ Q M R t) i.
Proof using Type. by destruct i. Qed.

(** A method that reads the backend, and one that changes it. *)
Lemma read_ok {A} (method : ∀ M E, MapApi S M E place K V → M → A)
    (P : ∀ M, MapRep M place K V → M → Prop) (Q : A → Prop) o m :
  (∀ M E (api : MapApi S M E place K V) R `{!MapLaws api R} t, mrep R t m → P M R t → Q (method M E api t)) →
  rep o m → dispatch_rep P (inner o) → Q (dispatch method (inner o)).
Proof using Type*.
  intros Hm Hr Hp. refine (dispatch_ok method (λ M R t, mrep R t m ∧ P M R t) Q (inner o) _ (dispatch_rep_and _ _ _ Hr Hp)).
  intros M E api R L t [Ht Hpt]. by apply (Hm M E api R L).
Qed.

Lemma lift_ok {A} (method : ∀ M E, MapApi S M E place K V → M → option (M * A))
    (P : ∀ M, MapRep M place K V → M → Prop) (Q : A → gmap K V → Prop) o m :
  (∀ M E (api : MapApi S M E place K V) R `{!MapLaws api R} t, mrep R t m → P M R t →
     ∃ t' a m', method M E api t = Some (t', a) ∧ mrep R t' m' ∧ Q a m') →
  rep o m → dispatch_rep P (inner o) →
  ∃ i' a m', dispatch_mut method (inner o) = Some (i', a) ∧ rep (with_inner o i') m' ∧ Q a m' ∧
    variant i' = map_type o.
Proof using Type*.
  intros Hm Hr Hp.
  pose proof (dispatch_rep_and _ _ _ Hr Hp) as Hb.
  destruct (dispatch_mut_ok method (λ M R t, mrep R t m ∧ P M R t) (λ M R t a, ∃ m', mrep R t m' ∧ Q a m') (inner o))
    as (i' & a & Hrun & Hr' & Hv); [|done|].
  { intros M E api R L t [Ht Hpt]. destruct (Hm M E api R L t Ht Hpt) as (t' & a & m' & ? & ?). exists t', a. eauto. }
  assert (∃ m', rep (with_inner o i') m' ∧ Q a m') as (m' & ? & ?) by (destruct i'; exact Hr').
  exists i', a, m'. rewrite Hrun, Hv. by destruct o.
Qed.

Definition always : ∀ M, MapRep M place K V → M → Prop := λ _ _ _, True.

Lemma always_ok i : dispatch_rep always i.
Proof using Type. by destruct i. Qed.

(** ** Construction *)

Definition type_capable (t : MapType) (c : Z) : Prop :=
  match t with
  | Ufm => mcapable (overflow_rep (V := V) hash fuel (Layout.UfmLayout tier f)) c
  | Splitsies => mcapable (overflow_rep (V := V) hash fuel (Layout.SplitsiesLayout tier f)) c
  | OptiMap.Ipo => mcapable (tomb_rep (V := V) hash fuel (IpoDesign tier)) c
  | Tomb => mcapable (tomb_rep (V := V) hash fuel (HighTag128Design tier)) c
  | Gaps => mcapable (overflow_rep (V := V) hash fuel (Layout.GapsLayout tier f)) c
  | OptiMap.Ipo64 => mcapable (tomb_rep (V := V) hash fuel (Ipo64Design tier)) c
  | FlatBTree => mcapable (BTreeBackend.btree_rep (V := V) key_size val_size) c
  end.

Abbreviation build_inner := (OptiMap.build_inner tier f hash fuel key_size val_size).

Lemma build_inner_ok hb t c :
  type_capable t c →
  ∃ i, build_inner hb t c = Some i ∧ dispatch_rep (λ _ R t, mrep R t ∅) i ∧ variant i = t.
Proof using Type*.
  intros Hc. destruct t; cbn [OptiMap.build_inner type_capable] in *.
  - by destruct (@ml_with_capacity _ _ _ _ _ _ _ _ _ _ (ufm_laws tier f hash fuel) hb c Hc) as (t & -> & ?); eexists.
  - by destruct (@ml_with_capacity _ _ _ _ _ _ _ _ _ _ (splitsies_laws tier f hash fuel) hb c Hc) as (t & -> & ?); eexists.
  - by destruct (@ml_with_capacity _ _ _ _ _ _ _ _ _ _ (ipo_laws tier hash fuel) hb c Hc) as (t & -> & ?); eexists.
  - by destruct (@ml_with_capacity _ _ _ _ _ _ _ _ _ _ (tomb_laws tier hash fuel) hb c Hc) as (t & -> & ?); eexists.
  - by destruct (@ml_with_capacity _ _ _ _ _ _ _ _ _ _ (gaps_laws tier f hash fuel) hb c Hc) as (t & -> & ?); eexists.
  - by destruct (@ml_with_capacity _ _ _ _ _ _ _ _ _ _ (ipo64_laws tier hash fuel) hb c Hc) as (t & -> & ?); eexists.
  - by destruct (@ml_with_capacity _ _ _ _ _ _ _ _ _ _ (BTreeBackend.btree_laws (S := S) (V := V) key_size val_size Hcap) hb c Hc) as (t & -> & ?); eexists.
Qed.

(** ** Transitions *)

Abbreviation insert_inner k v i := (dispatch_mut (λ _ _ A t, map_insert A t k v) i).

(** The budget and the allocator cover the insertions. *)
Fixpoint insertable_inner i (kvs : list (K * V)) : Prop :=
  match kvs with
  | [] => True
  | (k, v) :: kvs' =>
      growable_inner i ∧ match insert_inner k v i with Some (i', _) => insertable_inner i' kvs' | None => True end
  end.

Lemma insert_inner_ok o m k v :
  rep o m → growable_inner (inner o) →
  ∃ i', insert_inner k v (inner o) = Some (i', m !! k) ∧ rep (with_inner o i') (<[k := v]> m) ∧ variant i' = map_type o.
Proof using Type*.
  intros Hr Hg.
  destruct (lift_ok (λ _ _ A t, map_insert A t k v) (λ _ R t, mgrowable R t) (λ a m', a = m !! k ∧ m' = <[k := v]> m) o m)
    as (i' & a & m' & Hrun & Hr' & (-> & ->) & Hv); [|done|done|].
  { intros M E api R L t Ht Hgt. destruct (ml_insert t m k v Ht Hgt) as (t' & ? & ?). eauto 10. }
  by exists i'.
Qed.

Abbreviation insert_entries := (OptiMap.insert_entries tier f hash fuel key_size val_size).

Lemma insert_entries_ok o m kvs :
  rep o m → insertable_inner (inner o) kvs →
  ∃ i', insert_entries (inner o) kvs = Some i' ∧ rep (with_inner o i') (inserted_all m kvs) ∧ variant i' = map_type o.
Proof using Type*.
  revert o m. induction kvs as [|[k v] kvs IH]; intros o m Hr Hi.
  { exists (inner o). by destruct o. }
  destruct Hi as [Hg Hi]. destruct (insert_inner_ok o m k v Hr Hg) as (i1 & Hrun & Hr1 & Hv1).
  cbn [OptiMap.insert_entries]. rewrite Hrun in Hi |- *.
  destruct (IH (with_inner o i1) _ Hr1 Hi) as (i' & Hrun' & Hr' & Hv'). exists i'. split; [exact Hrun'|]. split; [exact Hr'|].
  by rewrite Hv', <- Hv1.
Qed.

Abbreviation drained := (OptiMap.drained tier f hash fuel key_size val_size).

Lemma drained_ok o m : rep o m → ∃ l, drained (inner o) = Some l ∧ enumerates l m.
Proof using Type*.
  intros Hr. apply (read_ok (λ _ _ A t, fst <$> map_drain A t) always (λ r, ∃ l, r = Some l ∧ enumerates l m) o m); [|done|apply always_ok].
  intros M E api R L t Ht _. destruct (ml_drain t m Ht) as (l & t' & -> & ? & _). by exists l.
Qed.

(** A new backend can take the entries. *)
Definition movable o (t : MapType) (c : Z) : Prop :=
  type_capable t c ∧
  ∀ hb i l, build_inner hb t c = Some i → drained (inner o) = Some l → insertable_inner i l.

Abbreviation transition_to := (OptiMap.transition_to tier f hash fuel key_size val_size).

Lemma transition_ok hb o m t c :
  rep o m → movable o t c →
  ∃ o', transition_to hb o t c = Some o' ∧ rep o' m ∧ map_type o' = t ∧ backend o' = backend o.
Proof using Type*.
  intros Hr [Hc Hi]. unfold OptiMap.transition_to. destruct (build_inner_ok hb t c Hc) as (i & Hb & He & Hv).
  destruct (drained_ok o m Hr) as (l & Hl & Hen). specialize (Hi hb i l Hb Hl). rewrite Hb, Hl.
  destruct (insert_entries_ok (with_inner o i) ∅ l He Hi) as (i' & Hins & Hr' & Hv').
  cbn [inner with_inner] in Hins. rewrite Hins. exists (with_inner o i').
  rewrite (inserted_all_enumerates _ ∅ l Hen) in Hr'. rewrite (right_id_L ∅ (∪)) in Hr'. split_and!; [done|done| |done].
  etransitivity; [exact Hv'|exact Hv].
Qed.

(** ** Insertion and reservation *)

Abbreviation len := (OptiMap.len tier f hash fuel key_size val_size).
Abbreviation capacity := (OptiMap.capacity tier f hash fuel key_size val_size).
Abbreviation capacity_of i := (capacity {| inner := i; backend := Pinned |}).

(** The policies of maps are built by [band]. *)
Definition policy_ok o : Prop :=
  match backend o with AutoBackend p => policy_sorted p | Pinned => True end.

(** An insertion is within the budget, and if it grows the table to a capacity
    for which the policy wants another backend, so is the move. *)
Definition insertable_at o k v : Prop :=
  growable_inner (inner o) ∧
  ∀ i p t, backend o = AutoBackend p → insert_inner k v (inner o) = Some (i, None) →
    capacity_of i ≠ capacity o → backend_for p (Z.of_nat (capacity_of i)) = Some t → t ≠ variant i →
    movable (with_inner o i) t (Z.of_nat (capacity_of i)).

(** The backend after a change to the capacity [c]. *)
Definition follows_policy o o' (c : Z) : Prop :=
  match backend o with AutoBackend p => backend_for p c = Some (map_type o') | Pinned => map_type o' = map_type o end.

Lemma backend_for_total (p : bands) c : policy_sorted p → ∃ t, backend_for p c = Some t.
Proof using Type.
  intros Hs. pose proof (backend_for_spec p c Hs) as Hb. destruct p as [|first p]; [eauto|].
  destruct (_ <=? _)%Z; [destruct Hb as (b & -> & _)|]; eauto.
Qed.

Abbreviation insert := (OptiMap.insert tier f hash fuel key_size val_size).

Lemma optimap_insert_ok hb o m k v :
  policy_ok o → rep o m → insertable_at o k v →
  ∃ o' i, insert hb o k v = Some (o', m !! k) ∧ rep o' (<[k := v]> m) ∧ backend o' = backend o ∧
    insert_inner k v (inner o) = Some (i, m !! k) ∧
    (if decide (m !! k = None ∧ capacity_of i ≠ capacity o) then follows_policy o o' (Z.of_nat (capacity_of i))
     else inner o' = i ∧ map_type o' = map_type o).
Proof using Type*.
  intros Hpol Hr [Hg Hmove]. destruct (insert_inner_ok o m k v Hr Hg) as (i & Hrun & Hr' & Hv).
  unfold OptiMap.insert, OptiMap.insert_auto, follows_policy, policy_ok in *. rewrite Hrun. cbn [on_inner].
  destruct (backend o) as [p|] eqn:Hb.
  2: { exists (with_inner o i), i. cbn [backend with_inner inner]. rewrite Hb. split_and!; done || (case_decide; done). }
  destruct (m !! k) as [w|] eqn:Hk.
  { exists (with_inner o i), i. cbn [backend with_inner inner]. rewrite Hb. split_and!; done || (rewrite decide_False by naive_solver; done). }
  change (capacity (with_inner o i)) with (capacity_of i).
  destruct (Nat.eqb_spec (capacity_of i) (capacity o)) as [Heq|Hne]; cbn [negb].
  { exists (with_inner o i), i. cbn [backend with_inner inner]. rewrite Hb. split_and!; done || (rewrite decide_False by naive_solver; done). }
  unfold maybe_transition_after_grow. cbn [backend with_inner]. rewrite Hb.
  destruct (backend_for_total p (Z.of_nat (capacity_of i)) Hpol) as [t Ht]. rewrite Ht.
  change (map_type (with_inner o i)) with (variant i). case_bool_decide as Hvt; cbn [negb].
  { exists (with_inner o i), i. cbn [backend with_inner inner]. rewrite Hb. rewrite decide_True by done. split_and!; done || by rewrite Ht, Hvt. }
  destruct (transition_ok hb (with_inner o i) _ t (Z.of_nat (capacity_of i)) Hr') as (o' & -> & Hr'' & Hty & Hbk); [by apply (Hmove i p t)|].
  exists o', i. rewrite decide_True by done. cbn [backend with_inner] in Hbk. split_and!; try done; [by rewrite Hbk, Hb|by rewrite Ht, Hty].
Qed.

Abbreviation reserve := (OptiMap.reserve tier f hash fuel key_size val_size).

Definition reservable_at o (additional : Z) : Prop :=
  let new_cap := wrap64 (Z.of_nat (len o) + additional) in
  dispatch_rep (λ _ R t, mreservable R t additional) (inner o) ∧
  ∀ p t, backend o = AutoBackend p → backend_for p new_cap = Some t → t ≠ map_type o → movable o t new_cap.

Lemma optimap_reserve_ok hb o m n :
  policy_ok o → rep o m → reservable_at o n →
  ∃ o', reserve hb o n = Some (inl o') ∧ rep o' m ∧ backend o' = backend o ∧
    follows_policy o o' (wrap64 (Z.of_nat (len o) + n)).
Proof using Type*.
  intros Hpol Hr [Hres Hmove].
  assert (∃ o', reserve_inner tier f hash fuel key_size val_size o n = Some (inl o') ∧ rep o' m ∧ backend o' = backend o ∧
    map_type o' = map_type o) as (o1 & Hrun & Hr1 & Hb1 & Ht1).
  { unfold reserve_inner.
    destruct (lift_ok (λ _ _ A t, do r <- map_reserve A t n;
        Some (match r with inl t' => (t', None) | inr p => (t, Some p) end))
      (λ _ R t, mreservable R t n) (λ a m', a = None ∧ m' = m) o m) as (i & a & m' & -> & Hr' & (-> & ->) & Hv); [|done|done|].
    { intros M E api R L t Ht Hn. destruct (ml_reserve t m n Ht Hn) as (t' & -> & Hr'). exists t', None, m. auto. }
    by exists (with_inner o i). }
  unfold OptiMap.reserve, follows_policy, policy_ok in *. cbv zeta. destruct (backend o) as [p|] eqn:Hb.
  2: { exists o1. split_and!; done. }
  destruct (backend_for_total p (wrap64 (Z.of_nat (len o) + n)) Hpol) as [t Ht]. rewrite Ht.
  case_bool_decide as Hvt; cbn [negb].
  { exists o1. rewrite Ht1, Hvt. split_and!; done. }
  destruct (transition_ok hb o m t (wrap64 (Z.of_nat (len o) + n)) Hr) as (o' & -> & Hr' & Hty & Hbk); [by apply (Hmove p t)|].
  exists o'. rewrite Hty, Hbk, Hb. split_and!; done.
Qed.

(** ** Entries *)

Abbreviation entry := (OptiMap.entry tier f hash fuel key_size val_size).
Abbreviation or_insert := (OptiMap.or_insert tier f hash fuel key_size val_size).
Abbreviation and_modify := (OptiMap.and_modify tier f hash fuel key_size val_size).
Abbreviation entry_key := (OptiMap.entry_key (V := V) tier f hash fuel key_size val_size).

#[local] Ltac entry_case L k v g Hr Hg :=
  destruct (@ml_entry _ _ _ _ _ _ _ _ _ _ L _ _ k v g Hr Hg)
    as (t' & e & Hrun & Hr' & Hk & (t1 & p & Ho & Hr1 & Hp) & (t2 & e2 & Ha & Hr2));
  unfold OptiMap.entry, OptiMap.or_insert, OptiMap.and_modify; cbn [inner]; rewrite Hrun;
  eexists _, _; split; [reflexivity|]; cbn [inner with_inner]; rewrite Ho, Ha;
  split; [exact Hr'|]; split; [exact Hk|]; split; [done|]; split; [done|]; split;
  [eexists _, _; split; [reflexivity|]; by split_and!|eexists _, _; split; [reflexivity|by split]].

Lemma optimap_entry_ok o m k v (g : V → V) :
  rep o m → growable_inner (inner o) →
  ∃ o' e, entry o k = Some (inl (o', e)) ∧ rep o' m ∧ entry_key e = k ∧ map_type o' = map_type o ∧ backend o' = backend o ∧
    (∃ o'' p, or_insert o' e v = Some (o'', p) ∧ rep o'' (with_default m k v) ∧
       place_of o'' p k (default v (m !! k)) ∧ map_type o'' = map_type o ∧ backend o'' = backend o) ∧
    (∃ o'' e', and_modify o' e g = Some (o'', e') ∧ rep o'' (alter g k m) ∧ backend o'' = backend o).
Proof using Type*.
  pose proof (BTreeBackend.btree_laws (S := S) (V := V) key_size val_size Hcap) as Htree.
  destruct o as [[t|t|t|t|t|t|t] b]; cbn [inner dispatch_rep rep growable_inner]; intros Hr Hg.
  - entry_case (ufm_laws (V := V) tier f hash fuel) k v g Hr Hg.
  - entry_case (splitsies_laws (V := V) tier f hash fuel) k v g Hr Hg.
  - entry_case (ipo_laws (V := V) tier hash fuel) k v g Hr Hg.
  - entry_case (tomb_laws (V := V) tier hash fuel) k v g Hr Hg.
  - entry_case (gaps_laws (V := V) tier f hash fuel) k v g Hr Hg.
  - entry_case (ipo64_laws (V := V) tier hash fuel) k v g Hr Hg.
  - entry_case Htree k v g Hr Hg.
Qed.

Abbreviation try_insert := (OptiMap.try_insert tier f hash fuel key_size val_size).

Lemma optimap_try_insert_ok o m k v :
  rep o m → growable_inner (inner o) →
  ∃ o', try_insert o k v = Some (inl (o', if m !! k then Some (k, v) else None)) ∧ rep o' (with_default m k v) ∧
    map_type o' = map_type o ∧ backend o' = backend o.
Proof using Type*.
  intros Hr Hg. unfold OptiMap.try_insert.
  destruct (lift_ok (λ _ _ A t, do r <- map_try_insert A t k v;
      Some (match r with inl (t', e) => (t', inl e) | inr p => (t, inr p) end))
    (λ _ R t, mgrowable R t) (λ a m', a = inl (if m !! k then Some (k, v) else None) ∧ m' = with_default m k v) o m)
    as (i & a & m' & -> & Hr' & (-> & ->) & Hv); [|done|done|].
  { intros M E api R L t Ht Hgt. destruct (ml_try_insert t m k v Ht Hgt) as (t' & -> & ?). eauto 10. }
  by exists (with_inner o i).
Qed.

(** ** Construction from a policy *)

Lemma for_hint_sorted h : policy_sorted (for_hint h).
Proof using Type. destruct h; repeat constructor. Qed.

Abbreviation with_policy_and_capacity := (OptiMap.with_policy_and_capacity tier f hash fuel key_size val_size).

Lemma with_policy_ok hb (p : bands) c :
  policy_sorted p → (∀ t, backend_for p c = Some t → type_capable t c) →
  ∃ o, with_policy_and_capacity hb p c = Some o ∧ rep o ∅ ∧ policy_ok o ∧ backend o = AutoBackend p ∧
    backend_for p c = Some (map_type o).
Proof using Type*.
  intros Hs Hc. unfold OptiMap.with_policy_and_capacity. destruct (backend_for_total p c Hs) as [t Ht].
  rewrite Ht. destruct (build_inner_ok hb t c (Hc t Ht)) as (i & -> & Hr & Hv). eexists. split; [reflexivity|].
  split; [exact Hr|]. split; [exact Hs|]. split; [done|]. by rewrite <- Hv.
Qed.

Lemma tomb_capable_0 : type_capable Tomb 0.
Proof using Type. intros h. split; [by split; vm_compute|exact group_count_1]. Qed.

(** ** Reading methods *)

Abbreviation get := (OptiMap.get tier f hash fuel key_size val_size).
Abbreviation iter := (OptiMap.iter tier f hash fuel key_size val_size).

Lemma optimap_len_ok o m : rep o m → len o = size m.
Proof using Type*.
  intros Hr. apply (read_ok (λ _ _ A t, map_len A t) always (λ r, r = size m) o m); [|done|apply always_ok].
  intros M E api R L t Ht _. by apply (ml_len t m).
Qed.

Lemma optimap_get_ok o m k : rep o m → ready o → get o k = Some (m !! k).
Proof using Type*.
  apply (read_ok (λ _ _ A t, map_get A t k) (λ _ R t, mready R t) (λ r, r = Some (m !! k)) o m).
  intros M E api R L t Ht Hb. by apply (ml_get t m).
Qed.

Lemma optimap_iter_ok o m : rep o m → ∃ l, iter o = Some l ∧ enumerates l m.
Proof using Type*.
  intros Hr. apply (read_ok (λ _ _ A t, map_iter A t) always (λ r, ∃ l, r = Some l ∧ enumerates l m) o m); [|done|apply always_ok].
  intros M E api R L t Ht _. by apply (ml_iter t m).
Qed.

Lemma optimap_get_mut_ok o m k :
  rep o m → ready o →
  ∃ r, get_mut tier f hash fuel key_size val_size o k = Some r ∧
    match r with Some p => ∃ v, m !! k = Some v ∧ place_of o p k v | None => m !! k = None end.
Proof using Type*.
  pose proof (BTreeBackend.btree_laws (S := S) (V := V) key_size val_size Hcap) as Htree.
  destruct o as [[t|t|t|t|t|t|t] b]; intros Hr Hb.
  - exact (@ml_get_mut _ _ _ _ _ _ _ _ _ _ (ufm_laws tier f hash fuel) t m k Hr Hb).
  - exact (@ml_get_mut _ _ _ _ _ _ _ _ _ _ (splitsies_laws tier f hash fuel) t m k Hr Hb).
  - exact (@ml_get_mut _ _ _ _ _ _ _ _ _ _ (ipo_laws tier hash fuel) t m k Hr Hb).
  - exact (@ml_get_mut _ _ _ _ _ _ _ _ _ _ (tomb_laws tier hash fuel) t m k Hr Hb).
  - exact (@ml_get_mut _ _ _ _ _ _ _ _ _ _ (gaps_laws tier f hash fuel) t m k Hr Hb).
  - exact (@ml_get_mut _ _ _ _ _ _ _ _ _ _ (ipo64_laws tier hash fuel) t m k Hr Hb).
  - exact (@ml_get_mut _ _ _ _ _ _ _ _ _ _ Htree t m k Hr Hb).
Qed.

#[local] Ltac cloned L t m Hr := let t' := fresh in
  destruct (@ml_clone _ _ _ _ _ _ _ _ _ _ L t m Hr) as (t' & Hrun & ?);
  unfold clone; cbn [inner]; rewrite Hrun; by eexists.

Lemma optimap_clone_ok o m :
  rep o m → policy_ok o →
  ∃ o', clone tier f hash fuel key_size val_size o = Some o' ∧ rep o' m ∧ policy_ok o'.
Proof using Type*.
  pose proof (BTreeBackend.btree_laws (S := S) (V := V) key_size val_size Hcap) as Htree.
  destruct o as [[t|t|t|t|t|t|t] b]; intros Hr Hp.
  - cloned (ufm_laws (V := V) tier f hash fuel) t m Hr.
  - cloned (splitsies_laws (V := V) tier f hash fuel) t m Hr.
  - cloned (ipo_laws (V := V) tier hash fuel) t m Hr.
  - cloned (tomb_laws (V := V) tier hash fuel) t m Hr.
  - cloned (gaps_laws (V := V) tier f hash fuel) t m Hr.
  - cloned (ipo64_laws (V := V) tier hash fuel) t m Hr.
  - cloned Htree t m Hr.
Qed.

Lemma check_eq_ok `{EqDecision V} l o m :
  rep o m → ready o →
  check_eq tier f hash fuel key_size val_size l o = Some (bool_decide (Forall (λ kv, m !! kv.1 = Some kv.2) l)).
Proof using Type*.
  intros Hr Hb. induction l as [|[k v] l IH]; [by rewrite bool_decide_true|].
  cbn [check_eq]. rewrite (optimap_get_ok o m k Hr Hb), IH.
  destruct (m !! k) as [v2|] eqn:Hk; [destruct (decide (v = v2)) as [<-|Hv]|].
  - rewrite (bool_decide_true (v = v)) by done. f_equal. apply bool_decide_ext. rewrite Forall_cons. naive_solver.
  - rewrite (bool_decide_false (v = v2)) by done. f_equal. symmetry. apply bool_decide_false.
    rewrite Forall_cons. cbn. rewrite Hk. naive_solver.
  - f_equal. symmetry. apply bool_decide_false. rewrite Forall_cons. cbn. rewrite Hk. naive_solver.
Qed.

(** Two adaptive maps are equal exactly when they hold the same pairs,
    whatever their backends, capacities and policies are. *)
Theorem optimap_eq_correct `{EqDecision V} o m other mo :
  rep o m → rep other mo → ready other →
  eq_map tier f hash fuel key_size val_size o other = Some (bool_decide (m = mo)).
Proof using Type*.
  intros Hr Hr' Hb. unfold eq_map. rewrite (optimap_len_ok o m Hr), (optimap_len_ok other mo Hr').
  destruct (optimap_iter_ok o m Hr) as (l & -> & Hnd & Hl). rewrite (check_eq_ok l other mo Hr' Hb).
  destruct (Nat.eqb_spec (size m) (size mo)) as [Hs|Hs]; cbn [negb]; f_equal.
  2: { symmetry. apply bool_decide_false. by intros ->. }
  apply bool_decide_ext. rewrite Forall_forall. split; [|intros <- [k v] Hin; subst m; by apply elem_of_list_to_map].
  intros Hall. apply GenericMap.map_eq_of_incl; [done|]. intros k v Hk. rewrite <- Hl in Hk.
  apply elem_of_list_to_map in Hk; [|done]. by apply (Hall (k, v)).
Qed.

(** ** The map interface *)

Definition map_rep : MapRep OptiMap place K V := {|
  mrep o m := rep o m ∧ policy_ok o;
  mplace := place_of;
  mready := ready;
  mgrowable o := growable_inner (inner o) ∧ ∀ k v, insertable_at o k v;
  mcapable := type_capable Tomb;
  mreservable := reservable_at;
  mshrinkable o := dispatch_rep (λ _ R t, mshrinkable R t) (inner o);
|}.

Abbreviation optimap_api := (OptiMap.optimap_api tier f hash fuel key_size val_size).

Lemma growable_ready i : growable_inner i → dispatch_rep (λ _ R t, mready R t) i.
Proof using Type*.
  pose proof (BTreeBackend.btree_laws (S := S) (V := V) key_size val_size Hcap) as Htree.
  destruct i; cbn [growable_inner dispatch_rep];
    [exact (@ml_ready _ _ _ _ _ _ _ _ _ _ (ufm_laws tier f hash fuel) _)
    |exact (@ml_ready _ _ _ _ _ _ _ _ _ _ (splitsies_laws tier f hash fuel) _)
    |exact (@ml_ready _ _ _ _ _ _ _ _ _ _ (ipo_laws tier hash fuel) _)
    |exact (@ml_ready _ _ _ _ _ _ _ _ _ _ (tomb_laws tier hash fuel) _)
    |exact (@ml_ready _ _ _ _ _ _ _ _ _ _ (gaps_laws tier f hash fuel) _)
    |exact (@ml_ready _ _ _ _ _ _ _ _ _ _ (ipo64_laws tier hash fuel) _)
    |exact (@ml_ready _ _ _ _ _ _ _ _ _ _ Htree _)].
Qed.

Lemma pinned_backend t c : backend_for (policy_pinned t) c = Some t.
Proof using Type.
  pose proof (backend_for_spec (policy_pinned t) c) as Hb. cbn [policy_pinned fst] in Hb.
  unfold policy_pinned in *.
  destruct (0 <=? c)%Z; [|apply Hb; repeat constructor].
  destruct Hb as (b & Hb & Hin%list_elem_of_singleton & _); [repeat constructor|]. subst b. exact Hb.
Qed.

Lemma auto_ok hb c : type_capable Tomb c → ∃ o, with_capacity tier f hash fuel key_size val_size hb c = Some o ∧ rep o ∅ ∧ policy_ok o.
Proof using Type*.
  intros Hc. destruct (with_policy_ok hb (for_hint Auto) c (for_hint_sorted Auto)) as (o & Hrun & ? & ? & _); [|by exists o].
  intros t Ht. change (for_hint Auto) with (policy_pinned Tomb) in Ht. rewrite pinned_backend in Ht. by injection Ht as <-.
Qed.

#[export] Instance optimap_laws fresh : MapLaws (optimap_api fresh) map_rep.
Proof using Type*.
  split; cbn -[rep policy_ok map_imap with_default alter OptiMap.get OptiMap.len OptiMap.iter OptiMap.entry OptiMap.or_insert
    OptiMap.and_modify OptiMap.try_insert OptiMap.insert OptiMap.reserve OptiMap.new OptiMap.with_capacity].
  - intros o [Hg _]. by apply growable_ready.
  - intros hb. unfold new. destruct (auto_ok hb 0 tomb_capable_0) as (o & -> & ? & ?). by exists o.
  - intros hb c Hc. destruct (auto_ok hb c Hc) as (o & -> & ? & ?). by exists o.
  - intros o m [Hr _]. by apply optimap_len_ok.
  - intros o m [Hr Hp]. unfold clear.
    destruct (lift_ok (λ _ _ A t, with_unit (map_clear A t)) always (λ _ m', m' = ∅) o m) as (i & a & m' & -> & ? & -> & _);
      [|done|apply always_ok|by exists (with_inner o i)].
    intros M E api R L t Ht _. destruct (ml_clear t m Ht) as (t' & -> & ?). by exists t', (), ∅.
  - intros o m k v [Hr Hp] [_ Hi]. destruct (optimap_insert_ok (fresh o) o m k v Hp Hr (Hi k v)) as (o' & i & -> & ? & Hb & _).
    exists o'. split; [done|]. split; [done|]. unfold policy_ok. by rewrite Hb.
  - intros o m k [Hr _] Hb. by apply optimap_get_ok.
  - intros o m k [Hr _] Hb.
    apply (read_ok (λ _ _ A t, map_get_key_value A t k) (λ _ R t, mready R t) (λ r, r = Some (pair k <$> m !! k)) o m); [|done|done].
    intros M E api R L t Ht Hx. by apply (ml_get_key_value t m).
  - intros o m k [Hr _] Hb.
    apply (read_ok (λ _ _ A t, map_contains_key A t k) (λ _ R t, mready R t) (λ r, r = Some (bool_decide (is_Some (m !! k)))) o m); [|done|done].
    intros M E api R L t Ht Hx. by apply (ml_contains_key t m).
  - intros o m k [Hr _] Hb. by apply optimap_get_mut_ok.
  - intros o m k [Hr Hp] Hb. unfold remove.
    destruct (lift_ok (λ _ _ A t, map_remove A t k) (λ _ R t, mready R t) (λ a m', a = m !! k ∧ m' = delete k m) o m)
      as (i & a & m' & -> & ? & (-> & ->) & _); [|done|done|by exists (with_inner o i)].
    intros M E api R L t Ht Hx. destruct (ml_remove t m k Ht Hx) as (t' & -> & ?). eauto 10.
  - intros o m k [Hr Hp] Hb. unfold remove_entry.
    destruct (lift_ok (λ _ _ A t, map_remove_entry A t k) (λ _ R t, mready R t) (λ a m', a = pair k <$> m !! k ∧ m' = delete k m) o m)
      as (i & a & m' & -> & ? & (-> & ->) & _); [|done|done|by exists (with_inner o i)].
    intros M E api R L t Ht Hx. destruct (ml_remove_entry t m k Ht Hx) as (t' & -> & ?). eauto 10.
  - intros o m k v g [Hr Hp] [Hg _].
    destruct (optimap_entry_ok o m k v g Hr Hg) as (o' & e & He & Hr' & Hk & _ & Hbk & (o1 & p & Ho & Hr1 & Hp1 & _ & Hb1) & (o2 & e2 & Ha & Hr2 & Hb2)).
    exists o', e. unfold policy_ok in *. rewrite He, Ho, Ha, Hbk. split_and!; try done; [exists o1, p|exists o2, e2]; rewrite ?Hb1, ?Hb2, ?Hbk; by split_and!.
  - intros o m k v [Hr Hp] [Hg _]. destruct (optimap_try_insert_ok o m k v Hr Hg) as (o' & -> & ? & _ & Hb).
    exists o'. split; [done|]. split; [done|]. unfold policy_ok. by rewrite Hb.
  - intros o m [Hr _]. by apply optimap_iter_ok.
  - intros o m g [Hr Hp]. unfold iter_mut.
    destruct (lift_ok (λ _ _ A t, with_unit (map_iter_mut A g t)) always (λ _ m', m' = map_imap (λ k v, Some (g k v)) m) o m)
      as (i & a & m' & -> & ? & -> & _); [|done|apply always_ok|by exists (with_inner o i)].
    intros M E api R L t Ht _. destruct (ml_iter_mut t m g Ht) as (t' & -> & ?). by eexists t', (), _.
  - intros o m [Hr _].
    apply (read_ok (λ _ _ A t, map_into_iter A t) always (λ r, ∃ l, r = Some l ∧ enumerates l m) o m); [|done|apply always_ok].
    intros M E api R L t Ht _. by apply (ml_into_iter t m).
  - intros o m [Hr Hp]. unfold drain.
    destruct (lift_ok (λ _ _ A t, do ' (l, t) <- map_drain A t; Some (t, l)) always (λ l m', enumerates l m ∧ m' = ∅) o m)
      as (i & l & m' & -> & ? & (Hl & ->) & _); [|done|apply always_ok|by exists l, (with_inner o i)].
    intros M E api R L t Ht _. destruct (ml_drain t m Ht) as (l & t' & -> & ? & ?). by exists t', l, ∅.
  - intros St o m s g [Hr Hp]. unfold retain.
    destruct (lift_ok (λ _ _ A t, do ' (s, t) <- map_retain A t s g; Some (t, s)) always
      (λ s' m', ∃ l, enumerates l m ∧ (s', m') = retained g l s m) o m)
      as (i & s' & m' & -> & Hr' & (l & Hl & Heq) & _); [|done|apply always_ok|].
    + intros M E api R L t Ht _. destruct (ml_retain St t m s g Ht) as (l & t' & Hl & -> & ?).
      eexists t', _, _. split; [done|]. split; [done|]. exists l. by rewrite <- surjective_pairing.
    + exists l, (with_inner o i). rewrite <- Heq. by split_and!.
  - intros o m n [Hr Hp] Hn. destruct (optimap_reserve_ok (fresh o) o m n Hp Hr Hn) as (o' & -> & ? & Hb & _).
    exists o'. split; [done|]. split; [done|]. unfold policy_ok. by rewrite Hb.
  - intros o m [Hr Hp] Hs. unfold shrink_to_fit.
    destruct (lift_ok (λ _ _ A t, with_unit (map_shrink_to_fit A t)) (λ _ R t, mshrinkable R t) (λ _ m', m' = m) o m)
      as (i & a & m' & -> & ? & -> & _); [|done|done|by exists (with_inner o i)].
    intros M E api R L t Ht Hx. destruct (ml_shrink t m Ht Hx) as (t' & -> & ?). by exists t', (), m.
  - intros o m [Hr Hp]. by apply optimap_clone_ok.
Qed.

(** What a lookup of the adaptive map needs of the backend that holds the
    entries. *)
Definition backend_ready i : Prop :=
  match i with
  | UfmMap t => OverflowTable.mask (table t) < fuel ∧ exits_open hash (Layout.UfmLayout tier f) t
  | SplitsiesMap t => OverflowTable.mask (table t) < fuel ∧ exits_open hash (Layout.SplitsiesLayout tier f) t
  | GapsMap t => OverflowTable.mask (table t) < fuel ∧ exits_open hash (Layout.GapsLayout tier f) t
  | IpoMap t | TombMap t | Ipo64Map t => TombTable.mask (table t) < fuel
  | FlatBTreeMap _ => True
  end.

Lemma ready_backend o : ready o ↔ backend_ready (inner o).
Proof using Type.
  unfold ready, exits_open. destruct (inner o); cbn; tauto.
Qed.

(** C11: the adaptive map keeps the contract of a map: each operation acts on the
    represented finite map, whichever backend holds it and whether the call
    moves it to another.  The tree is always ready for a lookup, the tombstone
    tables when the budget covers them; [UnorderedFlatMap], [Splitsies] and
    [Gaps] must also have an exit for every lookup, which removals may take
    away ([channelled_lookup_diverges]). *)
Theorem optimap_refines fresh :
  MapLaws (optimap_api fresh) map_rep ∧ ∀ o, mready map_rep o ↔ backend_ready (inner o).
Proof using Type*. split; [apply optimap_laws|apply ready_backend]. Qed.

(** C12: [insert] on the adaptive map.  It stores the pair and returns the old
    value; a pinned map keeps its backend for ever; a map with a policy has the
    backend the policy wants for the capacity the insertion led to if it
    changed the capacity, and otherwise the one it had. *)
Theorem optimap_insert_correct hb o m k v :
  policy_ok o → rep o m → insertable_at o k v →
  ∃ o' i, insert hb o k v = Some (o', m !! k) ∧ rep o' (<[k := v]> m) ∧ backend o' = backend o ∧
    insert_inner k v (inner o) = Some (i, m !! k) ∧
    (if decide (m !! k = None ∧ capacity_of i ≠ capacity o) then follows_policy o o' (Z.of_nat (capacity_of i))
     else inner o' = i ∧ map_type o' = map_type o).
Proof using Type*. apply optimap_insert_ok. Qed.

(** C13: a transition builds the wanted backend, loses no entry and adds none; the
    policy stays. *)
Theorem optimap_transition_correct hb o m t c :
  rep o m → movable o t c →
  ∃ o', transition_to hb o t c = Some o' ∧ rep o' m ∧ map_type o' = t ∧ backend o' = backend o.
Proof using Type*. apply transition_ok. Qed.

(** After [reserve] the map has the backend of its policy for the length and
    the additional entries together, modulo the word size, and the same entries. *)
Theorem optimap_reserve_correct hb o m n :
  policy_ok o → rep o m → reservable_at o n →
  ∃ o', reserve hb o n = Some (inl o') ∧ rep o' m ∧ backend o' = backend o ∧
    follows_policy o o' (wrap64 (Z.of_nat (len o) + n)).
Proof using Type*. apply optimap_reserve_ok. Qed.

(** C14: insertion through [try_insert] or an entry stays in the backend, whatever
    the capacity becomes. *)
Theorem optimap_entry_stays o m k v :
  rep o m → growable_inner (inner o) →
  (∃ o', try_insert o k v = Some (inl (o', if m !! k then Some (k, v) else None)) ∧ rep o' (with_default m k v) ∧
     map_type o' = map_type o ∧ backend o' = backend o) ∧
  (∃ o' e o'' p, entry o k = Some (inl (o', e)) ∧ or_insert o' e v = Some (o'', p) ∧ rep o'' (with_default m k v) ∧
     map_type o'' = map_type o ∧ backend o'' = backend o).
Proof using Type*.
  intros Hr Hg. split; [by apply optimap_try_insert_ok|].
  destruct (optimap_entry_ok o m k v id Hr Hg) as (o' & e & ? & ? & _ & _ & Hb & (o'' & p & ? & ? & _ & ? & Hb') & _).
  exists o', e, o'', p. split_and!; done.
Qed.

(** The insertions of [extend] are within the budget. *)
Fixpoint extendable (fresh : nat → S) o (kvs : list (K * V)) : Prop :=
  match kvs with
  | [] => True
  | (k, v) :: kvs' =>
      insertable_at o k v ∧
      match insert (fresh (length kvs)) o k v with Some (o', _) => extendable fresh o' kvs' | None => True end
  end.

(** [extend] inserts the pairs in order. *)
Theorem optimap_extend_correct fresh o m kvs :
  policy_ok o → rep o m → extendable fresh o kvs →
  ∃ o', extend tier f hash fuel key_size val_size fresh o kvs = Some o' ∧ rep o' (inserted_all m kvs) ∧ backend o' = backend o.
Proof using Type*.
  revert o m. induction kvs as [|[k v] kvs IH]; intros o m Hp Hr Hx; [by exists o|].
  destruct Hx as [Hi Hx]. destruct (optimap_insert_ok (fresh (length ((k, v) :: kvs))) o m k v Hp Hr Hi) as (o1 & i & Hrun & Hr1 & Hb1 & _).
  cbn [extend]. rewrite Hrun in Hx |- *.
  assert (policy_ok o1) as Hp1 by (unfold policy_ok in *; by rewrite Hb1).
  destruct (IH o1 _ Hp1 Hr1 Hx) as (o' & ? & ? & Hb).
  exists o'. by rewrite Hb.
Qed.

(** ** Sorted operations *)

Abbreviation represents := (BTreeInsert.represents (MK := BTreeShape.full_nodes) key_size val_size).
Abbreviation on_tree_mut_result o t a := (Some (inl (with_inner o (FlatBTreeMap t), a))).

(** The sorted operations run on the tree and panic, without any effect, on
    every other backend. *)
Theorem optimap_sorted_correct o :
  match inner o with
  | FlatBTreeMap t => ∀ l, represents t l →
      first_key_value o = Some (inl (head l)) ∧ last_key_value o = Some (inl (last l)) ∧
      iter_sorted o = Some (inl l) ∧
      (∃ t', pop_first key_size val_size o = on_tree_mut_result o t' (head l) ∧ represents t' (tail l)) ∧
      (∃ t', pop_last key_size val_size o = on_tree_mut_result o t' (last l) ∧ represents t' (removelast l))
  | _ =>
      first_key_value o = Some (inr NotFlatBTree) ∧ last_key_value o = Some (inr NotFlatBTree) ∧
      iter_sorted o = Some (inr NotFlatBTree) ∧ pop_first key_size val_size o = Some (inr NotFlatBTree) ∧
      pop_last key_size val_size o = Some (inr NotFlatBTree) ∧
      (∀ sb eb g, range o sb eb = Some (inr NotFlatBTree) ∧ range_mut o sb eb g = Some (inr NotFlatBTree)) ∧
      ∀ key, split_off key_size val_size o key = Some (inr NotFlatBTree)
  end.
Proof using Type*.
  destruct o as [[t|t|t|t|t|t|t] b]; cbn [inner]; try (by split_and!). intros l Hl.
  destruct (BTreeEnds.ends_represents (MK := BTreeShape.full_nodes) key_size val_size t l (le_n 1) Hcap Hl) as (Hf & Hla & (t1 & Hp1 & Hr1) & (t2 & Hp2 & Hr2)).
  unfold first_key_value, last_key_value, iter_sorted, pop_first, pop_last, on_tree_mut, on_tree. cbn [inner].
  rewrite Hf, Hla, Hp1, Hp2. rewrite (BTreeBackend.btree_iter_represents key_size val_size Hcap t l Hl).
  split_and!; try done; [by exists t1|by exists t2].
Qed.

(** Splitting and appending.  Two trees are joined, and a tree is cut, as the tree
    map does it; the upper part of a cut is pinned to the tree.  If one of the two
    maps is not a tree, [append] panics and neither is changed. *)
Theorem optimap_append_correct debug o other :
  match inner o, inner other with
  | FlatBTreeMap t, FlatBTreeMap u => ∀ l l',
      represents t l → represents u l' → BTreeSpec.no_empty_leaf_of t → BTreeSpec.no_empty_leaf_of u →
      BTreeCollect.bulk_ready (MK := BTreeShape.full_nodes) key_size val_size (length (BTreeCollect.insert_pairs l l')) →
      BTreeSurgerySpec.graftable t u →
      ∃ t' u', append key_size val_size debug o other = Some (inl (with_inner o (FlatBTreeMap t'), with_inner other (FlatBTreeMap u'))) ∧
        represents t' (BTreeCollect.insert_pairs l l') ∧ represents u' []
  | _, _ => append key_size val_size debug o other = Some (inr NotFlatBTree)
  end.
Proof using Type*.
  destruct o as [[t|t|t|t|t|t|t] b], other as [[u|u|u|u|u|u|u] b']; cbn [inner]; try done. intros l l' Hl Hm Hnl Hnm Hr Hg.
  destruct (BTreeSurgerySpec.append_surgery_ok (MK := BTreeShape.full_nodes) key_size val_size debug t u l l' Hcap Hl Hm Hnl Hnm Hr Hg) as (t' & u' & Ha & Ht & Hu).
  exists t', u'. unfold append. cbn [inner]. by rewrite Ha.
Qed.

Theorem optimap_split_off_correct o t l key :
  inner o = FlatBTreeMap t → represents t l → BTreeSpec.no_empty_leaf_of t → BTree.height t <= BTree.MAX_PATH_HEIGHT →
  (Z.of_nat (BTree.arena_len (BTree.arena t)) <= 2 ^ 31)%Z →
  ∃ t' u', split_off key_size val_size o key =
      Some (inl (with_inner o (FlatBTreeMap t'), {| inner := FlatBTreeMap u'; backend := Pinned |})) ∧
    BTreeIter.items t' = Some (SortedAssoc.sm_to l key) ∧ BTreeIter.items u' = Some (SortedAssoc.sm_from l key) ∧
    (BTreeCut.clean_cut t key = true → represents t' (SortedAssoc.sm_to l key) ∧ represents u' (SortedAssoc.sm_from l key)).
Proof using Type*.
  intros Ho Hl Hne Hh Hn. unfold split_off, on_tree_mut, on_tree. rewrite Ho. unfold BTreeSurgery.split_off.
  destruct (BTreeCut.split_off_surgery_ok (MK := BTreeShape.full_nodes) key_size val_size t l key BTreeSurgery.DEFAULT_RIGHT_FRAC_LEFT_CUTOFF Hl Hne Hh Hn)
    as (t' & u' & -> & _ & Hi & _ & Hu & _ & Hc). exists t', u'. split_and!; [done|done|done|]. intros Hcl. by apply Hc.
Qed.
End optimap.

(** ** Examples: a map that leaves its hash table for the tree when it first grows *)

#[local] Notation small_key := BTreeSpec.small_key.
#[local] Notation small_val := BTreeSpec.small_val.

Definition demo_hash (_ : unit) (k : nat) : Z := Z.of_nat k.
Definition demo_policy : Policy := [(0%Z, Tomb); (1%Z, FlatBTree)].

Definition demo_map : OptiMap.OptiMap (S := unit) (K := nat) (V := nat) :=
  {| inner := TombMap {| table := TombTable.new; hash_builder := () |}; backend := AutoBackend demo_policy |}.

Abbreviation demo_rep := (rep SSE2 PureFallback demo_hash 64 small_key small_val).
Abbreviation demo_insert_inner := (dispatch_mut SSE2 PureFallback demo_hash 64 small_key small_val
  (λ _ _ A t, map_insert A t 5 50)).

Example demo_grows :
  (do ' (i, _) <- demo_insert_inner (inner demo_map);
   Some (capacity SSE2 PureFallback demo_hash 64 small_key small_val (with_inner demo_map i))) = Some 16.
Proof. vm_compute. reflexivity. Qed.

Example demo_moves :
  (do ' (o, _) <- insert SSE2 PureFallback demo_hash 64 small_key small_val () demo_map 5 50;
   Some (map_type o)) = Some FlatBTree.
Proof. vm_compute. reflexivity. Qed.

Lemma demo_new : with_policy SSE2 PureFallback demo_hash 64 small_key small_val () demo_policy = Some demo_map.
Proof. reflexivity. Qed.

Lemma demo_policy_sorted : policy_sorted demo_policy.
Proof. repeat constructor. Qed.

Lemma demo_represents : demo_rep demo_map ∅.
Proof.
  destruct (with_policy_ok (V := nat) SSE2 PureFallback demo_hash 64 small_key small_val eq_refl () demo_policy 0)
    as (o & Hrun & Hr & _); [exact demo_policy_sorted| |].
  - intros t Ht. vm_compute in Ht. injection Ht as <-. apply tomb_capable_0.
  - unfold with_policy in *. pose proof demo_new as Hn. unfold with_policy in Hn. rewrite Hrun in Hn. by injection Hn as <-.
Qed.

Lemma demo_growable : growable_inner SSE2 PureFallback demo_hash 64 small_key small_val (inner demo_map).
Proof. unfold growable_inner. cbn. split; vm_compute; lia. Qed.

Lemma demo_insertable :
  insertable_at SSE2 PureFallback demo_hash 64 small_key small_val demo_map 5 50.
Proof.
  split; [exact demo_growable|]. intros i p t [= <-] Hi _ Ht Hne.
  vm_compute in Hi. injection Hi as <-. vm_compute in Ht. injection Ht as <-. split.
  - vm_compute. by split.
  - intros hb i l Hb Hl. vm_compute in Hb, Hl. injection Hb as <-. injection Hl as <-.
    cbn [insertable_inner]. split; [|by destruct (dispatch_mut _ _ _ _ _ _ _ _) as [[? ?]|]].
    cbn. split; vm_compute; [discriminate|lia].
Qed.

Lemma optimap_refines_witness :
  MapLaws (optimap_api SSE2 PureFallback demo_hash 64 small_key small_val (λ _, ())) (map_rep (V := nat) SSE2 PureFallback demo_hash 64 small_key small_val) ∧
  mready (map_rep (V := nat) SSE2 PureFallback demo_hash 64 small_key small_val) demo_map.
Proof.
  destruct (optimap_refines SSE2 PureFallback demo_hash 64 small_key small_val eq_refl (V := nat) (λ _, ())) as [Hlaws Hready].
  split; [exact Hlaws|]. apply Hready. vm_compute. lia.
Defined.

Lemma optimap_insert_correct_witness :
  ∃ o', insert SSE2 PureFallback demo_hash 64 small_key small_val () demo_map 5 50 = Some (o', None) ∧ demo_rep o' {[5 := 50]} ∧ map_type o' = FlatBTree.
Proof.
  destruct (optimap_insert_correct SSE2 PureFallback demo_hash 64 small_key small_val eq_refl () demo_map ∅ 5 50)
    as (o' & i & Hrun & Hr & _ & Hi & Hf); [exact demo_policy_sorted|exact demo_represents|exact demo_insertable|].
  exists o'. split; [exact Hrun|]. split; [exact Hr|].
  vm_compute in Hi. injection Hi as <-. rewrite decide_True in Hf by (split; [done|vm_compute; discriminate]).
  vm_compute in Hf. by injection Hf.
Defined.

Lemma optimap_transition_correct_witness :
  ∃ o o', inner o ≠ inner demo_map ∧ demo_rep o {[5 := 50]} ∧
    transition_to SSE2 PureFallback demo_hash 64 small_key small_val () o FlatBTree 16 = Some o' ∧ demo_rep o' {[5 := 50]} ∧ map_type o' = FlatBTree.
Proof.
  destruct (insert_inner_ok SSE2 PureFallback demo_hash 64 small_key small_val eq_refl demo_map ∅ 5 50
    demo_represents demo_growable) as (i & Hi & Hr & _). cbn [lookup] in Hi.
  pose proof Hi as Hi'. vm_compute in Hi'. injection Hi' as Hi'.
  destruct (optimap_transition_correct SSE2 PureFallback demo_hash 64 small_key small_val eq_refl ()
    (with_inner demo_map i) {[5 := 50]} FlatBTree 16) as (o' & Ht & Hr' & Hty & _); [exact Hr| |].
  - subst i. refine (proj2 demo_insertable _ demo_policy FlatBTree eq_refl Hi _ eq_refl _); [vm_compute; discriminate|discriminate].
  - exists (with_inner demo_map i), o'. split; [subst i; discriminate|]. by split_and!.
Defined.

Lemma optimap_reserve_correct_witness :
  ∃ o', reserve SSE2 PureFallback demo_hash 64 small_key small_val () demo_map 20 = Some (inl o') ∧ demo_rep o' ∅ ∧ map_type o' = FlatBTree.
Proof.
  destruct (optimap_reserve_correct SSE2 PureFallback demo_hash 64 small_key small_val eq_refl () demo_map ∅ 20)
    as (o' & Hrun & Hr & _ & Hf); [exact demo_policy_sorted|exact demo_represents| |].
  - split; [cbn; unfold TombMap.reserve_bound; split_and!; vm_compute; (done || lia)|]. intros p t [= <-] Ht _. vm_compute in Ht. injection Ht as <-. split; [vm_compute; by split|].
    intros hb i l Hb Hl. vm_compute in Hl. injection Hl as <-. exact I.
  - exists o'. split; [exact Hrun|]. split; [exact Hr|]. vm_compute in Hf. by injection Hf.
Defined.

Lemma optimap_entry_stays_witness :
  ∃ o', try_insert SSE2 PureFallback demo_hash 64 small_key small_val demo_map 5 50 = Some (inl (o', None)) ∧ map_type o' = Tomb ∧
    capacity SSE2 PureFallback demo_hash 64 small_key small_val o' = 16 ∧ backend_for demo_policy 16 = Some FlatBTree.
Proof.
  destruct (optimap_entry_stays SSE2 PureFallback demo_hash 64 small_key small_val eq_refl demo_map ∅ 5 50)
    as [(o' & Hrun & _ & Hty & _) _]; [exact demo_represents|exact demo_growable|].
  exists o'. split; [exact Hrun|]. split; [exact Hty|]. split; [|reflexivity].
  vm_compute in Hrun. injection Hrun as <-. vm_compute. reflexivity.
Defined.

Lemma optimap_eq_correct_witness :
  ∃ o', demo_rep o' ∅ ∧ map_type o' = FlatBTree ∧ eq_map SSE2 PureFallback demo_hash 64 small_key small_val demo_map o' = Some true.
Proof.
  destruct (build_inner_ok SSE2 PureFallback demo_hash 64 small_key small_val eq_refl (V := nat) () FlatBTree 0)
    as (i & Hb & Hr & Hv); [vm_compute; by split|]. exists (with_inner demo_map i). split; [exact Hr|]. split; [exact Hv|].
  refine (optimap_eq_correct SSE2 PureFallback demo_hash 64 small_key small_val eq_refl demo_map ∅ (with_inner demo_map i) ∅ _ _ _);
    [exact demo_represents|exact Hr|]. vm_compute in Hb. injection Hb as <-. exact I.
Defined.

Lemma optimap_sorted_correct_witness :
  first_key_value demo_map = Some (inr NotFlatBTree) ∧ pop_first small_key small_val demo_map = Some (inr NotFlatBTree).
Proof.
  pose proof (optimap_sorted_correct demo_hash small_key small_val eq_refl demo_map) as Hs.
  cbn [inner demo_map] in Hs. by destruct Hs as (? & _ & _ & ? & _).
Defined.
