(* ===== verification/MakePerfect.v ===== *)
(** * Freezing an adaptive map

    The conversions of [optimap.rs] into the perfect-hash maps: the entries of the
    adaptive map, drained in whatever order its backend yields them, become a map
    that answers the same queries. *)

From Stdlib Require Import ZArith Lia.
From S2P Require Import Prelude HashTag Group TableApi MapApi BinSearch HashBackend PerfectHash Chd Float64 PerfectMap TagTable Bucketed Multilevel OptiMap OptiMapSpec.
From S2P Require BTreeNode.

Section perfect.
Context (tier : simd_tier) (f : hash_feature) {S K V : Type} `{OrdLaws K} `{Countable K}.
Context (hash : S → K → Z) (fuel key_size val_size : nat).

Abbreviation OptiMap := (@OptiMap.OptiMap S K V).
Abbreviation into_iter := (OptiMap.into_iter tier f hash fuel key_size val_size).
Implicit Types (o : OptiMap) (hb : S) (m : gmap K V).

(** [.expect(..)] on a construction. *)
Definition expect_build {A} (r : Result A) : Result A := match r with Ok a => Ok a | _ => Panic end.

(** [hb]: the default hasher of the new map. *)
(*@ optimap.rs : pub fn make_perfect( *)
Definition make_perfect hb o : option (Result (@PerfectMap ChdPhf K V)) :=
  do entries <- into_iter o; Some (expect_build (perfect_from_entries (hash hb) entries)).

(*@ optimap.rs : pub fn make_perfect_sparse( *)
Definition make_perfect_sparse hb o (config : PerfectMapConfig) : option (Result (@PerfectMapSparse ChdPhf K V)) :=
  do entries <- into_iter o; Some (sparse_from_entries (hash hb) entries config).

(*@ optimap.rs : pub fn make_perfect_unchecked( *)
Definition make_perfect_unchecked hb o : option (Result (@PerfectMapUnchecked ChdPhf V)) :=
  do entries <- into_iter o; Some (expect_build (unchecked_from_entries (hash hb) entries)).

(*@ optimap.rs : pub fn make_perfect_bucketed_with( *)
Definition make_perfect_bucketed_with hb o (lambda : f64) : option (Result (PerfectMapBucketed (K := K) (V := V))) :=
  do entries <- into_iter o; Some (bucketed_from_entries f (hash hb) entries lambda).

(** The default configuration: four keys per bucket. *)
(*@ optimap.rs : pub fn make_perfect_bucketed( *)
Definition make_perfect_bucketed hb o : option (Result (PerfectMapBucketed (K := K) (V := V))) :=
  make_perfect_bucketed_with hb o f64_4.

(*@ optimap.rs : pub fn make_perfect_multilevel_bucketed_with( *)
Definition make_perfect_multilevel_bucketed_with hb o (config : MultilevelBucketedConfig) :
    option (Result (PerfectMapMultilevelBucketed (K := K) (V := V))) :=
  do entries <- into_iter o; Some (multilevel_from_entries f (hash hb) entries config).

(*@ optimap.rs : pub fn make_perfect_multilevel_bucketed( *)
Definition make_perfect_multilevel_bucketed hb o : option (Result (PerfectMapMultilevelBucketed (K := K) (V := V))) :=
  make_perfect_multilevel_bucketed_with hb o default_multilevel.

(** ** The frozen map is the map *)

Context (Hcap : BTreeNode.assert_capacities key_size val_size = true).
Abbreviation rep := (OptiMapSpec.rep tier f hash fuel key_size val_size).

Lemma into_iter_entries o m : rep o m → ∃ l, into_iter o = Some l ∧ NoDup l.*1 ∧ map_of l = m.
Proof using Type*.
  intros Hr. apply (read_ok tier f hash fuel key_size val_size Hcap (λ _ _ A t, map_into_iter A t) (always (K := K) (V := V))
    (λ r, ∃ l, r = Some l ∧ enumerates l m) o m); [|done|apply always_ok].
  intros M E api R L t Ht _. by apply (ml_into_iter t m).
Qed.

(** The keys of the map have no two equal hashes. *)
Definition hashes_distinct hb m : Prop := ∀ k k', is_Some (m !! k) → is_Some (m !! k') → hash hb k = hash hb k' → k = k'.

Lemma item_hashes_distinct hb (l : list (K * V)) :
  NoDup l.*1 → hashes_distinct hb (map_of l) → NoDup (item_hashes fst (hash hb) l).
Proof using Type.
  intros Hn Hd. assert (item_hashes fst (hash hb) l = hash hb <$> l.*1) as ->.
  { unfold item_hashes. by rewrite <- list_fmap_compose. }
  assert (∀ k, k ∈ l.*1 → is_Some (map_of l !! k)) as Hin.
  { intros k ([k' v] & -> & Hkv)%list_elem_of_fmap. exists v. by apply map_of_lookup. }
  apply NoDup_fmap_2_strong; [|done]. intros k k' Hk Hk'. apply Hd; by apply Hin.
Qed.

(** C15: a successful conversion to a design that stores its keys - dense, sparse,
    bucketed, multi-level - answers every query, of a key that was there and of
    one that was not, as the adaptive map did.  The unchecked design stores no
    keys: it is shown to answer for the keys that were there and for no others.
    The bucketed conversions report a duplicate hash only when two keys of the map
    have the same hash.  For the multi-level design the map has fewer than
    [2 ^ 32] entries. *)
Theorem make_perfect_correct hb o m config lambda mconfig :
  rep o m →
  (∃ r, make_perfect hb o = Some r ∧ ∀ pm, r = Ok pm → perfect_len pm = size m ∧
     ∀ k, perfect_get (hash hb) pm k = Some (m !! k)) ∧
  (∃ r, make_perfect_sparse hb o config = Some r ∧ ∀ pm, r = Ok pm → ∀ k, sparse_get (hash hb) pm k = m !! k) ∧
  (∃ r, make_perfect_unchecked hb o = Some r ∧
     ∀ pm, r = Ok pm → ∀ k v, m !! k = Some v → get_unchecked (hash hb) pm k = Some v) ∧
  (∃ r, make_perfect_bucketed_with hb o lambda = Some r ∧
     (∀ pm, r = Ok pm → ∀ k, bucketed_get f tier (hash hb) pm k = Some (m !! k)) ∧
     (r = Err DuplicateHash → ¬ hashes_distinct hb m)) ∧
  (∃ r, make_perfect_multilevel_bucketed_with hb o mconfig = Some r ∧
     ((Z.of_nat (size m) < 2 ^ 32)%Z →
     (∀ pm, r = Ok pm → ∀ k, multilevel_get f tier (hash hb) pm k = Some (m !! k)) ∧
     (r = Err DuplicateHash → ¬ hashes_distinct hb m))).
Proof using Type*.
  intros Hr. destruct (into_iter_entries o m Hr) as (l & Hl & Hn & <-).
  unfold make_perfect, make_perfect_sparse, make_perfect_unchecked, make_perfect_bucketed_with, make_perfect_multilevel_bucketed_with.
  rewrite Hl. assert (¬ NoDup (item_hashes fst (hash hb) l) → ¬ hashes_distinct hb (map_of l)) as Hdup.
  { intros Hnot Hd. by apply Hnot, item_hashes_distinct. }
  split_and!; eexists; (split; [reflexivity|]).
  - intros pm Hpm. pose proof (perfect_map_ok (P := ChdPhf) (hash hb) l) as Hp.
    destruct (perfect_from_entries (hash hb) l) as [pm'|e|]; [|done..]. injection Hpm as ->.
    destruct Hp as (Hg & _ & Hlen & _). split; [by rewrite Hlen, map_of_size|done].
  - intros pm Hpm. by apply (perfect_sparse_ok (hash hb) l config pm).
  - intros pm Hpm k v Hk. destruct (unchecked_from_entries (hash hb) l) as [pm'|e|] eqn:Hu; [|done..]. injection Hpm as <-.
    apply (perfect_unchecked_ok (hash hb) l pm' Hu). by apply map_of_lookup.
  - pose proof (bucketed_map_ok f tier (hash hb) l lambda) as Hp. destruct (bucketed_from_entries _ _ _ _) as [pm'|e|].
    + split; [|done]. intros pm [= <-]. apply Hp.
    + split; [done|]. intros [= ->]. by apply Hdup.
    + by split.
  - intros H32. rewrite map_of_size in H32 by done.
    pose proof (multilevel_map_ok f tier (hash hb) l mconfig H32) as Hp. destruct (multilevel_from_entries _ _ _ _) as [pm'|e|].
    + split; [|done]. intros pm [= <-]. apply Hp.
    + split; [done|]. intros [= ->]. by apply Hdup.
    + by split.
Qed.
End perfect.

(** ** A map of twelve entries, frozen *)

Definition frozen_entries : list (nat * nat) := (λ k, (k, 10 * k)) <$> seq 1 12.
Abbreviation frozen_inner :=
  (OptiMap.insert_entries SSE2 PureFallback demo_hash 64 BTreeSpec.small_key BTreeSpec.small_val (inner demo_map) frozen_entries).

Lemma frozen_represents :
  ∃ i, frozen_inner = Some i ∧
    OptiMapSpec.rep SSE2 PureFallback demo_hash 64 BTreeSpec.small_key BTreeSpec.small_val (with_inner demo_map i)
      (inserted_all ∅ frozen_entries).
Proof.
  destruct (insert_entries_ok SSE2 PureFallback demo_hash 64 BTreeSpec.small_key BTreeSpec.small_val eq_refl demo_map ∅
    frozen_entries demo_represents) as (i & Hi & Hr & _); [vm_compute; repeat split; lia|eauto].
Qed.

Lemma make_perfect_correct_witness :
  ∃ o pm ps pu pb pl,
    make_perfect SSE2 PureFallback demo_hash 64 BTreeSpec.small_key BTreeSpec.small_val () o = Some (Ok pm) ∧
    (perfect_len pm = 12 ∧ perfect_get (demo_hash ()) pm 3 = Some (Some 30) ∧ perfect_get (demo_hash ()) pm 40 = Some None) ∧
    make_perfect_sparse SSE2 PureFallback demo_hash 64 BTreeSpec.small_key BTreeSpec.small_val () o default_config = Some (Ok ps) ∧
    (sparse_get (demo_hash ()) ps 3 = Some 30 ∧ sparse_get (demo_hash ()) ps 40 = None) ∧
    make_perfect_unchecked SSE2 PureFallback demo_hash 64 BTreeSpec.small_key BTreeSpec.small_val () o = Some (Ok pu) ∧
    get_unchecked (demo_hash ()) pu 3 = Some 30 ∧
    make_perfect_bucketed_with SSE2 PureFallback demo_hash 64 BTreeSpec.small_key BTreeSpec.small_val () o f64_4 = Some (Ok pb) ∧
    (bucketed_get PureFallback SSE2 (demo_hash ()) pb 3 = Some (Some 30) ∧
     bucketed_get PureFallback SSE2 (demo_hash ()) pb 40 = Some None) ∧
    make_perfect_multilevel_bucketed_with SSE2 PureFallback demo_hash 64 BTreeSpec.small_key BTreeSpec.small_val () o
      default_multilevel = Some (Ok pl) ∧
    (multilevel_get PureFallback SSE2 (demo_hash ()) pl 3 = Some (Some 30) ∧
     multilevel_get PureFallback SSE2 (demo_hash ()) pl 40 = Some None).
Proof.
  destruct frozen_represents as (i & Hi & Hrep).
  destruct (make_perfect_correct SSE2 PureFallback demo_hash 64 BTreeSpec.small_key BTreeSpec.small_val eq_refl ()
    (with_inner demo_map i) _ default_config f64_4 default_multilevel Hrep)
    as ((r1 & H1 & Q1) & (r2 & H2 & Q2) & (r3 & H3 & Q3) & (r4 & H4 & Q4 & _) & (r5 & H5 & Q5)).
  destruct (Q5 ltac:(by vm_compute)) as [Q5' _]. vm_compute in Hi. injection Hi as <-.
  pose proof H1 as E1. pose proof H2 as E2. pose proof H3 as E3. pose proof H4 as E4. pose proof H5 as E5.
  vm_compute in E1, E2, E3, E4, E5. injection E1 as <-. injection E2 as <-. injection E3 as <-. injection E4 as <-.
  injection E5 as <-. destruct (Q1 _ eq_refl) as [L1 G1]. eexists _, _, _, _, _, _.
  split; [exact H1|]. split; [split; [exact L1|split; [exact (G1 3)|exact (G1 40)]]|].
  split; [exact H2|]. split; [split; [exact (Q2 _ eq_refl 3)|exact (Q2 _ eq_refl 40)]|].
  split; [exact H3|]. split; [exact (Q3 _ eq_refl 3 30 ltac:(reflexivity))|].
  split; [exact H4|]. split; [split; [exact (Q4 _ eq_refl 3)|exact (Q4 _ eq_refl 40)]|].
  split; [exact H5|]. split; [exact (Q5' _ eq_refl 3)|exact (Q5' _ eq_refl 40)].
Defined.
