(* ===== verification/OptiSet.v ===== *)
(** * Adaptive sets

    [opti_set.rs]: an [OptiMap] to the unit type behind the interface of a set, and
    its conversions into perfect-hash sets. *)

From Stdlib Require Import ZArith Lia.
From S2P Require Import Prelude HashTag Group TableApi MapApi BinSearch PerfectHash Chd Float64 PerfectMap TagTable Bucketed Multilevel.
From S2P Require OptiMap OptiMapSpec BTreeSpec GenericSet MakePerfect BTreeNode SortedAssoc.
From S2P Require Import GenericSetSpec.

Section set.
Context (tier : simd_tier) (f : hash_feature) {S T : Type} `{OrdLaws T} `{Countable T}.
Context (hash : S → T → Z) (fuel key_size val_size : nat).

(** The set is its map. *)
(*@ opti_set.rs : pub struct OptiSet *)
Definition OptiSet : Type := OptiMap.OptiMap (S := S) (K := T) (V := unit).
Implicit Types (s other : OptiSet) (hb : S) (value : T).

(** ** Construction *)

(*@ opti_set.rs : pub fn new( *)
Definition new hb : option OptiSet :=
  OptiMap.new tier f hash fuel key_size val_size hb.

(*@ opti_set.rs : pub fn with_capacity( *)
Definition with_capacity hb (capacity : Z) : option OptiSet :=
  OptiMap.with_capacity tier f hash fuel key_size val_size hb capacity.

(*@ opti_set.rs : pub fn with_hint( *)
Definition with_hint hb (hint : OptiMap.Hint) : option OptiSet :=
  OptiMap.with_hint tier f hash fuel key_size val_size hb hint.

(*@ opti_set.rs : pub fn with_capacity_and_hint( *)
Definition with_capacity_and_hint hb (capacity : Z) (hint : OptiMap.Hint) : option OptiSet :=
  OptiMap.with_capacity_and_hint tier f hash fuel key_size val_size hb capacity hint.

(*@ opti_set.rs : pub fn sorted_with_capacity( *)
Definition sorted_with_capacity hb (capacity : Z) : option OptiSet :=
  OptiMap.sorted_with_capacity tier f hash fuel key_size val_size hb capacity.

(*@ opti_set.rs : pub fn from_sorted_iter< *)
Definition from_sorted_iter (debug_assertions : bool) (items : list T) : option OptiSet :=
  OptiMap.from_sorted_iter key_size val_size debug_assertions ((λ t, (t, ())) <$> items).

(*@ opti_set.rs : pub fn with_type( *)
Definition with_type hb (t : OptiMap.MapType) : option OptiSet :=
  OptiMap.with_type tier f hash fuel key_size val_size hb t.

(*@ opti_set.rs : pub fn with_type_and_capacity( *)
Definition with_type_and_capacity hb (t : OptiMap.MapType) (capacity : Z) : option OptiSet :=
  OptiMap.with_type_and_capacity tier f hash fuel key_size val_size hb t capacity.

(** ** Operations *)

(*@ opti_set.rs : pub fn insert( *)
Definition insert hb s value : option (OptiSet * bool) :=
  do ' (s, r) <- OptiMap.insert tier f hash fuel key_size val_size hb s value (); Some (s, match r with None => true | Some _ => false end).

(*@ opti_set.rs : pub fn contains< *)
Definition contains s value : option bool :=
  OptiMap.contains_key tier f hash fuel key_size val_size s value.

(*@ opti_set.rs : pub fn get< *)
Definition get s value : option (option T) :=
  do r <- OptiMap.get_key_value tier f hash fuel key_size val_size s value; Some (fst <$> r).

(*@ opti_set.rs : pub fn remove< *)
Definition remove s value : option (OptiSet * bool) :=
  do ' (s, r) <- OptiMap.remove tier f hash fuel key_size val_size s value; Some (s, match r with Some _ => true | None => false end).

(*@ opti_set.rs : pub fn take< *)
Definition take s value : option (OptiSet * option T) :=
  do ' (s, r) <- OptiMap.remove_entry tier f hash fuel key_size val_size s value; Some (s, fst <$> r).

(*@ opti_set.rs : pub fn len( *)
Definition len s : nat :=
  OptiMap.len tier f hash fuel key_size val_size s.

(*@ opti_set.rs : pub fn is_empty( *)
Definition is_empty s : bool :=
  OptiMap.is_empty tier f hash fuel key_size val_size s.

(*@ opti_set.rs : pub fn capacity( *)
Definition capacity s : nat :=
  OptiMap.capacity tier f hash fuel key_size val_size s.

(*@ opti_set.rs : pub fn clear( *)
Definition clear s : option OptiSet :=
  OptiMap.clear tier f hash fuel key_size val_size s.

(*@ opti_set.rs : pub fn map_type( *)
Definition map_type s : OptiMap.MapType :=
  OptiMap.map_type s.

(*@ opti_set.rs : pub fn reserve( *)
Definition reserve hb s (additional : Z) : option (OptiSet + TableApi.Panic) :=
  OptiMap.reserve tier f hash fuel key_size val_size hb s additional.

(*@ opti_set.rs : pub fn shrink_to_fit( *)
Definition shrink_to_fit s : option OptiSet :=
  OptiMap.shrink_to_fit tier f hash fuel key_size val_size s.

(*@ opti_set.rs : pub fn iter( *)
Definition iter s : option (list T) :=
  do l <- OptiMap.iter tier f hash fuel key_size val_size s; Some l.*1.

(*@ opti_set.rs : pub fn retain< *)
Definition retain {St} s (st : St) (g : St → T → St * bool) : option (OptiSet * St) :=
  OptiMap.retain tier f hash fuel key_size val_size s st (λ st k _, let '(st, keep) := g st k in (st, (), keep)).

(*@ opti_set.rs : pub fn drain( *)
Definition drain s : option (OptiSet * list T) :=
  do ' (s, l) <- OptiMap.drain tier f hash fuel key_size val_size s; Some (s, l.*1).

(*@ opti_set.rs : fn into_iter( *)
Definition into_iter s : option (list T) :=
  do ' (_, l) <- drain s; Some l.

(*@ opti_set.rs : fn clone( *)
Definition clone s : option OptiSet :=
  OptiMap.clone tier f hash fuel key_size val_size s.

(** ** Sorted operations: the panic of the map is the panic of the set *)

Definition on_ok {A B} (g : A → B) (r : option (A + OptiMap.SortedPanic)) : option (B + OptiMap.SortedPanic) :=
  do r <- r; Some (match r with inl a => inl (g a) | inr p => inr p end).

(*@ opti_set.rs : pub fn first( *)
Definition first s : option (option T + OptiMap.SortedPanic) :=
  on_ok (fmap fst) (OptiMap.first_key_value s).

(*@ opti_set.rs : pub fn last( *)
Definition last s : option (option T + OptiMap.SortedPanic) :=
  on_ok (fmap fst) (OptiMap.last_key_value s).

(*@ opti_set.rs : pub fn pop_first( *)
Definition pop_first s : option ((OptiSet * option T) + OptiMap.SortedPanic) :=
  on_ok (λ '(s, r), (s, fst <$> r)) (OptiMap.pop_first key_size val_size s).

(*@ opti_set.rs : pub fn pop_last( *)
Definition pop_last s : option ((OptiSet * option T) + OptiMap.SortedPanic) :=
  on_ok (λ '(s, r), (s, fst <$> r)) (OptiMap.pop_last key_size val_size s).

(*@ opti_set.rs : pub fn iter_sorted( *)
Definition iter_sorted s : option (list T + OptiMap.SortedPanic) :=
  on_ok (fmap fst) (OptiMap.iter_sorted s).

(*@ opti_set.rs : pub fn range< *)
Definition range s (start_bound end_bound : SortedAssoc.Bound T) : option (list T + OptiMap.SortedPanic) :=
  on_ok (fmap fst) (OptiMap.range s start_bound end_bound).

(*@ opti_set.rs : pub fn split_off *)
Definition split_off s (at_key : T) : option ((OptiSet * OptiSet) + OptiMap.SortedPanic) :=
  OptiMap.split_off key_size val_size s at_key.

(*@ opti_set.rs : pub fn append *)
Definition append (debug_assertions : bool) s other : option ((OptiSet * OptiSet) + OptiMap.SortedPanic) :=
  OptiMap.append key_size val_size debug_assertions s other.

(** ** Set algebra; [fresh s]: the hasher a table built by an insertion into [s] is given *)

(*@ opti_set.rs : pub fn is_disjoint *)
Definition is_disjoint s other : option bool :=
  if len s <=? len other then do l <- iter s; GenericSet.all_items (GenericSet.not (contains other)) l
  else do l <- iter other; GenericSet.all_items (GenericSet.not (contains s)) l.

(*@ opti_set.rs : pub fn is_subset *)
Definition is_subset s other : option bool :=
  if len other <? len s then Some false
  else do l <- iter s; GenericSet.all_items (contains other) l.

(*@ opti_set.rs : pub fn is_superset *)
Definition is_superset s other : option bool := is_subset other s.

(*@ opti_set.rs : fn eq(&self *)
Definition eq_set s other : option bool :=
  if negb (len s =? len other) then Some false
  else do l <- iter s; GenericSet.all_items (contains other) l.

Context (fresh : OptiSet → S).

(*@ opti_set.rs : fn extend< *)
Fixpoint extend s (items : list T) : option OptiSet :=
  match items with
  | [] => Some s
  | item :: items' => do ' (s, _) <- insert (fresh s) s item; extend s items'
  end.

(*@ opti_set.rs : fn from_iter *)
Definition from_iter hb (lower : Z) (items : list T) : option OptiSet :=
  do s <- with_capacity hb lower; extend s items.

(** [for item in items { if cond(item) { result.insert(item.clone()); } }] *)
Fixpoint insert_if (cond : T → option bool) (items : list T) (result : OptiSet) : option OptiSet :=
  match items with
  | [] => Some result
  | item :: items' =>
      do b <- cond item;
      if b : bool then do ' (result, _) <- insert (fresh result) result item; insert_if cond items' result
      else insert_if cond items' result
  end.

(*@ opti_set.rs : pub fn union *)
Definition union hb s other : option OptiSet :=
  do result <- with_capacity hb (Z.of_nat (len s + len other));
  do l <- iter s;
  do result <- extend result l;
  do l <- iter other;
  extend result l.

(*@ opti_set.rs : pub fn intersection *)
Definition intersection hb s other : option OptiSet :=
  do result <- new hb;
  let '(smaller, larger) := if len s <=? len other then (s, other) else (other, s) in
  do l <- iter smaller;
  insert_if (contains larger) l result.

(*@ opti_set.rs : pub fn difference *)
Definition difference hb s other : option OptiSet :=
  do result <- new hb;
  do l <- iter s;
  insert_if (GenericSet.not (contains other)) l result.

(*@ opti_set.rs : pub fn symmetric_difference *)
Definition symmetric_difference hb s other : option OptiSet :=
  do result <- new hb;
  do l <- iter s;
  do result <- insert_if (GenericSet.not (contains other)) l result;
  do l <- iter other;
  insert_if (GenericSet.not (contains s)) l result.

(** ** Freezing *)

(** The elements drained, as [into_iter] yields them. *)
(*@ opti_set.rs : pub fn make_perfect( *)
Definition make_perfect hb s : option (Result (@PerfectSet ChdPhf T)) :=
  do items <- into_iter s; Some (MakePerfect.expect_build (set_from_keys (hash hb) items)).

(*@ opti_set.rs : pub fn make_perfect_bucketed_with( *)
Definition make_perfect_bucketed_with hb s (lambda : f64) : option (Result (PerfectSetBucketed (K := T))) :=
  do items <- into_iter s; Some (bucketed_from_keys f (hash hb) items lambda).

(*@ opti_set.rs : pub fn make_perfect_bucketed( *)
Definition make_perfect_bucketed hb s : option (Result (PerfectSetBucketed (K := T))) :=
  make_perfect_bucketed_with hb s f64_4.

(*@ opti_set.rs : pub fn make_perfect_multilevel_bucketed_with( *)
Definition make_perfect_multilevel_bucketed_with hb s (config : MultilevelBucketedConfig) :
    option (Result (PerfectSetMultilevelBucketed (K := T))) :=
  do items <- into_iter s; Some (multilevel_from_keys f (hash hb) items config).

(*@ opti_set.rs : pub fn make_perfect_multilevel_bucketed( *)
Definition make_perfect_multilevel_bucketed hb s : option (Result (PerfectSetMultilevelBucketed (K := T))) :=
  make_perfect_multilevel_bucketed_with hb s default_multilevel.

(** ** The adaptive set is the generic set over the adaptive map *)

Context (Hcap : BTreeNode.assert_capacities key_size val_size = true).
Abbreviation api := (OptiMap.optimap_api tier f hash fuel key_size val_size (V := unit) fresh).
Abbreviation rep := (OptiMapSpec.map_rep tier f hash fuel key_size val_size (V := unit)).

#[local] Instance api_laws : MapLaws api rep.
Proof using Type*. by apply OptiMapSpec.optimap_laws. Qed.

Lemma contains_same s X value :
  set_rep rep s X → OptiMapSpec.ready tier f hash fuel key_size val_size s → contains s value = GenericSet.contains api s value.
Proof using Type*.
  intros Hr Hb. rewrite (set_contains_ok api rep s X value Hr Hb). unfold contains.
  pose proof (ml_contains_key (A := api) s _ value Hr Hb) as Hc. cbn [map_contains_key OptiMap.optimap_api] in Hc. rewrite Hc.
  f_equal. apply bool_decide_ext. rewrite lookup_set. destruct (decide (value ∈ X)); split; naive_solver.
Qed.

Lemma all_items_ext (g h : T → option bool) l : (∀ v, g v = h v) → GenericSet.all_items g l = GenericSet.all_items h l.
Proof using Type. intros E. induction l as [|v l IH]; [done|]. cbn. rewrite E. destruct (h v) as [[]|]; done. Qed.

Lemma not_ext (g h : T → option bool) v : g v = h v → GenericSet.not g v = GenericSet.not h v.
Proof using Type. unfold GenericSet.not. by intros ->. Qed.

Lemma extend_same s items : extend s items = GenericSet.extend api s items.
Proof using Type.
  revert s. induction items as [|v items IH]; intros s; [done|]. cbn [extend GenericSet.extend].
  change (insert (fresh s) s v) with (GenericSet.insert api s v). destruct (GenericSet.insert api s v) as [[s' b]|]; [apply IH|done].
Qed.

Lemma insert_if_same (g h : T → option bool) items s :
  (∀ v, g v = h v) → insert_if g items s = GenericSet.insert_if api h items s.
Proof using Type.
  intros E. revert s. induction items as [|v items IH]; intros s; [done|]. cbn [insert_if GenericSet.insert_if].
  rewrite E. destruct (h v) as [[]|]; [|apply IH|done].
  change (insert (fresh s) s v) with (GenericSet.insert api s v). destruct (GenericSet.insert api s v) as [[s' b]|]; [apply IH|done].
Qed.

Lemma iter_defined s X : set_rep rep s X → ∃ l, iter s = Some l.
Proof using Type*. intros Hr. destruct (set_iter_ok api rep s X Hr) as (l & Hl & _). by exists l. Qed.

(** The adaptive set behaves as the generic set over the adaptive map, although it
    tests membership with another method and picks the smaller operand in
    another way: every operation of the algebra gives the same result. *)
Theorem optiset_is_generic hb s X other Y :
  set_rep rep s X → set_rep rep other Y →
  OptiMapSpec.ready tier f hash fuel key_size val_size s → OptiMapSpec.ready tier f hash fuel key_size val_size other →
  is_disjoint s other = GenericSet.is_disjoint api api s other ∧
  is_subset s other = GenericSet.is_subset api api s other ∧
  is_superset s other = GenericSet.is_superset api api s other ∧
  eq_set s other = GenericSet.eq_set api s other ∧
  union hb s other = GenericSet.union api hb s other ∧
  intersection hb s other = GenericSet.intersection api api hb s other ∧
  difference hb s other = GenericSet.difference api api hb s other ∧
  symmetric_difference hb s other = GenericSet.symmetric_difference api hb s other.
Proof using Type*.
  intros Hr Hr2 Hb Hb2. pose proof (λ v, contains_same s X v Hr Hb) as Hc. pose proof (λ v, contains_same other Y v Hr2 Hb2) as Hc2.
  pose proof (λ v, not_ext _ _ v (Hc v)) as Hn. pose proof (λ v, not_ext _ _ v (Hc2 v)) as Hn2.
  unfold is_superset, GenericSet.is_superset, is_disjoint, GenericSet.is_disjoint, is_subset, GenericSet.is_subset,
    eq_set, GenericSet.eq_set, union, GenericSet.union, intersection, GenericSet.intersection, difference, GenericSet.difference,
    symmetric_difference, GenericSet.symmetric_difference.
  change (GenericSet.iter api s) with (iter s). change (GenericSet.iter api other) with (iter other).
  change (GenericSet.len api s) with (len s). change (GenericSet.len api other) with (len other).
  change (GenericSet.new api hb) with (new hb). change (GenericSet.with_capacity api hb) with (with_capacity hb).
  destruct (iter s) as [l|] eqn:Hl; [|by destruct (iter_defined s X Hr) as [? E]; congruence].
  destruct (iter other) as [l2|] eqn:Hl2; [|by destruct (iter_defined other Y Hr2) as [? E]; congruence].
  split_and!.
  - rewrite (all_items_ext _ _ l Hn2), (all_items_ext _ _ l2 Hn). done.
  - by rewrite (all_items_ext _ _ l Hc2).
  - by rewrite (all_items_ext _ _ l2 Hc).
  - by rewrite (all_items_ext _ _ l Hc2).
  - destruct (with_capacity hb _) as [r|]; [|done]. rewrite extend_same. destruct (GenericSet.extend api r l); [apply extend_same|done].
  - destruct (new hb) as [r|]; [|done]. destruct (len s <=? len other); [rewrite Hl|rewrite Hl2]; by apply insert_if_same.
  - destruct (new hb) as [r|]; [|done]. by apply insert_if_same.
  - destruct (new hb) as [r|]; [|done]. rewrite (insert_if_same _ _ l r Hn2).
    destruct (GenericSet.insert_if api _ l r); [by apply insert_if_same|done].
Qed.

Lemma into_iter_items s X : set_rep rep s X → ∃ l, into_iter s = Some l ∧ NoDup l ∧ ∀ x, x ∈ l ↔ x ∈ X.
Proof using Type*.
  intros Hr. destruct (ml_drain (A := api) s _ Hr) as (l & s' & Hd & [Hn Hm] & _). exists l.*1.
  cbn [map_drain OptiMap.optimap_api] in Hd. unfold into_iter, drain.
  destruct (OptiMap.drain _ _ _ _ _ _ s) as [[s1 l1]|]; [|done]. injection Hd as -> ->. split_and!; [done|done|].
  intros x. rewrite <- (dom_gset_to_gmap X ()), <- Hm. by rewrite dom_list_to_map_L, elem_of_list_to_set.
Qed.

(** Freezing an adaptive set: a perfect-hash set that was built answers membership
    as the set did (the multi-level design for fewer than [2 ^ 32] items). *)
Theorem optiset_make_perfect_correct hb s X lambda config :
  set_rep rep s X →
  (∃ r, make_perfect hb s = Some r ∧ ∀ p, r = Ok p → ∀ x, set_contains (hash hb) p x = Some (bool_decide (x ∈ X))) ∧
  (∃ r, make_perfect_bucketed_with hb s lambda = Some r ∧
     ∀ p, r = Ok p → ∀ x, bucketed_set_get f tier (hash hb) p x = Some (if decide (x ∈ X) then Some x else None)) ∧
  (∃ r, make_perfect_multilevel_bucketed_with hb s config = Some r ∧
     ∀ p, r = Ok p → (Z.of_nat (size X) < 2 ^ 32)%Z → ∀ x, multilevel_set_get f tier (hash hb) p x = Some (if decide (x ∈ X) then Some x else None)).
Proof using Type*.
  intros Hr. destruct (into_iter_items s X Hr) as (l & Hl & Hn & Hin).
  assert (length l = size X) as Hsz.
  { rewrite <- (size_list_to_set (C := gset T) l) by done. apply set_size_proper. set_solver. }
  unfold make_perfect, make_perfect_bucketed_with, make_perfect_multilevel_bucketed_with. rewrite Hl.
  assert (∀ x, (if decide (x ∈ l) then Some x else None) = (if decide (x ∈ X) then Some x else None)) as Hd.
  { intros x. specialize (Hin x). by do 2 case_decide; naive_solver. }
  split_and!; eexists; (split; [reflexivity|]); intros p Hp.
  - intros x. destruct (set_from_keys (hash hb) l) as [p'|e|] eqn:Hs; [|done..]. injection Hp as <-.
    destruct (perfect_set_ok (hash hb) l p' Hs) as [Hc _]. rewrite Hc. f_equal. by apply bool_decide_ext.
  - intros x. destruct (bucketed_set_ok f tier (hash hb) l lambda p Hp) as [Hc _]. by rewrite Hc, Hd.
  - intros H32 x. rewrite <- Hsz in H32. destruct (multilevel_set_ok f tier (hash hb) l config p H32 Hp) as [Hc _]. by rewrite Hc, Hd.
Qed.
End set.

#[local] Notation small_key := BTreeSpec.small_key.
#[local] Notation small_val := BTreeSpec.small_val.
Abbreviation demo_set_rep := (set_rep (OptiMapSpec.map_rep SSE2 PureFallback demo_hash 64 small_key small_val (V := unit))).

Lemma demo_set_ok :
  ∃ s, new SSE2 PureFallback demo_hash 64 small_key small_val () = Some s ∧ demo_set_rep s ∅ ∧
    OptiMapSpec.ready SSE2 PureFallback demo_hash 64 small_key small_val s.
Proof.
  destruct (OptiMapSpec.auto_ok SSE2 PureFallback demo_hash 64 small_key small_val eq_refl (V := unit) () 0
    (OptiMapSpec.tomb_capable_0 SSE2 PureFallback demo_hash 64 small_key small_val)) as (s & Hs & Hr & Hp).
  exists s. split; [exact Hs|]. split; [unfold set_rep; rewrite gset_to_gmap_empty; by split|].
  vm_compute in Hs. injection Hs as <-. vm_compute. lia.
Qed.

Lemma optiset_is_generic_witness :
  ∃ s, new SSE2 PureFallback demo_hash 64 small_key small_val () = Some s ∧
    union SSE2 PureFallback demo_hash 64 small_key small_val (λ _, ()) () s s =
    GenericSet.union (OptiMap.optimap_api SSE2 PureFallback demo_hash 64 small_key small_val (λ _, ())) () s s.
Proof.
  destruct demo_set_ok as (s & Hs & Hr & Hb). exists s. split; [exact Hs|].
  destruct (optiset_is_generic SSE2 PureFallback demo_hash 64 small_key small_val (λ _, ()) eq_refl () s ∅ s ∅ Hr Hr Hb Hb)
    as (_ & _ & _ & _ & Hu & _). exact Hu.
Defined.

Lemma optiset_make_perfect_correct_witness :
  ∃ s r, new SSE2 PureFallback demo_hash 64 small_key small_val () = Some s ∧
    make_perfect SSE2 PureFallback demo_hash 64 small_key small_val () s = Some r.
Proof.
  destruct demo_set_ok as (s & Hs & Hr & _). exists s.
  destruct (optiset_make_perfect_correct SSE2 PureFallback demo_hash 64 small_key small_val (λ _, ()) eq_refl () s ∅ f64_4 default_multilevel Hr)
    as [(r & Hm & _) _]. exists r. by split.
Defined.
